(* ===== verification/_CoqProject ===== *)
-Q . S2P
Prelude.v
Words.v
Terms.v
Encoding.v
Operations.v
RealSemantics.v
ExactNat.v
Float.v
Exact.v
ExactInput.v
ExactRound.v
Certified.v
CertifiedReal.v
Checked.v
Recognize.v
Bytes.v
Stream.v
FloatArith.v
FloatInt.v
Symbolic.v
Operands.v
Evaluate.v
Matrix.v
Complex.v
Synthesis.v
Search.v
Convert.v
ArrayQueue.v
Interleaving.v
AppendOnly.v
WorkQueues.v
Syntax.v
HashCons.v
Rpn.v
Linearize.v
Fragments.v
HotLoop.v
Schedule.v
Text.v
Float32.v
GgufCodecs.v
Gguf.v
GgufFormat.v
WeightLimits.v
WeightMetadata.v
WeightFormat.v
WeightReader.v
WeightWriter.v
GgufPreflight.v
WeightConvert.v
