(* ===== verification/Prelude.v ===== *)
(** * BML: a verification library for the symbolic number core and its execution

    The repository encodes real numbers as trees of one binary operator,
    [B(x, y) = exp2(x) - log2(y)], over the constant one. This library models the
    crate that gives those trees their meaning, [src/crates/domain]; the path from a
    shared graph of applications to its execution, through the compiler's registry,
    stack programs and files and the runtime's interpreter and scheduler; the shared
    structures through which the runtime passes work and results; the reader of model
    files and their decoders, [src/crates/gguf]; and the container file of certified
    weights, [src/crates/model-weights]. Everything is a shallow embedding
    that evaluates, file by file, with what each file promises proved. This
    first file holds the shared vocabulary; the list below says where the rest is.

    ** Parts, files and theorems

    - Data. [Words.v] has little-endian vectors of 64-bit words; [Terms.v] the free
      algebra of terms of symbolic.rs and its prefix code; [Bytes.v] bytes and bits;
      [Float.v] and [FloatArith.v] binary64 by its pattern, and its arithmetic.
    - [Encoding.v], number/encoding.rs: the [Bml] type, validation, parsing, printing
      and ordered application. [Represents b t] says that the words [b] encode the
      term [t]; acceptance is characterised, and [op_with_limit] is the constructor.
    - [Operations.v] and [RealSemantics.v], number/operations.rs: the expansion rules,
      the partial real semantics [denotes t x] of terms, and the theorem that the rules
      have the real values their names promise, under the budget they are given.
    - [ExactNat.v], [Exact.v], [ExactInput.v], [ExactRound.v], number/exact.rs: word
      vectors as natural numbers, rationals in lowest terms, decimal and binary64
      input, and correctly rounded output. [rat_wf] is the invariant of a rational and
      [rat_Q] its value.
    - [Certified.v], [CertifiedReal.v], number/certified.rs: derivations, replay and
      synthesis. [certified c] says that the derivation of [c] gives its target and its
      term; [certificate_sound] that an accepted claim is a real identity.
    - [Checked.v], [Operands.v], number/checked.rs: arithmetic on certificates, the
      trait of operands as the class [ExactOperand] with its laws [OperandLaws], its
      five instances, and the operators, proved once against the class.
    - [Recognize.v], number/recognize.rs: interning and recovery of a derivation.
    - [Evaluate.v], number/evaluate.rs: replay, then one rounding.
    - [Convert.v], number/convert.rs: the numerical synthesis of a float, whose result
      has the real value it was built for and passed its own evaluation.
    - [Matrix.v], number/matrix.rs: matrices under budgets, as [BmlMatrix] with the
      invariant [Valid], and their exact products. It uses [Recognize], [Checked] and
      the class of operands.
    - [Search.v], number/search.rs: candidate families, their ordering, the report and
      the cache of a searcher. It uses all of the above.
    - [Stream.v], number/stream.rs: fixed-width exports and the framed stream.
    - [Symbolic.v], [Complex.v], [Synthesis.v], symbolic.rs and symbolic/: open terms,
      finite real evaluation and the stack machine of [Bml::to_f64]; bounded complex
      evaluation; the bounded enumeration of small trees.
    - [ArrayQueue.v], [Interleaving.v], crates/queue: the bounded queue. The first file
      has the operations, the shared ones as the successive accesses of a thread, and
      their sequential behaviour ([Represents q h l]: the queue [q] holds [l] after [h]
      elements left), wraps of the stamps included. The second runs any number of
      threads in any order and proves the queue linearizable, free of undefined accesses
      and of races on a value, and that a thread left alone finishes, with a bound on its
      accesses that grows only with the spurious failures of its compare-exchanges.
    - [AppendOnly.v], runtime/append_only.rs: the store of results, in any interleaving.
    - [WorkQueues.v], runtime/queue.rs: pending work over [ArrayQueue], and work stealing.
    - [Syntax.v], ast.rs, soa.rs, encoder.rs, operator.rs of domain: the operator on
      floats, nodes, the columns of a graph and the encoder of real values; [FloatInt.v]
      has what floats that hold whole numbers do, which counters and offsets are.
    - [HashCons.v], compiler/hash_cons.rs and dag.rs: the registry of shared nodes, with
      constant folding. Its client is a list of requests that refer to earlier answers;
      the answers evaluate to what the requests mean without sharing or folding, and
      equal requests get the same node.
    - [Rpn.v], [Linearize.v], compiler/rpn.rs: stack programs, their two reference
      evaluators, and the lowering of a graph to one, which keeps every reachable node's
      value at a fixed height of the stack.
    - [Fragments.v], compiler/fragment.rs: cutting, and the file format with its round
      trip and limits.
    - [HotLoop.v], hot_loop.rs, buffer.rs and runtime.rs of runtime: the interpreter over
      any store of results (class [ResultStore]), the buffer and the ring of results.
      [runtime_executes_requests] composes registry, lowering, cutting and interpreter.
    - [Schedule.v], runtime/operation_schedule.rs: the abstract execution that bounds what
      a fragment reads and writes, the waves, and their execution on views of the buffer.
      The same interpreter runs on both stores; [visit_sound] is the simulation between
      them that the analysis justifies, and [parallel_is_sequential] its consequence.
    - [Text.v]: UTF-8, hexadecimal and decimal text, which both file formats use.
    - [Float32.v], [GgufCodecs.v], codecs.rs and error.rs of gguf: binary32 by its
      pattern; widening of binary16, which is exact; the decoders of scalars and of the
      quantized blocks Q4_0, Q8_0 and Q6_K, proved equal to the reference layout of GGML.
    - [Gguf.v], [GgufFormat.v], gguf.rs and view.rs: the parsers of the header, the
      metadata and the descriptors, each with the bytes it reads ([reads]); opening,
      lookup, views. [gguf_laid_out] says what a model file is: [open] accepts exactly
      those files and never panics, every tensor of a known layout can then be viewed, and
      decoding it row by row gives the decoded whole.
    - [WeightLimits.v], limits.rs, types.rs and error.rs of model-weights: the budgets of
      the weight container, their validation and the typed errors.
    - [WeightMetadata.v], metadata.rs and metadata_encode.rs: the visitor that bounds a
      JSON text while it is parsed, the strict decoder and the encoder. Metadata that the
      encoder accepts decodes to itself; metadata that the decoder accepts is well typed
      and within the limits.
    - [WeightFormat.v], [WeightReader.v], reader.rs: the cursor and the records of the
      format, opening, reading of a block and verification. [laid_out] says what a file
      of the format is; [open] accepts exactly those files, a block is read exactly if
      its bytes are the ones the catalog promises ([stored]), and verification succeeds
      exactly if every block can be read. No reading panics, whatever the bytes are.
    - [WeightWriter.v], writer.rs and memory.rs: the state machine of the writer over
      [Reader] and [Stream], with [writer_ok] as its invariant. A run of accepted calls
      gives a file that the reader accepts and that holds exactly the weights that were
      passed, in order; after a failure every call fails.
    - [GgufPreflight.v], [WeightConvert.v], gguf_preflight.rs and convert.rs: the scan that
      bounds a model file before it is mapped, and the conversion of a model file to a
      weight file. [ends_in m Q] says that [m] does not panic and that its result satisfies
      [Q]; the loops of the conversion are followed with it. [conversion_exact] composes
      [Gguf], [GgufCodecs], [Certified], [CertifiedReal], [WeightWriter] and [WeightReader]:
      every weight of the published file is a term whose real value is the decoded number.

    ** How the code is represented

    A machine integer is a [Z] with its wrap-around or check written out
    ([checked_add], [wrapping_sub], [as_u64]); a [Vec] is a list; [Result<A, E>] is
    [Result E A] below, with its monad. A [for] loop that may leave the function is
    [for_each]; a [while] loop is a fixpoint on its data or the combinator [while].
    Where the code can panic (an index, an [expect]) the error type is an [option] and
    [Err None], or [None], is the panic: the theorems show it unreachable. Mutation is
    state passing: an operation returns the new value of what it changes. A trait is a
    class; a generic function is proved against the laws of the class.

    A structure shared by threads is one state. A thread inside a call is a program
    counter with the locals that are live ([Thread]); [run] does its next atomic access,
    and an inductive [step] lets any thread go on, call or return. Executions record the
    calls and returns. Memory is sequentially consistent. The workers of a wave instead own
    disjoint parts of the buffer, as the borrow checker demands, so a worker is a function
    of its view, and the views are given back when it ends.

    A stack of floats is a list with its top first; an index from the bottom looks in the
    reversed list. A program is a list of operations, and a slice of it a list.

    ** Bounds and fuel

    [usize] and [u64] have 64 bits. Recursions on sizes that shrink take fuel that the
    theorems show sufficient: the number of bits of the operands for the gcd, the depth
    budget of the synthesizer itself for [integer], the number of turns given to [while].
    That combinator counts in binary, so that bounds such as [2 ^ 33] trial divisors or
    [2 ^ (size + 1)] prefixes cost nothing; its rule [while_total] needs a variant and
    proves termination. The hypotheses [limits_ok] and [options_ok] say that budgets
    are [usize] values, the topmost values apart; the defaults satisfy them. The theorems
    on interleavings of the array queue bound the steps of an execution by the number of
    positions that 64-bit stamps tell apart (at least [2 ^ 61]), beyond which a thread
    that sleeps through every lap takes an old stamp for a new one. The lowering of a graph
    of [n] nodes turns at most [4 * n + 2] times; the interpreters take the length of the
    program as fuel, since slices shrink; the analysis of a fragment takes its own budget
    and one ([analysis_terminates]).

    ** Parameters

    The functions of the platform's math library ([exp], [ln], [atan2] and so on) are
    the class [Libm]: every theorem holds whatever they return. The capacity of a
    vector is the class [Allocation]. The callbacks of a generalized product are
    arguments that thread a state of their own. The segmented queue of a node is the
    class [SegQueue] with the laws its documentation states, [SegQueueLaws]. The size of an
    operation in memory, which cutting uses, is an argument; the size of a derivation step,
    which the accounting of the weight writer uses, is the class [StepSize], and that of a
    certificate [CertificateSize]. The order in which a hash map is iterated is the class
    [MapOrder], a permutation of its entries ([MapOrderLaws]). The JSON
    library is the class [JsonText], a writer of chunks and a parser, with the round trip
    its documentation promises for trees below its limit of depth as [JsonTextLaws]; the hash is the class [Sha256], of which
    the theorems use that it gives 32 bytes ([Sha256Laws]).

    ** Not modelled

    - Failure of an allocation ([try_reserve]), which the code maps to a limit error.
    - Error texts ([Display]) and error sources; elapsed times of a search.
    - The weak memory orderings, fences and backoff of the concurrent structures, and the
      observers of the array queue ([len], [is_empty]) while other threads run.
    - Names and sizes that describe an operation fragment; capacities of vectors.
    - The file system under the weight container: read and write faults, temporary files
      and their removal, the hard link that publishes a file. A file is its bytes, and
      whether the destination exists is an argument. The measured times, and the
      peak of the memory account.
    - The mapping of a model file into memory, and the optional conversion of a decoded
      tensor to the CPU tensor of the kernels.
    - The rest of the workspace: the tokenizer and the
      templates of neural operations, and the tensor and transformer references, whose
      contract is floating-point accuracy; mapped memory, processes and the network; the
      parser, an adapter of a third-party library; the applications, which are I/O. *)

From stdpp Require Export base tactics list list_numbers numbers option strings.
From stdpp Require Export gmap.
From Stdlib Require Export ZArith Lia.
From Stdlib Require Ascii.
Export Ascii.AsciiSyntax.
Delimit Scope char_scope with char.
#[global] Open Scope Z_scope.

(** ** Results: Rust's [Result<A, E>] *)

Inductive Result (E A : Type) : Type :=
  | Ok (a : A)
  | Err (e : E).
Arguments Ok {E A} a.
Arguments Err {E A} e.

#[global] Instance Result_ret E : MRet (Result E) := λ A a, Ok a.
#[global] Instance Result_bind E : MBind (Result E) :=
  λ A B f m, match m with Ok a => f a | Err e => Err e end.
#[global] Instance Result_fmap E : FMap (Result E) :=
  λ A B f m, match m with Ok a => Ok (f a) | Err e => Err e end.
#[global] Instance Result_eq_dec {E A} `{EqDecision E, EqDecision A} :
  EqDecision (Result E A).
Proof. solve_decision. Defined.

(** [Option::ok_or] and [Result::map_err]. *)
Definition ok_or {E A} (e : E) (o : option A) : Result E A :=
  match o with Some a => Ok a | None => Err e end.
Definition map_err {E F A} (f : E → F) (m : Result E A) : Result F A :=
  match m with Ok a => Ok a | Err e => Err (f e) end.
Definition is_ok {E A} (m : Result E A) : bool :=
  match m with Ok _ => true | Err _ => false end.

(** A Rust [for] loop whose body updates a state and may leave the function
    with an error through the question-mark operator. *)
Fixpoint for_each {E I S} (body : I → S → Result E S) (l : list I) (s : S) : Result E S :=
  match l with
  | [] => Ok s
  | i :: l => s ← body i s; for_each body l s
  end.

(** Decides an equivalence by cases on one result or option. *)
Ltac result_cases m :=
  destruct m; simpl; split; intros; destruct_and?; destruct_or?;
  repeat match goal with H : ∃ _, _ |- _ => destruct H as (?&?&?) end;
  simplify_eq; eauto.

Section result_lemmas.
Context {E : Type}.

Lemma bind_ok {A B} (f : A → Result E B) (m : Result E A) b :
  (m ≫= f) = Ok b ↔ ∃ a, m = Ok a ∧ f a = Ok b.
Proof. result_cases m. Qed.

Lemma Ok_bind {A B} (f : A → Result E B) a : (Ok a ≫= f) = f a.
Proof. done. Qed.

Lemma bind_assoc {A B C} (m : Result E A) (f : A → Result E B) (g : B → Result E C) :
  ((m ≫= f) ≫= g) = (m ≫= λ a, f a ≫= g).
Proof. by destruct m. Qed.

Lemma bind_err {A B} (f : A → Result E B) (m : Result E A) e :
  (m ≫= f) = Err e ↔ m = Err e ∨ ∃ a, m = Ok a ∧ f a = Err e.
Proof. result_cases m. Qed.

Lemma ok_or_ok {A} (e : E) (o : option A) a : ok_or e o = Ok a ↔ o = Some a.
Proof. result_cases o. Qed.

Lemma map_err_ok {F A} (f : F → E) (m : Result F A) a :
  map_err f m = Ok a ↔ m = Ok a.
Proof. result_cases m. Qed.

Lemma for_each_app {I St : Type} (body : I → St → Result E St) l1 l2 s :
  for_each body (l1 ++ l2) s = (for_each body l1 s ≫= for_each body l2).
Proof.
  revert s. induction l1 as [|i l1 IH]; intros s; [done|]. simpl.
  destruct (body i s) as [s'|]; [apply IH|done].
Qed.

Lemma for_each_fmap {A B St : Type} (body : B → St → Result E St) (f : A → B) l s :
  for_each (λ a, body (f a)) l s = for_each body (f <$> l) s.
Proof.
  revert s. induction l as [|a l IH]; intros s; [done|]. cbn. destruct (body (f a) s); [apply IH|done].
Qed.

(** The invariant rule for successful loops: [P k s] after [k] iterations. *)
Lemma for_each_inv {I St : Type} (P : nat → St → Prop) (body : I → St → Result E St) l s s' :
  for_each body l s = Ok s' → P 0%nat s →
  (∀ k i t t', l !! k = Some i → P k t → body i t = Ok t' → P (S k) t') →
  P (length l) s'.
Proof.
  revert P s. induction l as [|i l IH]; intros P s; simpl.
  { intros [= ->] H _. done. }
  intros [t [Hb Hl]]%bind_ok HP Hstep.
  apply (IH (λ k, P (S k)) t Hl).
  - by apply (Hstep 0%nat i s).
  - intros k j u u' Hk. by apply (Hstep (S k) j).
Qed.

(** Total correctness: the body keeps succeeding under the invariant. *)
Lemma for_each_total {I St : Type} (P : nat → St → Prop) (body : I → St → Result E St) l s :
  P 0%nat s →
  (∀ k i t, l !! k = Some i → P k t → ∃ t', body i t = Ok t' ∧ P (S k) t') →
  ∃ s', for_each body l s = Ok s' ∧ P (length l) s'.
Proof.
  revert P s. induction l as [|i l IH]; intros P s HP Hstep; simpl.
  { by exists s. }
  destruct (Hstep 0%nat i s) as (t & Ht & HPt); [done..|].
  rewrite Ht. apply (IH (λ k, P (S k)) t HPt).
  intros k j u Hk. by apply (Hstep (S k) j).
Qed.
End result_lemmas.

(** [outcome X P m]: a success of [m] satisfies [P] and a failure satisfies [X]. It
    composes like a Hoare triple with an exceptional postcondition. *)
Definition outcome {E A} (X : E → Prop) (P : A → Prop) (m : Result E A) : Prop :=
  match m with Ok a => P a | Err e => X e end.

Section outcome.
Context {E : Type} (X : E → Prop).

Lemma outcome_bind {A B} (P : A → Prop) (Q : B → Prop) (m : Result E A) (f : A → Result E B) :
  outcome X P m → (∀ a, m = Ok a → P a → outcome X Q (f a)) → outcome X Q (m ≫= f).
Proof. destruct m; cbn; eauto. Qed.

Lemma outcome_weaken {A} (P Q : A → Prop) (m : Result E A) :
  outcome X P m → (∀ a, P a → Q a) → outcome X Q m.
Proof. destruct m; cbn; eauto. Qed.

Lemma outcome_ok_or {A} (P : A → Prop) e (o : option A) :
  (∀ a, o = Some a → P a) → X e → outcome X P (ok_or e o).
Proof. destruct o; cbn; eauto. Qed.

Lemma outcome_map_err {F A} (P : A → Prop) (f : F → E) (m : Result F A) :
  (∀ a, m = Ok a → P a) → (∀ e, X (f e)) → outcome X P (map_err f m).
Proof. destruct m; cbn; eauto. Qed.

Lemma outcome_for_each {I St} (P : nat → St → Prop) (body : I → St → Result E St) l s :
  P 0%nat s → (∀ k i t, l !! k = Some i → P k t → outcome X (P (S k)) (body i t)) →
  outcome X (P (length l)) (for_each body l s).
Proof.
  revert P s. induction l as [|i l IH]; intros P s HP Hstep; [done|]. cbn [for_each length].
  eapply (outcome_bind (P 1%nat)); [by apply (Hstep 0%nat)|]. intros t _ Ht.
  apply (IH (λ k, P (S k)) t Ht). intros k j u Hk. by apply (Hstep (S k)).
Qed.
End outcome.

(** ** Loops *)

(** A [while] loop given at most [p] iterations: the body continues with [inl] and
    leaves the loop with [inr]. The bound is binary, so that it can be generous. *)
Fixpoint while {S R : Type} (body : S → S + R) (p : positive) (s : S) : S + R :=
  match p with
  | xH => body s
  | xO p => match while body p s with inl s => while body p s | inr r => inr r end
  | xI p => match body s with
            | inl s => match while body p s with inl s => while body p s | inr r => inr r end
            | inr r => inr r
            end
  end.

(** The rule for total correctness: a variant below the bound. *)
Lemma while_total {S R : Type} (P : S → Prop) (Q : R → Prop) (variant : S → Z) (body : S → S + R) :
  (∀ s, P s → match body s with inl s' => P s' ∧ 0 ≤ variant s' < variant s | inr r => Q r end) →
  ∀ p s, P s → 0 ≤ variant s < Zpos p → ∃ r, while body p s = inr r ∧ Q r.
Proof.
  intros Hbody.
  assert (∀ p s, P s → match while body p s with
    | inl s' => P s' ∧ (0 ≤ variant s → 0 ≤ variant s' ≤ variant s - Zpos p)
    | inr r => Q r end) as H.
  { induction p as [p IH|p IH|]; intros s Hs; cbn [while].
    - pose proof (Hbody s Hs) as H0. destruct (body s) as [s0|r]; [|done]. destruct H0 as [Hs0 H0].
      pose proof (IH s0 Hs0) as H1. destruct (while body p s0) as [s1|r]; [|done]. destruct H1 as [Hs1 H1].
      pose proof (IH s1 Hs1) as H2. destruct (while body p s1) as [s2|r]; [|done]. destruct H2 as [Hs2 H2].
      split; [done|]. lia.
    - pose proof (IH s Hs) as H1. destruct (while body p s) as [s1|r]; [|done]. destruct H1 as [Hs1 H1].
      pose proof (IH s1 Hs1) as H2. destruct (while body p s1) as [s2|r]; [|done]. destruct H2 as [Hs2 H2].
      split; [done|]. lia.
    - pose proof (Hbody s Hs) as H0. destruct (body s) as [s0|r]; [|done]. destruct H0. split; [done|]. lia. }
  intros p s Hs Hv. specialize (H p s Hs). destruct (while body p s) as [s'|r]; [lia|by exists r].
Qed.

(** The turns of a loop, one by one. *)
Fixpoint turns {S R : Type} (body : S → S + R) (n : nat) (s : S) : S + R :=
  match n with
  | O => inl s
  | Datatypes.S n => match body s with inl s => turns body n s | inr r => inr r end
  end.

Lemma turns_add {S R : Type} (body : S → S + R) n m s :
  turns body (n + m) s = match turns body n s with inl s => turns body m s | inr r => inr r end.
Proof.
  revert s. induction n as [|n IH]; intros s; cbn; [done|]. destruct (body s); [apply IH|done].
Qed.

Lemma while_turns {S R : Type} (body : S → S + R) p s : while body p s = turns body (Pos.to_nat p) s.
Proof.
  revert s. induction p as [p IH|p IH|]; intros s; cbn [while].
  - rewrite Pos2Nat.inj_xI. cbn [turns]. destruct (body s) as [s'|r]; [|done].
    replace (2 * Pos.to_nat p)%nat with (Pos.to_nat p + Pos.to_nat p)%nat by lia. rewrite turns_add, <-IH.
    by destruct (while body p s').
  - rewrite Pos2Nat.inj_xO. replace (2 * Pos.to_nat p)%nat with (Pos.to_nat p + Pos.to_nat p)%nat by lia.
    rewrite turns_add, <-IH. by destruct (while body p s).
  - change (Pos.to_nat 1) with 1%nat. cbn. by destruct (body s).
Qed.

(** A loop that ends after [n] turns ends within any larger bound. *)
Lemma while_end {S R : Type} (body : S → S + R) n p s s' r :
  turns body n s = inl s' → body s' = inr r → Z.of_nat n < Zpos p → while body p s = inr r.
Proof.
  intros Ht Hb Hn. rewrite while_turns. replace (Pos.to_nat p) with (n + Datatypes.S (Pos.to_nat p - n - 1))%nat by lia.
  rewrite turns_add, Ht. cbn [turns]. by rewrite Hb.
Qed.

(** ** Machine integers of a 64-bit target *)

Abbreviation W64 := 18446744073709551616 (only parsing).  (* 2^64 *)

Definition u64 (w : Z) : Prop := 0 ≤ w < W64.
Definition usize (n : Z) : Prop := 0 ≤ n < W64.

(** [as u64] on a wider unsigned value. *)
Definition as_u64 (n : Z) : Z := n `mod` W64.

(** [checked_add], [checked_sub] and [checked_mul] on [usize] and [u64]. *)
Definition checked_add (a b : Z) : option Z := if a + b <? W64 then Some (a + b) else None.
Definition checked_sub (a b : Z) : option Z := if b <=? a then Some (a - b) else None.
Definition checked_mul (a b : Z) : option Z := if a * b <? W64 then Some (a * b) else None.
Definition saturating_sub (a b : Z) : Z := Z.max 0 (a - b).
Definition saturating_mul (a b : Z) : Z := Z.min (a * b) (W64 - 1).

(** [wrapping_add], [wrapping_sub], and [overflowing_sub] on [u64]. *)
Definition wrapping_add (a b : Z) : Z := (a + b) `mod` W64.
Definition wrapping_sub (a b : Z) : Z := (a - b) `mod` W64.
Definition overflowing_sub (a b : Z) : Z * bool := ((a - b) `mod` W64, a <? b).

Lemma checked_add_Some a b c : checked_add a b = Some c ↔ c = a + b ∧ a + b < W64.
Proof. unfold checked_add. case_match; split; intros; simplify_eq; lia || (f_equal; lia). Qed.
Lemma checked_add_None a b : checked_add a b = None ↔ W64 ≤ a + b.
Proof. unfold checked_add. case_match; split; intros; simplify_eq; lia || done. Qed.
Lemma checked_sub_Some a b c : checked_sub a b = Some c ↔ c = a - b ∧ b ≤ a.
Proof. unfold checked_sub. case_match; split; intros; simplify_eq; lia || (f_equal; lia). Qed.
Lemma checked_mul_Some a b c : checked_mul a b = Some c ↔ c = a * b ∧ a * b < W64.
Proof. unfold checked_mul. case_match; split; intros; simplify_eq; lia || (f_equal; lia). Qed.

(** Inversion of a hypothesis [_ = Ok _] through binds, conditionals and
    conversions: the workhorse of the development. *)
Ltac ok_step :=
  match goal with
  | H : Ok _ = Ok _ |- _ => injection H as H
  | H : Err _ = Err _ |- _ => injection H as H
  | H : Ok _ = Err _ |- _ => discriminate H
  | H : Err _ = Ok _ |- _ => discriminate H
  | H : mret _ = Ok _ |- _ => injection H as H
  | H : (_ ≫= _) = Ok _ |- _ => apply bind_ok in H as (? & ? & H)
  | H : ok_or _ _ = Ok _ |- _ => apply ok_or_ok in H
  | H : map_err _ _ = Ok _ |- _ => apply map_err_ok in H
  | H : checked_add _ _ = Some _ |- _ => apply checked_add_Some in H as [H ?]
  | H : checked_sub _ _ = Some _ |- _ => apply checked_sub_Some in H as [H ?]
  | H : checked_mul _ _ = Some _ |- _ => apply checked_mul_Some in H as [H ?]
  | H : (if ?b then Err _ else _) = Ok _ |- _ =>
      let E := fresh "Eb" in destruct b eqn:E; [discriminate H|]
  | H : (if ?b then _ else Err _) = Ok _ |- _ =>
      let E := fresh "Eb" in destruct b eqn:E; [|discriminate H]
  end.
Ltac inv_ok := repeat (ok_step; simplify_eq; simpl in *).

(** [n.div_ceil(64)] for natural [n]. *)
Definition div_ceil64 (n : Z) : Z := (n + 63) / 64.

(** Number of significant bits of a natural number. *)
Definition nbits (v : Z) : Z := if v =? 0 then 0 else Z.log2 v + 1.

(** [u64::leading_zeros], [u64::trailing_zeros] and [u64::count_ones]. *)
Definition leading_zeros (w : Z) : Z := 64 - nbits w.
Fixpoint pos_ctz (p : positive) : Z :=
  match p with xO q => 1 + pos_ctz q | _ => 0 end.
Definition trailing_zeros (w : Z) : Z :=
  match w with Zpos p => pos_ctz p | _ => 64 end.
Fixpoint pos_ones (p : positive) : Z :=
  match p with xH => 1 | xO q => pos_ones q | xI q => 1 + pos_ones q end.
Definition count_ones (w : Z) : Z :=
  match w with Zpos p => pos_ones p | _ => 0 end.

Lemma nbits_nonneg v : 0 ≤ nbits v.
Proof. unfold nbits. case_match; [lia|]. pose proof (Z.log2_nonneg v). lia. Qed.
#[export] Hint Resolve nbits_nonneg : core.

Lemma nbits_spec v : 0 ≤ v → v < 2 ^ nbits v.
Proof.
  intros Hv. unfold nbits. case_match; [lia|].
  destruct (Z.log2_spec v) as [_ H']; [lia|]. by rewrite Z.add_1_r.
Qed.

Lemma nbits_lower v : 0 < v → 2 ^ (nbits v - 1) ≤ v.
Proof.
  intros Hv. unfold nbits. case_match; [lia|].
  rewrite Z.add_simpl_r. by destruct (Z.log2_spec v).
Qed.

Lemma nbits_le_iff v n : 0 ≤ v → 0 ≤ n → nbits v ≤ n ↔ v < 2 ^ n.
Proof.
  intros Hv Hn. split.
  - intros H. apply Z.lt_le_trans with (2 ^ nbits v); [by apply nbits_spec|].
    apply Z.pow_le_mono_r; lia.
  - intros H. unfold nbits. case_match; [lia|].
    assert (Z.log2 v < n); [|lia]. apply Z.log2_lt_pow2; lia.
Qed.

Lemma nbits_unique v n : 0 < n → 2 ^ (n - 1) ≤ v < 2 ^ n → nbits v = n.
Proof.
  intros Hn [H1 H2].
  assert (0 < v) by (pose proof (Z.pow_pos_nonneg 2 (n - 1)); lia).
  apply Z.le_antisymm; [apply nbits_le_iff; lia|].
  destruct (decide (n ≤ nbits v)) as [|Hlt]; [done|exfalso].
  assert (v < 2 ^ (n - 1)); [|lia].
  apply Z.lt_le_trans with (2 ^ nbits v); [apply nbits_spec; lia|].
  apply Z.pow_le_mono_r; lia.
Qed.

Lemma nbits_pos v : 0 < v → 0 < nbits v.
Proof. unfold nbits. intros. case_match; [lia|]. pose proof (Z.log2_nonneg v). lia. Qed.

Lemma nbits_0_inv v : nbits v = 0 → v = 0.
Proof.
  unfold nbits. case_match; [lia|]. pose proof (Z.log2_nonneg v). lia.
Qed.

Lemma nbits_mono v w : 0 ≤ v ≤ w → nbits v ≤ nbits w.
Proof.
  intros. apply nbits_le_iff; [lia|done|].
  apply Z.le_lt_trans with w; [lia|]. apply nbits_spec; lia.
Qed.

Lemma nbits_shiftl v s : 0 < v → 0 ≤ s → nbits (v * 2 ^ s) = nbits v + s.
Proof.
  intros Hv Hs. pose proof (nbits_pos v Hv). apply nbits_unique; [lia|].
  replace (nbits v + s - 1) with ((nbits v - 1) + s) by lia.
  rewrite !Z.pow_add_r by lia.
  pose proof (nbits_lower v Hv). pose proof (nbits_spec v ltac:(lia)).
  pose proof (Z.pow_pos_nonneg 2 s). nia.
Qed.

Lemma u64_nbits w : u64 w → nbits w ≤ 64.
Proof. intros [??]. apply nbits_le_iff; [lia..|]. change (2 ^ 64) with W64. lia. Qed.

(** ** Bits *)

Lemma testbit_small v i n : 0 ≤ v < 2 ^ n → n ≤ i → Z.testbit v i = false.
Proof.
  intros [Hv Hlt] Hi. destruct (decide (v = 0)) as [->|]; [apply Z.testbit_0_l|].
  assert (0 ≤ n) by (destruct (decide (0 ≤ n)); [done|]; rewrite Z.pow_neg_r in Hlt by lia; lia).
  apply Z.bits_above_log2; [done|].
  assert (Z.log2 v < n); [apply Z.log2_lt_pow2; lia|lia].
Qed.

Lemma testbit_shiftl_1 k i : 0 ≤ k → 0 ≤ i → Z.testbit (Z.shiftl 1 k) i = bool_decide (i = k).
Proof.
  intros. rewrite Z.shiftl_1_l, Z.pow2_bits_eqb by done. 
  destruct (Z.eqb_spec k i); case_bool_decide; lia || done.
Qed.

(** A natural number below [2^n] is determined by its [n] low bits. *)
Lemma bits_lt_pow2 v n : 0 ≤ v → 0 ≤ n → (∀ i, n ≤ i → Z.testbit v i = false) → v < 2 ^ n.
Proof.
  intros Hv Hn Hbits. destruct (decide (v = 0)) as [->|]; [lia|].
  destruct (decide (v < 2 ^ n)) as [|Hge]; [done|exfalso].
  pose proof (Z.bit_log2 v ltac:(lia)) as Hb.
  assert (n ≤ Z.log2 v) by (apply Z.log2_le_pow2; lia).
  rewrite Hbits in Hb; done.
Qed.

Lemma land_low_high a b n : 0 ≤ n → 0 ≤ a < 2 ^ n → Z.land a (b * 2 ^ n) = 0.
Proof.
  intros Hn Ha. apply Z.bits_inj'. intros i Hi. rewrite Z.land_spec, Z.testbit_0_l.
  destruct (decide (i < n)).
  - rewrite Z.mul_pow2_bits_low by done. apply andb_false_r.
  - by rewrite (testbit_small a i n) by lia.
Qed.

(** ** Trailing zeros *)

Lemma pos_ctz_nonneg p : 0 ≤ pos_ctz p.
Proof. induction p; simpl; lia. Qed.

Lemma pos_ctz_spec p : ∃ k, 0 ≤ k ∧ Zpos p = (2 * k + 1) * 2 ^ pos_ctz p.
Proof.
  induction p as [p IH|p IH|]; simpl.
  - exists (Zpos p). lia.
  - destruct IH as (k & Hk & IH). exists k. split; [done|].
    rewrite Pos2Z.inj_xO, IH, Z.pow_add_r; [lia|lia|apply pos_ctz_nonneg].
  - exists 0. lia.
Qed.

Lemma trailing_zeros_spec w :
  0 < w → 0 ≤ trailing_zeros w ∧ ∃ k, 0 ≤ k ∧ w = (2 * k + 1) * 2 ^ trailing_zeros w.
Proof. destruct w as [|p|]; try lia. intros _. split; [apply pos_ctz_nonneg|apply pos_ctz_spec]. Qed.

(** ** Ones *)

Lemma pos_ones_pos p : 0 < pos_ones p.
Proof. induction p; cbn; lia. Qed.

Lemma count_ones_nonneg w : 0 ≤ count_ones w.
Proof. destruct w as [|p|]; cbn; [lia| |lia]. pose proof (pos_ones_pos p). lia. Qed.

Lemma count_ones_0 w : u64 w → count_ones w = 0 → w = 0.
Proof. intros [H _] Hc. destruct w as [|p|]; [done| |lia]. pose proof (pos_ones_pos p). cbn in Hc. lia. Qed.

Lemma count_ones_1 w : u64 w → count_ones w = 1 → ∃ k, 0 ≤ k ∧ w = 2 ^ k.
Proof.
  intros [H _] Hc. destruct w as [|p|]; [done| |lia]. clear H. cbn in Hc.
  induction p as [p IH|p IH|]; cbn in Hc.
  - pose proof (pos_ones_pos p). lia.
  - destruct (IH Hc) as (k & Hk & E). exists (k + 1). rewrite Z.pow_add_r by lia. lia.
  - by exists 0.
Qed.

Lemma count_ones_pow2 k : 0 ≤ k → count_ones (2 ^ k) = 1.
Proof.
  intros Hk. pattern k. apply natlike_ind; [done| |done]. clear k Hk. intros k Hk IH.
  rewrite Z.pow_succ_r by done. pose proof (Z.pow_pos_nonneg 2 k).
  destruct (2 ^ k) as [|p|] eqn:E; [lia| |lia]. exact IH.
Qed.

(** ** Lists *)

Lemma seqZ_rev_cons n : 0 < n → reverse (seqZ 0 n) = (n - 1) :: reverse (seqZ 0 (n - 1)).
Proof.
  intros. replace n with ((n - 1) + 1) at 1 by lia.
  rewrite seqZ_app by lia. change (seqZ (0 + (n - 1)) 1) with [0 + (n - 1)].
  by rewrite reverse_snoc, Z.add_0_l.
Qed.

Lemma lookup_lt_is_Some_Z {A} (l : list A) (i : Z) :
  0 ≤ i < Z.of_nat (length l) → ∃ x, l !! Z.to_nat i = Some x.
Proof. intros. apply lookup_lt_is_Some. lia. Qed.

(** [Iterator::position] and [Iterator::rposition]. *)
Fixpoint position {A} (p : A → bool) (l : list A) : option nat :=
  match l with
  | [] => None
  | x :: l => if p x then Some 0%nat else S <$> position p l
  end.
Fixpoint rposition {A} (p : A → bool) (l : list A) : option nat :=
  match l with
  | [] => None
  | x :: l => match rposition p l with
              | Some i => Some (S i)
              | None => if p x then Some 0%nat else None
              end
  end.

(** [Iterator::enumerate] with [usize] counters. *)
Definition enumerate {A} (l : list A) : list (Z * A) := imap (λ i x, (Z.of_nat i, x)) l.

Lemma lookup_enumerate {A} (l : list A) k :
  enumerate l !! k = (λ x, (Z.of_nat k, x)) <$> l !! k.
Proof. unfold enumerate. by rewrite list_lookup_imap. Qed.
Lemma length_enumerate {A} (l : list A) : length (enumerate l) = length l.
Proof. apply length_imap. Qed.

(** Gluing a low part of [n] bits under a high part. *)
Lemma testbit_add_shift a b n i :
  0 ≤ n → 0 ≤ a < 2 ^ n → 0 ≤ i →
  Z.testbit (a + 2 ^ n * b) i = if decide (i < n) then Z.testbit a i else Z.testbit b (i - n).
Proof.
  intros Hn Ha Hi. case_decide.
  - rewrite <- (Z.mod_pow2_bits_low (a + 2 ^ n * b) n i) by lia.
    rewrite (Z.mul_comm (2 ^ n)), Z.mod_add by lia. by rewrite Z.mod_small.
  - replace i with ((i - n) + n) at 1 by lia. rewrite <- Z.div_pow2_bits by lia.
    rewrite (Z.mul_comm (2 ^ n)), Z.div_add by lia.
    by rewrite Z.div_small.
Qed.

(** [lia] with division and remainder by constants. *)
Ltac dlia := zify; Z.to_euclidean_division_equations; lia.

(** The invariant rule for loops over the bits [n - 1, ..., 0]. *)
Lemma foldl_down {St : Type} (P : Z → St → Prop) (f : St → Z → St) n s :
  0 ≤ n → P n s → (∀ k t, 0 ≤ k < n → P (k + 1) t → P k (f t k)) →
  P 0 (foldl f s (reverse (seqZ 0 n))).
Proof.
  intros Hn. revert s. pattern n. apply natlike_ind; [done| |done].
  clear n Hn. intros n Hn IH s HP Hstep. rewrite seqZ_rev_cons by lia.
  replace (Z.succ n - 1) with n by lia. cbn [foldl].
  apply IH; [|intros; apply Hstep; [lia|done]].
  apply Hstep; [lia|]. by replace (n + 1) with (Z.succ n) by lia.
Qed.

Lemma for_each_down {E St : Type} (P : Z → St → Prop) (body : Z → St → Result E St) n s :
  0 ≤ n → P n s → (∀ k t, 0 ≤ k < n → P (k + 1) t → ∃ t', body k t = Ok t' ∧ P k t') →
  ∃ s', for_each body (reverse (seqZ 0 n)) s = Ok s' ∧ P 0 s'.
Proof.
  intros Hn. revert s. pattern n. apply natlike_ind; [by eauto| |done].
  clear n Hn. intros n Hn IH s HP Hstep. rewrite seqZ_rev_cons by lia.
  replace (Z.succ n - 1) with n by lia. cbn [for_each].
  destruct (Hstep n s) as (t & -> & Ht); [lia|by replace (n + 1) with (Z.succ n) by lia|].
  rewrite Ok_bind. apply IH; [done|]. intros; apply Hstep; [lia|done].
Qed.

(** The same rule for loops over the indices of a list, upwards. *)
Lemma foldl_up {A St : Type} (P : nat → St → Prop) (f : St → A → St) l s :
  P 0%nat s → (∀ k x t, l !! k = Some x → P k t → P (S k) (f t x)) →
  P (length l) (foldl f s l).
Proof.
  revert P s. induction l as [|x l IH]; intros P s HP Hstep; [done|]. simpl.
  apply (IH (λ k, P (S k))); [by apply (Hstep 0%nat)|].
  intros k y t Hk. by apply (Hstep (S k)).
Qed.

Lemma Z_gcd_odd t x y : 0 ≤ t → Z.odd y = true → Z.gcd (x * 2 ^ t) y = Z.gcd x y.
Proof.
  intros Ht Hy. pattern t. apply natlike_ind; [by rewrite Z.mul_1_r| |done].
  clear t Ht. intros t Ht <-. rewrite Z.pow_succ_r by done.
  replace (x * (2 * 2 ^ t)) with (2 * (x * 2 ^ t)) by lia. set (z := x * 2 ^ t).
  apply Z.gcd_unique; [apply Z.gcd_nonneg| |apply Z.gcd_divide_r|].
  - apply Z.divide_mul_r, Z.gcd_divide_l.
  - intros q Hq1 Hq2. apply Z.gcd_greatest; [|done]. apply (Z.gauss q 2); [done|].
    apply Z.gcd_unique; [lia|apply Z.divide_1_l|apply Z.divide_1_l|].
    intros r [u Hu] Hr2. assert ((r | y)) as Hry by (etrans; [by exists u|done]).
    destruct (Z.eq_dec (Z.abs r) 2) as [Habs|Habs].
    + exfalso. assert ((2 | y)) as [v ->] by (rewrite <- Habs; by apply Z.divide_abs_l).
      by rewrite Z.mul_comm, Z.odd_mul in Hy.
    + apply Z.divide_pos_le in Hr2 as Hle; [|lia]. 
      assert (r ≠ 0) by (intros ->; destruct Hr2 as [? ?]; lia).
      apply Z.divide_abs_l in Hr2. apply Z.divide_pos_le in Hr2; [|lia].
      apply Z.divide_abs_l. assert (Z.abs r = 1) as -> by lia. apply Z.divide_1_l.
Qed.
