(* ===== verification/Words.v ===== *)
(** * Little-endian word vectors

    The value layer shared by the term encoding (number/encoding.rs,
    number/stream.rs) and by the exact integers (number/exact.rs): a [Vec<u64>]
    is a list of words, least significant first, and denotes a natural number.
    A vector is canonical when its last word is not zero. *)

From S2P Require Import Prelude.

Fixpoint words_val (ws : list Z) : Z :=
  match ws with
  | [] => 0
  | w :: ws => w + W64 * words_val ws
  end.

Definition words_ok (ws : list Z) : Prop := Forall u64 ws.
Definition normalized (ws : list Z) : Prop := last ws ≠ Some 0.

(** Canonical vectors: the invariant of [Bml::words] and of the magnitudes of
    [ExactRational]. *)
Definition canonical (ws : list Z) : Prop := words_ok ws ∧ normalized ws.

Lemma words_val_app a b :
  words_val (a ++ b) = words_val a + 2 ^ (64 * Z.of_nat (length a)) * words_val b.
Proof.
  induction a as [|w a IH]; cbn [words_val app length].
  { change (2 ^ (64 * Z.of_nat 0)) with 1. lia. }
  rewrite IH. replace (64 * Z.of_nat (S (length a))) with (64 + 64 * Z.of_nat (length a)) by lia.
  rewrite Z.pow_add_r by lia. change (2 ^ 64) with W64. lia.
Qed.

Lemma words_val_bounds ws :
  words_ok ws → 0 ≤ words_val ws < 2 ^ (64 * Z.of_nat (length ws)).
Proof.
  induction 1 as [|w ws [Hw1 Hw2] Hws IH]; cbn [words_val length].
  { change (2 ^ (64 * Z.of_nat 0)) with 1. lia. }
  replace (64 * Z.of_nat (S (length ws))) with (64 + 64 * Z.of_nat (length ws)) by lia.
  rewrite Z.pow_add_r by lia. change (2 ^ 64) with W64. lia.
Qed.

Lemma words_val_nonneg ws : words_ok ws → 0 ≤ words_val ws.
Proof. intros H. apply (words_val_bounds ws H). Qed.
#[export] Hint Resolve words_val_nonneg : core.

Lemma words_val_replicate n : words_val (replicate n 0) = 0.
Proof. induction n as [|n IH]; simpl; lia. Qed.

Lemma words_ok_replicate n : words_ok (replicate n 0).
Proof. apply Forall_replicate. split; lia. Qed.
#[export] Hint Resolve words_ok_replicate : core.

(** ** Bits of a vector *)

Definition words_bit (ws : list Z) (i : Z) : bool :=
  match ws !! Z.to_nat (i / 64) with
  | Some w => Z.testbit w (i `mod` 64)
  | None => false
  end.

Lemma words_val_testbit ws i :
  words_ok ws → 0 ≤ i → Z.testbit (words_val ws) i = words_bit ws i.
Proof.
  intros Hws. revert i. induction Hws as [|w ws Hw Hws IH]; intros i Hi; simpl.
  { apply Z.testbit_0_l. }
  change W64 with (2 ^ 64). rewrite testbit_add_shift by (done || lia).
  unfold words_bit. case_decide as Hlt.
  - rewrite Z.div_small, Z.mod_small by lia. done.
  - rewrite IH by lia. unfold words_bit.
    replace (i `mod` 64) with ((i - 64) `mod` 64) by dlia.
    by replace (Z.to_nat (i / 64)) with (S (Z.to_nat ((i - 64) / 64))) by dlia.
Qed.

(** ** Canonical vectors denote distinct naturals *)

Lemma normalized_tail w w' ws : normalized (w :: w' :: ws) → normalized (w' :: ws).
Proof. done. Qed.

Lemma canonical_nil : canonical [].
Proof. by split; [constructor|]. Qed.
#[export] Hint Resolve canonical_nil : core.

Lemma canonical_singleton w : u64 w → w ≠ 0 → canonical [w].
Proof. intros. split; [by constructor|]. unfold normalized. simpl. congruence. Qed.

Lemma canonical_cons w ws : u64 w → canonical ws → ws ≠ [] → canonical (w :: ws).
Proof.
  intros Hw [Hok Hn] Hne. split; [by constructor|]. destruct ws; [done|]. exact Hn.
Qed.

Lemma canonical_tail w ws : canonical (w :: ws) → canonical ws.
Proof.
  intros [Hok Hn]. apply Forall_cons in Hok as [_ Hok]. split; [done|].
  destruct ws; [done|exact Hn].
Qed.

Lemma canonical_val_0 ws : canonical ws → words_val ws = 0 → ws = [].
Proof.
  induction ws as [|w ws IH]; intros Hc Hv; [done|exfalso].
  pose proof (canonical_tail _ _ Hc) as Ht. destruct Hc as [Hok Hn].
  apply Forall_cons in Hok as [[Hw1 Hw2] Hok]. simpl in Hv.
  pose proof (words_val_nonneg ws Hok).
  assert (words_val ws = 0) as Hv0 by lia.
  rewrite (IH Ht Hv0) in Hn. apply Hn. simpl. f_equal. lia.
Qed.

Lemma canonical_val_pos ws : canonical ws → ws ≠ [] → 0 < words_val ws.
Proof.
  intros Hc Hne. pose proof (words_val_nonneg ws (proj1 Hc)).
  assert (words_val ws ≠ 0); [|lia]. intros Hv. by apply Hne, canonical_val_0.
Qed.

Lemma words_val_inj a b :
  canonical a → canonical b → words_val a = words_val b → a = b.
Proof.
  revert b. induction a as [|x a IH]; intros b Ha Hb Hv.
  { symmetry. by apply canonical_val_0. }
  destruct b as [|y b]; [by apply canonical_val_0|].
  pose proof (canonical_tail _ _ Ha) as Ha'. pose proof (canonical_tail _ _ Hb) as Hb'.
  destruct Ha as [[Hx _]%Forall_cons _], Hb as [[Hy _]%Forall_cons _].
  simpl in Hv. unfold u64 in *.
  pose proof (words_val_nonneg a (proj1 Ha')). pose proof (words_val_nonneg b (proj1 Hb')).
  f_equal; [lia|]. apply IH; [done..|lia].
Qed.

Lemma words_val_inj_length a b :
  words_ok a → words_ok b → length a = length b → words_val a = words_val b → a = b.
Proof.
  revert b. induction a as [|x a IH]; intros [|y b] Ha Hb Hl Hv; try done.
  apply Forall_cons in Ha as [Hx Ha], Hb as [Hy Hb]. simpl in *. unfold u64 in *.
  pose proof (words_val_nonneg a Ha). pose proof (words_val_nonneg b Hb).
  f_equal; [lia|]. apply IH; [done..|lia|lia].
Qed.

(** The significant bits of a canonical vector, as computed from its length
    and the leading zeros of its last word. *)
Lemma canonical_nbits ws w :
  canonical ws → last ws = Some w →
  nbits (words_val ws) = (Z.of_nat (length ws) - 1) * 64 + (64 - leading_zeros w).
Proof.
  intros [Hok Hn] Hlast.
  apply last_Some in Hlast as [l ->]. unfold normalized in Hn. rewrite last_snoc in Hn.
  apply Forall_app in Hok as [Hl [Hw _]%Forall_cons].
  rewrite words_val_app, length_app. simpl.
  assert (0 < w) by (destruct Hw; assert (w ≠ 0) by congruence; lia).
  pose proof (words_val_bounds l Hl). unfold leading_zeros.
  pose proof (nbits_lower w ltac:(lia)). pose proof (nbits_spec w ltac:(lia)).
  pose proof (nbits_pos w ltac:(lia)).
  set (n := 64 * Z.of_nat (length l)) in *.
  replace ((Z.of_nat (length l + 1) - 1) * 64 + (64 - (64 - nbits w))) with (n + nbits w) by lia.
  apply nbits_unique; [lia|].
  replace (n + nbits w - 1) with (n + (nbits w - 1)) by lia.
  rewrite !Z.pow_add_r by lia. nia.
Qed.

(** A vector with no more words than its value needs is canonical. *)
Lemma tight_normalized ws :
  words_ok ws → 64 * (Z.of_nat (length ws) - 1) < nbits (words_val ws) → normalized ws.
Proof.
  unfold normalized. intros Hok Hn Hlast. apply last_Some in Hlast as [ws' ->].
  apply Forall_app in Hok as [Hok _]. rewrite words_val_app, length_app in Hn.
  replace (words_val [0]) with 0 in Hn by done. rewrite Z.mul_0_r, Z.add_0_r in Hn.
  pose proof (words_val_bounds ws' Hok) as [? Hlt].
  apply nbits_le_iff in Hlt; [simpl in *; lia|done|lia].
Qed.

Lemma canonical_tight ws :
  canonical ws → 64 * (Z.of_nat (length ws) - 1) < nbits (words_val ws).
Proof.
  intros Hc. destruct (last ws) as [w|] eqn:Hlast.
  - rewrite (canonical_nbits ws w) by done. unfold leading_zeros.
    apply last_Some in Hlast as [l ->]. destruct Hc as [Hok Hn].
    unfold normalized in Hn. rewrite last_snoc in Hn.
    apply Forall_app in Hok as [_ [[Hw _] _]%Forall_cons].
    assert (w ≠ 0) by congruence. pose proof (nbits_pos w ltac:(lia)). lia.
  - apply last_None in Hlast as ->. pose proof (nbits_nonneg (words_val [])). simpl in *. lia.
Qed.

(** ** Clearing the high zero words *)

(** [normalize] of number/exact.rs, and the same truncation in
    [Bml::from_words_le]. *)
Definition normalize (words : list Z) : list Z :=
  let keep := match rposition (λ word, negb (word =? 0)) words with
              | Some index => S index
              | None => 0%nat
              end in
  take keep words.

Lemma normalize_cons w ws :
  normalize (w :: ws) =
  match normalize ws with [] => if w =? 0 then [] else [w] | l => w :: l end.
Proof.
  unfold normalize. simpl. destruct (rposition _ ws) as [i|] eqn:Hr.
  - destruct ws; [done|]. by destruct i.
  - rewrite take_0. by destruct (w =? 0).
Qed.

Lemma normalize_val ws : words_val (normalize ws) = words_val ws.
Proof.
  induction ws as [|w ws IH]; [done|]. rewrite normalize_cons. simpl.
  destruct (normalize ws); simpl in *; [|lia].
  destruct (Z.eqb_spec w 0); simpl; lia.
Qed.

Lemma normalize_canonical ws : words_ok ws → canonical (normalize ws).
Proof.
  induction 1 as [|w ws Hw Hws IH]; [done|]. rewrite normalize_cons.
  destruct (normalize ws) eqn:Hn.
  - destruct (Z.eqb_spec w 0); [done|by apply canonical_singleton].
  - by apply canonical_cons.
Qed.

Lemma normalize_id ws : canonical ws → normalize ws = ws.
Proof.
  intros Hc. apply words_val_inj; [by apply normalize_canonical, Hc|done|].
  apply normalize_val.
Qed.

(** ** Or-ing a word or a bit into a vector *)

(** [words[k] |= x]; every use below is in range. *)
Definition or_word (ws : list Z) (k : Z) (x : Z) : list Z :=
  alter (λ w, Z.lor w x) (Z.to_nat k) ws.

(** [words[i / 64] |= 1u64 << (i % 64)]. *)
Definition or_bit (ws : list Z) (i : Z) : list Z :=
  or_word ws (i / 64) (Z.shiftl 1 (i `mod` 64)).

Lemma length_or_word ws k x : length (or_word ws k x) = length ws.
Proof. apply length_alter. Qed.
Lemma length_or_bit ws i : length (or_bit ws i) = length ws.
Proof. apply length_alter. Qed.

Lemma u64_lor a b : u64 a → u64 b → u64 (Z.lor a b).
Proof.
  intros [??] [??]. split; [apply Z.lor_nonneg; lia|]. change W64 with (2 ^ 64).
  apply bits_lt_pow2; [apply Z.lor_nonneg; lia|lia|]. intros i Hi.
  rewrite Z.lor_spec, !(testbit_small _ i 64); done.
Qed.

Lemma u64_bit i : u64 (Z.shiftl 1 (i `mod` 64)).
Proof.
  pose proof (Z.mod_pos_bound i 64). rewrite Z.shiftl_1_l. split; [lia|].
  change W64 with (2 ^ 64). apply Z.pow_lt_mono_r; lia.
Qed.
#[export] Hint Resolve u64_lor u64_bit : core.

Lemma or_word_ok ws k x : words_ok ws → u64 x → words_ok (or_word ws k x).
Proof. intros. apply Forall_alter; auto. Qed.
Lemma or_bit_ok ws i : words_ok ws → words_ok (or_bit ws i).
Proof. intros. by apply or_word_ok. Qed.
#[export] Hint Resolve or_word_ok or_bit_ok : core.

Lemma or_word_testbit ws k x i :
  words_ok ws → u64 x → 0 ≤ k < Z.of_nat (length ws) → 0 ≤ i →
  Z.testbit (words_val (or_word ws k x)) i =
  Z.testbit (words_val ws) i || (bool_decide (i / 64 = k) && Z.testbit x (i `mod` 64)).
Proof.
  intros Hok Hx Hk Hi. rewrite !words_val_testbit by auto.
  unfold words_bit, or_word. rewrite list_lookup_alter.
  assert (0 ≤ i / 64) by (apply Z.div_pos; lia).
  case_bool_decide as Hik; case_decide as Hd; try lia; simpl.
  - rewrite Hd. destruct (ws !! Z.to_nat (i / 64)) eqn:E; simpl; [apply Z.lor_spec|].
    apply lookup_ge_None in E. lia.
  - by rewrite orb_false_r.
Qed.

(** Or-ing a word that meets no bit of the vector adds its value. *)
Lemma or_word_add ws k x :
  words_ok ws → u64 x → 0 ≤ k < Z.of_nat (length ws) →
  Z.land (words_val ws) (x * 2 ^ (64 * k)) = 0 →
  words_val (or_word ws k x) = words_val ws + x * 2 ^ (64 * k).
Proof.
  intros Hok Hx Hk Hland. rewrite Z.add_nocarry_lor by done.
  apply Z.bits_inj'. intros i Hi. rewrite or_word_testbit, Z.lor_spec by done. f_equal.
  rewrite Z.mul_pow2_bits by lia. case_bool_decide as Hd; simpl.
  - f_equal. subst k. pose proof (Z.div_mod i 64). lia.
  - destruct (decide (i < 64 * k)); [by rewrite Z.testbit_neg_r by lia|].
    symmetry. apply (testbit_small _ _ 64); [exact Hx|]. dlia.
Qed.

Lemma or_bit_testbit ws i j :
  words_ok ws → 0 ≤ i < 64 * Z.of_nat (length ws) → 0 ≤ j →
  Z.testbit (words_val (or_bit ws i)) j = Z.testbit (words_val ws) j || bool_decide (j = i).
Proof.
  intros Hok Hi Hj. unfold or_bit.
  rewrite or_word_testbit; auto; [|split; [apply Z.div_pos|apply Z.div_lt_upper_bound]; lia].
  f_equal. pose proof (Z.mod_pos_bound i 64). pose proof (Z.mod_pos_bound j 64).
  rewrite testbit_shiftl_1 by lia.
  pose proof (Z.div_mod i 64). pose proof (Z.div_mod j 64).
  repeat case_bool_decide; simpl; lia || done.
Qed.

(** Well-formedness of a concrete vector. *)
Ltac solve_words :=
  lazymatch goal with
  | |- canonical _ => split; solve_words
  | |- words_ok _ => repeat (apply List.Forall_cons; [solve_words|]); apply List.Forall_nil
  | |- normalized _ => discriminate
  | |- u64 _ => split; [discriminate|reflexivity]
  end.
