(* ===== verification/Terms.v ===== *)
(** * Closed terms and their prefix code

    The free algebra [ClosedTerm = One | Op(ClosedTerm, ClosedTerm)] of
    symbolic.rs, and the abstract prefix code that number/encoding.rs packs into
    words: [0] is the terminal, [1] introduces an ordered application. *)

From S2P Require Import Prelude.

Inductive ClosedTerm : Type :=
  | One
  | Op (left right : ClosedTerm).

#[global] Instance ClosedTerm_eq_dec : EqDecision ClosedTerm.
Proof. solve_decision. Defined.

(** The prefix code, most significant bit first. *)
Fixpoint tree_bits (t : ClosedTerm) : list bool :=
  match t with
  | One => [false]
  | Op l r => true :: tree_bits l ++ tree_bits r
  end.

(** Number of bits of the code: one per node. *)
Fixpoint tree_len (t : ClosedTerm) : Z :=
  match t with
  | One => 1
  | Op l r => 1 + tree_len l + tree_len r
  end.

Fixpoint tree_depth (t : ClosedTerm) : Z :=
  match t with
  | One => 0
  | Op l r => 1 + Z.max (tree_depth l) (tree_depth r)
  end.

Fixpoint tree_ops (t : ClosedTerm) : Z :=
  match t with
  | One => 0
  | Op l r => 1 + tree_ops l + tree_ops r
  end.

(** A bit string, most significant first, as a natural number, and back. *)
Fixpoint bits_val (bs : list bool) : Z :=
  match bs with
  | [] => 0
  | b :: bs => Z.b2z b * 2 ^ Z.of_nat (length bs) + bits_val bs
  end.
Definition Z_bits (n v : Z) : list bool := Z.testbit v <$> reverse (seqZ 0 n).

Definition tree_code (t : ClosedTerm) : Z := bits_val (tree_bits t).

Lemma tree_len_pos t : 1 ≤ tree_len t.
Proof. induction t; simpl; lia. Qed.
#[export] Hint Resolve tree_len_pos : core.

Lemma length_tree_bits t : Z.of_nat (length (tree_bits t)) = tree_len t.
Proof. induction t; simpl; [done|]. rewrite length_app. lia. Qed.

Lemma tree_len_ops t : tree_len t = 2 * tree_ops t + 1.
Proof. induction t; simpl; lia. Qed.

Lemma tree_depth_bounds t : 0 ≤ tree_depth t ≤ tree_ops t.
Proof. induction t; simpl; lia. Qed.

(** ** Bit strings and naturals *)

Lemma bits_val_bounds bs : 0 ≤ bits_val bs < 2 ^ Z.of_nat (length bs).
Proof.
  induction bs as [|b bs IH]; cbn [bits_val length]; [lia|].
  rewrite Nat2Z.inj_succ, Z.pow_succ_r by lia. destruct b; cbn [Z.b2z]; lia.
Qed.

Lemma bits_val_app a b :
  bits_val (a ++ b) = bits_val a * 2 ^ Z.of_nat (length b) + bits_val b.
Proof.
  induction a as [|x a IH]; simpl; [lia|].
  rewrite IH, length_app, Nat2Z.inj_add, Z.pow_add_r by lia. lia.
Qed.

Lemma Z_bits_cons n v : 0 < n → Z_bits n v = Z.testbit v (n - 1) :: Z_bits (n - 1) v.
Proof. intros. unfold Z_bits. by rewrite seqZ_rev_cons. Qed.

Lemma length_Z_bits n v : 0 ≤ n → Z.of_nat (length (Z_bits n v)) = n.
Proof. intros. unfold Z_bits. rewrite length_fmap, length_reverse, length_seqZ. lia. Qed.

Lemma Z_bits_lookup n v k :
  0 ≤ k < n → Z_bits n v !! Z.to_nat k = Some (Z.testbit v (n - 1 - k)).
Proof.
  intros Hk. unfold Z_bits. rewrite list_lookup_fmap, reverse_lookup by (rewrite length_seqZ; lia).
  rewrite length_seqZ, lookup_seqZ_lt by lia. cbn. do 2 f_equal. lia.
Qed.

Lemma Z_bits_eq n v w :
  (∀ i, 0 ≤ i < n → Z.testbit v i = Z.testbit w i) → Z_bits n v = Z_bits n w.
Proof.
  intros H. unfold Z_bits. apply list_fmap_ext. intros k i Hi.
  apply H. apply list_elem_of_lookup_2, elem_of_reverse, elem_of_seqZ in Hi. lia.
Qed.

Lemma Z_bits_val bs : Z_bits (Z.of_nat (length bs)) (bits_val bs) = bs.
Proof.
  induction bs as [|b bs IH]; [done|]. simpl length.
  rewrite Z_bits_cons by lia.
  replace (Z.of_nat (S (length bs)) - 1) with (Z.of_nat (length bs)) by lia. simpl.
  pose proof (bits_val_bounds bs) as Hb. set (n := Z.of_nat (length bs)) in *.
  assert (Hv : Z.b2z b * 2 ^ n + bits_val bs = bits_val bs + 2 ^ n * Z.b2z b) by lia.
  rewrite Hv. f_equal.
  - rewrite testbit_add_shift by lia. rewrite decide_False by lia.
    rewrite Z.sub_diag. by destruct b.
  - rewrite <- IH at 2. apply Z_bits_eq. intros i Hi.
    rewrite testbit_add_shift by lia. by rewrite decide_True by lia.
Qed.

Lemma bits_val_Z_bits n v : 0 ≤ n → 0 ≤ v < 2 ^ n → bits_val (Z_bits n v) = v.
Proof.
  intros Hn Hv. pose proof (bits_val_bounds (Z_bits n v)) as Hb.
  rewrite length_Z_bits in Hb by done.
  apply Z.bits_inj'. intros i Hi.
  destruct (decide (i < n)) as [Hlt|Hge]; [|by rewrite !(testbit_small _ i n) by lia].
  pose proof (Z_bits_val (Z_bits n v)) as H. rewrite length_Z_bits in H by done.
  unfold Z_bits in H at 1 3.
  assert (Z.testbit (bits_val (Z_bits n v)) <$> seqZ 0 n = Z.testbit v <$> seqZ 0 n) as Hm.
  { apply (f_equal reverse) in H. by rewrite !fmap_reverse, !reverse_involutive in H. }
  apply (f_equal (.!! Z.to_nat i)) in Hm.
  rewrite !list_lookup_fmap, lookup_seqZ_lt in Hm by lia. simpl in Hm.
  rewrite Z2Nat.id in Hm by lia. by injection Hm.
Qed.

Lemma Z_bits_inj n v w :
  0 ≤ n → 0 ≤ v < 2 ^ n → 0 ≤ w < 2 ^ n → Z_bits n v = Z_bits n w → v = w.
Proof.
  intros Hn Hv Hw H. rewrite <- (bits_val_Z_bits n v), <- (bits_val_Z_bits n w) by done.
  by rewrite H.
Qed.

Lemma tree_code_bounds t : 0 ≤ tree_code t < 2 ^ tree_len t.
Proof. unfold tree_code. rewrite <- length_tree_bits. apply bits_val_bounds. Qed.

Lemma tree_code_op l r :
  tree_code (Op l r) =
  2 ^ (tree_len l + tree_len r) + tree_code l * 2 ^ tree_len r + tree_code r.
Proof.
  unfold tree_code. simpl. rewrite bits_val_app, length_app.
  rewrite Nat2Z.inj_add, !length_tree_bits. lia.
Qed.

Lemma tree_code_nbits l r : nbits (tree_code (Op l r)) = tree_len (Op l r).
Proof.
  pose proof (tree_len_pos l). pose proof (tree_len_pos r).
  apply nbits_unique; simpl; [lia|]. split; [|apply tree_code_bounds].
  rewrite tree_code_op. pose proof (tree_code_bounds l). pose proof (tree_code_bounds r).
  replace (1 + tree_len l + tree_len r - 1) with (tree_len l + tree_len r) by lia. nia.
Qed.

Lemma tree_code_Z_bits t : Z_bits (tree_len t) (tree_code t) = tree_bits t.
Proof. rewrite <- length_tree_bits. apply Z_bits_val. Qed.

(** ** Unique readability *)

Lemma tree_bits_app_inj t1 t2 r1 r2 :
  tree_bits t1 ++ r1 = tree_bits t2 ++ r2 → t1 = t2 ∧ r1 = r2.
Proof.
  revert t2 r1 r2. induction t1 as [|a IHa b IHb]; intros [|c d] r1 r2; simpl;
    rewrite <- ?(assoc_L (++)); intros H; simplify_eq; [done|].
  apply IHa in H as [-> H]. by apply IHb in H as [-> ->].
Qed.

Lemma tree_bits_inj t1 t2 : tree_bits t1 = tree_bits t2 → t1 = t2.
Proof. intros H. apply (tree_bits_app_inj t1 t2 [] []). by rewrite H. Qed.

Definition forest_bits (ts : list ClosedTerm) : list bool := mjoin (tree_bits <$> ts).

Lemma forest_bits_cons t ts : forest_bits (t :: ts) = tree_bits t ++ forest_bits ts.
Proof. done. Qed.

Lemma forest_bits_inj ts us :
  length ts = length us → forest_bits ts = forest_bits us → ts = us.
Proof.
  revert us. induction ts as [|t ts IH]; intros [|u us] Hl H; try done.
  unfold forest_bits in H. simpl in H. apply tree_bits_app_inj in H as [-> H].
  f_equal. apply IH; [by simplify_eq/=|done].
Qed.

(** The slot counter that every reader of prefix codes runs: the number of
    operands still missing; [None] when bits follow a complete term. *)
Fixpoint scan (bs : list bool) (slots : nat) : option nat :=
  match bs with
  | [] => Some slots
  | b :: bs => match slots with
               | O => None
               | S n => scan bs (if b then S (S n) else n)
               end
  end.

Lemma scan_tree t rest n : scan (tree_bits t ++ rest) (S n) = scan rest n.
Proof.
  revert rest n. induction t as [|l IHl r IHr]; intros rest n; simpl; [done|].
  rewrite <- (assoc_L (++)). by rewrite IHl, IHr.
Qed.

Lemma scan_forest ts rest n :
  scan (forest_bits ts ++ rest) (length ts + n) = scan rest n.
Proof.
  unfold forest_bits. induction ts as [|t ts IH]; simpl; [done|].
  rewrite <- (assoc_L (++)). by rewrite scan_tree.
Qed.

(** A bit string closes [n] slots exactly when it is a sequence of [n] codes. *)
Lemma scan_0_iff bs n :
  scan bs n = Some 0%nat ↔ ∃ ts, length ts = n ∧ bs = forest_bits ts.
Proof.
  split.
  - revert n. induction bs as [|b bs IH]; intros n H; simpl in H.
    { exists []. by simplify_eq. }
    destruct n as [|n]; [done|]. apply IH in H as (ts & Hl & ->).
    destruct b.
    + destruct ts as [|l [|r ts]]; try (simpl in Hl; lia).
      exists (Op l r :: ts). simpl in *. split; [lia|]. unfold forest_bits. simpl.
      by rewrite (assoc_L (++)).
    + exists (One :: ts). simpl. split; [lia|done].
  - intros (ts & <- & ->). rewrite <- (app_nil_r (forest_bits ts)).
    rewrite <- (Nat.add_0_r (length ts)). by rewrite scan_forest.
Qed.

Lemma scan_tree_iff bs : scan bs 1 = Some 0%nat ↔ ∃ t, bs = tree_bits t.
Proof.
  rewrite scan_0_iff. split.
  - intros ([|t [|]] & Hl & ->); try done. exists t. unfold forest_bits. simpl.
    by rewrite app_nil_r.
  - intros [t ->]. exists [t]. unfold forest_bits. simpl. by rewrite app_nil_r.
Qed.

Lemma scan_app a b n : scan (a ++ b) n = (scan a n ≫= scan b).
Proof.
  revert n. induction a as [|x a IH]; intros n; simpl; [done|].
  destruct n; [done|]. apply IH.
Qed.

(** A proper prefix of a code keeps a slot open. *)
Lemma scan_prefix t bs c rest :
  tree_bits t = bs ++ c :: rest → ∃ n, scan bs 1 = Some (S n).
Proof.
  intros H. assert (scan (tree_bits t) 1 = Some 0%nat) as Hs by (apply scan_tree_iff; eauto).
  rewrite H, scan_app in Hs. destruct (scan bs 1) as [[|n]|]; [done|eauto|done].
Qed.
