(* ===== verification/Encoding.v ===== *)
(** * number/encoding.rs: terms packed into words

    A [Bml] is the canonical little-endian word vector of the integer whose
    binary digits are the prefix code of a closed term. The invariant
    [Represents b t] ties the words to the term; every constructor of the module
    establishes it and every reader is proved against it. *)

From S2P Require Import Prelude Words Terms.

(** ** Data *)

Definition DEFAULT_MAX_BITS : Z := 1048576.

Inductive EncodingError : Set :=
  | Empty
  | InvalidDigit (index : Z)
  | LeadingZero
  | Truncated
  | TrailingBits
  | SizeOverflow.

Inductive BuildError : Set :=
  | BitLimit (required limit : Z)
  | BuildSizeOverflow.

Record Bml : Type := mkBml { words : list Z }.

#[global] Instance EncodingError_eq_dec : EqDecision EncodingError.
Proof. solve_decision. Defined.
#[global] Instance BuildError_eq_dec : EqDecision BuildError.
Proof. solve_decision. Defined.
#[global] Instance Bml_eq_dec : EqDecision Bml.
Proof. solve_decision. Defined.

(** ** Operations *)

Definition one : Bml := mkBml [].

Definition bit_len (b : Bml) : Z :=
  match last (words b) with
  | None => 1
  | Some word => (Z.of_nat (length (words b)) - 1) * 64 + (64 - leading_zeros word)
  end.

Definition bit (b : Bml) (index : Z) : bool :=
  match words b !! Z.to_nat (index / 64) with
  | Some word => negb (Z.land word (Z.shiftl 1 (index `mod` 64)) =? 0)
  | None => false
  end.

Definition validate_step (b : Bml) (index slots : Z) : Result EncodingError Z :=
  if slots =? 0 then Err TrailingBits
  else
    let slots := slots - 1 in
    if bit b index then ok_or SizeOverflow (checked_add slots 2) else Ok slots.

Definition validate (b : Bml) : Result EncodingError unit :=
  slots ← for_each (validate_step b) (reverse (seqZ 0 (bit_len b))) 1;
  if slots =? 0 then Ok tt else Err Truncated.

Definition from_words_le (ws : list Z) : Result EncodingError Bml :=
  let value := mkBml (normalize ws) in
  _ ← validate value; Ok value.

Definition from_u64 (value : Z) : Result EncodingError Bml := from_words_le [value].

Definition to_u64 (b : Bml) : option Z :=
  match words b with
  | [] => Some 0
  | [word] => Some word
  | _ => None
  end.

Definition to_words_le (b : Bml) : list Z := words b.

Definition check_digit (entry : Z * Ascii.ascii) (_ : unit) : Result EncodingError unit :=
  let '(index, byte) := entry in
  if negb (Ascii.eqb byte "0") && negb (Ascii.eqb byte "1")
  then Err (InvalidDigit index) else Ok tt.

Definition or_digit (ws : list Z) (entry : Z * Ascii.ascii) : list Z :=
  let '(index, byte) := entry in if Ascii.eqb byte "1" then or_bit ws index else ws.

Definition from_binary (bits : string) : Result EncodingError Bml :=
  let bytes := String.list_ascii_of_string bits in
  let len := Z.of_nat (length bytes) in
  if len =? 0 then Err Empty
  else
    _ ← for_each check_digit (enumerate bytes) tt;
    if (1 <? len) && bool_decide (head bytes = Some "0"%char) then Err LeadingZero
    else
      total ← ok_or SizeOverflow (checked_add len 63);
      let word_count := total / 64 in
      let ws := foldl or_digit (replicate (Z.to_nat word_count) 0) (enumerate (reverse bytes)) in
      from_words_le ws.

Definition to_binary (b : Bml) : string :=
  String.string_of_list_ascii
    ((λ i, if bit b i then "1"%char else "0"%char) <$> reverse (seqZ 0 (bit_len b))).

(** The two copy loops of [op_with_limit]: the bits of [src] below [n] are
    or-ed into [ws] at offset [off]. *)
Definition copy_bits (src : Bml) (n off : Z) (ws : list Z) : list Z :=
  foldl (λ ws i, if bit src i then or_bit ws (i + off) else ws) ws (seqZ 0 n).

Definition op_with_limit (self rhs : Bml) (max_bits : Z) : Result BuildError Bml :=
  let left_len := bit_len self in
  let right_len := bit_len rhs in
  len ← ok_or BuildSizeOverflow (checked_add left_len right_len ≫= λ n, checked_add n 1);
  if max_bits <? len then Err (BitLimit len max_bits)
  else
    total ← ok_or BuildSizeOverflow (checked_add len 63);
    let count := total / 64 in
    let ws := or_bit (replicate (Z.to_nat count) 0) (len - 1) in
    let ws := copy_bits rhs right_len 0 ws in
    let ws := copy_bits self left_len right_len ws in
    Ok (mkBml ws).

Definition op (self rhs : Bml) : Result BuildError Bml :=
  op_with_limit self rhs DEFAULT_MAX_BITS.

(** ** The representation invariant *)

Definition wf (b : Bml) : Prop := canonical (words b).

(** The bits of a term, most significant first. *)
Definition bits (b : Bml) : list bool := Z_bits (bit_len b) (words_val (words b)).

Definition Represents (b : Bml) (t : ClosedTerm) : Prop :=
  wf b ∧ words_val (words b) = tree_code t.

(** Vectors whose bit length is a [usize], as every allocated vector has. *)
Definition fits (b : Bml) : Prop := 64 * Z.of_nat (length (words b)) + 1 < W64.

Lemma bit_len_val b :
  wf b → bit_len b = if words_val (words b) =? 0 then 1 else nbits (words_val (words b)).
Proof.
  intros Hwf. unfold bit_len. destruct (last (words b)) as [w|] eqn:Hl.
  - rewrite (canonical_nbits _ w) by done.
    assert (words b ≠ []) by (by intros Hn; rewrite Hn in Hl).
    pose proof (canonical_val_pos _ Hwf ltac:(done)). case_match; lia.
  - apply last_None in Hl. by rewrite Hl.
Qed.

Lemma bit_testbit b i : words_ok (words b) → 0 ≤ i → bit b i = Z.testbit (words_val (words b)) i.
Proof.
  intros Hok Hi. rewrite words_val_testbit by done. unfold bit, words_bit.
  destruct (words b !! _) as [w|] eqn:E; [|done].
  pose proof (Z.mod_pos_bound i 64). set (k := i `mod` 64) in *.
  rewrite Z.shiftl_1_l. destruct (Z.testbit w k) eqn:Hb.
  - destruct (Z.eqb_spec (Z.land w (2 ^ k)) 0) as [H0|]; [|done].
    apply (f_equal (λ z, Z.testbit z k)) in H0.
    rewrite Z.land_spec, Hb, Z.pow2_bits_true, Z.testbit_0_l in H0 by lia. done.
  - replace (Z.land w (2 ^ k)) with 0; [done|]. symmetry. apply Z.bits_inj'. intros j Hj.
    rewrite Z.land_spec, Z.testbit_0_l, Z.pow2_bits_eqb by lia.
    destruct (Z.eqb_spec k j) as [<-|]; [by rewrite Hb|by rewrite andb_false_r].
Qed.

Section represents.
Context {b : Bml} {t : ClosedTerm} (Hr : Represents b t).

Lemma Represents_ok : words_ok (words b).
Proof. apply Hr. Qed.

Lemma Represents_bit_len : bit_len b = tree_len t.
Proof.
  destruct Hr as [Hwf Hv]. rewrite bit_len_val, Hv by done. destruct t as [|l r]; [done|].
  rewrite tree_code_nbits. destruct (Z.eqb_spec (tree_code (Op l r)) 0) as [H0|]; [|done].
  pose proof (tree_code_nbits l r) as H. rewrite H0 in H.
  pose proof (tree_len_pos (Op l r)). unfold nbits in H. simpl in *. lia.
Qed.

Lemma Represents_bit i : 0 ≤ i → bit b i = Z.testbit (tree_code t) i.
Proof. intros. rewrite bit_testbit by (done || apply Represents_ok). f_equal. apply Hr. Qed.

Lemma Represents_bits : bits b = tree_bits t.
Proof.
  unfold bits. rewrite Represents_bit_len. destruct Hr as [_ ->]. apply tree_code_Z_bits.
Qed.

Lemma Represents_bit_beyond i : tree_len t ≤ i → bit b i = false.
Proof.
  intros. pose proof (tree_len_pos t). rewrite Represents_bit by lia.
  apply (testbit_small _ _ (tree_len t)); [apply tree_code_bounds|done].
Qed.
End represents.

Lemma bits_Represents b t : wf b → bits b = tree_bits t → Represents b t.
Proof.
  intros Hwf Hb. split; [done|].
  assert (bit_len b = tree_len t) as Hlen.
  { rewrite <- length_tree_bits, <- Hb. unfold bits. rewrite length_Z_bits; [done|].
    rewrite bit_len_val by done. case_match; [lia|apply nbits_nonneg]. }
  apply (Z_bits_inj (tree_len t)).
  - pose proof (tree_len_pos t). lia.
  - split; [by apply words_val_nonneg, Hwf|]. rewrite <- Hlen, bit_len_val by done.
    case_match; [lia|]. by apply nbits_spec, words_val_nonneg, Hwf.
  - apply tree_code_bounds.
  - rewrite tree_code_Z_bits, <- Hlen. exact Hb.
Qed.

(** The bits of an encoded term, low bit first. *)
Lemma Represents_bits_up b t :
  Represents b t → (bit b <$> seqZ 0 (bit_len b)) = reverse (tree_bits t).
Proof.
  intros Hr. rewrite <- (Represents_bits Hr). unfold bits, Z_bits.
  rewrite <- fmap_reverse, reverse_involutive. apply list_fmap_ext. intros i x Hi.
  apply lookup_seqZ in Hi as [-> Hi]. apply bit_testbit; [apply (Represents_ok Hr)|lia].
Qed.

(** Structural equality of the words is equality of the terms. *)
Lemma Represents_inj a b t : Represents a t → Represents b t → a = b.
Proof.
  destruct a as [ws], b as [us]. intros [Ha Hva] [Hb Hvb]. f_equal.
  apply words_val_inj; [done..|]. simpl in *. congruence.
Qed.

Lemma Represents_fun b t u : Represents b t → Represents b u → t = u.
Proof.
  intros Ht Hu. apply tree_bits_inj.
  by rewrite <- (Represents_bits Ht), <- (Represents_bits Hu).
Qed.

Lemma one_Represents : Represents one One.
Proof. by split; [apply canonical_nil|]. Qed.
#[export] Hint Resolve one_Represents : core.

(** ** Validation decides the prefix code *)

Lemma validate_step_S b i s :
  words_ok (words b) → 0 ≤ i → Z.of_nat s + 2 < W64 →
  validate_step b i (Z.of_nat (S s)) =
  Ok (Z.of_nat (if Z.testbit (words_val (words b)) i then S (S s) else s)).
Proof.
  intros Hok Hi Hs. unfold validate_step, checked_add.
  rewrite (proj2 (Z.eqb_neq (Z.of_nat (S s)) 0)), bit_testbit by (done || lia).
  replace (Z.of_nat (S s) - 1) with (Z.of_nat s) by lia.
  rewrite (proj2 (Z.ltb_lt _ _)) by lia.
  destruct (Z.testbit _ i); simpl; [|done]. f_equal. lia.
Qed.

Lemma validate_loop b n s :
  words_ok (words b) → 0 ≤ n → Z.of_nat s + n < W64 →
  for_each (validate_step b) (reverse (seqZ 0 n)) (Z.of_nat s) =
  match scan (Z_bits n (words_val (words b))) s with
  | Some k => Ok (Z.of_nat k)
  | None => Err TrailingBits
  end.
Proof.
  intros Hok Hn. revert s. pattern n. apply natlike_ind; [done| |done].
  clear n Hn. intros n Hn IH s Hs. rewrite seqZ_rev_cons, Z_bits_cons by lia.
  replace (Z.succ n - 1) with n by lia. cbn [for_each scan].
  destruct s as [|s]; [done|]. rewrite validate_step_S by (done || lia).
  destruct (Z.testbit _ n); apply IH; lia.
Qed.

Lemma fits_bit_len b : wf b → fits b → 1 ≤ bit_len b < W64 - 1.
Proof.
  unfold fits. intros Hwf Hf. rewrite bit_len_val by done.
  destruct (Z.eqb_spec (words_val (words b)) 0) as [|Hne]; [lia|].
  pose proof (words_val_bounds _ (proj1 Hwf)).
  pose proof (nbits_pos (words_val (words b))).
  assert (nbits (words_val (words b)) ≤ 64 * Z.of_nat (length (words b))); [|lia].
  apply nbits_le_iff; lia.
Qed.

(** The counting loop of [validate] is the slot counter of the abstract code:
    every outcome, the overflow branch being unreachable. *)
Lemma validate_scan b :
  wf b → fits b →
  validate b = match scan (bits b) 1 with
               | Some O => Ok tt
               | Some (S _) => Err Truncated
               | None => Err TrailingBits
               end.
Proof.
  intros Hwf Hf. pose proof (fits_bit_len b Hwf Hf). unfold validate, bits.
  change 1 with (Z.of_nat 1) at 1. rewrite validate_loop by (apply Hwf || lia).
  by destruct (scan _ 1) as [[|k]|].
Qed.

Lemma validate_ok_iff b : wf b → fits b → validate b = Ok tt ↔ ∃ t, Represents b t.
Proof.
  intros Hwf Hf. rewrite validate_scan by done. split.
  - intros Hs. destruct (scan (bits b) 1) as [[|k]|] eqn:E; try done.
    apply scan_tree_iff in E as [t E]. exists t. by apply bits_Represents.
  - intros [t Ht]. rewrite (Represents_bits Ht).
    by rewrite (proj2 (scan_tree_iff (tree_bits t)) ltac:(eauto)).
Qed.

(** ** Construction of an application *)

Lemma copy_bits_length src n off ws : length (copy_bits src n off ws) = length ws.
Proof.
  unfold copy_bits. revert ws. induction (seqZ 0 n) as [|i l IH]; intros ws; simpl; [done|].
  rewrite IH. case_match; [apply length_or_bit|done].
Qed.

Lemma copy_bits_ok src n off ws : words_ok ws → words_ok (copy_bits src n off ws).
Proof.
  unfold copy_bits. revert ws. induction (seqZ 0 n) as [|i l IH]; intros ws Hws; simpl; [done|].
  apply IH. case_match; auto.
Qed.
#[export] Hint Resolve copy_bits_ok : core.

Lemma copy_bits_testbit src n off ws j :
  words_ok ws → 0 ≤ n → 0 ≤ off → off + n ≤ 64 * Z.of_nat (length ws) → 0 ≤ j →
  Z.testbit (words_val (copy_bits src n off ws)) j =
  Z.testbit (words_val ws) j || (bool_decide (off ≤ j < off + n) && bit src (j - off)).
Proof.
  intros Hok Hn Hoff. revert j. pattern n. apply natlike_ind; [| |done].
  { intros j _ Hj. rewrite bool_decide_false by lia. by rewrite orb_false_r. }
  clear n Hn. intros n Hn IH j Hlen Hj.
  assert (copy_bits src (Z.succ n) off ws =
          let acc := copy_bits src n off ws in
          if bit src n then or_bit acc (n + off) else acc) as ->.
  { unfold copy_bits, Z.succ. rewrite seqZ_app by lia. by rewrite foldl_app. }
  cbv zeta. destruct (bit src n) eqn:Hb.
  - rewrite or_bit_testbit, IH; auto; [|lia|rewrite copy_bits_length; lia].
    repeat case_bool_decide; try lia; rewrite ?orb_true_r, ?orb_false_r; try done.
    replace (j - off) with n by lia. by rewrite Hb, orb_true_r.
  - rewrite IH by lia. f_equal. repeat case_bool_decide; try lia; try done.
    by replace (j - off) with n by lia.
Qed.

(** The words assembled by [op_with_limit], before wrapping. *)
Definition op_words (a b : Bml) (l r : ClosedTerm) : list Z :=
  let len := tree_len (Op l r) in
  let ws := or_bit (replicate (Z.to_nat ((len + 63) / 64)) 0) (len - 1) in
  copy_bits a (tree_len l) (tree_len r) (copy_bits b (tree_len r) 0 ws).

Lemma length_op_words a b l r :
  length (op_words a b l r) = Z.to_nat ((tree_len (Op l r) + 63) / 64).
Proof. unfold op_words. by rewrite !copy_bits_length, length_or_bit, length_replicate. Qed.

Lemma op_words_val a b l r :
  Represents a l → Represents b r → words_val (op_words a b l r) = tree_code (Op l r).
Proof.
  intros Ha Hb. pose proof (tree_len_pos l). pose proof (tree_len_pos r).
  assert (tree_len (Op l r) = 1 + tree_len l + tree_len r) as Hlen by done.
  apply Z.bits_inj'. intros j Hj. unfold op_words.
  set (count := Z.to_nat _).
  assert (tree_len (Op l r) ≤ 64 * Z.of_nat count) by (subst count; dlia).
  rewrite !copy_bits_testbit, or_bit_testbit
    by (auto; rewrite ?copy_bits_length, ?length_or_bit, ?length_replicate; lia).
  rewrite words_val_replicate, Z.testbit_0_l, orb_false_l, tree_code_op.
  replace (2 ^ (tree_len l + tree_len r) + tree_code l * 2 ^ tree_len r + tree_code r)
    with (tree_code r + 2 ^ tree_len r * (tree_code l + 2 ^ tree_len l * 1))
    by (rewrite Z.pow_add_r by lia; lia).
  rewrite testbit_add_shift by (apply tree_code_bounds || lia). case_decide.
  { rewrite (Represents_bit Hb) by lia.
    rewrite !Z.sub_0_r, (bool_decide_false (j = _)), (bool_decide_true (0 ≤ _ < _)),
      (bool_decide_false (_ ≤ j < _)) by lia. simpl. apply orb_false_r. }
  rewrite testbit_add_shift by (apply tree_code_bounds || lia).
  rewrite (bool_decide_false (0 ≤ _ < _)) by lia. rewrite orb_false_r. case_decide.
  - by rewrite (Represents_bit Ha), (bool_decide_false (j = _)),
      (bool_decide_true (_ ≤ j < _)) by lia.
  - rewrite (bool_decide_false (_ ≤ j < _)), orb_false_r by lia.
    case_bool_decide; [by replace (j - _ - _) with 0 by lia|].
    symmetry. apply (testbit_small 1 _ 1); lia.
Qed.

Lemma op_words_Represents a b l r :
  Represents a l → Represents b r → Represents (mkBml (op_words a b l r)) (Op l r).
Proof.
  intros Ha Hb. pose proof (op_words_val a b l r Ha Hb) as Hv. split; [|done].
  assert (words_ok (op_words a b l r)) as Hok by (unfold op_words; auto).
  split; [done|]. apply tight_normalized; [done|]. simpl words.
  rewrite Hv, tree_code_nbits, length_op_words. pose proof (tree_len_pos (Op l r)). dlia.
Qed.

(** Every branch of [op_with_limit]: the size of the application decides
    between the two errors and the term. *)
Lemma op_with_limit_cases a b l r max_bits :
  Represents a l → Represents b r → usize max_bits →
  let n := tree_len (Op l r) in
  op_with_limit a b max_bits =
    (if W64 <=? n then Err BuildSizeOverflow
     else if max_bits <? n then Err (BitLimit n max_bits)
     else if W64 <=? n + 63 then Err BuildSizeOverflow
     else Ok (mkBml (op_words a b l r))).
Proof.
  intros Ha Hb Hm n. subst n. unfold op_with_limit.
  rewrite (Represents_bit_len Ha), (Represents_bit_len Hb).
  pose proof (tree_len_pos l). pose proof (tree_len_pos r).
  assert (tree_len (Op l r) = 1 + tree_len l + tree_len r) as Hlen by done.
  assert ((checked_add (tree_len l) (tree_len r) ≫= λ n, checked_add n 1) =
          if W64 <=? tree_len (Op l r) then None else Some (tree_len (Op l r))) as ->.
  { rewrite Hlen. unfold checked_add. destruct (Z.ltb_spec (tree_len l + tree_len r) W64); simpl.
    - destruct (Z.ltb_spec (tree_len l + tree_len r + 1) W64), (Z.leb_spec W64 (1 + tree_len l + tree_len r));
        try lia; [|done]. f_equal. lia.
    - by rewrite (proj2 (Z.leb_le _ _)) by lia. }
  unfold op_words. destruct (W64 <=? tree_len (Op l r)); [done|]. cbn [ok_or mbind Result_bind].
  destruct (max_bits <? tree_len (Op l r)); [done|].
  unfold checked_add. rewrite Z.leb_antisym. by destruct (tree_len (Op l r) + 63 <? W64).
Qed.

(** ** The textual code *)

Definition bit_char (b : bool) : Ascii.ascii := if b then "1"%char else "0"%char.
Definition is_digit (c : Ascii.ascii) : bool := Ascii.eqb c "0" || Ascii.eqb c "1".

(** The text of a bit string. *)
Definition bits_string (bs : list bool) : string :=
  String.string_of_list_ascii (bit_char <$> bs).

Lemma bit_char_one b : Ascii.eqb (bit_char b) "1" = b.
Proof. by destruct b. Qed.

Lemma digits_bits l : Forall is_digit l → l = bit_char <$> ((λ c, Ascii.eqb c "1") <$> l).
Proof.
  induction 1 as [|c l Hc Hl IH]; [done|]. simpl. f_equal; [|done].
  unfold is_digit in Hc. apply Is_true_true, orb_true_iff in Hc as [->%Ascii.eqb_eq|Hc]; [done|].
  rewrite Hc. by apply Ascii.eqb_eq in Hc.
Qed.

(** The digit check reports the first offending byte. *)
Lemma digit_loop l k :
  for_each check_digit (imap (λ i x, (Z.of_nat (k + i), x)) l) tt =
  match position (λ c, negb (is_digit c)) l with
  | Some i => Err (InvalidDigit (Z.of_nat (k + i)))
  | None => Ok tt
  end.
Proof.
  revert k. induction l as [|c l IH]; intros k; [done|]. simpl.
  unfold check_digit at 1, is_digit at 1. rewrite negb_orb.
  destruct (negb (Ascii.eqb c "0") && negb (Ascii.eqb c "1")); [done|]. simpl.
  rewrite (imap_ext _ (λ i x, (Z.of_nat (S k + i), x)) l); cycle 1.
  { intros i x _. simpl. f_equal. lia. }
  rewrite IH. destruct (position _ l) as [i|]; [|done]. simpl. do 2 f_equal. lia.
Qed.

Lemma position_None {A} (p : A → bool) l : position p l = None ↔ Forall (λ x, p x = false) l.
Proof.
  induction l as [|x l IH]; simpl; [by split|]. rewrite Forall_cons, <- IH.
  destruct (p x), (position p l); simpl; split; intros; destruct_and?; done.
Qed.

(** The words assembled from a string of digits. *)
Definition digit_words (n : Z) (bs : list bool) : list Z :=
  foldl or_digit (replicate (Z.to_nat n) 0) (enumerate (reverse (bit_char <$> bs))).

Lemma or_digits_ok l ws :
  words_ok ws → words_ok (foldl or_digit ws l) ∧ length (foldl or_digit ws l) = length ws.
Proof.
  revert ws. induction l as [|[i c] l IH]; intros ws Hok; simpl; [done|].
  case_match; [|by apply IH]. rewrite <- (length_or_bit ws i). apply IH. auto.
Qed.

Lemma digit_words_ok n bs : words_ok (digit_words n bs) ∧ length (digit_words n bs) = Z.to_nat n.
Proof.
  destruct (or_digits_ok (enumerate (reverse (bit_char <$> bs))) (replicate (Z.to_nat n) 0)) as [? Hl];
    [auto|]. split; [done|]. by rewrite <- (length_replicate (Z.to_nat n) 0).
Qed.

Lemma digit_words_val n bs :
  Z.of_nat (length bs) ≤ 64 * n → words_val (digit_words n bs) = bits_val bs.
Proof.
  induction bs as [|b bs IH]; intros Hn; [apply words_val_replicate|].
  cbn [length bits_val] in *. rewrite Nat2Z.inj_succ in Hn.
  assert (digit_words n (b :: bs) =
          let ws := digit_words n bs in
          if b then or_bit ws (Z.of_nat (length bs)) else ws) as ->.
  { unfold digit_words, enumerate. rewrite fmap_cons, reverse_cons, imap_app, foldl_app. simpl.
    rewrite bit_char_one, length_reverse, length_fmap. by rewrite Nat.add_0_r. }
  cbv zeta. destruct b; simpl Z.b2z; rewrite ?Z.mul_1_l, ?Z.mul_0_l; [|by apply IH; lia].
  destruct (digit_words_ok n bs) as [Hok Hl]. pose proof (bits_val_bounds bs) as Hb.
  apply Z.bits_inj'. intros j Hj. rewrite or_bit_testbit, IH by (done || lia).
  replace (2 ^ Z.of_nat (length bs) + bits_val bs)
    with (bits_val bs + 2 ^ Z.of_nat (length bs) * 1) by lia.
  rewrite testbit_add_shift by lia. case_decide; case_bool_decide; subst; try lia.
  - apply orb_false_r.
  - rewrite orb_true_r. by rewrite Z.sub_diag.
  - rewrite (testbit_small _ _ (Z.of_nat (length bs))) by lia. symmetry.
    apply (testbit_small 1 _ 1); lia.
Qed.

(** [bits] of the normalised words is the string that was read, provided it has
    no superfluous leading zero. *)
Lemma bits_normalize ws bs :
  words_ok ws → words_val ws = bits_val bs → bs = [false] ∨ head bs = Some true →
  bits (mkBml (normalize ws)) = bs.
Proof.
  intros Hok Hv Hbs. pose proof (normalize_canonical ws Hok) as Hc.
  unfold bits. rewrite bit_len_val by done. simpl. rewrite normalize_val, Hv.
  transitivity (Z_bits (Z.of_nat (length bs)) (bits_val bs)); [f_equal|apply Z_bits_val].
  destruct Hbs as [->|Hbs]; [done|]. destruct bs as [|[] bs]; try done.
  pose proof (bits_val_bounds (true :: bs)) as Hb1. pose proof (bits_val_bounds bs) as Hb.
  cbn [bits_val Z.b2z length] in *. rewrite Nat2Z.inj_succ in *.
  destruct (Z.eqb_spec (1 * 2 ^ Z.of_nat (length bs) + bits_val bs) 0); [lia|].
  apply nbits_unique; [lia|]. replace (Z.succ _ - 1) with (Z.of_nat (length bs)) by lia. lia.
Qed.

(** What [from_binary] answers on a string of binary digits. *)
Definition decode_digits (bs : list bool) : Result EncodingError (list bool) :=
  match bs with
  | [] => Err Empty
  | false :: _ :: _ => Err LeadingZero
  | _ => match scan bs 1 with
         | Some O => Ok bs
         | Some (S _) => Err Truncated
         | None => Err TrailingBits
         end
  end.

Lemma from_words_le_scan ws bs :
  words_ok ws → 64 * Z.of_nat (length ws) + 1 < W64 → words_val ws = bits_val bs →
  bs = [false] ∨ head bs = Some true →
  bits <$> from_words_le ws = match scan bs 1 with
                              | Some O => Ok bs
                              | Some (S _) => Err Truncated
                              | None => Err TrailingBits
                              end.
Proof.
  intros Hok Hl Hv Hbs. unfold from_words_le. cbv zeta.
  rewrite validate_scan; [|by apply normalize_canonical|].
  - rewrite (bits_normalize ws bs) by done.
    destruct (scan bs 1) as [[|n]|]; simpl; [|done..]. f_equal. by apply bits_normalize.
  - unfold fits. simpl. unfold normalize. rewrite length_take. lia.
Qed.

Lemma from_binary_digits bs :
  Z.of_nat (length bs) + 128 < W64 →
  bits <$> from_binary (bits_string bs) = decode_digits bs.
Proof.
  intros Hlen. unfold from_binary, bits_string.
  rewrite String.list_ascii_of_string_of_list_ascii, length_fmap.
  destruct bs as [|b bs]; [done|]. set (bs' := b :: bs) in *.
  rewrite (proj2 (Z.eqb_neq _ 0)) by (subst bs'; simpl; lia).
  rewrite (digit_loop (bit_char <$> bs') 0 : for_each check_digit (enumerate _) tt = _).
  rewrite (proj2 (position_None _ _)) by (apply Forall_fmap, Forall_true; by intros []).
  cbn [mbind Result_bind]. unfold checked_add.
  rewrite (proj2 (Z.ltb_lt (Z.of_nat (length bs') + 63) _)) by lia.
  destruct ((1 <? Z.of_nat (length bs')) && bool_decide _) eqn:Hz.
  - apply andb_true_iff in Hz as [H1%Z.ltb_lt H2%bool_decide_eq_true].
    subst bs'. destruct b; [done|]. destruct bs; [simpl in H1; lia|done].
  - assert (bs' = [false] ∨ head bs' = Some true) as Hbs.
    { subst bs'. destruct b; [by right|left]. apply andb_false_iff in Hz as [Hz|Hz].
      - apply Z.ltb_ge in Hz. destruct bs; [done|simpl in Hz; lia].
      - by apply bool_decide_eq_false in Hz. }
    cbn [ok_or mbind Result_bind]. fold (digit_words ((Z.of_nat (length bs') + 63) / 64) bs').
    destruct (digit_words_ok ((Z.of_nat (length bs') + 63) / 64) bs') as [Hok Hl].
    rewrite (from_words_le_scan _ bs'); [|done|rewrite Hl; dlia|apply digit_words_val; dlia|done].
    subst bs'. destruct b; [done|]. destruct Hbs as [[= ->]|]; done.
Qed.

Lemma to_binary_bits b : wf b → to_binary b = bits_string (bits b).
Proof.
  intros Hwf. unfold to_binary, bits_string, bits, Z_bits. f_equal.
  rewrite <- list_fmap_compose. apply list_fmap_ext. intros k i Hi. simpl.
  apply list_elem_of_lookup_2, elem_of_reverse, elem_of_seqZ in Hi.
  rewrite bit_testbit by (apply Hwf || lia). by destruct (Z.testbit _ i).
Qed.

(** ** Properties *)

Lemma from_words_le_ok ws b :
  words_ok ws → from_words_le ws = Ok b → wf b ∧ words_val (words b) = words_val ws.
Proof.
  intros Hok H. unfold from_words_le in H. inv_ok. subst.
  split; [by apply normalize_canonical|apply normalize_val].
Qed.

Lemma from_words_le_Represents ws b :
  words_ok ws → 64 * Z.of_nat (length ws) + 1 < W64 → from_words_le ws = Ok b → ∃ t, Represents b t.
Proof.
  intros Hok Hl H. pose proof (normalize_canonical ws Hok) as Hc.
  assert (fits (mkBml (normalize ws))) as Hf
    by (unfold fits, normalize; simpl; rewrite length_take; lia).
  pose proof (validate_ok_iff (mkBml (normalize ws)) Hc Hf) as Hv.
  unfold from_words_le in H. cbv zeta in H. inv_ok. subst.
  match goal with u : unit |- _ => destruct u end. by apply Hv.
Qed.

Lemma from_binary_wf s b : from_binary s = Ok b → wf b.
Proof.
  unfold from_binary. intros H. case_match; [done|]. inv_ok.
  apply from_words_le_ok in H as [? _]; [done|]. by apply or_digits_ok.
Qed.

Lemma wf_bits_inj a b : wf a → wf b → bits a = bits b → a = b.
Proof.
  intros Ha Hb H. destruct a as [ws], b as [us]. f_equal. apply words_val_inj; [done..|].
  assert (∀ b, wf b → 0 ≤ bit_len b ∧ 0 ≤ words_val (words b) < 2 ^ bit_len b) as Hbound.
  { intros b Hwf. rewrite bit_len_val by done. pose proof (words_val_nonneg _ (proj1 Hwf)).
    case_match; [lia|]. split; [auto|]. split; [done|]. by apply nbits_spec. }
  pose proof (Hbound _ Ha) as [??]. pose proof (Hbound _ Hb) as [??].
  assert (bit_len (mkBml ws) = bit_len (mkBml us)) as Hl.
  { rewrite <- (length_Z_bits (bit_len (mkBml ws)) (words_val ws)) by done.
    rewrite <- (length_Z_bits (bit_len (mkBml us)) (words_val us)) by done.
    unfold bits in H. simpl in H. by rewrite H. }
  apply (Z_bits_inj (bit_len (mkBml ws))); [done|done|by rewrite Hl|].
  unfold bits in H. simpl in H. by rewrite H, Hl.
Qed.

(** [op_with_limit] assembles exactly the code of the ordered application
    within its budget: on success the words represent [Op l r] and its size is
    within [max_bits]; [BitLimit] reports exactly the size that exceeds the
    budget; the overflow error only occurs for sizes beyond [usize]. *)
Theorem op_with_limit_spec a b l r max_bits :
  Represents a l → Represents b r → usize max_bits →
  let n := tree_len (Op l r) in
  match op_with_limit a b max_bits with
  | Ok c => Represents c (Op l r) ∧ n ≤ max_bits
  | Err (BitLimit required limit) => required = n ∧ limit = max_bits ∧ max_bits < n
  | Err BuildSizeOverflow => W64 ≤ n + 63
  end.
Proof.
  intros Ha Hb Hm n. rewrite (op_with_limit_cases a b l r) by done. fold n.
  destruct (Z.leb_spec W64 n); [lia|]. destruct (Z.ltb_spec max_bits n); [done|].
  destruct (Z.leb_spec W64 (n + 63)); [done|]. split; [|done].
  by apply op_words_Represents.
Qed.

Lemma op_with_limit_spec_witness :
  Represents one One ∧ op_with_limit one one 2 = Err (BitLimit 3 2) ∧
  match op_with_limit one one 3 with
  | Ok c => Represents c (Op One One) ∧ 3 ≤ 3
  | Err (BitLimit required limit) => required = 3 ∧ limit = 3 ∧ 3 < 3
  | Err BuildSizeOverflow => W64 ≤ 3 + 63
  end.
Proof.
  split; [apply one_Represents|]. split; [vm_compute; reflexivity|].
  apply (op_with_limit_spec one one One One 3); [apply one_Represents..|].
  unfold usize. lia.
Defined.

(** Parsing accepts exactly the prefix codes: [from_words_le] succeeds on a
    word vector iff its value is the code of some closed term (high zero words
    being ignored), and the term is then determined by the result. *)
Theorem from_words_le_accepts ws :
  words_ok ws → 64 * Z.of_nat (length ws) + 1 < W64 →
  (∃ b, from_words_le ws = Ok b) ↔ (∃ t, words_val ws = tree_code t).
Proof.
  intros Hok Hl. pose proof (normalize_canonical ws Hok) as Hc.
  assert (fits (mkBml (normalize ws))) as Hf
    by (unfold fits, normalize; simpl; rewrite length_take; lia).
  pose proof (validate_ok_iff (mkBml (normalize ws)) Hc Hf) as Hv.
  unfold from_words_le. cbv zeta. split.
  - intros [b Hb]. inv_ok. destruct x. destruct (proj1 Hv) as [t [_ Ht]]; [done|].
    exists t. simpl in Ht. by rewrite normalize_val in Ht.
  - intros [t Ht]. exists (mkBml (normalize ws)). rewrite (proj2 Hv); [done|].
    exists t. split; [done|]. simpl. by rewrite normalize_val.
Qed.

Lemma from_words_le_accepts_witness :
  (∃ b, from_words_le [88; 0] = Ok b) ↔
  (∃ t, words_val [88; 0] = tree_code t).
Proof.
  apply (from_words_le_accepts [88; 0]);
    [solve_words|vm_compute; reflexivity].
Defined.

Lemma length_bits_string bs : String.length (bits_string bs) = length bs.
Proof.
  unfold bits_string. rewrite <- (length_fmap bit_char bs).
  induction (bit_char <$> bs) as [|c l IH]; simpl; [done|by f_equal].
Qed.

Lemma from_binary_text s b : from_binary s = Ok b → ∃ bs, s = bits_string bs.
Proof.
  intros Hs. set (l := String.list_ascii_of_string s).
  assert (Forall is_digit l) as Hd.
  { unfold from_binary in Hs. case_match; [done|]. fold l in Hs. inv_ok.
    rename select (for_each _ _ _ = _) into Hl.
    rewrite (digit_loop l 0 : for_each check_digit (enumerate l) tt = _) in Hl.
    destruct (position _ l) eqn:Hp; [done|]. apply position_None in Hp.
    eapply Forall_impl; [exact Hp|]. by intros c ->%negb_false_iff. }
  apply digits_bits in Hd. exists ((λ c, Ascii.eqb c "1") <$> l).
  unfold bits_string. rewrite <- Hd. symmetry. apply String.string_of_list_ascii_of_string.
Qed.

Lemma decode_digits_ok bs bs' :
  decode_digits bs = Ok bs' → bs' = bs ∧ ∃ t, bs = tree_bits t.
Proof.
  unfold decode_digits. intros H. repeat case_match; simplify_eq; split; try done;
    by apply scan_tree_iff.
Qed.

Lemma decode_digits_tree t : decode_digits (tree_bits t) = Ok (tree_bits t).
Proof.
  pose proof (proj2 (scan_tree_iff (tree_bits t)) ltac:(eauto)) as Hs.
  destruct t; [done|]. simpl tree_bits in *. unfold decode_digits. by rewrite Hs.
Qed.

(** Text round trip: printing a term and parsing the text gives the same
    value back, and every accepted text is the print of the term it denotes. *)
Theorem binary_roundtrip :
  (∀ b t, Represents b t → tree_len t + 128 < W64 → from_binary (to_binary b) = Ok b) ∧
  (∀ s b, from_binary s = Ok b → Z.of_nat (String.length s) + 128 < W64 →
     to_binary b = s ∧ ∃ t, Represents b t).
Proof.
  split.
  - intros b t Hr Hlen. rewrite to_binary_bits, (Represents_bits Hr) by apply Hr.
    pose proof (from_binary_digits (tree_bits t)) as H.
    rewrite length_tree_bits, decode_digits_tree in H. specialize (H Hlen).
    destruct (from_binary _) as [c|] eqn:Hc; [|done]. simpl in H. f_equal.
    apply wf_bits_inj; [by apply from_binary_wf in Hc|apply Hr|].
    rewrite (Represents_bits Hr). congruence.
  - intros s b Hs Hlen. pose proof (from_binary_wf _ _ Hs) as Hwf.
    destruct (from_binary_text _ _ Hs) as [bs ->]. rewrite length_bits_string in Hlen.
    pose proof (from_binary_digits bs Hlen) as H. rewrite Hs in H. simpl in H.
    symmetry in H. apply decode_digits_ok in H as [H [t Ht]].
    split; [by rewrite to_binary_bits, H|]. exists t. apply bits_Represents; [done|congruence].
Qed.

Definition term_2 : ClosedTerm := Op One One.

Lemma binary_roundtrip_witness :
  from_binary (to_binary (mkBml [4])) = Ok (mkBml [4]) ∧
  to_binary (mkBml [4]) = "100"%string.
Proof.
  split; [|vm_compute; reflexivity].
  apply (proj1 binary_roundtrip (mkBml [4]) term_2); [|vm_compute; reflexivity].
  split; [|vm_compute; reflexivity].
  unfold wf. solve_words.
Defined.

(** Rejected texts, in the order the parser checks them: the empty text,
    the first byte that is not a binary digit, a superfluous leading zero, bits
    after a complete term, and a term that ends early. *)
Theorem from_binary_rejects s :
  Z.of_nat (String.length s) + 128 < W64 →
  let l := String.list_ascii_of_string s in
  match position (λ c, negb (is_digit c)) l with
  | Some i => from_binary s = Err (InvalidDigit (Z.of_nat i))
  | None => ∃ bs, s = bits_string bs ∧ bits <$> from_binary s = decode_digits bs
  end.
Proof.
  intros Hlen l. destruct (position _ l) as [i|] eqn:Hp.
  - unfold from_binary. fold l. destruct l as [|c l'] eqn:Hl; [done|].
    rewrite (proj2 (Z.eqb_neq _ 0)) by (simpl; lia).
    rewrite (digit_loop (c :: l') 0 : for_each check_digit (enumerate _) tt = _).
    by rewrite Hp.
  - assert (∃ bs, s = bits_string bs) as [bs ->].
    { exists ((λ c, Ascii.eqb c "1") <$> l). unfold bits_string. rewrite <- digits_bits.
      - symmetry. apply String.string_of_list_ascii_of_string.
      - apply position_None in Hp. eapply Forall_impl; [exact Hp|].
        by intros c ->%negb_false_iff. }
    exists bs. split; [done|]. apply from_binary_digits. by rewrite length_bits_string in Hlen.
Qed.

Lemma from_binary_rejects_witness :
  from_binary "10a0" = Err (InvalidDigit 2) ∧
  from_binary "00" = Err LeadingZero ∧ from_binary "1000" = Err TrailingBits ∧
  from_binary "110" = Err Truncated.
Proof.
  split; [|repeat split; vm_compute; reflexivity].
  exact (from_binary_rejects "10a0" ltac:(vm_compute; reflexivity)).
Defined.
