(* ===== verification/Operations.v ===== *)
(** * number/operations.rs: structural expansion of arithmetic

    [Rules] expands arithmetic into the basis without evaluating anything. The
    abstract side is a template per rule ([T_add], [T_mul], ...); the theorem of
    this file is that every rule builds exactly its template within the budget,
    and reports the budget otherwise. RealSemantics.v gives the templates their
    real values. *)

From S2P Require Import Prelude Words Terms Encoding.

Record Rules : Type := mkRules { rules_max_bits : Z }.

Definition Rules_default : Rules := mkRules DEFAULT_MAX_BITS.

(** ** The rules *)

Module Rules.
Definition op (self : Rules) (left right : Bml) : Result BuildError Bml :=
  op_with_limit left right (rules_max_bits self).

Definition exp2 (self : Rules) (x : Bml) : Result BuildError Bml := op self x one.

Definition log2 (self : Rules) (x : Bml) : Result BuildError Bml :=
  inner ← op self one x;
  reciprocal ← exp2 self inner;
  op self one reciprocal.

Definition sub_positive (self : Rules) (x y : Bml) : Result BuildError Bml :=
  l ← log2 self x;
  r ← exp2 self y;
  op self l r.

Definition add (self : Rules) (x y : Bml) : Result BuildError Bml :=
  p ← exp2 self x;
  q ← op self x p;
  difference ← sub_positive self q y;
  sub_positive self p difference.

Definition neg (self : Rules) (x : Bml) : Result BuildError Bml :=
  p ← exp2 self x;
  q ← op self x p;
  sub_positive self q p.

Definition sub (self : Rules) (x y : Bml) : Result BuildError Bml :=
  p ← exp2 self x;
  q ← op self x p;
  sum ← add self q y;
  sub_positive self p sum.

Definition mul (self : Rules) (x y : Bml) : Result BuildError Bml :=
  lx ← log2 self x;
  ly ← log2 self y;
  sum ← add self lx ly;
  exp2 self sum.

Definition div (self : Rules) (x y : Bml) : Result BuildError Bml :=
  lx ← log2 self x;
  ly ← log2 self y;
  difference ← sub self lx ly;
  exp2 self difference.

Definition recip (self : Rules) (x : Bml) : Result BuildError Bml :=
  lx ← log2 self x;
  n ← neg self lx;
  exp2 self n.

Definition scale (self : Rules) (x y : Bml) : Result BuildError Bml :=
  p ← exp2 self x;
  q ← op self x p;
  py ← mul self p y;
  qy ← mul self q y;
  sub_positive self py qy.

Definition pow (self : Rules) (x y : Bml) : Result BuildError Bml :=
  lx ← log2 self x;
  s ← scale self lx y;
  exp2 self s.

Definition sqrt (self : Rules) (x : Bml) : Result BuildError Bml :=
  minus_one ← neg self one;
  half ← exp2 self minus_one;
  lx ← log2 self x;
  s ← scale self lx half;
  exp2 self s.
End Rules.

(** The methods of [Bml] with the default budget. *)
Module BmlDefault.
Definition exp2 := Rules.exp2 Rules_default.
Definition log2 := Rules.log2 Rules_default.
Definition add := Rules.add Rules_default.
Definition sub := Rules.sub Rules_default.
Definition neg := Rules.neg Rules_default.
Definition mul := Rules.mul Rules_default.
Definition div := Rules.div Rules_default.
Definition recip := Rules.recip Rules_default.
Definition pow := Rules.pow Rules_default.
Definition sqrt := Rules.sqrt Rules_default.
End BmlDefault.

(** ** The templates *)

Definition T_exp2 (x : ClosedTerm) : ClosedTerm := Op x One.
Definition T_log2 (x : ClosedTerm) : ClosedTerm := Op One (T_exp2 (Op One x)).
(** [2^x - x], positive for every real [x]. *)
Definition T_gap (x : ClosedTerm) : ClosedTerm := Op x (T_exp2 x).
Definition T_sub_positive (x y : ClosedTerm) : ClosedTerm := Op (T_log2 x) (T_exp2 y).
Definition T_add (x y : ClosedTerm) : ClosedTerm :=
  T_sub_positive (T_exp2 x) (T_sub_positive (T_gap x) y).
Definition T_neg (x : ClosedTerm) : ClosedTerm := T_sub_positive (T_gap x) (T_exp2 x).
Definition T_sub (x y : ClosedTerm) : ClosedTerm := T_sub_positive (T_exp2 x) (T_add (T_gap x) y).
Definition T_mul (x y : ClosedTerm) : ClosedTerm := T_exp2 (T_add (T_log2 x) (T_log2 y)).
Definition T_div (x y : ClosedTerm) : ClosedTerm := T_exp2 (T_sub (T_log2 x) (T_log2 y)).
Definition T_recip (x : ClosedTerm) : ClosedTerm := T_exp2 (T_neg (T_log2 x)).
Definition T_scale (x y : ClosedTerm) : ClosedTerm :=
  T_sub_positive (T_mul (T_exp2 x) y) (T_mul (T_gap x) y).
Definition T_pow (x y : ClosedTerm) : ClosedTerm := T_exp2 (T_scale (T_log2 x) y).
Definition T_half : ClosedTerm := T_exp2 (T_neg One).
Definition T_sqrt (x : ClosedTerm) : ClosedTerm := T_exp2 (T_scale (T_log2 x) T_half).

(** ** Budgeted construction *)

(** [Builds max t m]: the computation [m] builds [t]; it fails only when the
    expanded [t] does not fit, and then reports a size between the budget and
    the size of [t]. *)
Definition Builds (max : Z) (t : ClosedTerm) (m : Result BuildError Bml) : Prop :=
  match m with
  | Ok c => Represents c t ∧ tree_len t ≤ max
  | Err (BitLimit required limit) => limit = max ∧ max < required ≤ tree_len t
  | Err BuildSizeOverflow => W64 ≤ tree_len t + 63
  end.

Section builds.
Context (max : Z) (Hmax : usize max).

Lemma Builds_op a b l r :
  Represents a l → Represents b r → Builds max (Op l r) (op_with_limit a b max).
Proof.
  intros Ha Hb. rewrite (op_with_limit_cases a b l r) by done. set (n := tree_len (Op l r)).
  destruct (Z.leb_spec W64 n); [cbn [Builds]; fold n; lia|].
  destruct (Z.ltb_spec max n); [cbn [Builds]; fold n; lia|].
  destruct (Z.leb_spec W64 (n + 63)); [done|]. split; [|done]. by apply op_words_Represents.
Qed.

Lemma Builds_bind u t m f :
  Builds max u m → tree_len u ≤ tree_len t →
  (∀ c, Represents c u → Builds max t (f c)) → Builds max t (m ≫= f).
Proof.
  intros Hm Hle Hf. unfold Builds in Hm.
  destruct m as [c|[req lim|]]; simpl in *; [by apply Hf, Hm|lia|lia].
Qed.
End builds.

(** Unfolds sizes of templates for [lia]. *)
Ltac template_size :=
  unfold T_pow, T_sqrt, T_half, T_recip, T_scale, T_div, T_mul, T_sub, T_add, T_neg,
    T_sub_positive, T_gap, T_log2, T_exp2; cbn [tree_len];
  repeat match goal with
  | t : ClosedTerm |- _ =>
      lazymatch goal with
      | H : 1 ≤ tree_len t |- _ => fail
      | _ => pose proof (tree_len_pos t)
      end
  end; lia.

Create HintDb builds.
#[export] Hint Resolve one_Represents : builds.
#[export] Hint Extern 1 (tree_len _ ≤ tree_len _) => template_size : builds.
#[export] Hint Extern 1 (usize _) => assumption : builds.

(** Proves [Builds] of a rule from the [Builds] lemmas of the rules it calls. *)
Ltac build_rule :=
  repeat (eapply Builds_bind; [solve [eauto with builds]|solve [eauto with builds]|intros ? ?]);
  solve [eauto with builds].

Section op_rule.
Context (rs : Rules) (Hrs : usize (rules_max_bits rs)).
Local Abbreviation max := (rules_max_bits rs).
Context (a b : Bml) (x y : ClosedTerm).
Context (Ha : Represents a x) (Hb : Represents b y).

Lemma build_op : Builds max (Op x y) (Rules.op rs a b).
Proof. by apply Builds_op. Qed.
End op_rule.
#[export] Hint Resolve build_op : builds.

Section rules.
Context (rs : Rules) (Hrs : usize (rules_max_bits rs)).
Local Abbreviation max := (rules_max_bits rs).

Lemma build_exp2 a x : Represents a x → Builds max (T_exp2 x) (Rules.exp2 rs a).
Proof. intros. unfold Rules.exp2, T_exp2. build_rule. Qed.
#[local] Hint Resolve build_exp2 : builds.

Lemma build_log2 a x : Represents a x → Builds max (T_log2 x) (Rules.log2 rs a).
Proof. intros. unfold Rules.log2, T_log2. build_rule. Qed.
#[local] Hint Resolve build_log2 : builds.

Lemma build_gap a p x : Represents a x → Represents p (T_exp2 x) →
  Builds max (T_gap x) (Rules.op rs a p).
Proof. intros. by apply Builds_op. Qed.
#[local] Hint Resolve build_gap : builds.

Lemma build_sub_positive a b x y : Represents a x → Represents b y →
  Builds max (T_sub_positive x y) (Rules.sub_positive rs a b).
Proof. intros. unfold Rules.sub_positive, T_sub_positive. build_rule. Qed.
#[local] Hint Resolve build_sub_positive : builds.

Lemma build_add a b x y : Represents a x → Represents b y →
  Builds max (T_add x y) (Rules.add rs a b).
Proof. intros. unfold Rules.add, T_add. build_rule. Qed.
#[local] Hint Resolve build_add : builds.

Lemma build_neg a x : Represents a x → Builds max (T_neg x) (Rules.neg rs a).
Proof. intros. unfold Rules.neg, T_neg. build_rule. Qed.
#[local] Hint Resolve build_neg : builds.

Lemma build_sub a b x y : Represents a x → Represents b y →
  Builds max (T_sub x y) (Rules.sub rs a b).
Proof. intros. unfold Rules.sub, T_sub. build_rule. Qed.
#[local] Hint Resolve build_sub : builds.

Lemma build_mul a b x y : Represents a x → Represents b y →
  Builds max (T_mul x y) (Rules.mul rs a b).
Proof. intros. unfold Rules.mul, T_mul. build_rule. Qed.
#[local] Hint Resolve build_mul : builds.

Lemma build_div a b x y : Represents a x → Represents b y →
  Builds max (T_div x y) (Rules.div rs a b).
Proof. intros. unfold Rules.div, T_div. build_rule. Qed.

Lemma build_recip a x : Represents a x → Builds max (T_recip x) (Rules.recip rs a).
Proof. intros. unfold Rules.recip, T_recip. build_rule. Qed.

Lemma build_scale a b x y : Represents a x → Represents b y →
  Builds max (T_scale x y) (Rules.scale rs a b).
Proof. intros. unfold Rules.scale, T_scale. build_rule. Qed.
#[local] Hint Resolve build_scale : builds.

Lemma build_pow a b x y : Represents a x → Represents b y →
  Builds max (T_pow x y) (Rules.pow rs a b).
Proof. intros. unfold Rules.pow, T_pow. build_rule. Qed.

Lemma build_sqrt a x : Represents a x → Builds max (T_sqrt x) (Rules.sqrt rs a).
Proof. intros. unfold Rules.sqrt, T_sqrt, T_half. build_rule. Qed.
End rules.

(** ** Properties *)

(** Every public rule builds exactly its template in the pure basis: on
    success the words represent the template applied to the operands' terms and
    fit the budget; it fails only with the size of an intermediate that exceeds
    the budget and is contained in the template. *)
Theorem rules_build_templates rs a b x y :
  usize (rules_max_bits rs) → Represents a x → Represents b y →
  Builds (rules_max_bits rs) (T_exp2 x) (Rules.exp2 rs a) ∧
  Builds (rules_max_bits rs) (T_log2 x) (Rules.log2 rs a) ∧
  Builds (rules_max_bits rs) (T_add x y) (Rules.add rs a b) ∧
  Builds (rules_max_bits rs) (T_sub x y) (Rules.sub rs a b) ∧
  Builds (rules_max_bits rs) (T_neg x) (Rules.neg rs a) ∧
  Builds (rules_max_bits rs) (T_mul x y) (Rules.mul rs a b) ∧
  Builds (rules_max_bits rs) (T_div x y) (Rules.div rs a b) ∧
  Builds (rules_max_bits rs) (T_recip x) (Rules.recip rs a) ∧
  Builds (rules_max_bits rs) (T_pow x y) (Rules.pow rs a b) ∧
  Builds (rules_max_bits rs) (T_sqrt x) (Rules.sqrt rs a).
Proof.
  intros Hrs Ha Hb.
  repeat match goal with |- _ ∧ _ => split end;
    [apply build_exp2|apply build_log2|apply build_add|apply build_sub|apply build_neg
    |apply build_mul|apply build_div|apply build_recip|apply build_pow|apply build_sqrt]; assumption.
Qed.

(** Within the budget, construction succeeds: the template's own size decides. *)
Lemma Builds_fits max t m :
  Builds max t m → max + 63 < W64 → tree_len t ≤ max → ∃ c, m = Ok c ∧ Represents c t.
Proof. destruct m as [c|[req lim|]]; simpl; intros; [by exists c; destruct_and?|lia|lia]. Qed.

Lemma Builds_Ok max t c : Builds max t (Ok c) → Represents c t ∧ tree_len t ≤ max.
Proof. done. Qed.

Lemma rules_build_templates_witness :
  Represents one One ∧ Represents (mkBml [4]) term_2 ∧
  Builds (rules_max_bits (mkRules 100)) (T_add term_2 One)
    (Rules.add (mkRules 100) (mkBml [4]) one) ∧
  is_ok (Rules.add (mkRules 30) (mkBml [4]) one) = false.
Proof.
  split; [apply one_Represents|].
  assert (Represents (mkBml [4]) term_2) as H4 by (split; [unfold wf; solve_words|reflexivity]).
  split; [exact H4|]. split; [|vm_compute; reflexivity].
  assert (usize 100) as Hu by (split; [discriminate|reflexivity]).
  pose proof (rules_build_templates (mkRules 100) (mkBml [4]) one term_2 One Hu H4
    one_Represents) as (_ & _ & H & _).
  exact H.
Defined.
