(* ===== verification/RealSemantics.v ===== *)
(** * The real interpretation of terms

    The mathematical reading that the documentation of number/operations.rs and
    number/certified.rs gives to a term: [One] is 1 and [Op x y] is
    [2^x - log2 y], defined when [y > 0]. The templates of Operations.v denote
    the arithmetic they are named after. *)

From S2P Require Import Prelude Words Terms Encoding Operations.
From Stdlib Require Import Reals Lra Rpower.

#[local] Open Scope R_scope.

Definition log2R (y : R) : R := ln y / ln 2.

(** [denotes t v]: the term [t] is defined over the reals and has value [v]. *)
Inductive denotes : ClosedTerm → R → Prop :=
  | denotes_One : denotes One 1
  | denotes_Op l r x y :
      denotes l x → denotes r y → 0 < y → denotes (Op l r) (Rpower 2 x - log2R y).

Create HintDb real_sem.
#[export] Hint Constructors denotes : real_sem.

(** Values are unique. *)
Lemma denotes_fun t x y : denotes t x → denotes t y → x = y.
Proof.
  intros H. revert y. induction H as [|l r u v _ IHl _ IHr _]; intros y Hy.
  - by inversion Hy.
  - inversion Hy as [|l' r' u' v' Hl Hr _]; subst. by rewrite (IHl _ Hl), (IHr _ Hr).
Qed.

(** ** Powers and logarithms in base two *)

Lemma ln_2_pos : 0 < ln 2.
Proof. rewrite <- ln_1. apply ln_increasing; lra. Qed.

Lemma Rpower2_pos x : 0 < Rpower 2 x.
Proof. apply exp_pos. Qed.
#[export] Hint Resolve Rpower2_pos : real_sem.

Lemma log2R_1 : log2R 1 = 0.
Proof. unfold log2R. rewrite ln_1. lra. Qed.

Lemma log2R_Rpower x : log2R (Rpower 2 x) = x.
Proof. unfold log2R, Rpower. rewrite ln_exp. field. pose proof ln_2_pos. lra. Qed.

Lemma Rpower_log2R y : 0 < y → Rpower 2 (log2R y) = y.
Proof.
  intros Hy. unfold log2R, Rpower.
  replace (ln y / ln 2 * ln 2) with (ln y) by (field; pose proof ln_2_pos; lra).
  by apply exp_ln.
Qed.

Lemma log2R_mult x y : 0 < x → 0 < y → log2R (x * y) = log2R x + log2R y.
Proof. intros. unfold log2R. rewrite ln_mult by done. lra. Qed.

Lemma log2R_div x y : 0 < x → 0 < y → log2R (x / y) = log2R x - log2R y.
Proof.
  intros. change (x / y) with (x * / y).
  rewrite log2R_mult by (done || by apply Rinv_0_lt_compat). unfold log2R at 2.
  rewrite ln_Rinv by done. unfold log2R. lra.
Qed.

(** [2^x > x]: from [exp u >= 1 + u] and [ln 2 > 1/2]. *)
Lemma ln_2_half : 1 / 2 < ln 2.
Proof.
  rewrite <- (ln_exp (1 / 2)). apply ln_increasing; [apply exp_pos|].
  assert (exp (1 / 2) * exp (1 / 2) = exp 1) as He by (rewrite <- exp_plus; f_equal; lra).
  pose proof exp_le_3. pose proof (exp_pos (1 / 2)). nra.
Qed.

Lemma Rpower2_gap x : x < Rpower 2 x.
Proof.
  destruct (Rle_or_lt x 0) as [Hx|Hx]; [pose proof (Rpower2_pos x); lra|].
  unfold Rpower. pose proof ln_2_half as Hl.
  (* exp u = (exp (u/2))^2 >= (1 + u/2)^2 with u = x ln 2 *)
  set (u := x * ln 2). assert (x / 2 < u) by (unfold u; nra).
  assert (1 + u / 2 < exp (u / 2)) by (apply exp_ineq1; lra).
  assert (exp u = exp (u / 2) * exp (u / 2)) as -> by (rewrite <- exp_plus; f_equal; lra).
  set (e := exp (u / 2)) in *. assert (1 + x / 4 < e) by lra.
  assert ((1 + x / 4) * (1 + x / 4) < e * e) by nra.
  pose proof (Rle_0_sqr (x / 4 - 1)) as Hs. unfold Rsqr in Hs. lra.
Qed.

Lemma gap_pos x : 0 < Rpower 2 x - x.
Proof. pose proof (Rpower2_gap x). lra. Qed.
#[export] Hint Resolve gap_pos : real_sem.

(** ** Values of the templates *)

(** Replaces the value of a [denotes] goal by an equal one. *)
Ltac denotes_as v := lazymatch goal with |- denotes ?t ?w => replace w with v; [|try lra] end.

Lemma denotes_exp2 t x : denotes t x → denotes (T_exp2 t) (Rpower 2 x).
Proof.
  intros. unfold T_exp2. denotes_as (Rpower 2 x - log2R 1); [|by rewrite log2R_1, Rminus_0_r].
  constructor; [done|constructor|lra].
Qed.

Lemma denotes_log2 t x : denotes t x → 0 < x → denotes (T_log2 t) (log2R x).
Proof.
  intros. unfold T_log2.
  denotes_as (Rpower 2 1 - log2R (Rpower 2 (Rpower 2 1 - log2R x)));
    [|rewrite log2R_Rpower; lra].
  constructor; [constructor| |apply Rpower2_pos].
  apply denotes_exp2. constructor; [constructor|done|done].
Qed.

Lemma denotes_gap t x : denotes t x → denotes (T_gap t) (Rpower 2 x - x).
Proof.
  intros. unfold T_gap. denotes_as (Rpower 2 x - log2R (Rpower 2 x)); [|by rewrite log2R_Rpower].
  constructor; [done|by apply denotes_exp2|apply Rpower2_pos].
Qed.

Lemma denotes_sub_positive s t x y :
  denotes s x → denotes t y → 0 < x → denotes (T_sub_positive s t) (x - y).
Proof.
  intros. unfold T_sub_positive.
  denotes_as (Rpower 2 (log2R x) - log2R (Rpower 2 y));
    [|rewrite log2R_Rpower, Rpower_log2R by done; lra].
  constructor; [by apply denotes_log2|by apply denotes_exp2|apply Rpower2_pos].
Qed.

#[export] Hint Resolve denotes_exp2 denotes_log2 denotes_gap denotes_sub_positive : real_sem.

Lemma denotes_add s t x y : denotes s x → denotes t y → denotes (T_add s t) (x + y).
Proof.
  intros. denotes_as (Rpower 2 x - ((Rpower 2 x - x) - y)). eauto with real_sem.
Qed.

Lemma denotes_neg t x : denotes t x → denotes (T_neg t) (- x).
Proof. intros. denotes_as ((Rpower 2 x - x) - Rpower 2 x). eauto with real_sem. Qed.
#[export] Hint Resolve denotes_add denotes_neg : real_sem.

Lemma denotes_sub s t x y : denotes s x → denotes t y → denotes (T_sub s t) (x - y).
Proof.
  intros. denotes_as (Rpower 2 x - ((Rpower 2 x - x) + y)). eauto with real_sem.
Qed.
#[export] Hint Resolve denotes_sub : real_sem.

Lemma denotes_mul s t x y :
  denotes s x → denotes t y → 0 < x → 0 < y → denotes (T_mul s t) (x * y).
Proof.
  intros. denotes_as (Rpower 2 (log2R x + log2R y)); [eauto with real_sem|].
  rewrite <- log2R_mult, Rpower_log2R by nra. done.
Qed.

Lemma denotes_div s t x y :
  denotes s x → denotes t y → 0 < x → 0 < y → denotes (T_div s t) (x / y).
Proof.
  intros. denotes_as (Rpower 2 (log2R x - log2R y)); [eauto with real_sem|].
  rewrite <- log2R_div, Rpower_log2R by (done || by apply Rdiv_lt_0_compat). done.
Qed.
#[export] Hint Resolve denotes_mul denotes_div : real_sem.

Lemma denotes_recip t x : denotes t x → 0 < x → denotes (T_recip t) (/ x).
Proof.
  intros. denotes_as (Rpower 2 (- log2R x)); [eauto with real_sem|].
  replace (- log2R x) with (log2R (1 / x)) by (rewrite log2R_div, log2R_1 by lra; lra).
  rewrite Rpower_log2R by (apply Rdiv_lt_0_compat; lra). unfold Rdiv. lra.
Qed.

(** [scale] multiplies any real by a positive one. *)
Lemma denotes_scale s t x y :
  denotes s x → denotes t y → 0 < y → denotes (T_scale s t) (x * y).
Proof.
  intros. denotes_as (Rpower 2 x * y - (Rpower 2 x - x) * y).
  apply denotes_sub_positive; [eauto with real_sem..|].
  apply Rmult_lt_0_compat; [apply Rpower2_pos|done].
Qed.
#[export] Hint Resolve denotes_scale : real_sem.

Lemma denotes_pow s t x y :
  denotes s x → denotes t y → 0 < x → 0 < y → denotes (T_pow s t) (Rpower x y).
Proof.
  intros. denotes_as (Rpower 2 (log2R x * y)); [eauto with real_sem|].
  unfold Rpower. f_equal. unfold log2R. field. pose proof ln_2_pos. lra.
Qed.

Lemma denotes_half : denotes T_half (/ 2).
Proof.
  denotes_as (Rpower 2 (- (1))); [eauto with real_sem|].
  rewrite Rpower_Ropp, Rpower_1; lra.
Qed.

Lemma denotes_sqrt t x : denotes t x → 0 < x → denotes (T_sqrt t) (sqrt x).
Proof.
  intros. denotes_as (Rpower 2 (log2R x * / 2)).
  - apply denotes_exp2, denotes_scale; [eauto with real_sem|apply denotes_half|lra].
  - rewrite <- Rpower_sqrt by done. unfold Rpower. f_equal. unfold log2R. field.
    pose proof ln_2_pos. lra.
Qed.

(** ** Values of encoded terms *)

(** [Value b v]: the encoded term is defined over the reals with value [v]. *)
Definition Value (b : Bml) (v : R) : Prop := ∃ t, Represents b t ∧ denotes t v.

Lemma Value_one : Value one 1.
Proof. exists One. split; [apply one_Represents|constructor]. Qed.

Lemma Value_fun b v w : Value b v → Value b w → v = w.
Proof.
  intros (t & Ht & Hv) (u & Hu & Hw). rewrite (Represents_fun _ _ _ Ht Hu) in Hv.
  by apply (denotes_fun u).
Qed.

(** From a built template and its denotation to the value of the result. *)
Lemma Builds_Value max t m c v : Builds max t m → m = Ok c → denotes t v → Value c v.
Proof. intros Hm -> Hv. exists t. split; [apply Hm|done]. Qed.

Lemma rules_values rs a b x y c :
  usize (rules_max_bits rs) → Value a x → Value b y →
  (Rules.exp2 rs a = Ok c → Value c (Rpower 2 x)) ∧
  (Rules.log2 rs a = Ok c → 0 < x → Value c (log2R x)) ∧
  (Rules.add rs a b = Ok c → Value c (x + y)) ∧
  (Rules.sub rs a b = Ok c → Value c (x - y)) ∧
  (Rules.neg rs a = Ok c → Value c (- x)) ∧
  (Rules.mul rs a b = Ok c → 0 < x → 0 < y → Value c (x * y)) ∧
  (Rules.div rs a b = Ok c → 0 < x → 0 < y → Value c (x / y)) ∧
  (Rules.recip rs a = Ok c → 0 < x → Value c (/ x)) ∧
  (Rules.pow rs a b = Ok c → 0 < x → 0 < y → Value c (Rpower x y)) ∧
  (Rules.sqrt rs a = Ok c → 0 < x → Value c (sqrt x)).
Proof.
  intros Hrs (s & Hs & Hx) (t & Ht & Hy).
  repeat match goal with |- _ ∧ _ => split end; intros Hc; intros.
  - eapply (Builds_Value _ _ _ _ _ (build_exp2 rs Hrs _ _ Hs) Hc), denotes_exp2; done.
  - eapply (Builds_Value _ _ _ _ _ (build_log2 rs Hrs _ _ Hs) Hc), denotes_log2; done.
  - eapply (Builds_Value _ _ _ _ _ (build_add rs Hrs _ _ _ _ Hs Ht) Hc), denotes_add; done.
  - eapply (Builds_Value _ _ _ _ _ (build_sub rs Hrs _ _ _ _ Hs Ht) Hc), denotes_sub; done.
  - eapply (Builds_Value _ _ _ _ _ (build_neg rs Hrs _ _ Hs) Hc), denotes_neg; done.
  - eapply (Builds_Value _ _ _ _ _ (build_mul rs Hrs _ _ _ _ Hs Ht) Hc), denotes_mul; done.
  - eapply (Builds_Value _ _ _ _ _ (build_div rs Hrs _ _ _ _ Hs Ht) Hc), denotes_div; done.
  - eapply (Builds_Value _ _ _ _ _ (build_recip rs Hrs _ _ Hs) Hc), denotes_recip; done.
  - eapply (Builds_Value _ _ _ _ _ (build_pow rs Hrs _ _ _ _ Hs Ht) Hc), denotes_pow; done.
  - eapply (Builds_Value _ _ _ _ _ (build_sqrt rs Hrs _ _ Hs) Hc), denotes_sqrt; done.
Qed.

(** [C35] The structural expansions are sound over the reals: for operands with
    values [x] and [y], whatever term a rule returns has exactly the value that
    the rule is documented to build, under the rule's stated domain. *)
Theorem rules_real_values rs a b x y c :
  usize (rules_max_bits rs) → Value a x → Value b y →
  (Rules.exp2 rs a = Ok c → Value c (Rpower 2 x)) ∧
  (Rules.log2 rs a = Ok c → 0 < x → Value c (log2R x)) ∧
  (Rules.add rs a b = Ok c → Value c (x + y)) ∧
  (Rules.sub rs a b = Ok c → Value c (x - y)) ∧
  (Rules.neg rs a = Ok c → Value c (- x)) ∧
  (Rules.mul rs a b = Ok c → 0 < x → 0 < y → Value c (x * y)) ∧
  (Rules.div rs a b = Ok c → 0 < x → 0 < y → Value c (x / y)) ∧
  (Rules.recip rs a = Ok c → 0 < x → Value c (/ x)) ∧
  (Rules.pow rs a b = Ok c → 0 < x → 0 < y → Value c (Rpower x y)) ∧
  (Rules.sqrt rs a = Ok c → 0 < x → Value c (sqrt x)).
Proof. apply rules_values. Qed.

Lemma rules_real_values_witness :
  ∃ c, Rules.add (mkRules 100) one one = Ok c ∧ Value c (1 + 1).
Proof.
  assert (usize (rules_max_bits (mkRules 100))) as Hu by (split; [discriminate|reflexivity]).
  destruct (Rules.add (mkRules 100) one one) as [c|e] eqn:Hc; [|vm_compute in Hc; discriminate].
  exists c. split; [reflexivity|].
  pose proof (rules_real_values (mkRules 100) one one 1 1 c Hu Value_one Value_one)
    as (_ & _ & H & _).
  exact (H Hc).
Defined.
