(* ===== verification/ExactNat.v ===== *)
(** * number/exact.rs, part 1: exact naturals on word vectors

    The private multi-word arithmetic under [ExactRational]: every routine is
    translated with its carries, borrows, shifts and budgets, and proved against
    [Z]. Canonical inputs give canonical outputs; a budgeted routine fails with
    [InputLimit] only. *)

From S2P Require Import Prelude Words.

(** [ExactInputError]; its variant [Limit] is [InputLimit] here. *)
Inductive ExactInputError : Set :=
  | NonIntegralExponent
  | DivisionByZero
  | Syntax
  | NonFinite
  | InputLimit.

#[global] Instance ExactInputError_eq_dec : EqDecision ExactInputError.
Proof. solve_decision. Defined.

Module BigNat.
(** ** Operations *)

Definition bit_len (words : list Z) : Z :=
  match last words with
  | None => 0
  | Some w => (Z.of_nat (length words) - 1) * 64 + 64 - leading_zeros w
  end.

Definition check_bits (words : list Z) (max : Z) : Result ExactInputError unit :=
  if max <? bit_len words then Err InputLimit else Ok tt.

(** The loop of [mul_add_small] over the words, with its 128-bit carry. *)
Fixpoint mul_add_loop (words : list Z) (multiplier carry : Z) : list Z * Z :=
  match words with
  | [] => ([], carry)
  | word :: words =>
      let next := word * multiplier + carry in
      let '(rest, carry) := mul_add_loop words multiplier (Z.shiftr next 64) in
      (as_u64 next :: rest, carry)
  end.

Definition mul_add_small (words : list Z) (multiplier add max : Z)
  : Result ExactInputError (list Z) :=
  let '(words, carry) := mul_add_loop words multiplier add in
  let words := if negb (carry =? 0) then words ++ [as_u64 carry] else words in
  _ ← check_bits words max; Ok words.

Definition shift_left_step (shift : Z) (result : list Z) (entry : Z * Z) : list Z :=
  let '(i, word) := entry in
  let offset := i + shift / 64 in
  let result := or_word result offset (as_u64 (Z.shiftl word (shift `mod` 64))) in
  if negb (shift `mod` 64 =? 0) && (offset + 1 <? Z.of_nat (length result))
  then or_word result (offset + 1) (Z.shiftr word (64 - shift `mod` 64))
  else result.

Definition shift_left (words : list Z) (shift max : Z) : Result ExactInputError (list Z) :=
  bits ← ok_or InputLimit (checked_add (bit_len words) shift);
  if max <? bits then Err InputLimit
  else
    let result := replicate (Z.to_nat (div_ceil64 bits)) 0 in
    Ok (normalize (foldl (shift_left_step shift) result (enumerate words))).

Definition trailing (words : list Z) : Z :=
  match position (λ w, negb (w =? 0)) words with
  | None => 0
  | Some i => Z.of_nat i * 64 + trailing_zeros (words !!! i)
  end.

(** The in-place loop of [shift_right]: [words[i + 1]] is still unmodified when
    word [i] is written. *)
Fixpoint shift_right_loop (words : list Z) (rest : Z) : list Z :=
  match words with
  | [] => []
  | word :: words =>
      Z.lor (Z.shiftr word rest)
        (as_u64 (Z.shiftl (default 0 (head words)) (64 - rest)))
        :: shift_right_loop words rest
  end.

Definition shift_right (words : list Z) (shift : Z) : list Z :=
  let words := drop (Z.to_nat (shift / 64)) words in
  let rest := shift `mod` 64 in
  normalize (if negb (rest =? 0) then shift_right_loop words rest else words).

(** [Iterator::cmp] on two iterators. *)
Fixpoint lex_compare (a b : list Z) : comparison :=
  match a, b with
  | [], [] => Eq
  | [], _ :: _ => Lt
  | _ :: _, [] => Gt
  | x :: a, y :: b => match x ?= y with Eq => lex_compare a b | c => c end
  end.

Definition compare (a b : list Z) : comparison :=
  match (length a ?= length b)%nat with
  | Eq => lex_compare (reverse a) (reverse b)
  | c => c
  end.

(** The borrow loop of [subtract]; words of [b] beyond [a] are not read. *)
Fixpoint subtract_loop (a b : list Z) (borrow : bool) : list Z :=
  match a with
  | [] => []
  | word :: a =>
      let '(x, one) := overflowing_sub word (default 0 (head b)) in
      let '(y, two) := overflowing_sub x (Z.b2z borrow) in
      y :: subtract_loop a (tail b) (one || two)
  end.

Definition subtract (a b : list Z) : list Z := normalize (subtract_loop a b false).

Fixpoint gcd_loop (steps : nat) (a b : list Z) (common max : Z)
  : Result ExactInputError (list Z) :=
  match steps with
  | O => Err InputLimit
  | S steps =>
      match compare a b with
      | Eq => shift_left a common max
      | Gt =>
          let a := subtract a b in
          gcd_loop steps (shift_right a (trailing a)) b common max
      | Lt =>
          let b := subtract b a in
          gcd_loop steps a (shift_right b (trailing b)) common max
      end
  end.

Definition gcd (a b : list Z) (steps max : Z) : Result ExactInputError (list Z) :=
  let common := Z.min (trailing a) (trailing b) in
  gcd_loop (Z.to_nat steps) (shift_right a (trailing a)) (shift_right b (trailing b))
    common max.

(** [remainder = remainder << 1 | carry], pushing a word when it overflows. *)
Fixpoint shift_in (remainder : list Z) (carry : Z) : list Z :=
  match remainder with
  | [] => if negb (carry =? 0) then [carry] else []
  | word :: remainder =>
      Z.lor (as_u64 (Z.shiftl word 1)) carry :: shift_in remainder (Z.shiftr word 63)
  end.

(** The bit of [value] that long division brings down. *)
Definition value_bit (value : list Z) (bit : Z) : Z :=
  Z.land (Z.shiftr (value !!! Z.to_nat (bit / 64)) (bit `mod` 64)) 1.

Definition divide_step (value divisor : list Z) (state : list Z * list Z) (bit : Z)
  : list Z * list Z :=
  let '(quotient, remainder) := state in
  let remainder := shift_in remainder (value_bit value bit) in
  match compare remainder divisor with
  | Lt => (quotient, remainder)
  | _ => (or_bit quotient bit, subtract remainder divisor)
  end.

Definition divide_exact (value divisor : list Z) : list Z :=
  let quotient := replicate (length value) 0 in
  let '(quotient, _) :=
    foldl (divide_step value divisor) (quotient, []) (reverse (seqZ 0 (bit_len value))) in
  normalize quotient.

Definition add_step (a b : list Z) (state : list Z * Z) (i : nat) : list Z * Z :=
  let '(result, carry) := state in
  let next := default 0 (a !! i) + default 0 (b !! i) + carry in
  (result ++ [as_u64 next], Z.shiftr next 64).

Definition add (a b : list Z) (max : Z) : Result ExactInputError (list Z) :=
  let size := Nat.max (length a) (length b) in
  _ ← ok_or InputLimit (checked_add (Z.of_nat size) 1);
  let '(result, carry) := foldl (add_step a b) ([], 0) (seq 0 size) in
  let result := if negb (carry =? 0) then result ++ [as_u64 carry] else result in
  _ ← check_bits result max; Ok result.

(** The inner loop of [multiply] at row [i]. *)
Definition multiply_step (x : Z) (i : nat) (state : list Z * Z) (entry : nat * Z)
  : list Z * Z :=
  let '(result, carry) := state in
  let '(j, y) := entry in
  let next := x * y + result !!! (i + j)%nat + carry in
  (<[(i + j)%nat := as_u64 next]> result, Z.shiftr next 64).

Definition multiply_row (b : list Z) (result : list Z) (entry : nat * Z) : list Z :=
  let '(i, x) := entry in
  let '(result, carry) := foldl (multiply_step x i) (result, 0) (imap pair b) in
  <[(i + length b)%nat := as_u64 carry]> result.

Definition multiply (a b : list Z) (max : Z) : Result ExactInputError (list Z) :=
  if bool_decide (a = []) || bool_decide (b = []) then Ok []
  else
    bound ← ok_or InputLimit (checked_add (bit_len a) (bit_len b));
    if max <? bound - 1 then Err InputLimit
    else
      size ← ok_or InputLimit (checked_add (Z.of_nat (length a)) (Z.of_nat (length b)));
      let result := replicate (Z.to_nat size) 0 in
      let result := normalize (foldl (multiply_row b) result (imap pair a)) in
      _ ← check_bits result max; Ok result.

(** ** Lengths and budgets *)

Lemma natural_bits ws : canonical ws → bit_len ws = nbits (words_val ws).
Proof.
  intros Hc. unfold bit_len. destruct (last ws) as [w|] eqn:Hl.
  - rewrite (canonical_nbits ws w) by done. lia.
  - apply last_None in Hl as ->. done.
Qed.

Lemma check_bits_Ok ws max : canonical ws → check_bits ws max = Ok tt ↔ nbits (words_val ws) ≤ max.
Proof.
  intros Hc. unfold check_bits. rewrite natural_bits by done.
  destruct (Z.ltb_spec max (nbits (words_val ws))); split; done || lia.
Qed.

Lemma check_bits_cases ws max :
  canonical ws →
  check_bits ws max = if decide (nbits (words_val ws) ≤ max) then Ok tt else Err InputLimit.
Proof.
  intros Hc. unfold check_bits. rewrite natural_bits by done.
  destruct (Z.ltb_spec max (nbits (words_val ws))); case_decide; done || lia.
Qed.

(** ** Addition and multiplication by a word *)

Lemma u64_as_u64 n : u64 (as_u64 n).
Proof. unfold u64, as_u64. apply Z.mod_pos_bound. lia. Qed.
#[local] Hint Resolve u64_as_u64 : core.

(** A carry step: the word kept and the carry moved up are the two halves. *)
Lemma carry_split n : 0 ≤ n → as_u64 n + W64 * Z.shiftr n 64 = n.
Proof.
  intros. unfold as_u64. rewrite Z.shiftr_div_pow2 by lia. change (2 ^ 64) with W64.
  rewrite (Z.div_mod n W64) at 3 by lia. lia.
Qed.

Lemma carry_bound n b : 0 ≤ n < W64 * b → 0 ≤ Z.shiftr n 64 < b.
Proof.
  intros. rewrite Z.shiftr_div_pow2 by lia. change (2 ^ 64) with W64.
  split; [apply Z.div_pos; lia|apply Z.div_lt_upper_bound; lia].
Qed.

Lemma canonical_snoc ws c : words_ok ws → u64 c → c ≠ 0 → canonical (ws ++ [c]).
Proof.
  intros. split; [apply Forall_app; split; [done|by constructor]|].
  unfold normalized. rewrite last_snoc. congruence.
Qed.

Lemma mul_add_loop_spec ws m carry :
  words_ok ws → 0 ≤ m < W64 → 0 ≤ carry < W64 →
  let '(ws', carry') := mul_add_loop ws m carry in
  words_ok ws' ∧ length ws' = length ws ∧ 0 ≤ carry' < W64 ∧
  words_val ws' + 2 ^ (64 * Z.of_nat (length ws)) * carry' = words_val ws * m + carry.
Proof.
  intros Hok Hm. revert carry. induction Hok as [|w ws Hw Hok IH]; intros carry Hc.
  { cbn [mul_add_loop]. split_and!; [by constructor|done|lia|lia|cbn; lia]. }
  cbn [mul_add_loop]. unfold u64 in Hw.
  assert (0 ≤ w * m + carry < W64 * W64) as Hn by nia.
  specialize (IH (Z.shiftr (w * m + carry) 64)
                 ltac:(apply carry_bound; exact Hn)).
  destruct (mul_add_loop ws m _) as [ws' c'] eqn:E. destruct IH as (Hok' & Hl & Hc' & IH).
  split_and!; [by constructor|simpl; lia|lia|lia|].
  cbn [words_val length]. rewrite Nat2Z.inj_succ, Z.mul_succ_r, Z.pow_add_r by lia.
  change (2 ^ 64) with W64. pose proof (carry_split (w * m + carry) ltac:(lia)). nia.
Qed.

(** The high word of a product by a positive word never vanishes. *)
Lemma mul_add_small_spec ws m add max :
  canonical ws → 0 < m < W64 → 0 ≤ add < W64 →
  let v := words_val ws * m + add in
  if decide (nbits v ≤ max)
  then ∃ ws', mul_add_small ws m add max = Ok ws' ∧ canonical ws' ∧ words_val ws' = v
  else mul_add_small ws m add max = Err InputLimit.
Proof.
  intros Hc Hm Ha v. unfold mul_add_small.
  pose proof (mul_add_loop_spec ws m add (proj1 Hc) ltac:(lia) Ha) as H.
  destruct (mul_add_loop ws m add) as [ws' c'] eqn:E. destruct H as (Hok & Hl & Hc' & Hv).
  set (r := if negb (c' =? 0) then _ else _).
  assert (canonical r ∧ words_val r = v) as [Hr Hrv].
  { subst r v. destruct (Z.eqb_spec c' 0) as [->|Hne]; simpl.
    - split; [split; [done|]|lia]. rewrite Z.mul_0_r, Z.add_0_r in Hv.
      apply tight_normalized; [done|]. rewrite Hl, Hv.
      pose proof (canonical_tight ws Hc). pose proof (words_val_nonneg ws (proj1 Hc)).
      assert (nbits (words_val ws) ≤ nbits (words_val ws * m + add)) by (apply nbits_mono; nia).
      lia.
    - assert (u64 c') as Hu by done. unfold as_u64. rewrite Z.mod_small by done.
      split; [by apply canonical_snoc|].
      rewrite words_val_app, Hl. simpl. lia. }
  rewrite check_bits_cases, Hrv by done. case_decide; [|done]. by exists r.
Qed.

(** ** Shifts *)

Lemma as_u64_testbit n i :
  0 ≤ i → Z.testbit (as_u64 n) i = bool_decide (i < 64) && Z.testbit n i.
Proof.
  intros. unfold as_u64. change W64 with (2 ^ 64). case_bool_decide; simpl.
  - by apply Z.mod_pow2_bits_low.
  - apply Z.mod_pow2_bits_high. lia.
Qed.

Lemma u64_shiftr w k : u64 w → 0 ≤ k → u64 (Z.shiftr w k).
Proof.
  intros [H1 H2] Hk. rewrite Z.shiftr_div_pow2 by done.
  split; [apply Z.div_pos; lia|]. apply Z.div_lt_upper_bound; [lia|]. 
  pose proof (Z.pow_pos_nonneg 2 k). nia.
Qed.
#[local] Hint Resolve u64_shiftr : core.

Lemma shift_left_step_ok shift result e :
  words_ok result → u64 e.2 → 0 ≤ shift →
  words_ok (shift_left_step shift result e) ∧
  length (shift_left_step shift result e) = length result.
Proof.
  destruct e as [i w]. simpl. intros Hok Hw Hs. pose proof (Z.mod_pos_bound shift 64).
  case_match; rewrite ?length_or_word; split; auto using u64_shiftr with lia.
Qed.

(** The two halves of a word shifted left by less than its width. *)
Lemma shifted_halves w s :
  u64 w → 0 ≤ s < 64 →
  as_u64 (Z.shiftl w s) = (w `mod` 2 ^ (64 - s)) * 2 ^ s ∧
  Z.shiftr w (64 - s) = w / 2 ^ (64 - s) ∧
  w * 2 ^ s = as_u64 (Z.shiftl w s) + W64 * Z.shiftr w (64 - s).
Proof.
  intros [H1 H2] Hs. rewrite Z.shiftr_div_pow2, Z.shiftl_mul_pow2 by lia.
  assert (W64 = 2 ^ (64 - s) * 2 ^ s) as HW by (rewrite <- Z.pow_add_r by lia; by replace (64 - s + s) with 64 by lia).
  pose proof (Z.div_mod w (2 ^ (64 - s)) ltac:(pose proof (Z.pow_pos_nonneg 2 (64 - s)); lia)).
  assert (as_u64 (w * 2 ^ s) = (w `mod` 2 ^ (64 - s)) * 2 ^ s) as Hl.
  { unfold as_u64. rewrite HW. by rewrite Z.mul_mod_distr_r by lia. }
  rewrite Hl, HW. split_and!; [done|done|nia].
Qed.

(** Word [k] lands at bit [64 k + shift]; the part pushed beyond the last word
    of the result is zero when the result has room for the value. *)
Lemma shift_left_step_val shift result k w :
  words_ok result → u64 w → 0 ≤ shift →
  let n := 64 * Z.of_nat k + shift in
  n < 64 * Z.of_nat (length result) →
  words_val result < 2 ^ n →
  w * 2 ^ n < 2 ^ (64 * Z.of_nat (length result)) →
  words_val (shift_left_step shift result (Z.of_nat k, w)) = words_val result + w * 2 ^ n.
Proof.
  intros Hok Hw Hs n Hroom Hlow Hfit. unfold shift_left_step.
  pose proof (Z.mod_pos_bound shift 64 ltac:(lia)) as Hm.
  pose proof (Z.div_mod shift 64 ltac:(lia)) as Hdm.
  set (q := shift / 64) in *. set (s := shift `mod` 64) in *.
  set (off := Z.of_nat k + q). assert (n = 64 * off + s) as Hn by lia.
  assert (0 ≤ off < Z.of_nat (length result)) as Hoff by (assert (0 ≤ q) by dlia; lia).
  pose proof (shifted_halves w s Hw Hm) as (Hl & Hh & Hsplit).
  set (lo := as_u64 (Z.shiftl w s)) in *. set (hi := Z.shiftr w (64 - s)) in *.
  pose proof (words_val_nonneg result Hok) as H0.
  assert (2 ^ n = 2 ^ s * 2 ^ (64 * off)) as Hpn by (rewrite Hn, Z.pow_add_r by lia; lia).
  pose proof (Z.pow_pos_nonneg 2 (64 * off) ltac:(lia) ltac:(lia)).
  pose proof (Z.pow_pos_nonneg 2 s ltac:(lia) ltac:(lia)).
  pose proof (Z.mod_pos_bound w (2 ^ (64 - s)) ltac:(apply Z.pow_pos_nonneg; lia)).
  assert (W64 = 2 ^ (64 - s) * 2 ^ s) as HW
    by (rewrite <- Z.pow_add_r by lia; by replace (64 - s + s) with 64 by lia).
  assert (words_val (or_word result off lo) = words_val result + lo * 2 ^ (64 * off)) as E1.
  { apply or_word_add; [done|subst lo; auto|done|]. rewrite Hl, <- Z.mul_assoc, <- Hpn.
    apply land_low_high; lia. }
  assert (w * 2 ^ n = lo * 2 ^ (64 * off) + hi * (W64 * 2 ^ (64 * off))) as Hwn
    by (rewrite Hpn, Z.mul_assoc, Hsplit; lia).
  rewrite length_or_word.
  destruct (negb (s =? 0) && (off + 1 <? Z.of_nat (length result))) eqn:Hsp.
  - apply andb_true_iff in Hsp as [_ Hlt%Z.ltb_lt].
    assert (2 ^ (64 * (off + 1)) = W64 * 2 ^ (64 * off)) as Hp1
      by (replace (64 * (off + 1)) with (64 + 64 * off) by lia; by rewrite Z.pow_add_r by lia).
    rewrite or_word_add; [rewrite E1, Hp1; lia|subst lo; auto|subst hi; auto with lia| |].
    { rewrite length_or_word. lia. }
    rewrite E1. apply land_low_high; [lia|]. rewrite Hp1. rewrite Hl. nia.
  - rewrite E1. enough (hi = 0) by nia. rewrite Hh.
    apply andb_false_iff in Hsp as [Hs0%negb_false_iff%Z.eqb_eq|Hge%Z.ltb_ge].
    + rewrite Hs0. apply Z.div_small. exact Hw.
    + apply Z.div_small. destruct Hw. split; [done|].
      replace (Z.of_nat (length result)) with (off + 1) in Hfit by lia.
      replace (64 * (off + 1)) with (64 + 64 * off) in Hfit by lia.
      rewrite Z.pow_add_r, Hpn in Hfit by lia. change (2 ^ 64) with W64 in Hfit. nia.
Qed.

Lemma enumerate_snoc {A} (l : list A) x :
  enumerate (l ++ [x]) = enumerate l ++ [(Z.of_nat (length l), x)].
Proof. unfold enumerate. rewrite imap_app. simpl. by rewrite Nat.add_0_r. Qed.

Lemma words_val_app_le a b : words_ok b → words_val a ≤ words_val (a ++ b).
Proof.
  intros Hb. rewrite words_val_app. pose proof (words_val_nonneg b Hb).
  pose proof (Z.pow_pos_nonneg 2 (64 * Z.of_nat (length a))). nia.
Qed.

Lemma shift_left_loop shift l n :
  words_ok l → 0 ≤ shift →
  words_val l * 2 ^ shift < 2 ^ (64 * Z.of_nat n) →
  (l ≠ [] → 64 * (Z.of_nat (length l) - 1) + shift < 64 * Z.of_nat n) →
  let r := foldl (shift_left_step shift) (replicate n 0) (enumerate l) in
  words_ok r ∧ length r = n ∧ words_val r = words_val l * 2 ^ shift.
Proof.
  intros Hok Hs. induction l as [|w l IH] using rev_ind; intros Hfit Hroom; cbv zeta.
  { split_and!; [simpl; auto|apply length_replicate|apply words_val_replicate]. }
  apply Forall_app in Hok as [Hok [Hw _]%Forall_cons].
  pose proof (Z.pow_pos_nonneg 2 shift ltac:(lia) ltac:(lia)) as Hps.
  specialize (Hroom ltac:(by destruct l)). rewrite length_app in Hroom. simpl in Hroom.
  pose proof (words_val_app_le l [w] ltac:(by constructor)).
  destruct IH as (Hrok & Hlen & Hval); [done|nia|intros; lia|].
  rewrite enumerate_snoc, foldl_app. cbn [foldl].
  set (r := foldl _ _ (enumerate l)) in *.
  pose proof (shift_left_step_ok shift r (Z.of_nat (length l), w) Hrok Hw Hs) as [Hok' Hl'].
  pose proof (words_val_bounds l Hok).
  rewrite words_val_app in *. cbn [words_val] in *. rewrite Z.mul_0_r, Z.add_0_r in *.
  pose proof (words_val_nonneg l Hok). destruct (Hw) as [Hw0 _].
  split_and!; [done|lia|].
  rewrite shift_left_step_val; [|done|done|done|lia| |].
  - rewrite Hval, Z.pow_add_r by lia. lia.
  - rewrite Hval, Z.pow_add_r by lia. nia.
  - rewrite Hlen, Z.pow_add_r by lia. nia.
Qed.

Lemma shift_left_spec ws shift max :
  canonical ws → 0 ≤ shift → max < W64 →
  if decide (nbits (words_val ws) + shift ≤ max)
  then ∃ r, shift_left ws shift max = Ok r ∧ canonical r ∧ words_val r = words_val ws * 2 ^ shift
  else shift_left ws shift max = Err InputLimit.
Proof.
  intros Hc Hs Hmax. unfold shift_left, checked_add. rewrite natural_bits by done.
  set (n := nbits (words_val ws)). case_decide as Hd; cycle 1.
  { destruct (n + shift <? W64); [|done]. simpl.
    by rewrite (proj2 (Z.ltb_lt _ _)) by lia. }
  rewrite (proj2 (Z.ltb_lt _ _)) by lia. simpl.
  rewrite (proj2 (Z.ltb_ge _ _)) by lia.
  pose proof (nbits_nonneg (words_val ws)) as Hn0. fold n in Hn0.
  pose proof (words_val_nonneg ws (proj1 Hc)) as Hv0.
  pose proof (canonical_tight ws Hc) as Ht. fold n in Ht.
  set (m := Z.to_nat (div_ceil64 (n + shift))).
  assert (n + shift ≤ 64 * Z.of_nat m) as Hm by (subst m; unfold div_ceil64; dlia).
  pose proof (shift_left_loop shift ws m (proj1 Hc) Hs) as (Hok & Hl & Hval).
  { apply Z.lt_le_trans with (2 ^ (n + shift)); [|by apply Z.pow_le_mono_r; lia].
    rewrite Z.pow_add_r by lia. pose proof (nbits_spec (words_val ws) Hv0). fold n in H.
    pose proof (Z.pow_pos_nonneg 2 shift). nia. }
  { intros Hne. pose proof (canonical_val_pos ws Hc Hne) as Hp.
    pose proof (nbits_pos _ Hp). lia. }
  eexists. split; [done|]. split; [by apply normalize_canonical|]. by rewrite normalize_val.
Qed.

(** ** Right shifts and trailing zeros *)

Lemma shift_right_loop_spec ws rest :
  words_ok ws → 0 < rest < 64 →
  words_ok (shift_right_loop ws rest) ∧
  words_val (shift_right_loop ws rest) = words_val ws / 2 ^ rest.
Proof.
  intros Hok Hr. induction Hok as [|w ws Hw Hok [IHok IH]]; [split; [constructor|done]|].
  cbn [shift_right_loop words_val].
  set (h := default 0 (head ws)).
  assert (u64 h ∧ words_val ws = h + W64 * (words_val ws / W64)) as [Hh Hv].
  { subst h. destruct ws as [|h ws]; simpl; [done|].
    apply Forall_cons in Hok as [Hh Hok]. split; [done|].
    rewrite (Z.mul_comm W64), Z.div_add by lia. rewrite (Z.div_small h) by done. lia. }
  pose proof (shifted_halves h (64 - rest) Hh ltac:(lia)) as (Hl & _ & _).
  replace (64 - (64 - rest)) with rest in Hl by lia.
  rewrite Z.shiftr_div_pow2, Hl by lia.
  pose proof (Z.pow_pos_nonneg 2 rest ltac:(lia) ltac:(lia)).
  pose proof (Z.pow_pos_nonneg 2 (64 - rest) ltac:(lia) ltac:(lia)).
  assert (W64 = 2 ^ (64 - rest) * 2 ^ rest) as HW
    by (rewrite <- Z.pow_add_r by lia; by replace (64 - rest + rest) with 64 by lia).
  assert (0 ≤ w / 2 ^ rest < 2 ^ (64 - rest)) as Hwr.
  { destruct Hw. split; [apply Z.div_pos; lia|apply Z.div_lt_upper_bound; lia]. }
  rewrite <- Z.add_nocarry_lor by (apply land_low_high; lia).
  pose proof (Z.mod_pos_bound h (2 ^ rest) ltac:(lia)).
  split; [constructor; [unfold u64; nia|done]|]. rewrite IH.
  set (V := words_val ws) in *.
  assert (h `mod` 2 ^ rest = V `mod` 2 ^ rest) as ->.
  { rewrite Hv, HW. replace (h + 2 ^ (64 - rest) * 2 ^ rest * (V / (2 ^ (64 - rest) * 2 ^ rest)))
      with (h + (2 ^ (64 - rest) * (V / (2 ^ (64 - rest) * 2 ^ rest))) * 2 ^ rest) by lia.
    by rewrite Z.mod_add by lia. }
  replace (w + W64 * V) with (w + (2 ^ (64 - rest) * V) * 2 ^ rest) by (rewrite HW; lia).
  rewrite Z.div_add by lia. pose proof (Z.div_mod V (2 ^ rest) ltac:(lia)). rewrite HW. nia.
Qed.

Lemma words_val_drop n ws :
  words_ok ws → words_val (drop n ws) = words_val ws / 2 ^ (64 * Z.of_nat n).
Proof.
  intros Hok. destruct (decide (n ≤ length ws)%nat) as [Hn|Hn].
  - rewrite <- (take_drop n ws) at 2. rewrite words_val_app, length_take, Nat.min_l by done.
    pose proof (words_val_bounds (take n ws) ltac:(by apply Forall_take)) as Hb.
    rewrite length_take, Nat.min_l in Hb by done.
    rewrite (Z.mul_comm (2 ^ _)), Z.div_add by lia. by rewrite Z.div_small.
  - rewrite drop_ge by lia. symmetry. apply Z.div_small.
    pose proof (words_val_bounds ws Hok) as [? Hb]. split; [done|].
    apply Z.lt_le_trans with (1 := Hb). apply Z.pow_le_mono_r; lia.
Qed.

Lemma shift_right_spec ws shift :
  words_ok ws → 0 ≤ shift →
  canonical (shift_right ws shift) ∧ words_val (shift_right ws shift) = words_val ws / 2 ^ shift.
Proof.
  intros Hok Hs. unfold shift_right. rewrite normalize_val.
  pose proof (Z.mod_pos_bound shift 64 ltac:(lia)). pose proof (Z.div_mod shift 64 ltac:(lia)).
  assert (0 ≤ shift / 64) by dlia.
  assert (words_ok (drop (Z.to_nat (shift / 64)) ws)) as Hd by (by apply Forall_drop).
  assert (words_val ws / 2 ^ shift =
          words_val (drop (Z.to_nat (shift / 64)) ws) / 2 ^ (shift `mod` 64)) as ->.
  { rewrite words_val_drop, Z2Nat.id by done. rewrite Z.div_div by lia.
    rewrite <- Z.pow_add_r by lia. do 2 f_equal. lia. }
  destruct (Z.eqb_spec (shift `mod` 64) 0) as [->|Hne]; simpl.
  - split; [by apply normalize_canonical|]. by rewrite Z.div_1_r.
  - destruct (shift_right_loop_spec _ (shift `mod` 64) Hd) as [Hok' Hv]; [lia|].
    split; [by apply normalize_canonical|done].
Qed.

Lemma trailing_spec ws :
  words_ok ws → 0 < words_val ws →
  0 ≤ trailing ws ∧ ∃ k, 0 ≤ k ∧ words_val ws = (2 * k + 1) * 2 ^ trailing ws.
Proof.
  intros Hok. induction Hok as [|w ws Hw Hok IH]; intros Hv; [simpl in Hv; lia|].
  unfold trailing. cbn [position words_val] in *. destruct (Z.eqb_spec w 0) as [->|Hne]; simpl negb.
  - destruct IH as (Ht & k & Hk & IH); [lia|]. unfold trailing in Ht, IH.
    destruct (position _ ws) as [i|] eqn:Hp; simpl.
    + replace (Z.of_nat (S i) * 64 + _) with (64 + (Z.of_nat i * 64 + trailing_zeros (ws !!! i)))
        by (simpl; lia).
      split; [lia|]. exists k. split; [done|]. rewrite Z.pow_add_r by lia.
      change (2 ^ 64) with W64. lia.
    + exfalso. assert (words_val ws = 0) as H0; [|lia]. clear -Hp.
      induction ws as [|x ws IH]; [done|]. simpl in *.
      destruct (Z.eqb_spec x 0) as [->|]; simpl in *; [|done].
      destruct (position _ ws); [done|]. rewrite IH by done. lia.
  - cbv iota beta. change ((w :: ws) !!! 0%nat) with w. destruct Hw as [Hw1 Hw2].
    destruct (trailing_zeros_spec w ltac:(lia)) as (Ht & k & Hk & Hwk).
    set (t := trailing_zeros w) in *.
    assert (t < 64) as Ht64.
    { apply (Z.pow_lt_mono_r_iff 2); [lia|lia|]. pose proof (Z.pow_pos_nonneg 2 t). 
      change (2 ^ 64) with W64. nia. }
    rewrite Z.mul_0_l, Z.add_0_l. split; [done|].
    exists (k + 2 ^ (63 - t) * words_val ws).
    pose proof (words_val_nonneg ws Hok). pose proof (Z.pow_pos_nonneg 2 (63 - t)).
    split; [nia|]. rewrite Hwk at 1.
    assert (W64 = 2 * (2 ^ (63 - t) * 2 ^ t)) as HW; [|rewrite HW; lia].
    rewrite <- Z.pow_add_r by lia. by replace (63 - t + t) with 63 by lia.
Qed.

(** ** Comparison and subtraction *)

Lemma lex_compare_snoc a b x y :
  lex_compare (reverse (a ++ [x])) (reverse (b ++ [y])) =
  match x ?= y with Eq => lex_compare (reverse a) (reverse b) | c => c end.
Proof. by rewrite !reverse_snoc. Qed.

Lemma lex_compare_val a b :
  words_ok a → words_ok b → length a = length b →
  lex_compare (reverse a) (reverse b) = (words_val a ?= words_val b).
Proof.
  revert b. induction a as [|x a IH] using rev_ind; intros b Ha Hb Hl.
  { by destruct b. }
  destruct b as [|y b _] using rev_ind; [rewrite length_app in Hl; simpl in Hl; lia|].
  rewrite !length_app in Hl. simpl in Hl. assert (length a = length b) as Hl' by lia.
  apply Forall_app in Ha as [Ha [Hx _]%Forall_cons], Hb as [Hb [Hy _]%Forall_cons].
  rewrite lex_compare_snoc, !words_val_app, Hl'. cbn [words_val]. rewrite IH by done.
  pose proof (words_val_bounds a Ha) as Hba. pose proof (words_val_bounds b Hb) as Hbb.
  rewrite Hl' in Hba. set (P := 2 ^ (64 * Z.of_nat (length b))) in *.
  destruct (Z.compare_spec x y) as [->|Hlt|Hgt]; symmetry.
  - destruct (Z.compare_spec (words_val a) (words_val b)).
    + apply Z.compare_eq_iff. lia.
    + apply Z.compare_lt_iff. lia.
    + apply Z.compare_gt_iff. lia.
  - apply Z.compare_lt_iff. nia.
  - apply Z.compare_gt_iff. nia.
Qed.

Lemma shorter_smaller a b :
  words_ok a → canonical b → (length a < length b)%nat → words_val a < words_val b.
Proof.
  intros Ha Hb Hl. pose proof (words_val_bounds a Ha) as [Ha0 Hab].
  pose proof (canonical_tight b Hb).
  assert (b ≠ []) as Hne by (intros ->; simpl in Hl; lia).
  pose proof (nbits_lower _ (canonical_val_pos b Hb Hne)).
  apply Z.lt_le_trans with (1 := Hab).
  etrans; [|exact H0]. apply Z.pow_le_mono_r; lia.
Qed.

Lemma compare_spec a b :
  canonical a → canonical b → compare a b = (words_val a ?= words_val b).
Proof.
  intros Ha Hb. unfold compare. destruct (Nat.compare_spec (length a) (length b)).
  - apply lex_compare_val; [apply Ha|apply Hb|done].
  - symmetry. apply Z.compare_lt_iff. apply shorter_smaller; [apply Ha|done|done].
  - symmetry. apply Z.compare_gt_iff. apply shorter_smaller; [apply Hb|done|done].
Qed.

Lemma subtract_loop_spec a b borrow :
  words_ok a → words_ok b → words_val b + Z.b2z borrow ≤ words_val a →
  words_ok (subtract_loop a b borrow) ∧ length (subtract_loop a b borrow) = length a ∧
  words_val (subtract_loop a b borrow) = words_val a - words_val b - Z.b2z borrow.
Proof.
  intros Ha. revert b borrow. induction Ha as [|w a Hw Ha IH]; intros b borrow Hb Hle.
  { pose proof (words_val_nonneg b Hb). destruct borrow; simpl in *; [lia|].
    split_and!; [constructor|done|lia]. }
  cbn [subtract_loop words_val overflowing_sub] in *.
  set (y := default 0 (head b)).
  assert (u64 y ∧ words_ok (tail b) ∧ words_val b = y + W64 * words_val (tail b)) as (Hy & Htl & Hbv).
  { subst y. destruct b as [|y b]; simpl; [split_and!; [done|constructor|lia]|].
    apply Forall_cons in Hb as [??]. done. }
  rewrite Hbv in *.
  pose proof (words_val_nonneg a Ha). pose proof (words_val_nonneg _ Htl).
  set (x := (w - y) `mod` W64). set (bo := (w <? y) || (x <? Z.b2z borrow)).
  assert ((x - Z.b2z borrow) `mod` W64 = w - y - Z.b2z borrow + W64 * Z.b2z bo ∧
          u64 ((x - Z.b2z borrow) `mod` W64)) as [Hword Hu].
  { split; [|unfold u64; apply Z.mod_pos_bound; lia]. subst bo x. unfold u64 in *.
    destruct borrow; simpl Z.b2z in *; destruct (Z.ltb_spec w y); simpl;
      try (destruct (Z.ltb_spec ((w - y) `mod` W64) 1)); try (destruct (Z.ltb_spec ((w - y) `mod` W64) 0));
      simpl; dlia. }
  destruct (IH (tail b) bo) as (IHok & IHl & IHv); [done| |].
  { destruct bo; simpl in *; unfold u64 in *; lia. }
  split_and!; [by constructor|simpl; lia|]. rewrite IHv, Hword. lia.
Qed.

Lemma subtract_spec a b :
  words_ok a → words_ok b → words_val b ≤ words_val a →
  canonical (subtract a b) ∧ words_val (subtract a b) = words_val a - words_val b.
Proof.
  intros Ha Hb Hle. unfold subtract. rewrite normalize_val.
  destruct (subtract_loop_spec a b false Ha Hb) as (Hok & _ & Hv); [simpl; lia|].
  split; [by apply normalize_canonical|]. rewrite Hv. simpl. lia.
Qed.

(** ** Greatest common divisor *)

(** Removing the trailing zeros of a positive number leaves its odd part. *)
Lemma odd_part_spec ws :
  canonical ws → 0 < words_val ws →
  let r := shift_right ws (trailing ws) in
  canonical r ∧ 0 < words_val r ∧ Z.odd (words_val r) = true ∧ 0 ≤ trailing ws ∧
  words_val ws = words_val r * 2 ^ trailing ws.
Proof.
  intros Hc Hv r. destruct (trailing_spec ws (proj1 Hc) Hv) as (Ht & k & Hk & Hval).
  destruct (shift_right_spec ws (trailing ws) (proj1 Hc) Ht) as [Hrc Hrv]. fold r in Hrc, Hrv.
  assert (words_val r = 2 * k + 1) as Hr.
  { rewrite Hrv, Hval. apply Z.div_mul. pose proof (Z.pow_pos_nonneg 2 (trailing ws)). lia. }
  split_and!; [done|lia| |done|by rewrite Hr].
  rewrite Hr, Z.add_1_r, Z.odd_succ, Z.even_mul. done.
Qed.

(** One subtractive step on odd numbers keeps the divisor and loses a bit. *)
Lemma gcd_step_spec a b :
  canonical a → canonical b →
  Z.odd (words_val a) = true → Z.odd (words_val b) = true →
  0 < words_val b < words_val a →
  let d := subtract a b in
  let r := shift_right d (trailing d) in
  canonical r ∧ 0 < words_val r ∧ Z.odd (words_val r) = true ∧
  Z.gcd (words_val r) (words_val b) = Z.gcd (words_val a) (words_val b) ∧
  nbits (words_val r) < nbits (words_val a).
Proof.
  intros Ha Hb Hoa Hob Hlt d r.
  destruct (subtract_spec a b (proj1 Ha) (proj1 Hb)) as [Hd Hdv]; [lia|]. fold d in Hd, Hdv.
  destruct (odd_part_spec d Hd) as (Hr & Hr0 & Hodd & Ht & Hdr); [lia|].
  fold r in Hr, Hr0, Hodd, Hdr.
  assert (1 ≤ trailing d) as Ht1.
  { destruct (decide (trailing d = 0)) as [H0|]; [|lia].
    rewrite H0, Z.mul_1_r in Hdr. rewrite <- Hdr, Hdv, Z.odd_sub, Hoa, Hob in Hodd. done. }
  split_and!; [done|done|done| |].
  - rewrite <- (Z_gcd_odd (trailing d) (words_val r)), <- Hdr, Hdv by done.
    by rewrite (Z.gcd_comm (_ - _)), Z.gcd_sub_diag_r, Z.gcd_comm.
  - assert (2 * words_val r ≤ words_val a).
    { assert (2 ^ 1 ≤ 2 ^ trailing d) by (apply Z.pow_le_mono_r; lia). nia. }
    assert (nbits (words_val r * 2 ^ 1) ≤ nbits (words_val a)) by (apply nbits_mono; lia).
    rewrite nbits_shiftl in * by lia. lia.
Qed.

Lemma gcd_loop_sound steps a b common max r :
  canonical a → canonical b → 0 ≤ common → max < W64 →
  0 < words_val a → 0 < words_val b →
  Z.odd (words_val a) = true → Z.odd (words_val b) = true →
  gcd_loop steps a b common max = Ok r →
  canonical r ∧ words_val r = Z.gcd (words_val a) (words_val b) * 2 ^ common.
Proof.
  intros Ha Hb Hc Hm. revert a b Ha Hb.
  induction steps as [|steps IH]; intros a b Ha Hb Ha0 Hb0 Hoa Hob H; [done|].
  cbn [gcd_loop] in H. rewrite compare_spec in H by done.
  destruct (Z.compare_spec (words_val a) (words_val b)) as [E|Hlt|Hgt].
  - pose proof (shift_left_spec a common max Ha Hc Hm) as Hs. case_decide; [|congruence].
    destruct Hs as (r' & Hr' & Hcr & Hv). rewrite Hr' in H; injection H as <-. split; [done|].
    rewrite Hv, <- E, Z.gcd_diag, Z.abs_eq by lia. done.
  - destruct (gcd_step_spec b a Hb Ha Hob Hoa ltac:(lia)) as (Hr & Hr0 & Hor & Hg & _).
    apply IH in H as [? Hv]; [|done..]. split; [done|].
    rewrite Hv, Z.gcd_comm, Hg. by rewrite Z.gcd_comm.
  - destruct (gcd_step_spec a b Ha Hb Hoa Hob ltac:(lia)) as (Hr & Hr0 & Hor & Hg & _).
    apply IH in H as [? Hv]; [|done..]. split; [done|]. by rewrite Hv, Hg.
Qed.

Lemma gcd_loop_total steps a b common max :
  canonical a → canonical b → 0 ≤ common → max < W64 →
  0 < words_val a → 0 < words_val b →
  Z.odd (words_val a) = true → Z.odd (words_val b) = true →
  nbits (words_val a) + nbits (words_val b) ≤ Z.of_nat steps + 1 →
  Z.min (nbits (words_val a)) (nbits (words_val b)) + common ≤ max →
  is_ok (gcd_loop steps a b common max) = true.
Proof.
  intros Ha Hb Hc Hm. revert a b Ha Hb.
  induction steps as [|steps IH]; intros a b Ha Hb Ha0 Hb0 Hoa Hob Hs Hmax.
  { pose proof (nbits_pos _ Ha0). pose proof (nbits_pos _ Hb0). lia. }
  cbn [gcd_loop]. rewrite compare_spec by done.
  destruct (Z.compare_spec (words_val a) (words_val b)) as [E|Hlt|Hgt].
  - pose proof (shift_left_spec a common max Ha Hc Hm) as H. rewrite decide_True in H by (rewrite E in *; lia).
    by destruct H as (? & -> & _).
  - destruct (gcd_step_spec b a Hb Ha Hob Hoa ltac:(lia)) as (Hr & Hr0 & Hor & _ & Hn).
    pose proof (nbits_mono (words_val a) (words_val b)). apply IH; [done..| |]; lia.
  - destruct (gcd_step_spec a b Ha Hb Hoa Hob ltac:(lia)) as (Hr & Hr0 & Hor & _ & Hn).
    pose proof (nbits_mono (words_val b) (words_val a)). apply IH; [done..| |]; lia.
Qed.

(** [gcd] computes the greatest common divisor, and its budgets suffice when
    [steps] covers the bits of both numbers. *)
Lemma gcd_sound a b steps max r :
  canonical a → canonical b → 0 < words_val a → 0 < words_val b → max < W64 →
  gcd a b steps max = Ok r →
  canonical r ∧ words_val r = Z.gcd (words_val a) (words_val b).
Proof.
  intros Ha Hb Ha0 Hb0 Hm H. unfold gcd in H.
  destruct (odd_part_spec a Ha Ha0) as (Hra & Hra0 & Hoa & Hta & Hva).
  destruct (odd_part_spec b Hb Hb0) as (Hrb & Hrb0 & Hob & Htb & Hvb).
  apply gcd_loop_sound in H as [? Hv]; [|done..|lia|done|done|done|done|done]. split; [done|].
  rewrite Hv, Hva at 1. rewrite Hvb at 1.
  set (x := words_val (shift_right a _)) in *. set (y := words_val (shift_right b _)) in *.
  clear Hv Hva Hvb. revert Hta Htb. generalize (trailing a) (trailing b). intros i j Hi Hj.
  destruct (Z.le_ge_cases i j) as [Hij|Hij].
  - rewrite Z.min_l by done. replace j with ((j - i) + i) by lia.
    rewrite Z.pow_add_r, Z.mul_assoc, Z.gcd_mul_mono_r_nonneg by lia.
    rewrite !(Z.gcd_comm x), Z_gcd_odd; [done|lia|done].
  - rewrite Z.min_r by done. replace i with ((i - j) + j) by lia.
    rewrite Z.pow_add_r, Z.mul_assoc, Z.gcd_mul_mono_r_nonneg by lia.
    rewrite Z_gcd_odd; [done|lia|done].
Qed.

Lemma gcd_total a b steps max :
  canonical a → canonical b → 0 < words_val a → 0 < words_val b → max < W64 →
  nbits (words_val a) + nbits (words_val b) ≤ steps →
  Z.min (nbits (words_val a)) (nbits (words_val b)) ≤ max →
  ∃ r, gcd a b steps max = Ok r.
Proof.
  intros Ha Hb Ha0 Hb0 Hm Hs Hmax. unfold gcd.
  destruct (odd_part_spec a Ha Ha0) as (Hra & Hra0 & Hoa & Hta & Hva).
  destruct (odd_part_spec b Hb Hb0) as (Hrb & Hrb0 & Hob & Htb & Hvb).
  rewrite Hva, Hvb in Hs, Hmax. rewrite !nbits_shiftl in * by lia.
  pose proof (gcd_loop_total (Z.to_nat steps) _ _ (Z.min (trailing a) (trailing b)) max
    Hra Hrb ltac:(lia) Hm Hra0 Hrb0 Hoa Hob ltac:(lia) ltac:(lia)) as Ht.
  destruct (gcd_loop _ _ _ _ _); [by eexists|done].
Qed.

(** ** Division *)

Lemma shift_in_spec r c :
  canonical r → c = 0 ∨ c = 1 →
  canonical (shift_in r c) ∧ words_val (shift_in r c) = 2 * words_val r + c.
Proof.
  revert c. induction r as [|w r IH]; intros c Hr Hc; cbn [shift_in].
  { destruct Hc as [-> | ->]; simpl; (split; [|done]); [apply canonical_nil|].
    apply canonical_singleton; [|done]. split; lia. }
  assert (u64 w) as Hw by (apply (Forall_cons_1 _ _ _ (proj1 Hr))).
  destruct (shifted_halves w 1 Hw ltac:(lia)) as (Hlo & Hhi & Hsum).
  assert (Z.shiftr w 63 = 0 ∨ Z.shiftr w 63 = 1) as Hc'.
  { change (64 - 1) with 63 in Hhi. rewrite Hhi. change (2 ^ 63) with 9223372036854775808.
    destruct Hw. dlia. }
  destruct (IH (Z.shiftr w 63) (canonical_tail _ _ Hr) Hc') as [Hcr Hv].
  assert (Z.lor (as_u64 (Z.shiftl w 1)) c = as_u64 (Z.shiftl w 1) + c) as Hlor.
  { rewrite Z.add_nocarry_lor; [done|]. rewrite Hlo, Z.land_comm.
    apply land_low_high; [lia|]. change (2 ^ 1) with 2. lia. }
  assert (words_val (Z.lor (as_u64 (Z.shiftl w 1)) c :: shift_in r (Z.shiftr w 63))
          = 2 * words_val (w :: r) + c) as Hval.
  { cbn [words_val]. rewrite Hlor, Hv. change (64 - 1) with 63 in *. lia. }
  split; [|done]. assert (u64 c) by (split; lia).
  destruct (shift_in r (Z.shiftr w 63)) as [|w' r'] eqn:E; [|by apply canonical_cons; auto].
  apply canonical_singleton; [by auto|].
  pose proof (canonical_val_pos _ Hr ltac:(done)) as Hpos. intros H0.
  rewrite H0 in Hval. cbn [words_val] in Hval, Hpos. lia.
Qed.

Lemma value_bit_spec value bit :
  words_ok value → 0 ≤ bit < 64 * Z.of_nat (length value) →
  value_bit value bit = Z.b2z (Z.testbit (words_val value) bit).
Proof.
  intros Hok Hb. rewrite words_val_testbit by (done || lia). unfold value_bit, words_bit.
  destruct (lookup_lt_is_Some_2 value (Z.to_nat (bit / 64))) as [w Hw]; [dlia|].
  rewrite (list_lookup_total_correct _ _ _ Hw), Hw.
  by rewrite Z.land_ones with (n := 1), <- Z.bit0_mod, Z.shiftr_spec, Z.add_0_l by lia.
Qed.

(** One step of binary long division of [v] by [d]. *)
Lemma long_division_step v d k :
  0 < d → 0 ≤ k → 0 ≤ v →
  let a := v / 2 ^ (k + 1) in
  let x := 2 * (a `mod` d) + Z.b2z (Z.testbit v k) in
  0 ≤ x ∧
  if decide (x < d)
  then (v / 2 ^ k) / d = 2 * (a / d) ∧ (v / 2 ^ k) `mod` d = x
  else (v / 2 ^ k) / d = 2 * (a / d) + 1 ∧ (v / 2 ^ k) `mod` d = x - d ∧ d ≤ x.
Proof.
  intros Hd Hk Hv a x.
  assert (v / 2 ^ k = 2 * a + Z.b2z (Z.testbit v k)) as Ha.
  { subst a. rewrite Z.pow_add_r, <- Z.div_div by lia. change (2 ^ 1) with 2.
    assert (Z.testbit v k = Z.odd (v / 2 ^ k)) as ->.
    { rewrite <- Z.bit0_odd, <- Z.shiftr_div_pow2, Z.shiftr_spec by lia. by rewrite Z.add_0_l. }
    pose proof (Z.div_mod (v / 2 ^ k) 2 ltac:(lia)).
    rewrite Zmod_odd in *. destruct (Z.odd _); simpl; lia. }
  pose proof (Z.div_mod a d ltac:(lia)) as Hdm. pose proof (Z.mod_pos_bound a d Hd).
  assert (0 ≤ Z.b2z (Z.testbit v k) ≤ 1) by (destruct (Z.testbit v k); simpl; lia).
  split; [lia|]. rewrite Ha. case_decide as Hx.
  - split; [symmetry; apply Z.div_unique with x|symmetry; apply Z.mod_unique with (2 * (a / d))];
      lia.
  - split; [symmetry; apply Z.div_unique with (x - d)|split; [|lia]]; [lia..|].
    symmetry. apply Z.mod_unique with (2 * (a / d) + 1); lia.
Qed.

(** The remainder after bringing down bit [k]. *)
Lemma bring_down_spec value divisor remainder k :
  words_ok value → 0 ≤ k < 64 * Z.of_nat (length value) →
  canonical remainder → 0 < words_val divisor →
  words_val remainder = (words_val value / 2 ^ (k + 1)) `mod` words_val divisor →
  let r := shift_in remainder (value_bit value k) in
  canonical r ∧
  words_val r = 2 * ((words_val value / 2 ^ (k + 1)) `mod` words_val divisor)
                + Z.b2z (Z.testbit (words_val value) k).
Proof.
  intros Hv Hk Hr Hd Hrem r. subst r. rewrite <- Hrem, value_bit_spec by done.
  apply shift_in_spec; [done|]. destruct (Z.testbit _ _); simpl; lia.
Qed.

Lemma or_bit_add ws k :
  words_ok ws → 0 ≤ k < 64 * Z.of_nat (length ws) → Z.testbit (words_val ws) k = false →
  words_val (or_bit ws k) = words_val ws + 2 ^ k.
Proof.
  intros Hok Hk Hb. rewrite <- (Z.shiftl_1_l k), Z.add_nocarry_lor.
  - apply Z.bits_inj'. intros i Hi.
    rewrite Z.lor_spec, or_bit_testbit, testbit_shiftl_1 by (done || lia). done.
  - apply Z.bits_inj'. intros i Hi. rewrite Z.land_spec, Z.bits_0, testbit_shiftl_1 by lia.
    case_bool_decide; subst; rewrite ?Hb, ?andb_false_r; done.
Qed.

(** The loop invariant of long division after bit [k]. *)
Definition division_state (value divisor : list Z) (k : Z) (s : list Z * list Z) : Prop :=
  let v := words_val value / 2 ^ k in
  words_ok s.1 ∧ length s.1 = length value ∧ words_val s.1 = v / words_val divisor * 2 ^ k ∧
  canonical s.2 ∧ words_val s.2 = v `mod` words_val divisor.

Lemma divide_step_spec value divisor k s :
  canonical value → canonical divisor → 0 < words_val divisor →
  0 ≤ k < 64 * Z.of_nat (length value) →
  division_state value divisor (k + 1) s →
  division_state value divisor k (divide_step value divisor s k).
Proof.
  destruct s as [q r]. intros Hv Hd Hd0 Hk (Hq & Hlq & Hqv & Hr & Hrv).
  unfold divide_step, division_state. cbn [fst snd] in *.
  pose proof (words_val_nonneg value (proj1 Hv)).
  destruct (bring_down_spec value divisor r k) as [Hc Hcv]; [apply Hv|done..|].
  destruct (long_division_step (words_val value) (words_val divisor) k) as [Hx0 Hx]; [lia..|].
  rewrite <- Hcv in Hx. rewrite compare_spec by done.
  assert (2 ^ (k + 1) = 2 * 2 ^ k) as Hp by (rewrite Z.pow_add_r by lia; lia).
  set (y := words_val value / 2 ^ (k + 1) / words_val divisor) in *. rewrite Hp in Hqv.
  destruct (Z.ltb_spec (words_val (shift_in r (value_bit value k))) (words_val divisor)) as [E|E].
  - rewrite (proj2 (Z.compare_lt_iff _ _)), decide_True in * by done. destruct Hx as [-> ->].
    cbn [fst snd]. split_and!; [done..|lia|done|done].
  - rewrite decide_False in Hx by lia. destruct Hx as (-> & -> & _).
    destruct (subtract_spec (shift_in r (value_bit value k)) divisor) as [Hs <-];
      [apply Hc|apply Hd|done|].
    assert (words_val (or_bit q k) = words_val q + 2 ^ k) as Hor.
    { apply or_bit_add; [done|lia|]. rewrite Hqv, <- Hp.
      apply Z.mul_pow2_bits_low. lia. }
    pose proof (or_bit_ok q k Hq).
    destruct (Z.compare_spec (words_val (shift_in r (value_bit value k))) (words_val divisor));
      [|lia|]; cbn [fst snd]; rewrite length_or_bit, Hor; (split_and!; [done|done|lia|done|done]).
Qed.

Lemma divide_exact_spec value divisor :
  canonical value → canonical divisor → 0 < words_val divisor →
  canonical (divide_exact value divisor) ∧
  words_val (divide_exact value divisor) = words_val value / words_val divisor.
Proof.
  intros Hv Hd Hd0. unfold divide_exact.
  pose proof (words_val_nonneg value (proj1 Hv)) as HV0.
  assert (0 ≤ bit_len value ≤ 64 * Z.of_nat (length value)) as Hlen.
  { rewrite natural_bits by done. split; [done|].
    apply nbits_le_iff; [done|lia|]. apply words_val_bounds, Hv. }
  pose proof (foldl_down (division_state value divisor) (divide_step value divisor)
    (bit_len value) (replicate (length value) 0, [])) as Hloop.
  destruct (foldl _ _ _) as [q r]. destruct Hloop as (Hq & _ & Hqv & _).
  - lia.
  - unfold division_state; cbn [fst snd].
    assert (words_val value / 2 ^ bit_len value = 0) as ->.
    { apply Z.div_small. rewrite natural_bits by done. split; [done|]. by apply nbits_spec. }
    rewrite Z.div_0_l, Z.mod_0_l by lia. rewrite words_val_replicate, length_replicate.
    by split_and!; auto using canonical_nil.
  - intros k t Hk Hs. apply divide_step_spec; auto with lia.
  - cbn [fst snd] in *. split; [by apply normalize_canonical|].
    by rewrite normalize_val, Hqv, Z.pow_0_r, Z.div_1_r, Z.mul_1_r.
Qed.

(** ** Addition *)

Lemma words_val_take_S ws k :
  words_val (take (S k) ws) =
  words_val (take k ws) + 2 ^ (64 * Z.of_nat k) * default 0 (ws !! k).
Proof.
  destruct (ws !! k) as [w|] eqn:E; cbn [default from_option].
  - rewrite (take_S_r _ _ _ E), words_val_app, length_take_le; [cbn [words_val]; unfold id; lia|].
    apply lookup_lt_Some in E. lia.
  - apply lookup_ge_None in E. rewrite !take_ge by lia. unfold id. lia.
Qed.

Lemma words_ok_default ws k : words_ok ws → u64 (default 0 (ws !! k)).
Proof.
  intros Hok. destruct (ws !! k) eqn:E; cbn [default from_option]; [|split; unfold id; lia].
  by eapply Forall_lookup_1.
Qed.

Definition add_state (a b : list Z) (k : nat) (s : list Z * Z) : Prop :=
  words_ok s.1 ∧ length s.1 = k ∧ 0 ≤ s.2 < 2 ∧
  words_val s.1 + 2 ^ (64 * Z.of_nat k) * s.2 = words_val (take k a) + words_val (take k b).

Lemma add_step_spec a b k s :
  words_ok a → words_ok b → add_state a b k s → add_state a b (S k) (add_step a b s k).
Proof.
  destruct s as [r c]. intros Ha Hb (Hok & Hl & Hc & Hv). unfold add_step. cbn [fst snd] in *.
  pose proof (words_ok_default a k Ha) as [Ha1 Ha2]. pose proof (words_ok_default b k Hb) as [Hb1 Hb2].
  set (next := default 0 (a !! k) + default 0 (b !! k) + c).
  assert (0 ≤ next < W64 * 2) as Hn by (subst next; lia).
  pose proof (carry_bound next 2 Hn). pose proof (carry_split next ltac:(lia)) as Hs.
  unfold add_state; cbn [fst snd].
  split_and!; [|rewrite length_app; simpl; lia|lia|lia|].
  { apply Forall_app; split; [done|]. constructor; [apply u64_as_u64|constructor]. }
  rewrite !words_val_take_S, words_val_app, Hl. cbn [words_val].
  replace (64 * Z.of_nat (S k)) with (64 * Z.of_nat k + 64) by lia.
  rewrite Z.pow_add_r by lia. change (2 ^ 64) with W64. subst next. nia.
Qed.

Lemma add_spec a b max :
  canonical a → canonical b → Z.of_nat (Nat.max (length a) (length b)) + 1 < W64 →
  let v := words_val a + words_val b in
  if decide (nbits v ≤ max)
  then ∃ r, add a b max = Ok r ∧ canonical r ∧ words_val r = v
  else add a b max = Err InputLimit.
Proof.
  intros Ha Hb Hmax v. unfold add. set (size := Nat.max (length a) (length b)) in *.
  rewrite (proj2 (checked_add_Some _ _ _) (conj eq_refl Hmax)). cbn [ok_or]. rewrite Ok_bind.
  pose proof (foldl_up (add_state a b) (add_step a b) (seq 0 size) ([], 0)) as Hloop.
  destruct (foldl _ _ _) as [r c]. destruct Hloop as (Hok & Hl & Hc & Hv).
  { unfold add_state; cbn [fst snd]. split_and!; [by constructor|done|lia|lia|done]. }
  { intros k i t [-> _]%lookup_seq Hs. apply add_step_spec; [apply Ha|apply Hb|done]. }
  rewrite length_seq in *. cbn [fst snd] in *. rewrite !take_ge in Hv by lia. fold v in Hv.
  set (r' := if negb (c =? 0) then _ else _).
  assert (canonical r' ∧ words_val r' = v) as [Hr Hrv].
  { subst r'. destruct (Z.eqb_spec c 0) as [->|Hne]; cbn [negb].
    - split; [split; [done|]|lia]. apply tight_normalized; [done|].
      replace (words_val r) with v by lia. rewrite Hl.
      pose proof (canonical_tight a Ha). pose proof (canonical_tight b Hb).
      pose proof (words_val_nonneg a (proj1 Ha)). pose proof (words_val_nonneg b (proj1 Hb)).
      pose proof (nbits_mono (words_val a) v). pose proof (nbits_mono (words_val b) v). lia.
    - unfold as_u64. rewrite Z.mod_small by lia.
      split; [apply canonical_snoc; [done|split; lia|done]|].
      rewrite words_val_app, Hl. cbn [words_val]. lia. }
  rewrite check_bits_cases, Hrv by done. case_decide; [by exists r'|done].
Qed.

(** ** Multiplication *)

Lemma words_val_insert ws k v :
  (k < length ws)%nat →
  words_val (<[k := v]> ws) = words_val ws + (v - ws !!! k) * 2 ^ (64 * Z.of_nat k).
Proof.
  revert k. induction ws as [|w ws IH]; intros [|k] Hk; cbn [length] in Hk; [lia|lia| |].
  - cbn. lia.
  - cbn [insert list_insert words_val]. change ((w :: ws) !!! S k) with (ws !!! k).
    rewrite IH by lia. replace (64 * Z.of_nat (S k)) with (64 + 64 * Z.of_nat k) by lia.
    rewrite Z.pow_add_r by lia. change (2 ^ 64) with W64. lia.
Qed.

(** Row [i] of the product, after [j] words of [b], starting from [r0]. *)
Definition row_state (b r0 : list Z) (x : Z) (i j : nat) (s : list Z * Z) : Prop :=
  words_ok s.1 ∧ length s.1 = length r0 ∧ u64 s.2 ∧
  (∀ k, (i + j ≤ k)%nat → s.1 !! k = r0 !! k) ∧
  words_val s.1 + s.2 * 2 ^ (64 * Z.of_nat (i + j)) =
    words_val r0 + x * words_val (take j b) * 2 ^ (64 * Z.of_nat i).

Lemma multiply_step_spec b r0 x i j y s :
  words_ok r0 → u64 x → b !! j = Some y → words_ok b → (i + j < length r0)%nat →
  row_state b r0 x i j s → row_state b r0 x i (S j) (multiply_step x i s (j, y)).
Proof.
  destruct s as [r c]. intros Hr0 Hx Hy Hb Hlt (Hok & Hl & Hc & Hsame & Hv).
  unfold multiply_step. cbn [fst snd] in *.
  destruct (lookup_lt_is_Some_2 r (i + j)) as [w Hw]; [lia|].
  destruct (Forall_lookup_1 _ _ _ _ Hok Hw) as [Hw1 Hw2].
  destruct (Forall_lookup_1 _ _ _ _ Hb Hy) as [Hy1 Hy2].
  destruct Hx as [Hx1 Hx2], Hc as [Hc1 Hc2].
  rewrite (list_lookup_total_correct _ _ _ Hw).
  set (next := x * y + w + c). assert (0 ≤ next < W64 * W64) as Hn by (subst next; nia).
  pose proof (carry_bound next W64 Hn). pose proof (carry_split next ltac:(lia)) as Hs.
  unfold row_state; cbn [fst snd].
  split_and!; [apply Forall_insert; auto|by rewrite length_insert|done| |].
  - intros k Hk. rewrite list_lookup_insert_ne by lia. apply Hsame. lia.
  - rewrite words_val_insert, (list_lookup_total_correct _ _ _ Hw), words_val_take_S, Hy by lia.
    cbn [default from_option]. replace (64 * Z.of_nat (i + S j)) with (64 * Z.of_nat (i + j) + 64) by lia.
    rewrite Z.pow_add_r by lia. change (2 ^ 64) with W64.
    replace (64 * Z.of_nat (i + j)) with (64 * Z.of_nat i + 64 * Z.of_nat j) in * by lia.
    rewrite Z.pow_add_r in * by lia. unfold id. subst next. nia.
Qed.

Lemma multiply_row_spec a b r i x :
  words_ok a → words_ok b → a !! i = Some x →
  words_ok r → length r = (length a + length b)%nat →
  (∀ k, (i + length b ≤ k < length r)%nat → r !! k = Some 0) →
  words_val r = words_val (take i a) * words_val b →
  let r' := multiply_row b r (i, x) in
  words_ok r' ∧ length r' = length r ∧
  (∀ k, (S i + length b ≤ k < length r)%nat → r' !! k = Some 0) ∧
  words_val r' = words_val (take (S i) a) * words_val b.
Proof.
  intros Ha Hb Hx Hr Hl Hz Hv r'. subst r'. unfold multiply_row.
  pose proof (lookup_lt_Some _ _ _ Hx) as Hi.
  pose proof (Forall_lookup_1 _ _ _ _ Ha Hx) as Hxu.
  pose proof (foldl_up (row_state b r x i) (multiply_step x i) (imap pair b) (r, 0)) as Hloop.
  destruct (foldl _ _ _) as [s c]. destruct Hloop as (Hok & Hls & Hc & Hsame & Hs).
  { unfold row_state; cbn [fst snd]. rewrite take_0, Nat.add_0_r; cbn [words_val].
    repeat match goal with |- _ ∧ _ => split end; [done|done|split; lia|done|lia]. }
  { intros j [j' y] t Hj Hst. rewrite list_lookup_imap in Hj.
    apply fmap_Some in Hj as (y' & Hy & [= -> ->]).
    pose proof (lookup_lt_Some _ _ _ Hy). apply multiply_step_spec; auto with lia. }
  rewrite length_imap in *. cbn [fst snd] in *.
  assert (s !! (i + length b)%nat = Some 0) as H0 by (rewrite Hsame by lia; apply Hz; lia).
  split_and!.
  - apply Forall_insert; [done|apply u64_as_u64].
  - by rewrite length_insert.
  - intros k Hk. rewrite list_lookup_insert_ne, Hsame by lia. apply Hz. lia.
  - rewrite words_val_insert by lia. rewrite (list_lookup_total_correct _ _ _ H0).
    rewrite words_val_take_S, Hx. cbn [default from_option]. unfold id, as_u64.
    rewrite Z.mod_small by done. rewrite take_ge in Hs by lia. rewrite Hv in Hs. lia.
Qed.

Lemma multiply_loop_spec a b :
  words_ok a → words_ok b →
  let r := foldl (multiply_row b) (replicate (length a + length b) 0) (imap pair a) in
  words_ok r ∧ words_val r = words_val a * words_val b.
Proof.
  intros Ha Hb r. subst r.
  pose proof (foldl_up (λ i r, words_ok r ∧ length r = (length a + length b)%nat ∧
    (∀ k, (i + length b ≤ k < length r)%nat → r !! k = Some 0) ∧
    words_val r = words_val (take i a) * words_val b)
    (multiply_row b) (imap pair a) (replicate (length a + length b) 0)) as Hloop.
  destruct Hloop as (Hok & _ & _ & Hv).
  - rewrite words_val_replicate, length_replicate.
    split_and!; [auto|done| |done]. intros k Hk. apply lookup_replicate_2. lia.
  - intros i [i' x] t Hi (Hok & Hl & Hz & Hv). rewrite list_lookup_imap in Hi.
    apply fmap_Some in Hi as (x' & Hx & [= -> ->]).
    destruct (multiply_row_spec a b t i x' Ha Hb Hx Hok Hl Hz Hv) as (? & Hl' & ? & ?).
    split_and!; [done|by rewrite Hl'|by rewrite Hl'|done].
  - rewrite length_imap, take_ge in Hv by lia. done.
Qed.

(** A product of [n]- and [m]-bit numbers has [n + m] or [n + m - 1] bits, so
    the early check never rejects a product within the budget. *)
Lemma nbits_mul_lower x y : 0 < x → 0 < y → nbits x + nbits y - 1 ≤ nbits (x * y).
Proof.
  intros Hx Hy. pose proof (nbits_pos x Hx). pose proof (nbits_pos y Hy).
  pose proof (nbits_lower x Hx). pose proof (nbits_lower y Hy).
  rewrite <- (nbits_unique (2 ^ (nbits x + nbits y - 2)) (nbits x + nbits y - 1)).
  - apply nbits_mono. split; [apply Z.pow_nonneg; lia|].
    replace (nbits x + nbits y - 2) with ((nbits x - 1) + (nbits y - 1)) by lia.
    rewrite Z.pow_add_r by lia. apply Z.mul_le_mono_nonneg; auto with zarith.
  - lia.
  - replace (nbits x + nbits y - 1 - 1) with (nbits x + nbits y - 2) by lia.
    split; [lia|]. apply Z.pow_lt_mono_r; lia.
Qed.

Lemma multiply_spec a b max :
  canonical a → canonical b → 0 ≤ max < W64 - 1 →
  Z.of_nat (length a) + Z.of_nat (length b) < W64 →
  let v := words_val a * words_val b in
  if decide (nbits v ≤ max)
  then ∃ r, multiply a b max = Ok r ∧ canonical r ∧ words_val r = v
  else multiply a b max = Err InputLimit.
Proof.
  intros Ha Hb Hm Hsize v. unfold multiply.
  case_bool_decide as Hna; [subst a|].
  { rewrite decide_True by (subst v; simpl; unfold nbits; simpl; lia).
    exists []; auto using canonical_nil. }
  case_bool_decide as Hnb; [subst b|].
  { rewrite decide_True by (subst v; simpl; rewrite Z.mul_0_r; unfold nbits; simpl; lia).
    exists []. subst v. rewrite Z.mul_0_r. auto using canonical_nil. }
  cbn [orb]. pose proof (canonical_val_pos a Ha Hna) as Ha0.
  pose proof (canonical_val_pos b Hb Hnb) as Hb0.
  pose proof (nbits_mul_lower _ _ Ha0 Hb0) as Hlow. fold v in Hlow.
  rewrite !natural_bits by done.
  destruct (checked_add (nbits _) (nbits _)) as [bound|] eqn:Hadd; cbn [ok_or].
  2: { apply checked_add_None in Hadd. by rewrite decide_False by lia. }
  apply checked_add_Some in Hadd as [-> Hov].
  rewrite Ok_bind. destruct (Z.ltb_spec max (nbits (words_val a) + nbits (words_val b) - 1));
    [by rewrite decide_False by lia|].
  rewrite (proj2 (checked_add_Some _ _ _) (conj eq_refl Hsize)). cbn [ok_or]. rewrite Ok_bind.
  replace (Z.to_nat (Z.of_nat (length a) + Z.of_nat (length b))) with (length a + length b)%nat by lia.
  destruct (multiply_loop_spec a b (proj1 Ha) (proj1 Hb)) as [Hok Hv].
  set (r := foldl _ _ _) in *. pose proof (normalize_canonical r Hok) as Hc.
  rewrite check_bits_cases, normalize_val, Hv by done. fold v.
  case_decide; [|done]. exists (normalize r). by rewrite normalize_val.
Qed.

(** Numbers within a bit budget are far shorter than the address space. *)
Lemma budget_length ws max :
  canonical ws → nbits (words_val ws) ≤ max → max < W64 →
  Z.of_nat (length ws) ≤ 288230376151711744.
Proof. intros Hc Hn Hm. pose proof (canonical_tight ws Hc). lia. Qed.
End BigNat.
