(* ===== verification/Float.v ===== *)
(** * binary64 by its bit pattern

    [f64::to_bits] and [f64::from_bits] are the identity on the 64-bit pattern,
    so a float is modelled by that pattern; its fields and its real value are
    read off it as IEEE 754 says. *)

From Stdlib Require Import QArith Qpower.
From S2P Require Import Prelude.
#[local] Open Scope Z_scope.

Record f64 : Set := from_bits { to_bits : Z }.

#[global] Instance f64_eq_dec : EqDecision f64.
Proof. solve_decision. Defined.

Definition f64_ok (v : f64) : Prop := u64 (to_bits v).

(** The fields of the pattern. *)
Definition f64_sign (v : f64) : bool := Z.testbit (to_bits v) 63.
Definition f64_exponent (v : f64) : Z := (to_bits v / 2 ^ 52) `mod` 2 ^ 11.
Definition f64_fraction (v : f64) : Z := to_bits v `mod` 2 ^ 52.

Definition is_finite (v : f64) : bool := negb (f64_exponent v =? 2047).
Definition f64_zero : f64 := from_bits 0.

(** A finite value is [significand * 2 ^ power], up to its sign. *)
Definition f64_significand (v : f64) : Z :=
  if f64_exponent v =? 0 then f64_fraction v else 2 ^ 52 + f64_fraction v.
Definition f64_power (v : f64) : Z :=
  if f64_exponent v =? 0 then -1074 else f64_exponent v - 1075.

(** [n * 2 ^ p] as a rational. *)
Definition scaleQ (n p : Z) : Q := (n * 2 ^ Z.max p 0) # Z.to_pos (2 ^ Z.max (- p) 0).

Definition f64_Q (v : f64) : Q :=
  scaleQ (if f64_sign v then - f64_significand v else f64_significand v) (f64_power v).

(** Whole significands and their power give all finite values. *)
Lemma f64_fields v :
  f64_ok v →
  to_bits v = Z.b2z (f64_sign v) * 2 ^ 63 + f64_exponent v * 2 ^ 52 + f64_fraction v ∧
  0 ≤ f64_exponent v < 2048 ∧ 0 ≤ f64_fraction v < 2 ^ 52.
Proof.
  destruct v as [b]. unfold f64_ok, f64_sign, f64_exponent, f64_fraction. cbn [to_bits].
  intros [H1 H2]. rewrite Z.testbit_eqb by lia.
  change (2 ^ 11) with 2048. change (2 ^ 52) with 4503599627370496.
  change (2 ^ 63) with 9223372036854775808 in *.
  pose proof (Z.mod_pos_bound (b / 4503599627370496) 2048 ltac:(lia)).
  pose proof (Z.mod_pos_bound b 4503599627370496 ltac:(lia)).
  split; [|split; done]. destruct (Z.eqb_spec ((b / 9223372036854775808) `mod` 2) 1); simpl; dlia.
Qed.

Lemma scaleQ_shift n t p : 0 ≤ t → (scaleQ (n * 2 ^ t) p == scaleQ n (p + t))%Q.
Proof.
  intros Ht. unfold scaleQ, Qeq. cbn [Qnum Qden].
  rewrite !Z2Pos.id by (apply Z.pow_pos_nonneg; lia).
  rewrite <- !Z.mul_assoc, <- !Z.pow_add_r by lia. do 2 f_equal. lia.
Qed.

Lemma scaleQ_pos n p : 0 ≤ p → scaleQ n p = (n * 2 ^ p # 1)%Q.
Proof. intros. unfold scaleQ. by rewrite Z.max_l, Z.max_r by lia. Qed.

Lemma scaleQ_neg n p : p ≤ 0 → scaleQ n p = (n # Z.to_pos (2 ^ (- p)))%Q.
Proof. intros. unfold scaleQ. rewrite Z.max_r, Z.max_l by lia. by rewrite Z.mul_1_r. Qed.

(** ** The bit operations that extract the fields *)

Lemma field_exponent b : Z.land (Z.shiftr b 52) 2047 = (b / 2 ^ 52) `mod` 2 ^ 11.
Proof. change 2047 with (Z.ones 11). by rewrite Z.land_ones, Z.shiftr_div_pow2 by lia. Qed.

Lemma field_fraction b : Z.land b (Z.shiftl 1 52 - 1) = b `mod` 2 ^ 52.
Proof. change (Z.shiftl 1 52 - 1) with (Z.ones 52). by rewrite Z.land_ones by lia. Qed.

Lemma hidden_bit f : 0 ≤ f < 2 ^ 52 → Z.lor (Z.shiftl 1 52) f = 2 ^ 52 + f.
Proof.
  intros Hf. rewrite Z.shiftl_1_l, Z.add_nocarry_lor; [done|].
  rewrite Z.land_comm, <- (Z.mul_1_l (2 ^ 52)) at 1. by apply land_low_high.
Qed.

Lemma field_sign v : f64_ok v → negb (Z.shiftr (to_bits v) 63 =? 0) = f64_sign v.
Proof.
  intros [H1 H2]. unfold f64_sign. rewrite Z.testbit_eqb, Z.shiftr_div_pow2 by lia.
  change (2 ^ 63) with 9223372036854775808.
  destruct (Z.eqb_spec (to_bits v / 9223372036854775808) 0),
    (Z.eqb_spec ((to_bits v / 9223372036854775808) `mod` 2) 1); cbn; try done; dlia.
Qed.
