(* ===== verification/Exact.v ===== *)
(** * number/exact.rs, part 2: exact rational targets

    [ExactRational], its parser, its conversion from binary64 and its checked
    arithmetic. Every value built by the module is in lowest terms with a
    positive denominator; the arithmetic agrees with [Q]. *)

From Stdlib Require Import QArith.
From S2P Require Import Prelude Words ExactNat Float.
#[local] Open Scope Z_scope.

Record ExactInputLimits : Set := mkExactInputLimits {
  input_max_digits : Z;
  input_max_bits : Z;
  input_max_gcd_steps : Z;
}.

Definition ExactInputLimits_default : ExactInputLimits := mkExactInputLimits 1024 4096 16384.

Record ExactRational : Set := mkExactRational {
  negative : bool;
  numerator : list Z;
  denominator : list Z;
}.

#[global] Instance ExactRational_eq_dec : EqDecision ExactRational.
Proof. solve_decision. Defined.

Module Exact.
Import BigNat.
Abbreviation Result := (Result ExactInputError).

Definition is_zero (r : ExactRational) : bool := bool_decide (numerator r = []).

Definition natural (words : list Z) : ExactRational := mkExactRational false words [1].

Definition from_i64 (value : Z) : ExactRational :=
  mkExactRational (value <? 0) (if value =? 0 then [] else [Z.abs value]) [1].

Definition reduce (negative : bool) (numerator denominator : list Z)
    (limits : ExactInputLimits) : Result ExactRational :=
  if bool_decide (numerator = []) then Ok (mkExactRational false numerator [1])
  else
    divisor ← gcd numerator denominator (input_max_gcd_steps limits) (input_max_bits limits);
    Ok (mkExactRational negative (divide_exact numerator divisor)
          (divide_exact denominator divisor)).

(** ** Parsing *)

Definition is_ascii_digit (c : Ascii.ascii) : bool :=
  (48 <=? Z.of_N (Ascii.N_of_ascii c)) && (Z.of_N (Ascii.N_of_ascii c) <=? 57).

Definition digit_value (c : Ascii.ascii) : Z := Z.of_N (Ascii.N_of_ascii c) - 48.

(** The locals of the scanning loop: [point], [whole], [fraction], [digits]. *)
Record DecimalScan : Set := mkDecimalScan {
  scan_point : bool; scan_whole : Z; scan_fraction : Z; scan_digits : Z }.

Definition scan_byte (limits : ExactInputLimits) (byte : Ascii.ascii) (s : DecimalScan)
  : Result DecimalScan :=
  let '(mkDecimalScan point whole fraction digits) := s in
  if Ascii.eqb byte "."%char && negb point && (0 <? whole)
  then Ok (mkDecimalScan true whole fraction digits)
  else if negb (is_ascii_digit byte) then Err Syntax
  else
    let digits := digits + 1 in
    if input_max_digits limits <? digits then Err InputLimit
    else if point then Ok (mkDecimalScan point whole (fraction + 1) digits)
    else Ok (mkDecimalScan point (whole + 1) fraction digits).

Definition split_sign (text : list Ascii.ascii) : bool * list Ascii.ascii :=
  match text with
  | "-"%char :: body => (true, body)
  | "+"%char :: body => (false, body)
  | _ => (false, text)
  end.

Definition from_decimal_str (text : string) (limits : ExactInputLimits)
  : Result ExactRational :=
  let text := String.list_ascii_of_string text in
  if input_max_digits limits <? saturating_sub (Z.of_nat (length text)) 2 then Err InputLimit
  else
    let '(negative, body) := split_sign text in
    '(mkDecimalScan point whole fraction _) ←
      for_each (scan_byte limits) body (mkDecimalScan false 0 0 0);
    if (whole =? 0) || (point && (fraction =? 0)) then Err Syntax
    else
      numerator ←
        for_each (λ digit numerator,
          mul_add_small numerator 10 (digit_value digit) (input_max_bits limits))
          (List.filter is_ascii_digit body) [];
      _ ← check_bits [1] (input_max_bits limits);
      denominator ←
        for_each (λ _ denominator, mul_add_small denominator 10 0 (input_max_bits limits))
          (seqZ 0 fraction) [1];
      reduce negative numerator denominator limits.

(** ** Conversion from binary64 *)

Definition from_f64 (value : f64) (limits : ExactInputLimits) : Result ExactRational :=
  let bits := to_bits value in
  let exponent := Z.land (Z.shiftr bits 52) 2047 in
  if exponent =? 2047 then Err NonFinite
  else
    let fraction := Z.land bits (Z.shiftl 1 52 - 1) in
    let significand :=
      if exponent =? 0 then fraction else Z.lor (Z.shiftl 1 52) fraction in
    if significand =? 0 then
      _ ← check_bits [1] (input_max_bits limits);
      Ok (mkExactRational false [] [1])
    else
      let power := if exponent =? 0 then -1074 else exponent - 1023 - 52 in
      let trailing := trailing_zeros significand in
      let significand := Z.shiftr significand trailing in
      let power := power + trailing in
      '(numerator, denominator) ←
        (if 0 <=? power then
           numerator ← shift_left [significand] power (input_max_bits limits);
           Ok (numerator, [1])
         else
           denominator ← shift_left [1] (- power) (input_max_bits limits);
           Ok ([significand], denominator));
      _ ← check_bits numerator (input_max_bits limits);
      _ ← check_bits denominator (input_max_bits limits);
      Ok (mkExactRational (negb (Z.shiftr bits 63 =? 0)) numerator denominator).

(** ** Checked arithmetic *)

Definition negated (r : ExactRational) : ExactRational :=
  if negb (is_zero r)
  then mkExactRational (negb (negative r)) (numerator r) (denominator r)
  else r.

Definition check_limit (r : ExactRational) (limits : ExactInputLimits) : Result unit :=
  _ ← check_bits (numerator r) (input_max_bits limits);
  check_bits (denominator r) (input_max_bits limits).

Definition checked_add (a b : ExactRational) (limits : ExactInputLimits)
  : Result ExactRational :=
  _ ← check_limit a limits;
  _ ← check_limit b limits;
  left ← multiply (numerator a) (denominator b) (input_max_bits limits);
  right ← multiply (numerator b) (denominator a) (input_max_bits limits);
  den ← multiply (denominator a) (denominator b) (input_max_bits limits);
  '(neg, num) ←
    (if Bool.eqb (negative a) (negative b) then
       sum ← add left right (input_max_bits limits); Ok (negative a, sum)
     else match compare left right with
          | Lt => Ok (negative b, subtract right left)
          | _ => Ok (negative a, subtract left right)
          end);
  reduce neg num den limits.

Definition checked_sub (a b : ExactRational) (limits : ExactInputLimits)
  : Result ExactRational :=
  checked_add a (negated b) limits.

Definition checked_mul (a b : ExactRational) (limits : ExactInputLimits)
  : Result ExactRational :=
  _ ← check_limit a limits;
  _ ← check_limit b limits;
  num ← multiply (numerator a) (numerator b) (input_max_bits limits);
  den ← multiply (denominator a) (denominator b) (input_max_bits limits);
  reduce (negb (Bool.eqb (negative a) (negative b))) num den limits.

Definition checked_div (a b : ExactRational) (limits : ExactInputLimits)
  : Result ExactRational :=
  if is_zero b then Err DivisionByZero
  else
    _ ← check_limit a limits;
    _ ← check_limit b limits;
    num ← multiply (numerator a) (denominator b) (input_max_bits limits);
    den ← multiply (denominator a) (numerator b) (input_max_bits limits);
    reduce (negb (Bool.eqb (negative a) (negative b))) num den limits.

Definition checked_exp2 (r : ExactRational) (limits : ExactInputLimits)
  : Result ExactRational :=
  _ ← check_limit r limits;
  if negb (bool_decide (denominator r = [1])) then Err NonIntegralExponent
  else
    exponent ← match numerator r with
               | [] => Ok 0
               | [word] => Ok word
               | _ => Err InputLimit
               end;
    power ← shift_left [1] exponent (input_max_bits limits);
    Ok (if negative r then mkExactRational false [1] power else natural power).
End Exact.

(** ** Values and the invariant *)

Definition signed (neg : bool) (n : Z) : Z := if neg then - n else n.

Definition rat_num (r : ExactRational) : Z := signed (negative r) (words_val (numerator r)).
Definition rat_den (r : ExactRational) : Z := words_val (denominator r).
Definition rat_Q (r : ExactRational) : Q := rat_num r # Z.to_pos (rat_den r).

Record rat_wf (r : ExactRational) : Prop := mk_rat_wf {
  wf_numerator : canonical (numerator r);
  wf_denominator : canonical (denominator r);
  wf_positive : 0 < rat_den r;
  wf_reduced : Z.gcd (words_val (numerator r)) (rat_den r) = 1;
  wf_zero : numerator r = [] → negative r = false;
}.

(** Budgets a [usize] can hold, the largest two values apart. *)
Definition limits_ok (limits : ExactInputLimits) : Prop :=
  0 ≤ input_max_bits limits < W64 - 1 ∧ 0 ≤ input_max_gcd_steps limits ∧
  0 ≤ input_max_digits limits.

Section rational_lemmas.
Lemma rat_Q_eq r n d :
  0 < rat_den r → 0 < d → (rat_Q r == n # Z.to_pos d)%Q ↔ rat_num r * d = n * rat_den r.
Proof. intros Hr Hd. unfold rat_Q, Qeq. cbn [Qnum Qden]. by rewrite !Z2Pos.id. Qed.

(** Lowest terms are unique: derived equality of the code is equality of
    rationals. *)
Lemma rat_Q_inj_lemma a b : rat_wf a → rat_wf b → (rat_Q a == rat_Q b)%Q → a = b.
Proof.
  intros Ha Hb HQ. apply rat_Q_eq in HQ; [|apply Ha|apply Hb].
  destruct Ha as [Han Had Hap Har Haz], Hb as [Hbn Hbd Hbp Hbr Hbz].
  assert (rat_den a = rat_den b) as Hd.
  { apply Z.divide_antisym_nonneg; [lia|lia| |].
    - apply Z.gauss with (words_val (numerator a)); [|by rewrite Z.gcd_comm].
      exists (signed (negative a) 1 * rat_num b). revert HQ. unfold rat_num.
      destruct (negative a), (negative b); cbn [signed]; lia.
    - apply Z.gauss with (words_val (numerator b)); [|by rewrite Z.gcd_comm].
      exists (signed (negative b) 1 * rat_num a). revert HQ. unfold rat_num.
      destruct (negative a), (negative b); cbn [signed]; lia. }
  rewrite Hd in HQ. apply Z.mul_cancel_r in HQ; [|lia].
  pose proof (words_val_nonneg _ (proj1 Han)). pose proof (words_val_nonneg _ (proj1 Hbn)).
  assert (words_val (numerator a) = words_val (numerator b)) as Hn.
  { revert HQ. unfold rat_num. destruct (negative a), (negative b); cbn [signed]; lia. }
  apply words_val_inj in Hn; [|done..]. apply words_val_inj in Hd; [|done..].
  destruct a as [na a ad], b as [nb b bd]. cbn in *. subst. f_equal.
  destruct (decide (b = [])) as [->|Hne]; [by rewrite Haz, Hbz|].
  pose proof (canonical_val_pos _ Hbn Hne). revert HQ. unfold rat_num.
  destruct na, nb; cbn; lia || done.
Qed.

Lemma canonical_one : canonical [1].
Proof. solve_words. Qed.

Lemma shift_left_err ws k max e : BigNat.shift_left ws k max = Err e → e = InputLimit.
Proof.
  unfold BigNat.shift_left. destruct (Prelude.checked_add _ _); cbn [ok_or]; [rewrite Ok_bind|cbn; congruence].
  case_match; congruence.
Qed.

Lemma gcd_err a b steps max e : BigNat.gcd a b steps max = Err e → e = InputLimit.
Proof.
  unfold BigNat.gcd. generalize (Z.to_nat steps). intros n.
  generalize (BigNat.shift_right a (BigNat.trailing a)) (BigNat.shift_right b (BigNat.trailing b)).
  induction n as [|n IH]; intros x y; cbn [BigNat.gcd_loop]; [congruence|].
  case_match; [apply shift_left_err|apply IH..].
Qed.

(** [reduce] divides by the greatest common divisor. *)
Lemma reduce_spec neg n d limits r :
  limits_ok limits → canonical n → canonical d → 0 < words_val d →
  Exact.reduce neg n d limits = Ok r →
  rat_wf r ∧ (rat_Q r == signed neg (words_val n) # Z.to_pos (words_val d))%Q.
Proof.
  intros [Hl _] Hn Hd Hd0 H. unfold Exact.reduce in H. case_bool_decide as Hz.
  { injection H as <-. subst n. split.
    - split; cbn; [apply canonical_nil|apply canonical_one|done..].
    - apply rat_Q_eq; [done|done|]. destruct neg; done. }
  apply bind_ok in H as (g & Hg & [= <-]).
  pose proof (canonical_val_pos n Hn Hz) as Hn0.
  apply BigNat.gcd_sound in Hg as [Hgc Hgv]; [|done|done|done|done|lia].
  assert (0 < words_val g) as Hg0.
  { rewrite Hgv. pose proof (Z.gcd_nonneg (words_val n) (words_val d)).
    assert (Z.gcd (words_val n) (words_val d) ≠ 0); [|lia]. intros [??]%Z.gcd_eq_0. lia. }
  destruct (BigNat.divide_exact_spec n g Hn Hgc Hg0) as [Hqn Hvn].
  destruct (BigNat.divide_exact_spec d g Hd Hgc Hg0) as [Hqd Hvd].
  assert (words_val n = words_val g * (words_val n / words_val g)) as En.
  { apply Z.div_exact; [lia|]. apply Z.mod_divide; [lia|]. rewrite Hgv. apply Z.gcd_divide_l. }
  assert (words_val d = words_val g * (words_val d / words_val g)) as Ed.
  { apply Z.div_exact; [lia|]. apply Z.mod_divide; [lia|]. rewrite Hgv. apply Z.gcd_divide_r. }
  assert (0 < words_val d / words_val g) by nia.
  split.
  - split; unfold rat_den; cbn [numerator denominator negative]; rewrite ?Hvn, ?Hvd; try done.
    + rewrite Hgv. apply Z.gcd_div_gcd; lia.
    + intros E. rewrite E in Hvn. cbn in Hvn. nia.
  - apply rat_Q_eq; unfold rat_num, rat_den; cbn [numerator denominator negative];
      rewrite ?Hvn, ?Hvd; [done|done|].
    rewrite En at 2. rewrite Ed at 1. destruct neg; cbn [signed]; lia.
Qed.

Lemma reduce_total neg n d limits :
  limits_ok limits → canonical n → canonical d → 0 < words_val d →
  nbits (words_val n) + nbits (words_val d) ≤ input_max_gcd_steps limits →
  nbits (words_val d) ≤ input_max_bits limits →
  ∃ r, Exact.reduce neg n d limits = Ok r.
Proof.
  intros [Hl _] Hn Hd Hd0 Hs Hm. unfold Exact.reduce. case_bool_decide as Hz; [by eexists|].
  destruct (BigNat.gcd_total n d (input_max_gcd_steps limits) (input_max_bits limits)) as [g ->];
    [done|done|by apply canonical_val_pos|done|lia|done|lia|]. by eexists.
Qed.
End rational_lemmas.

(** ** Arithmetic *)

Section arithmetic_lemmas.
Context (limits : ExactInputLimits) (Hlim : limits_ok limits).
Implicit Types a b : ExactRational.

(** Numbers within the budget. *)
Definition within (limits : ExactInputLimits) (ws : list Z) : Prop :=
  canonical ws ∧ nbits (words_val ws) ≤ input_max_bits limits.

Lemma check_bits_within ws u :
  canonical ws → BigNat.check_bits ws (input_max_bits limits) = Ok u → within limits ws.
Proof. destruct u. intros Hc H%BigNat.check_bits_Ok; [by split|done]. Qed.

Lemma within_check_bits ws :
  within limits ws → BigNat.check_bits ws (input_max_bits limits) = Ok tt.
Proof. intros [Hc Hn]. by apply BigNat.check_bits_Ok. Qed.

Lemma check_limit_ok (r : ExactRational) :
  rat_wf r → Exact.check_limit r limits = Ok tt ↔
  within limits (numerator r) ∧ within limits (denominator r).
Proof.
  intros [Hn Hd _ _ _]. unfold Exact.check_limit. rewrite bind_ok. split.
  - intros (u & Hu & Hv). eauto using check_bits_within.
  - intros [Hun Hud]. exists tt. auto using within_check_bits.
Qed.

Lemma check_bits_err ws max e : BigNat.check_bits ws max = Err e → e = InputLimit.
Proof. unfold BigNat.check_bits. case_match; congruence. Qed.

Lemma check_limit_err (r : ExactRational) e : Exact.check_limit r limits = Err e → e = InputLimit.
Proof.
  unfold Exact.check_limit. intros [?|(? & _ & ?)]%bind_err; eauto using check_bits_err.
Qed.

Lemma multiply_cases x y :
  within limits x → within limits y →
  let v := words_val x * words_val y in
  if decide (nbits v ≤ input_max_bits limits)
  then ∃ r, BigNat.multiply x y (input_max_bits limits) = Ok r ∧ canonical r ∧ words_val r = v
  else BigNat.multiply x y (input_max_bits limits) = Err InputLimit.
Proof.
  intros [Hx Hxn] [Hy Hyn]. destruct Hlim as [Hl _].
  pose proof (BigNat.budget_length x _ Hx Hxn ltac:(lia)).
  pose proof (BigNat.budget_length y _ Hy Hyn ltac:(lia)).
  apply BigNat.multiply_spec; [done|done|lia|lia].
Qed.

Lemma multiply_within x y r :
  within limits x → within limits y →
  BigNat.multiply x y (input_max_bits limits) = Ok r →
  within limits r ∧ words_val r = words_val x * words_val y.
Proof.
  intros Hx Hy H. pose proof (multiply_cases x y Hx Hy) as Hc. cbn zeta in Hc.
  case_decide as Hn; [|congruence]. destruct Hc as (r' & Hr' & Hc & Hv).
  rewrite Hr' in H. injection H as <-. unfold within. rewrite Hv. done.
Qed.

Lemma multiply_err x y e :
  within limits x → within limits y →
  BigNat.multiply x y (input_max_bits limits) = Err e → e = InputLimit.
Proof.
  intros Hx Hy H. pose proof (multiply_cases x y Hx Hy) as Hc. cbn zeta in Hc.
  case_decide; [|congruence]. destruct Hc as (r' & Hr' & _). congruence.
Qed.

Lemma add_cases x y :
  within limits x → within limits y →
  let v := words_val x + words_val y in
  if decide (nbits v ≤ input_max_bits limits)
  then ∃ r, BigNat.add x y (input_max_bits limits) = Ok r ∧ canonical r ∧ words_val r = v
  else BigNat.add x y (input_max_bits limits) = Err InputLimit.
Proof.
  intros [Hx Hxn] [Hy Hyn]. destruct Hlim as [Hl _].
  pose proof (BigNat.budget_length x _ Hx Hxn ltac:(lia)).
  pose proof (BigNat.budget_length y _ Hy Hyn ltac:(lia)).
  apply BigNat.add_spec; [done|done|lia].
Qed.

Lemma rat_Q_plus a b :
  rat_wf a → rat_wf b →
  (rat_Q a + rat_Q b ==
   rat_num a * rat_den b + rat_num b * rat_den a # Z.to_pos (rat_den a * rat_den b))%Q.
Proof.
  intros Ha Hb. pose proof (wf_positive a Ha). pose proof (wf_positive b Hb).
  unfold rat_Q, Qplus. cbn [Qnum Qden]. by rewrite Z2Pos.inj_mul, !Z2Pos.id.
Qed.

(** The signed sum of two magnitudes, as [checked_add] computes it. *)
Definition signed_sum (na nb : bool) (left right : list Z)
  : Result ExactInputError (bool * list Z) :=
  if Bool.eqb na nb then
    sum ← BigNat.add left right (input_max_bits limits); Ok (na, sum)
  else match BigNat.compare left right with
       | Lt => Ok (nb, BigNat.subtract right left)
       | _ => Ok (na, BigNat.subtract left right)
       end.

Lemma signed_sum_spec na nb x y neg num :
  within limits x → within limits y → signed_sum na nb x y = Ok (neg, num) →
  canonical num ∧ signed neg (words_val num) = signed na (words_val x) + signed nb (words_val y).
Proof.
  intros Hx Hy H. unfold signed_sum in H. destruct (Bool.eqb na nb) eqn:E.
  - apply eqb_prop in E as ->. apply bind_ok in H as (s & Hs & [= <- <-]).
    pose proof (add_cases x y Hx Hy) as Hc. cbn zeta in Hc. case_decide; [|congruence].
    destruct Hc as (s' & Hs' & Hc & Hv). rewrite Hs' in Hs. injection Hs as <-.
    split; [done|]. rewrite Hv. destruct nb; cbn [signed]; lia.
  - apply eqb_false_iff in E. destruct Hx as [Hx _], Hy as [Hy _].
    rewrite BigNat.compare_spec in H by done.
    destruct (Z.compare_spec (words_val x) (words_val y)); injection H as <- <-;
      [destruct (BigNat.subtract_spec x y (proj1 Hx) (proj1 Hy) ltac:(lia)) as [? Hv]
      |destruct (BigNat.subtract_spec y x (proj1 Hy) (proj1 Hx) ltac:(lia)) as [? Hv]
      |destruct (BigNat.subtract_spec x y (proj1 Hx) (proj1 Hy) ltac:(lia)) as [? Hv]];
      (split; [done|]); rewrite Hv; destruct na, nb; cbn [signed]; lia || done.
Qed.

Lemma signed_sum_err na nb x y e :
  within limits x → within limits y → signed_sum na nb x y = Err e → e = InputLimit.
Proof.
  intros Hx Hy H. unfold signed_sum in H. case_match; [|repeat case_match; congruence].
  apply bind_err in H as [H|(? & _ & ?)]; [|congruence].
  pose proof (add_cases x y Hx Hy) as Hc. cbn zeta in Hc. case_decide; [|congruence].
  destruct Hc as (? & ? & _). congruence.
Qed.

Lemma signed_sum_total na nb x y :
  within limits x → within limits y →
  nbits (words_val x + words_val y) ≤ input_max_bits limits →
  ∃ neg num, signed_sum na nb x y = Ok (neg, num).
Proof.
  intros Hx Hy Hn. unfold signed_sum. case_match; [|case_match; by do 2 eexists].
  pose proof (add_cases x y Hx Hy) as Hc. cbn zeta in Hc. rewrite decide_True in Hc by done.
  destruct Hc as (s & -> & _). by do 2 eexists.
Qed.

(** ** Soundness: the result of an operation is exact *)

Lemma add_sound a b r :
  rat_wf a → rat_wf b → Exact.checked_add a b limits = Ok r →
  rat_wf r ∧ (rat_Q r == rat_Q a + rat_Q b)%Q.
Proof.
  intros Ha Hb H. unfold Exact.checked_add in H.
  apply bind_ok in H as ([] & [Hna Hda]%check_limit_ok & H); [|done].
  apply bind_ok in H as ([] & [Hnb Hdb]%check_limit_ok & H); [|done].
  apply bind_ok in H as (x & [Hx Hxv]%multiply_within & H); [|done..].
  apply bind_ok in H as (y & [Hy Hyv]%multiply_within & H); [|done..].
  apply bind_ok in H as (d & [Hd Hdv]%multiply_within & H); [|done..].
  apply bind_ok in H as ([neg num] & [Hc Hs]%signed_sum_spec & H); [|done..].
  pose proof (wf_positive a Ha) as Hap. pose proof (wf_positive b Hb) as Hbp.
  unfold rat_den in Hap, Hbp.
  apply reduce_spec in H as [Hr Hv]; [|done|done|apply Hd|nia].
  split; [done|]. rewrite Hv, rat_Q_plus, Hdv, Hs, Hxv, Hyv by done.
  unfold rat_num, rat_den. destruct (negative a), (negative b); cbn [signed]; f_equiv; lia.
Qed.

Lemma mul_sound a b r :
  rat_wf a → rat_wf b → Exact.checked_mul a b limits = Ok r →
  rat_wf r ∧ (rat_Q r == rat_Q a * rat_Q b)%Q.
Proof.
  intros Ha Hb H. unfold Exact.checked_mul in H.
  apply bind_ok in H as ([] & [Hna Hda]%check_limit_ok & H); [|done].
  apply bind_ok in H as ([] & [Hnb Hdb]%check_limit_ok & H); [|done].
  apply bind_ok in H as (n & [Hn Hnv]%multiply_within & H); [|done..].
  apply bind_ok in H as (d & [Hd Hdv]%multiply_within & H); [|done..].
  pose proof (wf_positive a Ha) as Hap. pose proof (wf_positive b Hb) as Hbp.
  unfold rat_den in Hap, Hbp.
  apply reduce_spec in H as [Hr Hv]; [|done|apply Hn|apply Hd|nia].
  split; [done|]. rewrite Hv, Hdv, Hnv. unfold rat_Q, Qmult, rat_num, rat_den. cbn [Qnum Qden].
  rewrite Z2Pos.inj_mul by done.
  destruct (negative a), (negative b); cbn [signed Bool.eqb negb]; f_equiv; lia.
Qed.

Lemma negated_sound b : rat_wf b → rat_wf (Exact.negated b) ∧ (rat_Q (Exact.negated b) == - rat_Q b)%Q.
Proof.
  intros Hb. unfold Exact.negated, Exact.is_zero. case_bool_decide as Hz; cbn [negb].
  - split; [done|]. unfold rat_Q, rat_num. rewrite Hz. destruct (negative b); done.
  - split; [by destruct Hb; split; cbn|]. unfold rat_Q, Qopp, rat_num, rat_den. cbn.
    destruct (negative b); cbn [signed negb]; f_equiv; lia.
Qed.

Lemma sub_sound a b r :
  rat_wf a → rat_wf b → Exact.checked_sub a b limits = Ok r →
  rat_wf r ∧ (rat_Q r == rat_Q a - rat_Q b)%Q.
Proof.
  intros Ha Hb H. destruct (negated_sound b Hb) as [Hn Hv].
  apply add_sound in H as [Hr ->]; [|done|done]. split; [done|]. by rewrite Hv.
Qed.

Lemma div_sound a b r :
  rat_wf a → rat_wf b → Exact.checked_div a b limits = Ok r →
  rat_wf r ∧ ¬ (rat_Q b == 0)%Q ∧ (rat_Q r == rat_Q a / rat_Q b)%Q.
Proof.
  intros Ha Hb H. unfold Exact.checked_div, Exact.is_zero in H. case_bool_decide as Hz; [done|].
  apply bind_ok in H as ([] & [Hna Hda]%check_limit_ok & H); [|done].
  apply bind_ok in H as ([] & [Hnb Hdb]%check_limit_ok & H); [|done].
  apply bind_ok in H as (n & [Hn Hnv]%multiply_within & H); [|done..].
  apply bind_ok in H as (d & [Hd Hdv]%multiply_within & H); [|done..].
  pose proof (wf_positive a Ha) as Hap. pose proof (wf_positive b Hb) as Hbp.
  pose proof (canonical_val_pos _ (wf_numerator b Hb) Hz) as Hb0.
  unfold rat_den in Hap, Hbp.
  apply reduce_spec in H as [Hr Hv]; [|done|apply Hn|apply Hd|nia].
  assert (¬ (rat_Q b == 0)%Q) as Hne.
  { unfold rat_Q, Qeq, rat_num. cbn. destruct (negative b); cbn [signed]; lia. }
  split; [done|]. split; [done|]. rewrite Hv, Hdv, Hnv.
  apply (Qmult_inj_r _ _ (rat_Q b) Hne).
  unfold Qdiv. rewrite <- Qmult_assoc, (Qmult_comm (/ _)), Qmult_inv_r, Qmult_1_r by done.
  unfold rat_Q, rat_num, rat_den, Qmult, Qeq. cbn [Qnum Qden].
  rewrite <- Z2Pos.inj_mul, !Z2Pos.id by nia.
  destruct (negative a), (negative b); cbn [signed Bool.eqb negb]; lia.
Qed.
End arithmetic_lemmas.

(** ** Errors and sufficient budgets *)

Section budget_lemmas.
Context (limits : ExactInputLimits) (Hlim : limits_ok limits).
Implicit Types a b : ExactRational.

Lemma reduce_err neg n d e : Exact.reduce neg n d limits = Err e → e = InputLimit.
Proof.
  unfold Exact.reduce. case_match; [done|].
  intros [?|(? & _ & ?)]%bind_err; [eauto using gcd_err|congruence].
Qed.

Lemma nbits_mul x y : 0 ≤ x → 0 ≤ y → nbits (x * y) ≤ nbits x + nbits y.
Proof.
  intros Hx Hy. pose proof (nbits_nonneg x). pose proof (nbits_nonneg y).
  apply nbits_le_iff; [nia|lia|]. rewrite Z.pow_add_r by done.
  pose proof (nbits_spec x Hx). pose proof (nbits_spec y Hy). nia.
Qed.

Lemma nbits_add x y k : 0 ≤ x → 0 ≤ y → nbits x ≤ k → nbits y ≤ k → nbits (x + y) ≤ k + 1.
Proof.
  intros Hx Hy Hxk Hyk. pose proof (nbits_nonneg x). assert (0 ≤ k) by lia.
  apply nbits_le_iff in Hxk; [|lia..]. apply nbits_le_iff in Hyk; [|lia..].
  apply nbits_le_iff; [lia|lia|]. rewrite Z.pow_add_r by lia. lia.
Qed.

(** Both components of [r] have at most [k] bits. *)
Definition size_le (k : Z) (r : ExactRational) : Prop :=
  nbits (words_val (numerator r)) ≤ k ∧ nbits (rat_den r) ≤ k.

Lemma check_limit_total k a :
  rat_wf a → size_le k a → k ≤ input_max_bits limits → Exact.check_limit a limits = Ok tt.
Proof.
  intros Ha [Hn Hd] Hk. apply check_limit_ok; [done|]. unfold rat_den in Hd.
  split; (split; [apply Ha|lia]).
Qed.

Lemma size_within k a :
  rat_wf a → size_le k a → k ≤ input_max_bits limits →
  within limits (numerator a) ∧ within limits (denominator a).
Proof. intros Ha Hs Hk. eapply check_limit_ok; eauto using check_limit_total. Qed.

Lemma multiply_total k x y :
  within limits x → within limits y → nbits (words_val x) ≤ k → nbits (words_val y) ≤ k →
  2 * k ≤ input_max_bits limits →
  ∃ r, BigNat.multiply x y (input_max_bits limits) = Ok r ∧ within limits r ∧
       words_val r = words_val x * words_val y ∧ nbits (words_val r) ≤ 2 * k.
Proof.
  intros Hx Hy Hxk Hyk Hk.
  pose proof (nbits_mul (words_val x) (words_val y)
    (words_val_nonneg x (proj1 (proj1 Hx))) (words_val_nonneg y (proj1 (proj1 Hy)))).
  pose proof (multiply_cases limits Hlim x y Hx Hy) as Hc. cbn zeta in Hc.
  rewrite decide_True in Hc by lia. destruct Hc as (r & Hr & Hc & Hv).
  exists r. rewrite Hv. repeat split; try done; try apply Hc; rewrite ?Hv; lia.
Qed.

Lemma size_le_nonneg k a : size_le k a → 0 ≤ k.
Proof. intros [H _]. pose proof (nbits_nonneg (words_val (numerator a))). lia. Qed.

Lemma add_total k a b :
  rat_wf a → rat_wf b → size_le k a → size_le k b →
  2 * k + 1 ≤ input_max_bits limits → 4 * k + 1 ≤ input_max_gcd_steps limits →
  ∃ r, Exact.checked_add a b limits = Ok r.
Proof.
  intros Ha Hb Hka Hkb Hm Hs. pose proof (size_le_nonneg k a Hka).
  unfold Exact.checked_add. rewrite !(check_limit_total k) by (done || lia). rewrite !Ok_bind.
  destruct (size_within k a Ha Hka) as [Hna Hda]; [lia|].
  destruct (size_within k b Hb Hkb) as [Hnb Hdb]; [lia|].
  destruct Hka as [Hka1 Hka2], Hkb as [Hkb1 Hkb2]. unfold rat_den in *.
  destruct (multiply_total k _ _ Hna Hdb) as (x & -> & Hx & _ & Hxn); [lia..|].
  destruct (multiply_total k _ _ Hnb Hda) as (y & -> & Hy & _ & Hyn); [lia..|].
  destruct (multiply_total k _ _ Hda Hdb) as (d & -> & Hd & Hdv & Hdn); [lia..|].
  rewrite !Ok_bind. pose proof (words_val_nonneg x (proj1 (proj1 Hx))).
  pose proof (words_val_nonneg y (proj1 (proj1 Hy))).
  pose proof (nbits_add (words_val x) (words_val y) (2 * k)).
  destruct (signed_sum_total limits Hlim (negative a) (negative b) x y Hx Hy) as (neg & num & E);
    [lia|]. unfold signed_sum in E. rewrite E, Ok_bind.
  destruct (signed_sum_spec limits Hlim _ _ x y neg num Hx Hy E) as [Hc Hv].
  pose proof (words_val_nonneg num (proj1 Hc)). pose proof (wf_positive a Ha).
  pose proof (wf_positive b Hb). unfold rat_den in *.
  assert (nbits (words_val num) ≤ 2 * k + 1).
  { transitivity (nbits (words_val x + words_val y)); [apply nbits_mono|lia].
    destruct neg, (negative a), (negative b); cbn [signed] in Hv; lia. }
  apply reduce_total; [done|done|apply Hd|nia|lia|lia].
Qed.

Lemma mul_total k a b :
  rat_wf a → rat_wf b → size_le k a → size_le k b →
  2 * k ≤ input_max_bits limits → 4 * k ≤ input_max_gcd_steps limits →
  ∃ r, Exact.checked_mul a b limits = Ok r.
Proof.
  intros Ha Hb Hka Hkb Hm Hs. pose proof (size_le_nonneg k a Hka).
  unfold Exact.checked_mul. rewrite !(check_limit_total k) by (done || lia). rewrite !Ok_bind.
  destruct (size_within k a Ha Hka) as [Hna Hda]; [lia|].
  destruct (size_within k b Hb Hkb) as [Hnb Hdb]; [lia|].
  destruct Hka as [Hka1 Hka2], Hkb as [Hkb1 Hkb2]. unfold rat_den in *.
  destruct (multiply_total k _ _ Hna Hnb) as (x & -> & Hx & _ & Hxn); [lia..|].
  destruct (multiply_total k _ _ Hda Hdb) as (d & -> & Hd & Hdv & Hdn); [lia..|].
  rewrite !Ok_bind. pose proof (wf_positive a Ha). pose proof (wf_positive b Hb).
  unfold rat_den in *. apply reduce_total; [done|apply Hx|apply Hd|nia|lia|lia].
Qed.

Lemma div_total k a b :
  rat_wf a → rat_wf b → numerator b ≠ [] → size_le k a → size_le k b →
  2 * k ≤ input_max_bits limits → 4 * k ≤ input_max_gcd_steps limits →
  ∃ r, Exact.checked_div a b limits = Ok r.
Proof.
  intros Ha Hb Hne Hka Hkb Hm Hs. pose proof (size_le_nonneg k a Hka).
  unfold Exact.checked_div, Exact.is_zero. rewrite bool_decide_false by done.
  rewrite !(check_limit_total k) by (done || lia). rewrite !Ok_bind.
  destruct (size_within k a Ha Hka) as [Hna Hda]; [lia|].
  destruct (size_within k b Hb Hkb) as [Hnb Hdb]; [lia|].
  destruct Hka as [Hka1 Hka2], Hkb as [Hkb1 Hkb2]. unfold rat_den in *.
  destruct (multiply_total k _ _ Hna Hdb) as (x & -> & Hx & _ & Hxn); [lia..|].
  destruct (multiply_total k _ _ Hda Hnb) as (d & -> & Hd & Hdv & Hdn); [lia..|].
  rewrite !Ok_bind. pose proof (wf_positive a Ha).
  pose proof (canonical_val_pos _ (wf_numerator b Hb) Hne).
  unfold rat_den in *. apply reduce_total; [done|apply Hx|apply Hd|nia|lia|lia].
Qed.

(** The two limit checks at the head of every operation. *)
Lemma limits_err {A} a b (k : Result ExactInputError A) e :
  (within limits (numerator a) → within limits (denominator a) →
   within limits (numerator b) → within limits (denominator b) → k = Err e → e = InputLimit) →
  rat_wf a → rat_wf b →
  (_ ← Exact.check_limit a limits; _ ← Exact.check_limit b limits; k) = Err e → e = InputLimit.
Proof.
  intros Hk Ha Hb [H|([] & [H1 H2]%check_limit_ok & H)]%bind_err; [by eapply check_limit_err| |done].
  apply bind_err in H as [H|([] & [H3 H4]%check_limit_ok & H)]; [by eapply check_limit_err| |done].
  auto.
Qed.

Lemma add_err a b e :
  rat_wf a → rat_wf b → Exact.checked_add a b limits = Err e → e = InputLimit.
Proof.
  intros Ha Hb. apply limits_err; [|done..]. intros Hna Hda Hnb Hdb H.
  apply bind_err in H as [H|(x & [Hx _]%multiply_within & H)]; [by eapply multiply_err in H| |done..].
  apply bind_err in H as [H|(y & [Hy _]%multiply_within & H)]; [by eapply multiply_err in H| |done..].
  apply bind_err in H as [H|(d & _ & H)]; [by eapply multiply_err in H|].
  apply bind_err in H as [H|([] & _ & H)]; [by eapply (signed_sum_err limits Hlim) in H|].
  by eapply reduce_err.
Qed.

Lemma mul_err a b e :
  rat_wf a → rat_wf b → Exact.checked_mul a b limits = Err e → e = InputLimit.
Proof.
  intros Ha Hb. apply limits_err; [|done..]. intros Hna Hda Hnb Hdb H.
  apply bind_err in H as [H|(x & _ & H)]; [by eapply multiply_err in H|].
  apply bind_err in H as [H|(d & _ & H)]; [by eapply multiply_err in H|].
  by eapply reduce_err.
Qed.

Lemma div_err a b e :
  rat_wf a → rat_wf b → numerator b ≠ [] → Exact.checked_div a b limits = Err e → e = InputLimit.
Proof.
  intros Ha Hb Hne. unfold Exact.checked_div, Exact.is_zero. rewrite bool_decide_false by done.
  apply limits_err; [|done..]. intros Hna Hda Hnb Hdb H.
  apply bind_err in H as [H|(x & _ & H)]; [by eapply multiply_err in H|].
  apply bind_err in H as [H|(d & _ & H)]; [by eapply multiply_err in H|].
  by eapply reduce_err.
Qed.

Lemma rat_Q_zero_iff b : rat_wf b → (rat_Q b == 0)%Q ↔ numerator b = [].
Proof.
  intros Hb. unfold rat_Q, Qeq, rat_num. cbn [Qnum Qden]. split.
  - intros H. apply canonical_val_0; [apply Hb|]. destruct (negative b); cbn [signed] in H; lia.
  - intros ->. by destruct (negative b).
Qed.
End budget_lemmas.

(** ** The arithmetic contract *)

(** Checked arithmetic is exact or refuses: on targets in lowest terms, each
    operation that returns a value returns the exact sum, difference, product or
    quotient, again in lowest terms; otherwise it reports an exhausted budget,
    except that a division by zero is reported as such, and only then. *)
Theorem rational_arithmetic_exact limits a b :
  limits_ok limits → rat_wf a → rat_wf b →
  match Exact.checked_add a b limits with
  | Ok r => rat_wf r ∧ (rat_Q r == rat_Q a + rat_Q b)%Q | Err e => e = InputLimit end ∧
  match Exact.checked_sub a b limits with
  | Ok r => rat_wf r ∧ (rat_Q r == rat_Q a - rat_Q b)%Q | Err e => e = InputLimit end ∧
  match Exact.checked_mul a b limits with
  | Ok r => rat_wf r ∧ (rat_Q r == rat_Q a * rat_Q b)%Q | Err e => e = InputLimit end ∧
  match Exact.checked_div a b limits with
  | Ok r => rat_wf r ∧ ¬ (rat_Q b == 0)%Q ∧ (rat_Q r == rat_Q a / rat_Q b)%Q
  | Err DivisionByZero => (rat_Q b == 0)%Q
  | Err e => e = InputLimit ∧ ¬ (rat_Q b == 0)%Q end.
Proof.
  intros Hl Ha Hb. destruct (negated_sound b Hb) as [Hnb _].
  split; [|split; [|split]].
  - destruct (Exact.checked_add a b limits) eqn:E; [by apply (add_sound limits)|].
    by apply (add_err limits Hl) in E.
  - destruct (Exact.checked_sub a b limits) eqn:E; [by apply (sub_sound limits)|].
    by apply (add_err limits Hl) in E.
  - destruct (Exact.checked_mul a b limits) eqn:E; [by apply (mul_sound limits)|].
    by apply (mul_err limits Hl) in E.
  - destruct (decide (numerator b = [])) as [Hz|Hz].
    { unfold Exact.checked_div, Exact.is_zero. rewrite bool_decide_true by done.
      by apply rat_Q_zero_iff. }
    destruct (Exact.checked_div a b limits) eqn:E; [by apply (div_sound limits)|].
    apply (div_err limits Hl) in E as ->; [|done..].
    split; [done|]. by rewrite rat_Q_zero_iff.
Qed.

(** Concrete targets for the witnesses: 3/4 and -5/6. *)
Definition three_quarters : ExactRational := mkExactRational false [3] [4].
Definition minus_five_sixths : ExactRational := mkExactRational true [5] [6].

Ltac solve_rat_wf := split; [solve_words|solve_words|reflexivity|reflexivity|discriminate].

Lemma rational_arithmetic_exact_witness :
  Exact.checked_add three_quarters minus_five_sixths ExactInputLimits_default
    = Ok (mkExactRational true [1] [12]) ∧
  (rat_Q (mkExactRational true [1%Z] [12%Z]) == rat_Q three_quarters + rat_Q minus_five_sixths)%Q.
Proof.
  split; [vm_compute; reflexivity|].
  assert (limits_ok ExactInputLimits_default) as Hl by (split; [split|split]; done).
  assert (rat_wf three_quarters) as Ha by solve_rat_wf.
  assert (rat_wf minus_five_sixths) as Hb by solve_rat_wf.
  destruct (rational_arithmetic_exact _ _ _ Hl Ha Hb) as [H _].
  revert H. vm_compute. intros [_ H]. exact H.
Defined.

(** Budgets linear in the operands suffice: on components of at most [k] bits,
    [2 k + 1] bits and [4 k + 1] subtraction steps let every operation succeed. *)
Theorem rational_arithmetic_total limits k a b :
  limits_ok limits → rat_wf a → rat_wf b → size_le k a → size_le k b →
  2 * k + 1 ≤ input_max_bits limits → 4 * k + 1 ≤ input_max_gcd_steps limits →
  is_ok (Exact.checked_add a b limits) = true ∧
  is_ok (Exact.checked_sub a b limits) = true ∧
  is_ok (Exact.checked_mul a b limits) = true ∧
  is_ok (Exact.checked_div a b limits) = negb (Exact.is_zero b).
Proof.
  intros Hl Ha Hb Hka Hkb Hm Hs. pose proof (size_le_nonneg k a Hka).
  destruct (negated_sound b Hb) as [Hnb _].
  assert (size_le k (Exact.negated b)) as Hknb.
  { unfold Exact.negated, size_le, rat_den. case_match; cbn; apply Hkb. }
  destruct (add_total limits Hl k a b) as [? ->]; [done..|].
  unfold Exact.checked_sub. destruct (add_total limits Hl k a (Exact.negated b)) as [? ->]; [done..|].
  destruct (mul_total limits Hl k a b) as [? ->]; [done..|lia|lia|].
  split; [done|]. split; [done|]. split; [done|].
  destruct (Exact.is_zero b) eqn:Hz.
  - unfold Exact.checked_div. by rewrite Hz.
  - apply bool_decide_eq_false in Hz.
    destruct (div_total limits Hl k a b) as [? ->]; [done..|lia|lia|done].
Qed.

Lemma rational_arithmetic_total_witness :
  is_ok (Exact.checked_div three_quarters minus_five_sixths (mkExactInputLimits 0 7 13)) = true.
Proof.
  destruct (rational_arithmetic_total (mkExactInputLimits 0 7 13) 3 three_quarters minus_five_sixths)
    as (_ & _ & _ & H);
    [split; [split|split]; done|solve_rat_wf|solve_rat_wf|split; done|split; done|done|done|].
  exact H.
Defined.

(** The representation is canonical, so the derived equality of the code
    decides equality of the rationals. *)
Theorem rational_equality a b :
  rat_wf a → rat_wf b → bool_decide (a = b) = Qeq_bool (rat_Q a) (rat_Q b).
Proof.
  intros Ha Hb. destruct (Qeq_bool _ _) eqn:E.
  - apply Qeq_bool_iff in E. by apply bool_decide_true, rat_Q_inj_lemma.
  - apply bool_decide_false. intros ->. by rewrite Qeq_bool_refl in E.
Qed.

Lemma rational_equality_witness :
  bool_decide (three_quarters = minus_five_sixths) = Qeq_bool (rat_Q three_quarters) (rat_Q minus_five_sixths)
  ∧ Qeq_bool (rat_Q three_quarters) (6 # 8) = true.
Proof. split; [apply rational_equality; solve_rat_wf|reflexivity]. Defined.
