(* ===== verification/ExactInput.v ===== *)
(** * number/exact.rs, part 3: what enters the exact rationals

    The decimal parser, the conversion from binary64, the conversions from
    integers and the exact powers of two of [ExactRational] are proved exact
    here; their definitions are in [Exact]. *)

From Stdlib Require Import QArith.
From S2P Require Import Prelude Words ExactNat Float Exact.
#[local] Open Scope Z_scope.

(** ** Decimal texts *)

(** The grammar of the parser: a sign, digits, and optionally a point and digits. *)
Definition sign_text (sign : option bool) : list Ascii.ascii :=
  match sign with None => [] | Some true => ["-"%char] | Some false => ["+"%char] end.

Definition decimal_text (sign : option bool) (whole frac : list Ascii.ascii) : list Ascii.ascii :=
  sign_text sign ++ whole ++ match frac with [] => [] | _ => "."%char :: frac end.

Definition decimal_ok (whole frac : list Ascii.ascii) : Prop :=
  whole ≠ [] ∧ Forall (λ c, Exact.is_ascii_digit c = true) whole ∧
  Forall (λ c, Exact.is_ascii_digit c = true) frac.

(** Horner's rule in base ten. *)
Definition horner {I} (g : I → Z) (acc : Z) (l : list I) : Z :=
  foldl (λ acc i, acc * 10 + g i) acc l.

Definition digits_val (l : list Ascii.ascii) : Z := horner Exact.digit_value 0 l.

Section decimal_lemmas.
Context (limits : ExactInputLimits) (Hlim : limits_ok limits).
Implicit Types (c : Ascii.ascii).
Abbreviation is_digit := (λ c, Exact.is_ascii_digit c = true).

Lemma digit_value_range c : is_digit c → 0 ≤ Exact.digit_value c < 10.
Proof. unfold Exact.is_ascii_digit, Exact.digit_value. intros [??]%andb_prop. lia. Qed.

Lemma digit_not_point c : is_digit c → Ascii.eqb c "."%char = false.
Proof. intros H. destruct (Ascii.eqb_spec c "."%char) as [->|]; done. Qed.

Lemma horner_ge {I} (g : I → Z) acc (l : list I) :
  (∀ i, i ∈ l → 0 ≤ g i) → 0 ≤ acc → acc ≤ horner g acc l.
Proof.
  revert acc. induction l as [|i l IH]; intros acc Hg Ha; [done|].
  cbn [horner foldl]. pose proof (Hg i ltac:(left)).
  transitivity (acc * 10 + g i); [lia|]. apply IH; [|lia]. intros. apply Hg. by right.
Qed.

(** A loop of [mul_add_small] by ten either computes Horner's sum or reports
    that the sum exceeds the budget. *)
Lemma mul_add_loop_cases {I} (g : I → Z) (l : list I) n :
  canonical n → nbits (words_val n) ≤ input_max_bits limits →
  (∀ i, i ∈ l → 0 ≤ g i < 10) →
  let m := for_each (λ i n, BigNat.mul_add_small n 10 (g i) (input_max_bits limits)) l n in
  let v := horner g (words_val n) l in
  if decide (nbits v ≤ input_max_bits limits)
  then ∃ r, m = Ok r ∧ canonical r ∧ words_val r = v
  else m = Err InputLimit.
Proof.
  revert n. induction l as [|i l IH]; intros n Hn Hb Hg.
  { cbn [for_each horner foldl]. rewrite decide_True by done. by exists n. }
  cbn [for_each]. change (horner g (words_val n) (i :: l)) with (horner g (words_val n * 10 + g i) l).
  pose proof (Hg i ltac:(left)) as Hi. pose proof (words_val_nonneg n (proj1 Hn)).
  pose proof (horner_ge g (words_val n * 10 + g i) l) as Hmono.
  assert (words_val n * 10 + g i ≤ horner g (words_val n * 10 + g i) l) as Hle.
  { apply Hmono; [|lia]. intros j Hj. apply Hg. by right. }
  pose proof (nbits_mono (words_val n * 10 + g i) (horner g (words_val n * 10 + g i) l) ltac:(lia)).
  pose proof (BigNat.mul_add_small_spec n 10 (g i) (input_max_bits limits) Hn ltac:(lia) ltac:(lia)) as Hs.
  cbn zeta in *. destruct (decide (nbits (words_val n * 10 + g i) ≤ _)) as [Hfit|Hfit].
  - destruct Hs as (n' & -> & Hn' & Hv). rewrite Ok_bind, <- Hv.
    apply IH; [done|by rewrite Hv|]. intros j Hj. apply Hg. by right.
  - rewrite Hs, decide_False by lia. done.
Qed.

(** ** The scanning loop *)

Abbreviation scan := (for_each (Exact.scan_byte limits)).
Abbreviation state := Exact.mkDecimalScan.

Lemma scan_digits_ok l p w f d :
  Forall is_digit l → d ≤ input_max_digits limits →
  scan l (state p w f d) =
    if decide (d + Z.of_nat (length l) ≤ input_max_digits limits)
    then Ok (if p then state p w (f + Z.of_nat (length l)) (d + Z.of_nat (length l))
             else state p (w + Z.of_nat (length l)) f (d + Z.of_nat (length l)))
    else Err InputLimit.
Proof.
  intros Hl. revert w f d. induction Hl as [|c l Hc Hl IH]; intros w f d Hd.
  { cbn. rewrite decide_True by lia. rewrite !Z.add_0_r. by destruct p. }
  cbn [for_each Exact.scan_byte]. rewrite (digit_not_point c Hc), Hc. cbn [andb negb].
  destruct (Z.ltb_spec (input_max_digits limits) (d + 1)).
  { rewrite decide_False by (simpl; lia). done. }
  destruct p; rewrite Ok_bind, IH by lia; cbn [length];
    (destruct (decide (d + 1 + _ ≤ _)); [rewrite decide_True by lia|rewrite decide_False by lia; done]);
    do 2 f_equal; lia.
Qed.

Lemma scan_byte_Ok c p w f d s :
  Exact.scan_byte limits c (state p w f d) = Ok s →
  (c = "."%char ∧ p = false ∧ 0 < w ∧ s = state true w f d) ∨
  (is_digit c ∧ s = if p then state p w (f + 1) (d + 1) else state p (w + 1) f (d + 1)).
Proof.
  cbn [Exact.scan_byte]. destruct (Ascii.eqb_spec c "."%char) as [->|Hne]; cbn [andb].
  - destruct p, (Z.ltb_spec 0 w); cbn; try done. intros [= <-]. by left.
  - destruct (Exact.is_ascii_digit c) eqn:Hd; cbn [negb]; [|done].
    destruct (_ <? _); [done|]. destruct p; intros [= <-]; by right.
Qed.

Lemma scan_after_point l w f d s :
  scan l (state true w f d) = Ok s →
  Forall is_digit l ∧
  s = state true w (f + Z.of_nat (length l)) (d + Z.of_nat (length l)).
Proof.
  revert f d. induction l as [|c l IH]; intros f d H.
  { injection H as <-. split; [constructor|]. f_equal; simpl; lia. }
  cbn [for_each] in H.
  apply bind_ok in H as (s' & [(_ & Hp & _)|[Hc ->]]%scan_byte_Ok & H); [done|].
  apply IH in H as [Hl ->]. split; [by constructor|]. cbn [length]. f_equal; lia.
Qed.

Lemma scan_Ok l w d s :
  scan l (state false w 0 d) = Ok s →
  ∃ whole, Forall is_digit whole ∧
    ((l = whole ∧ s = state false (w + Z.of_nat (length whole)) 0 (d + Z.of_nat (length whole))) ∨
     ∃ frac, l = whole ++ "."%char :: frac ∧ Forall is_digit frac ∧
       0 < w + Z.of_nat (length whole) ∧
       s = state true (w + Z.of_nat (length whole)) (Z.of_nat (length frac))
             (d + Z.of_nat (length whole) + Z.of_nat (length frac))).
Proof.
  revert w d. induction l as [|c l IH]; intros w d H.
  { injection H as <-. exists []. split; [constructor|left]. rewrite !Z.add_0_r. done. }
  cbn [for_each] in H. apply bind_ok in H as (s' & [(-> & _ & Hw & ->)|[Hc ->]]%scan_byte_Ok & H).
  - apply scan_after_point in H as [Hl ->]. exists []. split; [constructor|right].
    exists l. rewrite !Z.add_0_r. done.
  - apply IH in H as (whole & Hwh & H). exists (c :: whole). split; [by constructor|].
    cbn [length].
    replace (w + Z.of_nat (S (length whole))) with (w + 1 + Z.of_nat (length whole)) by lia.
    replace (d + Z.of_nat (S (length whole))) with (d + 1 + Z.of_nat (length whole)) by lia.
    destruct H as [[-> ->]|(frac & -> & Hf & Hpos & ->)]; [by left|]. right. by exists frac.
Qed.

Lemma scan_err l s e : scan l s = Err e → e = InputLimit ∨ e = Syntax.
Proof.
  revert s. induction l as [|c l IH]; intros s H; [done|]. cbn [for_each] in H.
  apply bind_err in H as [H|(s' & _ & H)]; [|by eapply IH]. destruct s as [p w f d].
  cbn [Exact.scan_byte] in H. repeat case_match; simplify_eq; auto.
Qed.

Lemma split_sign_text s w f :
  decimal_ok w f →
  Exact.split_sign (decimal_text s w f) =
    (bool_decide (s = Some true), w ++ match f with [] => [] | _ => "."%char :: f end).
Proof.
  intros (Hw & Hdw & _). unfold decimal_text. destruct s as [[]|]; [done|done|].
  destruct w as [|c w]; [done|]. apply Forall_cons in Hdw as [Hc _].
  cbn [sign_text app]. destruct c as [[] [] [] [] [] [] [] []]; done.
Qed.

Lemma split_sign_inv text neg body :
  Exact.split_sign text = (neg, body) →
  ∃ s, text = sign_text s ++ body ∧ neg = bool_decide (s = Some true).
Proof.
  unfold Exact.split_sign. intros H.
  repeat case_match; simplify_eq; first [by exists None|by exists (Some true)|by exists (Some false)].
Qed.

Lemma filter_digits l : Forall is_digit l → List.filter Exact.is_ascii_digit l = l.
Proof. induction 1 as [|c l Hc Hl IH]; [done|]. cbn [List.filter]. by rewrite Hc, IH. Qed.

Lemma filter_digits_text w f :
  Forall is_digit w → Forall is_digit f →
  List.filter Exact.is_ascii_digit (w ++ "."%char :: f) = w ++ f.
Proof.
  intros Hw Hf. rewrite List.filter_app. cbn [List.filter]. by rewrite !filter_digits.
Qed.
End decimal_lemmas.

Section parser_lemmas.
Context (limits : ExactInputLimits) (Hlim : limits_ok limits).
Abbreviation is_digit := (λ c, Exact.is_ascii_digit c = true).
Abbreviation max := (input_max_bits limits).

(** The two powers-of-ten loops of the parser, and its final reduction. *)
Definition decimal_tail (neg : bool) (digits : list Ascii.ascii) (fraction : Z)
  : Result ExactInputError ExactRational :=
  numerator ←
    for_each (λ digit numerator, BigNat.mul_add_small numerator 10 (Exact.digit_value digit) max)
      digits [];
  _ ← BigNat.check_bits [1] max;
  denominator ← for_each (λ _ denominator, BigNat.mul_add_small denominator 10 0 max)
    (seqZ 0 fraction) [1];
  Exact.reduce neg numerator denominator limits.

Lemma horner_pow acc l : horner (λ _ : Z, 0) acc l = acc * 10 ^ Z.of_nat (length l).
Proof.
  revert acc. induction l as [|i l IH]; intros acc; [cbn; lia|].
  change (horner _ acc (i :: l)) with (horner (λ _ : Z, 0) (acc * 10 + 0) l).
  rewrite IH. cbn [length]. rewrite Nat2Z.inj_succ, Z.pow_succ_r by lia. lia.
Qed.

Lemma numerator_loop digits :
  Forall is_digit digits →
  let m := for_each (λ d n, BigNat.mul_add_small n 10 (Exact.digit_value d) max) digits [] in
  if decide (nbits (digits_val digits) ≤ max)
  then ∃ r, m = Ok r ∧ canonical r ∧ words_val r = digits_val digits
  else m = Err InputLimit.
Proof.
  intros Hd. apply (mul_add_loop_cases limits Exact.digit_value digits []).
  - apply canonical_nil.
  - destruct Hlim. cbn. lia.
  - intros c Hc. apply digit_value_range. revert c Hc. by apply Forall_forall.
Qed.

Lemma denominator_loop n :
  1 ≤ max →
  let m := for_each (λ _ d, BigNat.mul_add_small d 10 0 max) (seqZ 0 (Z.of_nat n)) [1] in
  if decide (nbits (10 ^ Z.of_nat n) ≤ max)
  then ∃ r, m = Ok r ∧ canonical r ∧ words_val r = 10 ^ Z.of_nat n
  else m = Err InputLimit.
Proof.
  intros H1.
  pose proof (mul_add_loop_cases limits (λ _ : Z, 0) (seqZ 0 (Z.of_nat n)) [1]
    canonical_one H1 ltac:(intros; lia)) as H.
  rewrite horner_pow, length_seqZ, Nat2Z.id in H.
  replace (words_val [1] * 10 ^ Z.of_nat n) with (10 ^ Z.of_nat n) in H by (cbn [words_val]; lia).
  done.
Qed.

Lemma decimal_tail_spec neg digits n :
  Forall is_digit digits →
  match decimal_tail neg digits (Z.of_nat n) with
  | Ok r => rat_wf r ∧
      (rat_Q r == signed neg (digits_val digits) # Z.to_pos (10 ^ Z.of_nat n))%Q
  | Err e => e = InputLimit
  end.
Proof.
  intros Hd. unfold decimal_tail. pose proof (numerator_loop digits Hd) as Hn. cbn zeta in Hn.
  case_decide; [|by rewrite Hn]. destruct Hn as (num & -> & Hnc & Hnv). rewrite Ok_bind.
  destruct (BigNat.check_bits [1] max) as [[]|] eqn:E1; [|by apply check_bits_err in E1 as ->].
  apply BigNat.check_bits_Ok in E1; [|apply canonical_one]. rewrite Ok_bind.
  pose proof (denominator_loop n E1) as Hden. cbn zeta in Hden.
  case_decide; [|by rewrite Hden]. destruct Hden as (den & -> & Hdc & Hdv). rewrite Ok_bind.
  assert (0 < words_val den) by (rewrite Hdv; apply Z.pow_pos_nonneg; lia).
  destruct (Exact.reduce neg num den limits) as [r|e] eqn:Er.
  - rewrite <- Hnv, <- Hdv. by apply (reduce_spec neg num den limits).
  - by eapply reduce_err.
Qed.

Lemma decimal_tail_total neg digits n :
  Forall is_digit digits →
  nbits (digits_val digits) ≤ max → nbits (10 ^ Z.of_nat n) ≤ max →
  nbits (digits_val digits) + nbits (10 ^ Z.of_nat n) ≤ input_max_gcd_steps limits →
  ∃ r, decimal_tail neg digits (Z.of_nat n) = Ok r.
Proof.
  intros Hd Hb1 Hb2 Hs. unfold decimal_tail.
  assert (0 < 10 ^ Z.of_nat n) as Hp by (apply Z.pow_pos_nonneg; lia).
  pose proof (nbits_pos _ Hp).
  pose proof (numerator_loop digits Hd) as Hn. cbn zeta in Hn.
  rewrite decide_True in Hn by done. destruct Hn as (num & -> & Hnc & Hnv). rewrite Ok_bind.
  rewrite (proj2 (BigNat.check_bits_Ok [1] max canonical_one)), Ok_bind by (change (words_val [1]) with 1; cbn; lia).
  pose proof (denominator_loop n ltac:(lia)) as Hden. cbn zeta in Hden.
  rewrite decide_True in Hden by done. destruct Hden as (den & -> & Hdc & Hdv). rewrite Ok_bind.
  apply reduce_total; rewrite ?Hdv, ?Hnv; done || lia.
Qed.

(** On a text of the grammar the parser counts the digits and then runs its
    loops. *)
Lemma from_decimal_text s w f :
  decimal_ok w f →
  let text := String.string_of_list_ascii (decimal_text s w f) in
  Exact.from_decimal_str text limits =
    if decide (Z.of_nat (length w + length f) ≤ input_max_digits limits)
    then decimal_tail (bool_decide (s = Some true)) (w ++ f) (Z.of_nat (length f))
    else Err InputLimit.
Proof.
  intros Hok. unfold Exact.from_decimal_str. rewrite String.list_ascii_of_string_of_list_ascii.
  pose proof Hok as (Hw & Hdw & Hdf).
  assert (Z.of_nat (length (decimal_text s w f)) =
    Z.of_nat (length (sign_text s)) + Z.of_nat (length w)
    + (if decide (f = []) then 0 else 1 + Z.of_nat (length f))) as Hlen.
  { unfold decimal_text. rewrite !length_app. destruct f; cbn [length]; case_decide; done || lia. }
  assert (0 ≤ Z.of_nat (length (sign_text s)) ≤ 1) by (destruct s as [[]|]; cbn; lia).
  assert (0 < Z.of_nat (length w)) by (destruct w; cbn; done || lia).
  destruct (Z.ltb_spec (input_max_digits limits)
    (saturating_sub (Z.of_nat (length (decimal_text s w f))) 2)) as [Hbig|Hsmall].
  { rewrite decide_False; [done|]. unfold saturating_sub in Hbig.
    destruct (decide (f = [])) as [->|]; cbn [length]; lia. }
  rewrite split_sign_text by done. destruct Hlim as (_ & _ & Hdig).
  assert (∀ x, 0 < x → (x =? 0) = false) as Hnz by (intros x Hx; apply Z.eqb_neq; lia).
  destruct f as [|c f].
  - rewrite app_nil_r, scan_digits_ok by done. cbn [length]. rewrite Nat.add_0_r, Z.add_0_l.
    destruct (decide (Z.of_nat (length w) ≤ _)); [rewrite Ok_bind|done].
    cbn [orb andb]. rewrite Hnz by done.
    rewrite filter_digits by done. done.
  - set (frac := c :: f) in *.
    rewrite for_each_app, scan_digits_ok by done. rewrite Z.add_0_l.
    destruct (decide (Z.of_nat (length w) ≤ input_max_digits limits));
      [|rewrite decide_False by lia; done].
    rewrite Ok_bind. cbn [for_each Exact.scan_byte]. rewrite (proj2 (Z.ltb_lt 0 _)) by done.
    cbn [Ascii.eqb Bool.eqb andb negb]. rewrite Ok_bind, scan_digits_ok, Z.add_0_l by done.
    replace (Z.of_nat (length w) + Z.of_nat (length frac))
      with (Z.of_nat (length w + length frac)) by lia.
    destruct (decide (Z.of_nat (length w + _) ≤ _)); [rewrite Ok_bind|done].
    rewrite (Hnz (Z.of_nat (length w))), (Hnz (Z.of_nat (length frac))) by (done || subst frac; simpl; lia).
    cbn [orb andb]. by rewrite filter_digits_text.
Qed.

(** The parser only accepts texts of the grammar. *)
Lemma from_decimal_str_grammar text r :
  Exact.from_decimal_str text limits = Ok r →
  ∃ s w f, decimal_ok w f ∧ String.list_ascii_of_string text = decimal_text s w f.
Proof.
  intros H. unfold Exact.from_decimal_str in H. destruct (_ <? _); [done|].
  destruct (Exact.split_sign _) as [neg body] eqn:Es.
  apply split_sign_inv in Es as (s & -> & _).
  apply bind_ok in H as ([point whole fraction digits] & Hscan & H).
  destruct ((whole =? 0) || (point && (fraction =? 0))) eqn:Echeck; [done|]. clear H.
  apply orb_false_iff in Echeck as [Hw0%Z.eqb_neq Hf0].
  apply scan_Ok in Hscan as (w & Hdw & [[-> [= -> -> -> _]]|(f & -> & Hdf & _ & [= -> -> -> _])]).
  - exists s, w, []. split; [split; [by intros ->|by split]|]. unfold decimal_text.
    by rewrite app_nil_r.
  - apply Z.eqb_neq in Hf0. exists s, w, f.
    split; [split; [by intros ->|by split]|]. unfold decimal_text. by destruct f.
Qed.

Lemma from_decimal_str_err text e :
  Exact.from_decimal_str text limits = Err e → e = InputLimit ∨ e = Syntax.
Proof.
  intros H. unfold Exact.from_decimal_str in H. destruct (_ <? _); [by injection H as <-; left|].
  destruct (Exact.split_sign _) as [neg body] eqn:Es.
  apply bind_err in H as [H|([point whole fraction digits] & Hscan & H)]; [by eapply scan_err|].
  destruct ((whole =? 0) || _) eqn:Echeck; [injection H as <-; by right|].
  apply split_sign_inv in Es as (s & _ & _).
  apply scan_Ok in Hscan as (w & Hdw & Hcases).
  left. pose proof (decimal_tail_spec neg) as Htail.
  destruct Hcases as [[-> [= -> -> -> _]]|(f & -> & Hdf & _ & [= -> -> -> _])].
  - specialize (Htail w 0%nat Hdw). rewrite filter_digits in H by done.
    change (decimal_tail neg w (Z.of_nat 0) = Err e) in H. by rewrite H in Htail.
  - specialize (Htail (w ++ f) (length f) ltac:(by apply Forall_app)).
    rewrite filter_digits_text in H by done.
    change (decimal_tail neg (w ++ f) (Z.of_nat (length f)) = Err e) in H. by rewrite H in Htail.
Qed.
End parser_lemmas.

Lemma from_decimal_str_lemma limits text :
  limits_ok limits →
  match Exact.from_decimal_str text limits with
  | Ok r => rat_wf r ∧ ∃ s w f, decimal_ok w f ∧
      String.list_ascii_of_string text = decimal_text s w f ∧
      (rat_Q r == signed (bool_decide (s = Some true)) (digits_val (w ++ f))
                    # Z.to_pos (10 ^ Z.of_nat (length f)))%Q
  | Err Syntax => ¬ ∃ s w f, decimal_ok w f ∧
      String.list_ascii_of_string text = decimal_text s w f
  | Err e => e = InputLimit
  end.
Proof.
  intros Hl.
  assert (∀ s w f, decimal_ok w f → String.list_ascii_of_string text = decimal_text s w f →
    match Exact.from_decimal_str text limits with
    | Ok r => rat_wf r ∧ (rat_Q r == signed (bool_decide (s = Some true)) (digits_val (w ++ f))
                    # Z.to_pos (10 ^ Z.of_nat (length f)))%Q
    | Err e => e = InputLimit end) as Hgood.
  { intros s w f Hok E. rewrite <- (String.string_of_list_ascii_of_string text), E.
    rewrite from_decimal_text by done. destruct (decide _); [|done].
    apply decimal_tail_spec; [done|]. destruct Hok as (_ & ? & ?). by apply Forall_app. }
  pose proof (from_decimal_str_grammar limits text) as Hgram.
  destruct (Exact.from_decimal_str text limits) as [r|e] eqn:Eq.
  - destruct (Hgram r eq_refl) as (s & w & f & Hok & E).
    destruct (Hgood s w f Hok E) as [Hr Hv]. split; [done|]. by exists s, w, f.
  - assert (e = InputLimit ∨ e = Syntax) as [->| ->] by (by eapply from_decimal_str_err); [done|].
    intros (s & w & f & Hok & E). by specialize (Hgood s w f Hok E).
Qed.

(** The decimal parser. A text it accepts is a sign, digits and an optional
    fraction, and the target is exactly the number written, in lowest terms; a
    text outside that grammar is the only one rejected as a syntax error, and
    every other failure is an exhausted budget. *)
Theorem from_decimal_str_spec limits text :
  limits_ok limits →
  match Exact.from_decimal_str text limits with
  | Ok r => rat_wf r ∧ ∃ s w f, decimal_ok w f ∧
      String.list_ascii_of_string text = decimal_text s w f ∧
      (rat_Q r == signed (bool_decide (s = Some true)) (digits_val (w ++ f))
                    # Z.to_pos (10 ^ Z.of_nat (length f)))%Q
  | Err Syntax => ¬ ∃ s w f, decimal_ok w f ∧
      String.list_ascii_of_string text = decimal_text s w f
  | Err e => e = InputLimit
  end.
Proof. apply from_decimal_str_lemma. Qed.

Lemma from_decimal_str_spec_witness :
  ∃ r, Exact.from_decimal_str "-12.50" ExactInputLimits_default = Ok r ∧
       r = mkExactRational true [25] [2] ∧ rat_wf r.
Proof.
  assert (limits_ok ExactInputLimits_default) as Hl by (split; [split|split]; done).
  pose proof (from_decimal_str_spec ExactInputLimits_default "-12.50" Hl) as H.
  exists (mkExactRational true [25] [2]).
  assert (Exact.from_decimal_str "-12.50" ExactInputLimits_default
          = Ok (mkExactRational true [25] [2])) as E by (vm_compute; reflexivity).
  rewrite E in H. split; [exact E|]. split; [reflexivity|]. exact (proj1 H).
Defined.

(** Budgets that suffice for a text: its digits are counted against
    [max_digits], and the integers read off it against [max_bits] and the
    subtraction steps. *)
Theorem from_decimal_str_total limits s w f :
  limits_ok limits → decimal_ok w f →
  Z.of_nat (length w + length f) ≤ input_max_digits limits →
  nbits (digits_val (w ++ f)) ≤ input_max_bits limits →
  nbits (10 ^ Z.of_nat (length f)) ≤ input_max_bits limits →
  nbits (digits_val (w ++ f)) + nbits (10 ^ Z.of_nat (length f)) ≤ input_max_gcd_steps limits →
  is_ok (Exact.from_decimal_str (String.string_of_list_ascii (decimal_text s w f)) limits) = true.
Proof.
  intros Hl Hok Hd H1 H2 H3. rewrite from_decimal_text by done. rewrite decide_True by done.
  destruct Hok as (_ & ? & ?).
  destruct (decimal_tail_total limits Hl (bool_decide (s = Some true)) (w ++ f) (length f)) as [r ->];
    [by apply Forall_app|done..].
Qed.

Lemma from_decimal_str_total_witness :
  is_ok (Exact.from_decimal_str "+0.25" (mkExactInputLimits 3 7 12)) = true.
Proof.
  apply (from_decimal_str_total (mkExactInputLimits 3 7 12) (Some false) ["0"%char] ["2"%char; "5"%char]);
    [split; [split|split]; done| |done|done|done|done].
  split; [discriminate|]. split; repeat constructor.
Defined.

(** ** Binary64 *)

Section dyadic_lemmas.
Context (limits : ExactInputLimits) (Hlim : limits_ok limits).
Abbreviation max := (input_max_bits limits).

(** The end of [from_f64]: an odd significand and a power of two. *)
Definition dyadic (neg : bool) (o p : Z) : Result ExactInputError ExactRational :=
  '(numerator, denominator) ←
    (if 0 <=? p then numerator ← BigNat.shift_left [o] p max; Ok (numerator, [1])
     else denominator ← BigNat.shift_left [1] (- p) max; Ok ([o], denominator));
  _ ← BigNat.check_bits numerator max;
  _ ← BigNat.check_bits denominator max;
  Ok (mkExactRational neg numerator denominator).

(** [n * 2 ^ k] as a word vector, within the budget or not. *)
Lemma shift_word n k :
  u64 n → 0 < n → 0 ≤ k →
  if decide (nbits n + k ≤ max)
  then ∃ r, BigNat.shift_left [n] k max = Ok r ∧ within limits r ∧ words_val r = n * 2 ^ k
  else BigNat.shift_left [n] k max = Err InputLimit.
Proof.
  intros Hn Hn0 Hk. destruct Hlim as [Hmax _].
  assert (canonical [n]) as Hc by (apply canonical_singleton; [done|lia]).
  assert (words_val [n] = n) as Hv by (cbn [words_val]; lia).
  pose proof (BigNat.shift_left_spec [n] k max Hc Hk ltac:(lia)) as H. rewrite Hv in H.
  case_decide; [|done]. destruct H as (r & Hr & Hcr & Hvr). exists r.
  split; [done|]. split; [|done]. split; [done|]. rewrite Hvr, nbits_shiftl by done. done.
Qed.

Lemma odd_power_coprime o k : 0 ≤ k → Z.odd o = true → Z.gcd o (2 ^ k) = 1.
Proof.
  intros Hk Ho. rewrite Z.gcd_comm, <- (Z.mul_1_l (2 ^ k)), Z_gcd_odd by done. apply Z.gcd_1_l.
Qed.

Lemma dyadic_spec neg o p :
  u64 o → 0 < o → Z.odd o = true →
  match dyadic neg o p with
  | Ok r => rat_wf r ∧ (rat_Q r == scaleQ (signed neg o) p)%Q
  | Err e => e = InputLimit
  end.
Proof.
  intros Ho Ho0 Hodd. unfold dyadic.
  assert (canonical [o]) as Hco by (apply canonical_singleton; [done|lia]).
  destruct (Z.leb_spec 0 p) as [Hp|Hp].
  - pose proof (shift_word o p Ho Ho0 Hp) as Hs. case_decide; [|by rewrite Hs].
    destruct Hs as (r & -> & Hr & Hv). rewrite !Ok_bind, (within_check_bits limits r) by done.
    rewrite Ok_bind. destruct (BigNat.check_bits [1] max) as [[]|] eqn:E; [|by eapply check_bits_err].
    rewrite Ok_bind. assert (0 < 2 ^ p) by (apply Z.pow_pos_nonneg; lia). split.
    + split; unfold rat_den; cbn; [apply Hr|apply canonical_one|done|by rewrite Z.gcd_1_r|].
      intros ->. cbn in Hv. nia.
    + rewrite scaleQ_pos by done. unfold rat_Q, rat_num, Qeq, rat_den. cbn [numerator denominator Qnum Qden negative].
      rewrite Hv. change (words_val [1]) with 1. destruct neg; cbn [signed]; lia.
  - pose proof (shift_word 1 (- p) ltac:(split; lia) ltac:(lia) ltac:(lia)) as Hs.
    case_decide; [|by rewrite Hs]. destruct Hs as (r & -> & Hr & Hv). rewrite !Ok_bind.
    destruct (BigNat.check_bits [o] max) as [[]|] eqn:E; [|by eapply check_bits_err].
    rewrite Ok_bind, (within_check_bits limits r), Ok_bind by done. rewrite Z.mul_1_l in Hv.
    assert (0 < 2 ^ (- p)) by (apply Z.pow_pos_nonneg; lia).
    assert (words_val [o] = o) as Hvo by (cbn [words_val]; lia). split.
    + split; unfold rat_den; cbn [numerator denominator negative];
        [done|apply Hr|lia|rewrite Hv, Hvo; apply odd_power_coprime; [lia|done]|done].
    + rewrite scaleQ_neg by lia. apply rat_Q_eq; unfold rat_num, rat_den;
        cbn [numerator denominator negative]; rewrite ?Hv, ?Hvo; done.
Qed.

Lemma dyadic_total neg o p :
  u64 o → 0 < o → nbits o + Z.max p 0 ≤ max → 1 + Z.max (- p) 0 ≤ max →
  ∃ r, dyadic neg o p = Ok r.
Proof.
  intros Ho Ho0 H1 H2. unfold dyadic.
  assert (canonical [o]) as Hco by (apply canonical_singleton; [done|lia]).
  assert (words_val [o] = o) as Hvo by (cbn [words_val]; lia).
  destruct (Z.leb_spec 0 p) as [Hp|Hp].
  - pose proof (shift_word o p Ho Ho0 Hp) as Hs. rewrite decide_True in Hs by lia.
    destruct Hs as (r & -> & Hr & Hv). rewrite !Ok_bind, (within_check_bits limits r), (within_check_bits limits [1]), !Ok_bind;
      [by eexists| |done]. split; [apply canonical_one|]. change (nbits (words_val [1])) with 1. lia.
  - pose proof (shift_word 1 (- p) ltac:(split; lia) ltac:(lia) ltac:(lia)) as Hs.
    rewrite decide_True in Hs by (change (nbits 1) with 1; lia).
    destruct Hs as (r & -> & Hr & Hv). rewrite !Ok_bind, (within_check_bits limits [o]), (within_check_bits limits r), !Ok_bind;
      [by eexists|done|]. split; [done|]. rewrite Hvo. lia.
Qed.

(** Splitting off the trailing zeros of a significand. *)
Lemma odd_significand s :
  0 < s → u64 s →
  let t := trailing_zeros s in
  let o := Z.shiftr s t in
  0 ≤ t ∧ u64 o ∧ 0 < o ∧ Z.odd o = true ∧ s = o * 2 ^ t.
Proof.
  intros Hs Hu t o. destruct (trailing_zeros_spec s Hs) as (Ht & k & Hk & Es). fold t in Ht, Es.
  assert (o = 2 * k + 1) as Eo.
  { subst o. rewrite Z.shiftr_div_pow2, Es at 1 by done.
    apply Z.div_mul. pose proof (Z.pow_pos_nonneg 2 t). lia. }
  split; [done|]. split; [by apply BigNat.u64_shiftr|].
  split; [lia|]. rewrite Eo at 1. rewrite Z.add_comm, Z.odd_add_mul_2. split; [done|]. by rewrite Eo.
Qed.

Lemma from_f64_eq v :
  f64_ok v →
  Exact.from_f64 v limits =
    if negb (is_finite v) then Err NonFinite
    else let s := f64_significand v in
      if s =? 0 then _ ← BigNat.check_bits [1] max; Ok (mkExactRational false [] [1])
      else dyadic (f64_sign v) (Z.shiftr s (trailing_zeros s)) (f64_power v + trailing_zeros s).
Proof.
  intros Hv. destruct (f64_fields v Hv) as (_ & _ & Hf). unfold Exact.from_f64.
  rewrite field_exponent, field_fraction, field_sign by done.
  fold (f64_exponent v). fold (f64_fraction v). rewrite hidden_bit by done.
  unfold is_finite, f64_significand, f64_power. rewrite negb_involutive.
  destruct (f64_exponent v =? 2047); [done|].
  replace (f64_exponent v - 1023 - 52) with (f64_exponent v - 1075) by lia. done.
Qed.

Lemma f64_significand_bounds v :
  f64_ok v → 0 ≤ f64_significand v < 2 ^ 53 ∧ -1074 ≤ f64_power v ∧
  (is_finite v = true → f64_power v ≤ 971).
Proof.
  intros Hv. destruct (f64_fields v Hv) as (_ & He & Hf).
  unfold f64_significand, f64_power, is_finite. change (2 ^ 53) with (2 * 2 ^ 52).
  destruct (Z.eqb_spec (f64_exponent v) 0); (split; [lia|split; [lia|]]); [lia|].
  intros Hne%negb_true_iff%Z.eqb_neq. lia.
Qed.

Lemma scaleQ_signed neg s p :
  (scaleQ (signed neg s) p == if neg then - scaleQ s p else scaleQ s p)%Q.
Proof. destruct neg; cbn [signed]; [|reflexivity]. unfold scaleQ, Qeq; cbn [Qnum Qden Qopp]. lia. Qed.

Lemma from_f64_sound v :
  f64_ok v →
  match Exact.from_f64 v limits with
  | Ok r => is_finite v = true ∧ rat_wf r ∧ (rat_Q r == f64_Q v)%Q
  | Err e => if is_finite v then e = InputLimit else e = NonFinite
  end.
Proof.
  intros Hv. rewrite from_f64_eq by done. destruct (is_finite v); cbn [negb]; [|done].
  destruct (f64_significand_bounds v Hv) as [Hs _]. cbn zeta. unfold f64_Q. fold (signed (f64_sign v) (f64_significand v)).
  destruct (Z.eqb_spec (f64_significand v) 0) as [E|E].
  - destruct (BigNat.check_bits [1] max) eqn:Ec; [|by apply check_bits_err in Ec as ->].
    rewrite Ok_bind, E. split; [done|]. split.
    + split; cbn; [apply canonical_nil|apply canonical_one|done..].
    + unfold rat_Q, Qeq, scaleQ. cbn [Qnum Qden]. unfold rat_num. by destruct (f64_sign v).
  - destruct (odd_significand (f64_significand v)) as (Ht & Hou & Ho0 & Hodd & Es); [lia|split; lia|].
    pose proof (dyadic_spec (f64_sign v) _ (f64_power v + trailing_zeros (f64_significand v)) Hou Ho0 Hodd) as Hd.
    destruct (dyadic _ _ _); [|done]. destruct Hd as [Hr HQ]. split; [done|]. split; [done|].
    rewrite HQ. rewrite Es at 4. rewrite !scaleQ_signed. destruct (f64_sign v); by rewrite scaleQ_shift.
Qed.

Lemma from_f64_total v :
  f64_ok v → is_finite v = true → 1075 ≤ max → ∃ r, Exact.from_f64 v limits = Ok r.
Proof.
  intros Hv Hfin Hm. rewrite from_f64_eq, Hfin by done. cbn [negb]. cbn zeta.
  destruct (f64_significand_bounds v Hv) as (Hs & Hlo & Hhi). specialize (Hhi Hfin).
  destruct (Z.eqb_spec (f64_significand v) 0) as [E|E].
  - rewrite (within_check_bits limits), Ok_bind; [by eexists|].
    split; [apply canonical_one|]. change (nbits (words_val [1])) with 1. lia.
  - destruct (odd_significand (f64_significand v)) as (Ht & Hou & Ho0 & Hodd & Es); [lia|split; lia|].
    assert (nbits (f64_significand v) ≤ 53) as Hn by (apply nbits_le_iff; lia).
    rewrite Es, nbits_shiftl in Hn by done. apply dyadic_total; [done|done| |]; lia.
Qed.
End dyadic_lemmas.

(** Binary64 values enter exactly: every finite pattern, subnormals included,
    gives a target in lowest terms with the very value of the pattern; NaN and the
    infinities are rejected, and 1075 bits are enough for all finite values. *)
Theorem from_f64_exact limits v :
  limits_ok limits → f64_ok v →
  match Exact.from_f64 v limits with
  | Ok r => is_finite v = true ∧ rat_wf r ∧ (rat_Q r == f64_Q v)%Q
  | Err e => if is_finite v then e = InputLimit ∧ input_max_bits limits < 1075 else e = NonFinite
  end.
Proof.
  intros Hl Hv. pose proof (from_f64_sound limits Hl v Hv) as Hs.
  pose proof (from_f64_total limits Hl v Hv) as Ht.
  destruct (Exact.from_f64 v limits); [done|]. destruct (is_finite v); [|done].
  split; [done|]. destruct (Z.lt_ge_cases (input_max_bits limits) 1075); [done|].
  destruct Ht; done.
Qed.

Lemma from_f64_exact_witness :
  Exact.from_f64 (from_bits 0xC004000000000000) ExactInputLimits_default
    = Ok (mkExactRational true [5] [2]) ∧
  (rat_Q (mkExactRational true [5%Z] [2%Z]) == f64_Q (from_bits 0xC004000000000000))%Q.
Proof.
  split; [vm_compute; reflexivity|].
  assert (limits_ok ExactInputLimits_default) as Hl by (split; [split|split]; done).
  assert (f64_ok (from_bits 0xC004000000000000)) as Hv by (split; done).
  pose proof (from_f64_exact _ _ Hl Hv) as H.
  assert (Exact.from_f64 (from_bits 0xC004000000000000) ExactInputLimits_default
          = Ok (mkExactRational true [5] [2])) as E by (vm_compute; reflexivity).
  rewrite E in H. exact (proj2 (proj2 H)).
Defined.

(** ** Integers and powers of two *)

Lemma natural_spec ws :
  canonical ws → rat_wf (Exact.natural ws) ∧ (rat_Q (Exact.natural ws) == inject_Z (words_val ws))%Q.
Proof.
  intros Hc. split; [|reflexivity].
  split; cbn; [done|apply canonical_one|done|apply Z.gcd_1_r|done].
Qed.

Lemma from_i64_lemma v :
  -9223372036854775808 ≤ v < 9223372036854775808 →
  rat_wf (Exact.from_i64 v) ∧ rat_num (Exact.from_i64 v) = v ∧ rat_den (Exact.from_i64 v) = 1.
Proof.
  intros Hv. unfold Exact.from_i64, rat_num, rat_den.
  destruct (Z.eqb_spec v 0) as [->|Hne].
  { split; [|done]. split; cbn; [apply canonical_nil|apply canonical_one|done..]. }
  cbn [numerator denominator negative words_val]. split.
  - split; unfold rat_den; cbn [numerator denominator negative words_val]; [|apply canonical_one|done| |done].
    + apply canonical_singleton; [split; lia|lia].
    + apply Z.gcd_1_r.
  - split; [|done]. destruct (Z.ltb_spec v 0); cbn [signed]; lia.
Qed.

Lemma denominator_one r : rat_wf r → denominator r = [1] ↔ rat_den r = 1.
Proof.
  intros Hr. unfold rat_den. split; [by intros ->|]. intros H.
  apply words_val_inj; [apply Hr|apply canonical_one|]. by rewrite H.
Qed.

Lemma check_limit_cases r limits :
  rat_wf r →
  match Exact.check_limit r limits with
  | Ok _ => within limits (numerator r) ∧ within limits (denominator r)
  | Err e => e = InputLimit
  end.
Proof.
  intros Hr. destruct (Exact.check_limit r limits) as [[]|] eqn:E.
  - by apply check_limit_ok in E.
  - by apply check_limit_err in E.
Qed.

(** The exponent word of [checked_exp2]: longer numerators are out of budget. *)
Lemma exp2_power limits r :
  limits_ok limits → canonical (numerator r) →
  let m := exponent ← match numerator r with [] => Ok 0 | [w] => Ok w | _ => Err InputLimit end;
           BigNat.shift_left [1] exponent (input_max_bits limits) in
  match m with
  | Ok p => within limits p ∧ words_val p = 2 ^ words_val (numerator r)
  | Err e => e = InputLimit
  end.
Proof.
  intros Hl Hn m. subst m.
  assert (∀ k, 0 ≤ k → match BigNat.shift_left [1] k (input_max_bits limits) with
    | Ok p => within limits p ∧ words_val p = 2 ^ k | Err e => e = InputLimit end) as Hs.
  { intros k Hk.
    pose proof (shift_word limits Hl 1 k ltac:(split; lia) ltac:(lia) Hk) as H.
    case_decide; [|by rewrite H]. destruct H as (p & -> & Hp & Hv). by rewrite Hv, Z.mul_1_l. }
  destruct (numerator r) as [|w [|w' ws]]; [exact (Hs 0 ltac:(lia))| |done].
  rewrite Ok_bind. cbn [words_val]. rewrite Z.mul_0_r, Z.add_0_r. apply Hs.
  apply (Forall_cons_1 _ _ _ (proj1 Hn)).
Qed.

Lemma checked_exp2_lemma limits r :
  limits_ok limits → rat_wf r →
  match Exact.checked_exp2 r limits with
  | Ok p => rat_wf p ∧ rat_den r = 1 ∧ (rat_Q p == scaleQ 1 (rat_num r))%Q
  | Err NonIntegralExponent => rat_den r ≠ 1
  | Err e => e = InputLimit
  end.
Proof.
  intros Hl Hr. unfold Exact.checked_exp2.
  pose proof (check_limit_cases r limits Hr) as Hc.
  destruct (Exact.check_limit r limits) as [u|e]; [rewrite Ok_bind|by subst e].
  pose proof (denominator_one r Hr) as Hd1. case_bool_decide as Hd; cbn [negb]; [|tauto].
  pose proof (exp2_power limits r Hl (wf_numerator r Hr)) as Hp. cbn zeta in Hp.
  destruct (match numerator r with [] => _ | _ => _ end) as [k|e]; [rewrite Ok_bind; cbn [mbind Result_bind] in Hp|change (e = InputLimit) in Hp; by subst e].
  destruct (BigNat.shift_left _ _ _) as [p|e]; [rewrite Ok_bind|by subst e].
  destruct Hp as [[Hpc _] Hpv].
  pose proof (words_val_nonneg _ (proj1 (wf_numerator r Hr))).
  assert (0 < 2 ^ words_val (numerator r)) by (apply Z.pow_pos_nonneg; lia).
  rewrite <- Hd1. unfold rat_num. destruct (negative r) eqn:Hneg; cbn [signed].
  - split; [|split; [done|]].
    + split; unfold rat_den; cbn [numerator denominator negative];
        [apply canonical_one|done|lia|apply Z.gcd_1_l|done].
    + rewrite scaleQ_neg by lia. rewrite Z.opp_involutive. apply rat_Q_eq;
        unfold rat_num, rat_den; cbn [numerator denominator negative signed]; rewrite ?Hpv; try done.
  - destruct (natural_spec p Hpc) as [Hw HQ]. split; [done|]. split; [done|].
    rewrite HQ, scaleQ_pos, Hpv by lia. by rewrite Z.mul_1_l.
Qed.

(** [checked_exp2] computes the exact power of two of an integer target and
    refuses exactly the targets that are not integers, budgets apart. *)
Theorem checked_exp2_exact limits r :
  limits_ok limits → rat_wf r →
  match Exact.checked_exp2 r limits with
  | Ok p => rat_wf p ∧ rat_den r = 1 ∧ (rat_Q p == scaleQ 1 (rat_num r))%Q
  | Err NonIntegralExponent => rat_den r ≠ 1
  | Err e => e = InputLimit
  end.
Proof. apply checked_exp2_lemma. Qed.

Lemma checked_exp2_exact_witness :
  Exact.checked_exp2 (mkExactRational true [70] [1]) ExactInputLimits_default
    = Ok (mkExactRational false [1] [0; 64]) ∧
  (rat_Q (mkExactRational false [1%Z] [0%Z; 64%Z]) == scaleQ 1 (-70))%Q.
Proof.
  assert (Exact.checked_exp2 (mkExactRational true [70] [1]) ExactInputLimits_default
    = Ok (mkExactRational false [1] [0; 64])) as E by (vm_compute; reflexivity).
  split; [exact E|].
  assert (limits_ok ExactInputLimits_default) as Hl by (split; [split|split]; done).
  pose proof (checked_exp2_exact _ (mkExactRational true [70] [1]) Hl ltac:(solve_rat_wf)) as H.
  rewrite E in H. exact (proj2 (proj2 H)).
Defined.

(** Machine integers, zero included, enter exactly. *)
Theorem from_i64_exact v :
  -9223372036854775808 ≤ v < 9223372036854775808 →
  rat_wf (Exact.from_i64 v) ∧ (rat_Q (Exact.from_i64 v) == inject_Z v)%Q.
Proof.
  intros Hv. destruct (from_i64_lemma v Hv) as (Hw & Hn & Hd). split; [done|].
  unfold rat_Q. by rewrite Hn, Hd.
Qed.

Lemma from_i64_exact_witness :
  (rat_Q (Exact.from_i64 (-9223372036854775808)) == inject_Z (-9223372036854775808))%Q.
Proof. apply from_i64_exact. split; [discriminate|reflexivity]. Defined.
