(* ===== verification/ExactRound.v ===== *)
(** * number/exact.rs, part 4: rounding an exact rational to binary64

    [to_f64_rounded] divides integers and rounds once. It is proved to return
    the nearest binary64 value with ties to even, to overflow and underflow
    exactly where IEEE 754 does, and to undo [from_f64]. *)

From Stdlib Require Import QArith Qabs.
From S2P Require Import Prelude Words ExactNat Float Exact ExactInput.
#[local] Open Scope Z_scope.

(** [RationalFloatError]; its variants are prefixed by [Float]. *)
Inductive RationalFloatError : Set :=
  | FloatLimit
  | FloatOverflow
  | FloatUnderflow.

#[global] Instance RationalFloatError_eq_dec : EqDecision RationalFloatError.
Proof. solve_decision. Defined.

Module Round.
Import BigNat.
Abbreviation Result := (Result RationalFloatError).

(** One bit of [rounded_quotient]'s long division. *)
Definition round_step (value divisor : list Z) (bit : Z) (state : Z * list Z)
  : Result (Z * list Z) :=
  let '(quotient, remainder) := state in
  let remainder := shift_in remainder (value_bit value bit) in
  match compare remainder divisor with
  | Lt => Ok (quotient, remainder)
  | _ =>
      let remainder := subtract remainder divisor in
      if 64 <=? bit then Err FloatLimit
      else Ok (Z.lor quotient (Z.shiftl 1 bit), remainder)
  end.

Definition rounded_quotient (value divisor : list Z) : Result Z :=
  _ ← ok_or FloatLimit (checked_add (Z.of_nat (length divisor)) 1);
  '(quotient, remainder) ←
    for_each (round_step value divisor) (reverse (seqZ 0 (bit_len value))) (0, []);
  let complement := subtract divisor remainder in
  let ordering := compare remainder complement in
  if bool_decide (ordering = Gt) ||
     (bool_decide (ordering = Eq) && negb (Z.land quotient 1 =? 0))
  then ok_or FloatLimit (checked_add quotient 1)
  else Ok quotient.

Definition i64_try_from (n : Z) : Result Z :=
  if n <? 2 ^ 63 then Ok n else Err FloatLimit.

Definition to_f64_rounded (r : ExactRational) (limits : ExactInputLimits) : Result f64 :=
  _ ← map_err (λ _, FloatLimit) (Exact.check_limit r limits);
  if Exact.is_zero r then Ok f64_zero
  else
    nbits ← i64_try_from (bit_len (numerator r));
    dbits ← i64_try_from (bit_len (denominator r));
    let exponent := nbits - dbits in
    if 1024 <? exponent then Err FloatOverflow
    else if exponent <? -1075 then Err FloatUnderflow
    else
      let shift words bits :=
        map_err (λ _, FloatLimit) (shift_left words bits (input_max_bits limits)) in
      ordering ←
        (if 0 <=? exponent
         then d ← shift (denominator r) exponent; Ok (compare (numerator r) d)
         else n ← shift (numerator r) (- exponent); Ok (compare n (denominator r)));
      let exponent := match ordering with Lt => exponent - 1 | _ => exponent end in
      if 1023 <? exponent then Err FloatOverflow
      else if exponent <? -1075 then Err FloatUnderflow
      else
        let normal := -1022 <=? exponent in
        let scaling := if normal then 52 - exponent else 1074 in
        '(num, den) ←
          (if 0 <=? scaling
           then n ← shift (numerator r) scaling; Ok (n, denominator r)
           else d ← shift (denominator r) (- scaling); Ok (numerator r, d));
        significand ← rounded_quotient num den;
        magnitude ←
          (if normal then
             let '(significand, exponent) :=
               if significand =? Z.shiftl 1 53
               then (Z.shiftr significand 1, exponent + 1) else (significand, exponent) in
             if 1023 <? exponent then Err FloatOverflow
             else Ok (Z.lor (as_u64 (Z.shiftl (exponent + 1023) 52))
                        (significand - Z.shiftl 1 52))
           else if significand =? 0 then Err FloatUnderflow
           else Ok significand);
        Ok (from_bits (Z.lor magnitude (Z.shiftl (Z.b2z (negative r)) 63))).
End Round.

(** ** Rounding to the nearest integer, ties to even *)

Definition round_half_even (a b : Z) : Z :=
  let q := a / b in
  let r := a `mod` b in
  if (b - r <? r) || ((r =? b - r) && Z.odd q) then q + 1 else q.

Lemma round_half_even_spec a b :
  0 < b → 0 ≤ a →
  let q := round_half_even a b in
  0 ≤ q ∧ a / b ≤ q ≤ a / b + 1 ∧
  2 * Z.abs (a - q * b) ≤ b ∧ (2 * Z.abs (a - q * b) = b → Z.even q = true).
Proof.
  intros Hb Ha q. pose proof (Z.div_mod a b ltac:(lia)) as Hdm.
  pose proof (Z.mod_pos_bound a b Hb). pose proof (Z.div_pos a b Ha Hb).
  subst q. unfold round_half_even.
  set (q := a / b) in *. set (r := a `mod` b) in *.
  rewrite <- Z.negb_odd. destruct (Z.odd q) eqn:Ho;
    destruct (Z.ltb_spec (b - r) r), (Z.eqb_spec r (b - r)); cbn [orb andb]; try lia;
    rewrite ?Z.odd_add, ?Ho; (split; [lia|]); (split; [lia|]); (split; [nia|]); nia || done.
Qed.

Lemma round_half_even_scale a b c : 0 < b → 0 < c → round_half_even (a * c) (b * c) = round_half_even a b.
Proof.
  intros Hb Hc. unfold round_half_even.
  rewrite Z.div_mul_cancel_r, Z.mul_mod_distr_r by lia.
  set (r := a `mod` b).
  replace (b * c - r * c <? r * c) with (b - r <? r); [replace (r * c =? b * c - r * c) with (r =? b - r); [done|]|].
  - destruct (Z.eqb_spec r (b - r)), (Z.eqb_spec (r * c) (b * c - r * c)); nia || done.
  - destruct (Z.ltb_spec (b - r) r), (Z.ltb_spec (b * c - r * c) (r * c)); nia || done.
Qed.

(** No integer is nearer, and only an even result has an equally near one. *)
Lemma round_half_even_nearest a b m :
  0 < b → 0 ≤ a →
  let q := round_half_even a b in
  Z.abs (a - q * b) ≤ Z.abs (a - m * b) ∧
  (Z.abs (a - q * b) = Z.abs (a - m * b) → m = q ∨ Z.even q = true).
Proof.
  intros Hb Ha q. destruct (round_half_even_spec a b Hb Ha) as (_ & _ & Hd & Ht).
  fold q in Hd, Ht. destruct (decide (m = q)) as [->|Hne]; [lia|].
  assert (b ≤ Z.abs (q * b - m * b)) as Hgap.
  { rewrite <- Z.mul_sub_distr_r, Z.abs_mul. nia. }
  split; [lia|]. intros E. right. apply Ht. lia.
Qed.

(** ** The long division of [rounded_quotient] *)

Definition rounding_state (value divisor : list Z) (k : Z) (s : Z * list Z) : Prop :=
  let v := words_val value / 2 ^ k in
  s.1 = v / words_val divisor * 2 ^ k ∧
  canonical s.2 ∧ words_val s.2 = v `mod` words_val divisor.

Lemma round_step_spec value divisor k s :
  canonical value → canonical divisor → 0 < words_val divisor →
  0 ≤ k < 64 * Z.of_nat (length value) → words_val value / words_val divisor < W64 →
  rounding_state value divisor (k + 1) s →
  ∃ t, Round.round_step value divisor k s = Ok t ∧ rounding_state value divisor k t.
Proof.
  destruct s as [q r]. intros Hv Hd Hd0 Hk Hq (Hqv & Hr & Hrv).
  unfold Round.round_step, rounding_state. cbn [fst snd] in *.
  pose proof (words_val_nonneg value (proj1 Hv)).
  destruct (BigNat.bring_down_spec value divisor r k) as [Hc Hcv]; [apply Hv|done..|].
  destruct (BigNat.long_division_step (words_val value) (words_val divisor) k) as [Hx0 Hx]; [lia..|].
  rewrite <- Hcv in Hx. rewrite BigNat.compare_spec by done.
  assert (2 ^ (k + 1) = 2 * 2 ^ k) as Hp by (rewrite Z.pow_add_r by lia; lia).
  assert (0 < 2 ^ k) by (apply Z.pow_pos_nonneg; lia).
  set (y := words_val value / 2 ^ (k + 1) / words_val divisor) in *.
  destruct (Z.ltb_spec (words_val (BigNat.shift_in r (BigNat.value_bit value k))) (words_val divisor)) as [E|E].
  - rewrite (proj2 (Z.compare_lt_iff _ _)), decide_True in * by done. destruct Hx as [Hx1 ->].
    eexists; split; [done|]. cbn [fst snd]. rewrite Hx1. split; [lia|done].
  - rewrite decide_False in Hx by lia. destruct Hx as (Hx1 & Hx2 & _).
    destruct (BigNat.subtract_spec (BigNat.shift_in r (BigNat.value_bit value k)) divisor) as [Hs Hsv];
      [apply Hc|apply Hd|done|].
    assert (k < 64) as Hk64.
    { assert (2 ^ k < 2 ^ 64); [|by apply (Z.pow_lt_mono_r_iff 2 k 64)].
      apply Z.le_lt_trans with (words_val value / words_val divisor); [|done].
      assert (1 ≤ words_val value / 2 ^ k / words_val divisor) as H1.
      { rewrite Hx1. subst y. assert (0 ≤ words_val value / 2 ^ (k + 1) / words_val divisor); [|lia].
        apply Z.div_pos; [apply Z.div_pos; lia|lia]. }
      rewrite Z.div_div, (Z.mul_comm (2 ^ k)), <- Z.div_div in H1 by lia.
      pose proof (Z.mul_div_le (words_val value / words_val divisor) (2 ^ k) ltac:(lia)). nia. }
    assert (Z.lor q (Z.shiftl 1 k) = q + 2 ^ k) as Hor.
    { rewrite Z.shiftl_1_l, Z.add_nocarry_lor; [done|].
      rewrite Hqv, Hp, Z.land_comm. replace (y * (2 * 2 ^ k)) with (y * 2 ^ (k + 1)) by lia.
      apply land_low_high; [lia|]. rewrite Hp. lia. }
    exists (Z.lor q (Z.shiftl 1 k), BigNat.subtract (BigNat.shift_in r (BigNat.value_bit value k)) divisor).
    rewrite (proj2 (Z.leb_gt 64 k)) by done. cbn [fst snd]. rewrite Hor, Hx1, Hx2, Hsv.
    split; [by destruct (Z.compare_spec (words_val (BigNat.shift_in r (BigNat.value_bit value k)))
      (words_val divisor)); [|lia|]|].
    split; [rewrite Hqv; lia|done].
Qed.

Lemma rounded_quotient_spec value divisor :
  canonical value → canonical divisor → 0 < words_val divisor →
  Z.of_nat (length divisor) + 1 < W64 →
  words_val value / words_val divisor < W64 - 1 →
  Round.rounded_quotient value divisor =
    Ok (round_half_even (words_val value) (words_val divisor)).
Proof.
  intros Hv Hd Hd0 Hlen Hq. unfold Round.rounded_quotient.
  rewrite (proj2 (checked_add_Some _ _ _) (conj eq_refl Hlen)). cbn [ok_or]. rewrite Ok_bind.
  pose proof (words_val_nonneg value (proj1 Hv)) as HV0.
  assert (0 ≤ BigNat.bit_len value ≤ 64 * Z.of_nat (length value)) as Hbl.
  { rewrite BigNat.natural_bits by done. split; [done|].
    apply nbits_le_iff; [done|lia|]. apply words_val_bounds, Hv. }
  destruct (for_each_down (rounding_state value divisor) (Round.round_step value divisor)
    (BigNat.bit_len value) (0, [])) as ([q r] & -> & Hqv & Hr & Hrv).
  - lia.
  - unfold rounding_state; cbn [fst snd].
    assert (words_val value / 2 ^ BigNat.bit_len value = 0) as ->.
    { apply Z.div_small. rewrite BigNat.natural_bits by done. split; [done|]. by apply nbits_spec. }
    rewrite Z.div_0_l, Z.mod_0_l by lia. by split; [|split; [apply canonical_nil|]].
  - intros k t Hk Hs. apply round_step_spec; auto with lia.
  - rewrite Ok_bind. cbn [fst snd] in *. rewrite Z.pow_0_r, Z.div_1_r in *. rewrite Z.mul_1_r in Hqv.
    set (D := words_val divisor) in *. set (V := words_val value) in *.
    pose proof (Z.mod_pos_bound V D Hd0). pose proof (Z.div_pos V D HV0 Hd0).
    destruct (BigNat.subtract_spec divisor r) as [Hc Hcv]; [apply Hd|apply Hr|fold D; lia|].
    rewrite BigNat.compare_spec, Hcv, Hrv by done. fold D. unfold round_half_even.
    assert (negb (Z.land q 1 =? 0) = Z.odd q) as ->.
    { rewrite Z.land_ones with (n := 1) by lia. change (2 ^ 1) with 2. rewrite Zmod_odd.
      by destruct (Z.odd q). }
    subst q. unfold checked_add. rewrite (proj2 (Z.ltb_lt (V / D + 1) _)) by lia.
    destruct (Z.compare_spec (V `mod` D) (D - V `mod` D)) as [E|E|E].
    + rewrite (proj2 (Z.eqb_eq _ _)) by done. rewrite (proj2 (Z.ltb_ge _ _)) by lia.
      cbn. by destruct (Z.odd _).
    + rewrite (proj2 (Z.eqb_neq _ _)), (proj2 (Z.ltb_ge _ _)) by lia. done.
    + rewrite (proj2 (Z.ltb_lt (D - _) _)) by lia. done.
Qed.

(** ** Binary64 values in units of the smallest subnormal *)

Definition f64_units (v : f64) : Z :=
  signed (f64_sign v) (f64_significand v * 2 ^ (f64_power v + 1074)).

Lemma f64_Q_units v : f64_ok v → (f64_Q v == f64_units v # Z.to_pos (2 ^ 1074))%Q.
Proof.
  intros Hv. destruct (f64_significand_bounds v Hv) as (_ & Hp & _).
  unfold f64_Q, f64_units, scaleQ, Qeq. cbn [Qnum Qden].
  rewrite !Z2Pos.id by (apply Z.pow_pos_nonneg; lia).
  assert (2 ^ Z.max (f64_power v) 0 * 2 ^ 1074
          = 2 ^ (f64_power v + 1074) * 2 ^ Z.max (- f64_power v) 0) as E.
  { rewrite <- !Z.pow_add_r by lia. f_equal. lia. }
  rewrite <- Z.mul_assoc, E. destruct (f64_sign v); cbn [signed]; lia.
Qed.

(** The pattern assembled from a magnitude below that of infinity and a sign. *)
Lemma magnitude_fields m neg :
  0 ≤ m < 2047 * 2 ^ 52 →
  let v := from_bits (Z.lor m (Z.shiftl (Z.b2z neg) 63)) in
  f64_ok v ∧ is_finite v = true ∧ f64_sign v = neg ∧
  f64_exponent v = m / 2 ^ 52 ∧ f64_fraction v = m `mod` 2 ^ 52.
Proof.
  intros Hm v. unfold f64_ok, is_finite, f64_sign, f64_exponent, f64_fraction. subst v. cbn [to_bits].
  rewrite Z.shiftl_mul_pow2, <- Z.add_nocarry_lor by (lia || apply land_low_high; lia).
  rewrite Z.testbit_eqb by lia.
  change (2 ^ 11) with 2048. change (2 ^ 52) with 4503599627370496 in *.
  change (2 ^ 63) with 9223372036854775808.
  assert (((m + Z.b2z neg * 9223372036854775808) / 4503599627370496) `mod` 2048 = m / 4503599627370496) as He
    by (destruct neg; cbn [Z.b2z]; dlia).
  split; [destruct neg; cbn [Z.b2z]; split; lia|]. rewrite He.
  split; [apply negb_true_iff, Z.eqb_neq; dlia|].
  split; [destruct neg; cbn [Z.b2z]; [apply Z.eqb_eq|apply Z.eqb_neq]; dlia|].
  split; [done|]. destruct neg; cbn [Z.b2z]; dlia.
Qed.

Lemma subnormal_fields s neg :
  0 ≤ s ≤ 2 ^ 52 →
  let v := from_bits (Z.lor s (Z.shiftl (Z.b2z neg) 63)) in
  f64_ok v ∧ is_finite v = true ∧ f64_sign v = neg ∧ f64_significand v = s ∧ f64_power v = -1074.
Proof.
  intros Hs v. destruct (magnitude_fields s neg) as (Hok & Hfin & Hsign & He & Hf); [lia|].
  fold v in Hok, Hfin, Hsign, He, Hf. do 3 (split; [done|]).
  unfold f64_significand, f64_power. rewrite He, Hf.
  change (2 ^ 52) with 4503599627370496 in *.
  destruct (Z.eqb_spec (s / 4503599627370496) 0); (split; [dlia|]); [done|dlia].
Qed.

Lemma normal_fields e s neg :
  -1022 ≤ e ≤ 1023 → 2 ^ 52 ≤ s < 2 ^ 53 →
  let v := from_bits (Z.lor (Z.lor (as_u64 (Z.shiftl (e + 1023) 52)) (s - Z.shiftl 1 52))
                            (Z.shiftl (Z.b2z neg) 63)) in
  f64_ok v ∧ is_finite v = true ∧ f64_sign v = neg ∧ f64_significand v = s ∧ f64_power v = e - 52.
Proof.
  intros He Hs v.
  assert (Z.lor (as_u64 (Z.shiftl (e + 1023) 52)) (s - Z.shiftl 1 52) = (e + 1023) * 2 ^ 52 + (s - 2 ^ 52)) as Em.
  { rewrite Z.shiftl_mul_pow2, Z.shiftl_1_l by lia. change (2 ^ 53) with (2 * 2 ^ 52) in Hs.
    unfold as_u64. rewrite Z.mod_small by lia.
    symmetry. apply Z.add_nocarry_lor. rewrite Z.land_comm. apply land_low_high; lia. }
  change (2 ^ 53) with (2 * 2 ^ 52) in Hs.
  destruct (magnitude_fields ((e + 1023) * 2 ^ 52 + (s - 2 ^ 52)) neg) as (Hok & Hfin & Hsign & Hexp & Hfrac); [lia|].
  rewrite <- Em in Hok, Hfin, Hsign, Hexp, Hfrac. fold v in Hok, Hfin, Hsign, Hexp, Hfrac.
  do 3 (split; [done|]). unfold f64_significand, f64_power. rewrite Hexp, Hfrac, Em.
  change (2 ^ 52) with 4503599627370496 in *.
  destruct (Z.eqb_spec (((e + 1023) * 4503599627370496 + (s - 4503599627370496)) / 4503599627370496) 0);
    [dlia|]. split; dlia.
Qed.

(** ** Nearest among all binary64 values *)

(** On the grid of step [2 ^ p], with the significand at full precision or [p] the
    least power, the rounded quotient is nearest among all values. *)
Lemma nearest_units a d p w s' p' :
  0 < d → 0 ≤ a → -1074 ≤ p →
  let b := d * 2 ^ (p + 1074) in
  let q := round_half_even a b in
  p = -1074 ∨ 2 ^ 52 * b ≤ a →
  0 ≤ s' < 2 ^ 53 → -1074 ≤ p' → w = s' * 2 ^ (p' + 1074) ∨ w = - (s' * 2 ^ (p' + 1074)) →
  Z.abs (a - q * 2 ^ (p + 1074) * d) ≤ Z.abs (a - w * d) ∧
  (Z.abs (a - q * 2 ^ (p + 1074) * d) = Z.abs (a - w * d) →
   w = q * 2 ^ (p + 1074) ∨ Z.even q = true).
Proof.
  intros Hd Ha Hp b q Hfull Hs' Hp' Hw.
  assert (0 < 2 ^ (p + 1074)) as Hg by (apply Z.pow_pos_nonneg; lia).
  assert (0 < b) as Hb by (subst b; nia).
  replace (q * 2 ^ (p + 1074) * d) with (q * b) by (subst b; lia).
  destruct (Z.le_gt_cases p p') as [Hpp|Hpp].
  - assert (∃ m, w = m * 2 ^ (p + 1074)) as [m ->].
    { replace (p' + 1074) with ((p' - p) + (p + 1074)) in Hw by lia. rewrite Z.pow_add_r in Hw by lia.
      destruct Hw as [-> | ->]; [exists (s' * 2 ^ (p' - p))|exists (- (s' * 2 ^ (p' - p)))]; lia. }
    replace (m * 2 ^ (p + 1074) * d) with (m * b) by (subst b; lia).
    destruct (round_half_even_nearest a b m Hb Ha) as [Hle Htie]. fold q in Hle, Htie.
    split; [done|]. intros E. destruct (Htie E) as [->|?]; [by left|by right].
  - destruct Hfull as [->|Hfull]; [lia|].
    assert (w * d < 2 ^ 52 * b) as Hlt.
    { assert (s' * 2 ^ (p' + 1074) < 2 ^ 52 * 2 ^ (p + 1074)) as Hs.
      { assert (2 * 2 ^ (p' + 1074) ≤ 2 ^ (p + 1074)) as H2.
        { change 2 with (2 ^ 1) at 1. rewrite <- Z.pow_add_r by lia. apply Z.pow_le_mono_r; lia. }
        pose proof (Z.pow_pos_nonneg 2 (p' + 1074)). change (2 ^ 53) with (2 ^ 52 * 2) in Hs'. nia. }
      pose proof (Z.pow_pos_nonneg 2 (p' + 1074)).
      assert (w < 2 ^ 52 * 2 ^ (p + 1074)) by (destruct Hw as [-> | ->]; nia). subst b. nia. }
    destruct (round_half_even_nearest a b (2 ^ 52) Hb Ha) as [Hle _]. fold q in Hle.
    split; [lia|]. intros E. lia.
Qed.

(** ** Correct rounding *)

(** [v] is the binary64 value nearest to [r], an even significand breaking ties. *)
Definition rounded (r : ExactRational) (v : f64) : Prop :=
  f64_ok v ∧ is_finite v = true ∧ f64_sign v = negative r ∧
  ∀ w, f64_ok w → is_finite w = true →
    (Qabs (rat_Q r - f64_Q v) <= Qabs (rat_Q r - f64_Q w))%Q ∧
    ((Qabs (rat_Q r - f64_Q v) == Qabs (rat_Q r - f64_Q w))%Q →
     (f64_Q w == f64_Q v)%Q ∨ Z.even (f64_significand v) = true).

(** Beyond these magnitudes round-to-nearest gives infinity and zero. *)
Definition overflow_bound : Q := inject_Z (2 ^ 1024 - 2 ^ 970).
Definition underflow_bound : Q := 1 # Z.to_pos (2 ^ 1075).

Lemma units_distance r w :
  rat_wf r → f64_ok w →
  (Qabs (rat_Q r - f64_Q w) ==
   Z.abs (rat_num r * 2 ^ 1074 - f64_units w * rat_den r) # Z.to_pos (rat_den r * 2 ^ 1074))%Q.
Proof.
  intros Hr Hw. rewrite f64_Q_units by done. pose proof (wf_positive r Hr).
  assert (0 < 2 ^ 1074) as Hp by (apply Z.pow_pos_nonneg; lia). revert Hp. generalize (2 ^ 1074). intros K HK.
  unfold rat_Q, Qminus, Qplus, Qopp. cbn [Qnum Qden]. rewrite !Z2Pos.id by done.
  cbn [Qabs]. rewrite Z2Pos.inj_mul by done. f_equiv. f_equal. lia.
Qed.

Lemma signed_abs neg x u d : Z.abs (signed neg x - u * d) = Z.abs (x - signed neg u * d).
Proof. destruct neg; cbn [signed]; lia. Qed.

Lemma rounded_intro r v p q :
  rat_wf r → f64_ok v → is_finite v = true → f64_sign v = negative r → -1074 ≤ p →
  let a := words_val (numerator r) * 2 ^ 1074 in
  let b := rat_den r * 2 ^ (p + 1074) in
  q = round_half_even a b →
  p = -1074 ∨ 2 ^ 52 * b ≤ a →
  f64_units v = signed (negative r) (q * 2 ^ (p + 1074)) →
  (Z.even q = true → Z.even (f64_significand v) = true) →
  rounded r v.
Proof.
  intros Hr Hok Hfin Hsign Hp a b Hq Hfull Hu Heven. do 3 (split; [done|]).
  intros w Hwok Hwfin. pose proof (wf_positive r Hr) as Hd.
  pose proof (words_val_nonneg _ (proj1 (wf_numerator r Hr))).
  destruct (f64_significand_bounds w Hwok) as (Hs' & Hp' & _).
  assert (0 ≤ a) as Ha by (subst a; apply Z.mul_nonneg_nonneg; [done|apply Z.pow_nonneg; lia]).
  destruct (nearest_units a (rat_den r) p (signed (negative r) (f64_units w))
    (f64_significand w) (f64_power w) Hd Ha Hp Hfull Hs' Hp') as [Hle Htie].
  { unfold f64_units. destruct (negative r), (f64_sign w); cbn [signed]; rewrite ?Z.opp_involutive; auto. }
  assert (∀ u, Z.abs (rat_num r * 2 ^ 1074 - u * rat_den r) = Z.abs (a - signed (negative r) u * rat_den r)) as Hdist.
  { intros u. rewrite <- signed_abs. unfold rat_num, a. f_equal. destruct (negative r); cbn [signed]; lia. }
  assert (signed (negative r) (f64_units v) = round_half_even a b * 2 ^ (p + 1074)) as Huv.
  { rewrite Hu, Hq. destruct (negative r); cbn [signed]; lia. }
  fold b in Hle, Htie. rewrite !units_distance, !Hdist, Huv by done. split.
  - unfold Qle. cbn [Qnum Qden]. apply Z.mul_le_mono_nonneg_r; [lia|done].
  - unfold Qeq at 1. cbn [Qnum Qden]. intros E. apply Z.mul_cancel_r in E; [|lia].
    destruct (Htie E) as [Hw|Hw]; [left|right; apply Heven; by rewrite Hq].
    rewrite !f64_Q_units by done. rewrite <- Huv in Hw.
    assert (f64_units w = f64_units v) as ->; [|done].
    destruct (negative r); cbn [signed] in Hw; lia.
Qed.

(** ** The exponent of a quotient *)

(** [2 ^ e <= n / d], on a scale that holds every exponent of the code. *)
Definition at_least (n d e : Z) : Prop := d * 2 ^ (e + 1200) ≤ n * 2 ^ 1200.

Lemma at_least_scale n d e k :
  0 ≤ e + k → 0 ≤ k → 0 ≤ e + 1200 → at_least n d e ↔ d * 2 ^ (e + k) ≤ n * 2 ^ k.
Proof.
  intros H1 H2 H3. unfold at_least.
  assert (∀ x y i, 0 ≤ i → x * 2 ^ i ≤ y * 2 ^ i ↔ x ≤ y) as Hc.
  { intros x y i Hi. symmetry. apply Z.mul_le_mono_pos_r. apply Z.pow_pos_nonneg; lia. }
  rewrite <- (Hc (d * 2 ^ (e + k)) (n * 2 ^ k) 1200) by lia.
  rewrite <- (Hc (d * 2 ^ (e + 1200)) (n * 2 ^ 1200) k) by lia.
  rewrite <- !Z.mul_assoc, <- !Z.pow_add_r by lia.
  replace (e + k + 1200) with (e + 1200 + k) by lia. by rewrite (Z.add_comm 1200 k).
Qed.

Lemma at_least_bits n d e :
  0 < n → 0 < d → e = nbits n - nbits d → -1199 ≤ e →
  at_least n d (e - 1) ∧ ¬ at_least n d (e + 1).
Proof.
  intros Hn Hd He Hlo. unfold at_least. pose proof (nbits_pos n Hn). pose proof (nbits_pos d Hd).
  pose proof (nbits_lower n Hn). pose proof (nbits_lower d Hd).
  pose proof (nbits_spec n ltac:(lia)). pose proof (nbits_spec d ltac:(lia)).
  assert (0 < 2 ^ 1200) by (apply Z.pow_pos_nonneg; lia). split.
  - transitivity (2 ^ nbits d * 2 ^ (e - 1 + 1200)).
    + apply Z.mul_le_mono_nonneg_r; [apply Z.pow_nonneg; lia|lia].
    + rewrite <- Z.pow_add_r by lia.
      replace (nbits d + (e - 1 + 1200)) with (nbits n - 1 + 1200) by lia.
      rewrite Z.pow_add_r by lia. apply Z.mul_le_mono_nonneg_r; lia.
  - apply Z.lt_nge. apply Z.lt_le_trans with (2 ^ nbits n * 2 ^ 1200).
    + apply Z.mul_lt_mono_pos_r; lia.
    + rewrite <- Z.pow_add_r by lia.
      replace (nbits n + 1200) with ((nbits d - 1) + (e + 1 + 1200)) by lia.
      rewrite Z.pow_add_r by lia. apply Z.mul_le_mono_nonneg_r; [apply Z.pow_nonneg; lia|lia].
Qed.

Lemma compare_at_least n d e :
  -1200 ≤ e →
  let c := if 0 <=? e then n ?= d * 2 ^ e else n * 2 ^ (- e) ?= d in
  if bool_decide (c = Lt) then ¬ at_least n d e else at_least n d e.
Proof.
  intros He c. subst c. destruct (Z.leb_spec 0 e).
  - pose proof (at_least_scale n d e 0 ltac:(lia) ltac:(lia) ltac:(lia)) as Hs.
    rewrite Z.add_0_r, Z.mul_1_r in Hs. case_bool_decide as Hc; rewrite Hs.
    + rewrite Z.compare_lt_iff in Hc. lia.
    + by rewrite Z.compare_ge_iff in Hc.
  - pose proof (at_least_scale n d e (- e) ltac:(lia) ltac:(lia) ltac:(lia)) as Hs.
    replace (e + - e) with 0 in Hs by lia. rewrite Z.mul_1_r in Hs.
    case_bool_decide as Hc; rewrite Hs; [rewrite Z.compare_lt_iff in Hc; lia|by rewrite Z.compare_ge_iff in Hc].
Qed.

Lemma at_least_mono n d e e' :
  0 ≤ d → e' ≤ e → 0 ≤ e' + 1200 → at_least n d e → at_least n d e'.
Proof.
  intros Hd He He' H. unfold at_least in *. etrans; [|exact H].
  apply Z.mul_le_mono_nonneg_l; [done|]. apply Z.pow_le_mono_r; lia.
Qed.

(** The grid on which a quotient of exponent [e] is rounded, and where it lies. *)
Definition grid (e : Z) : Z := if -1022 <=? e then e - 52 else -1074.

Lemma grid_position n d e :
  0 < n → 0 < d → -1100 ≤ e → at_least n d e → ¬ at_least n d (e + 1) →
  let a := n * 2 ^ 1074 in
  let b := d * 2 ^ (grid e + 1074) in
  -1074 ≤ grid e ∧ 0 < b ∧ 0 ≤ a ∧
  if -1022 <=? e then 2 ^ 52 * b ≤ a < 2 ^ 53 * b else a < 2 ^ 52 * b.
Proof.
  intros Hn Hd He Hlo Hhi a b. unfold grid in *. subst a b.
  pose proof (Z.pow_pos_nonneg 2 1074 ltac:(lia) ltac:(lia)) as HK.
  destruct (Z.leb_spec (-1022) e) as [Hnorm|Hsub].
  - assert (0 < 2 ^ (e - 52 + 1074)) by (apply Z.pow_pos_nonneg; lia).
    split; [lia|]. split; [nia|]. split; [nia|].
    rewrite (at_least_scale n d e 1074) in Hlo by lia.
    rewrite (at_least_scale n d (e + 1) 1074) in Hhi by lia.
    replace (e + 1074) with (52 + (e - 52 + 1074)) in Hlo by lia.
    replace (e + 1 + 1074) with (53 + (e - 52 + 1074)) in Hhi by lia.
    rewrite Z.pow_add_r in Hlo, Hhi by lia. revert Hlo Hhi. generalize (2 ^ (e - 52 + 1074)).
    generalize dependent (2 ^ 1074). intros; lia.
  - assert (¬ at_least n d (-1022)) as Hhi'.
    { intros H. apply Hhi. apply (at_least_mono n d (-1022)); [lia|lia|lia|done]. }
    rewrite (at_least_scale n d (-1022) 1074) in Hhi' by lia.
    split; [lia|]. change (2 ^ (-1074 + 1074)) with 1. split; [lia|]. split; [nia|].
    change (2 ^ (-1022 + 1074)) with (2 ^ 52) in Hhi'. lia.
Qed.

(** The pattern built from the exponent and the rounded quotient. *)
Definition assemble (neg : bool) (e q : Z) : Result RationalFloatError f64 :=
  magnitude ←
    (if -1022 <=? e then
       let '(significand, exponent) :=
         if q =? Z.shiftl 1 53 then (Z.shiftr q 1, e + 1) else (q, e) in
       if 1023 <? exponent then Err FloatOverflow
       else Ok (Z.lor (as_u64 (Z.shiftl (exponent + 1023) 52)) (significand - Z.shiftl 1 52))
     else if q =? 0 then Err FloatUnderflow
     else Ok q);
  Ok (from_bits (Z.lor magnitude (Z.shiftl (Z.b2z neg) 63))).

(** A tie at the largest finite or the smallest positive value is broken upwards,
    or downwards, by evenness. *)
Lemma round_half_even_ge a b m :
  0 < b → 0 ≤ a → Z.odd m = true → m < round_half_even a b ↔ (2 * m + 1) * b ≤ 2 * a.
Proof.
  intros Hb Ha Hm. destruct (round_half_even_spec a b Hb Ha) as (_ & _ & Hd & Ht).
  set (q := round_half_even a b) in *. split.
  - intros Hq. assert ((m + 1) * b ≤ q * b) by (apply Z.mul_le_mono_nonneg_r; lia). lia.
  - intros H. destruct (Z.lt_ge_cases m q) as [|Hle]; [done|exfalso].
    assert (q * b ≤ m * b) by (apply Z.mul_le_mono_nonneg_r; lia).
    assert (m = q) as ->.
    { apply Z.le_antisymm; [|done]. apply Z.nlt_ge. intros Hlt.
      assert ((q + 1) * b ≤ m * b) by (apply Z.mul_le_mono_nonneg_r; lia). lia. }
    rewrite <- Z.negb_even, Ht in Hm by lia. done.
Qed.

Lemma round_half_even_zero a b :
  0 < b → 0 ≤ a → round_half_even a b = 0 ↔ 2 * a ≤ b.
Proof.
  intros Hb Ha. destruct (round_half_even_spec a b Hb Ha) as (Hq0 & _ & Hd & Ht).
  set (q := round_half_even a b) in *. split.
  - intros E. rewrite E in Hd. lia.
  - intros H. destruct (Z.lt_ge_cases 0 q) as [Hq|]; [exfalso|lia].
    assert (1 * b ≤ q * b) by (apply Z.mul_le_mono_nonneg_r; lia).
    assert (q = 1) as E.
    { destruct (Z.lt_ge_cases 1 q); [|lia].
      assert (2 * b ≤ q * b) by (apply Z.mul_le_mono_nonneg_r; lia). lia. }
    rewrite E in Ht. specialize (Ht ltac:(lia)). done.
Qed.

Section rounding_lemmas.
Context (r : ExactRational) (Hr : rat_wf r) (Hnz : numerator r ≠ []).
Local Abbreviation n := (words_val (numerator r)).
Local Abbreviation d := (rat_den r).

Lemma magnitude_positive : 0 < n ∧ 0 < d.
Proof. split; [by apply canonical_val_pos; [apply Hr|]|apply Hr]. Qed.

Lemma rat_Q_abs : (Qabs (rat_Q r) == n # Z.to_pos d)%Q.
Proof.
  unfold rat_Q, rat_num. cbn [Qabs]. destruct magnitude_positive.
  destruct (negative r); cbn [signed]; f_equiv; lia.
Qed.

Lemma overflow_iff : (overflow_bound <= Qabs (rat_Q r))%Q ↔ (2 ^ 1024 - 2 ^ 970) * d ≤ n.
Proof.
  rewrite rat_Q_abs. unfold overflow_bound, inject_Z, Qle. cbn [Qnum Qden].
  destruct magnitude_positive. rewrite Z2Pos.id, Z.mul_1_r by done. done.
Qed.

Lemma underflow_iff : (Qabs (rat_Q r) <= underflow_bound)%Q ↔ n * 2 ^ 1075 ≤ d.
Proof.
  rewrite rat_Q_abs. unfold underflow_bound, Qle. cbn [Qnum Qden].
  destruct magnitude_positive. assert (0 < 2 ^ 1075) by (apply Z.pow_pos_nonneg; lia).
  by rewrite (Z2Pos.id d), (Z2Pos.id (2 ^ 1075)), Z.mul_1_l.
Qed.

Context (e : Z) (He : -1100 ≤ e ≤ 1023) (Hlo : at_least n d e) (Hhi : ¬ at_least n d (e + 1)).
Local Abbreviation a := (n * 2 ^ 1074).
Local Abbreviation b := (d * 2 ^ (grid e + 1074)).
Local Abbreviation q := (round_half_even a b).

Lemma quotient_range :
  if -1022 <=? e then 2 ^ 52 ≤ q ≤ 2 ^ 53 else 0 ≤ q ≤ 2 ^ 52.
Proof.
  destruct magnitude_positive as [Hn Hd].
  destruct (grid_position n d e Hn Hd ltac:(lia) Hlo Hhi) as (_ & Hb & Ha & Hpos).
  cbn zeta in *. destruct (round_half_even_spec a b Hb Ha) as (Hq0 & Hq & _).
  destruct (-1022 <=? e); [destruct Hpos as [H1 H2]|].
  - assert (2 ^ 52 ≤ a / b) by (apply Z.div_le_lower_bound; lia).
    assert (a / b < 2 ^ 53) by (apply Z.div_lt_upper_bound; lia). lia.
  - assert (a / b < 2 ^ 52) by (apply Z.div_lt_upper_bound; lia). lia.
Qed.

Lemma overflow_quotient :
  (2 ^ 1024 - 2 ^ 970) * d ≤ n ↔ e = 1023 ∧ q = 2 ^ 53.
Proof.
  destruct magnitude_positive as [Hn Hd].
  destruct (grid_position n d e Hn Hd ltac:(lia) Hlo Hhi) as (_ & Hb & Ha & _).
  cbn zeta in *. pose proof quotient_range as Hq.
  destruct (decide (e = 1023)) as [E|E].
  - rewrite (proj2 (Z.leb_le _ _)) in Hq by lia. pose proof (round_half_even_ge a b (2 ^ 53 - 1) Hb Ha eq_refl) as Hge.
    assert (q = 2 ^ 53 ↔ 2 ^ 53 - 1 < q) as -> by lia. rewrite Hge.
    unfold grid. rewrite E. change (if -1022 <=? 1023 then 1023 - 52 else -1074) with 971.
    replace (2 ^ (971 + 1074)) with (2 ^ 970 * 2 ^ 1075) by (by rewrite <- Z.pow_add_r by lia).
    replace (2 * (n * 2 ^ 1074)) with (n * 2 ^ 1075) by (change 1075 with (1 + 1074); rewrite Z.pow_add_r by lia; lia).
    replace (2 ^ 1024 - 2 ^ 970) with ((2 * (2 ^ 53 - 1) + 1) * 2 ^ 970) by reflexivity.
    set (c := 2 * (2 ^ 53 - 1) + 1). assert (0 < 2 ^ 1075) as Hp by (apply Z.pow_pos_nonneg; lia).
    clearbody c. revert Hp. generalize (2 ^ 1075) (2 ^ 970). intros x y Hx.
    replace (c * (d * (y * x))) with (c * y * d * x) by lia.
    rewrite <- (Z.mul_le_mono_pos_r _ _ x Hx). tauto.
  - split; [|tauto]. intros H. exfalso. apply Hhi.
    apply (at_least_mono n d 1023); [lia|lia|lia|].
    apply (at_least_scale n d 1023 0); [lia..|]. rewrite Z.mul_1_r. etrans; [|exact H].
    rewrite (Z.mul_comm d). apply Z.mul_le_mono_nonneg_r; [lia|]. by vm_compute.
Qed.

Lemma underflow_quotient : n * 2 ^ 1075 ≤ d ↔ e < -1022 ∧ q = 0.
Proof.
  destruct magnitude_positive as [Hn Hd].
  destruct (grid_position n d e Hn Hd ltac:(lia) Hlo Hhi) as (_ & Hb & Ha & _). cbn zeta in *.
  destruct (Z.leb_spec (-1022) e) as [Hnorm|Hsub].
  - split; [|lia]. intros H. exfalso.
    pose proof (at_least_mono n d e (-1022) ltac:(lia) ltac:(lia) ltac:(lia) Hlo) as H'.
    apply (at_least_scale n d (-1022) 1022) in H'; [|lia..]. change (2 ^ (-1022 + 1022)) with 1 in H'.
    assert (n * 2 ^ 1075 = n * 2 ^ 1022 * 2 ^ 53) as E by (by rewrite <- Z.mul_assoc, <- Z.pow_add_r by lia).
    rewrite E in H. revert H H'. generalize (n * 2 ^ 1022). intros x Hx Hx'. lia.
  - pose proof (round_half_even_zero a b Hb Ha) as Hz.
    assert (grid e = -1074) as Hg by (unfold grid; by rewrite (proj2 (Z.leb_gt _ _)) by lia).
    rewrite Hg in *. rewrite Hz. change (2 ^ (-1074 + 1074)) with 1. rewrite Z.mul_1_r.
    assert (n * 2 ^ 1075 = 2 * (n * 2 ^ 1074)) as ->.
    { change 1075 with (1 + 1074). rewrite Z.pow_add_r by lia. lia. }
    split; [by split|tauto].
Qed.

Lemma assemble_spec :
  match assemble (negative r) e q with
  | Ok v => rounded r v ∧ (Qabs (rat_Q r) < overflow_bound)%Q ∧
            (underflow_bound < Qabs (rat_Q r))%Q
  | Err FloatOverflow => (overflow_bound <= Qabs (rat_Q r))%Q
  | Err FloatUnderflow => (Qabs (rat_Q r) <= underflow_bound)%Q
  | Err FloatLimit => False
  end.
Proof.
  destruct magnitude_positive as [Hn Hd].
  destruct (grid_position n d e Hn Hd ltac:(lia) Hlo Hhi) as (Hg & Hb & Ha & Hpos). cbn zeta in *.
  pose proof quotient_range as Hq. pose proof overflow_quotient as Ho. pose proof underflow_quotient as Hu.
  rewrite <- overflow_iff in Ho. rewrite <- underflow_iff in Hu.
  assert (∀ x y : Q, (x < y)%Q ↔ ¬ (y <= x)%Q) as Hlt.
  { intros x y. split; [apply Qlt_not_le|apply Qnot_le_lt]. }
  unfold assemble.
  destruct (Z.leb_spec (-1022) e) as [Hnorm|Hsub].
  - change (Z.shiftl 1 53) with (2 ^ 53).
    assert (grid e = e - 52) as Eg by (unfold grid; by rewrite (proj2 (Z.leb_le _ _)) by lia).
    destruct (Z.eqb_spec q (2 ^ 53)) as [E|E].
    + destruct (Z.ltb_spec 1023 (e + 1)); cbn [mbind Result_bind]; [apply Ho; lia|].
      rewrite E. change (Z.shiftr (2 ^ 53) 1) with (2 ^ 52).
      destruct (normal_fields (e + 1) (2 ^ 52) (negative r)) as (Hok & Hfin & Hs & Hsig & Hpow); [lia|lia|].
      split; [|split; apply Hlt; [rewrite Ho|rewrite Hu]; lia].
      apply (rounded_intro r _ (grid e) q); [done..| |by right; apply Hpos| |].
      * done.
      * unfold f64_units. rewrite Hs, Hsig, Hpow, E, Eg. f_equal.
        rewrite <- !Z.pow_add_r by lia. f_equal. lia.
      * by rewrite Hsig.
    + destruct (Z.ltb_spec 1023 e); [lia|]. cbn [mbind Result_bind].
      destruct (normal_fields e q (negative r)) as (Hok & Hfin & Hs & Hsig & Hpow); [lia|lia|].
      split; [|split; apply Hlt; [rewrite Ho|rewrite Hu]; lia].
      apply (rounded_intro r _ (grid e) q); [done..|by right; apply Hpos| |by rewrite Hsig].
      unfold f64_units. by rewrite Hs, Hsig, Hpow, Eg.
  - assert (grid e = -1074) as Eg by (unfold grid; by rewrite (proj2 (Z.leb_gt _ _)) by lia).
    destruct (Z.eqb_spec q 0) as [E|E]; cbn [mbind Result_bind]; [apply Hu; lia|].
    destruct (subnormal_fields q (negative r)) as (Hok & Hfin & Hs & Hsig & Hpow); [lia|].
    split; [|split; apply Hlt; [rewrite Ho|rewrite Hu]; lia].
    apply (rounded_intro r _ (grid e) q); [done..|by left| |by rewrite Hsig].
    unfold f64_units. by rewrite Hs, Hsig, Hpow, Eg.
Qed.
End rounding_lemmas.

(** Within this size a budget suffices for every rounding. *)
Definition rounding_size (limits : ExactInputLimits) : Z :=
  Z.min (input_max_bits limits - 1075) (2 ^ 63 - 1).

Section to_f64_lemmas.
Context (limits : ExactInputLimits) (Hlim : limits_ok limits).
Context (r : ExactRational) (Hr : rat_wf r) (Hnz : numerator r ≠ []).
Local Abbreviation n := (words_val (numerator r)).
Local Abbreviation d := (rat_den r).
Local Abbreviation small := (size_le (rounding_size limits) r).
Local Abbreviation shift := (λ words bits,
  map_err (λ _, FloatLimit) (BigNat.shift_left words bits (input_max_bits limits))).

Lemma shift_cases ws k :
  canonical ws → 0 ≤ k →
  match shift ws k with
  | Ok s => within limits s ∧ words_val s = words_val ws * 2 ^ k
  | Err e => e = FloatLimit ∧ input_max_bits limits < nbits (words_val ws) + k
  end.
Proof.
  intros Hc Hk. destruct Hlim as [Hmax _].
  pose proof (BigNat.shift_left_spec ws k (input_max_bits limits) Hc Hk ltac:(lia)) as Hs.
  destruct (decide (nbits (words_val ws) + k ≤ input_max_bits limits)) as [Hn|Hn]; cycle 1.
  { rewrite Hs. cbn [map_err]. split; [done|lia]. }
  destruct Hs as (s & -> & Hcs & Hv). cbn [map_err]. split; [|done]. split; [done|].
  rewrite Hv. pose proof (words_val_nonneg ws (proj1 Hc)).
  destruct (decide (words_val ws = 0)) as [->|]; [rewrite Z.mul_0_l; unfold nbits; cbn; lia|].
  rewrite nbits_shiftl; lia.
Qed.

Lemma not_small_num k : k ≤ 1075 → input_max_bits limits < nbits n + k → ¬ small.
Proof. intros Hk Hn [Hs _]. unfold rounding_size in Hs. lia. Qed.
Lemma not_small_den k : k ≤ 1075 → input_max_bits limits < nbits d + k → ¬ small.
Proof. intros Hk Hn [_ Hs]. unfold rounding_size in Hs. lia. Qed.

(** The comparison that fixes the exponent. *)
Lemma ordering_spec e :
  -1075 ≤ e ≤ 1024 →
  match
    (if 0 <=? e
     then s ← shift (denominator r) e; Ok (BigNat.compare (numerator r) s)
     else s ← shift (numerator r) (- e); Ok (BigNat.compare s (denominator r)))
  with
  | Ok c => c = if 0 <=? e then n ?= d * 2 ^ e else n * 2 ^ (- e) ?= d
  | Err er => er = FloatLimit ∧ ¬ small
  end.
Proof.
  intros He. pose proof (wf_numerator r Hr) as Hcn. pose proof (wf_denominator r Hr) as Hcd.
  destruct (Z.leb_spec 0 e) as [H|H].
  - pose proof (shift_cases (denominator r) e Hcd H) as Hs. cbn beta in *.
    destruct (map_err _ _) as [s|er]; cbn [mbind Result_bind].
    + destruct Hs as [[Hc _] Hv]. by rewrite BigNat.compare_spec, Hv.
    + destruct Hs as [-> Hs]. split; [done|]. eapply not_small_den; [|exact Hs]. lia.
  - pose proof (shift_cases (numerator r) (- e) Hcn ltac:(lia)) as Hs. cbn beta in *.
    destruct (map_err _ _) as [s|er]; cbn [mbind Result_bind].
    + destruct Hs as [[Hc _] Hv]. by rewrite BigNat.compare_spec, Hv.
    + destruct Hs as [-> Hs]. split; [done|]. eapply not_small_num; [|exact Hs]. lia.
Qed.

(** The scaling to the grid, and the rounded quotient on it. *)
Lemma scaling_spec e :
  within limits (denominator r) →
  -1075 ≤ e ≤ 1023 → at_least n d e → ¬ at_least n d (e + 1) →
  let scaling := if -1022 <=? e then 52 - e else 1074 in
  match
    ('(num, den) ←
      (if 0 <=? scaling
       then s ← shift (numerator r) scaling; Ok (s, denominator r)
       else s ← shift (denominator r) (- scaling); Ok (numerator r, s));
     Round.rounded_quotient num den)
  with
  | Ok q => q = round_half_even (n * 2 ^ 1074) (d * 2 ^ (grid e + 1074))
  | Err er => er = FloatLimit ∧ ¬ small
  end.
Proof.
  intros [_ Hwd] He Hlo Hhi scaling. destruct (magnitude_positive r Hr Hnz) as [Hn Hd].
  destruct (grid_position n d e Hn Hd ltac:(lia) Hlo Hhi) as (Hg & Hb & Ha & Hpos). cbn zeta in *.
  assert (scaling = - grid e) as Es by (subst scaling; unfold grid; case_match; lia).
  assert (Hgmax : grid e ≤ 971) by (unfold grid; case_match; lia).
  pose proof (wf_numerator r Hr) as Hcn. pose proof (wf_denominator r Hr) as Hcd.
  set (a := n * 2 ^ 1074) in *. set (b := d * 2 ^ (grid e + 1074)) in *.
  assert (a / b < 2 ^ 53) as Hq.
  { apply Z.div_lt_upper_bound; [done|]. destruct (-1022 <=? e); lia. }
  (* a rounded quotient of a common multiple *)
  assert (∀ num den c, canonical num → canonical den → Z.of_nat (length den) + 1 < W64 →
    0 < c → words_val num * c = a → words_val den * c = b →
    Round.rounded_quotient num den = Ok (round_half_even a b)) as Hround.
  { intros num den c Hcnum Hcden Hlen Hc En Ed.
    assert (0 < words_val den) by nia.
    rewrite <- En, <- Ed in Hq |- *. rewrite Z.div_mul_cancel_r in Hq by lia.
    rewrite round_half_even_scale by done. apply rounded_quotient_spec; [done..|lia]. }
  destruct (Z.leb_spec 0 scaling) as [H|H].
  - pose proof (shift_cases (numerator r) scaling Hcn H) as Hs. cbn beta in *.
    destruct (map_err _ _) as [s|er]; cbn [mbind Result_bind];
      [|destruct Hs as [-> Hs]; split; [done|]; eapply not_small_num; [|exact Hs]; lia].
    destruct Hs as [[Hc _] Hv].
    rewrite (Hround s (denominator r) (2 ^ (grid e + 1074))); [done|done|done| | |subst a|done].
    + pose proof (BigNat.budget_length (denominator r) _ Hcd Hwd ltac:(destruct Hlim; lia)). lia.
    + apply Z.pow_pos_nonneg; lia.
    + rewrite Hv, <- Z.mul_assoc, <- Z.pow_add_r by lia. do 2 f_equal. lia.
  - pose proof (shift_cases (denominator r) (- scaling) Hcd ltac:(lia)) as Hs. cbn beta in *.
    destruct (map_err _ _) as [s|er]; cbn [mbind Result_bind];
      [|destruct Hs as [-> Hs]; split; [done|]; eapply not_small_den; [|exact Hs]; lia].
    destruct Hs as [[Hc Hcn'] Hv].
    rewrite (Hround (numerator r) s (2 ^ 1074)); [done|done|done| | |done|subst b].
    + pose proof (BigNat.budget_length s _ Hc Hcn' ltac:(destruct Hlim; lia)). lia.
    + apply Z.pow_pos_nonneg; lia.
    + rewrite Hv, <- Z.mul_assoc, <- Z.pow_add_r by lia. unfold rat_den. do 2 f_equal. lia.
Qed.

(** Rounding once the exponent is fixed. *)
Definition round_at (e : Z) : Result RationalFloatError f64 :=
  let scaling := if -1022 <=? e then 52 - e else 1074 in
  '(num, den) ←
    (if 0 <=? scaling
     then s ← shift (numerator r) scaling; Ok (s, denominator r)
     else s ← shift (denominator r) (- scaling); Ok (numerator r, s));
  q ← Round.rounded_quotient num den;
  assemble (negative r) e q.

(** What a rounding may answer. *)
Definition rounding_outcome (m : Result RationalFloatError f64) : Prop :=
  match m with
  | Ok v => rounded r v ∧ (Qabs (rat_Q r) < overflow_bound)%Q ∧
            (underflow_bound < Qabs (rat_Q r))%Q
  | Err FloatOverflow => (overflow_bound <= Qabs (rat_Q r))%Q
  | Err FloatUnderflow => (Qabs (rat_Q r) <= underflow_bound)%Q
  | Err FloatLimit => ¬ small
  end.

Lemma round_at_spec e :
  within limits (denominator r) →
  -1075 ≤ e ≤ 1023 → at_least n d e → ¬ at_least n d (e + 1) → rounding_outcome (round_at e).
Proof.
  intros Hwd He Hlo Hhi. unfold round_at.
  pose proof (scaling_spec e Hwd He Hlo Hhi) as Hs. cbn zeta in Hs |- *.
  destruct (if 0 <=? _ then _ else _) as [[num den]|er]; cbn [mbind Result_bind] in Hs |- *;
    [|by destruct Hs as [-> Hs]].
  destruct (Round.rounded_quotient num den) as [q|er]; cbn [mbind Result_bind];
    [|by destruct Hs as [-> Hs]].
  subst q. pose proof (assemble_spec r Hr Hnz e ltac:(lia) Hlo Hhi) as Ha.
  unfold rounding_outcome. destruct (assemble _ _ _) as [v|[]]; done.
Qed.

(** Quotients out of range before rounding. *)
Lemma out_of_range e :
  (1023 < e → at_least n d e → (overflow_bound <= Qabs (rat_Q r))%Q) ∧
  (-1200 ≤ e < -1075 → ¬ at_least n d (e + 1) → (Qabs (rat_Q r) <= underflow_bound)%Q).
Proof.
  destruct (magnitude_positive r Hr Hnz) as [Hn Hd]. split.
  - intros He Hlo. apply overflow_iff; [done..|].
    pose proof (at_least_mono n d e 1024 ltac:(lia) ltac:(lia) ltac:(lia) Hlo) as H.
    apply (at_least_scale n d 1024 0) in H; [|lia..]. change (1024 + 0) with 1024 in H.
    rewrite Z.mul_1_r in H. etrans; [|exact H]. rewrite (Z.mul_comm d).
    apply Z.mul_le_mono_nonneg_r; [lia|]. by vm_compute.
  - intros He Hhi. apply underflow_iff; [done..|].
    assert (¬ at_least n d (-1075)) as H.
    { intros H. apply Hhi. apply (at_least_mono n d (-1075)); [lia|lia|lia|done]. }
    rewrite (at_least_scale n d (-1075) 1075) in H by lia. change (2 ^ (-1075 + 1075)) with 1 in H. lia.
Qed.

Lemma i64_try_from_cases x :
  match Round.i64_try_from x with
  | Ok y => y = x ∧ x < 2 ^ 63
  | Err er => er = FloatLimit ∧ 2 ^ 63 ≤ x
  end.
Proof. unfold Round.i64_try_from. destruct (Z.ltb_spec x (2 ^ 63)); [done|]. split; [done|lia]. Qed.

Lemma huge_quotient :
  (1024 < nbits n - nbits d → (overflow_bound <= Qabs (rat_Q r))%Q) ∧
  (nbits n - nbits d < -1075 → (Qabs (rat_Q r) <= underflow_bound)%Q).
Proof.
  destruct (magnitude_positive r Hr Hnz) as [Hn Hd]. split; intros H.
  - apply (proj1 (out_of_range (nbits n - nbits d - 1))); [lia|].
    by apply at_least_bits; [..|lia].
  - apply underflow_iff; [done..|]. pose proof (nbits_lower d Hd). pose proof (nbits_spec n ltac:(lia)).
    pose proof (nbits_pos n Hn).
    transitivity (2 ^ nbits n * 2 ^ 1075);
      [apply Z.mul_le_mono_nonneg_r; [apply Z.pow_nonneg; lia|lia]|].
    rewrite <- Z.pow_add_r by lia. transitivity (2 ^ (nbits d - 1)); [|done].
    apply Z.pow_le_mono_r; lia.
Qed.

Lemma to_f64_rounded_nonzero : rounding_outcome (Round.to_f64_rounded r limits).
Proof.
  unfold Round.to_f64_rounded. pose proof (check_limit_cases r limits Hr) as Hc.
  destruct (Exact.check_limit r limits) as [u|er] eqn:Ec; cbn [map_err mbind Result_bind]; cycle 1.
  { cbn. intros Hs. rewrite (check_limit_total limits (rounding_size limits)) in Ec; [done|done|done|].
    unfold rounding_size. lia. }
  unfold Exact.is_zero. rewrite bool_decide_false by done.
  destruct Hc as [[Hwn Hbn] Hwd]. pose proof (wf_denominator r Hr) as Hcd.
  rewrite !BigNat.natural_bits by done. change (words_val (denominator r)) with d.
  pose proof (i64_try_from_cases (nbits n)) as Hi.
  destruct (Round.i64_try_from (nbits n)) as [x|er]; cbn [mbind Result_bind]; cycle 1.
  { destruct Hi as [-> Hi]. intros [Hs _]. unfold rounding_size in Hs. lia. }
  destruct Hi as [-> _]. pose proof (i64_try_from_cases (nbits d)) as Hi.
  destruct (Round.i64_try_from (nbits d)) as [x|er]; cbn [mbind Result_bind]; cycle 1.
  { destruct Hi as [-> Hi]. intros [_ Hs]. unfold rounding_size in Hs. lia. }
  destruct Hi as [-> _]. destruct huge_quotient as [Hbig Htiny].
  destruct (magnitude_positive r Hr Hnz) as [Hn Hd].
  set (e := nbits n - nbits d) in *.
  destruct (Z.ltb_spec 1024 e) as [H1|H1]; [by apply Hbig|].
  destruct (Z.ltb_spec e (-1075)) as [H2|H2]; [by apply Htiny|].
  destruct (at_least_bits n d e Hn Hd eq_refl ltac:(lia)) as [Hlo Hhi].
  pose proof (ordering_spec e ltac:(lia)) as Ho.
  pose proof (compare_at_least n d e ltac:(lia)) as Hcmp. cbn zeta in Hcmp.
  destruct (if 0 <=? e then _ ≫= _ else _) as [c|er]; cbn [mbind Result_bind]; [|by destruct Ho as [-> Ho]].
  rewrite <- Ho in Hcmp. clear Ho.
  assert (∃ e', (match c with Lt => e - 1 | _ => e end) = e' ∧ -1076 ≤ e' ≤ 1024 ∧
    at_least n d e' ∧ ¬ at_least n d (e' + 1)) as (e' & -> & He' & Hlo' & Hhi').
  { destruct c; cbn in Hcmp; eexists; (split; [done|]); (split; [lia|]); try done.
    by replace (e - 1 + 1) with e by lia. }
  destruct (Z.ltb_spec 1023 e'); [by apply (proj1 (out_of_range e'))|].
  destruct (Z.ltb_spec e' (-1075)); [apply (proj2 (out_of_range e')); [lia|done]|].
  apply (round_at_spec e'); [done|lia|done|done].
Qed.
End to_f64_lemmas.

(** The outcome of a correct conversion, branch by branch. *)
Definition rounding_result (limits : ExactInputLimits) (r : ExactRational) (m : Result RationalFloatError f64) : Prop :=
  match m with
  | Ok v => if Exact.is_zero r then v = f64_zero
            else rounded r v ∧ (Qabs (rat_Q r) < overflow_bound)%Q ∧
                 (underflow_bound < Qabs (rat_Q r))%Q
  | Err FloatOverflow => (overflow_bound <= Qabs (rat_Q r))%Q
  | Err FloatUnderflow => ¬ (rat_Q r == 0)%Q ∧ (Qabs (rat_Q r) <= underflow_bound)%Q
  | Err FloatLimit => ¬ size_le (rounding_size limits) r
  end.

Lemma to_f64_rounded_cases limits r :
  limits_ok limits → rat_wf r → rounding_result limits r (Round.to_f64_rounded r limits).
Proof.
  intros Hl Hr. unfold rounding_result, Exact.is_zero. case_bool_decide as Hz.
  - unfold Round.to_f64_rounded, Exact.is_zero. rewrite bool_decide_true by done.
    destruct (Exact.check_limit r limits) eqn:Ec; cbn [map_err mbind Result_bind]; [done|].
    intros Hs. rewrite (check_limit_total limits (rounding_size limits)) in Ec; [done..|].
    unfold rounding_size. lia.
  - pose proof (to_f64_rounded_nonzero limits Hl r Hr Hz) as H. unfold rounding_outcome in H.
    destruct (Round.to_f64_rounded r limits) as [v|[]]; [done..|].
    split; [by rewrite rat_Q_zero_iff|done].
Qed.

(** [C25] Rounding to binary64 is correct: zero gives positive zero; otherwise a
    returned value is the nearest binary64 value of the same sign with ties to
    even, overflow is reported exactly from [2^1024 - 2^970] on, underflow exactly
    up to [2^-1075], and the budget is exhausted only on targets whose components
    come within 1075 bits of it. *)
Theorem to_f64_rounded_spec limits r :
  limits_ok limits → rat_wf r →
  match Round.to_f64_rounded r limits with
  | Ok v => if Exact.is_zero r then v = f64_zero
            else rounded r v ∧ (Qabs (rat_Q r) < overflow_bound)%Q ∧
                 (underflow_bound < Qabs (rat_Q r))%Q
  | Err FloatOverflow => (overflow_bound <= Qabs (rat_Q r))%Q
  | Err FloatUnderflow => ¬ (rat_Q r == 0)%Q ∧ (Qabs (rat_Q r) <= underflow_bound)%Q
  | Err FloatLimit => ¬ size_le (rounding_size limits) r
  end.
Proof. apply to_f64_rounded_cases. Qed.

Lemma to_f64_rounded_spec_witness :
  Round.to_f64_rounded (mkExactRational true [1] [3]) ExactInputLimits_default
    = Ok (from_bits 0xBFD5555555555555) ∧
  rounded (mkExactRational true [1] [3]) (from_bits 0xBFD5555555555555).
Proof.
  assert (Round.to_f64_rounded (mkExactRational true [1] [3]) ExactInputLimits_default
    = Ok (from_bits 0xBFD5555555555555)) as E by (vm_compute; reflexivity).
  split; [exact E|].
  assert (limits_ok ExactInputLimits_default) as Hl by (split; [split|split]; done).
  pose proof (to_f64_rounded_spec _ (mkExactRational true [1] [3]) Hl ltac:(solve_rat_wf)) as H.
  rewrite E in H. exact (proj1 H).
Defined.

(** ** Patterns are determined by their values, the two zeros apart *)

Lemma f64_significand_exponent v :
  f64_ok v →
  (2 ^ 52 ≤ f64_significand v ↔ f64_exponent v ≠ 0) ∧
  (f64_significand v < 2 ^ 52 → f64_power v = -1074).
Proof.
  intros Hv. destruct (f64_fields v Hv) as (_ & He & Hf). unfold f64_significand, f64_power.
  destruct (Z.eqb_spec (f64_exponent v) 0); (split; [split; lia|lia]).
Qed.

Lemma f64_units_inj v w :
  f64_ok v → f64_ok w → f64_units v ≠ 0 → f64_units v = f64_units w → v = w.
Proof.
  intros Hv Hw Hnz E. unfold f64_units in *.
  destruct (f64_significand_bounds v Hv) as (Hsv & Hpv & _).
  destruct (f64_significand_bounds w Hw) as (Hsw & Hpw & _).
  destruct (f64_significand_exponent v Hv) as [Hev Hev']. destruct (f64_significand_exponent w Hw) as [Hew Hew'].
  assert (0 < 2 ^ (f64_power v + 1074)) by (apply Z.pow_pos_nonneg; lia).
  assert (0 < 2 ^ (f64_power w + 1074)) by (apply Z.pow_pos_nonneg; lia).
  assert (f64_sign v = f64_sign w) as Hsign.
  { destruct (f64_sign v), (f64_sign w); cbn [signed] in *; nia || done. }
  assert (f64_significand v * 2 ^ (f64_power v + 1074) = f64_significand w * 2 ^ (f64_power w + 1074)) as Hm.
  { rewrite Hsign in E. destruct (f64_sign w); cbn [signed] in E; lia. }
  assert (∀ s1 p1 s2 p2, 0 ≤ s1 < 2 ^ 53 → 2 ^ 52 ≤ s2 → -1074 ≤ p1 < p2 →
    s1 * 2 ^ (p1 + 1074) = s2 * 2 ^ (p2 + 1074) → False) as Hne.
  { intros s1 p1 s2 p2 Hs1 Hs2 Hp Heq.
    assert (2 ^ 1 * 2 ^ (p1 + 1074) ≤ 2 ^ (p2 + 1074)) as Hle.
    { rewrite <- Z.pow_add_r by lia. apply Z.pow_le_mono_r; lia. }
    pose proof (Z.pow_pos_nonneg 2 (p1 + 1074) ltac:(lia) ltac:(lia)).
    change (2 ^ 53) with (2 ^ 52 * 2) in Hs1. change (2 ^ 1) with 2 in Hle. nia. }
  assert (f64_power v = f64_power w) as Hpow.
  { destruct (Z.lt_trichotomy (f64_power v) (f64_power w)) as [Hlt|[?|Hlt]]; [exfalso|done|exfalso].
    - eapply Hne; [exact Hsv| |split; [exact Hpv|exact Hlt]|exact Hm]. lia.
    - eapply Hne; [exact Hsw| |split; [exact Hpw|exact Hlt]|symmetry; exact Hm]. lia. }
  rewrite Hpow in Hm. apply Z.mul_cancel_r in Hm; [|lia].
  destruct (f64_fields v Hv) as (Hbv & _). destruct (f64_fields w Hw) as (Hbw & _).
  assert (f64_exponent v = f64_exponent w ∧ f64_fraction v = f64_fraction w) as [Hexp Hfrac].
  { unfold f64_significand, f64_power in *.
    destruct (Z.eqb_spec (f64_exponent v) 0), (Z.eqb_spec (f64_exponent w) 0); lia. }
  rewrite Hsign, Hexp, Hfrac, <- Hbw in Hbv. destruct v, w. cbn in *. by subst.
Qed.

Lemma f64_units_range v :
  f64_ok v → is_finite v = true → Z.abs (f64_units v) ≤ (2 ^ 53 - 1) * 2 ^ 2045.
Proof.
  intros Hv Hfin. destruct (f64_significand_bounds v Hv) as (Hs & Hp & Hp'). specialize (Hp' Hfin).
  unfold f64_units. assert (0 < 2 ^ (f64_power v + 1074)) by (apply Z.pow_pos_nonneg; lia).
  assert (2 ^ (f64_power v + 1074) ≤ 2 ^ 2045) by (apply Z.pow_le_mono_r; lia).
  assert (Z.abs (signed (f64_sign v) (f64_significand v * 2 ^ (f64_power v + 1074)))
          = f64_significand v * 2 ^ (f64_power v + 1074)) as ->.
  { destruct (f64_sign v); cbn [signed]; nia. }
  apply Z.mul_le_mono_nonneg; lia.
Qed.

Section roundtrip_lemmas.
Context (limits : ExactInputLimits) (Hlim : limits_ok limits).

Lemma dyadic_size neg o p r :
  u64 o → 0 < o → dyadic limits neg o p = Ok r →
  nbits (words_val (numerator r)) = nbits o + Z.max p 0 ∧
  nbits (rat_den r) = 1 + Z.max (- p) 0.
Proof.
  intros Ho Ho0 H. unfold dyadic in H. assert (words_val [o] = o) as Hvo by (cbn [words_val]; lia).
  apply bind_ok in H as ([num den] & H & Hr).
  apply bind_ok in Hr as (_ & _ & Hr). apply bind_ok in Hr as (_ & _ & [= <-]).
  unfold rat_den. cbn [numerator denominator]. destruct (Z.leb_spec 0 p) as [Hp|Hp].
  - apply bind_ok in H as (s & Hs & [= <- <-]).
    pose proof (shift_word limits Hlim o p Ho Ho0 Hp) as Hw. case_decide; [|congruence].
    destruct Hw as (s' & Hs' & _ & Hv). rewrite Hs' in Hs. injection Hs as <-.
    rewrite Hv, nbits_shiftl by done. change (nbits (words_val [1])) with 1. lia.
  - apply bind_ok in H as (s & Hs & [= <- <-]).
    pose proof (shift_word limits Hlim 1 (- p) ltac:(split; lia) ltac:(lia) ltac:(lia)) as Hw.
    case_decide; [|congruence].
    destruct Hw as (s' & Hs' & _ & Hv). rewrite Hs' in Hs. injection Hs as <-.
    rewrite Hv, nbits_shiftl, Hvo by lia. change (nbits 1) with 1. lia.
Qed.

Lemma from_f64_size v r :
  f64_ok v → Exact.from_f64 v limits = Ok r → size_le 1075 r.
Proof.
  intros Hv H. rewrite from_f64_eq in H by done.
  destruct (f64_significand_bounds v Hv) as (Hs & Hp & Hfin).
  destruct (is_finite v); cbn [negb] in H; [|done]. specialize (Hfin eq_refl). cbn zeta in H.
  destruct (Z.eqb_spec (f64_significand v) 0) as [E|E].
  - apply bind_ok in H as (_ & _ & [= <-]). by split.
  - destruct (odd_significand (f64_significand v)) as (Ht & Hou & Ho0 & Hodd & Es); [lia|split; lia|].
    assert (nbits (f64_significand v) ≤ 53) as Hn by (apply nbits_le_iff; lia).
    rewrite Es, nbits_shiftl in Hn by done.
    apply dyadic_size in H as [H1 H2]; [|done|done]. unfold size_le. rewrite H1, H2. lia.
Qed.

(** Finite values stay within both bounds of the rounding. *)
Lemma f64_in_range v :
  f64_ok v → is_finite v = true →
  (Qabs (f64_Q v) < overflow_bound)%Q ∧
  ((Qabs (f64_Q v) <= underflow_bound)%Q → f64_units v = 0).
Proof.
  intros Hv Hfin. pose proof (f64_units_range v Hv Hfin) as Hr.
  assert (0 < 2 ^ 1074 ∧ 0 < 2 ^ 1075) as [H1 H2] by (split; apply Z.pow_pos_nonneg; lia).
  rewrite f64_Q_units by done. cbn [Qabs]. unfold overflow_bound, underflow_bound, inject_Z. split.
  - unfold Qlt. cbn [Qnum Qden]. rewrite Z2Pos.id, Z.mul_1_r by done.
    eapply Z.le_lt_trans; [exact Hr|]. by vm_compute.
  - unfold Qle. cbn [Qnum Qden]. rewrite !Z2Pos.id by done.
    assert (2 ^ 1075 = 2 * 2 ^ 1074) as -> by (change 1075 with (1 + 1074); rewrite Z.pow_add_r by lia; lia).
    revert H1. generalize (2 ^ 1074). intros x Hx Hle. nia.
Qed.
End roundtrip_lemmas.

Lemma Qabs_zero x : (Qabs x == 0)%Q → (x == 0)%Q.
Proof. destruct x as [p q]. unfold Qeq. cbn. lia. Qed.

(** Exact input and rounding invert each other: every finite binary64 value
    comes back unchanged from the exact rationals, except that negative zero
    becomes positive zero. *)
Theorem f64_roundtrip limits v r :
  limits_ok limits → f64_ok v → 2150 ≤ input_max_bits limits →
  Exact.from_f64 v limits = Ok r →
  Round.to_f64_rounded r limits = Ok (if f64_significand v =? 0 then f64_zero else v).
Proof.
  intros Hl Hv Hm H. pose proof (from_f64_size limits Hl v r Hv H) as Hsize.
  pose proof (from_f64_sound limits Hl v Hv) as Hf. rewrite H in Hf. destruct Hf as (Hfin & Hr & HQ).
  assert (size_le (rounding_size limits) r) as Hsmall.
  { destruct Hsize. unfold rounding_size. split; lia. }
  assert (numerator r = [] ↔ f64_significand v = 0) as Hzero.
  { rewrite <- (rat_Q_zero_iff r Hr), HQ, f64_Q_units by done. unfold Qeq. cbn [Qnum Qden].
    destruct (f64_significand_bounds v Hv) as (Hs & Hp & _).
    assert (0 < 2 ^ (f64_power v + 1074)) by (apply Z.pow_pos_nonneg; lia).
    unfold f64_units. destruct (f64_sign v); cbn [signed]; nia. }
  destruct (Z.eqb_spec (f64_significand v) 0) as [E|E].
  - unfold Round.to_f64_rounded, Exact.is_zero. apply Hzero in E.
    rewrite (check_limit_total limits 1075 r Hr Hsize) by lia. by rewrite bool_decide_true.
  - assert (numerator r ≠ []) as Hnz by tauto. destruct (f64_in_range v Hv Hfin) as [Hover Hunder].
    pose proof (to_f64_rounded_nonzero limits Hl r Hr Hnz) as Ho. unfold rounding_outcome in Ho.
    assert (f64_units v ≠ 0) as Hu.
    { intros Hu. apply Hnz, rat_Q_zero_iff; [done|]. by rewrite HQ, f64_Q_units, Hu. }
    destruct (Round.to_f64_rounded r limits) as [w|[]]; [|done| |].
    + f_equal. destruct Ho as ((Hwok & Hwfin & _ & Hnear) & _). symmetry.
      apply f64_units_inj; [done|done|done|].
      destruct (Hnear v Hv Hfin) as [Hle _]. rewrite HQ in Hle.
      assert (f64_Q w == f64_Q v)%Q as Hwv.
      { assert (f64_Q v - f64_Q v == 0)%Q as Hself by ring. rewrite Hself in Hle.
        pose proof (Qabs_nonneg (f64_Q v - f64_Q w)) as Hge. change (Qabs 0) with 0%Q in Hle.
        assert (Qabs (f64_Q v - f64_Q w) == 0)%Q as Habs by (by apply Qle_antisym).
        apply Qabs_zero in Habs.
        assert (f64_Q w == f64_Q v - (f64_Q v - f64_Q w))%Q as -> by ring. rewrite Habs. ring. }
      rewrite !f64_Q_units in Hwv by done. unfold Qeq in Hwv. cbn [Qnum Qden] in Hwv. 
      symmetry. by apply Z.mul_cancel_r in Hwv.
    + exfalso. rewrite HQ in Ho. by apply (Qlt_not_le _ _ Hover).
    + exfalso. rewrite HQ in Ho. by apply Hu, Hunder.
Qed.

Lemma f64_roundtrip_witness :
  Round.to_f64_rounded (mkExactRational false [1] [9007199254740992]) ExactInputLimits_default
    = Ok (from_bits 0x3CA0000000000000).
Proof.
  assert (limits_ok ExactInputLimits_default) as Hl by (split; [split|split]; done).
  exact (f64_roundtrip ExactInputLimits_default (from_bits 0x3CA0000000000000)
    (mkExactRational false [1] [9007199254740992]) Hl ltac:(split; done) ltac:(done)
    ltac:(vm_compute; reflexivity)).
Defined.
