(* ===== verification/Certified.v ===== *)
(** * number/certified.rs: replayable exact derivations

    A derivation is a program of algebraic rules over earlier results. [replay]
    builds the expanded term and the exact rational of each step under explicit
    budgets. The abstract side is the proof system [Meaning], which knows terms
    and rationals but no budgets: replay refines it, every meaningful program is
    sound over the reals, and the synthesizer only writes meaningful programs. *)

From Stdlib Require Import QArith.
From S2P Require Import Prelude Words Terms Encoding Operations ExactNat Float Exact ExactInput.
#[local] Open Scope Z_scope.

Record ExactSynthesisOptions : Set := mkExactSynthesisOptions {
  rational : ExactInputLimits;
  max_bits : Z;
  max_steps : Z;
  max_total_bits : Z;
  max_recursion : Z;
}.

Definition ExactSynthesisOptions_default : ExactSynthesisOptions :=
  mkExactSynthesisOptions ExactInputLimits_default DEFAULT_MAX_BITS 4096 (16 * DEFAULT_MAX_BITS) 128.

(** [ExactStep]; step references are list positions. *)
Inductive ExactStep : Set :=
  | StepOne
  | StepZero
  | Exp2 (a : nat)
  | PowerDifference (a b : nat)
  | Add (a b : nat)
  | Sub (a b : nat)
  | Neg (a : nat)
  | PositiveMul (a b : nat)
  | PositiveDiv (a b : nat).

Record ExactDerivation : Set := mkExactDerivation {
  steps : list ExactStep;
  root : nat;
}.

(** [ExactError]; its variant [Limit] is [ProofLimit]. *)
Inductive ExactError : Set :=
  | Rational (e : ExactInputError)
  | Build (e : BuildError)
  | ProofLimit
  | InvalidProof
  | DomainNotJustified.

Record CertifiedBml : Set := mkCertifiedBml {
  term : Bml;
  target : ExactRational;
  derivation : ExactDerivation;
}.

#[global] Instance ExactStep_eq_dec : EqDecision ExactStep.
Proof. solve_decision. Defined.
#[global] Instance ExactDerivation_eq_dec : EqDecision ExactDerivation.
Proof. solve_decision. Defined.
#[global] Instance ExactError_eq_dec : EqDecision ExactError.
Proof. solve_decision. Defined.

Module Certified.
Abbreviation Result := (Result ExactError).

(** The conversions of the question-mark operator. *)
Definition from_input {A} (m : Prelude.Result ExactInputError A) : Result A := map_err Rational m.
Definition from_build {A} (m : Prelude.Result BuildError A) : Result A := map_err Build m.

(** ** Replay *)

Definition get (results : list (Bml * ExactRational)) (i : nat) : Result (Bml * ExactRational) :=
  ok_or InvalidProof (results !! i).

(** The [match *step] of [replay]: the term and the value of one step. *)
Definition step_pair (options : ExactSynthesisOptions) (rules : Rules)
    (results : list (Bml * ExactRational)) (step : ExactStep) : Result (Bml * ExactRational) :=
  let binary a b (k : Bml → ExactRational → Bml → ExactRational → Result (Bml * ExactRational)) :=
    '(l, x) ← get results a; '(r, y) ← get results b; k l x r y in
  match step with
  | StepOne => Ok (one, Exact.from_i64 1)
  | StepZero =>
      two ← from_build (op_with_limit one one (rules_max_bits rules));
      four ← from_build (op_with_limit two one (rules_max_bits rules));
      zero ← from_build (op_with_limit one four (rules_max_bits rules));
      Ok (zero, Exact.from_i64 0)
  | Exp2 a =>
      '(term, value) ← get results a;
      value ← from_input (Exact.checked_exp2 value (rational options));
      built ← from_build (Rules.exp2 rules term);
      Ok (built, value)
  | PowerDifference a b =>
      binary a b (λ l x r y,
        power ← from_input (Exact.checked_exp2 x (rational options));
        value ← from_input (Exact.checked_sub power y (rational options));
        inner ← from_build (Rules.exp2 rules r);
        built ← from_build (op_with_limit l inner (rules_max_bits rules));
        Ok (built, value))
  | Neg a =>
      '(term, value) ← get results a;
      built ← from_build (Rules.neg rules term);
      Ok (built, Exact.negated value)
  | Add a b =>
      binary a b (λ l x r y,
        built ← from_build (Rules.add rules l r);
        value ← from_input (Exact.checked_add x y (rational options));
        Ok (built, value))
  | Sub a b =>
      binary a b (λ l x r y,
        built ← from_build (Rules.sub rules l r);
        value ← from_input (Exact.checked_sub x y (rational options));
        Ok (built, value))
  | PositiveMul a b =>
      binary a b (λ l x r y,
        if negative x || Exact.is_zero x || negative y || Exact.is_zero y
        then Err DomainNotJustified
        else
          built ← from_build (Rules.mul rules l r);
          value ← from_input (Exact.checked_mul x y (rational options));
          Ok (built, value))
  | PositiveDiv a b =>
      binary a b (λ l x r y,
        if negative x || Exact.is_zero x || negative y || Exact.is_zero y
        then Err DomainNotJustified
        else
          built ← from_build (Rules.div rules l r);
          value ← from_input (Exact.checked_div x y (rational options));
          Ok (built, value))
  end.

(** The body of the replay loop; its state is [results] and [total]. *)
Definition replay_step (options : ExactSynthesisOptions) (step : ExactStep)
    (state : list (Bml * ExactRational) * Z) : Result (list (Bml * ExactRational) * Z) :=
  let '(results, total) := state in
  let rules := mkRules (Z.min (max_bits options) (max_total_bits options - total)) in
  pair ← step_pair options rules results step;
  if (max_bits options <? bit_len pair.1)
     || (input_max_bits (rational options) <? BigNat.bit_len (numerator pair.2))
     || (input_max_bits (rational options) <? BigNat.bit_len (denominator pair.2))
  then Err ProofLimit
  else
    total ← ok_or ProofLimit (checked_add total (bit_len pair.1));
    if max_total_bits options <? total then Err ProofLimit
    else Ok (results ++ [pair], total).

Definition replay (self : ExactDerivation) (options : ExactSynthesisOptions)
  : Result (Bml * ExactRational) :=
  if max_steps options <? Z.of_nat (length (steps self)) then Err ProofLimit
  else if Z.of_nat (length (steps self)) <=? Z.of_nat (root self) then Err InvalidProof
  else
    '(results, _) ← for_each (replay_step options) (steps self) ([], 0);
    ok_or InvalidProof (results !! root self).

Definition certify (self : ExactDerivation) (options : ExactSynthesisOptions)
  : Result CertifiedBml :=
  '(term, target) ← replay self options;
  Ok (mkCertifiedBml term target self).

Definition verify (self : ExactDerivation) (term : Bml) (target : ExactRational)
    (options : ExactSynthesisOptions) : Result CertifiedBml :=
  '(actual_term, actual_target) ← replay self options;
  if negb (bool_decide (actual_term = term)) || negb (bool_decide (actual_target = target))
  then Err InvalidProof
  else Ok (mkCertifiedBml actual_term actual_target self).

(** ** Synthesis *)

Record Synthesizer : Type := mkSynthesizer {
  synth_steps : list ExactStep;
  integers : gmap (list Z) nat;
}.

Definition push (options : ExactSynthesisOptions) (s : Synthesizer) (step : ExactStep)
  : Result (nat * Synthesizer) :=
  if max_steps options <=? Z.of_nat (length (synth_steps s)) then Err ProofLimit
  else Ok (length (synth_steps s), mkSynthesizer (synth_steps s ++ [step]) (integers s)).

Definition total_ones (words : list Z) : Z := foldr (λ w n, count_ones w + n) 0 words.

(** [Synthesizer::integer]. The fuel is the recursion budget the code has left:
    [depth > max_recursion] is exactly its exhaustion. *)
Fixpoint integer (options : ExactSynthesisOptions) (fuel : nat) (words : list Z)
    (s : Synthesizer) : Result (nat * Synthesizer) :=
  match fuel with
  | O => Err ProofLimit
  | S fuel =>
      if input_max_bits (rational options) <? BigNat.bit_len words then Err ProofLimit
      else
        match integers s !! words with
        | Some index => Ok (index, s)
        | None =>
            '(step, s) ←
              match words with
              | [] => Ok (StepZero, s)
              | [1] => Ok (StepOne, s)
              | _ =>
                  let bits := BigNat.bit_len words in
                  if total_ones words =? 1 then
                    let exponent := bits - 1 in
                    let exponent_words := if exponent =? 0 then [] else [exponent] in
                    '(i, s) ← integer options fuel exponent_words s;
                    Ok (Exp2 i, s)
                  else
                    remainder ← from_input
                      (BigNat.shift_left [1] bits (input_max_bits (rational options)));
                    let remainder := BigNat.subtract remainder words in
                    '(i, s) ← integer options fuel [bits] s;
                    '(j, s) ← integer options fuel remainder s;
                    Ok (PowerDifference i j, s)
              end;
            '(index, s) ← push options s step;
            Ok (index, mkSynthesizer (synth_steps s) (<[words := index]> (integers s)))
        end
  end.

(** The recursion budget at depth 0. *)
Definition recursion_fuel (options : ExactSynthesisOptions) : nat :=
  S (Z.to_nat (max_recursion options)).

Definition from_rational_exact (claim : ExactRational) (options : ExactSynthesisOptions)
  : Result CertifiedBml :=
  let synth := mkSynthesizer [] ∅ in
  '(root, synth) ← integer options (recursion_fuel options) (numerator claim) synth;
  '(root, synth) ←
    (if negb (bool_decide (denominator claim = [1])) then
       '(bottom, synth) ← integer options (recursion_fuel options) (denominator claim) synth;
       push options synth (PositiveDiv root bottom)
     else Ok (root, synth));
  '(root, synth) ←
    (if negative claim then push options synth (Neg root) else Ok (root, synth));
  result ← certify (mkExactDerivation (synth_steps synth) root) options;
  if negb (bool_decide (target result = claim)) then Err InvalidProof
  else Ok result.

Definition from_decimal_str_exact_with_options (text : string)
    (options : ExactSynthesisOptions) : Result CertifiedBml :=
  target ← from_input (Exact.from_decimal_str text (rational options));
  from_rational_exact target options.

Definition from_decimal_str_exact (text : string) : Result CertifiedBml :=
  from_decimal_str_exact_with_options text ExactSynthesisOptions_default.

Definition from_f64_exact_with_options (value : f64) (options : ExactSynthesisOptions)
  : Result CertifiedBml :=
  target ← from_input (Exact.from_f64 value (rational options));
  from_rational_exact target options.

Definition from_f64_exact (value : f64) : Result CertifiedBml :=
  from_f64_exact_with_options value ExactSynthesisOptions_default.
End Certified.

(** ** The proof system *)

(** The term a step denotes, given the terms of the earlier steps. *)
Definition step_term (ts : list ClosedTerm) (step : ExactStep) : option ClosedTerm :=
  match step with
  | StepOne => Some One
  | StepZero => Some (T_log2 One)
  | Exp2 a => T_exp2 <$> ts !! a
  | PowerDifference a b => x ← ts !! a; y ← ts !! b; Some (Op x (T_exp2 y))
  | Add a b => x ← ts !! a; y ← ts !! b; Some (T_add x y)
  | Sub a b => x ← ts !! a; y ← ts !! b; Some (T_sub x y)
  | Neg a => T_neg <$> ts !! a
  | PositiveMul a b => x ← ts !! a; y ← ts !! b; Some (T_mul x y)
  | PositiveDiv a b => x ← ts !! a; y ← ts !! b; Some (T_div x y)
  end.

(** The rational a step denotes, under the rule's domain condition. *)
Inductive step_value (vs : list ExactRational) : ExactStep → Q → Prop :=
  | value_One : step_value vs StepOne 1
  | value_Zero : step_value vs StepZero 0
  | value_Exp2 a x : vs !! a = Some x → rat_den x = 1 →
      step_value vs (Exp2 a) (scaleQ 1 (rat_num x))
  | value_PowerDifference a b x y : vs !! a = Some x → vs !! b = Some y → rat_den x = 1 →
      step_value vs (PowerDifference a b) (scaleQ 1 (rat_num x) - rat_Q y)
  | value_Add a b x y : vs !! a = Some x → vs !! b = Some y →
      step_value vs (Add a b) (rat_Q x + rat_Q y)
  | value_Sub a b x y : vs !! a = Some x → vs !! b = Some y →
      step_value vs (Sub a b) (rat_Q x - rat_Q y)
  | value_Neg a x : vs !! a = Some x → step_value vs (Neg a) (- rat_Q x)
  | value_PositiveMul a b x y : vs !! a = Some x → vs !! b = Some y →
      (0 < rat_Q x)%Q → (0 < rat_Q y)%Q → step_value vs (PositiveMul a b) (rat_Q x * rat_Q y)
  | value_PositiveDiv a b x y : vs !! a = Some x → vs !! b = Some y →
      (0 < rat_Q x)%Q → (0 < rat_Q y)%Q → step_value vs (PositiveDiv a b) (rat_Q x / rat_Q y).

(** A program, the terms and the rationals of its steps. *)
Inductive Meaning : list ExactStep → list ClosedTerm → list ExactRational → Prop :=
  | Meaning_nil : Meaning [] [] []
  | Meaning_snoc ss ts vs step t v q :
      Meaning ss ts vs → step_term ts step = Some t → step_value vs step q →
      rat_wf v → (rat_Q v == q)%Q → Meaning (ss ++ [step]) (ts ++ [t]) (vs ++ [v]).

(** What a certificate claims: its target and the term behind its words are those
    of the root of a meaningful program. *)
Definition certified (c : CertifiedBml) : Prop :=
  ∃ ts vs t, Meaning (steps (derivation c)) ts vs ∧
    ts !! root (derivation c) = Some t ∧ vs !! root (derivation c) = Some (target c) ∧
    Represents (term c) t.

(** Budgets the model accepts: [usize] values, with room in the bit budgets. *)
Definition options_ok (o : ExactSynthesisOptions) : Prop :=
  limits_ok (rational o) ∧ usize (max_bits o) ∧ usize (max_steps o) ∧
  usize (max_total_bits o) ∧ 0 ≤ max_recursion o.

(** Failures that only a larger budget can repair. *)
Definition is_resource (e : ExactError) : bool :=
  match e with Rational InputLimit | Build _ | ProofLimit => true | _ => false end.

Section meaning_lemmas.
Implicit Types (ss : list ExactStep) (ts : list ClosedTerm) (vs : list ExactRational).

Lemma Meaning_length ss ts vs :
  Meaning ss ts vs → length ts = length ss ∧ length vs = length ss.
Proof. induction 1; rewrite ?length_app; simpl; lia. Qed.

Lemma Meaning_wf ss ts vs : Meaning ss ts vs → Forall rat_wf vs.
Proof. induction 1; [constructor|]. apply Forall_app; split; [done|by apply Forall_singleton]. Qed.

Lemma Meaning_lookup_wf ss ts vs i v : Meaning ss ts vs → vs !! i = Some v → rat_wf v.
Proof. intros H Hi. eapply Forall_lookup_1; [by eapply Meaning_wf|done]. Qed.

(** More steps do not change the meaning of a step. *)
Lemma step_term_app ts ts' step t : step_term ts step = Some t → step_term (ts ++ ts') step = Some t.
Proof.
  assert (∀ i x, ts !! i = Some x → (ts ++ ts') !! i = Some x) as Hl
    by (intros; by apply lookup_app_l_Some).
  destruct step; cbn [step_term]; try done; intros H;
    repeat match goal with
    | H : _ ≫= _ = Some _ |- _ => apply bind_Some in H as (? & ? & ?)
    | H : _ <$> _ = Some _ |- _ => apply fmap_Some in H as (? & ? & ?)
    end; subst;
    repeat match goal with H : ts !! _ = Some _ |- _ => rewrite (Hl _ _ H); clear H; cbn end; done.
Qed.

Lemma step_value_app vs vs' step q : step_value vs step q → step_value (vs ++ vs') step q.
Proof. destruct 1; econstructor; eauto using lookup_app_l_Some. Qed.

(** Meanings are unique. *)
Lemma step_value_fun vs step q q' : step_value vs step q → step_value vs step q' → (q == q')%Q.
Proof. destruct 1; inversion 1; simplify_eq; reflexivity. Qed.

Lemma Meaning_snoc_inv ss step ts vs :
  Meaning (ss ++ [step]) ts vs → ∃ ts' vs' t v q, ts = ts' ++ [t] ∧ vs = vs' ++ [v] ∧
    Meaning ss ts' vs' ∧ step_term ts' step = Some t ∧ step_value vs' step q ∧
    rat_wf v ∧ (rat_Q v == q)%Q.
Proof.
  intros H. inversion H as [E|ss' ts' vs' step' t v q Hm Ht Hv Hw Hq E]; [by destruct ss|].
  apply app_inj_tail in E as [-> ->]. by exists ts', vs', t, v, q.
Qed.

Lemma Meaning_fun ss ts vs ts' vs' : Meaning ss ts vs → Meaning ss ts' vs' → ts = ts' ∧ vs = vs'.
Proof.
  intros H. revert ts' vs'. induction H as [|ss ts vs step t v q Hm IH Ht Hv Hw Hq]; intros ts' vs' H'.
  { inversion H' as [|? ? ? ? ? ? ? ? ? ? ? ? E]; [done|by destruct ss]. }
  apply Meaning_snoc_inv in H' as (ts0 & vs0 & t' & v' & q' & -> & -> & Hm' & Ht' & Hv' & Hw' & Hq').
  destruct (IH _ _ Hm') as [-> ->]. split; [congruence|]. do 2 f_equal.
  apply rat_Q_inj_lemma; [done|done|]. rewrite Hq, Hq'. by eapply step_value_fun.
Qed.

Lemma Meaning_app_inv ss ss' ts vs :
  Meaning (ss ++ ss') ts vs → ∃ ts1 vs1, Meaning ss ts1 vs1 ∧ ts1 `prefix_of` ts ∧ vs1 `prefix_of` vs.
Proof.
  revert ts vs. induction ss' as [|step ss' IH] using rev_ind; intros ts vs H.
  { rewrite app_nil_r in H. by exists ts, vs. }
  rewrite app_assoc in H.
  apply Meaning_snoc_inv in H as (ts0 & vs0 & t & v & q & -> & -> & Hm & _).
  destruct (IH _ _ Hm) as (ts1 & vs1 & ? & ? & ?). exists ts1, vs1.
  split; [done|]. split; by apply prefix_app_r.
Qed.
End meaning_lemmas.

(** ** Replay refines the proof system *)

(** The replayed pairs stand for the terms and are the rationals. *)
Definition refines (results : list (Bml * ExactRational)) (ts : list ClosedTerm)
    (vs : list ExactRational) : Prop :=
  Forall2 (λ p t, Represents p.1 t) results ts ∧ vs = results.*2.

Section replay_lemmas.
Context (options : ExactSynthesisOptions) (Hopt : options_ok options).

Lemma refines_lookup results ts vs i :
  refines results ts vs →
  match results !! i with
  | Some (b, v) => ∃ t, ts !! i = Some t ∧ vs !! i = Some v ∧ Represents b t
  | None => ts !! i = None ∧ vs !! i = None
  end.
Proof.
  intros [Hf ->]. rewrite list_lookup_fmap. destruct (results !! i) as [[b v]|] eqn:E.
  - destruct (Forall2_lookup_l _ _ _ _ _ Hf E) as (t & Ht & Hr). by exists t.
  - split; [|done]. apply lookup_ge_None. apply lookup_ge_None in E.
    by rewrite <- (Forall2_length _ _ _ Hf).
Qed.

Lemma refines_snoc results ts vs b v t :
  refines results ts vs → Represents b t → refines (results ++ [(b, v)]) (ts ++ [t]) (vs ++ [v]).
Proof.
  intros [Hf ->] Hb. split; [|by rewrite fmap_app]. apply Forall2_app; [done|by constructor].
Qed.

(** What one step of the replay may answer. *)
Definition step_outcome ts vs step (m : Result ExactError (Bml * ExactRational)) : Prop :=
  match m with
  | Ok (b, v) => ∃ t q, step_term ts step = Some t ∧ Represents b t ∧
      step_value vs step q ∧ rat_wf v ∧ (rat_Q v == q)%Q
  | Err e => (is_Some (step_term ts step) → e ≠ InvalidProof) ∧
      (∀ q, is_Some (step_term ts step) → step_value vs step q → is_resource e = true)
  end.

Lemma outcome_resource ts vs step e : is_resource e = true → step_outcome ts vs step (Err e).
Proof. intros He. split; [by intros _ ->|done]. Qed.

(** A budgeted construction followed by the rest of the step. *)
Lemma outcome_build max t (m : Result BuildError Bml) ts vs step k :
  Builds max t m → (∀ c, Represents c t → step_outcome ts vs step (k c)) →
  step_outcome ts vs step (Certified.from_build m ≫= k).
Proof.
  intros Hb Hk. destruct m as [c|e]; cbn [Certified.from_build map_err mbind Result_bind].
  - apply Hk, Hb.
  - by apply outcome_resource.
Qed.

(** A rational operation that is exact or out of budget, then the rest. *)
Lemma outcome_rational (m : Result ExactInputError ExactRational) q ts vs step k :
  match m with Ok v => rat_wf v ∧ (rat_Q v == q)%Q | Err e => e = InputLimit end →
  (∀ v, rat_wf v → (rat_Q v == q)%Q → step_outcome ts vs step (k v)) →
  step_outcome ts vs step (Certified.from_input m ≫= k).
Proof.
  intros Hm Hk. destruct m as [v|e]; cbn [Certified.from_input map_err mbind Result_bind].
  - by apply Hk; apply Hm.
  - subst e. by apply outcome_resource.
Qed.

Lemma sign_guard x : rat_wf x → negative x || Exact.is_zero x = false ↔ (0 < rat_Q x)%Q.
Proof.
  intros Hx. unfold Exact.is_zero, rat_Q, rat_num, Qlt. cbn [Qnum Qden].
  rewrite orb_false_iff, bool_decide_eq_false, Z.mul_1_r, Z.mul_0_l.
  pose proof (words_val_nonneg _ (proj1 (wf_numerator x Hx))). split.
  - intros [-> Hz]. cbn [signed]. by apply canonical_val_pos; [apply Hx|].
  - intros H0. destruct (negative x); cbn [signed] in H0; [lia|]. split; [done|].
    intros Hz. rewrite Hz in H0. cbn in H0. lia.
Qed.

Lemma exp2_cases x :
  rat_wf x →
  match Exact.checked_exp2 x (rational options) with
  | Ok p => rat_wf p ∧ rat_den x = 1 ∧ (rat_Q p == scaleQ 1 (rat_num x))%Q
  | Err NonIntegralExponent => rat_den x ≠ 1
  | Err e => e = InputLimit
  end.
Proof. apply checked_exp2_lemma, Hopt. Qed.

(** [step_pair] on the operands of a binary step. *)
Lemma outcome_binary results ts vs step a b k :
  refines results ts vs →
  (is_Some (step_term ts step) → is_Some (ts !! a) ∧ is_Some (ts !! b)) →
  (∀ l x r y s t, ts !! a = Some s → ts !! b = Some t → vs !! a = Some x → vs !! b = Some y →
    Represents l s → Represents r t → step_outcome ts vs step (k l x r y)) →
  step_outcome ts vs step
    ('(l, x) ← Certified.get results a; '(r, y) ← Certified.get results b; k l x r y).
Proof.
  intros Hr Hdef Hk. unfold Certified.get.
  pose proof (refines_lookup results ts vs a Hr) as Ha. pose proof (refines_lookup results ts vs b Hr) as Hb.
  destruct (results !! a) as [[l x]|]; cbn [ok_or mbind Result_bind]; cycle 1.
  { destruct Ha as [Ha _]. split; [|intros q]; intros [[s Hs] _]%Hdef; congruence. }
  destruct (results !! b) as [[r y]|]; cbn [ok_or mbind Result_bind]; cycle 1.
  { destruct Hb as [Hb _]. split; [|intros q]; intros [_ [s Hs]]%Hdef; congruence. }
  destruct Ha as (s & Hs & Hx & Hl). destruct Hb as (t & Ht & Hy & Hrr). by apply (Hk _ _ _ _ s t).
Qed.

Lemma outcome_unary results ts vs step a k :
  refines results ts vs →
  (is_Some (step_term ts step) → is_Some (ts !! a)) →
  (∀ l x s, ts !! a = Some s → vs !! a = Some x → Represents l s → step_outcome ts vs step (k l x)) →
  step_outcome ts vs step ('(l, x) ← Certified.get results a; k l x).
Proof.
  intros Hr Hdef Hk. unfold Certified.get. pose proof (refines_lookup results ts vs a Hr) as Ha.
  destruct (results !! a) as [[l x]|]; cbn [ok_or mbind Result_bind]; cycle 1.
  { destruct Ha as [Ha _]. split; [|intros q]; intros [s Hs]%Hdef; congruence. }
  destruct Ha as (s & Hs & Hx & Hl). by apply (Hk _ _ s).
Qed.

(** A step that succeeded. *)
Lemma outcome_ok ts vs step b v t q :
  step_term ts step = Some t → Represents b t → step_value vs step q →
  rat_wf v → (rat_Q v == q)%Q → step_outcome ts vs step (Ok (b, v)).
Proof. intros. by exists t, q. Qed.

(** The power of an operand, or the reason there is none. *)
Lemma outcome_exp2 ts vs step a x k :
  vs !! a = Some x → rat_wf x →
  (∀ q, step_value vs step q → rat_den x = 1) →
  (∀ v, rat_wf v → rat_den x = 1 → (rat_Q v == scaleQ 1 (rat_num x))%Q → step_outcome ts vs step (k v)) →
  step_outcome ts vs step
    (Certified.from_input (Exact.checked_exp2 x (rational options)) ≫= k).
Proof.
  intros Ha Hx Hdef Hk. pose proof (exp2_cases x Hx) as Hp.
  destruct (Exact.checked_exp2 x (rational options)) as [v|e];
    cbn [Certified.from_input map_err mbind Result_bind];
    [destruct Hp as (? & ? & ?); by apply Hk|].
  destruct e; try done.
  split; [done|]. intros q _ Hq. by apply Hdef in Hq.
Qed.
End replay_lemmas.

(** The terms of a program, whatever its values: every reference is backward. *)
Fixpoint terms_of (ts : list ClosedTerm) (ss : list ExactStep) : option (list ClosedTerm) :=
  match ss with
  | [] => Some ts
  | step :: ss => t ← step_term ts step; terms_of (ts ++ [t]) ss
  end.

Section replay.
Context (options : ExactSynthesisOptions) (Hopt : options_ok options).
Context (results : list (Bml * ExactRational)) (ts : list ClosedTerm) (vs : list ExactRational).
Context (Href : refines results ts vs) (Hwf : Forall rat_wf vs).
Context (rs : Rules) (Hrs : usize (rules_max_bits rs)).

Lemma vs_wf i v : vs !! i = Some v → rat_wf v.
Proof. intros. by eapply Forall_lookup_1. Qed.

(** The arithmetic lemmas in the form a step uses them. *)
Lemma add_cases_Q x y : rat_wf x → rat_wf y →
  match Exact.checked_add x y (rational options) with
  | Ok v => rat_wf v ∧ (rat_Q v == rat_Q x + rat_Q y)%Q | Err e => e = InputLimit end.
Proof.
  intros. destruct (Exact.checked_add x y (rational options)) eqn:E.
  - by apply (add_sound (rational options) (proj1 Hopt)).
  - by apply (add_err (rational options) (proj1 Hopt)) in E.
Qed.

Lemma sub_cases_Q x y : rat_wf x → rat_wf y →
  match Exact.checked_sub x y (rational options) with
  | Ok v => rat_wf v ∧ (rat_Q v == rat_Q x - rat_Q y)%Q | Err e => e = InputLimit end.
Proof.
  intros Hx Hy. destruct (Exact.checked_sub x y (rational options)) eqn:E.
  - by apply (sub_sound (rational options) (proj1 Hopt)).
  - apply (add_err (rational options) (proj1 Hopt)) in E; [done..|]. by apply negated_sound.
Qed.

Lemma mul_cases_Q x y : rat_wf x → rat_wf y →
  match Exact.checked_mul x y (rational options) with
  | Ok v => rat_wf v ∧ (rat_Q v == rat_Q x * rat_Q y)%Q | Err e => e = InputLimit end.
Proof.
  intros. destruct (Exact.checked_mul x y (rational options)) eqn:E.
  - by apply (mul_sound (rational options) (proj1 Hopt)).
  - by apply (mul_err (rational options) (proj1 Hopt)) in E.
Qed.

Lemma div_cases_Q x y : rat_wf x → rat_wf y → (0 < rat_Q y)%Q →
  match Exact.checked_div x y (rational options) with
  | Ok v => rat_wf v ∧ (rat_Q v == rat_Q x / rat_Q y)%Q | Err e => e = InputLimit end.
Proof.
  intros Hx Hy Hpos. destruct (Exact.checked_div x y (rational options)) eqn:E.
  - destruct (div_sound (rational options) (proj1 Hopt) x y a) as (? & _ & ?); done.
  - apply (div_err (rational options) (proj1 Hopt)) in E; [done..|].
    rewrite <- rat_Q_zero_iff by done. intros H0. rewrite H0 in Hpos. done.
Qed.

Abbreviation outcome step :=
  (step_outcome ts vs step (Certified.step_pair options rs results step)).

(** References of a defined binary step are in range. *)
Lemma binary_defined {A} (f : ClosedTerm → ClosedTerm → A) a b :
  is_Some (x ← ts !! a; y ← ts !! b; Some (f x y)) → is_Some (ts !! a) ∧ is_Some (ts !! b).
Proof. destruct (ts !! a), (ts !! b); cbn; intros [? [=]]; done. Qed.

Lemma unary_defined {A} (f : ClosedTerm → A) a : is_Some (f <$> ts !! a) → is_Some (ts !! a).
Proof. by rewrite fmap_is_Some. Qed.

Ltac defined_term := cbn [step_term];
  repeat match goal with H : ts !! _ = Some _ |- _ => rewrite H; clear H; cbn [mbind option_bind fmap option_fmap option_map] end; done.

Lemma outcome_One : outcome StepOne.
Proof.
  apply (outcome_ok _ _ _ _ _ One 1); [done|apply one_Represents|apply value_One| |];
    [by apply from_i64_lemma|reflexivity].
Qed.

Lemma outcome_Zero : outcome StepZero.
Proof.
  cbn [Certified.step_pair].
  eapply outcome_build; [by apply Builds_op|]. intros two Htwo.
  eapply outcome_build; [by apply Builds_op|]. intros four Hfour.
  eapply outcome_build; [by apply Builds_op|]. intros zero Hzero.
  apply (outcome_ok _ _ _ _ _ (T_log2 One) 0); [done|done|apply value_Zero| |];
    [by apply from_i64_lemma|reflexivity].
Qed.

Lemma outcome_Exp2 a : outcome (Exp2 a).
Proof.
  cbn [Certified.step_pair].
  apply outcome_unary; [done|apply unary_defined|]. intros l x s Hs Hx Hl.
  apply (outcome_exp2 options Hopt _ _ _ a); [done|by eapply vs_wf|inversion 1; by simplify_eq|].
  intros v Hv Hd HQ. eapply outcome_build; [by apply build_exp2|]. intros c Hc.
  apply (outcome_ok _ _ _ _ _ (T_exp2 s) (scaleQ 1 (rat_num x))); [defined_term|done|by constructor|done|done].
Qed.

Lemma outcome_PowerDifference a b : outcome (PowerDifference a b).
Proof.
  cbn [Certified.step_pair]. apply outcome_binary; [done|apply binary_defined|].
  intros l x r y s t Hs Ht Hx Hy Hl Hr.
  apply (outcome_exp2 options Hopt _ _ _ a); [done|by eapply vs_wf|inversion 1; by simplify_eq|].
  intros p Hp Hd HQ. eapply (outcome_rational _ (rat_Q p - rat_Q y)).
  { apply sub_cases_Q; [done|by eapply vs_wf]. }
  intros v Hv HvQ. eapply outcome_build; [by apply build_exp2|]. intros inner Hin.
  eapply outcome_build; [by apply Builds_op|]. intros c Hc.
  apply (outcome_ok _ _ _ _ _ (Op s (T_exp2 t)) (scaleQ 1 (rat_num x) - rat_Q y));
    [defined_term|done|by constructor|done|by rewrite HvQ, HQ].
Qed.

Lemma outcome_Neg a : outcome (Neg a).
Proof.
  cbn [Certified.step_pair].
  apply outcome_unary; [done|apply unary_defined|]. intros l x s Hs Hx Hl.
  eapply outcome_build; [by apply build_neg|]. intros c Hc.
  destruct (negated_sound x) as [Hw HQ]; [by eapply vs_wf|].
  apply (outcome_ok _ _ _ _ _ (T_neg s) (- rat_Q x)); [defined_term|done|by constructor|done|done].
Qed.

Lemma outcome_Add a b : outcome (Add a b).
Proof.
  cbn [Certified.step_pair]. apply outcome_binary; [done|apply binary_defined|].
  intros l x r y s t Hs Ht Hx Hy Hl Hr.
  eapply outcome_build; [by apply build_add|]. intros c Hc.
  eapply outcome_rational; [apply add_cases_Q; by eapply vs_wf|]. intros v Hv HvQ.
  apply (outcome_ok _ _ _ _ _ (T_add s t) (rat_Q x + rat_Q y)); [defined_term|done|by constructor|done|done].
Qed.

Lemma outcome_Sub a b : outcome (Sub a b).
Proof.
  cbn [Certified.step_pair]. apply outcome_binary; [done|apply binary_defined|].
  intros l x r y s t Hs Ht Hx Hy Hl Hr.
  eapply outcome_build; [by apply build_sub|]. intros c Hc.
  eapply outcome_rational; [apply sub_cases_Q; by eapply vs_wf|]. intros v Hv HvQ.
  apply (outcome_ok _ _ _ _ _ (T_sub s t) (rat_Q x - rat_Q y)); [defined_term|done|by constructor|done|done].
Qed.

(** The domain test of the two positive rules. *)
Lemma outcome_guard step x y m :
  rat_wf x → rat_wf y →
  (∀ q, step_value vs step q → (0 < rat_Q x)%Q ∧ (0 < rat_Q y)%Q) →
  ((0 < rat_Q x)%Q → (0 < rat_Q y)%Q → step_outcome ts vs step m) →
  step_outcome ts vs step
    (if negative x || Exact.is_zero x || negative y || Exact.is_zero y
     then Err DomainNotJustified else m).
Proof.
  intros Hx Hy Hdef Hm. rewrite <- orb_assoc.
  pose proof (sign_guard x Hx) as Gx. pose proof (sign_guard y Hy) as Gy.
  destruct (negative x || _), (negative y || _); cbn [orb];
    try (by apply Hm; [apply Gx|apply Gy]);
    (split; [done|]; intros q _ [??]%Hdef; exfalso; intuition discriminate).
Qed.

Lemma outcome_PositiveMul a b : outcome (PositiveMul a b).
Proof.
  cbn [Certified.step_pair]. apply outcome_binary; [done|apply binary_defined|].
  intros l x r y s t Hs Ht Hx Hy Hl Hr.
  apply outcome_guard; [by eapply vs_wf..|inversion 1; by simplify_eq|]. intros Px Py.
  eapply outcome_build; [by apply build_mul|]. intros c Hc.
  eapply outcome_rational; [apply mul_cases_Q; by eapply vs_wf|]. intros v Hv HvQ.
  apply (outcome_ok _ _ _ _ _ (T_mul s t) (rat_Q x * rat_Q y)); [defined_term|done|by constructor|done|done].
Qed.

Lemma outcome_PositiveDiv a b : outcome (PositiveDiv a b).
Proof.
  cbn [Certified.step_pair]. apply outcome_binary; [done|apply binary_defined|].
  intros l x r y s t Hs Ht Hx Hy Hl Hr.
  apply outcome_guard; [by eapply vs_wf..|inversion 1; by simplify_eq|]. intros Px Py.
  eapply outcome_build; [by apply build_div|]. intros c Hc.
  eapply outcome_rational; [apply div_cases_Q; [by eapply vs_wf..|done]|]. intros v Hv HvQ.
  apply (outcome_ok _ _ _ _ _ (T_div s t) (rat_Q x / rat_Q y)); [defined_term|done|by constructor|done|done].
Qed.

Lemma step_pair_spec step : outcome step.
Proof.
  destruct step; [apply outcome_One|apply outcome_Zero|apply outcome_Exp2|apply outcome_PowerDifference
    |apply outcome_Add|apply outcome_Sub|apply outcome_Neg|apply outcome_PositiveMul|apply outcome_PositiveDiv].
Qed.
End replay.

Section replay_loop.
Context (options : ExactSynthesisOptions) (Hopt : options_ok options).

(** One iteration of the loop of [replay]. *)
Lemma replay_step_spec pre ts vs results total step :
  Meaning pre ts vs → refines results ts vs → 0 ≤ total ≤ max_total_bits options →
  match Certified.replay_step options step (results, total) with
  | Ok (results', total') => ∃ t v, step_term ts step = Some t ∧
      Meaning (pre ++ [step]) (ts ++ [t]) (vs ++ [v]) ∧
      refines results' (ts ++ [t]) (vs ++ [v]) ∧ 0 ≤ total' ≤ max_total_bits options
  | Err e => (is_Some (step_term ts step) → e ≠ InvalidProof) ∧
             ((∃ ts' vs', Meaning (pre ++ [step]) ts' vs') → is_resource e = true)
  end.
Proof.
  intros Hm Hr Ht. unfold Certified.replay_step.
  destruct Hopt as (_ & [Hb1 Hb2] & _ & [Hmt1 Hmt2] & _).
  set (rs := mkRules (Z.min (max_bits options) (max_total_bits options - total))).
  assert (usize (rules_max_bits rs)) as Hrs by (subst rs; unfold usize; cbn [rules_max_bits]; lia).
  pose proof (step_pair_spec options Hopt results ts vs Hr (Meaning_wf _ _ _ Hm) rs Hrs step) as Hs.
  unfold step_outcome in Hs.
  destruct (Certified.step_pair options rs results step) as [[b v]|e]; cbn [mbind Result_bind fst snd]; cycle 1.
  { destruct Hs as [Hs1 Hs2]. split; [done|]. intros (ts' & vs' & Hm').
    apply Meaning_snoc_inv in Hm' as (ts2 & vs2 & t & w & q & -> & -> & Hm2 & Ht2 & Hv2 & _).
    destruct (Meaning_fun _ _ _ _ _ Hm Hm2) as [-> ->]. by apply (Hs2 q); [exists t|]. }
  destruct Hs as (t & q & Hterm & Hrep & Hval & Hwf & HQ).
  assert (∀ e, e = ProofLimit → (is_Some (step_term ts step) → e ≠ InvalidProof) ∧
    ((∃ ts' vs', Meaning (pre ++ [step]) ts' vs') → is_resource e = true)) as Hlimit
    by (by intros e ->).
  destruct (_ || _ || _); [by apply Hlimit|].
  pose proof (Represents_bit_len Hrep) as Hlen. pose proof (tree_len_pos t).
  destruct (Prelude.checked_add total (bit_len b)) as [total'|] eqn:Ea; [|by apply Hlimit].
  apply checked_add_Some in Ea as [-> _]. cbn [ok_or mbind Result_bind].
  destruct (Z.ltb_spec (max_total_bits options) (total + bit_len b)); [by apply Hlimit|].
  exists t, v. split; [done|]. split; [by apply (Meaning_snoc pre ts vs step t v q)|].
  split; [by apply refines_snoc|lia].
Qed.

(** The loop of [replay], started behind a meaningful prefix. *)
Lemma replay_loop_spec ss pre ts vs results total :
  Meaning pre ts vs → refines results ts vs → 0 ≤ total ≤ max_total_bits options →
  match for_each (Certified.replay_step options) ss (results, total) with
  | Ok (results', _) => ∃ ts' vs', Meaning (pre ++ ss) ts' vs' ∧ refines results' ts' vs'
  | Err e => (is_Some (terms_of ts ss) → e ≠ InvalidProof) ∧
             ((∃ ts' vs', Meaning (pre ++ ss) ts' vs') → is_resource e = true)
  end.
Proof.
  revert pre ts vs results total.
  induction ss as [|step ss IH]; intros pre ts vs results total Hm Hr Ht.
  { cbn [for_each]. rewrite app_nil_r. by exists ts, vs. }
  cbn [for_each]. pose proof (replay_step_spec pre ts vs results total step Hm Hr Ht) as Hs.
  destruct (Certified.replay_step options step (results, total)) as [[results' total']|e];
    cbn [mbind Result_bind]; cycle 1.
  { destruct Hs as [Hs1 Hs2]. split.
    - intros [ts' Hts]. cbn [terms_of] in Hts. apply bind_Some in Hts as (t & Hts & _). by apply Hs1; exists t.
    - intros (ts' & vs' & Hm'). rewrite cons_middle, app_assoc in Hm'.
      apply Meaning_app_inv in Hm' as (ts1 & vs1 & Hm1 & _). apply Hs2. by exists ts1, vs1. }
  destruct Hs as (t & v & Hterm & Hm' & Hr' & Ht').
  specialize (IH (pre ++ [step]) (ts ++ [t]) (vs ++ [v]) results' total' Hm' Hr' Ht').
  rewrite <- app_assoc in IH. cbn [terms_of]. rewrite Hterm. exact IH.
Qed.

(** What [replay] answers. *)
Lemma replay_spec d :
  match Certified.replay d options with
  | Ok (b, v) => certified (mkCertifiedBml b v d)
  | Err e => (is_Some (terms_of [] (steps d)) → (root d < length (steps d))%nat → e ≠ InvalidProof) ∧
             ((∃ ts vs, Meaning (steps d) ts vs) → (root d < length (steps d))%nat → is_resource e = true)
  end.
Proof.
  unfold Certified.replay. destruct (_ <? _); [done|].
  destruct (Z.leb_spec (Z.of_nat (length (steps d))) (Z.of_nat (root d))).
  { split; [intros _ ?; lia|intros _ ?; lia]. }
  pose proof (replay_loop_spec (steps d) [] [] [] [] 0 Meaning_nil) as Hl.
  destruct (for_each _ _ _) as [[results total]|e]; cbn [mbind Result_bind]; cycle 1.
  { destruct Hl as [H1 H2]; [by split|destruct Hopt as (_ & _ & _ & [??] & _); lia|].
    by split; [intros ? _; apply H1|intros ? _; apply H2]. }
  destruct Hl as (ts & vs & Hm & Hr); [by split|destruct Hopt as (_ & _ & _ & [??] & _); lia|].
  pose proof (refines_lookup results ts vs (root d) Hr) as Hroot.
  destruct (results !! root d) as [[b v]|]; cbn [ok_or].
  - destruct Hroot as (t & Ht & Hv & Hrep). by exists ts, vs, t.
  - destruct Hroot as [Ht _]. apply lookup_ge_None in Ht.
    destruct (Meaning_length _ _ _ Hm). cbn [app] in *. lia.
Qed.

Lemma certify_spec d :
  match Certified.certify d options with
  | Ok c => certified c ∧ derivation c = d
  | Err e => (is_Some (terms_of [] (steps d)) → (root d < length (steps d))%nat → e ≠ InvalidProof) ∧
             ((∃ ts vs, Meaning (steps d) ts vs) → (root d < length (steps d))%nat → is_resource e = true)
  end.
Proof.
  unfold Certified.certify. pose proof (replay_spec d) as H.
  destruct (Certified.replay d options) as [[b v]|e]; cbn [mbind Result_bind]; [by split|done].
Qed.

(** A meaningful program with a root in range is certified, budgets apart. *)
Lemma certify_meaning ss ts vs i v :
  Meaning ss ts vs → vs !! i = Some v →
  match Certified.certify (mkExactDerivation ss i) options with
  | Ok c => certified c ∧ target c = v ∧ derivation c = mkExactDerivation ss i
  | Err e => is_resource e = true
  end.
Proof.
  intros Hm Hi. destruct (Meaning_length _ _ _ Hm) as [_ Hlen]. pose proof (lookup_lt_Some _ _ _ Hi) as Hlt.
  pose proof (certify_spec (mkExactDerivation ss i)) as Hc.
  destruct (Certified.certify _ _) as [c|e]; [|by apply Hc; [exists ts, vs|cbn; lia]].
  destruct Hc as [Hc Hd]. pose proof Hc as (ts' & vs' & t & Hm' & _ & Hv & _). rewrite Hd in Hm', Hv.
  destruct (Meaning_fun _ _ _ _ _ Hm Hm') as [-> ->]. cbn [root] in Hv.
  split; [done|]. split; [congruence|done].
Qed.
End replay_loop.

(** A certificate's target is well formed, and determined by its derivation. *)
Lemma certified_wf c : certified c → rat_wf (target c).
Proof. intros (ts & vs & t & Hm & _ & Hv & _). by eapply Meaning_lookup_wf. Qed.

Lemma certified_fun c c' : certified c → certified c' → derivation c = derivation c' →
  term c = term c' ∧ target c = target c'.
Proof.
  intros (ts & vs & t & Hm & Ht & Hv & Hr) (ts' & vs' & t' & Hm' & Ht' & Hv' & Hr') E.
  rewrite E in *. destruct (Meaning_fun _ _ _ _ _ Hm Hm') as [-> ->]. simplify_eq.
  split; [by eapply Represents_inj|congruence].
Qed.

(** ** Synthesis writes meaningful programs *)

Lemma total_ones_nonneg ws : 0 ≤ Certified.total_ones ws.
Proof.
  induction ws as [|w ws IH]; cbn; [lia|]. pose proof (count_ones_nonneg w).
  unfold Certified.total_ones in *. lia.
Qed.

Lemma total_ones_0 ws : words_ok ws → Certified.total_ones ws = 0 → words_val ws = 0.
Proof.
  induction 1 as [|w ws Hw Hws IH]; [done|]. cbn [Certified.total_ones foldr words_val]. intros H.
  fold (Certified.total_ones ws) in H. pose proof (count_ones_nonneg w).
  pose proof (total_ones_nonneg ws).
  rewrite (count_ones_0 w), IH by (done || lia). lia.
Qed.

(** A vector with a single one is a power of two. *)
Lemma total_ones_1 ws :
  words_ok ws → Certified.total_ones ws = 1 → ∃ k, 0 ≤ k ∧ words_val ws = 2 ^ k.
Proof.
  induction 1 as [|w ws Hw Hws IH]; [done|]. cbn [Certified.total_ones foldr words_val]. intros H.
  fold (Certified.total_ones ws) in H. pose proof (count_ones_nonneg w).
  pose proof (total_ones_nonneg ws).
  destruct (decide (Certified.total_ones ws = 0)) as [E|E].
  - rewrite (total_ones_0 ws) by done. destruct (count_ones_1 w Hw) as (k & Hk & ->); [lia|].
    exists k. lia.
  - destruct IH as (k & Hk & ->); [lia|]. rewrite (count_ones_0 w Hw) by lia.
    exists (64 + k). rewrite Z.pow_add_r by lia. change (2 ^ 64) with W64. lia.
Qed.

(** The memo table only holds naturals already synthesized. *)
Definition synth_ok (s : Certified.Synthesizer) (ts : list ClosedTerm) (vs : list ExactRational) : Prop :=
  Meaning (Certified.synth_steps s) ts vs ∧
  ∀ ws i, Certified.integers s !! ws = Some i → vs !! i = Some (Exact.natural ws).

(** What a synthesis call with argument [v] may answer when the steps so far have values [vs]. *)
Definition synth_outcome (vs : list ExactRational) (v : ExactRational)
    (m : Result ExactError (nat * Certified.Synthesizer)) : Prop :=
  match m with
  | Ok (i, s) => ∃ ts' vs', synth_ok s ts' vs' ∧ vs `prefix_of` vs' ∧ vs' !! i = Some v
  | Err e => is_resource e = true
  end.

Section synthesis.
Context (options : ExactSynthesisOptions) (Hopt : options_ok options).
Local Abbreviation max := (input_max_bits (rational options)).

Lemma push_spec s ts vs step t q v :
  synth_ok s ts vs → step_term ts step = Some t → step_value vs step q → rat_wf v → (rat_Q v == q)%Q →
  match Certified.push options s step with
  | Ok (i, s') => synth_ok s' (ts ++ [t]) (vs ++ [v]) ∧ (vs ++ [v]) !! i = Some v ∧
                  Certified.integers s' = Certified.integers s
  | Err e => is_resource e = true
  end.
Proof.
  intros [Hm Hmemo] Ht Hq Hv HQ. unfold Certified.push. destruct (_ <=? _); [done|].
  destruct (Meaning_length _ _ _ Hm) as [_ Hlen]. split; [|split; [|done]].
  - split; [by apply (Meaning_snoc _ _ _ step t v q)|]. intros ws i Hi. apply lookup_app_l_Some. by apply Hmemo.
  - rewrite <- Hlen. by apply list_lookup_middle.
Qed.

(** The value of a natural, and steps that build one from another. *)
Lemma natural_value ws : rat_num (Exact.natural ws) = words_val ws ∧ rat_den (Exact.natural ws) = 1.
Proof. done. Qed.

Lemma scaleQ_natural k ws : 0 ≤ k → words_val ws = 2 ^ k → (rat_Q (Exact.natural ws) == scaleQ 1 k)%Q.
Proof.
  intros Hk Hv. rewrite scaleQ_pos by done. unfold rat_Q, rat_num, rat_den, Qeq. cbn [Qnum Qden Exact.natural negative numerator denominator signed].
  rewrite Hv. change (words_val [1]) with 1. cbn. lia.
Qed.

(** The last part of [integer]: record the step and memoize it. *)
Lemma memoize_spec s ts vs step t q ws :
  synth_ok s ts vs → canonical ws → step_term ts step = Some t → step_value vs step q →
  (rat_Q (Exact.natural ws) == q)%Q →
  synth_outcome vs (Exact.natural ws)
    ('(index, s) ← Certified.push options s step;
     Ok (index, Certified.mkSynthesizer (Certified.synth_steps s) (<[ws := index]> (Certified.integers s)))).
Proof.
  intros Hs Hc Ht Hq HQ. destruct (natural_spec ws Hc) as [Hw _].
  pose proof (push_spec s ts vs step t q _ Hs Ht Hq Hw HQ) as Hp.
  destruct (Certified.push options s step) as [[i s']|e]; cbn [mbind Result_bind]; [|done].
  destruct Hp as ([Hm Hmemo] & Hi & _). exists (ts ++ [t]), (vs ++ [Exact.natural ws]).
  split; [|split; [by apply prefix_app_r|done]]. split; [done|].
  intros ws' i' Hi'. cbn [Certified.integers] in Hi'. apply lookup_insert_Some in Hi' as [[<- <-]|[_ Hi']]; [done|].
  by apply Hmemo.
Qed.

Lemma step_term_defined ts vs s a : synth_ok s ts vs → is_Some (vs !! a) → is_Some (ts !! a).
Proof.
  intros [Hm _] H. destruct (Meaning_length _ _ _ Hm) as [H1 H2].
  apply lookup_lt_is_Some. apply lookup_lt_is_Some in H. lia.
Qed.

(** The two decompositions of [integer], for vectors other than 0 and 1. *)
Lemma power_of_two ws :
  canonical ws → ws ≠ [] → ws ≠ [1] → BigNat.bit_len ws ≤ max → Certified.total_ones ws = 1 →
  let e := BigNat.bit_len ws - 1 in
  (e =? 0) = false ∧ canonical [e] ∧ (rat_Q (Exact.natural ws) == scaleQ 1 (rat_num (Exact.natural [e])))%Q.
Proof.
  intros Hc Hne Hn1 Hb Ho e. destruct (total_ones_1 ws (proj1 Hc) Ho) as (k & Hk & Hv).
  assert (e = k) as ->.
  { subst e. rewrite BigNat.natural_bits, Hv by done. rewrite <- (Z.mul_1_l (2 ^ k)), nbits_shiftl by lia.
    change (nbits 1) with 1. lia. }
  rewrite BigNat.natural_bits, Hv in Hb by done. rewrite <- (Z.mul_1_l (2 ^ k)), nbits_shiftl in Hb by lia.
  change (nbits 1) with 1 in Hb. destruct Hopt as ([Hm _] & _).
  assert (k ≠ 0) as Hk0.
  { intros ->. apply Hn1. apply words_val_inj; [done|apply canonical_one|]. by rewrite Hv. }
  split; [by apply Z.eqb_neq|]. split; [apply canonical_singleton; [split; lia|done]|].
  rewrite (scaleQ_natural k ws Hk Hv). unfold rat_num. cbn. by rewrite Z.add_0_r.
Qed.

Lemma near_power ws rem :
  canonical ws → ws ≠ [] → BigNat.bit_len ws ≤ max →
  BigNat.shift_left [1] (BigNat.bit_len ws) max = Ok rem →
  let r := BigNat.subtract rem ws in
  canonical r ∧ canonical [BigNat.bit_len ws] ∧
  (rat_Q (Exact.natural ws) ==
   scaleQ 1 (rat_num (Exact.natural [BigNat.bit_len ws])) - rat_Q (Exact.natural r))%Q.
Proof.
  intros Hc Hne Hb Hs r. destruct Hopt as (Hl & _).
  pose proof (canonical_val_pos ws Hc Hne) as Hpos.
  rewrite BigNat.natural_bits in * by done. pose proof (nbits_pos _ Hpos). set (n := nbits (words_val ws)) in *.
  pose proof (shift_word (rational options) Hl 1 n ltac:(split; lia) ltac:(lia) ltac:(lia)) as Hw.
  case_decide; [|congruence]. destruct Hw as (rem' & Hrem & [Hrc _] & Hrv).
  rewrite Hrem in Hs. injection Hs as ->. rewrite Z.mul_1_l in Hrv.
  pose proof (nbits_spec (words_val ws) ltac:(lia)) as Hlt. fold n in Hlt.
  destruct (BigNat.subtract_spec rem ws) as [Hcr Hv]; [apply Hrc|apply Hc|lia|]. fold r in Hcr, Hv.
  split; [done|]. destruct Hl as [Hm _]. split; [apply canonical_singleton; [split; lia|lia]|].
  rewrite scaleQ_pos by (cbn; lia). unfold rat_num, rat_Q, rat_num, rat_den, Qminus, Qplus, Qopp, Qeq.
  cbn [Qnum Qden Exact.natural negative numerator denominator signed].
  change (words_val [1]) with 1. cbn [words_val]. rewrite Z.add_0_r, Hv, Hrv. cbn. lia.
Qed.

Lemma synth_outcome_prefix vs vs' v m :
  vs `prefix_of` vs' → synth_outcome vs' v m → synth_outcome vs v m.
Proof.
  intros Hp Hm. destruct m as [[i s]|e]; [|done].
  destruct Hm as (ts' & vs'' & Hs & Hp' & Hi). exists ts', vs''. split; [done|]. split; [by etrans|done].
Qed.

(** A call of [integer] followed by the rest of the synthesis. *)
Lemma synth_outcome_bind vs w v m k :
  synth_outcome vs w m →
  (∀ i s ts' vs', synth_ok s ts' vs' → vs `prefix_of` vs' → vs' !! i = Some w →
    synth_outcome vs' v (k (i, s))) →
  synth_outcome vs v (m ≫= k).
Proof.
  intros Hm Hk. destruct m as [[i s]|e]; [|done]. destruct Hm as (ts' & vs' & Hs & Hp & Hi).
  cbn [mbind Result_bind]. apply (synth_outcome_prefix _ vs'); [done|]. by apply (Hk i s ts').
Qed.

Lemma synth_fallback {A} (ws : list Z) (x y z : A) :
  ws ≠ [] → ws ≠ [1] → match ws with [] => x | [1] => y | _ => z end = z.
Proof.
  intros H1 H2. destruct ws as [|w [|w' ws]]; [done| |by destruct w as [|[]|]].
  destruct w as [|p|]; [done| |done]. by destruct p.
Qed.

Lemma integer_spec fuel ws s ts vs :
  canonical ws → synth_ok s ts vs →
  synth_outcome vs (Exact.natural ws) (Certified.integer options fuel ws s).
Proof.
  revert ws s ts vs. induction fuel as [|fuel IH]; intros ws s ts vs Hc Hs; [done|].
  cbn [Certified.integer]. destruct (Z.ltb_spec max (BigNat.bit_len ws)) as [|Hb]; [done|].
  destruct (Certified.integers s !! ws) as [i|] eqn:Ei.
  { exists ts, vs. split; [done|]. split; [done|]. by apply Hs. }
  destruct (decide (ws = [])) as [->|Hne].
  { cbn [mbind Result_bind].
    apply (memoize_spec s ts _ StepZero (T_log2 One) 0); [done|done|done|apply value_Zero|reflexivity]. }
  destruct (decide (ws = [1])) as [->|Hn1].
  { cbn [mbind Result_bind].
    apply (memoize_spec s ts _ StepOne One 1); [done|done|done|apply value_One|reflexivity]. }
  rewrite synth_fallback by done.
  destruct (Z.eqb_spec (Certified.total_ones ws) 1) as [Ho|Ho].
  - destruct (power_of_two ws Hc Hne Hn1 Hb Ho) as (-> & Hce & HQ). rewrite bind_assoc.
    apply (synth_outcome_bind vs (Exact.natural [BigNat.bit_len ws - 1])); [by apply (IH _ s ts)|].
    intros i s1 ts1 vs1 Hs1 _ Hi. cbn [mbind Result_bind].
    destruct (step_term_defined ts1 vs1 s1 i Hs1 ltac:(by eexists)) as [t Ht].
    eapply memoize_spec; [exact Hs1|exact Hc|cbn; by rewrite Ht|by apply value_Exp2|exact HQ].
  - destruct (BigNat.shift_left [1] (BigNat.bit_len ws) max) as [rem|e] eqn:Esh;
      cbn [Certified.from_input map_err mbind Result_bind]; cycle 1.
    { apply shift_left_err in Esh as ->. done. }
    destruct (near_power ws rem Hc Hne Hb Esh) as (Hcr & Hcb & HQ). rewrite bind_assoc.
    apply (synth_outcome_bind vs (Exact.natural [BigNat.bit_len ws])); [by apply (IH _ s ts)|].
    intros i s1 ts1 vs1 Hs1 _ Hi. rewrite bind_assoc.
    apply (synth_outcome_bind vs1 (Exact.natural (BigNat.subtract rem ws))); [by apply (IH _ s1 ts1)|].
    intros j s2 ts2 vs2 Hs2 Hp Hj. cbn [mbind Result_bind].
    pose proof (prefix_lookup_Some _ _ _ _ Hi Hp) as Hi'.
    destruct (step_term_defined ts2 vs2 s2 i Hs2 ltac:(by eexists)) as [t Ht].
    destruct (step_term_defined ts2 vs2 s2 j Hs2 ltac:(by eexists)) as [u Hu].
    eapply memoize_spec; [exact Hs2|exact Hc|cbn; rewrite Ht; cbn; by rewrite Hu| |exact HQ].
    by apply value_PowerDifference.
Qed.
End synthesis.

Section from_rational.
Context (options : ExactSynthesisOptions) (Hopt : options_ok options).

(** A pushed step, when what it denotes is known. *)
Lemma push_outcome s ts vs step t q v :
  synth_ok s ts vs → step_term ts step = Some t → step_value vs step q → rat_wf v → (rat_Q v == q)%Q →
  synth_outcome vs v (Certified.push options s step).
Proof.
  intros Hs Ht Hq Hv HQ. pose proof (push_spec options s ts vs step t q v Hs Ht Hq Hv HQ) as Hp.
  destruct (Certified.push options s step) as [[i s']|e]; [|done].
  destruct Hp as (Hs' & Hi & _). exists (ts ++ [t]), (vs ++ [v]).
  split; [done|]. split; [by apply prefix_app_r|done].
Qed.

(** The magnitude of a target, its sign removed. *)
Definition magnitude (r : ExactRational) : ExactRational :=
  mkExactRational false (numerator r) (denominator r).

Lemma magnitude_spec r :
  rat_wf r → rat_wf (magnitude r) ∧
  (rat_Q (magnitude r) == rat_Q (Exact.natural (numerator r)) / rat_Q (Exact.natural (denominator r)))%Q ∧
  (rat_Q r == if negative r then - rat_Q (magnitude r) else rat_Q (magnitude r))%Q.
Proof.
  intros Hr. pose proof (wf_positive r Hr) as Hd. unfold rat_den in Hd.
  split; [by destruct Hr; split|]. split.
  - unfold Qdiv. unfold rat_Q, rat_num, rat_den. cbn [magnitude Exact.natural negative numerator denominator signed].
    change (words_val [1]) with 1. destruct (words_val (denominator r)) as [|p|] eqn:E; [done| |done].
    unfold Qinv, Qmult, Qeq. cbn. lia.
  - unfold rat_Q, rat_num. cbn [magnitude negative numerator denominator signed].
    by destruct (negative r); cbn [signed].
Qed.

Lemma positive_natural ws : 0 < words_val ws → (0 < rat_Q (Exact.natural ws))%Q.
Proof. intros H. unfold Qlt. cbn [rat_Q Qnum Qden]. unfold rat_num. cbn. lia. Qed.

Lemma empty_synth_ok : synth_ok (Certified.mkSynthesizer [] ∅) [] [].
Proof. split; [constructor|]. intros ws i Hi. cbn in Hi. by rewrite lookup_empty in Hi. Qed.

(** What [from_rational_exact] promises. *)
Definition certifies (r : ExactRational) (m : Result ExactError CertifiedBml) : Prop :=
  match m with
  | Ok c => certified c ∧ target c = r
  | Err e => is_resource e = true
  end.

Lemma certifies_bind r vs w m k :
  synth_outcome vs w m →
  (∀ i s ts' vs', synth_ok s ts' vs' → vs `prefix_of` vs' → vs' !! i = Some w → certifies r (k (i, s))) →
  certifies r (m ≫= k).
Proof.
  intros Hm Hk. destruct m as [[i s]|e]; [|done]. destruct Hm as (ts' & vs' & Hs & Hp & Hi).
  cbn [mbind Result_bind]. by apply (Hk i s ts' vs').
Qed.

(** The division by the denominator, when there is one. *)
Lemma divide_outcome r i s ts vs :
  rat_wf r → synth_ok s ts vs → vs !! i = Some (Exact.natural (numerator r)) →
  synth_outcome vs (magnitude r)
    (if negb (bool_decide (denominator r = [1])) then
       '(bottom, synth) ← Certified.integer options (Certified.recursion_fuel options) (denominator r) s;
       Certified.push options synth (PositiveDiv i bottom)
     else Ok (i, s)).
Proof.
  intros Hr Hs Hi. destruct (magnitude_spec r Hr) as (Hmw & HmQ & _). pose proof (wf_positive r Hr) as Hd.
  case_bool_decide as Hd1; cbn [negb].
  - exists ts, vs. split; [done|]. split; [done|]. rewrite Hi. unfold magnitude. by rewrite Hd1.
  - eapply synth_outcome_bind; [eapply (integer_spec options Hopt); [apply Hr|exact Hs]|].
    intros j s' ts' vs' Hs' Hp Hj. pose proof (prefix_lookup_Some _ _ _ _ Hi Hp) as Hi'.
    destruct (step_term_defined ts' vs' s' i Hs' ltac:(by eexists)) as [t Ht].
    destruct (step_term_defined ts' vs' s' j Hs' ltac:(by eexists)) as [u Hu].
    assert (0 < words_val (numerator r)) as Hn.
    { apply canonical_val_pos; [apply Hr|]. intros Hz. apply Hd1, denominator_one; [done|].
      pose proof (wf_reduced r Hr) as Hg. rewrite Hz in Hg. change (words_val []) with 0 in Hg.
      rewrite Z.gcd_0_l in Hg. lia. }
    eapply push_outcome; [exact Hs'|cbn; rewrite Ht; cbn; by rewrite Hu| |exact Hmw|exact HmQ].
    apply value_PositiveDiv; [done|done|by apply positive_natural|by apply positive_natural].
Qed.

(** The sign. *)
Lemma sign_outcome r i s ts vs :
  rat_wf r → synth_ok s ts vs → vs !! i = Some (magnitude r) →
  synth_outcome vs r (if negative r then Certified.push options s (Neg i) else Ok (i, s)).
Proof.
  intros Hr Hs Hi. destruct (magnitude_spec r Hr) as (_ & _ & HQ). destruct (negative r) eqn:Hneg.
  - destruct (step_term_defined ts vs s i Hs ltac:(by eexists)) as [t Ht].
    eapply push_outcome; [exact Hs|cbn; by rewrite Ht|by apply value_Neg|exact Hr|exact HQ].
  - exists ts, vs. split; [done|]. split; [done|]. rewrite Hi. unfold magnitude. destruct r. cbn in *. by subst.
Qed.

(** Replaying what was synthesized. *)
Lemma certify_synthesized r i s ts vs :
  synth_ok s ts vs → vs !! i = Some r →
  certifies r (result ← Certified.certify (mkExactDerivation (Certified.synth_steps s) i) options;
               if negb (bool_decide (target result = r)) then Err InvalidProof else Ok result).
Proof.
  intros [Hm _] Hi. pose proof (certify_meaning options Hopt _ _ _ i r Hm Hi) as Hc.
  destruct (Certified.certify _ _) as [c|e]; cbn [mbind Result_bind]; [|done].
  destruct Hc as (Hc & E & _). rewrite E, bool_decide_true by done. by split.
Qed.

Lemma from_rational_exact_lemma r :
  rat_wf r → certifies r (Certified.from_rational_exact r options).
Proof.
  intros Hr. unfold Certified.from_rational_exact.
  eapply certifies_bind; [eapply (integer_spec options Hopt); [apply Hr|apply empty_synth_ok]|].
  intros i s ts vs Hs _ Hi.
  eapply certifies_bind; [by eapply divide_outcome|]. intros j s1 ts1 vs1 Hs1 _ Hj.
  eapply certifies_bind; [by eapply sign_outcome|]. intros k s2 ts2 vs2 Hs2 _ Hk.
  by eapply certify_synthesized.
Qed.
End from_rational.

(** ** Properties *)

(** Synthesis is correct and never fails for a reason of its own: for every
    target in lowest terms, [from_rational_exact] returns a certificate of exactly
    that target, or reports an exhausted budget; it never reports an invalid
    proof, an unjustified domain, a division by zero or a fractional power. *)
Theorem from_rational_exact_spec options r :
  options_ok options → rat_wf r →
  match Certified.from_rational_exact r options with
  | Ok c => certified c ∧ target c = r
  | Err e => is_resource e = true
  end.
Proof. intros Ho Hr. by apply (from_rational_exact_lemma options Ho). Qed.

Lemma options_default_ok : options_ok ExactSynthesisOptions_default.
Proof. repeat split; done. Qed.

Lemma from_rational_exact_spec_witness :
  ∃ c, Certified.from_rational_exact (mkExactRational false [3] [1]) ExactSynthesisOptions_default = Ok c ∧
       certified c ∧ target c = mkExactRational false [3] [1].
Proof.
  pose proof (from_rational_exact_spec ExactSynthesisOptions_default (mkExactRational false [3] [1])
    options_default_ok ltac:(solve_rat_wf)) as H.
  destruct (Certified.from_rational_exact _ _) as [c|e] eqn:E; [|vm_compute in E; discriminate].
  exists c. split; [reflexivity|exact H].
Defined.

Lemma verify_lemma options d b v :
  options_ok options →
  match Certified.verify d b v options with
  | Ok c => c = mkCertifiedBml b v d ∧ certified c
  | Err e => certified (mkCertifiedBml b v d) → is_resource e = true
  end.
Proof.
  intros Ho. unfold Certified.verify. pose proof (replay_spec options Ho d) as H.
  destruct (Certified.replay d options) as [[b' v']|e]; cbn [mbind Result_bind]; cycle 1.
  { intros (ts & vs & t & Hm & Ht & _). cbn in *. apply H; [by exists ts, vs|].
    destruct (Meaning_length _ _ _ Hm) as [<- _]. by eapply lookup_lt_Some. }
  destruct (decide (b' = b ∧ v' = v)) as [[-> ->]|Hne].
  - rewrite !bool_decide_true by done. by split.
  - assert (negb (bool_decide (b' = b)) || negb (bool_decide (v' = v)) = true) as ->.
    { repeat case_bool_decide; cbn; tauto. }
    intros Hc. exfalso. apply Hne. by apply (certified_fun _ _ H Hc).
Qed.

(** [C6] Verification of untrusted proof data: [verify] accepts a claim only when
    the term and the target are those of the derivation's root in the proof
    system, and a true claim is rejected only for lack of budget. *)
Theorem verify_spec options d b v :
  options_ok options →
  match Certified.verify d b v options with
  | Ok c => c = mkCertifiedBml b v d ∧ certified c
  | Err e => certified (mkCertifiedBml b v d) → is_resource e = true
  end.
Proof. apply verify_lemma. Qed.

Lemma verify_spec_witness :
  Certified.verify (mkExactDerivation [StepOne; Exp2 0] 1) (mkBml [4]) (Exact.from_i64 2)
    ExactSynthesisOptions_default
    = Ok (mkCertifiedBml (mkBml [4]) (Exact.from_i64 2) (mkExactDerivation [StepOne; Exp2 0] 1)) ∧
  certified (mkCertifiedBml (mkBml [4]) (Exact.from_i64 2) (mkExactDerivation [StepOne; Exp2 0] 1)).
Proof.
  pose proof (verify_spec ExactSynthesisOptions_default (mkExactDerivation [StepOne; Exp2 0] 1)
    (mkBml [4]) (Exact.from_i64 2) options_default_ok) as H.
  assert (Certified.verify (mkExactDerivation [StepOne; Exp2 0] 1) (mkBml [4]) (Exact.from_i64 2)
    ExactSynthesisOptions_default
    = Ok (mkCertifiedBml (mkBml [4]) (Exact.from_i64 2) (mkExactDerivation [StepOne; Exp2 0] 1))) as E
    by (vm_compute; reflexivity).
  rewrite E in H. exact (conj E (proj2 H)).
Defined.

(** Exact input end to end: a decimal text or a binary64 value either fails in
    conversion, with the converter's own error, or yields a certificate of the very
    number converted, budgets apart. *)
Theorem exact_input_certified options text value :
  options_ok options → f64_ok value →
  match Certified.from_decimal_str_exact_with_options text options with
  | Ok c => certified c ∧ Exact.from_decimal_str text (rational options) = Ok (target c)
  | Err (Rational Syntax) => ¬ ∃ s w f, decimal_ok w f ∧
      String.list_ascii_of_string text = decimal_text s w f
  | Err e => is_resource e = true
  end ∧
  match Certified.from_f64_exact_with_options value options with
  | Ok c => certified c ∧ is_finite value = true ∧ (rat_Q (target c) == f64_Q value)%Q
  | Err (Rational NonFinite) => is_finite value = false
  | Err e => is_resource e = true
  end.
Proof.
  intros Ho Hv. pose proof (proj1 Ho) as Hl. split.
  - unfold Certified.from_decimal_str_exact_with_options.
    pose proof (from_decimal_str_lemma (rational options) text Hl) as Hd.
    destruct (Exact.from_decimal_str text (rational options)) as [r|e];
      cbn [Certified.from_input map_err mbind Result_bind]; [|by destruct e].
    pose proof (from_rational_exact_lemma options Ho r (proj1 Hd)) as Hc.
    destruct (Certified.from_rational_exact r options) as [c|e]; [|by destruct e as [[]| | | |]].
    destruct Hc as [Hc ->]. by split.
  - unfold Certified.from_f64_exact_with_options.
    pose proof (from_f64_sound (rational options) Hl value Hv) as Hd.
    destruct (Exact.from_f64 value (rational options)) as [r|e];
      cbn [Certified.from_input map_err mbind Result_bind];
      [|by destruct (is_finite value) eqn:?; subst e].
    destruct Hd as (Hfin & Hr & HQ).
    pose proof (from_rational_exact_lemma options Ho r Hr) as Hc.
    destruct (Certified.from_rational_exact r options) as [c|e]; [|by destruct e as [[]| | | |]].
    destruct Hc as [Hc ->]. by split.
Qed.

Lemma exact_input_certified_witness :
  ∃ c, Certified.from_decimal_str_exact_with_options "1.5" ExactSynthesisOptions_default = Ok c ∧ certified c.
Proof.
  destruct (exact_input_certified ExactSynthesisOptions_default "1.5" f64_zero options_default_ok
    ltac:(split; done)) as [H _].
  destruct (Certified.from_decimal_str_exact_with_options _ _) as [c|e] eqn:E; [|vm_compute in E; discriminate].
  exists c. split; [reflexivity|exact (proj1 H)].
Defined.
