(* ===== verification/CertifiedReal.v ===== *)
(** * Certificates over the reals

    The proof system of Certified.v is sound for the real interpretation of
    terms: the term of every step of a meaningful program is defined over the
    reals and has exactly the step's rational value. A certificate is therefore
    a real identity. *)

From Stdlib Require Import Reals Lra Qreals.
From S2P Require Import Prelude Words Terms Encoding Operations RealSemantics Float Exact ExactInput Certified.
#[local] Open Scope R_scope.

(** The real value of an exact target. *)
Definition rat_R (r : ExactRational) : R := Q2R (rat_Q r).

(** ** Powers of two *)

Lemma IZR_pow2 k : (0 ≤ k)%Z → IZR (2 ^ k) = Rpower 2 (IZR k).
Proof.
  intros Hk. rewrite <- (Z2Nat.id k Hk) at 1. rewrite <- pow_IZR, <- Rpower_pow by lra.
  by rewrite INR_IZR_INZ, Z2Nat.id.
Qed.

Lemma Q2R_scaleQ k : Q2R (scaleQ 1 k) = Rpower 2 (IZR k).
Proof.
  destruct (Z.le_ge_cases 0 k) as [Hk|Hk].
  - rewrite scaleQ_pos by done. unfold Q2R. cbn [Qnum Qden].
    rewrite Z.mul_1_l, IZR_pow2 by done. lra.
  - rewrite scaleQ_neg by done. unfold Q2R. cbn [Qnum Qden].
    rewrite Z2Pos.id by (apply Z.pow_pos_nonneg; lia).
    rewrite IZR_pow2 by lia. rewrite opp_IZR, Rpower_Ropp. rewrite Rinv_inv. lra.
Qed.

Lemma rat_R_integer r : rat_den r = 1%Z → rat_R r = IZR (rat_num r).
Proof. intros H. unfold rat_R, rat_Q, Q2R. rewrite H. cbn. lra. Qed.

Lemma rat_R_eq r q : (rat_Q r == q)%Q → rat_R r = Q2R q.
Proof. apply Qeq_eqR. Qed.

Lemma rat_R_pos r : (0 < rat_Q r)%Q → 0 < rat_R r.
Proof. intros H%Qlt_Rlt. unfold rat_R. by replace 0 with (Q2R 0) by (unfold Q2R; cbn; lra). Qed.

(** ** Soundness of the rules *)

Section soundness.
Context (ts : list ClosedTerm) (vs : list ExactRational).
(** Every earlier step is sound. *)
Context (Hsound : ∀ i t v, ts !! i = Some t → vs !! i = Some v → denotes t (rat_R v)).

Lemma denotes_One_1 : denotes One (Q2R 1).
Proof. replace (Q2R 1) with 1 by (unfold Q2R; cbn; lra). constructor. Qed.

Lemma denotes_zero_term : denotes (T_log2 One) (Q2R 0).
Proof.
  replace (Q2R 0) with (log2R 1) by (rewrite log2R_1; unfold Q2R; cbn; lra).
  apply denotes_log2; [constructor|lra].
Qed.

Lemma step_sound step t q : step_term ts step = Some t → step_value vs step q → denotes t (Q2R q).
Proof.
  intros Ht Hq. destruct Hq; cbn [step_term] in Ht;
    repeat match goal with
    | H : _ ≫= _ = Some _ |- _ => apply bind_Some in H as (? & ? & ?)
    | H : _ <$> _ = Some _ |- _ => apply fmap_Some in H as (? & ? & ?)
    end; simplify_eq;
    repeat match goal with
    | H1 : ts !! ?i = Some _, H2 : vs !! ?i = Some _ |- _ =>
        pose proof (Hsound _ _ _ H1 H2); clear H1
    end.
  - apply denotes_One_1.
  - apply denotes_zero_term.
  - rewrite Q2R_scaleQ, <- rat_R_integer by done. by apply denotes_exp2.
  - rewrite Q2R_minus, Q2R_scaleQ, <- rat_R_integer by done.
    denotes_as (Rpower 2 (rat_R x) - log2R (Rpower 2 (rat_R y))); [|by rewrite log2R_Rpower].
    constructor; [done|by apply denotes_exp2|apply Rpower2_pos].
  - rewrite Q2R_plus. by apply denotes_add.
  - rewrite Q2R_minus. by apply denotes_sub.
  - rewrite Q2R_opp. by apply denotes_neg.
  - rewrite Q2R_mult. by apply denotes_mul; try apply rat_R_pos.
  - rewrite Q2R_div by (by apply Qnot_eq_sym, Qlt_not_eq). by apply denotes_div; try apply rat_R_pos.
Qed.
End soundness.

Lemma Meaning_sound ss ts vs :
  Meaning ss ts vs → ∀ i t v, ts !! i = Some t → vs !! i = Some v → denotes t (rat_R v).
Proof.
  induction 1 as [|ss ts vs step t v q Hm IH Ht Hv Hw HQ]; intros i u w Hi Hj; [done|].
  destruct (Meaning_length _ _ _ Hm) as [H1 H2].
  destruct (decide (i < length ts)%nat) as [Hlt|Hge].
  - rewrite lookup_app_l in Hi by lia. rewrite lookup_app_l in Hj by lia. by apply (IH i).
  - pose proof (lookup_lt_Some _ _ _ Hi) as Hlt. rewrite length_app in Hlt. cbn in Hlt.
    assert (i = length ts) as -> by lia. rewrite list_lookup_middle in Hi by done.
    rewrite H1, <- H2, list_lookup_middle in Hj by done. simplify_eq.
    rewrite (rat_R_eq _ _ HQ). by apply (step_sound ts vs IH step).
Qed.

Lemma certified_value c : certified c → Value (term c) (rat_R (target c)).
Proof.
  intros (ts & vs & t & Hm & Ht & Hv & Hr). exists t. split; [done|]. by eapply Meaning_sound.
Qed.

(** [C1] A verified claim is a real identity: when [verify] accepts a term, a rational
    and proof data of any origin, the term is defined over the reals, every
    logarithm in it has a positive argument, and its value is exactly the
    rational. *)
Theorem certificate_sound options d b v c :
  options_ok options → Certified.verify d b v options = Ok c → Value b (rat_R v).
Proof.
  intros Ho H. pose proof (verify_lemma options d b v Ho) as Hv. rewrite H in Hv.
  destruct Hv as [-> Hc]. apply (certified_value _ Hc).
Qed.

(** The certificate of [-1/2] over its real value. *)
Lemma certificate_sound_witness :
  ∃ b, Certified.verify (mkExactDerivation [StepOne; Exp2 0; PositiveDiv 0 1; Neg 2] 3) b
         (mkExactRational true [1%Z] [2%Z]) ExactSynthesisOptions_default
       = Ok (mkCertifiedBml b (mkExactRational true [1%Z] [2%Z])
           (mkExactDerivation [StepOne; Exp2 0; PositiveDiv 0 1; Neg 2] 3)) ∧
       Value b (rat_R (mkExactRational true [1%Z] [2%Z])).
Proof.
  destruct (Certified.certify (mkExactDerivation [StepOne; Exp2 0; PositiveDiv 0 1; Neg 2] 3)
    ExactSynthesisOptions_default) as [c|e] eqn:E; [|vm_compute in E; discriminate].
  exists (term c).
  assert (Certified.verify (mkExactDerivation [StepOne; Exp2 0; PositiveDiv 0 1; Neg 2] 3) (term c)
    (mkExactRational true [1%Z] [2%Z]) ExactSynthesisOptions_default
    = Ok (mkCertifiedBml (term c) (mkExactRational true [1%Z] [2%Z])
        (mkExactDerivation [StepOne; Exp2 0; PositiveDiv 0 1; Neg 2] 3))) as H.
  { vm_compute in E. injection E as <-. vm_compute. reflexivity. }
  split; [exact H|exact (certificate_sound _ _ _ _ _ options_default_ok H)].
Defined.
