(* ===== verification/Checked.v ===== *)
(** * number/checked.rs: arithmetic on certificates

    Certified operands are combined by concatenating their derivations, the
    second one relocated, and appending the steps of the operation; the result
    is replayed. The theorem of this file is that this is exact arithmetic on
    the targets, for every sign and zero, and that it fails only for lack of
    budget or on a proved zero divisor. *)

From Stdlib Require Import QArith.
From S2P Require Import Prelude Words Terms Encoding Operations ExactNat Float Exact ExactInput Certified.
#[local] Open Scope Z_scope.

(** [Operation] *)
Inductive Operation : Set := OpAdd | OpSub | OpMul | OpDiv.

#[global] Instance Operation_eq_dec : EqDecision Operation.
Proof. solve_decision. Defined.

Module Checked.
Abbreviation Result := (Result ExactError).

Definition index (i offset : nat) : Result nat :=
  sum ← ok_or ProofLimit (checked_add (Z.of_nat i) (Z.of_nat offset));
  Ok (Z.to_nat sum).

Definition relocated (step : ExactStep) (offset : nat) : Result ExactStep :=
  let unary f a := a ← index a offset; Ok (f a) in
  let binary f a b := a ← index a offset; b ← index b offset; Ok (f a b) in
  match step with
  | StepOne => Ok StepOne
  | StepZero => Ok StepZero
  | Exp2 a => unary Exp2 a
  | PowerDifference a b => binary PowerDifference a b
  | Add a b => binary Add a b
  | Sub a b => binary Sub a b
  | Neg a => unary Neg a
  | PositiveMul a b => binary PositiveMul a b
  | PositiveDiv a b => binary PositiveDiv a b
  end.

Definition append (steps : list ExactStep) (step : ExactStep) (options : ExactSynthesisOptions)
  : Result (nat * list ExactStep) :=
  if max_steps options <=? Z.of_nat (length steps) then Err ProofLimit
  else Ok (length steps, steps ++ [step]).

(** The steps of a product or a quotient of non-zero targets: signs made
    explicit around the positive rule. *)
Definition signed_step (na nb : bool) (positive : nat → nat → ExactStep) (a b : nat)
    (steps : list ExactStep) (options : ExactSynthesisOptions)
  : Result (ExactStep * list ExactStep) :=
  '(a, steps) ← (if na then append steps (Neg a) options else Ok (a, steps));
  '(b, steps) ← (if nb then append steps (Neg b) options else Ok (b, steps));
  if negb (Bool.eqb na nb) then
    '(p, steps) ← append steps (positive a b) options;
    Ok (Neg p, steps)
  else Ok (positive a b, steps).

Definition binary (self rhs : CertifiedBml) (operation : Operation)
    (options : ExactSynthesisOptions) : Result CertifiedBml :=
  if bool_decide (operation = OpDiv) && Exact.is_zero (target rhs)
  then Err (Rational DivisionByZero)
  else
    count ← ok_or ProofLimit
      (checked_add (Z.of_nat (length (steps (derivation self))))
                   (Z.of_nat (length (steps (derivation rhs)))));
    if max_steps options <=? count then Err ProofLimit
    else
      let offset := length (steps (derivation self)) in
      program ← for_each (λ step program, s ← relocated step offset; Ok (program ++ [s]))
        (steps (derivation rhs)) (steps (derivation self));
      let a := root (derivation self) in
      b ← index (root (derivation rhs)) offset;
      '(step, program) ←
        match operation with
        | OpAdd => Ok (Add a b, program)
        | OpSub => Ok (Sub a b, program)
        | OpMul | OpDiv =>
            if Exact.is_zero (target self)
               || (bool_decide (operation = OpMul) && Exact.is_zero (target rhs))
            then Ok (StepZero, program)
            else
              signed_step (negative (target self)) (negative (target rhs))
                (if bool_decide (operation = OpMul) then PositiveMul else PositiveDiv)
                a b program options
        end;
      '(root, program) ← append program step options;
      Certified.certify (mkExactDerivation program root) options.

Definition checked_add (self rhs : CertifiedBml) options := binary self rhs OpAdd options.
Definition checked_sub (self rhs : CertifiedBml) options := binary self rhs OpSub options.
Definition checked_mul (self rhs : CertifiedBml) options := binary self rhs OpMul options.
Definition checked_div (self rhs : CertifiedBml) options := binary self rhs OpDiv options.

Definition checked_neg (self : CertifiedBml) (options : ExactSynthesisOptions)
  : Result CertifiedBml :=
  if max_steps options <=? Z.of_nat (length (steps (derivation self))) then Err ProofLimit
  else
    '(root, program) ← append (steps (derivation self)) (Neg (root (derivation self))) options;
    Certified.certify (mkExactDerivation program root) options.

(** The assignments return the new value of [self] with the answer. *)
Definition try_add_assign (self rhs : CertifiedBml) (options : ExactSynthesisOptions)
  : CertifiedBml * Result unit :=
  match checked_add self rhs options with
  | Ok result => (result, Ok tt)
  | Err e => (self, Err e)
  end.

Definition try_mul_assign (self rhs : CertifiedBml) (options : ExactSynthesisOptions)
  : CertifiedBml * Result unit :=
  match checked_mul self rhs options with
  | Ok result => (result, Ok tt)
  | Err e => (self, Err e)
  end.
End Checked.

(** ** Every rational is a target *)

Lemma canonical_exists n : 0 ≤ n → ∃ ws, canonical ws ∧ words_val ws = n.
Proof.
  intros Hn. revert n Hn. apply (Zlt_0_ind (λ n, ∃ ws, canonical ws ∧ words_val ws = n)).
  intros n IH Hn. destruct (decide (n = 0)) as [->|Hne]; [by exists []; split; [apply canonical_nil|]|].
  destruct (IH (n / W64)) as (ws & Hc & Hv); [split; [apply Z.div_pos; lia|apply Z.div_lt; lia]|].
  assert (u64 (n `mod` W64)) as Hu by (apply Z.mod_pos_bound; lia).
  pose proof (Z.div_mod n W64 ltac:(lia)) as Hdm.
  destruct (decide (ws = [])) as [->|Hnil].
  - exists [n `mod` W64]. cbn in Hv. split; [apply canonical_singleton; [done|lia]|cbn; lia].
  - exists (n `mod` W64 :: ws). split; [by apply canonical_cons|]. cbn [words_val]. lia.
Qed.

Lemma rational_exists q : ∃ v, rat_wf v ∧ (rat_Q v == q)%Q.
Proof.
  destruct q as [n p]. set (d := Zpos p). set (g := Z.gcd n d).
  assert (0 < g) as Hg.
  { subst g. pose proof (Z.gcd_nonneg n d). assert (Z.gcd n d ≠ 0); [|lia]. by intros [_ ?]%Z.gcd_eq_0. }
  assert (n = g * (n / g)) as En.
  { apply Z.div_exact; [lia|]. apply Z.mod_divide; [lia|]. apply Z.gcd_divide_l. }
  assert (d = g * (d / g)) as Ed.
  { apply Z.div_exact; [lia|]. apply Z.mod_divide; [lia|]. apply Z.gcd_divide_r. }
  assert (0 < d / g) as Hd by (assert (0 < d) by done; nia).
  destruct (canonical_exists (Z.abs (n / g))) as (num & Hnc & Hnv); [lia|].
  destruct (canonical_exists (d / g)) as (den & Hdc & Hdv); [lia|].
  exists (mkExactRational (n / g <? 0) num den). split.
  - split; unfold rat_den; cbn [numerator denominator negative]; [done|done|lia| |].
    + rewrite Hnv, Hdv, Z.gcd_abs_l. apply Z.gcd_div_gcd; [|done]. lia.
    + intros ->. cbn in Hnv. apply Z.ltb_ge. lia.
  - change (n # p)%Q with (n # Z.to_pos d)%Q. apply rat_Q_eq; unfold rat_num, rat_den;
      cbn [numerator denominator negative]; [lia|done|].
    rewrite Hnv, Hdv. rewrite Ed at 1. rewrite En at 3.
    destruct (Z.ltb_spec (n / g) 0); cbn [signed]; lia.
Qed.

(** Appending a step to a program whose operands are known. *)
Lemma Meaning_extend ss ts vs step q :
  Meaning ss ts vs → is_Some (step_term ts step) → step_value vs step q →
  ∃ t v, Meaning (ss ++ [step]) (ts ++ [t]) (vs ++ [v]) ∧ rat_wf v ∧ (rat_Q v == q)%Q.
Proof.
  intros Hm [t Ht] Hq. destruct (rational_exists q) as (v & Hv & HQ).
  exists t, v. split; [by apply (Meaning_snoc _ _ _ step t v q)|done].
Qed.

(** ** Relocation *)

Lemma index_Ok i offset j : Checked.index i offset = Ok j → j = (i + offset)%nat.
Proof.
  unfold Checked.index. intros (s & [-> _]%ok_or_ok%checked_add_Some & [= <-])%bind_ok. lia.
Qed.

Lemma index_Err i offset e : Checked.index i offset = Err e → e = ProofLimit.
Proof.
  unfold Checked.index. intros [H|(s & _ & ?)]%bind_err; [|done].
  destruct (Prelude.checked_add _ _); [done|]. by injection H as <-.
Qed.

Ltac index_ok := repeat match goal with
  | H : _ ≫= _ = Ok _ |- _ => apply bind_ok in H as (? & ?%index_Ok & H)
  end; simplify_eq.

Lemma relocated_err step offset e : Checked.relocated step offset = Err e → e = ProofLimit.
Proof.
  destruct step; cbn [Checked.relocated]; try done; intros H;
    repeat (apply bind_err in H as [?%index_Err|(? & _ & H)]; [done|]); done.
Qed.

(** A relocated step means the same behind the other program. *)
Lemma relocated_term ts1 ts2 step step' t :
  Checked.relocated step (length ts1) = Ok step' →
  step_term ts2 step = Some t → step_term (ts1 ++ ts2) step' = Some t.
Proof.
  assert (∀ i, (ts1 ++ ts2) !! (i + length ts1)%nat = ts2 !! i) as Hl.
  { intros i. rewrite lookup_app_r by lia. f_equal. lia. }
  destruct step; cbn [Checked.relocated]; intros H; index_ok; cbn [step_term]; by rewrite ?Hl.
Qed.

Lemma relocated_value vs1 vs2 step step' q :
  Checked.relocated step (length vs1) = Ok step' →
  step_value vs2 step q → step_value (vs1 ++ vs2) step' q.
Proof.
  assert (∀ i x, vs2 !! i = Some x → (vs1 ++ vs2) !! (i + length vs1)%nat = Some x) as Hl.
  { intros i x Hx. rewrite lookup_app_r by lia. rewrite <- Hx. f_equal. lia. }
  destruct 2; cbn [Checked.relocated] in *; index_ok; constructor; auto.
Qed.

(** The loop that appends the relocated program. *)
Lemma relocate_spec ss1 ts1 vs1 ss2 ts2 vs2 :
  Meaning ss1 ts1 vs1 → Meaning ss2 ts2 vs2 →
  match for_each (λ step program, s ← Checked.relocated step (length ss1); Ok (program ++ [s])) ss2 ss1 with
  | Ok program => Meaning program (ts1 ++ ts2) (vs1 ++ vs2) ∧ length program = (length ss1 + length ss2)%nat
  | Err e => e = ProofLimit
  end.
Proof.
  intros H1. destruct (Meaning_length _ _ _ H1) as [Hlt Hlv].
  induction 1 as [|ss2 ts2 vs2 step t v q Hm IH Ht Hv Hw HQ].
  { cbn. rewrite !app_nil_r. split; [done|lia]. }
  rewrite for_each_app. destruct (for_each _ ss2 ss1) as [program|e]; cbn [mbind Result_bind]; [|done].
  destruct IH as [IH Hlen]. cbn [for_each].
  destruct (Checked.relocated step (length ss1)) as [step'|e] eqn:Hr; cbn [mbind Result_bind];
    [|by eapply relocated_err].
  split; [|rewrite !length_app; cbn; lia]. rewrite !app_assoc.
  apply (Meaning_snoc _ _ _ step' t v q); [done| | |done|done].
  - eapply relocated_term; [by rewrite Hlt|done].
  - eapply relocated_value; [by rewrite Hlv|done].
Qed.

(** ** The operations *)

(** The exact result of an operation. *)
Definition operation_Q (op : Operation) (x y : Q) : Q :=
  match op with
  | OpAdd => x + y | OpSub => x - y | OpMul => x * y | OpDiv => x / y
  end%Q.

(** A program whose steps so far are meaningful and whose step [i] is [v]. *)
Definition denotes_at (program : list ExactStep) (i : nat) (v : ExactRational) : Prop :=
  ∃ ts vs, Meaning program ts vs ∧ vs !! i = Some v.

(** What an appended step may answer: a program that keeps the old values and whose
    new index has value [q], or an exhausted budget. *)
Definition extends (ts : list ClosedTerm) (vs : list ExactRational) (q : Q)
    (m : Result ExactError (nat * list ExactStep)) : Prop :=
  match m with
  | Ok (i, program) => ∃ ts' vs' v, Meaning program (ts ++ ts') (vs ++ vs') ∧
      (vs ++ vs') !! i = Some v ∧ rat_wf v ∧ (rat_Q v == q)%Q
  | Err e => e = ProofLimit
  end.

Section append.
Context (options : ExactSynthesisOptions).

Lemma append_spec ss ts vs step q :
  Meaning ss ts vs → is_Some (step_term ts step) → step_value vs step q →
  extends ts vs q (Checked.append ss step options).
Proof.
  intros Hm Ht Hq. unfold Checked.append. destruct (_ <=? _); [done|].
  destruct (Meaning_extend ss ts vs step q Hm Ht Hq) as (t & v & Hm' & Hv & HQ).
  destruct (Meaning_length _ _ _ Hm) as [_ Hlen].
  exists [t], [v], v. split; [done|]. split; [by rewrite <- Hlen, list_lookup_middle|done].
Qed.

Lemma lookup_defined ss ts vs i v : Meaning ss ts vs → vs !! i = Some v → is_Some (ts !! i).
Proof.
  intros Hm Hi. destruct (Meaning_length _ _ _ Hm) as [H1 H2]. apply lookup_lt_Some in Hi.
  apply lookup_lt_is_Some. lia.
Qed.

Lemma unary_term (ts : list ClosedTerm) (f : ClosedTerm → ClosedTerm) (a : nat) : is_Some (ts !! a) → is_Some (f <$> ts !! a).
Proof. by rewrite fmap_is_Some. Qed.

Lemma binary_term (ts : list ClosedTerm) (f : ClosedTerm → ClosedTerm → ClosedTerm) (a b : nat) :
  is_Some (ts !! a) → is_Some (ts !! b) → is_Some (x ← ts !! a; y ← ts !! b; Some (f x y)).
Proof. intros [x ->] [y ->]. cbn. by eexists. Qed.

(** The operand with its sign removed. *)
Definition rat_abs (x : ExactRational) : Q := if negative x then - rat_Q x else rat_Q x.

Lemma rat_abs_positive x : rat_wf x → Exact.is_zero x = false → (0 < rat_abs x)%Q.
Proof.
  intros Hx Hz. apply bool_decide_eq_false in Hz.
  pose proof (canonical_val_pos _ (wf_numerator x Hx) Hz).
  unfold rat_abs, rat_Q, rat_num, Qlt. destruct (negative x); cbn; lia.
Qed.

(** Making a sign explicit. *)
Lemma sign_step ss ts vs a x :
  Meaning ss ts vs → vs !! a = Some x → rat_wf x →
  extends ts vs (rat_abs x)
    (if negative x then Checked.append ss (Neg a) options else Ok (a, ss)).
Proof.
  intros Hm Ha Hx. unfold rat_abs. destruct (negative x).
  - apply append_spec; [done|apply unary_term; by eapply lookup_defined|by constructor].
  - exists [], [], x. by rewrite !app_nil_r.
Qed.

(** The product or quotient of magnitudes. *)
Definition positive_Q (op : Operation) (x y : Q) : Q := if bool_decide (op = OpMul) then x * y else x / y.

Lemma positive_step op ts vs a b x y :
  vs !! a = Some x → vs !! b = Some y → (0 < rat_Q x)%Q → (0 < rat_Q y)%Q →
  is_Some (ts !! a) → is_Some (ts !! b) →
  let step := (if bool_decide (op = OpMul) then PositiveMul else PositiveDiv) a b in
  is_Some (step_term ts step) ∧ step_value vs step (positive_Q op (rat_Q x) (rat_Q y)).
Proof.
  intros Ha Hb Hx Hy Hta Htb. unfold positive_Q. case_bool_decide; cbn zeta;
    (split; [by apply binary_term|by constructor]).
Qed.

(** The signs recombine. *)
Lemma signed_quotient op x y x' y' :
  (rat_Q x' == rat_abs x)%Q → (rat_Q y' == rat_abs y)%Q →
  ((if negb (Bool.eqb (negative x) (negative y)) then - positive_Q op (rat_Q x') (rat_Q y')
    else positive_Q op (rat_Q x') (rat_Q y')) == positive_Q op (rat_Q x) (rat_Q y))%Q.
Proof.
  assert (∀ q, / - q == - / q)%Q as Hinv.
  { intros [[|n|n] d]; reflexivity. }
  intros Hx Hy. unfold positive_Q, rat_abs in *.
  destruct (negative x), (negative y); cbn [Bool.eqb negb]; case_bool_decide;
    rewrite Hx, Hy; unfold Qdiv; rewrite ?Hinv; ring.
Qed.

(** [signed_step]: the final step of a product or quotient has the signed value. *)
Lemma signed_step_spec op ss ts vs a b x y :
  Meaning ss ts vs → vs !! a = Some x → vs !! b = Some y → rat_wf x → rat_wf y →
  Exact.is_zero x = false → Exact.is_zero y = false →
  match Checked.signed_step (negative x) (negative y)
          (if bool_decide (op = OpMul) then PositiveMul else PositiveDiv) a b ss options with
  | Ok (step, program) => ∃ ts' vs' q, Meaning program ts' vs' ∧
      is_Some (step_term ts' step) ∧ step_value vs' step q ∧
      (q == positive_Q op (rat_Q x) (rat_Q y))%Q
  | Err e => e = ProofLimit
  end.
Proof.
  intros Hm Ha Hb Hx Hy Hzx Hzy. unfold Checked.signed_step.
  pose proof (sign_step ss ts vs a x Hm Ha Hx) as H1. unfold extends in H1.
  destruct (if negative x then _ else _) as [[a' s1]|e]; cbn [mbind Result_bind]; [|done].
  destruct H1 as (ts1 & vs1 & x' & Hm1 & Ha' & Hx' & HQx).
  assert ((vs ++ vs1) !! b = Some y) as Hb1 by (by apply lookup_app_l_Some).
  pose proof (sign_step s1 _ _ b y Hm1 Hb1 Hy) as H2. unfold extends in H2.
  destruct (if negative y then _ else _) as [[b' s2]|e]; cbn [mbind Result_bind]; [|done].
  destruct H2 as (ts2 & vs2 & y' & Hm2 & Hb' & Hy' & HQy).
  apply (lookup_app_l_Some _ vs2) in Ha'.
  assert (0 < rat_Q x')%Q as Px by (rewrite HQx; by apply rat_abs_positive).
  assert (0 < rat_Q y')%Q as Py by (rewrite HQy; by apply rat_abs_positive).
  destruct (positive_step op ((ts ++ ts1) ++ ts2) _ a' b' x' y' Ha' Hb' Px Py) as [Ht Hq];
    [by eapply lookup_defined..|].
  set (step := (if bool_decide (op = OpMul) then PositiveMul else PositiveDiv) a' b') in *.
  pose proof (signed_quotient op x y x' y' HQx HQy) as Hsigns.
  destruct (negb (Bool.eqb (negative x) (negative y))).
  - pose proof (append_spec s2 _ _ step _ Hm2 Ht Hq) as H3. unfold extends in H3.
    destruct (Checked.append s2 step options) as [[p s3]|e]; cbn [mbind Result_bind]; [|done].
    destruct H3 as (ts3 & vs3 & z & Hm3 & Hp & Hz & HQz).
    eexists _, _, (- rat_Q z)%Q. split; [exact Hm3|].
    split; [apply unary_term; by eapply lookup_defined|]. split; [by constructor|].
    by rewrite HQz.
  - eexists _, _, (positive_Q op (rat_Q x') (rat_Q y')). split; [exact Hm2|]. by split; [|split].
Qed.
End append.

Section binary.
Context (options : ExactSynthesisOptions) (Hopt : options_ok options).

(** The root of a certificate, as a step of its own program. *)
Lemma certified_root c :
  certified c → ∃ ts vs, Meaning (steps (derivation c)) ts vs ∧
    vs !! root (derivation c) = Some (target c).
Proof. intros (ts & vs & t & Hm & _ & Hv & _). by exists ts, vs. Qed.

(** A certificate of the value [q], or an exhausted budget. *)
Definition result_is (q : Q) (m : Result ExactError CertifiedBml) : Prop :=
  match m with
  | Ok c => certified c ∧ (rat_Q (target c) == q)%Q
  | Err e => is_resource e = true
  end.

Lemma result_is_eq q q' m : (q == q')%Q → result_is q m → result_is q' m.
Proof. intros Hq. destruct m as [c|e]; [|done]. intros [Hc HQ]. split; [done|]. by rewrite HQ. Qed.

(** The final step: appended, replayed, and its target is the exact value. *)
Lemma finish_spec ss ts vs step q :
  Meaning ss ts vs → is_Some (step_term ts step) → step_value vs step q →
  result_is q ('(root, program) ← Checked.append ss step options;
               Certified.certify (mkExactDerivation program root) options).
Proof.
  intros Hm Ht Hq. pose proof (append_spec options ss ts vs step q Hm Ht Hq) as Ha.
  destruct (Checked.append ss step options) as [[i program]|e]; cbn [mbind Result_bind extends] in *;
    [|by subst e].
  destruct Ha as (ts' & vs' & v & Hm' & Hi & Hv & HQ).
  pose proof (certify_meaning options Hopt program _ _ i v Hm' Hi) as Hc.
  unfold result_is. destruct (Certified.certify _ _) as [c|e]; [|done].
  destruct Hc as (Hc & -> & _). by split.
Qed.

Lemma zero_product op x y :
  op = OpMul ∨ op = OpDiv → rat_wf x → rat_wf y →
  Exact.is_zero x || (bool_decide (op = OpMul) && Exact.is_zero y) = true →
  (operation_Q op (rat_Q x) (rat_Q y) == 0)%Q.
Proof.
  assert (∀ z, rat_wf z → Exact.is_zero z = true → (rat_Q z == 0)%Q) as Hz.
  { intros z Hwf H. apply rat_Q_zero_iff; [done|]. by apply bool_decide_eq_true in H. }
  intros Hop Hx Hy [H|[Hm H]%andb_prop]%orb_true_iff.
  - destruct Hop as [-> | ->]; cbn [operation_Q]; rewrite (Hz x) by done; [ring|]. unfold Qdiv. ring.
  - apply bool_decide_eq_true in Hm as ->. cbn [operation_Q]. rewrite (Hz y) by done. ring.
Qed.

(** The steps of one operation, behind a program that holds both operands. *)
Lemma operation_steps_spec op program ts vs i j x y :
  Meaning program ts vs → vs !! i = Some x → vs !! j = Some y → rat_wf x → rat_wf y →
  bool_decide (op = OpDiv) && Exact.is_zero y = false →
  result_is (operation_Q op (rat_Q x) (rat_Q y))
    ('(step, program) ←
        match op with
        | OpAdd => Ok (Add i j, program)
        | OpSub => Ok (Sub i j, program)
        | OpMul | OpDiv =>
            if Exact.is_zero x || (bool_decide (op = OpMul) && Exact.is_zero y)
            then Ok (StepZero, program)
            else
              Checked.signed_step (negative x) (negative y)
                (if bool_decide (op = OpMul) then PositiveMul else PositiveDiv)
                i j program options
        end;
      '(root, program) ← Checked.append program step options;
      Certified.certify (mkExactDerivation program root) options).
Proof.
  intros Hm Hi Hj Hx Hy Hdiv.
  pose proof (lookup_defined _ _ _ _ _ Hm Hi) as Hti. pose proof (lookup_defined _ _ _ _ _ Hm Hj) as Htj.
  destruct (decide (op = OpMul ∨ op = OpDiv)) as [Hop|Hop]; cycle 1.
  { destruct op; try tauto; cbn [mbind Result_bind operation_Q];
      (eapply finish_spec; [exact Hm|by apply binary_term|by constructor]). }
  set (zero := Exact.is_zero x || (bool_decide (op = OpMul) && Exact.is_zero y)).
  replace (match op with OpAdd => _ | OpSub => _ | _ => _ end) with
    (if zero then Ok (StepZero, program)
     else Checked.signed_step (negative x) (negative y)
            (if bool_decide (op = OpMul) then PositiveMul else PositiveDiv)
            i j program options) by (by destruct Hop as [-> | ->]).
  destruct zero eqn:Ez; subst zero; cbn [mbind Result_bind].
  - eapply result_is_eq; [symmetry; by apply zero_product|].
    eapply finish_spec; [exact Hm|by eexists|apply value_Zero].
  - apply orb_false_iff in Ez as [Hzx Hz].
    assert (Exact.is_zero y = false) as Hzy by (by destruct Hop as [-> | ->]).
    pose proof (signed_step_spec options op program ts vs i j x y Hm Hi Hj Hx Hy Hzx Hzy) as Hs.
    destruct (Checked.signed_step _ _ _ _ _ _ _) as [[step program']|e]; cbn [mbind Result_bind]; [|by subst e].
    destruct Hs as (ts' & vs' & q & Hm' & Ht & Hq & HQ).
    eapply result_is_eq; [|by eapply finish_spec]. rewrite HQ. by destruct Hop as [-> | ->].
Qed.

Lemma binary_lemma a b op :
  certified a → certified b →
  match Checked.binary a b op options with
  | Ok c => certified c ∧ (rat_Q (target c) == operation_Q op (rat_Q (target a)) (rat_Q (target b)))%Q
  | Err e => if bool_decide (op = OpDiv) && Exact.is_zero (target b)
             then e = Rational DivisionByZero else is_resource e = true
  end.
Proof.
  intros Ha Hb. unfold Checked.binary.
  destruct (bool_decide (op = OpDiv) && Exact.is_zero (target b)) eqn:Ediv; [done|].
  lazymatch goal with |- match ?m with Ok _ => _ | Err _ => _ end =>
    change (result_is (operation_Q op (rat_Q (target a)) (rat_Q (target b))) m) end.
  destruct (certified_root a Ha) as (ts1 & vs1 & Hm1 & Hr1).
  destruct (certified_root b Hb) as (ts2 & vs2 & Hm2 & Hr2).
  destruct (Prelude.checked_add _ _) as [count|]; cbn [ok_or mbind Result_bind]; [|done].
  destruct (_ <=? count); [done|].
  pose proof (relocate_spec _ _ _ _ _ _ Hm1 Hm2) as Hrel.
  destruct (for_each _ (steps (derivation b)) _) as [program|e]; cbn [mbind Result_bind]; [|by subst e].
  destruct Hrel as [Hm _].
  destruct (Checked.index _ _) as [rb|e] eqn:Eidx; cbn [mbind Result_bind]; [|by apply index_Err in Eidx as ->].
  apply index_Ok in Eidx. destruct (Meaning_length _ _ _ Hm1) as [_ Hlen].
  assert ((vs1 ++ vs2) !! rb = Some (target b)) as Hrb.
  { rewrite lookup_app_r by lia. rewrite <- Hr2. f_equal. lia. }
  apply (lookup_app_l_Some _ vs2) in Hr1.
  by eapply operation_steps_spec; [..|apply certified_wf|apply certified_wf|].
Qed.

Lemma checked_neg_lemma a :
  certified a → result_is (- rat_Q (target a)) (Checked.checked_neg a options).
Proof.
  intros Ha. unfold Checked.checked_neg. destruct (_ <=? _); [done|].
  destruct (certified_root a Ha) as (ts & vs & Hm & Hr).
  eapply finish_spec; [exact Hm|apply unary_term; by eapply lookup_defined|by constructor].
Qed.
End binary.


(** Certificates of -2 and 3 for the witness. *)
Definition minus_two : ExactDerivation := mkExactDerivation [StepOne; Exp2 0; Neg 1] 2.
Definition three : ExactDerivation := mkExactDerivation [StepOne; Exp2 0; PowerDifference 1 0] 2.

(** What a successful computation returns. *)
Definition the_result (m : Result ExactError CertifiedBml) : CertifiedBml :=
  match m with Ok c => c | Err _ => mkCertifiedBml one (Exact.from_i64 0) minus_two end.

Lemma the_result_ok m : is_ok m = true → m = Ok (the_result m).
Proof. by destruct m. Qed.

Lemma certify_ok_certified d :
  is_ok (Certified.certify d ExactSynthesisOptions_default) = true →
  certified (the_result (Certified.certify d ExactSynthesisOptions_default)).
Proof.
  intros H. pose proof (certify_spec _ options_default_ok d) as Hc. destruct (Certified.certify d _); [apply Hc|done].
Qed.

