(* ===== verification/Recognize.v ===== *)
(** * number/recognize.rs: recovering a certificate from a bare term

    The recognizer interns the subtrees of an encoded term, matches them against
    the templates of the arithmetic rules and writes a derivation, which is then
    replayed. Proved here: whatever it writes rebuilds exactly the recognized
    term, so the answers [InvalidProof] in its code cannot occur. *)

From Stdlib Require Import QArith.
From S2P Require Import Prelude Words Terms Encoding Operations ExactNat Float Exact ExactInput Certified.
#[local] Open Scope Z_scope.

Inductive Pattern : Set :=
  | PatOne
  | PatVar (slot : nat)
  | PatOp (left right : Pattern).

(** [Rule]; the variants are prefixed by [Rule]. *)
Inductive Rule : Set :=
  | RuleOne | RuleZero | RuleExp | RuleNear | RuleAdd | RuleSub | RuleNeg | RuleMul | RuleDiv.

Module Recognize.
Abbreviation Result := (Result ExactError).

(** ** The templates *)

Definition op (a b : Pattern) : Pattern := PatOp a b.
Definition exp (a : Pattern) : Pattern := op a PatOne.
Definition log (a : Pattern) : Pattern := op PatOne (exp (op PatOne a)).
Definition difference (a b : Pattern) : Pattern := op (log a) (exp b).

Definition addition (x y : Pattern) : Pattern :=
  let p := exp x in
  let q := op x p in
  difference p (difference q y).

Definition subtraction (x y : Pattern) : Pattern :=
  let p := exp x in
  let q := op x p in
  difference p (addition q y).

Definition negation (x : Pattern) : Pattern :=
  let p := exp x in
  let q := op x p in
  difference q p.

Definition patterns : list (Pattern * Rule) :=
  let a := PatVar 0 in
  let b := PatVar 1 in
  [ (PatOne, RuleOne);
    (op PatOne (exp (exp PatOne)), RuleZero);
    (exp (subtraction (log a) (log b)), RuleDiv);
    (exp (addition (log a) (log b)), RuleMul);
    (subtraction a b, RuleSub);
    (addition a b, RuleAdd);
    (negation a, RuleNeg);
    (op a (exp b), RuleNear);
    (exp a, RuleExp) ].

(** ** Matching *)

(** The table of distinct subtrees; entry 0 is the leaf. *)
Definition Nodes := list (option (nat * nat)).

Fixpoint pattern_size (p : Pattern) : nat :=
  match p with PatOp l r => S (pattern_size l + pattern_size r) | _ => 1 end.

(** The [while let] loop of [matches]; every iteration removes a pattern node, so
    the size of the pattern is enough fuel. The answer carries the count of
    comparisons, which the code keeps in [self]. *)
Fixpoint matches_loop (fuel : nat) (options : ExactSynthesisOptions) (nodes : Nodes)
    (pending : list (Pattern * nat)) (variables : list (option nat)) (comparisons : Z)
  : Result (option (list (option nat)) * Z) :=
  match pending with
  | [] => Ok (Some variables, comparisons)
  | (pattern, node) :: pending =>
      match fuel with
      | O => Err ProofLimit
      | S fuel =>
          comparisons ← ok_or ProofLimit (checked_add comparisons 1);
          if saturating_mul (max_steps options) 4096 <? comparisons then Err ProofLimit
          else
            match pattern with
            | PatOne =>
                if negb (node =? 0)%nat then Ok (None, comparisons)
                else matches_loop fuel options nodes pending variables comparisons
            | PatVar slot =>
                match mjoin (variables !! slot) with
                | Some previous =>
                    if negb (previous =? node)%nat then Ok (None, comparisons)
                    else matches_loop fuel options nodes pending
                           (<[slot := Some node]> variables) comparisons
                | None =>
                    matches_loop fuel options nodes pending
                      (<[slot := Some node]> variables) comparisons
                end
            | PatOp l r =>
                match mjoin (nodes !! node) with
                | None => Ok (None, comparisons)
                | Some (a, b) =>
                    matches_loop fuel options nodes ((l, a) :: (r, b) :: pending)
                      variables comparisons
                end
            end
      end
  end.

Definition matches (options : ExactSynthesisOptions) (nodes : Nodes) (pattern : Pattern)
    (root : nat) (comparisons : Z) : Result (option (list (option nat)) * Z) :=
  matches_loop (pattern_size pattern) options nodes [(pattern, root)] [None; None] comparisons.

(** ** Derivation *)

(** The fields of [Recognizer] that [derive] changes. *)
Record State : Set := mkState {
  derived : list (option nat);
  program : list ExactStep;
  comparisons : Z;
}.

Definition rule_step (rule : Rule) (a b : option nat) : Result ExactStep :=
  let a := ok_or InvalidProof a in
  let b := ok_or InvalidProof b in
  match rule with
  | RuleOne => Ok StepOne
  | RuleZero => Ok StepZero
  | RuleExp => a ← a; Ok (Exp2 a)
  | RuleNear => a ← a; b ← b; Ok (PowerDifference a b)
  | RuleAdd => a ← a; b ← b; Ok (Add a b)
  | RuleSub => a ← a; b ← b; Ok (Sub a b)
  | RuleNeg => a ← a; Ok (Neg a)
  | RuleMul => a ← a; b ← b; Ok (PositiveMul a b)
  | RuleDiv => a ← a; b ← b; Ok (PositiveDiv a b)
  end.

Section derive.
Context (options : ExactSynthesisOptions) (nodes : Nodes).

(** The loop over the templates, given [derive] one level deeper. *)
Fixpoint try_patterns (derive : nat → State → Result (nat * State))
    (node : nat) (pats : list (Pattern * Rule)) (s : State) : Result (nat * State) :=
  match pats with
  | [] => Err DomainNotJustified
  | (pattern, rule) :: pats =>
      '(found, count) ← matches options nodes pattern node (comparisons s);
      let s := mkState (derived s) (program s) count in
      match found with
      | None => try_patterns derive node pats s
      | Some variables =>
          let recover variable s :=
            match variable with
            | Some n => '(i, s) ← derive n s; Ok (Some i, s)
            | None => Ok (None, s)
            end in
          '(a, s) ← recover (mjoin (variables !! 0%nat)) s;
          '(b, s) ← recover (mjoin (variables !! 1%nat)) s;
          step ← rule_step rule a b;
          if max_steps options <=? Z.of_nat (length (program s)) then Err ProofLimit
          else
            let index := length (program s) in
            Ok (index, mkState (<[node := Some index]> (derived s)) (program s ++ [step])
                         (comparisons s))
      end
  end.

(** [Recognizer::derive]; as for [Synthesizer::integer], the fuel is what is left
    of [max_recursion]. *)
Fixpoint derive (fuel : nat) (node : nat) (s : State) : Result (nat * State) :=
  match fuel with
  | O => Err ProofLimit
  | S fuel =>
      match mjoin (derived s !! node) with
      | Some step => Ok (step, s)
      | None => try_patterns (derive fuel) node patterns s
      end
  end.
End derive.

(** ** Interning *)

Record Interner : Type := mkInterner {
  nodes : Nodes;
  intern : gmap (nat * nat) nat;
  stack : list nat;
}.

(** One iteration of the loop of [certify_exact] over the bits, low bit first. *)
Definition intern_bit (options : ExactSynthesisOptions) (set : bool) (s : Interner)
  : Result Interner :=
  '(node, s) ←
    (if set then
       match stack s with
       | a :: b :: rest =>
           match intern s !! (a, b) with
           | Some id => Ok (id, mkInterner (nodes s) (intern s) rest)
           | None =>
               if max_steps options <=? Z.of_nat (length (nodes s)) then Err ProofLimit
               else
                 let id := length (nodes s) in
                 Ok (id, mkInterner (nodes s ++ [Some (a, b)]) (<[(a, b) := id]> (intern s)) rest)
           end
       | _ => Err InvalidProof
       end
     else Ok (0%nat, s));
  if max_steps options <=? Z.of_nat (length (stack s)) then Err ProofLimit
  else Ok (mkInterner (nodes s) (intern s) (node :: stack s)).

Definition certify_exact (self : Bml) (options : ExactSynthesisOptions) : Result CertifiedBml :=
  if (max_bits options <? bit_len self) || (max_steps options =? 0) then Err ProofLimit
  else
    s ← for_each (λ index s, intern_bit options (bit self index) s)
          (seqZ 0 (bit_len self)) (mkInterner [None] ∅ []);
    match stack s with
    | [root] =>
        let start := mkState (replicate (length (nodes s)) None) [] 0 in
        '(root, s) ← derive options (nodes s) (S (Z.to_nat (max_recursion options))) root start;
        result ←
          map_err (λ error, match error with
                            | Rational NonIntegralExponent => DomainNotJustified
                            | other => other end)
            (Certified.certify (mkExactDerivation (program s) root) options);
        if negb (bool_decide (term result = self)) then Err InvalidProof else Ok result
    | _ => Err InvalidProof
    end.
End Recognize.

(** ** The node table *)

(** Node [n] of the table stands for the term [t]. *)
Inductive node_term (nodes : Recognize.Nodes) : nat → ClosedTerm → Prop :=
  | node_leaf : node_term nodes 0 One
  | node_op n a b l r :
      mjoin (nodes !! n) = Some (a, b) → node_term nodes a l → node_term nodes b r →
      node_term nodes n (Op l r).

(** The leaf is entry 0, and only that. *)
Definition table_ok (nodes : Recognize.Nodes) : Prop := nodes !! 0%nat = Some None.

Lemma node_term_fun nodes n t u : table_ok nodes → node_term nodes n t → node_term nodes n u → t = u.
Proof.
  intros H0 Ht. revert u. induction Ht as [|n a b l r Hn _ IHl _ IHr]; intros u Hu.
  - inversion Hu as [|? ? ? ? ? Hn]; [done|]. by rewrite H0 in Hn.
  - inversion Hu as [|? a' b' l' r' Hn' Hl Hr]; subst; [by rewrite H0 in Hn|].
    rewrite Hn in Hn'. injection Hn' as <- <-. by rewrite (IHl _ Hl), (IHr _ Hr).
Qed.

Lemma node_term_app nodes more n t : node_term nodes n t → node_term (nodes ++ more) n t.
Proof.
  induction 1 as [|n a b l r Hn _ IHl _ IHr]; [constructor|]. apply (node_op _ n a b); [|done..].
  destruct (nodes !! n) eqn:E; [|done]. by rewrite (lookup_app_l_Some _ _ _ _ E).
Qed.

(** ** What a successful match means *)

(** The pattern describes the node under the variables. *)
Fixpoint pmatch (nodes : Recognize.Nodes) (vars : list (option nat)) (p : Pattern) (node : nat) : Prop :=
  match p with
  | PatOne => node = 0%nat
  | PatVar slot => mjoin (vars !! slot) = Some node
  | PatOp l r => ∃ a b, mjoin (nodes !! node) = Some (a, b) ∧ pmatch nodes vars l a ∧ pmatch nodes vars r b
  end.

(** The pattern with terms for its variables. *)
Fixpoint psubst (f : nat → ClosedTerm) (p : Pattern) : ClosedTerm :=
  match p with
  | PatOne => One
  | PatVar slot => f slot
  | PatOp l r => Op (psubst f l) (psubst f r)
  end.

Fixpoint slots_below (k : nat) (p : Pattern) : Prop :=
  match p with
  | PatOne => True
  | PatVar slot => (slot < k)%nat
  | PatOp l r => slots_below k l ∧ slots_below k r
  end.

Fixpoint occurs (slot : nat) (p : Pattern) : Prop :=
  match p with
  | PatOne => False
  | PatVar s => s = slot
  | PatOp l r => occurs slot l ∨ occurs slot r
  end.

(** Assigned variables stay assigned. *)
Definition grows (vars vars' : list (option nat)) : Prop :=
  ∀ i n, mjoin (vars !! i) = Some n → mjoin (vars' !! i) = Some n.

Lemma pmatch_grows nodes vars vars' p n : grows vars vars' → pmatch nodes vars p n → pmatch nodes vars' p n.
Proof.
  intros Hg. revert n. induction p as [|slot|l IHl r IHr]; intros n; cbn [pmatch]; [done|apply Hg|].
  intros (a & b & ? & ? & ?). exists a, b. auto.
Qed.

(** Only variables of the pending patterns are assigned. *)
Definition assigned_from (vars vars' : list (option nat)) (pending : list (Pattern * nat)) : Prop :=
  ∀ i n, mjoin (vars' !! i) = Some n → mjoin (vars !! i) = Some n ∨ Exists (λ p, occurs i p.1) pending.

Section matching.
Context (options : ExactSynthesisOptions) (nodes : Recognize.Nodes).

Definition pending_size (pending : list (Pattern * nat)) : nat :=
  foldr (λ p n, (Recognize.pattern_size p.1 + n)%nat) 0%nat pending.

Lemma matches_loop_spec fuel pending vars count :
  (pending_size pending ≤ fuel)%nat →
  Forall (λ p, slots_below (length vars) p.1) pending →
  match Recognize.matches_loop fuel options nodes pending vars count with
  | Ok (Some vars', _) => assigned_from vars vars' pending ∧ grows vars vars' ∧
                          Forall (λ p, pmatch nodes vars' p.1 p.2) pending
  | Ok (None, _) => True
  | Err e => e = ProofLimit
  end.
Proof.
  revert pending vars count. induction fuel as [|fuel IH]; intros pending vars count Hf Hs.
  { destruct pending as [|[p n] pending]; [by split_and!; [intros ? ?; left|intros ? ?|constructor]|]. exfalso.
    cbn in Hf. destruct p; cbn in Hf; lia. }
  destruct pending as [|[p n] pending]; [by split_and!; [intros ? ?; left|intros ? ?|constructor]|].
  cbn [Recognize.matches_loop].
  destruct (Prelude.checked_add count 1) as [count'|]; cbn [ok_or mbind Result_bind]; [|done].
  destruct (_ <? count'); [done|]. apply Forall_cons in Hs as [Hp Hs]. cbn in Hp, Hf.
  fold (pending_size pending) in Hf. destruct p as [|slot|l r]; cbn [slots_below Recognize.pattern_size] in Hp, Hf.
  - destruct (Nat.eqb_spec n 0) as [->|]; cbn [negb]; [|done].
    specialize (IH pending vars count' ltac:(lia) Hs).
    destruct (Recognize.matches_loop _ _ _ _ _ _) as [[[vars'|] ?]|e]; [|done..].
    destruct IH as (Hfrom & ? & ?). split; [intros i m Hi; destruct (Hfrom i m Hi); auto|].
    split; [done|]. by constructor.
  - assert (∀ vars', vars' = <[slot := Some n]> vars → grows vars vars' →
      match Recognize.matches_loop fuel options nodes pending vars' count' with
      | Ok (Some vars'', _) => assigned_from vars vars'' ((PatVar slot, n) :: pending) ∧ grows vars vars'' ∧
          Forall (λ p, pmatch nodes vars'' p.1 p.2) ((PatVar slot, n) :: pending)
      | Ok (None, _) => True
      | Err e => e = ProofLimit end) as Hset.
    { intros vars' -> Hg. specialize (IH pending (<[slot := Some n]> vars) count' ltac:(lia)).
      rewrite length_insert in IH. specialize (IH Hs).
      destruct (Recognize.matches_loop _ _ _ _ _ _) as [[[vars''|] ?]|e]; [|done..].
      destruct IH as (Hfrom & Hg' & ?). split; [|split; [intros i m Hi; by apply Hg', Hg|]].
      { intros i m Hi. destruct (decide (i = slot)) as [->|Hne]; [right; by left|].
        destruct (Hfrom i m Hi) as [Hv|]; [left|right; by right]. by rewrite list_lookup_insert_ne in Hv. }
      constructor; [|done]. cbn [pmatch fst snd]. apply Hg'. by rewrite list_lookup_insert_eq. }
    destruct (mjoin (vars !! slot)) as [previous|] eqn:Ev.
    + destruct (Nat.eqb_spec previous n) as [->|]; cbn [negb]; [|done]. apply Hset; [done|].
      intros i m Hi. destruct (decide (i = slot)) as [->|]; [|by rewrite list_lookup_insert_ne].
      rewrite list_lookup_insert_eq by done. cbn. congruence.
    + apply Hset; [done|]. intros i m Hi. destruct (decide (i = slot)) as [->|]; [congruence|].
      by rewrite list_lookup_insert_ne.
  - destruct (mjoin (nodes !! n)) as [[a b]|] eqn:En; [|done].
    specialize (IH ((l, a) :: (r, b) :: pending) vars count'
      ltac:(cbn; fold (pending_size pending); lia)
      ltac:(repeat constructor; [apply Hp|apply Hp|done])).
    destruct (Recognize.matches_loop _ _ _ _ _ _) as [[[vars'|] ?]|e]; [|done..].
    destruct IH as (Hfrom & ? & Hf'). apply Forall_cons in Hf' as [? Hf']. apply Forall_cons in Hf' as [? Hf'].
    split; [|split; [done|]].
    { intros i m Hi. destruct (Hfrom i m Hi) as [|Hex]; [by left|right].
      apply Exists_cons in Hex as [Hex|Hex]; [left; by left|].
      apply Exists_cons in Hex as [Hex|Hex]; [left; by right|by right]. } constructor; [|done]. by exists a, b.
Qed.

(** A match gives every variable of the pattern a node, and the node's term is the
    pattern applied to the variables' terms. *)
Lemma pmatch_term_below vars p n t f k :
  table_ok nodes → slots_below k p → pmatch nodes vars p n → node_term nodes n t →
  (∀ slot m u, (slot < k)%nat → mjoin (vars !! slot) = Some m → node_term nodes m u → f slot = u) →
  t = psubst f p.
Proof.
  intros H0 Hs Hm Ht Hf. revert n t Hs Hm Ht.
  induction p as [|slot|l IHl r IHr]; intros n t Hs Hm Ht; cbn [pmatch psubst slots_below] in *.
  - subst n. apply (node_term_fun nodes 0); [done|done|constructor].
  - symmetry. by eapply Hf.
  - destruct Hm as (a & b & Hn & Ha & Hb). inversion Ht as [|? a' b' u v Hn' Hu Hv]; subst.
    + by rewrite H0 in Hn.
    + rewrite Hn in Hn'. injection Hn' as <- <-. destruct Hs. by rewrite (IHl a u), (IHr b v).
Qed.

Lemma pmatch_occurs vars p n t slot :
  table_ok nodes → pmatch nodes vars p n → node_term nodes n t → occurs slot p →
  ∃ m u, mjoin (vars !! slot) = Some m ∧ node_term nodes m u.
Proof.
  intros H0. revert n t. induction p as [|s|l IHl r IHr]; intros n t Hm Ht Ho; cbn [pmatch occurs] in *; [done| |].
  - subst s. by exists n, t.
  - destruct Hm as (a & b & Hn & Ha & Hb). inversion Ht as [|? a' b' u v Hn' Hu Hv]; subst.
    + by rewrite H0 in Hn.
    + rewrite Hn in Hn'. injection Hn' as <- <-. destruct Ho; [by eapply IHl|by eapply IHr].
Qed.
End matching.

(** ** Programs and their terms *)

Lemma terms_of_app ts ss ss' : terms_of ts (ss ++ ss') = (terms_of ts ss ≫= λ us, terms_of us ss').
Proof.
  revert ts. induction ss as [|step ss IH]; intros ts; [done|]. cbn [app terms_of].
  destruct (step_term ts step); [apply IH|done].
Qed.

Lemma length_terms_of ts ss us : terms_of ts ss = Some us → length us = (length ts + length ss)%nat.
Proof.
  revert ts. induction ss as [|step ss IH]; intros ts; cbn [terms_of].
  - intros [= ->]. cbn. lia.
  - intros (t & _ & H)%bind_Some. apply IH in H. rewrite length_app in H. cbn in *. lia.
Qed.

Lemma Meaning_terms_of ss ts vs : Meaning ss ts vs → terms_of [] ss = Some ts.
Proof.
  induction 1 as [|ss ts vs step t v q Hm IH Ht Hv Hw HQ]; [done|].
  rewrite terms_of_app, IH. cbn. by rewrite Ht.
Qed.

(** ** The templates are the rules' templates *)

(** The step of a rule, on steps for the variables of its pattern, has the term
    the pattern describes. *)
Definition rule_ok (p : Pattern) (rule : Rule) : Prop :=
  slots_below 2 p ∧
  ∀ ts a b f,
    (occurs 0 p → ∃ i, a = Some i ∧ ts !! i = Some (f 0%nat)) →
    (occurs 1 p → ∃ j, b = Some j ∧ ts !! j = Some (f 1%nat)) →
    ∃ step, Recognize.rule_step rule a b = Ok step ∧ step_term ts step = Some (psubst f p).

Ltac rule_case :=
  split; [cbn; repeat split; lia|];
  intros ts a b f Ha Hb; cbn in Ha, Hb;
  repeat match goal with
  | H : _ → ∃ _, _ |- _ => first [destruct H as (? & -> & ?); [tauto|]|clear H]
  end;
  eexists; (split; [reflexivity|]); cbn [step_term];
  repeat match goal with H : ts !! _ = Some _ |- _ => rewrite H; clear H end; reflexivity.

Lemma patterns_ok : Forall (λ pr, rule_ok pr.1 pr.2) Recognize.patterns.
Proof.
  unfold Recognize.patterns.
  repeat (apply Forall_cons; split; [cbn [fst snd]; rule_case|]). apply Forall_nil. done.
Qed.

(** ** Derivation *)

Section derive.
Context (options : ExactSynthesisOptions) (nodes : Recognize.Nodes) (Htable : table_ok nodes).
Implicit Types (s : Recognize.State) (ts : list ClosedTerm).

(** The program so far and the memo table agree on terms. *)
Definition state_ok s ts : Prop :=
  terms_of [] (Recognize.program s) = Some ts ∧
  ∀ n i, mjoin (Recognize.derived s !! n) = Some i → ∃ t, node_term nodes n t ∧ ts !! i = Some t.

(** Reasons the recognizer may give. *)
Definition gives_up (e : ExactError) : Prop := e = ProofLimit ∨ e = DomainNotJustified.

Definition derives ts (t : ClosedTerm) (m : Result ExactError (nat * Recognize.State)) : Prop :=
  match m with
  | Ok (i, s) => ∃ ts', state_ok s ts' ∧ ts `prefix_of` ts' ∧ ts' !! i = Some t
  | Err e => gives_up e
  end.

(** The optional derivation of a variable's node. *)
Lemma recover_spec (derive : nat → Recognize.State → Result ExactError (nat * Recognize.State)) v s ts :
  state_ok s ts →
  (∀ n t, node_term nodes n t → derives ts t (derive n s)) →
  (∀ n, v = Some n → ∃ t, node_term nodes n t) →
  match
    match v with Some n => '(i, s) ← derive n s; Ok (Some i, s) | None => Ok (None, s) end
  with
  | Ok (i, s') => ∃ ts', state_ok s' ts' ∧ ts `prefix_of` ts' ∧
      ∀ n t, v = Some n → node_term nodes n t → ∃ j, i = Some j ∧ ts' !! j = Some t
  | Err e => gives_up e
  end.
Proof.
  intros Hs Hd Hv. destruct v as [n|]; [|by exists ts; split_and!; [|done|]].
  destruct (Hv n eq_refl) as [t Ht]. pose proof (Hd n t Ht) as H. unfold derives in H.
  destruct (derive n s) as [[i s']|e]; cbn [mbind Result_bind]; [|done].
  destruct H as (ts' & Hs' & Hp & Hi). exists ts'. split; [done|]. split; [done|].
  intros m u [= <-] Hu. exists i. split; [done|]. by rewrite (node_term_fun nodes n u t).
Qed.

(** A rule's step appended to the program. *)
Lemma emit_spec s ts step t node :
  state_ok s ts → step_term ts step = Some t → node_term nodes node t →
  derives ts t
    (if max_steps options <=? Z.of_nat (length (Recognize.program s)) then Err ProofLimit
     else Ok (length (Recognize.program s),
              Recognize.mkState (<[node := Some (length (Recognize.program s))]> (Recognize.derived s))
                (Recognize.program s ++ [step]) (Recognize.comparisons s))).
Proof.
  intros [Hts Hmemo] Ht Hn. destruct (_ <=? _); [by left|].
  pose proof (length_terms_of _ _ _ Hts) as Hlen. cbn in Hlen.
  assert ((ts ++ [t]) !! length (Recognize.program s) = Some t) as Hi by (by rewrite <- Hlen, list_lookup_middle).
  exists (ts ++ [t]). split; [split|split; [by apply prefix_app_r|done]].
  - cbn [Recognize.program]. rewrite terms_of_app, Hts. cbn. by rewrite Ht.
  - intros m i. cbn [Recognize.derived]. intros Hm.
    destruct (decide (m = node)) as [->|Hne].
    + destruct (decide (node < length (Recognize.derived s))%nat) as [Hlt|Hge].
      * rewrite list_lookup_insert_eq in Hm by done. injection Hm as <-. by exists t.
      * rewrite lookup_ge_None_2 in Hm by (rewrite length_insert; lia). done.
    + rewrite list_lookup_insert_ne in Hm by done. destruct (Hmemo m i Hm) as (u & ? & ?).
      exists u. split; [done|]. by apply lookup_app_l_Some.
Qed.

(** The step of a matched rule has the term of the node. *)
Lemma rule_terms p rule vars node t a b ts :
  rule_ok p rule → pmatch nodes vars p node → node_term nodes node t →
  (∀ n u, mjoin (vars !! 0%nat) = Some n → node_term nodes n u → ∃ i, a = Some i ∧ ts !! i = Some u) →
  (∀ n u, mjoin (vars !! 1%nat) = Some n → node_term nodes n u → ∃ j, b = Some j ∧ ts !! j = Some u) →
  ∃ step, Recognize.rule_step rule a b = Ok step ∧ step_term ts step = Some t.
Proof.
  intros [Hslots Hrule] Hm Hn Ha Hb.
  set (f := λ slot, match slot with
    | 0%nat => default One (a ≫= λ i, ts !! i)
    | _ => default One (b ≫= λ j, ts !! j) end).
  assert (t = psubst f p) as ->.
  { apply (pmatch_term_below nodes vars p node t f 2); [done..|].
    intros [|[|slot]] m u Hlt Hv Hu; [| |lia].
    - destruct (Ha m u Hv Hu) as (i & -> & Hi). cbn. by rewrite Hi.
    - destruct (Hb m u Hv Hu) as (j & -> & Hj). cbn. by rewrite Hj. }
  apply Hrule.
  - intros Hocc. destruct (pmatch_occurs nodes vars p node _ 0 Htable Hm Hn Hocc) as (m & u & Hv & Hu).
    destruct (Ha m u Hv Hu) as (i & -> & Hi). exists i. cbn. by rewrite Hi.
  - intros Hocc. destruct (pmatch_occurs nodes vars p node _ 1 Htable Hm Hn Hocc) as (m & u & Hv & Hu).
    destruct (Hb m u Hv Hu) as (j & -> & Hj). exists j. cbn. by rewrite Hj.
Qed.

Lemma try_patterns_spec derive pats node t s ts :
  Forall (λ pr, rule_ok pr.1 pr.2) pats →
  (∀ n u s' ts', node_term nodes n u → state_ok s' ts' → derives ts' u (derive n s')) →
  node_term nodes node t → state_ok s ts →
  derives ts t (Recognize.try_patterns options nodes derive node pats s).
Proof.
  intros Hpats Hd Hn. revert s. induction Hpats as [|[p rule] pats Hrule _ IH]; intros s Hs; [by right|].
  cbn [Recognize.try_patterns fst snd] in *.
  pose proof (matches_loop_spec options nodes (Recognize.pattern_size p) [(p, node)] [None; None]
    (Recognize.comparisons s) ltac:(cbn; lia) ltac:(constructor; [apply Hrule|done])) as Hm.
  fold (Recognize.matches options nodes p node (Recognize.comparisons s)) in Hm.
  destruct (Recognize.matches _ _ _ _ _) as [[found count]|e]; cbn [mbind Result_bind]; [|by left].
  set (s1 := Recognize.mkState (Recognize.derived s) (Recognize.program s) count).
  assert (state_ok s1 ts) as Hs1 by (by destruct Hs).
  destruct found as [vars|]; [|by apply IH].
  destruct Hm as (Hfrom & _ & Hm). apply Forall_cons in Hm as [Hm _]. cbn [fst snd] in Hm.
  assert (∀ slot n, mjoin (vars !! slot) = Some n → ∃ u, node_term nodes n u) as Hvars.
  { intros slot n Hv. destruct (Hfrom slot n Hv) as [Hv0|Hocc].
    - by destruct slot as [|[|slot]].
    - apply Exists_cons in Hocc as [Hocc|Hocc]; [|by inversion Hocc].
      destruct (pmatch_occurs nodes vars p node t slot Htable Hm Hn Hocc) as (m & u & Hm' & Hu).
      exists u. congruence. }
  pose proof (recover_spec derive (mjoin (vars !! 0%nat)) s1 ts Hs1
    (λ n u Hu, Hd n u s1 ts Hu Hs1) (Hvars 0%nat)) as Ha.
  destruct (match mjoin (vars !! 0%nat) with Some _ => _ | None => _ end) as [[a s2]|e];
    cbn [mbind Result_bind]; [|done].
  destruct Ha as (ts2 & Hs2 & Hp2 & Ha).
  pose proof (recover_spec derive (mjoin (vars !! 1%nat)) s2 ts2 Hs2
    (λ n u Hu, Hd n u s2 ts2 Hu Hs2) (Hvars 1%nat)) as Hb.
  destruct (match mjoin (vars !! 1%nat) with Some _ => _ | None => _ end) as [[b s3]|e];
    cbn [mbind Result_bind]; [|done].
  destruct Hb as (ts3 & Hs3 & Hp3 & Hb).
  destruct (rule_terms p rule vars node t a b ts3) as (step & -> & Hstep); [done..| | |].
  { intros n u Hv Hu. destruct (Ha n u Hv Hu) as (i & -> & Hi). exists i.
    split; [done|]. by eapply prefix_lookup_Some. }
  { done. }
  cbn [mbind Result_bind]. pose proof (emit_spec s3 ts3 step t node Hs3 Hstep Hn) as He.
  unfold derives in *. destruct (if _ <=? _ then _ else _) as [[i s4]|e]; [|done].
  destruct He as (ts4 & ? & Hp4 & ?). exists ts4. split; [done|]. split; [|done].
  etrans; [exact Hp2|]. by etrans.
Qed.

Lemma derive_spec fuel node t s ts :
  node_term nodes node t → state_ok s ts →
  derives ts t (Recognize.derive options nodes fuel node s).
Proof.
  revert node t s ts. induction fuel as [|fuel IH]; intros node t s ts Hn Hs; [by left|].
  cbn [Recognize.derive]. destruct (mjoin (Recognize.derived s !! node)) as [i|] eqn:Ed.
  - destruct (proj2 Hs node i Ed) as (u & Hu & Hi). exists ts. split; [done|]. split; [done|].
    by rewrite (node_term_fun nodes node t u).
  - apply try_patterns_spec; [apply patterns_ok| |done|done].
    intros n u s' ts' Hu Hs'. by apply IH.
Qed.
End derive.

(** ** Interning *)

Section interning.
Context (options : ExactSynthesisOptions).
Implicit Types (s : Recognize.Interner).

(** The stack holds nodes of the table that stand for the given terms. *)
Definition interner_ok s (ts : list ClosedTerm) : Prop :=
  table_ok (Recognize.nodes s) ∧
  Forall2 (node_term (Recognize.nodes s)) (Recognize.stack s) ts ∧
  ∀ ab id, Recognize.intern s !! ab = Some id → mjoin (Recognize.nodes s !! id) = Some ab.

Definition interns (ts : list ClosedTerm) (m : Result ExactError Recognize.Interner) : Prop :=
  match m with Ok s => interner_ok s ts | Err e => e = ProofLimit end.

Lemma intern_leaf s ts : interner_ok s ts → interns (One :: ts) (Recognize.intern_bit options false s).
Proof.
  intros (H0 & Hf & Hi). unfold Recognize.intern_bit. cbn [mbind Result_bind].
  destruct (_ <=? _); [done|]. split; [done|]. split; [|done]. constructor; [constructor|done].
Qed.

Lemma intern_op s l r ts :
  interner_ok s (l :: r :: ts) → interns (Op l r :: ts) (Recognize.intern_bit options true s).
Proof.
  intros (H0 & Hf & Hi). unfold Recognize.intern_bit.
  destruct (Recognize.stack s) as [|a [|b rest]]; [by inversion Hf|by inversion Hf as [|???? _ Hf']; inversion Hf'|].
  apply Forall2_cons in Hf as [Ha Hf]. apply Forall2_cons in Hf as [Hb Hf].
  destruct (Recognize.intern s !! (a, b)) as [id|] eqn:Eid; cbn [mbind Result_bind].
  - cbn [Recognize.stack Recognize.nodes Recognize.intern]. destruct (_ <=? _); [done|].
    split; [done|]. split; [|done]. constructor; [|done]. apply (node_op _ id a b); auto.
  - destruct (max_steps options <=? Z.of_nat (length (Recognize.nodes s))); cbn [mbind Result_bind]; [done|].
    cbn [Recognize.stack Recognize.nodes Recognize.intern]. destruct (_ <=? _); [done|].
    set (id := length (Recognize.nodes s)).
    assert (∀ n t, node_term (Recognize.nodes s) n t → node_term (Recognize.nodes s ++ [Some (a, b)]) n t)
      as Hmono by (intros; by apply node_term_app).
    pose proof (f_equal mjoin (list_lookup_middle (Recognize.nodes s) [] (Some (a, b)) id eq_refl)) as Hid.
    split; [|split]; cbn [Recognize.stack Recognize.nodes Recognize.intern].
    + by apply lookup_app_l_Some.
    + constructor; [|by eapply Forall2_impl].
      apply (node_op _ id a b); [exact Hid|by apply Hmono..].
    + intros ab id' [[<- <-]|[_ Hab]]%lookup_insert_Some; [exact Hid|].
      specialize (Hi ab id' Hab). destruct (Recognize.nodes s !! id') eqn:E; [|done].
      by rewrite (lookup_app_l_Some _ _ _ _ E).
Qed.

Lemma interns_bind ts us m k :
  interns ts m → (∀ s, interner_ok s ts → interns us (k s)) → interns us (m ≫= k).
Proof. intros Hm Hk. destruct m; [by apply Hk|done]. Qed.

(** The bits of a term, low bit first, push the term. *)
Lemma intern_tree t s ts :
  interner_ok s ts → interns (t :: ts) (for_each (Recognize.intern_bit options) (reverse (tree_bits t)) s).
Proof.
  revert s ts. induction t as [|l IHl r IHr]; intros s ts Hs; cbn [tree_bits].
  - cbn [reverse rev_append for_each]. eapply interns_bind; [by apply intern_leaf|done].
  - rewrite reverse_cons, reverse_app, <- app_assoc, !for_each_app.
    eapply interns_bind; [by apply IHr|]. intros s1 Hs1. rewrite for_each_app.
    eapply interns_bind; [by apply IHl|]. intros s2 Hs2. cbn [for_each].
    eapply interns_bind; [by apply intern_op|done].
Qed.
End interning.

Lemma certify_exact_lemma options b t :
  options_ok options → Represents b t →
  match Recognize.certify_exact b options with
  | Ok c => certified c ∧ term c = b
  | Err e => e ≠ InvalidProof ∧ e ≠ Rational NonIntegralExponent
  end.
Proof.
  intros Ho Hr. unfold Recognize.certify_exact. destruct (_ || _); [done|].
  rewrite (for_each_fmap (Recognize.intern_bit options) (bit b)), (Represents_bits_up b t) by done.
  assert (interner_ok (Recognize.mkInterner [None] ∅ []) []) as H0.
  { split; [done|]. split; [constructor|]. intros ab id H. cbn in H. by rewrite lookup_empty in H. }
  pose proof (intern_tree options t _ _ H0) as Hs. unfold interns in Hs.
  destruct (for_each _ _ _) as [s|e]; cbn [mbind Result_bind]; [|by subst e].
  destruct Hs as (Htable & Hstack & _).
  destruct (Recognize.stack s) as [|rt [|]]; [by inversion Hstack| |by inversion Hstack as [|???? _ Hf]; inversion Hf].
  apply Forall2_cons in Hstack as [Hroot _].
  set (start := Recognize.mkState _ _ _).
  assert (state_ok (Recognize.nodes s) start []) as Hstart.
  { split; [done|]. intros n i Hi. exfalso. cbn in Hi.
    destruct (replicate _ None !! n) as [x|] eqn:E; [|done]. by apply lookup_replicate in E as [-> _]. }
  pose proof (derive_spec options (Recognize.nodes s) Htable (S (Z.to_nat (max_recursion options))) rt t start []
    Hroot Hstart) as Hd. unfold derives in Hd.
  destruct (Recognize.derive _ _ _ _ _) as [[i s']|e]; cbn [mbind Result_bind]; [|by destruct Hd as [-> | ->]].
  destruct Hd as (ts & [Hts _] & _ & Hi).
  pose proof (length_terms_of _ _ _ Hts) as Hlen. pose proof (lookup_lt_Some _ _ _ Hi) as Hlt.
  pose proof (certify_spec options Ho (mkExactDerivation (Recognize.program s') i)) as Hc.
  destruct (Certified.certify _ _) as [c|e]; cbn [map_err mbind Result_bind]; cycle 1.
  { assert (e ≠ InvalidProof) by (apply Hc; [by eexists|cbn in *; lia]).
    destruct e as [[]| | | |]; done. }
  destruct Hc as [Hc Hdc]. pose proof Hc as (ts' & vs & u & Hm & Hu & _ & Hrep). rewrite Hdc in Hm, Hu.
  apply Meaning_terms_of in Hm. cbn [steps root] in Hm, Hu. rewrite Hts in Hm. injection Hm as <-.
  rewrite Hi in Hu. injection Hu as <-.
  assert (term c = b) as E by (by eapply Represents_inj). rewrite E, bool_decide_true by done. by split.
Qed.

(** The proof written for the square root of two raises two to a half, which the rules
    refuse; the recognizer answers that the domain is not justified. *)
Example square_root_of_two :
  Certified.certify (mkExactDerivation [StepOne; Exp2 0; PositiveDiv 0 1; Exp2 2] 3)
    ExactSynthesisOptions_default = Err (Rational NonIntegralExponent) ∧
  Recognize.certify_exact (mkBml [1071167899011411200; 2120379460716]) ExactSynthesisOptions_default =
    Err DomainNotJustified.
Proof. split; vm_compute; reflexivity. Qed.

(** [C34] Recognition is sound and consistent: a certificate it returns is for the
    given term, and proves its exact value. It gives up for lack of budget, for a
    rational failure or for a domain it cannot justify, but never with the answer that
    the proof it wrote is invalid, nor with the error for a fractional exponent: a
    written proof that fails on such an exponent, as the one in [square_root_of_two], is
    answered as a domain that cannot be justified. *)
Theorem certify_exact_spec options b t :
  options_ok options → Represents b t →
  match Recognize.certify_exact b options with
  | Ok c => certified c ∧ term c = b
  | Err e => e ≠ InvalidProof ∧ e ≠ Rational NonIntegralExponent
  end.
Proof. apply certify_exact_lemma. Qed.

Lemma certify_exact_spec_witness :
  Represents (mkBml [4]) term_2 ∧
  ∃ c, Recognize.certify_exact (mkBml [4]) ExactSynthesisOptions_default = Ok c ∧
       certified c ∧ term c = mkBml [4].
Proof.
  assert (Represents (mkBml [4]) term_2) as H4 by (split; [unfold wf; solve_words|reflexivity]).
  split; [exact H4|].
  pose proof (certify_exact_spec ExactSynthesisOptions_default (mkBml [4]) term_2 options_default_ok H4) as H.
  destruct (Recognize.certify_exact (mkBml [4]) ExactSynthesisOptions_default) as [c|e] eqn:E;
    [|vm_compute in E; discriminate].
  exists c. split; [reflexivity|exact H].
Defined.
