(* ===== verification/Bytes.v ===== *)
(** * Byte strings

    Bytes as integers below 256, little-endian fields ([to_le_bytes] and
    [from_le_bytes]) and the bits of a byte string counted from the most
    significant bit of its first byte. *)

From S2P Require Import Prelude Words Terms.

Definition u8 (b : Z) : Prop := 0 ≤ b < 256.

(** [to_le_bytes] on [n] bytes and [from_le_bytes]. *)
Fixpoint le_bytes (n : nat) (v : Z) : list Z :=
  match n with
  | O => []
  | S n => v `mod` 256 :: le_bytes n (v / 256)
  end.
Fixpoint le_value (bs : list Z) : Z :=
  match bs with
  | [] => 0
  | b :: bs => b + 256 * le_value bs
  end.

(** The test [bytes[i / 8] & (1 << (7 - i % 8)) != 0]. *)
Definition byte_bit (bytes : list Z) (i : Z) : bool :=
  match bytes !! Z.to_nat (i / 8) with
  | Some b => negb (Z.land b (Z.shiftl 1 (7 - i `mod` 8)) =? 0)
  | None => false
  end.

(** The assignment [bytes[i / 8] |= 1 << (7 - i % 8)]. *)
Definition set_byte_bit (bytes : list Z) (i : Z) : list Z :=
  alter (λ b, Z.lor b (Z.shiftl 1 (7 - i `mod` 8))) (Z.to_nat (i / 8)) bytes.

(** ** Little-endian fields *)

Lemma length_le_bytes n v : length (le_bytes n v) = n.
Proof. revert v. induction n; intros; simpl; auto. Qed.

Lemma le_bytes_ok n v : Forall u8 (le_bytes n v).
Proof.
  revert v. induction n; intros v; simpl; constructor; [|done].
  apply Z.mod_pos_bound. lia.
Qed.

Lemma le_value_bytes n v : 0 ≤ v < 256 ^ Z.of_nat n → le_value (le_bytes n v) = v.
Proof.
  revert v. induction n as [|n IH]; intros v Hv; [simpl in *; lia|].
  rewrite Nat2Z.inj_succ, Z.pow_succ_r in Hv by lia. cbn [le_bytes le_value].
  rewrite IH; [pose proof (Z.div_mod v 256); lia|].
  split; [apply Z.div_pos; lia|apply Z.div_lt_upper_bound; lia].
Qed.

Lemma le_value_bounds bs : Forall u8 bs → 0 ≤ le_value bs < 256 ^ Z.of_nat (length bs).
Proof.
  induction 1 as [|b bs [Hb1 Hb2] Hbs IH]; [simpl; lia|].
  cbn [length le_value]. rewrite Nat2Z.inj_succ, Z.pow_succ_r by lia. lia.
Qed.

Lemma le_bytes_value n bs : Forall u8 bs → length bs = n → le_bytes n (le_value bs) = bs.
Proof.
  intros Hbs <-. revert Hbs.
  induction 1 as [|b bs [Hb1 Hb2] Hbs IH]; [done|]. cbn [length le_bytes le_value].
  rewrite (Z.mul_comm 256), Z.mod_add, Z.mod_small, Z.div_add, Z.div_small by lia.
  by rewrite Z.add_0_l, IH.
Qed.

(** ** Bits *)

Lemma byte_bit_testbit b k :
  0 ≤ k → negb (Z.land b (Z.shiftl 1 k) =? 0) = Z.testbit b k.
Proof.
  intros Hk. rewrite Z.shiftl_1_l. destruct (Z.testbit b k) eqn:Hb.
  - destruct (Z.eqb_spec (Z.land b (2 ^ k)) 0) as [H0|]; [|done].
    apply (f_equal (λ z, Z.testbit z k)) in H0.
    by rewrite Z.land_spec, Hb, Z.pow2_bits_true, Z.testbit_0_l in H0.
  - replace (Z.land b (2 ^ k)) with 0; [done|]. symmetry. apply Z.bits_inj'. intros j Hj.
    rewrite Z.land_spec, Z.testbit_0_l, Z.pow2_bits_eqb by lia.
    destruct (Z.eqb_spec k j) as [<-|]; [by rewrite Hb|by rewrite andb_false_r].
Qed.

Lemma u8_lor a k : u8 a → 0 ≤ k < 8 → u8 (Z.lor a (Z.shiftl 1 k)).
Proof.
  intros [? Ha] Hk. rewrite Z.shiftl_1_l. pose proof (Z.pow_pos_nonneg 2 k).
  split; [apply Z.lor_nonneg; lia|]. change 256 with (2 ^ 8).
  apply bits_lt_pow2; [apply Z.lor_nonneg; lia|lia|]. intros i Hi.
  rewrite Z.lor_spec, (testbit_small a i 8), Z.pow2_bits_eqb by (done || lia). simpl.
  apply Z.eqb_neq. lia.
Qed.

Lemma set_byte_bit_ok bytes i : Forall u8 bytes → Forall u8 (set_byte_bit bytes i).
Proof.
  intros H. apply Forall_alter; [done|]. intros b Hb Hu. pose proof (Z.mod_pos_bound i 8).
  apply u8_lor; [done|lia].
Qed.

Lemma length_set_byte_bit bytes i : length (set_byte_bit bytes i) = length bytes.
Proof. apply length_alter. Qed.

Lemma byte_bit_set bytes i j :
  0 ≤ i < 8 * Z.of_nat (length bytes) → 0 ≤ j →
  byte_bit (set_byte_bit bytes i) j = byte_bit bytes j || bool_decide (j = i).
Proof.
  intros Hi Hj. unfold byte_bit, set_byte_bit. rewrite list_lookup_alter.
  pose proof (Z.mod_pos_bound i 8). pose proof (Z.mod_pos_bound j 8).
  case_decide as Hw.
  - assert (i / 8 = j / 8) as Hq.
    { pose proof (Z.div_pos i 8). pose proof (Z.div_pos j 8). lia. }
    destruct (lookup_lt_is_Some_2 bytes (Z.to_nat (j / 8))) as [b Hb]; [dlia|]. rewrite Hw, Hb. simpl.
    rewrite !byte_bit_testbit, Z.lor_spec, testbit_shiftl_1 by lia. f_equal.
    apply bool_decide_ext. pose proof (Z.div_mod i 8). pose proof (Z.div_mod j 8). lia.
  - rewrite (bool_decide_false (j = i)) by (intros ->; done). by rewrite orb_false_r.
Qed.

Lemma byte_bit_app_r a b i :
  8 * Z.of_nat (length a) ≤ i → byte_bit (a ++ b) i = byte_bit b (i - 8 * Z.of_nat (length a)).
Proof.
  intros Hi. assert (Z.of_nat (length a) ≤ i / 8) by (apply Z.div_le_lower_bound; lia).
  unfold byte_bit. rewrite lookup_app_r by lia.
  replace (i - 8 * Z.of_nat (length a)) with (i + (- Z.of_nat (length a)) * 8) by lia.
  rewrite Z.mod_add, Z.div_add by lia.
  by replace (Z.to_nat (i / 8 + - Z.of_nat (length a))) with (Z.to_nat (i / 8) - length a)%nat by lia.
Qed.

Lemma byte_bit_app_l a b i :
  0 ≤ i < 8 * Z.of_nat (length a) → byte_bit (a ++ b) i = byte_bit a i.
Proof.
  intros Hi. assert (i / 8 < Z.of_nat (length a)) by (apply Z.div_lt_upper_bound; lia).
  pose proof (Z.div_pos i 8). unfold byte_bit. by rewrite lookup_app_l by lia.
Qed.

Lemma byte_bit_zero n i : byte_bit (replicate n 0) i = false.
Proof.
  unfold byte_bit. destruct (replicate n 0 !! _) as [b|] eqn:E; [|done].
  apply lookup_replicate in E as [-> _]. by rewrite Z.land_0_l.
Qed.

(** A byte string is determined by its length and its bits. *)
Lemma bytes_ext a b :
  Forall u8 a → Forall u8 b → length a = length b →
  (∀ i, 0 ≤ i < 8 * Z.of_nat (length a) → byte_bit a i = byte_bit b i) → a = b.
Proof.
  revert b. induction a as [|x a IH]; intros [|y b] Ha Hb Hl H; try done.
  apply Forall_cons in Ha as [Hx Ha], Hb as [Hy Hb]. injection Hl as Hl.
  cbn [length] in H. f_equal.
  - apply Z.bits_inj'. intros k Hk. destruct (decide (k < 8)).
    + specialize (H (7 - k) ltac:(lia)). unfold byte_bit in H.
      replace ((7 - k) / 8) with 0 in H by dlia.
      replace (7 - (7 - k) `mod` 8) with k in H by dlia.
      change ((x :: a) !! Z.to_nat 0) with (Some x) in H.
      change ((y :: b) !! Z.to_nat 0) with (Some y) in H. cbv iota beta in H.
      by rewrite !byte_bit_testbit in H by done.
    + by rewrite !(testbit_small _ k 8) by (done || lia).
  - apply IH; [done..|]. intros i Hi. specialize (H (i + 8) ltac:(lia)).
    change (x :: a) with ([x] ++ a) in H. change (y :: b) with ([y] ++ b) in H.
    rewrite !byte_bit_app_r in H by (simpl; lia). simpl in H.
    by replace (i + 8 - 8 * Z.of_nat 1) with i in H by lia.
Qed.

(** The low bits of the last byte, as the decoders test for padding. *)
Lemma byte_low_bits b k :
  u8 b → 0 ≤ k ≤ 8 → Z.land b (Z.shiftl 1 k - 1) = 0 ↔ ∀ i, 0 ≤ i < k → Z.testbit b i = false.
Proof.
  intros Hb Hk. rewrite Z.shiftl_1_l. change (2 ^ k - 1) with (2 ^ k + -1).
  replace (2 ^ k + -1) with (Z.ones k) by (rewrite Z.ones_equiv; lia).
  rewrite Z.land_ones by lia. split.
  - intros H i Hi. by rewrite <- (Z.mod_pow2_bits_low b k), H, Z.testbit_0_l by lia.
  - intros H. apply Z.bits_inj'. intros i Hi. rewrite Z.testbit_0_l. destruct (decide (i < k)).
    + rewrite Z.mod_pow2_bits_low by lia. apply H. lia.
    + apply Z.mod_pow2_bits_high. lia.
Qed.
