(* ===== verification/Stream.v ===== *)
(** * number/stream.rs: framed sequences of terms

    A stream is a 24-byte header (magic, version, basis, count and useful bit
    length) and the prefix codes of the terms packed into bytes. [Framed] is the
    specification of the format; the encoder and the decoder are proved against
    it, and so against each other. *)

From S2P Require Import Prelude Words Terms Encoding Bytes.

(** ** Data *)

Record StreamLimits : Set := mkStreamLimits {
  stream_max_bits : Z;
  stream_max_terms : Z;
  stream_max_depth : Z;
}.

Definition StreamLimits_default : StreamLimits := mkStreamLimits DEFAULT_MAX_BITS 65536 4096.

Inductive StreamError : Set :=
  | Header
  | StreamLength
  | Padding
  | StreamLimit
  | WordWidth.

#[global] Instance StreamError_eq_dec : EqDecision StreamError.
Proof. solve_decision. Defined.

(** ** Operations *)

Module Stream.
Abbreviation Result := (Result StreamError).

Definition try_to_u64 (b : Bml) : Result Z := ok_or WordWidth (to_u64 b).

Definition try_to_u128 (b : Bml) : Result Z :=
  if 2 <? Z.of_nat (length (words b)) then Err WordWidth
  else Ok (Z.lor (default 0 (words b !! 0%nat)) (Z.shiftl (default 0 (words b !! 1%nat)) 64)).

Definition operator_count (b : Bml) : Z := (bit_len b - 1) / 2.

(** The loop of [check_depth]: [i] counts the bits taken from the iterator. *)
Fixpoint depth_loop (bits : list bool) (max_depth i depth : Z) (pending : list Z) : Result Z :=
  match bits with
  | [] => Err StreamLength
  | true :: bits =>
      depth ← ok_or StreamLimit (checked_add depth 1);
      if max_depth <? depth then Err StreamLimit
      else depth_loop bits max_depth (i + 1) depth (depth :: pending)
  | false :: bits =>
      match pending with
      | next :: pending => depth_loop bits max_depth (i + 1) next pending
      | [] => Ok (i + 1)
      end
  end.

Definition check_depth (bits : list bool) (max_depth : Z) : Result Z :=
  depth_loop bits max_depth 0 0 [].

(** The eight bytes [b"BMLS\x01\x02\0\0"]. *)
Definition magic : list Z := [66; 77; 76; 83; 1; 2; 0; 0].

(** The inner loop of the encoder: the bits of one term, high bit first. *)
Definition write_bit (value : Bml) (state : list Z * Z) (i : Z) : list Z * Z :=
  let '(out, cursor) := state in
  let out :=
    if bit value i
    then alter (λ b, Z.lor b (Z.shiftl 1 (7 - cursor `mod` 8))) (Z.to_nat (24 + cursor / 8)) out
    else out in
  (out, cursor + 1).

Definition write_term (state : list Z * Z) (value : Bml) : list Z * Z :=
  foldl (write_bit value) state (reverse (seqZ 0 (bit_len value))).

Definition encode_stream (values : list Bml) (limits : StreamLimits) : Result (list Z) :=
  if stream_max_terms limits <? Z.of_nat (length values) then Err StreamLimit
  else
    bits ← for_each (λ v n, ok_or StreamLimit (checked_add n (bit_len v))) values 0;
    if stream_max_bits limits <? bits then Err StreamLimit
    else
      _ ← for_each (λ value (_ : unit),
            _ ← check_depth (bit value <$> reverse (seqZ 0 (bit_len value)))
                  (stream_max_depth limits);
            Ok tt) values tt;
      size ← ok_or StreamLimit (checked_add bits 7);
      let size := size / 8 in
      total ← ok_or StreamLimit (checked_add size 24);
      let out := magic ++ le_bytes 8 (Z.of_nat (length values)) ++ le_bytes 8 bits in
      let out := resize (Z.to_nat total) 0 out in
      let '(out, _) := foldl write_term (out, 0) values in
      Ok out.

(** The closure [bit] of the decoder. *)
Definition stream_bit (bytes : list Z) (i : Z) : bool :=
  match bytes !! Z.to_nat (24 + i / 8) with
  | Some b => negb (Z.land b (Z.shiftl 1 (7 - i `mod` 8)) =? 0)
  | None => false
  end.

(** The walk that finds the end of one term: the cursor after its last bit. *)
Fixpoint close_term (bit : Z → bool) (indices : list Z) (slots cursor : Z) : Z :=
  match indices with
  | [] => cursor
  | index :: indices =>
      let slots := slots - 1 in
      let slots := if bit index then slots + 2 else slots in
      let cursor := index + 1 in
      if slots =? 0 then cursor else close_term bit indices slots cursor
  end.

(** The words of the term that starts at [start]. *)
Definition read_words (bit : Z → bool) (start length : Z) : list Z :=
  let words :=
    foldl (λ words i, if bit (start + i) then or_bit words (length - 1 - i) else words)
      (replicate (Z.to_nat (div_ceil64 length)) 0) (seqZ 0 length) in
  if length =? 1 then [] else words.

Definition read_term (bit : Z → bool) (bits : Z) (state : list Bml * Z) (_ : Z) : list Bml * Z :=
  let '(values, start) := state in
  let cursor := close_term bit (seqZ start (bits - start)) 1 start in
  (values ++ [mkBml (read_words bit start (cursor - start))], cursor).

Definition decode_stream (bytes : list Z) (limits : StreamLimits) : Result (list Bml) :=
  if Z.of_nat (length bytes) <? 24 then Err StreamLength
  else if negb (bool_decide (take 8 bytes = magic)) then Err Header
  else
    let count := le_value (take 8 (drop 8 bytes)) in
    let bits := le_value (take 8 (drop 16 bytes)) in
    if (stream_max_terms limits <? count) || (stream_max_bits limits <? bits)
    then Err StreamLimit
    else
      size ← ok_or StreamLimit (checked_add bits 7);
      let size := size / 8 in
      if negb (bool_decide (checked_add size 24 = Some (Z.of_nat (length bytes))))
         || (bits <? count)
      then Err StreamLength
      else if negb (bits `mod` 8 =? 0) &&
              negb (Z.land (List.last bytes 0) (Z.shiftl 1 (8 - bits `mod` 8) - 1) =? 0)
      then Err Padding
      else
        let bit := stream_bit bytes in
        cursor ← for_each (λ _ cursor,
            consumed ← check_depth (bit <$> seqZ cursor (bits - cursor)) (stream_max_depth limits);
            Ok (cursor + consumed)) (seqZ 0 count) 0;
        if negb (cursor =? bits) then Err StreamLength
        else
          let '(values, _) := foldl (read_term bit bits) ([], 0) (seqZ 0 count) in
          Ok values.
End Stream.

(** ** Depth of a code *)

Section depth.
Context (max : Z) (Hmax : usize max).

(** What the loop does once a term is complete. *)
Definition leave (rest : list bool) (i : Z) (pending : list Z) : Result StreamError Z :=
  match pending with
  | next :: pending => Stream.depth_loop rest max i next pending
  | [] => Ok i
  end.

Lemma depth_loop_tree t rest i depth pending :
  0 ≤ depth ≤ max →
  Stream.depth_loop (tree_bits t ++ rest) max i depth pending =
    if depth + tree_depth t <=? max then leave rest (i + tree_len t) pending
    else Err StreamLimit.
Proof.
  revert rest i depth pending. induction t as [|l IHl r IHr]; intros rest i depth pending Hd.
  { cbn. rewrite (proj2 (Z.leb_le _ _)) by lia. by destruct pending. }
  pose proof (tree_depth_bounds l). pose proof (tree_depth_bounds r).
  cbn [tree_bits tree_depth tree_len app Stream.depth_loop]. rewrite <- (assoc_L (++)).
  unfold checked_add. destruct (Z.ltb_spec (depth + 1) W64); cbn [ok_or mbind Result_bind]; cycle 1.
  { destruct Hmax. by rewrite (proj2 (Z.leb_gt _ _)) by lia. }
  destruct (Z.ltb_spec max (depth + 1)).
  { by rewrite (proj2 (Z.leb_gt _ _)) by lia. }
  rewrite IHl by lia. cbn [leave]. rewrite IHr by lia.
  destruct (Z.leb_spec (depth + 1 + tree_depth l) max), (Z.leb_spec (depth + 1 + tree_depth r) max),
    (Z.leb_spec (depth + (1 + Z.max (tree_depth l) (tree_depth r))) max); try done; try lia.
  f_equal. lia.
Qed.

(** An accepted string starts with as many terms as there were open slots. *)
Lemma depth_loop_Ok bs i depth pending n :
  Stream.depth_loop bs max i depth pending = Ok n →
  ∃ ts rest, length ts = S (length pending) ∧ bs = forest_bits ts ++ rest.
Proof.
  revert i depth pending. induction bs as [|[] bs IH]; intros i depth pending H; [done| |]; cbn in H.
  - inv_ok. apply IH in H as (ts & rest & Hl & ->).
    destruct ts as [|l [|r ts]]; cbn in Hl; try lia.
    exists (Op l r :: ts), rest. split; [cbn; lia|]. unfold forest_bits. cbn.
    by rewrite <- !(assoc_L (++)).
  - destruct pending as [|next pending].
    + exists [One], bs. done.
    + apply IH in H as (ts & rest & Hl & ->). exists (One :: ts), rest. split; [cbn in *; lia|done].
Qed.

Lemma check_depth_tree t rest :
  Stream.check_depth (tree_bits t ++ rest) max =
    if tree_depth t <=? max then Ok (tree_len t) else Err StreamLimit.
Proof. unfold Stream.check_depth. rewrite depth_loop_tree by (destruct Hmax; lia). done. Qed.

Lemma check_depth_Ok bs n :
  Stream.check_depth bs max = Ok n →
  ∃ t rest, bs = tree_bits t ++ rest ∧ n = tree_len t ∧ tree_depth t ≤ max.
Proof.
  intros H. destruct (depth_loop_Ok _ _ _ _ _ H) as ([|t [|]] & rest & Hl & ->); try done.
  unfold forest_bits in H |- *. cbn [mjoin list_join fmap list_fmap] in *.
  rewrite app_nil_r in *. rewrite check_depth_tree in H.
  destruct (Z.leb_spec (tree_depth t) max); [|done]. exists t, rest. by simplify_eq.
Qed.
End depth.

(** ** The format *)

Definition forest_len (ts : list ClosedTerm) : Z := Z.of_nat (length (forest_bits ts)).

(** Bytes that carry a bit string, high bit first, with zero padding. *)
Record packed (bs : list bool) (bytes : list Z) : Prop := mk_packed {
  packed_bytes : Forall u8 bytes;
  packed_length : Z.of_nat (length bytes) = (Z.of_nat (length bs) + 7) / 8;
  packed_bit i : 0 ≤ i → byte_bit bytes i = default false (bs !! Z.to_nat i);
}.

Definition frame_header (ts : list ClosedTerm) : list Z :=
  Stream.magic ++ le_bytes 8 (Z.of_nat (length ts)) ++ le_bytes 8 (forest_len ts).

(** The stream of a sequence of terms whose size fits its header field. *)
Definition Framed (ts : list ClosedTerm) (bytes : list Z) : Prop :=
  forest_len ts < W64 ∧
  ∃ payload, bytes = frame_header ts ++ payload ∧ packed (forest_bits ts) payload.

(** The limits a stream is checked against, the platform's size included. *)
Definition accepted (limits : StreamLimits) (ts : list ClosedTerm) : Prop :=
  Z.of_nat (length ts) ≤ stream_max_terms limits ∧
  forest_len ts ≤ stream_max_bits limits ∧
  forest_len ts + 7 < W64 ∧
  Forall (λ t, tree_depth t ≤ stream_max_depth limits) ts.

Definition stream_limits_ok (limits : StreamLimits) : Prop :=
  usize (stream_max_bits limits) ∧ usize (stream_max_terms limits) ∧
  usize (stream_max_depth limits).

Lemma forest_len_cons t ts : forest_len (t :: ts) = tree_len t + forest_len ts.
Proof.
  unfold forest_len. rewrite forest_bits_cons, length_app, Nat2Z.inj_add.
  by rewrite length_tree_bits.
Qed.

Lemma forest_len_count ts : Z.of_nat (length ts) ≤ forest_len ts.
Proof.
  induction ts as [|t ts IH]; [done|]. rewrite forest_len_cons. pose proof (tree_len_pos t).
  cbn [length]. lia.
Qed.

Lemma packed_unique bs a b : packed bs a → packed bs b → a = b.
Proof.
  intros [Ha Hla Hba] [Hb Hlb Hbb]. apply bytes_ext; [done..|lia|].
  intros i Hi. by rewrite Hba, Hbb by lia.
Qed.

Lemma Framed_unique ts a b : Framed ts a → Framed ts b → a = b.
Proof. intros (_ & p & -> & Hp) (_ & q & -> & Hq). by rewrite (packed_unique _ p q Hp Hq). Qed.

(** ** Encoding *)

Definition put (state : list Z * Z) (b : bool) : list Z * Z :=
  (if b then set_byte_bit state.1 state.2 else state.1, state.2 + 1).

Lemma put_spec bs p c :
  Forall u8 p → 0 ≤ c → c + Z.of_nat (length bs) ≤ 8 * Z.of_nat (length p) →
  let '(p', c') := foldl put (p, c) bs in
  Forall u8 p' ∧ length p' = length p ∧ c' = c + Z.of_nat (length bs) ∧
  ∀ j, 0 ≤ j → byte_bit p' j =
    byte_bit p j || (bool_decide (c ≤ j) && default false (bs !! Z.to_nat (j - c))).
Proof.
  revert p c. induction bs as [|b bs IH]; intros p c Hp Hc Hl.
  { cbn. split_and!; [done|done|lia|]. intros j Hj. by rewrite andb_false_r, orb_false_r. }
  cbn [foldl length] in *. unfold put at 2. cbn [fst snd].
  set (p1 := if b then set_byte_bit p c else p).
  assert (Forall u8 p1 ∧ length p1 = length p) as [Hp1 Hl1].
  { subst p1. destruct b; [|done]. split; [by apply set_byte_bit_ok|apply length_set_byte_bit]. }
  specialize (IH p1 (c + 1) Hp1 ltac:(lia) ltac:(lia)).
  destruct (foldl put (p1, c + 1) bs) as [p' c']. destruct IH as (H1 & H2 & H3 & H4).
  split_and!; [done|congruence|lia|]. intros j Hj. rewrite H4 by done.
  assert (byte_bit p1 j = byte_bit p j || (bool_decide (j = c) && b)) as ->.
  { subst p1. destruct b; [rewrite byte_bit_set by lia; by rewrite andb_true_r|].
    by rewrite andb_false_r, orb_false_r. }
  rewrite <- orb_assoc. f_equal. destruct (Z.lt_trichotomy j c) as [Hlt|[->|Hgt]].
  - by rewrite !bool_decide_false by lia.
  - rewrite (bool_decide_true (c = c)), (bool_decide_true (c ≤ c)), bool_decide_false, Z.sub_diag by lia.
    apply orb_false_r.
  - rewrite (bool_decide_false (j = c)), !bool_decide_true by lia. cbn [orb andb].
    by replace (Z.to_nat (j - c)) with (S (Z.to_nat (j - (c + 1)))) by lia.
Qed.

Lemma write_bit_put hdr p c v i :
  length hdr = 24%nat → 0 ≤ c →
  Stream.write_bit v (hdr ++ p, c) i =
    (hdr ++ (put (p, c) (bit v i)).1, (put (p, c) (bit v i)).2).
Proof.
  intros Hh Hc. unfold Stream.write_bit, put, set_byte_bit. cbn [fst snd]. f_equal.
  destruct (bit v i); [|done]. pose proof (Z.div_pos c 8).
  replace (Z.to_nat (24 + c / 8)) with (length hdr + Z.to_nat (c / 8))%nat by lia.
  apply alter_app_r.
Qed.

Lemma write_bits_put hdr v l p c :
  length hdr = 24%nat → 0 ≤ c →
  let '(p', c') := foldl put (p, c) (bit v <$> l) in
  foldl (Stream.write_bit v) (hdr ++ p, c) l = (hdr ++ p', c') ∧ 0 ≤ c'.
Proof.
  intros Hh. revert p c. induction l as [|i l IH]; intros p c Hc; [done|].
  cbn [foldl fmap list_fmap]. rewrite write_bit_put by done.
  specialize (IH (put (p, c) (bit v i)).1 (put (p, c) (bit v i)).2 ltac:(cbn; lia)).
  by rewrite <- (surjective_pairing (put _ _)) in IH.
Qed.

Lemma Represents_fmap_bits v t :
  Represents v t → bit v <$> reverse (seqZ 0 (bit_len v)) = tree_bits t.
Proof.
  intros Hr. rewrite <- (Represents_bits Hr). unfold bits, Z_bits.
  apply list_fmap_ext. intros k i Hi.
  apply list_elem_of_lookup_2, elem_of_reverse, elem_of_seqZ in Hi.
  apply bit_testbit; [apply (Represents_ok Hr)|lia].
Qed.

Lemma write_terms_put hdr vs ts p c :
  length hdr = 24%nat → 0 ≤ c → Forall2 Represents vs ts →
  let '(p', c') := foldl put (p, c) (forest_bits ts) in
  foldl Stream.write_term (hdr ++ p, c) vs = (hdr ++ p', c').
Proof.
  intros Hh Hc HR. revert p c Hc. induction HR as [|v t vs ts Hr HR IH]; intros p c Hc; [done|].
  rewrite forest_bits_cons, foldl_app. cbn [foldl]. unfold Stream.write_term at 2.
  rewrite <- (Represents_fmap_bits v t Hr).
  pose proof (write_bits_put hdr v (reverse (seqZ 0 (bit_len v))) p c Hh Hc) as Hw.
  destruct (foldl put (p, c) _) as [p1 c1]. destruct Hw as [-> ?]. by apply IH.
Qed.

Lemma sum_bits vs ts n :
  Forall2 Represents vs ts → 0 ≤ n < W64 →
  for_each (λ v n, ok_or StreamLimit (checked_add n (bit_len v))) vs n =
    if n + forest_len ts <? W64 then Ok (n + forest_len ts) else Err StreamLimit.
Proof.
  intros HR. revert n. induction HR as [|v t vs ts Hr HR IH]; intros n Hn.
  { cbn. rewrite !Z.add_0_r. by rewrite (proj2 (Z.ltb_lt _ _)) by lia. }
  cbn [for_each]. rewrite (Represents_bit_len Hr), forest_len_cons.
  pose proof (tree_len_pos t). pose proof (forest_len_count ts).
  unfold checked_add. destruct (Z.ltb_spec (n + tree_len t) W64); cbn [ok_or mbind Result_bind].
  - rewrite IH by lia. by rewrite Z.add_assoc.
  - by rewrite (proj2 (Z.ltb_ge _ _)) by lia.
Qed.

Lemma check_depths vs ts max :
  usize max → Forall2 Represents vs ts →
  for_each (λ value (_ : unit),
    _ ← Stream.check_depth (bit value <$> reverse (seqZ 0 (bit_len value))) max; Ok tt) vs tt =
  if decide (Forall (λ t, tree_depth t ≤ max) ts) then Ok tt else Err StreamLimit.
Proof.
  intros Hm HR. induction HR as [|v t vs ts Hr HR IH]; [by rewrite decide_True by constructor|].
  cbn [for_each]. rewrite (Represents_fmap_bits v t Hr), <- (app_nil_r (tree_bits t)).
  rewrite check_depth_tree by done.
  destruct (Z.leb_spec (tree_depth t) max); cbn [mbind Result_bind].
  - rewrite IH. destruct (decide (Forall _ ts)) as [Hf|Hf].
    + by rewrite decide_True by by constructor.
    + rewrite decide_False; [done|]. by intros [_ ?]%Forall_cons.
  - rewrite decide_False; [done|]. intros [? _]%Forall_cons. lia.
Qed.

Lemma length_frame_header ts : length (frame_header ts) = 24%nat.
Proof. unfold frame_header. by rewrite !length_app, !length_le_bytes. Qed.

(** Writing all the bits into a zeroed buffer packs them. *)
Lemma put_packed bs :
  packed bs (foldl put (replicate (Z.to_nat ((Z.of_nat (length bs) + 7) / 8)) 0, 0) bs).1.
Proof.
  set (n := Z.to_nat ((Z.of_nat (length bs) + 7) / 8)).
  assert (Z.of_nat n = (Z.of_nat (length bs) + 7) / 8) as Hn by (subst n; dlia).
  pose proof (put_spec bs (replicate n 0) 0) as H.
  destruct (foldl put (replicate n 0, 0) bs) as [p c]. cbn [fst].
  destruct H as (Hp & Hl & _ & Hb); [apply Forall_replicate; split; lia|lia|rewrite length_replicate; dlia|].
  rewrite length_replicate in Hl. split; [done|lia|]. intros i Hi.
  rewrite Hb, byte_bit_zero, bool_decide_true, Z.sub_0_r by lia. done.
Qed.

(** The encoder produces the stream of its terms, and refuses exactly the
    sequences over the limits. *)
Lemma encode_stream_lemma vs ts limits :
  stream_limits_ok limits → Forall2 Represents vs ts →
  match Stream.encode_stream vs limits with
  | Ok bytes => Framed ts bytes ∧ accepted limits ts
  | Err e => e = StreamLimit ∧ ¬ accepted limits ts
  end.
Proof.
  intros (Hmb & Hmt & Hmd) HR. unfold Stream.encode_stream, accepted.
  rewrite (Forall2_length _ _ _ HR). pose proof (forest_len_count ts).
  destruct (Z.ltb_spec (stream_max_terms limits) (Z.of_nat (length ts))); [split; [done|lia]|].
  rewrite (sum_bits vs ts 0 HR) by lia. rewrite Z.add_0_l.
  destruct (Z.ltb_spec (forest_len ts) W64); cbn [mbind Result_bind]; [|split; [done|lia]].
  destruct (Z.ltb_spec (stream_max_bits limits) (forest_len ts)); [split; [done|lia]|].
  rewrite (check_depths vs ts) by done. destruct (decide _) as [Hd|Hd]; cbn [mbind Result_bind];
    [|by split; [|intros (_ & _ & _ & ?)]].
  unfold checked_add. destruct (Z.ltb_spec (forest_len ts + 7) W64); cbn [ok_or mbind Result_bind];
    [|split; [done|lia]].
  rewrite (proj2 (Z.ltb_lt _ _)) by dlia. cbn [ok_or mbind Result_bind].
  set (n := Z.to_nat ((forest_len ts + 7) / 8)).
  assert (resize (Z.to_nat ((forest_len ts + 7) / 8 + 24)) 0 (frame_header ts)
          = frame_header ts ++ replicate n 0) as Hr.
  { rewrite resize_ge by (rewrite length_frame_header; dlia). rewrite length_frame_header.
    do 2 f_equal. subst n. dlia. }
  unfold frame_header in Hr at 1. rewrite Hr.
  pose proof (write_terms_put (frame_header ts) vs ts (replicate n 0) 0
    (length_frame_header ts) ltac:(lia) HR) as Hw.
  pose proof (put_packed (forest_bits ts)) as Hp. fold (forest_len ts) in Hp. fold n in Hp.
  destruct (foldl put _ _) as [p c]. rewrite Hw. cbn. split; [|by split_and!].
  split; [lia|]. by exists p.
Qed.

(** ** Decoding *)

Section decode.
Context (bit : Z → bool) (bits : Z).

(** The useful bits of the payload. *)
Definition payload_bits : list bool := bit <$> seqZ 0 bits.

Lemma payload_drop c : 0 ≤ c ≤ bits → bit <$> seqZ c (bits - c) = drop (Z.to_nat c) payload_bits.
Proof.
  intros Hc. unfold payload_bits. replace bits with (c + (bits - c)) at 2 by lia.
  rewrite seqZ_app, fmap_app by lia. rewrite drop_app_length'; [done|].
  rewrite length_fmap, length_seqZ. lia.
Qed.

Lemma payload_suffix c t rest :
  0 ≤ c ≤ bits → drop (Z.to_nat c) payload_bits = tree_bits t ++ rest →
  0 ≤ c + tree_len t ≤ bits ∧ drop (Z.to_nat (c + tree_len t)) payload_bits = rest.
Proof.
  intros Hc H. pose proof (tree_len_pos t). pose proof (length_tree_bits t) as Hl.
  assert (length (drop (Z.to_nat c) payload_bits) = Z.to_nat (bits - c)) as Hd.
  { rewrite length_drop. unfold payload_bits. rewrite length_fmap, length_seqZ. lia. }
  rewrite H, length_app in Hd. split; [lia|].
  rewrite Z2Nat.inj_add, <- drop_drop, H, drop_app_length' by lia. done.
Qed.

Lemma payload_lookup c t rest k :
  0 ≤ c ≤ bits → drop (Z.to_nat c) payload_bits = tree_bits t ++ rest →
  0 ≤ k < tree_len t → tree_bits t !! Z.to_nat k = Some (bit (c + k)).
Proof.
  intros Hc H Hk. destruct (payload_suffix c t rest Hc H) as [Hb _].
  pose proof (length_tree_bits t) as Hl.
  rewrite <- (lookup_app_l _ rest), <- H, lookup_drop by lia.
  unfold payload_bits. rewrite list_lookup_fmap, lookup_seqZ_lt by lia. cbn. do 2 f_equal. lia.
Qed.

(** The first pass, on a payload that starts with enough terms. *)
Definition pass_body (max : Z) (_ cursor : Z) : Result StreamError Z :=
  consumed ← Stream.check_depth (bit <$> seqZ cursor (bits - cursor)) max;
  Ok (cursor + consumed).

Lemma pass_body_tree max i c t rest :
  usize max → 0 ≤ c ≤ bits → drop (Z.to_nat c) payload_bits = tree_bits t ++ rest →
  pass_body max i c = if tree_depth t <=? max then Ok (c + tree_len t) else Err StreamLimit.
Proof.
  intros Hm Hc H. unfold pass_body. rewrite payload_drop, H, check_depth_tree by done.
  by destruct (tree_depth t <=? max).
Qed.

Lemma first_pass_trees max ts rest l c :
  usize max → length l = length ts → 0 ≤ c ≤ bits →
  drop (Z.to_nat c) payload_bits = forest_bits ts ++ rest →
  for_each (pass_body max) l c =
    if decide (Forall (λ t, tree_depth t ≤ max) ts) then Ok (c + forest_len ts)
    else Err StreamLimit.
Proof.
  intros Hm. revert l c. induction ts as [|t ts IH]; intros [|i l] c Hl Hc H; try done.
  { rewrite decide_True by constructor. cbn. f_equal. unfold forest_len. cbn. lia. }
  rewrite forest_bits_cons, <- (assoc_L (++)) in H. cbn [for_each].
  rewrite (pass_body_tree max i c t (forest_bits ts ++ rest)), forest_len_cons by done.
  destruct (payload_suffix c t _ Hc H) as [Hc' H'].
  destruct (Z.leb_spec (tree_depth t) max); cbn [mbind Result_bind].
  - rewrite (IH l) by (done || (cbn in *; lia)). destruct (decide (Forall _ ts)).
    + rewrite decide_True by by constructor. f_equal. lia.
    + rewrite decide_False; [done|]. by intros [_ ?]%Forall_cons.
  - rewrite decide_False; [done|]. intros [? _]%Forall_cons. lia.
Qed.

Lemma first_pass_Ok max l c c' :
  usize max → 0 ≤ c ≤ bits → for_each (pass_body max) l c = Ok c' →
  ∃ ts rest, length ts = length l ∧ drop (Z.to_nat c) payload_bits = forest_bits ts ++ rest ∧
    c' = c + forest_len ts ∧ Forall (λ t, tree_depth t ≤ max) ts.
Proof.
  intros Hm. revert c. induction l as [|i l IH]; intros c Hc H; cbn [for_each] in H.
  { exists [], (drop (Z.to_nat c) payload_bits). simplify_eq. split_and!; [done|done| |done].
    unfold forest_len. cbn. lia. }
  apply bind_ok in H as (c1 & H1 & H2). unfold pass_body in H1.
  apply bind_ok in H1 as (n & Hn & [= <-]). rewrite payload_drop in Hn by done.
  apply (check_depth_Ok max Hm) in Hn as (t & rest & Hd & -> & Ht).
  destruct (payload_suffix c t _ Hc Hd) as [Hc' Hr].
  apply IH in H2 as (ts & rest' & Hl & Hd' & -> & Hf); [|done]. exists (t :: ts), rest'.
  rewrite forest_len_cons, forest_bits_cons, <- (assoc_L (++)), <- Hd', Hr.
  split_and!; [cbn; lia|done|lia|by constructor].
Qed.

(** The second pass. *)
Fixpoint close_bits (bs : list bool) (slots cursor : Z) : Z :=
  match bs with
  | [] => cursor
  | b :: bs =>
      let slots := if b then slots - 1 + 2 else slots - 1 in
      if slots =? 0 then cursor + 1 else close_bits bs slots (cursor + 1)
  end.

Lemma close_term_bits n slots c :
  0 ≤ n → Stream.close_term bit (seqZ c n) slots c = close_bits (bit <$> seqZ c n) slots c.
Proof.
  intros Hn. revert slots c. pattern n. apply natlike_ind; [done| |done].
  clear n Hn. intros n Hn IH slots c. rewrite seqZ_cons by lia.
  replace (Z.pred (Z.succ n)) with n by lia. cbn [Stream.close_term close_bits fmap list_fmap].
  destruct (bit c); (destruct (_ =? 0); [done|]);
    replace (c + 1) with (Z.succ c) by lia; apply IH.
Qed.

Lemma close_bits_tree t rest s c :
  0 ≤ s →
  close_bits (tree_bits t ++ rest) (s + 1) c =
    if s =? 0 then c + tree_len t else close_bits rest s (c + tree_len t).
Proof.
  revert rest s c. induction t as [|l IHl r IHr]; intros rest s c Hs; cbn [tree_bits app close_bits].
  { by replace (s + 1 - 1) with s by lia. }
  replace (s + 1 - 1 + 2) with (s + 1 + 1) by lia. cbn [tree_len].
  rewrite (proj2 (Z.eqb_neq _ 0)), <- (assoc_L (++)), IHl by lia.
  rewrite (proj2 (Z.eqb_neq (s + 1) 0)), IHr by lia.
  replace (c + 1 + tree_len l + tree_len r) with (c + (1 + tree_len l + tree_len r)) by lia. done.
Qed.

(** The word-assembly loop sets bit [n - 1 - i] from the [i]-th bit of the term:
    the state after [k] iterations. *)
Definition read_state (start n : Z) (k : nat) (ws : list Z) : Prop :=
  words_ok ws ∧ length ws = Z.to_nat (div_ceil64 n) ∧
  ∀ j, 0 ≤ j → Z.testbit (words_val ws) j =
    (n - 1 - j <? Z.of_nat k) && (j <? n) && bit (start + (n - 1 - j)).

Lemma read_state_step start n k ws :
  Z.of_nat k < n → read_state start n k ws →
  read_state start n (S k)
    (if bit (start + Z.of_nat k) then or_bit ws (n - 1 - Z.of_nat k) else ws).
Proof.
  intros Hk (Hok & Hl & Hb).
  assert (n ≤ 64 * Z.of_nat (length ws)) by (rewrite Hl; unfold div_ceil64; dlia).
  assert (∀ j, j ≠ n - 1 - Z.of_nat k →
    (n - 1 - j <? Z.of_nat (S k)) = (n - 1 - j <? Z.of_nat k)) as Hne.
  { intros j Hj. destruct (Z.ltb_spec (n - 1 - j) (Z.of_nat (S k))), (Z.ltb_spec (n - 1 - j) (Z.of_nat k)); lia. }
  assert (∀ j, j = n - 1 - Z.of_nat k → n - 1 - j = Z.of_nat k) as Heq by lia.
  destruct (bit (start + Z.of_nat k)) eqn:Hbit.
  - split_and!; [auto|by rewrite length_or_bit|]. intros j Hj.
    rewrite or_bit_testbit, Hb by (done || lia). case_bool_decide as Hjk.
    + rewrite orb_true_r, (Heq j Hjk), Hbit.
      by rewrite (proj2 (Z.ltb_lt (Z.of_nat k) (Z.of_nat (S k)))), (proj2 (Z.ltb_lt j n)) by lia.
    + by rewrite orb_false_r, Hne.
  - split_and!; [done..|]. intros j Hj. rewrite Hb by done.
    destruct (decide (j = n - 1 - Z.of_nat k)) as [E|]; [|by rewrite Hne].
    by rewrite (Heq j E), Hbit, !andb_false_r.
Qed.

Lemma read_words_loop start n :
  0 ≤ n →
  read_state start n (Z.to_nat n)
    (foldl (λ words i, if bit (start + i) then or_bit words (n - 1 - i) else words)
      (replicate (Z.to_nat (div_ceil64 n)) 0) (seqZ 0 n)).
Proof.
  intros Hn. rewrite <- (length_seqZ 0 n) at 1. apply (foldl_up (read_state start n)).
  - split_and!; [auto|by rewrite length_replicate|]. intros j Hj.
    rewrite words_val_replicate, Z.testbit_0_l.
    destruct (Z.ltb_spec j n); [|by rewrite andb_false_r].
    by rewrite (proj2 (Z.ltb_ge _ _)) by lia.
  - intros k x ws Hk Hs. apply lookup_seqZ in Hk as [-> Hk]. rewrite Z.add_0_l.
    by apply read_state_step.
Qed.

Lemma read_words_Represents t start :
  (∀ k, 0 ≤ k < tree_len t → tree_bits t !! Z.to_nat k = Some (bit (start + k))) →
  Represents (mkBml (Stream.read_words bit start (tree_len t))) t.
Proof.
  intros Hbits. pose proof (tree_len_pos t) as Hpos.
  unfold Stream.read_words. destruct (read_words_loop start (tree_len t)) as (Hok & Hl & Hb); [lia|].
  set (ws := foldl _ _ _) in *.
  assert (words_val ws = tree_code t) as Hv.
  { apply Z.bits_inj'. intros j Hj. rewrite Hb by done. rewrite (proj2 (Z.ltb_lt _ (Z.of_nat _))) by lia.
    destruct (Z.ltb_spec j (tree_len t)) as [Hlt|]; cbn [andb].
    - rewrite <- tree_code_Z_bits in Hbits.
      specialize (Hbits (tree_len t - 1 - j) ltac:(lia)). rewrite Z_bits_lookup in Hbits by lia.
      injection Hbits as <-. f_equal. lia.
    - symmetry. apply (testbit_small _ _ (tree_len t)); [apply tree_code_bounds|lia]. }
  destruct (Z.eqb_spec (tree_len t) 1) as [H1|H1].
  - destruct t as [|l r]; [by apply one_Represents|].
    cbn in H1. pose proof (tree_len_pos l). pose proof (tree_len_pos r). lia.
  - split; [|done]. split; [done|]. apply tight_normalized; [done|]. cbn [words]. rewrite Hv, Hl.
    destruct t as [|l r]; [done|]. rewrite tree_code_nbits. unfold div_ceil64. dlia.
Qed.

Lemma second_pass_trees ts rest l vs c :
  length l = length ts → 0 ≤ c ≤ bits →
  drop (Z.to_nat c) payload_bits = forest_bits ts ++ rest →
  ∃ us, foldl (Stream.read_term bit bits) (vs, c) l = (vs ++ us, c + forest_len ts) ∧
    Forall2 Represents us ts.
Proof.
  revert ts vs c. induction l as [|i l IH]; intros [|t ts] vs c Hl Hc H; try done.
  { exists []. cbn. split; [|done]. f_equal; [by rewrite app_nil_r|]. unfold forest_len. cbn. lia. }
  rewrite forest_bits_cons, <- (assoc_L (++)) in H.
  destruct (payload_suffix c t _ Hc H) as [Hc' Hrest].
  cbn [foldl]. unfold Stream.read_term at 2.
  rewrite close_term_bits, payload_drop, H by (done || lia).
  replace (close_bits _ 1 c) with (c + tree_len t) by (by rewrite (close_bits_tree t _ 0)).
  replace (c + tree_len t - c) with (tree_len t) by lia.
  set (v := mkBml _).
  destruct (IH ts (vs ++ [v]) (c + tree_len t)) as (us & -> & HR); [by simplify_eq/=|done..|].
  exists (v :: us). rewrite forest_len_cons, <- (assoc_L (++)). split; [f_equal; lia|].
  constructor; [|done]. apply read_words_Represents. intros k Hk.
  by apply (payload_lookup c t (forest_bits ts ++ rest)).
Qed.
End decode.

(** ** Recovering the frame *)

Lemma stream_bit_payload bytes i : 0 ≤ i → Stream.stream_bit bytes i = byte_bit (drop 24 bytes) i.
Proof.
  intros Hi. pose proof (Z.div_pos i 8). unfold Stream.stream_bit, byte_bit.
  rewrite lookup_drop. by replace (Z.to_nat (24 + i / 8)) with (24 + Z.to_nat (i / 8))%nat by lia.
Qed.

Lemma payload_bits_lookup bytes n i :
  0 ≤ i < n →
  payload_bits (Stream.stream_bit bytes) n !! Z.to_nat i = Some (byte_bit (drop 24 bytes) i).
Proof.
  intros Hi. unfold payload_bits. rewrite list_lookup_fmap, lookup_seqZ_lt by lia. cbn.
  rewrite stream_bit_payload by lia. do 2 f_equal. lia.
Qed.

Lemma length_payload_bits bit n : length (payload_bits bit n) = Z.to_nat n.
Proof. unfold payload_bits. by rewrite length_fmap, length_seqZ. Qed.

Lemma packed_payload bs bytes :
  packed bs (drop 24 bytes) → bs = payload_bits (Stream.stream_bit bytes) (Z.of_nat (length bs)).
Proof.
  intros [_ _ Hb]. apply list_eq_same_length with (length bs); [|done|].
  { rewrite length_payload_bits. lia. }
  intros i x y Hi Hx Hy. rewrite <- (Nat2Z.id i), payload_bits_lookup, Hb in Hy by lia.
  rewrite Nat2Z.id, Hx in Hy. by injection Hy.
Qed.

Lemma byte_bit_beyond p i : 8 * Z.of_nat (length p) ≤ i → byte_bit p i = false.
Proof.
  intros Hi. assert (Z.of_nat (length p) ≤ i / 8) by (apply Z.div_le_lower_bound; lia).
  unfold byte_bit. by rewrite (proj2 (lookup_ge_None _ _)) by lia.
Qed.

(** The decoder's padding test accepts exactly zero padding. *)
Lemma padding_iff p n :
  Forall u8 p → 0 ≤ n → Z.of_nat (length p) = (n + 7) / 8 →
  (n `mod` 8 = 0 ∨ Z.land (List.last p 0) (Z.shiftl 1 (8 - n `mod` 8) - 1) = 0) ↔
  ∀ i, n ≤ i → byte_bit p i = false.
Proof.
  intros Hp Hn Hl. pose proof (Z.mod_pos_bound n 8 ltac:(lia)).
  pose proof (Z.div_mod n 8 ltac:(lia)).
  destruct (decide (n `mod` 8 = 0)) as [Hz0|Hz0].
  { split; [|by left]. intros _ i Hi. apply byte_bit_beyond. rewrite Hl.
    replace ((n + 7) / 8) with (n / 8) by dlia. lia. }
  assert (Z.of_nat (length p) = n / 8 + 1) as Hl' by (rewrite Hl; dlia).
  destruct p as [|b p _] using rev_ind; [cbn in Hl'; pose proof (Z.div_pos n 8); lia|].
  rewrite length_app in Hl'. cbn [length] in Hl'.
  apply Forall_app in Hp as [_ [Hb _]%Forall_cons]. rewrite List.last_last, byte_low_bits by (done || lia).
  assert (∀ i, n / 8 = i / 8 → byte_bit (p ++ [b]) i = Z.testbit b (7 - i `mod` 8)) as Hlast.
  { intros i Hi. pose proof (Z.mod_pos_bound i 8 ltac:(lia)). unfold byte_bit.
    replace (Z.to_nat (i / 8)) with (length p) by lia. rewrite list_lookup_middle by done.
    apply byte_bit_testbit. lia. }
  split.
  - intros [?|Hz] i Hi; [done|]. destruct (decide (i < 8 * (n / 8) + 8)).
    + rewrite Hlast by dlia. apply Hz. dlia.
    + apply byte_bit_beyond. rewrite length_app. cbn. lia.
  - intros Hz. right. intros i Hi. specialize (Hz (8 * (n / 8) + (7 - i)) ltac:(lia)).
    rewrite Hlast in Hz by dlia. rewrite <- Hz. f_equal. dlia.
Qed.

Lemma stream_split (bytes : list Z) :
  bytes = take 8 bytes ++ take 8 (drop 8 bytes) ++ take 8 (drop 16 bytes) ++ drop 24 bytes.
Proof.
  assert (drop 24 bytes = drop 8 (drop 16 bytes)) as -> by (by rewrite drop_drop).
  rewrite take_drop. assert (drop 16 bytes = drop 8 (drop 8 bytes)) as -> by (by rewrite drop_drop).
  by rewrite !take_drop.
Qed.

(** The fields the decoder reads determine the frame. *)
Lemma Framed_iff ts bytes :
  Forall u8 bytes →
  Framed ts bytes ↔
  24 ≤ Z.of_nat (length bytes) ∧ take 8 bytes = Stream.magic ∧
  le_value (take 8 (drop 8 bytes)) = Z.of_nat (length ts) ∧
  le_value (take 8 (drop 16 bytes)) = forest_len ts ∧
  packed (forest_bits ts) (drop 24 bytes).
Proof.
  intros Hu. split.
  - intros (Hsize & p & -> & Hp). pose proof (forest_len_count ts).
    assert (length (frame_header ts) = 24%nat) as Hh by apply length_frame_header.
    rewrite length_app, Hh, (drop_app_length' _ _ 24) by done. unfold frame_header.
    rewrite <- !(assoc_L (++)), (take_app_length' Stream.magic _ 8) by done.
    rewrite (drop_app_length' Stream.magic _ 8), take_app_length' by (done || apply length_le_bytes).
    rewrite (assoc_L (++) Stream.magic), (drop_app_length' (Stream.magic ++ _))
      by (by rewrite length_app, length_le_bytes).
    rewrite take_app_length' by done.
    change W64 with (256 ^ Z.of_nat 8) in Hsize.
    rewrite !le_value_bytes by lia. split_and!; [lia|done..].
  - intros (Hl & Hm & Hc & Hb & Hp).
    assert (Forall u8 (take 8 (drop 8 bytes)) ∧ Forall u8 (take 8 (drop 16 bytes))) as [H1 H2]
      by (split; by apply Forall_take, Forall_drop).
    assert (length (take 8 (drop 8 bytes)) = 8%nat ∧ length (take 8 (drop 16 bytes)) = 8%nat) as [L1 L2]
      by (rewrite !length_take, !length_drop; lia).
    split.
    { rewrite <- Hb. pose proof (le_value_bounds _ H2) as Hbound. rewrite L2 in Hbound. apply Hbound. }
    exists (drop 24 bytes). split; [|done]. unfold frame_header.
    rewrite <- Hm, <- Hc, <- Hb, !le_bytes_value by done. rewrite <- !(assoc_L (++)). apply stream_split.
Qed.

Lemma last_drop (l : list Z) k : (k < length l)%nat → List.last (drop k l) 0 = List.last l 0.
Proof.
  revert l. induction k as [|k IH]; intros l Hk; [done|].
  destruct l as [|x [|y l]]; cbn in Hk; try lia. rewrite skipn_cons, IH by (cbn; lia). done.
Qed.

(** The two passes over a payload whose padding is zero. *)
Lemma decode_passes bytes limits count n :
  usize (stream_max_depth limits) → Forall u8 bytes → 24 ≤ Z.of_nat (length bytes) →
  take 8 bytes = Stream.magic →
  0 ≤ count → count = le_value (take 8 (drop 8 bytes)) →
  0 ≤ n → n = le_value (take 8 (drop 16 bytes)) →
  count ≤ stream_max_terms limits → n ≤ stream_max_bits limits → n + 7 < W64 →
  Z.of_nat (length (drop 24 bytes)) = (n + 7) / 8 →
  (∀ i, n ≤ i → byte_bit (drop 24 bytes) i = false) →
  let bit := Stream.stream_bit bytes in
  match (cursor ← for_each (pass_body bit n (stream_max_depth limits)) (seqZ 0 count) 0;
         if negb (cursor =? n) then Err StreamLength
         else
           let '(values, _) := foldl (Stream.read_term bit n) ([], 0) (seqZ 0 count) in
           Ok values) with
  | Ok vs => ∃ ts, Framed ts bytes ∧ accepted limits ts ∧ Forall2 Represents vs ts
  | Err e => ∀ ts, Framed ts bytes → e = StreamLimit ∧ ¬ accepted limits ts
  end.
Proof.
  intros Hmd Hu H24 Hmagic Hc Hcount Hn Hbits Hmt Hmb Hw Hsize Hpad bit.
  pose proof (length_payload_bits bit n) as HlB. pose proof (length_seqZ 0 count) as Hlc.
  assert (∀ ts, Framed ts bytes → for_each (pass_body bit n (stream_max_depth limits)) (seqZ 0 count) 0 =
    if decide (Forall (λ t, tree_depth t ≤ stream_max_depth limits) ts) then Ok n else Err StreamLimit) as HF.
  { intros ts (_ & _ & Ht & Hl & Hp)%Framed_iff; [|done]. rewrite <- Hbits in Hl.
    apply packed_payload in Hp. fold (forest_len ts) in Hp. rewrite <- Hl in Hp.
    rewrite (first_pass_trees bit n _ ts []); [by rewrite Hl|done|lia|lia|by rewrite app_nil_r]. }
  destruct (for_each _ _ _) as [c|e] eqn:E; cbn [mbind Result_bind]; cycle 1.
  { intros ts HFr. specialize (HF ts HFr). destruct (decide _) as [|Hd]; [done|].
    injection HF as ->. by split; [|intros (_ & _ & _ & ?)]. }
  destruct (Z.eqb_spec c n) as [->|Hne]; cbn [negb]; cycle 1.
  { intros ts HFr. specialize (HF ts HFr). destruct (decide _); congruence. }
  apply first_pass_Ok in E as (ts & rest & Hlt & HB & Hlen & Hd); [|done|lia].
  change (drop (Z.to_nat 0) (payload_bits bit n)) with (payload_bits bit n) in HB.
  destruct (second_pass_trees bit n ts rest (seqZ 0 count) [] 0) as (us & -> & HR); [lia|lia|done|].
  exists ts. rewrite app_nil_l.
  assert (rest = []) as ->.
  { apply nil_length_inv. rewrite HB, length_app in HlB. unfold forest_len in Hlen. lia. }
  rewrite app_nil_r in HB. split; [|split; [|done]].
  - apply Framed_iff; [done|]. split_and!; [done..|lia|lia|]. split; [by apply Forall_drop| |].
    + by rewrite Hsize, Hlen, Z.add_0_l.
    + intros i Hi. rewrite <- HB. destruct (decide (i < n)).
      * unfold bit. by rewrite payload_bits_lookup by lia.
      * rewrite Hpad, lookup_ge_None_2 by lia. done.
  - unfold accepted. split_and!; [lia..|done].
Qed.

(** The decoder accepts exactly the streams within its limits; what it rejects
    is over the limits or is no stream at all. *)
Lemma decode_stream_lemma bytes limits :
  stream_limits_ok limits → Forall u8 bytes → usize (Z.of_nat (length bytes)) →
  match Stream.decode_stream bytes limits with
  | Ok vs => ∃ ts, Framed ts bytes ∧ accepted limits ts ∧ Forall2 Represents vs ts
  | Err e => ∀ ts, Framed ts bytes → e = StreamLimit ∧ ¬ accepted limits ts
  end.
Proof.
  intros (Hmb & Hmt & Hmd) Hu Hlen. unfold Stream.decode_stream.
  destruct (Z.ltb_spec (Z.of_nat (length bytes)) 24) as [|H24].
  { intros ts (? & _)%Framed_iff; [lia|done]. }
  case_bool_decide as Hmagic; cbn [negb]; [|by intros ts (_ & ? & _)%Framed_iff].
  set (count := le_value (take 8 (drop 8 bytes))). set (n := le_value (take 8 (drop 16 bytes))).
  assert (0 ≤ count ∧ 0 ≤ n) as [Hcount Hn].
  { split; apply le_value_bounds; by apply Forall_take, Forall_drop. }
  assert (∀ ts, Framed ts bytes → count = Z.of_nat (length ts) ∧ n = forest_len ts ∧
    packed (forest_bits ts) (drop 24 bytes)) as HF by (by intros ts (_ & _ & ? & ? & ?)%Framed_iff).
  destruct ((stream_max_terms limits <? count) || (stream_max_bits limits <? n)) eqn:Hlim.
  { intros ts (? & ? & _)%HF. split; [done|]. unfold accepted. apply orb_true_iff in Hlim.
    rewrite !Z.ltb_lt in Hlim. lia. }
  apply orb_false_iff in Hlim as [Hlc%Z.ltb_ge Hln%Z.ltb_ge].
  destruct (checked_add n 7) as [m|] eqn:E7; cbn [ok_or mbind Result_bind]; cycle 1.
  { apply checked_add_None in E7. intros ts (_ & ? & _)%HF. split; [done|]. unfold accepted. lia. }
  apply checked_add_Some in E7 as [-> Hw7].
  assert (Z.of_nat (length (drop 24 bytes)) = Z.of_nat (length bytes) - 24) as Hdrop
    by (rewrite length_drop; lia).
  destruct (negb (bool_decide (checked_add ((n + 7) / 8) 24 = Some _)) || (n <? count)) eqn:Hsz.
  { intros ts (? & Hnl & Hp)%HF. exfalso. destruct Hp as [_ Hl _].
    fold (forest_len ts) in Hl. rewrite <- Hnl in Hl. pose proof (forest_len_count ts). destruct Hlen. apply orb_true_iff in Hsz as [Hsz|Hsz%Z.ltb_lt]; [|lia].
    apply negb_true_iff, bool_decide_eq_false in Hsz. apply Hsz, checked_add_Some. lia. }
  apply orb_false_iff in Hsz as [Hsz%negb_false_iff%bool_decide_eq_true _].
  apply checked_add_Some in Hsz as [Hsz _].
  assert (Forall u8 (drop 24 bytes)) as Hup by by apply Forall_drop.
  pose proof (padding_iff (drop 24 bytes) n Hup Hn ltac:(lia)) as Hpad.
  assert (n `mod` 8 ≠ 0 → List.last (drop 24 bytes) 0 = List.last bytes 0) as Hlast.
  { intros Hne. apply last_drop. assert (0 < (n + 7) / 8) by dlia. lia. }
  destruct (negb (n `mod` 8 =? 0) && negb (_ =? 0)) eqn:Hz.
  { intros ts (? & -> & Hp)%HF. exfalso. apply andb_true_iff in Hz as [Hz1 Hz2].
    apply negb_true_iff, Z.eqb_neq in Hz1, Hz2. rewrite <- Hlast in Hz2 by done.
    destruct Hpad as [_ Hpad]. destruct Hpad; [|done..]. intros i Hi.
    rewrite (packed_bit _ _ Hp) by lia.
    rewrite lookup_ge_None_2; [done|unfold forest_len in Hi; lia]. }
  assert (∀ i, n ≤ i → byte_bit (drop 24 bytes) i = false) as Hzero.
  { apply Hpad. apply andb_false_iff in Hz as [Hz|Hz]; apply negb_false_iff, Z.eqb_eq in Hz; [by left|].
    destruct (decide (n `mod` 8 = 0)); [by left|right]. by rewrite Hlast. }
  apply (decode_passes bytes limits count n); done || lia.
Qed.

(** ** Properties *)

Lemma Framed_inj ts us bytes : Forall u8 bytes → Framed ts bytes → Framed us bytes → ts = us.
Proof.
  intros Hu (_ & _ & Hc & Hb & Hp)%Framed_iff (_ & _ & Hc' & Hb' & Hp')%Framed_iff; [|done..].
  apply forest_bits_inj; [lia|]. apply packed_payload in Hp, Hp'.
  fold (forest_len ts) in Hp. fold (forest_len us) in Hp'. rewrite Hp, Hp'. congruence.
Qed.

Lemma Framed_bytes ts bytes : Framed ts bytes → Forall u8 bytes.
Proof.
  intros (_ & p & -> & [Hp _ _]). apply Forall_app; split; [|done].
  unfold frame_header. rewrite !Forall_app. split; [|by split; apply le_bytes_ok].
  repeat constructor; lia.
Qed.

Lemma Framed_length ts bytes :
  Framed ts bytes → Z.of_nat (length bytes) = 24 + (forest_len ts + 7) / 8.
Proof.
  intros (_ & p & -> & [_ Hl _]). rewrite length_app, length_frame_header.
  fold (forest_len ts) in Hl. lia.
Qed.

Lemma Represents_all_inj vs us ts : Forall2 Represents vs ts → Forall2 Represents us ts → vs = us.
Proof.
  intros H. revert us. induction H as [|v t vs ts Hv H IH]; intros us Hu; inversion Hu; [done|].
  subst. f_equal; [by eapply Represents_inj|by apply IH].
Qed.

(** [C40] Streams round trip in both directions: what the encoder writes, the decoder
    reads back as the same values under the same limits; and every stream the
    decoder accepts, whoever wrote it, is the unique encoding of its values. *)
Theorem stream_roundtrip limits :
  stream_limits_ok limits →
  (∀ vs ts bytes, Forall2 Represents vs ts →
     Stream.encode_stream vs limits = Ok bytes → Stream.decode_stream bytes limits = Ok vs) ∧
  (∀ bytes vs, Forall u8 bytes → usize (Z.of_nat (length bytes)) →
     Stream.decode_stream bytes limits = Ok vs →
     Stream.encode_stream vs limits = Ok bytes ∧ ∃ ts, Forall2 Represents vs ts).
Proof.
  intros Hl. split.
  - intros vs ts bytes HR He. pose proof (encode_stream_lemma vs ts limits Hl HR) as H.
    rewrite He in H. destruct H as [HF Ha]. pose proof (Framed_bytes _ _ HF) as Hu.
    pose proof (Framed_length _ _ HF). pose proof (forest_len_count ts).
    pose proof (decode_stream_lemma bytes limits Hl Hu) as Hd.
    destruct (Stream.decode_stream bytes limits) as [us|e].
    + destruct Hd as (ts' & HF' & _ & HR'); [split; [lia|destruct Ha as (_ & _ & ? & _); dlia]|].
      rewrite (Framed_inj _ _ _ Hu HF' HF) in HR'. f_equal. by apply (Represents_all_inj _ _ ts).
    + by destruct (Hd ltac:(split; [lia|destruct Ha as (_ & _ & ? & _); dlia]) ts HF).
  - intros bytes vs Hu Hlen Hd. pose proof (decode_stream_lemma bytes limits Hl Hu Hlen) as H.
    rewrite Hd in H. destruct H as (ts & HF & Ha & HR). split; [|by exists ts].
    pose proof (encode_stream_lemma vs ts limits Hl HR) as He.
    destruct (Stream.encode_stream vs limits) as [out|e]; [|by destruct He].
    f_equal. destruct He as [He _]. by apply (Framed_unique ts).
Qed.

Definition two : Bml := mkBml [4].
Lemma two_Represents : Represents two (Op One One).
Proof. split; [split; [solve_words|done]|reflexivity]. Qed.

Definition two_stream : list Z :=
  Stream.magic ++ [2; 0; 0; 0; 0; 0; 0; 0; 4; 0; 0; 0; 0; 0; 0; 0; 128].

Lemma stream_roundtrip_witness :
  Stream.encode_stream [two; one] StreamLimits_default = Ok two_stream ∧
  Stream.decode_stream two_stream StreamLimits_default = Ok [two; one].
Proof.
  assert (Stream.encode_stream [two; one] StreamLimits_default = Ok two_stream) as E
    by (vm_compute; reflexivity).
  split; [exact E|].
  refine (proj1 (stream_roundtrip StreamLimits_default _) [two; one] [Op One One; One] _ _ E).
  - repeat split; done.
  - constructor; [apply two_Represents|]. constructor; [apply one_Represents|constructor].
Defined.

(** The limits are enforced exactly, before any output: the encoder refuses
    only sequences over a limit, and the decoder accepts exactly the frames of the
    format within the limits, with [StreamLimit] reserved for frames over them
    among well-formed streams. *)
Theorem stream_format limits vs ts bytes :
  stream_limits_ok limits → Forall2 Represents vs ts →
  Forall u8 bytes → usize (Z.of_nat (length bytes)) →
  match Stream.encode_stream vs limits with
  | Ok out => Framed ts out ∧ accepted limits ts
  | Err e => e = StreamLimit ∧ ¬ accepted limits ts
  end ∧
  match Stream.decode_stream bytes limits with
  | Ok us => ∃ us', Framed us' bytes ∧ accepted limits us' ∧ Forall2 Represents us us'
  | Err e => ∀ us', Framed us' bytes → e = StreamLimit ∧ ¬ accepted limits us'
  end.
Proof. intros. split; [by apply encode_stream_lemma|by apply decode_stream_lemma]. Qed.

Lemma stream_format_witness :
  Stream.encode_stream [two] (mkStreamLimits 2 1 1) = Err StreamLimit ∧
  Stream.decode_stream two_stream (mkStreamLimits 4 2 0) = Err StreamLimit ∧
  ¬ accepted (mkStreamLimits 2 1 1) [Op One One].
Proof.
  split; [vm_compute; reflexivity|]. split; [vm_compute; reflexivity|].
  refine (proj2 (proj1 (stream_format (mkStreamLimits 2 1 1) [two] [Op One One] two_stream _ _ _ _))).
  - repeat split; done.
  - constructor; [apply two_Represents|constructor].
  - repeat (constructor; [split; [discriminate|reflexivity]|]). constructor.
  - split; [discriminate|reflexivity].
Defined.

(** Fixed-width exports never truncate: they return the term's code exactly
    when it fits, and the operator count of the packed code is that of the tree. *)
Theorem exports_exact b t :
  Represents b t →
  Stream.operator_count b = tree_ops t ∧
  Stream.try_to_u64 b = (if tree_code t <? W64 then Ok (tree_code t) else Err WordWidth) ∧
  Stream.try_to_u128 b = (if tree_code t <? 2 ^ 128 then Ok (tree_code t) else Err WordWidth).
Proof.
  intros Hr. split; [|].
  { unfold Stream.operator_count. rewrite (Represents_bit_len Hr), tree_len_ops. dlia. }
  destruct Hr as [Hc Hv]. destruct b as [ws]. cbn [words] in *. rewrite <- Hv.
  pose proof (canonical_tight _ Hc) as Ht.
  assert (∀ k, 0 ≤ k → 64 * k ≤ 64 * (Z.of_nat (length ws) - 1) → 2 ^ (64 * k) ≤ words_val ws) as Hbig.
  { intros k Hk Hle. destruct (decide (2 ^ (64 * k) ≤ words_val ws)) as [|Hlt]; [done|].
    pose proof (words_val_nonneg ws (proj1 Hc)).
    pose proof (proj2 (nbits_le_iff (words_val ws) (64 * k) ltac:(done) ltac:(lia)) ltac:(lia)).
    cbn [words] in Ht. lia. }
  unfold Stream.try_to_u64, Stream.try_to_u128, to_u64. cbn [words].
  destruct Hc as [Hok _]. destruct ws as [|w0 [|w1 [|w2 ws]]].
  - done.
  - apply Forall_cons in Hok as [[H0 H1] _]. cbn [words_val]. rewrite Z.mul_0_r, Z.add_0_r.
    rewrite (proj2 (Z.ltb_lt w0 W64)), (proj2 (Z.ltb_lt w0 (2 ^ 128))) by lia.
    split; [done|]. change (Ok (Z.lor w0 0) = Ok (E := StreamError) w0). by rewrite Z.lor_0_r.
  - specialize (Hbig 1 ltac:(lia) ltac:(cbn; lia)). change (2 ^ (64 * 1)) with W64 in Hbig.
    rewrite (proj2 (Z.ltb_ge _ W64)) by done. apply Forall_cons in Hok as [[H0 H1] Hok].
    apply Forall_cons in Hok as [[H2 H3] _]. cbn [words_val] in *. rewrite Z.mul_0_r, Z.add_0_r in *.
    rewrite (proj2 (Z.ltb_lt _ (2 ^ 128))) by lia. split; [done|]. cbn. f_equal.
    rewrite Z.shiftl_mul_pow2, <- Z.add_nocarry_lor; [change (2 ^ 64) with W64; lia| |lia].
    by apply land_low_high.
  - pose proof (Hbig 1 ltac:(lia) ltac:(cbn; lia)) as Hb1.
    pose proof (Hbig 2 ltac:(lia) ltac:(cbn; lia)) as Hb2.
    change (2 ^ (64 * 1)) with W64 in Hb1. change (64 * 2) with 128 in Hb2.
    rewrite (proj2 (Z.ltb_lt 2 _)) by (cbn; lia).
    by rewrite (proj2 (Z.ltb_ge _ W64)), (proj2 (Z.ltb_ge _ (2 ^ 128))) by done.
Qed.

Lemma exports_exact_witness :
  Stream.try_to_u128 two = Ok 4 ∧ Stream.operator_count two = 1.
Proof.
  destruct (exports_exact two (Op One One) two_Represents) as (Hc & _ & Hw).
  split; [exact Hw|exact Hc].
Defined.
