(* ===== verification/FloatArith.v ===== *)
(** * binary64 arithmetic

    The operations of Rust's [f64] on finite and special values: the IEEE 754
    operations of the Standard Library's [SpecFloat], carried over to bit
    patterns, the conversions with integers, and the transcendental functions,
    which Rust leaves to the platform and which are therefore a parameter. *)

From Stdlib Require Import QArith SpecFloat.
From S2P Require Import Prelude Float.
#[local] Open Scope Z_scope.

(** ** Patterns and mathematical floats *)

Definition to_spec (v : f64) : spec_float :=
  if f64_exponent v =? 2047 then
    if f64_fraction v =? 0 then S754_infinity (f64_sign v) else S754_nan
  else match f64_significand v with
       | Zpos m => S754_finite (f64_sign v) m (f64_power v)
       | _ => S754_zero (f64_sign v)
       end.

Definition sign_bit (s : bool) : Z := Z.b2z s * 2 ^ 63.

(** NaN results are canonical: the code never inspects a payload. *)
Definition of_spec (x : spec_float) : f64 :=
  from_bits (match x with
  | S754_zero s => sign_bit s
  | S754_infinity s => sign_bit s + 2047 * 2 ^ 52
  | S754_nan => 2047 * 2 ^ 52 + 2 ^ 51
  | S754_finite s m e =>
      sign_bit s +
      (if 2 ^ 52 <=? Zpos m then (e + 1075) * 2 ^ 52 + (Zpos m - 2 ^ 52) else Zpos m)
  end `mod` W64).

Lemma of_spec_ok x : f64_ok (of_spec x).
Proof. apply Z.mod_pos_bound. done. Qed.
#[export] Hint Resolve of_spec_ok : core.

(** ** Operators and comparisons *)

Definition f64_add (x y : f64) : f64 := of_spec (SFadd 53 1024 (to_spec x) (to_spec y)).
Definition f64_sub (x y : f64) : f64 := of_spec (SFsub 53 1024 (to_spec x) (to_spec y)).
Definition f64_mul (x y : f64) : f64 := of_spec (SFmul 53 1024 (to_spec x) (to_spec y)).
Definition f64_div (x y : f64) : f64 := of_spec (SFdiv 53 1024 (to_spec x) (to_spec y)).
Definition f64_abs (x : f64) : f64 := from_bits (to_bits x `mod` 2 ^ 63).
Definition f64_lt (x y : f64) : bool := SFltb (to_spec x) (to_spec y).
Definition f64_le (x y : f64) : bool := SFleb (to_spec x) (to_spec y).
Definition f64_eq (x y : f64) : bool := SFeqb (to_spec x) (to_spec y).

(** [f64::max] and [f64::min] ignore a NaN operand. *)
Definition is_nan (x : f64) : bool := negb (is_finite x) && negb (f64_fraction x =? 0).
Definition f64_max (x y : f64) : f64 :=
  if is_nan x then y else if is_nan y then x else if f64_lt x y then y else x.
Definition f64_min (x y : f64) : f64 :=
  if is_nan x then y else if is_nan y then x else if f64_lt y x then y else x.

Definition f64_one : f64 := from_bits (1023 * 2 ^ 52).
Definition f64_half : f64 := from_bits (1022 * 2 ^ 52).

(** [std::f64::consts]. *)
Definition LN_2 : f64 := from_bits 0x3FE62E42FEFA39EF.
Definition TAU : f64 := from_bits 0x401921FB54442D18.

(** [f64::from] on integers. *)
Definition f64_of_Z (n : Z) : f64 := of_spec (binary_normalize 53 1024 n 0 false).

(** The transcendental functions, whose results Rust does not specify. *)
Class Libm : Set := {
  exp : f64 → f64;
  ln : f64 → f64;
  exp2 : f64 → f64;
  log2 : f64 → f64;
  ln_1p : f64 → f64;
  atan2 : f64 → f64 → f64;
  sin : f64 → f64;
  cos : f64 → f64;
  hypot : f64 → f64 → f64;
}.

(** An instance that is exact where the examples evaluate it. *)
Definition libm_example : Libm := {|
  exp := λ _, f64_one;
  ln := λ _, f64_zero;
  exp2 := λ x, if bool_decide (x = f64_one) then f64_of_Z 2 else f64_one;
  log2 := λ x, if bool_decide (x = f64_of_Z 2) then f64_one else f64_zero;
  ln_1p := λ _, f64_zero;
  atan2 := λ _ _, f64_zero;
  sin := λ _, f64_zero;
  cos := λ _, f64_one;
  hypot := λ x y, f64_add (f64_abs x) (f64_abs y);
|}.

(** ** Facts *)

Lemma f64_one_finite : is_finite f64_one = true.
Proof. reflexivity. Qed.
Lemma f64_one_ok : f64_ok f64_one.
Proof. split; done. Qed.
#[export] Hint Resolve f64_one_finite f64_one_ok : core.

Lemma f64_significand_nonneg v : f64_ok v → 0 ≤ f64_significand v.
Proof.
  intros Hv. destruct (f64_fields v Hv) as (_ & _ & ?). unfold f64_significand.
  case_match; lia.
Qed.

(** Comparison with zero on finite values is the sign of the value. *)
Lemma f64_le_zero v :
  f64_ok v → is_finite v = true → f64_le v f64_zero = true ↔ (f64_Q v <= 0)%Q.
Proof.
  intros Hv Hf. unfold is_finite in Hf. apply negb_true_iff in Hf.
  pose proof (f64_significand_nonneg v Hv).
  assert ((f64_Q v <= 0)%Q ↔
          (if f64_sign v then - f64_significand v else f64_significand v) ≤ 0) as ->.
  { unfold f64_Q, scaleQ, Qle. cbn [Qnum Qden]. rewrite Z.mul_1_r, Z.mul_0_l.
    pose proof (Z.pow_pos_nonneg 2 (Z.max (f64_power v) 0)). split; nia. }
  unfold f64_le, SFleb, SFcompare, to_spec. rewrite Hf.
  change (if f64_exponent f64_zero =? 2047 then _ else _) with (S754_zero false).
  destruct (f64_significand v) as [|m|m] eqn:Hm; [|destruct (f64_sign v); split; (done || lia)|lia].
  split; [|done]. intros _. by destruct (f64_sign v).
Qed.
