(* ===== verification/FloatInt.v ===== *)
(** * Integers as floats

    Conversions between binary64 and machine integers, and the exactness of additions
    and products of integers below [2 ^ 53]: what the indices computed by a program need.
    [is_int x n] says that the float [x] is the integer [n]. *)
From Stdlib Require Import SpecFloat.
From S2P Require Import Prelude Float FloatArith.
#[local] Open Scope Z_scope.

(** ** Conversions *)

(** The pattern of a positive integer of at most 53 bits. *)
Definition pattern_of (n : Z) : Z :=
  if n =? 0 then 0 else (nbits n - 1 + 1023) * 2 ^ 52 + (n * 2 ^ (53 - nbits n) - 2 ^ 52).

(** [f64::trunc]; from [2 ^ 52] on every value is integral. *)
Definition f64_trunc (x : f64) : f64 :=
  if negb (is_finite x) || (0 <=? f64_power x) then x else
  from_bits (sign_bit (f64_sign x) + pattern_of (f64_significand x / 2 ^ (- f64_power x))).

(** [f64::fract], which the library computes as a difference. *)
Definition f64_fract (x : f64) : f64 := f64_sub x (f64_trunc x).

(** [as u32]: truncation, saturating; NaN gives zero. *)
Definition f64_as_u32 (x : f64) : Z :=
  if is_nan x || f64_sign x then 0 else
  if negb (is_finite x) then 2 ^ 32 - 1 else
  Z.min (2 ^ 32 - 1) (if 0 <=? f64_power x then f64_significand x * 2 ^ f64_power x
                      else f64_significand x / 2 ^ (- f64_power x)).

(** ** Rounding of an exact value *)

Abbreviation fexp64 := (fexp 53 1024).

Lemma digits_nbits p : Zpos (digits2_pos p) = nbits (Zpos p).
Proof.
  induction p as [p IH|p IH|]; cbn [digits2_pos]; [| |done]; rewrite Pos2Z.inj_succ, IH.
  - symmetry. apply nbits_unique; [pose proof (nbits_nonneg (Zpos p)); lia|].
    pose proof (nbits_lower (Zpos p)). pose proof (nbits_spec (Zpos p)).
    rewrite Pos2Z.inj_xI. replace (Z.succ (nbits (Zpos p)) - 1) with (Z.succ (nbits (Zpos p) - 1)) by lia.
    pose proof (nbits_pos (Zpos p)). rewrite !Z.pow_succ_r by lia. lia.
  - rewrite Pos2Z.inj_xO. rewrite (Z.mul_comm 2). change 2 with (2 ^ 1). rewrite nbits_shiftl by lia. lia.
Qed.

Lemma iter_pos_nat {A} (f : A → A) p x : SpecFloat.iter_pos f p x = Nat.iter (Pos.to_nat p) f x.
Proof.
  revert x. induction p as [p IH|p IH|]; intros x; cbn [SpecFloat.iter_pos]; [| |done].
  - rewrite !IH, <-Nat.iter_add, Pos2Nat.inj_xI, Nat.iter_succ_r. f_equal. lia.
  - rewrite !IH, Pos2Nat.inj_xO, <-Nat.iter_add. f_equal. lia.
Qed.

Lemma shr_1_iter k n : 0 < k →
  Nat.iter n shr_1 (Build_shr_record (k * 2 ^ Z.of_nat n) false false) = Build_shr_record k false false.
Proof.
  intros Hk. induction n as [|n IH]; [by rewrite Z.mul_1_r|].
  rewrite Nat.iter_succ_r. rewrite Nat2Z.inj_succ, Z.pow_succ_r by lia.
  rewrite (Z.mul_assoc k), (Z.mul_comm k 2), <-Z.mul_assoc.
  assert (0 < k * 2 ^ Z.of_nat n) as Hpos by (apply Z.mul_pos_pos; lia).
  destruct (k * 2 ^ Z.of_nat n) as [|p|p]; [done| |done]. exact IH.
Qed.

Lemma shr_exact k e t : 0 < k → 0 ≤ t →
  shr (Build_shr_record (k * 2 ^ t) false false) e t = (Build_shr_record k false false, e + t).
Proof.
  intros Hk Ht. unfold shr. destruct t as [|p|p]; [by rewrite Z.mul_1_r, Z.add_0_r| |done].
  rewrite iter_pos_nat. f_equal. rewrite <-(positive_nat_Z p). by apply shr_1_iter.
Qed.

Lemma Zdigits_nbits n : 0 < n → Zdigits2 n = nbits n.
Proof. intros Hn. destruct n as [|p|p]; [done| |done]. apply digits_nbits. Qed.

Lemma round_aux_exact s k e t : 0 < k → 0 ≤ t → fexp64 (nbits k + (e + t)) = e + t → e + t ≤ 971 →
  binary_round_aux 53 1024 s (k * 2 ^ t) e loc_Exact = S754_finite s (Z.to_pos k) (e + t).
Proof.
  intros Hk Ht He Hmax. unfold binary_round_aux, shr_fexp, shr_record_of_loc.
  assert (0 < 2 ^ t) as Hpow by (apply Z.pow_pos_nonneg; lia).
  rewrite Zdigits_nbits by (by apply Z.mul_pos_pos). rewrite nbits_shiftl by done.
  replace (nbits k + t + e) with (nbits k + (e + t)) by lia. rewrite He.
  replace (e + t - e) with t by lia. rewrite shr_exact by done. cbn [shr_m loc_of_shr_record round_nearest_even].
  rewrite Zdigits_nbits, He, Z.sub_diag by done. cbn [shr shr_m]. destruct k as [|p|p]; [done| |done].
  change (1024 - 53) with 971. by rewrite (proj2 (Z.leb_le _ _) Hmax).
Qed.

Lemma iter_xO p d : Zpos (Pos.iter xO p d) = Zpos p * 2 ^ Zpos d.
Proof. change (Pos.iter xO p d) with (shift_pos d p). rewrite shift_pos_correct. change (Z.pow_pos 2 d) with (2 ^ Zpos d). lia. Qed.

(** A value that its own exponent represents is not rounded. *)
Lemma round_exact s m e k : 0 < k → let e' := fexp64 (nbits (Zpos m) + e) in e' ≤ 971 →
  Zpos m * 2 ^ Z.max (e - e') 0 = k * 2 ^ Z.max (e' - e) 0 →
  binary_round 53 1024 s m e = S754_finite s (Z.to_pos k) e'.
Proof.
  intros Hk e' Hmax Heq. unfold binary_round. rewrite digits_nbits. fold e'. unfold shl_align.
  destruct (Z.lt_ge_cases e' e) as [Hlt|Hge].
  - rewrite (Z.max_l (e - e')), (Z.max_r (e' - e)), Z.mul_1_r in Heq by lia.
    destruct (e' - e) as [|d|d] eqn:Ed; [lia..|]. rewrite iter_xO.
    replace (Zpos d) with (e - e') by lia. rewrite Heq.
    pose proof (round_aux_exact s k e' 0 Hk) as Haux. rewrite Z.mul_1_r, Z.add_0_r in Haux. apply Haux; [done| |done].
    rewrite <-Heq, nbits_shiftl by lia. unfold e' at 2. f_equal. lia.
  - rewrite (Z.max_r (e - e')), (Z.max_l (e' - e)), Z.mul_1_r in Heq by lia.
    assert ((match e' - e with Zneg d => (Pos.iter xO m d, e') | _ => (m, e) end) = (m, e)) as ->.
    { destruct (e' - e) eqn:Ed; [done|done|lia]. }
    rewrite Heq. replace e' with (e + (e' - e)) at 2 by lia. apply round_aux_exact; [done|lia| |lia].
    replace (e + (e' - e)) with e' by lia. unfold e' at 2. f_equal. rewrite Heq, nbits_shiftl by lia. lia.
Qed.

(** ** Patterns *)

Lemma f64_fields_range x : 0 ≤ f64_exponent x < 2048 ∧ 0 ≤ f64_fraction x < 2 ^ 52.
Proof. split; apply Z.mod_pos_bound; done. Qed.

(** The mantissas that a pattern can hold. *)
Definition held (k e : Z) : Prop :=
  2 ^ 52 ≤ k < 2 ^ 53 ∧ -1074 ≤ e ≤ 971 ∨ 0 < k < 2 ^ 52 ∧ e = -1074.

Lemma to_spec_finite x s m e : to_spec x = S754_finite s m e →
  is_finite x = true ∧ f64_sign x = s ∧ f64_significand x = Zpos m ∧ f64_power x = e ∧ held (Zpos m) e.
Proof.
  unfold to_spec, is_finite. destruct (Z.eqb_spec (f64_exponent x) 2047) as [E|E].
  { by destruct (f64_fraction x =? 0). }
  destruct (f64_significand x) as [|p|p] eqn:Em; try done. intros [= <- <- <-].
  split; [done|]. do 3 (split; [done|]). destruct (f64_fields_range x) as [He Hf]. rewrite <-Em.
  unfold held, f64_significand, f64_power in *. destruct (Z.eqb_spec (f64_exponent x) 0).
  - right. lia.
  - left. change (2 ^ 53) with (2 * 2 ^ 52). lia.
Qed.

Lemma to_spec_zero x s : to_spec x = S754_zero s →
  is_finite x = true ∧ f64_sign x = s ∧ f64_significand x = 0.
Proof.
  unfold to_spec, is_finite. destruct (Z.eqb_spec (f64_exponent x) 2047) as [E|E].
  { by destruct (f64_fraction x =? 0). }
  destruct (f64_fields_range x) as [He Hf].
  destruct (f64_significand x) as [|p|p] eqn:Em; try done; [by intros [= <-]|].
  unfold f64_significand in Em. destruct (f64_exponent x =? 0); lia.
Qed.

(** The fields of a pattern that is put together. *)
Lemma fields_of s e f : 0 ≤ e < 2048 → 0 ≤ f < 2 ^ 52 →
  let x := from_bits ((sign_bit s + (e * 2 ^ 52 + f)) `mod` W64) in
  f64_sign x = s ∧ f64_exponent x = e ∧ f64_fraction x = f.
Proof.
  intros He Hf x. unfold x, f64_sign, f64_exponent, f64_fraction, sign_bit. cbn [to_bits].
  change W64 with 18446744073709551616. change (2 ^ 52) with 4503599627370496 in *.
  change (2 ^ 63) with 9223372036854775808. change (2 ^ 11) with 2048.
  assert (0 ≤ Z.b2z s ≤ 1) by (destruct s; cbn; lia).
  rewrite Z.mod_small by lia. split; [|split].
  - rewrite Z.testbit_eqb by lia. change (2 ^ 63) with 9223372036854775808.
    destruct s; cbn [Z.b2z]; [apply Z.eqb_eq|apply Z.eqb_neq]; dlia.
  - destruct s; cbn [Z.b2z]; dlia.
  - destruct s; cbn [Z.b2z]; dlia.
Qed.

Lemma spec_roundtrip s m e : held (Zpos m) e → to_spec (of_spec (S754_finite s m e)) = S754_finite s m e.
Proof.
  intros Hh. unfold of_spec.
  assert (∃ ex f, 0 ≤ ex < 2047 ∧ 0 ≤ f < 2 ^ 52 ∧
    (if 2 ^ 52 <=? Zpos m then (e + 1075) * 2 ^ 52 + (Zpos m - 2 ^ 52) else Zpos m) = ex * 2 ^ 52 + f ∧
    (if ex =? 0 then f else 2 ^ 52 + f) = Zpos m ∧ (if ex =? 0 then -1074 else ex - 1075) = e)
    as (ex & f & Hex & Hf & -> & Hm & He).
  { destruct Hh as [[Hm He]|[Hm ->]].
    - exists (e + 1075), (Zpos m - 2 ^ 52). change (2 ^ 53) with (2 * 2 ^ 52) in Hm.
      rewrite (proj2 (Z.leb_le _ _)) by lia. destruct (Z.eqb_spec (e + 1075) 0); lia.
    - exists 0, (Zpos m). rewrite (proj2 (Z.leb_gt _ _)) by lia. cbn. lia. }
  destruct (fields_of s ex f) as (Hs & Hx & Hfr); [lia|done|]. set (x := from_bits _) in *. clearbody x.
  unfold to_spec. rewrite Hx. destruct (Z.eqb_spec ex 2047); [lia|].
  unfold f64_significand, f64_power. rewrite Hx, Hfr, Hs, Hm.
  replace (if ex =? 0 then -1074 else ex - 1075) with e. done.
Qed.

Lemma spec_roundtrip_zero s : to_spec (of_spec (S754_zero s)) = S754_zero s.
Proof. by destruct s. Qed.

(** ** Integers *)

(** The normal form of an integer. *)
Definition spec_int (n : Z) : spec_float := S754_finite false (Z.to_pos (n * 2 ^ (53 - nbits n))) (nbits n - 53).

Definition is_int (x : f64) (n : Z) : Prop :=
  n = 0 ∧ (∃ s, to_spec x = S754_zero s) ∨ 0 < n < 2 ^ 53 ∧ to_spec x = spec_int n.

Lemma nbits_small n : 0 < n < 2 ^ 53 → 1 ≤ nbits n ≤ 53.
Proof.
  intros Hn. pose proof (nbits_pos n ltac:(lia)). split; [lia|]. apply nbits_le_iff; lia.
Qed.

Lemma int_mantissa n : 0 < n < 2 ^ 53 → 2 ^ 52 ≤ n * 2 ^ (53 - nbits n) < 2 ^ 53.
Proof.
  intros Hn. pose proof (nbits_small n Hn) as Hb.
  pose proof (nbits_shiftl n (53 - nbits n) ltac:(lia) ltac:(lia)) as Hbits.
  replace (nbits n + (53 - nbits n)) with 53 in Hbits by lia.
  set (k := n * 2 ^ (53 - nbits n)) in *.
  assert (0 < k) by (apply Z.mul_pos_pos; [lia|apply Z.pow_pos_nonneg; lia]).
  pose proof (nbits_lower k ltac:(lia)) as Hlow. pose proof (nbits_spec k ltac:(lia)) as Hup.
  rewrite Hbits in Hlow, Hup. done.
Qed.

Lemma spec_int_roundtrip n : 0 < n < 2 ^ 53 → to_spec (of_spec (spec_int n)) = spec_int n.
Proof.
  intros Hn. pose proof (int_mantissa n Hn). pose proof (nbits_small n Hn). apply spec_roundtrip. left.
  rewrite Z2Pos.id by lia. lia.
Qed.

Lemma fexp_int n : 0 < n < 2 ^ 53 → fexp64 (nbits n) = nbits n - 53.
Proof. intros Hn. pose proof (nbits_small n Hn). unfold fexp, emin. lia. Qed.

(** An integer over any nonpositive power of two. *)
Lemma normalize_int n e z : 0 < n < 2 ^ 53 → e ≤ 0 → binary_normalize 53 1024 (n * 2 ^ (- e)) e z = spec_int n.
Proof.
  intros Hn He. assert (0 < n * 2 ^ (- e)) as Hpos by (apply Z.mul_pos_pos; [lia|apply Z.pow_pos_nonneg; lia]).
  pose proof (nbits_small n Hn) as Hb. pose proof (int_mantissa n Hn).
  destruct (n * 2 ^ (- e)) as [|m|m] eqn:Em; [done| |done]. cbn [binary_normalize].
  assert (fexp64 (nbits (Zpos m) + e) = nbits n - 53) as Ef.
  { rewrite <-Em, nbits_shiftl by lia. replace (nbits n + - e + e) with (nbits n) by lia. by apply fexp_int. }
  rewrite (round_exact false m e (n * 2 ^ (53 - nbits n))); rewrite ?Ef; [done|lia|lia|].
  rewrite <-Em, <-!Z.mul_assoc, <-!Z.pow_add_r by lia. do 2 f_equal. lia.
Qed.

Lemma is_int_of_Z n : 0 ≤ n < 2 ^ 53 → is_int (f64_of_Z n) n.
Proof.
  intros Hn. unfold f64_of_Z. destruct (decide (n = 0)) as [->|Hne]; [left; split; [done|by exists false]|].
  right. split; [lia|]. pose proof (normalize_int n 0 false ltac:(lia) ltac:(lia)) as E.
  rewrite Z.mul_1_r in E. rewrite E. apply spec_int_roundtrip. lia.
Qed.

(** *** Operations *)

Lemma shl_align_int n ez : 0 < n < 2 ^ 53 → ez ≤ nbits n - 53 →
  Zpos (fst (shl_align (Z.to_pos (n * 2 ^ (53 - nbits n))) (nbits n - 53) ez)) = n * 2 ^ (- ez).
Proof.
  intros Hn He. pose proof (int_mantissa n Hn). pose proof (nbits_small n Hn). unfold shl_align.
  destruct (ez - (nbits n - 53)) as [|d|d] eqn:Ed; [|lia|].
  - cbn [fst]. rewrite Z2Pos.id by lia. do 2 f_equal. lia.
  - cbn [fst]. rewrite iter_xO, Z2Pos.id by lia. rewrite <-Z.mul_assoc, <-Z.pow_add_r by lia. do 2 f_equal. lia.
Qed.

Lemma add_int x y n m : is_int x n → is_int y m → n + m < 2 ^ 53 → is_int (f64_add x y) (n + m).
Proof.
  intros [[-> [s Hx]]|[Hn Hx]] [[-> [s' Hy]]|[Hm Hy]] Hlt; unfold f64_add; rewrite Hx, Hy.
  - left. split; [done|]. cbn [SFadd]. exists (s && s'). by destruct s, s'.
  - right. rewrite Z.add_0_l. split; [lia|]. cbn [SFadd spec_int]. by apply spec_int_roundtrip.
  - right. rewrite Z.add_0_r. split; [lia|]. cbn [SFadd spec_int]. by apply spec_int_roundtrip.
  - right. split; [lia|]. cbn [SFadd spec_int cond_Zopp]. rewrite !shl_align_int by lia.
    rewrite <-Z.mul_add_distr_r. pose proof (nbits_small n Hn). pose proof (nbits_small m Hm).
    rewrite normalize_int by lia. apply spec_int_roundtrip. lia.
Qed.

Lemma mul_int x y n m : is_int x n → is_int y m → n * m < 2 ^ 53 → is_int (f64_mul x y) (n * m).
Proof.
  intros [[-> [s Hx]]|[Hn Hx]] [[-> [s' Hy]]|[Hm Hy]] Hlt; unfold f64_mul; rewrite Hx, Hy;
    try (left; split; [lia|]; cbn [SFmul spec_int]; eexists; apply spec_roundtrip_zero).
  right. assert (0 < n * m < 2 ^ 53) as Hnm by (split; [by apply Z.mul_pos_pos; lia|done]). split; [done|].
  cbn [SFmul spec_int xorb]. pose proof (int_mantissa n Hn). pose proof (int_mantissa m Hm).
  pose proof (nbits_small n Hn). pose proof (nbits_small m Hm). pose proof (nbits_small _ Hnm) as Hb.
  rewrite Pos2Z.inj_mul, !Z2Pos.id by lia.
  assert (nbits (n * m) ≤ nbits n + nbits m ∧ nbits n ≤ nbits (n * m)) as [Hb1 Hb2].
  { split; [|apply nbits_mono; nia]. apply nbits_le_iff; [lia..|].
    rewrite Z.pow_add_r by lia. pose proof (nbits_spec n). pose proof (nbits_spec m). nia. }
  pose proof (round_aux_exact false (n * m * 2 ^ (53 - nbits (n * m))) (nbits n - 53 + (nbits m - 53))
    (nbits (n * m) - 53 - (nbits n - 53 + (nbits m - 53)))) as Haux.
  replace (nbits n - 53 + (nbits m - 53) + _) with (nbits (n * m) - 53) in Haux by lia.
  replace (n * 2 ^ (53 - nbits n) * (m * 2 ^ (53 - nbits m))) with
    (n * m * 2 ^ (53 - nbits (n * m)) * 2 ^ (nbits (n * m) - 53 - (nbits n - 53 + (nbits m - 53)))).
  - rewrite Haux; [by apply spec_int_roundtrip|apply Z.mul_pos_pos; [lia|apply Z.pow_pos_nonneg; lia]|lia| |lia].
    rewrite nbits_shiftl by lia. transitivity (fexp64 (nbits (n * m))); [f_equal; lia|by apply fexp_int].
  - transitivity (n * m * (2 ^ (53 - nbits n) * 2 ^ (53 - nbits m))); [|lia].
    rewrite <-Z.mul_assoc, <-!Z.pow_add_r by lia. do 2 f_equal. lia.
Qed.

Lemma as_u32_int x n : is_int x n → n < 2 ^ 32 → f64_as_u32 x = n.
Proof.
  intros [[-> [s Hx]]|[Hn Hx]] Hlt; unfold f64_as_u32, is_nan.
  - apply to_spec_zero in Hx as (-> & -> & ->). destruct s; cbn; [done|].
    rewrite Z.mul_0_l, Zdiv_0_l. by destruct (0 <=? f64_power x).
  - unfold spec_int in Hx. apply to_spec_finite in Hx as (-> & -> & -> & -> & _). cbn [negb andb orb].
    pose proof (int_mantissa n Hn). pose proof (nbits_small n Hn). rewrite Z2Pos.id by lia.
    assert ((if 0 <=? nbits n - 53 then n * 2 ^ (53 - nbits n) * 2 ^ (nbits n - 53)
      else n * 2 ^ (53 - nbits n) / 2 ^ (- (nbits n - 53))) = n) as ->; [|lia].
    destruct (Z.leb_spec 0 (nbits n - 53)).
    + replace (nbits n) with 53 by lia. rewrite Z.sub_diag. lia.
    + replace (- (nbits n - 53)) with (53 - nbits n) by lia. apply Z.div_mul.
      pose proof (Z.pow_pos_nonneg 2 (53 - nbits n)). lia.
Qed.

(** ** Fractions *)

Lemma pattern_spec n : 0 < n ≤ 2 ^ 52 → to_spec (from_bits (sign_bit false + pattern_of n)) = spec_int n.
Proof.
  intros Hn. assert (0 < n < 2 ^ 53) as Hn' by (change (2 ^ 53) with (2 * 2 ^ 52); lia).
  rewrite <-(spec_int_roundtrip n) by done. do 2 f_equal. unfold of_spec, spec_int.
  pose proof (int_mantissa n Hn'). pose proof (nbits_small n Hn'). rewrite Z2Pos.id by lia.
  rewrite (proj2 (Z.leb_le _ _)) by lia. unfold pattern_of. rewrite (proj2 (Z.eqb_neq n 0)) by lia.
  rewrite Z.mod_small; [do 3 f_equal; lia|]. change W64 with (4096 * 2 ^ 52). change (sign_bit false) with 0.
  change (2 ^ 53) with (2 * 2 ^ 52) in *. nia.
Qed.

(** A difference of nonnegative mantissas at one exponent is not lost. *)
Lemma normalize_nonzero M e z : 0 < M < 2 ^ 53 → -1074 ≤ e ≤ 0 →
  f64_eq (of_spec (binary_normalize 53 1024 M e z)) f64_zero = false.
Proof.
  intros HM He. destruct M as [|m|m]; [lia| |lia]. cbn [binary_normalize].
  pose proof (nbits_small _ HM) as Hb. pose proof (int_mantissa _ HM) as Hk.
  set (e' := fexp64 (nbits (Zpos m) + e)). assert (e' ≤ e ∧ -1074 ≤ e') as [He1 He2] by (unfold e', fexp, emin; lia).
  rewrite (round_exact false m e (Zpos m * 2 ^ (e - e'))); fold e'.
  - assert (held (Zpos m * 2 ^ (e - e')) e') as Hh.
    { assert (nbits (Zpos m * 2 ^ (e - e')) = nbits (Zpos m) + (e - e')) as En by (apply nbits_shiftl; lia).
      assert (0 < Zpos m * 2 ^ (e - e')) by (apply Z.mul_pos_pos; [lia|apply Z.pow_pos_nonneg; lia]).
      unfold held. destruct (Z.le_gt_cases (-1074) (nbits (Zpos m) + e - 53)) as [Hn|Hn].
      - left. split; [|unfold e', fexp, emin in *; lia].
        replace (e - e') with (53 - nbits (Zpos m)) by (unfold e', fexp, emin; lia). done.
      - right. split; [|unfold e', fexp, emin; lia]. split; [done|].
        pose proof (nbits_spec (Zpos m * 2 ^ (e - e')) ltac:(lia)) as Hs. rewrite En in Hs.
        eapply Z.lt_le_trans; [exact Hs|]. apply Z.pow_le_mono_r; [lia|]. unfold e', fexp, emin; lia. }
    unfold f64_eq, SFeqb. rewrite spec_roundtrip by (rewrite Z2Pos.id by (destruct Hh; lia); done). done.
  - apply Z.mul_pos_pos; [lia|apply Z.pow_pos_nonneg; lia].
  - unfold e', fexp, emin in *; lia.
  - rewrite Z.max_l, Z.max_r by lia. lia.
Qed.

Definition u32_max : f64 := f64_of_Z (2 ^ 32 - 1).

Lemma u32_max_spec : to_spec u32_max = S754_finite false 9007199252643840 (-21).
Proof. reflexivity. Qed.

(** A float that passes the tests of an index. *)
Definition index_like (x : f64) : Prop :=
  is_finite x = true ∧ f64_le f64_zero x = true ∧ f64_le x u32_max = true ∧ f64_eq (f64_fract x) f64_zero = true.

(** The whole part of a small normal float. *)
Lemma whole_part m e : held (Zpos m) e → e ≤ -21 → let q := Zpos m / 2 ^ (- e) in 0 < q →
  0 < q < 2 ^ 52 ∧ nbits q - 53 = e.
Proof.
  intros Hh He q Hq. assert (0 < 2 ^ (- e)) as Hp by (apply Z.pow_pos_nonneg; lia).
  assert (Zpos m < 2 ^ 53) as Hm by (change (2 ^ 53) with (2 * 2 ^ 52) in *; destruct Hh as [[? _]|[? _]]; lia).
  assert (q * 2 ^ (- e) ≤ Zpos m < (q + 1) * 2 ^ (- e)) as Hqm.
  { unfold q. pose proof (Z.div_mod (Zpos m) (2 ^ (- e)) ltac:(lia)). pose proof (Z.mod_pos_bound (Zpos m) (2 ^ (- e)) Hp). nia. }
  assert (- e < 53) as He2.
  { apply (Z.pow_lt_mono_r_iff 2); [lia|lia|]. nia. }
  destruct Hh as [[Hn _]|[_ ->]]; [|lia].
  assert (2 ^ 52 = 2 ^ (52 + e) * 2 ^ (- e)) as E52 by (rewrite <-Z.pow_add_r by lia; f_equal; lia).
  assert (2 ^ 53 = 2 ^ (53 + e) * 2 ^ (- e)) as E53 by (rewrite <-Z.pow_add_r by lia; f_equal; lia).
  assert (nbits q = 53 + e) as Eb.
  { apply nbits_unique; [lia|]. replace (53 + e - 1) with (52 + e) by lia. nia. }
  split; [|lia]. split; [done|]. pose proof (nbits_spec q ltac:(lia)). rewrite Eb in *.
  eapply Z.lt_le_trans; [done|]. apply Z.pow_le_mono_r; lia.
Qed.

Lemma shl_align_same m e : shl_align m e e = (m, e).
Proof. unfold shl_align. by rewrite Z.sub_diag. Qed.

Lemma f64_le_zero_sign x s m e : to_spec x = S754_finite s m e → f64_le f64_zero x = true → s = false.
Proof. intros Hx. unfold f64_le. rewrite Hx. by destruct s. Qed.

Lemma u32_max_exponent x m e : to_spec x = S754_finite false m e → f64_le x u32_max = true → e ≤ -21.
Proof.
  intros Hx. unfold f64_le. rewrite Hx, u32_max_spec. unfold SFleb, SFcompare.
  destruct (Z.compare_spec e (-21)); [lia|lia|done].
Qed.

(** A float that passes the tests is an integer. *)
Lemma index_like_int x : index_like x → ∃ n, is_int x n ∧ n < 2 ^ 32.
Proof.
  intros (Hf & H0 & Hmax & Hfr). destruct (to_spec x) as [s|s| |s m e] eqn:Hx.
  - exists 0. split; [|done]. left. split; [done|by exists s].
  - unfold f64_le in *. rewrite Hx in *. destruct s; [by rewrite u32_max_spec in Hmax|done].
  - unfold f64_le in *. by rewrite Hx in *.
  - rewrite (f64_le_zero_sign _ _ _ _ Hx H0) in Hx. pose proof (u32_max_exponent _ _ _ Hx Hmax) as He.
    pose proof Hx as (_ & Hs & Hm & Hpw & Hh)%to_spec_finite.
    set (q := Zpos m / 2 ^ (- e)). assert (0 ≤ q) as Hq0 by (apply Z.div_pos; [lia|apply Z.pow_pos_nonneg; lia]).
    unfold f64_fract, f64_trunc in Hfr. rewrite Hf, Hs, Hm, Hpw in Hfr. cbn [negb orb] in Hfr.
    destruct (Z.leb_spec 0 e); [lia|]. fold q in Hfr. unfold f64_sub in Hfr. rewrite Hx in Hfr.
    destruct (decide (q = 0)) as [Eq|Hne].
    { rewrite Eq in Hfr. cbn [pattern_of Z.eqb] in Hfr. change (to_spec _) with (S754_zero false) in Hfr at 1.
      cbn [SFsub] in Hfr. unfold f64_eq in Hfr. by rewrite spec_roundtrip in Hfr. }
    destruct (whole_part m e Hh He) as [Hq Hb]; [fold q; lia|]. fold q in Hq, Hb.
    assert (0 < q < 2 ^ 53) as Hq' by (change (2 ^ 53) with (2 * 2 ^ 52); lia).
    rewrite pattern_spec in Hfr by lia. cbn [SFsub spec_int cond_Zopp] in Hfr. rewrite Hb, Z.min_id, !shl_align_same in Hfr.
    cbn [fst] in Hfr. pose proof (int_mantissa q Hq'). rewrite Z2Pos.id in Hfr by lia.
    replace (53 - nbits q) with (- e) in Hfr by lia.
    pose proof (Z.div_mod (Zpos m) (2 ^ (- e))) as Hdm. pose proof (Z.mod_pos_bound (Zpos m) (2 ^ (- e))) as Hmod.
    fold q in Hdm. assert (0 < 2 ^ (- e)) as Hp by (apply Z.pow_pos_nonneg; lia).
    assert (Zpos m < 2 ^ 53) by (change (2 ^ 53) with (2 * 2 ^ 52) in *; destruct Hh as [[? _]|[? _]]; lia).
    exists q. split; [right; split; [done|]|].
    + destruct (decide (Zpos m - q * 2 ^ (- e) = 0)) as [Er|Hr].
      * rewrite Hx. unfold spec_int. rewrite Hb. do 2 f_equal. replace (53 - nbits q) with (- e) by lia. lia.
      * rewrite normalize_nonzero in Hfr; [done|nia|]. destruct Hh as [[_ ?]|[? ->]]; lia.
    + assert (nbits q ≤ 32) as H32 by lia. apply nbits_le_iff in H32; lia.
Qed.

Lemma leb_finite m e m' e' : e < e' ∨ e = e' ∧ Zpos m ≤ Zpos m' →
  SFleb (S754_finite false m e) (S754_finite false m' e') = true.
Proof.
  intros Hle. unfold SFleb, SFcompare. destruct (Z.compare_spec e e'); [|done|lia].
  change (Pos.compare_cont Eq m m') with (m ?= m')%positive. destruct (Pos.compare_spec m m'); [done|done|lia].
Qed.

(** An integer of 32 bits passes them. *)
Lemma int_index_like x n : is_int x n → 0 ≤ n < 2 ^ 32 → index_like x.
Proof.
  intros [[-> [s Hx]]|[Hn Hx]] Hlt.
  - pose proof Hx as (Hf & Hs & Hm)%to_spec_zero. split; [done|]. unfold f64_le, f64_fract, f64_trunc, f64_sub, f64_eq.
    rewrite Hf, Hx, Hs, Hm. split; [done|]. split; [done|]. cbn [negb orb].
    destruct (0 <=? f64_power x); [rewrite Hx; by destruct s|]. rewrite Zdiv_0_l. by destruct s.
  - unfold index_like. pose proof (int_mantissa n Hn). pose proof (nbits_small n Hn).
    assert (nbits n ≤ 32) by (apply nbits_le_iff; lia).
    pose proof Hx as (Hf & Hs & Hm & Hp & _)%to_spec_finite. split; [done|].
    unfold f64_le. rewrite Hx, u32_max_spec. split; [done|]. split.
    { apply leb_finite. destruct (decide (nbits n = 32)) as [E|]; [right|lia]. rewrite E in *.
      split; [done|]. rewrite Z2Pos.id by lia. change (2 ^ (53 - 32)) with 2097152 in *. change (2 ^ 32) with 4294967296 in *. lia. }
    unfold f64_fract, f64_trunc. rewrite Hf, Hs, Hm, Hp. cbn [negb orb]. destruct (Z.leb_spec 0 (nbits n - 53)); [lia|].
    rewrite Z2Pos.id by lia. replace (- (nbits n - 53)) with (53 - nbits n) by lia.
    rewrite Z.div_mul by (pose proof (Z.pow_pos_nonneg 2 (53 - nbits n)); lia).
    unfold f64_sub. rewrite pattern_spec, Hx by lia. cbn [SFsub spec_int cond_Zopp].
    rewrite Z.min_id, shl_align_same. cbn [fst]. by rewrite Z.sub_diag.
Qed.

Lemma is_int_inj x n m : is_int x n → is_int x m → n < 2 ^ 32 → m < 2 ^ 32 → n = m.
Proof. intros Hn Hm Hln Hlm. by rewrite <-(as_u32_int x n Hn Hln), <-(as_u32_int x m Hm Hlm). Qed.

Lemma is_int_nonneg x n : is_int x n → 0 ≤ n.
Proof. intros [[-> _]|[? _]]; lia. Qed.

(** *** Comparisons *)

Lemma SFcompare_opp x y : SFcompare y x = option_map CompOpp (SFcompare x y).
Proof.
  assert (∀ m m', Pos.compare_cont Eq m' m = CompOpp (Pos.compare_cont Eq m m')) as Hpos.
  { intros m m'. exact (Pos.compare_antisym m m'). }
  destruct x as [[]|[]| |[] m e], y as [[]|[]| |[] m' e']; try done; unfold SFcompare, option_map; f_equal;
    rewrite (Z.compare_antisym e e'), (Hpos m m'); by destruct (e ?= e'), (Pos.compare_cont Eq m m').
Qed.

Lemma f64_lt_le x y : is_nan x = false → is_nan y = false → f64_lt x y = negb (f64_le y x).
Proof.
  assert (∀ x, is_nan x = false → to_spec x ≠ S754_nan) as Hn.
  { intros z Hz. unfold is_nan, is_finite, to_spec in *. destruct (f64_exponent z =? 2047); cbn in Hz.
    - destruct (f64_fraction z =? 0); [by destruct (f64_sign z)|done].
    - by destruct (f64_significand z). }
  intros Hx%Hn Hy%Hn. unfold f64_lt, f64_le, SFltb, SFleb. rewrite (SFcompare_opp (to_spec x) (to_spec y)).
  destruct (SFcompare (to_spec x) (to_spec y)) as [[]|] eqn:E; try done.
  exfalso. revert Hx Hy E. destruct (to_spec x) as [[]|[]| |[] ? ?], (to_spec y) as [[]|[]| |[] ? ?]; done.
Qed.

Lemma finite_not_nan x : is_finite x = true → is_nan x = false.
Proof. unfold is_nan. by intros ->. Qed.
