(* ===== verification/Symbolic.v ===== *)
(** * symbolic.rs: open terms, binding and real evaluation

    Open terms with named variables, partial substitution, collapse to closed
    terms, and the checked binary64 evaluation of closed terms, both by recursion
    on the term and by the stack machine of [Bml::to_f64] on the packed code. *)

From Stdlib Require Import QArith.
From S2P Require Import Prelude Words Terms Encoding Float FloatArith.
#[local] Open Scope Z_scope.

(** ** Data *)

Inductive OpenTerm : Type :=
  | Closed (term : ClosedTerm)
  | Var (name : string)
  | OpenOp (l r : OpenTerm).

Record UnboundVariable : Type := mkUnboundVariable { unbound_name : string }.

Inductive Basis : Set := Eml | BmlBasis.

Inductive EvalError : Set :=
  | NonFiniteInput
  | LogDomain (value : f64)
  | EvalOverflow
  | EvalUnderflow.

#[global] Instance OpenTerm_eq_dec : EqDecision OpenTerm.
Proof. solve_decision. Defined.
#[global] Instance UnboundVariable_eq_dec : EqDecision UnboundVariable.
Proof. solve_decision. Defined.
#[global] Instance Basis_eq_dec : EqDecision Basis.
Proof. solve_decision. Defined.
#[global] Instance EvalError_eq_dec : EqDecision EvalError.
Proof. solve_decision. Defined.

(** ** Open terms *)

Module Open.
Fixpoint bind (self : OpenTerm) (env : gmap string ClosedTerm) : OpenTerm :=
  match self with
  | Closed term => Closed term
  | Var name => default (Var name) (Closed <$> env !! name)
  | OpenOp l r => OpenOp (bind l env) (bind r env)
  end.

Fixpoint nodes (t : OpenTerm) : nat :=
  match t with OpenOp l r => S (nodes l + nodes r) | _ => 1%nat end.

(** The worklist of [free_variables]; each round removes one node, so the number
    of nodes is enough fuel. *)
Fixpoint free_loop (fuel : nat) (pending : list OpenTerm) (names : gset string) : gset string :=
  match fuel, pending with
  | S fuel, term :: pending =>
      match term with
      | Closed _ => free_loop fuel pending names
      | Var name => free_loop fuel pending ({[name]} ∪ names)
      | OpenOp l r => free_loop fuel (l :: r :: pending) names
      end
  | _, _ => names
  end.

Definition free_variables (self : OpenTerm) : gset string := free_loop (nodes self) [self] ∅.

Fixpoint collapse (self : OpenTerm) : Result UnboundVariable ClosedTerm :=
  match self with
  | Closed term => Ok term
  | Var name => Err (mkUnboundVariable name)
  | OpenOp l r => l ← collapse l; r ← collapse r; Ok (Op l r)
  end.
End Open.

(** ** Evaluation *)

Section evaluation.
Context `{Libm}.

Definition apply_real (self : Basis) (x y : f64) : Result EvalError f64 :=
  if negb (is_finite x) || negb (is_finite y) then Err NonFiniteInput
  else if f64_le y f64_zero then Err (LogDomain y)
  else
    let '(exp, log) :=
      match self with
      | Eml => (exp x, ln y)
      | BmlBasis => (exp2 x, log2 y)
      end in
    if negb (is_finite exp) then Err EvalOverflow
    else if f64_eq exp f64_zero then Err EvalUnderflow
    else
      let result := f64_sub exp log in
      if is_finite result then Ok result else Err EvalOverflow.

Fixpoint evaluate_real (self : ClosedTerm) (basis : Basis) : Result EvalError f64 :=
  match self with
  | One => Ok f64_one
  | Op l r =>
      x ← evaluate_real l basis; y ← evaluate_real r basis; apply_real basis x y
  end.

(** One bit of [Bml::to_f64]'s loop. [Err None] stands for the panic of an
    [expect] on an empty stack. *)
Definition eval_bit (set : bool) (stack : list f64) : Result (option EvalError) (list f64) :=
  if set then
    match stack with
    | x :: y :: stack =>
        v ← map_err Some (apply_real BmlBasis x y); Ok (v :: stack)
    | _ => Err None
    end
  else Ok (f64_one :: stack).

(** [stack[0]] is the bottom of the stack. *)
Definition to_f64 (b : Bml) : Result (option EvalError) f64 :=
  stack ← for_each (λ index stack, eval_bit (bit b index) stack) (seqZ 0 (bit_len b)) [];
  ok_or None (last stack).
End evaluation.

(** ** Substitution *)

(** Names in the order in which they occur, and the closed instance of a term. *)
Fixpoint variables (t : OpenTerm) : list string :=
  match t with
  | Closed _ => []
  | Var name => [name]
  | OpenOp l r => variables l ++ variables r
  end.

Fixpoint instantiate (env : gmap string ClosedTerm) (t : OpenTerm) : option ClosedTerm :=
  match t with
  | Closed term => Some term
  | Var name => env !! name
  | OpenOp l r =>
      l ← instantiate env l; r ← instantiate env r; Some (Op l r)
  end.

Lemma free_loop_spec fuel pending names x :
  (sum_list_with Open.nodes pending ≤ fuel)%nat →
  x ∈ Open.free_loop fuel pending names ↔ x ∈ mjoin (variables <$> pending) ∨ x ∈ names.
Proof.
  revert pending names. induction fuel as [|fuel IH]; intros [|[t|y|l r] pending] names Hf; cbn in Hf;
    try lia; cbn [Open.free_loop fmap list_fmap mjoin list_join variables].
  - rewrite elem_of_nil. tauto.
  - rewrite elem_of_nil. tauto.
  - by rewrite IH by lia.
  - rewrite IH, elem_of_app, list_elem_of_singleton, elem_of_union, elem_of_singleton by lia. tauto.
  - rewrite IH by (cbn; lia). cbn. by rewrite (assoc_L (++)).
Qed.

Lemma free_variables_spec t x : x ∈ Open.free_variables t ↔ x ∈ variables t.
Proof.
  unfold Open.free_variables. rewrite free_loop_spec by (cbn; lia). cbn.
  rewrite app_nil_r, elem_of_empty. tauto.
Qed.

Lemma variables_bind env t :
  variables (Open.bind t env) = filter (λ x, env !! x = None) (variables t).
Proof.
  induction t as [t|x|l IHl r IHr]; cbn [variables Open.bind]; [done| |by rewrite filter_app, IHl, IHr].
  rewrite filter_cons, filter_nil. by destruct (env !! x) eqn:E.
Qed.

Lemma bind_bind t e1 e2 : Open.bind (Open.bind t e1) e2 = Open.bind t (e1 ∪ e2).
Proof.
  induction t as [t|x|l IHl r IHr]; cbn; [done| |by rewrite IHl, IHr].
  rewrite lookup_union. destruct (e1 !! x), (e2 !! x) eqn:E; cbn; rewrite ?E; done.
Qed.

Lemma collapse_spec t :
  Open.collapse t =
  match variables t with
  | [] => ok_or (mkUnboundVariable "") (instantiate ∅ t)
  | x :: _ => Err (mkUnboundVariable x)
  end.
Proof.
  induction t as [t|x|l IHl r IHr]; cbn; [done..|]. rewrite IHl, IHr.
  assert (∀ u, variables u = [] → is_Some (instantiate ∅ u)) as Hs.
  { clear. induction u as [u|x|l IHl r IHr]; cbn; [by eauto|done|].
    intros [[a ->]%IHl [b ->]%IHr]%app_eq_nil. by eexists. }
  destruct (variables l) as [|x xs] eqn:El; cbn; [|done].
  destruct (Hs l El) as [a ->]. cbn. destruct (variables r) as [|y ys] eqn:Er; cbn; [|done].
  by destruct (Hs r Er) as [b ->].
Qed.

Lemma instantiate_bind env t : instantiate ∅ (Open.bind t env) = instantiate env t.
Proof.
  induction t as [t|x|l IHl r IHr]; cbn; [done| |by rewrite IHl, IHr].
  by destruct (env !! x).
Qed.

(** ** The stack machine *)

Section stack.
Context `{Libm}.

(** Evaluation in the order of the stack machine, which reads the code from its
    low end and so meets the right operand first. *)
Fixpoint evaluate_right (t : ClosedTerm) : Result EvalError f64 :=
  match t with
  | One => Ok f64_one
  | Op l r => y ← evaluate_right r; x ← evaluate_right l; apply_real BmlBasis x y
  end.

Lemma apply_real_finite basis x y v : apply_real basis x y = Ok v → is_finite v = true.
Proof.
  unfold apply_real. intros Hv. destruct basis; cbn in Hv;
    repeat (case_match; try discriminate); by injection Hv as <-.
Qed.

Lemma evaluate_right_finite t v : evaluate_right t = Ok v → is_finite v = true.
Proof. destruct t; cbn; intros Hv; inv_ok; subst; [done|by eapply apply_real_finite]. Qed.

(** Both orders compute the same values; only the error reported first differs. *)
Lemma evaluate_right_Ok t v : evaluate_right t = Ok v ↔ evaluate_real t BmlBasis = Ok v.
Proof.
  revert v. induction t as [|l IHl r IHr]; intros v; cbn; [done|]. rewrite !bind_ok. split.
  - intros (y & Hy & (x & Hx & Hv)%bind_ok). exists x. rewrite <- IHl. split; [done|].
    apply bind_ok. exists y. by rewrite <- IHr.
  - intros (x & Hx & (y & Hy & Hv)%bind_ok). exists y. rewrite IHr. split; [done|].
    apply bind_ok. exists x. by rewrite IHl.
Qed.

Lemma eval_bits_tree t rest stack :
  for_each eval_bit (reverse (tree_bits t) ++ rest) stack =
  (v ← map_err Some (evaluate_right t); for_each eval_bit rest (v :: stack)).
Proof.
  revert rest stack. induction t as [|l IHl r IHr]; intros rest stack; [done|].
  cbn [tree_bits evaluate_right]. rewrite reverse_cons, reverse_app, <- !(assoc_L (++)), IHr.
  destruct (evaluate_right r) as [y|e]; cbn [mbind Result_bind map_err]; [|done].
  rewrite IHl. destruct (evaluate_right l) as [x|e]; cbn [mbind Result_bind map_err]; [|done].
  cbn. by destruct (apply_real BmlBasis x y).
Qed.

Lemma to_f64_right b t : Represents b t → to_f64 b = map_err Some (evaluate_right t).
Proof.
  intros Hr. unfold to_f64. rewrite (for_each_fmap eval_bit), (Represents_bits_up b t) by done.
  rewrite <- (app_nil_r (reverse _)), eval_bits_tree. by destruct (evaluate_right t).
Qed.

(** The stack machine of [to_f64] on the packed code implements the recursive
    evaluator whatever the platform's functions return: they succeed together,
    with the same value, which is finite; no [expect] of the machine can fail; and
    the machine's error is the recursive evaluator's, or the one of a right operand
    met before a failing left one. *)
Theorem to_f64_evaluates b t :
  Represents b t →
  match to_f64 b with
  | Ok v => evaluate_real t BmlBasis = Ok v ∧ is_finite v = true
  | Err e => ∃ e1 e2, e = Some e1 ∧ evaluate_real t BmlBasis = Err e2
  end ∧
  (∀ l r, t = Op l r → is_ok (evaluate_real l BmlBasis) = true ∧ is_ok (evaluate_real r BmlBasis) = true →
     to_f64 b = map_err Some (evaluate_real t BmlBasis)).
Proof.
  intros Hr. rewrite (to_f64_right b t) by done. split.
  - destruct (evaluate_right t) as [v|e] eqn:E; cbn.
    + split; [by apply evaluate_right_Ok|by eapply evaluate_right_finite].
    + exists e. destruct (evaluate_real t BmlBasis) as [v|e2] eqn:E2; [|by exists e2].
      apply evaluate_right_Ok in E2. congruence.
  - intros l r -> [Hl Hr']. cbn.
    destruct (evaluate_real l BmlBasis) as [x|] eqn:El; [|done].
    destruct (evaluate_real r BmlBasis) as [y|] eqn:Er; [|done].
    apply evaluate_right_Ok in El, Er. by rewrite El, Er.
Qed.

(** One application checks everything before it answers: it returns only finite
    values, it refuses exactly the non-finite operands and then the arguments that
    are not positive reals, and it never reports a domain error for a positive
    argument. *)
Theorem apply_real_checks basis x y :
  f64_ok x → f64_ok y →
  match apply_real basis x y with
  | Ok v => is_finite v = true ∧ is_finite x = true ∧ is_finite y = true ∧ (0 < f64_Q y)%Q
  | Err NonFiniteInput => is_finite x = false ∨ is_finite y = false
  | Err (LogDomain v) => v = y ∧ is_finite x = true ∧ is_finite y = true ∧ (f64_Q y <= 0)%Q
  | Err _ => is_finite x = true ∧ is_finite y = true ∧ (0 < f64_Q y)%Q
  end.
Proof.
  intros Hx Hy. unfold apply_real.
  destruct (is_finite x) eqn:Ex; [|by left]. destruct (is_finite y) eqn:Ey; [|by right].
  cbn [negb orb]. destruct (f64_le y f64_zero) eqn:Ez.
  { apply f64_le_zero in Ez; done. }
  assert (0 < f64_Q y)%Q as Hpos.
  { apply Qnot_le_lt. intros Hle. apply f64_le_zero in Hle; [congruence|done..]. }
  destruct basis; cbn; repeat case_match; simplify_eq; done.
Qed.
End stack.

(** Substitution: binding in two stages is binding once, with the first
    environment preferred; it removes exactly the bound names; a term collapses
    exactly when no name is left, to its closed instance; otherwise the leftmost
    free name is reported. *)
Theorem binding t env env' :
  Open.bind (Open.bind t env) env' = Open.bind t (env ∪ env') ∧
  (∀ x, x ∈ Open.free_variables (Open.bind t env) ↔ x ∈ Open.free_variables t ∧ env !! x = None) ∧
  match Open.collapse (Open.bind t env) with
  | Ok c => instantiate env t = Some c ∧ Open.free_variables (Open.bind t env) = ∅
  | Err e => instantiate env t = None ∧
      head (filter (λ x, env !! x = None) (variables t)) = Some (unbound_name e)
  end.
Proof.
  split; [apply bind_bind|]. split.
  { intros x. rewrite !free_variables_spec, variables_bind, list_elem_of_filter. tauto. }
  rewrite collapse_spec, instantiate_bind, <- variables_bind.
  assert (∀ u, instantiate ∅ u = None ↔ variables u ≠ []) as Hn.
  { clear. induction u as [u|x|l IHl r IHr]; cbn; [done|done|].
    destruct (instantiate ∅ l) as [a|]; cbn.
    - destruct (variables l); [cbn|discriminate (proj2 IHl ltac:(discriminate))].
      destruct (instantiate ∅ r); cbn; [|done]. split; [done|].
      intros Hr. by apply IHr in Hr.
    - destruct (variables l); [by destruct IHl as [IHl _]; specialize (IHl eq_refl)|done]. }
  specialize (Hn (Open.bind t env)). rewrite instantiate_bind in Hn.
  destruct (variables (Open.bind t env)) as [|x xs] eqn:E.
  - destruct (instantiate env t) as [c|]; [|by destruct (proj1 Hn eq_refl)].
    split; [done|]. apply elem_of_equiv_empty_L. intros x.
    rewrite free_variables_spec, E. apply not_elem_of_nil.
  - split; [|done]. by apply Hn.
Qed.

(** ** Examples *)

Definition formula : OpenTerm := OpenOp (Var "x") (OpenOp (Var "y") (Closed One)).
Definition x_is_one : gmap string ClosedTerm := {["x" := One]}.

Example bind_partial :
  Open.collapse (Open.bind formula x_is_one) = Err (mkUnboundVariable "y") ∧
  Open.collapse (Open.bind (Open.bind formula x_is_one) {["y" := One]}) = Ok (Op One (Op One One)).
Proof. split; reflexivity. Qed.

Definition two_code : Bml := mkBml [4].
Lemma two_code_Represents : Represents two_code (Op One One).
Proof. split; [split; [solve_words|done]|reflexivity]. Qed.

Lemma to_f64_evaluates_witness :
  @to_f64 libm_example two_code = Ok (f64_of_Z 2) ∧
  @evaluate_real libm_example (Op One One) BmlBasis = Ok (f64_of_Z 2).
Proof.
  pose proof (@to_f64_evaluates libm_example two_code (Op One One) two_code_Represents) as [H _].
  assert (@to_f64 libm_example two_code = Ok (f64_of_Z 2)) as E by (vm_compute; reflexivity).
  rewrite E in H. split; [exact E|exact (proj1 H)].
Defined.

Lemma apply_real_checks_witness :
  @apply_real libm_example Eml f64_one f64_zero = Err (LogDomain f64_zero) ∧ (f64_Q f64_zero <= 0)%Q.
Proof.
  pose proof (@apply_real_checks libm_example Eml f64_one f64_zero f64_one_ok ltac:(split; done)) as H.
  assert (@apply_real libm_example Eml f64_one f64_zero = Err (LogDomain f64_zero)) as E
    by (vm_compute; reflexivity).
  rewrite E in H. split; [exact E|exact (proj2 (proj2 (proj2 H)))].
Defined.
