(* ===== verification/Operands.v ===== *)
(** * number/checked.rs, part 2: operands, operators and tree arithmetic

    The trait [ExactOperand] as a class with its laws, its instances (owned and
    borrowed certificates, floats, integers, trees), the arithmetic operators
    built on it, and the arithmetic of [Bml] values through recovered proofs. The
    operators are proved once, against the class. *)

From Stdlib Require Import QArith Qreals Reals.
From S2P Require Import Prelude Words Terms Encoding RealSemantics ExactNat Float Exact ExactInput.
From S2P Require Import Certified CertifiedReal Checked Recognize.
#[local] Open Scope Z_scope.

(** ** Decimal printing of integers: [to_string] *)

Definition digit_char (d : Z) : Ascii.ascii := Ascii.ascii_of_N (Z.to_N (48 + d)).

Fixpoint digits_loop (fuel : nat) (n : Z) (acc : list Ascii.ascii) : list Ascii.ascii :=
  match fuel with
  | O => acc
  | S fuel =>
      let acc := digit_char (n `mod` 10) :: acc in
      if n <? 10 then acc else digits_loop fuel (n / 10) acc
  end.

(** A natural number has no more decimal digits than binary ones. *)
Definition digits (n : Z) : list Ascii.ascii := digits_loop (S (Z.to_nat (nbits n))) n [].

Definition to_string (n : Z) : string :=
  String.string_of_list_ascii (if n <? 0 then "-"%char :: digits (- n) else digits n).

(** ** The trait *)

Class ExactOperand (A : Type) : Type :=
  into_certified : A → ExactSynthesisOptions → Result ExactError CertifiedBml.

(** What the operators rely on: a conversion that succeeds proves a value of the
    operand. *)
Class OperandLaws (A : Type) `{ExactOperand A} : Type := {
  operand_ok : A → Prop;
  operand_value : A → Q → Prop;
  into_certified_sound a options c :
    options_ok options → operand_ok a → into_certified a options = Ok c →
    certified c ∧ operand_value a (rat_Q (target c));
}.

(** A borrowed operand and a machine integer of any width. *)
Record Ref (A : Type) : Type := mkRef { deref : A }.
Arguments mkRef {A} _.
Arguments deref {A} _.
Record Integer : Set := mkInteger { integer_value : Z }.

#[global] Instance owned_certificate : ExactOperand CertifiedBml := λ self _, Ok self.

#[global] Instance borrowed_certificate : ExactOperand (Ref CertifiedBml) := λ self options,
  Certified.verify (derivation (deref self)) (term (deref self)) (target (deref self)) options.

#[global] Instance float_operand : ExactOperand f64 := Certified.from_f64_exact_with_options.

#[global] Instance integer_operand : ExactOperand Integer := λ self options,
  target ← Certified.from_input
    (Exact.from_decimal_str (to_string (integer_value self)) (rational options));
  Certified.from_rational_exact target options.

#[global] Instance tree_operand : ExactOperand Bml := Recognize.certify_exact.

(** ** Operators *)

Module Operators.
Abbreviation Result := (Result ExactError).

Definition default := ExactSynthesisOptions_default.

(** The macro [arithmetic]: [self op rhs] for a certificate and any operand. *)
Definition arithmetic `{ExactOperand A} (operation : Operation) (self : CertifiedBml) (rhs : A)
  : Result CertifiedBml :=
  rhs ← into_certified rhs default;
  Checked.binary self rhs operation default.

Definition neg (self : CertifiedBml) : Result CertifiedBml := Checked.checked_neg self default.

(** The macro [reverse_numeric]: a number before a borrowed certificate. *)
Definition reverse_numeric `{ExactOperand A} (operation : Operation) (self : A) (rhs : CertifiedBml)
  : Result CertifiedBml :=
  self ← into_certified self default;
  arithmetic operation self (mkRef rhs).

(** *** Trees *)

Definition checked_tree (operation : Operation) (self rhs : Bml) (options : ExactSynthesisOptions)
  : Result Bml :=
  a ← Recognize.certify_exact self options;
  b ← Recognize.certify_exact rhs options;
  c ← Checked.binary a b operation options;
  Ok (term c).

Definition checked_add (self rhs : Bml) options := checked_tree OpAdd self rhs options.
Definition checked_sub (self rhs : Bml) options := checked_tree OpSub self rhs options.
Definition checked_mul (self rhs : Bml) options := checked_tree OpMul self rhs options.
Definition checked_div (self rhs : Bml) options := checked_tree OpDiv self rhs options.

Definition checked_neg (self : Bml) (options : ExactSynthesisOptions) : Result Bml :=
  a ← Recognize.certify_exact self options;
  c ← Checked.checked_neg a options;
  Ok (term c).

(** The assignments return the new value of [self] with the answer. *)
Definition try_add_assign (self rhs : Bml) (options : ExactSynthesisOptions) : Bml * Result unit :=
  match checked_add self rhs options with
  | Ok result => (result, Ok tt)
  | Err e => (self, Err e)
  end.

Definition try_mul_assign (self rhs : Bml) (options : ExactSynthesisOptions) : Bml * Result unit :=
  match checked_mul self rhs options with
  | Ok result => (result, Ok tt)
  | Err e => (self, Err e)
  end.

(** The macros [tree_arithmetic] and [reverse_tree_numeric]. *)
Definition tree_arithmetic `{ExactOperand A} (operation : Operation) (self : Bml) (rhs : A)
  : Result Bml :=
  a ← Recognize.certify_exact self default;
  b ← into_certified rhs default;
  c ← Checked.binary a b operation default;
  Ok (term c).

Definition reverse_tree_numeric `{ExactOperand A} (operation : Operation) (self : A) (rhs : Bml)
  : Result Bml :=
  a ← into_certified self default;
  b ← Recognize.certify_exact rhs default;
  c ← Checked.binary a b operation default;
  Ok (term c).

Definition tree_neg (self : Bml) : Result Bml := checked_neg self default.
End Operators.

(** ** The printer and the parser *)

Lemma digit_char_value d : 0 ≤ d < 10 →
  Exact.digit_value (digit_char d) = d ∧ Exact.is_ascii_digit (digit_char d) = true.
Proof.
  intros Hd. assert (∃ k : nat, (k < 10)%nat ∧ d = Z.of_nat k) as (k & Hk & ->)
    by (exists (Z.to_nat d); lia).
  do 10 (destruct k as [|k]; [split; reflexivity|]). lia.
Qed.

Lemma digits_loop_spec fuel n acc :
  0 ≤ n < 2 ^ Z.of_nat fuel → (0 < fuel)%nat →
  ∃ l, digits_loop fuel n acc = l ++ acc ∧ l ≠ [] ∧ digits_val l = n ∧
    Forall (λ c, Exact.is_ascii_digit c = true) l ∧ Z.of_nat (length l) ≤ Z.of_nat fuel.
Proof.
  revert n acc. induction fuel as [|fuel IH]; intros n acc Hn Hf; [lia|].
  pose proof (Z.mod_pos_bound n 10 ltac:(lia)) as Hm.
  destruct (digit_char_value (n `mod` 10) Hm) as [Hv Hd]. cbn [digits_loop].
  destruct (Z.ltb_spec n 10) as [Hlt|Hge].
  - exists [digit_char (n `mod` 10)]. split; [done|]. split; [done|]. split; [|split; [by constructor|cbn; lia]].
    unfold digits_val, horner. cbn [foldl]. rewrite Hv, Z.mod_small by lia. lia.
  - rewrite Nat2Z.inj_succ, Z.pow_succ_r in Hn by lia.
    destruct (IH (n / 10) (digit_char (n `mod` 10) :: acc)) as (l & -> & Hne & Hl & Hdl & Hlen).
    + split; [apply Z.div_pos; lia|apply Z.div_lt_upper_bound; lia].
    + destruct fuel; [cbn in Hn; lia|lia].
    + exists (l ++ [digit_char (n `mod` 10)]). rewrite <- (assoc_L (++)). split; [done|].
      split; [by destruct l|]. split; [|split; [|rewrite length_app; cbn; lia]].
      * unfold digits_val, horner in *. rewrite foldl_app. cbn [foldl]. rewrite Hl, Hv.
        pose proof (Z.div_mod n 10). lia.
      * apply Forall_app. split; [done|by constructor].
Qed.

Lemma digits_spec n :
  0 ≤ n → decimal_ok (digits n) [] ∧ digits_val (digits n) = n ∧
    Z.of_nat (length (digits n)) ≤ nbits n + 1.
Proof.
  intros Hn. pose proof (nbits_nonneg n). unfold digits.
  destruct (digits_loop_spec (S (Z.to_nat (nbits n))) n []) as (l & -> & Hne & Hv & Hd & Hl).
  - split; [done|]. replace (Z.of_nat (S (Z.to_nat (nbits n)))) with (nbits n + 1) by lia.
    rewrite Z.pow_add_r by lia. pose proof (nbits_spec n Hn). lia.
  - lia.
  - rewrite app_nil_r. split; [by split|]. split; [done|lia].
Qed.

Lemma to_string_text n :
  to_string n = String.string_of_list_ascii
    (decimal_text (if n <? 0 then Some true else None) (digits (Z.abs n)) []).
Proof.
  unfold to_string, decimal_text. rewrite app_nil_r. f_equal.
  destruct (Z.ltb_spec n 0); cbn [sign_text app]; [by rewrite Z.abs_neq by lia|by rewrite Z.abs_eq by lia].
Qed.

Lemma integer_target n limits :
  limits_ok limits →
  match Exact.from_decimal_str (to_string n) limits with
  | Ok r => rat_wf r ∧ (rat_Q r == inject_Z n)%Q
  | Err e => e = InputLimit
  end.
Proof.
  intros Hl. destruct (digits_spec (Z.abs n)) as (Hok & Hv & _); [lia|].
  rewrite to_string_text, from_decimal_text by done. case_decide; [|done].
  pose proof (decimal_tail_spec limits Hl (bool_decide ((if n <? 0 then Some true else None) = Some true))
    (digits (Z.abs n) ++ []) 0) as Htail.
  rewrite app_nil_r in *. specialize (Htail (proj1 (proj2 Hok))).
  destruct (decimal_tail _ _ _ _) as [r|]; [|done]. destruct Htail as [Hw HQ]. split; [done|].
  rewrite HQ, Hv. cbn [length]. unfold inject_Z.
  destruct (Z.ltb_spec n 0); cbn [signed bool_decide decide_rel];
    [rewrite bool_decide_true by done|rewrite bool_decide_false by done]; cbn [signed];
    unfold Qeq; cbn [Qnum Qden]; change (Z.pos (Z.to_pos (10 ^ Z.of_nat 0))) with 1; lia.
Qed.

(** ** The instances keep the class's promise *)

#[global, refine] Instance owned_laws : OperandLaws CertifiedBml := {|
  operand_ok := certified;
  operand_value c q := (q == rat_Q (target c))%Q;
  into_certified_sound := _;
|}.
Proof. intros a options c _ Ha [= <-]. by split. Defined.

#[global, refine] Instance borrowed_laws : OperandLaws (Ref CertifiedBml) := {|
  operand_ok _ := True;
  operand_value r q := (q == rat_Q (target (deref r)))%Q;
  into_certified_sound := _;
|}.
Proof.
  intros [a] options c Ho _ H. cbn in *.
  pose proof (verify_lemma options (derivation a) (term a) (target a) Ho) as Hv.
  unfold into_certified, borrowed_certificate in H. cbn in H. rewrite H in Hv.
  destruct Hv as [-> Hc]. by split.
Defined.

#[global, refine] Instance float_laws : OperandLaws f64 := {|
  operand_ok := f64_ok;
  operand_value v q := is_finite v = true ∧ (q == f64_Q v)%Q;
  into_certified_sound := _;
|}.
Proof.
  intros v options c Ho Hv H.
  unfold into_certified, float_operand, Certified.from_f64_exact_with_options in H.
  pose proof (from_f64_sound (rational options) (proj1 Ho) v Hv) as Hf.
  destruct (Exact.from_f64 v (rational options)) as [r|]; [|done]. cbn [Certified.from_input map_err mbind Result_bind] in H.
  destruct Hf as (Hfin & Hr & HQ). pose proof (from_rational_exact_lemma options Ho r Hr) as Hc.
  rewrite H in Hc. destruct Hc as [Hc ->]. by split.
Defined.

#[global, refine] Instance integer_laws : OperandLaws Integer := {|
  operand_ok _ := True;
  operand_value n q := (q == inject_Z (integer_value n))%Q;
  into_certified_sound := _;
|}.
Proof.
  intros n options c Ho _ H. unfold into_certified, integer_operand in H.
  pose proof (integer_target (integer_value n) (rational options) (proj1 Ho)) as Ht.
  destruct (Exact.from_decimal_str _ _) as [r|]; [|done]. cbn [Certified.from_input map_err mbind Result_bind] in H. destruct Ht as [Hr HQ].
  pose proof (from_rational_exact_lemma options Ho r Hr) as Hc.
  rewrite H in Hc. destruct Hc as [Hc ->]. by split.
Defined.

(** Trees, by recovery of a proof: the value is that of the real semantics. *)
Lemma recovered options b c :
  options_ok options → (∃ t, Represents b t) → Recognize.certify_exact b options = Ok c →
  certified c ∧ Value b (Q2R (rat_Q (target c))).
Proof.
  intros Ho [t Ht] H. pose proof (certify_exact_lemma options b t Ho Ht) as Hc. rewrite H in Hc.
  destruct Hc as [Hc <-]. split; [done|]. by apply certified_value.
Qed.

#[global, refine] Instance tree_laws : OperandLaws Bml := {|
  operand_ok b := ∃ t, Represents b t;
  operand_value b q := Value b (Q2R q);
  into_certified_sound := _;
|}.
Proof. intros b options c. apply recovered. Defined.

(** ** Operators, against the class *)

Lemma binary_divisor options a b c :
  Checked.binary a b OpDiv options = Ok c → Exact.is_zero (target b) = false.
Proof. unfold Checked.binary. by destruct (Exact.is_zero (target b)). Qed.

Lemma target_nonzero c : certified c → Exact.is_zero (target c) = false → ¬ (rat_Q (target c) == 0)%Q.
Proof.
  intros Hc Hz HQ. apply rat_Q_zero_iff in HQ; [|by apply certified_wf].
  unfold Exact.is_zero in Hz. by apply bool_decide_eq_false in Hz.
Qed.

(** What one operation on certificates promises to the operators. *)
Definition operation_outcome (op : Operation) (x y : Q) (m : Result ExactError CertifiedBml) : Prop :=
  match m with
  | Ok c => certified c ∧ (rat_Q (target c) == operation_Q op x y)%Q ∧ (op = OpDiv → ¬ (y == 0)%Q)
  | Err e => is_resource e = true ∨ (op = OpDiv ∧ (y == 0)%Q ∧ e = Rational DivisionByZero)
  end.

Lemma binary_outcome options a b op :
  options_ok options → certified a → certified b →
  operation_outcome op (rat_Q (target a)) (rat_Q (target b)) (Checked.binary a b op options).
Proof.
  intros Ho Ha Hb. pose proof (binary_lemma options Ho a b op Ha Hb) as H.
  unfold operation_outcome. destruct (Checked.binary a b op options) as [c|e] eqn:E.
  - destruct H as [Hc HQ]. split; [done|]. split; [done|]. intros ->.
    apply target_nonzero; [done|]. by eapply binary_divisor.
  - destruct (bool_decide (op = OpDiv)) eqn:Eo; [|by left]. apply bool_decide_eq_true in Eo.
    destruct (Exact.is_zero (target b)) eqn:Ez; [|by left]. right. split; [done|]. split; [|done].
    apply rat_Q_zero_iff; [by apply certified_wf|]. by apply bool_decide_eq_true in Ez.
Qed.

Section operators.
Context `{OperandLaws A}.
Abbreviation options := ExactSynthesisOptions_default.

(** The arithmetic operators are exact for every kind of operand, on either side:
    a result is a certificate of the exact sum, difference, product or quotient of
    the certificate's target and the operand's value; a failure is the operand's
    own conversion, an exhausted budget, or a division by a value proved zero. *)
Theorem operators_exact op self (rhs : A) :
  certified self → operand_ok rhs →
  match Operators.arithmetic op self rhs with
  | Ok c => ∃ q, operand_value rhs q ∧
      operation_outcome op (rat_Q (target self)) q (Ok c)
  | Err e => into_certified rhs options = Err e ∨
      ∃ q, operand_value rhs q ∧ operation_outcome op (rat_Q (target self)) q (Err e)
  end ∧
  match Operators.reverse_numeric op rhs self with
  | Ok c => ∃ q, operand_value rhs q ∧
      operation_outcome op q (rat_Q (target self)) (Ok c)
  | Err e => into_certified rhs options = Err e ∨
      ∃ q, operand_value rhs q ∧ operation_outcome op q (rat_Q (target self)) (Err e)
  end.
Proof.
  intros Hs Hr. pose proof options_default_ok as Ho.
  unfold Operators.reverse_numeric, Operators.arithmetic, Operators.default.
  destruct (into_certified rhs options) as [b|e] eqn:E; cbn [mbind Result_bind];
    [|by split; left].
  destruct (into_certified_sound rhs options b Ho Hr E) as [Hb Hv]. split.
  - pose proof (binary_outcome options self b op Ho Hs Hb) as Hop.
    destruct (Checked.binary self b op options); [by exists (rat_Q (target b))|].
    right. by exists (rat_Q (target b)).
  - unfold into_certified, borrowed_certificate. cbn [deref].
    pose proof (verify_lemma options (derivation self) (term self) (target self) Ho) as Hver.
    destruct (Certified.verify _ _ _ _) as [s|e]; cbn [mbind Result_bind]; cycle 1.
    { right. exists (rat_Q (target b)). split; [done|]. left. apply Hver. by destruct self. }
    destruct Hver as [-> Hs']. pose proof (binary_outcome options b _ op Ho Hb Hs') as Hop. cbn [target] in Hop.
    destruct (Checked.binary _ _ op options); [by exists (rat_Q (target b))|].
    right. by exists (rat_Q (target b)).
Qed.

(** Tree arithmetic is exact arithmetic of real values: when an operator on a
    [Bml], or a number and a [Bml] in either order, returns a tree, both operands
    have rational values over the reals and the result's value is exactly the
    operation on them, with a divisor that is not zero. *)
Theorem tree_operators_exact op self (rhs : A) b :
  (∃ t, Represents self t) → operand_ok rhs →
  (Operators.tree_arithmetic op self rhs = Ok b →
     ∃ x y, Value self (Q2R x) ∧ operand_value rhs y ∧ Value b (Q2R (operation_Q op x y)) ∧
       (op = OpDiv → ¬ (y == 0)%Q)) ∧
  (Operators.reverse_tree_numeric op rhs self = Ok b →
     ∃ x y, operand_value rhs x ∧ Value self (Q2R y) ∧ Value b (Q2R (operation_Q op x y)) ∧
       (op = OpDiv → ¬ (y == 0)%Q)).
Proof.
  intros Hs Hr. pose proof options_default_ok as Ho.
  assert (∀ ca cb c, certified ca → certified cb → Checked.binary ca cb op options = Ok c →
    Value (term c) (Q2R (operation_Q op (rat_Q (target ca)) (rat_Q (target cb)))) ∧
    (op = OpDiv → ¬ (rat_Q (target cb) == 0)%Q)) as Hop.
  { intros ca cb c Ha Hb E. pose proof (binary_outcome options ca cb op Ho Ha Hb) as Hc.
    rewrite E in Hc. destruct Hc as (Hc & HQ & Hd). split; [|done].
    rewrite <- (Qeq_eqR _ _ HQ). by apply certified_value. }
  split; intros E; [unfold Operators.tree_arithmetic in E|unfold Operators.reverse_tree_numeric in E];
    apply bind_ok in E as (ca & Ea & E); apply bind_ok in E as (cb & Eb & E);
    apply bind_ok in E as (c & Ec & [= <-]).
  - destruct (recovered _ self ca Ho Hs Ea) as [Ha Hva].
    destruct (into_certified_sound rhs options cb Ho Hr Eb) as [Hb Hvb].
    exists (rat_Q (target ca)), (rat_Q (target cb)). by destruct (Hop ca cb c Ha Hb Ec).
  - destruct (into_certified_sound rhs options ca Ho Hr Ea) as [Ha Hva].
    destruct (recovered _ self cb Ho Hs Eb) as [Hb Hvb].
    exists (rat_Q (target ca)), (rat_Q (target cb)). by destruct (Hop ca cb c Ha Hb Ec).
Qed.
End operators.

(** Checked tree arithmetic under any budgets: results have the exact real value
    of the operation on the operands' values, negation included, and an
    assignment either stores that result or leaves its target as it was. *)
Theorem checked_trees_exact options op a b :
  options_ok options → (∃ t, Represents a t) → (∃ t, Represents b t) →
  (∀ c, Operators.checked_tree op a b options = Ok c →
     ∃ x y, Value a (Q2R x) ∧ Value b (Q2R y) ∧ Value c (Q2R (operation_Q op x y)) ∧
       (op = OpDiv → ¬ (y == 0)%Q)) ∧
  (∀ c, Operators.checked_neg a options = Ok c →
     ∃ x, Value a (Q2R x) ∧ Value c (Q2R (- x))) ∧
  (∀ a' r, Operators.try_add_assign a b options = (a', r) ∨ Operators.try_mul_assign a b options = (a', r) →
     match r with
     | Ok _ => ∃ x y z, Value a (Q2R x) ∧ Value b (Q2R y) ∧ Value a' (Q2R z) ∧
                 ((z == x + y) ∨ (z == x * y))%Q
     | Err _ => a' = a
     end).
Proof.
  intros Ho Ha Hb.
  assert (∀ op c, Operators.checked_tree op a b options = Ok c →
    ∃ x y, Value a (Q2R x) ∧ Value b (Q2R y) ∧ Value c (Q2R (operation_Q op x y)) ∧
      (op = OpDiv → ¬ (y == 0)%Q)) as Htree.
  { intros op' c (ca & Ea & (cb & Eb & (cc & Ec & [= <-])%bind_ok)%bind_ok)%bind_ok.
    destruct (recovered options a ca Ho Ha Ea) as [Hca Hva].
    destruct (recovered options b cb Ho Hb Eb) as [Hcb Hvb].
    pose proof (binary_outcome options ca cb op' Ho Hca Hcb) as Hc. rewrite Ec in Hc.
    destruct Hc as (Hc & HQ & Hd). exists (rat_Q (target ca)), (rat_Q (target cb)).
    rewrite <- (Qeq_eqR _ _ HQ). split; [done|]. split; [done|]. split; [|done].
    by apply certified_value. }
  split; [apply Htree|]. split.
  - intros c (ca & Ea & (cc & Ec & [= <-])%bind_ok)%bind_ok.
    destruct (recovered options a ca Ho Ha Ea) as [Hca Hva].
    pose proof (checked_neg_lemma options Ho ca Hca) as Hc. rewrite Ec in Hc. destruct Hc as [Hc HQ].
    exists (rat_Q (target ca)). split; [done|]. rewrite <- (Qeq_eqR _ _ HQ). by apply certified_value.
  - intros a' r [E|E]; [unfold Operators.try_add_assign, Operators.checked_add in E
                       |unfold Operators.try_mul_assign, Operators.checked_mul in E];
      destruct (Operators.checked_tree _ a b options) as [c|e] eqn:Ec; simplify_eq; try done;
      destruct (Htree _ _ Ec) as (x & y & Hx & Hy & Hc & _).
    + exists x, y, (x + y)%Q. split; [done|]. split; [done|]. split; [done|by left].
    + exists x, y, (x * y)%Q. split; [done|]. split; [done|]. split; [done|by right].
Qed.

(** Integers of every machine width enter by their decimal text and come out
    exact: the printed text is parsed to a target equal to the integer. *)
Theorem integers_exact n limits :
  limits_ok limits → nbits (Z.abs n) + 1 ≤ input_max_digits limits →
  nbits (Z.abs n) ≤ input_max_bits limits → 0 < input_max_bits limits →
  nbits (Z.abs n) + 1 ≤ input_max_gcd_steps limits →
  ∃ r, Exact.from_decimal_str (to_string n) limits = Ok r ∧ rat_wf r ∧ (rat_Q r == inject_Z n)%Q.
Proof.
  intros Hl Hd Hb Hb0 Hg. pose proof (integer_target n limits Hl) as H.
  destruct (digits_spec (Z.abs n)) as (Hok & Hv & Hlen); [lia|].
  destruct (Exact.from_decimal_str (to_string n) limits) as [r|e] eqn:E; [by exists r|exfalso].
  rewrite to_string_text, from_decimal_text in E by done. cbn [length] in E.
  rewrite decide_True, app_nil_r in E by lia.
  destruct (decimal_tail_total limits Hl (bool_decide ((if n <? 0 then Some true else None) = Some true))
    (digits (Z.abs n)) 0) as [r Hr].
  - apply Hok.
  - by rewrite Hv.
  - change (nbits (10 ^ Z.of_nat 0)) with 1. lia.
  - rewrite Hv. change (nbits (10 ^ Z.of_nat 0)) with 1. lia.
  - by rewrite Hr in E.
Qed.

Lemma integers_exact_witness :
  ∃ r, Exact.from_decimal_str (to_string (-170141183460469231731687303715884105728))
         ExactInputLimits_default = Ok r ∧ rat_wf r ∧
       (rat_Q r == inject_Z (-170141183460469231731687303715884105728))%Q.
Proof. apply integers_exact; [repeat split; done|vm_compute; discriminate..|reflexivity|vm_compute; discriminate]. Defined.

(** ** Examples *)

Lemma of_verify d : is_ok (Certified.certify d ExactSynthesisOptions_default) = true →
  certified (the_result (Certified.certify d ExactSynthesisOptions_default)).
Proof. apply certify_ok_certified. Qed.

Definition certificate_three : CertifiedBml :=
  the_result (Certified.certify three ExactSynthesisOptions_default).

(** [3 * -2] and [-2 / 3] with an integer operand on either side. *)
Lemma operators_exact_witness :
  ∃ c, Operators.arithmetic OpMul certificate_three (mkInteger (-2)) = Ok c ∧
    ∃ q, operand_value (mkInteger (-2)) q ∧ operation_outcome OpMul (rat_Q (target certificate_three)) q (Ok c).
Proof.
  pose proof (@operators_exact Integer integer_operand integer_laws OpMul certificate_three (mkInteger (-2))
    (of_verify three ltac:(vm_compute; reflexivity)) I) as [H _].
  destruct (Operators.arithmetic OpMul certificate_three (mkInteger (-2))) as [c|e] eqn:E.
  - exists c. split; [reflexivity|exact H].
  - exfalso. vm_compute in E. discriminate E.
Defined.

Definition tree_two : Bml := mkBml [4].
Lemma tree_two_Represents : ∃ t, Represents tree_two t.
Proof. exists (Op One One). split; [split; [solve_words|done]|reflexivity]. Qed.

Lemma tree_operators_exact_witness :
  ∃ b x y, Operators.tree_arithmetic OpSub tree_two (mkInteger 5) = Ok b ∧
    Value tree_two (Q2R x) ∧ operand_value (mkInteger 5) y ∧ Value b (Q2R (operation_Q OpSub x y)).
Proof.
  destruct (Operators.tree_arithmetic OpSub tree_two (mkInteger 5)) as [b|e] eqn:E;
    [|vm_compute in E; discriminate E].
  destruct (proj1 (@tree_operators_exact Integer integer_operand integer_laws OpSub tree_two (mkInteger 5) b tree_two_Represents I) E)
    as (x & y & Hx & Hy & Hv & _).
  exists b, x, y. split; [reflexivity|]. split; [exact Hx|]. split; [exact Hy|exact Hv].
Defined.

Lemma checked_trees_exact_witness :
  ∃ c x y, Operators.checked_tree OpAdd tree_two tree_two ExactSynthesisOptions_default = Ok c ∧
    Value tree_two (Q2R x) ∧ Value tree_two (Q2R y) ∧ Value c (Q2R (x + y)).
Proof.
  destruct (Operators.checked_tree OpAdd tree_two tree_two ExactSynthesisOptions_default) as [c|e] eqn:E;
    [|vm_compute in E; discriminate E].
  destruct (proj1 (checked_trees_exact ExactSynthesisOptions_default OpAdd tree_two tree_two
    options_default_ok tree_two_Represents tree_two_Represents) c E) as (x & y & Hx & Hy & Hv & _).
  exists c, x, y. split; [reflexivity|]. split; [exact Hx|]. split; [exact Hy|exact Hv].
Defined.
