(* ===== verification/Evaluate.v ===== *)
(** * number/evaluate.rs: simplified evaluation

    A certificate, or a tree whose certificate is recovered, is replayed and its
    rational target rounded once to binary64; no proof failure is replaced by an
    approximate evaluation. *)

From Stdlib Require Import QArith Qabs Qreals Reals.
From S2P Require Import Prelude Words Terms Encoding RealSemantics Float Exact ExactRound.
From S2P Require Import Certified CertifiedReal Recognize.
#[local] Open Scope Z_scope.

Inductive SimplifiedEvalError : Set :=
  | Proof (e : ExactError)
  | Rounding (e : RationalFloatError).

Module Evaluate.
(** [CertifiedBml::to_f64_simplified] *)
Definition certified_to_f64 (self : CertifiedBml) (options : ExactSynthesisOptions)
    : Result SimplifiedEvalError f64 :=
  verified ← map_err Proof (Certified.verify (derivation self) (term self) (Certified.target self) options);
  map_err Rounding (Round.to_f64_rounded (Certified.target verified) (rational options)).

(** [Bml::to_f64_simplified] *)
Definition to_f64_simplified (self : Bml) (options : ExactSynthesisOptions)
    : Result SimplifiedEvalError f64 :=
  verified ← map_err Proof (Recognize.certify_exact self options);
  map_err Rounding (Round.to_f64_rounded (Certified.target verified) (rational options)).
End Evaluate.

(** ** Correctness *)

(** Rounding once: a value is the nearest binary64 of a rational [r] that the tree
    really denotes; a range error means that [r] is out of range. *)
Definition evaluated (limits : ExactInputLimits) (b : Bml) (m : Result SimplifiedEvalError f64) : Prop :=
  match m with
  | Ok v => ∃ r, rat_wf r ∧ Value b (rat_R r) ∧ rounding_result limits r (Ok v)
  | Err (Rounding e) => ∃ r, rat_wf r ∧ Value b (rat_R r) ∧ rounding_result limits r (Err e)
  | Err (Proof _) => True
  end.


Lemma round_certified limits c :
  limits_ok limits → certified c →
  evaluated limits (term c) (map_err Rounding (Round.to_f64_rounded (Certified.target c) limits)).
Proof.
  intros Hl Hc. pose proof (certified_wf c Hc) as Hw.
  pose proof (to_f64_rounded_cases limits _ Hl Hw) as H. pose proof (certified_value c Hc) as Hv.
  destruct (Round.to_f64_rounded (Certified.target c) limits) as [v|e]; by exists (Certified.target c).
Qed.

(** Simplified evaluation of a tree rounds once: a result is the correctly
    rounded binary64 of the rational the tree denotes over the reals, a range
    error is reported only when that rational is out of range, and a failed proof
    is reported as such, never as an invalid one. *)
Theorem simplified_evaluation options b t :
  options_ok options → Represents b t →
  evaluated (rational options) b (Evaluate.to_f64_simplified b options) ∧
  Evaluate.to_f64_simplified b options ≠ Err (Proof InvalidProof).
Proof.
  intros Ho Ht. unfold Evaluate.to_f64_simplified.
  pose proof (certify_exact_lemma options b t Ho Ht) as H.
  destruct (Recognize.certify_exact b options) as [c|e]; cbn [map_err mbind Result_bind].
  - destruct H as [Hc <-]. split; [apply round_certified; [apply Ho|done]|].
    by destruct (Round.to_f64_rounded _ _).
  - split; [done|]. intros [= ->]. by destruct H.
Qed.

(** The same for a certificate of any origin: its claim is replayed before it
    is rounded, so a result is right even for a forged certificate, and a genuine
    one fails to replay only for lack of budget. *)
Theorem certified_evaluation options c :
  options_ok options →
  evaluated (rational options) (term c) (Evaluate.certified_to_f64 c options) ∧
  (∀ e, certified c → Evaluate.certified_to_f64 c options = Err (Proof e) → is_resource e = true).
Proof.
  intros Ho. unfold Evaluate.certified_to_f64. destruct c as [b v d].
  cbn [derivation term Certified.target]. pose proof (verify_lemma options d b v Ho) as H.
  destruct (Certified.verify d b v options) as [c'|e]; cbn [map_err mbind Result_bind].
  - destruct H as [-> Hc]. split; [apply (round_certified _ _ (proj1 Ho) Hc)|].
    intros e _. by destruct (Round.to_f64_rounded _ _).
  - split; [done|]. intros e' Hc [= <-]. by apply H.
Qed.

Lemma simplified_evaluation_witness :
  ∃ r, rat_wf r ∧ Value (mkBml [4]) (rat_R r) ∧
    rounding_result ExactInputLimits_default r (Ok (from_bits 0x4000000000000000)).
Proof.
  assert (Evaluate.to_f64_simplified (mkBml [4]) ExactSynthesisOptions_default
    = Ok (from_bits 0x4000000000000000)) as E by (vm_compute; reflexivity).
  assert (Represents (mkBml [4]) (Op One One)) as H4 by (split; [unfold wf; solve_words|reflexivity]).
  pose proof (simplified_evaluation ExactSynthesisOptions_default (mkBml [4]) _ options_default_ok H4) as [H _].
  rewrite E in H. exact H.
Defined.

Lemma certified_evaluation_witness :
  ∃ c, Evaluate.certified_to_f64 c ExactSynthesisOptions_default = Ok (from_bits 0x4000000000000000) ∧
    evaluated (rational ExactSynthesisOptions_default) (term c) (Ok (from_bits 0x4000000000000000)).
Proof.
  pose (c := mkCertifiedBml (mkBml [4]) (Exact.from_i64 2) (mkExactDerivation [StepOne; Exp2 0] 1)).
  assert (Evaluate.certified_to_f64 c ExactSynthesisOptions_default
    = Ok (from_bits 0x4000000000000000)) as E by (vm_compute; reflexivity).
  exists c. split; [exact E|].
  rewrite <- E. exact (proj1 (certified_evaluation ExactSynthesisOptions_default c options_default_ok)).
Defined.
