(* ===== verification/Matrix.v ===== *)
(** * number/matrix.rs: matrices of exact terms

    Row-major matrices of [Bml] trees under explicit budgets. Indexing a vector out
    of bounds panics in the source; a panic is the error [None] here, so a result
    is [Ok], an error [Err (Some e)] or a panic [Err None]. *)

From Stdlib Require Import QArith Qreals Reals.
From S2P Require Import Prelude Words Terms Encoding Operations RealSemantics ExactNat Exact.
From S2P Require Import Certified CertifiedReal Checked Recognize Operands.
#[local] Open Scope Z_scope.

Record MatrixLimits : Set := mkMatrixLimits {
  matrix_max_elements : Z;
  matrix_max_total_bits : Z;
  matrix_max_work_bits : Z;
  scalar : ExactSynthesisOptions;
}.

Definition MatrixLimits_default : MatrixLimits :=
  mkMatrixLimits 65536 16777216 134217728 ExactSynthesisOptions_default.

Inductive MatrixError : Set :=
  | MatrixShape
  | MatrixLimit
  | Budget (row column : Z) (inner : option Z)
  | MatrixIndex (row column : Z)
  | Scalar (row column : Z) (inner : option Z) (source : ExactError)
  | EmptyReduction
  | ScalarPreparation (e : ExactError).

Inductive ReductionInit : Set :=
  | First (empty : option Bml)
  | InitValue (value : Bml).

#[global] Instance ReductionInit_eq_dec : EqDecision ReductionInit.
Proof. solve_decision. Defined.

Record BmlMatrix : Set := mkBmlMatrix {
  rows : Z;
  columns : Z;
  values : list Bml;
  matrix_limits : MatrixLimits;
}.

Module Matrix.
Abbreviation Result := (Result (option MatrixError)).

(** [v\[i\]], which panics out of bounds. *)
Definition index {A} (v : list A) (i : Z) : Result A := ok_or None (v !! Z.to_nat i).

Definition count (rows columns : Z) (limits : MatrixLimits) : Result Z :=
  count ← ok_or (Some MatrixShape) (checked_mul rows columns);
  if matrix_max_elements limits <? count then Err (Some MatrixLimit) else Ok count.

Definition scalar_error (row column : Z) (inner : option Z) (source : ExactError) : option MatrixError :=
  Some (Scalar row column inner source).

(** The new amount of work. *)
Definition charge (value : Bml) (work : Z) (limits : MatrixLimits) : Result Z :=
  if max_bits (scalar limits) <? bit_len value then Err (Some MatrixLimit) else
  work ← ok_or (Some MatrixLimit) (checked_add work (bit_len value));
  if matrix_max_work_bits limits <? work then Err (Some MatrixLimit) else Ok work.

(** The new vector and total. *)
Definition retain (values : list Bml) (value : Bml) (total : Z) (limits : MatrixLimits) (row column : Z)
    : Result (list Bml * Z) :=
  total ← ok_or (Some (Budget row column None)) (checked_add total (bit_len value));
  if matrix_max_total_bits limits <? total then Err (Some (Budget row column None)) else
  Ok (values ++ [value], total).

Definition total_bits (self : BmlMatrix) : Result Z :=
  for_each (λ value sum, ok_or (Some MatrixLimit) (checked_add sum (bit_len value))) (values self) 0.

Definition validate (self : BmlMatrix) (limits : MatrixLimits) : Result unit :=
  n ← count (rows self) (columns self) limits;
  if negb (n =? Z.of_nat (length (values self))) then Err (Some MatrixShape) else
  total ← total_bits self;
  if (matrix_max_total_bits limits <? total)
     || existsb (λ v, max_bits (scalar limits) <? bit_len v) (values self)
  then Err (Some MatrixLimit) else Ok tt.

Definition new (rows columns : Z) (values : list Bml) (limits : MatrixLimits) : Result BmlMatrix :=
  n ← count rows columns limits;
  if negb (n =? Z.of_nat (length values)) then Err (Some MatrixShape) else
  let result := mkBmlMatrix rows columns values limits in
  _ ← validate result limits;
  Ok result.

Definition shape (self : BmlMatrix) : Z * Z := (rows self, columns self).
Definition as_slice (self : BmlMatrix) : list Bml := values self.

Definition get (self : BmlMatrix) (row column : Z) : Result Bml :=
  if (rows self <=? row) || (columns self <=? column) then Err (Some (MatrixIndex row column)) else
  index (values self) (row * columns self + column).

(** [Index::index]: any failure of [get] is a panic. *)
Definition at_index (self : BmlMatrix) (row column : Z) : Result Bml :=
  map_err (λ _, None) (get self row column).

(** The matrix after the call, and the answer. *)
Definition replace (self : BmlMatrix) (row column : Z) (value : Bml) : BmlMatrix * Result Bml :=
  let answer :=
    old ← get self row column;
    total ← total_bits self;
    total ← ok_or (Some MatrixLimit)
      (n ← checked_sub total (bit_len old); checked_add n (bit_len value));
    if (max_bits (scalar (matrix_limits self)) <? bit_len value)
       || (matrix_max_total_bits (matrix_limits self) <? total) then Err (Some MatrixLimit) else
    index (values self) (row * columns self + column) in
  match answer with
  | Ok old => (mkBmlMatrix (rows self) (columns self)
      (<[Z.to_nat (row * columns self + column) := value]> (values self)) (matrix_limits self), Ok old)
  | Err e => (self, Err e)
  end.

Definition prepare (self : BmlMatrix) (limits : MatrixLimits) : Result (list CertifiedBml) :=
  _ ← validate self (matrix_limits self);
  _ ← validate self limits;
  for_each (λ '(i, value) prepared,
      p ← map_err (scalar_error (i / columns self) (i `mod` columns self) None)
            (Recognize.certify_exact value (scalar limits));
      Ok (prepared ++ [p]))
    (enumerate (values self)) [].

(** The tail of the loops of [elementwise] and [scalar_map]. *)
Definition store (limits : MatrixLimits) (row column : Z) (result : Prelude.Result ExactError CertifiedBml)
    (state : list Bml * Z * Z) : Result (list Bml * Z * Z) :=
  let '(values, work, output_bits) := state in
  c ← map_err (scalar_error row column None) result;
  let value := term c in
  work ← map_err (λ _, Some (Budget row column None)) (charge value work limits);
  '(values, output_bits) ← retain values value output_bits limits row column;
  Ok (values, work, output_bits).

Definition elementwise (self rhs : BmlMatrix) (limits : MatrixLimits) (multiply : bool) : Result BmlMatrix :=
  if negb (bool_decide (shape self = shape rhs)) then Err (Some MatrixShape) else
  a ← prepare self limits;
  b ← prepare rhs limits;
  '(values, _, _) ← for_each (λ '(i, (a, b)) state,
      store limits (i / columns self) (i `mod` columns self)
        (if multiply : bool then Checked.checked_mul a b (scalar limits)
         else Checked.checked_add a b (scalar limits)) state)
    (enumerate (zip a b)) ([], 0, 0);
  new (rows self) (columns self) values limits.

Definition add_with_limits (self rhs : BmlMatrix) limits := elementwise self rhs limits false.
Definition hadamard (self rhs : BmlMatrix) := elementwise self rhs (matrix_limits self) true.
Definition hadamard_with_limits (self rhs : BmlMatrix) limits := elementwise self rhs limits true.

Definition scalar_map `{ExactOperand T} (self : BmlMatrix) (s : T) (limits : MatrixLimits)
    (multiply : bool) : Result BmlMatrix :=
  _ ← validate self limits;
  s ← map_err (λ e, Some (ScalarPreparation e)) (into_certified s (scalar limits));
  prepared ← prepare self limits;
  '(values, _, _) ← for_each (λ '(i, value) state,
      store limits (i / columns self) (i `mod` columns self)
        (if multiply : bool then Checked.checked_mul value s (scalar limits)
         else Checked.checked_add value s (scalar limits)) state)
    (enumerate prepared) ([], 0, 0);
  new (rows self) (columns self) values limits.

Definition add_scalar `{ExactOperand T} (self : BmlMatrix) (s : T) limits := scalar_map self s limits false.
Definition scale `{ExactOperand T} (self : BmlMatrix) (s : T) limits := scalar_map self s limits true.

(** *** Products *)

Definition budget (row column : Z) (inner : option Z) (m : Result Z) : Result Z :=
  map_err (λ _, Some (Budget row column inner)) m.

(** One inner step of [matmul_with_limits]. *)
Definition matmul_step (self rhs : BmlMatrix) (a b : list CertifiedBml) (limits : MatrixLimits)
    (row column inner : Z) (state : option CertifiedBml * Z) : Result (option CertifiedBml * Z) :=
  let '(accumulator, work) := state in
  x ← index a (row * columns self + inner);
  y ← index b (inner * columns rhs + column);
  product ← map_err (scalar_error row column (Some inner)) (Checked.checked_mul x y (scalar limits));
  work ← budget row column (Some inner) (charge (term product) work limits);
  match accumulator with
  | None => Ok (Some product, work)
  | Some previous =>
      sum ← map_err (scalar_error row column (Some inner)) (Checked.checked_add previous product (scalar limits));
      work ← budget row column (Some inner) (charge (term sum) work limits);
      Ok (Some sum, work)
  end.

Definition matmul_cell (self rhs : BmlMatrix) (a b : list CertifiedBml) (limits : MatrixLimits)
    (row column : Z) (state : list Bml * Z * Z) : Result (list Bml * Z * Z) :=
  let '(values, work, output_bits) := state in
  '(accumulator, work) ← for_each (matmul_step self rhs a b limits row column)
    (seqZ 0 (columns self)) (None, work);
  '(value, work) ← match accumulator with
    | Some value => Ok (term value, work)
    | None =>
        zero ← map_err (λ _, Some MatrixShape) (from_u64 88);
        work ← budget row column None (charge zero work limits);
        Ok (zero, work)
    end;
  '(values, output_bits) ← retain values value output_bits limits row column;
  Ok (values, work, output_bits).

Definition matmul_with_limits (self rhs : BmlMatrix) (limits : MatrixLimits) : Result BmlMatrix :=
  if negb (columns self =? rows rhs) then Err (Some MatrixShape) else
  len ← count (rows self) (columns rhs) limits;
  _ ← validate self limits;
  _ ← validate rhs limits;
  if len =? 0 then new (rows self) (columns rhs) [] limits else
  a ← prepare self limits;
  b ← prepare rhs limits;
  '(values, _, _) ← for_each (λ row state,
      for_each (λ column state, matmul_cell self rhs a b limits row column state)
        (seqZ 0 (columns rhs)) state)
    (seqZ 0 (rows self)) ([], 0, 0);
  new (rows self) (columns rhs) values limits.

(** The closures of [generalized_product] share a state [S]; what a failing call
    leaves in it is not modelled. *)
Section generalized.
Context {S : Type} (combine accumulate : Bml → Bml → S → Prelude.Result ExactError (Bml * S)).

Definition product_step (self rhs : BmlMatrix) (limits : MatrixLimits) (row column inner : Z)
    (state : option Bml * Z * S) : Result (option Bml * Z * S) :=
  let '(accumulator, work, s) := state in
  x ← at_index self row inner;
  y ← at_index rhs inner column;
  '(product, s) ← map_err (scalar_error row column (Some inner)) (combine x y s);
  work ← budget row column (Some inner) (charge product work limits);
  match accumulator with
  | None => Ok (Some product, work, s)
  | Some previous =>
      '(sum, s) ← map_err (scalar_error row column (Some inner)) (accumulate previous product s);
      work ← budget row column (Some inner) (charge sum work limits);
      Ok (Some sum, work, s)
  end.

Definition initial (self : BmlMatrix) (init : ReductionInit) : option Bml :=
  match init with
  | InitValue value => Some value
  | First empty => if columns self =? 0 then empty else None
  end.

Definition product_cell (self rhs : BmlMatrix) (init : ReductionInit) (limits : MatrixLimits)
    (row column : Z) (state : list Bml * Z * Z * S) : Result (list Bml * Z * Z * S) :=
  let '(values, work, output_bits, s) := state in
  '(accumulator, work) ← match initial self init with
    | Some value =>
        work ← budget row column None (charge value work limits);
        Ok (Some value, work)
    | None => Ok (None, work)
    end;
  '(accumulator, work, s) ← for_each (product_step self rhs limits row column)
    (seqZ 0 (columns self)) (accumulator, work, s);
  value ← ok_or (Some EmptyReduction) accumulator;
  '(values, output_bits) ← retain values value output_bits limits row column;
  Ok (values, work, output_bits, s).

Definition generalized_product (self rhs : BmlMatrix) (init : ReductionInit) (limits : MatrixLimits) (s : S)
    : Result (BmlMatrix * S) :=
  if negb (columns self =? rows rhs) then Err (Some MatrixShape) else
  _ ← validate self (matrix_limits self);
  _ ← validate rhs (matrix_limits rhs);
  _ ← validate self limits;
  _ ← validate rhs limits;
  len ← count (rows self) (columns rhs) limits;
  if (columns self =? 0) && bool_decide (init = First None) then Err (Some EmptyReduction) else
  if len =? 0 then m ← new (rows self) (columns rhs) [] limits; Ok (m, s) else
  '(values, _, _, s) ← for_each (λ row state,
      for_each (λ column state, product_cell self rhs init limits row column state)
        (seqZ 0 (columns rhs)) state)
    (seqZ 0 (rows self)) ([], 0, 0, s);
  m ← new (rows self) (columns rhs) values limits;
  Ok (m, s).
End generalized.

(** The operators [+] and [*]. *)
Definition add (self rhs : BmlMatrix) : Result BmlMatrix := add_with_limits self rhs (matrix_limits self).
Definition mul (self rhs : BmlMatrix) : Result BmlMatrix := matmul_with_limits self rhs (matrix_limits self).
End Matrix.

(** ** The invariant of a matrix *)

Definition is_term (v : Bml) : Prop := ∃ t, Represents v t.
Definition sum_bits (vs : list Bml) : Z := foldr (λ v n, bit_len v + n) 0 vs.

(** The vector of a matrix fills its shape within the budgets. *)
Record Within (limits : MatrixLimits) (m : BmlMatrix) : Prop := mkWithin {
  within_count : rows m * columns m = Z.of_nat (length (values m));
  within_elements : rows m * columns m ≤ matrix_max_elements limits;
  within_usize : rows m * columns m < W64;
  within_total : sum_bits (values m) ≤ matrix_max_total_bits limits;
  within_total_usize : sum_bits (values m) < W64;
  within_bits : Forall (λ v, bit_len v ≤ max_bits (scalar limits)) (values m);
}.

Record Valid (m : BmlMatrix) : Prop := mkValid {
  valid_rows : 0 ≤ rows m;
  valid_columns : 0 ≤ columns m;
  valid_terms : Forall is_term (values m);
  valid_within : Within (matrix_limits m) m;
}.

(** Results that satisfy [P], and never panic. *)
Abbreviation safe := (outcome (λ e : option MatrixError, e ≠ None)).

Lemma is_term_bit_len v : is_term v → 1 ≤ bit_len v.
Proof. intros [t Ht]. rewrite (Represents_bit_len Ht). apply tree_len_pos. Qed.

Lemma sum_bits_app vs ws : sum_bits (vs ++ ws) = sum_bits vs + sum_bits ws.
Proof. induction vs as [|v vs IH]; cbn; [done|]. unfold sum_bits in *. rewrite IH. lia. Qed.

Lemma sum_bits_snoc vs v : sum_bits (vs ++ [v]) = sum_bits vs + bit_len v.
Proof. rewrite sum_bits_app. cbn. lia. Qed.

Lemma sum_bits_nonneg vs : Forall is_term vs → 0 ≤ sum_bits vs.
Proof.
  induction 1 as [|v vs Hv _ IH]; cbn; [done|].
  pose proof (is_term_bit_len v Hv). unfold sum_bits in *. lia.
Qed.

Lemma sum_bits_loop vs n :
  Forall is_term vs → 0 ≤ n < W64 →
  for_each (λ value sum, ok_or (Some MatrixLimit) (checked_add sum (bit_len value))) vs n
  = if n + sum_bits vs <? W64 then Ok (n + sum_bits vs) else Err (Some MatrixLimit).
Proof.
  intros Ht. revert n. induction Ht as [|v vs Hv Ht IH]; intros n Hn; cbn [for_each sum_bits foldr].
  { rewrite Z.add_0_r. by rewrite (proj2 (Z.ltb_lt n W64)) by lia. }
  pose proof (is_term_bit_len v Hv). pose proof (sum_bits_nonneg vs Ht). fold (sum_bits vs).
  unfold checked_add. destruct (Z.ltb_spec (n + bit_len v) W64); cbn [ok_or mbind Result_bind].
  - rewrite IH by lia. by rewrite Z.add_assoc.
  - by destruct (Z.ltb_spec (n + (bit_len v + sum_bits vs)) W64); [lia|].
Qed.

Lemma total_bits_spec m :
  Forall is_term (values m) →
  Matrix.total_bits m = if sum_bits (values m) <? W64 then Ok (sum_bits (values m)) else Err (Some MatrixLimit).
Proof. intros Ht. unfold Matrix.total_bits. by rewrite sum_bits_loop. Qed.

(** [validate] decides the budgets. *)
Lemma validate_spec m limits :
  Forall is_term (values m) →
  outcome (λ e, e ≠ None ∧ ¬ Within limits m) (λ _, Within limits m) (Matrix.validate m limits).
Proof.
  intros Ht. unfold Matrix.validate, Matrix.count, checked_mul.
  destruct (Z.ltb_spec (rows m * columns m) W64); cbn [ok_or mbind Result_bind outcome];
    [|by split; [done|intros []; lia]].
  destruct (Z.ltb_spec (matrix_max_elements limits) (rows m * columns m)); cbn [mbind Result_bind outcome];
    [by split; [done|intros []; lia]|].
  destruct (Z.eqb_spec (rows m * columns m) (Z.of_nat (length (values m)))); cbn [negb outcome];
    [|by split; [done|intros []]].
  rewrite total_bits_spec by done.
  destruct (Z.ltb_spec (sum_bits (values m)) W64); cbn [mbind Result_bind outcome];
    [|by split; [done|intros []; lia]].
  destruct (Z.ltb_spec (matrix_max_total_bits limits) (sum_bits (values m))); cbn [orb outcome];
    [by split; [done|intros []; lia]|].
  destruct (existsb _ (values m)) eqn:E; cbn [outcome].
  - split; [done|]. intros [_ _ _ _ _ Hb]. apply existsb_exists in E as (v & Hv & Hlt).
    apply Z.ltb_lt in Hlt. rewrite Forall_forall in Hb. specialize (Hb v).
    apply list_elem_of_In in Hv. specialize (Hb Hv). lia.
  - constructor; [done..|]. apply Forall_forall. intros v Hv.
    destruct (Z.le_gt_cases (bit_len v) (max_bits (scalar limits))) as [|Hlt]; [done|].
    rewrite <- not_true_iff_false in E. exfalso. apply E, existsb_exists. exists v.
    split; [by apply list_elem_of_In|by apply Z.ltb_lt].
Qed.

Lemma validate_safe m limits : Forall is_term (values m) → safe (λ _, Within limits m) (Matrix.validate m limits).
Proof. intros H. pose proof (validate_spec m limits H) as Hv. by destruct (Matrix.validate m limits) as [|e]; [|destruct Hv]. Qed.

Lemma new_spec r c vs limits :
  Forall is_term vs →
  outcome (λ e, e ≠ None ∧ ¬ Within limits (mkBmlMatrix r c vs limits))
    (λ m, m = mkBmlMatrix r c vs limits ∧ Within limits m) (Matrix.new r c vs limits).
Proof.
  intros Ht. unfold Matrix.new.
  pose proof (validate_spec (mkBmlMatrix r c vs limits) limits Ht) as Hv.
  unfold Matrix.validate at 1 in Hv. cbn [rows columns values] in Hv.
  destruct (Matrix.count r c limits) as [n|e]; cbn [mbind Result_bind] in Hv |- *; [|done].
  destruct (negb _) eqn:E; [done|]. 
  pose proof (validate_spec (mkBmlMatrix r c vs limits) limits Ht) as Hw.
  destruct (Matrix.validate (mkBmlMatrix r c vs limits) limits); cbn [mbind Result_bind outcome]; [by split|done].
Qed.

(** Every matrix an operation returns comes from [new]. *)
Lemma new_safe r c vs limits :
  0 ≤ r → 0 ≤ c → Forall is_term vs →
  safe (λ m, m = mkBmlMatrix r c vs limits ∧ Valid m) (Matrix.new r c vs limits).
Proof.
  intros Hr Hc Ht. pose proof (new_spec r c vs limits Ht) as H.
  destruct (Matrix.new r c vs limits) as [m|e]; [|by destruct H].
  destruct H as [-> H]. split; [done|]. by constructor.
Qed.

(** ** Access *)

Lemma valid_index m i j :
  Valid m → 0 ≤ i < rows m → 0 ≤ j < columns m →
  ∃ v, values m !! Z.to_nat (i * columns m + j) = Some v ∧ is_term v.
Proof.
  intros [_ _ Ht [Hc _ _ _ _ _]] Hi Hj.
  destruct (lookup_lt_is_Some_Z (values m) (i * columns m + j)) as [v Hv]; [nia|].
  exists v. split; [done|]. by eapply Forall_lookup_1.
Qed.

Definition in_range (m : BmlMatrix) (i j : Z) : Prop := 0 ≤ i < rows m ∧ 0 ≤ j < columns m.

Lemma get_spec m i j :
  Valid m → 0 ≤ i → 0 ≤ j →
  (in_range m i j ∧ ∃ v, Matrix.get m i j = Ok v ∧
     values m !! Z.to_nat (i * columns m + j) = Some v ∧ is_term v) ∨
  (¬ in_range m i j ∧ Matrix.get m i j = Err (Some (MatrixIndex i j))).
Proof.
  intros Hm Hi Hj. unfold Matrix.get, Matrix.index, in_range.
  destruct (Z.leb_spec (rows m) i), (Z.leb_spec (columns m) j); cbn [orb]; try (right; split; [lia|done]).
  left. split; [lia|]. destruct (valid_index m i j Hm) as (v & Hv & Ht); [lia..|].
  exists v. by rewrite Hv.
Qed.

(** ** Operands and the growing output *)

Definition prepared (v : Bml) (c : CertifiedBml) : Prop := certified c ∧ term c = v.

Lemma prepare_safe m limits :
  Valid m → options_ok (scalar limits) → safe (λ p, Forall2 prepared (values m) p) (Matrix.prepare m limits).
Proof.
  intros Hm Ho. pose proof (valid_terms m Hm) as Ht. unfold Matrix.prepare.
  eapply outcome_bind; [by apply validate_safe|]. intros _ _ _.
  eapply outcome_bind; [by apply validate_safe|]. intros _ _ _.
  eapply outcome_weaken; [apply (outcome_for_each _ (λ k p, Forall2 prepared (take k (values m)) p));
    [constructor|]|intros p Hp; by rewrite length_enumerate, firstn_all in Hp].
  intros k [i v] p Hk Hp. rewrite lookup_enumerate in Hk. apply fmap_Some in Hk as (u & Hk & [= -> ->]).
  destruct (Forall_lookup_1 _ _ _ _ Ht Hk) as [t Hr].
  pose proof (certify_exact_lemma (scalar limits) u t Ho Hr) as H.
  destruct (Recognize.certify_exact u (scalar limits)) as [c|e]; [|done]. cbn.
  rewrite (take_S_r _ _ _ Hk). by apply Forall2_app, Forall2_cons.
Qed.

(** The output after [k] elements, each described by [E]. *)
Record Produced (E : nat → Bml → Prop) (k : nat) (vs : list Bml) : Prop :=
mkProduced {
  produced_length : length vs = k;
  produced_terms : Forall is_term vs;
  produced_entries : ∀ j v, vs !! j = Some v → E j v;
}.

Definition producing (E : nat → Bml → Prop) (k : nat) (state : list Bml * Z * Z) : Prop :=
  Produced E k state.1.1.

Lemma budget_safe v work limits i j k :
  safe (λ _, True) (Matrix.budget i j k (Matrix.charge v work limits)).
Proof. unfold Matrix.budget. by apply outcome_map_err. Qed.

Lemma retain_safe limits E k vs v total i j :
  Produced E k vs → is_term v → E k v →
  safe (λ s, Produced E (S k) s.1) (Matrix.retain vs v total limits i j).
Proof.
  intros [Hlen Ht HE] Hv Hk. unfold Matrix.retain.
  eapply outcome_bind with (P := λ _, True); [by apply outcome_ok_or|]. intros n _ _.
  destruct (_ <? n); [done|]. cbn. constructor.
  - rewrite length_app. cbn. lia.
  - by apply Forall_app_2; [|apply Forall_singleton].
  - intros l w Hl. apply lookup_app_Some in Hl as [Hl|[Hge Hl]]; [by apply HE|].
    apply list_lookup_singleton_Some in Hl as [Hl <-]. by replace l with k by lia.
Qed.

Lemma store_safe limits E k state i j result :
  producing E k state →
  (∀ c, result = Ok c → is_term (term c) ∧ E k (term c)) →
  safe (producing E (S k)) (Matrix.store limits i j result state).
Proof.
  destruct state as [[vs work] total]. intros Hp Hc. unfold Matrix.store.
  destruct result as [c|e]; [|done]. destruct (Hc c eq_refl) as [Ht HE]. cbn [map_err mbind Result_bind].
  eapply outcome_bind; [apply budget_safe|]. intros w _ _.
  eapply outcome_bind; [by apply (retain_safe _ E k)|]. by intros [vs' total'] _ H.
Qed.

(** A finished output becomes a valid matrix. *)
Lemma finish_safe limits E r c vs :
  0 ≤ r → 0 ≤ c → Produced E (Z.to_nat (r * c)) vs →
  safe (λ m, Valid m ∧ rows m = r ∧ columns m = c ∧ matrix_limits m = limits ∧
             ∀ i j, in_range m i j → ∃ v, Matrix.get m i j = Ok v ∧ E (Z.to_nat (i * c + j)) v)
    (Matrix.new r c vs limits).
Proof.
  intros Hr Hc [Hlen Ht HE]. eapply outcome_weaken; [by apply new_safe|].
  intros m [-> Hm]. split; [done|]. split; [done|]. split; [done|]. split; [done|].
  intros i j Hij. pose proof Hij as [Hi Hj].
  destruct (get_spec _ i j Hm) as [(_ & v & Hg & Hv & _)|[Hn _]]; [lia..| |done].
  exists v. split; [done|]. by apply HE.
Qed.

(** What a certificate operation gives, when it succeeds. *)
Lemma binary_success options op a b :
  options_ok options → certified a → certified b →
  ∀ c, Checked.binary a b op options = Ok c →
    certified c ∧ (rat_Q (target c) == operation_Q op (rat_Q (target a)) (rat_Q (target b)))%Q.
Proof.
  intros Ho Ha Hb c Hc. pose proof (binary_outcome options a b op Ho Ha Hb) as H. rewrite Hc in H.
  by destruct H as (? & ? & _).
Qed.

Lemma certified_is_term c : certified c → is_term (term c).
Proof. intros (ts & vs & t & _ & _ & _ & Hr). by exists t. Qed.

(** The values of prepared operands, by position. *)
Definition value_at (p : list CertifiedBml) (k : nat) : Q :=
  match p !! k with Some c => rat_Q (target c) | None => 0 end.

(** [v] has the rational value [q]. *)
Definition has_value (q : Q) (v : Bml) : Prop := Value v (Q2R q).

Lemma has_value_eq q q' v : (q == q')%Q → has_value q v → has_value q' v.
Proof. unfold has_value. intros H. by rewrite (Qeq_eqR _ _ H). Qed.

Lemma certified_has_value c : certified c → has_value (rat_Q (target c)) (term c).
Proof. apply certified_value. Qed.

(** Entry [i, j] of [m] has the value [X i j]. *)
Definition Entries (m : BmlMatrix) (X : Z → Z → Q) : Prop :=
  ∀ i j, in_range m i j → ∃ v, Matrix.get m i j = Ok v ∧ has_value (X i j) v.

Lemma prepared_entries m p :
  Valid m → Forall2 prepared (values m) p → Entries m (λ i j, value_at p (Z.to_nat (i * columns m + j))).
Proof.
  intros Hm Hp i j Hij. pose proof Hij as [Hi Hj].
  destruct (get_spec _ i j Hm) as [(_ & v & Hg & Hv & _)|[Hn _]]; [lia..| |done].
  exists v. split; [done|]. destruct (Forall2_lookup_l _ _ _ _ _ Hp Hv) as (c & Hc & Hcert & <-).
  unfold value_at. rewrite Hc. by apply certified_has_value.
Qed.

Definition scalar_op (multiply : bool) (x y : Q) : Q := (if multiply then x * y else x + y)%Q.

(** ** Elementwise operations *)

Lemma operation_success options (multiply : bool) a b :
  options_ok options → certified a → certified b →
  ∀ c, (if multiply then Checked.checked_mul a b options else Checked.checked_add a b options) = Ok c →
    certified c ∧ (rat_Q (target c) == scalar_op multiply (rat_Q (target a)) (rat_Q (target b)))%Q.
Proof.
  intros Ho Ha Hb c. destruct multiply; [apply (binary_success options OpMul)|apply (binary_success options OpAdd)]; done.
Qed.

Lemma operation_entry options multiply a b (E : Bml → Prop) :
  options_ok options → certified a → certified b →
  E = has_value (scalar_op multiply (rat_Q (target a)) (rat_Q (target b))) →
  ∀ c, (if multiply : bool then Checked.checked_mul a b options else Checked.checked_add a b options) = Ok c →
    is_term (term c) ∧ E (term c).
Proof.
  intros Ho Ha Hb -> c Hc. destruct (operation_success options multiply a b Ho Ha Hb c Hc) as [Hcert HQ].
  split; [by apply certified_is_term|]. eapply has_value_eq; [exact HQ|]. by apply certified_has_value.
Qed.

Lemma prepared_length m p :
  Valid m → Forall2 prepared (values m) p → Z.of_nat (length p) = rows m * columns m.
Proof. intros Hm Hp. rewrite <- (Forall2_length _ _ _ Hp). symmetry. apply Hm. Qed.

Lemma prepared_lookup m p k c : Forall2 prepared (values m) p → p !! k = Some c → certified c.
Proof. intros Hp Hk. by destruct (Forall2_lookup_r _ _ _ _ _ Hp Hk) as (v & _ & Hc & _). Qed.

Lemma elementwise_safe self rhs limits multiply :
  Valid self → Valid rhs → options_ok (scalar limits) →
  safe (λ m, Valid m ∧ rows m = rows self ∧ columns m = columns self ∧ matrix_limits m = limits ∧
     Matrix.shape rhs = Matrix.shape self ∧
     ∃ X Y, Entries self X ∧ Entries rhs Y ∧ Entries m (λ i j, scalar_op multiply (X i j) (Y i j)))
    (Matrix.elementwise self rhs limits multiply).
Proof.
  intros Hs Hr Ho. unfold Matrix.elementwise. case_bool_decide as Hshape; cbn [negb]; [|done].
  pose proof Hshape as [= Hrows Hcols].
  eapply outcome_bind; [by apply prepare_safe|]. intros a _ Ha.
  eapply outcome_bind; [by apply prepare_safe|]. intros b _ Hb.
  pose (E k := has_value (scalar_op multiply (value_at a k) (value_at b k))).
  eapply outcome_bind; [apply (outcome_for_each _ (producing E))|].
  - by constructor.
  - intros k [i [ca cb]] st Hk Hst. rewrite lookup_enumerate in Hk.
    apply fmap_Some in Hk as ([u w] & Hk & [= -> <- <-]).
    apply lookup_zip_Some in Hk as [Hka Hkb].
    apply (store_safe _ E); [done|]. apply (operation_entry (scalar limits) multiply ca cb (E k));
      [done|exact (prepared_lookup _ _ _ _ Ha Hka)|exact (prepared_lookup _ _ _ _ Hb Hkb)|]. unfold E, value_at. by rewrite Hka, Hkb.
  - intros [[vs work] total] _ Hp. cbn [fst snd] in Hp.
    pose proof (prepared_length _ _ Hs Ha) as Hla. pose proof (prepared_length _ _ Hr Hb) as Hlb.
    rewrite length_enumerate, length_zip_with_l_eq in Hp by (rewrite <- Hrows, <- Hcols in Hlb; lia).
    rewrite <- (Nat2Z.id (length a)), Hla in Hp.
    eapply outcome_weaken; [apply (finish_safe limits E); [apply Hs..|done]|].
    intros m (Hm & Hmr & Hmc & Hml & HE). repeat (split; [done|]).
    exists (λ i j, value_at a (Z.to_nat (i * columns self + j))), (λ i j, value_at b (Z.to_nat (i * columns rhs + j))).
    split; [by apply prepared_entries|]. split; [by apply prepared_entries|].
    intros i j Hij. rewrite <- Hcols. by apply HE.
Qed.

Lemma scalar_map_safe `{OperandLaws T} self (s : T) limits multiply :
  Valid self → options_ok (scalar limits) → operand_ok s →
  safe (λ m, Valid m ∧ rows m = rows self ∧ columns m = columns self ∧ matrix_limits m = limits ∧
     ∃ X y, Entries self X ∧ operand_value s y ∧ Entries m (λ i j, scalar_op multiply (X i j) y))
    (Matrix.scalar_map self s limits multiply).
Proof.
  intros Hs Ho Hok. unfold Matrix.scalar_map.
  eapply outcome_bind; [apply validate_safe, Hs|]. intros _ _ _.
  eapply outcome_bind; [by apply (outcome_map_err _ (λ c, into_certified s (scalar limits) = Ok c))|].
  intros c _ Hc. destruct (into_certified_sound s (scalar limits) c Ho Hok Hc) as [Hcc Hcv].
  eapply outcome_bind; [by apply prepare_safe|]. intros a _ Ha.
  pose (E k := has_value (scalar_op multiply (value_at a k) (rat_Q (target c)))).
  eapply outcome_bind; [apply (outcome_for_each _ (producing E))|].
  - by constructor.
  - intros k [i ca] st Hk Hst. rewrite lookup_enumerate in Hk.
    apply fmap_Some in Hk as (u & Hk & [= -> <-]).
    apply (store_safe _ E); [done|]. apply (operation_entry (scalar limits) multiply ca c (E k));
      [done|exact (prepared_lookup _ _ _ _ Ha Hk)|done|]. unfold E, value_at. by rewrite Hk.
  - intros [[vs work] total] _ Hp. cbn [fst snd] in Hp.
    rewrite length_enumerate, <- (Nat2Z.id (length a)), (prepared_length _ _ Hs Ha) in Hp.
    eapply outcome_weaken; [apply (finish_safe limits E); [apply Hs..|done]|].
    intros m (Hm & Hmr & Hmc & Hml & HE). repeat (split; [done|]).
    exists (λ i j, value_at a (Z.to_nat (i * columns self + j))), (rat_Q (target c)).
    split; [by apply prepared_entries|]. split; [done|]. intros i j Hij. by apply HE.
Qed.

(** ** Products *)

(** Loops over rows and columns visit the cells in row-major order. *)
Lemma grid_safe {St} (P : nat → St → Prop) (cell : Z → Z → St → Matrix.Result St) nr nc s :
  0 ≤ nr → 0 ≤ nc → P 0%nat s →
  (∀ i j t, 0 ≤ i < nr → 0 ≤ j < nc → P (Z.to_nat (i * nc + j)) t →
     safe (P (S (Z.to_nat (i * nc + j)))) (cell i j t)) →
  safe (P (Z.to_nat (nr * nc)))
    (for_each (λ row state, for_each (λ column state, cell row column state) (seqZ 0 nc) state) (seqZ 0 nr) s).
Proof.
  intros Hr Hc H0 Hcell.
  eapply outcome_weaken; [apply (outcome_for_each _ (λ k, P (Z.to_nat (Z.of_nat k * nc))))|].
  - done.
  - intros k i t Hk Ht. apply lookup_seqZ in Hk as [-> Hk].
    eapply outcome_weaken; [apply (outcome_for_each _ (λ l, P (Z.to_nat (Z.of_nat k * nc + Z.of_nat l))))|].
    + by rewrite Z.add_0_r.
    + intros l j u Hl Hu. apply lookup_seqZ in Hl as [-> Hl]. rewrite !Z.add_0_l.
      replace (Z.to_nat (Z.of_nat k * nc + Z.of_nat (S l))) with (S (Z.to_nat (Z.of_nat k * nc + Z.of_nat l))) by nia.
      apply Hcell; [lia..|done].
    + intros u Hu. rewrite length_seqZ in Hu.
      by replace (Z.of_nat (S k) * nc) with (Z.of_nat k * nc + Z.of_nat (Z.to_nat nc)) by lia.
  - intros t Ht. rewrite length_seqZ in Ht. by rewrite Z2Nat.id in Ht by lia.
Qed.

Lemma row_major i j nc : 0 ≤ i → 0 ≤ j < nc → Z.of_nat (Z.to_nat (i * nc + j)) `div` nc = i ∧
  Z.of_nat (Z.to_nat (i * nc + j)) `mod` nc = j.
Proof.
  intros Hi Hj. rewrite Z2Nat.id by nia. split.
  - rewrite Z.div_add_l, Z.div_small by lia. lia.
  - by rewrite Z.add_comm, Z.mod_add, Z.mod_small by lia.
Qed.

(** The sum of the first [k] products of row [i] of [X] with column [j] of [Y]. *)
Fixpoint dot (X Y : Z → Z → Q) (i j : Z) (k : nat) : Q :=
  match k with
  | O => 0
  | S k => dot X Y i j k + X i (Z.of_nat k) * Y (Z.of_nat k) j
  end.

Section matmul.
Context (self rhs : BmlMatrix) (limits : MatrixLimits) (a b : list CertifiedBml).
Context (Hs : Valid self) (Hr : Valid rhs) (Ho : options_ok (scalar limits)).
Context (Ha : Forall2 prepared (values self) a) (Hb : Forall2 prepared (values rhs) b).
Context (Hinner : columns self = rows rhs).

Definition left_entry (i k : Z) : Q := value_at a (Z.to_nat (i * columns self + k)).
Definition right_entry (k j : Z) : Q := value_at b (Z.to_nat (k * columns rhs + j)).

Lemma index_prepared m p i j :
  Valid m → Forall2 prepared (values m) p → 0 ≤ i < rows m → 0 ≤ j < columns m →
  ∃ c, Matrix.index p (i * columns m + j) = Ok c ∧ certified c ∧
       value_at p (Z.to_nat (i * columns m + j)) = rat_Q (target c).
Proof.
  intros Hm Hp Hi Hj. pose proof (prepared_length _ _ Hm Hp).
  destruct (lookup_lt_is_Some_Z p (i * columns m + j)) as [c Hc]; [nia|].
  exists c. unfold Matrix.index, value_at. rewrite Hc. split; [done|]. split; [|done].
  by apply (prepared_lookup _ _ _ _ Hp Hc).
Qed.

(** The accumulator after [k] products. *)
Definition accumulated (i j : Z) (k : nat) (state : option CertifiedBml * Z) : Prop :=
  match state.1 with
  | None => k = 0%nat
  | Some c => certified c ∧ (rat_Q (target c) == dot left_entry right_entry i j k)%Q
  end.

Lemma matmul_step_safe i j k state :
  0 ≤ i < rows self → 0 ≤ j < columns rhs → Z.of_nat k < columns self →
  accumulated i j k state →
  safe (accumulated i j (S k)) (Matrix.matmul_step self rhs a b limits i j (Z.of_nat k) state).
Proof.
  intros Hi Hj Hk Hacc. destruct state as [acc work]. unfold Matrix.matmul_step.
  destruct (index_prepared self a i (Z.of_nat k) Hs Ha) as (x & -> & Hx & Hxv); [lia..|].
  destruct (index_prepared rhs b (Z.of_nat k) j Hr Hb) as (y & -> & Hy & Hyv); [lia..|].
  cbn [mbind Result_bind].
  eapply outcome_bind; [by apply (outcome_map_err _ (λ c, Checked.checked_mul x y (scalar limits) = Ok c))|].
  intros p _ Hp. destruct (binary_success _ OpMul x y Ho Hx Hy p Hp) as [Hpc Hpv]. cbn in Hpv.
  eapply outcome_bind; [apply budget_safe|]. intros w _ _.
  assert (dot left_entry right_entry i j (S k)
    == dot left_entry right_entry i j k + rat_Q (target x) * rat_Q (target y))%Q as Hdot.
  { cbn [dot]. unfold left_entry, right_entry. by rewrite Hxv, Hyv. }
  destruct acc as [c|]; cbn [accumulated fst] in Hacc.
  - destruct Hacc as [Hc Hcv].
    eapply outcome_bind; [by apply (outcome_map_err _ (λ d, Checked.checked_add c p (scalar limits) = Ok d))|].
    intros d _ Hd. destruct (binary_success _ OpAdd c p Ho Hc Hpc d Hd) as [Hdc Hdv]. cbn in Hdv.
    eapply outcome_bind; [apply budget_safe|]. intros w' _ _. split; [done|]. cbn [fst].
    by rewrite Hdot, Hdv, Hcv, Hpv.
  - subst k. split; [done|]. rewrite Hdot, Hpv. cbn [dot]. by rewrite Qplus_0_l.
Qed.

Lemma zero_code : from_u64 88 = Ok (mkBml [88]).
Proof. reflexivity. Qed.

Lemma zero_has_value : has_value 0 (mkBml [88]) ∧ is_term (mkBml [88]).
Proof.
  assert (Represents (mkBml [88]) (T_log2 One)) as H by (split; [split; [solve_words|done]|reflexivity]).
  split; [exists (T_log2 One); split; [done|apply denotes_zero_term]|by exists (T_log2 One)].
Qed.

(** Every cell of the output is the dot product of its row and column. *)
Definition product_entry (k : nat) : Bml → Prop :=
  has_value (dot left_entry right_entry (Z.of_nat k `div` columns rhs) (Z.of_nat k `mod` columns rhs)
    (Z.to_nat (columns self))).

Lemma matmul_cell_safe i j state :
  0 ≤ i < rows self → 0 ≤ j < columns rhs →
  producing product_entry (Z.to_nat (i * columns rhs + j)) state →
  safe (producing product_entry (S (Z.to_nat (i * columns rhs + j))))
    (Matrix.matmul_cell self rhs a b limits i j state).
Proof.
  intros Hi Hj Hp. destruct state as [[vs work] total]. unfold Matrix.matmul_cell.
  pose proof (row_major i j (columns rhs) ltac:(lia) Hj) as [Hdiv Hmod].
  eapply outcome_bind; [apply (outcome_for_each _ (accumulated i j)); [done|]|].
  { intros k l st Hl. apply lookup_seqZ in Hl as [-> Hl]. rewrite Z.add_0_l.
    apply matmul_step_safe; [done..|lia]. }
  rewrite length_seqZ. intros [acc w] _ Hacc. cbn [accumulated fst] in Hacc.
  eapply (outcome_bind _ (λ st, is_term st.1 ∧ product_entry (Z.to_nat (i * columns rhs + j)) st.1)).
  - unfold product_entry. rewrite Hdiv, Hmod. destruct acc as [c|].
    + destruct Hacc as [Hc HQ]. split; [by apply certified_is_term|].
      by eapply has_value_eq, certified_has_value.
    + rewrite zero_code. cbn [map_err mbind Result_bind]. eapply outcome_bind; [apply budget_safe|].
      intros w' _ _. cbn [outcome fst]. rewrite Hacc. split; apply zero_has_value.
  - intros [v w'] _ [Ht HE]. eapply outcome_bind; [by apply (retain_safe _ product_entry)|].
    by intros [vs' total'] _ H.
Qed.
End matmul.

Lemma matmul_safe self rhs limits :
  Valid self → Valid rhs → options_ok (scalar limits) →
  safe (λ m, Valid m ∧ rows m = rows self ∧ columns m = columns rhs ∧ matrix_limits m = limits ∧
     columns self = rows rhs ∧
     ∃ X Y, (rows self * columns rhs ≠ 0 → Entries self X ∧ Entries rhs Y) ∧
       Entries m (λ i j, dot X Y i j (Z.to_nat (columns self))))
    (Matrix.matmul_with_limits self rhs limits).
Proof.
  intros Hs Hr Ho. unfold Matrix.matmul_with_limits.
  destruct (Z.eqb_spec (columns self) (rows rhs)) as [Hinner|]; cbn [negb]; [|done].
  unfold Matrix.count at 1, checked_mul. destruct (Z.ltb_spec (rows self * columns rhs) W64); [|done].
  cbn [ok_or mbind Result_bind]. destruct (_ <? rows self * columns rhs); [done|]. cbn [mbind Result_bind].
  eapply outcome_bind; [apply validate_safe, Hs|]. intros _ _ _.
  eapply outcome_bind; [apply validate_safe, Hr|]. intros _ _ _.
  destruct (Z.eqb_spec (rows self * columns rhs) 0) as [Hz|Hnz].
  - eapply outcome_weaken; [apply new_safe; [apply Hs|apply Hr|done]|].
    intros m [-> Hm]. repeat (split; [done|]). exists (λ _ _, 0%Q), (λ _ _, 0%Q). split; [done|].
    intros i j [Hi Hj]. cbn in Hi, Hj. nia.
  - eapply outcome_bind; [by apply prepare_safe|]. cbn beta. intros a _ Ha.
    eapply outcome_bind; [by apply prepare_safe|]. cbn beta. intros b _ Hb.
    eapply outcome_bind; [apply (grid_safe (producing (product_entry self rhs a b)));
      [apply Hs|apply Hr|by constructor|]|].
    + intros i j st Hi Hj Hst. by apply matmul_cell_safe.
    + intros [[vs work] total] _ Hp. cbn [producing fst snd] in Hp.
      eapply outcome_weaken; [apply (finish_safe limits _ _ _ _ (valid_rows _ Hs) (valid_columns _ Hr) Hp)|].
      intros m (Hm & Hmr & Hmc & Hml & HE). repeat (split; [done|]).
      exists (left_entry self a), (right_entry rhs b).
      split; [intros _; split; by apply prepared_entries|].
      intros i j Hij. destruct (HE i j Hij) as (v & Hg & Hv). exists v. split; [done|].
      unfold product_entry in Hv. destruct Hij as [Hi Hj].
      by destruct (row_major i j (columns rhs)) as [-> ->] in Hv; [lia..|].
Qed.

(** ** Generalized products *)

Section generalized.
Context {S : Type} (combine accumulate : Bml → Bml → S → Result ExactError (Bml * S)).

(** Left-to-right reduction of [k] pairs from an initial accumulator and closure
    state: the reference for one cell. *)
Inductive Reduced (x y : nat → Bml) (acc0 : option Bml) (s0 : S) : nat → option Bml → S → Prop :=
  | Reduced_start : Reduced x y acc0 s0 0 acc0 s0
  | Reduced_first k s p s' :
      Reduced x y acc0 s0 k None s → combine (x k) (y k) s = Ok (p, s') →
      Reduced x y acc0 s0 (Datatypes.S k) (Some p) s'
  | Reduced_next k q s p s' r s'' :
      Reduced x y acc0 s0 k (Some q) s → combine (x k) (y k) s = Ok (p, s') →
      accumulate q p s' = Ok (r, s'') → Reduced x y acc0 s0 (Datatypes.S k) (Some r) s''.

Definition returns_terms (f : Bml → Bml → S → Result ExactError (Bml * S)) : Prop :=
  ∀ a b s v s', is_term a → is_term b → f a b s = Ok (v, s') → is_term v.

Definition init_ok (init : ReductionInit) : Prop :=
  match init with First empty => ∀ v, empty = Some v → is_term v | InitValue v => is_term v end.

Context (Hcombine : returns_terms combine) (Haccumulate : returns_terms accumulate).
Context (self rhs : BmlMatrix) (init : ReductionInit) (limits : MatrixLimits).
Context (Hs : Valid self) (Hr : Valid rhs) (Hinner : columns self = rows rhs) (Hinit : init_ok init).

(** Entry [i, j] of a matrix, by position; out of range is the leaf. *)
Definition entry (m : BmlMatrix) (i j : Z) : Bml := default (mkBml []) (values m !! Z.to_nat (i * columns m + j)).

Lemma at_index_spec m i j :
  Valid m → 0 ≤ i < rows m → 0 ≤ j < columns m →
  Matrix.at_index m i j = Ok (entry m i j) ∧ is_term (entry m i j).
Proof.
  intros Hm Hi Hj. destruct (get_spec m i j Hm) as [(_ & v & Hg & Hv & Ht)|[Hn _]]; [lia..| |].
  - unfold Matrix.at_index, entry. by rewrite Hg, Hv.
  - exfalso. apply Hn. split; lia.
Qed.

Definition pair_left (i : Z) (k : nat) : Bml := entry self i (Z.of_nat k).
Definition pair_right (j : Z) (k : nat) : Bml := entry rhs (Z.of_nat k) j.

Definition reducing (i j : Z) (acc0 : option Bml) (s0 : S) (k : nat) (state : option Bml * Z * S) : Prop :=
  Reduced (pair_left i) (pair_right j) acc0 s0 k state.1.1 state.2 ∧
  (∀ v, state.1.1 = Some v → is_term v).

Lemma product_step_safe i j acc0 s0 k state :
  0 ≤ i < rows self → 0 ≤ j < columns rhs → Z.of_nat k < columns self →
  reducing i j acc0 s0 k state →
  safe (reducing i j acc0 s0 (Datatypes.S k))
    (Matrix.product_step combine accumulate self rhs limits i j (Z.of_nat k) state).
Proof.
  intros Hi Hj Hk Hred. destruct state as [[acc work] s]. destruct Hred as [Hred Hacc]. cbn [fst snd] in Hred, Hacc.
  unfold Matrix.product_step.
  destruct (at_index_spec self i (Z.of_nat k) Hs) as [-> Hx]; [lia..|].
  destruct (at_index_spec rhs (Z.of_nat k) j Hr) as [-> Hy]; [lia..|].
  cbn [mbind Result_bind].
  fold (pair_left i k) (pair_right j k) in *.
  destruct (combine (pair_left i k) (pair_right j k) s) as [[p s']|e] eqn:Ec; [|done].
  pose proof (Hcombine _ _ _ _ _ Hx Hy Ec) as Hp. cbn [map_err mbind Result_bind].
  eapply outcome_bind; [apply budget_safe|]. intros w _ _.
  destruct acc as [q|].
  - destruct (accumulate q p s') as [[r s'']|e] eqn:Ea; [|done]. cbn [map_err mbind Result_bind].
    eapply outcome_bind; [apply budget_safe|]. intros w' _ _. split; [by eapply Reduced_next|].
    intros v [= <-]. by apply (Haccumulate q p s' r s''); [apply Hacc| |].
  - split; [by eapply Reduced_first|]. by intros v [= <-].
Qed.

(** A cell: the reduction of all its pairs from the policy's initial value, from
    some closure state. *)
Definition reduced_entry (k : nat) (v : Bml) : Prop :=
  ∃ s0 s, Reduced (pair_left (Z.of_nat k `div` columns rhs)) (pair_right (Z.of_nat k `mod` columns rhs))
    (Matrix.initial self init) s0 (Z.to_nat (columns self)) (Some v) s.

Lemma initial_term v : Matrix.initial self init = Some v → is_term v.
Proof.
  unfold Matrix.initial, init_ok in *. destruct init as [e|u]; [|by intros [= <-]].
  destruct (columns self =? 0); [apply Hinit|done].
Qed.

Lemma product_cell_safe i j state :
  0 ≤ i < rows self → 0 ≤ j < columns rhs →
  producing reduced_entry (Z.to_nat (i * columns rhs + j)) state.1 →
  safe (λ st, producing reduced_entry (Datatypes.S (Z.to_nat (i * columns rhs + j))) st.1)
    (Matrix.product_cell combine accumulate self rhs init limits i j state).
Proof.
  intros Hi Hj Hp. destruct state as [[[vs work] total] s]. unfold Matrix.product_cell.
  pose proof (row_major i j (columns rhs) ltac:(lia) Hj) as [Hdiv Hmod].
  eapply (outcome_bind _ (λ st, st.1 = Matrix.initial self init)).
  { destruct (Matrix.initial self init) as [v|]; [|done].
    eapply outcome_bind; [apply budget_safe|]. by intros w _ _. }
  intros [acc w] _ Hacc. cbn [fst] in Hacc. subst acc.
  eapply outcome_bind; [apply (outcome_for_each _ (reducing i j (Matrix.initial self init) s))|].
  - split; [constructor|]. apply initial_term.
  - intros k l st Hl. apply lookup_seqZ in Hl as [-> Hl]. rewrite Z.add_0_l.
    apply product_step_safe; [done..|lia].
  - rewrite length_seqZ. intros [[acc w'] s'] _ [Hred Ht]. cbn [fst snd] in Hred, Ht.
    destruct acc as [v|]; [|done]. cbn [ok_or mbind Result_bind].
    eapply outcome_bind; [apply (retain_safe _ reduced_entry _ _ _ _ _ _ Hp); [by apply Ht|]|].
    { unfold reduced_entry. rewrite Hdiv, Hmod. by exists s, s'. }
    by intros [vs' total'] _ H.
Qed.
End generalized.

Lemma generalized_product_safe {S} (combine accumulate : Bml → Bml → S → Result ExactError (Bml * S))
    self rhs init limits s :
  returns_terms combine → returns_terms accumulate → Valid self → Valid rhs → init_ok init →
  safe (λ '(m, _), Valid m ∧ rows m = rows self ∧ columns m = columns rhs ∧ columns self = rows rhs ∧
     ∀ i j, in_range m i j → ∃ v s0 s1, Matrix.get m i j = Ok v ∧
       Reduced combine accumulate (λ k, entry self i (Z.of_nat k)) (λ k, entry rhs (Z.of_nat k) j)
         (Matrix.initial self init) s0 (Z.to_nat (columns self)) (Some v) s1)
    (Matrix.generalized_product combine accumulate self rhs init limits s).
Proof.
  intros Hc Ha Hs Hr Hi. unfold Matrix.generalized_product.
  destruct (Z.eqb_spec (columns self) (rows rhs)) as [Hinner|]; cbn [negb]; [|done].
  do 4 (eapply outcome_bind; [apply validate_safe; apply Hs || apply Hr|]; intros _ _ _).
  unfold Matrix.count at 1, checked_mul. destruct (Z.ltb_spec (rows self * columns rhs) W64); [|done].
  cbn [ok_or mbind Result_bind]. destruct (_ <? rows self * columns rhs); [done|]. cbn [mbind Result_bind].
  destruct (_ && _); [done|]. destruct (Z.eqb_spec (rows self * columns rhs) 0) as [Hz|Hnz].
  - eapply outcome_bind; [apply new_safe; [apply Hs|apply Hr|done]|].
    intros m _ [-> Hm]. repeat (split; [done|]). intros i j [Hi' Hj']. cbn in Hi', Hj'. nia.
  - eapply outcome_bind; [apply (grid_safe (λ k st,
        producing (reduced_entry combine accumulate self rhs init) k st.1));
      [apply Hs|apply Hr|by constructor|]|].
    + intros i j st Hi' Hj' Hst. by apply product_cell_safe.
    + intros [[[vs work] total] s'] _ Hp. cbn [producing fst snd] in Hp.
      eapply outcome_bind; [apply (finish_safe limits _ _ _ _ (valid_rows _ Hs) (valid_columns _ Hr) Hp)|].
      intros m _ (Hm & Hmr & Hmc & _ & HE). repeat (split; [done|]).
      intros i j Hij. destruct (HE i j Hij) as (v & Hg & s0 & s1 & Hred). exists v, s0, s1. split; [done|].
      destruct Hij as [Hi' Hj']. by destruct (row_major i j (columns rhs)) as [-> ->] in Hred; [lia..|].
Qed.

(** ** Construction and replacement *)

Lemma new_iff r c vs limits :
  Forall is_term vs →
  (∃ m, Matrix.new r c vs limits = Ok m) ↔ Within limits (mkBmlMatrix r c vs limits).
Proof.
  intros Ht. pose proof (new_spec r c vs limits Ht) as H. destruct (Matrix.new r c vs limits) as [m|e].
  - destruct H as [-> H]. split; [done|by eexists].
  - split; [by intros [? ?]|]. intros Hw. by destruct H.
Qed.

Lemma sum_bits_insert vs k v w :
  vs !! k = Some w → sum_bits (<[k := v]> vs) = sum_bits vs - bit_len w + bit_len v.
Proof.
  revert k. induction vs as [|u vs IH]; intros [|k] Hk; [done|done|injection Hk as ->|].
  - change (bit_len v + sum_bits vs = bit_len w + sum_bits vs - bit_len w + bit_len v). lia.
  - change (bit_len u + sum_bits (<[k := v]> vs) = bit_len u + sum_bits vs - bit_len w + bit_len v).
    rewrite (IH _ Hk). lia.
Qed.

Lemma replaced_valid m k v old :
  Valid m → is_term v → values m !! k = Some old →
  sum_bits (values m) - bit_len old + bit_len v < W64 →
  sum_bits (values m) - bit_len old + bit_len v ≤ matrix_max_total_bits (matrix_limits m) →
  bit_len v ≤ max_bits (scalar (matrix_limits m)) →
  Valid (mkBmlMatrix (rows m) (columns m) (<[k := v]> (values m)) (matrix_limits m)).
Proof.
  intros [Hr Hc Ht [Hn He Hu Hb Hbu Hf]] Hv Hk Hw Htot Hbit. constructor; [done|done|by apply Forall_insert|].
  constructor; cbn [rows columns values matrix_limits]; rewrite ?length_insert, ?(sum_bits_insert _ _ _ _ Hk); try done.
  by apply Forall_insert.
Qed.

Lemma replaced_get m i j v i' j' :
  Valid m → in_range m i j → in_range m i' j' →
  Matrix.get (mkBmlMatrix (rows m) (columns m) (<[Z.to_nat (i * columns m + j) := v]> (values m)) (matrix_limits m)) i' j'
  = if bool_decide ((i', j') = (i, j)) then Ok v else Matrix.get m i' j'.
Proof.
  intros Hm [Hi Hj] [Hi' Hj']. unfold Matrix.get, Matrix.index. cbn [rows columns values].
  destruct (Z.leb_spec (rows m) i'), (Z.leb_spec (columns m) j'); try lia. cbn [orb].
  case_bool_decide as E.
  - injection E as -> ->. destruct (valid_index m i j Hm Hi Hj) as (u & Hu & _).
    rewrite list_lookup_insert_eq; [done|]. by eapply lookup_lt_Some.
  - rewrite list_lookup_insert_ne; [done|]. intros Heq. apply E.
    pose proof (row_major i j (columns m)) as H1. pose proof (row_major i' j' (columns m)) as H2.
    rewrite Heq in H1. destruct H1 as [H1 H1']; [lia..|]. destruct H2 as [H2 H2']; [lia..|].
    congruence.
Qed.

Lemma replace_spec m i j v :
  Valid m → 0 ≤ i → 0 ≤ j → is_term v →
  let '(m', answer) := Matrix.replace m i j v in
  Valid m' ∧ Matrix.shape m' = Matrix.shape m ∧
  match answer with
  | Ok old => Matrix.get m i j = Ok old ∧ Matrix.get m' i j = Ok v ∧
      ∀ i' j', in_range m i' j' → (i', j') ≠ (i, j) → Matrix.get m' i' j' = Matrix.get m i' j'
  | Err e => e ≠ None ∧ m' = m
  end.
Proof.
  intros Hm Hi Hj Hv. unfold Matrix.replace.
  destruct (get_spec m i j Hm Hi Hj) as [(Hin & old & Hg & Hk & _)|[_ Hg]]; rewrite Hg; cbn [mbind Result_bind]; [|done].
  rewrite total_bits_spec by apply Hm. destruct (_ <? W64); cbn [mbind Result_bind]; [|done].
  unfold checked_sub. destruct (_ <=? sum_bits (values m)); cbn [mbind option_bind ok_or Result_bind]; [|done].
  unfold checked_add. destruct (Z.ltb_spec (sum_bits (values m) - bit_len old + bit_len v) W64);
    cbn [ok_or mbind Result_bind]; [|done].
  destruct (Z.ltb_spec (max_bits (scalar (matrix_limits m))) (bit_len v)); cbn [orb]; [done|].
  destruct (Z.ltb_spec (matrix_max_total_bits (matrix_limits m)) (sum_bits (values m) - bit_len old + bit_len v)); [done|].
  unfold Matrix.index. rewrite Hk. cbn [ok_or]. split; [by eapply replaced_valid|]. split; [done|].
  split; [done|]. split; [rewrite replaced_get by done; by rewrite bool_decide_true|].
  intros i' j' Hin' Hne. rewrite replaced_get by done. by rewrite bool_decide_false.
Qed.

(** ** The theorems *)

(** A matrix stays valid: [new] succeeds exactly on data that fill the shape
    within every budget; [replace] keeps the invariant, gives back the old entry,
    changes no other entry, and leaves the matrix as it was when it fails; checked
    access answers exactly inside the shape. None of them panics. *)
Theorem matrix_invariant r c vs limits m i j v :
  0 ≤ r → 0 ≤ c → Forall is_term vs → Valid m → 0 ≤ i → 0 ≤ j → is_term v →
  ((∃ m', Matrix.new r c vs limits = Ok m') ↔ Within limits (mkBmlMatrix r c vs limits)) ∧
  safe (λ m', m' = mkBmlMatrix r c vs limits ∧ Valid m') (Matrix.new r c vs limits) ∧
  safe (λ u, in_range m i j ∧ is_term u) (Matrix.get m i j) ∧
  (let '(m', answer) := Matrix.replace m i j v in
   Valid m' ∧ Matrix.shape m' = Matrix.shape m ∧
   match answer with
   | Ok old => Matrix.get m i j = Ok old ∧ Matrix.get m' i j = Ok v ∧
       ∀ i' j', in_range m i' j' → (i', j') ≠ (i, j) → Matrix.get m' i' j' = Matrix.get m i' j'
   | Err e => e ≠ None ∧ m' = m
   end).
Proof.
  intros Hr Hc Hvs Hm Hi Hj Hv. split; [by apply new_iff|]. split; [by apply new_safe|].
  split; [|by apply replace_spec].
  destruct (get_spec m i j Hm Hi Hj) as [(Hin & u & -> & _ & Ht)|[_ ->]]; [by split|done].
Qed.

(** Elementwise sum and product are exact: whenever the operation returns a
    matrix it is valid under the given limits, has the operands' shape, and each
    entry has exactly the sum or product of the operands' real values there; the
    only other outcome is an error, never a panic. Sums and products with a scalar
    of any kind likewise. *)
Theorem elementwise_exact `{OperandLaws T} self rhs (s : T) limits multiply :
  Valid self → Valid rhs → options_ok (scalar limits) → operand_ok s →
  safe (λ m, Valid m ∧ rows m = rows self ∧ columns m = columns self ∧ matrix_limits m = limits ∧
     Matrix.shape rhs = Matrix.shape self ∧
     ∃ X Y, Entries self X ∧ Entries rhs Y ∧ Entries m (λ i j, scalar_op multiply (X i j) (Y i j)))
    (Matrix.elementwise self rhs limits multiply) ∧
  safe (λ m, Valid m ∧ rows m = rows self ∧ columns m = columns self ∧ matrix_limits m = limits ∧
     ∃ X y, Entries self X ∧ operand_value s y ∧ Entries m (λ i j, scalar_op multiply (X i j) y))
    (Matrix.scalar_map self s limits multiply).
Proof. intros Hs Hr Ho Hok. split; [by apply elementwise_safe|by apply scalar_map_safe]. Qed.

(** [C36] The matrix product is exact: a returned matrix is valid, and its entry
    [(i, j)] has exactly the real value of the sum over [k] of the products of the
    entries [(i, k)] and [(k, j)], an empty sum being zero; anything else is an
    error, never a panic. *)
Theorem matmul_exact self rhs limits :
  Valid self → Valid rhs → options_ok (scalar limits) →
  safe (λ m, Valid m ∧ rows m = rows self ∧ columns m = columns rhs ∧ matrix_limits m = limits ∧
     columns self = rows rhs ∧
     ∃ X Y, (rows self * columns rhs ≠ 0 → Entries self X ∧ Entries rhs Y) ∧
       Entries m (λ i j, dot X Y i j (Z.to_nat (columns self))))
    (Matrix.matmul_with_limits self rhs limits).
Proof. apply matmul_safe. Qed.

(** The generalized product refines a left-to-right reduction: with any
    stateful callbacks that return terms, each entry of a returned matrix is what
    reducing its row against its column gives, the callback state threaded from
    call to call, from the first product, the given value, or the explicit value
    for an empty reduction. It never panics and never returns an invalid matrix. *)
Theorem generalized_product_reduces {S} (combine accumulate : Bml → Bml → S → Result ExactError (Bml * S))
    self rhs init limits s :
  returns_terms combine → returns_terms accumulate → Valid self → Valid rhs → init_ok init →
  safe (λ '(m, _), Valid m ∧ rows m = rows self ∧ columns m = columns rhs ∧ columns self = rows rhs ∧
     ∀ i j, in_range m i j → ∃ v s0 s1, Matrix.get m i j = Ok v ∧
       Reduced combine accumulate (λ k, entry self i (Z.of_nat k)) (λ k, entry rhs (Z.of_nat k) j)
         (Matrix.initial self init) s0 (Z.to_nat (columns self)) (Some v) s1)
    (Matrix.generalized_product combine accumulate self rhs init limits s).
Proof. apply generalized_product_safe. Qed.

(** ** Examples: the row [(2, 1)] and the column [(1, 2)] *)

Definition one_tree : Bml := mkBml [].
Definition two_tree : Bml := mkBml [4].
Definition row_matrix : BmlMatrix := mkBmlMatrix 1 2 [two_tree; one_tree] MatrixLimits_default.
Definition column_matrix : BmlMatrix := mkBmlMatrix 2 1 [one_tree; two_tree] MatrixLimits_default.

Lemma one_is_term : is_term one_tree.
Proof. exists One. split; [split; [solve_words|done]|reflexivity]. Qed.
Lemma two_is_term : is_term two_tree.
Proof. exists (Op One One). split; [split; [solve_words|done]|reflexivity]. Qed.

Lemma validated m : 0 ≤ rows m → 0 ≤ columns m → Forall is_term (values m) →
  is_ok (Matrix.validate m (matrix_limits m)) = true → Valid m.
Proof.
  intros Hr Hc Ht H. pose proof (validate_spec m (matrix_limits m) Ht) as Hv.
  destruct (Matrix.validate m (matrix_limits m)); [by constructor|done].
Qed.

Lemma row_valid : Valid row_matrix.
Proof.
  apply validated; [done|done| |vm_compute; reflexivity].
  repeat constructor; [apply two_is_term|apply one_is_term].
Qed.
Lemma column_valid : Valid column_matrix.
Proof.
  apply validated; [done|done| |vm_compute; reflexivity].
  repeat constructor; [apply one_is_term|apply two_is_term].
Qed.

Lemma matrix_invariant_witness :
  ∃ m, Matrix.new 1 2 [two_tree; one_tree] MatrixLimits_default = Ok m ∧
    (let '(m', answer) := Matrix.replace m 0 1 two_tree in
     answer = Ok one_tree ∧ Valid m' ∧ Matrix.get m' 0 0 = Ok two_tree).
Proof.
  assert (Matrix.new 1 2 [two_tree; one_tree] MatrixLimits_default = Ok row_matrix) as E
    by (vm_compute; reflexivity).
  exists row_matrix. split; [exact E|].
  pose proof (matrix_invariant 1 2 [two_tree; one_tree] MatrixLimits_default row_matrix 0 1 two_tree
    ltac:(done) ltac:(done) ltac:(repeat constructor; [apply two_is_term|apply one_is_term])
    row_valid ltac:(done) ltac:(done) two_is_term) as (_ & _ & _ & H).
  destruct (Matrix.replace row_matrix 0 1 two_tree) as [m' answer] eqn:Er.
  destruct H as (Hm & _ & _). vm_compute in Er. injection Er as <- <-.
  split; [reflexivity|]. split; [exact Hm|reflexivity].
Defined.

Lemma matmul_exact_witness :
  ∃ m, Matrix.matmul_with_limits row_matrix column_matrix MatrixLimits_default = Ok m ∧ Valid m ∧
    ∃ X Y, Entries m (λ i j, dot X Y i j 2).
Proof.
  pose proof (matmul_exact row_matrix column_matrix MatrixLimits_default row_valid column_valid options_default_ok) as H.
  destruct (Matrix.matmul_with_limits row_matrix column_matrix MatrixLimits_default) as [m|e] eqn:E;
    [|vm_compute in E; discriminate E].
  destruct H as (Hm & _ & _ & _ & _ & X & Y & _ & HXY).
  exists m. split; [reflexivity|]. split; [exact Hm|]. exists X, Y. exact HXY.
Defined.

Lemma elementwise_exact_witness :
  (∃ m, Matrix.elementwise row_matrix row_matrix MatrixLimits_default true = Ok m ∧ Valid m) ∧
  (∃ m, Matrix.scalar_map row_matrix (mkInteger (-2)) MatrixLimits_default false = Ok m ∧ Valid m).
Proof.
  destruct (@elementwise_exact Integer integer_operand integer_laws row_matrix row_matrix (mkInteger (-2))
    MatrixLimits_default true row_valid row_valid options_default_ok I) as [H _].
  destruct (@elementwise_exact Integer integer_operand integer_laws row_matrix row_matrix (mkInteger (-2))
    MatrixLimits_default false row_valid row_valid options_default_ok I) as [_ H'].
  split.
  - destruct (Matrix.elementwise row_matrix row_matrix MatrixLimits_default true) as [m|e] eqn:E;
      [|vm_compute in E; discriminate E]. exists m. split; [reflexivity|apply H].
  - destruct (Matrix.scalar_map row_matrix (mkInteger (-2)) MatrixLimits_default false) as [m|e] eqn:E;
      [|vm_compute in E; discriminate E]. exists m. split; [reflexivity|apply H'].
Defined.

(** A callback that selects its second operand and counts its calls. *)
Definition counting_second (x y : Bml) (n : nat) : Result ExactError (Bml * nat) := Ok (y, S n).

Lemma generalized_product_reduces_witness :
  ∃ m n, Matrix.generalized_product counting_second counting_second row_matrix column_matrix
           (First None) MatrixLimits_default 0%nat = Ok (m, n) ∧ n = 3%nat ∧ Valid m.
Proof.
  assert (returns_terms counting_second) as Hc.
  { intros a b s v s' _ Hb [= <- _]. exact Hb. }
  pose proof (generalized_product_reduces counting_second counting_second row_matrix column_matrix (First None)
    MatrixLimits_default 0%nat Hc Hc row_valid column_valid ltac:(intros v [=])) as H.
  destruct (Matrix.generalized_product counting_second counting_second row_matrix column_matrix
    (First None) MatrixLimits_default 0%nat) as [[m n]|e] eqn:E; [|vm_compute in E; discriminate E].
  exists m, n. split; [reflexivity|]. split; [|exact (proj1 H)]. vm_compute in E. injection E as _ <-. reflexivity.
Defined.
