(* ===== verification/Complex.v ===== *)
(** * symbolic/complex.rs: bounded complex evaluation

    The finite complex interpretation of the operator with an explicit branch of
    the logarithm, and the iterative evaluator with its node and depth budgets,
    proved to implement the recursive one. *)

From S2P Require Import Prelude Words Terms Float FloatArith Symbolic.

Record Complex64 : Set := mkComplex64 { re : f64; im : f64 }.

(** The number of turns is an [i32]. *)
Record LogBranch : Set := mkLogBranch { turns : Z }.

Record EvaluationBudget : Set := mkEvaluationBudget { max_nodes : Z; max_depth : Z }.

Inductive ComplexEvalError : Set :=
  | ComplexNonFinite
  | LogZero
  | ComplexOverflow
  | ComplexUnderflow
  | NodeBudget
  | DepthBudget.

#[global] Instance ComplexEvalError_eq_dec : EqDecision ComplexEvalError.
Proof. solve_decision. Defined.

Module Complex.
Definition real (re : f64) : Complex64 := mkComplex64 re f64_zero.
Definition finite (self : Complex64) : bool := is_finite (re self) && is_finite (im self).

Section complex.
Context `{Libm}.

Definition apply_complex (self : Basis) (x y : Complex64) (branch : LogBranch)
    : Result ComplexEvalError Complex64 :=
  if negb (finite x) || negb (finite y) then Err ComplexNonFinite else
  let large := f64_max (f64_abs (re y)) (f64_abs (im y)) in
  if f64_eq large f64_zero then Err LogZero else
  let ratio := f64_div (f64_min (f64_abs (re y)) (f64_abs (im y))) large in
  let log_radius := f64_add (ln large) (f64_mul f64_half (ln_1p (f64_mul ratio ratio))) in
  let log_base := match self with Eml => f64_one | BmlBasis => LN_2 end in
  let magnitude := match self with Eml => exp (re x) | BmlBasis => exp2 (re x) end in
  let angle := f64_mul (im x) log_base in
  if negb (is_finite magnitude) || negb (is_finite angle) then Err ComplexOverflow else
  if f64_eq magnitude f64_zero then Err ComplexUnderflow else
  let argument := f64_add (atan2 (im y) (re y)) (f64_mul TAU (f64_of_Z (turns branch))) in
  let result := mkComplex64
    (f64_sub (f64_mul magnitude (cos angle)) (f64_div log_radius log_base))
    (f64_sub (f64_mul magnitude (sin angle)) (f64_div argument log_base)) in
  if finite result then Ok result else Err ComplexOverflow.

(** A pending occurrence: the term, its depth, and whether it was expanded. *)
Definition Frame : Set := ClosedTerm * Z * bool.

(** One turn of the loop on the pending frames, the values and the count of visited
    nodes. [inr] leaves the loop; the error [None] is a panic of an [expect]. *)
Definition step (basis : Basis) (branch : LogBranch) (budget : EvaluationBudget)
    (state : list Frame * list Complex64 * Z)
    : (list Frame * list Complex64 * Z) + Result (option ComplexEvalError) Complex64 :=
  let '(pending, values, visited) := state in
  match pending with
  | [] => inr (ok_or None (head values))
  | (term, depth, true) :: pending =>
      match values with
      | y :: x :: values =>
          match apply_complex basis x y branch with
          | Ok v => inl (pending, v :: values, visited)
          | Err e => inr (Err (Some e))
          end
      | _ => inr (Err None)
      end
  | (term, depth, false) :: pending =>
      if visited =? max_nodes budget then inr (Err (Some NodeBudget)) else
      if max_depth budget <? depth then inr (Err (Some DepthBudget)) else
      match term with
      | One => inl (pending, real f64_one :: values, visited + 1)
      | Op l r =>
          match checked_add depth 1 with
          | None => inr (Err (Some DepthBudget))
          | Some next =>
              inl ((l, next, false) :: (r, next, false) :: (term, depth, true) :: pending,
                   values, visited + 1)
          end
      end
  end.

(** Each occurrence takes at most two turns, and the last turn finds no frame; a
    loop that would outlast this bound gives [None], too. *)
Definition evaluate_complex (self : ClosedTerm) (basis : Basis) (branch : LogBranch)
    (budget : EvaluationBudget) : Result (option ComplexEvalError) Complex64 :=
  match while (step basis branch budget) (Z.to_pos (2 * tree_len self + 1)) ([(self, 1, false)], [], 0) with
  | inl _ => Err None
  | inr r => r
  end.
End complex.
End Complex.

(** ** The reference evaluators *)

Section reference.
Context `{Libm} (basis : Basis) (branch : LogBranch).

(** Without budgets: the recursive evaluation, left operand first. *)
Fixpoint evaluate (t : ClosedTerm) : Result ComplexEvalError Complex64 :=
  match t with
  | One => Ok (Complex.real f64_one)
  | Op l r => x ← evaluate l; y ← evaluate r; Complex.apply_complex basis x y branch
  end.

(** The depth of a term, its root included. *)
Fixpoint height (t : ClosedTerm) : Z :=
  match t with One => 1 | Op l r => 1 + Z.max (height l) (height r) end.

Context (budget : EvaluationBudget).

(** With budgets: the value and the number of nodes visited so far. *)
Fixpoint bounded (t : ClosedTerm) (depth visited : Z) : Result ComplexEvalError (Complex64 * Z) :=
  if visited =? max_nodes budget then Err NodeBudget else
  if max_depth budget <? depth then Err DepthBudget else
  match t with
  | One => Ok (Complex.real f64_one, visited + 1)
  | Op l r =>
      next ← ok_or DepthBudget (checked_add depth 1);
      '(x, visited) ← bounded l next (visited + 1);
      '(y, visited) ← bounded r next visited;
      v ← Complex.apply_complex basis x y branch;
      Ok (v, visited)
  end.

(** What is left to compute from a state of the loop. *)
Fixpoint resume (pending : list Complex.Frame) (values : list Complex64) (visited : Z)
    : Result (option ComplexEvalError) Complex64 :=
  match pending with
  | [] => ok_or None (head values)
  | (_, _, true) :: pending =>
      match values with
      | y :: x :: values =>
          v ← map_err Some (Complex.apply_complex basis x y branch);
          resume pending (v :: values) visited
      | _ => Err None
      end
  | (t, depth, false) :: pending =>
      '(v, visited) ← map_err Some (bounded t depth visited);
      resume pending (v :: values) visited
  end.

(** Turns of the loop. *)
Fixpoint cost (t : ClosedTerm) : Z :=
  match t with One => 1 | Op l r => 2 + cost l + cost r end.
Definition frame_cost (f : Complex.Frame) : Z := if f.2 then 1 else cost f.1.1.
Definition turns_left (pending : list Complex.Frame) : Z := foldr (λ f n, frame_cost f + n) 0 pending.

Lemma cost_bounds t : 1 ≤ cost t ≤ 2 * tree_len t.
Proof. induction t as [|l IHl r IHr]; cbn; lia. Qed.

Lemma turns_left_nonneg pending : 0 ≤ turns_left pending.
Proof.
  induction pending as [|[[t d] [|]] pending IH]; cbn; [done| |]; unfold turns_left in *; cbn.
  - lia.
  - pose proof (cost_bounds t). lia.
Qed.

(** One turn preserves what is left to compute. *)
Lemma step_resumes pending values visited :
  match Complex.step basis branch budget (pending, values, visited) with
  | inl (pending', values', visited') =>
      resume pending' values' visited' = resume pending values visited ∧
      turns_left pending' < turns_left pending
  | inr r => r = resume pending values visited
  end.
Proof.
  destruct pending as [|[[t d] [|]] pending]; [done| |]; cbn [Complex.step resume].
  - destruct values as [|y [|x values]]; [done..|].
    destruct (Complex.apply_complex basis x y branch); cbn; [|done]. split; [done|].
    unfold turns_left, frame_cost. cbn. lia.
  - destruct t as [|l r]; cbn [bounded];
      (destruct (visited =? max_nodes budget); [done|]); (destruct (max_depth budget <? d); [done|]);
      unfold turns_left, frame_cost; cbn.
    + split; [done|lia].
    + destruct (checked_add d 1) as [next|]; cbn; [|done]. split; [|lia].
      destruct (bounded l next (visited + 1)) as [[x n]|e]; cbn; [|done].
      destruct (bounded r next n) as [[y m]|e]; cbn; [|done].
      by destruct (Complex.apply_complex basis x y branch).
Qed.

Lemma evaluate_complex_bounded t :
  Complex.evaluate_complex t basis branch budget = map_err Some (fst <$> bounded t 1 0).
Proof.
  unfold Complex.evaluate_complex.
  pose (R := map_err Some (fst <$> bounded t 1 0)).
  destruct (while_total (λ st, resume st.1.1 st.1.2 st.2 = R) (λ r, r = R) (λ st, turns_left st.1.1)
    (Complex.step basis branch budget)) with (p := Z.to_pos (2 * tree_len t + 1))
    (s := ([(t, 1, false)], @nil Complex64, 0)) as (r & -> & ->); [| | |done].
  - intros [[pending values] visited] HR. cbn [fst snd] in HR. pose proof (step_resumes pending values visited) as Hs.
    destruct (Complex.step basis branch budget (pending, values, visited)) as [[[p' v'] n']|r]; cbn [fst snd].
    + destruct Hs as [Hs Hlt]. split; [congruence|]. pose proof (turns_left_nonneg p'). lia.
    + congruence.
  - cbn. unfold R. by destruct (bounded t 1 0) as [[v n]|e].
  - cbn. unfold frame_cost. cbn. pose proof (cost_bounds t). pose proof (tree_len_pos t). lia.
Qed.

Lemma apply_complex_result x y :
  match Complex.apply_complex basis x y branch with
  | Ok v => Complex.finite v = true
  | Err e => e ≠ NodeBudget ∧ e ≠ DepthBudget
  end.
Proof.
  unfold Complex.apply_complex. do 2 (destruct (_ || _); [done|]; destruct (f64_eq _ _); [done|]; cbv zeta).
  by destruct (Complex.finite (mkComplex64 _ _)) eqn:E.
Qed.

Lemma evaluate_finite t v : evaluate t = Ok v → Complex.finite v = true.
Proof.
  destruct t as [|l r]; cbn; [by intros [= <-]|].
  intros (x & _ & (y & _ & Hv)%bind_ok)%bind_ok.
  pose proof (apply_complex_result x y) as Ha. by rewrite Hv in Ha.
Qed.

Lemma height_pos t : 1 ≤ height t.
Proof. induction t; cbn; lia. Qed.

Definition bounded_outcome (t : ClosedTerm) (depth visited : Z) (m : Result ComplexEvalError (Complex64 * Z)) : Prop :=
  match m with
  | Ok (v, n) => evaluate t = Ok v ∧ n = visited + tree_len t ∧ n ≤ max_nodes budget ∧
                 depth + height t - 1 ≤ max_depth budget
  | Err NodeBudget => max_nodes budget < visited + tree_len t
  | Err DepthBudget => max_depth budget < depth + height t - 1
  | Err e => evaluate t = Err e
  end.

Lemma bounded_spec t depth visited :
  usize (max_depth budget) → 0 ≤ visited ≤ max_nodes budget → 1 ≤ depth →
  bounded_outcome t depth visited (bounded t depth visited).
Proof.
  intros Hd. revert depth visited. induction t as [|l IHl r IHr]; intros depth visited Hv H1; cbn [bounded];
    (destruct (Z.eqb_spec visited (max_nodes budget)); [cbn; pose proof (tree_len_pos One); cbn;
      try pose proof (tree_len_pos l); try pose proof (tree_len_pos r); lia|]);
    (destruct (Z.ltb_spec (max_depth budget) depth); [cbn; try pose proof (height_pos l); lia|]).
  { cbn. split; [done|]. lia. }
  unfold checked_add. pose proof (height_pos l). pose proof (tree_len_pos r).
  destruct (Z.ltb_spec (depth + 1) W64); [cbn [ok_or mbind Result_bind]|cbn; unfold usize in Hd; lia].
  pose proof (IHl (depth + 1) (visited + 1) ltac:(lia) ltac:(lia)) as Hl.
  destruct (bounded l (depth + 1) (visited + 1)) as [[x k]|[]]; cbn in Hl |- *; try (by rewrite Hl); try lia.
  destruct Hl as (Hx & -> & Hnl & Hdl).
  pose proof (IHr (depth + 1) (visited + 1 + tree_len l) ltac:(pose proof (tree_len_pos l); lia) ltac:(lia)) as Hr.
  destruct (bounded r (depth + 1) (visited + 1 + tree_len l)) as [[y k']|[]]; cbn in Hr |- *;
    try (by rewrite Hx, Hr); try lia.
  destruct Hr as (Hy & -> & Hnr & Hdr).
  pose proof (apply_complex_result x y) as Ha.
  destruct (Complex.apply_complex basis x y branch) as [v|[]] eqn:Ev; cbn; rewrite ?Hx, ?Hy; cbn;
    rewrite ?Ev; try done; try (by destruct Ha).
  split; [done|]. lia.
Qed.
End reference.

(** [C39] The iterative complex evaluator implements the recursive one under its
    budgets, whatever the platform's functions return: it always terminates without
    a panic; a value is the recursive evaluator's, is finite, and was found within
    both budgets; a numerical error is the recursive evaluator's; a budget error is
    reported only for a tree that exceeds that budget. *)
Theorem evaluate_complex_refines `{Libm} basis branch budget t :
  usize (max_nodes budget) → usize (max_depth budget) →
  match Complex.evaluate_complex t basis branch budget with
  | Ok v => evaluate basis branch t = Ok v ∧ Complex.finite v = true ∧
            tree_len t ≤ max_nodes budget ∧ height t ≤ max_depth budget
  | Err (Some NodeBudget) => max_nodes budget < tree_len t
  | Err (Some DepthBudget) => max_depth budget < height t
  | Err (Some e) => evaluate basis branch t = Err e
  | Err None => False
  end.
Proof.
  intros [Hn0 Hn] Hd. rewrite evaluate_complex_bounded.
  pose proof (bounded_spec basis branch budget t 1 0 Hd ltac:(lia) ltac:(lia)) as H'.
  destruct (bounded basis branch budget t 1 0) as [[v n]|[]]; cbn in H' |- *; try done; try lia.
  destruct H' as (Hv & -> & Hn' & Hd'). split; [done|]. split; [by eapply evaluate_finite|]. lia.
Qed.

Lemma evaluate_complex_refines_witness :
  ∃ v, @Complex.evaluate_complex libm_example (Op One One) BmlBasis (mkLogBranch 0)
         (mkEvaluationBudget 3 2) = Ok v ∧
       @evaluate libm_example BmlBasis (mkLogBranch 0) (Op One One) = Ok v ∧
  @Complex.evaluate_complex libm_example (Op One One) BmlBasis (mkLogBranch 0)
    (mkEvaluationBudget 2 2) = Err (Some NodeBudget).
Proof.
  destruct (@Complex.evaluate_complex libm_example (Op One One) BmlBasis (mkLogBranch 0)
    (mkEvaluationBudget 3 2)) as [v|e] eqn:E; [|vm_compute in E; discriminate E].
  exists v. split; [reflexivity|].
  pose proof (@evaluate_complex_refines libm_example BmlBasis (mkLogBranch 0) (mkEvaluationBudget 3 2)
    (Op One One) ltac:(split; done) ltac:(split; done)) as H.
  rewrite E in H. split; [exact (proj1 H)|vm_compute; reflexivity].
Defined.
