(* ===== verification/Synthesis.v ===== *)
(** * symbolic/synthesis.rs: bounded search of small trees

    The depth-first enumeration of prefix codes with its feasibility pruning and
    its budgets, proved to attempt every tree of each size exactly once, in
    grammar order, until it stops. *)

From stdpp Require Import sorting.
From S2P Require Import Prelude Words Terms Float FloatArith Symbolic Complex.

Definition MAX_TERM_NODES : Z := 255.

Inductive Interpretation : Set :=
  | RealInterpretation (basis : Basis)
  | ComplexInterpretation (basis : Basis) (branch : LogBranch).

Record SynthesisBudget : Set := mkSynthesisBudget { synthesis_nodes : Z; synthesis_candidates : Z }.

Record Candidate : Set := mkCandidate {
  candidate_term : ClosedTerm;
  candidate_value : Complex64;
  candidate_error : f64;
  candidate_nodes : Z;
}.

Inductive StopReason : Set := ToleranceMet | CandidateBudgetStop | NodeBudgetStop.

Record SearchResult : Set := mkSearchResult {
  best : option Candidate;
  attempted : Z;
  stop : StopReason;
}.

Inductive SynthesisError : Set := TargetError | ToleranceError | NodeLimit.

Module Synthesis.
(** The term of a complete prefix, read backwards onto a stack; [None] is the panic
    of an [expect]. *)
Definition build_step (stack : option (list ClosedTerm)) (op : bool) : option (list ClosedTerm) :=
  stack ← stack;
  if op then
    match stack with
    | l :: r :: stack => Some (Op l r :: stack)
    | _ => None
    end
  else Some (One :: stack).

Definition build (prefix : list bool) : option ClosedTerm :=
  stack ← foldl build_step (Some []) (reverse prefix);
  head stack.

Section synthesis.
Context `{Libm}.
Context (target : Complex64) (interpretation : Interpretation) (tolerance : f64) (budget : SynthesisBudget).

Definition interpret (size : Z) (term : ClosedTerm) : option Complex64 :=
  match interpretation with
  | RealInterpretation basis =>
      match evaluate_real term basis with Ok v => Some (Complex.real v) | Err _ => None end
  | ComplexInterpretation basis branch =>
      match Complex.evaluate_complex term basis branch (mkEvaluationBudget size size) with
      | Ok v => Some v | Err _ => None
      end
  end.

(** A complete candidate: [inr] returns from the function. *)
Definition attempt (size : Z) (prefix : list bool) (result : SearchResult)
    : SearchResult + option SearchResult :=
  match build prefix with
  | None => inr None
  | Some term =>
      let result := mkSearchResult (best result) (attempted result + 1) (stop result) in
      match interpret size term with
      | None => inl result
      | Some value =>
          let error := hypot (f64_sub (re value) (re target)) (f64_sub (im value) (im target)) in
          let better := match best result with
                        | None => true
                        | Some best => f64_lt error (candidate_error best)
                        end in
          let result := if better
            then mkSearchResult (Some (mkCandidate term value error size)) (attempted result) (stop result)
            else result in
          if f64_le error tolerance
          then inr (Some (mkSearchResult (best result) (attempted result) ToleranceMet))
          else inl result
      end
  end.

(** What follows a feasible incomplete prefix: the generator is tried first, so it
    is pushed last. *)
Definition expand (size : Z) (prefix : list bool) (slots : Z) (pending : list (list bool * Z))
    : list (list bool * Z) :=
  match checked_sub size (Z.of_nat (length prefix) + 1) with
  | None => pending
  | Some remaining =>
      let pending := if slots <? remaining then (prefix ++ [true], slots + 1) :: pending else pending in
      if ((slots =? 1) && (remaining =? 0)) || ((1 <? slots) && (slots - 1 <=? remaining))
      then (prefix ++ [false], slots - 1) :: pending else pending
  end.

(** One turn of the inner loop: [inr (inl _)] is its end, [inr (inr _)] a return. *)
Definition search_step (size : Z) (state : list (list bool * Z) * SearchResult)
    : (list (list bool * Z) * SearchResult) + (SearchResult + option SearchResult) :=
  let '(pending, result) := state in
  match pending with
  | [] => inr (inl result)
  | (prefix, slots) :: pending =>
      if attempted result =? synthesis_candidates budget
      then inr (inr (Some (mkSearchResult (best result) (attempted result) CandidateBudgetStop))) else
      if slots =? 0 then
        match attempt size prefix result with
        | inl result => inl (pending, result)
        | inr r => inr (inr r)
        end
      else inl (expand size prefix slots pending, result)
  end.

(** Prefixes of [size] bits number less than [2 ^ (size + 1)]: the inner loop has
    that many turns at most. A loop that outlasts the bound gives [None]. *)
Definition search_size (size : Z) (result : SearchResult) : SearchResult + option SearchResult :=
  match while (search_step size) (Z.to_pos (2 ^ (size + 1))) ([([], 1)], result) with
  | inl _ => inr None
  | inr r => r
  end.

Fixpoint search_sizes (sizes : list Z) (result : SearchResult) : option SearchResult :=
  match sizes with
  | [] => Some result
  | size :: sizes =>
      match search_size size result with
      | inl result => search_sizes sizes result
      | inr r => r
      end
  end.

(** [(1..=max_nodes).step_by(2)] *)
Definition sizes (max_nodes : Z) : list Z := (λ i, 2 * i + 1) <$> seqZ 0 ((max_nodes + 1) / 2).

Definition synthesize : Result (option SynthesisError) SearchResult :=
  if negb (Complex.finite target)
     || match interpretation with RealInterpretation _ => negb (f64_eq (im target) f64_zero) | _ => false end
  then Err (Some TargetError) else
  if negb (is_finite tolerance) || f64_lt tolerance f64_zero then Err (Some ToleranceError) else
  if MAX_TERM_NODES <? synthesis_nodes budget then Err (Some NodeLimit) else
  ok_or None (search_sizes (sizes (synthesis_nodes budget)) (mkSearchResult None 0 NodeBudgetStop)).
End synthesis.
End Synthesis.

(** ** Complete prefix codes in grammar order *)

(** The suffixes of [rem] bits that close [slots] subterms. *)
Fixpoint completions (rem slots : nat) : list (list bool) :=
  match slots, rem with
  | O, O => [[]]
  | O, S _ => []
  | S _, O => []
  | S s, S rem => (cons false <$> completions rem s) ++ (cons true <$> completions rem (S (S s)))
  end.

Lemma forest_nil_bits ts : forest_bits ts = [] → ts = [].
Proof. destruct ts as [|[|l r] ts]; [done|unfold forest_bits; cbn; discriminate..]. Qed.

Lemma completions_spec rem slots c :
  c ∈ completions rem slots ↔ length c = rem ∧ ∃ ts, length ts = slots ∧ c = forest_bits ts.
Proof.
  revert slots c. induction rem as [|rem IH]; intros slots c.
  - destruct slots as [|s]; cbn [completions].
    + rewrite list_elem_of_singleton. split; [intros ->; split; [done|by exists []]|].
      intros [Hl _]. by apply nil_length_inv.
    + rewrite elem_of_nil. split; [done|]. intros (Hl & ts & Hts & ->).
      apply nil_length_inv in Hl. apply forest_nil_bits in Hl. by subst.
  - destruct slots as [|s]; cbn [completions].
    + rewrite elem_of_nil. split; [done|]. intros (Hl & ts & Hts & ->).
      apply nil_length_inv in Hts. by subst.
    + rewrite elem_of_app, !list_elem_of_fmap. split.
      * intros [(d & -> & (Hl & ts & Hts & ->)%IH)|(d & -> & (Hl & ts & Hts & ->)%IH)];
          (split; [cbn; congruence|]).
        -- exists (One :: ts). split; [cbn; congruence|done].
        -- destruct ts as [|l [|r ts]]; [done..|]. exists (Op l r :: ts).
           split; [cbn in *; congruence|]. rewrite !forest_bits_cons. cbn [tree_bits].
           by rewrite <- app_comm_cons, <- (assoc_L (++)).
      * intros (Hl & ts & Hts & ->). destruct ts as [|[|l r] ts]; [done| |].
        -- left. exists (forest_bits ts). split; [done|]. apply IH.
           rewrite forest_bits_cons in Hl. cbn in Hl, Hts. split; [congruence|]. exists ts. split; [congruence|done].
        -- right. exists (forest_bits (l :: r :: ts)).
           rewrite forest_bits_cons in Hl |- *. cbn [tree_bits] in *.
           rewrite <- app_comm_cons in *. rewrite <- (assoc_L (++)) in *. rewrite !forest_bits_cons. split; [done|].
           apply IH. cbn in Hl, Hts. split; [congruence|].
           exists (l :: r :: ts). split; [cbn; congruence|by rewrite !forest_bits_cons].
Qed.

(** Codes of one size in grammar order are in increasing order of their numbers. *)
Lemma completions_sorted rem slots :
  StronglySorted (λ c d, bits_val c < bits_val d) (completions rem slots).
Proof.
  revert slots. induction rem as [|rem IH]; intros [|s]; cbn [completions]; try (by repeat constructor).
  assert (∀ b k, StronglySorted (λ c d, bits_val c < bits_val d) (cons b <$> completions rem k)) as Hs.
  { intros b k. specialize (IH k).
    assert (Forall (λ c, length c = rem) (completions rem k)) as Hl.
    { apply Forall_forall. intros c Hc. by apply completions_spec in Hc as [? _]. }
    revert Hl. induction IH as [|c l Hsort IHs Hall]; intros Hl; [constructor|].
    apply Forall_cons in Hl as [Hc Hl]. cbn [fmap list_fmap]. constructor; [by apply IHs|].
    apply Forall_fmap. rewrite Forall_forall in Hall, Hl |- *. intros d Hd. cbn.
    rewrite Hc, (Hl d Hd). specialize (Hall d Hd). lia. }
  apply StronglySorted_app_2; [|apply Hs..].
  intros c d (c' & -> & (Hc & _)%completions_spec)%list_elem_of_fmap
             (d' & -> & (Hd & _)%completions_spec)%list_elem_of_fmap.
  cbn. rewrite Hc, Hd. pose proof (bits_val_bounds c') as Hb. pose proof (bits_val_bounds d') as Hb'.
  rewrite Hc in Hb. lia.
Qed.

(** A feasible prefix can always be completed. *)
Lemma completions_nonempty rem slots k :
  (rem = slots + 2 * k)%nat → (slots = 0%nat → rem = 0%nat) → completions rem slots ≠ [].
Proof.
  revert slots k. induction rem as [|rem IH]; intros [|s] k Hk Hz; cbn [completions]; [done|lia|lia|].
  intros [H1 H2]%app_nil. destruct (decide (s = 0%nat ∧ rem ≠ 0%nat)) as [[-> Hr]|Hne].
  - apply fmap_nil_inv in H2. revert H2. apply (IH _ (k - 1)%nat); lia.
  - apply fmap_nil_inv in H1. revert H1. apply (IH _ k); lia.
Qed.

Lemma completions_empty rem slots : (rem < slots)%nat ∨ (slots = 0 ∧ rem ≠ 0)%nat → completions rem slots = [].
Proof.
  revert slots. induction rem as [|rem IH]; intros [|s] H; cbn [completions]; [lia|done|done|].
  rewrite !IH by lia. done.
Qed.

(** ** The stack of prefixes as a list of candidates *)

Section enumeration.
Context `{Libm}.
Context (target : Complex64) (interpretation : Interpretation) (tolerance : f64) (budget : SynthesisBudget).

Abbreviation Outcome := (SearchResult + option SearchResult)%type.
Abbreviation attempt := (Synthesis.attempt target interpretation tolerance).

(** The reference search: candidates are attempted in order, until the budget is
    spent or one of them returns. *)
Fixpoint scan (candidates : list (Z * list bool)) (result : SearchResult) : Outcome :=
  match candidates with
  | [] => inl result
  | (size, code) :: candidates =>
      if attempted result =? synthesis_candidates budget
      then inr (Some (mkSearchResult (best result) (attempted result) CandidateBudgetStop)) else
      match attempt size code result with
      | inl result => scan candidates result
      | inr r => inr r
      end
  end.

Lemma search_scan_app cs ds result :
  scan (cs ++ ds) result = match scan cs result with inl result => scan ds result | inr r => inr r end.
Proof.
  revert result. induction cs as [|[size code] cs IH]; intros result; cbn; [done|].
  destruct (_ =? _); [done|]. by destruct (attempt size code result).
Qed.

Section size.
Context (size : nat) (Hodd : Nat.Odd size).

(** A pending prefix can be completed within the size. *)
Definition feasible (entry : list bool * Z) : Prop :=
  ∃ slots k : nat, entry.2 = Z.of_nat slots ∧ (length entry.1 + slots + 2 * k = size)%nat ∧
    (slots = 0%nat → k = 0%nat).

Definition entry_codes (entry : list bool * Z) : list (Z * list bool) :=
  (λ c, (Z.of_nat size, entry.1 ++ c)) <$> completions (size - length entry.1) (Z.to_nat entry.2).

Definition frontier (pending : list (list bool * Z)) : list (Z * list bool) := mjoin (entry_codes <$> pending).

Lemma entry_codes_nonempty entry : feasible entry → entry_codes entry ≠ [].
Proof.
  intros (slots & k & Hs & Hk & Hz) Hnil. apply fmap_nil_inv in Hnil. revert Hnil.
  rewrite Hs, Nat2Z.id. apply (completions_nonempty _ _ k); lia.
Qed.

Lemma entry_codes_complete p : length p = size → entry_codes (p, 0) = [(Z.of_nat size, p)].
Proof.
  intros Hp. unfold entry_codes. cbn [fst snd]. rewrite Hp, Nat.sub_diag, Z2Nat.inj_0. cbn. by rewrite app_nil_r.
Qed.

Lemma entry_codes_branch p slots :
  (length p < size)%nat →
  entry_codes (p, Z.of_nat (S slots)) =
  entry_codes (p ++ [false], Z.of_nat slots) ++ entry_codes (p ++ [true], Z.of_nat (S (S slots))).
Proof.
  intros Hp. unfold entry_codes. cbn [fst snd]. rewrite !Nat2Z.id, !length_app. cbn [length].
  replace (size - length p)%nat with (S (size - (length p + 1)))%nat by lia. cbn [completions].
  rewrite fmap_app, <- !list_fmap_compose. f_equal; apply list_fmap_ext; intros i c _; cbn;
    by rewrite <- (assoc_L (++)).
Qed.

(** Pruning loses no candidate. *)
Lemma expand_frontier p slots pending :
  feasible (p, slots) → slots ≠ 0 → Forall feasible pending →
  Forall feasible (Synthesis.expand (Z.of_nat size) p slots pending) ∧
  frontier (Synthesis.expand (Z.of_nat size) p slots pending) = frontier ((p, slots) :: pending).
Proof.
  intros ([|s] & k & Hs & Hk & _) Hne Hp; cbn [fst snd] in Hs, Hk; subst slots; [lia|].
  unfold Synthesis.expand, checked_sub.
  destruct (Z.leb_spec (Z.of_nat (length p) + 1) (Z.of_nat size)); [|lia].
  change (frontier ((p, Z.of_nat (S s)) :: pending)) with (entry_codes (p, Z.of_nat (S s)) ++ frontier pending).
  rewrite entry_codes_branch by lia.
  replace (Z.of_nat (S s) - 1) with (Z.of_nat s) by lia. replace (Z.of_nat (S s) + 1) with (Z.of_nat (S (S s))) by lia.
  assert (∀ (b : bool) e rest, (b = true → feasible e) → (b = false → entry_codes e = []) → Forall feasible rest →
    Forall feasible (if b then e :: rest else rest) ∧
    frontier (if b then e :: rest else rest) = entry_codes e ++ frontier rest) as Hpush.
  { intros [|] e rest H1 H2 Hr; [by split; [constructor; [apply H1|]|]|]. by rewrite H2. }
  rewrite <- (assoc_L (++)).
  destruct (Hpush (Z.of_nat (S s) <? Z.of_nat size - (Z.of_nat (length p) + 1)) (p ++ [true], Z.of_nat (S (S s))) pending)
    as [Hf1 <-]; [| |done|].
  - intros Hlt%Z.ltb_lt. exists (S (S s)), (k - 1)%nat. cbn [fst snd]. rewrite length_app. cbn [length]. lia.
  - intros Hge%Z.ltb_ge. unfold entry_codes. cbn [fst snd].
    rewrite completions_empty; [done|]. rewrite length_app, Nat2Z.id. cbn [length]. lia.
  - apply Hpush; [| |done].
    + intros Hb. exists s, k. cbn [fst snd]. rewrite length_app. cbn [length].
      apply orb_true_iff in Hb as [[H1%Z.eqb_eq H2%Z.eqb_eq]%andb_true_iff|[H1%Z.ltb_lt H2%Z.leb_le]%andb_true_iff];
        lia.
    + intros Hb. unfold entry_codes. cbn [fst snd]. rewrite completions_empty; [done|].
      rewrite length_app, Nat2Z.id. cbn [length].
      apply orb_false_iff in Hb as [[H1%Z.eqb_neq|H1%Z.eqb_neq]%andb_false_iff [H2%Z.ltb_ge|H2%Z.leb_gt]%andb_false_iff];
        lia.
Qed.

(** The prefixes still to be visited, counted generously. *)
Definition weight (pending : list (list bool * Z)) : Z :=
  foldr (λ e n, (2 ^ (Z.of_nat size + 1 - Z.of_nat (length e.1)) - 1) + n) 0 pending.

Lemma weight_entry n : 1 ≤ n → 0 < 2 ^ n - 1 ∧ 2 ^ n - 1 = 2 * (2 ^ (n - 1) - 1) + 1.
Proof.
  intros Hn. assert (2 ^ n = 2 * 2 ^ (n - 1)) as -> by (rewrite <- Z.pow_succ_r by lia; f_equal; lia).
  pose proof (Z.pow_pos_nonneg 2 (n - 1) ltac:(lia) ltac:(lia)). lia.
Qed.

Lemma weight_nonneg pending : Forall feasible pending → 0 ≤ weight pending.
Proof.
  induction 1 as [|[p s] pending (sl & k & _ & Hk & _) _ IH]; cbn; [done|]. cbn in Hk.
  destruct (weight_entry (Z.of_nat size + 1 - Z.of_nat (length p)) ltac:(lia)). unfold weight in IH. lia.
Qed.

Lemma expand_weight p slots pending :
  feasible (p, slots) → weight (Synthesis.expand (Z.of_nat size) p slots pending) < weight ((p, slots) :: pending).
Proof.
  intros (sl & k & _ & Hk & _). cbn [fst] in Hk.
  destruct (weight_entry (Z.of_nat size + 1 - Z.of_nat (length p)) ltac:(lia)) as [Hw Hw'].
  assert (∀ b s rest, weight ((p ++ [b], s) :: rest)
    = 2 ^ (Z.of_nat size + 1 - Z.of_nat (length p) - 1) - 1 + weight rest) as Hcons.
  { intros b s rest. cbn. fold (weight rest). rewrite length_app. cbn [length]. do 3 f_equal. lia. }
  assert (0 ≤ 2 ^ (Z.of_nat size + 1 - Z.of_nat (length p) - 1) - 1) as H0.
  { assert (1 ≤ 2 ^ (Z.of_nat size + 1 - Z.of_nat (length p) - 1)); [|lia].
    pose proof (Z.pow_pos_nonneg 2 (Z.of_nat size + 1 - Z.of_nat (length p) - 1)). lia. }
  change (weight ((p, slots) :: pending))
    with (2 ^ (Z.of_nat size + 1 - Z.of_nat (length p)) - 1 + weight pending).
  unfold Synthesis.expand. destruct (checked_sub _ _) as [r|]; [|lia]. cbv zeta. clear Hk.
  destruct (slots <? r), (_ || _); rewrite ?Hcons; lia.
Qed.

(** One size: the loop ends within its bound, with the reference's outcome. *)
Lemma search_step_scan pending result :
  Forall feasible pending →
  match Synthesis.search_step target interpretation tolerance budget (Z.of_nat size) (pending, result) with
  | inl (pending', result') =>
      (Forall feasible pending' ∧ scan (frontier pending') result' = scan (frontier pending) result) ∧
      weight pending' < weight pending
  | inr r => r = scan (frontier pending) result
  end.
Proof.
  intros Hp. destruct Hp as [|[p slots] pending Hf Hp]; [done|]. cbn [Synthesis.search_step].
  change (frontier ((p, slots) :: pending)) with (entry_codes (p, slots) ++ frontier pending).
  destruct (attempted result =? synthesis_candidates budget) eqn:Eb.
  { pose proof (entry_codes_nonempty _ Hf) as Hne. destruct (entry_codes (p, slots)) as [|[z c] cs]; [done|].
    cbn. by rewrite Eb. }
  destruct (Z.eqb_spec slots 0) as [->|Hne].
  - assert (length p = size) as Hl by (destruct Hf as ([|s] & k & Hs & Hk & Hz); cbn in *; lia).
    rewrite entry_codes_complete by done. cbn [app scan]. rewrite Eb.
    destruct (attempt (Z.of_nat size) p result) as [r|r]; [|done]. split; [done|].
    cbn [weight foldr fst]. fold (weight pending). rewrite Hl.
    replace (Z.of_nat size + 1 - Z.of_nat size) with 1 by lia. change (2 ^ 1) with 2. lia.
  - destruct (expand_frontier p slots pending Hf Hne Hp) as [Hf' ->]. split; [done|]. by apply expand_weight.
Qed.

Lemma search_size_scan result :
  Synthesis.search_size target interpretation tolerance budget (Z.of_nat size) result
  = scan ((λ c, (Z.of_nat size, c)) <$> completions size 1) result.
Proof.
  unfold Synthesis.search_size.
  set (R := scan ((λ c, (Z.of_nat size, c)) <$> completions size 1) result).
  assert (feasible ([], 1)) as Hf.
  { destruct Hodd as [k Hk]. exists 1%nat, k. split; [done|]. cbn. lia. }
  assert (frontier [([], 1)] = (λ c, (Z.of_nat size, c)) <$> completions size 1) as Hfr.
  { unfold frontier, entry_codes. cbn. rewrite app_nil_r, Nat.sub_0_r. by change (Z.to_nat 1) with 1%nat. }
  destruct (while_total (λ st, Forall feasible st.1 ∧ scan (frontier st.1) st.2 = R) (λ r, r = R) (λ st, weight st.1)
    (Synthesis.search_step target interpretation tolerance budget (Z.of_nat size)))
    with (p := Z.to_pos (2 ^ (Z.of_nat size + 1))) (s := ([([], 1)] : list (list bool * Z), result))
    as (r & -> & ->); [| | |done].
  - intros [pending res] [Hp HR]. cbn [fst snd] in *. pose proof (search_step_scan pending res Hp) as Hs.
    destruct (Synthesis.search_step _ _ _ _ _ _) as [[pending' res']|r]; cbn [fst snd].
    + destruct Hs as [[Hp' Hs] Hw]. split; [split; [done|congruence]|]. split; [by apply weight_nonneg|done].
    + congruence.
  - cbn [fst snd]. split; [by constructor|]. by rewrite Hfr.
  - cbn [fst]. split; [apply weight_nonneg; by constructor|]. cbn [weight foldr fst length].
    pose proof (Z.pow_pos_nonneg 2 (Z.of_nat size + 1)). rewrite Z2Pos.id by lia.
    rewrite Z.sub_0_r. lia.
Qed.
End size.

(** *** All sizes *)

Definition candidates (max_nodes : Z) : list (Z * list bool) :=
  mjoin ((λ n, (λ c, (n, c)) <$> completions (Z.to_nat n) 1) <$> Synthesis.sizes max_nodes).

Lemma sizes_odd max_nodes n :
  n ∈ Synthesis.sizes max_nodes ↔ ∃ k, n = 2 * k + 1 ∧ 0 ≤ k ∧ n ≤ max_nodes.
Proof.
  unfold Synthesis.sizes. rewrite list_elem_of_fmap. split.
  - intros (k & -> & Hk%elem_of_seqZ). exists k. split; [done|]. split; [lia|]. dlia.
  - intros (k & -> & Hk & Hle). exists k. split; [done|]. apply elem_of_seqZ. dlia.
Qed.

Lemma search_sizes_scan sizes result :
  Forall (λ n, ∃ k, n = 2 * k + 1 ∧ 0 ≤ k) sizes →
  Synthesis.search_sizes target interpretation tolerance budget sizes result =
  match scan (mjoin ((λ n, (λ c, (n, c)) <$> completions (Z.to_nat n) 1) <$> sizes)) result with
  | inl r => Some r
  | inr r => r
  end.
Proof.
  intros Hs. revert result. induction Hs as [|n sizes (k & -> & Hk) _ IH]; intros result; [done|].
  cbn [Synthesis.search_sizes fmap list_fmap mjoin list_join].
  assert (2 * k + 1 = Z.of_nat (Z.to_nat (2 * k + 1))) as Hn by lia.
  rewrite Hn at 1. rewrite search_size_scan by (exists (Z.to_nat k); lia). rewrite <- Hn, search_scan_app.
  destruct (scan _ result); [apply IH|done].
Qed.

Lemma candidates_spec max_nodes n c :
  (n, c) ∈ candidates max_nodes ↔ ∃ t, c = tree_bits t ∧ n = tree_len t ∧ n ≤ max_nodes.
Proof.
  unfold candidates. rewrite list_elem_of_join. split.
  - intros (l & Hc & (m & -> & (k & -> & Hk & Hle)%sizes_odd)%list_elem_of_fmap).
    apply list_elem_of_fmap in Hc as (d & [= -> ->] & (Hl & ts & Hts & ->)%completions_spec).
    destruct ts as [|t [|? ts]]; [done| |done]. exists t.
    assert (forest_bits [t] = tree_bits t) as Ht by (by rewrite forest_bits_cons; apply app_nil_r).
    rewrite Ht in *. split; [done|]. rewrite <- length_tree_bits. lia.
  - intros (t & -> & -> & Hle). eexists. split; [|apply list_elem_of_fmap; exists (tree_len t); split; [done|]].
    + apply list_elem_of_fmap. exists (tree_bits t). split; [done|]. apply completions_spec.
      split; [pose proof (length_tree_bits t); lia|]. exists [t]. split; [done|].
      by rewrite forest_bits_cons; symmetry; apply app_nil_r.
    + apply sizes_odd. exists (tree_ops t). rewrite tree_len_ops in *.
      split; [done|]. split; [|done]. clear. induction t; cbn; lia.
Qed.

Lemma seqZ_sorted m n : StronglySorted Z.lt (seqZ m n).
Proof.
  destruct (Z.le_gt_cases n 0); [rewrite seqZ_nil by lia; constructor|].
  revert m. pattern n. apply natlike_ind; [constructor| |lia]. clear. intros n Hn IH m.
  rewrite seqZ_cons, Z.pred_succ by lia. constructor; [apply IH|].
  apply Forall_forall. intros k Hk%elem_of_seqZ. lia.
Qed.

Definition candidate_lt (x y : Z * list bool) : Prop :=
  x.1 < y.1 ∨ (x.1 = y.1 ∧ bits_val x.2 < bits_val y.2).

Lemma candidates_sorted max_nodes : StronglySorted candidate_lt (candidates max_nodes).
Proof.
  unfold candidates, Synthesis.sizes. generalize ((max_nodes + 1) / 2) as m. intros m.
  pose proof (seqZ_sorted 0 m) as Hs.
  induction Hs as [|k l Hl IH Hk]; [constructor|]. cbn [fmap list_fmap mjoin list_join].
  apply StronglySorted_app_2; [| |apply IH].
  - intros [a c] [b d] (c' & [= -> ->] & _)%list_elem_of_fmap Hb. left. cbn [fst].
    apply list_elem_of_join in Hb as (x & Hx & (n & -> & (k' & -> & Hk')%list_elem_of_fmap)%list_elem_of_fmap).
    apply list_elem_of_fmap in Hx as (d' & [= -> ->] & _).
    rewrite Forall_forall in Hk. specialize (Hk k' Hk'). lia.
  - pose proof (completions_sorted (Z.to_nat (2 * k + 1)) 1) as Hc.
    induction Hc as [|c cs Hcs IHc Hall]; [constructor|]. cbn [fmap list_fmap]. constructor; [done|].
    apply Forall_fmap. eapply Forall_impl; [exact Hall|]. intros d Hd. by right.
Qed.

(** ** What the search returns *)

Lemma build_tree t st rest :
  foldl Synthesis.build_step (Some st) (reverse (tree_bits t) ++ rest) = foldl Synthesis.build_step (Some (t :: st)) rest.
Proof.
  revert st rest. induction t as [|l IHl r IHr]; intros st rest; [done|]. cbn [tree_bits].
  by rewrite reverse_cons, reverse_app, <- !(assoc_L (++)), IHr, IHl.
Qed.

Lemma build_tree_bits t : Synthesis.build (tree_bits t) = Some t.
Proof. unfold Synthesis.build. by rewrite <- (app_nil_r (reverse _)), build_tree. Qed.

(** A reported candidate carries its own evaluation, error and size. *)
Definition candidate_ok (b : Candidate) : Prop :=
  candidate_nodes b = tree_len (candidate_term b) ∧
  Synthesis.interpret interpretation (candidate_nodes b) (candidate_term b) = Some (candidate_value b) ∧
  candidate_error b = hypot (f64_sub (re (candidate_value b)) (re target)) (f64_sub (im (candidate_value b)) (im target)).

Definition best_ok (r : SearchResult) : Prop := ∀ b, best r = Some b → candidate_ok b.

Lemma attempt_tree t result :
  best_ok result →
  match attempt (tree_len t) (tree_bits t) result with
  | inl r => attempted r = attempted result + 1 ∧ stop r = stop result ∧ best_ok r
  | inr (Some r) => attempted r = attempted result + 1 ∧ stop r = ToleranceMet ∧ best_ok r ∧ best r ≠ None
  | inr None => False
  end.
Proof.
  intros Hb. unfold Synthesis.attempt. rewrite build_tree_bits. cbv zeta.
  destruct (Synthesis.interpret interpretation (tree_len t) t) as [v|] eqn:Ev; [|by split].
  set (c := mkCandidate t v _ (tree_len t)).
  assert (candidate_ok c) as Hc by (split; [done|]; split; [exact Ev|done]).
  assert (∀ n s, best_ok (mkSearchResult (Some c) n s)) as Hnew by (by intros n s b [= <-]).
  cbn [best attempted stop]. destruct (best result) as [b|] eqn:Eb.
  - assert (∀ n s, best_ok (mkSearchResult (Some b) n s)) as Hold by (intros n s b' [= <-]; by apply Hb).
    destruct (f64_lt _ (candidate_error b)), (f64_le _ tolerance); cbn; (split; [done|]); (split; [done|]);
      first [apply Hnew|apply Hold|split; [apply Hnew || apply Hold|done]].
  - destruct (f64_le _ tolerance); cbn; (split; [done|]); (split; [done|]); first [apply Hnew|split; [apply Hnew|done]].
Qed.

Definition scan_outcome (total : Z) (result : SearchResult) (o : Outcome) : Prop :=
  match o with
  | inl r => attempted r = total ∧ total ≤ synthesis_candidates budget ∧ stop r = stop result ∧ best_ok r
  | inr (Some r) => attempted result ≤ attempted r ≤ synthesis_candidates budget ∧ best_ok r ∧
      match stop r with
      | ToleranceMet => best r ≠ None
      | CandidateBudgetStop => attempted r = synthesis_candidates budget ∧ attempted r < total
      | NodeBudgetStop => False
      end
  | inr None => False
  end.

Lemma scan_spec cs result :
  (∀ n c, (n, c) ∈ cs → ∃ t, c = tree_bits t ∧ n = tree_len t) →
  attempted result ≤ synthesis_candidates budget → best_ok result →
  scan_outcome (attempted result + Z.of_nat (length cs)) result (scan cs result).
Proof.
  revert result. induction cs as [|[n c] cs IH]; intros result Hcs Hle Hb; cbn [scan length].
  { cbn. rewrite Z.add_0_r. done. }
  destruct (Z.eqb_spec (attempted result) (synthesis_candidates budget)) as [E|Hne].
  { cbn. split; [lia|]. split; [done|]. lia. }
  destruct (Hcs n c ltac:(by left)) as (t & -> & ->).
  pose proof (attempt_tree t result Hb) as Ha.
  destruct (attempt (tree_len t) (tree_bits t) result) as [r|[r|]]; [| |done].
  - destruct Ha as (Hn & Hs & Hb').
    pose proof (IH r ltac:(intros m d Hd; apply Hcs; by right) ltac:(lia) Hb') as H'.
    replace (attempted r + Z.of_nat (length cs)) with (attempted result + Z.of_nat (S (length cs))) in H' by lia.
    unfold scan_outcome in *. destruct (scan cs r) as [r'|[r'|]]; [by rewrite <- Hs| |done].
    destruct H' as (H1 & H2 & H3). split; [lia|]. by split.
  - destruct Ha as (Hn & Hs & Hb' & Hbest). cbn. rewrite Hs. split; [lia|]. by split.
Qed.

(** [C38] The synthesis search always terminates without a panic, and attempts the
    trees of at most the given number of nodes in increasing size, and by their
    codes within a size, each exactly once, until the candidate budget is spent or
    a candidate meets the tolerance: pruning loses none. Stopping for lack of
    nodes means that every such tree was attempted; the best candidate reported is
    a tree with its own evaluation and error. *)
Theorem synthesize_enumerates :
  0 ≤ synthesis_candidates budget →
  let trees := candidates (synthesis_nodes budget) in
  match Synthesis.synthesize target interpretation tolerance budget with
  | Ok r =>
      match scan trees (mkSearchResult None 0 NodeBudgetStop) with inl r' => Some r' | inr r' => r' end = Some r ∧
      0 ≤ attempted r ≤ synthesis_candidates budget ∧ best_ok r ∧
      match stop r with
      | ToleranceMet => best r ≠ None
      | CandidateBudgetStop => attempted r = synthesis_candidates budget ∧ attempted r < Z.of_nat (length trees)
      | NodeBudgetStop => attempted r = Z.of_nat (length trees)
      end
  | Err e => e ≠ None
  end ∧
  (∀ n c, (n, c) ∈ trees ↔ ∃ t, c = tree_bits t ∧ n = tree_len t ∧ n ≤ synthesis_nodes budget) ∧
  StronglySorted candidate_lt trees.
Proof.
  intros Hc trees. split; [|split; [apply candidates_spec|apply candidates_sorted]].
  unfold Synthesis.synthesize. destruct (_ || _); [done|]. destruct (_ || _); [done|]. destruct (_ <? _); [done|].
  rewrite search_sizes_scan; cycle 1.
  { apply Forall_forall. intros n (k & -> & Hk & _)%sizes_odd. by exists k. }
  fold (candidates (synthesis_nodes budget)). fold trees.
  pose proof (scan_spec trees (mkSearchResult None 0 NodeBudgetStop)) as H'.
  assert (∀ n c, (n, c) ∈ trees → ∃ t, c = tree_bits t ∧ n = tree_len t) as Ht.
  { intros n c (t & ? & ? & _)%candidates_spec. by exists t. }
  specialize (H' Ht Hc ltac:(done)). unfold scan_outcome in H'. cbn [attempted stop] in H'.
  destruct (scan trees _) as [r|[r|]]; cbn [ok_or]; [| |done].
  - destruct H' as (H1 & H2 & H3 & H4). rewrite H3. split; [done|]. split; [lia|]. split; [done|lia].
  - destruct H' as (H1 & H2 & H3). split; [done|]. split; [done|]. split; [done|].
    by destruct (stop r).
Qed.
End enumeration.

Lemma synthesize_enumerates_witness :
  ∃ r, @Synthesis.synthesize libm_example (Complex.real (f64_of_Z 7)) (RealInterpretation BmlBasis) f64_zero
         (mkSynthesisBudget 5 10) = Ok r ∧ stop r = NodeBudgetStop ∧ attempted r = 4 ∧
       Z.of_nat (length (candidates 5)) = 4.
Proof.
  pose proof (@synthesize_enumerates libm_example (Complex.real (f64_of_Z 7)) (RealInterpretation BmlBasis) f64_zero
    (mkSynthesisBudget 5 10) ltac:(done)) as [H _].
  destruct (@Synthesis.synthesize libm_example (Complex.real (f64_of_Z 7)) (RealInterpretation BmlBasis) f64_zero
    (mkSynthesisBudget 5 10)) as [r|e] eqn:E; [|vm_compute in E; discriminate E].
  exists r. split; [reflexivity|]. assert (stop r = NodeBudgetStop) as Hs by (vm_compute in E; injection E as <-; reflexivity).
  rewrite Hs in H. destruct H as (_ & _ & _ & H). split; [reflexivity || exact Hs|]. split; [exact H|reflexivity].
Defined.
