(* ===== verification/Search.v ===== *)
(** * number/search.rs: bounded comparison of certified candidates

    The cost of a tree, one search over the candidate families, and the cache of
    the searcher. Elapsed times are not modelled; the capacity of a word vector,
    which its allocation decides, is a parameter. *)

From Stdlib Require Import QArith Qreals Reals.
From S2P Require Import Prelude Words Terms Encoding Operations RealSemantics ExactNat Float Exact ExactInput.
From S2P Require Import Certified CertifiedReal Checked Recognize Stream FloatArith Symbolic Operands.
#[local] Open Scope Z_scope.

(** The capacity of the vector of words behind a tree. *)
Class Allocation : Set := capacity : Bml → Z.

Record TreeCost : Set := mkTreeCost {
  operators : Z;
  cost_bits : Z;
  depth : Z;
  cost_words : Z;
  word_capacity : Z;
}.

Inductive ExactStrategy : Set :=
  | Previous | Catalogue | PowerOfTwo | NearPower | Factors | Sum | Difference.

Inductive CandidateOutcome : Set :=
  | CertifiedCost (cost : TreeCost)
  | Rejected (e : ExactError).

Record CandidateRecord : Set := mkCandidateRecord {
  strategy : ExactStrategy;
  parameter : option Z;
  candidate_outcome : CandidateOutcome;
}.

Inductive SearchTermination : Set := StrategiesCompleted | BudgetExhausted.

Record ExactSearchOptions : Set := mkExactSearchOptions {
  synthesis : ExactSynthesisOptions;
  max_candidates : Z;
  max_factor_trials : Z;
  max_cache_entries : Z;
  max_cache_bits : Z;
  max_cache_steps : Z;
}.

Definition ExactSearchOptions_default : ExactSearchOptions :=
  mkExactSearchOptions ExactSynthesisOptions_default 32 256 16 4194304 16384.

Record ExactSearchReport : Set := mkExactSearchReport {
  report_options : ExactSearchOptions;
  candidates : list CandidateRecord;
  selected : option nat;
  factor_trials : Z;
  cache_lookups : Z;
  candidate_limit_reached : bool;
  factor_limit_reached : bool;
  termination : SearchTermination;
  minimum_proven : bool;
  direct_evaluation : option (Result (option EvalError) f64);
}.

Record ExactSearchResult : Set := mkExactSearchResult {
  result_best : option CertifiedBml;
  report : ExactSearchReport;
}.

Record ExactSearcher : Set := mkExactSearcher {
  searcher_options : ExactSearchOptions;
  cache : list CertifiedBml;
}.

(** [SearchRun]: the fields that change during a search. *)
Record SearchRun : Set := mkSearchRun {
  run_best : option (CertifiedBml * TreeCost);
  run_report : ExactSearchReport;
}.

Module Search.
Abbreviation Result := (Result ExactError).

Section search.
Context `{Allocation}.

(** One bit of the loop of [tree_cost]. *)
Definition cost_step (set : bool) (stack : list Z) : Result (list Z) :=
  depth ← if set
    then match stack with
         | a :: b :: stack => d ← ok_or ProofLimit (Prelude.checked_add (Z.max a b) 1); Ok (d, stack)
         | _ => Err InvalidProof
         end
    else Ok (0, stack);
  Ok (depth.1 :: depth.2).

(** [None] is the panic of [stack\[0\]] on an empty stack. *)
Definition tree_cost (self : Bml) (max_bits : Z) : option (Result TreeCost) :=
  if max_bits <? bit_len self then Some (Err ProofLimit) else
  match for_each (λ index stack, cost_step (bit self index) stack) (seqZ 0 (bit_len self)) [] with
  | Err e => Some (Err e)
  | Ok stack =>
      d ← last stack;
      Some (Ok (mkTreeCost (Stream.operator_count self) (bit_len self) d
        (Z.of_nat (length (words self))) (capacity self)))
  end.

(** [Iterator::cmp]. *)
Fixpoint iter_cmp (a b : list Z) : comparison :=
  match a, b with
  | [], [] => Eq
  | [], _ => Lt
  | _, [] => Gt
  | x :: a, y :: b => match x ?= y with Eq => iter_cmp a b | c => c end
  end.

Definition then_with (c d : comparison) : comparison := match c with Eq => d | _ => c end.

(** The ordering of candidates: operators, depth, then the code. *)
Definition ordering (value : CertifiedBml) (cost : TreeCost) (best : option (CertifiedBml * TreeCost)) : comparison :=
  match best with
  | Some (best, previous) =>
      then_with (operators cost ?= operators previous)
        (then_with (depth cost ?= depth previous)
          (iter_cmp (reverse (to_words_le (term value))) (reverse (to_words_le (term best)))))
  | None => Lt
  end.

Definition record (strategy : ExactStrategy) (parameter : option Z) (outcome : CandidateOutcome)
    (r : ExactSearchReport) : ExactSearchReport :=
  mkExactSearchReport (report_options r) (candidates r ++ [mkCandidateRecord strategy parameter outcome])
    (selected r) (factor_trials r) (cache_lookups r) (candidate_limit_reached r) (factor_limit_reached r)
    (termination r) (minimum_proven r) (direct_evaluation r).

Definition set_selected (n : nat) (r : ExactSearchReport) : ExactSearchReport :=
  mkExactSearchReport (report_options r) (candidates r) (Some n) (factor_trials r) (cache_lookups r)
    (candidate_limit_reached r) (factor_limit_reached r) (termination r) (minimum_proven r) (direct_evaluation r).

Definition set_candidate_limit (r : ExactSearchReport) : ExactSearchReport :=
  mkExactSearchReport (report_options r) (candidates r) (selected r) (factor_trials r) (cache_lookups r)
    true (factor_limit_reached r) (termination r) (minimum_proven r) (direct_evaluation r).

Definition set_factor_limit (r : ExactSearchReport) : ExactSearchReport :=
  mkExactSearchReport (report_options r) (candidates r) (selected r) (factor_trials r) (cache_lookups r)
    (candidate_limit_reached r) true (termination r) (minimum_proven r) (direct_evaluation r).

Definition add_trial (r : ExactSearchReport) : ExactSearchReport :=
  mkExactSearchReport (report_options r) (candidates r) (selected r) (factor_trials r + 1) (cache_lookups r)
    (candidate_limit_reached r) (factor_limit_reached r) (termination r) (minimum_proven r) (direct_evaluation r).

Definition add_lookup (r : ExactSearchReport) : ExactSearchReport :=
  mkExactSearchReport (report_options r) (candidates r) (selected r) (factor_trials r) (cache_lookups r + 1)
    (candidate_limit_reached r) (factor_limit_reached r) (termination r) (minimum_proven r) (direct_evaluation r).

Definition set_termination (t : SearchTermination) (r : ExactSearchReport) : ExactSearchReport :=
  mkExactSearchReport (report_options r) (candidates r) (selected r) (factor_trials r) (cache_lookups r)
    (candidate_limit_reached r) (factor_limit_reached r) t (minimum_proven r) (direct_evaluation r).

Definition with_report (f : ExactSearchReport → ExactSearchReport) (run : SearchRun) : SearchRun :=
  mkSearchRun (run_best run) (f (run_report run)).

Context (target_value : ExactRational) (options : ExactSearchOptions).

(** One attempt; [None] is a panic. The construction runs only within budget. *)
Definition attempt (strategy : ExactStrategy) (parameter : option Z) (build : unit → Result CertifiedBml)
    (run : SearchRun) : option SearchRun :=
  if max_candidates options <=? Z.of_nat (length (candidates (run_report run)))
  then Some (with_report set_candidate_limit run) else
  let rejected e := Some (with_report (record strategy parameter (Rejected e)) run) in
  match build tt with
  | Err e => rejected e
  | Ok value =>
      if negb (bool_decide (target value = target_value)) then rejected InvalidProof else
      cost ← tree_cost (term value) (max_bits (synthesis options));
      match cost with
      | Err e => rejected e
      | Ok cost =>
          let run :=
            match ordering value cost (run_best run) with
            | Lt => mkSearchRun (Some (value, cost))
                      (set_selected (length (candidates (run_report run))) (run_report run))
            | _ => run
            end in
          Some (with_report (record strategy parameter (CertifiedCost cost)) run)
      end
  end.

(** *** The strategies *)

(** The scan of the cache, which stops at the first entry with the target. *)
Fixpoint previous_results (entries : list CertifiedBml) (run : SearchRun) : option SearchRun :=
  match entries with
  | [] => Some run
  | previous :: entries =>
      let run := with_report add_lookup run in
      if bool_decide (target previous = target_value) then
        attempt Previous None
          (λ _, Certified.verify (derivation previous) (term previous) target_value (synthesis options)) run
      else previous_results entries run
  end.

Definition catalogue : list (Z * Z) := [(0, 1); (4, 2); (24, 4); (88, 0); (100, 3); (112, 16); (452, 15)].

Definition catalogue_entry (entry : Z * Z) (run : option SearchRun) : option SearchRun :=
  let '(code, value) := entry in
  run ← run;
  if bool_decide (target_value = Exact.from_i64 value) then
    attempt Catalogue (Some code)
      (λ _, b ← map_err (λ _, InvalidProof) (from_u64 code); Recognize.certify_exact b (synthesis options)) run
  else Some run.

Definition natural : bool := bool_decide (denominator target_value = [1]).

Definition magnitude : option Z :=
  if natural then
    match numerator target_value with
    | [] => Some 0
    | [n] => Some n
    | _ => None
    end
  else None.

Definition power : bool :=
  natural && (foldr (λ w n, count_ones w + n) 0 (numerator target_value) =? 1).

Definition build (value : Z) : Result CertifiedBml :=
  target ← Certified.from_input (Exact.from_decimal_str (to_string value) (rational (synthesis options)));
  Certified.from_rational_exact target (synthesis options).

Definition sign (value : CertifiedBml) : Result CertifiedBml :=
  if negative target_value then Checked.checked_neg value (synthesis options) else Ok value.

Definition pair_of (operation : CertifiedBml → CertifiedBml → ExactSynthesisOptions → Result CertifiedBml)
    (x y : Z) (_ : unit) : Result CertifiedBml :=
  a ← build x;
  b ← build y;
  c ← operation a b (synthesis options);
  sign c.

Definition sum_difference (n : Z) (run : SearchRun) : option SearchRun :=
  let lower := Z.shiftl 1 (63 - leading_zeros n) in
  if lower <? n then
    run ← attempt Sum (Some lower) (pair_of Checked.checked_add lower (n - lower)) run;
    match Prelude.checked_mul lower 2 with
    | Some upper => attempt Difference (Some upper) (pair_of Checked.checked_sub upper (upper - n)) run
    | None => Some run
    end
  else Some run.

(** One trial divisor; [inr] leaves the loop. *)
Definition factor_step (n : Z) (state : SearchRun * Z) : (SearchRun * Z) + option SearchRun :=
  let '(run, divisor) := state in
  if divisor <=? n / divisor then
    if max_factor_trials options <=? factor_trials (run_report run)
    then inr (Some (with_report set_factor_limit run)) else
    if max_candidates options <=? Z.of_nat (length (candidates (run_report run)))
    then inr (Some (with_report set_candidate_limit run)) else
    let run := with_report add_trial run in
    match (if n `mod` divisor =? 0
           then attempt Factors (Some divisor) (pair_of Checked.checked_mul divisor (n / divisor)) run
           else Some run) with
    | Some run => inl (run, divisor + 1)
    | None => inr None
    end
  else inr (Some run).

(** A divisor is at most the root of a 64-bit number, so [2 ^ 32] turns are enough;
    a loop that outlasts the bound gives [None]. *)
Definition factors (n : Z) (run : SearchRun) : option SearchRun :=
  match while (factor_step n) (Z.to_pos (2 ^ 33)) (run, 2) with
  | inl _ => None
  | inr r => r
  end.
End search.

(** *** The searcher *)

Definition new (options : ExactSearchOptions) : ExactSearcher := mkExactSearcher options [].
Definition cached_results (self : ExactSearcher) : Z := Z.of_nat (length (cache self)).
Definition clear_cache (self : ExactSearcher) : ExactSearcher := mkExactSearcher (searcher_options self) [].

(** [try_fold] of [checked_add] over a measure of the entries. *)
Definition total (measure : CertifiedBml → Z) (start : Z) (entries : list CertifiedBml) : option Z :=
  foldl (λ n x, n ← n; Prelude.checked_add n (measure x)) (Some start) entries.

Definition term_bits (c : CertifiedBml) : Z := bit_len (term c).
Definition step_count (c : CertifiedBml) : Z := Z.of_nat (length (steps (derivation c))).

(** [is_none_or(|n| n > max)]. *)
Definition exceeds (limit : Z) (n : option Z) : bool := match n with Some n => limit <? n | None => true end.

(** The loop that removes the oldest entry while a budget would be exceeded. *)
Fixpoint evict (options : ExactSearchOptions) (value : CertifiedBml) (entries : list CertifiedBml) : list CertifiedBml :=
  match entries with
  | [] => []
  | entry :: rest =>
      if (max_cache_entries options <=? Z.of_nat (length entries))
         || exceeds (max_cache_bits options) (total term_bits (term_bits value) entries)
         || exceeds (max_cache_steps options) (total step_count (step_count value) entries)
      then evict options value rest
      else entries
  end.

Definition remember (self : ExactSearcher) (value : CertifiedBml) : ExactSearcher :=
  let options := searcher_options self in
  if (max_cache_entries options =? 0) || (max_cache_bits options <? term_bits value)
     || (max_cache_steps options <? step_count value) then self else
  if existsb (λ entry, bool_decide (target entry = target value) && bool_decide (term entry = term value)) (cache self)
  then self else
  mkExactSearcher options (evict options value (cache self) ++ [value]).

Section search.
Context `{Allocation}.

Definition empty_report (options : ExactSearchOptions) : ExactSearchReport :=
  mkExactSearchReport options [] None 0 0 false false StrategiesCompleted false None.

(** The new searcher and the result; [None] is a panic. *)
Definition search (self : ExactSearcher) (target_value : ExactRational) : option (ExactSearcher * ExactSearchResult) :=
  let options := searcher_options self in
  run ← previous_results target_value options (cache self) (mkSearchRun None (empty_report options));
  run ← foldl (λ run entry, catalogue_entry target_value options entry run) (Some run) catalogue;
  run ← attempt target_value options (if power target_value then PowerOfTwo else NearPower) None
    (λ _, Certified.from_rational_exact target_value (synthesis options)) run;
  run ← match magnitude target_value with
        | Some n =>
            if 1 <? n then
              run ← sum_difference target_value options n run;
              factors target_value options n run
            else Some run
        | None => Some run
        end;
  let run := if candidate_limit_reached (run_report run) || factor_limit_reached (run_report run)
             then with_report (set_termination BudgetExhausted) run else run in
  let result := mkExactSearchResult (fst <$> run_best run) (run_report run) in
  let self := match result_best result with Some best => remember self best | None => self end in
  Some (self, result).
End search.

(** The result after the measurement, and the measurement. *)
Definition measure_direct_evaluation `{Libm} (self : ExactSearchResult)
    : ExactSearchResult * option (Prelude.Result (option EvalError) f64) :=
  match result_best self with
  | None => (self, None)
  | Some best =>
      let result := to_f64 (term best) in
      let r := report self in
      (mkExactSearchResult (result_best self) (mkExactSearchReport (report_options r) (candidates r) (selected r)
         (factor_trials r) (cache_lookups r) (candidate_limit_reached r) (factor_limit_reached r)
         (termination r) (minimum_proven r) (Some result)), Some result)
  end.
End Search.

(** ** Tree cost *)

Section cost.
Context `{Allocation}.

Lemma tree_depth_len t : 0 ≤ tree_depth t < tree_len t.
Proof. induction t; cbn; lia. Qed.

Lemma cost_steps_tree t rest stack :
  tree_len t < W64 →
  for_each Search.cost_step (reverse (tree_bits t) ++ rest) stack = for_each Search.cost_step rest (tree_depth t :: stack).
Proof.
  revert rest stack. induction t as [|l IHl r IHr]; intros rest stack Hlen; [done|].
  cbn [tree_bits tree_depth tree_len] in *. pose proof (tree_len_pos l). pose proof (tree_len_pos r).
  rewrite reverse_cons, reverse_app, <- !(assoc_L (++)), IHr, IHl by lia.
  pose proof (tree_depth_len l). pose proof (tree_depth_len r). cbn [app for_each].
  assert (Search.cost_step true (tree_depth l :: tree_depth r :: stack)
    = Ok (1 + Z.max (tree_depth l) (tree_depth r) :: stack)) as ->; [|done].
  unfold Search.cost_step, Prelude.checked_add.
  rewrite (proj2 (Z.ltb_lt (Z.max (tree_depth l) (tree_depth r) + 1) W64)) by lia.
  cbn. by rewrite Z.add_comm.
Qed.

Lemma tree_cost_spec b t max :
  Represents b t → max < W64 →
  Search.tree_cost b max = Some (if max <? tree_len t then Err ProofLimit else
    Ok (mkTreeCost (tree_ops t) (tree_len t) (tree_depth t) (Z.of_nat (length (words b))) (capacity b))).
Proof.
  intros Hr Hm. unfold Search.tree_cost, Stream.operator_count. rewrite (Represents_bit_len Hr).
  destruct (Z.ltb_spec max (tree_len t)); [done|].
  rewrite <- (Represents_bit_len Hr), (for_each_fmap Search.cost_step), (Represents_bits_up b t) by done.
  rewrite <- (app_nil_r (reverse _)), cost_steps_tree by lia. cbn. rewrite (Represents_bit_len Hr).
  do 3 f_equal. rewrite tree_len_ops. dlia.
Qed.
End cost.

(** ** Constructions are certified *)

Definition builds (m : Result ExactError CertifiedBml) : Prop := ∀ c, m = Ok c → certified c.

Lemma builds_bind {A} (m : Result ExactError A) f : (∀ a, m = Ok a → builds (f a)) → builds (m ≫= f).
Proof. intros Hf c (a & Ha & Hc)%bind_ok. by apply (Hf a Ha). Qed.

Section constructions.
Context (options : ExactSearchOptions) (Ho : options_ok (synthesis options)).

Lemma build_certified n : builds (Search.build options n).
Proof.
  intros c Hc. by destruct (@into_certified_sound Integer integer_operand integer_laws (mkInteger n) (synthesis options) c Ho I Hc).
Qed.

Lemma binary_certified op a b : certified a → certified b → builds (Checked.binary a b op (synthesis options)).
Proof.
  intros Ha Hb c Hc. pose proof (binary_outcome (synthesis options) a b op Ho Ha Hb) as H.
  rewrite Hc in H. by destruct H.
Qed.

Lemma pair_certified v op f x y u :
  (∀ a b o, f a b o = Checked.binary a b op o) → builds (Search.pair_of v options f x y u).
Proof.
  intros Hf. apply builds_bind. intros a Ha. apply builds_bind. intros b Hb. apply builds_bind.
  intros c Hc. rewrite Hf in Hc.
  pose proof (binary_certified op a b (build_certified _ a Ha) (build_certified _ b Hb) c Hc) as Hcc.
  unfold Search.sign. destruct (negative v); [|by intros d [= <-]].
  intros d Hd. pose proof (checked_neg_lemma (synthesis options) Ho c Hcc) as Hn. rewrite Hd in Hn. by destruct Hn.
Qed.

Lemma rational_certified v : rat_wf v → builds (Certified.from_rational_exact v (synthesis options)).
Proof. intros Hv c Hc. pose proof (from_rational_exact_lemma _ Ho v Hv) as H. rewrite Hc in H. by destruct H. Qed.

Lemma verify_certified d b v : builds (Certified.verify d b v (synthesis options)).
Proof. intros c Hc. pose proof (verify_lemma _ d b v Ho) as H. rewrite Hc in H. by destruct H as [-> ?]. Qed.

Lemma code_certified code v :
  (code, v) ∈ Search.catalogue →
  builds (b ← map_err (λ _, InvalidProof) (from_u64 code); Recognize.certify_exact b (synthesis options)).
Proof.
  intros Hcode. apply builds_bind. intros b Hb c Hc. destruct (from_u64 code) as [b'|] eqn:Eb; [injection Hb as ->|done].
  destruct (from_words_le_Represents [code] b) as [t Ht]; [|done|done|].
  { assert (Forall (λ e, u64 e.1) Search.catalogue) as Hall by (repeat constructor; done).
    rewrite Forall_forall in Hall. repeat constructor; by apply (Hall (code, v)). }
  pose proof (certify_exact_lemma _ b t Ho Ht) as H. rewrite Hc in H. by destruct H.
Qed.
End constructions.

(** ** The run *)

(** Cheaper or equal: fewer operators, or as many and no deeper. *)
Definition no_worse (a b : TreeCost) : Prop :=
  operators a < operators b ∨ (operators a = operators b ∧ depth a ≤ depth b).

Lemma no_worse_trans a b c : no_worse a b → no_worse b c → no_worse a c.
Proof. unfold no_worse. lia. Qed.

Section run.
Context `{Allocation} (v : ExactRational) (options : ExactSearchOptions).
Context (Hv : rat_wf v) (Ho : options_ok (synthesis options)).
Context (Hmax : 0 ≤ max_candidates options) (Htrials : 0 ≤ max_factor_trials options).

(** The best candidate so far is proved for the target, is the recorded one, and no
    recorded success is cheaper. *)
Definition best_sound (best : CertifiedBml * TreeCost) (r : ExactSearchReport) : Prop :=
  certified best.1 ∧ target best.1 = v ∧
  Search.tree_cost (term best.1) (max_bits (synthesis options)) = Some (Ok best.2) ∧
  (∃ i s p, selected r = Some i ∧ candidates r !! i = Some (mkCandidateRecord s p (CertifiedCost best.2))) ∧
  (∀ s p cost, mkCandidateRecord s p (CertifiedCost cost) ∈ candidates r → no_worse best.2 cost).

Record ReportOk (best : option (CertifiedBml * TreeCost)) (r : ExactSearchReport) : Prop := mkReportOk {
  report_length : Z.of_nat (length (candidates r)) ≤ max_candidates options;
  report_trials : 0 ≤ factor_trials r ≤ max_factor_trials options;
  report_minimum : minimum_proven r = false;
  report_termination : termination r = BudgetExhausted → candidate_limit_reached r = true ∨ factor_limit_reached r = true;
  report_best : match best with
    | Some b => best_sound b r
    | None => selected r = None ∧ ∀ s p cost, mkCandidateRecord s p (CertifiedCost cost) ∉ candidates r
    end;
}.

Definition RunOk (run : SearchRun) : Prop := ReportOk (run_best run) (run_report run).

(** A step of the run: no panic, the invariant kept, and no trial consumed. *)
Definition advances (run : SearchRun) (m : option SearchRun) : Prop :=
  ∃ run', m = Some run' ∧ RunOk run' ∧ factor_trials (run_report run') = factor_trials (run_report run).

Lemma record_ok best r s p e :
  ReportOk best r → Z.of_nat (length (candidates r)) < max_candidates options →
  ReportOk best (Search.record s p (Rejected e) r).
Proof.
  intros [Hl Ht Hm Hx Hb] Hlt. constructor; cbn [Search.record candidates factor_trials minimum_proven]; [|done..|].
  { rewrite length_app. cbn. lia. }
  destruct best as [b|].
  - destruct Hb as (Hc & Hbt & Hcost & (i & s' & p' & Hs & Hi) & Hn). repeat (split; [done|]). split.
    + exists i, s', p'. split; [done|]. by apply lookup_app_l_Some.
    + intros s1 p1 k [Hk|Hk%list_elem_of_singleton]%elem_of_app; [by eapply Hn|done].
  - destruct Hb as [Hs Hn]. split; [done|]. intros s1 p1 k [Hk|Hk%list_elem_of_singleton]%elem_of_app; [by eapply Hn|done].
Qed.

Lemma ordering_Lt value cost best :
  Search.ordering value cost best = Lt →
  match best with Some (_, previous) => no_worse cost previous | None => True end.
Proof.
  destruct best as [[b previous]|]; [|done]. unfold Search.ordering, Search.then_with, no_worse.
  destruct (Z.compare_spec (operators cost) (operators previous)); [|by left|done].
  destruct (Z.compare_spec (depth cost) (depth previous)); intros; [right; lia|right; lia|done].
Qed.

Lemma ordering_not_Lt value cost b previous :
  Search.ordering value cost (Some (b, previous)) ≠ Lt → no_worse previous cost.
Proof.
  unfold Search.ordering, Search.then_with, no_worse.
  destruct (Z.compare_spec (operators cost) (operators previous)); [|done|left; lia].
  destruct (Z.compare_spec (depth cost) (depth previous)); intros; [right; lia|done|right; lia].
Qed.

Lemma accept_ok run s p value cost :
  RunOk run → Z.of_nat (length (candidates (run_report run))) < max_candidates options →
  certified value → target value = v → Search.tree_cost (term value) (max_bits (synthesis options)) = Some (Ok cost) →
  RunOk (Search.with_report (Search.record s p (CertifiedCost cost))
    match Search.ordering value cost (run_best run) with
    | Lt => mkSearchRun (Some (value, cost))
              (Search.set_selected (length (candidates (run_report run))) (run_report run))
    | _ => run
    end).
Proof.
  intros [Hl Ht Hm Hx Hb] Hlt Hc Hvt Hcost. destruct run as [best r]. cbn [run_best run_report] in *.
  destruct (decide (Search.ordering value cost best = Lt)) as [E|E].
  - rewrite E. pose proof (ordering_Lt _ _ _ E) as Hle.
    constructor; cbn; [rewrite length_app; cbn; lia|done..|]. repeat (split; [done|]). split.
    + exists (length (candidates r)), s, p. split; [done|]. by apply list_lookup_middle.
    + intros s1 p1 k [Hk|Hk%list_elem_of_singleton]%elem_of_app; cbn.
      * destruct best as [[b previous]|]; [|by apply Hb in Hk].
        apply no_worse_trans with previous; [done|]. by eapply Hb.
      * injection Hk as _ _ ->. right. lia.
  - assert (∀ x : SearchRun, match Search.ordering value cost best with Lt => x | _ => mkSearchRun best r end
      = mkSearchRun best r) as -> by (intros x; by destruct (Search.ordering value cost best)).
    destruct best as [[b previous]|]; [|done]. pose proof (ordering_not_Lt _ _ _ _ E) as Hle.
    constructor; cbn; [rewrite length_app; cbn; lia|done..|].
    destruct Hb as (Hbc & Hbt & Hbcost & (i & s' & p' & Hs & Hi) & Hn). repeat (split; [done|]). split.
    + exists i, s', p'. split; [done|]. by apply lookup_app_l_Some.
    + intros s1 p1 k [Hk|Hk%list_elem_of_singleton]%elem_of_app; [by eapply Hn|]. by injection Hk as _ _ ->.
Qed.

Lemma attempt_advances s p build run :
  RunOk run → builds (build tt) → advances run (Search.attempt v options s p build run).
Proof.
  intros Hrun Hb. unfold Search.attempt.
  destruct (Z.leb_spec (max_candidates options) (Z.of_nat (length (candidates (run_report run))))).
  { eexists. split; [done|]. split; [|done]. destruct Hrun. constructor; try done. by left. }
  assert (∀ e, advances run (Some (Search.with_report (Search.record s p (Rejected e)) run))) as Hrej.
  { intros e. eexists. split; [done|]. split; [|done]. by apply record_ok. }
  destruct (build tt) as [value|e] eqn:Eb; [|apply Hrej]. pose proof (Hb value eq_refl) as Hc.
  case_bool_decide as Ht; cbn [negb]; [|apply Hrej].
  destruct Hc as (ts & vs & t & HM & Hti & Hvi & Hr).
  assert (certified value) as Hc by (by exists ts, vs, t).
  pose proof (tree_cost_spec (term value) t (max_bits (synthesis options)) Hr) as Hcost.
  rewrite Hcost by apply Ho. cbn [mbind option_bind].
  destruct (_ <? tree_len t) eqn:El; [apply Hrej|]. eexists. split; [done|]. split.
  - apply (accept_ok run s p value); [done|done|done|done|]. by apply Hcost, Ho.
  - by destruct (Search.ordering _ _ _).
Qed.

Lemma advances_bind run m f :
  advances run m → (∀ run', RunOk run' → advances run' (f run')) → advances run (m ≫= f).
Proof.
  intros (r1 & -> & Hr1 & Ht1) Hf. destruct (Hf r1 Hr1) as (r2 & Hr2 & Hok & Ht2).
  exists r2. cbn. rewrite Hr2. split; [done|]. split; [done|]. congruence.
Qed.

Lemma advances_refl run : RunOk run → advances run (Some run).
Proof. by exists run. Qed.

(** *** The strategies *)

Lemma previous_advances entries run : RunOk run → advances run (Search.previous_results v options entries run).
Proof.
  revert run. induction entries as [|e entries IH]; intros run Hr; cbn; [by apply advances_refl|].
  assert (RunOk (Search.with_report Search.add_lookup run)) as Hl by (by destruct Hr).
  case_bool_decide.
  - apply (attempt_advances Previous None _ (Search.with_report Search.add_lookup run) Hl).
    by apply verify_certified.
  - by apply (IH (Search.with_report Search.add_lookup run)).
Qed.

Lemma catalogue_advances run :
  RunOk run → advances run (foldl (λ run entry, Search.catalogue_entry v options entry run) (Some run) Search.catalogue).
Proof.
  intros Hr. assert (∀ entries, (∀ e, e ∈ entries → e ∈ Search.catalogue) → ∀ m, advances run m →
    advances run (foldl (λ run entry, Search.catalogue_entry v options entry run) m entries)) as Hall.
  { induction entries as [|[code value] entries IH]; intros Hin m Hm; [done|]. cbn [foldl].
    apply IH; [intros e He; apply Hin; by right|]. unfold Search.catalogue_entry.
    apply advances_bind; [done|]. intros run' Hr'. case_bool_decide; [|by apply advances_refl].
    apply attempt_advances; [done|]. apply (code_certified options Ho code value). apply Hin. by left. }
  apply Hall; [done|by apply advances_refl].
Qed.

Lemma sum_difference_advances n run : RunOk run → advances run (Search.sum_difference v options n run).
Proof.
  intros Hr. unfold Search.sum_difference. destruct (_ <? n); [|by apply advances_refl].
  apply advances_bind.
  - apply attempt_advances; [done|]. by apply (pair_certified options Ho v OpAdd).
  - intros run' Hr'. destruct (checked_mul _ 2); [|by apply advances_refl].
    apply attempt_advances; [done|]. by apply (pair_certified options Ho v OpSub).
Qed.

(** The trial divisions end within the bound. *)
Lemma factors_ok n run :
  n < W64 → RunOk run → ∃ run', Search.factors v options n run = Some run' ∧ RunOk run'.
Proof.
  intros Hn Hr. unfold Search.factors.
  destruct (while_total (λ st : SearchRun * Z, RunOk st.1 ∧ 2 ≤ st.2 ≤ 2 ^ 32) (λ m, ∃ run', m = Some run' ∧ RunOk run')
    (λ st, 2 ^ 32 - st.2) (Search.factor_step v options n)) with (p := Z.to_pos (2 ^ 33)) (s := (run, 2))
    as (r & -> & Hr'); [| | |done].
  - intros [run1 d] [Hr1 Hd]. cbn [fst snd] in *. unfold Search.factor_step.
    destruct (Z.leb_spec d (n / d)) as [Hle|]; [|by exists run1].
    destruct (Z.leb_spec (max_factor_trials options) (factor_trials (run_report run1))).
    { eexists. split; [done|]. destruct Hr1. constructor; try done. by right. }
    destruct (_ <=? _); [eexists; split; [done|]; destruct Hr1; constructor; try done; by left|].
    assert (d < 2 ^ 32) as Hd32.
    { assert (d * d ≤ n); [|nia]. pose proof (Z.mul_div_le n d ltac:(lia)). nia. }
    assert (RunOk (Search.with_report Search.add_trial run1)) as Hr2.
    { destruct Hr1 as [H1 H2 H3 H4 H5]. constructor; [done| |done..]. cbn. lia. }
    destruct (n `mod` d =? 0); [|cbn [fst snd]; split; [split; [done|lia]|lia]].
    destruct (attempt_advances Factors (Some d) (Search.pair_of v options Checked.checked_mul d (n / d))
      (Search.with_report Search.add_trial run1) Hr2) as (run2 & -> & Hr3 & _).
    + by apply (pair_certified options Ho v OpMul).
    + cbn [fst snd]. split; [split; [done|lia]|lia].
  - cbn. split; [done|lia].
  - cbn. lia.
Qed.
End run.

(** ** The cache *)

Definition sum_of (measure : CertifiedBml → Z) (entries : list CertifiedBml) : Z :=
  foldr (λ c n, measure c + n) 0 entries.

Record CacheOk (options : ExactSearchOptions) (entries : list CertifiedBml) : Prop := mkCacheOk {
  cache_certified : Forall certified entries;
  cache_entries : Z.of_nat (length entries) ≤ max_cache_entries options;
  cache_bits : sum_of Search.term_bits entries ≤ max_cache_bits options;
  cache_steps : sum_of Search.step_count entries ≤ max_cache_steps options;
}.

Lemma total_Some measure start entries n :
  Search.total measure start entries = Some n → n = start + sum_of measure entries.
Proof.
  unfold Search.total. revert start. induction entries as [|c entries IH]; intros start; cbn.
  { intros [= <-]. lia. }
  destruct (checked_add start (measure c)) as [m|] eqn:E.
  - apply checked_add_Some in E as [-> _]. intros H. apply IH in H. rewrite H. cbn. fold (sum_of measure entries). lia.
  - intros H. exfalso. clear -H. induction entries as [|d entries IH]; [done|]. by apply IH.
Qed.

Lemma exceeds_false limit measure start entries :
  Search.exceeds limit (Search.total measure start entries) = false → start + sum_of measure entries ≤ limit.
Proof.
  destruct (Search.total measure start entries) as [n|] eqn:E; [|done]. apply total_Some in E as ->.
  cbn. intros H%Z.ltb_ge. lia.
Qed.

Lemma sum_of_snoc measure entries c : sum_of measure (entries ++ [c]) = sum_of measure entries + measure c.
Proof.
  induction entries as [|d entries IH]; cbn; [lia|]. unfold sum_of in *. lia.
Qed.

(** What eviction leaves has room for the new entry, and is a suffix. *)
Lemma evict_spec options value entries :
  1 ≤ max_cache_entries options → Search.term_bits value ≤ max_cache_bits options →
  Search.step_count value ≤ max_cache_steps options →
  Search.evict options value entries `suffix_of` entries ∧
  Z.of_nat (length (Search.evict options value entries)) < max_cache_entries options ∧
  Search.term_bits value + sum_of Search.term_bits (Search.evict options value entries) ≤ max_cache_bits options ∧
  Search.step_count value + sum_of Search.step_count (Search.evict options value entries) ≤ max_cache_steps options.
Proof.
  intros He Hb Hs. induction entries as [|c entries IH].
  { cbn. split; [done|]. lia. }
  cbn [Search.evict]. destruct (_ || _ || _) eqn:E.
  - destruct IH as (Hsuf & IH). split; [by apply suffix_cons_r|done].
  - apply orb_false_iff in E as [[E1%Z.leb_gt E2%exceeds_false]%orb_false_iff E3%exceeds_false].
    split; [done|]. by split.
Qed.

Lemma remember_ok self value :
  usize (max_cache_entries (searcher_options self)) →
  CacheOk (searcher_options self) (cache self) → certified value →
  CacheOk (searcher_options (Search.remember self value)) (cache (Search.remember self value)) ∧
  searcher_options (Search.remember self value) = searcher_options self.
Proof.
  intros Hu Hc Hv. unfold Search.remember. set (o := searcher_options self) in *.
  destruct (_ || _ || _) eqn:E; [by split|]. destruct (existsb _ _); [by split|].
  apply orb_false_iff in E as [[E1%Z.eqb_neq E2%Z.ltb_ge]%orb_false_iff E3%Z.ltb_ge].
  destruct (evict_spec o value (cache self)) as ([k Hk] & Hl & Hb & Hs); [destruct Hu; lia|done|done|].
  split; [|done]. cbn [searcher_options cache]. constructor; rewrite ?sum_of_snoc, ?length_app; cbn [length]; try lia.
  apply Forall_app_2; [|by apply Forall_singleton].
  destruct Hc as [Hc _ _ _]. rewrite Hk in Hc. by apply Forall_app in Hc as [_ ?].
Qed.

(** ** The search *)

Lemma words_u64_head (n : Z) (ws : list Z) : words_ok (n :: ws) → n < W64.
Proof. intros H. by apply Forall_cons in H as [[_ ?] _]. Qed.

Lemma search_lemma `{Allocation} self v :
  let options := searcher_options self in
  rat_wf v → options_ok (synthesis options) → 0 ≤ max_candidates options → 0 ≤ max_factor_trials options →
  usize (max_cache_entries options) → CacheOk options (cache self) →
  ∃ self' result, Search.search self v = Some (self', result) ∧
    searcher_options self' = options ∧ CacheOk options (cache self') ∧
    (∃ cost, ReportOk v options ((λ c, (c, cost)) <$> result_best result) (report result)) ∧
    (candidate_limit_reached (report result) = true ∨ factor_limit_reached (report result) = true →
       termination (report result) = BudgetExhausted).
Proof.
  intros options Hv Ho Hm Ht Hu Hc. unfold Search.search. cbv zeta. fold options.
  assert (RunOk v options (mkSearchRun None (Search.empty_report options))) as H0.
  { constructor; cbn; [done..|]. split; [done|]. intros s p k Hk. by apply elem_of_nil in Hk. }
  destruct (previous_advances v options Ho (cache self) _ H0) as (r1 & -> & H1 & _).
  cbn [mbind option_bind].
  destruct (catalogue_advances v options Ho r1 H1) as (r2 & -> & H2 & _). cbn [mbind option_bind].
  destruct (attempt_advances v options Ho (if Search.power v then PowerOfTwo else NearPower) None
    (λ _, Certified.from_rational_exact v (synthesis options)) r2 H2) as (r3 & -> & H3 & _).
  { by apply rational_certified. }
  cbn [mbind option_bind].
  assert (∃ r4, match Search.magnitude v with
    | Some n => if 1 <? n then run ← Search.sum_difference v options n r3; Search.factors v options n run else Some r3
    | None => Some r3 end = Some r4 ∧ RunOk v options r4) as (r4 & -> & H4).
  { destruct (Search.magnitude v) as [n|] eqn:En; [|by exists r3]. destruct (1 <? n); [|by exists r3].
    destruct (sum_difference_advances v options Ho n r3 H3) as (r4 & -> & H4 & _). cbn [mbind option_bind].
    apply (factors_ok v options Ho); [|done]. unfold Search.magnitude in En. destruct (Search.natural v); [|done].
    pose proof (proj1 (wf_numerator v Hv)) as Hw. destruct (numerator v) as [|a [|b l]]; simplify_eq; [done|].
    by apply (words_u64_head _ _ Hw). }
  cbn [mbind option_bind]. set (r5 := if _ || _ then _ else r4).
  assert (RunOk v options r5 ∧ (candidate_limit_reached (run_report r5) = true ∨ factor_limit_reached (run_report r5) = true →
    termination (run_report r5) = BudgetExhausted)) as [H5 Hterm].
  { unfold r5. destruct (_ || _) eqn:E; [|split; [done|]; by intros [Hl|Hl]; rewrite Hl, ?orb_true_r in E].
    split; [|done]. destruct H4. constructor; try done. intros _. by apply orb_true_iff. }
  eexists _, _. split; [done|]. cbn [result_best report].
  assert (∃ cost, ReportOk v options ((λ c, (c, cost)) <$> (fst <$> run_best r5)) (run_report r5)) as Hrep.
  { unfold RunOk in H5. destruct (run_best r5) as [[c cost]|]; [by exists cost|].
    exists (mkTreeCost 0 0 0 0 0). exact H5. }
  destruct (run_best r5) as [[c cost]|] eqn:Eb; cbn [fmap option_fmap option_map fst]; [|done].
  assert (certified c) as Hcc by (destruct H5 as [_ _ _ _ Hb]; rewrite Eb in Hb; apply Hb).
  destruct (remember_ok self c Hu Hc Hcc) as [Hok Heq]. rewrite Heq in Hok. done.
Qed.

(** [C37] A search always terminates without a panic, within its candidate and trial
    budgets, and never lies: the best result is a certificate of exactly the
    requested target, whose term has that real value; it is the recorded candidate
    the report selects; no recorded success has fewer operators, or as many and
    less depth; nothing succeeded if there is no best; the report claims no
    minimum, and says the budget was exhausted exactly when a limit stopped
    something. The cache keeps its budgets and holds only certificates. *)
Theorem search_sound `{Allocation} self v :
  let options := searcher_options self in
  rat_wf v → options_ok (synthesis options) → 0 ≤ max_candidates options → 0 ≤ max_factor_trials options →
  usize (max_cache_entries options) → CacheOk options (cache self) →
  ∃ self' result, Search.search self v = Some (self', result) ∧
    searcher_options self' = options ∧ CacheOk options (cache self') ∧
    (∀ c, result_best result = Some c → certified c ∧ target c = v ∧ Value (term c) (rat_R v)) ∧
    (∃ cost, ReportOk v options ((λ c, (c, cost)) <$> result_best result) (report result)) ∧
    (termination (report result) = BudgetExhausted ↔
       candidate_limit_reached (report result) = true ∨ factor_limit_reached (report result) = true).
Proof.
  intros options Hv Ho Hm Ht Hu Hc.
  destruct (search_lemma self v Hv Ho Hm Ht Hu Hc) as (self' & result & Hs & Hopt & Hcache & [cost Hr] & Hlim).
  exists self', result. split; [done|]. split; [done|]. split; [done|]. split; [|split; [by exists cost|]].
  - intros c Hbest. destruct Hr as [_ _ _ _ Hb]. rewrite Hbest in Hb. destruct Hb as (Hcc & Htv & _). cbn in Hcc, Htv.
    split; [done|]. split; [done|]. rewrite <- Htv. by apply certified_value.
  - split; [apply Hr|done].
Qed.

Definition exact_capacity : Allocation := λ b, Z.of_nat (length (words b)).
Definition small_searcher : ExactSearcher :=
  mkExactSearcher (mkExactSearchOptions ExactSynthesisOptions_default 8 16 4 4096 256) [].

Lemma search_sound_witness :
  ∃ self' result c, @Search.search exact_capacity small_searcher (Exact.from_i64 15) = Some (self', result) ∧
    result_best result = Some c ∧ Value (term c) (rat_R (Exact.from_i64 15)) ∧ length (cache self') = 1%nat.
Proof.
  destruct (@search_sound exact_capacity small_searcher (Exact.from_i64 15)) as (self' & result & E & _ & _ & H & _);
    [solve_rat_wf|exact options_default_ok|done|done|split; done|by constructor|].
  destruct (result_best result) as [c|] eqn:Eb.
  - exists self', result, c. split; [exact E|]. split; [exact Eb|]. split; [exact (proj2 (proj2 (H c eq_refl)))|].
    vm_compute in E. injection E as <- _. reflexivity.
  - exfalso. vm_compute in E. injection E as _ <-. discriminate Eb.
Defined.
