(* ===== verification/Convert.v ===== *)
(** * number/convert.rs: bounded synthesis of finite floats

    The construction of integers, of a rational with a small denominator or else of
    the exact dyadic value, and the final check of the numerical evaluation against
    the allowance. *)

From Stdlib Require Import QArith Qabs Qreals Reals Lra SpecFloat.
From S2P Require Import Prelude Words Terms Encoding Operations RealSemantics Float CertifiedReal FloatArith Symbolic FloatInt.
#[local] Open Scope Z_scope.

Record SynthesisOptions : Set := mkSynthesisOptions {
  conversion_max_bits : Z;
  max_denominator : Z;
  absolute_tolerance : f64;
  relative_tolerance : f64;
}.

(** The relative tolerance is the binary64 nearest to [1e-12]. *)
Definition SynthesisOptions_default : SynthesisOptions :=
  mkSynthesisOptions DEFAULT_MAX_BITS 1024 f64_zero (from_bits 0x3D719799812DEA11).

Inductive ConversionError : Set :=
  | ConversionNonFinite
  | InvalidOptions
  | ConversionBuild (e : BuildError)
  | ConversionEvaluation (e : EvalError)
  | Precision (requested actual allowed_error : f64).

(** [struct Synthesis]: the rules and the memo of integers. *)
Record SynthesisState : Type := mkSynthesisState {
  rules : Rules;
  integers : gmap Z Bml;
}.

(** ** Conversions between floats and integers *)

(** [f64::round]: half away from zero; from [2 ^ 52] on every value is integral. *)
Definition f64_round (x : f64) : f64 :=
  if negb (is_finite x) || (0 <=? f64_power x) then x else
  let half := 2 ^ (- f64_power x - 1) in
  from_bits (sign_bit (f64_sign x) + pattern_of ((f64_significand x + half) / (2 * half))).

(** [as u64]: truncation, saturating; NaN gives zero. *)
Definition f64_as_u64 (x : f64) : Z :=
  if is_nan x || f64_sign x then 0 else
  if negb (is_finite x) then W64 - 1 else
  Z.min (W64 - 1) (if 0 <=? f64_power x then f64_significand x * 2 ^ f64_power x
                   else f64_significand x / 2 ^ (- f64_power x)).

(** [u64::is_power_of_two] and [i32::unsigned_abs]. *)
Definition is_power_of_two (n : Z) : bool := count_ones n =? 1.
Definition unsigned_abs (n : Z) : Z := Z.abs n.

Module Convert.
(** [1u64 << k] panics for [k = 64]; a panic is [None], as is a recursion deeper than
    the fuel, which never happens below [2 ^ 63]. *)
Abbreviation Built := (option (Result BuildError (Bml * SynthesisState))).

Definition finish (n : Z) (self : SynthesisState) (m : Result BuildError Bml) : Result BuildError (Bml * SynthesisState) :=
  term ← m;
  Ok (term, mkSynthesisState (rules self) (<[n := term]> (integers self))).

(** Sequencing that stops at a panic or an error. *)
Definition then_ {A} (m : Built) (f : Bml → SynthesisState → option (Result BuildError A)) : option (Result BuildError A) :=
  match m with
  | None => None
  | Some (Err e) => Some (Err e)
  | Some (Ok (term, self)) => f term self
  end.

Fixpoint integer (fuel : nat) (n : Z) (self : SynthesisState) : Built :=
  match fuel with
  | O => None
  | S fuel =>
      match integers self !! n with
      | Some term => Some (Ok (term, self))
      | None =>
          if n =? 0 then Some (finish n self (Rules.log2 (rules self) one)) else
          if n =? 1 then Some (finish n self (Ok one)) else
          if is_power_of_two n then
            then_ (integer fuel (trailing_zeros n) self) (λ exponent self,
              Some (finish n self (Rules.exp2 (rules self) exponent)))
          else
            let k := 64 - leading_zeros n in
            then_ (integer fuel k self) (λ left self,
              if 64 <=? k then None else
              then_ (integer fuel (Z.shiftl 1 k - n) self) (λ remainder self,
                Some (finish n self
                  (right ← Rules.exp2 (rules self) remainder;
                   op_with_limit left right (rules_max_bits (rules self))))))
      end
  end.

(** Each level loses a bit, small numbers apart. *)
Definition integer_fuel : nat := 66.

(** *** Magnitudes *)

(** One candidate denominator: [inr None] leaves the loop, [inr (Some _)] returns. *)
Definition denominator_step (value : f64) (max_denominator : Z) (allowance : f64) (state : SynthesisState * Z)
    : (SynthesisState * Z) + option (option (Result BuildError (Bml * SynthesisState))) :=
  let '(self, denominator) := state in
  if max_denominator <? denominator then inr None else
  let numerator := f64_round (f64_mul value (f64_of_Z denominator)) in
  if f64_lt (f64_of_Z (2 ^ 53)) numerator then inr None else
  if f64_lt f64_zero numerator
     && f64_le (f64_abs (f64_sub (f64_div numerator (f64_of_Z denominator)) value)) allowance
  then inr (Some (
    then_ (integer integer_fuel (f64_as_u64 numerator) self) (λ top self,
      if denominator =? 1 then Some (Ok (top, self)) else
      then_ (integer integer_fuel denominator self) (λ bottom self,
        Some (term ← Rules.div (rules self) top bottom; Ok (term, self))))))
  else inl (self, denominator + 1).

(** The exact dyadic value of the pattern. *)
Definition dyadic (value : f64) (self : SynthesisState) : Built :=
  let bits := to_bits value in
  let biased_exponent := Z.land (Z.shiftr bits 52) 0x7ff in
  let mantissa := Z.land bits (Z.shiftl 1 52 - 1) in
  let '(mantissa, exponent) :=
    if biased_exponent =? 0 then (mantissa, -1074)
    else (Z.lor mantissa (Z.shiftl 1 52), biased_exponent - 1023 - 52) in
  let trailing := trailing_zeros mantissa in
  let mantissa := Z.shiftr mantissa trailing in
  let exponent := exponent + trailing in
  then_ (integer integer_fuel mantissa self) (λ top self,
    if exponent =? 0 then Some (Ok (top, self)) else
    then_ (integer integer_fuel (unsigned_abs exponent) self) (λ power self,
      Some (
        power ← if exponent <? 0 then Rules.neg (rules self) power else Ok power;
        power ← if negb (mantissa =? 1)
                then l ← Rules.log2 (rules self) top; Rules.add (rules self) l power
                else Ok power;
        term ← Rules.exp2 (rules self) power;
        Ok (term, self)))).

(** At most [u32::MAX] denominators. *)
Definition magnitude (value : f64) (max_denominator : Z) (allowance : f64) (self : SynthesisState) : Built :=
  if f64_eq value f64_zero then integer integer_fuel 0 self else
  match while (denominator_step value max_denominator allowance) (Z.to_pos (2 ^ 33)) (self, 1) with
  | inl _ => None
  | inr (Some r) => r
  | inr None => dyadic value self
  end.

Section from_f64.
Context `{Libm}.

(** The error [None] is a panic. *)
Definition from_f64_with_options (value : f64) (options : SynthesisOptions) : Result (option ConversionError) Bml :=
  if negb (is_finite value) then Err (Some ConversionNonFinite) else
  if (conversion_max_bits options =? 0) || (max_denominator options =? 0)
     || negb (is_finite (absolute_tolerance options)) || f64_lt (absolute_tolerance options) f64_zero
     || negb (is_finite (relative_tolerance options)) || f64_lt (relative_tolerance options) f64_zero
  then Err (Some InvalidOptions) else
  let allowance := f64_add (absolute_tolerance options) (f64_mul (relative_tolerance options) (f64_abs value)) in
  if negb (is_finite allowance) then Err (Some InvalidOptions) else
  let synthesis := mkSynthesisState (mkRules (conversion_max_bits options)) ∅ in
  '(term, synthesis) ← match magnitude (f64_abs value) (max_denominator options) allowance synthesis with
                       | None => Err None
                       | Some m => map_err (λ e, Some (ConversionBuild e)) m
                       end;
  term ← if f64_lt value f64_zero
         then map_err (λ e, Some (ConversionBuild e)) (Rules.neg (rules synthesis) term) else Ok term;
  actual ← map_err (fmap ConversionEvaluation) (to_f64 term);
  if f64_lt allowance (f64_abs (f64_sub actual value))
  then Err (Some (Precision value actual allowance)) else
  Ok term.

Definition from_f64 (value : f64) : Result (option ConversionError) Bml :=
  from_f64_with_options value SynthesisOptions_default.
End from_f64.
End Convert.

(** ** Integers *)

Lemma pow2_odd j t k : 0 ≤ j → 0 ≤ t → 0 ≤ k → (2 * j + 1) * 2 ^ t = 2 ^ k → t = k.
Proof.
  intros Hj Ht Hk H. pose proof (Z.pow_pos_nonneg 2 t ltac:(lia) Ht).
  assert (2 ^ t ≤ 2 ^ k) as Hle by (rewrite <- H; nia). apply Z.pow_le_mono_r_iff in Hle; [|lia..].
  destruct (decide (t = k)) as [|Hne]; [done|exfalso].
  replace k with ((k - t - 1) + 1 + t) in H by lia. rewrite !Z.pow_add_r in H by lia.
  change (2 ^ 1) with 2 in H. apply Z.mul_reg_r in H; lia.
Qed.

Lemma power_of_two_trailing n : u64 n → is_power_of_two n = true → 0 ≤ trailing_zeros n ∧ n = 2 ^ trailing_zeros n.
Proof.
  intros Hn H%Z.eqb_eq. apply count_ones_1 in H as (k & Hk & ->); [|done].
  destruct (trailing_zeros_spec (2 ^ k)) as (Ht & j & Hj & E); [by apply Z.pow_pos_nonneg|].
  split; [done|]. f_equal. symmetry. by apply (pow2_odd j); [..|symmetry].
Qed.

(** Levels of recursion under [n]. *)
Definition need (n : Z) : Z := if n <=? 2 then Z.max 1 n else nbits n + 1.

Lemma nbits_le_pred n : 3 ≤ n → nbits n ≤ n - 1.
Proof.
  intros Hn. apply nbits_le_iff; [lia..|]. 
  replace n with (n - 1 + 1) at 1 by lia. pose proof (Z.pow_gt_lin_r 2 (n - 1) ltac:(lia) ltac:(lia)).
  destruct (decide (n = 3)) as [->|]; [done|].
  assert (2 ^ (n - 1) = 2 * 2 ^ (n - 2)) as -> by (rewrite <- Z.pow_succ_r by lia; f_equal; lia).
  pose proof (Z.pow_gt_lin_r 2 (n - 2) ltac:(lia) ltac:(lia)). lia.
Qed.

Lemma need_pow2 t n : 1 ≤ t → n = 2 ^ t → need t ≤ need n - 1.
Proof.
  intros Ht ->. unfold need. assert (nbits (2 ^ t) = t + 1) as Hb.
  { apply nbits_unique; [lia|]. rewrite Z.add_simpl_r, Z.pow_add_r by lia.
    pose proof (Z.pow_pos_nonneg 2 t). lia. }
  destruct (decide (t = 1)) as [->|]; [done|].
  assert (4 ≤ 2 ^ t) by (change 4 with (2 ^ 2); apply Z.pow_le_mono_r; lia).
  destruct (Z.leb_spec (2 ^ t) 2); [lia|]. rewrite Hb. destruct (Z.leb_spec t 2); [lia|].
  pose proof (nbits_le_pred t). lia.
Qed.

Lemma need_bits n : 3 ≤ n → need (nbits n) ≤ need n - 1.
Proof.
  intros Hn. unfold need. destruct (Z.leb_spec n 2); [lia|].
  assert (2 ≤ nbits n) by (change 2 with (nbits 3); apply nbits_mono; lia).
  destruct (Z.leb_spec (nbits n) 2); [lia|]. pose proof (nbits_le_pred (nbits n)). lia.
Qed.

Lemma need_remainder n r : 3 ≤ n → 0 ≤ r < 2 ^ (nbits n - 1) → need r ≤ need n - 1.
Proof.
  intros Hn Hr. unfold need. destruct (Z.leb_spec n 2); [lia|].
  assert (2 ≤ nbits n) by (change 2 with (nbits 3); apply nbits_mono; lia).
  destruct (Z.leb_spec r 2); [lia|]. assert (nbits r ≤ nbits n - 1) by (apply nbits_le_iff; lia). lia.
Qed.

Lemma need_fuel n : 0 ≤ n < W64 → need n ≤ 66.
Proof.
  intros Hn. unfold need. destruct (Z.leb_spec n 2); [lia|]. pose proof (u64_nbits n Hn). lia.
Qed.

(** The memo holds correct terms, built under an acceptable budget. *)
Record StateOk (self : SynthesisState) : Prop := mkStateOk {
  state_budget : usize (rules_max_bits (rules self));
  state_memo : ∀ n b, integers self !! n = Some b → Value b (IZR n);
}.

(** A construction that does not panic and, when it succeeds, has the value [x]. *)
Definition built (self : SynthesisState) (x : R) (m : Convert.Built) : Prop :=
  match m with
  | None => False
  | Some (Err _) => True
  | Some (Ok (b, self')) => Value b x ∧ StateOk self' ∧ rules self' = rules self
  end.

Lemma built_then self x y m f :
  built self x m →
  (∀ b self', Value b x → StateOk self' → rules self' = rules self → built self' y (f b self')) →
  built self y (Convert.then_ m f).
Proof.
  intros Hm Hf. destruct m as [[[b self']|e]|]; [|done..]. destruct Hm as (Hv & Hs & Hr).
  cbn [Convert.then_]. specialize (Hf b self' Hv Hs Hr). unfold built in *.
  destruct (f b self') as [[[c self2]|e]|]; [|done..]. destruct Hf as (H1 & H2 & H3). by rewrite H3.
Qed.

Lemma built_finish n self m :
  StateOk self → (∀ b, m = Ok b → Value b (IZR n)) → built self (IZR n) (Some (Convert.finish n self m)).
Proof.
  intros [Hb Hm] Hv. unfold Convert.finish. destruct m as [b|e]; cbn; [|done].
  specialize (Hv b eq_refl). split; [done|]. split; [|done]. constructor; [done|]. cbn [integers].
  intros k c [[-> ->]|[_ Hk]]%lookup_insert_Some; [done|by apply Hm].
Qed.

Lemma Value_op max a b x y c :
  usize max → Value a x → Value b y → (0 < y)%R → op_with_limit a b max = Ok c → Value c (Rpower 2 x - log2R y).
Proof.
  intros Hm (s & Hs & Hx) (t & Ht & Hy) Hpos Hc.
  apply (Builds_Value _ _ _ _ _ (Builds_op max Hm a b s t Hs Ht) Hc). by constructor.
Qed.

Section rules.
Context (rs : Rules) (Hrs : usize (rules_max_bits rs)).

Lemma Value_exp2 a x c : Value a x → Rules.exp2 rs a = Ok c → Value c (Rpower 2 x).
Proof. intros Ha. by apply (rules_values rs a a x x c Hrs Ha Ha). Qed.
Lemma Value_log2 a x c : Value a x → (0 < x)%R → Rules.log2 rs a = Ok c → Value c (log2R x).
Proof. intros Ha Hx Hc. by apply (rules_values rs a a x x c Hrs Ha Ha). Qed.
Lemma Value_neg a x c : Value a x → Rules.neg rs a = Ok c → Value c (- x).
Proof. intros Ha. by apply (rules_values rs a a x x c Hrs Ha Ha). Qed.
Lemma Value_add a b x y c : Value a x → Value b y → Rules.add rs a b = Ok c → Value c (x + y).
Proof. intros Ha Hb. by apply (rules_values rs a b x y c Hrs Ha Hb). Qed.
Lemma Value_div a b x y c :
  Value a x → Value b y → (0 < x)%R → (0 < y)%R → Rules.div rs a b = Ok c → Value c (x / y).
Proof. intros Ha Hb Hx Hy Hc. by apply (rules_values rs a b x y c Hrs Ha Hb). Qed.
End rules.

Lemma convert_integer_spec fuel n self :
  0 ≤ n < 2 ^ 63 → need n ≤ Z.of_nat fuel → StateOk self → built self (IZR n) (Convert.integer fuel n self).
Proof.
  revert n self. induction fuel as [|fuel IH]; intros n self Hn Hf Hs.
  { unfold need in Hf. destruct (Z.leb_spec n 2); [lia|]. pose proof (nbits_nonneg n). lia. }
  cbn [Convert.integer]. destruct (integers self !! n) as [b|] eqn:E.
  { split; [by apply Hs in E|done]. }
  destruct (Z.eqb_spec n 0) as [->|].
  { apply built_finish; [done|]. intros b Hb. rewrite <- log2R_1.
    apply (Value_log2 (rules self) (state_budget _ Hs) one 1%R b Value_one ltac:(lra) Hb). }
  destruct (Z.eqb_spec n 1) as [->|].
  { apply built_finish; [done|]. intros b [= <-]. apply Value_one. }
  destruct (is_power_of_two n) eqn:Ep.
  - destruct (power_of_two_trailing n) as [Ht En]; [split; [lia|]; change (2 ^ 63) with 9223372036854775808 in Hn; lia|done|].
    set (t := trailing_zeros n) in *.
    assert (t ≠ 0) as Ht0 by (intros E0; rewrite E0 in En; change (2 ^ 0) with 1 in En; lia).
    assert (t < 63) by (apply (Z.pow_lt_mono_r_iff 2); lia).
    pose proof (need_pow2 t n ltac:(lia) En).
    apply (built_then self (IZR t)); [apply IH; [|lia|done]; pose proof (Z.pow_gt_lin_r 2 63); lia|].
    intros e self' He Hs' _. apply built_finish; [done|]. intros b Hb.
    rewrite En, IZR_pow2 by lia. by apply (Value_exp2 (rules self') (state_budget _ Hs') e).
  - assert (3 ≤ n) as H3 by (destruct (decide (n = 2)) as [->|]; [done|lia]).
    assert (64 - leading_zeros n = nbits n) as -> by (unfold leading_zeros; lia).
    assert (nbits n ≤ 63) as H63 by (apply nbits_le_iff; lia).
    assert (2 ≤ nbits n) by (change 2 with (nbits 3); apply nbits_mono; lia).
    pose proof (need_bits n H3). pose proof (nbits_lower n ltac:(lia)) as Hlow. pose proof (nbits_spec n ltac:(lia)).
    apply (built_then self (IZR (nbits n))); [apply IH; [|lia|done]; pose proof (Z.pow_gt_lin_r 2 63); lia|].
    intros l self1 Hl Hs1 _. destruct (Z.leb_spec 64 (nbits n)); [lia|]. rewrite Z.shiftl_1_l.
    assert (2 ^ nbits n = 2 * 2 ^ (nbits n - 1)) as Hp by (rewrite <- Z.pow_succ_r by lia; f_equal; lia).
    set (r := 2 ^ nbits n - n) in *.
    assert (0 ≤ r < 2 ^ (nbits n - 1)) as Hr.
    { assert (2 ^ (nbits n - 1) ≠ n); [|lia]. intros E1. rewrite <- E1 in Ep.
      unfold is_power_of_two in Ep. by rewrite count_ones_pow2 in Ep by lia. }
    pose proof (need_remainder n r H3 Hr).
    apply (built_then self1 (IZR r)); [apply IH; [lia|lia|done]|].
    intros rem self2 Hrem Hs2 _. apply built_finish; [done|]. intros b (right_ & Hright & Hb)%bind_ok.
    pose proof (Value_exp2 (rules self2) (state_budget _ Hs2) rem _ _ Hrem Hright) as Hv.
    pose proof (Value_op _ _ _ _ _ _ (state_budget _ Hs2) Hl Hv ltac:(apply Rpower2_pos) Hb) as Hres.
    rewrite log2R_Rpower in Hres. replace (IZR n) with (Rpower 2 (IZR (nbits n)) - IZR r)%R; [done|].
    rewrite <- IZR_pow2 by lia. unfold r. rewrite minus_IZR. lra.
Qed.

(** ** Rounded numerators *)

Lemma f64_significand_bound v : f64_ok v → 0 ≤ f64_significand v < 2 ^ 53.
Proof.
  intros Hv. destruct (f64_fields v Hv) as (_ & _ & Hf). unfold f64_significand.
  change (2 ^ 53) with (2 * 2 ^ 52). case_match; lia.
Qed.

Lemma pattern_fields n s :
  1 ≤ n ≤ 2 ^ 52 →
  let v := from_bits (sign_bit s + pattern_of n) in
  f64_ok v ∧ f64_sign v = s ∧ f64_exponent v = nbits n - 1 + 1023 ∧ f64_fraction v = n * 2 ^ (53 - nbits n) - 2 ^ 52.
Proof.
  intros Hn v. assert (1 ≤ nbits n ≤ 53) as Hb.
  { pose proof (nbits_pos n ltac:(lia)). split; [lia|]. apply nbits_le_iff; [lia..|].
    change (2 ^ 53) with (2 * 2 ^ 52). lia. }
  pose proof (nbits_lower n ltac:(lia)). pose proof (nbits_spec n ltac:(lia)).
  assert (2 ^ 52 ≤ n * 2 ^ (53 - nbits n) < 2 * 2 ^ 52) as Hm.
  { pose proof (Z.pow_pos_nonneg 2 (53 - nbits n)).
    assert (2 ^ 52 = 2 ^ (nbits n - 1) * 2 ^ (53 - nbits n)) as ->
      by (rewrite <- Z.pow_add_r by lia; f_equal; lia).
    assert (2 * (2 ^ (nbits n - 1) * 2 ^ (53 - nbits n)) = 2 ^ nbits n * 2 ^ (53 - nbits n)) as ->.
    { rewrite Z.mul_assoc, <- Z.pow_succ_r by lia. do 2 f_equal. lia. }
    nia. }
  unfold v, f64_ok, f64_sign, f64_exponent, f64_fraction, pattern_of, sign_bit. cbn [to_bits].
  destruct (Z.eqb_spec n 0); [lia|]. clear H H0. revert Hm Hb.
  generalize (n * 2 ^ (53 - nbits n)) as m. generalize (nbits n) as b. intros b m Hm Hb.
  change (2 ^ 52) with 4503599627370496 in *. change (2 ^ 63) with 9223372036854775808.
  change (2 ^ 11) with 2048.
  assert (0 ≤ Z.b2z s ≤ 1) by (destruct s; cbn; lia).
  split; [split; lia|]. split; [|split].
  - rewrite Z.testbit_eqb by lia. change (2 ^ 63) with 9223372036854775808.
    destruct s; cbn [Z.b2z]; [apply Z.eqb_eq|apply Z.eqb_neq]; dlia.
  - destruct s; cbn [Z.b2z]; dlia.
  - destruct s; cbn [Z.b2z]; dlia.
Qed.

(** A positive float that is not above another has no larger exponent. *)
Lemma finite_not_above m e m' e' :
  SFltb (S754_finite false m e) (S754_finite false m' e') = false → e' < e ∨ e' = e ∧ Zpos m' ≤ Zpos m.
Proof.
  unfold SFltb, SFcompare. destruct (Z.compare_spec e e') as [->|E|E]; [|done|by left].
  change (Pos.compare_cont Eq m m') with (m ?= m')%positive.
  destruct (Pos.compare_spec m m') as [->|E|E]; [|done|]; intros _; right; split; lia.
Qed.

(** Comparisons of a float with the two bounds of a numerator. *)
Lemma numerator_bounds x :
  f64_ok x → f64_lt (f64_of_Z (2 ^ 53)) x = false → f64_lt f64_zero x = true →
  is_finite x = true ∧ f64_sign x = false ∧ 0 < f64_significand x ∧
  (f64_power x < 1 ∨ f64_power x = 1 ∧ f64_significand x ≤ 2 ^ 52).
Proof.
  intros Hx Hle Hlt. unfold f64_lt in *.
  change (to_spec (f64_of_Z (2 ^ 53))) with (S754_finite false 4503599627370496 1) in Hle.
  change (to_spec f64_zero) with (S754_zero false) in Hlt.
  unfold to_spec in *. unfold is_finite.
  destruct (f64_exponent x =? 2047) eqn:Ee.
  { destruct (f64_fraction x =? 0); [|done]. by destruct (f64_sign x). }
  split; [done|]. pose proof (f64_significand_bound x Hx).
  destruct (f64_significand x) as [|m|m] eqn:Em; [done| |lia].
  destruct (f64_sign x); [done|]. split; [done|]. split; [lia|].
  change (2 ^ 52) with 4503599627370496. apply finite_not_above in Hle as [Hle|[<- Hle]]; [left; lia|by right].
Qed.

(** The numerator is an integer from one to [2 ^ 53], and its conversion is exact. *)
Lemma numerator_exact y :
  f64_ok y → f64_lt (f64_of_Z (2 ^ 53)) (f64_round y) = false → f64_lt f64_zero (f64_round y) = true →
  1 ≤ f64_as_u64 (f64_round y) ≤ 2 ^ 53 ∧ (f64_Q (f64_round y) == inject_Z (f64_as_u64 (f64_round y)))%Q.
Proof.
  intros Hy Hle Hlt. unfold f64_round in *.
  destruct (negb (is_finite y) || (0 <=? f64_power y)) eqn:Eint.
  - destruct (numerator_bounds y Hy Hle Hlt) as (Hf & Hs & Hm & Hp). rewrite Hf in Eint. cbn in Eint.
    apply Z.leb_le in Eint. pose proof (f64_significand_bound y Hy) as Hmb.
    assert (f64_as_u64 y = f64_significand y * 2 ^ f64_power y) as E.
    { unfold f64_as_u64, is_nan. rewrite Hf, Hs. cbn [negb andb orb]. rewrite (proj2 (Z.leb_le 0 (f64_power y))) by done.
      apply Z.min_r. destruct Hp as [Hp|[-> Hp]]; [replace (f64_power y) with 0 by lia|]; lia. }
    rewrite E. split.
    { destruct Hp as [Hp|[-> Hp]]; [replace (f64_power y) with 0 by lia|]; lia. }
    unfold f64_Q. rewrite Hs, scaleQ_pos by done. reflexivity.
  - apply orb_false_iff in Eint as [Hf%negb_false_iff Hp%Z.leb_gt].
    set (h := 2 ^ (- f64_power y - 1)) in *. set (q := (f64_significand y + h) / (2 * h)) in *.
    assert (0 < h) by (apply Z.pow_pos_nonneg; lia). pose proof (f64_significand_bound y Hy) as Hmb.
    assert (0 ≤ q ≤ 2 ^ 52) as Hq.
    { split; [apply Z.div_pos; lia|]. apply Z.lt_succ_r. apply Z.div_lt_upper_bound; [lia|].
      change (2 ^ 53) with (2 * 2 ^ 52) in Hmb. nia. }
    destruct (decide (q = 0)) as [E0|Hq0].
    { rewrite E0 in Hlt. exfalso. by destruct (f64_sign y). }
    destruct (pattern_fields q (f64_sign y) ltac:(lia)) as (Hok & Hs & He & Hfr).
    set (x := from_bits _) in *. clearbody x.
    destruct (numerator_bounds x Hok Hle Hlt) as (Hxf & Hxs & _ & _).
    pose proof (nbits_pos q ltac:(lia)). assert (nbits q ≤ 53) by (apply nbits_le_iff; [lia..|]; lia).
    assert (f64_significand x = q * 2 ^ (53 - nbits q)) as Hsig.
    { unfold f64_significand. rewrite He, Hfr. destruct (Z.eqb_spec (nbits q - 1 + 1023) 0); lia. }
    assert (f64_power x = nbits q - 53) as Hpow.
    { unfold f64_power. rewrite He. destruct (Z.eqb_spec (nbits q - 1 + 1023) 0); lia. }
    assert (f64_as_u64 x = q) as ->.
    { unfold f64_as_u64, is_nan. rewrite Hxf, Hxs, Hsig, Hpow. cbn [negb andb orb].
      destruct (Z.leb_spec 0 (nbits q - 53)).
      - replace (nbits q) with 53 by lia. rewrite Z.sub_diag, !Z.pow_0_r. lia.
      - replace (- (nbits q - 53)) with (53 - nbits q) by lia. rewrite Z.div_mul by (pose proof (Z.pow_pos_nonneg 2 (53 - nbits q)); lia). lia. }
    split; [lia|]. unfold f64_Q. rewrite Hxs, Hsig, Hpow, scaleQ_shift by lia.
    replace (nbits q - 53 + (53 - nbits q)) with 0 by lia. rewrite scaleQ_pos by lia. by rewrite Z.mul_1_r.
Qed.

(** ** Magnitudes *)

(** A construction that does not panic and whose result has a value that satisfies [P]. *)
Definition gives (self : SynthesisState) (P : R → Prop) (m : Convert.Built) : Prop :=
  match m with
  | None => False
  | Some (Err _) => True
  | Some (Ok (b, self')) => rules self' = rules self ∧ ∃ x, P x ∧ Value b x
  end.

Lemma built_gives self x (P : R → Prop) m : built self x m → P x → gives self P m.
Proof.
  unfold built, gives. destruct m as [[[b s]|e]|]; [|done..]. intros (Hv & _ & Hr) HP. split; [done|by exists x].
Qed.

Lemma gives_then self x P m f :
  built self x m →
  (∀ b self', Value b x → StateOk self' → rules self' = rules self → gives self' P (f b self')) →
  gives self P (Convert.then_ m f).
Proof.
  intros Hm Hf. destruct m as [[[b self']|e]|]; [|done..]. destruct Hm as (Hv & Hs & Hr).
  cbn [Convert.then_]. specialize (Hf b self' Hv Hs Hr). unfold gives in *.
  destruct (f b self') as [[[c self2]|e]|]; [|done..]. destruct Hf as (H1 & H2). by rewrite H1.
Qed.

(** A result of the last step. *)
Lemma gives_last self (P : R → Prop) (m : Result BuildError Bml) :
  (∀ b, m = Ok b → ∃ x, P x ∧ Value b x) → gives self P (Some (b ← m; Ok (b, self))).
Proof. intros H. destruct m as [b|e]; cbn; [|done]. split; [done|by apply H]. Qed.

Lemma integer_total n self : 0 ≤ n < 2 ^ 63 → StateOk self → built self (IZR n) (Convert.integer Convert.integer_fuel n self).
Proof.
  intros Hn Hs. apply convert_integer_spec; [done| |done]. change (Z.of_nat Convert.integer_fuel) with 66.
  apply need_fuel. change (2 ^ 63) with 9223372036854775808 in Hn. lia.
Qed.

(** A rational with a small denominator whose float is within the allowance. *)
Definition approximates (value : f64) (max_den : Z) (allowance : f64) (x : R) : Prop :=
  ∃ n d, 1 ≤ d ≤ max_den ∧ 1 ≤ n ≤ 2 ^ 53 ∧ x = (IZR n / IZR d)%R ∧
    let numerator := f64_round (f64_mul value (f64_of_Z d)) in
    (f64_Q numerator == inject_Z n)%Q ∧
    f64_le (f64_abs (f64_sub (f64_div numerator (f64_of_Z d)) value)) allowance = true.

Lemma denominator_step_spec value max_den allowance self d :
  StateOk self → 1 ≤ d → max_den < 2 ^ 32 →
  match Convert.denominator_step value max_den allowance (self, d) with
  | inl (self', d') => self' = self ∧ d' = d + 1 ∧ d ≤ max_den
  | inr None => True
  | inr (Some m) => gives self (approximates value max_den allowance) m
  end.
Proof.
  intros Hs Hd Hmax. unfold Convert.denominator_step. destruct (Z.ltb_spec max_den d); [done|]. cbv zeta.
  set (y := f64_mul value (f64_of_Z d)). destruct (f64_lt (f64_of_Z (2 ^ 53)) (f64_round y)) eqn:E1; [done|].
  destruct (f64_lt f64_zero (f64_round y)) eqn:E2; cbn [andb]; [|done].
  destruct (f64_le _ allowance) eqn:E3; [|done].
  destruct (numerator_exact y ltac:(apply of_spec_ok) E1 E2) as [Hn HQ]. set (n := f64_as_u64 (f64_round y)) in *.
  assert (2 ^ 53 < 2 ^ 63 ∧ 2 ^ 32 < 2 ^ 63) as [H53 H32] by done.
  apply (gives_then self (IZR n)); [apply integer_total; [lia|done]|]. intros top s1 Ht Hs1 _.
  assert (0 < IZR n)%R by (apply IZR_lt; lia). assert (0 < IZR d)%R by (apply IZR_lt; lia).
  destruct (Z.eqb_spec d 1) as [E|_].
  - split; [done|]. exists (IZR n). split; [|done]. exists n, d. split; [lia|]. split; [done|].
    split; [rewrite E; field|by split].
  - apply (gives_then s1 (IZR d)); [apply integer_total; [lia|done]|]. intros bottom s2 Hb Hs2 _.
    apply gives_last. intros b Hdiv. exists (IZR n / IZR d)%R. split.
    + exists n, d. split; [lia|]. split; [done|]. split; [done|by split].
    + by apply (Value_div (rules s2) (state_budget _ Hs2) top bottom).
Qed.

Lemma f64_Q_positive v :
  f64_sign v = false → Q2R (f64_Q v) = (IZR (f64_significand v) * Rpower 2 (IZR (f64_power v)))%R.
Proof.
  intros Hs. unfold f64_Q. rewrite Hs, <- Q2R_scaleQ.
  replace (IZR (f64_significand v)) with (Q2R (inject_Z (f64_significand v))) by (unfold Q2R; cbn; lra).
  rewrite <- Q2R_mult.
  apply Qeq_eqR. unfold scaleQ, Qeq, inject_Z, Qmult. cbn [Qnum Qden]. nia.
Qed.

Lemma field_hidden b : Z.lor (Z.land b (Z.shiftl 1 52 - 1)) (Z.shiftl 1 52) = 2 ^ 52 + b `mod` 2 ^ 52.
Proof. rewrite field_fraction, Z.lor_comm. apply hidden_bit, Z.mod_pos_bound. done. Qed.

(** The last steps: [m * 2 ^ e] as the exponential of [log2 m + e]. *)
Lemma scaled_power rs m e top power p q b :
  usize (rules_max_bits rs) → 1 ≤ m → Value top (IZR m) → Value power (IZR (unsigned_abs e)) →
  (if e <? 0 then Rules.neg rs power else Ok power) = Ok p →
  (if negb (m =? 1) then l ← Rules.log2 rs top; Rules.add rs l p else Ok p) = Ok q →
  Rules.exp2 rs q = Ok b → Value b (IZR m * Rpower 2 (IZR e)).
Proof.
  intros Hbud Hm Htop Hpow Hneg Hadd Hexp. assert (0 < IZR m)%R as Hmpos by (apply IZR_lt; lia).
  assert (Value p (IZR e)) as Hve.
  { unfold unsigned_abs in Hpow. destruct (Z.ltb_spec e 0).
    - replace (IZR e) with (- IZR (Z.abs e))%R by (rewrite <- opp_IZR; f_equal; lia). by apply (Value_neg rs Hbud power).
    - injection Hneg as <-. by rewrite Z.abs_eq in Hpow by lia. }
  destruct (Z.eqb_spec m 1) as [Em|_]; cbn [negb] in Hadd.
  - injection Hadd as <-. rewrite Em, Rmult_1_l. by apply (Value_exp2 rs Hbud p).
  - apply bind_ok in Hadd as (l & Hl & Hadd).
    replace (IZR m * Rpower 2 (IZR e))%R with (Rpower 2 (log2R (IZR m) + IZR e))
      by (rewrite Rpower_plus, Rpower_log2R by done; done).
    apply (Value_exp2 rs Hbud q); [|done]. apply (Value_add rs Hbud l p); [|done..].
    by apply (Value_log2 rs Hbud top).
Qed.

Lemma convert_dyadic_spec v self :
  f64_ok v → is_finite v = true → f64_sign v = false → 0 < f64_significand v → StateOk self →
  gives self (λ x, x = Q2R (f64_Q v)) (Convert.dyadic v self).
Proof.
  intros Hv Hf Hs Hm Hst. unfold Convert.dyadic. rewrite field_exponent, field_hidden, field_fraction.
  fold (f64_exponent v) (f64_fraction v).
  assert ((if f64_exponent v =? 0 then (f64_fraction v, -1074) else (2 ^ 52 + f64_fraction v, f64_exponent v - 1023 - 52))
    = (f64_significand v, f64_power v)) as ->.
  { unfold f64_significand, f64_power. destruct (_ =? 0); [done|]. f_equal. lia. }
  assert (-1074 ≤ f64_power v ≤ 1024) as Hp.
  { destruct (f64_fields v Hv) as (_ & He & _). unfold f64_power. case_match; lia. }
  rewrite f64_Q_positive by done. pose proof (f64_significand_bound v Hv) as Hmb.
  destruct (trailing_zeros_spec (f64_significand v) Hm) as (Ht & j & Hj & Hodd).
  set (t := trailing_zeros (f64_significand v)) in *. set (m := 2 * j + 1) in *.
  assert (t < 53) as Ht53.
  { apply (Z.pow_lt_mono_r_iff 2); [lia..|]. pose proof (Z.pow_pos_nonneg 2 t). nia. }
  assert (Z.shiftr (f64_significand v) t = m) as ->.
  { rewrite Z.shiftr_div_pow2, Hodd by done. apply Z.div_mul. apply Z.pow_nonzero; lia. }
  assert (1 ≤ m ≤ f64_significand v) as Hmm by (pose proof (Z.pow_pos_nonneg 2 t); unfold m in *; nia).
  set (e := f64_power v + t). assert (2 ^ 53 < 2 ^ 63 ∧ 2000 < 2 ^ 63) as [H53 H2000] by done.
  assert (IZR (f64_significand v) * Rpower 2 (IZR (f64_power v)) = IZR m * Rpower 2 (IZR e))%R as ->.
  { unfold e. rewrite Hodd, mult_IZR, IZR_pow2, plus_IZR, Rpower_plus by done. ring. }
  apply (gives_then self (IZR m)); [apply integer_total; [lia|done]|]. intros top s1 Htop Hs1 _.
  assert (0 < IZR m)%R as Hmpos by (apply IZR_lt; lia).
  destruct (Z.eqb_spec e 0) as [E0|_].
  { split; [done|]. exists (IZR m). split; [|done]. rewrite E0, Rpower_O by lra. lra. }
  apply (gives_then s1 (IZR (unsigned_abs e))); [apply integer_total; [unfold unsigned_abs, e; lia|done]|].
  intros power s2 Hpow Hs2 _.
  destruct (if e <? 0 then _ else _) as [p|] eqn:Ep; cbn [mbind Result_bind]; [|done].
  destruct (if negb (m =? 1) then _ else _) as [q|] eqn:Eq; cbn [mbind Result_bind]; [|done].
  apply gives_last. intros b Hb. eexists. split; [done|]. pose proof (state_budget _ Hs2). apply (scaled_power (rules s2) m e top power p q b); [done|lia|done..].
Qed.

(** What a magnitude may be: the value itself, or a rational close to it. *)
Definition magnitude_of (value : f64) (max_den : Z) (allowance : f64) (x : R) : Prop :=
  x = Q2R (f64_Q value) ∨ approximates value max_den allowance x.

Lemma gives_weaken self (P Q : R → Prop) m : gives self P m → (∀ x, P x → Q x) → gives self Q m.
Proof.
  unfold gives. destruct m as [[[b s]|e]|]; [|done..]. intros (Hr & x & HP & Hv) HPQ. split; [done|].
  exists x. by split; [apply HPQ|].
Qed.

Lemma f64_eq_zero v : f64_ok v → is_finite v = true → f64_eq v f64_zero = true ↔ f64_significand v = 0.
Proof.
  intros Hv Hf. unfold is_finite in Hf. apply negb_true_iff in Hf. pose proof (f64_significand_bound v Hv).
  unfold f64_eq, SFeqb, SFcompare, to_spec. rewrite Hf.
  change (if f64_exponent f64_zero =? 2047 then _ else _) with (S754_zero false).
  destruct (f64_significand v) as [|m|m]; [done| |lia]. by destruct (f64_sign v).
Qed.

Lemma convert_magnitude_spec v max_den allowance self :
  f64_ok v → is_finite v = true → f64_sign v = false → max_den < 2 ^ 32 → StateOk self →
  gives self (magnitude_of v max_den allowance) (Convert.magnitude v max_den allowance self).
Proof.
  intros Hv Hf Hs Hmax Hst. unfold Convert.magnitude. pose proof (f64_significand_bound v Hv).
  destruct (f64_eq v f64_zero) eqn:E.
  { apply f64_eq_zero in E; [|done..]. apply (built_gives _ 0%R); [by apply (integer_total 0)|].
    left. rewrite f64_Q_positive, E by done. ring. }
  assert (0 < f64_significand v) as Hm.
  { destruct (decide (f64_significand v = 0)) as [E0|]; [|lia]. apply f64_eq_zero in E0; [congruence|done..]. }
  destruct (while_total (λ st : SynthesisState * Z, st.1 = self ∧ 1 ≤ st.2 ≤ 2 ^ 32)
    (λ r, match r with None => True | Some m => gives self (approximates v max_den allowance) m end)
    (λ st, 2 ^ 32 - st.2) (Convert.denominator_step v max_den allowance))
    with (p := Z.to_pos (2 ^ 33)) (s := (self, 1)) as (r & -> & Hr); [| | |].
  - intros [s d] [Hsd Hd]. cbn [fst snd] in *. subst s.
    pose proof (denominator_step_spec v max_den allowance self d Hst ltac:(lia) Hmax) as Hstep.
    destruct (Convert.denominator_step v max_den allowance (self, d)) as [[s' d']|[m|]]; [|done..].
    destruct Hstep as (-> & -> & Hle). cbn [fst snd]. split; [split; [done|]|]; lia.
  - cbn. split; [done|lia].
  - cbn. lia.
  - destruct r as [m|].
    + apply (gives_weaken _ _ _ _ Hr). by right.
    + apply (gives_weaken _ _ _ _ (convert_dyadic_spec v self Hv Hf Hs Hm Hst)). by left.
Qed.

(** ** The conversion *)

Lemma f64_abs_fields v :
  f64_ok v → f64_ok (f64_abs v) ∧ f64_sign (f64_abs v) = false ∧ is_finite (f64_abs v) = is_finite v ∧
  (f64_Q (f64_abs v) == Qabs (f64_Q v))%Q.
Proof.
  intros Hv. destruct (f64_fields v Hv) as (E & He & Hf). pose proof (f64_significand_nonneg v Hv).
  assert (f64_ok (f64_abs v) ∧ f64_sign (f64_abs v) = false ∧ f64_exponent (f64_abs v) = f64_exponent v ∧
    f64_fraction (f64_abs v) = f64_fraction v) as (Hok & Hs & Hee & Hff).
  { assert (to_bits (f64_abs v) = f64_exponent v * 2 ^ 52 + f64_fraction v) as Eb.
    { unfold f64_abs. cbn [to_bits]. rewrite E. revert He Hf.
      generalize (f64_exponent v) as e, (f64_fraction v) as f. intros e f He Hf.
      change (2 ^ 63) with 9223372036854775808. change (2 ^ 52) with 4503599627370496 in *.
      destruct (f64_sign v); cbn [Z.b2z]; dlia. }
    unfold f64_ok, f64_sign, f64_exponent at 1, f64_fraction at 1. rewrite Eb. revert He Hf.
    generalize (f64_exponent v) as e, (f64_fraction v) as f. intros e f He Hf.
    change (2 ^ 52) with 4503599627370496 in *. change (2 ^ 11) with 2048.
    split; [split; lia|]. split; [|split; dlia].
    rewrite Z.testbit_eqb by lia. change (2 ^ 63) with 9223372036854775808. apply Z.eqb_neq. dlia. }
  assert (f64_significand (f64_abs v) = f64_significand v) as Hsig by (unfold f64_significand; by rewrite Hee, Hff).
  assert (f64_power (f64_abs v) = f64_power v) as Hpow by (unfold f64_power; by rewrite Hee).
  split; [done|]. split; [done|]. split; [unfold is_finite; by rewrite Hee|].
  unfold f64_Q. rewrite Hs, Hsig, Hpow. unfold scaleQ, Qabs, Qeq. cbn [Qnum Qden].
  pose proof (Z.pow_nonneg 2 (Z.max (f64_power v) 0) ltac:(lia)).
  f_equal. destruct (f64_sign v); [rewrite Z.mul_opp_l, Z.abs_opp|]; rewrite Z.abs_eq; nia.
Qed.

Lemma to_f64_no_panic `{Libm} b : (∃ t, Represents b t) → to_f64 b ≠ Err None.
Proof. intros [t Ht]. rewrite (to_f64_right b t Ht). by destruct (evaluate_right t). Qed.

(** The conversion of a float never panics and only returns what it checked: a
    returned tree has over the reals exactly the float's value, or that of a
    rational with a denominator within the limit that is within the allowance of
    it, the float's sign applied; and its own numerical evaluation succeeds within
    the allowance. The reported errors are true: a non-finite input, and an
    evaluation that misses the allowance. *)
Theorem conversion_sound `{Libm} value options :
  f64_ok value → usize (conversion_max_bits options) → max_denominator options < 2 ^ 32 →
  let allowance := f64_add (absolute_tolerance options) (f64_mul (relative_tolerance options) (f64_abs value)) in
  match Convert.from_f64_with_options value options with
  | Ok b =>
      is_finite value = true ∧
      (∃ x, magnitude_of (f64_abs value) (max_denominator options) allowance x ∧
         Value b (if f64_lt value f64_zero then - x else x)) ∧
      ∃ actual, to_f64 b = Ok actual ∧ f64_lt allowance (f64_abs (f64_sub actual value)) = false
  | Err (Some ConversionNonFinite) => is_finite value = false
  | Err (Some (Precision requested actual allowed)) =>
      requested = value ∧ allowed = allowance ∧ f64_lt allowance (f64_abs (f64_sub actual value)) = true
  | Err (Some _) => True
  | Err None => False
  end.
Proof.
  intros Hv Hmax Hden allowance. unfold Convert.from_f64_with_options.
  destruct (is_finite value) eqn:Ef; cbn [negb]; [|done].
  destruct (_ || _); [done|]. fold allowance. destruct (negb (is_finite allowance)); [done|]. cbv zeta.
  destruct (f64_abs_fields value Hv) as (Hok & Hs & Hf & _). rewrite Ef in Hf.
  set (self := mkSynthesisState _ _).
  assert (StateOk self) as Hst by (constructor; [done|intros n b Hn; cbn [integers self] in Hn; by rewrite lookup_empty in Hn]).
  pose proof (convert_magnitude_spec (f64_abs value) (max_denominator options) allowance self Hok Hf Hs Hden Hst) as Hm.
  destruct (Convert.magnitude _ _ _ self) as [[[b self']|e]|]; cbn [map_err mbind Result_bind]; [|done..].
  destruct Hm as (Hr & x & Hx & Hb).
  assert (∀ c, (if f64_lt value f64_zero then map_err (λ e, Some (ConversionBuild e)) (Rules.neg (rules self') b) else Ok b) = Ok c →
    Value c (if f64_lt value f64_zero then - x else x)) as Hneg.
  { intros c Hc. destruct (f64_lt value f64_zero); [|by injection Hc as <-].
    apply map_err_ok in Hc. rewrite Hr in Hc. by apply (Value_neg (rules self) Hmax b). }
  destruct (if f64_lt value f64_zero then _ else _) as [c|e] eqn:Ec; cbn [mbind Result_bind].
  - specialize (Hneg c eq_refl). assert (to_f64 c ≠ Err None) as Hnp.
    { apply to_f64_no_panic. destruct Hneg as (t & Ht & _). by exists t. }
    destruct (to_f64 c) as [actual|[e|]] eqn:Ea; cbn [map_err mbind Result_bind fmap option_fmap option_map]; [|done..].
    destruct (f64_lt allowance _) eqn:El; [by repeat split|].
    split; [done|]. split; [by exists x|]. by exists actual.
  - destruct (f64_lt value f64_zero); [|done]. destruct (Rules.neg (rules self') b); [done|]. by injection Ec as <-.
Qed.

Lemma conversion_sound_witness :
  ∃ b, @Convert.from_f64_with_options libm_example (f64_of_Z 2) SynthesisOptions_default = Ok b ∧
    ∃ x, Value b x.
Proof.
  pose proof (@conversion_sound libm_example (f64_of_Z 2) SynthesisOptions_default
    ltac:(apply of_spec_ok) ltac:(split; done) ltac:(done)) as H.
  destruct (@Convert.from_f64_with_options libm_example (f64_of_Z 2) SynthesisOptions_default) as [b|e] eqn:E;
    [|vm_compute in E; discriminate E].
  exists b. split; [reflexivity|]. destruct H as (_ & (x & _ & Hx) & _). eexists. exact Hx.
Defined.
