(* ===== verification/ArrayQueue.v ===== *)
(** * queue/array_queue.rs: the bounded queue, one access at a time

    The bounded multi-producer multi-consumer queue of [crates/queue]: its state, one
    atomic access per step for the shared operations ([push], [force_push], [pop]), the
    operations on an exclusive reference, and their sequential behaviour, the wrap of the
    stamps at the machine width included. [Interleaving] runs the steps of several
    threads in any order.

    Memory is sequentially consistent: every load, store, compare-exchange and access to
    the cell of a slot is one step on one shared state. The orderings, the fences and the
    backoff of the source have no counterpart. A weak compare-exchange may fail without a
    reason, and a step is undefined where the source would read an uninitialised cell or
    index outside the buffer. *)
From S2P Require Import Prelude.

Module ArrayQueue.

Record Slot (T : Type) := mkSlot {
  stamp : Z;
  value : option T;  (* [None]: uninitialised memory *)
}.
Arguments mkSlot {T} _ _.
Arguments stamp {T} _.
Arguments value {T} _.

Record ArrayQueue (T : Type) := mkQueue {
  head : Z;
  tail : Z;
  buffer : list (Slot T);
  cap : Z;
  one_lap : Z;
}.
Arguments mkQueue {T} _ _ _ _ _.
Arguments head {T} _.
Arguments tail {T} _.
Arguments buffer {T} _.
Arguments cap {T} _.
Arguments one_lap {T} _.

Section operations.
Context {T : Type}.
Implicit Types (q : ArrayQueue T) (v : T).

Definition set_head q s := mkQueue s (tail q) (buffer q) (cap q) (one_lap q).
Definition set_tail q s := mkQueue (head q) s (buffer q) (cap q) (one_lap q).
Definition set_slot q (i : Z) (s : Slot T) :=
  mkQueue (head q) (tail q) (<[Z.to_nat i := s]> (buffer q)) (cap q) (one_lap q).

(** [usize::next_power_of_two]; its overflow is a panic. *)
Definition next_power_of_two (n : Z) : option Z :=
  let p := if n <=? 1 then 1 else 2 ^ nbits (n - 1) in
  if p <? W64 then Some p else None.

(** [ArrayQueue::new]; [None] is a panic. *)
Definition new (capacity : Z) : option (ArrayQueue T) :=
  if negb (0 <? capacity) then None else
  let slots := (λ i, mkSlot (Z.of_nat i) None) <$> seq 0 (Z.to_nat capacity) in
  n ← checked_add capacity 1;
  lap ← next_power_of_two n;
  Some (mkQueue 0 0 slots capacity lap).

(** The deconstruction of a head or a tail, and its successor. *)
Definition index_of q (s : Z) : Z := Z.land s (one_lap q - 1).
Definition lap_of q (s : Z) : Z := Z.land s (Z.lnot (one_lap q - 1)).
Definition advance q (s : Z) : Z :=
  if index_of q s + 1 <? cap q then s + 1 else wrapping_add (lap_of q s) (one_lap q).
Definition slot_at q (s : Z) : option (Slot T) := buffer q !! Z.to_nat (index_of q s).

(** What a caller asks of a shared queue, and the result of the call. *)
Inductive Op := Push (v : T) | ForcePush (v : T) | Pop.
Inductive Answer :=
| Pushed                      (* [push]: [Ok(())] *)
| Rejected (v : T)            (* [push]: [Err(v)] *)
| Forced (old : option T)     (* [force_push] *)
| Popped (msg : option T).    (* [pop] *)

(** The closure given to [push_or_else], by [push] or by [force_push]. *)
Inductive Closure := RejectWhenFull | ReplaceOldest.

(** The program counter of a thread, with the locals that are live there: each state
    is followed by one access to the shared queue. *)
Inductive Thread :=
| Idle
| PushLoad (f : Closure) (v : T)                  (* load the tail *)
| PushInspect (f : Closure) (v : T) (tail : Z)    (* load the stamp of the slot *)
| PushClaim (f : Closure) (v : T) (tail : Z)      (* compare-exchange the tail *)
| PushWrite (f : Closure) (v : T) (tail : Z)      (* write the value *)
| PushPublish (f : Closure) (tail : Z)            (* store the stamp *)
| PushFull (v : T) (tail : Z)                     (* closure of [push]: load the head *)
| ForceClaim (v : T) (tail : Z)                   (* of [force_push]: move the head *)
| ForceTail (v : T) (tail : Z)                    (* store the tail *)
| ForceSwap (v : T) (tail : Z)                    (* replace the value *)
| ForcePublish (old : T) (tail : Z)               (* store the stamp *)
| PopLoad                                         (* load the head *)
| PopInspect (head : Z)                           (* load the stamp of the slot *)
| PopClaim (head : Z)                             (* compare-exchange the head *)
| PopTake (head : Z)                              (* read the value *)
| PopRelease (msg : T) (head : Z)                 (* store the stamp *)
| PopEmpty (head : Z)                             (* load the tail *)
| Done (a : Answer).

Definition start (op : Op) : Thread :=
  match op with
  | Push v => PushLoad RejectWhenFull v
  | ForcePush v => PushLoad ReplaceOldest v
  | Pop => PopLoad
  end.

(** The result of [push_or_else] when the element went in: [Ok(())], which
    [force_push] turns into [None] with [err]. *)
Definition pushed (f : Closure) : Answer :=
  match f with RejectWhenFull => Pushed | ReplaceOldest => Forced None end.

(** The loop of [push_or_else]; [spurious] is the weak compare-exchange failing although
    the value was the expected one. *)
Definition push_or_else_step (spurious : bool) q (t : Thread) : option (ArrayQueue T * Thread) :=
  match t with
  | PushLoad f v => Some (q, PushInspect f v (tail q))
  | PushInspect f v tl =>
      slot ← slot_at q tl;
      Some (q,
        if tl =? stamp slot then PushClaim f v tl
        else if wrapping_add (stamp slot) (one_lap q) =? tl + 1 then
          match f with RejectWhenFull => PushFull v tl | ReplaceOldest => ForceClaim v tl end
        else PushLoad f v)
  | PushClaim f v tl =>
      if (tail q =? tl) && negb spurious then Some (set_tail q (advance q tl), PushWrite f v tl)
      else Some (q, PushInspect f v (tail q))
  | PushWrite f v tl =>
      slot ← slot_at q tl;
      Some (set_slot q (index_of q tl) (mkSlot (stamp slot) (Some v)), PushPublish f tl)
  | PushPublish f tl =>
      slot ← slot_at q tl;
      Some (set_slot q (index_of q tl) (mkSlot (tl + 1) (value slot)), Done (pushed f))
  | _ => None
  end.

(** The closure of [push]: full when the head lags one lap behind. *)
Definition push_step q (t : Thread) : option (ArrayQueue T * Thread) :=
  match t with
  | PushFull v tl =>
      Some (q, if wrapping_add (head q) (one_lap q) =? tl then Done (Rejected v)
               else PushLoad RejectWhenFull v)
  | _ => None
  end.

(** The closure of [force_push]. *)
Definition force_push_step (spurious : bool) q (t : Thread) : option (ArrayQueue T * Thread) :=
  match t with
  | ForceClaim v tl =>
      let hd := wrapping_sub tl (one_lap q) in
      let new_head := wrapping_sub (advance q tl) (one_lap q) in
      if (head q =? hd) && negb spurious then Some (set_head q new_head, ForceTail v tl)
      else Some (q, PushLoad ReplaceOldest v)
  | ForceTail v tl => Some (set_tail q (advance q tl), ForceSwap v tl)
  | ForceSwap v tl =>
      slot ← slot_at q tl;
      old ← value slot;
      Some (set_slot q (index_of q tl) (mkSlot (stamp slot) (Some v)), ForcePublish old tl)
  | ForcePublish old tl =>
      slot ← slot_at q tl;
      Some (set_slot q (index_of q tl) (mkSlot (tl + 1) (value slot)), Done (Forced (Some old)))
  | _ => None
  end.

(** The loop of [pop]. Reading the value of a slot leaves its cell as it is. *)
Definition pop_step (spurious : bool) q (t : Thread) : option (ArrayQueue T * Thread) :=
  match t with
  | PopLoad => Some (q, PopInspect (head q))
  | PopInspect hd =>
      slot ← slot_at q hd;
      Some (q,
        if hd + 1 =? stamp slot then PopClaim hd
        else if stamp slot =? hd then PopEmpty hd
        else PopLoad)
  | PopClaim hd =>
      if (head q =? hd) && negb spurious then Some (set_head q (advance q hd), PopTake hd)
      else Some (q, PopInspect (head q))
  | PopTake hd =>
      slot ← slot_at q hd;
      msg ← value slot;
      Some (q, PopRelease msg hd)
  | PopRelease msg hd =>
      slot ← slot_at q hd;
      Some (set_slot q (index_of q hd) (mkSlot (wrapping_add hd (one_lap q)) (value slot)),
            Done (Popped (Some msg)))
  | PopEmpty hd => Some (q, if tail q =? hd then Done (Popped None) else PopLoad)
  | _ => None
  end.

(** One step of a thread inside a call. *)
Definition run (spurious : bool) q (t : Thread) : option (ArrayQueue T * Thread) :=
  match t with
  | Idle | Done _ => None
  | PushLoad _ _ | PushInspect _ _ _ | PushClaim _ _ _ | PushWrite _ _ _ | PushPublish _ _ =>
      push_or_else_step spurious q t
  | PushFull _ _ => push_step q t
  | ForceClaim _ _ | ForceTail _ _ | ForceSwap _ _ | ForcePublish _ _ =>
      force_push_step spurious q t
  | PopLoad | PopInspect _ | PopClaim _ | PopTake _ | PopRelease _ _ | PopEmpty _ =>
      pop_step spurious q t
  end.

(** A thread that runs alone, without spurious failures, for at most [n] steps. *)
Fixpoint run_alone (n : nat) q (t : Thread) : option (ArrayQueue T * Answer) :=
  match t, n with
  | Done a, _ => Some (q, a)
  | _, O => None
  | _, S n => '(q, t) ← run false q t; run_alone n q t
  end.

(** The shared operations with nobody else on the queue: six accesses are enough. *)
Definition call q (op : Op) : option (ArrayQueue T * Answer) := run_alone 6 q (start op).

(** [push_mut] and [pop_mut]; [None] is undefined behaviour. *)
Definition push_mut q v : option (ArrayQueue T * Answer) :=
  let tl := tail q in
  let hd := head q in
  if wrapping_add hd (one_lap q) =? tl then Some (q, Rejected v) else
  let index := index_of q tl in
  let q1 := set_tail q (advance q tl) in
  slot ← slot_at q1 tl;
  Some (set_slot q1 index (mkSlot (tl + 1) (Some v)), Pushed).

Definition pop_mut q : option (ArrayQueue T * option T) :=
  let hd := head q in
  let tl := tail q in
  if tl =? hd then Some (q, None) else
  let index := index_of q hd in
  let new := advance q hd in
  slot ← slot_at q hd;
  msg ← value slot;
  let q1 := set_slot q index (mkSlot (wrapping_add hd (one_lap q)) (value slot)) in
  Some (set_head q1 new, Some msg).

Definition capacity_of q : Z := cap q.  (* [ArrayQueue::capacity] *)
Definition is_empty q : bool := tail q =? head q.
Definition is_full q : bool := wrapping_add (head q) (one_lap q) =? tail q.

(** The count computed from a head and a tail, in [len] and in [drop]. *)
Definition count q (hd tl : Z) : Z :=
  let hix := index_of q hd in
  let tix := index_of q tl in
  if hix <? tix then tix - hix
  else if tix <? hix then cap q - hix + tix
  else if tl =? hd then 0
  else cap q.
(** [len] with nobody else on the queue: the tail does not change between the loads. *)
Definition len q : Z := count q (head q) (tail q).

(** [Drop::drop] of a type that needs it: the values dropped, in order. *)
Definition drop q : option (list T) :=
  let hix := index_of q (head q) in
  mapM (λ i : nat,
    let i := Z.of_nat i in
    let index := if hix + i <? cap q then hix + i else hix + i - cap q in
    slot ← buffer q !! Z.to_nat index; value slot)
    (seq 0 (Z.to_nat (count q (head q) (tail q)))).

(** [IntoIter::next]: the head moves and the stamps stay. *)
Definition next q : option (ArrayQueue T * option T) :=
  let hd := head q in
  if negb (head q =? tail q) then
    slot ← slot_at q hd;
    val ← value slot;
    Some (set_head q (advance q hd), Some val)
  else Some (q, None).

(** A [for] loop over the queue: all its elements. *)
Fixpoint into_iter (fuel : nat) q : option (list T) :=
  match fuel with
  | O => None
  | S fuel =>
      '(q, item) ← next q;
      match item with
      | None => Some []
      | Some x => xs ← into_iter fuel q; Some (x :: xs)
      end
  end.
End operations.
Arguments Op : clear implicits.
Arguments Answer : clear implicits.
Arguments Thread : clear implicits.

(** ** Positions and stamps *)

(** A queue of [c] slots whose lap is [lap], a power of two above [c]. *)
Record geometry (c : nat) (lap : Z) : Prop := {
  slots_positive : (0 < c)%nat;
  lap_power : ∃ k, 0 ≤ k ≤ 63 ∧ lap = 2 ^ k;
  slots_below_lap : Z.of_nat c < lap;
}.

Record shaped {T} (c : nat) (lap : Z) (q : ArrayQueue T) : Prop := {
  shaped_slots : length (buffer q) = c;
  shaped_cap : cap q = Z.of_nat c;
  shaped_lap : one_lap q = lap;
}.

(** The head or tail at the [p]-th element ever pushed: its slot and its lap. *)
Definition enc (c : nat) (lap : Z) (p : nat) : Z :=
  (Z.of_nat (p `div` c) * lap + Z.of_nat (p `mod` c)) `mod` W64.

Section positions.
Context (c : nat) (lap : Z) (G : geometry c lap).
Abbreviation enc := (enc c lap).
Abbreviation laps := (W64 / lap).

Lemma lap_facts : 2 ≤ lap ∧ W64 = lap * laps ∧ 2 ≤ laps.
Proof.
  destruct G as [Hc (k & Hk & ->) Hlt].
  assert (W64 = 2 ^ k * 2 ^ (64 - k)) as E.
  { rewrite <-Z.pow_add_r by lia. replace (k + (64 - k)) with 64 by lia. done. }
  pose proof (Z.pow_pos_nonneg 2 k ltac:(lia) ltac:(lia)) as Hp.
  assert (W64 / 2 ^ k = 2 ^ (64 - k)) as ->.
  { rewrite E, Z.mul_comm. apply Z.div_mul. lia. }
  split; [lia|]. split; [done|].
  change 2 with (2 ^ 1) at 1. apply Z.pow_le_mono_r; lia.
Qed.

Lemma slot_below p : (p `mod` c < c)%nat.
Proof. apply Nat.mod_upper_bound. pose proof (slots_positive _ _ G). lia. Qed.

Lemma enc_split p :
  enc p = lap * (Z.of_nat (p `div` c) `mod` laps) + Z.of_nat (p `mod` c).
Proof.
  destruct lap_facts as (H1 & H2 & H3). pose proof (slot_below p) as Hs.
  pose proof (slots_below_lap _ _ G) as Hlt. unfold ArrayQueue.enc.
  rewrite H2 at 1. rewrite Z.rem_mul_r by lia.
  rewrite (Z.add_comm (_ * lap)), Z.mod_add, Z.div_add by lia.
  rewrite (Z.mod_small (Z.of_nat (p mod c))), (Z.div_small (Z.of_nat (p mod c))) by lia.
  rewrite Z.add_0_l. lia.
Qed.

Lemma enc_usize p : usize (enc p).
Proof. apply Z.mod_pos_bound. lia. Qed.

Lemma enc_0 : enc 0 = 0.
Proof.
  pose proof (slots_positive _ _ G). unfold ArrayQueue.enc.
  rewrite Nat.div_small, Nat.mod_small by lia. done.
Qed.

(** The low bits of a stamp are its slot; a filled slot adds one. *)
Lemma enc_low p b : 0 ≤ b ≤ 1 →
  (enc p + b) `mod` lap = Z.of_nat (p `mod` c) + b ∧
  (enc p + b) / lap = Z.of_nat (p `div` c) `mod` laps.
Proof.
  intros Hb. destruct lap_facts as (H1 & H2 & H3). pose proof (slot_below p) as Hs.
  pose proof (slots_below_lap _ _ G) as Hlt. rewrite enc_split, <-Z.add_assoc.
  rewrite Z.add_comm, Z.mul_comm, Z.mod_add, Z.div_add by lia.
  rewrite Z.mod_small, Z.div_small by lia. done.
Qed.

Lemma enc_index p : Z.land (enc p) (lap - 1) = Z.of_nat (p `mod` c).
Proof.
  destruct (enc_low p 0) as [E _]; [lia|]. rewrite !Z.add_0_r in E. rewrite <-E.
  destruct (lap_power _ _ G) as (k & Hk & ->).
  rewrite <-Z.land_ones by lia. by rewrite Z.ones_equiv.
Qed.

Lemma enc_lap p : Z.land (enc p) (Z.lnot (lap - 1)) = lap * (Z.of_nat (p `div` c) `mod` laps).
Proof.
  destruct (enc_low p 0) as [_ E]; [lia|]. rewrite !Z.add_0_r in E. rewrite <-E.
  destruct (lap_power _ _ G) as (k & Hk & ->).
  replace (2 ^ k - 1) with (Z.ones k) by (rewrite Z.ones_equiv; lia).
  rewrite <-Z.ldiff_land, Z.ldiff_ones_r, Z.shiftr_div_pow2, Z.shiftl_mul_pow2 by lia. lia.
Qed.

Lemma div_mod_succ p :
  (S p `mod` c = S (p `mod` c) ∧ S p `div` c = p `div` c ∧ S (p `mod` c) < c)%nat ∨
  (S p `mod` c = 0 ∧ S p `div` c = S (p `div` c) ∧ S (p `mod` c) = c)%nat.
Proof.
  pose proof (slot_below p) as Hs. pose proof (Nat.div_mod_eq p c) as E.
  assert (∀ d r, (r < c)%nat → (S p = c * d + r)%nat → (S p `mod` c = r ∧ S p `div` c = d)%nat) as H.
  { intros d r Hr Ed. split; symmetry; [by apply (Nat.mod_unique _ _ d)|by apply (Nat.div_unique _ _ _ r)]. }
  revert Hs E H. generalize (p `div` c)%nat (p `mod` c)%nat. intros d r Hs E H.
  destruct (decide (S r < c)%nat) as [Hlt|Hge].
  - left. destruct (H d (S r)) as [-> ->]; lia.
  - right. destruct (H (S d) 0%nat) as [-> ->]; lia.
Qed.

Lemma div_mod_lap p : ((p + c) `mod` c = p `mod` c ∧ (p + c) `div` c = S (p `div` c))%nat.
Proof.
  pose proof (slots_positive _ _ G) as Hc. replace (p + c)%nat with (p + 1 * c)%nat by lia.
  rewrite Nat.Div0.mod_add, Nat.div_add by lia. lia.
Qed.

(** Two stamps agree when their slots do and their laps do at the machine width. *)
Lemma enc_eq p r b b' : 0 ≤ b ≤ 1 → 0 ≤ b' ≤ 1 → enc p + b = enc r + b' →
  Z.of_nat (p `mod` c) + b = Z.of_nat (r `mod` c) + b' ∧
  Z.of_nat (p `div` c) `mod` laps = Z.of_nat (r `div` c) `mod` laps.
Proof.
  intros Hb Hb' E. destruct (enc_low p b Hb) as [E1 E2], (enc_low r b' Hb') as [E3 E4].
  rewrite E in E1, E2. split; congruence.
Qed.

Lemma enc_inj p r : enc p = enc r → (p ≤ r)%nat → Z.of_nat r < Z.of_nat p + Z.of_nat c * laps →
  p = r.
Proof.
  intros E Hle Hlt. destruct (enc_eq p r 0 0) as [E1 E2]; [lia..|].
  destruct lap_facts as (H1 & H2 & H3). pose proof (slots_positive _ _ G) as Hc.
  pose proof (Nat.div_mod_eq p c) as Ep. pose proof (Nat.div_mod_eq r c) as Er.
  assert (p `div` c ≤ r `div` c)%nat as Hd by (apply Nat.Div0.div_le_mono; lia).
  destruct (decide (p `div` c = r `div` c)%nat) as [Hd'|Hd']; [nia|exfalso].
  pose proof (Z.div_mod (Z.of_nat (p `div` c)) laps ltac:(lia)) as Mp.
  pose proof (Z.div_mod (Z.of_nat (r `div` c)) laps ltac:(lia)) as Mr.
  rewrite E2 in Mp. revert Mp Mr.
  generalize (Z.of_nat (p `div` c) / laps) (Z.of_nat (r `div` c) / laps) (Z.of_nat (r `div` c) `mod` laps).
  intros a b m Mp Mr. assert (a < b) by nia.
  assert (Z.of_nat (p `div` c) + laps ≤ Z.of_nat (r `div` c)) by nia.
  assert (Z.of_nat r = Z.of_nat c * Z.of_nat (r `div` c) + Z.of_nat (r `mod` c)) by lia.
  assert (Z.of_nat p = Z.of_nat c * Z.of_nat (p `div` c) + Z.of_nat (p `mod` c)) by lia.
  nia.
Qed.

Lemma enc_lap_add p : wrapping_add (enc p) lap = enc (p + c)%nat.
Proof.
  unfold wrapping_add, ArrayQueue.enc. destruct (div_mod_lap p) as [-> ->].
  rewrite Zplus_mod_idemp_l. f_equal. lia.
Qed.

(** The stamp of a filled slot does not overflow. *)
Lemma enc_succ_usize p b : 0 ≤ b ≤ 1 → 0 ≤ enc p + b < W64.
Proof.
  intros Hb. rewrite enc_split. destruct lap_facts as (H1 & H2 & H3).
  pose proof (slot_below p). pose proof (slots_below_lap _ _ G).
  pose proof (Z.mod_pos_bound (Z.of_nat (p `div` c)) laps ltac:(lia)). nia.
Qed.

Lemma enc_lap_add_filled p : wrapping_add (enc p + 1) lap = enc (p + c)%nat + 1.
Proof.
  rewrite <-(Z.mod_small (enc (p + c) + 1) W64) by (apply enc_succ_usize; lia).
  rewrite <-enc_lap_add. unfold wrapping_add. rewrite Zplus_mod_idemp_l. f_equal. lia.
Qed.

Lemma enc_lap_sub p : wrapping_sub (enc (p + c)%nat) lap = enc p.
Proof.
  unfold wrapping_sub, ArrayQueue.enc. destruct (div_mod_lap p) as [-> ->].
  rewrite Zminus_mod_idemp_l. f_equal. lia.
Qed.

Lemma enc_advance {T} (q : ArrayQueue T) p : shaped c lap q → advance q (enc p) = enc (S p).
Proof.
  intros [_ Hcap Hlap]. unfold advance, index_of, lap_of. rewrite Hcap, Hlap, enc_index, enc_lap.
  pose proof (slot_below p) as Hs. destruct lap_facts as (H1 & H2 & H3).
  destruct (div_mod_succ p) as [(E1 & E2 & E3)|(E1 & E2 & E3)].
  - destruct (Z.ltb_spec (Z.of_nat (p `mod` c) + 1) (Z.of_nat c)); [|lia].
    rewrite !enc_split, E1, E2. lia.
  - destruct (Z.ltb_spec (Z.of_nat (p `mod` c) + 1) (Z.of_nat c)); [lia|].
    unfold ArrayQueue.enc, wrapping_add. rewrite E1, E2.
    replace (lap * (Z.of_nat (p `div` c) `mod` laps)) with ((lap * Z.of_nat (p `div` c)) `mod` W64).
    + rewrite Zplus_mod_idemp_l. f_equal. lia.
    + rewrite H2 at 1. rewrite Z.mul_mod_distr_l by lia. done.
Qed.

Lemma enc_slot_at {T} (q : ArrayQueue T) p : shaped c lap q →
  slot_at q (enc p) = buffer q !! (p `mod` c)%nat.
Proof.
  intros [_ _ Hlap]. unfold slot_at, index_of. by rewrite Hlap, enc_index, Nat2Z.id.
Qed.

Lemma enc_set_slot {T} (q : ArrayQueue T) p s : shaped c lap q →
  set_slot q (index_of q (enc p)) s =
  mkQueue (head q) (tail q) (<[(p `mod` c)%nat := s]> (buffer q)) (cap q) (one_lap q).
Proof.
  intros [_ _ Hlap]. unfold set_slot, index_of. by rewrite Hlap, enc_index, Nat2Z.id.
Qed.

Lemma shaped_set_head {T} (q : ArrayQueue T) s : shaped c lap q → shaped c lap (set_head q s).
Proof. by intros []. Qed.
Lemma shaped_set_tail {T} (q : ArrayQueue T) s : shaped c lap q → shaped c lap (set_tail q s).
Proof. by intros []. Qed.
Lemma shaped_set_slot {T} (q : ArrayQueue T) i s : shaped c lap q → shaped c lap (set_slot q i s).
Proof. intros []. split; cbn; [rewrite length_insert|..]; done. Qed.
End positions.
End ArrayQueue.

(** ** The abstract queue *)

(** What each operation does to the list of elements of a queue of [c] slots. *)
Definition spec {T} (c : nat) (op : ArrayQueue.Op T) (l : list T) : list T * ArrayQueue.Answer T :=
  match op with
  | ArrayQueue.Push v =>
      if bool_decide (length l = c) then (l, ArrayQueue.Rejected v)
      else (l ++ [v], ArrayQueue.Pushed)
  | ArrayQueue.ForcePush v =>
      if bool_decide (length l = c) then
        match l with
        | [] => ([], ArrayQueue.Forced None)
        | x :: l => (l ++ [v], ArrayQueue.Forced (Some x))
        end
      else (l ++ [v], ArrayQueue.Forced None)
  | ArrayQueue.Pop =>
      match l with
      | [] => ([], ArrayQueue.Popped None)
      | x :: l => (l, ArrayQueue.Popped (Some x))
      end
  end.

Import ArrayQueue.

(** The slot of a position. *)
Definition cell {T} (c : nat) (q : ArrayQueue T) (p : nat) : option (Slot T) :=
  buffer q !! (p `mod` c)%nat.

(** The elements are between the head and the tail, [h] elements having left before. *)
Record Holds {T} (c : nat) (lap : Z) (q : ArrayQueue T) (h : nat) (l : list T) : Prop := {
  holds_shape : shaped c lap q;
  holds_head : head q = enc c lap h;
  holds_tail : tail q = enc c lap (h + length l);
  holds_bound : (length l ≤ c)%nat;
  holds_value : ∀ i, (i < length l)%nat → ∃ s, cell c q (h + i) = Some s ∧ value s = l !! i;
}.

(** The stamps of the slots are those of a queue at rest. *)
Definition Stamped {T} (c : nat) (lap : Z) (q : ArrayQueue T) (h n : nat) : Prop :=
  ∀ i, (i < c)%nat → ∃ s, cell c q (h + i) = Some s ∧
    stamp s = enc c lap (h + i) + Z.b2z (bool_decide (i < n)%nat).

Definition Represents {T} (c : nat) (lap : Z) (q : ArrayQueue T) (h : nat) (l : list T) : Prop :=
  Holds c lap q h l ∧ Stamped c lap q h (length l).

Section sequential.
Context {T : Type} (c : nat) (lap : Z) (G : geometry c lap).
Implicit Types (q : ArrayQueue T) (l : list T) (v : T).
Abbreviation enc := (enc c lap).

Lemma slots_distinct p r : (p < r < p + c)%nat → (p `mod` c ≠ r `mod` c)%nat.
Proof.
  intros Hr E. pose proof (Nat.div_mod_eq p c) as Ep. pose proof (Nat.div_mod_eq r c) as Er.
  rewrite E in Ep. revert Ep Er. generalize (p `div` c)%nat (r `div` c)%nat (r `mod` c)%nat.
  intros a b m Ep Er. destruct (Nat.lt_total a b) as [H|[->|H]]; [|lia|].
  - assert (c * S a ≤ c * b)%nat by (apply Nat.mul_le_mono_l; lia). lia.
  - assert (c * S b ≤ c * a)%nat by (apply Nat.mul_le_mono_l; lia). lia.
Qed.

Lemma slot_offset_inj h i j : (i < c)%nat → (j < c)%nat →
  ((h + i) `mod` c = (h + j) `mod` c)%nat → i = j.
Proof.
  intros Hi Hj E. destruct (Nat.lt_total i j) as [H|[H|H]]; [exfalso|done|exfalso].
  - apply (slots_distinct (h + i) (h + j)); [lia|done].
  - apply (slots_distinct (h + j) (h + i)); [lia|done].
Qed.

Lemma cell_set_slot q p s r : shaped c lap q → (p `mod` c = r `mod` c)%nat →
  cell c (set_slot q (index_of q (enc p)) s) r = Some s.
Proof.
  intros Hq E. rewrite (enc_set_slot c lap G) by done. unfold cell. cbn. rewrite <-E.
  apply list_lookup_insert_eq. rewrite (shaped_slots _ _ _ Hq). apply (slot_below c lap G).
Qed.

Lemma cell_set_slot_ne q p s r : shaped c lap q → (p `mod` c ≠ r `mod` c)%nat →
  cell c (set_slot q (index_of q (enc p)) s) r = cell c q r.
Proof.
  intros Hq E. rewrite (enc_set_slot c lap G) by done. unfold cell. cbn.
  by apply list_lookup_insert_ne.
Qed.

Lemma cell_some q p : shaped c lap q → ∃ s, cell c q p = Some s.
Proof.
  intros Hq. apply lookup_lt_is_Some_2. rewrite (shaped_slots _ _ _ Hq).
  apply (slot_below c lap G).
Qed.

Lemma slot_at_cell q p : shaped c lap q → slot_at q (enc p) = cell c q p.
Proof. intros Hq. by apply (enc_slot_at c lap G). Qed.

(** The two comparisons of a head with a tail at most one lap ahead. *)
Lemma same_position h n : (n ≤ c)%nat → (enc (h + n) =? enc h) = bool_decide (n = 0)%nat.
Proof.
  intros Hn. case_bool_decide as E; [subst; rewrite Nat.add_0_r; apply Z.eqb_refl|].
  apply Z.eqb_neq. intros E'. destruct (lap_facts c lap G) as (_ & _ & H).
  assert (h = h + n)%nat; [|lia]. apply (enc_inj c lap G); [done|lia|nia].
Qed.

Lemma one_lap_behind h n : (n ≤ c)%nat →
  (wrapping_add (enc h) lap =? enc (h + n)) = bool_decide (n = c)%nat.
Proof.
  intros Hn. rewrite (enc_lap_add c lap G). case_bool_decide as E; [subst; apply Z.eqb_refl|].
  apply Z.eqb_neq. intros E'. destruct (lap_facts c lap G) as (_ & _ & H).
  assert (h + n = h + c)%nat; [|lia]. apply (enc_inj c lap G); [done|lia|nia].
Qed.

(** Writing the next element, whatever is done to the stamp. *)
Lemma holds_push q q' h l v s : Holds c lap q h l → (length l < c)%nat →
  q' = set_slot (set_tail q (enc (S (h + length l)))) (index_of q (enc (h + length l))) s →
  value s = Some v → Holds c lap q' h (l ++ [v]).
Proof.
  intros [Hq Hh Ht Hb Hv] Hlt -> Hs. split.
  - apply shaped_set_slot, shaped_set_tail, Hq.
  - done.
  - cbn. rewrite length_app. cbn [length]. f_equal. lia.
  - rewrite length_app. cbn [length]. lia.
  - intros i Hi. rewrite length_app in Hi. cbn [length] in Hi.
    change (index_of q) with (index_of (set_tail q (enc (S (h + length l))))).
    pose proof (shaped_set_tail c lap q (enc (S (h + length l))) Hq) as Hq'.
    destruct (decide (i = length l)) as [->|Hne].
    + exists s. split; [by apply cell_set_slot|]. by rewrite lookup_app_r, Nat.sub_diag by lia.
    + destruct (Hv i) as (s' & Hs' & Hv'); [lia|]. exists s'.
      rewrite lookup_app_l by lia. split; [|done].
      rewrite cell_set_slot_ne; [done|done|]. intros E. apply slot_offset_inj in E; lia.
Qed.

Lemma stamped_push q q' h n s : shaped c lap q → Stamped c lap q h n → (n < c)%nat →
  q' = set_slot q (index_of q (enc (h + n))) s → stamp s = enc (h + n) + 1 →
  Stamped c lap q' h (S n).
Proof.
  intros Hq Hst Hn -> Hs i Hi. destruct (decide (i = n)) as [->|Hne].
  - exists s. split; [by apply cell_set_slot|]. rewrite Hs. rewrite bool_decide_true by lia. done.
  - destruct (Hst i Hi) as (s' & Hc & Hs'). exists s'. rewrite cell_set_slot_ne; [|done|].
    + split; [done|]. rewrite Hs'. do 2 f_equal. apply bool_decide_ext. lia.
    + intros E. apply slot_offset_inj in E; lia.
Qed.

(** Taking the first element. *)
Lemma holds_pop q q' h x l : Holds c lap q h (x :: l) →
  shaped c lap q' → head q' = enc (S h) → tail q' = tail q →
  (∀ i, (i < length l)%nat → cell c q' (h + S i) = cell c q (h + S i)) →
  Holds c lap q' (S h) l.
Proof.
  intros [Hq Hh Ht Hb Hv] Hq' Hh' Ht' Hc. cbn [length] in *. split; [done|done| | |].
  - rewrite Ht', Ht. f_equal. lia.
  - lia.
  - intros i Hi. destruct (Hv (S i)) as (s & Hs & Hvs); [lia|]. exists s.
    split; [|done]. rewrite <-Hs, <-Hc by done. f_equal. lia.
Qed.

Lemma stamped_pop q q' h n s : shaped c lap q → Stamped c lap q h (S n) → (S n ≤ c)%nat →
  q' = set_slot q (index_of q (enc h)) s → stamp s = enc (h + c) →
  Stamped c lap q' (S h) n.
Proof.
  intros Hq Hst Hn -> Hs i Hi. destruct (decide (i = c - 1)%nat) as [->|Hne].
  - exists s. replace (S h + (c - 1))%nat with (h + c)%nat by lia. split.
    + apply cell_set_slot; [done|]. by destruct (div_mod_lap c lap G h) as [-> _].
    + rewrite Hs, bool_decide_false by lia. cbn. lia.
  - destruct (Hst (S i)) as (s' & Hc & Hs'); [lia|]. exists s'.
    replace (S h + i)%nat with (h + S i)%nat by lia. rewrite cell_set_slot_ne; [|done|].
    + split; [done|]. rewrite Hs'. do 2 f_equal. apply bool_decide_ext. lia.
    + intros E. rewrite <-(Nat.add_0_r h) in E at 1. apply slot_offset_inj in E; lia.
Qed.

Lemma holds_first q h x l : Holds c lap q h (x :: l) →
  ∃ s, cell c q h = Some s ∧ value s = Some x.
Proof. intros H. destruct (holds_value _ _ _ _ _ H 0%nat) as (s & Hs); cbn; [lia|]. rewrite Nat.add_0_r in Hs. eauto. Qed.
End sequential.

(** ** Operations against the abstract queue *)

Section fifo.
Context {T : Type} (c : nat) (lap : Z) (G : geometry c lap).
Implicit Types (q : ArrayQueue T) (l : list T) (v : T).
Abbreviation enc := (enc c lap).

Lemma set_slot_twice q i s s' : set_slot (set_slot q i s) i s' = set_slot q i s'.
Proof. unfold set_slot. cbn. by rewrite list_insert_insert_eq. Qed.

(** The slot of the tail: stamped for the next element, or one lap behind. *)
Lemma tail_slot q h l : Represents c lap q h l →
  ∃ s, cell c q (h + length l) = Some s ∧
    ((length l < c)%nat → stamp s = enc (h + length l)) ∧
    (length l = c → stamp s = enc h + 1 ∧ value s = l !! 0%nat).
Proof.
  intros [[Hq Hh Ht Hb Hv] Hst]. pose proof (slots_positive _ _ G) as Hc.
  destruct (decide (length l = c)) as [E|Hne].
  - destruct (Hst 0%nat Hc) as (s & Hs & Hs'). destruct (Hv 0%nat) as (s' & Hs'' & Hv'); [lia|].
    rewrite Hs in Hs''. injection Hs'' as <-. rewrite Nat.add_0_r in *. exists s.
    split; [|split; [lia|]].
    + rewrite E. unfold cell. destruct (div_mod_lap c lap G h) as [-> _]. done.
    + intros _. rewrite Hs', bool_decide_true by lia. by split.
  - destruct (Hst (length l)) as (s & Hs & Hs'); [lia|]. exists s. split; [done|].
    rewrite bool_decide_false, Z.add_0_r in Hs' by lia. split; [done|lia].
Qed.

Lemma push_room q h l v sl : Represents c lap q h l → (length l < c)%nat →
  stamp sl = enc (h + length l) + 1 → value sl = Some v →
  Represents c lap (set_slot (set_tail q (enc (S (h + length l)))) (index_of q (enc (h + length l))) sl)
    h (l ++ [v]).
Proof.
  intros [Hh Hst] Hlt Hs Hv. split; [by eapply holds_push|].
  rewrite length_app, Nat.add_1_r. pose proof (holds_shape _ _ _ _ _ Hh) as Hq.
  eapply (stamped_push c lap G (set_tail q (enc (S (h + length l))))); [by apply shaped_set_tail| |done|done|done].
  done.
Qed.

Lemma pop_first q h x l sl : Represents c lap q h (x :: l) → stamp sl = enc (h + c) →
  Represents c lap (set_head (set_slot q (index_of q (enc h)) sl) (enc (S h))) (S h) l.
Proof.
  intros [Hh Hst] Hs. pose proof (holds_shape _ _ _ _ _ Hh) as Hq. split.
  - eapply (holds_pop c lap q); [done| |done|done|].
    + by apply shaped_set_head, shaped_set_slot.
    + intros i Hi. pose proof (holds_bound _ _ _ _ _ Hh) as Hb. cbn in Hb.
      change (cell c (set_slot q (index_of q (enc h)) sl) (h + S i) = cell c q (h + S i)).
      apply (cell_set_slot_ne c lap G); [done|]. apply (slots_distinct c). lia.
  - pose proof (holds_bound _ _ _ _ _ Hh) as Hb. cbn in Hb.
    eapply (stamped_pop c lap G q (set_slot q (index_of q (enc h)) sl)); [done|done|done|done|done].
Qed.

Lemma push_mut_fifo q h l v : Represents c lap q h l →
  ∃ q', push_mut q v = Some (q', (spec c (Push v) l).2) ∧
    Represents c lap q' h (spec c (Push v) l).1.
Proof.
  intros H. pose proof H as [[Hq Hh Ht Hb Hv] Hst]. unfold push_mut. cbn [spec].
  rewrite (shaped_lap _ _ _ Hq), Hh, Ht, (one_lap_behind c lap G) by done.
  case_bool_decide as E; [by exists q|].
  destruct (tail_slot q h l H) as (s & Hs & Hs' & _).
  rewrite (enc_advance c lap G) by done.
  rewrite (slot_at_cell c lap G) by (by apply shaped_set_tail).
  change (cell c (set_tail _ _) _) with (cell c q (h + length l)). rewrite Hs.
  eexists. split; [done|]. apply push_room; [done|lia|done|done].
Qed.

Lemma pop_mut_fifo q h l : Represents c lap q h l →
  ∃ q' h' x, pop_mut q = Some (q', x) ∧ (spec c Pop l).2 = Popped x ∧
    Represents c lap q' h' (spec c Pop l).1.
Proof.
  intros H. pose proof H as [Hl Hst]. pose proof Hl as [Hq Hh Ht Hb Hv]. unfold pop_mut.
  rewrite Hh, Ht, (same_position c lap G) by done.
  destruct l as [|x l]; [by exists q, h, None|]. rewrite bool_decide_false by done.
  destruct (holds_first c lap q h x l Hl) as (s & Hs & Hvs).
  rewrite (enc_advance c lap G), (slot_at_cell c lap G), Hs by done. cbn [mbind option_bind].
  rewrite Hvs. cbn [mbind option_bind]. rewrite (shaped_lap _ _ _ Hq), (enc_lap_add c lap G).
  do 3 eexists. split; [done|]. split; [done|]. by apply (pop_first _ _ x).
Qed.

(** One step of a lone thread. *)
Lemma run_alone_step n q t q' t' : run false q t = Some (q', t') →
  run_alone (S n) q t = run_alone n q' t'.
Proof. destruct t; intros E; cbn [run_alone]; try rewrite E; done. Qed.

Lemma push_call_room f q h l v : Represents c lap q h l → (length l < c)%nat →
  ∃ q', run_alone 6 q (PushLoad f v) = Some (q', pushed f) ∧ Represents c lap q' h (l ++ [v]).
Proof.
  intros H Hlt. pose proof H as [[Hq Hh Ht Hb Hv] Hst].
  destruct (tail_slot q h l H) as (s & Hs & Hs' & _). specialize (Hs' Hlt).
  set (T0 := (h + length l)%nat) in *.
  set (q1 := set_tail q (enc (S T0))).
  assert (shaped c lap q1) as Hq1 by by apply shaped_set_tail.
  set (q2 := set_slot q1 (index_of q1 (enc T0)) (mkSlot (stamp s) (Some v))).
  assert (shaped c lap q2) as Hq2 by by apply shaped_set_slot.
  assert (cell c q2 T0 = Some (mkSlot (stamp s) (Some v))) as Hc2 by by apply (cell_set_slot c lap G).
  rewrite (run_alone_step _ q _ q (PushInspect f v (enc T0))) by (cbn; by rewrite Ht).
  rewrite (run_alone_step _ q _ q (PushClaim f v (enc T0))).
  2: { cbn. rewrite (slot_at_cell c lap G), Hs by done. cbn. by rewrite Hs', Z.eqb_refl. }
  rewrite (run_alone_step _ q _ q1 (PushWrite f v (enc T0))).
  2: { cbn. rewrite Ht, Z.eqb_refl, (enc_advance c lap G) by done. done. }
  rewrite (run_alone_step _ q1 _ q2 (PushPublish f (enc T0))).
  2: { cbn. rewrite (slot_at_cell c lap G) by done. change (cell c q1 T0) with (cell c q T0). by rewrite Hs. }
  erewrite (run_alone_step _ q2).
  2: { cbn. rewrite (slot_at_cell c lap G), Hc2 by done. cbn. reflexivity. }
  cbn [run_alone]. eexists. split; [done|].
  unfold q2. change (index_of (set_slot _ _ _)) with (index_of q1). rewrite set_slot_twice.
  exact (push_room q h l v (mkSlot (enc T0 + 1) (Some v)) H Hlt eq_refl eq_refl).
Qed.
End fifo.

Section fifo_calls.
Context {T : Type} (c : nat) (lap : Z) (G : geometry c lap).
Implicit Types (q : ArrayQueue T) (l : list T) (v : T).
Abbreviation enc := (enc c lap).

(** A full queue, seen by a thread that inspects the slot of the tail. *)
Lemma inspect_full f q h l v : Represents c lap q h l → length l = c →
  run false q (PushInspect f v (enc (h + c))) =
  Some (q, match f with RejectWhenFull => PushFull v (enc (h + c))
                      | ReplaceOldest => ForceClaim v (enc (h + c)) end).
Proof.
  intros H E. pose proof H as [[Hq _ _ _ _] _].
  destruct (tail_slot c lap G q h l H) as (s & Hs & _ & Hs'). destruct (Hs' E) as [Hst _].
  rewrite E in Hs. cbn. rewrite (slot_at_cell c lap G), Hs by done. cbn.
  rewrite Hst, (shaped_lap _ _ _ Hq).
  rewrite (enc_lap_add_filled c lap G).
  destruct (Z.eqb_spec (enc (h + c)) (enc h + 1)) as [E'|_].
  { exfalso. destruct (enc_eq c lap G (h + c) h 0 1) as [E1 _]; [lia..|].
    destruct (div_mod_lap c lap G h) as [E2 _]. lia. }
  by rewrite Z.eqb_refl; destruct f.
Qed.

Lemma push_call_full q h l v : Represents c lap q h l → length l = c →
  run_alone 6 q (PushLoad RejectWhenFull v) = Some (q, Rejected v).
Proof.
  intros H E. pose proof H as [[Hq Hh Ht Hb Hv] Hst]. rewrite E in Ht.
  rewrite (run_alone_step _ q _ q (PushInspect RejectWhenFull v (enc (h + c)))) by (cbn; by rewrite Ht).
  rewrite (run_alone_step _ q _ _ _ (inspect_full _ _ _ _ _ H E)).
  rewrite (run_alone_step _ q _ q (Done (Rejected v))); [done|].
  cbn. by rewrite (shaped_lap _ _ _ Hq), Hh, (enc_lap_add c lap G), Z.eqb_refl.
Qed.

Lemma force_call_full q h x l v : Represents c lap q h (x :: l) → S (length l) = c →
  ∃ q', run_alone 6 q (PushLoad ReplaceOldest v) = Some (q', Forced (Some x)) ∧
    Represents c lap q' (S h) (l ++ [v]).
Proof.
  intros H E. pose proof H as [Hl Hst]. pose proof Hl as [Hq Hh Ht Hb Hv]. cbn in Ht. rewrite E in Ht.
  destruct (holds_first c lap q h x l Hl) as (s & Hs & Hvs).
  pose proof (div_mod_lap c lap G h) as [Eh _].
  set (T0 := (h + c)%nat) in *.
  set (q1 := set_head q (enc (S h))). set (q2 := set_tail q1 (enc (S T0))).
  assert (shaped c lap q1) as Hq1 by by apply shaped_set_head.
  assert (shaped c lap q2) as Hq2 by by apply shaped_set_tail.
  set (q3 := set_slot q2 (index_of q2 (enc T0)) (mkSlot (stamp s) (Some v))).
  assert (shaped c lap q3) as Hq3 by by apply shaped_set_slot.
  assert (cell c q3 T0 = Some (mkSlot (stamp s) (Some v))) as Hc3 by by apply (cell_set_slot c lap G).
  assert (cell c q T0 = Some s) as HsT by (unfold cell; rewrite Eh; done).
  rewrite (run_alone_step _ q _ q (PushInspect ReplaceOldest v (enc T0))) by (cbn; by rewrite Ht).
  rewrite (run_alone_step _ q _ _ _ (inspect_full _ _ _ _ _ H E)).
  rewrite (run_alone_step _ q _ q1 (ForceTail v (enc T0))).
  2: { cbn. rewrite (enc_advance c lap G), (shaped_lap _ _ _ Hq) by done. unfold T0.
       change (S (h + c)) with (S h + c)%nat. rewrite !(enc_lap_sub c lap G).
       rewrite Hh, Z.eqb_refl. done. }
  rewrite (run_alone_step _ q1 _ q2 (ForceSwap v (enc T0))) by (cbn; by rewrite (enc_advance c lap G)).
  rewrite (run_alone_step _ q2 _ q3 (ForcePublish x (enc T0))).
  2: { cbn. rewrite (slot_at_cell c lap G) by done. change (cell c q2 T0) with (cell c q T0).
       rewrite HsT. cbn. by rewrite Hvs. }
  erewrite (run_alone_step _ q3).
  2: { cbn. rewrite (slot_at_cell c lap G), Hc3 by done. cbn. reflexivity. }
  cbn [run_alone]. eexists. split; [done|].
  unfold q3. change (index_of (set_slot _ _ _)) with (index_of q2). rewrite set_slot_twice.
  (* The same queue as after [pop_mut] and [push_mut]. *)
  pose proof (pop_first c lap G q h x l (mkSlot (enc (h + c)) None) H eq_refl) as H'.
  pose proof (push_room c lap G _ (S h) l v (mkSlot (enc T0 + 1) (Some v)) H' ltac:(lia)) as Hr.
  assert (S h + length l = T0)%nat as HT by (unfold T0; lia). rewrite HT in Hr.
  specialize (Hr eq_refl eq_refl). revert Hr. clearbody T0. unfold set_head, set_tail, set_slot, index_of. cbn.
  by rewrite (shaped_lap _ _ _ Hq), !(enc_index c lap G), !Nat2Z.id, Eh, list_insert_insert_eq.
Qed.

Lemma pop_call q h l : Represents c lap q h l →
  ∃ q' h', run_alone 6 q PopLoad = Some (q', (spec c Pop l).2) ∧
    Represents c lap q' h' (spec c Pop l).1.
Proof.
  intros H. pose proof H as [Hl Hst]. pose proof Hl as [Hq Hh Ht Hb Hv].
  rewrite (run_alone_step _ q _ q (PopInspect (enc h))) by (cbn; by rewrite Hh).
  pose proof (slots_positive _ _ G) as Hc. destruct (Hst 0%nat Hc) as (s & Hs & Hs').
  rewrite Nat.add_0_r in *. destruct l as [|x l].
  - rewrite bool_decide_false, Z.add_0_r in Hs' by (cbn; lia). exists q, h. split; [|done].
    rewrite (run_alone_step _ q _ q (PopEmpty (enc h))).
    2: { cbn. rewrite (slot_at_cell c lap G), Hs by done. cbn. rewrite Hs', Z.eqb_refl.
         by destruct (Z.eqb_spec (enc h + 1) (enc h)); [lia|]. }
    rewrite (run_alone_step _ q _ q (Done (Popped None))); [done|].
    cbn in *. by rewrite Ht, Nat.add_0_r, Z.eqb_refl.
  - rewrite bool_decide_true in Hs' by (cbn; lia). cbn [Z.b2z] in Hs'.
    destruct (holds_first c lap q h x l Hl) as (s' & Hs'' & Hvs). rewrite Hs in Hs''. injection Hs'' as <-.
    set (q1 := set_head q (enc (S h))).
    assert (shaped c lap q1) as Hq1 by by apply shaped_set_head.
    rewrite (run_alone_step _ q _ q (PopClaim (enc h))).
    2: { cbn. rewrite (slot_at_cell c lap G), Hs by done. cbn. by rewrite Hs', Z.eqb_refl. }
    rewrite (run_alone_step _ q _ q1 (PopTake (enc h))).
    2: { cbn. rewrite Hh, Z.eqb_refl, (enc_advance c lap G) by done. done. }
    rewrite (run_alone_step _ q1 _ q1 (PopRelease x (enc h))).
    2: { cbn. rewrite (slot_at_cell c lap G) by done. change (cell c q1 h) with (cell c q h). rewrite Hs. cbn.
         by rewrite Hvs. }
    erewrite (run_alone_step _ q1).
    2: { cbn. rewrite (slot_at_cell c lap G) by done. change (cell c q1 h) with (cell c q h). rewrite Hs. cbn.
         rewrite (shaped_lap _ _ _ Hq), (enc_lap_add c lap G). reflexivity. }
    cbn [run_alone]. eexists _, (S h). split; [done|].
    exact (pop_first c lap G q h x l (mkSlot (enc (h + c)) (value s)) H eq_refl).
Qed.

Lemma call_fifo q h l op : Represents c lap q h l →
  ∃ q' h', call q op = Some (q', (spec c op l).2) ∧ Represents c lap q' h' (spec c op l).1.
Proof.
  intros H. pose proof (holds_bound _ _ _ _ _ (proj1 H)) as Hb. unfold call.
  destruct op as [v|v|]; cbn [start spec]; [| |by apply (pop_call q h)].
  - case_bool_decide as E.
    + exists q, h. split; [by apply (push_call_full q h l)|done].
    + destruct (push_call_room c lap G RejectWhenFull q h l v H) as (q' & ? & ?); [lia|]. by exists q', h.
  - case_bool_decide as E.
    + destruct l as [|x l]; [pose proof (slots_positive _ _ G); cbn in E; lia|].
      destruct (force_call_full q h x l v H E) as (q' & ? & ?). by exists q', (S h).
    + destruct (push_call_room c lap G ReplaceOldest q h l v H) as (q' & ? & ?); [lia|]. by exists q', h.
Qed.
End fifo_calls.

(** ** Construction, observers and iteration *)

Section observers.
Context {T : Type} (c : nat) (lap : Z) (G : geometry c lap).
Implicit Types (q : ArrayQueue T) (l : list T).
Abbreviation enc := (enc c lap).

Lemma slot_offset h n : (n ≤ c)%nat →
  ((h + n) `mod` c = if decide (h `mod` c + n < c) then h `mod` c + n else h `mod` c + n - c)%nat.
Proof.
  intros Hn. pose proof (Nat.div_mod_eq h c) as E. pose proof (slot_below c lap G h) as Hs.
  case_decide; symmetry.
  - apply (Nat.mod_unique _ _ (h `div` c)); lia.
  - apply (Nat.mod_unique _ _ (S (h `div` c))); lia.
Qed.

Lemma count_spec q h l : Holds c lap q h l → count q (ArrayQueue.head q) (tail q) = Z.of_nat (length l).
Proof.
  intros [Hq Hh Ht Hb _]. unfold count, index_of.
  rewrite (shaped_lap _ _ _ Hq), (shaped_cap _ _ _ Hq), Hh, Ht, !(enc_index c lap G), (same_position c lap G),
    slot_offset by done.
  pose proof (slot_below c lap G h) as Hs. revert Hs. generalize (h `mod` c)%nat. intros r Hs.
  case_decide; case_bool_decide; 
    repeat match goal with |- context [?a <? ?b] => destruct (Z.ltb_spec a b) end; lia.
Qed.

Lemma drop_spec q h l : Holds c lap q h l → drop q = Some l.
Proof.
  intros H. pose proof H as [Hq Hh Ht Hb Hv]. unfold drop.
  rewrite (count_spec q h l) by done. rewrite Nat2Z.id. apply mapM_Some.
  apply Forall2_same_length_lookup. split; [by rewrite length_seq|].
  intros i j x [-> Hi]%lookup_seq Hx. rewrite Nat.add_0_l.
  destruct (Hv i Hi) as (s & Hs & Hvs). unfold cell in Hs. rewrite slot_offset in Hs by lia.
  unfold index_of. rewrite (shaped_lap _ _ _ Hq), (shaped_cap _ _ _ Hq), Hh, (enc_index c lap G).
  assert (Z.to_nat (if Z.of_nat (h `mod` c) + Z.of_nat i <? Z.of_nat c then Z.of_nat (h `mod` c) + Z.of_nat i
    else Z.of_nat (h `mod` c) + Z.of_nat i - Z.of_nat c) =
    if decide (h `mod` c + i < c)%nat then (h `mod` c + i)%nat else (h `mod` c + i - c)%nat) as ->.
  { generalize (h `mod` c)%nat. intros r. destruct (decide (r + i < c)%nat); destruct (Z.ltb_spec (Z.of_nat r + Z.of_nat i) (Z.of_nat c)); lia. }
  rewrite Hs. cbn. congruence.
Qed.

Lemma next_fifo q h l : Holds c lap q h l →
  match l with
  | [] => next q = Some (q, None)
  | x :: l => ∃ q', next q = Some (q', Some x) ∧ Holds c lap q' (S h) l
  end.
Proof.
  intros H. pose proof H as [Hq Hh Ht Hb Hv]. unfold next.
  rewrite Hh, Ht, Z.eqb_sym, (same_position c lap G) by done. destruct l as [|x l]; [done|].
  rewrite bool_decide_false by done. cbn [negb].
  destruct (holds_first c lap q h x l H) as (s & Hs & Hvs).
  rewrite (slot_at_cell c lap G), Hs by done. cbn. rewrite Hvs. cbn.
  eexists. split; [done|]. rewrite (enc_advance c lap G) by done.
  eapply (holds_pop c lap q); [done|by apply shaped_set_head|done|done|done].
Qed.

Lemma into_iter_fifo q h l : Holds c lap q h l → into_iter (S (length l)) q = Some l.
Proof.
  revert q h. induction l as [|x l IH]; intros q h H.
  - cbn. by rewrite (next_fifo q h [] H).
  - destruct (next_fifo q h _ H) as (q' & E & H'). cbn [length].
    change (into_iter (S (S (length l))) q) with
      ('(q, item) ← next q; match item with None => Some [] | Some x => xs ← into_iter (S (length l)) q; Some (x :: xs) end).
    rewrite E. cbn [mbind option_bind]. by rewrite (IH _ _ H').
Qed.
End observers.

Lemma next_power_of_two_spec n : 2 ≤ n ≤ 2 ^ 60 →
  ∃ k, 1 ≤ k ≤ 60 ∧ next_power_of_two n = Some (2 ^ k) ∧ n ≤ 2 ^ k.
Proof.
  intros Hn. unfold next_power_of_two. destruct (Z.leb_spec n 1); [lia|].
  pose proof (nbits_spec (n - 1) ltac:(lia)). pose proof (nbits_pos (n - 1) ltac:(lia)).
  assert (nbits (n - 1) ≤ 60) by (apply nbits_le_iff; lia).
  exists (nbits (n - 1)). split; [lia|]. split; [|lia].
  assert (2 ^ nbits (n - 1) ≤ 2 ^ 60) by (apply Z.pow_le_mono_r; lia).
  change (2 ^ 60) with 1152921504606846976 in *. by destruct (Z.ltb_spec (2 ^ nbits (n - 1)) W64); [|lia].
Qed.

(** A capacity whose buffer can be allocated: a slot has at least eight bytes, and an
    allocation at most [isize::MAX]. *)
Definition allocatable (capacity : Z) : Prop := 0 < capacity < 2 ^ 60.

Lemma new_empty {T} capacity : allocatable capacity →
  ∃ (q : ArrayQueue T) lap, new capacity = Some q ∧ geometry (Z.to_nat capacity) lap ∧
    cap q = capacity ∧ Represents (Z.to_nat capacity) lap q 0 [].
Proof.
  intros Hc. unfold allocatable in Hc. unfold new. destruct (Z.ltb_spec 0 capacity); [|lia]. cbn [negb].
  unfold checked_add. change (2 ^ 60) with 1152921504606846976 in Hc.
  destruct (Z.ltb_spec (capacity + 1) W64); [|lia]. cbn [mbind option_bind].
  destruct (next_power_of_two_spec (capacity + 1)) as (k & Hk & -> & Hle).
  { change (2 ^ 60) with 1152921504606846976. lia. }
  cbn [mbind option_bind]. eexists _, (2 ^ k). split; [done|].
  assert (geometry (Z.to_nat capacity) (2 ^ k)) as G.
  { split; [lia| |lia]. exists k. split; [lia|done]. }
  split; [done|]. split; [done|].
  assert (∀ i, (i < Z.to_nat capacity)%nat → enc (Z.to_nat capacity) (2 ^ k) i = Z.of_nat i) as He.
  { intros i Hi. unfold enc. rewrite Nat.div_small, Nat.mod_small by lia. apply Z.mod_small. lia. }
  split; [split|].
  - split; cbn; [by rewrite length_fmap, length_seq|lia|done].
  - by rewrite (enc_0 _ _ G).
  - cbn [length Nat.add]. by rewrite (enc_0 _ _ G).
  - cbn. lia.
  - cbn. lia.
  - intros i Hi. cbn [length Nat.add]. unfold cell. cbn [buffer]. rewrite Nat.mod_small by lia.
    rewrite list_lookup_fmap, lookup_seq_lt by done. eexists. split; [done|]. cbn [stamp].
    rewrite He, bool_decide_false by lia. cbn. lia.
Qed.

(** ** Theorems *)

(** The state of a queue at rest with elements [l], a queue of [capacity] slots. *)
Definition Queue {T} (capacity : Z) (q : ArrayQueue T) (l : list T) : Prop :=
  ∃ lap h, geometry (Z.to_nat capacity) lap ∧ cap q = capacity ∧
    Represents (Z.to_nat capacity) lap q h l.

(** An operation of the queue, through a shared or an exclusive reference. *)
Definition perform {T} (exclusive : bool) (q : ArrayQueue T) (op : Op T) :
    option (ArrayQueue T * Answer T) :=
  match op, exclusive with
  | Push v, true => push_mut q v
  | Pop, true => '(q, x) ← pop_mut q; Some (q, Popped x)
  | _, _ => call q op
  end.

(** A sequence of operations and its answers; [None] is undefined behaviour or a shared
    operation that does not come to an end. *)
Fixpoint perform_all {T} (q : ArrayQueue T) (ops : list (bool * Op T)) :
    option (ArrayQueue T * list (Answer T)) :=
  match ops with
  | [] => Some (q, [])
  | (exclusive, op) :: ops =>
      '(q, a) ← perform exclusive q op;
      '(q, answers) ← perform_all q ops;
      Some (q, a :: answers)
  end.

(** The same operations on a list. *)
Fixpoint spec_all {T} (c : nat) (l : list T) (ops : list (bool * Op T)) :
    list T * list (Answer T) :=
  match ops with
  | [] => (l, [])
  | (_, op) :: ops =>
      let '(l, a) := spec c op l in
      let '(l, answers) := spec_all c l ops in
      (l, a :: answers)
  end.

Lemma represents_cap {T} c lap (q : ArrayQueue T) h l : Represents c lap q h l → cap q = Z.of_nat c.
Proof. intros [[[] _ _ _ _] _]. done. Qed.

Lemma perform_fifo {T} capacity exclusive (q : ArrayQueue T) l op : 0 ≤ capacity → Queue capacity q l →
  ∃ q', perform exclusive q op = Some (q', (spec (Z.to_nat capacity) op l).2) ∧
    Queue capacity q' (spec (Z.to_nat capacity) op l).1.
Proof.
  intros Hcap (lap & h & G & Ec & H).
  assert (∀ (q' : ArrayQueue T) h' l', Represents (Z.to_nat capacity) lap q' h' l' → Queue capacity q' l') as Hq.
  { intros q' h' l' H'. exists lap, h'. split; [done|]. split; [|done].
    rewrite (represents_cap _ _ _ _ _ H'). lia. }
  destruct (call_fifo _ _ G q h l op H) as (q1 & h1 & E1 & H1).
  destruct op as [v|v|], exclusive; cbn [perform]; try (exists q1; by eauto).
  - destruct (push_mut_fifo _ _ G q h l v H) as (q2 & E2 & H2). exists q2. eauto.
  - destruct (pop_mut_fifo _ _ G q h l H) as (q2 & h2 & x & E2 & Ex & H2).
    rewrite E2, Ex. exists q2. split; [done|]. by eapply Hq.
Qed.

Lemma perform_all_fifo {T} capacity (q : ArrayQueue T) l ops : 0 ≤ capacity → Queue capacity q l →
  ∃ q', perform_all q ops = Some (q', (spec_all (Z.to_nat capacity) l ops).2) ∧
    Queue capacity q' (spec_all (Z.to_nat capacity) l ops).1.
Proof.
  intros Hcap. revert q l. induction ops as [|[exclusive op] ops IH]; intros q l H; [by exists q|].
  destruct (perform_fifo capacity exclusive q l op Hcap H) as (q1 & E1 & H1). cbn [perform_all spec_all].
  destruct (spec (Z.to_nat capacity) op l) as [l1 a]. cbn [fst snd] in *.
  destruct (IH q1 l1 H1) as (q2 & E2 & H2). destruct (spec_all _ _ ops) as [l2 answers]. cbn [fst snd] in *.
  rewrite E1. cbn [mbind option_bind]. rewrite E2. by exists q2.
Qed.

(** [C21] A queue is the bounded first-in first-out list of its elements: from a new
    queue, any sequence of [push], [force_push], [pop], [push_mut] and [pop_mut] comes to
    an end without undefined behaviour, answers as the list does (a full queue rejects a
    [push], a [force_push] gives the oldest element back), and leaves the elements of the
    list, past any number of wraps of the stamps; a zero capacity panics. *)
Theorem queue_is_fifo {T} capacity (ops : list (bool * Op T)) :
  allocatable capacity →
  @new T 0 = None ∧
  ∃ q q', @new T capacity = Some q ∧
    perform_all q ops = Some (q', (spec_all (Z.to_nat capacity) [] ops).2) ∧
    Queue capacity q' (spec_all (Z.to_nat capacity) [] ops).1.
Proof.
  intros Hc. split; [done|]. destruct (new_empty (T := T) capacity Hc) as (q & lap & E & G & Ec & H).
  exists q. assert (Queue capacity q ([] : list T)) as HQ by (exists lap, 0%nat; done).
  destruct (perform_all_fifo capacity q [] ops) as (q' & Ha & HQ'); [unfold allocatable in Hc; lia|done|].
  by exists q'.
Qed.

(** At a capacity of two: the third [push] is rejected, [force_push] takes over. *)
Lemma queue_is_fifo_witness : allocatable 2 ∧ ∃ q q' : ArrayQueue Z, new 2 = Some q ∧
  perform_all q [(false, Push 10); (true, Push 20); (false, Push 30); (false, ForcePush 40); (true, Pop)] =
    Some (q', [Pushed; Pushed; Rejected 30; Forced (Some 10); Popped (Some 20)]) ∧ Queue 2 q' [40].
Proof.
  split; [done|].
  destruct (queue_is_fifo 2 [(false, Push 10); (true, Push 20); (false, Push 30); (false, ForcePush 40); (true, Pop)])
    as [_ H]; [done|]. exact H.
Defined.

Lemma queue_counted {T} capacity (q : ArrayQueue T) l : 0 ≤ capacity → Queue capacity q l →
  len q = Z.of_nat (length l) ∧ is_empty q = bool_decide (l = []).
Proof.
  intros Hcap (lap & h & G & Ec & H). pose proof (proj1 H) as Hl. pose proof Hl as [Hq Hh Ht Hb _].
  split; [by eapply count_spec|]. unfold is_empty. rewrite Hh, Ht, (same_position _ _ G) by done.
  apply bool_decide_ext. destruct l; cbn; split; done || lia.
Qed.

(** The observers of a queue at rest, and its ends: [len] is the number of elements,
    [is_empty] and [is_full] tell whether there are none or as many as slots, and
    dropping the queue or iterating over it visits every element, oldest first. *)
Theorem queue_observed {T} capacity (q : ArrayQueue T) l : 0 ≤ capacity → Queue capacity q l →
  capacity_of q = capacity ∧ len q = Z.of_nat (length l) ∧
  is_empty q = bool_decide (l = []) ∧ is_full q = bool_decide (Z.of_nat (length l) = capacity) ∧
  drop q = Some l ∧ into_iter (S (length l)) q = Some l.
Proof.
  intros Hcap HQ. destruct (queue_counted capacity q l Hcap HQ) as [Hlen Hempty].
  destruct HQ as (lap & h & G & Ec & H). pose proof (proj1 H) as Hl. pose proof Hl as [Hq Hh Ht Hb _].
  repeat (split; [done|]). split; [|split].
  - unfold is_full. rewrite Hh, Ht, (shaped_lap _ _ _ Hq), (one_lap_behind _ _ G) by done.
    apply bool_decide_ext. lia.
  - by eapply drop_spec.
  - by eapply into_iter_fifo.
Qed.

(** On the queue that a wrapped [force_push] leaves. *)
Definition wrapped : option (ArrayQueue Z * list (Answer Z)) :=
  q ← new 2; perform_all q [(false, Push 10); (false, Push 20); (false, ForcePush 30)].
Lemma queue_observed_witness : ∃ q a, wrapped = Some (q, a) ∧ len q = 2 ∧ is_full q = true ∧ drop q = Some [20; 30].
Proof.
  assert (geometry 2 4) as G by (split; [lia|exists 2; done|lia]).
  eexists _, _. split; [vm_compute; reflexivity|].
  match goal with |- len ?q = _ ∧ _ =>
    destruct (queue_observed 2 q [20; 30]) as (_ & H1 & _ & H2 & H3 & _); [lia| |done] end.
  exists 4, 1%nat. split; [done|]. split; [done|]. split; [split; [done..| |]|].
  - cbn. lia.
  - intros [|[|i]] Hi; [by eexists..|cbn in Hi; lia].
  - intros [|[|i]] Hi; [by eexists..|cbn in Hi; lia].
Defined.
