(* ===== verification/Interleaving.v ===== *)
(** * queue/array_queue.rs: several threads on one queue

    Several threads on one queue of [crates/queue]: calls and returns at any time, the
    atomic accesses of [ArrayQueue] in any order, spurious failures of the weak
    compare-exchanges included. Every interleaving is the one of an atomic queue, no
    access is undefined, two threads never own one slot, and a thread that is left alone
    finishes its call, in eight accesses and six more for each spurious failure.

    The executions are those of at most [n] steps with [n] below the number of positions
    that 64-bit stamps tell apart: past it, a thread that has slept through all the laps
    takes an old stamp for a new one. *)
From stdpp Require Import functions.
From S2P Require Import Prelude.
From S2P Require Import ArrayQueue.
Import ArrayQueue.

(** ** The system *)

Record System (T : Type) := mkSystem { queue : ArrayQueue T; threads : list (Thread T) }.
Arguments mkSystem {T} _ _.
Arguments queue {T} _.
Arguments threads {T} _.

Inductive Event (T : Type) :=
| Called (i : nat) (op : Op T)
| Returned (i : nat) (a : Answer T).
Arguments Called {T} _ _.
Arguments Returned {T} _ _.

Inductive step {T} (s : System T) : option (Event T) → System T → Prop :=
| step_call i op :
    threads s !! i = Some Idle →
    step s (Some (Called i op)) (mkSystem (queue s) (<[i := start op]> (threads s)))
| step_run i t spurious q' t' :
    threads s !! i = Some t →
    run spurious (queue s) t = Some (q', t') →
    step s None (mkSystem q' (<[i := t']> (threads s)))
| step_return i a :
    threads s !! i = Some (Done a) →
    step s (Some (Returned i a)) (mkSystem (queue s) (<[i := Idle]> (threads s))).

(** [execution s events n s']: [n] steps from [s], with the calls and returns [events]. *)
Inductive execution {T} (s : System T) : list (Event T) → nat → System T → Prop :=
| execution_nil : execution s [] 0 s
| execution_step events n s1 e s2 :
    execution s events n s1 → step s1 e s2 → execution s (events ++ option_list e) (S n) s2.

(** A new queue of [capacity] slots and [n] threads outside any call. *)
Definition initial {T} (capacity : Z) (n : nat) : option (System T) :=
  q ← new capacity; Some (mkSystem q (replicate n Idle)).

(** ** The atomic queue *)

Inductive Call (T : Type) := Free | Pending (op : Op T) | Answered (a : Answer T).
Arguments Free {T}.
Arguments Pending {T} _.
Arguments Answered {T} _.

Record Atomic (T : Type) := mkAtomic { contents : list T; calls : list (Call T) }.
Arguments mkAtomic {T} _ _.
Arguments contents {T} _.
Arguments calls {T} _.

(** A pending call takes effect at once, at some moment before its return. *)
Inductive atomic_step {T} (c : nat) (a : Atomic T) : option (Event T) → Atomic T → Prop :=
| atomic_call i op :
    calls a !! i = Some Free →
    atomic_step c a (Some (Called i op)) (mkAtomic (contents a) (<[i := Pending op]> (calls a)))
| atomic_apply i op :
    calls a !! i = Some (Pending op) →
    atomic_step c a None
      (mkAtomic (spec c op (contents a)).1 (<[i := Answered (spec c op (contents a)).2]> (calls a)))
| atomic_return i r :
    calls a !! i = Some (Answered r) →
    atomic_step c a (Some (Returned i r)) (mkAtomic (contents a) (<[i := Free]> (calls a))).

Inductive atomic_execution {T} (c : nat) (a : Atomic T) : list (Event T) → Atomic T → Prop :=
| atomic_nil : atomic_execution c a [] a
| atomic_next events a1 e a2 :
    atomic_execution c a events a1 → atomic_step c a1 e a2 →
    atomic_execution c a (events ++ option_list e) a2.

(** ** Stamps of the positions of a bounded execution *)

Section stamps.
Context (c : nat) (lap : Z) (G : geometry c lap).
Abbreviation enc := (enc c lap).
Abbreviation laps := (W64 / lap).

Definition small (p : nat) : Prop := Z.of_nat p < Z.of_nat c * laps.

(** The position of a head or a tail. *)
Definition decode (s : Z) : nat := Z.to_nat (s / lap) * c + Z.to_nat (s `mod` lap).

Lemma decode_enc p : small p → decode (enc p) = p.
Proof.
  intros Hp. unfold decode, small in *. destruct (enc_low c lap G p 0) as [E1 E2]; [lia|].
  rewrite !Z.add_0_r in E1, E2. rewrite E1, E2.
  pose proof (Nat.div_mod_eq p c) as E. destruct (lap_facts c lap G) as (H1 & H2 & H3).
  assert (Z.of_nat (p `div` c) < laps).
  { assert (Z.of_nat p = Z.of_nat c * Z.of_nat (p `div` c) + Z.of_nat (p `mod` c)) by lia. nia. }
  rewrite Z.mod_small by lia. lia.
Qed.

Lemma small_le p r : small r → (p ≤ r)%nat → small p.
Proof. unfold small. lia. Qed.

Lemma small_inj p r : small p → small r → enc p = enc r → p = r.
Proof. intros Hp Hr E. by rewrite <-(decode_enc p), <-(decode_enc r), E by done. Qed.

(** What a slot is stamped for: the element to be written at a position, or the one
    that was. *)
Inductive Phase := Vacant (p : nat) | Filled (p : nat).
Definition position (ph : Phase) : nat := match ph with Vacant p | Filled p => p end.
Definition age (ph : Phase) : nat := match ph with Vacant p => 2 * p | Filled p => 2 * p + 1 end.
Definition stamp_of (ph : Phase) : Z := match ph with Vacant p => enc p | Filled p => enc p + 1 end.

Lemma stamp_not_next p r : (p `mod` c = r `mod` c)%nat → enc p ≠ enc r + 1.
Proof. intros E E'. destruct (enc_eq c lap G p r 0 1) as [H _]; lia. Qed.

(** The three comparisons of a stamp. *)
Lemma stamp_vacant p ph : small p → small (position ph) →
  (position ph `mod` c = p `mod` c)%nat → enc p = stamp_of ph → ph = Vacant p.
Proof.
  intros Hp Hph Hs E. destruct ph as [r|r]; cbn in *.
  - by rewrite (small_inj p r).
  - by apply stamp_not_next in E.
Qed.

Lemma stamp_filled p ph : small p → small (position ph) →
  (position ph `mod` c = p `mod` c)%nat → enc p + 1 = stamp_of ph → ph = Filled p.
Proof.
  intros Hp Hph Hs E. destruct ph as [r|r]; cbn in *.
  - by symmetry in E; apply stamp_not_next in E.
  - f_equal. symmetry. apply small_inj; [done..|lia].
Qed.

Lemma stamp_lap_behind p ph : small p → small (position ph + c) →
  (position ph `mod` c = p `mod` c)%nat → wrapping_add (stamp_of ph) lap = enc p + 1 →
  ∃ r, ph = Filled r ∧ p = (r + c)%nat.
Proof.
  intros Hp Hph Hs E. destruct ph as [r|r]; cbn in *.
  - rewrite (enc_lap_add c lap G) in E. apply stamp_not_next in E; [done|].
    by destruct (div_mod_lap c lap G r) as [-> _].
  - rewrite (enc_lap_add_filled c lap G) in E. exists r. split; [done|]. apply small_inj; [done..|lia].
Qed.

(** Positions of one slot differ by laps. *)
Lemma same_slot_lt p r : (p `mod` c = r `mod` c)%nat → (p < r)%nat → (p + c ≤ r)%nat.
Proof.
  intros E H. destruct (decide (p + c ≤ r)%nat) as [|Hn]; [done|exfalso].
  apply (slots_distinct c p r); [lia|done].
Qed.
End stamps.

(** ** The invariant *)

(** What the shared state does not say: every element ever pushed, in order, how many
    left the queue, where the tail is, and the phase of each slot. The log is one element
    ahead of the tail while a [force_push] has moved the head and not the tail. *)
Record Ghost (T : Type) := mkGhost {
  log : list T;
  popped : nat;
  reached : nat;
  phase : nat → Phase;
}.
Arguments mkGhost {T} _ _ _ _.
Arguments log {T} _.
Arguments popped {T} _.
Arguments reached {T} _.
Arguments phase {T} _ _.

Section invariant.
Context {T : Type} (c : nat) (lap : Z).
Abbreviation enc := (enc c lap).
Abbreviation decode := (decode c lap).
Implicit Types (q : ArrayQueue T) (g : Ghost T) (t u : Thread T).

Definition phase_at g (p : nat) : Phase := phase g (p `mod` c).
Definition value_at q (p : nat) : option T := s ← cell c q p; value s.

(** The slot that a thread owns, between its compare-exchange and its last store. *)
Definition owned t : option Phase :=
  match t with
  | PushWrite _ _ tl | PushPublish _ tl => Some (Vacant (decode tl))
  | ForceTail _ tl | ForceSwap _ tl | ForcePublish _ tl => Some (Filled (decode tl - c))
  | PopTake hd | PopRelease _ hd => Some (Filled (decode hd))
  | _ => None
  end.

(** Whether a thread is replacing the oldest element. *)
Definition forces t : bool :=
  match t with ForceTail _ _ | ForceSwap _ _ | ForcePublish _ _ => true | _ => false end.

(** What a thread knows: the stamp it loaded is not from the future, the slot it saw has
    not gone back, and the slot it owns does not move. *)
Definition knows g q t : Prop :=
  match t with
  | Idle | PushLoad _ _ | PopLoad | Done _ => True
  | PushInspect _ _ tl | PushFull _ tl => ∃ p, tl = enc p ∧ (p ≤ reached g)%nat
  | PushClaim _ _ tl => ∃ p, tl = enc p ∧ (p ≤ reached g)%nat ∧ (2 * p ≤ age (phase_at g p))%nat
  | PushWrite _ v tl => ∃ p, tl = enc p ∧ phase_at g p = Vacant p ∧ log g !! p = Some v
  | PushPublish _ tl => ∃ p, tl = enc p ∧ phase_at g p = Vacant p ∧
      (p < length (log g))%nat ∧ value_at q p = log g !! p
  | ForceClaim _ tl => ∃ p, tl = enc (p + c) ∧ (p + c ≤ reached g)%nat ∧
      (2 * p + 1 ≤ age (phase_at g p))%nat
  | ForceTail v tl => ∃ p, tl = enc (p + c) ∧ (p + c)%nat = reached g ∧
      length (log g) = S (reached g) ∧ (p < popped g)%nat ∧ phase_at g p = Filled p ∧
      value_at q p = log g !! p ∧ log g !! (p + c)%nat = Some v
  | ForceSwap v tl => ∃ p, tl = enc (p + c) ∧ (p < popped g)%nat ∧ phase_at g p = Filled p ∧
      value_at q p = log g !! p ∧ log g !! (p + c)%nat = Some v
  | ForcePublish old tl => ∃ p, tl = enc (p + c) ∧ (p < popped g)%nat ∧ phase_at g p = Filled p ∧
      (p + c < length (log g))%nat ∧ value_at q p = log g !! (p + c)%nat ∧ log g !! p = Some old
  | PopInspect hd => ∃ p, hd = enc p ∧ (p ≤ popped g)%nat
  | PopClaim hd => ∃ p, hd = enc p ∧ (p ≤ popped g)%nat ∧ (2 * p + 1 ≤ age (phase_at g p))%nat
  | PopTake hd => ∃ p, hd = enc p ∧ (p < popped g)%nat ∧ phase_at g p = Filled p ∧
      value_at q p = log g !! p
  | PopRelease msg hd => ∃ p, hd = enc p ∧ (p < popped g)%nat ∧ phase_at g p = Filled p ∧
      log g !! p = Some msg
  | PopEmpty hd => ∃ p, hd = enc p ∧ (p ≤ popped g)%nat ∧ (2 * p ≤ age (phase_at g p))%nat
  end.

(** The phases of a slot against the positions: one that is neither waiting for a push
    nor for a pop is owned, and an element stays in its slot until the next lap unless a
    [force_push] replaces it. *)
Definition slot_fits g q (ts : list (Thread T)) (j : nat) : Prop :=
  ∃ s, buffer q !! j = Some s ∧ stamp s = stamp_of c lap (phase g j) ∧
    (position (phase g j) `mod` c = j)%nat ∧
    match phase g j with
    | Vacant p => (popped g ≤ p < popped g + c)%nat ∧
        ((length (log g) ≤ p)%nat ∨ ∃ i t, ts !! i = Some t ∧ owned t = Some (Vacant p))
    | Filled p => (p < length (log g))%nat ∧ (popped g ≤ p + c)%nat ∧
        ((length (log g) ≤ p + c)%nat ∨
          ∃ i t, ts !! i = Some t ∧ owned t = Some (Filled p) ∧ forces t = true) ∧
        ((popped g ≤ p)%nat → value s = log g !! p) ∧
        ((popped g ≤ p)%nat ∨ ∃ i t, ts !! i = Some t ∧ owned t = Some (Filled p))
    end.

(** The tail against the log. *)
Definition tail_fits g (ts : list (Thread T)) : Prop :=
  length (log g) = reached g ∨
  length (log g) = S (reached g) ∧ (c ≤ reached g)%nat ∧
    phase_at g (reached g) = Filled (reached g - c) ∧
    ∃ i v, ts !! i = Some (ForceTail v (enc (reached g))).

Record Inv g (s : System T) : Prop := {
  inv_shape : shaped c lap (queue s);
  inv_head : head (queue s) = enc (popped g);
  inv_tail : tail (queue s) = enc (reached g);
  inv_length : (popped g ≤ length (log g) ≤ popped g + c)%nat;
  inv_small : small c lap (length (log g) + 2 * c);
  inv_window : tail_fits g (threads s);
  inv_slot : ∀ j, (j < c)%nat → slot_fits g (queue s) (threads s) j;
  inv_knows : ∀ i t, threads s !! i = Some t → knows g (queue s) t;
  inv_owned : ∀ i j t u ph, threads s !! i = Some t → threads s !! j = Some u →
    owned t = Some ph → owned u = Some ph → i = j;
}.

(** ** The call of a thread, seen from the atomic queue *)

Definition closure_op (f : Closure) (v : T) : Op T :=
  match f with RejectWhenFull => Push v | ReplaceOldest => ForcePush v end.

Definition progress (l : list T) t : Call T :=
  match t with
  | Idle => Free
  | PushLoad f v | PushInspect f v _ | PushClaim f v _ => Pending (closure_op f v)
  | PushWrite f _ _ | PushPublish f _ => Answered (pushed f)
  | PushFull v _ => Pending (Push v)
  | ForceClaim v _ => Pending (ForcePush v)
  | ForceTail _ tl | ForceSwap _ tl => Answered (Forced (l !! (decode tl - c)%nat))
  | ForcePublish old _ => Answered (Forced (Some old))
  | PopLoad | PopInspect _ | PopClaim _ | PopEmpty _ => Pending Pop
  | PopTake hd => Answered (Popped (l !! decode hd))
  | PopRelease msg _ => Answered (Popped (Some msg))
  | Done a => Answered a
  end.

(** The atomic queue of a state: the elements that have not left. *)
Definition abstraction g (s : System T) : Atomic T :=
  mkAtomic (list.drop (popped g) (log g)) (progress (log g) <$> threads s).

(** A later ghost state: more elements, slots further on. *)
Record later g g' : Prop := {
  later_log : log g `prefix_of` log g';
  later_popped : (popped g ≤ popped g')%nat;
  later_reached : (reached g ≤ reached g')%nat;
  later_phase : ∀ p, (age (phase_at g p) ≤ age (phase_at g' p))%nat;
}.

Lemma later_lookup g g' p x : later g g' → log g !! p = Some x → log g' !! p = Some x.
Proof. intros [H _ _ _] Hp. by eapply prefix_lookup_Some. Qed.

Lemma later_lookup_lt g g' p : later g g' → (p < length (log g))%nat → log g' !! p = log g !! p.
Proof. intros H [x Hx]%lookup_lt_is_Some. by rewrite Hx, (later_lookup g g' p x). Qed.

Lemma later_refl g : later g g.
Proof. split; [done|lia..]. Qed.
End invariant.

(** ** Preservation: what the other threads and slots need *)

Section frame.
Context {T : Type} (c : nat) (lap : Z) (G : geometry c lap).
Abbreviation enc := (enc c lap).
Abbreviation decode := (decode c lap).
Abbreviation owns := (@owned T c lap).
Implicit Types (q : ArrayQueue T) (g : Ghost T) (t u : Thread T).

Definition owner (ts : list (Thread T)) (ph : Phase) : Prop :=
  ∃ i t, ts !! i = Some t ∧ owns t = Some ph.

Lemma inv_le_small g s p : Inv c lap g s → (p ≤ length (log g) + 2 * c)%nat → small c lap p.
Proof. intros H. apply small_le. exact (inv_small _ _ _ _ H). Qed.

Lemma lookup_le_length {A} (l : list A) i x : l !! i = Some x → (i < length l)%nat.
Proof. apply lookup_lt_Some. Qed.

(** A position in a hypothesis of [knows]. *)
Ltac destruct_knows H :=
  cbn [knows] in H; repeat match type of H with
  | ex _ => let x := fresh "p" in destruct H as [x H]
  | _ ∧ _ => let H' := fresh "K" in destruct H as [H' H]
  end.

Ltac small_bound := eapply inv_le_small; [eassumption|];
  repeat match goal with
  | H : _ !! _ = Some _ |- _ => apply lookup_le_length in H
  | H : Inv _ _ _ _ |- _ => pose proof (inv_length _ _ _ _ H); clear H
  end; cbn in *; lia.

Lemma reached_le g s : Inv c lap g s → (reached g ≤ length (log g) ≤ S (reached g))%nat.
Proof. intros H. destruct (inv_window _ _ _ _ H) as [E|(E & _)]; lia. Qed.

(** The slot of an owner is in the phase it owns. *)
Lemma owned_knows g s t ph : Inv c lap g s → knows c lap g (queue s) t → owns t = Some ph →
  phase_at c g (position ph) = ph ∧ (position ph < length (log g))%nat ∧
  match ph with Vacant _ => True | Filled p => (p < popped g)%nat end.
Proof.
  intros HI Hk E. pose proof (inv_length _ _ _ _ HI) as Hl.
  destruct t; cbn in E; try discriminate E; injection E as <-; destruct_knows Hk; subst.
  all: rewrite decode_enc by (try done; small_bound); cbn [position].
  all: try replace (p + c - c)%nat with p by lia.
  all: split; [done|].
  all: try (apply lookup_le_length in Hk); split; done || lia.
Qed.

Lemma owned_phase g s i t ph : Inv c lap g s → threads s !! i = Some t → owns t = Some ph →
  phase_at c g (position ph) = ph ∧ (position ph < length (log g))%nat ∧
  match ph with Vacant _ => True | Filled p => (p < popped g)%nat end.
Proof. intros HI Hi. eapply owned_knows; [done|]. by eapply inv_knows. Qed.

Lemma owned_apart g s i j t u ph ph' : Inv c lap g s → i ≠ j →
  threads s !! i = Some t → threads s !! j = Some u → owns t = Some ph → owns u = Some ph' →
  (position ph `mod` c ≠ position ph' `mod` c)%nat.
Proof.
  intros HI Hne Hi Hj Ht Hu E. apply Hne. eapply (inv_owned _ _ _ _ HI); [done..|].
  destruct (owned_phase _ _ _ _ _ HI Hi Ht) as [E1 _], (owned_phase _ _ _ _ _ HI Hj Hu) as [E2 _].
  rewrite Hu. f_equal. unfold phase_at in *. rewrite E in E1. congruence.
Qed.

(** What a thread knows stays true when its slot is left alone and, in the middle of a
    [force_push], the tail and the log as well. *)
Lemma knows_later g g' s q' u : Inv c lap g s → knows c lap g (queue s) u → later c g g' →
  (∀ ph, owns u = Some ph → phase_at c g' (position ph) = phase_at c g (position ph) ∧
    value_at c q' (position ph) = value_at c (queue s) (position ph)) →
  (∀ v tl, u = ForceTail v tl → reached g' = reached g ∧ length (log g') = length (log g)) →
  knows c lap g' q' u.
Proof.
  intros HI Hk HL Hown Hforce. pose proof HL as [Hlog Hpop Hrea Hage].
  pose proof (inv_length _ _ _ _ HI) as Hl.
  destruct u; destruct_knows Hk; cbn [knows]; try done; subst.
  all: try (exists p; split; [done|];
    repeat split; try lia; specialize (Hage p); lia).
  all: cbn [owned] in Hown; rewrite decode_enc in Hown by (try done; small_bound).
  all: try replace (p + c - c)%nat with p in Hown by lia.
  all: destruct (Hown _ eq_refl) as [Hph Hval]; cbn [position] in *.
  all: exists p; rewrite Hph, ?Hval.
  all: try (pose proof (lookup_le_length _ _ _ Hk)).
  all: try (destruct (Hforce _ _ eq_refl) as [-> ->]).
  all: rewrite ?(later_lookup_lt c g g') by (try done; lia).
  all: repeat split; try done; try lia.
  all: apply prefix_length in Hlog; lia.
Qed.

(** The atomic call of a thread does not depend on later elements. *)
Lemma progress_later g g' s t : Inv c lap g s → knows c lap g (queue s) t → later c g g' →
  progress c lap (log g') t = progress c lap (log g) t.
Proof.
  intros HI Hk HL. pose proof (inv_length _ _ _ _ HI) as Hl.
  destruct t; cbn [progress]; try done; destruct_knows Hk; subst.
  all: rewrite decode_enc by (try done; small_bound).
  all: try replace (p + c - c)%nat with p by lia.
  all: rewrite (later_lookup_lt c g g'); [done|done|lia].
Qed.

Lemma owner_insert ts i t t' ph : ts !! i = Some t → owner ts ph →
  (owns t = Some ph → owns t' = Some ph) → owner (<[i := t']> ts) ph.
Proof.
  intros Hi (k & u & Hk & Hu) Ho. destruct (decide (k = i)) as [->|Hne].
  - simplify_eq. exists i, t'. rewrite list_lookup_insert_eq by (by eapply lookup_lt_Some).
    split; [done|]. by apply Ho.
  - exists k, u. by rewrite list_lookup_insert_ne.
Qed.

Lemma owner_new ts i t t' ph : ts !! i = Some t → owns t' = Some ph → owner (<[i := t']> ts) ph.
Proof.
  intros Hi Ht. exists i, t'. rewrite list_lookup_insert_eq by (by eapply lookup_lt_Some). done.
Qed.

(** The owner that replaces the element at a position. *)
Definition replacer (ts : list (Thread T)) (p : nat) : Prop :=
  ∃ i t, ts !! i = Some t ∧ owns t = Some (Filled p) ∧ forces t = true.

Lemma replacer_insert ts i t t' p : ts !! i = Some t → replacer ts p →
  (owns t = Some (Filled p) → forces t = true → owns t' = Some (Filled p) ∧ forces t' = true) →
  replacer (<[i := t']> ts) p.
Proof.
  intros Hi (k & u & Hk & Hu & Hf) Ho. destruct (decide (k = i)) as [->|Hne].
  - simplify_eq. exists i, t'. rewrite list_lookup_insert_eq by (by eapply lookup_lt_Some).
    split; [done|]. by apply Ho.
  - exists k, u. by rewrite list_lookup_insert_ne.
Qed.

(** A slot that is left alone. *)
Lemma slot_frame g g' q q' ts ts' j : slot_fits c lap g q ts j → later c g g' →
  buffer q' !! j = buffer q !! j → phase g' j = phase g j →
  (∀ p, phase g j = Vacant p → (p `mod` c)%nat = j → (popped g ≤ p < popped g + c)%nat →
    (length (log g) ≤ p)%nat ∨ owner ts (Vacant p) →
    (popped g' ≤ p)%nat ∧ ((length (log g') ≤ p)%nat ∨ owner ts' (Vacant p))) →
  (∀ p, phase g j = Filled p → (popped g ≤ p)%nat ∨ owner ts (Filled p) →
    (popped g' ≤ p)%nat ∨ owner ts' (Filled p)) →
  (∀ p, phase g j = Filled p → (p `mod` c)%nat = j → (popped g ≤ p + c)%nat →
    (length (log g) ≤ p + c)%nat ∨ replacer ts p →
    (popped g' ≤ p + c)%nat ∧ ((length (log g') ≤ p + c)%nat ∨ replacer ts' p)) →
  slot_fits c lap g' q' ts' j.
Proof.
  intros (s & Hs & Hst & Hpos & Hph) HL Hb Ep Hv Hf Hr. exists s. rewrite Hb, Ep.
  pose proof HL as [Hlog Hpop _ _]. apply prefix_length in Hlog.
  split; [done|]. split; [done|]. split; [done|].
  destruct (phase g j) as [p|p]; cbn in Hpos.
  - destruct Hph as [H1 H2]. destruct (Hv p eq_refl Hpos H1 H2) as [H3 H4]. split; [lia|done].
  - destruct Hph as (H1 & H2 & H3 & H4 & H5). destruct (Hr p eq_refl Hpos H2 H3) as [H6 H7].
    split; [lia|]. split; [done|]. split; [done|]. split; [|by apply Hf].
    intros Hle. rewrite (later_lookup_lt c g g'); [|done|done]. apply H4. lia.
Qed.

(** Every step of the thread [i]: the invariant from what the step changes. *)
Lemma inv_update g g' s i t t' q' : Inv c lap g s → threads s !! i = Some t →
  later c g g' → shaped c lap q' → head q' = enc (popped g') → tail q' = enc (reached g') →
  (popped g' ≤ length (log g') ≤ popped g' + c)%nat → small c lap (length (log g') + 2 * c) →
  tail_fits c lap g' (<[i := t']> (threads s)) →
  (∀ j, (j < c)%nat → slot_fits c lap g' q' (<[i := t']> (threads s)) j) →
  knows c lap g' q' t' →
  (∀ k u, k ≠ i → threads s !! k = Some u →
    (∀ ph, owns u = Some ph → phase_at c g' (position ph) = phase_at c g (position ph) ∧
      value_at c q' (position ph) = value_at c (queue s) (position ph)) ∧
    (∀ v tl, u = ForceTail v tl → reached g' = reached g ∧ length (log g') = length (log g)) ∧
    (∀ ph, owns t' = Some ph → owns u ≠ Some ph)) →
  Inv c lap g' (mkSystem q' (<[i := t']> (threads s))).
Proof.
  intros HI Hi HL Hq Hh Ht Hl Hs Hw Hslot Hk Hothers.
  assert (i < length (threads s))%nat as Hlt by (by eapply lookup_lt_Some).
  split; cbn [queue threads]; try done.
  - intros k u. destruct (decide (k = i)) as [->|Hne].
    + rewrite list_lookup_insert_eq by done. by intros [= <-].
    + rewrite list_lookup_insert_ne by done. intros Hu.
      destruct (Hothers k u Hne Hu) as (H1 & H2 & _).
      eapply knows_later; [done| |done..]. by eapply inv_knows.
  - intros k1 k2 u1 u2 ph Hk1 Hk2 Ho1 Ho2.
    destruct (decide (k1 = i)) as [->|Hn1], (decide (k2 = i)) as [->|Hn2]; try done.
    + rewrite list_lookup_insert_eq in Hk1 by done. rewrite list_lookup_insert_ne in Hk2 by done.
      injection Hk1 as <-. destruct (Hothers k2 u2 Hn2 Hk2) as (_ & _ & H3). by destruct (H3 ph).
    + rewrite list_lookup_insert_ne in Hk1 by done. rewrite list_lookup_insert_eq in Hk2 by done.
      injection Hk2 as <-. destruct (Hothers k1 u1 Hn1 Hk1) as (_ & _ & H3). by destruct (H3 ph).
    + rewrite list_lookup_insert_ne in Hk1, Hk2 by done. by eapply (inv_owned _ _ _ _ HI).
Qed.
End frame.

(** ** Preservation: the kinds of steps *)

Section steps.
Context {T : Type} (c : nat) (lap : Z) (G : geometry c lap).
Abbreviation enc := (enc c lap).
Abbreviation decode := (decode c lap).
Abbreviation owns := (@owned T c lap).
Abbreviation owner := (@owner T c lap).
Abbreviation replacer := (@replacer T c lap).
Implicit Types (q : ArrayQueue T) (g : Ghost T) (t u : Thread T).

Definition forcing t : Prop := ∃ v tl, t = ForceTail v tl.

(** The window of a [force_push] stays open while its thread does nothing. *)
Lemma tail_frame g g' ts i t t' : tail_fits c lap g ts → ts !! i = Some t → ¬ forcing t →
  log g' = log g → reached g' = reached g →
  (∀ k v, ts !! k = Some (ForceTail v (enc (reached g))) →
    phase_at c g' (reached g) = phase_at c g (reached g)) →
  tail_fits c lap g' (<[i := t']> ts).
Proof.
  intros [E|(E & Hc & Hp & k & v & Hk)] Hi Ht El Er Ep; unfold tail_fits; rewrite El, Er.
  - by left.
  - right. rewrite (Ep k v Hk). repeat split; [done..|]. exists k, v.
    rewrite list_lookup_insert_ne; [done|]. intros ->. simplify_eq. apply Ht. by eexists _, _.
Qed.

(** A load, or a compare-exchange that fails: nothing is shared. *)
Lemma silent_step g s i t t' : Inv c lap g s → threads s !! i = Some t → ¬ forcing t →
  owns t' = owns t → forces t' = forces t → knows c lap g (queue s) t' →
  Inv c lap g (mkSystem (queue s) (<[i := t']> (threads s))).
Proof.
  intros HI Hi Hf Ho Hfo Hk. pose proof HI as [Hq Hh Ht Hl Hs Hw Hslot Hkn Hown].
  eapply (inv_update c lap G g g); try done.
  - by eapply tail_frame.
  - intros j Hj. eapply (slot_frame c lap g g); [by apply Hslot|done..| | |].
    + intros p _ _ H [H'|H']; split; [lia|by left|lia|right].
      eapply owner_insert; [done|done|congruence].
    + intros p _ [H|H]; [by left|right]. eapply owner_insert; [done|done|congruence].
    + intros p _ _ H [H'|H']; (split; [done|]); [by left|right].
      eapply replacer_insert; [done|done|]. by rewrite Ho, Hfo.
  - intros k u Hne Hu. split; [done|]. split; [done|]. intros ph Ht' Hu'. apply Hne.
    rewrite Ho in Ht'. by eapply Hown.
Qed.

(** A thread rewrites the slot it owns, which it keeps or gives back in a phase that
    fits the positions. *)
Lemma owner_step g s i t t' ph ph' sl : Inv c lap g s → threads s !! i = Some t → ¬ forcing t →
  owns t = Some ph → (position ph' `mod` c = position ph `mod` c)%nat →
  (age ph ≤ age ph')%nat → stamp sl = stamp_of c lap ph' →
  (owns t' = Some ph ∧ forces t' = forces t ∧ ph' = ph ∨ owns t' = None ∧ match ph' with
    | Vacant p => (popped g ≤ p < popped g + c)%nat ∧ (length (log g) ≤ p)%nat
    | Filled p => (popped g ≤ p < length (log g))%nat
    end) →
  (∀ p, ph' = Filled p → (popped g ≤ p)%nat → value sl = log g !! p) →
  let q' := set_slot (queue s) (index_of (queue s) (enc (position ph))) sl in
  let g' := mkGhost (log g) (popped g) (reached g) (<[(position ph `mod` c)%nat := ph']> (phase g)) in
  knows c lap g' q' t' → Inv c lap g' (mkSystem q' (<[i := t']> (threads s))) ∧ later c g g'.
Proof.
  intros HI Hi Hf Ho Hpos Hage Hst Hph' Hval q' g' Hk.
  pose proof HI as [Hq Hh Ht Hl Hs Hw Hslot Hkn Hown].
  destruct (owned_phase c lap G _ _ _ _ _ HI Hi Ho) as (Ephase & Hlt & _).
  assert (∀ r, (position ph `mod` c ≠ r `mod` c)%nat → phase_at c g' r = phase_at c g r) as Hother.
  { intros r Hr. unfold phase_at, g'. cbn. by rewrite fn_lookup_insert_ne. }
  assert (phase g' (position ph `mod` c) = ph') as Hsame by (unfold g'; cbn; by rewrite fn_lookup_insert).
  assert (later c g g') as HL.
  { split; [done|done|done|]. intros r. destruct (decide (position ph `mod` c = r `mod` c)%nat) as [E|E].
    - unfold phase_at at 2. rewrite <-E, Hsame. unfold phase_at. rewrite <-E.
      unfold phase_at in Ephase. by rewrite Ephase.
    - by rewrite Hother. }
  split; [|done].
  eapply (inv_update c lap G g g'); try done.
  - by apply shaped_set_slot.
  - eapply (tail_frame g g'); [done..|]. intros k v Hkk. apply Hother. intros E.
    assert (k ≠ i) as Hne by (intros ->; simplify_eq; apply Hf; by eexists _, _).
    pose proof (inv_knows _ _ _ _ HI k _ Hkk) as (p & Ep & Er & _). cbn in Ep, Er.
    apply (owned_apart c lap G g s k i _ t _ ph HI Hne Hkk Hi eq_refl Ho). cbn [position].
    rewrite (decode_enc c lap G) by (eapply inv_le_small; [done|]; pose proof (reached_le _ _ _ _ HI); lia).
    rewrite E, <-Er. replace (p + c - c)%nat with p by lia. by destruct (div_mod_lap c lap G p) as [-> _].
  - intros j Hj. destruct (decide (j = position ph `mod` c)%nat) as [->|Hne].
    + exists sl. rewrite Hsame. split.
      { pose proof (cell_set_slot c lap G (queue s) (position ph) sl (position ph) Hq eq_refl) as E. exact E. }
      split; [done|]. split; [done|]. cbn [log popped g'].
      destruct Hph' as [(Ht' & Hfo & ->)|[Ht' Hp]].
      * destruct (Hslot (position ph `mod` c)%nat Hj) as (s0 & _ & _ & _ & Hs0).
        unfold phase_at in Ephase. rewrite Ephase in Hs0. pose proof (owner_new c lap _ _ _ _ _ Hi Ht') as Hnew.
        destruct ph as [p|p]; [by split; [apply Hs0|right]|].
        destruct Hs0 as (H1 & H2 & H3 & _). split; [done|]. split; [done|].
        split; [|split; [by apply Hval|by right]]. destruct H3 as [H3|H3]; [by left|right].
        eapply (replacer_insert c lap); [done|done|]. by rewrite Hfo.
      * destruct ph' as [p|p]; [split; [apply Hp|left; apply Hp]|].
        split; [lia|]. split; [lia|]. split; [left; lia|]. split; [by apply Hval|left; lia].
    + assert (phase g' j = phase g j) as Ej by (unfold g'; cbn; by rewrite fn_lookup_insert_ne).
      destruct (Hslot j Hj) as (s0 & _ & _ & Hpj & _).
      assert (phase g j ≠ ph) as Hneph by (intros <-; congruence).
      eapply (slot_frame c lap g g' (queue s)); [by apply Hslot|done| |done| | |].
      * unfold q'. rewrite (enc_set_slot c lap G) by done. cbn. by rewrite list_lookup_insert_ne.
      * intros p Ep _ Hp Hor. split; [cbn; lia|]. destruct Hor as [|Hor]; [by left|right].
        eapply owner_insert; [done|done|]. congruence.
      * intros p Ep [|Hor]; [by left|right]. eapply owner_insert; [done|done|]. congruence.
      * intros p Ep _ Hp [|Hor]; (split; [done|]); [by left|right].
        eapply replacer_insert; [done|done|]. congruence.
  - intros k u Hne Hu. split; [|split; [done|]].
    + intros ph0 Hu0. pose proof (owned_apart c lap G g s _ _ _ _ _ _ HI Hne Hu Hi Hu0 Ho) as Hap.
      split; [by apply Hother|]. unfold value_at, q'. by rewrite (cell_set_slot_ne c lap G).
    + intros ph0 Ht0 Hu0. apply Hne. destruct Hph' as [(Ht' & _ & ->)|[Ht' _]]; [|congruence].
      eapply Hown; [done..|congruence].
Qed.

(** The tail moves behind the head: the end of the window of a [force_push]. *)
Lemma force_tail_step g s i v tl : Inv c lap g s → threads s !! i = Some (ForceTail v tl) →
  let q' := set_tail (queue s) (enc (S (reached g))) in
  let g' := mkGhost (log g) (popped g) (S (reached g)) (phase g) in
  tl = enc (reached g) ∧ Inv c lap g' (mkSystem q' (<[i := ForceSwap v tl]> (threads s))) ∧ later c g g'.
Proof.
  intros HI Hi q' g'. pose proof HI as [Hq Hh Ht Hl Hs Hw Hslot Hkn Hown].
  pose proof (Hkn i _ Hi) as (p & -> & Er & El & Hp & Hph & Hval & Hlog).
  assert (later c g g') as HL by (split; [done|done|cbn; lia|done]).
  split; [by rewrite <-Er|]. split; [|done].
  eapply (inv_update c lap G g g'); try done.
  - by apply shaped_set_tail.
  - by left.
  - intros j Hj. eapply (slot_frame c lap g g' (queue s)); [by apply Hslot|done..| | |].
    + intros r _ _ Hr [|Hor]; (split; [cbn; lia|]); [by left|right].
      eapply owner_insert; [done|done|done].
    + intros r _ [|Hor]; [by left|right]. eapply owner_insert; [done|done|done].
    + intros r _ _ Hr [|Hor]; (split; [done|]); [by left|right].
      eapply replacer_insert; [done|done|done].
  - by exists p.
  - intros k u Hne Hu. split; [done|]. split.
    + intros v' tl' ->. exfalso. apply Hne. eapply Hown; [done..| |reflexivity].
      pose proof (Hkn k _ Hu) as (p' & -> & Er' & _). cbn. by rewrite Er, Er'.
    + intros ph Hph' Hu'. apply Hne. by eapply Hown.
Qed.

(** ** Claims *)

(** The slot of a position, with its phase. *)
Lemma slot_phase g s p : Inv c lap g s →
  slot_fits c lap g (queue s) (threads s) (p `mod` c) ∧ (position (phase_at c g p) `mod` c = p `mod` c)%nat.
Proof.
  intros HI. assert (slot_fits c lap g (queue s) (threads s) (p `mod` c)) as H.
  { apply (inv_slot _ _ _ _ HI). apply (slot_below c lap G). }
  split; [done|]. by destruct H as (? & _ & _ & H & _).
Qed.

(** A thread that saw the front filled finds it filled. *)
Lemma front_filled g s : Inv c lap g s → (2 * popped g + 1 ≤ age (phase_at c g (popped g)))%nat →
  phase_at c g (popped g) = Filled (popped g) ∧ (popped g < length (log g))%nat ∧
  value_at c (queue s) (popped g) = log g !! popped g.
Proof.
  intros HI Hage. destruct (slot_phase g s (popped g) HI) as [(sl & Hsl & _ & _ & Hph) Hpos].
  pose proof (inv_length _ _ _ _ HI) as Hl. unfold value_at, cell. rewrite Hsl. cbn [mbind option_bind].
  unfold phase_at in *. destruct (phase g (popped g `mod` c)) as [r|r]; cbn in Hage, Hpos.
  - pose proof (same_slot_lt c (popped g) r ltac:(done)). lia.
  - destruct Hph as (H1 & _ & _ & H2 & _). assert (r = popped g) as ->; [|by split; [|split; [|apply H2]]].
    destruct (decide (r = popped g)) as [|Hne]; [done|].
    pose proof (same_slot_lt c (popped g) r ltac:(done)). lia.
Qed.

(** The slots when the head passes the front, which [i] now owns. *)
Lemma slots_pass_front g g' s i t t' q' j : Inv c lap g s → threads s !! i = Some t → owns t = None →
  phase_at c g (popped g) = Filled (popped g) → later c g g' → popped g' = S (popped g) →
  phase g' = phase g → buffer q' = buffer (queue s) → owns t' = Some (Filled (popped g)) →
  (∀ r, (popped g ≤ r < popped g + c)%nat → (length (log g) ≤ r)%nat → (length (log g') ≤ r)%nat) →
  (length (log g') = length (log g) ∨
    forces t' = true ∧ length (log g) = (popped g + c)%nat ∧ length (log g') = S (popped g + c)) →
  (j < c)%nat → slot_fits c lap g' q' (<[i := t']> (threads s)) j.
Proof.
  intros HI Hi Ho Hfront HL Epop Eph Eb Ho' Hlog Hforce Hj. unfold phase_at in Hfront.
  eapply (slot_frame c lap g g' (queue s)); [by apply (inv_slot _ _ _ _ HI)|done|by rewrite Eb|by rewrite Eph| | |].
  - intros r Er Hrj Hr Hor. split.
    + rewrite Epop. destruct (decide (r = popped g)) as [->|]; [|lia]. congruence.
    + destruct Hor as [H|H]; [left; by apply Hlog|right].
      eapply owner_insert; [done|done|congruence].
  - intros r Er [H|H].
    + destruct (decide (r = popped g)) as [->|Hne]; [right; by eapply owner_new|left; lia].
    + right. eapply owner_insert; [done|done|congruence].
  - intros r Er Hrj Hr Hor. rewrite Epop. pose proof (slots_positive _ _ G) as Hc.
    assert (popped g ≠ r + c)%nat as Hne.
    { intros E. rewrite E in Hfront. destruct (div_mod_lap c lap G r) as [E' _].
      rewrite E', Hrj, Er in Hfront. injection Hfront as Hfront. lia. }
    split; [lia|]. destruct Hor as [H|H].
    + destruct Hforce as [->|(Hf & E & ->)]; [by left|].
      destruct (decide (r = popped g)) as [->|]; [right|left; lia].
      exists i, t'. by rewrite list_lookup_insert_eq by (by eapply lookup_lt_Some).
    + right. eapply replacer_insert; [done|done|congruence].
Qed.

Lemma pop_claim_step g s i t p : Inv c lap g s → threads s !! i = Some t → owns t = None → ¬ forcing t →
  (2 * p + 1 ≤ age (phase_at c g p))%nat → head (queue s) = enc p → (p ≤ popped g)%nat →
  let q' := set_head (queue s) (enc (S p)) in
  let g' := mkGhost (log g) (S (popped g)) (reached g) (phase g) in
  p = popped g ∧ (p < length (log g))%nat ∧
  Inv c lap g' (mkSystem q' (<[i := PopTake (enc p)]> (threads s))) ∧ later c g g'.
Proof.
  intros HI Hi Ho Hf Hage Ehead Hle q' g'. pose proof HI as [Hq Hh Ht Hl Hs Hw Hslot Hkn Hown].
  assert (p = popped g) as ->.
  { apply (small_inj c lap G); [eapply inv_le_small; [done|lia]..|congruence]. }
  destruct (front_filled g s HI Hage) as (Hfront & Hlt & Hval).
  assert (later c g g') as HL by (split; [done|cbn; lia|done|done]).
  assert (owns (PopTake (enc (popped g))) = Some (Filled (popped g))) as Ho'.
  { cbn. rewrite (decode_enc c lap G); [done|]. eapply inv_le_small; [done|lia]. }
  repeat (split; [done|]). split; [|done].
  eapply (inv_update c lap G g g'); try done.
  - by apply shaped_set_head.
  - cbn. lia.
  - by eapply (tail_frame g g').
  - intros j Hj. eapply (slots_pass_front g g'); [done..| |done]. by left.
  - exists (popped g). repeat (split; [done || (cbn; lia)|]). done.
  - intros k u Hne Hu. split; [done|]. split; [done|]. intros ph Hph Hu'.
    assert (ph = Filled (popped g)) as -> by congruence.
    destruct (owned_phase c lap G _ _ _ _ _ HI Hu Hu') as (_ & _ & H). lia.
Qed.

Lemma force_claim_step g s i t v p : Inv c lap g s → threads s !! i = Some t → owns t = None →
  (2 * p + 1 ≤ age (phase_at c g p))%nat → head (queue s) = enc p → (p + c ≤ reached g)%nat →
  small c lap (S (length (log g)) + 2 * c) →
  let q' := set_head (queue s) (enc (S p)) in
  let g' := mkGhost (log g ++ [v]) (S (popped g)) (reached g) (phase g) in
  p = popped g ∧ length (log g) = (p + c)%nat ∧
  Inv c lap g' (mkSystem q' (<[i := ForceTail v (enc (p + c))]> (threads s))) ∧ later c g g'.
Proof.
  intros HI Hi Ho Hage Ehead Hle Hsm q' g'. pose proof HI as [Hq Hh Ht Hl Hs Hw Hslot Hkn Hown].
  pose proof (reached_le c lap _ _ HI) as Hrl.
  assert (p = popped g) as ->.
  { apply (small_inj c lap G); [eapply inv_le_small; [done|lia]..|congruence]. }
  destruct (front_filled g s HI Hage) as (Hfront & Hlt & Hval).
  assert (reached g = popped g + c)%nat as Er by lia.
  assert (later c g g') as HL by (split; [by apply prefix_app_r|cbn; lia|done|done]).
  assert (owns (ForceTail v (enc (popped g + c))) = Some (Filled (popped g))) as Ho'.
  { cbn. rewrite (decode_enc c lap G) by (eapply inv_le_small; [done|lia]). do 2 f_equal. lia. }
  assert (length (log g') = S (length (log g))) as El by (cbn; rewrite length_app; cbn; lia).
  split; [done|]. split; [lia|]. split; [|done].
  eapply (inv_update c lap G g g'); try done.
  - by apply shaped_set_head.
  - rewrite El. cbn. lia.
  - by rewrite El.
  - right. rewrite El. cbn [reached g']. split; [lia|]. split; [lia|]. split.
    + rewrite Er, Nat.add_sub. unfold phase_at. cbn [phase g'].
      by destruct (div_mod_lap c lap G (popped g)) as [-> _].
    + exists i, v. rewrite list_lookup_insert_eq by (by eapply lookup_lt_Some). by rewrite Er.
  - intros j Hj. eapply (slots_pass_front g g'); [done..| | |done].
    + intros r Hr1 Hr2. lia.
    + right. split; [done|]. lia.
  - exists (popped g). rewrite El. cbn [reached popped log g'].
    split; [done|]. split; [lia|]. split; [lia|]. split; [lia|]. split; [done|].
    split; [by rewrite lookup_app_l by lia|]. rewrite lookup_app_r by lia.
    by replace (popped g + c - length (log g))%nat with 0%nat by lia.
  - intros k u Hne Hu. split; [done|]. split.
    + intros v' tl' ->. exfalso. pose proof (Hkn k _ Hu) as (p' & _ & _ & E' & _). lia.
    + intros ph Hph Hu'. assert (ph = Filled (popped g)) as -> by congruence.
      destruct (owned_phase c lap G _ _ _ _ _ HI Hu Hu') as (_ & _ & H). lia.
Qed.

(** A thread that saw the slot of the tail vacant finds it vacant, and no [force_push]
    on the way. *)
Lemma back_vacant g s : Inv c lap g s → (2 * reached g ≤ age (phase_at c g (reached g)))%nat →
  phase_at c g (reached g) = Vacant (reached g) ∧ length (log g) = reached g ∧
  (reached g < popped g + c)%nat.
Proof.
  intros HI Hage. destruct (slot_phase g s (reached g) HI) as [(sl & _ & _ & _ & Hph) Hpos].
  pose proof (inv_length _ _ _ _ HI) as Hl. pose proof (slots_positive _ _ G) as Hc.
  assert (length (log g) = reached g) as El.
  { destruct (inv_window _ _ _ _ HI) as [|(_ & H1 & H2 & _)]; [done|]. rewrite H2 in Hage. cbn in Hage. lia. }
  unfold phase_at in *. destruct (phase g (reached g `mod` c)) as [r|r]; cbn in Hage, Hpos; [|lia].
  destruct (decide (r = reached g)) as [->|Hne]; [split; [done|]; lia|].
  pose proof (same_slot_lt c (reached g) r ltac:(done)). lia.
Qed.

Lemma push_claim_step g s i t f v p : Inv c lap g s → threads s !! i = Some t → owns t = None →
  (2 * p ≤ age (phase_at c g p))%nat → tail (queue s) = enc p → (p ≤ reached g)%nat →
  small c lap (S (length (log g)) + 2 * c) →
  let q' := set_tail (queue s) (enc (S p)) in
  let g' := mkGhost (log g ++ [v]) (popped g) (S (reached g)) (phase g) in
  p = reached g ∧ length (log g) = p ∧ (p < popped g + c)%nat ∧
  Inv c lap g' (mkSystem q' (<[i := PushWrite f v (enc p)]> (threads s))) ∧ later c g g'.
Proof.
  intros HI Hi Ho Hage Etail Hle Hsm q' g'. pose proof HI as [Hq Hh Ht Hl Hs Hw Hslot Hkn Hown].
  pose proof (reached_le c lap _ _ HI) as Hrl.
  assert (p = reached g) as ->.
  { apply (small_inj c lap G); [eapply inv_le_small; [done|lia]..|congruence]. }
  destruct (back_vacant g s HI Hage) as (Hback & El0 & Hlt).
  assert (later c g g') as HL by (split; [by apply prefix_app_r|done|cbn; lia|done]).
  assert (owns (PushWrite f v (enc (reached g))) = Some (Vacant (reached g))) as Ho'.
  { cbn. rewrite (decode_enc c lap G); [done|]. eapply inv_le_small; [done|lia]. }
  assert (length (log g') = S (length (log g))) as El by (cbn; rewrite length_app; cbn; lia).
  repeat (split; [done|]). split; [|done].
  eapply (inv_update c lap G g g'); try done.
  - by apply shaped_set_tail.
  - rewrite El. cbn. lia.
  - by rewrite El.
  - left. rewrite El. cbn. lia.
  - intros j Hj. eapply (slot_frame c lap g g' (queue s)); [by apply Hslot|done..| | |].
    + intros r Er Hrj Hr Hor. split; [cbn; lia|]. rewrite El. destruct Hor as [H|H].
      * destruct (decide (r = reached g)) as [->|]; [right; by eapply owner_new|left; lia].
      * right. eapply owner_insert; [done|done|congruence].
    + intros r Er [H|H]; [by left|right]. eapply owner_insert; [done|done|congruence].
    + intros r Er Hrj Hr [H|H]; (split; [done|]); [left|right].
      * rewrite El. assert (reached g ≠ r + c)%nat; [|lia]. intros E. unfold phase_at in Hback.
        rewrite E in Hback. destruct (div_mod_lap c lap G r) as [E' _].
        by rewrite E', Hrj, Er in Hback.
      * eapply replacer_insert; [done|done|congruence].
  - exists (reached g). split; [done|]. split; [done|]. cbn [log g']. rewrite lookup_app_r by lia.
    by replace (reached g - length (log g))%nat with 0%nat by lia.
  - intros k u Hne Hu. split; [done|]. split.
    + intros v' tl' ->. exfalso. pose proof (Hkn k _ Hu) as (p' & _ & _ & E' & _). lia.
    + intros ph Hph Hu'. assert (ph = Vacant (reached g)) as -> by congruence.
      destruct (owned_phase c lap G _ _ _ _ _ HI Hu Hu') as (_ & H & _). cbn in H. lia.
Qed.
End steps.

(** ** Simulation: every access of a thread *)

Section simulation.
Context {T : Type} (c : nat) (lap : Z) (G : geometry c lap).
Abbreviation enc := (enc c lap).
Abbreviation decode := (decode c lap).
Abbreviation owns := (@owned T c lap).
Abbreviation progress := (progress c lap).
Implicit Types (q : ArrayQueue T) (g : Ghost T) (t u : Thread T).

Definition waiting g : list T := list.drop (popped g) (log g).

(** The step of a thread is nothing to the atomic queue, or the effect of its call. *)
Definition simulated g (s : System T) (i : nat) t (r : option (ArrayQueue T * Thread T)) : Prop :=
  ∃ q' t' g', r = Some (q', t') ∧ Inv c lap g' (mkSystem q' (<[i := t']> (threads s))) ∧
    later c g g' ∧ (length (log g') ≤ S (length (log g)))%nat ∧
    (waiting g' = waiting g ∧ progress (log g') t' = progress (log g) t ∨
     ∃ op, progress (log g) t = Pending op ∧ waiting g' = (spec c op (waiting g)).1 ∧
       progress (log g') t' = Answered (spec c op (waiting g)).2).

Section thread.
Context (g : Ghost T) (s : System T) (i : nat) (HI : Inv c lap g s).
Hypothesis room : small c lap (S (length (log g)) + 2 * c).

Lemma simulated_silent t t' : threads s !! i = Some t → ¬ forcing t → owns t' = owns t →
  forces t' = forces t → knows c lap g (queue s) t' → progress (log g) t' = progress (log g) t →
  simulated g s i t (Some (queue s, t')).
Proof.
  intros Hi Hf Ho Hfo Hk Hp. exists (queue s), t', g. split; [done|].
  split; [by eapply silent_step|]. split; [apply later_refl|]. split; [lia|]. by left.
Qed.

Lemma simulated_effect t t' op : threads s !! i = Some t → ¬ forcing t → owns t' = owns t →
  forces t' = forces t → knows c lap g (queue s) t' → progress (log g) t = Pending op →
  spec c op (waiting g) = (waiting g, match t' with Done a => a | _ => Pushed end) →
  progress (log g) t' = Answered (match t' with Done a => a | _ => Pushed end) →
  simulated g s i t (Some (queue s, t')).
Proof.
  intros Hi Hf Ho Hfo Hk Hp Hs Ha. exists (queue s), t', g. split; [done|].
  split; [by eapply silent_step|]. split; [apply later_refl|]. split; [lia|].
  right. exists op. by rewrite Hs.
Qed.

Lemma position_small p : (p ≤ length (log g) + 2 * c)%nat → small c lap p.
Proof. by eapply inv_le_small. Qed.

(** The slot that a stamp points at. *)
Lemma inspected p : (p ≤ length (log g) + c)%nat → ∃ sl, slot_at (queue s) (enc p) = Some sl ∧
  cell c (queue s) p = Some sl ∧ stamp sl = stamp_of c lap (phase_at c g p) ∧
  (position (phase_at c g p) `mod` c = p `mod` c)%nat ∧
  (position (phase_at c g p) ≤ length (log g) + c)%nat.
Proof.
  intros Hp. destruct (slot_phase c lap G g s p HI) as [(sl & Hsl & Hst & Hpos & Hph) _].
  pose proof (inv_length _ _ _ _ HI). exists sl.
  rewrite (slot_at_cell c lap G) by apply (inv_shape _ _ _ _ HI).
  repeat (split; [done|]). unfold phase_at in *. destruct (phase g (p `mod` c)); cbn; lia.
Qed.

Lemma waiting_length : length (waiting g) = (length (log g) - popped g)%nat.
Proof. apply length_drop. Qed.

Lemma waiting_front x : log g !! popped g = Some x → waiting g = x :: list.drop (S (popped g)) (log g).
Proof. intros H. unfold waiting. by apply drop_S. Qed.

Ltac not_forcing := intros (? & ? & ?); discriminate.

(** *** The loop of [push_or_else] *)

Lemma push_load_simulated b f v : threads s !! i = Some (PushLoad f v) →
  simulated g s i (PushLoad f v) (push_or_else_step b (queue s) (PushLoad f v)).
Proof.
  intros Hi. apply simulated_silent; [done|not_forcing|done..| |done].
  exists (reached g). by rewrite (inv_tail _ _ _ _ HI).
Qed.

Lemma push_inspect_simulated b f v tl : threads s !! i = Some (PushInspect f v tl) →
  simulated g s i (PushInspect f v tl) (push_or_else_step b (queue s) (PushInspect f v tl)).
Proof.
  intros Hi. pose proof (inv_knows _ _ _ _ HI i _ Hi) as (p & -> & Hp).
  pose proof (reached_le c lap _ _ HI) as Hr. pose proof (inv_length _ _ _ _ HI) as Hl.
  destruct (inspected p) as (sl & Hsl & _ & Hst & Hpos & Hle); [lia|].
  cbn. rewrite Hsl. cbn. rewrite Hst, (shaped_lap _ _ _ (inv_shape _ _ _ _ HI)).
  destruct (Z.eqb_spec (enc p) (stamp_of c lap (phase_at c g p))) as [E|_].
  - apply (stamp_vacant c lap G) in E; [|apply position_small; lia..|done].
    apply simulated_silent; [done|not_forcing|done..| |done]. exists p. rewrite E. cbn. lia.
  - destruct (Z.eqb_spec (wrapping_add (stamp_of c lap (phase_at c g p)) lap) (enc p + 1)) as [E|_].
    + apply (stamp_lap_behind c lap G) in E; [|apply position_small; lia..|done].
      destruct E as (r & E & ->). destruct f; (apply simulated_silent; [done|not_forcing|done..| |done]).
      * by exists (r + c)%nat.
      * exists r. split; [done|]. split; [done|]. unfold phase_at in *.
        destruct (div_mod_lap c lap G r) as [Em _]. rewrite Em in E. rewrite E. cbn. lia.
    + by apply simulated_silent; [|not_forcing|..].
Qed.

Lemma push_claim_simulated b f v tl : threads s !! i = Some (PushClaim f v tl) →
  simulated g s i (PushClaim f v tl) (push_or_else_step b (queue s) (PushClaim f v tl)).
Proof.
  intros Hi. pose proof (inv_knows _ _ _ _ HI i _ Hi) as (p & -> & Hp & Hage). cbn.
  destruct (Z.eqb_spec (tail (queue s)) (enc p)) as [E|_]; cbn; [destruct b; cbn|].
  2: { rewrite (enc_advance c lap G) by apply (inv_shape _ _ _ _ HI).
       destruct (push_claim_step c lap G g s i _ f v p HI Hi eq_refl Hage E Hp room) as (-> & El & Hlt & HI' & HL).
       eexists _, _, _. split; [done|]. split; [done|]. split; [done|].
       split; [cbn; rewrite length_app; cbn; lia|]. right. exists (closure_op f v). split; [done|].
       pose proof (inv_length _ _ _ _ HI). unfold waiting. cbn. rewrite drop_app_le by lia.
       assert (length (list.drop (popped g) (log g)) ≠ c) as Hne by (rewrite length_drop; lia).
       by destruct f; cbn; rewrite bool_decide_false by done. }
  all: apply simulated_silent; [done|not_forcing|done..| |done].
  all: exists (reached g); by rewrite (inv_tail _ _ _ _ HI).
Qed.

Lemma index_of_lap q p : shaped c lap q → index_of q (enc (p + c)) = index_of q (enc p).
Proof.
  intros Hq. unfold index_of. rewrite (shaped_lap _ _ _ Hq), !(enc_index c lap G).
  by destruct (div_mod_lap c lap G p) as [-> _].
Qed.

(** A slot that its owner has written. *)
Lemma written q p sl : shaped c lap q →
  value_at c (set_slot q (index_of q (enc p)) sl) p = value sl.
Proof. intros Hq. unfold value_at. by rewrite (cell_set_slot c lap G). Qed.

Lemma push_write_simulated b f v tl : threads s !! i = Some (PushWrite f v tl) →
  simulated g s i (PushWrite f v tl) (push_or_else_step b (queue s) (PushWrite f v tl)).
Proof.
  intros Hi. pose proof (inv_knows _ _ _ _ HI i _ Hi) as (p & -> & Hph & Hlog).
  pose proof (lookup_le_length _ _ _ Hlog) as Hlt. pose proof (inv_shape _ _ _ _ HI) as Hq.
  destruct (inspected p) as (sl & Hsl & _ & Hst & _); [lia|]. cbn. rewrite Hsl. cbn.
  assert (owns (PushWrite f v (enc p)) = Some (Vacant p)) as Ho.
  { cbn. rewrite (decode_enc c lap G); [done|]. apply position_small. lia. }
  assert (owns (PushPublish f (enc p)) = Some (Vacant p)) as Ho' by exact Ho.
  destruct (owner_step c lap G g s i _ (PushPublish f (enc p)) (Vacant p) (Vacant p) (mkSlot (stamp sl) (Some v))
    HI Hi) as [HI' HL]; [not_forcing|done|done|done|by rewrite <-Hph|by left|done| |].
  { exists p. split; [done|]. split; [apply fn_lookup_insert|]. split; [done|]. cbn [position log].
    by rewrite written. }
  eexists _, _, _. split; [done|]. split; [done|]. split; [done|]. cbn. split; [lia|]. by left.
Qed.

Lemma push_publish_simulated b f tl : threads s !! i = Some (PushPublish f tl) →
  simulated g s i (PushPublish f tl) (push_or_else_step b (queue s) (PushPublish f tl)).
Proof.
  intros Hi. pose proof (inv_knows _ _ _ _ HI i _ Hi) as (p & -> & Hph & Hlt & Hval).
  pose proof (inv_shape _ _ _ _ HI) as Hq.
  destruct (inspected p) as (sl & Hsl & Hcell & _); [lia|]. cbn. rewrite Hsl. cbn.
  assert (popped g ≤ p)%nat as Hpop.
  { destruct (slot_phase c lap G g s p HI) as [(? & _ & _ & _ & Hs) _]. unfold phase_at in Hph.
    rewrite Hph in Hs. lia. }
  destruct (owner_step c lap G g s i _ (Done (pushed f)) (Vacant p) (Filled p) (mkSlot (enc p + 1) (value sl))
    HI Hi) as [HI' HL]; [not_forcing| |done|cbn; lia|done|by right| |done|].
  { cbn. rewrite (decode_enc c lap G); [done|]. apply position_small. lia. }
  { intros r [= <-] _. unfold value_at in Hval. by rewrite Hcell in Hval. }
  eexists _, _, _. split; [done|]. split; [done|]. split; [done|]. cbn. split; [lia|]. by left.
Qed.

(** *** The closures *)

Lemma push_full_simulated v tl : threads s !! i = Some (PushFull v tl) →
  simulated g s i (PushFull v tl) (push_step (queue s) (PushFull v tl)).
Proof.
  intros Hi. pose proof (inv_knows _ _ _ _ HI i _ Hi) as (p & -> & Hp). cbn.
  pose proof (reached_le c lap _ _ HI) as Hr. pose proof (inv_length _ _ _ _ HI) as Hl.
  rewrite (shaped_lap _ _ _ (inv_shape _ _ _ _ HI)), (inv_head _ _ _ _ HI), (enc_lap_add c lap G).
  destruct (Z.eqb_spec (enc (popped g + c)) (enc p)) as [E|_].
  - apply (small_inj c lap G) in E; [|apply position_small; lia..].
    eapply simulated_effect; [done|not_forcing|done|done|done|done| |done]. cbn [spec].
    by rewrite bool_decide_true by (rewrite waiting_length; lia).
  - by apply simulated_silent; [|not_forcing|..].
Qed.

Lemma force_claim_simulated b v tl : threads s !! i = Some (ForceClaim v tl) →
  simulated g s i (ForceClaim v tl) (force_push_step b (queue s) (ForceClaim v tl)).
Proof.
  intros Hi. pose proof (inv_knows _ _ _ _ HI i _ Hi) as (p & -> & Hp & Hage). cbn.
  pose proof (inv_shape _ _ _ _ HI) as Hq.
  rewrite (enc_advance c lap G), (shaped_lap _ _ _ Hq) by done.
  change (S (p + c)) with (S p + c)%nat. rewrite !(enc_lap_sub c lap G).
  destruct (Z.eqb_spec (head (queue s)) (enc p)) as [E|_]; cbn [andb]; [destruct b; cbn [negb]|].
  2: { destruct (force_claim_step c lap G g s i _ v p HI Hi eq_refl Hage E Hp room) as (-> & El & HI' & HL).
       eexists _, _, _. split; [done|]. split; [done|]. split; [done|].
       split; [cbn; rewrite length_app; cbn; lia|]. right. exists (ForcePush v). split; [done|].
       pose proof (slots_positive _ _ G) as Hc.
       destruct (lookup_lt_is_Some_2 (log g) (popped g)) as [x Hx]; [lia|].
       rewrite (waiting_front x Hx). cbn [spec waiting popped log].
       rewrite bool_decide_true by (cbn; rewrite length_drop; lia). cbn [fst snd].
       split; [unfold waiting; cbn [popped log]; rewrite drop_app_le by lia; done|].
       cbn. rewrite (decode_enc c lap G) by (apply position_small; lia).
       rewrite Nat.add_sub, lookup_app_l by lia. by rewrite Hx. }
  all: by apply simulated_silent; [|not_forcing|..].
Qed.

Lemma force_tail_simulated b v tl : threads s !! i = Some (ForceTail v tl) →
  simulated g s i (ForceTail v tl) (force_push_step b (queue s) (ForceTail v tl)).
Proof.
  intros Hi. destruct (force_tail_step c lap G g s i v tl HI Hi) as (-> & HI' & HL). cbn.
  rewrite (enc_advance c lap G) by apply (inv_shape _ _ _ _ HI).
  eexists _, _, _. split; [done|]. split; [done|]. split; [done|]. cbn. split; [lia|]. by left.
Qed.

Lemma force_swap_simulated b v tl : threads s !! i = Some (ForceSwap v tl) →
  simulated g s i (ForceSwap v tl) (force_push_step b (queue s) (ForceSwap v tl)).
Proof.
  intros Hi. pose proof (inv_knows _ _ _ _ HI i _ Hi) as (p & -> & Hp & Hph & Hval & Hlog).
  pose proof (lookup_le_length _ _ _ Hlog) as Hlt. pose proof (inv_shape _ _ _ _ HI) as Hq.
  destruct (inspected p) as (sl & Hsl & Hcell & Hst & _); [lia|].
  rewrite Hph in Hst. unfold value_at in Hval. rewrite Hcell in Hval. cbn in Hval.
  destruct (lookup_lt_is_Some_2 (log g) p) as [x Hx]; [lia|]. rewrite Hx in Hval.
  cbn. unfold slot_at in *. rewrite index_of_lap, Hsl by done. cbn. rewrite Hval. cbn.
  assert (owns (ForceSwap v (enc (p + c))) = Some (Filled p)) as Ho.
  { cbn. rewrite (decode_enc c lap G) by (apply position_small; lia). by rewrite Nat.add_sub. }
  destruct (owner_step c lap G g s i _ (ForcePublish x (enc (p + c))) (Filled p) (Filled p)
    (mkSlot (stamp sl) (Some v)) HI Hi) as [HI' HL]; [not_forcing|done..|by left| | |].
  { intros r [= <-] H. lia. }
  { exists p. split; [done|]. split; [done|]. split; [apply fn_lookup_insert|]. split; [done|].
    split; [|done]. cbn [log position]. by rewrite written. }
  eexists _, _, _. split; [done|]. split; [done|]. split; [done|]. cbn. split; [lia|]. left.
  split; [done|]. rewrite (decode_enc c lap G) by (apply position_small; lia). by rewrite Nat.add_sub, Hx.
Qed.

Lemma force_publish_simulated b old tl : threads s !! i = Some (ForcePublish old tl) →
  simulated g s i (ForcePublish old tl) (force_push_step b (queue s) (ForcePublish old tl)).
Proof.
  intros Hi. pose proof (inv_knows _ _ _ _ HI i _ Hi) as (p & -> & Hp & Hph & Hlt & Hval & Hlog).
  pose proof (inv_shape _ _ _ _ HI) as Hq. destruct (div_mod_lap c lap G p) as [Em _].
  destruct (inspected p) as (sl & Hsl & Hcell & _); [lia|].
  cbn. unfold slot_at in *. rewrite index_of_lap, Hsl by done. cbn.
  assert (popped g ≤ p + c)%nat as Hpop.
  { destruct (slot_phase c lap G g s p HI) as [(? & _ & _ & _ & Hs) _]. unfold phase_at in Hph.
    rewrite Hph in Hs. lia. }
  destruct (owner_step c lap G g s i _ (Done (Forced (Some old))) (Filled p) (Filled (p + c))
    (mkSlot (enc (p + c) + 1) (value sl)) HI Hi) as [HI' HL];
    [not_forcing| |done|cbn; lia|done|by right| |done|].
  { cbn. rewrite (decode_enc c lap G) by (apply position_small; lia). by rewrite Nat.add_sub. }
  { intros r [= <-] _. unfold value_at in Hval. by rewrite Hcell in Hval. }
  eexists _, _, _. split; [done|]. split; [done|]. split; [done|]. cbn. split; [lia|]. by left.
Qed.

(** *** The loop of [pop] *)

Lemma pop_inspect_simulated b hd : threads s !! i = Some (PopInspect hd) →
  simulated g s i (PopInspect hd) (pop_step b (queue s) (PopInspect hd)).
Proof.
  intros Hi. pose proof (inv_knows _ _ _ _ HI i _ Hi) as (p & -> & Hp).
  pose proof (inv_length _ _ _ _ HI) as Hl.
  destruct (inspected p) as (sl & Hsl & _ & Hst & Hpos & Hle); [lia|].
  cbn. rewrite Hsl. cbn. rewrite Hst.
  destruct (Z.eqb_spec (enc p + 1) (stamp_of c lap (phase_at c g p))) as [E|_].
  - apply (stamp_filled c lap G) in E; [|apply position_small; lia..|done].
    apply simulated_silent; [done|not_forcing|done..| |done]. exists p. rewrite E. cbn. lia.
  - destruct (Z.eqb_spec (stamp_of c lap (phase_at c g p)) (enc p)) as [E|_].
    + symmetry in E. apply (stamp_vacant c lap G) in E; [|apply position_small; lia..|done].
      apply simulated_silent; [done|not_forcing|done..| |done]. exists p. rewrite E. cbn. lia.
    + by apply simulated_silent; [|not_forcing|..].
Qed.

Lemma pop_claim_simulated b hd : threads s !! i = Some (PopClaim hd) →
  simulated g s i (PopClaim hd) (pop_step b (queue s) (PopClaim hd)).
Proof.
  intros Hi. pose proof (inv_knows _ _ _ _ HI i _ Hi) as (p & -> & Hp & Hage). cbn.
  destruct (Z.eqb_spec (head (queue s)) (enc p)) as [E|_]; cbn [andb]; [destruct b; cbn [negb]|].
  2: { rewrite (enc_advance c lap G) by apply (inv_shape _ _ _ _ HI).
       destruct (pop_claim_step c lap G g s i _ p HI Hi eq_refl ltac:(not_forcing) Hage E Hp) as (-> & Hlt & HI' & HL).
       eexists _, _, _. split; [done|]. split; [done|]. split; [done|].
       split; [cbn; lia|]. right. exists Pop. split; [done|].
       destruct (lookup_lt_is_Some_2 (log g) (popped g)) as [x Hx]; [lia|].
       rewrite (waiting_front x Hx). split; [done|]. cbn.
       rewrite (decode_enc c lap G) by (apply position_small; lia). by rewrite Hx. }
  all: apply simulated_silent; [done|not_forcing|done..| |done].
  all: exists (popped g); by rewrite (inv_head _ _ _ _ HI).
Qed.

Lemma pop_take_simulated b hd : threads s !! i = Some (PopTake hd) →
  simulated g s i (PopTake hd) (pop_step b (queue s) (PopTake hd)).
Proof.
  intros Hi. pose proof (inv_knows _ _ _ _ HI i _ Hi) as (p & -> & Hp & Hph & Hval).
  pose proof (inv_length _ _ _ _ HI) as Hl.
  destruct (inspected p) as (sl & Hsl & Hcell & _); [lia|].
  unfold value_at in Hval. rewrite Hcell in Hval. cbn in Hval.
  destruct (lookup_lt_is_Some_2 (log g) p) as [x Hx]; [lia|]. rewrite Hx in Hval.
  cbn. rewrite Hsl. cbn. rewrite Hval. cbn.
  apply simulated_silent; [done|not_forcing|done..| |]; [by exists p|].
  cbn. by rewrite (decode_enc c lap G), Hx by (apply position_small; lia).
Qed.

Lemma pop_release_simulated b msg hd : threads s !! i = Some (PopRelease msg hd) →
  simulated g s i (PopRelease msg hd) (pop_step b (queue s) (PopRelease msg hd)).
Proof.
  intros Hi. pose proof (inv_knows _ _ _ _ HI i _ Hi) as (p & -> & Hp & Hph & Hlog).
  pose proof (inv_length _ _ _ _ HI) as Hl. pose proof (inv_shape _ _ _ _ HI) as Hq.
  destruct (inspected p) as (sl & Hsl & _); [lia|]. cbn. rewrite Hsl. cbn.
  rewrite (shaped_lap _ _ _ Hq), (enc_lap_add c lap G).
  assert (owns (PopRelease msg (enc p)) = Some (Filled p)) as Ho.
  { cbn. rewrite (decode_enc c lap G); [done|]. apply position_small. lia. }
  assert (popped g ≤ p + c ∧ length (log g) ≤ p + c)%nat as [H1 H2].
  { destruct (slot_phase c lap G g s p HI) as [(? & _ & _ & _ & Hs) _]. unfold phase_at in Hph.
    rewrite Hph in Hs. destruct Hs as (_ & H1 & H2 & _). split; [done|].
    destruct H2 as [|(k & u & Hu & Hou & Hf)]; [done|exfalso].
    assert (k = i) as -> by (by eapply (inv_owned _ _ _ _ HI)). by simplify_eq. }
  destruct (owner_step c lap G g s i _ (Done (Popped (Some msg))) (Filled p) (Vacant (p + c))
    (mkSlot (enc (p + c)) (value sl)) HI Hi) as [HI' HL]; [not_forcing|done| | |done| |done|done|].
  { cbn. by destruct (div_mod_lap c lap G p) as [-> _]. }
  { cbn. pose proof (slots_positive _ _ G). lia. }
  { right. split; [done|]. lia. }
  eexists _, _, _. split; [done|]. split; [done|]. split; [done|]. cbn. split; [lia|]. by left.
Qed.

Lemma pop_empty_simulated b hd : threads s !! i = Some (PopEmpty hd) →
  simulated g s i (PopEmpty hd) (pop_step b (queue s) (PopEmpty hd)).
Proof.
  intros Hi. pose proof (inv_knows _ _ _ _ HI i _ Hi) as (p & -> & Hp & Hage). cbn.
  pose proof (reached_le c lap _ _ HI) as Hr. pose proof (inv_length _ _ _ _ HI) as Hl.
  rewrite (inv_tail _ _ _ _ HI).
  destruct (Z.eqb_spec (enc (reached g)) (enc p)) as [E|_].
  - apply (small_inj c lap G) in E; [|apply position_small; lia..]. subst p.
    destruct (back_vacant c lap G g s HI Hage) as (_ & El & _).
    eapply simulated_effect; [done|not_forcing|done|done|done|done| |done]. cbn [spec].
    assert (waiting g = []) as ->; [|done]. apply nil_length_inv. rewrite waiting_length. lia.
  - by apply simulated_silent; [|not_forcing|..].
Qed.

(** Every access of a thread inside a call is defined and simulated. *)
Lemma run_simulated b t : threads s !! i = Some t → t ≠ Idle → (∀ a, t ≠ Done a) →
  simulated g s i t (run b (queue s) t).
Proof.
  intros Hi Hidle Hdone.
  destruct t; cbn [run]; eauto using push_load_simulated, push_inspect_simulated, push_claim_simulated,
    push_write_simulated, push_publish_simulated, push_full_simulated, force_claim_simulated,
    force_tail_simulated, force_swap_simulated, force_publish_simulated, pop_inspect_simulated,
    pop_claim_simulated, pop_take_simulated, pop_release_simulated, pop_empty_simulated.
  - done.
  - apply simulated_silent; [done|not_forcing|done..| |done].
    exists (popped g). by rewrite (inv_head _ _ _ _ HI).
  - by destruct (Hdone a).
Qed.
End thread.
End simulation.

(** ** Executions *)

Section executions.
Context {T : Type} (c : nat) (lap : Z) (G : geometry c lap).
Abbreviation enc := (enc c lap).
Abbreviation owns := (@owned T c lap).
Implicit Types (q : ArrayQueue T) (g : Ghost T) (s : System T) (t u : Thread T).

(** The calls of a state after the step of one thread. *)
Lemma abstraction_step g g' s i t t' q' : Inv c lap g s → threads s !! i = Some t → later c g g' →
  abstraction c lap g' (mkSystem q' (<[i := t']> (threads s))) =
  mkAtomic (waiting g') (<[i := progress c lap (log g') t']> (progress c lap (log g) <$> threads s)).
Proof.
  intros HI Hi HL. unfold abstraction, waiting. cbn [threads]. f_equal.
  apply list_eq. intros k. rewrite list_lookup_fmap.
  destruct (decide (k = i)) as [->|Hne].
  - assert (i < length (threads s))%nat by (by eapply lookup_lt_Some).
    rewrite !list_lookup_insert_eq by (rewrite ?length_fmap; done). done.
  - rewrite !list_lookup_insert_ne, list_lookup_fmap by done.
    destruct (threads s !! k) as [u|] eqn:Hu; [|done]. cbn. f_equal.
    eapply progress_later; [done|done| |done]. by eapply inv_knows.
Qed.

Lemma abstraction_stays g s i t t' : progress c lap (log g) t' = progress c lap (log g) t →
  threads s !! i = Some t →
  <[i := progress c lap (log g) t']> (progress c lap (log g) <$> threads s) =
  progress c lap (log g) <$> threads s.
Proof. intros -> Hi. apply list_insert_id. by rewrite list_lookup_fmap, Hi. Qed.

(** One step of the system is at most one step of the atomic queue. *)
Lemma step_simulated g s e s' : Inv c lap g s → small c lap (S (length (log g)) + 2 * c) → step s e s' →
  ∃ g', Inv c lap g' s' ∧ (length (log g') ≤ S (length (log g)))%nat ∧
    (abstraction c lap g' s' = abstraction c lap g s ∧ e = None ∨
     atomic_step c (abstraction c lap g s) e (abstraction c lap g' s')).
Proof.
  intros HI Hroom Hstep. pose proof (later_refl c g) as HL.
  destruct Hstep as [i op Hi|i t b q' t' Hi E|i a Hi].
  - exists g. assert (owns (start op) = None ∧ forces (start op) = false ∧
      knows c lap g (queue s) (start op) ∧ progress c lap (log g) (start op) = Pending op) as (H1 & H2 & H3 & H4) by by destruct op.
    split; [eapply silent_step; [done..| |done|done|done]; by intros (? & ? & ?)|]. split; [lia|]. right.
    rewrite (abstraction_step g g s i Idle), H4 by done.
    apply (atomic_call _ (abstraction c lap g s) i op). cbn. by rewrite list_lookup_fmap, Hi.
  - destruct (run_simulated c lap G g s i HI Hroom b t Hi) as (q1 & t1 & g' & E1 & HI' & HL' & Hlen & Hsim).
    { intros ->. discriminate E. }
    { intros a ->. discriminate E. }
    rewrite E in E1. injection E1 as <- <-. exists g'. split; [done|]. split; [done|].
    rewrite (abstraction_step g g' s i t) by done.
    assert (progress c lap (log g') t' = progress c lap (log g) t →
      <[i := progress c lap (log g') t']> (progress c lap (log g) <$> threads s) = progress c lap (log g) <$> threads s) as Hid.
    { intros ->. apply list_insert_id. by rewrite list_lookup_fmap, Hi. }
    destruct Hsim as [[Hw Hp]|(op & Hp & Hw & Ha)]; [left|right].
    + rewrite Hw, Hid by done. done.
    + rewrite Hw, Ha. apply (atomic_apply _ (abstraction c lap g s) i op). cbn. by rewrite list_lookup_fmap, Hi, <-Hp.
  - exists g. split; [eapply silent_step; [done..| |done|done|done]; by intros (? & ? & ?)|]. split; [lia|]. right.
    rewrite (abstraction_step g g s i (Done a)) by done.
    apply (atomic_return _ (abstraction c lap g s) i a). cbn. by rewrite list_lookup_fmap, Hi.
Qed.

(** An execution that stays below the wrap of the stamps. *)
Lemma execution_simulated s0 g0 events n s : Inv c lap g0 s0 → log g0 = [] →
  execution s0 events n s → small c lap (n + 2 * c) →
  ∃ g, Inv c lap g s ∧ (length (log g) ≤ n)%nat ∧
    atomic_execution c (abstraction c lap g0 s0) events (abstraction c lap g s).
Proof.
  intros HI0 E0 Hex. induction Hex as [|events n s1 e s2 Hex IH Hstep]; intros Hsm.
  { exists g0. split; [done|]. rewrite E0. split; [done|]. constructor. }
  destruct IH as (g & HI & Hlen & Hat); [eapply small_le; [done|lia]|].
  destruct (step_simulated g s1 e s2 HI) as (g' & HI' & Hlen' & Hsim); [eapply small_le; [done|lia]|done|].
  exists g'. split; [done|]. split; [lia|]. destruct Hsim as [[Ha ->]|Ha].
  - cbn [option_list]. by rewrite app_nil_r, Ha.
  - by eapply atomic_next.
Qed.

(** A new queue satisfies the invariant. *)
Definition ghost0 : Ghost T := mkGhost [] 0 0 Vacant.

Lemma invariant_initial q n : Represents c lap q 0 [] → small c lap (2 * c) →
  Inv c lap ghost0 (mkSystem q (replicate n Idle)).
Proof.
  intros [[Hq Hh Ht Hb _] Hst] Hsm. pose proof (slots_positive _ _ G) as Hc.
  destruct (lap_facts c lap G) as (H1 & H2 & H3).
  assert (∀ i t, replicate n (@Idle T) !! i = Some t → t = Idle) as Hidle.
  { intros i t [-> _]%lookup_replicate. done. }
  split; cbn; try done.
  - by left.
  - intros j Hj. destruct (Hst j Hj) as (sl & Hsl & Hstamp). exists sl.
    unfold cell in Hsl. cbn [Nat.add] in Hsl. rewrite Nat.mod_small in Hsl by done.
    split; [done|]. cbn [Nat.add length] in Hstamp. rewrite bool_decide_false, Z.add_0_r in Hstamp by lia.
    split; [done|]. cbn. rewrite Nat.mod_small by done. split; [done|]. split; [lia|]. left. lia.
  - intros i t Hi. by rewrite (Hidle i t Hi).
  - intros i j t u ph Hi _ Ho. rewrite (Hidle i t Hi) in Ho. discriminate.
Qed.

(** A state without owners is a queue at rest with the elements that wait. *)
Lemma at_rest g s : Inv c lap g s → (∀ i t, threads s !! i = Some t → owns t = None) →
  Represents c lap (queue s) (popped g) (waiting g).
Proof.
  intros [Hq Hh Ht Hl Hs Hw Hslot Hkn Hown] Hnone.
  assert (length (log g) = reached g) as El.
  { destruct Hw as [|(_ & _ & _ & k & v & Hk)]; [done|]. specialize (Hnone _ _ Hk). discriminate. }
  assert (popped g + length (waiting g) = reached g)%nat as Ew by (unfold waiting; rewrite length_drop; lia).
  assert (∀ i, (i < c)%nat → ∃ sl, cell c (queue s) (popped g + i) = Some sl ∧
    if decide (i < length (waiting g))%nat then stamp sl = enc (popped g + i) + 1 ∧ value sl = log g !! (popped g + i)%nat
    else stamp sl = enc (popped g + i)) as Hcell.
  { intros i Hi. set (p := (popped g + i)%nat).
    destruct (Hslot (p `mod` c)%nat) as (sl & Hsl & Hst & Hpos & Hph); [apply (slot_below c lap G)|].
    exists sl. split; [done|].
    assert (∀ r, (popped g ≤ r < popped g + c)%nat → (r `mod` c = p `mod` c)%nat → r = p) as Huniq.
    { intros r Hr E. unfold p in *. replace r with (popped g + (r - popped g))%nat in E |- * by lia.
      f_equal. by apply (slot_offset_inj c (popped g)); [lia..|]. }
    destruct (phase g (p `mod` c)) as [r|r]; cbn in Hst, Hpos.
    - destruct Hph as [Hr [Hlen|(k & u & Hu & Ho)]]; [|by rewrite (Hnone _ _ Hu) in Ho].
      apply Huniq in Hpos as ->; [|done]. by rewrite decide_False by (unfold p in *; lia).
    - destruct Hph as (H1 & _ & _ & H4 & [H5|(k & u & Hu & Ho)]); [|by rewrite (Hnone _ _ Hu) in Ho].
      apply Huniq in Hpos as ->; [|lia]. rewrite decide_True by (unfold p in *; lia). split; [done|by apply H4]. }
  split; [split|].
  - done.
  - done.
  - by rewrite Ht, Ew.
  - lia.
  - intros i Hi. destruct (Hcell i) as (sl & Hsl & H); [lia|]. rewrite decide_True in H by done.
    exists sl. split; [done|]. destruct H as [_ ->]. unfold waiting. by rewrite lookup_drop.
  - intros i Hi. destruct (Hcell i Hi) as (sl & Hsl & H). exists sl. split; [done|].
    case_decide; [rewrite bool_decide_true by done; apply H|rewrite bool_decide_false by done; cbn; lia].
Qed.
End executions.

(** ** A thread left alone *)

Lemma run_alone_mono {T} n m (q : ArrayQueue T) t r :
  run_alone n q t = Some r → (n ≤ m)%nat → run_alone m q t = Some r.
Proof.
  revert m q t. induction n as [|n IH]; intros m q t E Hm.
  - destruct t, m; cbn in *; try done.
  - destruct m as [|m]; [lia|]. destruct t; try exact E.
    all: cbn [run_alone] in *; destruct (run false q _) as [[q' t']|]; [|done].
    all: cbn [mbind option_bind] in *; apply IH; [done|lia].
Qed.

(** A thread that runs alone until it returns, one entry of [flags] for each access: a weak
    compare-exchange fails at the entries that are [true], although it would succeed. *)
Fixpoint run_under {T} (flags : list bool) (q : ArrayQueue T) (t : Thread T) : option (ArrayQueue T * Thread T) :=
  match t, flags with
  | Done _, _ | _, [] => Some (q, t)
  | _, spurious :: flags => '(q, t) ← run spurious q t; run_under flags q t
  end.

(** The spurious failures of a run. *)
Definition failures (flags : list bool) : nat := sum_list_with Nat.b2n flags.

Lemma run_alone_cons {T} n (q : ArrayQueue T) t r : (∀ a, t ≠ Done a) → run_alone n q t = Some r →
  ∃ m q' t', n = S m ∧ run false q t = Some (q', t') ∧ run_alone m q' t' = Some r.
Proof.
  intros Ht E. destruct n as [|m]; [destruct t; try discriminate E; by destruct (Ht a)|].
  assert ((run false q t ≫= λ '(q, t), run_alone m q t) = Some r) as E' by (destruct t; try exact E; by destruct (Ht a)).
  apply bind_Some in E' as ((q' & t') & E' & Er). by exists m, q', t'.
Qed.

Lemma run_under_cons {T} b flags (q : ArrayQueue T) t q' t' : run b q t = Some (q', t') →
  run_under (b :: flags) q t = run_under flags q' t'.
Proof. intros E. destruct t; try discriminate E; cbn [run_under]; by rewrite E. Qed.

Section alone.
Context {T : Type} (c : nat) (lap : Z) (G : geometry c lap).
Abbreviation owns := (@owned T c lap).
Implicit Types (q : ArrayQueue T) (g : Ghost T) (s : System T) (t u : Thread T).

(** The steps that an owner still has to do. *)
Definition left_to_do t : option nat :=
  match t with
  | Done _ => Some 0%nat
  | PushPublish _ _ | ForcePublish _ _ | PopRelease _ _ => Some 1%nat
  | PushWrite _ _ _ | ForceSwap _ _ | PopTake _ => Some 2%nat
  | ForceTail _ _ => Some 3%nat
  | _ => None
  end.

Lemma owner_finishes n g s i t : Inv c lap g s → small c lap (n + length (log g) + 2 * c) →
  threads s !! i = Some t → left_to_do t = Some n → ∃ r, run_alone n (queue s) t = Some r.
Proof.
  revert g s t. induction n as [|n IH]; intros g s t HI Hsm Hi Hn.
  { destruct t; try discriminate Hn. by eexists. }
  destruct (run_simulated c lap G g s i HI) with (b := false) (t := t) as (q' & t' & g' & E & HI' & _ & Hlen & _);
    [eapply small_le; [done|lia]|done|by intros ->|by intros ? ->|].
  assert (left_to_do t' = Some n) as Hn'.
  { destruct t; cbn in Hn; simplify_eq; cbn in E.
    all: repeat match type of E with
      | (_ ≫= _) = Some _ => apply bind_Some in E as (? & _ & E)
      end; injection E as <- <-; done. }
  destruct (IH g' _ t' HI') as [r Hr]; [eapply small_le; [done|lia]| |done|].
  { apply list_lookup_insert_eq. by eapply lookup_lt_Some. }
  exists r. by rewrite (run_alone_step _ _ _ _ _ E).
Qed.

Lemma call_alone q op : call q op = run_alone 6 q (start op).
Proof. unfold call. reflexivity. Qed.

(** With a queue at rest: from the load, and after a failure. *)
Lemma load_finishes q h l op : Represents c lap q h l → ∃ r, run_alone 6 q (start op) = Some r.
Proof. intros H. destruct (call_fifo c lap G q h l op H) as (q' & h' & E & _). rewrite call_alone in E. by rewrite E; eexists. Qed.

Lemma inspect_again q h l f v : Represents c lap q h l →
  ∃ r, run_alone 5 q (PushInspect f v (tail q)) = Some r.
Proof. intros H. destruct (load_finishes q h l (closure_op f v) H) as [r E]. exists r. destruct f; exact E. Qed.

Lemma pop_again q h l : Represents c lap q h l → ∃ r, run_alone 5 q (PopInspect (head q)) = Some r.
Proof. intros H. destruct (load_finishes q h l Pop H) as [r E]. exists r. exact E. Qed.

(** The states between the inspection of a slot and the ownership of it. *)
Definition deciding t : bool :=
  match t with PushClaim _ _ _ | PushFull _ _ | ForceClaim _ _ | PopClaim _ | PopEmpty _ => true | _ => false end.

Lemma decision_finishes g s i t h l : Inv c lap g s → small c lap (4 + length (log g) + 2 * c) →
  threads s !! i = Some t → deciding t = true → Represents c lap (queue s) h l →
  ∃ r, run_alone 7 (queue s) t = Some r.
Proof.
  intros HI Hsm Hi Hd HR.
  destruct (run_simulated c lap G g s i HI) with (b := false) (t := t) as (q' & t' & g' & E & HI' & _ & Hlen & _);
    [eapply small_le; [done|lia]|done|by intros ->|by intros ? ->|].
  assert (∀ n, left_to_do t' = Some n → (n ≤ 3)%nat → ∃ r, run_alone 7 (queue s) t = Some r) as Howner.
  { intros n Hn Hle. destruct (owner_finishes n g' _ i t' HI') as [r Hr]; [eapply small_le; [done|lia]| |done|].
    { apply list_lookup_insert_eq. by eapply lookup_lt_Some. }
    exists r. rewrite (run_alone_step _ _ _ _ _ E). eapply run_alone_mono; [done|lia]. }
  assert (∀ n, (∃ r, run_alone n q' t' = Some r) → (n ≤ 6)%nat → ∃ r, run_alone 7 (queue s) t = Some r) as Hrest.
  { intros n [r Hr] Hle. exists r. rewrite (run_alone_step _ _ _ _ _ E). by eapply run_alone_mono. }
  destruct t; try discriminate Hd; cbn in E.
  all: match type of E with context [if ?b then _ else _] => destruct b end; injection E as <- <-.
  - eapply Howner; [reflexivity|lia].
  - eapply Hrest; [by eapply inspect_again|lia].
  - eapply Howner; [reflexivity|lia].
  - eapply Hrest; [by apply (load_finishes _ h l (Push v))|done].
  - eapply Howner; [reflexivity|lia].
  - eapply Hrest; [by apply (load_finishes _ h l (ForcePush v))|done].
  - eapply Howner; [reflexivity|lia].
  - eapply Hrest; [by eapply pop_again|lia].
  - eapply Howner; [reflexivity|lia].
  - eapply Hrest; [by apply (load_finishes _ h l Pop)|done].
Qed.

(** A thread inside a call finishes when no other thread owns a slot. *)
Lemma alone_finishes g s i t : Inv c lap g s → small c lap (5 + length (log g) + 2 * c) →
  threads s !! i = Some t → t ≠ Idle → (∀ j u, j ≠ i → threads s !! j = Some u → owns u = None) →
  ∃ r, run_alone 8 (queue s) t = Some r.
Proof.
  intros HI Hsm Hi Hidle Hothers.
  destruct (left_to_do t) as [n|] eqn:Hn.
  { destruct (owner_finishes n g s i t) as [r Hr]; [done|..|done|done|].
    - eapply small_le; [done|]. destruct t; simplify_eq/=; lia.
    - exists r. eapply run_alone_mono; [done|]. destruct t; simplify_eq/=; lia. }
  assert (owns t = None) as Ho by (by destruct t).
  assert (Represents c lap (queue s) (popped g) (waiting g)) as HR.
  { apply (at_rest c lap G g s HI). intros j u Hu. destruct (decide (j = i)) as [->|Hne]; [congruence|eauto]. }
  destruct (deciding t) eqn:Hd.
  { destruct (decision_finishes g s i t (popped g) (waiting g) HI) as [r Hr];
      [eapply small_le; [done|lia]|done..|].
    exists r. eapply run_alone_mono; [done|lia]. }
  destruct (run_simulated c lap G g s i HI) with (b := false) (t := t) as (q' & t' & g' & E & HI' & _ & Hlen & _);
    [eapply small_le; [done|lia]|done|by intros ->|by intros ? ->|].
  assert (q' = queue s ∧ (deciding t' = true ∨ (∃ op, t' = start op) ∨
    (∃ f v, t = PushLoad f v) ∨ t = PopLoad)) as [-> Ht'].
  { destruct t; try discriminate; cbn in E.
    all: repeat match type of E with (_ ≫= _) = Some _ => apply bind_Some in E as (? & _ & E) end.
    all: injection E as <- <-; split; [done|]; repeat case_match; eauto 6.
    - right. left. by exists (closure_op f v); destruct f.
    - right. left. by exists Pop. }
  destruct Ht' as [Ht'|[[op ->]|Ht]].
  - destruct (decision_finishes g' _ i t' (popped g) (waiting g) HI') as [r Hr];
      [eapply small_le; [done|lia]| |done|done|].
    { apply list_lookup_insert_eq. by eapply lookup_lt_Some. }
    exists r. by rewrite (run_alone_step _ _ _ _ _ E).
  - destruct (load_finishes _ _ _ op HR) as [r Hr]. exists r. rewrite (run_alone_step _ _ _ _ _ E).
    eapply run_alone_mono; [done|lia].
  - assert (∃ op, t = start op) as [op ->].
    { destruct Ht as [(f & v & ->)| ->]; [by exists (closure_op f v); destruct f|by exists Pop]. }
    destruct (load_finishes _ _ _ op HR) as [r Hr]. exists r. eapply run_alone_mono; [done|lia].
Qed.

(** *** With spurious failures *)

(** The states at a weak compare-exchange, the only ones where a failure matters. *)
Definition claiming t : bool := match t with PushClaim _ _ _ | ForceClaim _ _ | PopClaim _ => true | _ => false end.

Lemma run_not_claiming b q t : claiming t = false → run b q t = run false q t.
Proof. by destruct t. Qed.

(** The steps that are left to an owner have no weak compare-exchange. *)
Lemma owner_under flags n q t r : is_Some (left_to_do t) → run_alone n q t = Some r → (n ≤ length flags)%nat →
  ∃ q' a, run_under flags q t = Some (q', Done a).
Proof.
  revert n q t. induction flags as [|b flags IH]; intros n q t Ho Er Hn; cbn [length] in Hn.
  { destruct n; [|lia]. destruct t; try discriminate Er. by eexists _, _. }
  assert ((∃ a, t = Done a) ∨ ∀ a, t ≠ Done a) as [[a ->]|Hd]; [destruct t; eauto; by right|by eexists _, _|].
  destruct (run_alone_cons n q t r) as (m & q1 & t1 & -> & E1 & Er'); [done..|].
  assert (run b q t = Some (q1, t1)) as Eb.
  { rewrite run_not_claiming; [done|]. destruct t; try done; by destruct Ho. }
  rewrite (run_under_cons _ _ _ _ _ _ Eb). apply (IH m); [|done|lia].
  destruct t; try (by destruct Ho); cbn in E1.
  all: repeat match type of E1 with (_ ≫= _) = Some _ => apply bind_Some in E1 as (? & _ & E1) end.
  all: injection E1 as <- <-; by eexists.
Qed.

(** A failure leaves the queue as it is and goes back to a load. *)
Lemma failure_retries q h l t : Represents c lap q h l → claiming t = true →
  ∃ t' r, run true q t = Some (q, t') ∧ run_alone 6 q t' = Some r.
Proof.
  intros HR Hc. destruct t; try discriminate Hc; cbn [run]; unfold push_or_else_step, force_push_step, pop_step.
  all: rewrite andb_false_r; eexists.
  - destruct (inspect_again q h l f v HR) as [r Er]. exists r. split; [done|]. eapply run_alone_mono; [done|lia].
  - destruct (load_finishes q h l (ForcePush v) HR) as [r Er]. by exists r.
  - destruct (pop_again q h l HR) as [r Er]. exists r. split; [done|]. eapply run_alone_mono; [done|lia].
Qed.

(** A thread that owns nothing shares nothing until it owns a slot. *)
Lemma silent_until_owner q t q' t' : left_to_do t = None → run false q t = Some (q', t') →
  q' = q ∨ is_Some (left_to_do t').
Proof.
  intros Ho E. destruct t; try discriminate Ho; try discriminate E; cbn in E.
  all: repeat match type of E with
    | (_ ≫= _) = Some _ => apply bind_Some in E as (? & _ & E)
    | (if ?b then _ else _) = Some _ => destruct b
    end.
  all: injection E as <- <-; by (left + (right; eexists)).
Qed.

(** On a queue at rest, a failure costs at most six more accesses. *)
Lemma finishes_under flags n q h l t r : Represents c lap q h l → left_to_do t = None → run_alone n q t = Some r →
  (n + 6 * failures flags ≤ length flags)%nat → ∃ q' a, run_under flags q t = Some (q', Done a).
Proof.
  intros HR. revert n t r. induction flags as [|b flags IH]; intros n t r Ho Er Hn; cbn [length] in Hn.
  { destruct n; [by destruct t|lia]. }
  destruct (run_alone_cons n q t r) as (m & q1 & t1 & -> & E1 & Er'); [by intros a ->|done|].
  assert (∀ n' t' r', run_alone n' q t' = Some r' → (n' + 6 * failures flags ≤ length flags)%nat →
    ∃ q' a, run_under flags q t' = Some (q', Done a)) as Hgo.
  { intros n' t' r' Er1 Hn'. destruct (left_to_do t') eqn:Ho'; [|by eapply IH].
    eapply (owner_under flags n'); [by eexists|done|lia]. }
  destruct (b && claiming t) eqn:Eb.
  - apply andb_prop in Eb as [-> Hc]. destruct (failure_retries q h l t HR Hc) as (t' & r' & E & Er1).
    rewrite (run_under_cons _ _ _ _ _ _ E). apply (Hgo 6%nat t' r'); [done|]. unfold failures in *. cbn in Hn. lia.
  - assert (run b q t = Some (q1, t1)) as E by (destruct b; [by rewrite run_not_claiming|done]).
    rewrite (run_under_cons _ _ _ _ _ _ E).
    assert (failures flags ≤ failures (b :: flags))%nat as Hf by (unfold failures; destruct b; cbn; lia).
    destruct (silent_until_owner q t q1 t1 Ho E1) as [->|Ho1]; [apply (Hgo m t1 r); [done|lia]|].
    eapply (owner_under flags m); [done|done|lia].
Qed.

(** A thread left alone returns, however often its compare-exchanges fail. *)
Lemma alone_under flags g s i t : Inv c lap g s → small c lap (5 + length (log g) + 2 * c) →
  threads s !! i = Some t → t ≠ Idle → (∀ j u, j ≠ i → threads s !! j = Some u → owns u = None) →
  (8 + 6 * failures flags ≤ length flags)%nat → ∃ q' a, run_under flags (queue s) t = Some (q', Done a).
Proof.
  intros HI Hsm Hi Hidle Hothers Hn. destruct (alone_finishes g s i t HI Hsm Hi Hidle Hothers) as [r Er].
  destruct (left_to_do t) eqn:Ho; [eapply (owner_under flags 8); [by eexists|done|lia]|].
  eapply (finishes_under flags 8); [|done..].
  apply (at_rest c lap G g s HI). intros j u Hu. destruct (decide (j = i)) as [->|Hne]; [|by eapply Hothers].
  rewrite Hi in Hu. injection Hu as <-. by destruct t.
Qed.
End alone.

(** ** Reachable states *)

(** The states that [n] threads reach on a new queue with the calls and returns
    [events], before the stamps wrap. *)
Definition reaches {T} (capacity : Z) (n : nat) (events : list (Event T)) (s : System T) : Prop :=
  ∃ s0 k, initial capacity n = Some s0 ∧ execution s0 events k s ∧
    Z.of_nat k + 5 + 2 * capacity < capacity * (W64 / one_lap (queue s0)).

Lemma reaches_invariant {T} capacity n events (s : System T) :
  allocatable capacity → reaches capacity n events s →
  ∃ lap g, geometry (Z.to_nat capacity) lap ∧ Inv (Z.to_nat capacity) lap g s ∧
    small (Z.to_nat capacity) lap (5 + length (log g) + 2 * Z.to_nat capacity) ∧
    atomic_execution (Z.to_nat capacity) (mkAtomic [] (replicate n Free)) events
      (abstraction (Z.to_nat capacity) lap g s).
Proof.
  intros Hc (s0 & k & E0 & Hex & Hk).
  destruct (new_empty (T := T) capacity Hc) as (q & lap & Eq & G & Ecap & HR).
  unfold initial in E0. rewrite Eq in E0. injection E0 as <-.
  pose proof (shaped_lap _ _ _ (holds_shape _ _ _ _ _ (proj1 HR))) as El.
  unfold allocatable in Hc. cbn [queue] in Hk. rewrite El in Hk.
  assert (∀ m, (m ≤ k + 5)%nat → small (Z.to_nat capacity) lap (m + 2 * Z.to_nat capacity)) as Hsm.
  { intros m Hm. unfold small. lia. }
  pose proof (invariant_initial _ _ G q n HR (Hsm 0%nat ltac:(lia))) as HI0.
  destruct (execution_simulated _ _ G _ ghost0 events k s HI0 eq_refl Hex) as (g & HI & Hlen & Hat); [apply Hsm; lia|].
  exists lap, g. split; [done|]. split; [done|]. split.
  - apply (Hsm (5 + length (log g))%nat). lia.
  - revert Hat. unfold abstraction at 1. cbn. by rewrite fmap_replicate.
Qed.

(** ** A schedule *)

Inductive Action (T : Type) := Enter (op : Op T) | Access (spurious : bool) | Leave.
Arguments Enter {T} _.
Arguments Access {T} _.
Arguments Leave {T}.

(** What a thread does next, run by hand. *)
Definition act {T} (s : System T) (i : nat) (a : Action T) : option (option (Event T) * System T) :=
  t ← threads s !! i;
  match a, t with
  | Enter op, Idle => Some (Some (Called i op), mkSystem (queue s) (<[i := start op]> (threads s)))
  | Access b, _ => '(q', t') ← run b (queue s) t; Some (None, mkSystem q' (<[i := t']> (threads s)))
  | Leave, Done r => Some (Some (Returned i r), mkSystem (queue s) (<[i := Idle]> (threads s)))
  | _, _ => None
  end.

Fixpoint schedule {T} (s : System T) (events : list (Event T)) (l : list (nat * Action T)) :
    option (System T * list (Event T)) :=
  match l with
  | [] => Some (s, events)
  | (i, a) :: l => '(e, s) ← act s i a; schedule s (events ++ option_list e) l
  end.

Lemma act_step {T} (s : System T) i a e s' : act s i a = Some (e, s') → step s e s'.
Proof.
  unfold act. intros (t & Hi & E)%bind_Some. destruct a as [op|b|].
  - destruct t; simplify_eq. by apply step_call.
  - apply bind_Some in E as ([q' t'] & E' & [= <- <-]).
    by eapply step_run.
  - destruct t; simplify_eq. by apply step_return.
Qed.

Lemma schedule_execution {T} (s0 s : System T) events k l s' events' : execution s0 events k s →
  schedule s events l = Some (s', events') → execution s0 events' (k + length l) s'.
Proof.
  revert s events k. induction l as [|[i a] l IH]; intros s events k Hex E; cbn in E.
  { injection E as <- <-. by rewrite Nat.add_0_r. }
  apply bind_Some in E as ([e s1] & E1 & E). cbn [length]. rewrite Nat.add_succ_r.
  apply (IH s1 (events ++ option_list e) (S k)); [|done].
  eapply execution_step; [done|]. by eapply act_step.
Qed.

(** Two pushes that cross on a queue of two slots: the one that read the tail first loses
    it to the other, and a pop meets a slot that is claimed and not yet written. *)
Definition crossing : list (nat * Action Z) :=
  [(0%nat, Enter (Push 10)); (1%nat, Enter (Push 20)); (2%nat, Enter Pop);
   (0%nat, Access false); (1%nat, Access false); (0%nat, Access false); (1%nat, Access false);
   (0%nat, Access true); (0%nat, Access false); (1%nat, Access false);
   (2%nat, Access false); (2%nat, Access false); (2%nat, Access false);
   (1%nat, Access false); (1%nat, Access false); (1%nat, Leave); (0%nat, Access false);
   (2%nat, Access false); (2%nat, Access false); (2%nat, Access false); (2%nat, Access false);
   (2%nat, Access false); (2%nat, Leave)].

Definition crossed : option (System Z * list (Event Z)) :=
  s ← initial 2 3; schedule s [] crossing.

Lemma crossed_reaches s events : crossed = Some (s, events) → reaches 2 3 events s.
Proof.
  unfold crossed. intros (s0 & E0 & E)%bind_Some. exists s0, (length crossing).
  split; [done|]. split.
  - exact (schedule_execution s0 s0 [] 0 crossing s events (execution_nil s0) E).
  - injection E0 as <-. vm_compute. done.
Qed.

Definition crossed_state : System Z :=
  mkSystem (mkQueue 1 1 [mkSlot 4 (Some 20); mkSlot 1 None] 2 4) [PushInspect RejectWhenFull 10 1; Idle; Idle].
Definition crossed_events : list (Event Z) :=
  [Called 0 (Push 10); Called 1 (Push 20); Called 2 Pop; Returned 1 Pushed; Returned 2 (Popped (Some 20))].

Lemma crossed_reached : reaches 2 3 crossed_events crossed_state.
Proof. apply crossed_reaches. vm_compute. reflexivity. Qed.

(** The observers are not calls of the atomic queue: between the two moves of a
    [force_push] on a full queue of one slot, [is_empty] is true of a queue that is never
    empty. *)
Example window_looks_empty :
  match (s ← initial 1 1; schedule s []
    [(0%nat, Enter (Push 10)); (0%nat, Access false); (0%nat, Access false); (0%nat, Access false);
     (0%nat, Access false); (0%nat, Access false); (0%nat, Leave);
     (0%nat, Enter (ForcePush 20)); (0%nat, Access false); (0%nat, Access false); (0%nat, Access false)]) with
  | Some (s, _) => is_empty (queue s) = true ∧ len (queue s) = 0
  | None => False
  end.
Proof. vm_compute. done. Qed.

(** ** Theorems *)

(** [C4] Any number of threads that call [push], [force_push] and [pop] on one queue, with
    their accesses in any order and spurious failures, see the queue of some order of the
    calls: the calls and returns of an execution are those of the atomic queue, where each
    call takes effect at one moment between its call and its return. The queue never holds
    more than its capacity, and when no call is running it holds what the atomic queue
    holds. *)
Theorem interleavings_linearizable {T} capacity n events (s : System T) :
  allocatable capacity → reaches capacity n events s →
  ∃ a, atomic_execution (Z.to_nat capacity) (mkAtomic [] (replicate n Free)) events a ∧
    Z.of_nat (length (contents a)) ≤ capacity ∧
    ((∀ i t, threads s !! i = Some t → t = Idle) → Queue capacity (queue s) (contents a)).
Proof.
  intros Hc Hr. destruct (reaches_invariant capacity n events s Hc Hr) as (lap & g & G & HI & _ & Hat).
  exists (abstraction (Z.to_nat capacity) lap g s). split; [done|]. unfold allocatable in Hc.
  pose proof (inv_length _ _ _ _ HI) as Hl. cbn [abstraction contents].
  split; [rewrite length_drop; lia|]. intros Hidle. exists lap, (popped g). split; [done|]. split.
  - rewrite (shaped_cap _ _ _ (inv_shape _ _ _ _ HI)). lia.
  - apply (at_rest _ _ G g s HI). intros i t Ht. by rewrite (Hidle i t Ht).
Qed.

Lemma interleavings_linearizable_witness :
  allocatable 2 ∧ reaches 2 3 crossed_events crossed_state ∧
  ∃ a, atomic_execution 2 (mkAtomic [] (replicate 3 Free)) crossed_events a.
Proof.
  split; [done|]. split; [apply crossed_reached|].
  destruct (interleavings_linearizable 2 3 crossed_events crossed_state) as (a & Ha & _);
    [done|apply crossed_reached|]. exists a. exact Ha.
Defined.

(** [C7] No interleaving goes wrong: every access of a thread inside a call is defined (no
    index outside the buffer, no value read before it was written), and two threads
    between a compare-exchange and the store of a stamp are never in the same slot, so
    that no access to a value races with another. *)
Theorem interleavings_safe {T} capacity n events (s : System T) :
  allocatable capacity → reaches capacity n events s →
  (∀ i t spurious, threads s !! i = Some t → t ≠ Idle → (∀ a, t ≠ Done a) →
    is_Some (run spurious (queue s) t)) ∧
  (∀ i j t u ph ph', threads s !! i = Some t → threads s !! j = Some u →
    owned (Z.to_nat capacity) (one_lap (queue s)) t = Some ph →
    owned (Z.to_nat capacity) (one_lap (queue s)) u = Some ph' →
    (position ph `mod` Z.to_nat capacity = position ph' `mod` Z.to_nat capacity)%nat → i = j).
Proof.
  intros Hc Hr. destruct (reaches_invariant capacity n events s Hc Hr) as (lap & g & G & HI & Hsm & _).
  rewrite (shaped_lap _ _ _ (inv_shape _ _ _ _ HI)). split.
  - intros i t b Hi H1 H2. destruct (run_simulated _ _ G g s i HI) with (b := b) (t := t)
      as (q' & t' & g' & E & _); [eapply small_le; [done|lia]|done..|]. by eexists.
  - intros i j t u ph ph' Hi Hj Ht Hu Hp. destruct (decide (i = j)) as [|Hne]; [done|exfalso].
    by apply (owned_apart _ _ G g s i j t u ph ph' HI).
Qed.

Lemma interleavings_safe_witness :
  allocatable 2 ∧ reaches 2 3 crossed_events crossed_state ∧
  is_Some (run true (queue crossed_state) (PushInspect RejectWhenFull 10 1)).
Proof.
  split; [done|]. split; [apply crossed_reached|].
  destruct (interleavings_safe 2 3 crossed_events crossed_state) as [H _]; [done|apply crossed_reached|].
  by apply (H 0%nat).
Defined.

(** [C8] A thread is only ever held up by another one that was stopped while it owned a
    slot, or by its own compare-exchanges failing spuriously: when no other thread is
    between its compare-exchange and the store of its stamp, a thread inside a call that
    runs alone returns after at most eight accesses, and six more for each spurious
    failure, whatever it had loaded before and wherever the failures fall. *)
Theorem interleavings_progress {T} capacity n events (s : System T) i t flags :
  allocatable capacity → reaches capacity n events s →
  threads s !! i = Some t → t ≠ Idle →
  (∀ j u, j ≠ i → threads s !! j = Some u → owned (Z.to_nat capacity) (one_lap (queue s)) u = None) →
  (8 + 6 * failures flags ≤ length flags)%nat →
  ∃ q' a, run_under flags (queue s) t = Some (q', Done a).
Proof.
  intros Hc Hr Hi Hidle Hothers Hn.
  destruct (reaches_invariant capacity n events s Hc Hr) as (lap & g & G & HI & Hsm & _).
  rewrite (shaped_lap _ _ _ (inv_shape _ _ _ _ HI)) in Hothers.
  by apply (alone_under _ _ G flags g s i t HI Hsm Hi Hidle Hothers).
Qed.

(** The push that was overtaken fails twice at its compare-exchange and then returns. *)
Lemma interleavings_progress_witness :
  allocatable 2 ∧ reaches 2 3 crossed_events crossed_state ∧
  ∃ q a, run_under ([false; true; false; true] ++ replicate 16 false) (queue crossed_state)
    (PushInspect RejectWhenFull 10 1) = Some (q, Done a).
Proof.
  split; [done|]. split; [apply crossed_reached|].
  apply (interleavings_progress 2 3 crossed_events crossed_state 0);
    [done|apply crossed_reached|done|done| |cbn; lia].
  intros [|[|[|j]]] u Hj Hu; cbn in Hu; simplify_eq; done.
Defined.
