(* ===== verification/AppendOnly.v ===== *)
(** * runtime/append_only.rs: results that are appended once

    The bounded store of results of [crates/runtime/src/append_only.rs]: slots that are
    reserved once, written once and never reused, shared by threads that append scalars
    or records and read published slots.

    As in [Interleaving], memory is sequentially consistent and each atomic access is a
    step; [fetch_update] is one step, which is what the standard library promises of it.
    An [f64] is its 64 bits, so every payload of a NaN and the sign of zero count. The
    allocation of the slots succeeds. *)
From stdpp Require Import list_tactics.
From S2P Require Import Prelude.

Module AppendOnly.
Record Slot : Set := mkSlot { bits : Z; ready : bool }.
Record AppendOnlyResults : Set := mkResults { slots : list Slot; reserved : Z }.
Inductive AppendFull : Set := Full.

Definition new (capacity : Z) : AppendOnlyResults :=
  mkResults (replicate (Z.to_nat capacity) (mkSlot 0 false)) 0.

Definition capacity (self : AppendOnlyResults) : Z := Z.of_nat (length (slots self)).
Definition reserved_count (self : AppendOnlyResults) : Z := reserved self.

Definition reserve (self : AppendOnlyResults) (count : Z) : Result AppendFull (Z * AppendOnlyResults) :=
  match (e ← checked_add (reserved self) count; if e <=? capacity self then Some e else None) with
  | Some e => Ok (reserved self, mkResults (slots self) e)
  | None => Err Full
  end.

(** [publish]: the two stores; [None] is the panic of an index. *)
Definition store_bits (self : AppendOnlyResults) (i : nat) (v : Z) : option AppendOnlyResults :=
  slot ← slots self !! i;
  Some (mkResults (<[i := mkSlot v (ready slot)]> (slots self)) (reserved self)).
Definition store_ready (self : AppendOnlyResults) (i : nat) : option AppendOnlyResults :=
  slot ← slots self !! i;
  Some (mkResults (<[i := mkSlot (bits slot) true]> (slots self)) (reserved self)).

(** Calls and their results. *)
Inductive Op : Set :=
| Append (value : Z)
| AppendRecord (value : Z) (fields : list Z)
| Get (index : nat).
Inductive Answer : Set :=
| Appended (index : Z)              (* [append]: [Ok(index)] *)
| Refused (value : Z)               (* [append]: [Err(value)] *)
| Recorded (first last : Z)         (* [append_record]: [Ok(first..last)] *)
| RecordRefused                     (* [append_record]: [Err(AppendFull)] *)
| Got (value : option Z).           (* [get] *)

(** The values that a call publishes. *)
Definition values (op : Op) : list Z :=
  match op with Append v => [v] | AppendRecord v fields => v :: fields | Get _ => [] end.

Inductive Thread : Set :=
| Idle
| Begin (op : Op)                           (* [fetch_update], or the load of [ready] *)
| Writing (op : Op) (start : Z) (k : nat)   (* store the bits of the value [k] *)
| Readying (op : Op) (start : Z) (k : nat)  (* store its [ready] *)
| Reading (index : nat)                     (* load the bits *)
| Done (op : Op) (a : Answer).

(** The result of a call that has published everything from [start] on. *)
Definition published (op : Op) (start : Z) : Answer :=
  match op with
  | Append _ => Appended start
  | _ => Recorded start (start + Z.of_nat (length (values op)))
  end.

(** [append] and [append_record] are one reservation and a loop of publications; [get]
    checks the slot before it reads it. *)
Definition run (self : AppendOnlyResults) (t : Thread) : option (AppendOnlyResults * Thread) :=
  match t with
  | Idle | Done _ _ => None
  | Begin (Append v) =>
      match reserve self 1 with
      | Ok (index, self) => Some (self, Writing (Append v) index 0)
      | Err _ => Some (self, Done (Append v) (Refused v))
      end
  | Begin (AppendRecord v fields) =>
      let op := AppendRecord v fields in
      match checked_add (Z.of_nat (length fields)) 1 with
      | None => Some (self, Done op RecordRefused)
      | Some count =>
          match reserve self count with
          | Ok (start, self) => Some (self, Writing op start 0)
          | Err _ => Some (self, Done op RecordRefused)
          end
      end
  | Begin (Get i) =>
      match slots self !! i with
      | Some slot => Some (self, if ready slot then Reading i else Done (Get i) (Got None))
      | None => Some (self, Done (Get i) (Got None))
      end
  | Writing op start k =>
      v ← values op !! k;
      self ← store_bits self (Z.to_nat start + k) v;
      Some (self, Readying op start k)
  | Readying op start k =>
      self ← store_ready self (Z.to_nat start + k);
      Some (self, if bool_decide (S k < length (values op))%nat then Writing op start (S k)
                  else Done op (published op start))
  | Reading i =>
      slot ← slots self !! i;
      Some (self, Done (Get i) (Got (Some (bits slot))))
  end.
End AppendOnly.
Import AppendOnly.

(** ** Executions *)

Record Store : Set := mkStore { results : AppendOnlyResults; threads : list Thread }.

(** A call, and the return of a call with its result. *)
Inductive Event : Set :=
| Called (i : nat) (op : Op)
| Returned (i : nat) (op : Op) (a : Answer).

Inductive step (s : Store) : option Event → Store → Prop :=
| step_call i op :
    threads s !! i = Some Idle →
    step s (Some (Called i op)) (mkStore (results s) (<[i := Begin op]> (threads s)))
| step_run i t r t' :
    threads s !! i = Some t → run (results s) t = Some (r, t') →
    step s None (mkStore r (<[i := t']> (threads s)))
| step_return i op a :
    threads s !! i = Some (Done op a) →
    step s (Some (Returned i op a)) (mkStore (results s) (<[i := Idle]> (threads s))).

Inductive execution (s : Store) : list Event → Store → Prop :=
| execution_nil : execution s [] s
| execution_step events s1 e s2 :
    execution s events s1 → step s1 e s2 → execution s (events ++ option_list e) s2.

Definition initial (capacity : Z) (n : nat) : Store := mkStore (new capacity) (replicate n Idle).

(** What the result of a call says of the store, from its return on. *)
Definition holds (r : AppendOnlyResults) (i : nat) (v : Z) : Prop := slots r !! i = Some (mkSlot v true).
Definition holds_all (r : AppendOnlyResults) (start : Z) (l : list Z) : Prop :=
  ∀ k v, l !! k = Some v → holds r (Z.to_nat start + k) v.

Definition settled (r : AppendOnlyResults) (op : Op) (a : Answer) : Prop :=
  match op, a with
  | Append v, Appended i => 0 ≤ i ∧ holds_all r i [v]
  | Append v, Refused w => w = v ∧ reserved r = capacity r
  | AppendRecord v fields, Recorded first last =>
      0 ≤ first ∧ last = first + 1 + Z.of_nat (length fields) ∧ holds_all r first (v :: fields)
  | AppendRecord v fields, RecordRefused => capacity r < reserved r + 1 + Z.of_nat (length fields)
  | Get i, Got (Some v) => holds r i v
  | Get i, Got None => True
  | _, _ => False
  end.

(** The values that a call put in the store. *)
Definition kept (op : Op) (a : Answer) : list Z :=
  match a with Appended _ | Recorded _ _ => values op | _ => [] end.
Definition kept_event (e : Event) : list Z :=
  match e with Called _ _ => [] | Returned _ op a => kept op a end.
Definition kept_thread (t : Thread) : list Z :=
  match t with
  | Writing op _ _ | Readying op _ _ => values op
  | Done op a => kept op a
  | _ => []
  end.

(** ** The invariant *)

(** The slots that a thread has reserved and not yet published. *)
Definition owns (t : Thread) (j : nat) : Prop :=
  match t with
  | Writing op start k | Readying op start k =>
      (Z.to_nat start + k ≤ j < Z.to_nat start + length (values op))%nat
  | _ => False
  end.

Definition knows (plan : list Z) (r : AppendOnlyResults) (t : Thread) : Prop :=
  match t with
  | Idle | Begin _ => True
  | Writing op start k | Readying op start k =>
      match op with Get _ => False | _ => True end ∧
      0 ≤ start ∧ (k < length (values op))%nat ∧
      (∀ j v, values op !! j = Some v → plan !! (Z.to_nat start + j)%nat = Some v) ∧
      (∀ j v, (j < k)%nat → values op !! j = Some v → holds r (Z.to_nat start + j) v) ∧
      match t with
      | Readying _ _ _ => ∀ v, values op !! k = Some v → slots r !! (Z.to_nat start + k)%nat = Some (mkSlot v false)
      | _ => True
      end
  | Reading i => ∃ v, holds r i v
  | Done op a => settled r op a
  end.

(** [plan] is the value of every slot reserved so far. *)
Record Inv (n : nat) (plan : list Z) (events : list Event) (s : Store) : Prop := {
  inv_slots : length (slots (results s)) = n;
  inv_small : Z.of_nat n < W64;
  inv_reserved : reserved (results s) = Z.of_nat (length plan);
  inv_bound : (length plan ≤ n)%nat;
  inv_slot : ∀ j slot, slots (results s) !! j = Some slot →
    if ready slot then plan !! j = Some (bits slot)
    else (length plan ≤ j)%nat ∧ bits slot = 0 ∨ ∃ i t, threads s !! i = Some t ∧ owns t j;
  inv_knows : ∀ i t, threads s !! i = Some t → knows plan (results s) t;
  inv_owns : ∀ i i' t t' j, threads s !! i = Some t → threads s !! i' = Some t' →
    owns t j → owns t' j → i = i';
  inv_unready : ∀ i t j slot, threads s !! i = Some t → owns t j →
    slots (results s) !! j = Some slot → ready slot = false;
  inv_kept : concat (kept_event <$> events) ++ concat (kept_thread <$> threads s) ≡ₚ plan;
  inv_settled : ∀ i op a, Returned i op a ∈ events → settled (results s) op a;
}.

(** ** Preservation *)

(** Published slots stay, and the reservations only grow. *)
Record later (r r' : AppendOnlyResults) : Prop := {
  later_slots : length (slots r') = length (slots r);
  later_reserved : reserved r ≤ reserved r' ≤ Z.of_nat (length (slots r'));
  later_holds : ∀ j v, holds r j v → holds r' j v;
}.

Lemma settled_later r r' op a : later r r' → settled r op a → settled r' op a.
Proof.
  intros [Hl [Hr1 Hr2] Hh] H. unfold settled, capacity, holds_all in *.
  destruct op, a as [| | | |[v|]]; try done.
  - destruct H as [H1 H2]. split; [done|]. eauto.
  - destruct H as [-> H]. split; [done|lia].
  - destruct H as (H1 & H2 & H3). eauto.
  - lia.
  - by apply Hh.
Qed.

Lemma concat_insert {A B} (f : A → list B) l i x y : l !! i = Some x →
  concat (f <$> <[i := y]> l) ++ f x ≡ₚ concat (f <$> l) ++ f y.
Proof.
  revert i. induction l as [|z l IH]; intros [|i] Hi; try done; cbn in *.
  - injection Hi as ->. rewrite (Permutation_app_comm (f y)), (Permutation_app_comm (f x)), <-!app_assoc.
    apply Permutation_app_head, Permutation_app_comm.
  - rewrite <-!app_assoc. by apply Permutation_app_head, IH.
Qed.

(** The values of the events and of the threads, after both changed. *)
Lemma kept_swap {A} (e e' c c' a b p p' : list A) :
  e' ++ b ++ p ≡ₚ e ++ a ++ p' → e ++ c ≡ₚ p → c' ++ a ≡ₚ c ++ b → e' ++ c' ≡ₚ p'.
Proof.
  intros H1 H2 H3. apply (Permutation_app_inv_l (a ++ e)).
  transitivity (e' ++ e ++ c' ++ a); [solve_Permutation|]. rewrite H3.
  transitivity (e' ++ b ++ e ++ c); [solve_Permutation|]. rewrite H2, H1. solve_Permutation.
Qed.

Section preservation.
Context (n : nat) (plan : list Z) (events : list Event) (s : Store) (HI : Inv n plan events s).

Lemma owned_planned i t j : threads s !! i = Some t → owns t j → (j < length plan)%nat.
Proof.
  intros Hi Ho. pose proof (inv_knows _ _ _ _ HI i t Hi) as Hk.
  assert (∀ op start (Hp : ∀ j v, values op !! j = Some v → plan !! (Z.to_nat start + j)%nat = Some v),
    (Z.to_nat start ≤ j < Z.to_nat start + length (values op))%nat → (j < length plan)%nat) as Hgen.
  { intros op start Hp Hj. destruct (lookup_lt_is_Some_2 (values op) (j - Z.to_nat start)) as [v Hv]; [lia|].
    apply Hp, lookup_lt_Some in Hv. lia. }
  destruct t; try done; cbn in Ho; destruct Hk as (_ & _ & _ & Hp & _); eapply (Hgen _ _ Hp); lia.
Qed.

(** The step of thread [i]. *)
Lemma store_update_events i t t' r' plan' events' : threads s !! i = Some t →
  plan `prefix_of` plan' → reserved r' = Z.of_nat (length plan') → (length plan' ≤ n)%nat →
  length (slots r') = n → (∀ j v, holds (results s) j v → holds r' j v) →
  (∀ j, owns t' j → owns t j ∨ (length plan ≤ j)%nat) →
  (∀ j slot, slots r' !! j = Some slot →
    slots (results s) !! j = Some slot ∧ ¬ owns t j ∧ (owns t' j ∨ (j < length plan)%nat ∨ (length plan' ≤ j)%nat) ∨
    if ready slot then plan' !! j = Some (bits slot) else owns t' j) →
  (∀ j, ¬ owns t j → slots r' !! j = slots (results s) !! j) →
  (∀ j slot, owns t' j → slots r' !! j = Some slot → ready slot = false) →
  knows plan' r' t' →
  concat (kept_event <$> events') ++ kept_thread t' ++ plan ≡ₚ concat (kept_event <$> events) ++ kept_thread t ++ plan' →
  (∀ k op a, Returned k op a ∈ events' → Returned k op a ∈ events ∨ settled (results s) op a) →
  Inv n plan' events' (mkStore r' (<[i := t']> (threads s))).
Proof.
  intros Hi Hpre Hres Hb Hlen Hholds Howns Hslots Hothers Hun Hk Hkept Hev.
  pose proof HI as [Hl Hs Hr Hbd Hsl Hkn How Hur Hkp Hst].
  assert (i < length (threads s))%nat as Hlt by (by eapply lookup_lt_Some).
  assert (later (results s) r') as HL.
  { split; [lia| |done]. apply prefix_length in Hpre. lia. }
  assert (∀ k u, threads s !! k = Some u → k ≠ i → ∀ j, owns u j → ¬ owns t j ∧ ¬ owns t' j) as Hapart.
  { intros k u Hu Hne j Ho. assert (¬ owns t j) as Hno by (intros Hot; apply Hne; by eapply How).
    split; [done|]. intros [Hot|Hot]%Howns; [done|]. pose proof (owned_planned k u j Hu Ho). lia. }
  split; cbn [results threads]; try done.
  - intros j slot Hj. destruct (Hslots j slot Hj) as [(Hold & Hno & Hor)|Hnew].
    + specialize (Hsl j slot Hold). destruct (ready slot).
      * by eapply prefix_lookup_Some.
      * destruct Hor as [Hor|Hor].
        { right. exists i, t'. by rewrite list_lookup_insert_eq. }
        destruct Hsl as [[H1 H2]|(k & u & Hu & Hou)]; [left; lia|right].
        exists k, u. rewrite list_lookup_insert_ne; [done|]. intros ->. by simplify_eq.
    + destruct (ready slot); [done|right]. exists i, t'. by rewrite list_lookup_insert_eq.
  - intros k u. destruct (decide (k = i)) as [->|Hne].
    + rewrite list_lookup_insert_eq by done. by intros [= <-].
    + rewrite list_lookup_insert_ne by done. intros Hu. specialize (Hkn k u Hu).
      destruct u as [| |op start m|op start m|j|op a]; cbn [knows] in *; try done.
      * destruct Hkn as (H1 & H2 & H3 & H4 & H5 & H6). repeat (split; [done|]). split; [|by eauto].
        intros j v Hv. eapply prefix_lookup_Some; eauto.
      * destruct Hkn as (H1 & H2 & H3 & H4 & H5 & H6). repeat (split; [done|]).
        split; [intros j v Hv; eapply prefix_lookup_Some; eauto|]. split; [by eauto|].
        intros v Hv. rewrite Hothers; [by apply H6|].
        eapply (Hapart k _ Hu Hne). cbn. lia.
      * destruct Hkn as [v Hv]. eauto.
      * by eapply settled_later.
  - intros k k' u u' j Hu Hu' Ho Ho'.
    destruct (decide (k = i)) as [->|Hn], (decide (k' = i)) as [->|Hn']; try done.
    + rewrite list_lookup_insert_eq in Hu by done. rewrite list_lookup_insert_ne in Hu' by done. simplify_eq.
      by destruct (Hapart k' u' Hu' Hn' j Ho').
    + rewrite list_lookup_insert_ne in Hu by done. rewrite list_lookup_insert_eq in Hu' by done. simplify_eq.
      by destruct (Hapart k u Hu Hn j Ho).
    + rewrite list_lookup_insert_ne in Hu, Hu' by done. by eapply How.
  - intros k u j slot Hu Ho Hj. destruct (decide (k = i)) as [->|Hne].
    + rewrite list_lookup_insert_eq in Hu by done. simplify_eq. by eapply Hun.
    + rewrite list_lookup_insert_ne in Hu by done.
      eapply (Hur k u j slot Hu Ho). rewrite <-Hothers; [done|]. by eapply Hapart.
  - apply (kept_swap _ _ _ _ _ _ _ _ Hkept Hkp), concat_insert, Hi.
  - intros k op a [H|H]%Hev; (eapply settled_later; [done|]); [by eapply Hst|done].
Qed.

Lemma store_update i t t' r' plan' : threads s !! i = Some t →
  plan `prefix_of` plan' → reserved r' = Z.of_nat (length plan') → (length plan' ≤ n)%nat →
  length (slots r') = n → (∀ j v, holds (results s) j v → holds r' j v) →
  (∀ j, owns t' j → owns t j ∨ (length plan ≤ j)%nat) →
  (∀ j slot, slots r' !! j = Some slot →
    slots (results s) !! j = Some slot ∧ ¬ owns t j ∧ (owns t' j ∨ (j < length plan)%nat ∨ (length plan' ≤ j)%nat) ∨
    if ready slot then plan' !! j = Some (bits slot) else owns t' j) →
  (∀ j, ¬ owns t j → slots r' !! j = slots (results s) !! j) →
  (∀ j slot, owns t' j → slots r' !! j = Some slot → ready slot = false) →
  knows plan' r' t' → kept_thread t' ++ plan ≡ₚ kept_thread t ++ plan' →
  Inv n plan' events (mkStore r' (<[i := t']> (threads s))).
Proof.
  intros. eapply (store_update_events i t t'); eauto. by apply Permutation_app_head.
Qed.

(** A call or a return. *)
Lemma event_step i t t' e : threads s !! i = Some t → (∀ j, ¬ owns t j) → (∀ j, ¬ owns t' j) →
  knows plan (results s) t' → kept_event e ++ kept_thread t' = kept_thread t →
  (∀ k op a, Returned k op a = e → settled (results s) op a) →
  Inv n plan (events ++ [e]) (mkStore (results s) (<[i := t']> (threads s))).
Proof.
  intros Hi Ho Ho' Hk Hkept He. pose proof HI as [Hl Hs Hr Hbd Hsl Hkn How Hur Hkp Hst].
  eapply (store_update_events i t t'); try done.
  - intros j Hj. by destruct (Ho' j).
  - intros j slot Hj. left. split; [done|]. split; [done|]. right. lia.
  - intros j slot Hj. by destruct (Ho' j).
  - rewrite fmap_app, concat_app, <-Hkept. cbn. rewrite app_nil_r. solve_Permutation.
  - intros k op a [H|H]%elem_of_app; [by left|right]. apply list_elem_of_singleton in H. by apply (He k).
Qed.

(** Steps that leave the store alone. *)
Lemma store_silent_step i t t' : threads s !! i = Some t → (∀ j, ¬ owns t j) → (∀ j, ¬ owns t' j) →
  knows plan (results s) t' → kept_thread t' = kept_thread t →
  Inv n plan events (mkStore (results s) (<[i := t']> (threads s))).
Proof.
  intros Hi Ho Ho' Hk Hkept. pose proof HI as [Hl Hs Hr Hbd Hsl Hkn How Hur Hkp Hst].
  eapply (store_update i t t'); try done.
  - intros j Hj. by destruct (Ho' j).
  - intros j slot Hj. left. split; [done|]. split; [done|]. right. lia.
  - intros j slot Hj. by destruct (Ho' j).
  - by rewrite Hkept.
Qed.

(** A reservation of [values op]. *)
Lemma reserve_step i op : threads s !! i = Some (Begin op) → values op ≠ [] → match op with Get _ => False | _ => True end →
  match reserve (results s) (Z.of_nat (length (values op))) with
  | Ok (start, r) => Inv n (plan ++ values op) events (mkStore r (<[i := Writing op start 0]> (threads s)))
  | Err _ => capacity (results s) < reserved (results s) + Z.of_nat (length (values op))
  end.
Proof.
  intros Hi Hne Hop. pose proof HI as [Hl Hs Hr Hbd Hsl Hkn How Hur Hkp Hst].
  unfold reserve, capacity. rewrite Hl.
  destruct (checked_add _ _) as [e|] eqn:E; cbn [mbind option_bind].
  2: { apply checked_add_None in E. lia. }
  apply checked_add_Some in E as [-> E]. rewrite Hr in *.
  destruct (Z.leb_spec (Z.of_nat (length plan) + Z.of_nat (length (values op))) (Z.of_nat n)) as [Hle|]; [|lia].
  assert (0 < length (values op))%nat by (destruct (values op); [done|cbn; lia]).
  eapply (store_update i (Begin op)); cbn [reserved slots owns kept_thread]; try done.
  - by apply prefix_app_r.
  - rewrite length_app. lia.
  - rewrite length_app. lia.
  - rewrite Nat2Z.id. intros j Hj. right. lia.
  - rewrite length_app, Nat2Z.id. intros j slot Hj. left. split; [done|]. split; [tauto|]. lia.
  - rewrite Nat2Z.id. intros j slot Hj Hsj. specialize (Hsl j slot Hsj).
    destruct (ready slot); [|done]. apply lookup_lt_Some in Hsl. lia.
  - split; [done|]. split; [lia|]. split; [done|]. rewrite Nat2Z.id. split; [|split; [lia|done]].
    intros j v Hv. rewrite lookup_app_r by lia. by replace (length plan + j - length plan)%nat with j by lia.
  - rewrite app_nil_l. apply Permutation_app_comm.
Qed.

(** The two stores of a publication. *)
Lemma write_step i op start k : threads s !! i = Some (Writing op start k) →
  ∃ v r, values op !! k = Some v ∧ store_bits (results s) (Z.to_nat start + k) v = Some r ∧
    Inv n plan events (mkStore r (<[i := Readying op start k]> (threads s))).
Proof.
  intros Hi. pose proof HI as [Hl Hs Hr Hbd Hsl Hkn How Hur Hkp Hst].
  pose proof (Hkn i _ Hi) as (H1 & H2 & H3 & H4 & H5 & _).
  destruct (lookup_lt_is_Some_2 _ _ H3) as [v Hv]. exists v.
  pose proof (H4 k v Hv) as Hp. pose proof (lookup_lt_Some _ _ _ Hp) as Hlt.
  set (p := (Z.to_nat start + k)%nat) in *.
  destruct (lookup_lt_is_Some_2 (slots (results s)) p) as [slot Hslot]; [lia|].
  assert (ready slot = false) as Hready by (eapply (Hur i _ p); [done|cbn; lia|done]).
  unfold store_bits. rewrite Hslot. cbn [mbind option_bind]. rewrite Hready. eexists. split; [done|]. split; [done|].
  assert (p < length (slots (results s)))%nat as Hps by lia.
  eapply (store_update i (Writing op start k)); cbn [reserved slots owns kept_thread]; try done.
  - by rewrite length_insert.
  - intros j w. unfold holds. cbn. intros Hj. rewrite list_lookup_insert_ne; [done|]. intros <-. by simplify_eq.
  - intros j Hj. by left.
  - intros j sl Hj. destruct (decide (j = p)) as [->|Hne].
    + rewrite list_lookup_insert_eq in Hj by done. injection Hj as <-. right. cbn. lia.
    + rewrite list_lookup_insert_ne in Hj by done.
      destruct (decide (p ≤ j < Z.to_nat start + length (values op))%nat) as [Ho|Ho]; [right|left].
      * by rewrite (Hur i _ j sl Hi).
      * split; [done|]. split; [done|]. right. specialize (Hsl j sl Hj). lia.
  - intros j Hj. rewrite list_lookup_insert_ne; [done|]. lia.
  - intros j sl Ho Hj. destruct (decide (j = p)) as [->|Hne].
    + rewrite list_lookup_insert_eq in Hj by done. by injection Hj as <-.
    + rewrite list_lookup_insert_ne in Hj by done. by eapply (Hur i).
  - do 4 (split; [done|]). split.
    + intros j w Hj Hw. unfold holds. cbn. rewrite list_lookup_insert_ne by lia. by apply H5.
    + intros w Hw. fold p. cbn [slots]. rewrite list_lookup_insert_eq by done. congruence.
Qed.

Lemma ready_step i op start k : threads s !! i = Some (Readying op start k) →
  ∃ r, store_ready (results s) (Z.to_nat start + k) = Some r ∧
    Inv n plan events (mkStore r (<[i := if bool_decide (S k < length (values op))%nat then Writing op start (S k)
                                         else Done op (published op start)]> (threads s))).
Proof.
  intros Hi. pose proof HI as [Hl Hs Hr Hbd Hsl Hkn How Hur Hkp Hst].
  pose proof (Hkn i _ Hi) as (H1 & H2 & H3 & H4 & H5 & H6).
  destruct (lookup_lt_is_Some_2 _ _ H3) as [v Hv]. pose proof (H4 k v Hv) as Hp.
  pose proof (lookup_lt_Some _ _ _ Hp) as Hlt. specialize (H6 v Hv).
  set (p := (Z.to_nat start + k)%nat) in *. pose proof (lookup_lt_Some _ _ _ H6) as Hps.
  unfold store_ready. rewrite H6. cbn [mbind option_bind bits]. eexists. split; [done|].
  set (r := mkResults (<[p := mkSlot v true]> (slots (results s))) (reserved (results s))).
  assert (∀ j w, (j ≤ k)%nat → values op !! j = Some w → holds r (Z.to_nat start + j) w) as Hall.
  { intros j w Hj Hw. unfold holds, r. cbn. destruct (decide (j = k)) as [->|Hne].
    - fold p. rewrite list_lookup_insert_eq by done. congruence.
    - rewrite list_lookup_insert_ne by lia. apply H5; [lia|done]. }
  set (t' := if bool_decide (S k < length (values op))%nat then Writing op start (S k) else Done op (published op start)).
  assert (∀ j, owns t' j ↔ (p < j < Z.to_nat start + length (values op))%nat) as Ho'.
  { intros j. unfold t'. case_bool_decide; cbn; lia. }
  eapply (store_update i (Readying op start k)); cbn [reserved slots kept_thread]; try done.
  - cbn. by rewrite length_insert.
  - intros j w. unfold holds, r. cbn. intros Hj. rewrite list_lookup_insert_ne; [done|]. intros <-. congruence.
  - intros j Hj%Ho'. left. cbn. lia.
  - intros j sl Hj. unfold r in Hj. cbn [slots] in Hj. destruct (decide (j = p)) as [->|Hne].
    + rewrite list_lookup_insert_eq in Hj by done. injection Hj as <-. right. done.
    + rewrite list_lookup_insert_ne in Hj by done.
      destruct (decide (p ≤ j < Z.to_nat start + length (values op))%nat) as [Ho|Ho]; [right|left].
      * rewrite (Hur i _ j sl Hi) by done. apply Ho'. lia.
      * split; [done|]. split; [done|]. right. specialize (Hsl j sl Hj). lia.
  - intros j Hj. unfold r. cbn. rewrite list_lookup_insert_ne; [done|]. cbn in Hj. lia.
  - intros j sl Ho%Ho' Hj. unfold r in Hj. cbn [slots] in Hj.
    rewrite list_lookup_insert_ne in Hj by lia. eapply (Hur i); [done| |done]. cbn. lia.
  - unfold t'. case_bool_decide as Hk; cbn [knows].
    + repeat (split; [done|]). split; [|done]. intros j w Hj. apply Hall. lia.
    + assert (∀ j w, values op !! j = Some w → holds r (Z.to_nat start + j) w) as Hdone.
      { intros j w Hw. apply Hall; [|done]. apply lookup_lt_Some in Hw. lia. }
      destruct op as [w|w fields|]; [done| |done]. cbn. split; [done|]. split; [lia|done].
  - unfold t'. case_bool_decide; cbn [kept_thread]; [done|]. by destruct op.
Qed.

(** A step of the threads keeps the invariant, and none panics. *)
Lemma run_step i t : threads s !! i = Some t → t ≠ Idle → (∀ op a, t ≠ Done op a) →
  ∃ r t' plan', run (results s) t = Some (r, t') ∧ Inv n plan' events (mkStore r (<[i := t']> (threads s))).
Proof.
  intros Hi Hidle Hdone. pose proof HI as [Hl Hs Hr Hbd Hsl Hkn How Hur Hkp Hst].
  destruct t as [|[v|v fields|j]|op start k|op start k|j|op a]; [done| | | | | | |by destruct (Hdone op a)].
  - cbn [run]. pose proof (reserve_step i (Append v) Hi ltac:(done) I) as H. cbn [values length] in H.
    change (Z.of_nat 1) with 1 in H.
    destruct (reserve (results s) 1) as [[start r]|]; [eauto|].
    eexists _, _, plan. split; [done|]. apply (store_silent_step i (Begin (Append v))); [done|tauto..| |done].
    split; [done|]. unfold capacity in *. lia.
  - cbn [run]. pose proof (reserve_step i (AppendRecord v fields) Hi ltac:(done) I) as H. cbn [values length] in H.
    assert (∀ P : Prop, (capacity (results s) < reserved (results s) + 1 + Z.of_nat (length fields) → P) →
      capacity (results s) < reserved (results s) + Z.of_nat (S (length fields)) → P) as Hc by (intros P HP ?; apply HP; lia).
    destruct (checked_add _ 1) as [count|] eqn:E.
    + apply checked_add_Some in E as [-> E]. replace (Z.of_nat (length fields) + 1) with (Z.of_nat (S (length fields))) by lia.
      destruct (reserve _ _) as [[start r]|]; [eauto|].
      eexists _, _, plan. split; [done|]. apply (store_silent_step i (Begin (AppendRecord v fields))); [done|tauto..| |done].
      cbn. lia.
    + apply checked_add_None in E. eexists _, _, plan. split; [done|].
      apply (store_silent_step i (Begin (AppendRecord v fields))); [done|tauto..| |done].
      cbn. unfold capacity. lia.
  - cbn [run]. destruct (slots (results s) !! j) as [slot|] eqn:Hj.
    + eexists _, _, plan. split; [done|]. destruct slot as [w []]; cbn [ready].
      * apply (store_silent_step i (Begin (Get j))); [done|tauto..| |done]. by exists w.
      * by apply (store_silent_step i (Begin (Get j))); [|tauto..| |].
    + eexists _, _, plan. split; [done|]. by apply (store_silent_step i (Begin (Get j))); [|tauto..| |].
  - destruct (write_step i op start k Hi) as (v & r & Hv & E & H). cbn [run]. rewrite Hv. cbn. rewrite E. cbn. eauto.
  - destruct (ready_step i op start k Hi) as (r & E & H). cbn [run]. rewrite E. cbn. eauto.
  - destruct (Hkn i _ Hi) as [v Hv]. cbn [run]. unfold holds in Hv. rewrite Hv. cbn.
    eexists _, _, plan. split; [done|]. by apply (store_silent_step i (Reading j)); [|tauto..| |].
Qed.
End preservation.

(** ** Executions *)

Lemma step_inv n plan events s e s' : Inv n plan events s → step s e s' →
  ∃ plan', Inv n plan' (events ++ option_list e) s'.
Proof.
  intros HI Hstep. destruct Hstep as [i op Hi|i t r t' Hi E|i op a Hi]; cbn [option_list].
  - exists plan. by apply (event_step n plan events s HI i Idle); [|tauto..| | |].
  - rewrite app_nil_r. destruct (run_step n plan events s HI i t Hi) as (r1 & t1 & plan' & E1 & H).
    + intros ->. discriminate.
    + intros op a ->. discriminate.
    + exists plan'. by simplify_eq.
  - exists plan. pose proof (inv_knows _ _ _ _ HI i _ Hi) as Hk.
    apply (event_step n plan events s HI i (Done op a)); [done|tauto|tauto|done| |].
    + cbn. by rewrite app_nil_r.
    + by intros k op' a' [= -> -> ->].
Qed.

Lemma inv_initial capacity n : 0 ≤ capacity < 2 ^ 60 → Inv (Z.to_nat capacity) [] [] (initial capacity n).
Proof.
  intros Hc. change (2 ^ 60) with 1152921504606846976 in Hc.
  assert (∀ i t, replicate n Idle !! i = Some t → t = Idle) as Hidle by (by intros i t [-> _]%lookup_replicate).
  split; cbn; try done.
  - apply length_replicate.
  - lia.
  - lia.
  - intros j slot [-> Hj]%lookup_replicate. cbn. left. split; [lia|done].
  - intros i t Ht. by rewrite (Hidle i t Ht).
  - intros i i' t t' j Ht _ Ho. by rewrite (Hidle i t Ht) in Ho.
  - intros i t j slot Ht Ho. by rewrite (Hidle i t Ht) in Ho.
  - rewrite fmap_replicate. cbn. clear Hidle. by induction n.
  - intros i op a H. by apply elem_of_nil in H.
Qed.

Lemma execution_inv capacity n events s : 0 ≤ capacity < 2 ^ 60 → execution (initial capacity n) events s →
  ∃ plan, Inv (Z.to_nat capacity) plan events s.
Proof.
  intros Hc Hex. induction Hex as [|events s1 e s2 Hex [plan HI] Hstep].
  - exists []. by apply inv_initial.
  - by eapply step_inv.
Qed.

(** With no call running, the slots are the values of the calls that returned. *)
Lemma inv_idle n plan events s : Inv n plan events s → (∀ i t, threads s !! i = Some t → t = Idle) →
  plan ≡ₚ concat (kept_event <$> events) ∧
  slots (results s) = ((λ v, mkSlot v true) <$> plan) ++ replicate (n - length plan) (mkSlot 0 false).
Proof.
  intros [Hl Hs Hr Hbd Hsl Hkn How Hur Hkp Hst] Hidle. split.
  - rewrite <-Hkp. assert (concat (kept_thread <$> threads s) = []) as ->; [|by rewrite app_nil_r].
    apply concat_nil_Forall, Forall_fmap, Forall_lookup. intros i t Hi. by rewrite (Hidle i t Hi).
  - apply list_eq. intros j. destruct (slots (results s) !! j) as [slot|] eqn:Hj.
    + specialize (Hsl j slot Hj). destruct slot as [v []]; cbn in Hsl.
      * rewrite lookup_app_l, list_lookup_fmap, Hsl; [done|]. rewrite length_fmap. by eapply lookup_lt_Some.
      * destruct Hsl as [[H1 ->]|(i & t & Hi & Ho)]; [|by rewrite (Hidle i t Hi) in Ho].
        apply lookup_lt_Some in Hj. rewrite lookup_app_r by (by rewrite length_fmap).
        rewrite length_fmap, lookup_replicate_2; [done|lia].
    + apply lookup_ge_None in Hj. symmetry. apply lookup_ge_None.
      rewrite length_app, length_fmap, length_replicate. lia.
Qed.

(** The accesses that a call still has to do. *)
Definition remaining (t : Thread) : nat :=
  match t with
  | Idle | Done _ _ => 0
  | Begin (Get _) => 2
  | Begin op => 1 + 2 * length (values op)
  | Writing op _ k => 2 * (length (values op) - k)
  | Readying op _ k => 2 * (length (values op) - k) - 1
  | Reading _ => 1
  end.

Lemma run_decreases n plan events s i t r t' : Inv n plan events s → threads s !! i = Some t →
  run (results s) t = Some (r, t') → (remaining t' < remaining t)%nat.
Proof.
  intros HI Hi E. pose proof (inv_knows _ _ _ _ HI i t Hi) as Hk.
  destruct t as [|[v|v fields|j]|op start k|op start k|j|op a]; try done; cbn [run] in E.
  - destruct (reserve _ _) as [[]|]; simplify_eq; cbn; lia.
  - destruct (checked_add _ _); [destruct (reserve _ _) as [[]|]|]; simplify_eq; cbn; lia.
  - destruct (slots (results s) !! j) as [[]|]; simplify_eq; cbn; [|lia]. destruct ready0; cbn; lia.
  - apply bind_Some in E as (v & _ & E). apply bind_Some in E as (r1 & _ & E). simplify_eq. cbn.
    destruct Hk as (_ & _ & Hk & _). lia.
  - apply bind_Some in E as (r1 & _ & E). simplify_eq. destruct Hk as (_ & _ & Hk & _).
    case_bool_decide; cbn; lia.
  - apply bind_Some in E as (slot & _ & E). simplify_eq. cbn. lia.
Qed.

(** ** A run *)

(** A record and a scalar whose publications cross, and a scalar too many. *)
Definition crossing : list (nat * option Op) :=
  [(0%nat, Some (AppendRecord 7 [8])); (1%nat, Some (Append 9)); (0%nat, None); (1%nat, None);
   (1%nat, None); (0%nat, None); (1%nat, None); (1%nat, None); (1%nat, Some (Append 4)); (1%nat, None)].

(** [Some op] calls, [None] lets a thread go on: an access, or the return. *)
Definition act (s : Store) (i : nat) (a : option Op) : option (option Event * Store) :=
  t ← threads s !! i;
  match a, t with
  | Some op, Idle => Some (Some (Called i op), mkStore (results s) (<[i := Begin op]> (threads s)))
  | None, Done op a => Some (Some (Returned i op a), mkStore (results s) (<[i := Idle]> (threads s)))
  | None, _ => '(r, t') ← run (results s) t; Some (None, mkStore r (<[i := t']> (threads s)))
  | Some _, _ => None
  end.

Fixpoint schedule (s : Store) (events : list Event) (l : list (nat * option Op)) : option (Store * list Event) :=
  match l with
  | [] => Some (s, events)
  | (i, a) :: l => '(e, s) ← act s i a; schedule s (events ++ option_list e) l
  end.

Lemma store_act_step s i a e s' : act s i a = Some (e, s') → step s e s'.
Proof.
  unfold act. intros (t & Hi & E)%bind_Some. destruct a as [op|].
  - destruct t; simplify_eq. by apply step_call.
  - destruct t as [|op|op start k|op start k|j|op a]; try (apply bind_Some in E as ([r t'] & E' & [= <- <-]); by eapply step_run).
    simplify_eq. by apply step_return.
Qed.

Lemma store_schedule_execution s0 s events l s' events' : execution s0 events s →
  schedule s events l = Some (s', events') → execution s0 events' s'.
Proof.
  revert s events. induction l as [|[i a] l IH]; intros s events Hex E; cbn in E.
  { by injection E as <- <-. }
  apply bind_Some in E as ([e s1] & E1 & E). eapply IH; [|done].
  eapply execution_step; [done|]. by eapply store_act_step.
Qed.

Definition crossed_store : Store :=
  mkStore (mkResults [mkSlot 7 false; mkSlot 0 false; mkSlot 9 true] 3)
    [Readying (AppendRecord 7 [8]) 0 0; Done (Append 4) (Refused 4)].
Definition crossed_events : list Event :=
  [Called 0 (AppendRecord 7 [8]); Called 1 (Append 9); Returned 1 (Append 9) (Appended 2); Called 1 (Append 4)].

Lemma crossed : execution (initial 3 2) crossed_events crossed_store.
Proof. apply (store_schedule_execution _ _ [] crossing _ _ (execution_nil _)). vm_compute. reflexivity. Qed.

(** ** Theorems *)

(** [C22] Results are appended once and kept: in any interleaving, the result of a call is
    and stays true of the store. An [append] that returned an index left its value there,
    an [append_record] its whole record in its range, a [get] that returned a value
    returned the one that its slot keeps, and a refusal means that the slots left were too
    few. When no call is running the first [reserved] slots hold the values of the calls
    that returned an index or a range, each one once, and the others are untouched. *)
Theorem results_kept capacity n events s :
  0 ≤ capacity < 2 ^ 60 → execution (initial capacity n) events s →
  (∀ i op a, Returned i op a ∈ events → settled (results s) op a) ∧
  ((∀ i t, threads s !! i = Some t → t = Idle) →
    ∃ plan, plan ≡ₚ concat (kept_event <$> events) ∧ reserved (results s) = Z.of_nat (length plan) ∧
      slots (results s) = ((λ v, mkSlot v true) <$> plan) ++
        replicate (Z.to_nat capacity - length plan) (mkSlot 0 false)).
Proof.
  intros Hc Hex. destruct (execution_inv capacity n events s Hc Hex) as [plan HI]. split.
  - apply (inv_settled _ _ _ _ HI).
  - intros Hidle. exists plan. destruct (inv_idle _ _ _ _ HI Hidle). split; [done|].
    split; [apply (inv_reserved _ _ _ _ HI)|done].
Qed.

Lemma results_kept_witness :
  execution (initial 3 2) crossed_events crossed_store ∧
  settled (results crossed_store) (Append 9) (Appended 2).
Proof.
  split; [apply crossed|].
  destruct (results_kept 3 2 crossed_events crossed_store) as [H _]; [done|apply crossed|].
  apply (H 1%nat). by do 2 right; left.
Defined.

(** The store is wait-free: whatever the other threads did, a thread inside a call can
    take its next access without a panic, and every access brings its own call closer to
    its end: at most one for the reservation and two for each value, or two for a [get]. *)
Theorem results_wait_free capacity n events s i t :
  0 ≤ capacity < 2 ^ 60 → execution (initial capacity n) events s →
  threads s !! i = Some t → t ≠ Idle → (∀ op a, t ≠ Done op a) →
  ∃ r t', run (results s) t = Some (r, t') ∧ (remaining t' < remaining t)%nat ∧
    (∀ op, remaining (Begin op) ≤ 2 + 2 * length (values op))%nat.
Proof.
  intros Hc Hex Hi H1 H2. destruct (execution_inv capacity n events s Hc Hex) as [plan HI].
  destruct (run_step _ _ _ _ HI i t Hi H1 H2) as (r & t' & _ & E & _). exists r, t'. split; [done|].
  split; [by eapply run_decreases|]. intros [| |]; cbn; lia.
Qed.

Lemma results_wait_free_witness :
  execution (initial 3 2) crossed_events crossed_store ∧
  ∃ r t', run (results crossed_store) (Readying (AppendRecord 7 [8]) 0 0) = Some (r, t') ∧ (remaining t' < 3)%nat.
Proof.
  split; [apply crossed|].
  destruct (results_wait_free 3 2 crossed_events crossed_store 0 (Readying (AppendRecord 7 [8]) 0 0))
    as (r & t' & E & H & _); [done|apply crossed|done|done|done|]. by exists r, t'.
Defined.
