(* ===== verification/WorkQueues.v ===== *)
(** * runtime/queue.rs: pending work and work stealing

    The queues of [crates/runtime/src/queue.rs]: the bounded queue of pending work over
    [ArrayQueue], and the set of per-node queues whose nodes steal from each other in
    round-robin order.

    The segmented queue of a node comes from a crate that is not in the repository: it is
    the interface [SegQueue], with the first-in first-out laws its documentation states.
    A node and the handles that steal from it share one queue, so an operation on either
    is an operation on the queue of the set. Each operation on a queue is one step: the
    set is modelled between such steps. *)
From S2P Require Import Prelude.
From S2P Require Import ArrayQueue.

(** ** Pending work *)

Module PendingWork.
Import ArrayQueue.

(** [PendingWork::new]: no queue for a zero capacity, which [ArrayQueue::new] would
    refuse with a panic, the outer [None]. *)
Definition new {T} (capacity : Z) : option (option (ArrayQueue T)) :=
  if 0 <? capacity then q ← ArrayQueue.new capacity; Some (Some q) else Some None.
Definition push {T} (self : ArrayQueue T) (work : T) := call self (Push work).
Definition pop {T} (self : ArrayQueue T) := call self Pop.
Definition len {T} (self : ArrayQueue T) : Z := ArrayQueue.len self.
Definition is_empty {T} (self : ArrayQueue T) : bool := ArrayQueue.is_empty self.
End PendingWork.

(** ** Work stealing *)

(** The operations of [crossbeam::queue::SegQueue] and their documented behaviour. *)
Class SegQueue (F Q : Type) : Type := {
  seg_new : Q;
  seg_push : Q → F → Q;
  seg_pop : Q → option F * Q;
}.
Class SegQueueLaws (F Q : Type) `{SegQueue F Q} : Type := {
  seg_contents : Q → list F;
  seg_new_contents : seg_contents seg_new = [];
  seg_push_contents q f : seg_contents (seg_push q f) = seg_contents q ++ [f];
  seg_pop_contents q :
    (seg_pop q).1 = head (seg_contents q) ∧ seg_contents (seg_pop q).2 = tail (seg_contents q);
}.

Module WorkQueueSet.
Section operations.
Context {F Q : Type} `{SegQueue F Q}.

(** [WorkStealer::steal], [WorkQueue::pop] and [WorkQueue::steal_from] all pop. *)
Inductive Steal : Type := Success (fragment : F) | Empty.
Definition steal (stealer : Q) : Steal * Q :=
  match seg_pop stealer with (Some f, q) => (Success f, q) | (None, q) => (Empty, q) end.
Definition steal_from (other : Q) : option F * Q := seg_pop other.

Definition new (n : nat) : list Q := replicate n seg_new.

(** An index outside the set panics: [None]. *)
Definition push (self : list Q) (node_idx : nat) (f : F) : option (list Q) :=
  q ← self !! node_idx; Some (<[node_idx := seg_push q f]> self).
Definition pop (self : list Q) (node_idx : nat) : option (option F * list Q) :=
  q ← self !! node_idx;
  let '(f, q) := seg_pop q in Some (f, <[node_idx := q]> self).

(** The loop of [steal_for], over the [i] left. *)
Fixpoint steal_loop (self : list Q) (node_idx : nat) (offs : list nat) : option (option F * list Q) :=
  match offs with
  | [] => Some (None, self)
  | i :: offs =>
      let target := ((node_idx + i) `mod` length self)%nat in
      stealer ← self !! target;
      _ ← self !! node_idx;
      let '(f, q) := steal_from stealer in
      let self := <[target := q]> self in
      match f with
      | Some frag => Some (Some frag, self)
      | None => steal_loop self node_idx offs
      end
  end.
Definition steal_for (self : list Q) (node_idx : nat) : option (option F * list Q) :=
  steal_loop self node_idx (seq 1 (length self - 1)).
End operations.
Arguments Steal : clear implicits.
End WorkQueueSet.
Import WorkQueueSet.

(** ** The set as lists of fragments *)

Section stealing.
Context {F Q : Type} `{SQ : SegQueue F Q} `{!SegQueueLaws F Q}.
Implicit Types self : list Q.

Definition contents self : list (list F) := seg_contents <$> self.

(** The nodes in the order in which [node_idx] visits them. *)
Definition victims (n node_idx : nat) : list nat := (λ i, ((node_idx + i) `mod` n)%nat) <$> seq 1 (n - 1).

(** Stealing on lists: the first fragment of the first victim that has one. *)
Fixpoint steal_first (l : list (list F)) (ts : list nat) : option (F * list (list F)) :=
  match ts with
  | [] => None
  | t :: ts =>
      match l !! t with
      | Some (x :: rest) => Some (x, <[t := rest]> l)
      | _ => steal_first l ts
      end
  end.

Lemma contents_insert self i q : contents (<[i := q]> self) = <[i := seg_contents q]> (contents self).
Proof. apply list_fmap_insert. Qed.

Lemma steal_loop_spec self node_idx offs : (node_idx < length self)%nat →
  ∃ f self', steal_loop self node_idx offs = Some (f, self') ∧ length self' = length self ∧
    match steal_first (contents self) ((λ i, ((node_idx + i) `mod` length self)%nat) <$> offs) with
    | None => f = None ∧ contents self' = contents self
    | Some (x, l) => f = Some x ∧ contents self' = l
    end.
Proof.
  revert self. induction offs as [|i offs IH]; intros self Hn; [by exists None, self|].
  assert ((node_idx + i) `mod` length self < length self)%nat as Ht by (apply Nat.mod_upper_bound; lia).
  cbn [steal_loop fmap list_fmap]. set (t := ((node_idx + i) `mod` length self)%nat) in *.
  destruct (lookup_lt_is_Some_2 self t Ht) as [q Hq]. rewrite Hq. cbn [mbind option_bind].
  destruct (lookup_lt_is_Some_2 self node_idx Hn) as [q0 Hq0]. rewrite Hq0. cbn [mbind option_bind].
  unfold steal_from. destruct (seg_pop q) as [f q'] eqn:E. destruct (seg_pop_contents q) as [H1 H2].
  rewrite E in H1, H2. cbn [fst snd] in H1, H2.
  assert (contents self !! t = Some (seg_contents q)) as Hct by (unfold contents; by rewrite list_lookup_fmap, Hq).
  cbn [steal_first]. rewrite Hct. destruct (seg_contents q) as [|x l] eqn:Eq; cbn in H1, H2.
  - subst f. destruct (IH (<[t := q']> self)) as (f & self' & E' & Hl & H); [by rewrite length_insert|].
    rewrite contents_insert, H2, length_insert in H. rewrite (list_insert_id (contents self) t []) in H by done.
    exists f, self'. by rewrite length_insert in Hl.
  - subst f. exists (Some x), (<[t := q']> self). split; [done|]. split; [by rewrite length_insert|].
    by rewrite contents_insert, H2.
Qed.

Lemma elem_of_victims n node_idx t : (node_idx < n)%nat →
  t ∈ victims n node_idx ↔ (t < n)%nat ∧ t ≠ node_idx.
Proof.
  intros Hn. unfold victims. rewrite list_elem_of_fmap. split.
  - intros (i & -> & Hi%elem_of_seq). split; [apply Nat.mod_upper_bound; lia|]. intros E.
    assert (node_idx `mod` n = node_idx)%nat as E0 by (by apply Nat.mod_small).
    apply (slots_distinct n node_idx (node_idx + i)); [lia|congruence].
  - intros [Ht Hne]. destruct (decide (node_idx < t)%nat).
    + exists (t - node_idx)%nat. split; [|apply elem_of_seq; lia].
      replace (node_idx + (t - node_idx))%nat with t by lia. by rewrite Nat.mod_small.
    + exists (n - node_idx + t)%nat. split; [|apply elem_of_seq; lia].
      replace (node_idx + (n - node_idx + t))%nat with (t + 1 * n)%nat by lia.
      by rewrite Nat.Div0.mod_add, Nat.mod_small.
Qed.

Lemma steal_first_none l ts : steal_first l ts = None → ∀ t x rest, t ∈ ts → l !! t ≠ Some (x :: rest).
Proof.
  induction ts as [|t' ts IH]; intros E t x rest Ht; [by apply elem_of_nil in Ht|].
  apply elem_of_cons in Ht as [->|Ht]; cbn in E; destruct (l !! t') as [[|]|]; try done; by apply IH.
Qed.

Lemma steal_first_some l ts x l' : steal_first l ts = Some (x, l') →
  ∃ t rest, t ∈ ts ∧ l !! t = Some (x :: rest) ∧ l' = <[t := rest]> l.
Proof.
  induction ts as [|t ts IH]; [done|]. cbn. destruct (l !! t) as [[|y rest]|] eqn:E; intros H; simplify_eq.
  - destruct (IH H) as (t' & rest & ? & ?). exists t', rest. split; [by right|done].
  - exists t, rest. by split; [left|].
  - destruct (IH H) as (t' & rest & ? & ?). exists t', rest. split; [by right|done].
Qed.

Lemma concat_take_first (l : list (list F)) t x rest : l !! t = Some (x :: rest) →
  concat l ≡ₚ x :: concat (<[t := rest]> l).
Proof.
  revert t. induction l as [|y l IH]; intros [|t] H; try done; cbn in *; simplify_eq; [done|].
  rewrite (IH t H). symmetry. apply Permutation_middle.
Qed.

(** What [steal_for] does to the lists of a set. *)
Lemma steal_for_lists self node_idx : (node_idx < length self)%nat →
  ∃ f self', steal_for self node_idx = Some (f, self') ∧ length self' = length self ∧
    contents self' !! node_idx = contents self !! node_idx ∧
    concat (contents self) ≡ₚ option_list f ++ concat (contents self') ∧
    match steal_first (contents self) (victims (length self) node_idx) with
    | None => f = None ∧ ∀ t l, contents self !! t = Some l → t ≠ node_idx → l = []
    | Some (x, l) => f = Some x ∧ contents self' = l
    end.
Proof.
  intros Hn. destruct (steal_loop_spec self node_idx (seq 1 (length self - 1)) Hn) as (f & self' & E & Hl & H).
  exists f, self'. split; [done|]. split; [done|]. fold (victims (length self) node_idx) in H.
  destruct (steal_first _ _) as [[x l]|] eqn:Es.
  - destruct H as [-> H]. apply steal_first_some in Es as (t & rest & Ht & Hlt & ->).
    apply elem_of_victims in Ht as [_ Ht]; [|done]. rewrite H.
    split; [by rewrite list_lookup_insert_ne|]. split; [by apply concat_take_first|done].
  - destruct H as [-> H]. rewrite H. do 2 (split; [done|]). split; [done|].
    intros t l Hlt Hne. destruct l as [|x l]; [done|exfalso].
    apply (steal_first_none _ _ Es t x l); [|done]. apply elem_of_victims; [done|]. split; [|done].
    apply lookup_lt_Some in Hlt. unfold contents in Hlt. by rewrite length_fmap in Hlt.
Qed.
End stealing.

(** ** Theorems *)

(** [C23] Work moves and is never lost or doubled. On a set of queues that keep the laws of
    the segmented queue: a push appends to one queue; a pop takes the first fragment of
    its queue; [steal_for] visits every other node once, starting at the next one, takes
    the first fragment of the first queue that has one, leaves its own queue alone and
    returns nothing only when all the others are empty. An index outside the set panics,
    except that stealing for it in a set of at most one queue, where there is nobody to
    steal from, returns nothing. *)
Theorem work_stealing {F Q} `{SQ : SegQueue F Q} `{!SegQueueLaws F Q} (self : list Q) node_idx :
  (∀ f, match contents self !! node_idx with
    | None => push self node_idx f = None
    | Some l => ∃ self', push self node_idx f = Some self' ∧ contents self' = <[node_idx := l ++ [f]]> (contents self)
    end) ∧
  match contents self !! node_idx with
  | None => pop self node_idx = None ∧
      steal_for self node_idx = if bool_decide (1 < length self)%nat then None else Some (None, self)
  | Some l =>
      (∃ self', pop self node_idx = Some (head l, self') ∧ contents self' = <[node_idx := tail l]> (contents self)) ∧
      ∃ f self', steal_for self node_idx = Some (f, self') ∧ contents self' !! node_idx = Some l ∧
        concat (contents self) ≡ₚ option_list f ++ concat (contents self') ∧
        match steal_first (contents self) (victims (length self) node_idx) with
        | None => f = None ∧ ∀ t l', contents self !! t = Some l' → t ≠ node_idx → l' = []
        | Some (x, l') => f = Some x ∧ contents self' = l'
        end
  end.
Proof.
  assert (contents self !! node_idx = seg_contents <$> (self !! node_idx)) as -> by apply list_lookup_fmap.
  destruct (self !! node_idx) as [q|] eqn:Hq; cbn [fmap option_fmap option_map].
  - split; [|split].
    + intros f. unfold push. rewrite Hq. cbn. eexists. split; [done|]. by rewrite contents_insert, seg_push_contents.
    + unfold pop. rewrite Hq. cbn. destruct (seg_pop q) as [f q'] eqn:E. destruct (seg_pop_contents q) as [H1 H2].
      rewrite E in H1, H2. cbn in H1, H2. eexists. rewrite <-H1, <-H2, <-contents_insert. done.
    + destruct (steal_for_lists self node_idx) as (f & self' & E & _ & H1 & H2 & H3); [by eapply lookup_lt_Some|].
      exists f, self'. split; [done|]. split; [|done]. rewrite H1. unfold contents. by rewrite list_lookup_fmap, Hq.
  - split; [intros f; unfold push; by rewrite Hq|]. split; [unfold pop; by rewrite Hq|].
    unfold steal_for. case_bool_decide as Hl; [|by replace (length self - 1)%nat with 0%nat by lia].
    replace (length self - 1)%nat with (S (length self - 2)) by lia. cbn [seq steal_loop].
    destruct (self !! ((node_idx + 1) `mod` length self)%nat); [|done]. cbn. by rewrite Hq.
Qed.

(** A segmented queue as a list. *)
#[export] Instance list_queue : SegQueue Z (list Z) := {|
  seg_new := [];
  seg_push q f := q ++ [f];
  seg_pop q := (head q, tail q);
|}.
#[export] Instance list_queue_laws : SegQueueLaws Z (list Z).
Proof. by refine {| seg_contents q := q |}. Defined.

(** Node 1 of three steals from node 0 when node 2 has nothing. *)
Lemma work_stealing_witness : ∃ f self', steal_for [[1; 4]; []; []] 1 = Some (f, self') ∧ f = Some 1.
Proof.
  destruct (work_stealing [[1; 4]; []; []] 1) as [_ H0]. cbn [contents fmap list_fmap lookup list_lookup] in H0.
  destruct H0 as [_ (f & self' & E & _ & _ & H)].
  exists f, self'. split; [exact E|]. vm_compute in H. exact (proj1 H).
Defined.

(** Pending work is a bounded first-in first-out queue: a zero capacity gives no queue,
    any other a queue at rest without elements, on which [push] admits work or gives it
    back when full, [pop] takes the oldest, and [len] and [is_empty] count it. *)
Theorem pending_work {T} capacity :
  (capacity ≤ 0 → @PendingWork.new T capacity = Some None) ∧
  (allocatable capacity → ∃ q, @PendingWork.new T capacity = Some (Some q) ∧ Queue capacity q []) ∧
  ∀ (q : ArrayQueue.ArrayQueue T) l, 0 ≤ capacity → Queue capacity q l →
    PendingWork.len q = Z.of_nat (length l) ∧ PendingWork.is_empty q = bool_decide (l = []) ∧
    (∀ work, ∃ q', Queue capacity q' (if bool_decide (Z.of_nat (length l) = capacity) then l else l ++ [work]) ∧
      PendingWork.push q work = Some (q', if bool_decide (Z.of_nat (length l) = capacity)
        then ArrayQueue.Rejected work else ArrayQueue.Pushed)) ∧
    ∃ q', PendingWork.pop q = Some (q', ArrayQueue.Popped (head l)) ∧ Queue capacity q' (tail l).
Proof.
  split; [|split].
  - intros Hc. unfold PendingWork.new. by destruct (Z.ltb_spec 0 capacity); [lia|].
  - intros Hc. destruct (new_empty (T := T) capacity Hc) as (q & lap & E & G & Ec & H).
    exists q. unfold PendingWork.new, allocatable in *. destruct (Z.ltb_spec 0 capacity); [|lia].
    rewrite E. split; [done|]. by exists lap, 0%nat.
  - intros q l Hc HQ. destruct (queue_counted capacity q l Hc HQ) as [H1 H2]. do 2 (split; [done|]). split.
    + intros work. destruct (perform_fifo capacity false q l (ArrayQueue.Push work) Hc HQ) as (q' & E & H).
      exists q'. cbn [perform ArrayQueue.spec spec] in E, H.
      assert (bool_decide (length l = Z.to_nat capacity) = bool_decide (Z.of_nat (length l) = capacity)) as Eb
        by (apply bool_decide_ext; lia).
      rewrite Eb in E, H. by destruct (bool_decide (Z.of_nat (length l) = capacity)).
    + destruct (perform_fifo capacity false q l ArrayQueue.Pop Hc HQ) as (q' & E & H).
      exists q'. cbn [perform spec] in E, H. by destruct l.
Qed.

Lemma pending_work_witness : allocatable 4 ∧ ∃ q, @PendingWork.new Z 4 = Some (Some q) ∧
  ∃ q', PendingWork.push q 7 = Some (q', ArrayQueue.Pushed).
Proof.
  split; [done|]. destruct (@pending_work Z 4) as (_ & H1 & H2). destruct (H1 ltac:(done)) as (q & E & HQ).
  exists q. split; [exact E|]. destruct (H2 q [] ltac:(done) HQ) as (_ & _ & H & _).
  destruct (H 7) as (q' & _ & H'). exists q'. exact H'.
Defined.
