(* ===== verification/Syntax.v ===== *)
(** * operator.rs, ast.rs, soa.rs, encoder.rs: the graph that is executed

    The operator on floats, nodes with their numbers, evaluation against inputs and
    weights, the columns of a graph and the encoder of real values. A graph whose
    children come before their parents has one value per node, [values], which every
    evaluator of the workspace is later compared with. *)
From S2P Require Import Prelude Float FloatArith.

Definition W32 : Z := 2 ^ 32.
Definition as_u32 (n : Z) : Z := n `mod` W32.

Definition f64_nan : f64 := from_bits (2047 * 2 ^ 52 + 2 ^ 51).
Definition f64_neg_infinity : f64 := from_bits (2 ^ 63 + 2047 * 2 ^ 52).

(** ** The operator *)

Definition bml_base_op `{Libm} (x y : f64) : f64 :=
  if f64_lt y f64_zero || is_nan y then f64_nan else
  let log2_y := if f64_eq y f64_zero then f64_neg_infinity else log2 y in
  let exp_x := if is_nan x then f64_nan else exp2 x in
  f64_sub exp_x log2_y.

(** ** Nodes *)

Module Ast.
Inductive NodeKind : Set := One | Zero | Var (id : Z) | Const (id : Z) | Bml.

Record Node : Set := mkNode { id : Z; kind : NodeKind; left : option Z; right : option Z }.

Definition one (id : Z) : Node := mkNode id One None None.
Definition zero (id : Z) : Node := mkNode id Zero None None.
Definition var (id var_id : Z) : Node := mkNode id (Var var_id) None None.
Definition const_ (id const_id : Z) : Node := mkNode id (Const const_id) None None.
Definition bml (id l r : Z) : Node := mkNode id Bml (Some l) (Some r).

Definition is_one (self : Node) : bool := match kind self with One => true | _ => false end.
Definition is_var (self : Node) : bool := match kind self with Var _ => true | _ => false end.
Definition is_const (self : Node) : bool := match kind self with Const _ => true | _ => false end.
Definition is_bml (self : Node) : bool := match kind self with Bml => true | _ => false end.

Record EvalContext : Set := mkContext { inputs : list f64; weights : list f64 }.

Definition get_var (self : EvalContext) (id : Z) : f64 := default f64_nan (inputs self !! Z.to_nat id).
Definition get_const (self : EvalContext) (id : Z) : f64 := default f64_nan (weights self !! Z.to_nat id).

(** The value of a node that is not an application. *)
Definition leaf (ctx : EvalContext) (k : NodeKind) : option f64 :=
  match k with
  | One => Some f64_one
  | Zero => Some f64_zero
  | Var id => Some (get_var ctx id)
  | Const id => Some (get_const ctx id)
  | Bml => None
  end.

(** [evaluate]: the recursion follows the references of the nodes, which may form a
    cycle, so it takes fuel; [None] is a panic or the end of the fuel. *)
Fixpoint evaluate `{Libm} (fuel : nat) (nodes : list Node) (root : Z) (ctx : EvalContext) : option f64 :=
  match fuel with
  | O => None
  | S fuel =>
      node ← nodes !! Z.to_nat root;
      match leaf ctx (kind node) with
      | Some v => Some v
      | None =>
          l ← left node; lv ← evaluate fuel nodes l ctx;
          r ← right node; rv ← evaluate fuel nodes r ctx;
          Some (bml_base_op lv rv)
      end
  end.
End Ast.
Import Ast.

(** ** Columns *)

Module Soa.
(** [NodeSoA]; capacities have no counterpart. *)
Record NodeSoA : Set := mkSoA {
  const_pool : list f64;
  kinds : list NodeKind;
  lefts : list Z;
  rights : list Z;
  values : list f64;
}.

Definition new : NodeSoA := mkSoA [] [] [] [] [].
Definition len (self : NodeSoA) : Z := Z.of_nat (length (kinds self)).
Definition is_empty (self : NodeSoA) : bool := bool_decide (kinds self = []).

Definition push (self : NodeSoA) (node : Node) : NodeSoA :=
  mkSoA (const_pool self) (kinds self ++ [kind node]) (lefts self ++ [default 0 (left node)])
    (rights self ++ [default 0 (right node)]) (values self ++ [f64_zero]).

Definition push_one (self : NodeSoA) : Z * NodeSoA :=
  let id := as_u32 (len self) in (id, push self (one id)).
Definition push_zero (self : NodeSoA) : Z * NodeSoA :=
  let id := as_u32 (len self) in (id, push self (zero id)).
Definition push_var (self : NodeSoA) (var_id : Z) : Z * NodeSoA :=
  let id := as_u32 (len self) in (id, push self (var id var_id)).
Definition push_const (self : NodeSoA) (const_id : Z) : Z * NodeSoA :=
  let id := as_u32 (len self) in (id, push self (const_ id const_id)).
Definition push_bml (self : NodeSoA) (l r : Z) : Z * NodeSoA :=
  let id := as_u32 (len self) in (id, push self (bml id l r)).

(** An index outside the columns panics. *)
Definition get (self : NodeSoA) (id : Z) : option Node :=
  k ← kinds self !! Z.to_nat id;
  match k with
  | One => Some (one id)
  | Zero => Some (zero id)
  | Var var_id => Some (var id var_id)
  | Const const_id => Some (const_ id const_id)
  | Bml => l ← lefts self !! Z.to_nat id; r ← rights self !! Z.to_nat id; Some (bml id l r)
  end.
End Soa.
Import Soa.

(** ** The encoder of real values *)

Module Encoder.
Record NodeData : Set := mkData { data_kind : NodeKind; data_left : option Z; data_right : option Z }.

(** The map from bits to constants is only looked up and inserted into. *)
Record RealEncoder : Set := mkEncoder {
  nodes : list NodeData;
  pool : gmap Z Z;
  const_values : list f64;
}.

Definition new : RealEncoder := mkEncoder [] ∅ [].

Definition push (self : RealEncoder) (k : NodeKind) (l r : option Z) : Z * RealEncoder :=
  (as_u32 (Z.of_nat (length (nodes self))),
   mkEncoder (nodes self ++ [mkData k l r]) (pool self) (const_values self)).

Definition encode_f64 (self : RealEncoder) (val : f64) : Z * RealEncoder :=
  if f64_eq val f64_zero then push self Zero None None else
  if f64_eq val f64_one then push self One None None else
  let bits := to_bits val in
  match pool self !! bits with
  | Some id => push self (Const id) None None
  | None =>
      let id := as_u32 (Z.of_nat (length (const_values self))) in
      let self := mkEncoder (nodes self) (<[bits := id]> (pool self)) (const_values self ++ [val]) in
      push self (Const id) None None
  end.

Definition bml (self : RealEncoder) (l r : Z) : Z * RealEncoder := push self Bml (Some l) (Some r).

Definition node_count (self : RealEncoder) : Z := Z.of_nat (length (nodes self)).
Definition const_count (self : RealEncoder) : Z := Z.of_nat (length (const_values self)).

Definition build_node (self : RealEncoder) (id : Z) : option Node :=
  nd ← nodes self !! Z.to_nat id;
  Some (mkNode id (data_kind nd) (data_left nd) (data_right nd)).

Definition build_nodes (self : RealEncoder) : option (list Node) :=
  mapM (build_node self) (Z.of_nat <$> seq 0 (Z.to_nat (as_u32 (node_count self)))).
End Encoder.

(** ** Graphs whose children come first *)

(** Kind and children of every node. *)
Abbreviation graph := (list (NodeKind * Z * Z)).

Definition ordered (g : graph) : Prop :=
  ∀ i l r, g !! i = Some (Bml, l, r) → 0 ≤ l < Z.of_nat i ∧ 0 ≤ r < Z.of_nat i.

Section graph_values.
Context {H : Libm} (ctx : EvalContext).
Implicit Types (g : graph) (vs : list f64).

Definition value_at vs (id : Z) : f64 := default f64_nan (vs !! Z.to_nat id).

Definition node_value vs (n : NodeKind * Z * Z) : f64 :=
  let '(k, l, r) := n in
  match leaf ctx k with Some v => v | None => bml_base_op (value_at vs l) (value_at vs r) end.

(** The values of the nodes, in order. *)
Definition graph_values g : list f64 := foldl (λ vs n, vs ++ [node_value vs n]) [] g.

Lemma graph_values_snoc g n : graph_values (g ++ [n]) = graph_values g ++ [node_value (graph_values g) n].
Proof. unfold graph_values. by rewrite foldl_app. Qed.

Lemma graph_values_length g : length (graph_values g) = length g.
Proof.
  induction g as [|n g IH] using rev_ind; [done|].
  rewrite graph_values_snoc, !length_app, IH. done.
Qed.

Lemma graph_values_app g g' : ∃ vs, graph_values (g ++ g') = graph_values g ++ vs.
Proof.
  induction g' as [|n g' [vs IH]] using rev_ind; [exists []; by rewrite !app_nil_r|].
  rewrite app_assoc, graph_values_snoc, IH. eexists. by rewrite <-app_assoc.
Qed.

Lemma graph_values_old g g' i : (i < length g)%nat → graph_values (g ++ g') !! i = graph_values g !! i.
Proof.
  intros Hi. destruct (graph_values_app g g') as [vs ->]. apply lookup_app_l. by rewrite graph_values_length.
Qed.

Lemma value_at_old g g' id : 0 ≤ id < Z.of_nat (length g) →
  value_at (graph_values (g ++ g')) id = value_at (graph_values g) id.
Proof. intros Hid. unfold value_at. rewrite graph_values_old; [done|lia]. Qed.

Lemma value_at_last g n :
  value_at (graph_values (g ++ [n])) (Z.of_nat (length g)) = node_value (graph_values g) n.
Proof.
  unfold value_at. rewrite Nat2Z.id, graph_values_snoc, lookup_app_r by (by rewrite graph_values_length).
  by rewrite graph_values_length, Nat.sub_diag.
Qed.

Lemma value_at_lookup g id : 0 ≤ id < Z.of_nat (length g) →
  graph_values g !! Z.to_nat id = Some (value_at (graph_values g) id).
Proof.
  intros Hid. destruct (lookup_lt_is_Some_2 (graph_values g) (Z.to_nat id)) as [v Hv].
  - rewrite graph_values_length. lia.
  - unfold value_at. by rewrite Hv.
Qed.

(** The equation of a node. *)
Lemma graph_values_lookup g i n : ordered g → g !! i = Some n →
  graph_values g !! i = Some (node_value (graph_values g) n).
Proof.
  intros Ho Hn. pose proof (lookup_lt_Some _ _ _ Hn) as Hlt.
  assert (∀ id, 0 ≤ id < Z.of_nat i → value_at (graph_values g) id = value_at (graph_values (take i g)) id) as Hold.
  { intros id Hid. rewrite <-(take_drop i g) at 1. apply value_at_old. rewrite length_take. lia. }
  rewrite <-(take_drop (S i) g) at 1. rewrite graph_values_old by (rewrite length_take; lia).
  rewrite (take_S_r g i n Hn), graph_values_snoc.
  assert (length (graph_values (take i g)) = i) as Hl by (rewrite graph_values_length, length_take; lia).
  rewrite lookup_app_r, Hl, Nat.sub_diag by lia. cbn [lookup list_lookup]. f_equal.
  destruct n as [[k l] r]. unfold node_value. destruct (leaf ctx k) as [v|] eqn:E; [done|].
  assert (k = Bml) as -> by (by destruct k). destruct (Ho i l r Hn). by rewrite !Hold by lia.
Qed.

(** A table of nodes for [evaluate]: an application has both children. *)
Definition denotes_graph (nodes : list Node) g : Prop :=
  length nodes = length g ∧
  ∀ i k l r, g !! i = Some (k, l, r) → ∃ n, nodes !! i = Some n ∧ kind n = k ∧
    (k = Bml → left n = Some l ∧ right n = Some r).

Lemma evaluate_graph nodes g fuel id : denotes_graph nodes g → ordered g →
  0 ≤ id < Z.of_nat (length g) → id < Z.of_nat fuel →
  evaluate fuel nodes id ctx = Some (value_at (graph_values g) id).
Proof.
  intros [Hlen Hn] Ho. revert id. induction fuel as [|fuel IH]; intros id Hid Hf; [lia|].
  destruct (lookup_lt_is_Some_2 g (Z.to_nat id)) as [[[k l] r] Hg]; [lia|].
  destruct (Hn _ _ _ _ Hg) as (n & Hnode & Hk & Hch).
  pose proof (graph_values_lookup g _ _ Ho Hg) as Hv. unfold value_at. rewrite Hv. cbn [default].
  cbn [evaluate]. rewrite Hnode. cbn [mbind option_bind]. rewrite Hk. unfold node_value.
  destruct (leaf ctx k) as [v|] eqn:E; [done|]. assert (k = Bml) as -> by (by destruct k).
  destruct (Hch eq_refl) as [-> ->]. destruct (Ho _ l r Hg) as [Hl Hr]. cbn [mbind option_bind].
  rewrite (IH l), (IH r) by lia. done.
Qed.
End graph_values.

Lemma ordered_snoc g k l r : ordered g →
  (k = Bml → 0 ≤ l < Z.of_nat (length g) ∧ 0 ≤ r < Z.of_nat (length g)) → ordered (g ++ [(k, l, r)]).
Proof.
  intros Ho Hk i l' r' Hi. apply lookup_app_Some in Hi as [Hi|[Hlen Hi]]; [by apply Ho|].
  apply list_lookup_singleton_Some in Hi as [Hi [= -> -> ->]]. assert (i = length g) as -> by lia. by apply Hk.
Qed.

(** Leaves that a context with more weights gives the same value. *)
Lemma graph_values_weights `{Libm} (g : graph) ctx ctx' :
  (∀ i k l r, g !! i = Some (k, l, r) → leaf ctx' k = leaf ctx k) → graph_values ctx' g = graph_values ctx g.
Proof.
  intros Hk. induction g as [|[[k l] r] g IH] using rev_ind; [done|].
  rewrite !graph_values_snoc, IH.
  - unfold node_value. rewrite (Hk (length g) k l r); [done|]. by rewrite lookup_app_r, Nat.sub_diag.
  - intros i k' l' r' Hi. apply (Hk i k' l' r'). by apply lookup_app_l_Some.
Qed.

(** ** The encoder *)

Import Encoder.

Definition encoder_graph (self : RealEncoder) : graph :=
  (λ nd, (data_kind nd, default 0 (data_left nd), default 0 (data_right nd))) <$> Encoder.nodes self.

(** The nodes, the constants and the map agree: every constant is in the pool once, and
    neither zero nor one is. *)
Record encoder_fits (slack : Z) (self : RealEncoder) : Prop := {
  encoder_small : node_count self ≤ W32 ∧ const_count self ≤ node_count self + slack;
  encoder_ordered : ordered (encoder_graph self);
  encoder_children : ∀ nd, nd ∈ Encoder.nodes self → data_kind nd = Bml →
    is_Some (data_left nd) ∧ is_Some (data_right nd);
  encoder_pool : ∀ b c, pool self !! b = Some c ↔
    0 ≤ c ∧ const_values self !! Z.to_nat c = Some (from_bits b);
  encoder_consts : ∀ nd c, nd ∈ Encoder.nodes self → data_kind nd = Const c → 0 ≤ c < const_count self;
  encoder_plain : ∀ v, v ∈ const_values self → f64_eq v f64_zero = false ∧ f64_eq v f64_one = false;
}.

Definition encoder_ok : RealEncoder → Prop := encoder_fits 0.

(** The value of a node of the encoder. *)
Definition encoder_value `{Libm} (self : RealEncoder) (inputs : list f64) (id : Z) : f64 :=
  value_at (graph_values (mkContext inputs (const_values self)) (encoder_graph self)) id.

Section encoder.
Context {H : Libm}.
Implicit Types self : RealEncoder.

Lemma encoder_graph_push self k l r : encoder_graph (push self k l r).2 = encoder_graph self ++ [(k, default 0 l, default 0 r)].
Proof. unfold encoder_graph. cbn. by rewrite fmap_app. Qed.

Lemma encoder_graph_length self : length (encoder_graph self) = length (Encoder.nodes self).
Proof. apply length_fmap. Qed.

Lemma new_ok : encoder_ok Encoder.new.
Proof.
  split.
  - split; [done|]. unfold const_count, node_count. cbn. lia.
  - intros i l r Hi. done.
  - intros nd Hnd. by apply not_elem_of_nil in Hnd.
  - intros b c. change (pool Encoder.new) with (∅ : gmap Z Z). rewrite lookup_empty. split; [done|]. by intros [_ Hc].
  - intros nd c Hnd. by apply not_elem_of_nil in Hnd.
  - intros v Hv. by apply not_elem_of_nil in Hv.
Qed.

(** One more node, over the same constants. *)
Lemma push_ok slack self k l r inputs : encoder_fits slack self → node_count self < W32 →
  (k = Bml → ∃ i j, l = Some i ∧ r = Some j ∧ 0 ≤ i < node_count self ∧ 0 ≤ j < node_count self) →
  (∀ c, k = Const c → 0 ≤ c < const_count self) →
  let '(id, self') := push self k l r in
  encoder_fits (slack - 1) self' ∧ id = node_count self ∧
  (∀ id', 0 ≤ id' < node_count self → encoder_value self' inputs id' = encoder_value self inputs id') ∧
  encoder_value self' inputs id =
    match leaf (mkContext inputs (const_values self)) k with
    | Some v => v
    | None => bml_base_op (encoder_value self inputs (default 0 l)) (encoder_value self inputs (default 0 r))
    end.
Proof.
  intros [[Hs1 Hs2] Ho Hch Hp Hc Hpl] Hlt Hk Hcs. unfold push.
  assert (as_u32 (Z.of_nat (length (Encoder.nodes self))) = node_count self) as Eid.
  { apply Z.mod_small. unfold node_count in *. lia. }
  rewrite Eid. set (self' := mkEncoder _ _ _).
  assert (encoder_graph self' = encoder_graph self ++ [(k, default 0 l, default 0 r)]) as Eg by apply encoder_graph_push.
  assert (node_count self' = node_count self + 1) as En by (unfold node_count; cbn; rewrite length_app; cbn; lia).
  unfold encoder_value. rewrite Eg. cbn [const_values self'].
  assert (node_count self = Z.of_nat (length (encoder_graph self))) as Ec by (by rewrite encoder_graph_length).
  split; [split|split; [done|split]].
  - unfold const_count in *. cbn [const_values self']. lia.
  - rewrite Eg. apply ordered_snoc; [done|]. intros ->. destruct (Hk eq_refl) as (i & j & -> & -> & ? & ?).
    rewrite <-Ec. done.
  - intros nd [Hnd|Hnd]%elem_of_app; [by apply Hch|]. apply list_elem_of_singleton in Hnd as ->.
    cbn. intros ->. destruct (Hk eq_refl) as (i & j & -> & -> & _). by split; eexists.
  - done.
  - intros nd c [Hnd|Hnd]%elem_of_app; [by apply Hc|]. apply list_elem_of_singleton in Hnd as ->. apply Hcs.
  - done.
  - intros id' Hid. apply value_at_old. lia.
  - rewrite Ec, value_at_last. done.
Qed.


Lemma fits_ok slack self : slack ≤ 0 → encoder_fits slack self → encoder_ok self.
Proof. intros Hs [[H1 H2] ? ? ? ? ?]. split; [lia|done..]. Qed.

(** The constants that a graph refers to keep their values when others are added. *)
Lemma encoder_value_consts slack self l inputs id : encoder_fits slack self →
  encoder_value (mkEncoder (Encoder.nodes self) (pool self) (const_values self ++ l)) inputs id =
  encoder_value self inputs id.
Proof.
  intros [_ _ _ _ Hc _]. unfold encoder_value. cbn [const_values]. f_equal.
  apply graph_values_weights. intros i k l' r' Hi. unfold encoder_graph in Hi. cbn [Encoder.nodes] in Hi.
  rewrite list_lookup_fmap in Hi. destruct (Encoder.nodes self !! i) as [nd|] eqn:Hnd; [|done]. cbn in Hi.
  injection Hi as Hk _ _. destruct k as [| |j|c|]; try done. cbn. f_equal. unfold get_const. cbn.
  assert (0 ≤ c < const_count self).
  { eapply Hc; [by eapply list_elem_of_lookup_2|done]. }
  unfold const_count in *. by rewrite lookup_app_l by lia.
Qed.

(** A constant that the pool does not have. *)
Lemma new_constant_fits self v : encoder_ok self → node_count self < W32 → pool self !! to_bits v = None →
  f64_eq v f64_zero = false → f64_eq v f64_one = false →
  encoder_fits 1 (mkEncoder (Encoder.nodes self) (<[to_bits v := const_count self]> (pool self))
    (const_values self ++ [v])).
Proof.
  intros [[Hs1 Hs2] Ho Hch Hp Hc Hpl] Hlt Hv Hz H1.
  assert (const_count (mkEncoder (Encoder.nodes self) (<[to_bits v := const_count self]> (pool self))
    (const_values self ++ [v])) = const_count self + 1) as Ec.
  { unfold const_count. cbn. rewrite length_app. cbn. lia. }
  split; try done.
  - rewrite Ec. change (node_count (mkEncoder (Encoder.nodes self) _ _)) with (node_count self). lia.
  - intros b c. cbn. destruct (decide (b = to_bits v)) as [->|Hne].
    + rewrite lookup_insert_eq. split.
      * intros [= <-]. unfold const_count. split; [lia|]. rewrite Nat2Z.id, lookup_app_r, Nat.sub_diag by lia.
        by destruct v.
      * intros [Hc0 [Hold|[Hlen Hnew]]%lookup_app_Some].
        { assert (pool self !! to_bits v = Some c) by (by apply Hp). congruence. }
        apply list_lookup_singleton_Some in Hnew as [Hl _]. f_equal. unfold const_count. lia.
    + rewrite lookup_insert_ne, Hp by done. split.
      * intros [Hc0 Hl]. split; [done|]. by apply lookup_app_l_Some.
      * intros [Hc0 [Hold|[Hlen Hnew]]%lookup_app_Some]; [done|].
        apply list_lookup_singleton_Some in Hnew as [_ ->]. done.
  - intros nd c Hnd Hk. rewrite Ec. specialize (Hc nd c Hnd Hk). lia.
  - intros w [Hw|Hw]%elem_of_app; [by apply Hpl|]. by apply list_elem_of_singleton in Hw as ->.
Qed.

(** The nodes that [encode_f64] and [bml] make. *)
Lemma encode_ok self v inputs : encoder_ok self → node_count self < W32 →
  let '(id, self') := encode_f64 self v in
  encoder_ok self' ∧ id = node_count self ∧ node_count self' = node_count self + 1 ∧
  (∀ id', 0 ≤ id' < node_count self → encoder_value self' inputs id' = encoder_value self inputs id') ∧
  (encoder_value self' inputs id = v ∨ f64_eq v (encoder_value self' inputs id) = true).
Proof.
  intros Hok Hlt. unfold encode_f64.
  assert (∀ k, (k = Zero ∨ k = One ∨ ∃ c, k = Const c ∧ 0 ≤ c < const_count self) →
    let '(id, self') := push self k None None in
    encoder_ok self' ∧ id = node_count self ∧ node_count self' = node_count self + 1 ∧
    (∀ id', 0 ≤ id' < node_count self → encoder_value self' inputs id' = encoder_value self inputs id') ∧
    leaf (mkContext inputs (const_values self)) k = Some (encoder_value self' inputs id)) as Hpush.
  { intros k Hk. pose proof (push_ok 0 self k None None inputs Hok Hlt) as H0.
    destruct (push self k None None) as [id self'] eqn:E. destruct H0 as (H1 & H2 & H3 & H4).
    - destruct Hk as [->|[->|(c & -> & _)]]; done.
    - intros c ->. destruct Hk as [?|[?|(c' & [= ->] & ?)]]; done.
    - split; [by apply (fits_ok (-1))|]. split; [done|]. split.
      { injection E as _ <-. unfold node_count. cbn. rewrite length_app. cbn. lia. }
      split; [done|]. rewrite H4. by destruct Hk as [->|[->|(c & -> & _)]]. }
  destruct (f64_eq v f64_zero) eqn:Ez.
  { specialize (Hpush Zero (or_introl eq_refl)). destruct (push self Zero None None) as [id self'].
    destruct Hpush as (H1 & H2 & H3 & H4 & [= H5]). do 4 (split; [done|]). right. by rewrite <-H5. }
  destruct (f64_eq v f64_one) eqn:E1.
  { specialize (Hpush One (or_intror (or_introl eq_refl))). destruct (push self One None None) as [id self'].
    destruct Hpush as (H1 & H2 & H3 & H4 & [= H5]). do 4 (split; [done|]). right. by rewrite <-H5. }
  destruct (pool self !! to_bits v) as [c|] eqn:Ep.
  { apply (encoder_pool _ _ Hok) in Ep as [Hc1 Hc2]. pose proof (lookup_lt_Some _ _ _ Hc2) as Hc3.
    specialize (Hpush (Const c)). destruct (push self (Const c) None None) as [id self'].
    destruct Hpush as (H1 & H2 & H3 & H4 & [= H5]).
    { right. right. exists c. split; [done|]. unfold const_count. lia. }
    do 4 (split; [done|]). left. rewrite <-H5. unfold get_const. cbn. rewrite Hc2. by destruct v. }
  pose proof (new_constant_fits self v Hok Hlt Ep Ez E1) as Hfit.
  assert (as_u32 (Z.of_nat (length (const_values self))) = const_count self) as ->.
  { pose proof (encoder_small _ _ Hok). unfold const_count in *. apply Z.mod_small. lia. }
  set (self1 := mkEncoder _ _ _) in *.
  assert (node_count self1 = node_count self) as En by done.
  pose proof (push_ok 1 self1 (Const (const_count self)) None None inputs Hfit Hlt) as H0.
  destruct (push self1 _ None None) as [id self'] eqn:E. rewrite En in H0.
  destruct H0 as (H1 & H2 & H3 & H4); [done| |].
  { intros c [= <-]. unfold const_count. cbn. rewrite length_app. cbn. lia. }
  split; [exact H1|]. split; [done|]. split.
  { injection E as _ <-. unfold node_count. cbn. rewrite length_app. cbn. lia. }
  split.
  - intros id' Hid. rewrite H3 by done. by eapply encoder_value_consts.
  - left. rewrite H4. cbn. unfold get_const, const_count. cbn.
    by rewrite Nat2Z.id, lookup_app_r, Nat.sub_diag by lia.
Qed.

Lemma bml_ok self l r inputs : encoder_ok self → node_count self < W32 →
  0 ≤ l < node_count self → 0 ≤ r < node_count self →
  let '(id, self') := Encoder.bml self l r in
  encoder_ok self' ∧ id = node_count self ∧ node_count self' = node_count self + 1 ∧
  (∀ id', 0 ≤ id' < node_count self → encoder_value self' inputs id' = encoder_value self inputs id') ∧
  encoder_value self' inputs id = bml_base_op (encoder_value self inputs l) (encoder_value self inputs r).
Proof.
  intros Hok Hlt Hl Hr. unfold Encoder.bml.
  pose proof (push_ok 0 self Bml (Some l) (Some r) inputs Hok Hlt) as H0.
  destruct (push self Bml (Some l) (Some r)) as [id self'] eqn:E.
  destruct H0 as (H1 & H2 & H3 & H4); [by eexists _, _|done|].
  split; [by apply (fits_ok (-1))|]. split; [done|]. split; [|done].
  injection E as _ <-. unfold node_count. cbn. rewrite length_app. cbn. lia.
Qed.

(** Evaluating what [build_nodes] gives. *)
Lemma build_nodes_spec self : encoder_ok self → node_count self < W32 →
  ∃ nodes, build_nodes self = Some nodes ∧ denotes_graph nodes (encoder_graph self).
Proof.
  intros [_ _ Hch _ _ _] Hlt. unfold build_nodes.
  assert (as_u32 (node_count self) = node_count self) as -> by (apply Z.mod_small; unfold node_count in *; lia).
  unfold node_count at 1. rewrite Nat2Z.id.
  set (f := λ nd i, mkNode i (data_kind nd) (data_left nd) (data_right nd)).
  exists (imap (λ i nd, f nd (Z.of_nat i)) (Encoder.nodes self)). split.
  - apply mapM_Some, Forall2_same_length_lookup. rewrite length_fmap, length_seq, length_imap. split; [done|].
    intros i id n Hid Hn. rewrite list_lookup_fmap in Hid.
    destruct (seq 0 _ !! i) as [j|] eqn:Hj; [|done]. apply lookup_seq in Hj as [-> Hi].
    cbn in Hid. injection Hid as <-. rewrite list_lookup_imap in Hn.
    destruct (Encoder.nodes self !! i) as [nd|] eqn:Hnd; [|done]. injection Hn as <-.
    unfold build_node. by rewrite Nat2Z.id, Hnd.
  - split; [by rewrite length_imap, encoder_graph_length|]. intros i k l r Hi.
    unfold encoder_graph in Hi. rewrite list_lookup_fmap in Hi. rewrite list_lookup_imap.
    destruct (Encoder.nodes self !! i) as [nd|] eqn:Hnd; [|done]. injection Hi as <- <- <-.
    eexists. split; [done|]. split; [done|]. intros Hk. cbn.
    destruct (Hch nd) as [[l ->] [r ->]]; [by eapply list_elem_of_lookup_2|done|done].
Qed.
End encoder.

(** A sequence of requests, with the numbers of the nodes that answer them. *)
Inductive Request : Set := EncodeReq (v : f64) | BmlReq (l r : Z).

Definition request (self : RealEncoder) (q : Request) : Z * RealEncoder :=
  match q with EncodeReq v => encode_f64 self v | BmlReq l r => Encoder.bml self l r end.

Fixpoint requests (self : RealEncoder) (qs : list Request) : RealEncoder :=
  match qs with [] => self | q :: qs => requests (request self q).2 qs end.

(** Applications refer to nodes that exist. *)
Definition well_formed (qs : list Request) : Prop :=
  ∀ i l r, qs !! i = Some (BmlReq l r) → 0 ≤ l < Z.of_nat i ∧ 0 ≤ r < Z.of_nat i.

(** What a request asked for: a value equal to [v], or the operator on two others. *)
Definition answers `{Libm} (value : Z → f64) (q : Request) (w : f64) : Prop :=
  match q with
  | EncodeReq v => w = v ∨ f64_eq v w = true
  | BmlReq l r => w = bml_base_op (value l) (value r)
  end.

Lemma requests_ok `{Libm} inputs qs self done_ : encoder_ok self → node_count self = Z.of_nat (length done_) →
  node_count self + Z.of_nat (length qs) < W32 → well_formed (done_ ++ qs) →
  (∀ i q, done_ !! i = Some q → answers (encoder_value self inputs) q (encoder_value self inputs (Z.of_nat i))) →
  encoder_ok (requests self qs) ∧ node_count (requests self qs) = Z.of_nat (length (done_ ++ qs)) ∧
  ∀ i q, (done_ ++ qs) !! i = Some q →
    answers (encoder_value (requests self qs) inputs) q (encoder_value (requests self qs) inputs (Z.of_nat i)).
Proof.
  revert self done_. induction qs as [|q qs IH]; intros self done_ Hok Hn Hlt Hwf Hdone; cbn [requests].
  { by rewrite app_nil_r. }
  cbn [length] in Hlt. rewrite (cons_middle q done_ qs), app_assoc in Hwf |- *.
  assert (encoder_ok (request self q).2 ∧ node_count (request self q).2 = node_count self + 1 ∧
    (∀ id', 0 ≤ id' < node_count self → encoder_value (request self q).2 inputs id' = encoder_value self inputs id') ∧
    answers (encoder_value self inputs) q (encoder_value (request self q).2 inputs (node_count self))) as (H1 & H2 & H3 & H4).
  { destruct q as [v|l r]; cbn [request].
    - pose proof (encode_ok self v inputs Hok ltac:(lia)) as H0. destruct (encode_f64 self v) as [id self'].
      destruct H0 as (? & -> & ? & ? & ?). done.
    - destruct (Hwf (length done_) l r) as [Hl Hr].
      { apply lookup_app_l_Some. by rewrite lookup_app_r, Nat.sub_diag. }
      pose proof (bml_ok self l r inputs Hok ltac:(lia) ltac:(lia) ltac:(lia)) as H0.
      destruct (Encoder.bml self l r) as [id self']. destruct H0 as (? & -> & ? & ? & ?). done. }
  apply IH; [done| | |done|].
  - rewrite length_app. cbn. lia.
  - lia.
  - assert (∀ q' i, (i ≤ length done_)%nat → (done_ ++ [q]) !! i = Some q' →
      answers (encoder_value self inputs) q' (encoder_value (request self q).2 inputs (Z.of_nat i)) →
      answers (encoder_value (request self q).2 inputs) q' (encoder_value (request self q).2 inputs (Z.of_nat i))) as Hmove.
    { intros q' i Hi Hq'. destruct q' as [v|l r]; [done|]. cbn.
      destruct (Hwf i l r) as [Hl Hr]; [by apply lookup_app_l_Some|]. intros ->.
      by rewrite (H3 l), (H3 r) by lia. }
    intros i q' Hq'. pose proof (lookup_lt_Some _ _ _ Hq') as Hi. rewrite length_app in Hi. cbn in Hi.
    apply Hmove; [lia|done|]. apply lookup_app_Some in Hq' as [Hq'|[Hi' Hq']].
    + pose proof (lookup_lt_Some _ _ _ Hq'). rewrite H3 by lia. by apply Hdone.
    + apply list_lookup_singleton_Some in Hq' as [Hi0 ->]. replace (Z.of_nat i) with (node_count self) by lia. done.
Qed.

(** ** Theorems *)

(** The encoder of real values is exact. After any sequence of requests whose
    applications refer to earlier nodes, node [i] answers request [i] and evaluates, over
    the nodes that [build_nodes] gives and the constants of the pool, to the encoded float
    bit for bit (to the plain zero or one for a float equal to it) or to the operator on
    the values of its children; no constant is stored twice, and neither zero nor one is. *)
Theorem encoder_exact `{Libm} inputs qs : Z.of_nat (length qs) < W32 → well_formed qs →
  let self := requests Encoder.new qs in
  ∃ nodes value, build_nodes self = Some nodes ∧ length nodes = length qs ∧
    (∀ i q, qs !! i = Some q → answers value q (value (Z.of_nat i)) ∧
      evaluate (S i) nodes (Z.of_nat i) (mkContext inputs (const_values self)) = Some (value (Z.of_nat i))) ∧
    NoDup (const_values self) ∧
    ∀ v, v ∈ const_values self → f64_eq v f64_zero = false ∧ f64_eq v f64_one = false.
Proof.
  intros Hlt Hwf self.
  destruct (requests_ok inputs qs Encoder.new []) as (Hok & Hn & Hans); [apply new_ok|done..|].
  fold self in Hok, Hn, Hans. rewrite app_nil_l in Hn, Hans.
  destruct (build_nodes_spec self Hok) as (nodes & Hb & Hd); [lia|].
  assert (length nodes = length qs) as Hlen.
  { destruct Hd as [-> _]. rewrite encoder_graph_length. unfold node_count in Hn. lia. }
  exists nodes, (encoder_value self inputs). split; [done|]. split; [done|]. split; [|split].
  - intros i q Hq. split; [by apply Hans|]. apply lookup_lt_Some in Hq.
    apply (evaluate_graph _ nodes (encoder_graph self)); [done|apply Hok| |lia].
    destruct Hd as [Hd _]. lia.
  - apply NoDup_alt. intros i j v Hi Hj.
    assert (∀ k, const_values self !! k = Some v → pool self !! to_bits v = Some (Z.of_nat k)) as Hk.
    { intros k Hk. apply (encoder_pool _ _ Hok). rewrite Nat2Z.id. split; [lia|]. rewrite Hk. by destruct v. }
    pose proof (Hk i Hi). pose proof (Hk j Hj). simplify_eq. lia.
  - apply (encoder_plain _ _ Hok).
Qed.

(** Two constants and their application, one of them asked for twice. *)
Lemma encoder_exact_witness :
  let qs := [EncodeReq (f64_of_Z 3); EncodeReq f64_one; EncodeReq (f64_of_Z 3); BmlReq 1 1] in
  Z.of_nat (length qs) < W32 ∧ const_values (requests Encoder.new qs) = [f64_of_Z 3] ∧
  ∃ nodes, build_nodes (requests Encoder.new qs) = Some nodes ∧ length nodes = 4%nat.
Proof.
  intros qs. split; [done|]. split; [vm_compute; reflexivity|].
  destruct (@encoder_exact libm_example [] qs) as (nodes & value & H1 & H2 & _); [done| |by exists nodes].
  intros [|[|[|[|i]]]] l r Hi; cbn in Hi; simplify_eq; lia.
Defined.
