(* ===== verification/HashCons.v ===== *)
(** * hash_cons.rs, dag.rs: sharing and constant folding

    The registry keeps one node per constant and per application of two nodes, and
    replaces an application of constants by its value. [run] is a client that makes a
    list of requests; [values_of] is what the requests mean without any sharing. *)
From S2P Require Import Prelude Float FloatArith Syntax.
Import Syntax.Ast Syntax.Soa.

Module HashCons.
Inductive ConsKey : Set := KOne | KZero | KBml (l r : Z).

#[export] Instance ConsKey_eq_dec : EqDecision ConsKey.
Proof. solve_decision. Defined.
#[export] Instance ConsKey_countable : Countable ConsKey.
Proof.
  refine (inj_countable' (λ k, match k with KOne => None | KZero => Some None | KBml l r => Some (Some (l, r)) end)
    (λ o, match o with None => KOne | Some None => KZero | Some (Some (l, r)) => KBml l r end) _).
  by intros [].
Defined.

(** The two maps are only looked up and inserted into. *)
Record HashConsRegistry : Set := mkRegistry {
  soa : NodeSoA;
  table : gmap ConsKey Z;
  const_table : gmap Z Z;
}.

Definition new : HashConsRegistry := mkRegistry Soa.new ∅ ∅.
Definition len (self : HashConsRegistry) : Z := Soa.len (soa self).
Definition is_empty (self : HashConsRegistry) : bool := Soa.is_empty (soa self).
Definition unique_count (self : HashConsRegistry) : Z := Soa.len (soa self).
Definition pool_of (self : HashConsRegistry) : list f64 := const_pool (soa self).
Definition into_soa (self : HashConsRegistry) : NodeSoA := soa self.

(** [into_soa_and_pool]: the pool is taken out of the columns. *)
Definition into_soa_and_pool (self : HashConsRegistry) : NodeSoA * list f64 :=
  let s := soa self in (mkSoA [] (kinds s) (lefts s) (rights s) (values s), const_pool s).

(** The lookup that [one], [zero] and the end of [bml] share. *)
Definition intern (self : HashConsRegistry) (key : ConsKey) (push : NodeSoA → Z * NodeSoA) : Z * HashConsRegistry :=
  match table self !! key with
  | Some id => (id, self)
  | None =>
      let '(id, s) := push (soa self) in
      (id, mkRegistry s (<[key := id]> (table self)) (const_table self))
  end.

Definition one (self : HashConsRegistry) : Z * HashConsRegistry := intern self KOne push_one.
Definition zero (self : HashConsRegistry) : Z * HashConsRegistry := intern self KZero push_zero.

Definition var (self : HashConsRegistry) (var_id : Z) : Z * HashConsRegistry :=
  let '(id, s) := push_var (soa self) var_id in (id, mkRegistry s (table self) (const_table self)).

(** The loop of [const_value] over the nodes from [i] on: the outer [None] is a panic of
    [get], the inner one the end of the loop. *)
Fixpoint find_const (s : NodeSoA) (const_id : Z) (rest : list nat) : option (option Z) :=
  match rest with
  | [] => Some None
  | i :: rest =>
      node ← get s (as_u32 (Z.of_nat i));
      match kind node with
      | Const cid => if cid =? const_id then Some (Some (as_u32 (Z.of_nat i))) else find_const s const_id rest
      | _ => find_const s const_id rest
      end
  end.

Definition with_pool (s : NodeSoA) (pool : list f64) : NodeSoA :=
  mkSoA pool (kinds s) (lefts s) (rights s) (values s).

Definition const_value (self : HashConsRegistry) (value : f64) : option (Z * HashConsRegistry) :=
  let bits := to_bits value in
  found ← match const_table self !! bits with
          | Some const_id => find_const (soa self) const_id (seq 0 (length (kinds (soa self))))
          | None => Some None
          end;
  match found with
  | Some id => Some (id, self)
  | None =>
      let const_id := as_u32 (Z.of_nat (length (pool_of self))) in
      let '(id, s) := push_const (with_pool (soa self) (pool_of self ++ [value])) const_id in
      Some (id, mkRegistry s (table self) (<[bits := const_id]> (const_table self)))
  end.

(** [eval_const_node]: the outer [None] is an index outside the columns. *)
Definition eval_const_node (self : HashConsRegistry) (id : Z) : option (option f64) :=
  node ← get (soa self) id;
  Some match kind node with
       | One => Some f64_one
       | Zero => Some f64_zero
       | Const const_id => pool_of self !! Z.to_nat const_id
       | Var _ | Bml => None
       end.

Definition bml `{Libm} (self : HashConsRegistry) (l r : Z) : option (Z * HashConsRegistry) :=
  a ← eval_const_node self l;
  b ← eval_const_node self r;
  let plain := intern self (KBml l r) (λ s, push_bml s l r) in
  match a, b with
  | Some a, Some b =>
      let result := bml_base_op a b in
      if is_finite result then const_value self result else Some plain
  | _, _ => Some plain
  end.
End HashCons.

(** ** dag.rs *)

Module Dag.
Record Dag : Set := mkDag { soa : NodeSoA; root : Z }.

Definition new (soa : NodeSoA) (root : Z) : Dag := mkDag soa root.
Definition len (self : Dag) : Z := Soa.len (soa self).
Definition is_empty (self : Dag) : bool := Soa.is_empty (soa self).
Definition get (self : Dag) (id : Z) : option Node := Soa.get (soa self) id.

(** [evaluate_soa]: as [Ast.evaluate], over the columns. *)
Fixpoint evaluate_soa `{Libm} (fuel : nat) (soa : NodeSoA) (id : Z) (ctx : EvalContext) : option f64 :=
  match fuel with
  | O => None
  | S fuel =>
      k ← kinds soa !! Z.to_nat id;
      match leaf ctx k with
      | Some v => Some v
      | None =>
          left ← lefts soa !! Z.to_nat id; l ← evaluate_soa fuel soa left ctx;
          right ← rights soa !! Z.to_nat id; r ← evaluate_soa fuel soa right ctx;
          Some (bml_base_op l r)
      end
  end.

Definition evaluate `{Libm} (fuel : nat) (self : Dag) (ctx : EvalContext) : option f64 :=
  evaluate_soa fuel (soa self) (root self) ctx.
End Dag.

(** ** The columns as a graph *)

Definition columns_ok (s : NodeSoA) : Prop :=
  length (lefts s) = length (kinds s) ∧ length (rights s) = length (kinds s).

Definition soa_graph (s : NodeSoA) : graph :=
  zip_with (λ k lr, (k, lr.1, lr.2)) (kinds s) (zip (lefts s) (rights s)).

Lemma soa_graph_length s : columns_ok s → length (soa_graph s) = length (kinds s).
Proof. intros [H1 H2]. unfold soa_graph. rewrite length_zip_with, length_zip. lia. Qed.

Lemma soa_graph_lookup s i k l r : columns_ok s →
  soa_graph s !! i = Some (k, l, r) ↔
  kinds s !! i = Some k ∧ lefts s !! i = Some l ∧ rights s !! i = Some r.
Proof.
  intros _. unfold soa_graph. rewrite lookup_zip_with_Some. split.
  - intros (k' & [l' r'] & [= -> -> ->] & Hk & (? & ? & [= -> ->] & ? & ?)%lookup_zip_with_Some). done.
  - intros (? & ? & ?). exists k, (l, r). split; [done|]. split; [done|]. apply lookup_zip_with_Some. by exists l, r.
Qed.

Lemma soa_graph_push s n : columns_ok s →
  columns_ok (push s n) ∧
  soa_graph (push s n) = soa_graph s ++ [(kind n, default 0 (left n), default 0 (right n))].
Proof.
  intros [H1 H2]. split.
  - unfold columns_ok. cbn. rewrite !length_app. cbn. lia.
  - unfold soa_graph. cbn [kinds lefts rights push].
    rewrite (zip_with_app pair) by lia. rewrite zip_with_app by (rewrite length_zip; lia). done.
Qed.

(** A lookup inside the columns. *)
Lemma soa_get s id : columns_ok s → 0 ≤ id < Soa.len s →
  ∃ k l r, soa_graph s !! Z.to_nat id = Some (k, l, r) ∧
    get s id = Some (match k with
      | One => Ast.one id | Zero => Ast.zero id | Var v => Ast.var id v | Const c => const_ id c
      | Bml => Ast.bml id l r end).
Proof.
  intros Hc Hid. destruct (lookup_lt_is_Some_2 (soa_graph s) (Z.to_nat id)) as [[[k l] r] Hg].
  { rewrite soa_graph_length by done. unfold Soa.len in Hid. lia. }
  exists k, l, r. split; [done|]. apply soa_graph_lookup in Hg as (Hk & Hl & Hr); [|done].
  unfold get. rewrite Hk. cbn. destruct k; try done. by rewrite Hl, Hr.
Qed.

Lemma evaluate_soa_graph `{Libm} s ctx fuel id : columns_ok s → ordered (soa_graph s) →
  0 ≤ id < Soa.len s → id < Z.of_nat fuel →
  Dag.evaluate_soa fuel s id ctx = Some (value_at (graph_values ctx (soa_graph s)) id).
Proof.
  intros Hc Ho. revert id. induction fuel as [|fuel IH]; intros id Hid Hf; [lia|].
  destruct (lookup_lt_is_Some_2 (soa_graph s) (Z.to_nat id)) as [[[k l] r] Hg].
  { rewrite soa_graph_length by done. unfold Soa.len in Hid. lia. }
  pose proof (graph_values_lookup ctx _ _ _ Ho Hg) as Hv. unfold value_at. rewrite Hv. cbn [default].
  pose proof Hg as (Hk & Hl & Hr)%soa_graph_lookup; [|done].
  cbn [Dag.evaluate_soa]. rewrite Hk, Hl, Hr. cbn [mbind option_bind]. unfold node_value.
  destruct (leaf ctx k) as [v|] eqn:E; [done|]. assert (k = Bml) as -> by (by destruct k).
  destruct (Ho _ l r Hg) as [Hl1 Hr1]. rewrite (IH l), (IH r) by lia. done.
Qed.

(** ** The invariant of a registry *)

Import HashCons.

Definition key_of (n : NodeKind * Z * Z) : option ConsKey :=
  match n with
  | (One, _, _) => Some KOne
  | (Zero, _, _) => Some KZero
  | (Bml, l, r) => Some (KBml l r)
  | (Var _, _, _) | (Const _, _, _) => None
  end.

Definition registry_graph (self : HashConsRegistry) : graph := soa_graph (soa self).

(** Both maps index the graph: an application and a constant have at most one node. *)
Record registry_ok (self : HashConsRegistry) : Prop := {
  registry_columns : columns_ok (soa self);
  registry_ordered : ordered (registry_graph self);
  registry_small : Z.of_nat (length (pool_of self)) ≤ len self ≤ W32;
  registry_table : ∀ key id, table self !! key = Some id ↔
    0 ≤ id ∧ ∃ n, registry_graph self !! Z.to_nat id = Some n ∧ key_of n = Some key;
  registry_pool : ∀ b c, const_table self !! b = Some c ↔
    0 ≤ c ∧ pool_of self !! Z.to_nat c = Some (from_bits b);
  registry_consts : ∀ c, 0 ≤ c < Z.of_nat (length (pool_of self)) →
    ∃ i, ∀ j, kinds (soa self) !! j = Some (Const c) ↔ j = i;
  registry_range : ∀ i c, kinds (soa self) !! i = Some (Const c) → 0 ≤ c < Z.of_nat (length (pool_of self));
}.

(** The value of a node, its constants taken from the pool. *)
Definition registry_value `{Libm} (self : HashConsRegistry) (inputs : list f64) (id : Z) : f64 :=
  value_at (graph_values (mkContext inputs (pool_of self)) (registry_graph self)) id.

(** Nodes and constants are only added. *)
Definition extends (self self' : HashConsRegistry) : Prop :=
  registry_graph self `prefix_of` registry_graph self' ∧ pool_of self `prefix_of` pool_of self'.

#[export] Instance extends_preorder : PreOrder extends.
Proof.
  split; [by intros self|]. intros a b c [H1 H2] [H3 H4]. by split; etrans.
Qed.

Lemma registry_length self : registry_ok self → Z.of_nat (length (registry_graph self)) = len self.
Proof. intros Hok. unfold registry_graph. by rewrite soa_graph_length by apply Hok. Qed.

Lemma registry_const_leaf self i c l r : registry_ok self →
  registry_graph self !! i = Some (Const c, l, r) → is_Some (pool_of self !! Z.to_nat c).
Proof.
  intros Hok Hi. apply soa_graph_lookup in Hi as (Hk & _ & _); [|apply Hok].
  apply lookup_lt_is_Some. apply (registry_range _ Hok) in Hk. lia.
Qed.

Lemma extends_value `{Libm} self self' inputs id : registry_ok self → extends self self' → 0 ≤ id < len self →
  registry_value self' inputs id = registry_value self inputs id.
Proof.
  intros Hok [[g Eg] [p Ep]] Hid. rewrite <-registry_length in Hid by done.
  unfold registry_value. rewrite Eg, value_at_old by done. f_equal. apply graph_values_weights.
  intros i k l r Hi. destruct k as [| |v|c|]; try done. cbn. f_equal. unfold get_const. cbn. rewrite Ep.
  destruct (registry_const_leaf _ _ _ _ _ Hok Hi) as [w Hw]. by rewrite (lookup_app_l_Some _ _ _ _ Hw), Hw.
Qed.

Lemma new_registry_ok : registry_ok HashCons.new.
Proof.
  split; try done.
  - intros key id. change (table HashCons.new) with (∅ : gmap ConsKey Z). rewrite lookup_empty.
    split; [done|]. by intros (_ & n & Hn & _).
  - intros b c. change (const_table HashCons.new) with (∅ : gmap Z Z). rewrite lookup_empty.
    split; [done|]. by intros [_ Hc].
  - intros c Hc. cbn in Hc. lia.
Qed.

(** ** One operation *)

(** What every operation does to a registry. *)
Record grows (self : HashConsRegistry) (id : Z) (self' : HashConsRegistry) : Prop := {
  grows_ok : registry_ok self';
  grows_extends : extends self self';
  grows_id : 0 ≤ id < len self';
  grows_len : len self' ≤ len self + 1;
}.

Lemma table_extends self self' key id : registry_ok self → registry_ok self' → extends self self' →
  table self !! key = Some id → table self' !! key = Some id.
Proof.
  intros Hok Hok' [Hg _] (Hid & n & Hn & Hk)%(registry_table _ Hok).
  apply (registry_table _ Hok'). split; [done|]. exists n. split; [|done]. by eapply prefix_lookup_Some.
Qed.

Lemma table_grows self key id : registry_ok self → table self !! key = Some id → grows self id self.
Proof.
  intros Hok (Hid & n & Hn & _)%(registry_table _ Hok). split; [done|done| |lia].
  apply lookup_lt_Some in Hn. rewrite <-registry_length by done. lia.
Qed.

(** One more node that is not a constant. *)
Lemma push_grows self node n key_table : registry_ok self → len self < W32 →
  n = (kind node, default 0 (left node), default 0 (right node)) →
  (∀ c, kind node ≠ Const c) →
  (∀ l r, n = (Bml, l, r) → 0 ≤ l < len self ∧ 0 ≤ r < len self) →
  (∀ key id, key_table !! key = Some id ↔
     table self !! key = Some id ∨ (id = len self ∧ key_of n = Some key)) →
  let self' := mkRegistry (push (soa self) node) key_table (const_table self) in
  grows self (len self) self' ∧ registry_graph self' !! Z.to_nat (len self) = Some n.
Proof.
  intros Hok Hlt -> Hc Hch Ht self'. pose proof (registry_length self Hok) as Hl.
  destruct (soa_graph_push (soa self) node) as [Hcol Hg]; [apply Hok|].
  assert (registry_graph self' = registry_graph self ++ [(kind node, default 0 (left node), default 0 (right node))]) as Eg by done.
  assert (len self' = len self + 1) as El by (unfold len, Soa.len; cbn; rewrite length_app; cbn; lia).
  assert (registry_graph self' !! Z.to_nat (len self) = Some (kind node, default 0 (left node), default 0 (right node))) as Hlast.
  { rewrite Eg, lookup_app_r by lia. by replace (_ - _)%nat with 0%nat by lia. }
  split; [|done]. pose proof (registry_small _ Hok). split; [|split; [by eexists|by exists []; rewrite app_nil_r]|lia|lia].
  split; [done| |rewrite El; cbn; unfold pool_of in *; cbn; lia| |apply Hok| |].
  - rewrite Eg. apply ordered_snoc; [apply Hok|]. intros Ek. rewrite Hl. apply Hch. by rewrite Ek.
  - intros key id. cbn [table self']. rewrite Ht, (registry_table _ Hok), Eg. split.
    + intros [(? & n & Hn & ?)|[-> Hk]]; (split; [lia|]).
      * exists n. split; [by apply lookup_app_l_Some|done].
      * rewrite Eg in Hlast. eauto.
    + intros (Hid & n & [Hn|[Hn1 Hn2]]%lookup_app_Some & Hk); [by eauto|].
      apply list_lookup_singleton_Some in Hn2 as [? <-]. right. split; [lia|done].
  - intros c Hcr. destruct (registry_consts _ Hok c Hcr) as [i Hi]. exists i. intros j. rewrite <-Hi. cbn. split.
    + intros [Hj|[_ [_ Hj]%list_lookup_singleton_Some]]%lookup_app_Some; [done|]. by destruct (Hc c).
    + intros Hj. by apply lookup_app_l_Some.
  - intros i c [Hj|[_ [_ Hj]%list_lookup_singleton_Some]]%lookup_app_Some; [by eapply (registry_range _ Hok)|]. by destruct (Hc c).
Qed.

Lemma intern_grows self key push_ n : registry_ok self → len self < W32 →
  (∀ s, ∃ node, push_ s = (as_u32 (Soa.len s), push s node) ∧
     n = (kind node, default 0 (left node), default 0 (right node))) →
  key_of n = Some key → (∀ l r, n = (Bml, l, r) → 0 ≤ l < len self ∧ 0 ≤ r < len self) →
  let '(id, self') := intern self key push_ in grows self id self' ∧ table self' !! key = Some id.
Proof.
  intros Hok Hlt Hp Hk Hch. unfold intern. destruct (table self !! key) as [id|] eqn:Et.
  { split; [by eapply table_grows|done]. }
  destruct (Hp (soa self)) as (node & -> & Hn).
  assert (as_u32 (Soa.len (soa self)) = len self) as -> by (apply Z.mod_small; unfold len, Soa.len in *; lia).
  destruct (push_grows self node n (<[key := len self]> (table self)) Hok Hlt Hn) as [Hgr Hlast].
  - intros c Hc. by rewrite Hn, Hc in Hk.
  - done.
  - intros key' id. destruct (decide (key' = key)) as [->|Hne].
    + rewrite lookup_insert_eq, Et. split; [intros [= <-]; by right|]. by intros [?|[-> _]].
    + rewrite lookup_insert_ne by done. split; [by left|]. intros [?|[_ Hk']]; [done|]. congruence.
  - split; [done|]. cbn. by rewrite lookup_insert_eq.
Qed.

Lemma var_grows self v : registry_ok self → len self < W32 →
  let '(id, self') := var self v in grows self id self' ∧ id = len self ∧
    registry_graph self' !! Z.to_nat id = Some (Var v, 0, 0).
Proof.
  intros Hok Hlt. unfold var, push_var. cbn [fst snd].
  assert (as_u32 (Soa.len (soa self)) = len self) as -> by (apply Z.mod_small; unfold len, Soa.len in *; lia).
  destruct (push_grows self (Ast.var (len self) v) (Var v, 0, 0) (table self) Hok Hlt) as [Hgr Hlast]; try done.
  intros key id. split; [by left|]. by intros [?|[_ ?]].
Qed.

(** *** Constants *)

Lemma find_const_spec s c i n start : columns_ok s → Soa.len s ≤ W32 →
  (∀ j, kinds s !! j = Some (Const c) ↔ j = i) → (start ≤ i < start + n)%nat →
  Z.of_nat (start + n) = Soa.len s → find_const s c (seq start n) = Some (Some (Z.of_nat i)).
Proof.
  intros Hc Hs Hi. revert start. induction n as [|n IH]; intros start Hst Hn; [lia|].
  cbn [seq find_const]. assert (as_u32 (Z.of_nat start) = Z.of_nat start) as -> by (apply Z.mod_small; lia).
  destruct (soa_get s (Z.of_nat start) Hc) as (k & l & r & Hg & ->); [lia|].
  apply soa_graph_lookup in Hg as (Hk & _ & _); [|done]. rewrite Nat2Z.id in Hk. cbn [mbind option_bind].
  assert (k ≠ Const c → find_const s c (seq (S start) n) = Some (Some (Z.of_nat i))) as Hnext.
  { intros Hne. apply IH; [|lia]. assert (start ≠ i); [|lia]. intros ->. pose proof (proj2 (Hi i) eq_refl). congruence. }
  destruct k as [| |v|c'|]; cbn; try (apply Hnext; congruence).
  destruct (c' =? c) eqn:E; [|apply Hnext; intros [= ->]; by rewrite Z.eqb_refl in E].
  apply Z.eqb_eq in E as ->. apply Hi in Hk as ->. done.
Qed.

Definition answers_const (self : HashConsRegistry) (id : Z) (v : f64) : Prop :=
  ∃ c l r, registry_graph self !! Z.to_nat id = Some (Const c, l, r) ∧ pool_of self !! Z.to_nat c = Some v.

(** A constant that has a node is found. *)
Lemma const_value_found self id v : registry_ok self → 0 ≤ id → answers_const self id v →
  const_value self v = Some (id, self).
Proof.
  intros Hok Hid (c & l & r & Hg & Hp). unfold const_value.
  pose proof Hg as (Hk & _ & _)%soa_graph_lookup; [|apply Hok].
  pose proof (registry_range _ Hok _ _ Hk) as Hc.
  assert (const_table self !! to_bits v = Some c) as ->.
  { apply (registry_pool _ Hok). split; [lia|]. rewrite Hp. by destruct v. }
  destruct (registry_consts _ Hok c Hc) as [i Hi]. apply Hi in Hk as <-.
  rewrite (find_const_spec _ _ (Z.to_nat id)).
  - cbn. by rewrite Z2Nat.id.
  - apply Hok.
  - apply Hok.
  - done.
  - apply lookup_lt_Some in Hg. unfold registry_graph in Hg. rewrite soa_graph_length in Hg by apply Hok. lia.
  - unfold Soa.len. lia.
Qed.

(** A constant that the pool does not have. *)
Lemma push_const_grows self v : registry_ok self → len self < W32 → const_table self !! to_bits v = None →
  let c := Z.of_nat (length (pool_of self)) in
  let self' := mkRegistry (push (with_pool (soa self) (pool_of self ++ [v])) (const_ (len self) c)) (table self)
    (<[to_bits v := c]> (const_table self)) in
  grows self (len self) self' ∧ answers_const self' (len self) v.
Proof.
  intros Hok Hlt Hv c self'. pose proof (registry_length self Hok) as Hl.
  destruct (soa_graph_push (with_pool (soa self) (pool_of self ++ [v])) (const_ (len self) c)) as [Hcol Hg]; [apply Hok|].
  assert (registry_graph self' = registry_graph self ++ [(Const c, 0, 0)]) as Eg by done.
  assert (len self' = len self + 1) as El by (unfold len, Soa.len; cbn; rewrite length_app; cbn; lia).
  assert (pool_of self' = pool_of self ++ [v]) as Ep by done.
  assert (kinds (soa self') = kinds (soa self) ++ [Const c]) as Ek by done.
  pose proof (registry_small _ Hok). split.
  2: { exists c, 0, 0. unfold c. rewrite Eg, Ep, !lookup_app_r by lia. rewrite Nat2Z.id, Nat.sub_diag.
       by replace (Z.to_nat (len self) - length (registry_graph self))%nat with 0%nat by lia. }
  split; [|split; [by eexists|by eexists]|lia|lia].
  split; [done| |rewrite Ep, El, length_app; cbn; lia| | | |].
  - rewrite Eg. by apply ordered_snoc; [apply Hok|].
  - intros key id. change (table self' !! key) with (table self !! key). rewrite (registry_table _ Hok), Eg. split.
    + intros (? & n & Hn & ?). split; [done|]. exists n. split; [by apply lookup_app_l_Some|done].
    + intros (Hid & n & [Hn|[_ [_ <-]%list_lookup_singleton_Some]]%lookup_app_Some & Hk); [by eauto|done].
  - intros b c'. rewrite Ep. unfold self'. cbn [const_table]. destruct (decide (b = to_bits v)) as [->|Hne].
    + rewrite lookup_insert_eq. split.
      * intros [= <-]. split; [lia|]. unfold c. rewrite Nat2Z.id, lookup_app_r, Nat.sub_diag by lia. by destruct v.
      * intros [Hc0 [Hold|[Hlen [Hz _]%list_lookup_singleton_Some]]%lookup_app_Some]; [|f_equal; unfold c; lia].
        pose proof (proj2 (registry_pool _ Hok _ _) (conj Hc0 Hold)). congruence.
    + rewrite lookup_insert_ne, (registry_pool _ Hok) by done. split.
      * intros [? ?]. split; [done|]. by apply lookup_app_l_Some.
      * intros [? [?|[_ [_ ->]%list_lookup_singleton_Some]]%lookup_app_Some]; [done|]. by destruct Hne.
  - intros c' Hc'. rewrite Ep, length_app in Hc'. cbn in Hc'. rewrite Ek. destruct (decide (c' = c)) as [->|Hne].
    + exists (length (kinds (soa self))). intros j. split.
      * intros [Hj|[Hj [? _]%list_lookup_singleton_Some]]%lookup_app_Some; [|lia].
        apply (registry_range _ Hok) in Hj. unfold c in Hj. lia.
      * intros ->. by rewrite lookup_app_r, Nat.sub_diag.
    + destruct (registry_consts _ Hok c') as [i Hi]; [unfold c in Hne; lia|]. exists i. intros j. rewrite <-Hi. split.
      * intros [Hj|[_ [_ [= ->]]%list_lookup_singleton_Some]]%lookup_app_Some; [done|by destruct Hne].
      * intros Hj. by apply lookup_app_l_Some.
  - intros i c'. rewrite Ek, Ep, length_app. cbn.
    intros [Hj|[_ [_ [= <-]]%list_lookup_singleton_Some]]%lookup_app_Some; [|unfold c; lia].
    apply (registry_range _ Hok) in Hj. lia.
Qed.

Lemma const_value_grows self v : registry_ok self → len self < W32 →
  ∃ id self', const_value self v = Some (id, self') ∧ grows self id self' ∧ answers_const self' id v.
Proof.
  intros Hok Hlt. destruct (const_table self !! to_bits v) as [c|] eqn:Ec.
  - pose proof Ec as (Hc & Hp)%(registry_pool _ Hok). pose proof (lookup_lt_Some _ _ _ Hp) as Hr.
    destruct (registry_consts _ Hok c) as [i Hi]; [lia|]. pose proof (proj2 (Hi i) eq_refl) as Hk.
    destruct (lookup_lt_is_Some_2 (registry_graph self) i) as [[[k l] r] Hg].
    { apply lookup_lt_Some in Hk. unfold registry_graph. by rewrite soa_graph_length by apply Hok. }
    pose proof Hg as (Hk' & _ & _)%soa_graph_lookup; [|apply Hok]. simplify_eq.
    assert (answers_const self (Z.of_nat i) v) as Ha.
    { exists c, l, r. rewrite Nat2Z.id. split; [done|]. rewrite Hp. by destruct v. }
    exists (Z.of_nat i), self. split; [apply const_value_found; [done|lia|done]|]. split; [|done].
    apply lookup_lt_Some in Hg. rewrite <-Nat2Z.id in Hg. pose proof (registry_length self Hok). split; [done|done|lia|lia].
  - pose proof (push_const_grows self v Hok Hlt Ec) as Hpush. pose proof (registry_small _ Hok).
    unfold const_value. rewrite Ec. cbn [mbind option_bind].
    assert (as_u32 (Z.of_nat (length (pool_of self))) = Z.of_nat (length (pool_of self))) as -> by (apply Z.mod_small; lia).
    unfold push_const. cbn [fst snd].
    assert (as_u32 (Soa.len (with_pool (soa self) (pool_of self ++ [v]))) = len self) as ->.
    { apply Z.mod_small. unfold len, Soa.len in *. cbn. lia. }
    by eexists _, _.
Qed.

(** *** Applications *)

(** A constant node, by its value. *)
Definition const_at (self : HashConsRegistry) (id : Z) : option f64 :=
  n ← registry_graph self !! Z.to_nat id;
  match n with
  | (One, _, _) => Some f64_one
  | (Zero, _, _) => Some f64_zero
  | (Const c, _, _) => pool_of self !! Z.to_nat c
  | _ => None
  end.

Lemma eval_const_node_at self id : registry_ok self → 0 ≤ id < len self →
  eval_const_node self id = Some (const_at self id).
Proof.
  intros Hok Hid. unfold eval_const_node, const_at.
  destruct (soa_get (soa self) id) as (k & l & r & Hg & ->); [apply Hok|done|].
  unfold registry_graph. rewrite Hg. by destruct k.
Qed.

Lemma const_at_value `{Libm} self inputs id v : registry_ok self → const_at self id = Some v →
  registry_value self inputs id = v.
Proof.
  intros Hok Ha. unfold const_at in Ha.
  destruct (registry_graph self !! Z.to_nat id) as [[[k l] r]|] eqn:Hg; [|done]. cbn in Ha.
  unfold registry_value, value_at. rewrite (graph_values_lookup _ _ _ _ (registry_ordered _ Hok) Hg). cbn [default].
  destruct k as [| |w|c|]; cbn in Ha; simplify_eq; try done. cbn. unfold get_const. cbn. by rewrite Ha.
Qed.

Lemma const_at_extends self self' id : registry_ok self → extends self self' → 0 ≤ id < len self →
  const_at self' id = const_at self id.
Proof.
  intros Hok [[g Eg] [p Ep]] Hid. rewrite <-registry_length in Hid by done. unfold const_at. rewrite Eg, Ep.
  rewrite lookup_app_l by lia. destruct (lookup_lt_is_Some_2 (registry_graph self) (Z.to_nat id)) as [[[k l] r] Hg]; [lia|].
  rewrite Hg. cbn. destruct k as [| |v|c|]; try done.
  destruct (registry_const_leaf _ _ _ _ _ Hok Hg) as [w Hw]. by rewrite (lookup_app_l_Some _ _ _ _ Hw), Hw.
Qed.

(** The constant that replaces an application, if any. *)
Definition folded `{Libm} (self : HashConsRegistry) (l r : Z) : option f64 :=
  match const_at self l, const_at self r with
  | Some a, Some b => if is_finite (bml_base_op a b) then Some (bml_base_op a b) else None
  | _, _ => None
  end.

Lemma bml_cases `{Libm} self l r : registry_ok self → 0 ≤ l < len self → 0 ≤ r < len self →
  HashCons.bml self l r =
    match folded self l r with
    | Some v => const_value self v
    | None => Some (intern self (KBml l r) (λ s, push_bml s l r))
    end.
Proof.
  intros Hok Hl Hr. unfold HashCons.bml. rewrite !eval_const_node_at by done. cbn [mbind option_bind].
  unfold folded. destruct (const_at self l), (const_at self r); try done. by destruct (is_finite _).
Qed.

Lemma const_value_answer `{Libm} self inputs id v : registry_ok self → answers_const self id v →
  registry_value self inputs id = v.
Proof.
  intros Hok (c & l & r & Hg & Hp). apply const_at_value; [done|]. unfold const_at. by rewrite Hg.
Qed.

(** ** A client *)

(** A request names earlier answers by their position. *)
Inductive Request : Set := OneReq | ZeroReq | VarReq (v : Z) | ConstReq (v : f64) | BmlReq (i j : nat).

Section client.
Context {H : Libm}.
Implicit Types (self : HashConsRegistry) (ids : list Z) (q : Request).

Definition serve self ids q : option (Z * HashConsRegistry) :=
  match q with
  | OneReq => Some (HashCons.one self)
  | ZeroReq => Some (HashCons.zero self)
  | VarReq v => Some (HashCons.var self v)
  | ConstReq v => const_value self v
  | BmlReq i j => l ← ids !! i; r ← ids !! j; HashCons.bml self l r
  end.

Fixpoint serve_all self ids (qs : list Request) : option (HashConsRegistry * list Z) :=
  match qs with
  | [] => Some (self, ids)
  | q :: qs => '(id, self) ← serve self ids q; serve_all self (ids ++ [id]) qs
  end.

(** Operands are earlier answers. *)
Definition well_formed (qs : list Request) : Prop :=
  ∀ k i j, qs !! k = Some (BmlReq i j) → (i < k)%nat ∧ (j < k)%nat.

(** The values that the requests ask for: no sharing, no folding. *)
Definition request_value (inputs : list f64) (vs : list f64) q : f64 :=
  match q with
  | OneReq => f64_one
  | ZeroReq => f64_zero
  | VarReq v => default f64_nan (inputs !! Z.to_nat v)
  | ConstReq v => v
  | BmlReq i j => bml_base_op (default f64_nan (vs !! i)) (default f64_nan (vs !! j))
  end.
Definition values_of (inputs : list f64) (qs : list Request) : list f64 :=
  foldl (λ vs q, vs ++ [request_value inputs vs q]) [] qs.

(** The answers so far are nodes, of the values [vs]. *)
Definition answers self ids : Prop := Forall (λ id, 0 ≤ id < len self) ids.
Definition answer_values self (inputs : list f64) ids (vs : list f64) : Prop :=
  Forall2 (λ id v, registry_value self inputs id = v) ids vs.

(** The node [id] is what the registry has for a request. *)
Definition settled self ids q (id : Z) : Prop :=
  match q with
  | OneReq => table self !! KOne = Some id
  | ZeroReq => table self !! KZero = Some id
  | VarReq _ => True
  | ConstReq v => 0 ≤ id ∧ answers_const self id v
  | BmlReq i j => ∃ l r, ids !! i = Some l ∧ ids !! j = Some r ∧
      match folded self l r with
      | Some v => 0 ≤ id ∧ answers_const self id v
      | None => table self !! KBml l r = Some id
      end
  end.

Definition is_var_request q : bool := match q with VarReq _ => true | _ => false end.

Lemma folded_extends self self' l r : registry_ok self → extends self self' →
  0 ≤ l < len self → 0 ≤ r < len self → folded self' l r = folded self l r.
Proof. intros Hok He Hl Hr. unfold folded. by rewrite !(const_at_extends self self') by done. Qed.

Lemma answers_const_extends self self' id v : extends self self' → answers_const self id v → answers_const self' id v.
Proof.
  intros [Hg Hp] (c & l & r & Hn & Hv). exists c, l, r. split; by eapply prefix_lookup_Some.
Qed.

Lemma answers_lookup self ids i id : answers self ids → ids !! i = Some id → 0 ≤ id < len self.
Proof. intros Ha Hi. by eapply (Forall_lookup_1 _ _ _ _ Ha). Qed.

Lemma settled_extends self self' ids more q id : registry_ok self → registry_ok self' → extends self self' →
  answers self ids → settled self ids q id → settled self' (ids ++ more) q id.
Proof.
  intros Hok Hok' He Ha Hs. destruct q as [| |v|v|i j]; cbn in *; try done.
  - by eapply (table_extends self).
  - by eapply (table_extends self).
  - destruct Hs. split; [done|]. by eapply (answers_const_extends self).
  - destruct Hs as (l & r & Hl & Hr & Hs). exists l, r. split; [by apply lookup_app_l_Some|].
    split; [by apply lookup_app_l_Some|].
    rewrite (folded_extends self self') by eauto using answers_lookup.
    destruct (folded self l r); [destruct Hs; split; [done|]; by eapply (answers_const_extends self)|by eapply (table_extends self)].
Qed.

(** A settled request is answered without a change. *)
Lemma settled_serve self ids q id : registry_ok self → answers self ids → is_var_request q = false →
  settled self ids q id → serve self ids q = Some (id, self).
Proof.
  intros Hok Ha Hq Hs. destruct q as [| |v|v|i j]; cbn in *; try done.
  - unfold HashCons.one, intern. by rewrite Hs.
  - unfold HashCons.zero, intern. by rewrite Hs.
  - destruct Hs. by apply const_value_found.
  - destruct Hs as (l & r & Hl & Hr & Hs). rewrite Hl, Hr. cbn. rewrite bml_cases by eauto using answers_lookup.
    destruct (folded self l r); [destruct Hs; by apply const_value_found|]. unfold intern. by rewrite Hs.
Qed.

(** Every request is answered. *)
Lemma serve_total self ids q : registry_ok self → len self < W32 → answers self ids →
  (∀ i j, q = BmlReq i j → (i < length ids)%nat ∧ (j < length ids)%nat) →
  ∃ id self', serve self ids q = Some (id, self') ∧ grows self id self' ∧ settled self' ids q id ∧
    (∀ v, q = VarReq v → registry_graph self' !! Z.to_nat id = Some (Var v, 0, 0)).
Proof.
  intros Hok Hlt Ha Hq. destruct q as [| |v|v|i j]; cbn [serve].
  - pose proof (intern_grows self KOne push_one (One, 0, 0) Hok Hlt) as Hi.
    unfold HashCons.one. destruct (intern self KOne push_one) as [id self'].
    destruct Hi as [Hg Ht]; [by eexists|done|done|]. by exists id, self'.
  - pose proof (intern_grows self KZero push_zero (Zero, 0, 0) Hok Hlt) as Hi.
    unfold HashCons.zero. destruct (intern self KZero push_zero) as [id self'].
    destruct Hi as [Hg Ht]; [by eexists|done|done|]. by exists id, self'.
  - pose proof (var_grows self v Hok Hlt) as Hv. destruct (HashCons.var self v) as [id self'].
    destruct Hv as (Hg & _ & Hn). exists id, self'. do 3 (split; [done|]). by intros ? [= <-].
  - destruct (const_value_grows self v Hok Hlt) as (id & self' & E & Hg & Hc). exists id, self'.
    split; [done|]. split; [done|]. split; [|done]. split; [apply Hg|done].
  - destruct (Hq i j eq_refl) as [[l Hl]%lookup_lt_is_Some [r Hr]%lookup_lt_is_Some]. rewrite Hl, Hr. cbn [mbind option_bind].
    pose proof (answers_lookup _ _ _ _ Ha Hl) as Bl. pose proof (answers_lookup _ _ _ _ Ha Hr) as Br.
    rewrite bml_cases by done. destruct (folded self l r) as [v|] eqn:Ef.
    + destruct (const_value_grows self v Hok Hlt) as (id & self' & E & Hg & Hc). exists id, self'.
      split; [done|]. split; [done|]. split; [|done]. exists l, r. do 2 (split; [done|]).
      rewrite (folded_extends self self'), Ef by (done || apply Hg). split; [apply Hg|done].
    + pose proof (intern_grows self (KBml l r) (λ s, push_bml s l r) (Bml, l, r) Hok Hlt) as Hi.
      destruct (intern self _ _) as [id self']. destruct Hi as [Hg Ht]; [by eexists|done|by intros ? ? [= <- <-]|].
      exists id, self'. split; [done|]. split; [done|]. split; [|done]. exists l, r. do 2 (split; [done|]).
      by rewrite (folded_extends self self'), Ef by (done || apply Hg).
Qed.

(** The value of an interned node. *)
Lemma table_value self inputs key id : registry_ok self → table self !! key = Some id →
  registry_value self inputs id =
    match key with
    | KOne => f64_one
    | KZero => f64_zero
    | KBml l r => bml_base_op (registry_value self inputs l) (registry_value self inputs r)
    end.
Proof.
  intros Hok (Hid & [[k l] r] & Hn & Hk)%(registry_table _ Hok). unfold registry_value at 1, value_at.
  rewrite (graph_values_lookup _ _ _ _ (registry_ordered _ Hok) Hn). cbn [default].
  destruct k; cbn in Hk; simplify_eq; done.
Qed.

(** A settled request has the value it asks for. *)
Lemma settled_value self inputs ids vs q id : registry_ok self → answers self ids →
  answer_values self inputs ids vs → settled self ids q id →
  (∀ v, q = VarReq v → registry_graph self !! Z.to_nat id = Some (Var v, 0, 0)) →
  registry_value self inputs id = request_value inputs vs q.
Proof.
  intros Hok Ha Hv Hs Hvar. destruct q as [| |v|v|i j]; cbn in *.
  - by rewrite (table_value _ _ _ _ Hok Hs).
  - by rewrite (table_value _ _ _ _ Hok Hs).
  - unfold registry_value, value_at.
    by rewrite (graph_values_lookup _ _ _ _ (registry_ordered _ Hok) (Hvar v eq_refl)).
  - destruct Hs as [_ Hs]. by apply const_value_answer.
  - destruct Hs as (l & r & Hl & Hr & Hs).
    destruct (Forall2_lookup_l _ _ _ _ _ Hv Hl) as (vl & Evl & El).
    destruct (Forall2_lookup_l _ _ _ _ _ Hv Hr) as (vr & Evr & Er). rewrite Evl, Evr. cbn.
    unfold folded in Hs.
    destruct (const_at self l) as [a|] eqn:Al, (const_at self r) as [b|] eqn:Ar;
      try (rewrite (table_value _ _ _ _ Hok Hs); by rewrite El, Er).
    destruct (is_finite _); [|rewrite (table_value _ _ _ _ Hok Hs); by rewrite El, Er].
    destruct Hs as [_ Hs]. rewrite (const_value_answer _ _ _ _ Hok Hs).
    rewrite (const_at_value _ inputs _ _ Hok Al) in El. rewrite (const_at_value _ inputs _ _ Hok Ar) in Er. congruence.
Qed.
End client.

(** ** A list of requests *)

Lemma Forall2_weaken_l {A B} (Q : A → Prop) (P R : A → B → Prop) l k :
  Forall Q l → Forall2 P l k → (∀ x y, Q x → P x y → R x y) → Forall2 R l k.
Proof. intros HQ HP Himpl. induction HP; decompose_Forall_hyps; constructor; eauto. Qed.

Section runs.
Context {H : Libm}.
Implicit Types (self : HashConsRegistry) (ids : list Z) (q : Request).

Record client_inv self ids (qs : list Request) : Prop := {
  client_ok : registry_ok self;
  client_answers : answers self ids;
  client_length : length ids = length qs;
  client_len : len self ≤ Z.of_nat (length qs);
  client_settled : ∀ k q id, qs !! k = Some q → ids !! k = Some id → settled self ids q id;
  client_values : ∀ inputs, answer_values self inputs ids (values_of inputs qs);
}.

Lemma values_of_snoc inputs qs q :
  values_of inputs (qs ++ [q]) = values_of inputs qs ++ [request_value inputs (values_of inputs qs) q].
Proof. unfold values_of. by rewrite foldl_app. Qed.

Lemma answers_extends self self' ids : len self ≤ len self' → answers self ids → answers self' ids.
Proof. intros Hl Ha. eapply Forall_impl; [exact Ha|]. intros id ?. cbn in *. lia. Qed.

Lemma client_step self ids qs q : client_inv self ids qs → Z.of_nat (length (qs ++ [q])) ≤ W32 →
  well_formed (qs ++ [q]) →
  ∃ id self', serve self ids q = Some (id, self') ∧ client_inv self' (ids ++ [id]) (qs ++ [q]).
Proof.
  intros [Hok Ha Hl Hlen Hs Hv] Hlt Hwf. rewrite length_app in Hlt. cbn in Hlt.
  assert ((qs ++ [q]) !! length qs = Some q) as Hlast by (by rewrite lookup_app_r, Nat.sub_diag).
  destruct (serve_total self ids q Hok) as (id & self' & E & [Hok' He Hid Hl'] & Hset & Hvar); [lia|done| |].
  { intros i j ->. rewrite Hl. by eapply Hwf. }
  assert (answers self' ids) as Ha' by (apply (answers_extends self); [|done]; destruct He as [[g Eg] _];
    rewrite <-!registry_length by done; rewrite Eg, length_app; lia).
  exists id, self'. split; [done|]. assert (∀ inputs, answer_values self' inputs ids (values_of inputs qs)) as Hold.
  { intros inputs. apply (Forall2_weaken_l _ _ _ _ _ Ha (Hv inputs)). intros i v Hi Hiv. by rewrite (extends_value self). }
  split.
  - done.
  - apply Forall_app. split; [done|]. by apply Forall_singleton.
  - rewrite !length_app. cbn. lia.
  - rewrite length_app. cbn. lia.
  - intros k q' id' Hq Hi. destruct (decide (k = length qs)) as [->|Hne].
    + rewrite lookup_app_r, Hl, Nat.sub_diag in Hi by lia. simplify_eq/=.
      apply (settled_extends self'); done.
    + pose proof (lookup_lt_Some _ _ _ Hq) as Hk. rewrite length_app in Hk. cbn in Hk.
      rewrite lookup_app_l in Hq by lia. rewrite lookup_app_l in Hi by lia. apply (settled_extends self); [assumption..|by apply (Hs k)].
  - intros inputs. rewrite values_of_snoc. apply Forall2_app; [apply Hold|]. apply Forall2_cons. split; [|by apply Forall2_nil].
    by eapply (settled_value self' inputs ids).
Qed.

Lemma client_run self ids qs qs' : client_inv self ids qs → Z.of_nat (length (qs ++ qs')) ≤ W32 →
  well_formed (qs ++ qs') →
  ∃ self' ids', serve_all self ids qs' = Some (self', ids') ∧ client_inv self' ids' (qs ++ qs').
Proof.
  revert self ids qs. induction qs' as [|q qs' IH]; intros self ids qs Hinv Hlt Hwf.
  { exists self, ids. by rewrite app_nil_r. }
  rewrite (cons_middle q qs qs'), app_assoc in *.
  destruct (client_step self ids qs q) as (id & self' & E & Hinv'); [done| | |].
  - rewrite length_app in Hlt. lia.
  - intros k i j Hk. by eapply Hwf, lookup_app_l_Some.
  - cbn [serve_all]. rewrite E. cbn [mbind option_bind]. by apply IH.
Qed.

Lemma client_new : client_inv HashCons.new [] [].
Proof. split; [apply new_registry_ok|by apply Forall_nil|done|done|done|]. intros inputs. by apply Forall2_nil. Qed.

Lemma run_requests qs : Z.of_nat (length qs) ≤ W32 → well_formed qs →
  ∃ self ids, serve_all HashCons.new [] qs = Some (self, ids) ∧ client_inv self ids qs.
Proof. intros Hlt Hwf. by apply (client_run HashCons.new [] []); [apply client_new|..]. Qed.

(** A node that is not a variable occurs once. *)
Lemma registry_no_duplicates self i j n : registry_ok self →
  registry_graph self !! i = Some n → registry_graph self !! j = Some n →
  (∀ v l r, n ≠ (Var v, l, r)) → i = j.
Proof.
  intros Hok Hi Hj Hn. destruct (key_of n) as [key|] eqn:Ek.
  - assert (∀ k, registry_graph self !! k = Some n → table self !! key = Some (Z.of_nat k)) as Ht.
    { intros k Hk. apply (registry_table _ Hok). rewrite Nat2Z.id. split; [lia|]. eauto. }
    apply Ht in Hi, Hj. simplify_eq. lia.
  - destruct n as [[k l] r]. destruct k as [| |v|c|]; try done; [by destruct (Hn v l r)|].
    apply soa_graph_lookup in Hi as (Hi & _); [|apply Hok]. apply soa_graph_lookup in Hj as (Hj & _); [|apply Hok].
    destruct (registry_consts _ Hok c) as [k Hk]; [by eapply (registry_range _ Hok)|].
    apply Hk in Hi, Hj. congruence.
Qed.

(** Requests for the same node: the same kind, and operands with the same answers. *)
Definition same_request ids q q' : Prop :=
  match q, q' with
  | OneReq, OneReq | ZeroReq, ZeroReq => True
  | ConstReq v, ConstReq v' => v = v'
  | BmlReq i j, BmlReq i' j' => ids !! i = ids !! i' ∧ ids !! j = ids !! j'
  | _, _ => False
  end.
End runs.

(** ** Theorems *)

(** [C26] The registry computes what was asked for. A list of fewer than [2 ^ 32] requests
    whose operands are earlier answers is answered without a panic by at most one node per
    request, and evaluating the node of an answer over the columns and their own constants
    gives, bit for bit, the value of the request without sharing or folding, whatever the
    inputs: replacing an application of constants by its value changes no result. *)
Theorem hash_cons_exact `{Libm} qs : Z.of_nat (length qs) ≤ W32 → well_formed qs →
  ∃ self ids, serve_all HashCons.new [] qs = Some (self, ids) ∧ length ids = length qs ∧
    len self ≤ Z.of_nat (length qs) ∧
    ∀ inputs, Forall2 (λ id v,
      Dag.evaluate (Z.to_nat (len self)) (Dag.new (into_soa self) id) (mkContext inputs (pool_of self)) = Some v)
      ids (values_of inputs qs).
Proof.
  intros Hlt Hwf. destruct (run_requests qs Hlt Hwf) as (self & ids & E & [Hok Ha Hl Hlen _ Hv]).
  exists self, ids. do 3 (split; [done|]). intros inputs.
  apply (Forall2_weaken_l _ _ _ _ _ Ha (Hv inputs)). intros id v Hid <-. unfold Dag.evaluate.
  cbn [Dag.soa Dag.root Dag.new]. apply evaluate_soa_graph; [apply Hok|apply Hok|done|lia].
Qed.

(** [C27] The registry shares. After any list of requests, two requests for the same node
    have the same answer, asking for it once more changes nothing, and no two nodes but
    those of variables have the same kind and children. *)
Theorem hash_cons_shares `{Libm} qs self ids : Z.of_nat (length qs) ≤ W32 → well_formed qs →
  serve_all HashCons.new [] qs = Some (self, ids) →
  (∀ i j q q', qs !! i = Some q → qs !! j = Some q' → same_request ids q q' → ids !! i = ids !! j) ∧
  (∀ i q id, qs !! i = Some q → ids !! i = Some id → is_var_request q = false →
     serve self ids q = Some (id, self)) ∧
  ∀ i j n, registry_graph self !! i = Some n → registry_graph self !! j = Some n →
    (∀ v l r, n ≠ (Var v, l, r)) → i = j.
Proof.
  intros Hlt Hwf E. destruct (run_requests qs Hlt Hwf) as (self' & ids' & E' & [Hok Ha Hl _ Hs _]).
  rewrite E in E'. injection E' as <- <-.
  assert (∀ i q id, qs !! i = Some q → ids !! i = Some id → is_var_request q = false →
     serve self ids q = Some (id, self)) as Hserve by (intros; eapply settled_serve; eauto).
  split; [|split; [done|intros; by eapply registry_no_duplicates]].
  intros i j q q' Hi Hj Hsame.
  assert (∀ k q, qs !! k = Some q → ∃ id, ids !! k = Some id) as Hget.
  { intros k q0 Hk. apply lookup_lt_is_Some. rewrite Hl. by eapply lookup_lt_Some. }
  destruct (Hget i q Hi) as [id Hid], (Hget j q' Hj) as [id' Hid']. rewrite Hid, Hid'. f_equal.
  assert (serve self ids q = serve self ids q' ∧ is_var_request q = false ∧ is_var_request q' = false) as (Eq & Hq & Hq').
  { destruct q, q'; cbn in Hsame; try done; [by subst|]. destruct Hsame as [H1 H2]. cbn. by rewrite H1, H2. }
  rewrite (Hserve i q id), (Hserve j q' id') in Eq by done. by simplify_eq.
Qed.

(** [bml(1, 1)] twice over one shared node, and a product of variables. *)
Lemma hash_cons_exact_witness :
  let qs := [OneReq; BmlReq 0 0; OneReq; BmlReq 0 2; VarReq 0; BmlReq 3 4] in
  Z.of_nat (length qs) ≤ W32 ∧
  ∃ self ids, @serve_all libm_example HashCons.new [] qs = Some (self, ids) ∧ length ids = 6%nat.
Proof.
  intros qs. split; [done|]. destruct (@hash_cons_exact libm_example qs) as (self & ids & E & Hl & _); [done| |by exists self, ids].
  intros [|[|[|[|[|[|k]]]]]] i j Hk; cbn in Hk; simplify_eq; lia.
Defined.

Lemma hash_cons_shares_witness :
  let qs := [OneReq; BmlReq 0 0; OneReq; BmlReq 0 2; VarReq 0; BmlReq 3 4] in
  ∃ self ids, @serve_all libm_example HashCons.new [] qs = Some (self, ids) ∧ ids !! 1%nat = ids !! 3%nat ∧ ids !! 0%nat = Some 0.
Proof.
  intros qs. eexists _, _. split; [vm_compute; reflexivity|]. split; [|done].
  eapply (@hash_cons_shares libm_example qs); [done| |vm_compute; reflexivity|done|done|done].
  intros [|[|[|[|[|[|k]]]]]] i j Hk; cbn in Hk; simplify_eq; lia.
Defined.

(** Variables are not shared: asking twice for one gives two equal nodes, and so do the
    applications over them. *)
Theorem variables_not_shared :
  ∃ self ids, @serve_all libm_example HashCons.new [] [VarReq 0; VarReq 0; OneReq; BmlReq 0 2; BmlReq 1 2] = Some (self, ids) ∧
    ids = [0; 1; 2; 3; 4] ∧ registry_graph self !! 0%nat = registry_graph self !! 1%nat.
Proof. eexists _, _. split; [vm_compute; reflexivity|]. split; reflexivity. Qed.
