(* ===== verification/Rpn.v ===== *)
(** * rpn.rs: stack programs and their reference evaluators

    A stack is a list whose head is the top. [evaluate_with_ctx] has two evaluators: the
    historical one, whose loops nest twice and repeat their body as it is, and the checked
    one, which gives every iteration its counter. *)
From S2P Require Import Prelude Float FloatArith FloatInt Syntax.
Import Syntax.Ast.

Module Rpn.
Inductive RpnOp : Set :=
  | One
  | Zero
  | Bml
  | Dup
  | Var (id : Z)
  | Const (id : Z)
  | VarIndexed (base : Z)
  | ContextVarIndexed (base : Z)
  | ContextConstIndexed (base : Z)
  | StoreResult (slot : Z)
  | Loop (count body_len : Z)
  | FAdd
  | FMul
  | Pick (depth : Z)
  | Drop
  | Swap
  | FMax.

#[export] Instance RpnOp_eq_dec : EqDecision RpnOp.
Proof. solve_decision. Defined.

Definition finite_max (left right : f64) : f64 :=
  if negb (is_finite left) || negb (is_finite right) then f64_nan
  else if f64_eq left f64_zero && f64_eq right f64_zero
  then from_bits (Z.land (to_bits left) (to_bits right))
  else f64_max left right.

(** [u32::checked_add]. *)
Definition checked_add_u32 (a b : Z) : option Z := if a + b <? W32 then Some (a + b) else None.

Definition context_index (base : Z) (offset : f64) : option Z :=
  if negb (is_finite offset) || f64_lt offset f64_zero || negb (f64_eq (f64_fract offset) f64_zero)
     || f64_lt u32_max offset
  then None
  else checked_add_u32 base (f64_as_u32 offset).

Record RpnProgram : Set := mkProgram { const_pool : list f64; ops : list RpnOp }.

Definition new : RpnProgram := mkProgram [] [].
Definition len (self : RpnProgram) : Z := Z.of_nat (length (ops self)).
Definition is_empty (self : RpnProgram) : bool := bool_decide (ops self = []).
Definition push (self : RpnProgram) (op : RpnOp) : RpnProgram := mkProgram (const_pool self) (ops self ++ [op]).

(** ** Stacks *)

(** [stack.pop().unwrap_or(d)]. *)
Definition pop_or (d : f64) (stack : list f64) : f64 * list f64 :=
  match stack with [] => (d, []) | v :: stack => (v, stack) end.

(** The element [i] from the bottom, as the code counts. *)
Definition from_bottom (stack : list f64) (i : Z) : option f64 := reverse stack !! Z.to_nat i.

Definition swap_top (stack : list f64) : list f64 :=
  match stack with a :: b :: stack => b :: a :: stack | _ => stack end.

Section evaluators.
Context {H : Libm} (ctx : EvalContext).

Definition context_var (base : Z) (offset : f64) : f64 :=
  match context_index base offset with Some id => get_var ctx id | None => f64_nan end.
Definition context_const (base : Z) (offset : f64) : f64 :=
  match context_index base offset with Some id => get_const ctx id | None => f64_nan end.

(** *** The historical evaluator *)

(** One operation other than a loop; [None] is a panic. The three nested copies of the
    code do the same. *)
Definition step (op : RpnOp) (stack : list f64) : option (list f64) :=
  match op with
  | One => Some (f64_one :: stack)
  | Zero => Some (f64_zero :: stack)
  | Var id => Some (get_var ctx id :: stack)
  | Const id => Some (get_const ctx id :: stack)
  | ContextVarIndexed base =>
      let '(offset, stack) := pop_or f64_nan stack in Some (context_var base offset :: stack)
  | ContextConstIndexed base =>
      let '(offset, stack) := pop_or f64_nan stack in Some (context_const base offset :: stack)
  | VarIndexed _ => let '(_, stack) := pop_or f64_zero stack in Some (f64_nan :: stack)
  | StoreResult _ =>
      let '(_, stack) := pop_or f64_zero stack in let '(_, stack) := pop_or f64_zero stack in Some stack
  | Bml => match stack with b :: a :: stack => Some (bml_base_op a b :: stack) | _ => None end
  | Dup => match stack with v :: _ => Some (v :: stack) | [] => None end
  | FAdd =>
      let '(b, stack) := pop_or f64_zero stack in let '(a, stack) := pop_or f64_zero stack in
      Some (f64_add a b :: stack)
  | FMul =>
      let '(b, stack) := pop_or f64_zero stack in let '(a, stack) := pop_or f64_zero stack in
      Some (f64_mul a b :: stack)
  | FMax =>
      let '(right, stack) := pop_or f64_nan stack in let '(left, stack) := pop_or f64_nan stack in
      Some (finite_max left right :: stack)
  | Pick depth =>
      let idx := saturating_sub (Z.of_nat (length stack)) (1 + depth) in
      Some (default f64_zero (from_bottom stack idx) :: stack)
  | Drop => Some (tail stack)
  | Swap => Some (swap_top stack)
  | Loop _ _ => None
  end.

Fixpoint repeat_body (n : nat) (body : list f64 → option (list f64)) (stack : list f64) : option (list f64) :=
  match n with O => Some stack | S n => stack ← body stack; repeat_body n body stack end.

(** The operations from [i] to [e]: [body] runs those of a loop, and is absent at the
    innermost level, where a loop panics. *)
Fixpoint run_range (body : option (Z → Z → list f64 → option (list f64))) (all : list RpnOp)
    (fuel : nat) (i e : Z) (stack : list f64) : option (list f64) :=
  if e <=? i then Some stack else
  match fuel with
  | O => None
  | S fuel =>
      op ← all !! Z.to_nat i;
      match op with
      | Loop count body_len =>
          body ← body;
          let body_end := i + 1 + body_len in
          stack ← repeat_body (Z.to_nat count) (body (i + 1) body_end) stack;
          run_range (Some body) all fuel body_end e stack
      | _ => stack ← step op stack; run_range body all fuel (i + 1) e stack
      end
  end.

(** Every turn goes forward. *)
Definition run_level (body : option (Z → Z → list f64 → option (list f64))) (all : list RpnOp) (i e : Z)
    (stack : list f64) : option (list f64) :=
  run_range body all (Z.to_nat (e - i)) i e stack.

Definition run_inner (all : list RpnOp) : Z → Z → list f64 → option (list f64) := run_level None all.
Definition run_outer (all : list RpnOp) : Z → Z → list f64 → option (list f64) :=
  run_level (Some (run_inner all)) all.
Definition run (all : list RpnOp) (stack : list f64) : option (list f64) :=
  run_level (Some (run_outer all)) all 0 (Z.of_nat (length all)) stack.

(** *** The checked evaluator *)

Definition is_counter_op (op : RpnOp) : bool :=
  match op with ContextVarIndexed _ | ContextConstIndexed _ | FMax => true | _ => false end.
Definition uses_counter_loops (all : list RpnOp) : bool := existsb is_counter_op all.

(** One operation other than a loop; [None] is the error. *)
Definition indexed_step (op : RpnOp) (stack : list f64) : option (list f64) :=
  match op with
  | One => Some (f64_one :: stack)
  | Zero => Some (f64_zero :: stack)
  | Var id => Some (get_var ctx id :: stack)
  | Const id => Some (get_const ctx id :: stack)
  | ContextVarIndexed base =>
      match stack with [] => None | offset :: stack => Some (context_var base offset :: stack) end
  | ContextConstIndexed base =>
      match stack with [] => None | offset :: stack => Some (context_const base offset :: stack) end
  | Bml => match stack with right :: left :: stack => Some (bml_base_op left right :: stack) | _ => None end
  | FAdd => match stack with right :: left :: stack => Some (f64_add left right :: stack) | _ => None end
  | FMul => match stack with right :: left :: stack => Some (f64_mul left right :: stack) | _ => None end
  | FMax => match stack with right :: left :: stack => Some (finite_max left right :: stack) | _ => None end
  | Dup => match stack with v :: _ => Some (v :: stack) | [] => None end
  | Pick depth =>
      index ← checked_sub (Z.of_nat (length stack)) (depth + 1);
      v ← from_bottom stack index; Some (v :: stack)
  | Drop => match stack with [] => None | _ :: stack => Some stack end
  | Swap => match stack with a :: b :: stack => Some (b :: a :: stack) | _ => None end
  | VarIndexed _ => match stack with [] => None | _ :: stack => Some (f64_nan :: stack) end
  | StoreResult _ => match stack with _ :: _ :: stack => Some stack | _ => None end
  | Loop _ _ => None
  end.

(** Iterations from [index] on, each after its counter. *)
Fixpoint count_body {A} (n : nat) (index : Z) (body : f64 → A → option A) (s : A) : option A :=
  match n with O => Some s | S n => s ← body (f64_of_Z index) s; count_body n (index + 1) body s end.

(** The slices shrink, so their length is enough fuel. The stack that an error leaves
    behind is not modelled: the callers discard it. *)
Fixpoint evaluate_indexed_ops (fuel : nat) (depth : Z) (all : list RpnOp) (stack : list f64) : option (list f64) :=
  match fuel, all with
  | _, [] => Some stack
  | O, _ => None
  | S fuel, op :: rest =>
      match op with
      | Loop count body_len =>
          if 2 <=? depth then None else
          if Z.of_nat (length rest) <? body_len then None else
          stack ← count_body (Z.to_nat count) 0
            (λ index stack, evaluate_indexed_ops fuel (depth + 1) (take (Z.to_nat body_len) rest) (index :: stack)) stack;
          evaluate_indexed_ops fuel depth (drop (Z.to_nat body_len) rest) stack
      | _ => stack ← indexed_step op stack; evaluate_indexed_ops fuel depth rest stack
      end
  end.

(** [None] is a panic. *)
Definition evaluate_with_ctx (self : RpnProgram) : option f64 :=
  if uses_counter_loops (ops self) then
    Some (match evaluate_indexed_ops (length (ops self)) 0 (ops self) [] with
          | Some stack => default f64_nan (head stack)
          | None => f64_nan
          end)
  else
    stack ← run (ops self) [];
    Some (default f64_nan (head stack)).
End evaluators.

Definition evaluate `{Libm} (self : RpnProgram) : option f64 :=
  evaluate_with_ctx (mkContext [] (const_pool self)) self.
End Rpn.

(** ** Straight-line code *)

Import Rpn.

Definition is_loop (op : RpnOp) : bool := match op with Loop _ _ => true | _ => false end.
Definition loop_free (all : list RpnOp) : Prop := Forall (λ op, is_loop op = false) all.

(** The operations in order, by either evaluator. *)
Fixpoint exec (f : RpnOp → list f64 → option (list f64)) (all : list RpnOp) (stack : list f64) : option (list f64) :=
  match all with [] => Some stack | op :: all => stack ← f op stack; exec f all stack end.

Section straight_line.
Context {H : Libm} (ctx : EvalContext).

Lemma exec_app f a b stack : exec f (a ++ b) stack = exec f a stack ≫= exec f b.
Proof.
  revert stack. induction a as [|op a IH]; intros stack; cbn; [done|].
  destruct (f op stack); cbn; [apply IH|done].
Qed.

Lemma exec_mono f g all stack stack' : (∀ op s s', f op s = Some s' → g op s = Some s') →
  exec f all stack = Some stack' → exec g all stack = Some stack'.
Proof.
  intros Hfg. revert stack. induction all as [|op all IH]; intros stack; cbn; [done|].
  destruct (f op stack) as [s|] eqn:E; cbn; [|done]. rewrite (Hfg _ _ _ E). apply IH.
Qed.

Lemma run_range_exec body all fuel i stack : loop_free all → 0 ≤ i ≤ Z.of_nat (length all) →
  Z.of_nat (length all) - i ≤ Z.of_nat fuel →
  run_range ctx body all fuel i (Z.of_nat (length all)) stack = exec (step ctx) (drop (Z.to_nat i) all) stack.
Proof.
  intros Hfree. revert i stack. induction fuel as [|fuel IH]; intros i stack Hi Hf; cbn [run_range];
    destruct (Z.leb_spec (Z.of_nat (length all)) i); try (rewrite drop_ge by lia; done); [lia|].
  destruct (lookup_lt_is_Some_2 all (Z.to_nat i)) as [op Hop]; [lia|].
  rewrite Hop. cbn [mbind option_bind]. rewrite (drop_S _ _ _ Hop). cbn [exec].
  pose proof (Forall_lookup_1 _ _ _ _ Hfree Hop) as Hl.
  destruct op; try done; (destruct (step ctx _ stack) as [stack'|]; cbn [mbind option_bind]; [|done]);
    rewrite IH by lia; do 2 f_equal; lia.
Qed.

(** A program without loops is run in order. *)
Lemma run_exec all stack : loop_free all → run ctx all stack = exec (step ctx) all stack.
Proof. intros Hfree. unfold run, run_level. rewrite run_range_exec; [done|done|lia|lia]. Qed.

Lemma from_bottom_top stack d : (d < length stack)%nat →
  from_bottom stack (Z.of_nat (length stack) - (1 + Z.of_nat d)) = stack !! d.
Proof.
  intros Hd. unfold from_bottom. rewrite reverse_lookup by lia. f_equal. lia.
Qed.

Lemma step_pick d stack v : stack !! d = Some v → indexed_step ctx (Pick (Z.of_nat d)) stack = Some (v :: stack).
Proof.
  intros Hv. pose proof (lookup_lt_Some _ _ _ Hv) as Hd. cbn [indexed_step]. unfold checked_sub.
  destruct (Z.leb_spec (Z.of_nat d + 1) (Z.of_nat (length stack))); [|lia]. cbn [mbind option_bind].
  replace (Z.of_nat (length stack) - (Z.of_nat d + 1)) with (Z.of_nat (length stack) - (1 + Z.of_nat d)) by lia.
  by rewrite from_bottom_top, Hv by done.
Qed.

(** The checked evaluator errs where the historical one defaults or panics. *)
Lemma indexed_step_agrees op stack stack' : indexed_step ctx op stack = Some stack' → step ctx op stack = Some stack'.
Proof.
  destruct op; cbn [indexed_step step]; try done; try (by destruct stack as [|? [|? ?]]).
  - destruct (checked_sub _ _) as [i|] eqn:E; [|done]. apply checked_sub_Some in E as [-> Hi].
    cbn [mbind option_bind]. unfold saturating_sub. rewrite Z.max_r by lia.
    replace (1 + depth) with (depth + 1) by lia.
    by destruct (from_bottom stack (Z.of_nat (length stack) - (depth + 1))).
Qed.

(** The checked evaluator runs straight-line code in order. *)
Lemma indexed_exec fuel depth all stack : loop_free all → (length all ≤ fuel)%nat →
  evaluate_indexed_ops ctx fuel depth all stack = exec (indexed_step ctx) all stack.
Proof.
  intros Hfree. revert fuel stack. induction Hfree as [|op all Hop Hfree IH]; intros fuel stack Hf; [by destruct fuel|].
  cbn in Hf. destruct fuel as [|fuel]; [lia|]. cbn [evaluate_indexed_ops exec].
  destruct op; try done; (destruct (indexed_step ctx _ stack); cbn [mbind option_bind]; [apply IH; lia|done]).
Qed.

(** A program without loops that the checked evaluator accepts has one meaning. *)
Lemma evaluate_exec self stack v : loop_free (ops self) →
  exec (indexed_step ctx) (ops self) [] = Some (v :: stack) → evaluate_with_ctx ctx self = Some v.
Proof.
  intros Hfree Hexec. unfold evaluate_with_ctx. destruct (uses_counter_loops (ops self)).
  - by rewrite indexed_exec, Hexec.
  - rewrite run_exec by done. by rewrite (exec_mono _ (step ctx) _ _ _ indexed_step_agrees Hexec).
Qed.
End straight_line.

(** ** Fuel *)

Lemma count_body_ext {A} n i (f g : f64 → A → option A) s : (∀ c s, f c s = g c s) →
  count_body n i f s = count_body n i g s.
Proof.
  intros Hfg. revert i s. induction n as [|n IH]; intros i s; cbn; [done|]. rewrite Hfg.
  destruct (g (f64_of_Z i) s); [apply IH|done].
Qed.

(** The length of a program is enough. *)
Lemma indexed_fuel `{Libm} ctx fuel fuel' depth all stack : (length all ≤ fuel)%nat → (length all ≤ fuel')%nat →
  evaluate_indexed_ops ctx fuel depth all stack = evaluate_indexed_ops ctx fuel' depth all stack.
Proof.
  revert fuel' depth all stack. induction fuel as [|fuel IH]; intros [|fuel'] depth [|op all] stack Hf Hf'; cbn in Hf, Hf'; try done; try lia.
  cbn [evaluate_indexed_ops].
  destruct op; try (destruct (indexed_step ctx _ stack); cbn; [|done]; apply IH; lia).
  destruct (2 <=? depth); [done|]. destruct (Z.ltb_spec (Z.of_nat (length all)) body_len); [done|].
  rewrite (count_body_ext _ _ _ (λ index stack, evaluate_indexed_ops ctx fuel' (depth + 1) (take (Z.to_nat body_len) all) (index :: stack))).
  - destruct (count_body _ _ _ stack); cbn; [|done]. apply IH; rewrite length_drop; lia.
  - intros c s. apply IH; rewrite length_take; lia.
Qed.

(** ** Indices *)

Lemma context_index_lemma base offset i : 0 ≤ base →
  context_index base offset = Some i ↔ ∃ n, is_int offset n ∧ i = base + n ∧ i < W32.
Proof.
  intros Hb. unfold context_index, checked_add_u32. split.
  - destruct (is_finite offset) eqn:Hf; [|done]. cbn [negb orb].
    destruct (f64_lt offset f64_zero) eqn:H0; [done|]. destruct (f64_eq (f64_fract offset) f64_zero) eqn:Hfr; [|done].
    destruct (f64_lt u32_max offset) eqn:Hmax; [done|]. cbn [negb orb].
    destruct (Z.ltb_spec (base + f64_as_u32 offset) W32); [|done]. intros [= <-].
    destruct (index_like_int offset) as (n & Hn & Hlt).
    { rewrite f64_lt_le in H0, Hmax by (done || by apply finite_not_nan).
      apply negb_false_iff in H0, Hmax. done. }
    exists n. rewrite (as_u32_int offset n Hn Hlt) in *. done.
  - intros (n & Hn & -> & Hlt). pose proof (is_int_nonneg _ _ Hn) as Hn0.
    destruct (int_index_like offset n Hn) as (Hf & H0 & Hmax & Hfr); [split; [done|]; change (2 ^ 32) with W32; lia|].
    rewrite !f64_lt_le by (done || by apply finite_not_nan). rewrite Hf, H0, Hmax, Hfr. cbn [negb orb].
    rewrite (as_u32_int offset n Hn) by (change (2 ^ 32) with W32; lia). destruct (Z.ltb_spec (base + n) W32); [done|lia].
Qed.
