(* ===== verification/Linearize.v ===== *)
(** * rpn.rs: lowering a graph to a stack program

    Every node that the roots reach is computed once and keeps a position of the stack;
    a parent copies its children with [Pick]. The work list of both functions is the
    loop [visit]. *)
From S2P Require Import Prelude Float FloatArith Syntax HashCons Rpn.
Import Syntax.Ast Syntax.Soa.

Module Linearize.
(** The locals of the loop: [pending] has its top first. *)
Record State : Set := mkState {
  code : list Rpn.RpnOp;
  slots : list (option Z);
  pending : list (Z * bool);
  height : Z;
}.

Definition slot_of (self : State) (id : Z) : option Z := mjoin (slots self !! Z.to_nat id).

(** The operations that leave the value of a node on top; [None] is a panic. *)
Definition node_code (soa : NodeSoA) (self : State) (id : Z) (kind : NodeKind) : option (list Rpn.RpnOp) :=
  match kind with
  | One => Some [Rpn.One]
  | Zero => Some [Rpn.Zero]
  | Var v => Some [Rpn.Var v]
  | Const c => Some [Rpn.Const c]
  | Bml =>
      l ← lefts soa !! Z.to_nat id; left ← slot_of self l;
      r ← rights soa !! Z.to_nat id; right ← slot_of self r;
      Some [Rpn.Pick (as_u32 (height self - 1 - left)); Rpn.Pick (as_u32 (height self - right)); Rpn.Bml]
  end.

Definition is_bml_kind (k : NodeKind) : bool := match k with Bml => true | _ => false end.

(** One turn; [checked] is the assertion that [linearize] has and [linearize_outputs],
    which validated the graph, does not. [inr None] is a panic. *)
Definition visit (checked : bool) (soa : NodeSoA) (self : State) : State + option State :=
  match pending self with
  | [] => inr (Some self)
  | (id, expanded) :: rest =>
      match slots self !! Z.to_nat id with
      | None => inr None
      | Some (Some _) => inl (mkState (code self) (slots self) rest (height self))
      | Some None =>
          match kinds soa !! Z.to_nat id with
          | None => inr None
          | Some k =>
              if is_bml_kind k && negb expanded then
                match lefts soa !! Z.to_nat id, rights soa !! Z.to_nat id with
                | Some left, Some right =>
                    if negb checked || (left <? id) && (right <? id) then
                      inl (mkState (code self) (slots self)
                        ((left, false) :: (right, false) :: (id, true) :: rest) (height self))
                    else inr None
                | _, _ => inr None
                end
              else
                match node_code soa self id k with
                | None => inr None
                | Some ops =>
                    inl (mkState (code self ++ ops) (<[Z.to_nat id := Some (height self)]> (slots self))
                      rest (height self + 1))
                end
          end
      end
  end.

(** A node is expanded once, so this many turns are enough. *)
Definition bound (soa : NodeSoA) : positive := Z.to_pos (4 * Soa.len soa + 2).

Definition run_visit (checked : bool) (soa : NodeSoA) (self : State) : option State :=
  match while (visit checked soa) (bound soa) self with inr r => r | inl _ => None end.

(** [for _ in 1..height]. *)
Definition discard (n : nat) : list Rpn.RpnOp := concat (replicate n [Rpn.Swap; Rpn.Drop]).

Definition linearize (soa : NodeSoA) (root : Z) : option Rpn.RpnProgram :=
  s ← run_visit true soa (mkState [] (replicate (length (kinds soa)) None) [(root, false)] 0);
  Some (Rpn.mkProgram (const_pool soa) (code s ++ discard (Z.to_nat (height s - 1)))).

(** *** Several outputs *)

(** One turn of the validation; [inr None] is a panic. *)
Definition reach (soa : NodeSoA) (self : list bool * list Z) : list bool * list Z + option (Result string (list bool)) :=
  let '(reachable, pending_ids) := self in
  match pending_ids with
  | [] => inr (Some (Ok reachable))
  | id :: rest =>
      match reachable !! Z.to_nat id, kinds soa !! Z.to_nat id with
      | Some true, _ => inl (reachable, rest)
      | Some false, Some Bml =>
          match lefts soa !! Z.to_nat id, rights soa !! Z.to_nat id with
          | Some left, Some right =>
              if (id <=? left) || (id <=? right) then inr (Some (Err "DAG children must precede their parent"%string))
              else inl (<[Z.to_nat id := true]> reachable, left :: right :: rest)
          | _, _ => inr None
          end
      | Some false, Some _ => inl (<[Z.to_nat id := true]> reachable, rest)
      | _, _ => inr None
      end
  end.

(** The roots and two children of every node are looked at. *)
Definition reach_bound (soa : NodeSoA) (roots : list Z) : positive :=
  Z.to_pos (Z.of_nat (length roots) + 3 * Soa.len soa + 1).

Definition validate_outputs (soa : NodeSoA) (roots : list Z) (output_constants_start : Z) : option (Result string (list bool)) :=
  if W32 <=? Z.of_nat (length roots) then Some (Err "too many DAG outputs"%string) else
  if Z.of_nat (length roots) <? 1 then Some (Err "empty DAG outputs"%string) else
  if W32 <=? output_constants_start + (Z.of_nat (length roots) - 1)
  then Some (Err "output constant index overflow"%string) else
  if (W32 - 1 <? Soa.len soa) || negb (bool_decide (length (lefts soa) = length (kinds soa)))
     || negb (bool_decide (length (rights soa) = length (kinds soa)))
  then Some (Err "invalid DAG columns"%string) else
  if existsb (λ root, Soa.len soa <=? root) roots then Some (Err "unknown DAG output node"%string) else
  match while (reach soa) (reach_bound soa roots) (replicate (length (kinds soa)) false, reverse roots) with
  | inr r => r
  | inl _ => None
  end.

(** An output: the nodes that are missing, then its value, offset and store. *)
Definition emit_output (soa : NodeSoA) (slot output_constants_start : Z) (output : Z) (root : Z) (self : State) : option State :=
  s ← run_visit false soa (mkState (code self) (slots self) ((root, false) :: pending self) (height self));
  position ← slot_of s root;
  Some (mkState (code s ++ [Rpn.Pick (as_u32 (height s - 1 - position));
    Rpn.Const (output_constants_start + as_u32 output); Rpn.StoreResult slot]) (slots s) (pending s) (height s)).

Fixpoint emit_outputs (soa : NodeSoA) (slot output_constants_start : Z) (output : Z) (roots : list Z) (self : State) : option State :=
  match roots with
  | [] => Some self
  | root :: roots =>
      s ← emit_output soa slot output_constants_start output root self;
      emit_outputs soa slot output_constants_start (output + 1) roots s
  end.

Definition linearize_outputs (soa : NodeSoA) (roots : list Z) (slot output_constants_start : Z)
    : option (Result string Rpn.RpnProgram) :=
  reachable ← validate_outputs soa roots output_constants_start;
  match reachable with
  | Err e => Some (Err e)
  | Ok _ =>
      s ← emit_outputs soa slot output_constants_start 0 roots
        (mkState [] (replicate (length (kinds soa)) None) [] 0);
      Some (Ok (Rpn.mkProgram (const_pool soa)
        (code s ++ replicate (Z.to_nat (height s)) Rpn.Drop ++ [Rpn.One])))
  end.
End Linearize.

Import Linearize.

(** ** Emitting a node *)

(** The invariant of the loop: [order] lists the nodes that have a position. *)
Record emitted (soa : NodeSoA) (order : list nat) (self : State) : Prop := {
  emitted_slots : length (slots self) = length (kinds soa);
  emitted_order : ∀ id k, slots self !! id = Some (Some k) ↔ 0 ≤ k ∧ order !! Z.to_nat k = Some id;
  emitted_height : height self = Z.of_nat (length order);
  emitted_range : Forall (λ id, (id < length (kinds soa))%nat) order;
}.

(** Operations on the stack alone. *)
Definition pure_op (op : Rpn.RpnOp) : bool :=
  match op with Rpn.Loop _ _ | Rpn.VarIndexed _ | Rpn.StoreResult _ => false | _ => true end.
Definition pure (code : list Rpn.RpnOp) : Prop := Forall (λ op, pure_op op = true) code.

Lemma pure_loop_free code : pure code → loop_free code.
Proof. intros Hp. eapply Forall_impl; [exact Hp|]. by intros []. Qed.

(** A graph of the compiler. *)
Record graph_ok (soa : NodeSoA) : Prop := {
  graph_columns : columns_ok soa;
  graph_ordered : ordered (soa_graph soa);
  graph_small : Soa.len soa ≤ W32;
}.

(** What the loop does: [n] turns without a panic. *)
Definition reaches (checked : bool) (soa : NodeSoA) (n : nat) (s s' : State) : Prop :=
  turns (visit checked soa) n s = inl s'.

Lemma reaches_step checked soa s s' : visit checked soa s = inl s' → reaches checked soa 1 s s'.
Proof. intros E. unfold reaches. cbn. by rewrite E. Qed.

Lemma reaches_trans checked soa n m s1 s2 s3 : reaches checked soa n s1 s2 → reaches checked soa m s2 s3 →
  reaches checked soa (n + m) s1 s3.
Proof. unfold reaches. intros E1 E2. by rewrite turns_add, E1. Qed.

Lemma slot_of_Some self id p : slot_of self id = Some p ↔ slots self !! Z.to_nat id = Some (Some p).
Proof. unfold slot_of. destruct (slots self !! Z.to_nat id) as [[q|]|]; cbn; split; intros ?; by simplify_eq. Qed.

Section emit.
Context {H : Libm} (ctx : EvalContext) (soa : NodeSoA) (Hok : graph_ok soa).
Implicit Types (self s : State) (order : list nat).

Abbreviation g := (soa_graph soa).
Definition node_val (id : nat) : f64 := value_at (graph_values ctx g) (Z.of_nat id).

Lemma node_val_eq id k l r : g !! id = Some (k, l, r) → node_val id = node_value ctx (graph_values ctx g) (k, l, r).
Proof.
  intros Hg. unfold node_val, value_at. rewrite Nat2Z.id.
  by rewrite (graph_values_lookup _ _ _ _ (graph_ordered _ Hok) Hg).
Qed.

(** The values of the emitted nodes, as they lie on the stack. *)
Definition stack_of (order : list nat) : list f64 := reverse (node_val <$> order).

Lemma order_nodup order self : emitted soa order self → NoDup order.
Proof.
  intros [_ Ho _ _]. apply NoDup_alt. intros i j x Hi Hj.
  assert (∀ i, order !! i = Some x → slots self !! x = Some (Some (Z.of_nat i))) as Hs.
  { intros i' Hi'. apply Ho. rewrite Nat2Z.id. split; [lia|done]. }
  apply Hs in Hi, Hj. simplify_eq. lia.
Qed.

Lemma order_bound order : NoDup order → Forall (λ id, (id < length (kinds soa))%nat) order →
  (length order ≤ length (kinds soa))%nat.
Proof.
  intros Hnd Hr. rewrite <-(length_seq (length (kinds soa)) 0). apply submseteq_length, NoDup_submseteq; [done|].
  intros x Hx. apply elem_of_seq. eapply Forall_forall in Hr; [|done]. lia.
Qed.

Lemma fresh_bound order self id : emitted soa order self → slots self !! id = Some None →
  (length order < length (kinds soa))%nat ∧ (id < length (kinds soa))%nat.
Proof.
  intros Hinv Hid. pose proof (lookup_lt_Some _ _ _ Hid) as Hlt. rewrite (emitted_slots _ _ _ Hinv) in Hlt.
  split; [|done]. pose proof (order_bound (order ++ [id])) as Hb. rewrite length_app in Hb. cbn in Hb.
  assert (length order + 1 ≤ length (kinds soa))%nat; [|lia]. apply Hb.
  - apply NoDup_app. split; [by eapply order_nodup|]. split; [|apply NoDup_singleton].
    intros x Hx ->%list_elem_of_singleton. apply list_elem_of_lookup in Hx as [i Hi].
    assert (slots self !! id = Some (Some (Z.of_nat i))); [|congruence].
    apply (emitted_order _ _ _ Hinv). rewrite Nat2Z.id. split; [lia|done].
  - apply Forall_app. split; [apply Hinv|]. by apply Forall_singleton.
Qed.

(** The stack position of an emitted node. *)
Lemma stack_value order stack i id : order !! i = Some id →
  (stack_of order ++ stack) !! (length order - 1 - i)%nat = Some (node_val id).
Proof.
  intros Hi. pose proof (lookup_lt_Some _ _ _ Hi) as Hlt. unfold stack_of.
  rewrite lookup_app_l by (rewrite length_reverse, length_fmap; lia).
  rewrite reverse_lookup by (rewrite length_fmap; lia). rewrite length_fmap, list_lookup_fmap.
  replace (length order - S (length order - 1 - i))%nat with i by lia. by rewrite Hi.
Qed.

(** The code of a node computes its value. *)
Lemma node_code_run order self id k l r : emitted soa order self → g !! id = Some (k, l, r) →
  (k = Bml → is_Some (slot_of self l) ∧ is_Some (slot_of self r)) → (length order < length (kinds soa))%nat →
  ∃ ops, node_code soa self (Z.of_nat id) k = Some ops ∧ (length ops ≤ 3)%nat ∧ pure ops ∧
    ∀ stack, exec (Rpn.indexed_step ctx) ops (stack_of order ++ stack) =
      Some (node_val id :: stack_of order ++ stack).
Proof.
  intros Hinv Hg Hch Hlt. pose proof (node_val_eq _ _ _ _ Hg) as Hv.
  pose proof Hg as (_ & Hl & Hr)%soa_graph_lookup; [|apply Hok].
  pose proof (graph_small _ Hok) as Hsmall. unfold Soa.len in Hsmall.
  destruct k as [| |v|c|]; cbn [node_code];
    try (eexists; split; [done|]; split; [cbn; lia|]; split; [by repeat constructor|]; intros stack; cbn; by rewrite Hv).
  rewrite Nat2Z.id, Hl, Hr. cbn [mbind option_bind]. destruct (Hch eq_refl) as [[a Ha] [b Hb]]. rewrite Ha, Hb.
  eexists. split; [done|]. split; [cbn; lia|]. split; [by repeat constructor|]. intros stack.
  pose proof (emitted_height _ _ _ Hinv) as Hh.
  assert (∀ x p, slot_of self x = Some p → 0 ≤ x < Z.of_nat id →
    0 ≤ p < height self ∧ (stack_of order ++ stack) !! Z.to_nat (height self - 1 - p) =
      Some (value_at (graph_values ctx g) x)) as Hslot.
  { intros x p Hp Hx. apply slot_of_Some, (emitted_order _ _ _ Hinv) in Hp as [Hp0 Hp].
    pose proof (lookup_lt_Some _ _ _ Hp). split; [lia|].
    replace (Z.to_nat (height self - 1 - p)) with (length order - 1 - Z.to_nat p)%nat by lia.
    rewrite (stack_value _ _ _ _ Hp). unfold node_val. by rewrite Z2Nat.id by lia. }
  destruct (graph_ordered _ Hok _ _ _ Hg) as [Bl Br].
  destruct (Hslot l a Ha Bl) as [Ra Ea], (Hslot r b Hb Br) as [Rb Eb].
  assert (as_u32 (height self - 1 - a) = Z.of_nat (Z.to_nat (height self - 1 - a))) as ->.
  { unfold as_u32. rewrite Z.mod_small; lia. }
  assert (as_u32 (height self - b) = Z.of_nat (Z.to_nat (height self - b))) as ->.
  { unfold as_u32. rewrite Z.mod_small; lia. }
  cbn [exec]. rewrite (step_pick _ _ _ _ Ea). cbn [mbind option_bind].
  rewrite (step_pick _ (Z.to_nat (height self - b)) _ (value_at (graph_values ctx g) r)).
  - cbn [mbind option_bind Rpn.indexed_step]. rewrite Hv. done.
  - replace (Z.to_nat (height self - b)) with (S (Z.to_nat (height self - 1 - b))) by lia. done.
Qed.

(** ** The loop *)

(** From [order] to [order'], by code that leaves the new values on the stack. *)
Record visited (order : list nat) (self : State) (order' : list nat) (s' : State) : Prop := {
  visited_inv : emitted soa order' s';
  visited_order : order `prefix_of` order';
  visited_code : ∃ ops, code s' = code self ++ ops ∧ pure ops ∧
    (length ops ≤ 3 * (length order' - length order))%nat ∧
    ∀ stack, exec (Rpn.indexed_step ctx) ops (stack_of order ++ stack) = Some (stack_of order' ++ stack);
}.

Lemma visited_trans o1 s1 o2 s2 o3 s3 : visited o1 s1 o2 s2 → visited o2 s2 o3 s3 → visited o1 s1 o3 s3.
Proof.
  intros [_ Ho (a & Ea & Fa & La & Ra)] [Hi Ho' (b & Eb & Fb & Lb & Rb)]. split; [done|by etrans|].
  exists (a ++ b). rewrite Eb, Ea, app_assoc. split; [done|]. split; [by apply Forall_app|].
  pose proof (prefix_length _ _ Ho). pose proof (prefix_length _ _ Ho'). rewrite length_app. split; [lia|].
  intros stack. rewrite exec_app, Ra. apply Rb.
Qed.

Lemma visited_same order self self' : emitted soa order self → code self' = code self → slots self' = slots self →
  height self' = height self → visited order self order self'.
Proof.
  intros [H1 H2 H3 H4] Ec Es Eh. split; [by split; rewrite ?Es, ?Eh|done|]. exists []. rewrite app_nil_r.
  split; [done|]. split; [by apply Forall_nil|]. split; [cbn; lia|done].
Qed.

(** The turn that emits a node. *)
Lemma emit_turn checked order self id k l r expanded rest : emitted soa order self →
  pending self = (Z.of_nat id, expanded) :: rest → g !! id = Some (k, l, r) → slots self !! id = Some None →
  (k = Bml → expanded = true ∧ is_Some (slot_of self l) ∧ is_Some (slot_of self r)) →
  ∃ s', reaches checked soa 1 self s' ∧ pending s' = rest ∧ visited order self (order ++ [id]) s' ∧
    slots s' = <[id := Some (height self)]> (slots self).
Proof.
  intros Hinv Hp Hg Hs Hch. destruct (fresh_bound _ _ _ Hinv Hs) as [Hlen Hid].
  destruct (node_code_run _ _ _ _ _ _ Hinv Hg ltac:(intros Hk; by destruct (Hch Hk)) Hlen) as (ops & Hops & H3 & Hpure & Hrun).
  pose proof Hg as (Hk & _)%soa_graph_lookup; [|apply Hok].
  exists (mkState (code self ++ ops) (<[id := Some (height self)]> (slots self)) rest (height self + 1)).
  split; [|split; [done|split; [|done]]].
  - apply reaches_step. unfold visit. rewrite Hp, Nat2Z.id, Hs, Hk.
    assert (is_bml_kind k && negb expanded = false) as ->.
    { destruct k; try done. destruct (Hch eq_refl) as [-> _]. done. }
    by rewrite Hops.
  - destruct Hinv as [Hl Ho Hh Hr]. split; [split|by eexists|].
    + cbn [slots]. by rewrite length_insert.
    + intros j p. cbn [slots]. destruct (decide (j = id)) as [->|Hne].
      * rewrite list_lookup_insert_eq by (by eapply lookup_lt_Some). split.
        -- intros [= <-]. split; [lia|]. rewrite Hh, Nat2Z.id, lookup_app_r, Nat.sub_diag by lia. done.
        -- intros [Hp0 [Hold|[Hge Hnew]]%lookup_app_Some].
           ++ assert (slots self !! id = Some (Some p)) by (by apply Ho). congruence.
           ++ apply list_lookup_singleton_Some in Hnew as [Hz _]. do 2 f_equal. lia.
      * rewrite list_lookup_insert_ne, Ho by done. split; intros [Hp0 Hj]; (split; [done|]).
        -- by apply lookup_app_l_Some.
        -- apply lookup_app_Some in Hj as [Hj|[_ [_ Hj]%list_lookup_singleton_Some]]; [done|]. by destruct Hne.
    + cbn [height]. rewrite length_app. cbn. lia.
    + apply Forall_app. split; [done|]. by apply Forall_singleton.
    + exists ops. split; [done|]. split; [done|]. rewrite length_app. cbn. split; [lia|]. intros stack.
      rewrite Hrun. unfold stack_of. by rewrite fmap_app, reverse_app.
Qed.

(** The result of visiting a node from [self], with the number of turns. *)
Definition node_visited checked (id : nat) order self rest : Prop :=
  ∃ n order' s', reaches checked soa n self s' ∧ pending s' = rest ∧ visited order self order' s' ∧
    (n ≤ 4 * (length order' - length order) + 1)%nat ∧ is_Some (slot_of s' (Z.of_nat id)) ∧
    (∀ j, (id < j)%nat → slots s' !! j = slots self !! j) ∧
    (slot_of self (Z.of_nat id) = None → last order' = Some id).

Lemma visit_seen checked id order self rest p : emitted soa order self →
  pending self = (Z.of_nat id, false) :: rest → slots self !! id = Some (Some p) →
  node_visited checked id order self rest.
Proof.
  intros Hinv Hp Ho. exists 1%nat, order, (mkState (code self) (slots self) rest (height self)).
  assert (slot_of self (Z.of_nat id) = Some p) as Hs by (apply slot_of_Some; by rewrite Nat2Z.id).
  split; [apply reaches_step; unfold visit; by rewrite Hp, Nat2Z.id, Ho|]. split; [done|].
  split; [by apply visited_same|]. split; [lia|]. split; [by exists p|]. split; [done|congruence].
Qed.

Lemma visit_leaf checked id order self rest k l r : emitted soa order self →
  pending self = (Z.of_nat id, false) :: rest → slots self !! id = Some None →
  g !! id = Some (k, l, r) → k ≠ Bml → node_visited checked id order self rest.
Proof.
  intros Hinv Hp Ho Hg Hk.
  destruct (emit_turn checked _ _ _ _ _ _ _ _ Hinv Hp Hg Ho) as (s' & Hre & Hp' & Hv & Hsl); [done|].
  exists 1%nat, (order ++ [id]), s'. rewrite length_app. split; [done|]. split; [done|]. split; [done|]. split; [lia|].
  split; [|split; [|intros _; apply last_snoc]].
  - exists (height self). apply slot_of_Some. rewrite Nat2Z.id, Hsl. apply list_lookup_insert_eq. by eapply lookup_lt_Some.
  - intros j Hj. rewrite Hsl. apply list_lookup_insert_ne. lia.
Qed.

(** Visiting a node visits what it needs, and only smaller nodes besides itself. *)
Lemma visit_node checked id order self rest : emitted soa order self →
  pending self = (Z.of_nat id, false) :: rest → (id < length (kinds soa))%nat →
  node_visited checked id order self rest.
Proof.
  revert order self rest. induction id as [id IH] using lt_wf_ind. intros order self rest Hinv Hp Hid.
  destruct (lookup_lt_is_Some_2 (slots self) id) as [o Ho]; [by rewrite (emitted_slots _ _ _ Hinv)|].
  destruct (lookup_lt_is_Some_2 g id) as [[[k l] r] Hg]; [by rewrite soa_graph_length by apply Hok|].
  pose proof Hg as (Hk & Hl & Hr)%soa_graph_lookup; [|apply Hok].
  destruct o as [p|]; [by eapply visit_seen|].
  destruct (is_bml_kind k) eqn:Ek; [|eapply visit_leaf; [done..|]; by intros ->].
  assert (k = Bml) as -> by (by destruct k). destruct (graph_ordered _ Hok _ _ _ Hg) as [Bl Br].
  set (s0 := mkState (code self) (slots self) ((l, false) :: (r, false) :: (Z.of_nat id, true) :: rest) (height self)).
  assert (reaches checked soa 1 self s0) as Hre0.
  { apply reaches_step. unfold visit. rewrite Hp, Nat2Z.id, Ho, Hk, Hl, Hr. cbn [is_bml_kind andb negb].
    rewrite (proj2 (Z.ltb_lt l _)), (proj2 (Z.ltb_lt r _)) by lia. by destruct checked. }
  pose proof (visited_same order self s0 Hinv eq_refl eq_refl eq_refl) as Hv0.
  destruct (IH (Z.to_nat l) ltac:(lia) order s0 ((r, false) :: (Z.of_nat id, true) :: rest)) as
    (n1 & o1 & s1 & Hre1 & Hp1 & Hv1 & Hn1 & Hs1 & Hj1 & _); [apply Hv0|by rewrite Z2Nat.id by lia|lia|].
  destruct (IH (Z.to_nat r) ltac:(lia) o1 s1 ((Z.of_nat id, true) :: rest)) as
    (n2 & o2 & s2 & Hre2 & Hp2 & Hv2 & Hn2 & Hs2 & Hj2 & _); [apply Hv1|by rewrite Hp1, Z2Nat.id by lia|lia|].
  rewrite Z2Nat.id in Hs1, Hs2 by lia.
  assert (is_Some (slot_of s2 l)) as Hs1'.
  { destruct Hs1 as [p (Hp0 & Hlk)%slot_of_Some%(emitted_order _ _ _ (visited_inv _ _ _ _ Hv1))]. exists p.
    apply slot_of_Some, (emitted_order _ _ _ (visited_inv _ _ _ _ Hv2)). split; [done|].
    eapply prefix_lookup_Some; [done|]. apply (visited_order _ _ _ _ Hv2). }
  assert (slots s2 !! id = Some None) as Ho2 by (rewrite Hj2, Hj1 by lia; done).
  destruct (emit_turn checked o2 s2 id Bml l r true rest (visited_inv _ _ _ _ Hv2) Hp2 Hg Ho2) as (s3 & Hre3 & Hp3 & Hv3 & Hsl); [done|].
  exists (1 + n1 + n2 + 1)%nat, (o2 ++ [id]), s3.
  pose proof (prefix_length _ _ (visited_order _ _ _ _ Hv1)). pose proof (prefix_length _ _ (visited_order _ _ _ _ Hv2)).
  split; [by eapply reaches_trans; [eapply reaches_trans; [eapply reaches_trans|]|]|]. split; [done|].
  split; [by eapply visited_trans; [|eapply visited_trans; [|eapply visited_trans]]|].
  rewrite length_app. split; [cbn; lia|]. split; [|split; [|intros _; apply last_snoc]].
  - exists (height s2). apply slot_of_Some. rewrite Nat2Z.id, Hsl. apply list_lookup_insert_eq. by eapply lookup_lt_Some.
  - intros j Hj. rewrite Hsl, list_lookup_insert_ne by lia. rewrite Hj2, Hj1 by lia. done.
Qed.

(** The whole loop, for one root. *)
Lemma run_visit_spec checked order self root : emitted soa order self → pending self = [] →
  0 ≤ root < Soa.len soa →
  ∃ order' s', run_visit checked soa (mkState (code self) (slots self) ((root, false) :: pending self) (height self)) = Some s' ∧
    visited order self order' s' ∧ pending s' = [] ∧ is_Some (slot_of s' root) ∧
    (slot_of self root = None → last order' = Some (Z.to_nat root)).
Proof.
  intros Hinv Hp Hroot. set (s0 := mkState _ _ _ _). unfold Soa.len in Hroot.
  pose proof (visited_same order self s0 Hinv eq_refl eq_refl eq_refl) as Hv0.
  destruct (visit_node checked (Z.to_nat root) order s0 (pending self)) as (n & order' & s' & Hre & Hp' & Hv & Hn & Hs & _ & Hlast).
  { apply Hv0. } { cbn. by rewrite Z2Nat.id by lia. } { lia. }
  rewrite Z2Nat.id in Hs, Hlast by lia. exists order', s'.
  split; [|split; [by eapply visited_trans|by rewrite Hp']].
  pose proof (visited_inv _ _ _ _ Hv) as Hinv'. unfold run_visit.
  rewrite (while_end _ n _ _ s' (Some s') Hre); [done| |].
  - unfold visit. by rewrite Hp', Hp.
  - pose proof (order_bound order' (order_nodup _ _ Hinv') (emitted_range _ _ _ Hinv')). unfold bound, Soa.len. lia.
Qed.

Lemma emitted_start : emitted soa [] (mkState [] (replicate (length (kinds soa)) None) [] 0).
Proof.
  split; cbn [slots]; [by rewrite length_replicate| |done|by apply Forall_nil].
  intros id k. split.
  - by intros [Hi _]%lookup_replicate.
  - by intros [_ Hk].
Qed.

Lemma slot_start code n pending height id : slot_of (mkState code (replicate n None) pending height) id = None.
Proof.
  destruct (slot_of _ id) as [p|] eqn:E; [|done]. apply slot_of_Some in E. cbn [slots] in E.
  by apply lookup_replicate in E as [E _].
Qed.

Lemma exec_discard k v l stack : length l = k →
  exec (Rpn.indexed_step ctx) (discard k) (v :: l ++ stack) = Some (v :: stack).
Proof. revert l. induction k as [|k IH]; intros [|w l] Hl; try done. by apply IH; injection Hl. Qed.

Lemma discard_pure k : pure (discard k) ∧ length (discard k) = (2 * k)%nat.
Proof.
  unfold discard. induction k as [|k [IH1 IH2]]; [by split; [apply Forall_nil|]|]. cbn [replicate concat app]. split.
  - by repeat constructor.
  - cbn [length]. rewrite IH2. lia.
Qed.

Lemma linearize_run root : 0 ≤ root < Soa.len soa →
  ∃ p, linearize soa root = Some p ∧ Rpn.const_pool p = const_pool soa ∧ pure (Rpn.ops p) ∧
    Rpn.len p ≤ 5 * Soa.len soa - 2 ∧
    ∀ stack, exec (Rpn.indexed_step ctx) (Rpn.ops p) stack = Some (value_at (graph_values ctx g) root :: stack).
Proof.
  intros Hroot. destruct (run_visit_spec true [] _ root emitted_start eq_refl Hroot) as
    (order & s & Hrun & [Hinv _ (ops & Eops & Hpure & Hlen & Hexec)] & _ & _ & Hlast).
  unfold linearize. cbn [code slots pending height] in Hrun. rewrite Hrun. cbn [mbind option_bind].
  eexists. split; [done|]. split; [done|]. cbn [Rpn.ops]. cbn [code app] in Eops. rewrite Eops.
  pose proof (order_bound order (order_nodup _ _ Hinv) (emitted_range _ _ _ Hinv)) as Hb.
  rewrite (emitted_height _ _ _ Hinv) in *. destruct (discard_pure (Z.to_nat (Z.of_nat (length order) - 1))) as [Hd1 Hd2].
  destruct order as [|x order _] using rev_ind.
  { by specialize (Hlast (slot_start _ _ _ _ _)). }
  rewrite last_snoc in Hlast. specialize (Hlast (slot_start _ _ _ _ _)). injection Hlast as ->.
  split; [by apply Forall_app|]. rewrite length_app in *. cbn [length] in *. split.
  { unfold Rpn.len. cbn [Rpn.ops]. rewrite length_app, Hd2. unfold Soa.len. lia. }
  intros stack. rewrite exec_app. change stack with (stack_of [] ++ stack) at 1. rewrite Hexec. cbn [mbind option_bind].
  unfold stack_of. rewrite fmap_app, reverse_app. cbn [fmap list_fmap reverse app].
  unfold node_val at 1. rewrite Z2Nat.id by lia. apply exec_discard. rewrite length_reverse, length_fmap. lia.
Qed.
End emit.

(** ** Validation of the outputs *)

Definition unreached (reachable : list bool) : nat := length (List.filter negb reachable).

Lemma unreached_insert reachable i : reachable !! i = Some false →
  unreached reachable = S (unreached (<[i := true]> reachable)).
Proof.
  unfold unreached. revert i. induction reachable as [|b l IH]; intros [|i] Hi; simplify_eq/=; [done|].
  apply IH in Hi. destruct b; cbn in *; [exact Hi|]. by rewrite Hi.
Qed.

Lemma unreached_replicate n : unreached (replicate n false) = n.
Proof. unfold unreached. induction n as [|n IH]; cbn; [done|]. by rewrite IH. Qed.

(** What the marks mean: the roots are marked, and the children of a marked node are
    marked and precede it. *)
Definition reached (soa : NodeSoA) (roots : list Z) (reachable : list bool) (pending : list Z) : Prop :=
  length reachable = length (kinds soa) ∧
  (∀ id, id ∈ roots → id ∈ pending ∨ reachable !! Z.to_nat id = Some true) ∧
  ∀ id l r, reachable !! id = Some true → soa_graph soa !! id = Some (Bml, l, r) →
    l < Z.of_nat id ∧ r < Z.of_nat id ∧
    (l ∈ pending ∨ reachable !! Z.to_nat l = Some true) ∧ (r ∈ pending ∨ reachable !! Z.to_nat r = Some true).

(** The columns hold node numbers. *)
Definition numbers_ok (soa : NodeSoA) : Prop :=
  ∀ i k l r, soa_graph soa !! i = Some (k, l, r) → 0 ≤ l ∧ 0 ≤ r.

Lemma reached_pop soa roots reachable id rest : reachable !! Z.to_nat id = Some true →
  reached soa roots reachable (id :: rest) → reached soa roots reachable rest.
Proof.
  intros Hid (Hl & Hr & Hc). split; [done|]. split.
  - intros x [[->|?]%elem_of_cons|?]%Hr; [by right|by left|by right].
  - intros i l r Hi Hg. destruct (Hc i l r Hi Hg) as (? & ? & Hcl & Hcr). do 2 (split; [done|]). split.
    + destruct Hcl as [[->|?]%elem_of_cons|?]; [by right|by left|by right].
    + destruct Hcr as [[->|?]%elem_of_cons|?]; [by right|by left|by right].
Qed.

Lemma reached_mark soa roots reachable id rest more : reachable !! Z.to_nat id = Some false → 0 ≤ id →
  (∀ l r, soa_graph soa !! Z.to_nat id = Some (Bml, l, r) → l < id ∧ r < id ∧ l ∈ more ∧ r ∈ more) →
  reached soa roots reachable (id :: rest) → reached soa roots (<[Z.to_nat id := true]> reachable) (more ++ rest).
Proof.
  intros Hf Hid Hch (Hl & Hr & Hc). split; [by rewrite length_insert|].
  assert (∀ x, x ∈ id :: rest ∨ reachable !! Z.to_nat x = Some true →
    x ∈ more ++ rest ∨ <[Z.to_nat id := true]> reachable !! Z.to_nat x = Some true) as Hmove.
  { intros x [[->|?]%elem_of_cons|Hx].
    - right. apply list_lookup_insert_eq. by eapply lookup_lt_Some.
    - left. apply elem_of_app. by right.
    - right. rewrite list_lookup_insert_ne; [done|]. intros E. rewrite E in Hf. congruence. }
  split; [intros x Hx; by apply Hmove, Hr|]. intros i l r Hi Hg. destruct (decide (i = Z.to_nat id)) as [->|Hne].
  - destruct (Hch l r Hg) as (? & ? & ? & ?). rewrite Z2Nat.id by done. rewrite !elem_of_app. tauto.
  - rewrite list_lookup_insert_ne in Hi by done. destruct (Hc i l r Hi Hg) as (? & ? & ? & ?).
    do 2 (split; [done|]). split; by apply Hmove.
Qed.

(** The validation ends, without a panic. *)
Lemma reach_total soa roots : columns_ok soa → numbers_ok soa → Forall (λ id, 0 ≤ id < Soa.len soa) roots →
  ∃ r, while (reach soa) (reach_bound soa roots) (replicate (length (kinds soa)) false, reverse roots) = inr (Some r) ∧
    match r with Ok reachable => reached soa roots reachable [] | Err _ => ¬ ordered (soa_graph soa) end.
Proof.
  intros Hcol Hnum Hroots.
  destruct (while_total (λ s, reached soa roots s.1 s.2 ∧ Forall (λ id, 0 ≤ id < Soa.len soa) s.2)
    (λ o, ∃ r, o = Some r ∧ match r with Ok reachable => reached soa roots reachable [] | Err _ => ¬ ordered (soa_graph soa) end)
    (λ s, Z.of_nat (length s.2) + 3 * Z.of_nat (unreached s.1)) (reach soa))
    with (p := reach_bound soa roots) (s := (replicate (length (kinds soa)) false, reverse roots)) as (o & -> & r & -> & Hr).
  - intros [reachable [|id rest]] [Hinv Hall]; cbn [fst snd] in *; [by eexists|].
    apply Forall_cons in Hall as [Hid Hrest]. unfold reach.
    destruct (lookup_lt_is_Some_2 reachable (Z.to_nat id)) as [b Hb].
    { destruct Hinv as [-> _]. unfold Soa.len in Hid. lia. }
    destruct (lookup_lt_is_Some_2 (soa_graph soa) (Z.to_nat id)) as [[[k l] r] Hg].
    { rewrite soa_graph_length by done. unfold Soa.len in Hid. lia. }
    pose proof Hg as (Hk & Hl & Hr)%soa_graph_lookup; [|done]. rewrite Hb, Hk.
    destruct b; [split; [split; [by eapply reached_pop|done]|cbn [length fst snd]; lia]|].
    pose proof (unreached_insert _ _ Hb) as Hu.
    assert (k ≠ Bml → (reached soa roots (<[Z.to_nat id := true]> reachable) rest ∧ Forall (λ id, 0 ≤ id < Soa.len soa) rest) ∧
      0 ≤ Z.of_nat (length rest) + 3 * Z.of_nat (unreached (<[Z.to_nat id := true]> reachable)) <
        Z.of_nat (length (id :: rest)) + 3 * Z.of_nat (unreached reachable)) as Hleaf.
    { intros Hne. split; [|cbn [length fst snd]; lia]. split; [|done].
      apply (reached_mark _ _ _ _ _ []); [done|lia| |done]. intros l' r' Hg'. congruence. }
    destruct k; try (by apply Hleaf). rewrite Hl, Hr. destruct (Hnum _ _ _ _ Hg) as [Hl0 Hr0].
    destruct (Z.leb_spec id l), (Z.leb_spec id r); cbn [orb];
      try (eexists; split; [done|]; intros Ho; destruct (Ho _ _ _ Hg); lia).
    split; [split|cbn [length fst snd]; lia].
    + apply (reached_mark _ _ _ _ _ [l; r]); [done|lia| |done].
      intros l' r' Hg'. rewrite Hg in Hg'. injection Hg' as <- <-. by repeat constructor.
    + repeat apply Forall_cons_2; [lia|lia|done].
  - cbn [fst snd]. split; [|by apply Forall_reverse]. split; [by rewrite length_replicate|]. split.
    + intros id Hid. left. by rewrite elem_of_reverse.
    + by intros i l r [? _]%lookup_replicate.
  - cbn [fst snd]. rewrite length_reverse, unreached_replicate. unfold reach_bound, Soa.len. lia.
  - by exists r.
Qed.

(** The requests that the arguments refuse. *)
Definition outputs_error (soa : NodeSoA) (roots : list Z) (start : Z) : option string :=
  if W32 <=? Z.of_nat (length roots) then Some "too many DAG outputs"%string
  else if bool_decide (roots = []) then Some "empty DAG outputs"%string
  else if W32 <? start + Z.of_nat (length roots) then Some "output constant index overflow"%string
  else if (W32 - 1 <? Soa.len soa) || negb (bool_decide (columns_ok soa)) then Some "invalid DAG columns"%string
  else if existsb (λ root, Soa.len soa <=? root) roots then Some "unknown DAG output node"%string
  else None.

Lemma validate_error soa roots start e : outputs_error soa roots start = Some e →
  validate_outputs soa roots start = Some (Err e).
Proof.
  unfold outputs_error, validate_outputs, columns_ok. destruct (W32 <=? _); [by intros [= <-]|].
  destruct roots as [|root roots]; [by intros [= <-]|]. rewrite bool_decide_false by done.
  destruct (Z.ltb_spec (Z.of_nat (length (root :: roots))) 1) as [Hl|_]; [cbn in Hl; lia|].
  destruct (Z.ltb_spec W32 (start + Z.of_nat (length (root :: roots)))).
  { intros [= <-]. by rewrite (proj2 (Z.leb_le _ _)) by lia. }
  rewrite (proj2 (Z.leb_gt _ _)) by lia.
  assert ((W32 - 1 <? Soa.len soa) || negb (bool_decide (length (lefts soa) = length (kinds soa)))
     || negb (bool_decide (length (rights soa) = length (kinds soa))) =
     (W32 - 1 <? Soa.len soa) || negb (bool_decide (length (lefts soa) = length (kinds soa) ∧
       length (rights soa) = length (kinds soa)))) as ->.
  { rewrite bool_decide_and, negb_andb. by rewrite orb_assoc. }
  destruct ((W32 - 1 <? Soa.len soa) || _); [by intros [= <-]|].
  destruct (existsb _ _); [by intros [= <-]|done].
Qed.

Lemma validate_accepts soa roots start : columns_ok soa → numbers_ok soa → Forall (λ id, 0 ≤ id) roots →
  outputs_error soa roots start = None →
  ∃ r, validate_outputs soa roots start = Some r ∧
    match r with Ok reachable => reached soa roots reachable [] | Err _ => ¬ ordered (soa_graph soa) end.
Proof.
  intros Hcol Hnum H0. unfold outputs_error, validate_outputs. destruct (W32 <=? _); [done|].
  destruct roots as [|root roots]; [done|]. rewrite bool_decide_false by done.
  destruct (Z.ltb_spec (Z.of_nat (length (root :: roots))) 1) as [Hl|_]; [cbn in Hl; lia|].
  destruct (Z.ltb_spec W32 (start + Z.of_nat (length (root :: roots)))); [done|].
  rewrite (proj2 (Z.leb_gt _ _)) by lia. rewrite (bool_decide_true (columns_ok soa)) by done.
  rewrite (bool_decide_true (length (lefts soa) = _)), (bool_decide_true (length (rights soa) = _)) by apply Hcol.
  destruct (Z.ltb_spec (W32 - 1) (Soa.len soa)); [done|]. cbn [orb negb].
  destruct (existsb _ _) eqn:Ex; [done|]. intros _.
  destruct (reach_total soa (root :: roots)) as (r & -> & Hr); [done|done| |by exists r].
  apply Forall_forall. intros id Hid. split; [by eapply Forall_forall in H0|].
  destruct (Z.ltb_spec id (Soa.len soa)) as [|Hge]; [done|]. exfalso.
  assert (existsb (λ root, Soa.len soa <=? root) (root :: roots) = true); [|congruence].
  apply existsb_exists. exists id. split; [by apply list_elem_of_In|]. by apply Z.leb_le.
Qed.

(** ** Emitting the outputs *)

Section outputs.
Context {H : Libm} (ctx : EvalContext) (soa : NodeSoA) (Hok : graph_ok soa).
Implicit Types (self s : State) (order : list nat).

Abbreviation node_val := (node_val ctx soa).
Abbreviation stack_of := (stack_of ctx soa).

Lemma emit_output_spec slot start output root order self : emitted soa order self → pending self = [] →
  0 ≤ root < Soa.len soa → 0 ≤ output < W32 →
  ∃ order' s' seg, emit_output soa slot start output root self = Some s' ∧ emitted soa order' s' ∧ pending s' = [] ∧
    code s' = code self ++ seg ++ [Rpn.Const (start + output); Rpn.StoreResult slot] ∧ pure seg ∧
    ∀ stack, exec (Rpn.indexed_step ctx) seg (stack_of order ++ stack) =
      Some (node_val (Z.to_nat root) :: stack_of order' ++ stack).
Proof.
  intros Hinv Hp Hroot Hout. destruct (run_visit_spec ctx soa Hok false order self root Hinv Hp Hroot) as
    (order' & s & Hrun & [Hinv' _ (ops & Eops & Hpure & _ & Hexec)] & Hp' & [p Hs] & _).
  unfold emit_output. rewrite Hrun. cbn [mbind option_bind]. rewrite Hs. cbn [mbind option_bind].
  pose proof Hs as (Hp0 & Hlk)%slot_of_Some%(emitted_order _ _ _ Hinv').
  pose proof (order_bound soa order' (order_nodup _ _ _ Hinv') (emitted_range _ _ _ Hinv')) as Hb.
  pose proof (graph_small _ Hok) as Hsmall. unfold Soa.len in Hsmall. pose proof (lookup_lt_Some _ _ _ Hlk).
  rewrite (emitted_height _ _ _ Hinv').
  assert (as_u32 (Z.of_nat (length order') - 1 - p) = Z.of_nat (length order' - 1 - Z.to_nat p)) as ->.
  { unfold as_u32. rewrite Z.mod_small; lia. }
  assert (as_u32 output = output) as -> by (by apply Z.mod_small).
  eexists order', _, (ops ++ [_]). split; [done|]. cbn [code pending].
  split; [by destruct Hinv'|]. split; [done|]. split; [rewrite Eops, <-!app_assoc; done|].
  split; [apply Forall_app; split; [done|by repeat constructor]|]. intros stack. rewrite exec_app, Hexec.
  cbn [mbind option_bind exec]. by rewrite (step_pick _ _ _ _ (stack_value ctx soa order' stack _ _ Hlk)).
Qed.
End outputs.

(** ** Theorems *)

Lemma registry_graph_ok self : registry_ok self → graph_ok (HashCons.into_soa self).
Proof. intros Hok. split; [apply Hok|apply Hok|]. pose proof (registry_small _ Hok). unfold HashCons.len in *. unfold HashCons.into_soa. lia. Qed.

Lemma linearize_evaluates soa root : graph_ok soa → 0 ≤ root < Soa.len soa →
  ∃ p, linearize soa root = Some p ∧ Rpn.const_pool p = const_pool soa ∧ Rpn.len p ≤ 5 * Soa.len soa - 2 ∧
    pure (Rpn.ops p) ∧
    ∀ (H : Libm) ctx stack, exec (Rpn.indexed_step ctx) (Rpn.ops p) stack =
      Some (value_at (graph_values ctx (soa_graph soa)) root :: stack).
Proof.
  intros Hok Hroot.
  destruct (@linearize_run libm_example (mkContext [] []) soa Hok root Hroot) as (p & E & Hpool & Hpure & Hlen & _).
  exists p. do 4 (split; [done|]). intros H ctx stack.
  destruct (linearize_run ctx soa Hok root Hroot) as (p' & E' & _ & _ & _ & Hexec). rewrite E in E'. by injection E' as <-.
Qed.

(** [C28] Lowering a graph preserves its meaning. For columns whose children precede their
    parents, [linearize] gives, without a panic and within its bound of turns, a program of
    at most five operations per node that computes exactly what the recursive evaluation
    gives, in every context, and that started on any stack only pushes its result. *)
Theorem linearize_correct soa root : graph_ok soa → 0 ≤ root < Soa.len soa →
  ∃ p, linearize soa root = Some p ∧ Rpn.const_pool p = const_pool soa ∧ Rpn.len p ≤ 5 * Soa.len soa ∧
    ∀ (H : Libm) ctx, ∃ v, Dag.evaluate (Z.to_nat (Soa.len soa)) (Dag.new soa root) ctx = Some v ∧
      Rpn.evaluate_with_ctx ctx p = Some v ∧ ∀ stack, Rpn.run ctx (Rpn.ops p) stack = Some (v :: stack).
Proof.
  intros Hok Hroot. destruct (linearize_evaluates soa root Hok Hroot) as (p & E & Hpool & Hlen & Hpure%pure_loop_free & Hexec).
  exists p. split; [done|]. split; [done|]. split; [lia|]. intros H ctx. eexists. split.
  - unfold Dag.evaluate. cbn [Dag.soa Dag.root Dag.new]. apply evaluate_soa_graph; [apply Hok|apply Hok|done|lia].
  - split; [by eapply evaluate_exec|]. intros stack. rewrite run_exec by done.
    eapply exec_mono; [apply indexed_step_agrees|apply Hexec].
Qed.

(** The compiler is correct. For any list of requests to the registry, lowering the
    node of an answer and evaluating the program with its own constants gives the value of
    the request without sharing, folding or compilation. *)
Theorem compile_requests `{Libm} qs : Z.of_nat (length qs) ≤ W32 → well_formed qs →
  ∃ self ids, serve_all HashCons.new [] qs = Some (self, ids) ∧
    ∀ inputs, Forall2 (λ id v, ∃ p, linearize (HashCons.into_soa self) id = Some p ∧
      Rpn.evaluate_with_ctx (mkContext inputs (Rpn.const_pool p)) p = Some v) ids (values_of inputs qs).
Proof.
  intros Hlt Hwf. destruct (run_requests qs Hlt Hwf) as (self & ids & E & [Hok Ha _ _ _ Hv]).
  exists self, ids. split; [done|]. intros inputs. apply (Forall2_weaken_l _ _ _ _ _ Ha (Hv inputs)).
  intros id v Hid <-. destruct (linearize_evaluates (HashCons.into_soa self) id) as (p & Ep & Hpool & _ & Hpure & Hexec).
  { by apply registry_graph_ok. } { done. }
  exists p. split; [done|]. eapply evaluate_exec; [by apply pure_loop_free|]. rewrite Hexec, Hpool. done.
Qed.

(** Requests for several outputs are refused as the documentation says, and never
    panic: with each of the five arguments that it lists the error is that argument's, and
    otherwise the check of the graph ends, marks the roots and everything below them, and
    can only refuse a graph with a child that does not precede its parent. *)
Theorem validate_outputs_spec soa roots start : numbers_ok soa → Forall (λ id, 0 ≤ id) roots →
  match outputs_error soa roots start with
  | Some e => validate_outputs soa roots start = Some (Err e) ∧
      ∀ slot, linearize_outputs soa roots slot start = Some (Err e)
  | None => ∃ r, validate_outputs soa roots start = Some r ∧
      match r with Ok reachable => reached soa roots reachable [] | Err _ => ¬ ordered (soa_graph soa) end
  end.
Proof.
  intros Hnum H0. destruct (outputs_error soa roots start) as [e|] eqn:E.
  - apply validate_error in E. split; [done|]. intros slot. unfold linearize_outputs. by rewrite E.
  - apply validate_accepts; [|done..]. unfold outputs_error in E. repeat (case_match; try done).
    destruct (bool_decide_reflect (columns_ok soa)) as [|Hc]; [done|]. by destruct (W32 - 1 <? Soa.len soa).
Qed.

(** [bml(bml(1, x), bml(1, x))] over a shared child. *)
Definition shared_soa : NodeSoA :=
  let s := (push_one Soa.new).2 in let s := (push_var s 0).2 in
  let s := (push_bml s 0 1).2 in (push_bml s 2 2).2.

Lemma shared_soa_ok : graph_ok shared_soa.
Proof.
  split; [done| |done]. intros i l r Hi.
  destruct i as [|[|[|[|i]]]]; cbn in Hi; simplify_eq; lia.
Qed.

Lemma linearize_correct_witness :
  graph_ok shared_soa ∧ ∃ p, linearize shared_soa 3 = Some p ∧ Rpn.len p = 14 ∧ Rpn.len p ≤ 5 * Soa.len shared_soa.
Proof.
  split; [apply shared_soa_ok|].
  destruct (linearize_correct shared_soa 3 shared_soa_ok) as (p & E & _ & Hlen & _); [done|].
  exists p. split; [done|]. split; [|done]. vm_compute in E. injection E as <-. reflexivity.
Defined.

Lemma compile_requests_witness :
  let qs := [VarReq 0; OneReq; BmlReq 1 0; BmlReq 2 2] in
  ∃ self ids, @serve_all libm_example HashCons.new [] qs = Some (self, ids) ∧ ids = [0; 1; 2; 3].
Proof.
  intros qs. destruct (@compile_requests libm_example qs) as (self & ids & E & _); [done| |].
  - intros [|[|[|[|k]]]] i j Hk; cbn in Hk; simplify_eq; lia.
  - exists self, ids. split; [done|]. vm_compute in E. by injection E as _ <-.
Defined.

Lemma validate_outputs_spec_witness :
  numbers_ok shared_soa ∧ validate_outputs shared_soa [] 0 = Some (Err "empty DAG outputs"%string).
Proof.
  assert (numbers_ok shared_soa) as Hn.
  { intros i k l r Hi. destruct i as [|[|[|[|i]]]]; cbn in Hi; simplify_eq; lia. }
  split; [done|]. by destruct (validate_outputs_spec shared_soa [] 0 Hn (Forall_nil_2 _)).
Defined.
