(* ===== verification/Fragments.v ===== *)
(** * fragment.rs: fragments of a program and their file format

    A program is cut into fragments that fit a cache, which are run in order on one
    stack. The cursor of the decoder is the list of the bytes that remain. *)
From S2P Require Import Prelude Float FloatArith Bytes FloatInt Syntax HashCons Rpn Linearize.
Import Syntax.Ast.

Definition u32 (n : Z) : Prop := 0 ≤ n < W32.

Module Fragments.
Definition BMLGRAPH_MAGIC : Z := 0x4C4D4247.
Definition BMLGRAPH_VERSION : Z := 2.
Definition BMLGRAPH_CONTEXT_VERSION : Z := 3.
Definition BMLGRAPH_SELECTION_VERSION : Z := 4.
Definition DEFAULT_L1_THRESHOLD : Z := 32 * 1024.
Definition L3_THRESHOLD : Z := 1024 * 1024.

Record Fragment : Set := mkFragment { ops : list Rpn.RpnOp }.

Definition new : Fragment := mkFragment [].
Definition len (self : Fragment) : Z := Z.of_nat (length (ops self)).
Definition is_empty (self : Fragment) : bool := match ops self with [] => true | _ => false end.
Definition push (self : Fragment) (op : Rpn.RpnOp) : Fragment := mkFragment (ops self ++ [op]).

(** The size of an operation is the compiler's: the parameter [op_size]. *)
Definition byte_size (op_size : Z) (self : Fragment) : Z := len self * op_size.

(** [None] is a panic. *)
Definition evaluate_on_stack_with_ctx `{Libm} (ctx : EvalContext) (self : Fragment) (stack : list f64) : option (list f64) :=
  if Rpn.uses_counter_loops (ops self) then
    Some (match Rpn.evaluate_indexed_ops ctx (length (ops self)) 0 (ops self) stack with
          | Some stack => stack
          | None => [f64_nan]
          end)
  else Rpn.run ctx (ops self) stack.

Definition evaluate_on_stack `{Libm} (self : Fragment) (stack : list f64) : option (list f64) :=
  evaluate_on_stack_with_ctx (mkContext [] []) self stack.

Record BmlGraph : Set := mkGraph { const_pool : list f64; fragments : list Fragment; threshold : Z }.

Definition new_graph (threshold : Z) : BmlGraph := mkGraph [] [] threshold.
Definition num_fragments (self : BmlGraph) : Z := Z.of_nat (length (fragments self)).
Definition total_byte_size (op_size : Z) (self : BmlGraph) : Z :=
  foldr Z.add 0 (byte_size op_size <$> fragments self).
Definition all_fragments_under_threshold (op_size : Z) (self : BmlGraph) : bool :=
  forallb (λ f, byte_size op_size f <=? threshold self) (fragments self).

(** The loop of [evaluate]: [Err] carries a value that is returned at once. *)
Fixpoint evaluate_fragments `{Libm} (ctx : EvalContext) (indexed : bool) (fs : list Fragment) (stack : list f64)
    : option (Result f64 (list f64)) :=
  match fs with
  | [] => Some (Ok stack)
  | f :: fs =>
      if indexed then
        match Rpn.evaluate_indexed_ops ctx (length (ops f)) 0 (ops f) stack with
        | Some stack => evaluate_fragments ctx indexed fs stack
        | None => Some (Err f64_nan)
        end
      else stack ← evaluate_on_stack_with_ctx ctx f stack; evaluate_fragments ctx indexed fs stack
  end.

Definition evaluate `{Libm} (self : BmlGraph) (x : f64) : option f64 :=
  let indexed := existsb (λ f, Rpn.uses_counter_loops (ops f)) (fragments self) in
  result ← evaluate_fragments (mkContext [x] (const_pool self)) indexed (fragments self) [];
  Some (match result with Ok stack => default f64_nan (head stack) | Err v => v end).

(** ** Cutting *)

Definition fragment_step (op_size limit : Z) (state : BmlGraph * Fragment) (op : Rpn.RpnOp) : BmlGraph * Fragment :=
  let '(graph, current) := state in
  let '(graph, current) :=
    if (limit <? byte_size op_size current + op_size) && negb (is_empty current)
    then (mkGraph (const_pool graph) (fragments graph ++ [current]) (threshold graph), new)
    else (graph, current) in
  (graph, push current op).

Definition fragment_program (op_size : Z) (program : Rpn.RpnProgram) (threshold : Z) : BmlGraph :=
  let '(graph, current) := foldl (fragment_step op_size threshold)
    (mkGraph (Rpn.const_pool program) [] threshold, new) (Rpn.ops program) in
  if is_empty current then graph
  else mkGraph (const_pool graph) (fragments graph ++ [current]) (Fragments.threshold graph).

(** ** Encoding *)

Definition is_fmax (op : Rpn.RpnOp) : bool := match op with Rpn.FMax => true | _ => false end.
Definition is_context (op : Rpn.RpnOp) : bool :=
  match op with Rpn.ContextVarIndexed _ | Rpn.ContextConstIndexed _ => true | _ => false end.

Definition version_of (self : BmlGraph) : Z :=
  if existsb (λ f, existsb is_fmax (ops f)) (fragments self) then BMLGRAPH_SELECTION_VERSION
  else if existsb (λ f, existsb is_context (ops f)) (fragments self) then BMLGRAPH_CONTEXT_VERSION
  else BMLGRAPH_VERSION.

Definition encode_op (op : Rpn.RpnOp) : list Z :=
  match op with
  | Rpn.One => [0]
  | Rpn.Zero => [6]
  | Rpn.Bml => [1]
  | Rpn.Dup => [2]
  | Rpn.Loop count body_len => 3 :: le_bytes 4 count ++ le_bytes 4 body_len
  | Rpn.Var id => 4 :: le_bytes 4 id
  | Rpn.Const id => 5 :: le_bytes 4 id
  | Rpn.VarIndexed base => 7 :: le_bytes 4 base
  | Rpn.StoreResult slot => 8 :: le_bytes 4 slot
  | Rpn.FAdd => [9]
  | Rpn.FMul => [10]
  | Rpn.FMax => [16]
  | Rpn.Pick depth => 11 :: le_bytes 4 depth
  | Rpn.Drop => [12]
  | Rpn.Swap => [13]
  | Rpn.ContextVarIndexed base => 14 :: le_bytes 4 base
  | Rpn.ContextConstIndexed base => 15 :: le_bytes 4 base
  end.

Definition encode_fragment (f : Fragment) : list Z :=
  le_bytes 4 (as_u32 (len f)) ++ concat (encode_op <$> ops f).

Definition serialize (self : BmlGraph) : list Z :=
  le_bytes 4 BMLGRAPH_MAGIC ++ le_bytes 4 (version_of self) ++ le_bytes 4 (as_u32 (num_fragments self)) ++
  concat (encode_fragment <$> fragments self) ++
  le_bytes 8 (Z.of_nat (length (const_pool self))) ++ concat (le_bytes 8 ∘ to_bits <$> const_pool self).

(** ** Decoding *)

(** The messages of the code. *)
Inductive DecodeError : Set :=
  | FileTooSmall | BadMagic (magic : Z) | UnsupportedVersion (version : Z) | FragmentBudget
  | FragmentSizeRange | OpcodeOverflow | OpcodeBudget | OpcodeRange | OperandRange (tag : Z)
  | TruncatedContextIndex | UnknownTag (tag : Z) | MissingPoolLength | ConstantBudget
  | PoolSizeOverflow | PoolRangeOverflow | TruncatedPool | TrailingBytes.

(** [n] bytes of the cursor. *)
Definition read {E} (n : nat) (e : E) (bytes : list Z) : Result E (Z * list Z) :=
  if bool_decide (length bytes < n)%nat then Err e else Ok (le_value (take n bytes), drop n bytes).

Definition decode_op (version : Z) (bytes : list Z) : Result DecodeError (Rpn.RpnOp * list Z) :=
  match bytes with
  | [] => Err OpcodeRange
  | tag :: bytes =>
      if tag =? 0 then Ok (Rpn.One, bytes)
      else if tag =? 1 then Ok (Rpn.Bml, bytes)
      else if tag =? 2 then Ok (Rpn.Dup, bytes)
      else if tag =? 3 then
        if bool_decide (length bytes < 8)%nat then Err (OperandRange tag) else
        '(count, bytes) ← read 4 (OperandRange tag) bytes;
        '(body_len, bytes) ← read 4 (OperandRange tag) bytes;
        Ok (Rpn.Loop count body_len, bytes)
      else if tag =? 4 then '(id, bytes) ← read 4 (OperandRange tag) bytes; Ok (Rpn.Var id, bytes)
      else if tag =? 6 then Ok (Rpn.Zero, bytes)
      else if tag =? 5 then '(id, bytes) ← read 4 (OperandRange tag) bytes; Ok (Rpn.Const id, bytes)
      else if tag =? 7 then '(base, bytes) ← read 4 (OperandRange tag) bytes; Ok (Rpn.VarIndexed base, bytes)
      else if tag =? 8 then '(slot, bytes) ← read 4 (OperandRange tag) bytes; Ok (Rpn.StoreResult slot, bytes)
      else if tag =? 9 then Ok (Rpn.FAdd, bytes)
      else if tag =? 10 then Ok (Rpn.FMul, bytes)
      else if (tag =? 16) && (BMLGRAPH_SELECTION_VERSION <=? version) then Ok (Rpn.FMax, bytes)
      else if tag =? 11 then '(depth, bytes) ← read 4 (OperandRange tag) bytes; Ok (Rpn.Pick depth, bytes)
      else if tag =? 12 then Ok (Rpn.Drop, bytes)
      else if tag =? 13 then Ok (Rpn.Swap, bytes)
      else if ((tag =? 14) || (tag =? 15)) && (BMLGRAPH_CONTEXT_VERSION <=? version) then
        '(base, bytes) ← read 4 TruncatedContextIndex bytes;
        Ok (if tag =? 14 then Rpn.ContextVarIndexed base else Rpn.ContextConstIndexed base, bytes)
      else Err (UnknownTag tag)
  end.

Fixpoint decode_ops (version : Z) (n : nat) (bytes : list Z) : Result DecodeError (list Rpn.RpnOp * list Z) :=
  match n with
  | O => Ok ([], bytes)
  | S n =>
      '(op, bytes) ← decode_op version bytes;
      '(ops, bytes) ← decode_ops version n bytes;
      Ok (op :: ops, bytes)
  end.

Fixpoint decode_fragments (version max_ops : Z) (n : nat) (total_ops : Z) (bytes : list Z)
    : Result DecodeError (list Fragment * list Z) :=
  match n with
  | O => Ok ([], bytes)
  | S n =>
      '(num_ops, bytes) ← read 4 FragmentSizeRange bytes;
      total_ops ← ok_or OpcodeOverflow (checked_add total_ops num_ops);
      if max_ops <? total_ops then Err OpcodeBudget else
      '(ops, bytes) ← decode_ops version (Z.to_nat num_ops) bytes;
      '(fs, bytes) ← decode_fragments version max_ops n total_ops bytes;
      Ok (mkFragment ops :: fs, bytes)
  end.

Fixpoint decode_pool (n : nat) (bytes : list Z) : list f64 :=
  match n with O => [] | S n => from_bits (le_value (take 8 bytes)) :: decode_pool n (drop 8 bytes) end.

(** The range check counts from the start of the file: [size] is its length. *)
Definition decode_constants (max_constants size : Z) (bytes : list Z) : Result DecodeError (list f64 * list Z) :=
  '(count, bytes) ← read 8 MissingPoolLength bytes;
  if max_constants <? count then Err ConstantBudget else
  pool_size ← ok_or PoolSizeOverflow (checked_mul count 8);
  _ ← ok_or PoolRangeOverflow (checked_add (size - Z.of_nat (length bytes)) pool_size);
  if Z.of_nat (length bytes) <? pool_size then Err TruncatedPool else
  Ok (decode_pool (Z.to_nat count) bytes, drop (Z.to_nat pool_size) bytes).

Definition deserialize_with_limits (bytes : list Z) (threshold max_fragments max_ops max_constants : Z)
    : Result DecodeError BmlGraph :=
  let size := Z.of_nat (length bytes) in
  if size <? 12 then Err FileTooSmall else
  let magic := le_value (take 4 bytes) in
  if negb (magic =? BMLGRAPH_MAGIC) then Err (BadMagic magic) else
  let version := le_value (take 4 (drop 4 bytes)) in
  if negb ((1 <=? version) && (version <=? BMLGRAPH_SELECTION_VERSION)) then Err (UnsupportedVersion version) else
  let num_fragments := le_value (take 4 (drop 8 bytes)) in
  if max_fragments <? num_fragments then Err FragmentBudget else
  '(fragments, bytes) ← decode_fragments version max_ops (Z.to_nat num_fragments) 0 (drop 12 bytes);
  '(const_pool, bytes) ←
    (if 2 <=? version then decode_constants max_constants size bytes else Ok ([], bytes));
  if bool_decide (bytes = []) then Ok (mkGraph const_pool fragments threshold) else Err TrailingBytes.

Definition deserialize (bytes : list Z) (threshold : Z) : Result DecodeError BmlGraph :=
  deserialize_with_limits bytes threshold (W64 - 1) (W64 - 1) (W64 - 1).
End Fragments.

Import Fragments.

(** ** Cutting a program *)

Section cutting.
Context (op_size : Z) (Hsize : 0 < op_size).

(** Fragments are not empty, and fit the limit unless they hold one operation. *)
Definition cut_ok (limit : Z) (f : Fragment) : Prop :=
  ops f ≠ [] ∧ (byte_size op_size f ≤ limit ∨ len f = 1).

Lemma fragment_step_inv limit graph current done_ op :
  Forall (cut_ok limit) (fragments graph) → (ops current = [] ∨ cut_ok limit current) →
  concat (ops <$> fragments graph) ++ ops current = done_ →
  let '(graph', current') := fragment_step op_size limit (graph, current) op in
  Forall (cut_ok limit) (fragments graph') ∧ cut_ok limit current' ∧
  concat (ops <$> fragments graph') ++ ops current' = done_ ++ [op] ∧
  const_pool graph' = const_pool graph ∧ threshold graph' = threshold graph.
Proof.
  intros Hf Hc Hd. unfold fragment_step.
  destruct (Z.ltb_spec limit (byte_size op_size current + op_size)) as [Hbig|Hfit]; cbn [andb].
  - destruct (ops current) as [|o l] eqn:Ec; unfold is_empty; rewrite Ec; cbn [negb].
    + split; [done|]. split; [|split; [|done]].
      * split; [cbn; by rewrite Ec|]. right. unfold len, push. cbn. by rewrite Ec.
      * cbn. by rewrite Ec, <-Hd, app_nil_r.
    + split; [apply Forall_app; split; [done|]; apply Forall_singleton; by destruct Hc|].
      split; [split; [done|by right]|]. split; [|done]. cbn [fragments ops push new].
      rewrite fmap_app, concat_app. cbn [fmap list_fmap concat]. by rewrite app_nil_r, Ec, Hd.
  - split; [done|]. split; [|split; [cbn; by rewrite app_assoc, Hd|done]]. split.
    + cbn. by destruct (ops current).
    + left. unfold byte_size, len, push in *. cbn. rewrite length_app. cbn. lia.
Qed.

Lemma fragment_program_spec program limit :
  let graph := fragment_program op_size program limit in
  concat (ops <$> fragments graph) = Rpn.ops program ∧ Forall (cut_ok limit) (fragments graph) ∧
  const_pool graph = Rpn.const_pool program ∧ threshold graph = limit.
Proof.
  unfold fragment_program.
  pose proof (foldl_up (λ k '(graph, current),
    Forall (cut_ok limit) (fragments graph) ∧ (ops current = [] ∨ cut_ok limit current) ∧
    concat (ops <$> fragments graph) ++ ops current = take k (Rpn.ops program) ∧
    const_pool graph = Rpn.const_pool program ∧ threshold graph = limit)
    (fragment_step op_size limit) (Rpn.ops program) (mkGraph (Rpn.const_pool program) [] limit, new)) as Hup.
  destruct (foldl _ _ _) as [graph current]. destruct Hup as (Hf & Hc & Hd & Hp & Ht).
  - split; [by apply Forall_nil|]. split; [by left|done].
  - intros k op [graph0 current0] Hop (Hf & Hc & Hd & Hp & Ht).
    pose proof (fragment_step_inv limit graph0 current0 _ op Hf Hc Hd) as Hs.
    destruct (fragment_step op_size limit (graph0, current0) op) as [graph1 current1].
    destruct Hs as (H1 & H2 & H3 & H4 & H5). rewrite (take_S_r _ _ _ Hop), H4, H5. by split; [|split; [right|]].
  - rewrite firstn_all in Hd. unfold is_empty. destruct (ops current) as [|o l] eqn:Ec; [by rewrite app_nil_r in Hd|].
    cbn [fragments const_pool threshold]. rewrite fmap_app, concat_app. cbn [fmap list_fmap concat]. rewrite app_nil_r, Ec.
    split; [done|]. split; [|done]. apply Forall_app. split; [done|]. apply Forall_singleton. by destruct Hc.
Qed.
End cutting.

(** ** Running fragments *)

Section running.
Context {H : Libm} (ctx : EvalContext).

Lemma fragment_exec f stack stack' : loop_free (ops f) → exec (Rpn.indexed_step ctx) (ops f) stack = Some stack' →
  evaluate_on_stack_with_ctx ctx f stack = Some stack'.
Proof.
  intros Hfree Hexec. unfold evaluate_on_stack_with_ctx. destruct (Rpn.uses_counter_loops (ops f)).
  - by rewrite indexed_exec, Hexec.
  - rewrite run_exec by done. eapply exec_mono; [apply indexed_step_agrees|done].
Qed.

(** The stack is kept between fragments. *)
Lemma fragments_exec indexed fs stack stack' : loop_free (concat (ops <$> fs)) →
  exec (Rpn.indexed_step ctx) (concat (ops <$> fs)) stack = Some stack' →
  evaluate_fragments ctx indexed fs stack = Some (Ok stack').
Proof.
  revert stack. induction fs as [|f fs IH]; intros stack Hfree Hexec; cbn in *; [by injection Hexec as ->|].
  apply Forall_app in Hfree as [Hf Hfs]. rewrite exec_app in Hexec.
  destruct (exec (Rpn.indexed_step ctx) (ops f) stack) as [s|] eqn:E; [|done]. cbn in Hexec.
  destruct indexed.
  - rewrite indexed_exec, E by done. by apply IH.
  - rewrite (fragment_exec f stack s) by done. by apply IH.
Qed.
End running.

(** ** The file format *)

Definition op_ok (op : Rpn.RpnOp) : Prop :=
  match op with
  | Rpn.Var n | Rpn.Const n | Rpn.VarIndexed n | Rpn.ContextVarIndexed n | Rpn.ContextConstIndexed n
  | Rpn.StoreResult n | Rpn.Pick n => u32 n
  | Rpn.Loop count body_len => u32 count ∧ u32 body_len
  | _ => True
  end.

(** The first version that has an operation. *)
Definition op_version (op : Rpn.RpnOp) : Z :=
  if is_fmax op then BMLGRAPH_SELECTION_VERSION else if is_context op then BMLGRAPH_CONTEXT_VERSION else 1.

Lemma u32_bytes n : u32 n ↔ 0 ≤ n < 256 ^ Z.of_nat 4.
Proof. done. Qed.

Lemma read_bytes {E} n (e : E) v rest : 0 ≤ v < 256 ^ Z.of_nat n → read n e (le_bytes n v ++ rest) = Ok (v, rest).
Proof.
  intros Hv. unfold read. rewrite length_app, length_le_bytes, bool_decide_false by lia.
  rewrite <-(length_le_bytes n v) at 1 3. rewrite take_app_length, drop_app_length. by rewrite le_value_bytes.
Qed.

Lemma read_sound {E} n (e : E) bytes v rest : Forall u8 bytes → read n e bytes = Ok (v, rest) →
  bytes = le_bytes n v ++ rest ∧ 0 ≤ v < 256 ^ Z.of_nat n ∧ Forall u8 rest.
Proof.
  intros Hb. unfold read. case_bool_decide as Hn; [done|]. intros [= <- <-].
  assert (length (take n bytes) = n) as Hl by (rewrite length_take; lia).
  pose proof (le_value_bounds (take n bytes) (Forall_take _ _ _ Hb)) as Hv. rewrite Hl in Hv.
  rewrite le_bytes_value by (done || by apply Forall_take).
  split; [by rewrite take_drop|]. split; [done|]. by apply Forall_drop.
Qed.

Lemma decode_encode_op version op rest : op_ok op → op_version op ≤ version →
  decode_op version (encode_op op ++ rest) = Ok (op, rest).
Proof.
  intros Hok Hv. destruct op; cbn [encode_op app decode_op Z.eqb Pos.eqb andb orb op_ok] in *; try done;
    try (rewrite read_bytes by (by apply u32_bytes); done).
  - unfold op_version in Hv. cbn [is_fmax is_context] in Hv. rewrite (proj2 (Z.leb_le _ _)) by done.
    rewrite read_bytes by (by apply u32_bytes). done.
  - unfold op_version in Hv. cbn [is_fmax is_context] in Hv. rewrite (proj2 (Z.leb_le _ _)) by done.
    rewrite read_bytes by (by apply u32_bytes). done.
  - destruct Hok. rewrite <-app_assoc, bool_decide_false by (rewrite !length_app, !length_le_bytes; lia).
    rewrite read_bytes by (by apply u32_bytes). cbn [mbind Result_bind].
    rewrite read_bytes by (by apply u32_bytes). done.
  - unfold op_version in Hv. cbn [is_fmax] in Hv. by rewrite (proj2 (Z.leb_le _ _)) by done.
Qed.

Lemma decode_op_sound version bytes op rest : Forall u8 bytes → decode_op version bytes = Ok (op, rest) →
  1 ≤ version → bytes = encode_op op ++ rest ∧ op_ok op ∧ op_version op ≤ version ∧ Forall u8 rest.
Proof.
  intros Hb Hd Hv. destruct bytes as [|tag bytes]; [done|]. apply Forall_cons in Hb as [Ht Hb]. cbn [decode_op] in Hd.
  repeat match type of Hd with
  | (if tag =? ?k then _ else _) = _ => destruct (Z.eqb_spec tag k) as [->|?]; [|]
  | (if (tag =? 16) && ?b then _ else _) = _ =>
      destruct (Z.eqb_spec tag 16) as [->|?]; [destruct (Z.leb_spec BMLGRAPH_SELECTION_VERSION version)|]; cbn [andb] in Hd
  | (if ((tag =? 14) || (tag =? 15)) && _ then _ else _) = _ =>
      destruct (Z.eqb_spec tag 14) as [->|?];
        [|destruct (Z.eqb_spec tag 15) as [->|?]]; cbn [orb andb Z.eqb Pos.eqb] in Hd;
        try destruct (Z.leb_spec BMLGRAPH_CONTEXT_VERSION version)
  | (if bool_decide _ then _ else _) = _ => case_bool_decide
  | (read _ _ _ ≫= _) = _ =>
      apply bind_ok in Hd as ([? ?] & (-> & ? & ?)%read_sound & Hd); [|done]
  end; simplify_eq; cbn [encode_op app op_ok op_version];
    rewrite <-?app_assoc; try (split; [done|split; [done|split; [done|done]]]).
Qed.

Definition fragment_ok (version : Z) (f : Fragment) : Prop :=
  u32 (len f) ∧ Forall (λ op, op_ok op ∧ op_version op ≤ version) (ops f).

Definition total_ops (fs : list Fragment) : Z := foldr Z.add 0 (len <$> fs).

Lemma decode_encode_ops version all rest : Forall (λ op, op_ok op ∧ op_version op ≤ version) all →
  decode_ops version (length all) (concat (encode_op <$> all) ++ rest) = Ok (all, rest).
Proof.
  intros Hall. induction Hall as [|op all [Hok Hv] _ IH]; cbn [length decode_ops fmap list_fmap concat]; [done|].
  rewrite <-app_assoc, decode_encode_op by done. cbn [mbind Result_bind].
  change (list_fmap _ _ encode_op all) with (encode_op <$> all). by rewrite IH.
Qed.

Lemma decode_ops_sound version n bytes all rest : 1 ≤ version → Forall u8 bytes → decode_ops version n bytes = Ok (all, rest) →
  bytes = concat (encode_op <$> all) ++ rest ∧ length all = n ∧
  Forall (λ op, op_ok op ∧ op_version op ≤ version) all ∧ Forall u8 rest.
Proof.
  intros Hv. revert bytes all. induction n as [|n IH]; intros bytes all Hb Hd; cbn [decode_ops] in Hd.
  { injection Hd as <- <-. split; [done|]. split; [done|]. split; [by apply Forall_nil|done]. }
  apply bind_ok in Hd as ([op bytes1] & Ho & Hd).
  apply decode_op_sound in Ho as (-> & Hok & Hov & Hb1); [|done..].
  apply bind_ok in Hd as ([all1 bytes2] & Ha & [= <- <-]).
  apply IH in Ha as (-> & <- & Hall & Hb2); [|done].
  split; [cbn; by rewrite app_assoc|]. split; [done|]. split; [by apply Forall_cons|done].
Qed.

Lemma total_ops_nonneg fs : 0 ≤ total_ops fs.
Proof. unfold total_ops. induction fs as [|f fs IH]; cbn in *; [done|]. unfold len at 1. lia. Qed.

Lemma encode_fragment_ok f : u32 (len f) → encode_fragment f = le_bytes 4 (len f) ++ concat (encode_op <$> ops f).
Proof. intros Hl. unfold encode_fragment, as_u32. by rewrite Z.mod_small. Qed.

Lemma decode_encode_fragments version max_ops total fs rest : Forall (fragment_ok version) fs →
  max_ops < W64 → 0 ≤ total → total + total_ops fs ≤ max_ops →
  decode_fragments version max_ops (length fs) total (concat (encode_fragment <$> fs) ++ rest) = Ok (fs, rest).
Proof.
  intros Hfs Hmax. revert total. induction Hfs as [|f fs [Hl Hf] _ IH]; intros total Ht Hle;
    cbn [length decode_fragments fmap list_fmap concat]; [done|].
  change (total_ops (f :: fs)) with (len f + total_ops fs) in Hle. pose proof (total_ops_nonneg fs).
  rewrite encode_fragment_ok, <-!app_assoc by done. rewrite read_bytes by (by apply u32_bytes). cbn [mbind Result_bind].
  rewrite (proj2 (checked_add_Some _ _ (total + len f))) by lia. cbn [ok_or mbind Result_bind].
  rewrite (proj2 (Z.ltb_ge _ _)) by lia. replace (Z.to_nat (len f)) with (length (ops f)) by (unfold len; lia). rewrite decode_encode_ops by done.
  cbn [mbind Result_bind]. change (list_fmap _ _ encode_fragment fs) with (encode_fragment <$> fs).
  rewrite IH by (try lia; unfold u32 in *; lia). by destruct f.
Qed.

Lemma decode_fragments_sound version max_ops n total bytes fs rest : 1 ≤ version → Forall u8 bytes →
  decode_fragments version max_ops n total bytes = Ok (fs, rest) →
  bytes = concat (encode_fragment <$> fs) ++ rest ∧ length fs = n ∧ Forall (fragment_ok version) fs ∧
  (fs ≠ [] → total + total_ops fs ≤ max_ops) ∧ Forall u8 rest.
Proof.
  intros Hv. revert total bytes fs. induction n as [|n IH]; intros total bytes fs Hb Hd; cbn [decode_fragments] in Hd.
  { injection Hd as <- <-. split; [done|]. split; [done|]. split; [by apply Forall_nil|done]. }
  apply bind_ok in Hd as ([num bytes1] & (-> & Hnum & Hb1)%read_sound & Hd); [|done].
  apply bind_ok in Hd as (t & [-> _]%ok_or_ok%checked_add_Some & Hd).
  destruct (Z.ltb_spec max_ops (total + num)); [done|].
  apply bind_ok in Hd as ([all bytes2] & (-> & Hlen & Hall & Hb2)%decode_ops_sound & Hd); [|done..].
  apply bind_ok in Hd as ([fs1 bytes3] & Hfs1 & [= <- <-]).
  apply IH in Hfs1 as (-> & <- & Hfs & Htot & Hb3); [|done].
  assert (len (mkFragment all) = num) as El by (unfold len; cbn [ops]; lia).
  assert (u32 (len (mkFragment all))) as Hu by (rewrite El; exact Hnum).
  split; [cbn [fmap list_fmap concat]; rewrite encode_fragment_ok by done; cbn [ops]; rewrite El, <-!app_assoc; done|].
  split; [done|]. split; [by apply Forall_cons|]. split; [|done]. intros _.
  change (total_ops (mkFragment all :: fs1)) with (len (mkFragment all) + total_ops fs1). rewrite El.
  destruct fs1 as [|f fs1]; [cbn; lia|]. specialize (Htot ltac:(done)). lia.
Qed.

Lemma decode_encode_pool pool rest : Forall f64_ok pool →
  decode_pool (length pool) (concat (le_bytes 8 ∘ to_bits <$> pool) ++ rest) = pool.
Proof.
  intros Hp. induction Hp as [|[v] pool Hv _ IH]; cbn [length decode_pool fmap list_fmap concat]; [done|].
  rewrite <-app_assoc. unfold compose at 1 3. rewrite take_app_length', drop_app_length' by (by rewrite length_le_bytes).
  cbn [to_bits]. rewrite le_value_bytes by exact Hv. f_equal. exact IH.
Qed.

Lemma decode_pool_sound n bytes : Forall u8 bytes → (8 * n ≤ length bytes)%nat →
  take (8 * n) bytes = concat (le_bytes 8 ∘ to_bits <$> decode_pool n bytes) ∧ length (decode_pool n bytes) = n ∧
  Forall f64_ok (decode_pool n bytes).
Proof.
  revert bytes. induction n as [|n IH]; intros bytes Hb Hl; cbn [decode_pool]; [by split; [|split; [|apply Forall_nil]]|].
  destruct (IH (drop 8 bytes)) as (H1 & H2 & H3); [by apply Forall_drop|rewrite length_drop; lia|].
  assert (length (take 8 bytes) = 8%nat) as H8 by (rewrite length_take; lia).
  cbn [fmap list_fmap concat length]. unfold compose at 1. cbn [to_bits]. split; [|split; [by rewrite H2|]].
  - rewrite le_bytes_value by (done || by apply Forall_take).
    change (list_fmap _ _ (le_bytes 8 ∘ to_bits) ?l) with (le_bytes 8 ∘ to_bits <$> l). rewrite <-H1.
    replace (8 * S n)%nat with (8 + 8 * n)%nat by lia. by rewrite <-take_take_drop.
  - apply Forall_cons. split; [|done]. unfold f64_ok, u64. cbn [to_bits].
    pose proof (le_value_bounds (take 8 bytes) (Forall_take _ _ _ Hb)) as Hv. rewrite H8 in Hv. exact Hv.
Qed.

Lemma length_pool_bytes pool : length (concat (le_bytes 8 ∘ to_bits <$> pool)) = (8 * length pool)%nat.
Proof.
  induction pool as [|v pool IH]; [done|]. cbn [fmap list_fmap concat]. rewrite length_app.
  change (list_fmap _ _ (le_bytes 8 ∘ to_bits) pool) with (le_bytes 8 ∘ to_bits <$> pool). rewrite IH.
  unfold compose. rewrite length_le_bytes. cbn [length]. lia.
Qed.

Lemma decode_encode_constants max size pool : Forall f64_ok pool → Z.of_nat (length pool) ≤ max →
  8 * Z.of_nat (length pool) ≤ size < W64 →
  decode_constants max size (le_bytes 8 (Z.of_nat (length pool)) ++ concat (le_bytes 8 ∘ to_bits <$> pool)) = Ok (pool, []).
Proof.
  intros Hp Hmax Hsize. unfold decode_constants.
  rewrite read_bytes by (change (256 ^ Z.of_nat 8) with W64; lia). cbn [mbind Result_bind].
  rewrite (proj2 (Z.ltb_ge _ _)) by lia. pose proof (length_pool_bytes pool) as Hl.
  rewrite (proj2 (checked_mul_Some _ _ (Z.of_nat (length pool) * 8))) by lia. cbn [ok_or mbind Result_bind].
  rewrite (proj2 (checked_add_Some _ _ size)) by lia. cbn [ok_or mbind Result_bind].
  rewrite (proj2 (Z.ltb_ge _ _)) by lia. rewrite Nat2Z.id.
  rewrite <-(app_nil_r (concat _)) at 1. rewrite decode_encode_pool by done. by rewrite drop_ge by lia.
Qed.

Lemma decode_constants_sound max size bytes pool rest : Forall u8 bytes → decode_constants max size bytes = Ok (pool, rest) →
  bytes = le_bytes 8 (Z.of_nat (length pool)) ++ concat (le_bytes 8 ∘ to_bits <$> pool) ++ rest ∧
  Z.of_nat (length pool) ≤ max ∧ Forall f64_ok pool.
Proof.
  intros Hb Hd. unfold decode_constants in Hd.
  apply bind_ok in Hd as ([count bytes1] & (-> & Hc & Hb1)%read_sound & Hd); [|done].
  destruct (Z.ltb_spec max count); [done|].
  apply bind_ok in Hd as (t & [-> _]%ok_or_ok%checked_mul_Some & Hd).
  apply bind_ok in Hd as (u & _ & Hd). destruct (Z.ltb_spec (Z.of_nat (length bytes1)) (count * 8)); [done|].
  injection Hd as <- <-. destruct (decode_pool_sound (Z.to_nat count) bytes1 Hb1) as (H1 & H2 & H3); [lia|].
  rewrite H2, Z2Nat.id by lia. split; [|by split].
  rewrite <-H1. replace (Z.to_nat (count * 8)) with (8 * Z.to_nat count)%nat by lia. by rewrite take_drop.
Qed.

(** The parts of a file. *)
Definition encode_pool (pool : list f64) : list Z :=
  le_bytes 8 (Z.of_nat (length pool)) ++ concat (le_bytes 8 ∘ to_bits <$> pool).
Definition encode_file (version : Z) (g : BmlGraph) : list Z :=
  le_bytes 4 BMLGRAPH_MAGIC ++ le_bytes 4 version ++ le_bytes 4 (num_fragments g) ++
  concat (encode_fragment <$> fragments g) ++ (if 2 <=? version then encode_pool (const_pool g) else []).

(** The graphs that a file can hold. *)
Record encodable (version : Z) (g : BmlGraph) : Prop := {
  encodable_version : 1 ≤ version ≤ BMLGRAPH_SELECTION_VERSION;
  encodable_fragments : Forall (fragment_ok version) (fragments g);
  encodable_number : u32 (num_fragments g);
  encodable_pool : Forall f64_ok (const_pool g);
  encodable_plain : version < 2 → const_pool g = [];
}.

Lemma u32_u8 n : u32 n → length (le_bytes 4 n) = 4%nat ∧ le_value (le_bytes 4 n) = n.
Proof. intros Hn. split; [apply length_le_bytes|]. by apply le_value_bytes, u32_bytes. Qed.

Lemma decode_file version g mf mo mc : encodable version g → Z.of_nat (length (encode_file version g)) < W64 →
  num_fragments g ≤ mf → total_ops (fragments g) ≤ mo < W64 → Z.of_nat (length (const_pool g)) ≤ mc →
  deserialize_with_limits (encode_file version g) (threshold g) mf mo mc = Ok g.
Proof.
  intros [[Hv1 Hv4] Hf Hn Hp Hplain] Hsize Hmf Hmo Hmc. unfold deserialize_with_limits.
  assert (u32 version) as Hv32 by (unfold u32; unfold BMLGRAPH_SELECTION_VERSION in Hv4; change W32 with 4294967296; lia).
  set (size := Z.of_nat (length (encode_file version g))) in *. unfold encode_file in *.
  destruct (u32_u8 BMLGRAPH_MAGIC ltac:(done)) as [Hm1 Hm2], (u32_u8 version Hv32) as [Hw1 Hw2], (u32_u8 _ Hn) as [Hx1 Hx2].
  set (magic := le_bytes 4 BMLGRAPH_MAGIC) in *. set (vbytes := le_bytes 4 version) in *. set (nbytes := le_bytes 4 (num_fragments g)) in *.
  set (tail := concat (encode_fragment <$> fragments g) ++ _) in *.
  assert (Z.of_nat (length tail) + 12 = size) as Hlen.
  { unfold size. rewrite !length_app, Hm1, Hw1, Hx1. lia. }
  rewrite (proj2 (Z.ltb_ge size 12)) by lia. rewrite (take_app_length' magic) by done. rewrite Hm2.
  rewrite (drop_app_length' magic) by done. rewrite (take_app_length' vbytes) by done. rewrite Hw2.
  replace (drop 8 (magic ++ vbytes ++ nbytes ++ tail)) with (nbytes ++ tail)
    by (rewrite (app_assoc magic); rewrite drop_app_length' by (rewrite length_app; lia); done).
  rewrite (take_app_length' nbytes), Hx2 by done.
  replace (drop 12 (magic ++ vbytes ++ nbytes ++ tail)) with tail
    by (rewrite (app_assoc magic), (app_assoc _ nbytes); rewrite drop_app_length' by (rewrite !length_app; lia); done).
  change (negb (BMLGRAPH_MAGIC =? BMLGRAPH_MAGIC)) with false. cbv iota.
  rewrite (proj2 (Z.leb_le 1 version)), (proj2 (Z.leb_le version _)) by done. cbn [andb negb].
  rewrite (proj2 (Z.ltb_ge mf _)) by done. unfold tail at 1. unfold num_fragments at 1. rewrite Nat2Z.id.
  rewrite decode_encode_fragments by (done || lia). cbn [mbind Result_bind].
  destruct (Z.leb_spec 2 version).
  - unfold tail in Hlen. rewrite length_app in Hlen. unfold encode_pool in *. rewrite length_app, length_pool_bytes in Hlen.
    rewrite decode_encode_constants by (done || lia). cbn [mbind Result_bind]. rewrite bool_decide_true by done. by destruct g.
  - cbn [mbind Result_bind]. rewrite bool_decide_true by done. rewrite <-Hplain by done. by destruct g.
Qed.

Lemma decode_file_sound bytes th mf mo mc g : Forall u8 bytes → 0 ≤ mo → deserialize_with_limits bytes th mf mo mc = Ok g →
  ∃ version, encodable version g ∧ bytes = encode_file version g ∧ threshold g = th ∧
    num_fragments g ≤ mf ∧ total_ops (fragments g) ≤ mo ∧ (const_pool g = [] ∨ Z.of_nat (length (const_pool g)) ≤ mc).
Proof.
  intros Hb Hmo. unfold deserialize_with_limits. destruct (Z.ltb_spec (Z.of_nat (length bytes)) 12); [done|].
  set (version := le_value (take 4 (drop 4 bytes))). set (num := le_value (take 4 (drop 8 bytes))).
  assert (∀ k, (k ≤ 8)%nat → let v := le_value (take 4 (drop k bytes)) in take 4 (drop k bytes) = le_bytes 4 v ∧ u32 v) as Hword.
  { intros k Hk v. assert (length (take 4 (drop k bytes)) = 4%nat) as Hl by (rewrite length_take, length_drop; lia).
    assert (Forall u8 (take 4 (drop k bytes))) as H8 by (by apply Forall_take, Forall_drop).
    split; [symmetry; by apply le_bytes_value|]. pose proof (le_value_bounds _ H8) as Hv. by rewrite Hl in Hv. }
  destruct (Hword 0%nat ltac:(lia)) as [Em _], (Hword 4%nat ltac:(lia)) as [Ev Hv], (Hword 8%nat ltac:(lia)) as [En Hn].
  rewrite drop_0 in Em. fold version in Ev, Hv. fold num in En, Hn.
  destruct (Z.eqb_spec (le_value (take 4 bytes)) BMLGRAPH_MAGIC) as [Hmagic|]; [|done]. cbn [negb].
  destruct (Z.leb_spec 1 version); [|done]. destruct (Z.leb_spec version BMLGRAPH_SELECTION_VERSION); [|done]. cbn [andb negb].
  destruct (Z.ltb_spec mf num); [done|]. intros Hd.
  apply bind_ok in Hd as ([fs bytes1] & (Etail & Hlen & Hfs & Htot & Hb1)%decode_fragments_sound & Hd); [|done|by apply Forall_drop].
  apply bind_ok in Hd as ([pool bytes2] & Hpool & Hd). case_bool_decide as Hend; [|done]. injection Hd as <-. subst bytes2.
  exists version.
  assert (num_fragments (mkGraph pool fs th) = num) as Enum.
  { unfold num_fragments. cbn [fragments]. rewrite Hlen. unfold u32 in Hn. lia. }
  assert (bytes = le_bytes 4 BMLGRAPH_MAGIC ++ le_bytes 4 version ++ le_bytes 4 num ++ concat (encode_fragment <$> fs) ++ bytes1) as Eb.
  { rewrite <-Etail, <-Hmagic, <-Em, <-Ev, <-En.
    rewrite <-(take_drop 4 bytes) at 1. f_equal. rewrite <-(take_drop 4 (drop 4 bytes)) at 1. f_equal.
    rewrite drop_drop.
    transitivity (take 4 (drop 8 bytes) ++ drop 4 (drop 8 bytes)); [by rewrite take_drop|by rewrite drop_drop]. }
  assert (total_ops fs ≤ mo) as Hto by (destruct fs; [done|by apply Htot]).
  destruct (Z.leb_spec 2 version).
  - apply decode_constants_sound in Hpool as (-> & Hmc & Hok); [|done].
    split; [split; [done|done|by rewrite Enum|done|lia]|]. split; [|by split; [|split; [rewrite Enum|split; [|right]]]].
    unfold encode_file. rewrite Enum, (proj2 (Z.leb_le 2 version)) by done. unfold encode_pool. cbn [const_pool fragments].
    by rewrite app_nil_r in Eb.
  - injection Hpool as <- ->. split; [split; [done|done|by rewrite Enum|by apply Forall_nil|done]|].
    split; [|by split; [|split; [rewrite Enum|split; [|left]]]].
    unfold encode_file. rewrite Enum, (proj2 (Z.leb_gt 2 version)) by lia. done.
Qed.

Lemma serialize_file g : u32 (num_fragments g) → serialize g = encode_file (version_of g) g.
Proof.
  intros Hn. unfold serialize, encode_file, as_u32. rewrite Z.mod_small by done.
  assert ((2 <=? version_of g) = true) as ->; [|done]. unfold version_of. by repeat case_match.
Qed.

Lemma version_of_ops g : Forall (λ f, Forall (λ op, op_version op ≤ version_of g) (ops f)) (fragments g).
Proof.
  apply Forall_forall. intros f Hf. apply Forall_forall. intros op Hop. unfold version_of, op_version.
  assert (∀ p : Rpn.RpnOp → bool, p op = true → existsb (λ f, existsb p (ops f)) (fragments g) = true) as Hex.
  { intros p Hp. apply existsb_exists. exists f. split; [by apply list_elem_of_In|]. apply existsb_exists.
    exists op. split; [by apply list_elem_of_In|done]. }
  destruct (is_fmax op) eqn:E1; [by rewrite (Hex _ E1)|]. destruct (is_context op) eqn:E2.
  - rewrite (Hex _ E2). by destruct (existsb _ _).
  - by repeat case_match.
Qed.

(** ** Theorems *)

(** [C30] A graph survives its file. When the operands, counts and constants have the widths
    of the format and the budgets allow them, decoding what [serialize] writes gives back
    the same graph. *)
Theorem graph_roundtrip g max_fragments max_ops max_constants :
  Forall (λ f, u32 (len f) ∧ Forall op_ok (ops f)) (fragments g) → u32 (num_fragments g) →
  Forall f64_ok (const_pool g) → Z.of_nat (length (serialize g)) < W64 →
  num_fragments g ≤ max_fragments → total_ops (fragments g) ≤ max_ops < W64 →
  Z.of_nat (length (const_pool g)) ≤ max_constants →
  deserialize_with_limits (serialize g) (threshold g) max_fragments max_ops max_constants = Ok g.
Proof.
  intros Hf Hn Hp Hsize Hmf Hmo Hmc. rewrite serialize_file in * by done. apply decode_file; try done. split; try done.
  - unfold version_of. by repeat case_match.
  - pose proof (version_of_ops g) as Hv. apply Forall_forall. intros f Hin.
    pose proof (proj1 (Forall_forall _ _) Hf f Hin) as [Hl Hops]. pose proof (proj1 (Forall_forall _ _) Hv f Hin) as Hver.
    split; [done|]. apply Forall_forall. intros op Hop.
    split; [by eapply (proj1 (Forall_forall _ _) Hops)|by eapply (proj1 (Forall_forall _ _) Hver)].
  - unfold version_of. by repeat case_match.
Qed.

(** [C31] Only files are accepted. Bytes that decode to a graph are its encoding in one of
    the four versions, each operation of a version that has it, every number in range, and
    the graph is within the fragment, operation and constant budgets that were given. *)
Theorem deserialize_accepts bytes limit max_fragments max_ops max_constants g : Forall u8 bytes → 0 ≤ max_ops →
  deserialize_with_limits bytes limit max_fragments max_ops max_constants = Ok g →
  ∃ version, encodable version g ∧ bytes = encode_file version g ∧ threshold g = limit ∧
    num_fragments g ≤ max_fragments ∧ total_ops (fragments g) ≤ max_ops ∧
    (const_pool g = [] ∨ Z.of_nat (length (const_pool g)) ≤ max_constants).
Proof. apply decode_file_sound. Qed.

(** Cutting keeps the program. The fragments hold its operations in order, none is
    empty, and each fits the limit unless it is one operation; running them in order on one
    stack gives, for a program without loops that never lacks an operand, what the program
    gives. *)
Theorem fragments_evaluate `{Libm} op_size program limit x v stack : 0 < op_size →
  loop_free (Rpn.ops program) →
  exec (Rpn.indexed_step (mkContext [x] (Rpn.const_pool program))) (Rpn.ops program) [] = Some (v :: stack) →
  let g := fragment_program op_size program limit in
  concat (ops <$> fragments g) = Rpn.ops program ∧ Forall (cut_ok op_size limit) (fragments g) ∧
  evaluate g x = Some v ∧ Rpn.evaluate_with_ctx (mkContext [x] (Rpn.const_pool program)) program = Some v.
Proof.
  intros Hsize Hfree Hexec g. destruct (fragment_program_spec op_size program limit) as (Hc & Hcut & Hp & _).
  fold g in Hc, Hcut, Hp. split; [done|]. split; [done|]. split; [|by eapply evaluate_exec].
  unfold evaluate. rewrite Hp. rewrite (fragments_exec _ _ _ [] (v :: stack)); [done|by rewrite Hc..].
Qed.

(** Cutting can part a loop from its body: the program runs, its fragments panic. *)
Theorem fragments_part_loops :
  let p := Rpn.mkProgram [] [Rpn.One; Rpn.Loop 1 1; Rpn.One] in
  @Rpn.evaluate libm_example p = Some f64_one ∧
  @evaluate libm_example (fragment_program 12 p 24) f64_zero = None ∧
  @evaluate libm_example (fragment_program 12 p 36) f64_zero = Some f64_one.
Proof. vm_compute. done. Qed.

Definition sample_program : Rpn.RpnProgram :=
  Rpn.mkProgram [f64_half] [Rpn.Var 0; Rpn.Const 0; Rpn.FMax; Rpn.One; Rpn.Bml].
Definition sample_graph : BmlGraph := fragment_program 12 sample_program 36.

Lemma sample_graph_ok :
  Forall (λ f, u32 (len f) ∧ Forall op_ok (ops f)) (fragments sample_graph) ∧ Forall f64_ok (const_pool sample_graph).
Proof. split; repeat constructor; done. Qed.

Lemma graph_roundtrip_witness : deserialize (serialize sample_graph) 36 = Ok sample_graph.
Proof.
  destruct sample_graph_ok as [H1 H2]. apply (graph_roundtrip sample_graph); [done|done|done|done|done|done|done].
Defined.

Lemma deserialize_accepts_witness :
  let bytes := encode_file 1 (mkGraph [] [mkFragment [Rpn.One; Rpn.Dup]] 9) in
  Forall u8 bytes ∧ ∃ version, encodable version (mkGraph [] [mkFragment [Rpn.One; Rpn.Dup]] 9) ∧
    bytes = encode_file version (mkGraph [] [mkFragment [Rpn.One; Rpn.Dup]] 9).
Proof.
  intros bytes. assert (Forall u8 bytes) as Hb by (repeat constructor; done). split; [exact Hb|].
  destruct (deserialize_accepts bytes 9 5 5 5 (mkGraph [] [mkFragment [Rpn.One; Rpn.Dup]] 9) Hb) as (v & Hv & E & _);
    [done|vm_compute; reflexivity|by exists v].
Defined.

Lemma fragments_evaluate_witness :
  loop_free (Rpn.ops sample_program) ∧ @evaluate libm_example sample_graph f64_zero = Some f64_one.
Proof.
  assert (loop_free (Rpn.ops sample_program)) as Hf by (repeat constructor). split; [exact Hf|].
  destruct (@fragments_evaluate libm_example 12 sample_program 36 f64_zero f64_one []) as (_ & _ & E & _);
    [done|exact Hf|vm_compute; reflexivity|exact E].
Defined.
