(* ===== verification/HotLoop.v ===== *)
(** * buffer.rs, hot_loop.rs, runtime.rs: executing programs

    The interpreter of the runtime, over any store of results: the class [ResultStore] is
    the enum of the code, whose contiguous case is here and whose partitioned case is in
    [Schedule]. Unlike the reference evaluators it reads and writes the store, gives every
    iteration its counter and never refuses a program. *)
From S2P Require Import Prelude Float FloatArith FloatInt Syntax HashCons Rpn Linearize Fragments.
Import Syntax.Ast.

(** ** The buffer *)

Module Buffer.
Record ResultBuffer : Set := mkBuffer { data : list f64; slot_size : Z; n_slots : Z }.

Definition new (n_slots slot_size : Z) : ResultBuffer :=
  mkBuffer (replicate (Z.to_nat (n_slots * slot_size)) f64_zero) slot_size n_slots.

(** An error returns the values. *)
Definition from_vec (n_slots slot_size : Z) (data : list f64) : Result (list f64) ResultBuffer :=
  if bool_decide (checked_mul n_slots slot_size = Some (Z.of_nat (length data)))
  then Ok (mkBuffer data slot_size n_slots) else Err data.
Definition into_vec (self : ResultBuffer) : list f64 := data self.

Definition slot_index (self : ResultBuffer) (slot offset : Z) : option Z :=
  if (n_slots self <=? slot) || (slot_size self <=? offset) then None
  else base ← checked_mul slot (slot_size self); checked_add base offset.

Definition set (self : ResultBuffer) (i : Z) (value : f64) : ResultBuffer :=
  mkBuffer (<[Z.to_nat i := value]> (data self)) (slot_size self) (n_slots self).

(** The index is in the data of a well-formed buffer; outside it the code would panic. *)
Definition write (self : ResultBuffer) (slot offset : Z) (value : f64) : ResultBuffer :=
  match slot_index self slot offset with Some idx => set self idx value | None => self end.
Definition read (self : ResultBuffer) (slot offset : Z) : f64 :=
  match slot_index self slot offset with
  | Some idx => default f64_nan (data self !! Z.to_nat idx)
  | None => f64_nan
  end.

Definition read_indexed (self : ResultBuffer) (base offset : Z) : f64 :=
  match Rpn.checked_add_u32 base offset with
  | Some index => default f64_nan (data self !! Z.to_nat index)
  | None => f64_nan
  end.
Definition write_indexed (self : ResultBuffer) (base offset : Z) (value : f64) : ResultBuffer :=
  match Rpn.checked_add_u32 base offset with
  | Some index => set self index value
  | None => self
  end.

Definition len (self : ResultBuffer) : Z := Z.of_nat (length (data self)).

(** [slot] and [slot_mut]; a slice outside the data panics. *)
Definition slot (self : ResultBuffer) (slot : Z) : option (list f64) :=
  let start := slot * slot_size self in
  if len self <? start + slot_size self then None
  else Some (take (Z.to_nat (slot_size self)) (drop (Z.to_nat start) (data self))).
End Buffer.

(** What the interpreter needs of a store; a write may panic. *)
Class ResultStore (St : Type) : Type := {
  read_indexed : St → Z → Z → f64;
  write : St → Z → Z → f64 → option St;
}.

#[export] Instance contiguous_store : ResultStore Buffer.ResultBuffer := {|
  read_indexed := Buffer.read_indexed;
  write := λ self slot offset value, Some (Buffer.write self slot offset value);
|}.

(** ** The interpreter *)

Module HotLoop.
(** The two operands of an arithmetic operation: a lone operand stays on the stack. *)
Definition operands (stack : list f64) : f64 * f64 * list f64 :=
  match stack with
  | b :: a :: stack => (a, b, stack)
  | [b] => (f64_zero, b, [b])
  | [] => (f64_zero, f64_zero, [])
  end.

Section dispatch.
Context `{Libm} {St : Type} {store : ResultStore St} (ctx : EvalContext).

(** An operation that is not a loop; [None] is a panic. *)
Definition dispatch_step (op : Rpn.RpnOp) (stack : list f64) (buf : St) : option (list f64 * St) :=
  match op with
  | Rpn.One => Some (f64_one :: stack, buf)
  | Rpn.Zero => Some (f64_zero :: stack, buf)
  | Rpn.Var id => Some (get_var ctx id :: stack, buf)
  | Rpn.Const id => Some (get_const ctx id :: stack, buf)
  | Rpn.ContextVarIndexed base =>
      let '(offset, stack) := Rpn.pop_or f64_nan stack in Some (Rpn.context_var ctx base offset :: stack, buf)
  | Rpn.ContextConstIndexed base =>
      let '(offset, stack) := Rpn.pop_or f64_nan stack in Some (Rpn.context_const ctx base offset :: stack, buf)
  | Rpn.VarIndexed base =>
      let '(offset, stack) := Rpn.pop_or f64_zero stack in
      Some (read_indexed buf base (f64_as_u32 offset) :: stack, buf)
  | Rpn.StoreResult slot =>
      let '(offset, stack) := Rpn.pop_or f64_zero stack in
      let '(value, stack) := Rpn.pop_or f64_nan stack in
      buf ← write buf slot (f64_as_u32 offset) value; Some (stack, buf)
  | Rpn.Bml => let '(a, b, stack) := operands stack in Some (bml_base_op a b :: stack, buf)
  | Rpn.Dup => match stack with [] => None | v :: _ => Some (v :: stack, buf) end
  | Rpn.FAdd => let '(a, b, stack) := operands stack in Some (f64_add a b :: stack, buf)
  | Rpn.FMul => let '(a, b, stack) := operands stack in Some (f64_mul a b :: stack, buf)
  | Rpn.FMax =>
      let '(right, stack) := Rpn.pop_or f64_nan stack in let '(left, stack) := Rpn.pop_or f64_nan stack in
      Some (Rpn.finite_max left right :: stack, buf)
  | Rpn.Pick depth =>
      let idx := saturating_sub (Z.of_nat (length stack)) (1 + depth) in
      Some (default f64_zero (Rpn.from_bottom stack idx) :: stack, buf)
  | Rpn.Drop => Some (tail stack, buf)
  | Rpn.Swap => Some (Rpn.swap_top stack, buf)
  | Rpn.Loop _ _ => None
  end.

(** The slices shrink, so their length is enough fuel. A body that is not there ends the
    slice. *)
Fixpoint dispatch_ops (fuel : nat) (all : list Rpn.RpnOp) (stack : list f64) (buf : St) : option (list f64 * St) :=
  match fuel, all with
  | _, [] => Some (stack, buf)
  | O, _ => None
  | S fuel, op :: rest =>
      match op with
      | Rpn.Loop count body_len =>
          if Z.of_nat (length rest) <? body_len then Some (stack, buf) else
          '(stack, buf) ← Rpn.count_body (Z.to_nat count) 0
            (λ iter s, dispatch_ops fuel (take (Z.to_nat body_len) rest) (iter :: s.1) s.2) (stack, buf);
          dispatch_ops fuel (drop (Z.to_nat body_len) rest) stack buf
      | _ => '(stack, buf) ← dispatch_step op stack buf; dispatch_ops fuel rest stack buf
      end
  end.

Definition dispatch (all : list Rpn.RpnOp) (stack : list f64) (buf : St) : option (list f64 * St) :=
  dispatch_ops (length all) all stack buf.

(** [HotLoop] is its stack. *)
Definition execute_full (program : Rpn.RpnProgram) (buf : St) : option (f64 * (list f64 * St)) :=
  '(stack, buf) ← dispatch (Rpn.ops program) [] buf;
  Some (default f64_nan (head stack), (tail stack, buf)).

Fixpoint execute_each (fs : list Fragments.Fragment) (stack : list f64) (buf : St) : option (list f64 * St) :=
  match fs with
  | [] => Some (stack, buf)
  | f :: fs => '(stack, buf) ← dispatch (Fragments.ops f) stack buf; execute_each fs stack buf
  end.

Definition execute_fragments_full (fs : list Fragments.Fragment) (buf : St) : option (f64 * (list f64 * St)) :=
  '(stack, buf) ← execute_each fs [] buf;
  Some (default f64_nan (head stack), (tail stack, buf)).
End dispatch.

Definition execute_with_ctx `{Libm} (ctx : EvalContext) (program : Rpn.RpnProgram) : option (f64 * list f64) :=
  '(v, (stack, _)) ← execute_full ctx program (Buffer.new 0 0); Some (v, stack).
Definition execute `{Libm} (program : Rpn.RpnProgram) : option (f64 * list f64) :=
  execute_with_ctx (mkContext [] (Rpn.const_pool program)) program.
Definition execute_fragments_with_ctx `{Libm} (ctx : EvalContext) (fs : list Fragments.Fragment) : option (f64 * list f64) :=
  '(v, (stack, _)) ← execute_fragments_full ctx fs (Buffer.new 0 0); Some (v, stack).
End HotLoop.

(** ** The runtime *)

Module Runtime.
Record Runtime : Set := mkRuntime { stack : list f64; results : list f64; result_idx : Z }.

Definition new (result_capacity : Z) : Runtime := mkRuntime [] (replicate (Z.to_nat result_capacity) f64_nan) 0.

(** [None] is a panic: an index outside the results. *)
Definition write_result (self : Runtime) (value : f64) : option Runtime :=
  match results self with
  | [] => Some self
  | _ =>
      if Z.of_nat (length (results self)) <=? result_idx self then None else
      Some (mkRuntime (stack self) (<[Z.to_nat (result_idx self) := value]> (results self))
        ((result_idx self + 1) `mod` Z.of_nat (length (results self))))
  end.

Definition finish (self : Runtime) (m : option (f64 * list f64)) : option (f64 * Runtime) :=
  '(v, stack) ← m;
  self ← write_result (mkRuntime stack (results self) (result_idx self)) v;
  Some (v, self).

Definition execute `{Libm} (self : Runtime) (program : Rpn.RpnProgram) : option (f64 * Runtime) :=
  finish self (HotLoop.execute program).
Definition execute_graph_with_ctx `{Libm} (self : Runtime) (graph : Fragments.BmlGraph) (ctx : EvalContext) : option (f64 * Runtime) :=
  finish self (HotLoop.execute_fragments_with_ctx ctx (Fragments.fragments graph)).
Definition execute_graph `{Libm} (self : Runtime) (graph : Fragments.BmlGraph) : option (f64 * Runtime) :=
  execute_graph_with_ctx self graph (mkContext [] (Fragments.const_pool graph)).
End Runtime.

Import HotLoop.

(** ** Agreement with the reference *)

(** Operations that read or write the store. *)
Definition reads_store (op : Rpn.RpnOp) : bool := match op with Rpn.VarIndexed _ => true | _ => false end.
Definition writes_store (op : Rpn.RpnOp) : bool := match op with Rpn.StoreResult _ => true | _ => false end.

Section agreement.
Context `{Libm} {St : Type} {store : ResultStore St} (ctx : EvalContext).
Context (write_total : ∀ (b : St) slot offset v, is_Some (write b slot offset v)).

Lemma dispatch_step_agrees op stack stack' (buf : St) : reads_store op = false →
  Rpn.indexed_step ctx op stack = Some stack' →
  ∃ buf', dispatch_step ctx op stack buf = Some (stack', buf') ∧ (writes_store op = false → buf' = buf).
Proof.
  intros Hr Hs. destruct op; try done; cbn [dispatch_step];
    try (destruct stack as [|? [|? ?]]; cbn in Hs |- *; simplify_eq; eexists; by split).
  - destruct stack as [|offset [|value stack]]; cbn in Hs; simplify_eq. cbn.
    destruct (write_total buf slot (f64_as_u32 offset) value) as [buf' ->]. eexists; split; [done|]. intros [=].
  - apply (indexed_step_agrees ctx) in Hs. cbn [Rpn.step] in Hs. rewrite <-(Some_inj _ _ Hs). eexists; by split.
Qed.

Lemma count_agrees n i (f : f64 → list f64 → option (list f64)) (g : f64 → list f64 * St → option (list f64 * St)) (W : Prop) :
  (∀ c s s' buf, f c s = Some s' → ∃ buf', g c (s, buf) = Some (s', buf') ∧ (W → buf' = buf)) →
  ∀ s s' buf, Rpn.count_body n i f s = Some s' →
    ∃ buf', Rpn.count_body n i g (s, buf) = Some (s', buf') ∧ (W → buf' = buf).
Proof.
  intros Hfg. revert i. induction n as [|n IH]; intros i s s' buf Hs; cbn in *; [simplify_eq; by exists buf|].
  destruct (f (f64_of_Z i) s) as [s1|] eqn:E; [|done]. destruct (Hfg _ _ _ buf E) as (buf1 & -> & H1). cbn.
  destruct (IH _ _ _ buf1 Hs) as (buf2 & -> & H2). exists buf2. split; [done|]. intros HW. by rewrite H2, H1.
Qed.

(** What the checked reference accepts, the interpreter computes. *)
Lemma dispatch_agrees fuel depth all stack stack' (buf : St) : Forall (λ op, reads_store op = false) all →
  Rpn.evaluate_indexed_ops ctx fuel depth all stack = Some stack' →
  ∃ buf', dispatch_ops ctx fuel all stack buf = Some (stack', buf') ∧
    (Forall (λ op, writes_store op = false) all → buf' = buf).
Proof.
  revert depth all stack stack' buf. induction fuel as [|fuel IH]; intros depth [|op all] stack stack' buf Hr Hs; try done;
    try (cbn in Hs; simplify_eq; exists buf; by split).
  apply Forall_cons in Hr as [Hop Hr]. cbn [Rpn.evaluate_indexed_ops dispatch_ops] in Hs |- *.
  assert ((stack1 ← Rpn.indexed_step ctx op stack; Rpn.evaluate_indexed_ops ctx fuel depth all stack1) = Some stack' →
    ∃ buf', ('(stack1, buf1) ← dispatch_step ctx op stack buf; dispatch_ops ctx fuel all stack1 buf1) = Some (stack', buf') ∧
      (Forall (λ op, writes_store op = false) (op :: all) → buf' = buf)) as Hplain.
  { intros Hs1. destruct (Rpn.indexed_step ctx op stack) as [s1|] eqn:E; [|done].
    destruct (dispatch_step_agrees op stack s1 buf Hop E) as (buf1 & -> & H1). cbn in Hs1 |- *.
    destruct (IH _ _ _ _ buf1 Hr Hs1) as (buf2 & -> & H2). exists buf2. split; [done|].
    intros [Hw1 Hw2]%Forall_cons. by rewrite H2, H1. }
  destruct op; try (by apply Hplain). clear Hplain. destruct (2 <=? depth); [done|].
  destruct (Z.of_nat (length all) <? body_len); [done|].
  destruct (Rpn.count_body _ _ _ stack) as [s1|] eqn:E; [|done]. cbn in Hs.
  destruct (count_agrees (Z.to_nat count) 0
    (λ index stack, Rpn.evaluate_indexed_ops ctx fuel (depth + 1) (take (Z.to_nat body_len) all) (index :: stack))
    (λ iter s, dispatch_ops ctx fuel (take (Z.to_nat body_len) all) (iter :: s.1) s.2)
    (Forall (λ op, writes_store op = false) (take (Z.to_nat body_len) all))) with (buf := buf) (2 := E) as (buf1 & -> & H1).
  { intros c s s' b Hcs. cbn [fst snd]. apply (IH _ _ _ _ b) in Hcs; [done|]. by apply Forall_take. }
  cbn. destruct (IH _ _ _ _ buf1 (Forall_drop _ _ _ Hr) Hs) as (buf2 & -> & H2). exists buf2. split; [done|].
  intros [_ Hw]%Forall_cons. rewrite H2 by (by apply Forall_drop). apply H1. by apply Forall_take.
Qed.
End agreement.

Lemma contiguous_total (b : Buffer.ResultBuffer) slot offset v : is_Some (write b slot offset v).
Proof. by eexists. Qed.

(** Code on the stack alone. *)
Lemma dispatch_pure `{Libm} {St} `{ResultStore St} ctx all stack stack' (buf : St) :
  pure all → exec (Rpn.indexed_step ctx) all stack = Some stack' →
  ∀ fuel rest, (length (all ++ rest) ≤ fuel)%nat →
  dispatch_ops ctx fuel (all ++ rest) stack buf = dispatch_ops ctx (fuel - length all) rest stack' buf.
Proof.
  intros Hp. revert stack. induction Hp as [|op all Hop Hp IH]; intros stack Hs fuel rest Hf; cbn [exec] in Hs.
  { injection Hs as ->. by rewrite Nat.sub_0_r. }
  destruct fuel as [|fuel]; cbn in Hf; [lia|]. cbn [app dispatch_ops length Nat.sub].
  destruct (Rpn.indexed_step ctx op stack) as [s1|] eqn:E; [|done]. cbn [mbind option_bind] in Hs.
  assert (dispatch_step ctx op stack buf = Some (s1, buf)) as Hstep.
  { destruct op; try done; cbn [dispatch_step]; try (destruct stack as [|? [|? ?]]; cbn in E |- *; by simplify_eq).
    apply (indexed_step_agrees ctx) in E. cbn [Rpn.step] in E. by rewrite <-(Some_inj _ _ E). }
  destruct op; try done; rewrite Hstep; cbn [mbind option_bind]; apply IH; by lia || done.
Qed.

(** ** Buffers *)

Record buffer_ok (b : Buffer.ResultBuffer) : Prop := {
  buffer_sizes : 0 ≤ Buffer.slot_size b ∧ 0 ≤ Buffer.n_slots b;
  buffer_data : Buffer.len b = Buffer.n_slots b * Buffer.slot_size b;
  buffer_small : Buffer.len b < W64;
}.

Lemma slot_index_Some b slot offset i : buffer_ok b → 0 ≤ slot → 0 ≤ offset →
  Buffer.slot_index b slot offset = Some i ↔
  slot < Buffer.n_slots b ∧ offset < Buffer.slot_size b ∧ i = slot * Buffer.slot_size b + offset.
Proof.
  intros [[Hs Hn] Hd Hsm] H0 H1. unfold Buffer.slot_index.
  destruct (Z.leb_spec (Buffer.n_slots b) slot), (Z.leb_spec (Buffer.slot_size b) offset); cbn [orb];
    try (split; [done|lia]).
  assert (slot * Buffer.slot_size b + offset < Buffer.len b) as Hlt by nia.
  rewrite (proj2 (checked_mul_Some _ _ (slot * Buffer.slot_size b))) by nia. cbn [mbind option_bind].
  rewrite checked_add_Some. split; [by intros [-> _]|]. intros (_ & _ & ->). lia.
Qed.

Lemma write_ok b slot offset v : buffer_ok b → buffer_ok (Buffer.write b slot offset v) ∧
  Buffer.n_slots (Buffer.write b slot offset v) = Buffer.n_slots b ∧
  Buffer.slot_size (Buffer.write b slot offset v) = Buffer.slot_size b.
Proof.
  intros [Hs Hd Hsm]. unfold Buffer.write. destruct (Buffer.slot_index b slot offset); [|done].
  unfold Buffer.len in *. by split; [split|]; unfold Buffer.len; cbn [Buffer.set Buffer.data]; rewrite ?length_insert.
Qed.

(** A write is read back, and changes no other cell. *)
Lemma read_write b slot offset v slot' offset' : buffer_ok b → 0 ≤ slot → 0 ≤ offset → 0 ≤ slot' → 0 ≤ offset' →
  Buffer.read (Buffer.write b slot offset v) slot' offset' =
    if bool_decide (slot = slot' ∧ offset = offset') && (slot <? Buffer.n_slots b) && (offset <? Buffer.slot_size b)
    then v else Buffer.read b slot' offset'.
Proof.
  intros Hb H0 H1 H2 H3. unfold Buffer.read at 1.
  assert (Buffer.slot_index (Buffer.write b slot offset v) slot' offset' = Buffer.slot_index b slot' offset') as ->.
  { unfold Buffer.slot_index. by destruct (write_ok b slot offset v Hb) as (_ & -> & ->). }
  unfold Buffer.read, Buffer.write. destruct (Buffer.slot_index b slot' offset') as [j|] eqn:Ej.
  - apply slot_index_Some in Ej as (Hj1 & Hj2 & ->); [|done..].
    destruct (Buffer.slot_index b slot offset) as [i|] eqn:Ei.
    + apply slot_index_Some in Ei as (Hi1 & Hi2 & ->); [|done..].
      rewrite (proj2 (Z.ltb_lt _ _) Hi1), (proj2 (Z.ltb_lt _ _) Hi2), !andb_true_r. cbn [Buffer.set Buffer.data].
      pose proof (buffer_data _ Hb) as Hd. unfold Buffer.len in Hd. case_bool_decide as He.
      * destruct He as [-> ->]. by rewrite list_lookup_insert_eq by nia.
      * rewrite list_lookup_insert_ne; [done|]. intros Heq. apply He.
        assert (slot * Buffer.slot_size b + offset = slot' * Buffer.slot_size b + offset') as Hz by nia.
        assert (slot = slot') as ->; [|lia]. destruct (Z.lt_trichotomy slot slot') as [|[|]]; [nia|done|nia].
    + assert (bool_decide (slot = slot' ∧ offset = offset') && (slot <? Buffer.n_slots b) && (offset <? Buffer.slot_size b) = false) as ->; [|done].
      apply not_true_iff_false. intros [[_ Hn%Z.ltb_lt]%andb_true_iff Ho%Z.ltb_lt]%andb_true_iff.
      pose proof (proj2 (slot_index_Some b slot offset _ Hb H0 H1) (conj Hn (conj Ho eq_refl))). congruence.
  - destruct (bool_decide _ && _ && _) eqn:E; [|done].
    apply andb_true_iff in E as [[[-> ->]%bool_decide_eq_true Hn%Z.ltb_lt]%andb_true_iff Ho%Z.ltb_lt].
    pose proof (proj2 (slot_index_Some b slot' offset' _ Hb H2 H3) (conj Hn (conj Ho eq_refl))). congruence.
Qed.

(** Consecutive cells of a slot. *)
Fixpoint write_outputs (b : Buffer.ResultBuffer) (slot offset : Z) (vs : list f64) : Buffer.ResultBuffer :=
  match vs with [] => b | v :: vs => write_outputs (Buffer.write b slot offset v) slot (offset + 1) vs end.

Lemma write_outputs_read vs b slot offset slot' offset' : buffer_ok b → 0 ≤ slot < Buffer.n_slots b → 0 ≤ offset →
  offset + Z.of_nat (length vs) ≤ Buffer.slot_size b → 0 ≤ slot' → 0 ≤ offset' →
  Buffer.read (write_outputs b slot offset vs) slot' offset' =
    if bool_decide (slot = slot') && (offset <=? offset') && (offset' <? offset + Z.of_nat (length vs))
    then default f64_nan (vs !! Z.to_nat (offset' - offset)) else Buffer.read b slot' offset'.
Proof.
  revert b offset. induction vs as [|v vs IH]; intros b offset Hb Hs Ho Hl Hs' Ho'; cbn [write_outputs length] in *.
  { destruct (bool_decide _); [|done]. destruct (Z.leb_spec offset offset'); [|done]. cbn [andb].
    destruct (Z.ltb_spec offset' (offset + Z.of_nat 0)); [lia|done]. }
  destruct (write_ok b slot offset v Hb) as (Hb' & En & Es).
  rewrite IH by (rewrite ?En, ?Es; done || lia). rewrite read_write by (done || lia).
  rewrite (proj2 (Z.ltb_lt slot _)), (proj2 (Z.ltb_lt offset _)), !andb_true_r by lia.
  destruct (bool_decide_reflect (slot = slot')) as [->|Hne]; cbn [andb].
  2: { rewrite bool_decide_false; [done|]. by intros [? _]. }
  destruct (Z.leb_spec (offset + 1) offset'), (Z.leb_spec offset offset'), (bool_decide_reflect (slot' = slot' ∧ offset = offset')) as [[_ He]|He];
    cbn [andb]; try lia; try done.
  - destruct (Z.ltb_spec offset' (offset + 1 + Z.of_nat (length vs))), (Z.ltb_spec offset' (offset + Z.of_nat (S (length vs)))); try lia; [|done].
    replace (Z.to_nat (offset' - offset)) with (S (Z.to_nat (offset' - (offset + 1)))) by lia. done.
  - subst offset'. destruct (Z.ltb_spec offset (offset + Z.of_nat (S (length vs)))); [|lia]. by rewrite Z.sub_diag.
Qed.

(** ** Programs with several outputs *)

Section outputs.
Context {H : Libm} (ctx : EvalContext) (soa : Soa.NodeSoA) (Hok : graph_ok soa).
Abbreviation node_val := (node_val ctx soa).
Abbreviation stack_of := (stack_of ctx soa).

Lemma emit_outputs_dispatch slot start roots output order (self : Linearize.State) : emitted soa order self → Linearize.pending self = [] →
  Forall (λ id, 0 ≤ id < Soa.len soa) roots → 0 ≤ output → output + Z.of_nat (length roots) ≤ W32 →
  (∀ i, output ≤ i < output + Z.of_nat (length roots) → is_int (get_const ctx (start + i)) i) →
  ∃ order' s' seg, Linearize.emit_outputs soa slot start output roots self = Some s' ∧ emitted soa order' s' ∧
    Linearize.pending s' = [] ∧ Linearize.code s' = Linearize.code self ++ seg ∧
    ∀ stack (buf : Buffer.ResultBuffer) fuel rest, (length (seg ++ rest) ≤ fuel)%nat →
      dispatch_ops ctx fuel (seg ++ rest) (stack_of order ++ stack) buf =
      dispatch_ops ctx (fuel - length seg) rest (stack_of order' ++ stack)
        (write_outputs buf slot output (node_val ∘ Z.to_nat <$> roots)).
Proof.
  revert output order self. induction roots as [|root roots IH]; intros output order self Hinv Hp Hroots Ho Hlt Hint.
  { exists order, self, []. rewrite app_nil_r. split; [done|]. split; [done|]. split; [done|]. split; [done|].
    intros stack buf fuel rest Hf. by rewrite Nat.sub_0_r. }
  apply Forall_cons in Hroots as [Hroot Hroots]. cbn [length] in Hlt, Hint.
  destruct (emit_output_spec ctx soa Hok slot start output root order self Hinv Hp Hroot) as
    (o1 & s1 & seg1 & E1 & Hinv1 & Hp1 & Ec1 & Hpure & Hexec); [lia|].
  destruct (IH (output + 1) o1 s1 Hinv1 Hp1 Hroots) as (o2 & s2 & seg2 & E2 & Hinv2 & Hp2 & Ec2 & Hrun); [lia|lia| |].
  { intros i Hi. apply Hint. lia. }
  exists o2, s2, (seg1 ++ [Rpn.Const (start + output); Rpn.StoreResult slot] ++ seg2).
  split; [cbn; by rewrite E1|]. split; [done|]. split; [done|]. split; [by rewrite Ec2, Ec1, <-!app_assoc|].
  intros stack buf fuel rest Hf. rewrite !length_app in *. cbn [length] in Hf |- *.
  rewrite <-!app_assoc. rewrite (dispatch_pure ctx seg1 _ _ buf Hpure (Hexec stack)) by (rewrite !length_app; cbn; lia).
  destruct (fuel - length seg1)%nat as [|[|f2]] eqn:Ef; [lia|lia|].
  cbn [app dispatch_ops dispatch_step mbind option_bind Rpn.pop_or write contiguous_store].
  pose proof (Hint output ltac:(lia)) as Hio. rewrite (as_u32_int _ _ Hio) by (change (2 ^ 32) with W32; lia).
  rewrite Hrun by (rewrite length_app; lia). f_equal. lia.
Qed.

Lemma exec_drops l stack : exec (Rpn.indexed_step ctx) (replicate (length l) Rpn.Drop) (l ++ stack) = Some stack.
Proof. induction l as [|v l IH]; cbn; [done|exact IH]. Qed.

Lemma linearize_outputs_run slot start roots : graph_ok soa → numbers_ok soa → outputs_error soa roots start = None →
  Forall (λ id, 0 ≤ id < Soa.len soa) roots → 0 ≤ start →
  (∀ i, 0 ≤ i < Z.of_nat (length roots) → is_int (get_const ctx (start + i)) i) →
  ∃ p, Linearize.linearize_outputs soa roots slot start = Some (Ok p) ∧ Rpn.const_pool p = Soa.const_pool soa ∧
    ∀ buf, execute_full ctx p buf = Some (f64_one, ([], write_outputs buf slot 0 (node_val ∘ Z.to_nat <$> roots))).
Proof.
  intros _ Hnum Herr Hroots Hstart Hint.
  destruct (validate_accepts soa roots start (graph_columns _ Hok) Hnum) as (r & Hval & Hr); [|done|].
  { eapply Forall_impl; [exact Hroots|]. cbn. lia. }
  destruct r as [reachable|e]; [|by destruct Hr; apply Hok].
  assert (Z.of_nat (length roots) ≤ W32) as Hlen.
  { unfold outputs_error in Herr. destruct (Z.leb_spec W32 (Z.of_nat (length roots))); [done|lia]. }
  destruct (emit_outputs_dispatch slot start roots 0 [] _ (emitted_start soa) eq_refl Hroots) as
    (order & s & seg & Es & Hinv & _ & Ec & Hrun); [lia|lia|exact Hint|].
  unfold Linearize.linearize_outputs. rewrite Hval. cbn [mbind option_bind]. rewrite Es. cbn [mbind option_bind].
  eexists. split; [done|]. split; [done|]. intros buf. cbn [Linearize.code app] in Ec. rewrite Ec.
  unfold execute_full, dispatch. cbn [Rpn.ops].
  pose proof (λ fuel rest, Hrun [] buf fuel rest) as Hrun0. rewrite app_nil_r in Hrun0.
  change (stack_of []) with (@nil f64) in Hrun0. rewrite Hrun0 by done. rewrite app_nil_r. rewrite (emitted_height _ _ _ Hinv), Nat2Z.id.
  assert (length order = length (stack_of order)) as El by (unfold Linearize.stack_of; by rewrite length_reverse, length_fmap).
  rewrite El. rewrite (dispatch_pure ctx _ _ [] _); [|by apply Forall_replicate| |rewrite !length_app; lia].
  - rewrite !length_app, length_replicate. cbn [length].
    replace (length seg + (length (stack_of order) + 1) - length seg - length (stack_of order))%nat with 1%nat by lia. done.
  - pose proof (exec_drops (stack_of order) []) as Hd. by rewrite app_nil_r in Hd.
Qed.
End outputs.

(** ** Fragments on the interpreter *)

Lemma execute_each_pure `{Libm} {St} `{ResultStore St} ctx fs stack stack' (buf : St) :
  pure (concat (Fragments.ops <$> fs)) →
  exec (Rpn.indexed_step ctx) (concat (Fragments.ops <$> fs)) stack = Some stack' →
  execute_each ctx fs stack buf = Some (stack', buf).
Proof.
  revert stack. induction fs as [|f fs IH]; intros stack Hp Hexec; cbn in *; [by injection Hexec as ->|].
  apply Forall_app in Hp as [Hf Hfs]. rewrite exec_app in Hexec.
  destruct (exec (Rpn.indexed_step ctx) (Fragments.ops f) stack) as [s|] eqn:E; [|done].
  pose proof (dispatch_pure ctx (Fragments.ops f) stack s buf Hf E (length (Fragments.ops f)) []) as Hd.
  rewrite app_nil_r, Nat.sub_diag in Hd. unfold dispatch. rewrite Hd by done. by apply IH.
Qed.

(** ** The ring of results *)

Record runtime_ok (capacity : Z) (vs : list f64) (self : Runtime.Runtime) : Prop := {
  runtime_length : Z.of_nat (length (Runtime.results self)) = capacity;
  runtime_idx : Runtime.result_idx self = Z.of_nat (length vs) `mod` capacity;
  runtime_results : ∀ k, (k < length vs)%nat → Z.of_nat (length vs) - capacity ≤ Z.of_nat k →
    Runtime.results self !! Z.to_nat (Z.of_nat k `mod` capacity) = vs !! k;
}.

Lemma write_result_ok capacity vs self v : 0 < capacity → runtime_ok capacity vs self →
  ∃ self', Runtime.write_result self v = Some self' ∧ runtime_ok capacity (vs ++ [v]) self'.
Proof.
  intros Hc [Hl Hi Hr]. unfold Runtime.write_result.
  pose proof (Z.mod_pos_bound (Z.of_nat (length vs)) capacity Hc) as Hb.
  destruct (Runtime.results self) as [|r rs] eqn:E; [cbn in Hl; lia|]. rewrite Hl, Hi.
  rewrite (proj2 (Z.leb_gt _ _)) by lia. eexists. split; [done|]. rewrite <-E in *. split; cbn [Runtime.results Runtime.result_idx].
  - by rewrite length_insert.
  - rewrite length_app. cbn [length]. rewrite Zplus_mod_idemp_l. f_equal. lia.
  - intros k Hk Hge. rewrite length_app in Hk, Hge. cbn [length] in Hk, Hge. destruct (decide (k = length vs)) as [->|Hne].
    + rewrite lookup_app_r, Nat.sub_diag, list_lookup_insert_eq by lia. done.
    + rewrite lookup_app_l by lia. rewrite list_lookup_insert_ne; [apply Hr; lia|].
      intros Heq. assert (Z.of_nat (length vs) `mod` capacity = Z.of_nat k `mod` capacity) as Hm.
      { pose proof (Z.mod_pos_bound (Z.of_nat k) capacity Hc). lia. }
      pose proof (Z.div_mod (Z.of_nat (length vs)) capacity ltac:(lia)). pose proof (Z.div_mod (Z.of_nat k) capacity ltac:(lia)).
      assert (Z.of_nat (length vs) - Z.of_nat k = capacity * (Z.of_nat (length vs) / capacity - Z.of_nat k / capacity)) by lia.
      assert (0 < Z.of_nat (length vs) / capacity - Z.of_nat k / capacity < 1) by nia. lia.
Qed.

(** Running programs one after another on a runtime. *)
Fixpoint execute_all `{Libm} (self : Runtime.Runtime) (ps : list Rpn.RpnProgram) : option (Runtime.Runtime * list f64) :=
  match ps with
  | [] => Some (self, [])
  | p :: ps =>
      '(v, self) ← Runtime.execute self p;
      '(self, vs) ← execute_all self ps;
      Some (self, v :: vs)
  end.

(** A program that the checked reference runs to a value. *)
Definition accepted `{Libm} (p : Rpn.RpnProgram) (v : f64) : Prop :=
  Forall (λ op, reads_store op = false) (Rpn.ops p) ∧
  ∃ stack, Rpn.evaluate_indexed_ops (mkContext [] (Rpn.const_pool p)) (length (Rpn.ops p)) 0 (Rpn.ops p) [] = Some (v :: stack).

Lemma execute_accepted `{Libm} p v : accepted p v → ∃ stack, execute p = Some (v, stack).
Proof.
  intros (Hr & stack & He).
  destruct (dispatch_agrees (mkContext [] (Rpn.const_pool p)) contiguous_total _ _ _ _ _ (Buffer.new 0 0) Hr He) as (buf' & E & _).
  exists stack. unfold execute, execute_with_ctx, execute_full, dispatch. by rewrite E.
Qed.

Lemma execute_all_ok `{Libm} capacity ps ws vs self : 0 < capacity → Forall2 accepted ps vs → runtime_ok capacity ws self →
  ∃ self', execute_all self ps = Some (self', vs) ∧ runtime_ok capacity (ws ++ vs) self'.
Proof.
  intros Hc Hps. revert ws self. induction Hps as [|p v ps vs Hp _ IH]; intros ws self Hok; cbn [execute_all].
  { exists self. by rewrite app_nil_r. }
  destruct (execute_accepted p v Hp) as [stack E]. unfold Runtime.execute, Runtime.finish. rewrite E. cbn [mbind option_bind].
  destruct (write_result_ok capacity ws (Runtime.mkRuntime stack (Runtime.results self) (Runtime.result_idx self)) v Hc) as (self1 & E1 & Hok1).
  { by destruct Hok. }
  rewrite E1. cbn [mbind option_bind]. destruct (IH _ _ Hok1) as (self2 & E2 & Hok2). rewrite E2. cbn [mbind option_bind].
  exists self2. split; [done|]. by rewrite cons_middle, app_assoc.
Qed.

(** ** Theorems *)

(** [C32] The interpreter refines the checked reference on the programs that do not read
    the store, which the reference does not have ([VarIndexed] is NaN there). Whatever such
    program of nested counted loops the reference evaluates without an error, the runtime
    runs without a panic to the same stack over any result buffer, which it leaves
    unchanged unless the program stores. *)
Theorem runtime_agrees `{Libm} ctx p v stack (buf : Buffer.ResultBuffer) :
  Forall (λ op, reads_store op = false) (Rpn.ops p) →
  Rpn.evaluate_indexed_ops ctx (length (Rpn.ops p)) 0 (Rpn.ops p) [] = Some (v :: stack) →
  ∃ buf', execute_full ctx p buf = Some (v, (stack, buf')) ∧
    (Forall (λ op, writes_store op = false) (Rpn.ops p) → buf' = buf) ∧
    (Rpn.uses_counter_loops (Rpn.ops p) = true → Rpn.evaluate_with_ctx ctx p = Some v).
Proof.
  intros Hr He. destruct (dispatch_agrees ctx contiguous_total _ _ _ _ _ buf Hr He) as (buf' & E & Hb).
  exists buf'. unfold execute_full, dispatch. rewrite E. split; [done|]. split; [done|].
  intros Hu. unfold Rpn.evaluate_with_ctx. by rewrite Hu, He.
Qed.

(** [C29] Several outputs are stored where they belong. For a graph whose children precede
    their parents and constants that hold the offsets, the program of [linearize_outputs]
    leaves the value of root [i] in cell [i] of its slot, changes no other cell, and returns
    one with an empty stack. *)
Theorem outputs_stored `{Libm} ctx soa roots slot start (buf : Buffer.ResultBuffer) :
  graph_ok soa → numbers_ok soa → outputs_error soa roots start = None → 0 ≤ start →
  Forall (λ id, 0 ≤ id < Soa.len soa) roots →
  (∀ i, 0 ≤ i < Z.of_nat (length roots) → is_int (get_const ctx (start + i)) i) →
  buffer_ok buf → 0 ≤ slot < Buffer.n_slots buf → Z.of_nat (length roots) ≤ Buffer.slot_size buf →
  ∃ p buf', Linearize.linearize_outputs soa roots slot start = Some (Ok p) ∧
    execute_full ctx p buf = Some (f64_one, ([], buf')) ∧
    (∀ i root, roots !! i = Some root → ∃ v,
       Dag.evaluate (Z.to_nat (Soa.len soa)) (Dag.new soa root) ctx = Some v ∧ Buffer.read buf' slot (Z.of_nat i) = v) ∧
    ∀ slot' offset, 0 ≤ slot' → 0 ≤ offset → slot' ≠ slot ∨ Z.of_nat (length roots) ≤ offset →
      Buffer.read buf' slot' offset = Buffer.read buf slot' offset.
Proof.
  intros Hok Hnum Herr Hst Hroots Hint Hb Hs Hl.
  destruct (linearize_outputs_run ctx soa Hok slot start roots Hok Hnum Herr Hroots Hst Hint) as (p & E & _ & Hrun).
  set (vs := node_val ctx soa ∘ Z.to_nat <$> roots) in *.
  assert (length vs = length roots) as Hlen by apply length_fmap.
  exists p, (write_outputs buf slot 0 vs). split; [done|]. split; [apply Hrun|]. split.
  - intros i root Hi. pose proof (lookup_lt_Some _ _ _ Hi). eexists. split.
    + unfold Dag.evaluate. cbn [Dag.soa Dag.root Dag.new].
      pose proof (proj1 (Forall_lookup _ _) Hroots _ _ Hi) as Hr. cbn in Hr.
      apply evaluate_soa_graph; [apply Hok|apply Hok|done|lia].
    + rewrite write_outputs_read by (done || lia). rewrite bool_decide_true by done.
      destruct (Z.leb_spec 0 (Z.of_nat i)), (Z.ltb_spec (Z.of_nat i) (0 + Z.of_nat (length vs))); try lia. cbn [andb].
      rewrite Z.sub_0_r, Nat2Z.id. unfold vs. rewrite list_lookup_fmap, Hi. cbn. unfold node_val.
      pose proof (proj1 (Forall_lookup _ _) Hroots _ _ Hi) as Hr. cbn in Hr. by rewrite Z2Nat.id by lia.
  - intros slot' offset H0 H1 Hne. rewrite write_outputs_read by (done || lia).
    destruct (bool_decide_reflect (slot = slot')) as [->|]; [|done]. cbn [andb].
    destruct (Z.ltb_spec offset (0 + Z.of_nat (length vs))); [|by rewrite andb_false_r]. destruct Hne; [done|lia].
Qed.

(** The results of a runtime form a ring. Programs that the reference accepts run one
    after another without a panic to their values, and result [k] is in cell [k] modulo the
    capacity as long as fewer than the capacity have followed it. *)
Theorem runtime_ring `{Libm} capacity ps vs : 0 < capacity → Forall2 accepted ps vs →
  ∃ self, execute_all (Runtime.new capacity) ps = Some (self, vs) ∧
    Z.of_nat (length (Runtime.results self)) = capacity ∧
    ∀ k, (k < length vs)%nat → Z.of_nat (length vs) - capacity ≤ Z.of_nat k →
      Runtime.results self !! Z.to_nat (Z.of_nat k `mod` capacity) = vs !! k.
Proof.
  intros Hc Hps. destruct (execute_all_ok capacity ps [] vs (Runtime.new capacity) Hc Hps) as (self & E & Hok).
  { split; [cbn; rewrite length_replicate; lia|done|]. intros k Hk. cbn in Hk. lia. }
  exists self. split; [done|]. split; apply Hok.
Qed.

(** [C5] What the compiler builds, the runtime computes. The node that answers a request,
    lowered, cut into fragments and executed as a graph with its constants and any inputs,
    gives the value of the request without sharing, folding or compilation, and becomes the
    next result. *)
Theorem runtime_executes_requests `{Libm} op_size limit qs : Z.of_nat (length qs) ≤ W32 → well_formed qs → 0 < op_size →
  ∃ self ids, serve_all HashCons.new [] qs = Some (self, ids) ∧
    ∀ inputs, Forall2 (λ id v, ∃ p, Linearize.linearize (HashCons.into_soa self) id = Some p ∧
      ∀ capacity ws rt, 0 < capacity → runtime_ok capacity ws rt → ∃ rt',
        let g := Fragments.fragment_program op_size p limit in
        Runtime.execute_graph_with_ctx rt g (mkContext inputs (Fragments.const_pool g)) = Some (v, rt') ∧
        runtime_ok capacity (ws ++ [v]) rt') ids (values_of inputs qs).
Proof.
  intros Hlt Hwf Hsize. destruct (run_requests qs Hlt Hwf) as (self & ids & E & [Hok Ha _ _ _ Hv]).
  exists self, ids. split; [done|]. intros inputs. apply (Forall2_weaken_l _ _ _ _ _ Ha (Hv inputs)).
  intros id v Hid <-. destruct (linearize_evaluates (HashCons.into_soa self) id) as (p & Ep & Hpool & _ & Hpure & Hexec).
  { by apply registry_graph_ok. } { done. }
  exists p. split; [done|]. intros capacity ws rt Hc Hrt.
  destruct (fragment_program_spec op_size p limit) as (Hcat & _ & Hp & _).
  set (g := Fragments.fragment_program op_size p limit) in *.
  unfold Runtime.execute_graph_with_ctx, execute_fragments_with_ctx, execute_fragments_full.
  rewrite (execute_each_pure _ _ [] [registry_value self inputs id]).
  - cbn [mbind option_bind head tail default]. unfold Runtime.finish. cbn [mbind option_bind].
    destruct (write_result_ok capacity ws (Runtime.mkRuntime [] (Runtime.results rt) (Runtime.result_idx rt)) (registry_value self inputs id) Hc) as (rt' & E' & Hok').
    { by destruct Hrt. }
    exists rt'. cbn [tl Datatypes.id]. by rewrite E'.
  - by rewrite Hcat.
  - rewrite Hcat, Hexec, Hp, Hpool. done.
Qed.

(** Two rounds of a loop that adds its counters. *)
Definition counting : Rpn.RpnProgram :=
  Rpn.mkProgram [] [Rpn.Zero; Rpn.Loop 3 1; Rpn.FAdd; Rpn.Dup; Rpn.FMax].

Lemma runtime_agrees_witness :
  Forall (λ op, reads_store op = false) (Rpn.ops counting) ∧
  ∃ buf', @execute_full libm_example _ _ (mkContext [] []) counting (Buffer.new 1 1) = Some (f64_of_Z 3, ([], buf')).
Proof.
  assert (Forall (λ op, reads_store op = false) (Rpn.ops counting)) as Hr by (repeat constructor).
  split; [exact Hr|].
  destruct (@runtime_agrees libm_example (mkContext [] []) counting (f64_of_Z 3) [] (Buffer.new 1 1)) as (buf' & E & _);
    [exact Hr|vm_compute; reflexivity|by exists buf'].
Defined.

Lemma outputs_stored_witness :
  let ctx := mkContext [f64_half] [f64_zero; f64_one] in
  ∃ p buf', Linearize.linearize_outputs shared_soa [1; 3] 0 0 = Some (Ok p) ∧
    @execute_full libm_example _ _ ctx p (Buffer.new 1 2) = Some (f64_one, ([], buf')) ∧ Buffer.read buf' 0 0 = f64_half.
Proof.
  intros ctx. destruct (@outputs_stored libm_example ctx shared_soa [1; 3] 0 0 (Buffer.new 1 2)) as (p & buf' & E & Hrun & Hread & _).
  - apply shared_soa_ok.
  - intros i k l r Hi. destruct i as [|[|[|[|i]]]]; cbn in Hi; simplify_eq; lia.
  - reflexivity.
  - done.
  - repeat constructor; done.
  - intros i Hi. cbn in Hi. assert (i = 0 ∨ i = 1) as [-> | ->] by lia; [apply (is_int_of_Z 0)|apply (is_int_of_Z 1)]; done.
  - split; [done|reflexivity|done].
  - done.
  - done.
  - exists p, buf'. split; [done|]. split; [done|]. destruct (Hread 0%nat 1 eq_refl) as (v & Hv & Hr).
    vm_compute in Hv. injection Hv as <-. exact Hr.
Defined.

Lemma runtime_ring_witness :
  Forall2 (@accepted libm_example) [Rpn.mkProgram [] [Rpn.One]; counting; Rpn.mkProgram [] [Rpn.Zero]] [f64_one; f64_of_Z 3; f64_zero] ∧
  ∃ self, @execute_all libm_example (Runtime.new 2) [Rpn.mkProgram [] [Rpn.One]; counting; Rpn.mkProgram [] [Rpn.Zero]] =
    Some (self, [f64_one; f64_of_Z 3; f64_zero]) ∧ Runtime.results self !! 1%nat = Some (f64_of_Z 3).
Proof.
  assert (Forall2 (@accepted libm_example) [Rpn.mkProgram [] [Rpn.One]; counting; Rpn.mkProgram [] [Rpn.Zero]]
    [f64_one; f64_of_Z 3; f64_zero]) as Hps.
  { repeat constructor; exists []; vm_compute; reflexivity. }
  split; [exact Hps|]. destruct (@runtime_ring libm_example 2 _ _ ltac:(done) Hps) as (self & E & _ & Hr).
  exists self. split; [done|]. exact (Hr 1%nat ltac:(cbn; lia) ltac:(cbn; lia)).
Defined.

Lemma runtime_executes_requests_witness :
  let qs := [VarReq 0; OneReq; BmlReq 1 0; BmlReq 2 2] in
  ∃ self ids, @serve_all libm_example HashCons.new [] qs = Some (self, ids) ∧ length ids = 4%nat.
Proof.
  intros qs. destruct (@runtime_executes_requests libm_example 12 36 qs) as (self & ids & E & _); [done| |done|].
  - intros [|[|[|[|k]]]] i j Hk; cbn in Hk; simplify_eq; lia.
  - exists self, ids. split; [done|]. vm_compute in E. by injection E as _ <-.
Defined.
