(* ===== verification/Schedule.v ===== *)
(** * operation_schedule.rs, buffer.rs, runtime.rs: running fragments in parallel

    The analysis of a fragment bounds the indices that it can read by an abstract
    execution, and finds the slots that it can read and write; fragments that do not
    conflict make a wave, and run at the same time on views of the buffer: each owns the
    slots that it writes and shares the others. The borrow checker keeps views disjoint, so
    a worker is a function of its own view. [parallel_is_sequential] says that the analysis
    and the views are right: no worker panics, and the buffer is what running the fragments
    in order gives. *)
From S2P Require Import Prelude Float FloatArith FloatInt Syntax HashCons Rpn Linearize Fragments HotLoop.
Import Syntax.Ast.

(** An operation fragment without its descriptive metadata. *)
Record OperationFragment : Set := mkOperation { fragment : Fragments.Fragment; operation_pool : option (list f64) }.

Definition context (self : OperationFragment) (parent : EvalContext) : EvalContext :=
  mkContext (inputs parent) (default (weights parent) (operation_pool self)).

(** ** Views *)

Module Partition.
Inductive SlotAccess : Set := Read (values : list f64) | Write (values : list f64) | Unavailable.
Record PartitionedBuffer : Set := mkPartitioned { slots : list SlotAccess; slot_size : Z }.

Definition read_indexed (self : PartitionedBuffer) (base offset : Z) : f64 :=
  match Rpn.checked_add_u32 base offset with
  | None => f64_nan
  | Some index =>
      if slot_size self =? 0 then f64_nan else
      match slots self !! Z.to_nat (index / slot_size self) with
      | Some (Read values) | Some (Write values) => default f64_nan (values !! Z.to_nat (index `mod` slot_size self))
      | _ => f64_nan
      end
  end.

(** A slot that the view does not own panics. *)
Definition write (self : PartitionedBuffer) (slot offset : Z) (value : f64) : option PartitionedBuffer :=
  if (slot_size self <=? offset) || (Z.of_nat (length (slots self)) <=? slot) then Some self else
  match slots self !! Z.to_nat slot with
  | Some (Write values) =>
      Some (mkPartitioned (<[Z.to_nat slot := Write (<[Z.to_nat offset := value]> values)]> (slots self)) (slot_size self))
  | _ => None
  end.

(** [chunks_mut]. *)
Definition chunk (size : Z) (data : list f64) (k : nat) : list f64 :=
  take (Z.to_nat size) (drop (k * Z.to_nat size) data).

Definition view_slot (owner : option nat) (worker : nat) (values : list f64) : SlotAccess :=
  match owner with
  | Some w => if bool_decide (w = worker) then Write values else Unavailable
  | None => Read values
  end.

(** The view of one worker; [None] is the assertion on the number of owners. *)
Definition partition (self : Buffer.ResultBuffer) (owners : list (option nat)) (worker : nat) : option PartitionedBuffer :=
  if negb (bool_decide (Z.of_nat (length owners) = Buffer.n_slots self)) then None else
  if Buffer.slot_size self =? 0 then Some (mkPartitioned [] 0) else
  Some (mkPartitioned
    (imap (λ k owner, view_slot owner worker (chunk (Buffer.slot_size self) (Buffer.data self) k)) owners)
    (Buffer.slot_size self)).

(** The buffer once the views are given back: an owned slot has the values of its owner. *)
Definition given_back (self : Buffer.ResultBuffer) (owners : list (option nat)) (views : list PartitionedBuffer) : Buffer.ResultBuffer :=
  Buffer.mkBuffer
    (if Buffer.slot_size self =? 0 then Buffer.data self else
     concat (imap (λ k owner,
       match (w ← owner; v ← views !! w; slots v !! k) with
       | Some (Write values) => values
       | _ => chunk (Buffer.slot_size self) (Buffer.data self) k
       end) owners))
    (Buffer.slot_size self) (Buffer.n_slots self).
End Partition.

#[export] Instance partitioned_store : ResultStore Partition.PartitionedBuffer := {|
  read_indexed := Partition.read_indexed;
  write := Partition.write;
|}.

Module Schedule.
(** ** The analysis *)

Inductive IndexRange : Set := Known (low high : Z) | Unknown.

#[export] Instance IndexRange_eq_dec : EqDecision IndexRange.
Proof. solve_decision. Defined.

Definition constant (value : f64) : IndexRange :=
  if is_finite value && f64_le f64_zero value && f64_le value u32_max && f64_eq (f64_fract value) f64_zero
  then Known (f64_as_u32 value) (f64_as_u32 value) else Unknown.

Definition checked_mul_u32 (a b : Z) : option Z := if a * b <? W32 then Some (a * b) else None.

Definition arithmetic (self other : IndexRange) (multiply : bool) : IndexRange :=
  match self, other with
  | Known a b, Known c d =>
      let op := if multiply then checked_mul_u32 else Rpn.checked_add_u32 in
      match op a c, op b d with
      | Some lower, Some upper => Known lower upper
      | _, _ => Unknown
      end
  | _, _ => Unknown
  end.

Record Access : Set := mkAccess { reads : list bool; writes : list bool; stack_capacity : Z }.

Definition marked (l : list bool) (i : nat) : bool := default false (l !! i).

Definition conflicts (self other : Access) : bool :=
  existsb (λ i, (marked (writes self) i && (marked (reads other) i || marked (writes other) i))
    || (marked (reads self) i && marked (writes other) i)) (seq 0 (length (reads self))).

(** [for slot in first..=last]. *)
Definition mark_range (l : list bool) (first last : Z) : list bool :=
  imap (λ i b, b || ((first <=? Z.of_nat i) && (Z.of_nat i <=? last))) l.

Definition read (self : Access) (base : Z) (offset : IndexRange) (buffer : Buffer.ResultBuffer) : Access :=
  if (Buffer.len buffer =? 0) || (Buffer.slot_size buffer =? 0) then self else
  let '(low, high) := match offset with Known low high => (low, high) | Unknown => (0, W32 - 1) end in
  match Rpn.checked_add_u32 base low with
  | None => self
  | Some start =>
      let last := Z.min (Z.min (base + high) (W32 - 1)) (Buffer.len buffer - 1) in
      if start <=? last then
        mkAccess (mark_range (reads self) (start / Buffer.slot_size buffer) (last / Buffer.slot_size buffer))
          (writes self) (stack_capacity self)
      else self
  end.

Definition set_write (self : Access) (slot : Z) : Access :=
  mkAccess (reads self) (<[Z.to_nat slot := true]> (writes self)) (stack_capacity self).

(** [Analyzer] with the abstract stack, its top first. *)
Record Analyzer : Set := mkAnalyzer { stack : list IndexRange; access : Access; fuel : Z }.

Definition with_stack (self : Analyzer) (s : list IndexRange) : Analyzer := mkAnalyzer s (access self) (fuel self).
Definition with_access (self : Analyzer) (s : list IndexRange) (a : Access) : Analyzer := mkAnalyzer s a (fuel self).
Definition spend (self : Analyzer) : option Analyzer :=
  if fuel self <? 1 then None else Some (mkAnalyzer (stack self) (access self) (fuel self - 1)).

(** [stack_capacity.max(n)]. *)
Definition reserve (self : Analyzer) (n : nat) : Analyzer :=
  mkAnalyzer (stack self)
    (mkAccess (reads (access self)) (writes (access self)) (Z.max (stack_capacity (access self)) (Z.of_nat n))) (fuel self).

Section visit.
Context (ctx : EvalContext) (buffer : Buffer.ResultBuffer).

(** An operation that is not a loop. *)
Definition abstract_step (op : Rpn.RpnOp) (self : Analyzer) : option Analyzer :=
  match op, stack self with
  | Rpn.Zero, s => Some (with_stack self (Known 0 0 :: s))
  | Rpn.One, s => Some (with_stack self (Known 1 1 :: s))
  | Rpn.Const id, s => Some (with_stack self (constant (get_const ctx id) :: s))
  | Rpn.Var id, s => Some (with_stack self (constant (get_var ctx id) :: s))
  | (Rpn.ContextVarIndexed _ | Rpn.ContextConstIndexed _), _ :: s => Some (with_stack self (Unknown :: s))
  | Rpn.VarIndexed base, offset :: s => Some (with_access self (Unknown :: s) (read (access self) base offset buffer))
  | Rpn.StoreResult slot, _ :: _ :: s => Some (with_access self s (set_write (access self) slot))
  | Rpn.FAdd, right :: left :: s => Some (with_stack self (arithmetic left right false :: s))
  | Rpn.FMul, right :: left :: s => Some (with_stack self (arithmetic left right true :: s))
  | (Rpn.Bml | Rpn.FMax), _ :: _ :: s => Some (with_stack self (Unknown :: s))
  | Rpn.Dup, v :: s => Some (with_stack self (v :: v :: s))
  | Rpn.Pick depth, s =>
      index ← checked_sub (Z.of_nat (length s)) (depth + 1);
      v ← reverse s !! Z.to_nat index;
      Some (with_stack self (v :: s))
  | Rpn.Drop, _ :: s => Some (with_stack self s)
  | Rpn.Swap, a :: b :: s => Some (with_stack self (b :: a :: s))
  | _, _ => None
  end.

(** One value of [iter_mut().zip]: it stays unless it changes and is known. *)
Definition widen_value (old new : IndexRange) : IndexRange :=
  if bool_decide (old ≠ new ∧ old ≠ Unknown) then Unknown else old.
Definition changes (old new : IndexRange) : bool := bool_decide (old ≠ new ∧ old ≠ Unknown).

(** The inner [loop]: each turn but the last makes a position unknown, so there are at most
    as many as positions, and one. *)
Fixpoint widen (turns : nat) (body : Analyzer → option Analyzer) (count : Z) (self : Analyzer) : option Analyzer :=
  match turns with
  | O => None
  | S turns =>
      let entered := with_stack self (Known 0 (count - 1) :: stack self) in
      next ← body (reserve entered (length (stack entered)));
      if negb (bool_decide (length (stack next) = length (stack self))) then None else
      if count =? 1 then Some next else
      let self' := with_stack next (zip_with widen_value (stack self) (stack next)) in
      if existsb (λ p, changes p.1 p.2) (zip (stack self) (stack next)) then widen turns body count self' else Some self'
  end.

(** Every operation spends fuel of the analyzer, so one more than it is enough. *)
Fixpoint visit (k : nat) (all : list Rpn.RpnOp) (depth : Z) (self : Analyzer) : option Analyzer :=
  match k with
  | O => None
  | S k =>
      if 32 <? depth then None else
      match all with
      | [] => Some self
      | op :: rest =>
          self ← spend self;
          match op with
          | Rpn.Loop count body_len =>
              if Z.of_nat (length rest) <? body_len then None else
              self ← (if 0 <? count
                      then widen (S (length (stack self))) (visit k (take (Z.to_nat body_len) rest) (depth + 1)) count self
                      else Some self);
              visit k (drop (Z.to_nat body_len) rest) depth self
          | _ =>
              self ← abstract_step op self;
              visit k rest depth (reserve self (length (stack self)))
          end
      end
  end.

(** A fragment whose analysis ends with an empty stack. *)
Definition analyze_fragment (all : list Rpn.RpnOp) : option Access :=
  if W64 <=? Z.of_nat (length all) * 8 then None else
  let none := replicate (Z.to_nat (Buffer.n_slots buffer)) false in
  let fuel := Z.max (Z.of_nat (length all) * 8) 64 in
  self ← visit (S (Z.to_nat fuel)) all 0 (mkAnalyzer [] (mkAccess none none 0) fuel);
  if bool_decide (stack self = []) then Some (access self) else None.
End visit.

Definition analyze (fragments : list OperationFragment) (ctx : EvalContext) (buffer : Buffer.ResultBuffer) : option (list Access) :=
  mapM (λ f, analyze_fragment (context f ctx) buffer (Fragments.ops (fragment f))) fragments.

(** ** Waves *)

(** The condition on a candidate end. *)
Definition ends_wave (accesses : list Access) (cores start last : nat) : bool :=
  bool_decide (last = length accesses) || bool_decide (last - start = Nat.max cores 1)%nat ||
  existsb (λ old, match accesses !! last with Some a => conflicts old a | None => false end)
    (take (last - start) (drop start accesses)).

Fixpoint waves_from (accesses : list Access) (cores start : nat) (candidates : list nat) : list (nat * nat) :=
  match candidates with
  | [] => []
  | last :: candidates =>
      if ends_wave accesses cores start last
      then (start, last) :: waves_from accesses cores last candidates
      else waves_from accesses cores start candidates
  end.

Definition wave_ranges (accesses : list Access) (cores : nat) : list (nat * nat) :=
  waves_from accesses cores 0 (seq 1 (length accesses)).

(** Owners of the slots; [None] is the assertion that no slot has two. *)
Definition own_slot (worker : nat) (owners : option (list (option nat))) (k : nat) (write : bool) : option (list (option nat)) :=
  owners ← owners;
  if write then
    match owners !! k with
    | Some None => Some (<[k := Some worker]> owners)
    | _ => None
    end
  else Some owners.

Fixpoint own_slots (worker : nat) (owners : option (list (option nat))) (k : nat) (writes : list bool) : option (list (option nat)) :=
  match writes with
  | [] => owners
  | w :: writes => own_slots worker (own_slot worker owners k w) (S k) writes
  end.

Fixpoint own_all (worker : nat) (owners : option (list (option nat))) (accesses : list Access) : option (list (option nat)) :=
  match accesses with
  | [] => owners
  | a :: accesses => own_all (S worker) (own_slots worker owners 0 (writes a)) accesses
  end.

Section run.
Context {H : Libm} (ctx : EvalContext).

(** One worker, on an interpreter of its own. *)
Definition run_worker (buffer : Buffer.ResultBuffer) (owners : list (option nat)) (worker : nat) (f : OperationFragment)
    : option Partition.PartitionedBuffer :=
  view ← Partition.partition buffer owners worker;
  '(_, view) ← HotLoop.dispatch (context f ctx) (Fragments.ops (fragment f)) [] view;
  Some view.

Fixpoint run_workers (buffer : Buffer.ResultBuffer) (owners : list (option nat)) (worker : nat) (fs : list OperationFragment)
    : option (list Partition.PartitionedBuffer) :=
  match fs with
  | [] => Some []
  | f :: fs => view ← run_worker buffer owners worker f; views ← run_workers buffer owners (S worker) fs; Some (view :: views)
  end.

Definition run_wave (fs : list OperationFragment) (accesses : list Access) (buffer : Buffer.ResultBuffer) : option Buffer.ResultBuffer :=
  owners ← own_all 0 (Some (replicate (Z.to_nat (Buffer.n_slots buffer)) None)) accesses;
  views ← run_workers buffer owners 0 fs;
  Some (Partition.given_back buffer owners views).

(** [execute_fragments_sequential]: the stack of the runtime is shared. *)
Fixpoint execute_fragments_sequential (fs : list OperationFragment) (stack : list f64) (buffer : Buffer.ResultBuffer)
    : option (list f64 * Buffer.ResultBuffer) :=
  match fs with
  | [] => Some (stack, buffer)
  | f :: fs =>
      '(stack, buffer) ← HotLoop.dispatch (context f ctx) (Fragments.ops (fragment f)) stack buffer;
      execute_fragments_sequential fs stack buffer
  end.

Definition slice {A} (l : list A) (range : nat * nat) : list A := take (range.2 - range.1) (drop range.1 l).

Fixpoint execute_waves (fs : list OperationFragment) (accesses : list Access) (ranges : list (nat * nat))
    (stack : list f64) (buffer : Buffer.ResultBuffer) : option (list f64 * Buffer.ResultBuffer) :=
  match ranges with
  | [] => Some (stack, buffer)
  | range :: ranges =>
      '(stack, buffer) ←
        match slice fs range with
        | [f] => HotLoop.dispatch (context f ctx) (Fragments.ops (fragment f)) stack buffer
        | wave => buffer ← run_wave wave (slice accesses range) buffer; Some (stack, buffer)
        end;
      execute_waves fs accesses ranges stack buffer
  end.

Definition execute_with_cores (fs : list OperationFragment) (stack : list f64) (buffer : Buffer.ResultBuffer) (n_cores : nat)
    : option (list f64 * Buffer.ResultBuffer) :=
  if bool_decide (n_cores ≤ 1)%nat || bool_decide (length fs ≤ 1)%nat || bool_decide (stack ≠ [])
  then execute_fragments_sequential fs stack buffer
  else
    match analyze fs ctx buffer with
    | None => execute_fragments_sequential fs stack buffer
    | Some accesses => execute_waves fs accesses (wave_ranges accesses n_cores) stack buffer
    end.
End run.
End Schedule.

Import HotLoop Schedule.

(** ** Soundness of the ranges *)

(** The values of a range: floats that are whole numbers between its ends. *)
Definition within (r : IndexRange) (x : f64) : Prop :=
  match r with Known low high => ∃ n, is_int x n ∧ low ≤ n ≤ high ∧ 0 ≤ low ∧ high < W32 | Unknown => True end.

Lemma constant_within value : within (constant value) value.
Proof.
  unfold constant. destruct (is_finite value && _ && _ && _) eqn:E; [|done].
  apply andb_true_iff in E as [[[Hf H0]%andb_true_iff Hm]%andb_true_iff Hfr].
  destruct (index_like_int value) as (n & Hn & Hlt); [done|]. rewrite (as_u32_int value n) by done.
  exists n. unfold W32. split; [done|]. pose proof (is_int_nonneg _ _ Hn). lia.
Qed.

Lemma checked_mul_u32_Some a b c : checked_mul_u32 a b = Some c ↔ c = a * b ∧ a * b < W32.
Proof. unfold checked_mul_u32. destruct (Z.ltb_spec (a * b) W32); split; [intros [=]; lia|by intros [-> _]|done|lia]. Qed.

Lemma checked_add_u32_Some a b c : Rpn.checked_add_u32 a b = Some c ↔ c = a + b ∧ a + b < W32.
Proof. unfold Rpn.checked_add_u32. destruct (Z.ltb_spec (a + b) W32); split; [intros [=]; lia|by intros [-> _]|done|lia]. Qed.

Lemma add_within r1 r2 x y : within r1 x → within r2 y → within (arithmetic r1 r2 false) (f64_add x y).
Proof.
  destruct r1 as [a b|], r2 as [c d|]; try done. intros (n & Hn & Hab & Ha & Hb) (m & Hm & Hcd & Hc & Hd). cbn [arithmetic].
  destruct (Rpn.checked_add_u32 a c) as [lo|] eqn:E1; [|done]. destruct (Rpn.checked_add_u32 b d) as [hi|] eqn:E2; [|done].
  apply checked_add_u32_Some in E1 as [-> _]. apply checked_add_u32_Some in E2 as [-> Hlt].
  exists (n + m). split; [apply add_int; [done..|]; unfold W32 in *; lia|lia].
Qed.

Lemma mul_within r1 r2 x y : within r1 x → within r2 y → within (arithmetic r1 r2 true) (f64_mul x y).
Proof.
  destruct r1 as [a b|], r2 as [c d|]; try done. intros (n & Hn & Hab & Ha & Hb) (m & Hm & Hcd & Hc & Hd). cbn [arithmetic].
  destruct (checked_mul_u32 a c) as [lo|] eqn:E1; [|done]. destruct (checked_mul_u32 b d) as [hi|] eqn:E2; [|done].
  apply checked_mul_u32_Some in E1 as [-> Hlo]. apply checked_mul_u32_Some in E2 as [-> Hlt].
  pose proof (is_int_nonneg _ _ Hn). pose proof (is_int_nonneg _ _ Hm).
  assert (n * m ≤ b * d) by (apply Z.mul_le_mono_nonneg; lia).
  exists (n * m). split; [apply mul_int; [done..|]; unfold W32 in *; lia|]. split; [|nia]. split; [|done]. apply Z.mul_le_mono_nonneg; lia.
Qed.

Lemma f64_significand_ge_0 x : 0 ≤ f64_significand x.
Proof.
  unfold f64_significand, f64_fraction. pose proof (Z.mod_pos_bound (to_bits x) (2 ^ 52) ltac:(done)).
  destruct (f64_exponent x =? 0); lia.
Qed.

Lemma f64_as_u32_u32 x : u32 (f64_as_u32 x).
Proof.
  unfold u32, W32, f64_as_u32. destruct (is_nan x || f64_sign x); [lia|]. destruct (negb (is_finite x)); [lia|].
  pose proof (f64_significand_ge_0 x) as Hs.
  destruct (Z.leb_spec 0 (f64_power x)).
  - pose proof (Z.mul_nonneg_nonneg _ _ Hs (Z.pow_nonneg 2 (f64_power x) ltac:(lia))). lia.
  - pose proof (Z.div_pos (f64_significand x) (2 ^ (- f64_power x)) Hs ltac:(apply Z.pow_pos_nonneg; lia)). lia.
Qed.

(** ** The order of accesses *)

(** [b] allows what [a] does, on the same slots. *)
Record access_le (a b : Access) : Prop := {
  le_reads : ∀ i, marked (reads a) i = true → marked (reads b) i = true;
  le_writes : ∀ i, marked (writes a) i = true → marked (writes b) i = true;
  le_lengths : length (reads a) = length (reads b) ∧ length (writes a) = length (writes b);
}.

#[export] Instance access_le_preorder : PreOrder access_le.
Proof.
  split; [by split|]. intros a b c [H1 H2 [H3 H4]] [H5 H6 [H7 H8]]. split; [auto|auto|]. split; congruence.
Qed.

Lemma marked_insert l k i : marked (<[k := true]> l) i = marked l i || (bool_decide (k = i) && bool_decide (k < length l)%nat).
Proof.
  unfold marked. rewrite list_lookup_insert. case_decide as H1.
  - destruct H1 as [-> Hlt]. rewrite !bool_decide_true by done. by rewrite orb_true_r.
  - destruct (bool_decide_reflect (k = i)), (bool_decide_reflect (k < length l)%nat); rewrite ?orb_false_r; try done. by destruct H1.
Qed.

Lemma marked_range l first last i : marked (mark_range l first last) i =
  marked l i || (bool_decide (i < length l)%nat && (first <=? Z.of_nat i) && (Z.of_nat i <=? last)).
Proof.
  unfold marked, mark_range. rewrite list_lookup_imap. destruct (l !! i) as [b|] eqn:E; cbn.
  - apply lookup_lt_Some in E. by rewrite bool_decide_true.
  - apply lookup_ge_None in E. by rewrite bool_decide_false by lia.
Qed.

Lemma read_le a base offset buffer : access_le a (read a base offset buffer).
Proof.
  unfold read. destruct (_ || _); [done|]. destruct (match offset with Known low high => (low, high) | Unknown => _ end) as [low high].
  destruct (Rpn.checked_add_u32 base low); [|done]. destruct (_ <=? _); [|done]. split; cbn [reads writes]; [|done|].
  - intros i Hi. by rewrite marked_range, Hi.
  - unfold mark_range. by rewrite length_imap.
Qed.

Lemma set_write_le a slot : access_le a (set_write a slot).
Proof. split; cbn [reads writes set_write]; [done| |by rewrite length_insert]. intros i Hi. by rewrite marked_insert, Hi. Qed.

Lemma reserve_le s n : access_le (access s) (access (reserve s n)).
Proof. by split. Qed.

(** A read at an offset of the range is at a marked slot. *)
Lemma read_marked a base offset buffer x : buffer_ok buffer → Z.of_nat (length (reads a)) = Buffer.n_slots buffer →
  u32 base → within offset x → base + f64_as_u32 x < W32 → base + f64_as_u32 x < Buffer.len buffer →
  marked (reads (read a base offset buffer)) (Z.to_nat ((base + f64_as_u32 x) / Buffer.slot_size buffer)) = true.
Proof.
  intros [[Hs Hn] Hd _] Hl [Hb _] Hx H32 Hlen. pose proof (f64_as_u32_u32 x) as [Hx0 Hx1]. unfold read.
  destruct (Z.eqb_spec (Buffer.len buffer) 0); [lia|]. destruct (Z.eqb_spec (Buffer.slot_size buffer) 0); [nia|]. cbn [orb].
  assert (∃ low high, match offset with Known low high => (low, high) | Unknown => (0, W32 - 1) end = (low, high) ∧
    low ≤ f64_as_u32 x ≤ high) as (low & high & -> & Hlow & Hhigh).
  { destruct offset as [low high|]; [|exists 0, (W32 - 1); split; [done|unfold W32 in *; lia]].
    destruct Hx as (m & Hint & Hr & _ & H32'). exists low, high. by rewrite (as_u32_int x m) by (done || unfold W32 in *; lia). }
  rewrite (proj2 (checked_add_u32_Some base low (base + low))) by lia.
  set (last := Z.min _ (Buffer.len buffer - 1)). assert (base + f64_as_u32 x ≤ last) as Hlast by lia.
  rewrite (proj2 (Z.leb_le _ _)) by lia. cbn [reads].
  set (size := Buffer.slot_size buffer) in *. set (i := base + f64_as_u32 x) in *.
  assert (0 ≤ i / size < Buffer.n_slots buffer) as Hi.
  { split; [apply Z.div_pos; lia|]. apply Z.div_lt_upper_bound; lia. }
  rewrite marked_range. rewrite bool_decide_true by lia. rewrite Z2Nat.id by lia.
  rewrite !(proj2 (Z.leb_le _ _)), orb_true_r; [done|apply Z.div_le_mono; lia..].
Qed.

(** ** Soundness of the analysis *)

Lemma spend_spec s s' : spend s = Some s' → stack s' = stack s ∧ access s' = access s ∧ fuel s' = fuel s - 1 ∧ 1 ≤ fuel s.
Proof. unfold spend. destruct (Z.ltb_spec (fuel s) 1); [done|]. intros [= <-]. done. Qed.

Section soundness.
Context (ctx : EvalContext) (buffer : Buffer.ResultBuffer).

Lemma abstract_step_le op s s' : abstract_step ctx buffer op s = Some s' → access_le (access s) (access s').
Proof.
  destruct s as [st acc k]. intros Hs. destruct op; cbn [abstract_step stack access] in Hs |- *;
    try (destruct st as [|? [|? st]]; simplify_eq/=; try reflexivity; apply read_le || apply set_write_le).
  destruct (checked_sub _ _); cbn in Hs; [|done]. destruct (reverse st !! _); cbn in Hs; [|done]. by injection Hs as <-.
Qed.

Lemma widen_le turns body count s s' : (∀ s s', body s = Some s' → access_le (access s) (access s')) →
  widen turns body count s = Some s' → access_le (access s) (access s').
Proof.
  intros Hbody. revert s. induction turns as [|turns IH]; intros s Hs; cbn [widen] in Hs; [done|].
  destruct (body _) as [next|] eqn:E; cbn [mbind option_bind] in Hs; [|done]. apply Hbody in E.
  assert (access_le (access s) (access next)) as Hle by (etrans; [|exact E]; by split). clear E.
  destruct (negb _); [done|]. destruct (count =? 1); [by injection Hs as <-|].
  destruct (existsb _ _); [|by injection Hs as <-]. etrans; [exact Hle|]. by apply IH in Hs.
Qed.

Lemma visit_le k all depth s s' : visit ctx buffer k all depth s = Some s' → access_le (access s) (access s').
Proof.
  revert all depth s s'. induction k as [|k IH]; intros all depth s s' Hs; cbn [visit] in Hs; [done|].
  destruct (32 <? depth); [done|]. destruct all as [|op rest]; [by injection Hs as <-|].
  destruct (spend s) as [s1|] eqn:E1; cbn [mbind option_bind] in Hs; [|done].
  apply spend_spec in E1 as (_ & <- & _).
  assert ((s2 ← abstract_step ctx buffer op s1; visit ctx buffer k rest depth (reserve s2 (length (stack s2)))) = Some s' →
    access_le (access s1) (access s')) as Hplain.
  { intros Hp. destruct (abstract_step ctx buffer op s1) as [s2|] eqn:E2; cbn [mbind option_bind] in Hp; [|done].
    apply abstract_step_le in E2. apply IH in Hp. etrans; [exact E2|]. etrans; [apply reserve_le|exact Hp]. }
  destruct op; try (by apply Hplain). clear Hplain. destruct (_ <? body_len); [done|].
  destruct (0 <? count); cbn [mbind option_bind] in Hs; [|by apply IH in Hs].
  destruct (widen _ _ count s1) as [s2|] eqn:E2; cbn [mbind option_bind] in Hs; [|done].
  etrans; [eapply widen_le; [|exact E2]|by apply IH in Hs]. intros t t' Ht. by apply IH in Ht.
Qed.

(** Two stores that answer the reads of an access in the same way, and take its writes. *)
Context `{LM : Libm} {A B : Type} {SA : ResultStore A} {SB : ResultStore B}.
Context (acc : Access) (R : A → B → Prop).

Record agreement : Prop := {
  agree_buffer : buffer_ok buffer;
  agree_slots : Z.of_nat (length (reads acc)) = Buffer.n_slots buffer ∧ Z.of_nat (length (writes acc)) = Buffer.n_slots buffer;
  agree_read : ∀ a b base offset, R a b → u32 base → u32 offset →
    (base + offset < W32 → base + offset < Buffer.len buffer →
      marked (reads acc) (Z.to_nat ((base + offset) / Buffer.slot_size buffer)) = true) →
    read_indexed a base offset = read_indexed b base offset;
  agree_write : ∀ a b slot offset v, R a b → u32 slot → u32 offset →
    (slot < Buffer.n_slots buffer → marked (writes acc) (Z.to_nat slot) = true) →
    ∃ a' b', write a slot offset v = Some a' ∧ write b slot offset v = Some b' ∧ R a' b';
}.

Context (Hag : agreement).

(** The outcomes of the same code on both stores. *)
Definition same_run (rs : list IndexRange) (ra : option (list f64 * A)) (rb : option (list f64 * B)) : Prop :=
  ∃ st a b, ra = Some (st, a) ∧ rb = Some (st, b) ∧ R a b ∧ Forall2 within rs st.

Lemma zero_within : within (Known 0 0) f64_zero.
Proof. exists 0. split; [by apply (is_int_of_Z 0)|done]. Qed.

Lemma one_within : within (Known 1 1) f64_one.
Proof. exists 1. split; [by apply (is_int_of_Z 1)|done]. Qed.

Lemma pick_sound s st depth i r : Forall2 within s st → checked_sub (Z.of_nat (length s)) (depth + 1) = Some i →
  reverse s !! Z.to_nat i = Some r →
  within r (default f64_zero (Rpn.from_bottom st (saturating_sub (Z.of_nat (length st)) (1 + depth)))).
Proof.
  intros Hst Hi Hr. pose proof (Forall2_length _ _ _ Hst) as Hl. unfold checked_sub in Hi.
  destruct (Z.leb_spec (depth + 1) (Z.of_nat (length s))); [|done]. injection Hi as <-. unfold saturating_sub, Rpn.from_bottom.
  replace (Z.max 0 (Z.of_nat (length st) - (1 + depth))) with (Z.of_nat (length s) - (depth + 1)) by lia.
  pose proof (Forall2_lookup_l _ _ _ _ _ (Forall2_reverse _ _ _ Hst) Hr) as (x & -> & Hx). done.
Qed.

Lemma abstract_step_sound op s s' st a b : abstract_step ctx buffer op s = Some s' → Fragments.op_ok op →
  access_le (access s') acc → Forall2 within (stack s) st → R a b →
  same_run (stack s') (dispatch_step ctx op st a) (dispatch_step ctx op st b).
Proof.
  destruct Hag as [Hb [Hlr Hlw] Hread Hwrite]. destruct s as [rs ac k]. intros Hs Hop Hle Hst HR. unfold same_run.
  destruct op; cbn [abstract_step stack access Fragments.op_ok] in *; try done;
    try (repeat match type of Hs with match ?l with _ => _ end = _ => destruct l as [|? ?]; [done|] end; injection Hs as <-;
         repeat match goal with H : Forall2 within (_ :: _) _ |- _ =>
           apply Forall2_cons_inv_l in H as (? & ? & ? & ? & ->) end;
         cbn [stack access with_stack with_access dispatch_step Rpn.pop_or operands tail Rpn.swap_top mbind option_bind] in *;
         do 3 eexists; split; [reflexivity|]; split; [reflexivity|]; split; [done|];
         repeat first [apply Forall2_cons; split | done];
         first [done | apply constant_within | by apply add_within | by apply mul_within | by apply zero_within | by apply one_within]).
  - destruct rs as [|r rs]; [done|]. injection Hs as <-. apply Forall2_cons_inv_l in Hst as (x & st' & Hx & Hst & ->).
    cbn [stack access with_access dispatch_step Rpn.pop_or] in *. do 3 eexists. split; [reflexivity|].
    split; [|split; [exact HR|by apply Forall2_cons]].
    rewrite (Hread a b) by first [done | apply f64_as_u32_u32 | intros H1 H2; apply (le_reads _ _ Hle);
      apply read_marked; try done; destruct (le_lengths _ _ (read_le ac base r buffer)) as [-> _];
      by destruct (le_lengths _ _ Hle) as [-> _]]. done.
  - destruct rs as [|r1 [|r2 rs]]; [done..|]. injection Hs as <-.
    apply Forall2_cons_inv_l in Hst as (x & st' & Hx & Hst & ->). apply Forall2_cons_inv_l in Hst as (v & st'' & Hv & Hst & ->).
    cbn [stack access with_access dispatch_step Rpn.pop_or] in *.
    destruct (Hwrite a b slot (f64_as_u32 x) v HR Hop (f64_as_u32_u32 x)) as (a' & b' & Ea & Eb & HR').
    { intros Hlt. apply (le_writes _ _ Hle). cbn [writes set_write]. rewrite marked_insert, !bool_decide_true, orb_true_r; [done| |done].
      destruct (le_lengths _ _ Hle) as [_ Hl]. cbn [writes set_write] in Hl. rewrite length_insert in Hl. destruct Hop. lia. }
    rewrite Ea, Eb. cbn [mbind option_bind]. by exists st'', a', b'.
  - destruct (checked_sub _ _) as [i|] eqn:Ei; cbn [mbind option_bind] in Hs; [|done].
    destruct (reverse rs !! Z.to_nat i) as [r|] eqn:Er; cbn [mbind option_bind] in Hs; [|done]. injection Hs as <-.
    cbn [dispatch_step]. do 3 eexists. split; [reflexivity|]. split; [reflexivity|]. split; [done|].
    apply Forall2_cons. split; [by eapply pick_sound|done].
Qed.

(** *** Loops *)

Lemma widen_value_within old new x : within old x → within (widen_value old new) x.
Proof. unfold widen_value. by case_bool_decide. Qed.

Lemma zip_widen_within olds news xs : Forall2 within olds xs → length news = length olds →
  Forall2 within (zip_with widen_value olds news) xs.
Proof.
  intros Ho. revert news. induction Ho as [|old x olds xs Hx Ho IH]; intros [|new news] Hl; try done; cbn [zip_with].
  apply Forall2_cons. split; [by apply widen_value_within|]. apply IH. cbn in Hl. lia.
Qed.

(** A stack that an iteration does not change holds before and after each. *)
Lemma stable_stack olds news xs : existsb (λ p, changes p.1 p.2) (zip olds news) = false → length news = length olds →
  zip_with widen_value olds news = olds ∧ (Forall2 within news xs → Forall2 within olds xs).
Proof.
  revert news xs. induction olds as [|old olds IH]; intros [|new news] xs Hc Hl; try done.
  cbn [zip zip_with existsb fst snd] in Hc |- *. apply orb_false_iff in Hc as [Hc Hcs].
  unfold changes in Hc. apply bool_decide_eq_false in Hc. split.
  - f_equal; [|apply (IH news []); [done|cbn in Hl; lia]]. unfold widen_value. by rewrite bool_decide_false.
  - intros Hn. apply Forall2_cons_inv_l in Hn as (x & xs' & Hx & Hn & ->). apply Forall2_cons.
    split; [|apply (IH news xs'); [done|cbn in Hl; lia|done]].
    destruct (decide (old = new)) as [->|Hne]; [done|]. destruct (decide (old = Unknown)) as [->|]; [done|]. by destruct Hc.
Qed.

Lemma counter_within i count : 0 ≤ i < count → count < W32 → within (Known 0 (count - 1)) (f64_of_Z i).
Proof. intros Hi Hc. exists i. split; [apply is_int_of_Z; unfold W32 in *; lia|lia]. Qed.

Section body.
Context (body : Analyzer → option Analyzer).
Context (ga : list f64 → A → option (list f64 * A)) (gb : list f64 → B → option (list f64 * B)).
Context (body_sound : ∀ s s' st a b, body s = Some s' → access_le (access s') acc →
  Forall2 within (stack s) st → R a b → same_run (stack s') (ga st a) (gb st b)).

Lemma iterations_sound rs n i count a b st : 0 ≤ i → i + Z.of_nat n ≤ count →
  (∀ j st a b, 0 ≤ j < count → Forall2 within rs st → R a b →
    same_run rs (ga (f64_of_Z j :: st) a) (gb (f64_of_Z j :: st) b)) →
  Forall2 within rs st → R a b →
  same_run rs (Rpn.count_body n i (λ iter s, ga (iter :: s.1) s.2) (st, a))
    (Rpn.count_body n i (λ iter s, gb (iter :: s.1) s.2) (st, b)).
Proof.
  intros Hi Hn Hstep. revert i a b st Hi Hn. induction n as [|n IH]; intros i a b st Hi Hn Hst HR; cbn [Rpn.count_body fst snd].
  { by exists st, a, b. }
  destruct (Hstep i st a b ltac:(lia) Hst HR) as (st1 & a1 & b1 & -> & -> & HR1 & Hst1). cbn [mbind option_bind].
  apply IH; by lia || done.
Qed.

Lemma widen_sound turns count s s' st a b : 0 < count → count < W32 → widen turns body count s = Some s' →
  access_le (access s') acc → Forall2 within (stack s) st → R a b →
  same_run (stack s') (Rpn.count_body (Z.to_nat count) 0 (λ iter s, ga (iter :: s.1) s.2) (st, a))
    (Rpn.count_body (Z.to_nat count) 0 (λ iter s, gb (iter :: s.1) s.2) (st, b)).
Proof.
  intros H0 H32. revert s. induction turns as [|turns IH]; intros s Hs Hle Hst HR; cbn [widen] in Hs; [done|].
  destruct (body _) as [next|] eqn:E; cbn [mbind option_bind] in Hs; [|done].
  destruct (negb _) eqn:El; [done|]. apply negb_false_iff, bool_decide_eq_true in El.
  assert (∀ j st a b, 0 ≤ j < count → access_le (access next) acc → Forall2 within (stack s) st → R a b →
    same_run (stack next) (ga (f64_of_Z j :: st) a) (gb (f64_of_Z j :: st) b)) as Hbody.
  { intros j st' a' b' Hj Hle' Hst' HR'. apply (body_sound _ _ _ _ _ E); [done| |done].
    apply Forall2_cons. split; [by apply counter_within|done]. }
  destruct (Z.eqb_spec count 1) as [->|Hne].
  { injection Hs as <-. change (Z.to_nat 1) with 1%nat. cbn [Rpn.count_body fst snd].
    destruct (Hbody 0 st a b ltac:(lia) Hle Hst HR) as (st1 & a1 & b1 & -> & -> & ?). by exists st1, a1, b1. }
  destruct (existsb _ _) eqn:Ec.
  - apply (IH _ Hs); [done| |done]. by apply zip_widen_within.
  - injection Hs as <-. cbn [stack access with_stack] in *. destruct (stable_stack _ _ st Ec El) as [-> _].
    apply (iterations_sound _ _ _ count); [lia|lia| |done|done].
    intros j st' a' b' Hj Hst' HR'. destruct (Hbody j st' a' b' Hj Hle Hst' HR') as (st1 & a1 & b1 & Ea & Eb & HR1 & Hst1).
    exists st1, a1, b1. split; [done|]. split; [done|]. split; [done|]. by apply (stable_stack _ _ st1 Ec El).
Qed.
End body.

(** An analyzed program runs alike on both stores. *)
Lemma visit_sound k all depth s s' fuel st a b : visit ctx buffer k all depth s = Some s' → Forall Fragments.op_ok all →
  access_le (access s') acc → (length all ≤ fuel)%nat → Forall2 within (stack s) st → R a b →
  same_run (stack s') (dispatch_ops ctx fuel all st a) (dispatch_ops ctx fuel all st b).
Proof.
  revert all depth s s' fuel st a b. induction k as [|k IH]; intros all depth s s' fuel st a b Hs Hops Hle Hf Hst HR; cbn [visit] in Hs; [done|].
  destruct (32 <? depth); [done|]. destruct all as [|op rest].
  { injection Hs as <-. exists st, a, b. by destruct fuel. }
  destruct fuel as [|fuel]; [cbn in Hf; lia|]. apply Forall_cons in Hops as [Hop Hops].
  destruct (spend s) as [s1|] eqn:E1; cbn [mbind option_bind] in Hs; [|done].
  apply spend_spec in E1 as (Est & _ & _). rewrite <-Est in Hst. clear Est s. cbn [dispatch_ops length] in *.
  assert ((s2 ← abstract_step ctx buffer op s1; visit ctx buffer k rest depth (reserve s2 (length (stack s2)))) = Some s' →
    same_run (stack s') ('(st, a) ← dispatch_step ctx op st a; dispatch_ops ctx fuel rest st a)
      ('(st, b) ← dispatch_step ctx op st b; dispatch_ops ctx fuel rest st b)) as Hplain.
  { intros Hp. destruct (abstract_step ctx buffer op s1) as [s2|] eqn:E2; cbn [mbind option_bind] in Hp; [|done].
    destruct (abstract_step_sound op s1 s2 st a b E2 Hop) as (st1 & a1 & b1 & -> & -> & HR1 & Hst1); [|done..|].
    { pose proof (visit_le _ _ _ _ _ Hp) as Hle1. etrans; [exact (reserve_le s2 (length (stack s2)))|]. by etrans. }
    cbn [mbind option_bind]. by apply (IH _ _ _ _ _ _ _ _ Hp); try done; lia. }
  destruct op; try (by apply Hplain). clear Hplain. cbn [Fragments.op_ok] in Hop. destruct (_ <? body_len); [done|].
  assert (∃ s2, visit ctx buffer k (drop (Z.to_nat body_len) rest) depth s2 = Some s' ∧
    same_run (stack s2) (Rpn.count_body (Z.to_nat count) 0 (λ iter s, dispatch_ops ctx fuel (take (Z.to_nat body_len) rest) (iter :: s.1) s.2) (st, a))
      (Rpn.count_body (Z.to_nat count) 0 (λ iter s, dispatch_ops ctx fuel (take (Z.to_nat body_len) rest) (iter :: s.1) s.2) (st, b)))
    as (s2 & Hs2 & st1 & a1 & b1 & -> & -> & HR1 & Hst1).
  { destruct (Z.ltb_spec 0 count) as [Hc|Hc]; cbn [mbind option_bind] in Hs.
    - destruct (widen _ _ count s1) as [s2|] eqn:E2; cbn [mbind option_bind] in Hs; [|done]. exists s2. split; [done|].
      pose proof (visit_le _ _ _ _ _ Hs) as Hle2. destruct Hop as [[_ Hc32] _].
      eapply (widen_sound _ (dispatch_ops ctx fuel (take (Z.to_nat body_len) rest)) (dispatch_ops ctx fuel (take (Z.to_nat body_len) rest)));
        [|exact Hc|exact Hc32|exact E2|by etrans|done|done].
      intros t t' st' a' b' Ht Ht1 Ht2 Ht3. apply (IH _ _ _ _ _ _ _ _ Ht); try done; [by apply Forall_take|rewrite length_take; lia].
    - exists s1. split; [done|]. replace (Z.to_nat count) with O by lia. by exists st, a, b. }
  cbn [mbind option_bind]. apply (IH _ _ _ _ _ _ _ _ Hs2); try done; [by apply Forall_drop|rewrite length_drop; lia].
Qed.
End soundness.

(** ** Views and the buffer *)

Abbreviation chunk_of b k := (Partition.chunk (Buffer.slot_size b) (Buffer.data b) k).

Lemma chunk_lookup size data k j : Partition.chunk size data k !! j =
  if bool_decide (j < Z.to_nat size)%nat then data !! (k * Z.to_nat size + j)%nat else None.
Proof.
  unfold Partition.chunk. case_bool_decide as Hj.
  - by rewrite lookup_take_lt, lookup_drop by done.
  - apply lookup_take_ge. lia.
Qed.

(** Buffers of the same layout. *)
Record same_layout (b c : Buffer.ResultBuffer) : Prop := {
  layout_ok : buffer_ok b ∧ buffer_ok c;
  layout_slots : Buffer.n_slots b = Buffer.n_slots c;
  layout_size : Buffer.slot_size b = Buffer.slot_size c;
}.

Lemma same_layout_sym b c : same_layout b c → same_layout c b.
Proof. intros [[? ?] ? ?]. by split. Qed.

Lemma same_layout_trans b c d : same_layout b c → same_layout c d → same_layout b d.
Proof. intros [[? ?] ? ?] [[? ?] ? ?]. split; [done|congruence..]. Qed.

Lemma write_layout b c slot offset v : same_layout b c → same_layout (Buffer.write b slot offset v) c.
Proof. intros [[Hb Hc] Hn Hs]. destruct (write_ok b slot offset v Hb) as (? & ? & ?). split; [done|congruence..]. Qed.

Lemma read_chunk b base offset : buffer_ok b → u32 base → u32 offset →
  Buffer.read_indexed b base offset =
    if (base + offset <? W32) && (base + offset <? Buffer.len b)
    then default f64_nan (chunk_of b (Z.to_nat ((base + offset) / Buffer.slot_size b)) !! Z.to_nat ((base + offset) `mod` Buffer.slot_size b))
    else f64_nan.
Proof.
  intros [[Hs Hn] Hd _] [Hb _] [Ho _]. unfold Buffer.read_indexed, Rpn.checked_add_u32.
  destruct (base + offset <? W32); cbn [andb]; [|done]. destruct (Z.ltb_spec (base + offset) (Buffer.len b)) as [Hlt|Hge].
  - set (i := base + offset) in *. assert (0 < Buffer.slot_size b) as Hpos by (destruct (Z.eq_dec (Buffer.slot_size b) 0); nia).
    pose proof (Z.mod_pos_bound i _ Hpos). assert (0 ≤ i / Buffer.slot_size b) by (apply Z.div_pos; lia).
    rewrite chunk_lookup, bool_decide_true by lia. do 2 f_equal.
    rewrite (Z.div_mod i (Buffer.slot_size b)) at 1 by lia. rewrite Z2Nat.inj_add by nia. rewrite Z2Nat.inj_mul by lia. lia.
  - unfold Buffer.len in Hge. by rewrite (proj2 (lookup_ge_None _ _)) by lia.
Qed.

Lemma write_chunk b slot offset v k : buffer_ok b → u32 slot → u32 offset →
  chunk_of (Buffer.write b slot offset v) k =
    if bool_decide (k = Z.to_nat slot) && (slot <? Buffer.n_slots b) && (offset <? Buffer.slot_size b)
    then <[Z.to_nat offset := v]> (chunk_of b k) else chunk_of b k.
Proof.
  intros Hb [Hs0 _] [Ho0 _]. destruct (write_ok b slot offset v Hb) as (_ & _ & ->). unfold Buffer.write.
  destruct (Buffer.slot_index b slot offset) as [i|] eqn:Ei.
  - apply slot_index_Some in Ei as (Hslot & Hoff & ->); [|done..].
    rewrite (proj2 (Z.ltb_lt _ _) Hslot), (proj2 (Z.ltb_lt _ _) Hoff), !andb_true_r. cbn [Buffer.set Buffer.data].
    pose proof (buffer_data _ Hb) as Hd. unfold Buffer.len in Hd.
    replace (Z.to_nat (slot * Buffer.slot_size b + offset)) with (Z.to_nat slot * Z.to_nat (Buffer.slot_size b) + Z.to_nat offset)%nat by nia.
    assert (Z.to_nat slot * Z.to_nat (Buffer.slot_size b) + Z.to_nat offset < length (Buffer.data b))%nat as Hlt by nia.
    apply list_eq. intros j. rewrite chunk_lookup. case_bool_decide as Hj.
    + case_bool_decide as Hk.
      * subst k. destruct (decide (j = Z.to_nat offset)) as [->|Hne].
        -- rewrite !list_lookup_insert_eq; [done| |done]. unfold Partition.chunk. rewrite length_take, length_drop. lia.
        -- rewrite !list_lookup_insert_ne by lia. by rewrite chunk_lookup, bool_decide_true.
      * rewrite list_lookup_insert_ne; [by rewrite chunk_lookup, bool_decide_true|].
        destruct (Nat.lt_trichotomy k (Z.to_nat slot)) as [|[|]]; [nia|done|nia].
    + case_bool_decide; rewrite ?list_lookup_insert_ne by lia; by rewrite chunk_lookup, bool_decide_false.
  - destruct (bool_decide _ && _ && _) eqn:E; [|done].
    apply andb_true_iff in E as [[_ Hn%Z.ltb_lt]%andb_true_iff Ho%Z.ltb_lt].
    pose proof (proj2 (slot_index_Some b slot offset _ Hb Hs0 Ho0) (conj Hn (conj Ho eq_refl))). congruence.
Qed.

(** A buffer is its chunks. *)
Lemma concat_chunks b : buffer_ok b → concat ((λ k, chunk_of b k) <$> seq 0 (Z.to_nat (Buffer.n_slots b))) = Buffer.data b.
Proof.
  intros [[Hs Hn] Hd _]. unfold Buffer.len in Hd.
  assert (length (Buffer.data b) = Z.to_nat (Buffer.n_slots b) * Z.to_nat (Buffer.slot_size b))%nat as Hl by nia. clear Hd.
  generalize dependent (Buffer.data b). intros l. generalize (Z.to_nat (Buffer.n_slots b)) as n. intros n.
  revert l. induction n as [|n IH]; intros l Hl; [by destruct l|]. cbn [seq fmap list_fmap concat].
  rewrite <-seq_shift, <-list_fmap_compose. etrans; [|apply (take_drop (Z.to_nat (Buffer.slot_size b)))]. f_equal.
  rewrite <-(IH (drop (Z.to_nat (Buffer.slot_size b)) l)) by (rewrite length_drop; lia). f_equal. apply list_fmap_ext.
  intros _ k _. cbn [compose]. unfold Partition.chunk. rewrite drop_drop. do 2 f_equal; lia.
Qed.

(** What a worker's view and the buffer of the sequential execution share: the slots that
    the worker reads and writes; and the slots of the buffer it cannot change. *)
Record view_of (a : Access) (start : Buffer.ResultBuffer) (view : Partition.PartitionedBuffer) (b : Buffer.ResultBuffer) : Prop := {
  view_layout : same_layout b start;
  view_size : Partition.slot_size view = Buffer.slot_size b;
  view_slots : 0 < Buffer.slot_size b → Z.of_nat (length (Partition.slots view)) = Buffer.n_slots b;
  view_writes : 0 < Buffer.slot_size b → ∀ k, marked (writes a) k = true → Partition.slots view !! k = Some (Partition.Write (chunk_of b k));
  view_reads : 0 < Buffer.slot_size b → ∀ k, marked (reads a) k = true → marked (writes a) k = false →
    Partition.slots view !! k = Some (Partition.Read (chunk_of b k));
  view_frame : ∀ k, marked (writes a) k = false → chunk_of b k = chunk_of start k;
}.

Section view.
Context (buffer : Buffer.ResultBuffer) (a : Access) (start : Buffer.ResultBuffer).
Context (Hlay : same_layout start buffer).

Lemma view_read view b base offset : view_of a start view b → u32 base → u32 offset →
  (base + offset < W32 → base + offset < Buffer.len buffer →
    marked (reads a) (Z.to_nat ((base + offset) / Buffer.slot_size buffer)) = true) →
  Partition.read_indexed view base offset = Buffer.read_indexed b base offset.
Proof.
  intros [Hb Hsz Hsl Hvw Hvr _] Hbase Hoff Hm.
  destruct (same_layout_trans _ _ _ Hb Hlay) as [[Hokb _] Hns Hsize]. pose proof (buffer_data b Hokb) as Hd.
  pose proof (buffer_data _ (proj2 (layout_ok _ _ Hlay))) as Hd'.
  rewrite read_chunk by done. unfold Partition.read_indexed, Rpn.checked_add_u32.
  destruct (Z.ltb_spec (base + offset) W32) as [H32|]; [|done].
  cbn [andb]. rewrite Hsz. destruct (Z.eqb_spec (Buffer.slot_size b) 0) as [H0|H0].
  { rewrite (proj2 (Z.ltb_ge _ _)); [done|]. destruct Hbase, Hoff. nia. }
  assert (0 < Buffer.slot_size b) as Hpos by (destruct Hokb as [[? ?] _ _]; lia).
  set (k := Z.to_nat ((base + offset) / Buffer.slot_size b)) in *. destruct (Z.ltb_spec (base + offset) (Buffer.len b)) as [Hlt|Hge].
  - rewrite <-Hsize in Hm. assert (marked (reads a) k = true) as Hk by (apply Hm; [done|congruence]).
    destruct (marked (writes a) k) eqn:Hkw; [by rewrite (Hvw Hpos k Hkw)|by rewrite (Hvr Hpos k Hk Hkw)].
  - rewrite (proj2 (lookup_ge_None _ _)); [done|].
    assert (Buffer.n_slots b ≤ (base + offset) / Buffer.slot_size b) by (apply Z.div_le_lower_bound; lia). specialize (Hsl Hpos). lia.
Qed.

(** A write outside the layout changes nothing. *)
Lemma write_outside b slot offset v : (Buffer.slot_size b <=? offset) || (Buffer.n_slots b <=? slot) = true →
  Buffer.write b slot offset v = b.
Proof. intros Ho. unfold Buffer.write, Buffer.slot_index. by rewrite orb_comm, Ho. Qed.

Lemma view_write view b slot offset v : view_of a start view b → u32 slot → u32 offset →
  (slot < Buffer.n_slots buffer → marked (writes a) (Z.to_nat slot) = true) →
  ∃ view', Partition.write view slot offset v = Some view' ∧ view_of a start view' (Buffer.write b slot offset v).
Proof.
  intros Hview Hslot Hoff Hm. pose proof Hview as [Hb Hsz Hsl Hvw Hvr Hfr].
  pose proof (same_layout_trans _ _ _ Hb Hlay) as [[Hokb _] Hns _].
  unfold Partition.write. rewrite Hsz. destruct (Z.leb_spec (Buffer.slot_size b) offset) as [Hge|Hlt]; cbn [orb].
  { exists view. rewrite write_outside; [done|]. by rewrite (proj2 (Z.leb_le _ _) Hge). }
  assert (0 < Buffer.slot_size b) as Hpos by (destruct Hoff; lia). rewrite (Hsl Hpos).
  destruct (Z.leb_spec (Buffer.n_slots b) slot) as [Hge|Hlt'].
  { exists view. rewrite write_outside; [done|]. by rewrite (proj2 (Z.leb_le _ _) Hge), orb_true_r. }
  assert (marked (writes a) (Z.to_nat slot) = true) as Hk by (apply Hm; lia). rewrite (Hvw Hpos _ Hk).
  destruct (write_ok b slot offset v Hokb) as (_ & Hn' & Hs'). pose proof (write_layout b start slot offset v Hb) as Hb'.
  pose proof (λ k, write_chunk b slot offset v k Hokb Hslot Hoff) as Hch.
  rewrite (proj2 (Z.ltb_lt _ _) Hlt), (proj2 (Z.ltb_lt _ _) Hlt') in Hch. rewrite <-Hs', <-Hn' in *.
  eexists. split; [reflexivity|]. split; cbn [Partition.slots Partition.slot_size]; [done|done| | | |].
  - intros _. rewrite length_insert. by apply Hsl.
  - intros _ k Hkk. rewrite Hch. case_bool_decide as He; cbn [andb].
    + subst k. rewrite list_lookup_insert_eq; [done|]. specialize (Hsl Hpos). destruct Hslot. lia.
    + rewrite list_lookup_insert_ne by done. by apply Hvw.
  - intros _ k Hkr Hkw. rewrite Hch. case_bool_decide as He; cbn [andb]; [congruence|].
    rewrite list_lookup_insert_ne by done. by apply Hvr.
  - intros k Hkw. rewrite Hch. case_bool_decide as He; cbn [andb]; [congruence|]. by apply Hfr.
Qed.

Lemma view_agreement : Z.of_nat (length (reads a)) = Buffer.n_slots buffer →
  Z.of_nat (length (writes a)) = Buffer.n_slots buffer → agreement buffer a (view_of a start).
Proof.
  intros Hr Hw. split; [apply Hlay|done|by apply view_read|].
  intros view b slot offset v Hview Hslot Hoff Hm. destruct (view_write view b slot offset v) as (view' & E & Hv'); [done..|].
  by exists view', (Buffer.write b slot offset v).
Qed.
End view.

(** ** Owners *)

Lemma own_slots_ok worker owners ws k : (∀ i, marked ws i = true → owners !! (k + i)%nat = Some None) →
  ∃ owners', own_slots worker (Some owners) k ws = Some owners' ∧ length owners' = length owners ∧
    ∀ i, owners' !! i = if (k <=? i)%nat && marked ws (i - k) then Some (Some worker) else owners !! i.
Proof.
  revert k owners. induction ws as [|w ws IH]; intros k owners Hfree; cbn [own_slots].
  { exists owners. split; [done|]. split; [done|]. intros i. unfold marked. cbn. by rewrite andb_false_r. }
  assert (∃ owners1, own_slot worker (Some owners) k w = Some owners1 ∧ length owners1 = length owners ∧
    ∀ i, owners1 !! i = if bool_decide (i = k) && w then Some (Some worker) else owners !! i) as (owners1 & -> & Hl1 & H1).
  { cbn [own_slot mbind option_bind]. destruct w.
    - pose proof (Hfree 0%nat eq_refl) as Hk. rewrite Nat.add_0_r in Hk. rewrite Hk. eexists. split; [done|].
      rewrite length_insert. split; [done|]. intros i. rewrite andb_true_r. case_bool_decide as He.
      + subst i. apply list_lookup_insert_eq. by apply lookup_lt_Some in Hk.
      + by apply list_lookup_insert_ne.
    - exists owners. split; [done|]. split; [done|]. intros i. by rewrite andb_false_r. }
  destruct (IH (S k) owners1) as (owners' & -> & Hl' & H').
  { intros i Hi. rewrite H1, bool_decide_false by lia. rewrite <-(Hfree (S i) Hi). cbn [andb]. f_equal. lia. }
  exists owners'. split; [done|]. split; [congruence|]. intros i. rewrite H', H1.
  destruct (Nat.lt_trichotomy i k) as [Hlt|[->|Hgt]].
  - rewrite bool_decide_false, !(proj2 (Nat.leb_gt _ _)) by lia. done.
  - rewrite bool_decide_true, (proj2 (Nat.leb_gt _ _)), Nat.leb_refl, Nat.sub_diag by lia. unfold marked. cbn. by destruct w.
  - rewrite bool_decide_false, !(proj2 (Nat.leb_le _ _)) by lia. cbn [andb].
    replace (i - k)%nat with (S (i - S k)) by lia. done.
Qed.

(** Accesses that may run at the same time. *)
Definition independent (accs : list Access) : Prop :=
  ∀ i j a b, (i < j)%nat → accs !! i = Some a → accs !! j = Some b → conflicts a b = false.

Definition sized (n : nat) (a : Access) : Prop := length (reads a) = n ∧ length (writes a) = n.

Lemma conflicts_false n a b : sized n a → sized n b → conflicts a b = false →
  ∀ k, (marked (writes a) k = true → marked (reads b) k = false ∧ marked (writes b) k = false) ∧
       (marked (reads a) k = true → marked (writes b) k = false).
Proof.
  intros [Ha Ha'] [Hb Hb'] Hc k. unfold conflicts in Hc. destruct (decide (k < n)%nat) as [Hk|Hk].
  - assert ((marked (writes a) k && (marked (reads b) k || marked (writes b) k)) || (marked (reads a) k && marked (writes b) k) = false) as Hf.
    { apply not_true_iff_false. intros Ht. apply not_true_iff_false in Hc. apply Hc. apply existsb_exists. exists k.
      split; [apply in_seq; lia|done]. }
    by destruct (marked (writes a) k), (marked (reads b) k), (marked (writes b) k), (marked (reads a) k).
  - unfold marked. by rewrite !(proj2 (lookup_ge_None _ _)) by lia.
Qed.

(** The workers from [worker] that write a slot. *)
Definition owned_by (accs : list Access) (worker : nat) (owners : list (option nat)) : Prop :=
  ∀ k j a, accs !! j = Some a → marked (writes a) k = true → owners !! k = Some (Some (worker + j)%nat).

Lemma own_all_ok n worker owners accs : Forall (sized n) accs → independent accs → length owners = n →
  (∀ k a, a ∈ accs → marked (writes a) k = true → owners !! k = Some None) →
  ∃ owners', own_all worker (Some owners) accs = Some owners' ∧ length owners' = n ∧ owned_by accs worker owners' ∧
    ∀ k, (∀ a, a ∈ accs → marked (writes a) k = false) → owners' !! k = owners !! k.
Proof.
  revert worker owners. induction accs as [|a accs IH]; intros worker owners Hn Hind Hl Hfree; cbn [own_all].
  { exists owners. split; [done|]. split; [done|]. split; [|done]. intros k j b Hj. by rewrite lookup_nil in Hj. }
  apply Forall_cons in Hn as [Ha Hn].
  destruct (own_slots_ok worker owners (writes a) 0) as (owners1 & -> & Hl1 & H1).
  { intros i Hi. apply (Hfree i a); [by left|done]. }
  assert (∀ k b, b ∈ accs → marked (writes b) k = true → marked (writes a) k = false) as Hdisj.
  { intros k b Hb Hw. apply list_elem_of_lookup_1 in Hb as [j Hj]. pose proof (proj1 (Forall_lookup _ _) Hn _ _ Hj) as Hbn.
    pose proof (conflicts_false n a b Ha Hbn (Hind 0%nat (S j) a b ltac:(lia) eq_refl Hj) k) as [Hc _].
    destruct (marked (writes a) k); [|done]. by destruct Hc as [_ Hc]; [|congruence]. }
  destruct (IH (S worker) owners1 Hn) as (owners' & -> & Hl' & Hown & Hrest).
  { intros i j b c Hij Hb Hc. by apply (Hind (S i) (S j)); [lia|..]. }
  { congruence. }
  { intros k b Hb Hw. rewrite H1. cbn [Nat.leb andb]. rewrite Nat.sub_0_r, (Hdisj k b Hb Hw).
    apply (Hfree k b); [by right|done]. }
  exists owners'. split; [done|]. split; [done|]. split.
  - intros k j b Hj Hw. destruct j as [|j]; cbn in Hj.
    + injection Hj as <-. rewrite Hrest, H1.
      * cbn [Nat.leb andb]. by rewrite Nat.sub_0_r, Hw, Nat.add_0_r.
      * intros c Hc. destruct (marked (writes c) k) eqn:E; [|done]. by rewrite (Hdisj k c Hc E) in Hw.
    + rewrite (Hown k j b Hj Hw). do 2 f_equal. lia.
  - intros k Hk. rewrite Hrest, H1.
    + cbn [Nat.leb andb]. rewrite Nat.sub_0_r, (Hk a); [done|by left].
    + intros b Hb. apply Hk. by right.
Qed.

(** ** Waves *)

Section waves.
Context `{LM : Libm} (ctx : EvalContext) (analyzed : Buffer.ResultBuffer).

(** A fragment and its access. *)
Definition has_access (f : OperationFragment) (a : Access) : Prop :=
  analyze_fragment (context f ctx) analyzed (Fragments.ops (fragment f)) = Some a ∧
  Forall Fragments.op_ok (Fragments.ops (fragment f)).

Lemma has_access_sized f a : has_access f a → sized (Z.to_nat (Buffer.n_slots analyzed)) a.
Proof.
  intros [Ha _]. unfold analyze_fragment in Ha. destruct (_ <=? _); [done|].
  destruct (visit _ _ _ _ _ _) as [s|] eqn:E; cbn [mbind option_bind] in Ha; [|done].
  case_bool_decide; [|done]. injection Ha as <-. apply visit_le in E as [_ _ [H1 H2]]. cbn [access reads writes] in H1, H2.
  rewrite length_replicate in H1, H2. by split.
Qed.

Lemma has_access_run {A B} `{ResultStore A} `{ResultStore B} f a R (x : A) (y : B) : has_access f a → agreement analyzed a R → R x y →
  ∃ x' y', dispatch (context f ctx) (Fragments.ops (fragment f)) [] x = Some ([], x') ∧
    dispatch (context f ctx) (Fragments.ops (fragment f)) [] y = Some ([], y') ∧ R x' y'.
Proof.
  intros [Ha Hops] Hag HR. unfold analyze_fragment in Ha. destruct (_ <=? _); [done|].
  destruct (visit _ _ _ _ _ _) as [s|] eqn:E; cbn [mbind option_bind] in Ha; [|done].
  case_bool_decide as Hs; [|done]. injection Ha as <-. unfold dispatch.
  destruct (visit_sound (context f ctx) analyzed (access s) R Hag _ _ _ _ _ (length (Fragments.ops (fragment f))) [] x y E Hops)
    as (st & x' & y' & -> & -> & HR' & Hst); [done..|].
  rewrite Hs in Hst. apply Forall2_nil_inv_l in Hst as ->. by exists x', y'.
Qed.

(** One fragment on the buffer itself. *)
Lemma has_access_total f a b : has_access f a → same_layout b analyzed →
  ∃ b', dispatch (context f ctx) (Fragments.ops (fragment f)) [] b = Some ([], b') ∧ same_layout b' analyzed.
Proof.
  intros Ha Hb. destruct (has_access_sized f a Ha) as [Hr Hw]. destruct (proj2 (layout_ok _ _ Hb)) as [[_ Hn] _ _].
  destruct (has_access_run f a (λ x y, x = y ∧ same_layout x analyzed) b b Ha) as (b' & _ & -> & _ & _ & Hb'); [|done|by exists b'].
  split; [apply Hb|lia| |].
  - by intros x y base offset [-> _].
  - intros x y slot offset v [-> Hy] _ _ _. do 2 eexists. split; [done|]. split; [done|]. split; [done|]. by apply write_layout.
Qed.

Lemma partition_view buf owners worker a start : same_layout start buf →
  length owners = Z.to_nat (Buffer.n_slots buf) →
  (∀ k, marked (writes a) k = true → owners !! k = Some (Some worker)) →
  (∀ k, marked (reads a) k = true → marked (writes a) k = false → owners !! k = Some None) →
  (∀ k, marked (reads a) k = true ∨ marked (writes a) k = true → chunk_of start k = chunk_of buf k) →
  ∃ view, Partition.partition buf owners worker = Some view ∧ view_of a start view start.
Proof.
  intros Hlay Hl Hw Hr Hsame. pose proof Hlay as [[Hs Hb] Hns Hsz]. pose proof (buffer_sizes _ Hb). unfold Partition.partition.
  rewrite bool_decide_true by lia. cbn [negb]. destruct (Z.eqb_spec (Buffer.slot_size buf) 0) as [H0|H0].
  { eexists. split; [done|]. split; cbn [Partition.slots Partition.slot_size]; try done; lia. }
  eexists. split; [done|]. split; cbn [Partition.slots Partition.slot_size]; try done.
  - intros _. rewrite length_imap. lia.
  - intros _ k Hk. rewrite list_lookup_imap, (Hw k Hk), (Hsame k) by auto. cbn [fmap option_fmap option_map Partition.view_slot].
    by rewrite bool_decide_true by done.
  - intros _ k Hk Hkw. rewrite list_lookup_imap, (Hr k Hk Hkw), (Hsame k) by auto. cbn [fmap option_fmap option_map Partition.view_slot].
    done.
Qed.

Definition touches (a : Access) (k : nat) : Prop := marked (reads a) k = true ∨ marked (writes a) k = true.

Lemma independent_tail a accs : independent (a :: accs) → independent accs.
Proof. intros Hi i j b c Hij Hb Hc. by apply (Hi (S i) (S j)); [lia|..]. Qed.

(** Later accesses do not touch what the first one writes. *)
Lemma independent_head n a accs k b : Forall (sized n) (a :: accs) → independent (a :: accs) → b ∈ accs → touches b k → marked (writes a) k = false.
Proof.
  intros Hn Hi Hb Hk. apply list_elem_of_lookup_1 in Hb as [j Hj]. apply Forall_cons in Hn as [Ha Hn].
  pose proof (conflicts_false n a b Ha (proj1 (Forall_lookup _ _) Hn _ _ Hj) (Hi 0%nat (S j) a b ltac:(lia) eq_refl Hj) k) as [Hc _].
  destruct (marked (writes a) k); [|done]. destruct Hc as [Hc1 Hc2]; [done|]. destruct Hk; congruence.
Qed.

Lemma workers_run fs accs worker buf owners b : Forall2 has_access fs accs → independent accs →
  same_layout b buf → same_layout buf analyzed → length owners = Z.to_nat (Buffer.n_slots buf) →
  owned_by accs worker owners →
  (∀ k a, a ∈ accs → marked (reads a) k = true → marked (writes a) k = false → owners !! k = Some None) →
  (∀ k a, a ∈ accs → touches a k → chunk_of b k = chunk_of buf k) →
  ∃ views b', run_workers ctx buf owners worker fs = Some views ∧
    execute_fragments_sequential ctx fs [] b = Some ([], b') ∧ same_layout b' buf ∧
    (0 < Buffer.slot_size buf → ∀ k j a, accs !! j = Some a → marked (writes a) k = true →
      ∃ view, views !! j = Some view ∧ Partition.slots view !! k = Some (Partition.Write (chunk_of b' k))) ∧
    ∀ k, (∀ a, a ∈ accs → marked (writes a) k = false) → chunk_of b' k = chunk_of b k.
Proof.
  intros Hfs. revert worker b. induction Hfs as [|f a fs accs Hf Hfs IH]; intros worker b Hind Hb Hbuf Hl Hown Hreads Hfresh.
  { exists [], b. split; [done|]. split; [done|]. split; [done|]. split; [|done]. intros _ k j a Hj. by rewrite lookup_nil in Hj. }
  assert (Forall (sized (Z.to_nat (Buffer.n_slots analyzed))) (a :: accs)) as Hn.
  { apply Forall_cons. split; [by eapply has_access_sized|]. apply Forall_forall. intros c Hc.
    apply list_elem_of_lookup_1 in Hc as [j Hj]. destruct (Forall2_lookup_r _ _ _ _ _ Hfs Hj) as (g & _ & Hg). by eapply has_access_sized. }
  destruct (partition_view buf owners worker a b) as (view & Ev & Hview); [done|done| | | |].
  { intros k Hk. rewrite (Hown k 0%nat a eq_refl Hk). by rewrite Nat.add_0_r. }
  { intros k Hk Hkw. apply (Hreads k a); [by left|done..]. }
  { intros k Hk. by apply (Hfresh k a); [left|]. }
  pose proof (proj1 (proj1 (Forall_cons _ _ _) Hn)) as [Har Haw]. destruct (proj2 (layout_ok _ _ Hbuf)) as [[_ Hns] _ _].
  destruct (has_access_run f a (view_of a b) view b Hf) as (view1 & b1 & E1 & E2 & Hview1).
  { apply view_agreement; [by eapply same_layout_trans|lia..]. } { done. }
  pose proof Hview1 as [Hlay1 _ _ Hw1 _ Hfr1].
  destruct (IH (S worker) b1 (independent_tail _ _ Hind)) as (views & b' & Er & Es & Hlay' & Hw' & Hfr'); [|done|done| | | |].
  { by eapply same_layout_trans. }
  { intros k j c Hj Hc. rewrite (Hown k (S j) c Hj Hc). do 2 f_equal. lia. }
  { intros k c Hc. apply Hreads. by right. }
  { intros k c Hc Hk. rewrite Hfr1; [by apply (Hfresh k c); [right|]|]. by eapply independent_head. }
  exists (view1 :: views), b'. cbn [run_workers execute_fragments_sequential]. unfold run_worker. rewrite Ev. cbn [mbind option_bind].
  rewrite E1, E2. cbn [mbind option_bind]. rewrite Er. split; [done|]. split; [done|]. split; [done|]. split.
  - intros Hpos k j c Hj Hc. destruct j as [|j]; cbn [lookup list_lookup] in Hj |- *; [|by apply (Hw' Hpos k j c)].
    injection Hj as <-. exists view1. split; [done|]. rewrite Hw1; [|by rewrite (layout_size _ _ (same_layout_trans _ _ _ Hlay1 Hb))|done].
    rewrite Hfr'; [done|]. intros d Hd. destruct (marked (writes d) k) eqn:E; [|done].
    rewrite (independent_head _ _ _ k d Hn Hind Hd) in Hc; [done|by right].
  - intros k Hk. rewrite Hfr'; [apply Hfr1|]; [by apply Hk; left|]. intros d Hd. apply Hk. by right.
Qed.

Lemma all_sized fs accs : Forall2 has_access fs accs → Forall (sized (Z.to_nat (Buffer.n_slots analyzed))) accs.
Proof.
  intros Hfs. apply Forall_forall. intros c Hc. apply list_elem_of_lookup_1 in Hc as [j Hj].
  destruct (Forall2_lookup_r _ _ _ _ _ Hfs Hj) as (g & _ & Hg). by eapply has_access_sized.
Qed.

(** The views of a wave give the buffer back as the sequential execution leaves it. *)
Lemma given_back_data fs accs buf owners views b : Forall2 has_access fs accs → same_layout b buf →
  length owners = Z.to_nat (Buffer.n_slots buf) → owned_by accs 0 owners →
  (∀ k, (k < length owners)%nat → (∀ a, a ∈ accs → marked (writes a) k = false) → owners !! k = Some None ∧ chunk_of b k = chunk_of buf k) →
  (0 < Buffer.slot_size buf → ∀ k j a, accs !! j = Some a → marked (writes a) k = true →
    ∃ view, views !! j = Some view ∧ Partition.slots view !! k = Some (Partition.Write (chunk_of b k))) →
  Partition.given_back buf owners views = b.
Proof.
  intros Hfs Hlay Hl Hown Hfree Hviews. pose proof Hlay as [[Hb Hbuf] Hns Hsz]. unfold Partition.given_back.
  pose proof (buffer_sizes _ Hbuf). pose proof (buffer_data _ Hb) as Hd. pose proof (buffer_data _ Hbuf) as Hd'. unfold Buffer.len in *.
  assert (∀ d, d = Buffer.data b → Buffer.mkBuffer d (Buffer.slot_size buf) (Buffer.n_slots buf) = b) as Heq.
  { intros d ->. destruct b. cbn in *. by subst. }
  apply Heq. clear Heq. destruct (Z.eqb_spec (Buffer.slot_size buf) 0) as [H0|H0].
  { assert (length (Buffer.data b) = 0%nat) as Hlb by nia. assert (length (Buffer.data buf) = 0%nat) as Hlb' by nia.
    apply nil_length_inv in Hlb, Hlb'. congruence. }
  rewrite <-(concat_chunks b) by done. f_equal. apply list_eq. intros k. rewrite list_lookup_imap, list_lookup_fmap.
  destruct (decide (k < length owners)%nat) as [Hk|Hk].
  - rewrite lookup_seq_lt by lia. cbn [Nat.add fmap option_fmap option_map].
    destruct (decide (Exists (λ a, marked (writes a) k = true) accs)) as [He|He].
    + apply Exists_exists in He as (a & Ha & Hw). apply list_elem_of_lookup_1 in Ha as [j Hj].
      rewrite (Hown k j a Hj Hw). cbn [fmap option_fmap option_map mbind option_bind Nat.add].
      destruct (Hviews ltac:(lia) k j a Hj Hw) as (view & -> & Hv). cbn [mbind option_bind]. by rewrite Hv.
    + destruct (Hfree k Hk) as [-> Hc].
      { intros a Ha. apply not_true_iff_false. intros Hw. apply He. apply Exists_exists. by exists a. }
      cbn [fmap option_fmap option_map mbind option_bind]. by rewrite Hc.
  - rewrite !(proj2 (lookup_ge_None _ _)); [done|rewrite length_seq; lia|lia].
Qed.

Lemma wave_run fs accs buf : Forall2 has_access fs accs → independent accs → same_layout buf analyzed →
  ∃ b, run_wave ctx fs accs buf = Some b ∧ execute_fragments_sequential ctx fs [] buf = Some ([], b) ∧ same_layout b analyzed.
Proof.
  intros Hfs Hind Hbuf. pose proof (all_sized _ _ Hfs) as Hn. pose proof Hbuf as [[Hb _] Hns _]. unfold run_wave.
  destruct (own_all_ok (Z.to_nat (Buffer.n_slots buf)) 0 (replicate (Z.to_nat (Buffer.n_slots buf)) None) accs)
    as (owners & -> & Hl & Hown & Hfree).
  { by rewrite Hns. } { done. } { apply length_replicate. }
  { intros k a Ha Hw. apply lookup_replicate. split; [done|]. destruct (proj1 (Forall_forall _ _) Hn a Ha) as [_ Hs].
    unfold marked in Hw. destruct (writes a !! k) eqn:E; [|done]. apply lookup_lt_Some in E. rewrite Hns. lia. }
  cbn [mbind option_bind].
  assert (∀ k, (k < length owners)%nat → (∀ a, a ∈ accs → marked (writes a) k = false) → owners !! k = Some None) as Hnone.
  { intros k Hk Hw. rewrite Hfree by done. apply lookup_replicate. split; [done|lia]. }
  destruct (workers_run fs accs 0 buf owners buf Hfs Hind) as (views & b & -> & Es & Hlay & Hviews & Hsame); try done.
  { intros k a Ha Hr Hw. apply Hnone.
    - destruct (proj1 (Forall_forall _ _) Hn a Ha) as [Hs _]. unfold marked in Hr. destruct (reads a !! k) eqn:E; [|done].
      apply lookup_lt_Some in E. rewrite Hl, Hns. lia.
    - intros c Hc. apply not_true_iff_false. intros Hcw. apply list_elem_of_lookup_1 in Ha as [i Hi], Hc as [j Hj].
      pose proof (proj1 (Forall_lookup _ _) Hn _ _ Hi) as Hsa. pose proof (proj1 (Forall_lookup _ _) Hn _ _ Hj) as Hsc.
      destruct (Nat.lt_trichotomy i j) as [Hij|[->|Hij]].
      + destruct (conflicts_false _ a c Hsa Hsc (Hind i j a c Hij Hi Hj) k) as [_ Hcf]. specialize (Hcf Hr). congruence.
      + congruence.
      + destruct (conflicts_false _ c a Hsc Hsa (Hind j i c a Hij Hj Hi) k) as [Hcf _]. destruct (Hcf Hcw). congruence. }
  cbn [mbind option_bind]. exists b. split; [|split; [done|by eapply same_layout_trans]]. f_equal.
  apply (given_back_data fs accs); try done. intros k Hk Hw. split; [by apply Hnone|by apply Hsame].
Qed.

Lemma sequential_app fs gs st b : execute_fragments_sequential ctx (fs ++ gs) st b =
  '(st, b) ← execute_fragments_sequential ctx fs st b; execute_fragments_sequential ctx gs st b.
Proof.
  revert st b. induction fs as [|f fs IH]; intros st b; cbn [app execute_fragments_sequential]; [done|].
  destruct (dispatch _ _ st b) as [[st1 b1]|]; cbn [mbind option_bind]; [apply IH|done].
Qed.

Definition no_conflicts (accs : list Access) (start last : nat) : Prop :=
  ∀ i j a b, (start ≤ i < j)%nat → (j < last)%nat → accs !! i = Some a → accs !! j = Some b → conflicts a b = false.

Lemma no_conflicts_extend accs cores start last : no_conflicts accs start last → (start < last)%nat →
  ends_wave accs cores start last = false → no_conflicts accs start (S last) ∧ (last ≠ length accs).
Proof.
  intros Hno Hlt He. unfold ends_wave in He. apply orb_false_iff in He as [[He _]%orb_false_iff Hc].
  apply bool_decide_eq_false in He. split; [|done]. intros i j a b Hij Hj Ha Hb.
  destruct (decide (j = last)) as [->|Hne]; [|apply (Hno i j); by lia || done].
  apply not_true_iff_false. intros Ht. apply not_true_iff_false in Hc. apply Hc. apply existsb_exists. exists a.
  rewrite Hb. split; [|done]. apply list_elem_of_In. apply (list_elem_of_lookup_2 _ (i - start)).
  rewrite lookup_take_lt, lookup_drop by lia. rewrite <-Ha. f_equal. lia.
Qed.

Lemma slice_lookup {A} (l : list A) start last i x : slice l (start, last) !! i = Some x → (i < last - start)%nat ∧ l !! (start + i)%nat = Some x.
Proof.
  unfold slice. cbn [fst snd]. intros Hi. pose proof (lookup_lt_Some _ _ _ Hi) as Hlt. rewrite length_take in Hlt.
  rewrite lookup_take_lt, lookup_drop in Hi by lia. split; [lia|done].
Qed.

Lemma execute_slice fs accs start last buf : Forall2 has_access fs accs → no_conflicts accs start last → same_layout buf analyzed →
  ∃ b, match slice fs (start, last) with
       | [f] => dispatch (context f ctx) (Fragments.ops (fragment f)) [] buf
       | wave => buffer ← run_wave ctx wave (slice accs (start, last)) buf; Some ([], buffer)
       end = Some ([], b) ∧
    execute_fragments_sequential ctx (slice fs (start, last)) [] buf = Some ([], b) ∧ same_layout b analyzed.
Proof.
  intros Hfs Hno Hbuf. assert (Forall2 has_access (slice fs (start, last)) (slice accs (start, last))) as Hslice.
  { apply Forall2_take, Forall2_drop, Hfs. }
  assert (independent (slice accs (start, last))) as Hind.
  { intros i j a b Hij [? Ha]%slice_lookup [? Hb]%slice_lookup. apply (Hno (start + i)%nat (start + j)%nat); by lia || done. }
  destruct (wave_run _ _ buf Hslice Hind Hbuf) as (b & Ew & Es & Hb). exists b. split; [|done].
  destruct (slice fs (start, last)) as [|f [|g wave]]; [by rewrite Ew| |by rewrite Ew].
  cbn [execute_fragments_sequential] in Es. destruct (dispatch _ _ [] buf) as [[st1 b1]|]; [exact Es|done].
Qed.

Lemma waves_run fs accs cores m start buf next : Forall2 has_access fs accs → (next + m = S (length accs))%nat → (start < next)%nat →
  (m = 0 → start = length accs)%nat → no_conflicts accs start next → same_layout buf analyzed →
  ∃ b, execute_waves ctx fs accs (waves_from accs cores start (seq next m)) [] buf = Some ([], b) ∧
    execute_fragments_sequential ctx (drop start fs) [] buf = Some ([], b) ∧ same_layout b analyzed.
Proof.
  intros Hfs. pose proof (Forall2_length _ _ _ Hfs) as Hl. revert start buf next.
  induction m as [|m IH]; intros start buf next Hm Hlt Hend Hno Hbuf; cbn [seq waves_from].
  { exists buf. rewrite drop_ge by (rewrite Hl, Hend; lia). done. }
  destruct (ends_wave accs cores start next) eqn:E.
  - destruct (execute_slice fs accs start next buf Hfs) as (b1 & Ew & Es & Hb1); [|done|].
    { intros i j a b Hij Hj. by apply Hno. }
    destruct (IH next b1 (S next)) as (b2 & Ew2 & Es2 & Hb2); [lia|lia|lia| |done|].
    { intros i j a b Hij Hj. lia. }
    exists b2. cbn [execute_waves]. rewrite Ew. cbn [mbind option_bind]. split; [done|]. split; [|done].
    replace (drop start fs) with (slice fs (start, next) ++ drop next fs).
    { rewrite sequential_app, Es. exact Es2. }
    unfold slice. cbn [fst snd]. rewrite <-(take_drop (next - start) (drop start fs)) at 2. rewrite drop_drop. do 2 f_equal. lia.
  - apply no_conflicts_extend in E as [Hno' Hne]; [|done|done]. apply IH; [lia|lia|lia|done|done].
Qed.
End waves.

(** ** Termination of the analysis *)

Definition knowns (s : list IndexRange) : nat := length (filter (λ r, r ≠ Unknown) s).

Lemma knowns_le s : (knowns s ≤ length s)%nat.
Proof. apply length_filter. Qed.

Lemma widen_value_cases old new :
  changes old new = true ∧ widen_value old new = Unknown ∧ old ≠ Unknown ∨ changes old new = false ∧ widen_value old new = old.
Proof. unfold changes, widen_value. case_bool_decide as Hc; [left|by right]. by destruct Hc. Qed.

(** A turn that changes the stack makes a position unknown. *)
Lemma widen_decreases olds news : existsb (λ p, changes p.1 p.2) (zip olds news) = true → length news = length olds →
  (knowns (zip_with widen_value olds news) < knowns olds)%nat.
Proof.
  assert (∀ olds news, length news = length olds → (knowns (zip_with widen_value olds news) ≤ knowns olds)%nat) as Hle.
  { clear. unfold knowns. induction olds as [|old olds IH]; intros [|new news] Hl; try done. cbn [zip_with]. specialize (IH news ltac:(cbn in Hl; lia)).
    rewrite !filter_cons. destruct (widen_value_cases old new) as [(_ & -> & Hc)|[_ ->]]; [|destruct (decide (old ≠ Unknown)); cbn [length]; lia].
    rewrite decide_False by auto. rewrite decide_True by done. cbn [length]. lia. }
  revert news. induction olds as [|old olds IH]; intros [|new news] Hc Hl; try done. cbn [zip zip_with existsb fst snd] in Hc |- *.
  specialize (Hle olds news ltac:(cbn in Hl; lia)). specialize (IH news). cbn in Hl. unfold knowns in *. rewrite !filter_cons.
  destruct (widen_value_cases old new) as [(_ & -> & Hch)|[Hch ->]]; [|rewrite Hch in Hc; cbn [orb] in Hc].
  - rewrite decide_False by auto. rewrite decide_True by done. cbn [length]. lia.
  - specialize (IH Hc ltac:(lia)). destruct (decide (old ≠ Unknown)); cbn [length]; lia.
Qed.

Lemma widen_more turns n body count s : (knowns (stack s) < turns)%nat → widen (turns + n) body count s = widen turns body count s.
Proof.
  revert s. induction turns as [|turns IH]; intros s Hk; [lia|]. cbn [widen Nat.add].
  destruct (body _) as [next|]; cbn [mbind option_bind]; [|done]. destruct (negb _) eqn:El; [done|].
  apply negb_false_iff, bool_decide_eq_true in El. destruct (count =? 1); [done|].
  destruct (existsb _ _) eqn:Ec; [|done]. apply IH. cbn [stack with_stack]. pose proof (widen_decreases _ _ Ec El). lia.
Qed.

Lemma widen_ext turns body body' count s : (∀ t, fuel t ≤ fuel s → body t = body' t) →
  (∀ t t', body t = Some t' → fuel t' ≤ fuel t) → widen turns body count s = widen turns body' count s.
Proof.
  intros Heq Hle. revert s Heq. induction turns as [|turns IH]; intros s Heq; cbn [widen]; [done|]. rewrite <-Heq by done.
  destruct (body _) as [next|] eqn:E; cbn [mbind option_bind]; [|done]. apply Hle in E. cbn in E.
  destruct (negb _); [done|]. destruct (count =? 1); [done|]. destruct (existsb _ _); [|done]. apply IH.
  intros t Ht. cbn in Ht. apply Heq. lia.
Qed.

Lemma widen_fuel turns body count s s' : (∀ t t', body t = Some t' → fuel t' ≤ fuel t) →
  widen turns body count s = Some s' → fuel s' ≤ fuel s.
Proof.
  intros Hle. revert s. induction turns as [|turns IH]; intros s Hs; cbn [widen] in Hs; [done|].
  destruct (body _) as [next|] eqn:E; cbn [mbind option_bind] in Hs; [|done]. apply Hle in E. cbn in E.
  destruct (negb _); [done|]. destruct (count =? 1); [by injection Hs as <-|].
  destruct (existsb _ _); [|by injection Hs as <-]. apply IH in Hs. cbn in Hs. lia.
Qed.

Lemma abstract_step_fuel ctx buffer op s s' : abstract_step ctx buffer op s = Some s' → fuel s' = fuel s.
Proof.
  destruct s as [st acc k]. intros Hs. destruct op; cbn [abstract_step stack] in Hs;
    try (destruct st as [|? [|? st]]; by simplify_eq/=).
  destruct (checked_sub _ _); cbn in Hs; [|done]. destruct (reverse st !! _); cbn in Hs; [|done]. by injection Hs as <-.
Qed.

Lemma visit_fuel ctx buffer k all depth s s' : visit ctx buffer k all depth s = Some s' → fuel s' ≤ fuel s.
Proof.
  revert all depth s s'. induction k as [|k IH]; intros all depth s s' Hs; cbn [visit] in Hs; [done|].
  destruct (32 <? depth); [done|]. destruct all as [|op rest]; [by injection Hs as <-|].
  destruct (spend s) as [s1|] eqn:E1; cbn [mbind option_bind] in Hs; [|done]. apply spend_spec in E1 as (_ & _ & E1 & _).
  assert ((s2 ← abstract_step ctx buffer op s1; visit ctx buffer k rest depth (reserve s2 (length (stack s2)))) = Some s' →
    fuel s' ≤ fuel s) as Hplain.
  { intros Hp. destruct (abstract_step ctx buffer op s1) as [s2|] eqn:E2; cbn [mbind option_bind] in Hp; [|done].
    apply abstract_step_fuel in E2. apply IH in Hp. cbn in Hp. lia. }
  destruct op; try (by apply Hplain). clear Hplain. destruct (_ <? body_len); [done|].
  destruct (0 <? count); cbn [mbind option_bind] in Hs; [|apply IH in Hs; lia].
  destruct (widen _ _ count s1) as [s2|] eqn:E2; cbn [mbind option_bind] in Hs; [|done].
  apply widen_fuel in E2; [apply IH in Hs; lia|]. intros t t' Ht. by apply IH in Ht.
Qed.

Lemma visit_more ctx buffer k n all depth s : (Z.to_nat (fuel s) < k)%nat →
  visit ctx buffer (k + n) all depth s = visit ctx buffer k all depth s.
Proof.
  revert all depth s. induction k as [|k IH]; intros all depth s Hk; [lia|]. cbn [visit Nat.add].
  destruct (32 <? depth); [done|]. destruct all as [|op rest]; [done|].
  destruct (spend s) as [s1|] eqn:E1; cbn [mbind option_bind]; [|done]. apply spend_spec in E1 as (_ & _ & E1 & Hpos).
  assert ((s2 ← abstract_step ctx buffer op s1; visit ctx buffer (k + n) rest depth (reserve s2 (length (stack s2)))) =
    (s2 ← abstract_step ctx buffer op s1; visit ctx buffer k rest depth (reserve s2 (length (stack s2))))) as Hplain.
  { destruct (abstract_step ctx buffer op s1) as [s2|] eqn:E2; cbn [mbind option_bind]; [|done].
    apply abstract_step_fuel in E2. apply IH. cbn. lia. }
  destruct op; try (by apply Hplain). clear Hplain. destruct (_ <? body_len); [done|].
  destruct (0 <? count); cbn [mbind option_bind]; [|apply IH; lia].
  rewrite (widen_ext _ _ (visit ctx buffer k (take (Z.to_nat body_len) rest) (depth + 1))).
  - destruct (widen _ _ count s1) as [s2|] eqn:E2; cbn [mbind option_bind]; [|done].
    apply widen_fuel in E2; [apply IH; lia|]. intros t t' Ht. by apply visit_fuel in Ht.
  - intros t Ht. apply IH. lia.
  - intros t t' Ht. by apply visit_fuel in Ht.
Qed.

(** ** Theorems *)

Lemma analyze_has_access ctx fs buf accs : analyze fs ctx buf = Some accs → Forall (λ f, Forall Fragments.op_ok (Fragments.ops (fragment f))) fs →
  Forall2 (has_access ctx buf) fs accs.
Proof.
  intros Ha%mapM_Some Hok. revert Hok. induction Ha as [|f a fs accs Hf _ IH]; intros Hok; [done|].
  apply Forall_cons in Hok as [Hop Hok]. apply Forall2_cons. split; [done|by apply IH].
Qed.

(** [C2] Parallel execution is sequential execution. On any well-formed buffer, however many
    cores and whatever the fragments read, write and repeat, running the waves of the
    analysis on disjoint views leaves the stack and the buffer that running the fragments in
    order leaves, panics included. When the analysis accepts the fragments no worker panics,
    none finds a slot that its view lacks, and the stack is empty. *)
Theorem parallel_is_sequential `{Libm} ctx fs stack buf n_cores : buffer_ok buf →
  Forall (λ f, Forall Fragments.op_ok (Fragments.ops (fragment f))) fs →
  execute_with_cores ctx fs stack buf n_cores = execute_fragments_sequential ctx fs stack buf ∧
  ∀ accesses, analyze fs ctx buf = Some accesses → ∃ buf',
    execute_with_cores ctx fs [] buf n_cores = Some ([], buf') ∧ buffer_ok buf' ∧
    Buffer.n_slots buf' = Buffer.n_slots buf ∧ Buffer.slot_size buf' = Buffer.slot_size buf.
Proof.
  intros Hb Hok.
  assert (∀ accesses, analyze fs ctx buf = Some accesses → ∃ buf',
    execute_waves ctx fs accesses (wave_ranges accesses n_cores) [] buf = Some ([], buf') ∧
    execute_fragments_sequential ctx fs [] buf = Some ([], buf') ∧ same_layout buf' buf) as Hwaves.
  { intros accs Ha. pose proof (analyze_has_access ctx fs buf accs Ha Hok) as Hfs.
    apply (waves_run ctx buf fs accs n_cores (length accs) 0 buf 1 Hfs); [lia|lia|lia| |done]. intros i j a b Hij Hj. lia. }
  split.
  - unfold execute_with_cores. destruct (_ || _ || bool_decide (stack ≠ [])) eqn:E; [done|].
    apply orb_false_iff in E as [_ Hst%bool_decide_eq_false]. assert (stack = []) as -> by (by destruct stack; [|destruct Hst]).
    destruct (analyze fs ctx buf) as [accs|] eqn:Ea; [|done]. destruct (Hwaves accs eq_refl) as (b & -> & -> & _). done.
  - intros accs Ha. destruct (Hwaves accs Ha) as (b & Ew & Es & [[Hb' _] Hn Hs]). exists b. split; [|done].
    unfold execute_with_cores. rewrite Ha. by destruct (_ || _).
Qed.

(** [C33] The analysis ends. Every visited operation spends a unit of the analyzer's budget, so
    a recursion bounded by the budget is never cut; and every turn of the widening loop but
    the last makes a position of the stack unknown, so as many turns as positions and one
    reach its fixed point. *)
Theorem analysis_terminates ctx buffer all depth (s : Analyzer) n body count :
  visit ctx buffer (S (Z.to_nat (fuel s)) + n) all depth s = visit ctx buffer (S (Z.to_nat (fuel s))) all depth s ∧
  widen (S (length (stack s)) + n) body count s = widen (S (length (stack s))) body count s.
Proof. split; [apply visit_more; lia|]. apply widen_more. pose proof (knowns_le (stack s)). lia. Qed.

(** Two fragments of the tests and one that waits for the first. *)
Definition increment (base output : Z) : OperationFragment :=
  mkOperation (Fragments.mkFragment [Rpn.Zero; Rpn.VarIndexed base; Rpn.One; Rpn.FAdd; Rpn.Zero; Rpn.StoreResult output]) None.

Lemma parallel_is_sequential_witness :
  let fs := [increment 0 1; increment 0 2; increment 1 3] in
  let buf := Buffer.mkBuffer [f64_of_Z 10; f64_zero; f64_zero; f64_zero] 1 4 in
  option_map (λ accesses, wave_ranges accesses 2) (analyze fs (mkContext [] []) buf) = Some [(0, 2); (2, 3)]%nat ∧
  @execute_with_cores libm_example (mkContext [] []) fs [] buf 2 =
    Some ([], Buffer.mkBuffer [f64_of_Z 10; f64_of_Z 11; f64_of_Z 11; f64_of_Z 12] 1 4).
Proof.
  intros fs buf. split; [vm_compute; reflexivity|].
  rewrite (proj1 (@parallel_is_sequential libm_example (mkContext [] []) fs [] buf 2 ltac:(by repeat split) ltac:(by repeat constructor))).
  vm_compute. reflexivity.
Defined.
