(* ===== verification/Text.v ===== *)
(** * Text

    Strings and their bytes, UTF-8, and the decimal and hexadecimal digits of integers, as
    Rust's standard library defines them, for the formats that hold text. *)
From Stdlib Require Import Decimal DecimalString DecimalZ.
From S2P Require Import Prelude Bytes.
#[local] Set Warnings "-register-all".
#[local] Open Scope string_scope.
#[local] Open Scope Z_scope.

Definition bytes_of (s : string) : list Z := (λ c, Z.of_nat (Ascii.nat_of_ascii c)) <$> String.list_ascii_of_string s.
Definition len (s : string) : Z := Z.of_nat (String.length s).

Module Utf8.
(** [std::str::from_utf8]: well-formed sequences of one to four bytes. *)
Definition continuation (b : Z) : bool := (128 <=? b) && (b <? 192).
Definition between (low b high : Z) : bool := (low <=? b) && (b <=? high).

Definition sequence_length (bytes : list Z) : option nat :=
  match bytes with
  | [] => None
  | a :: rest =>
      if between 0 a 127 then Some 1%nat else
      match rest with
      | b :: rest =>
          if between 194 a 223 && continuation b then Some 2%nat else
          match rest with
          | c :: rest =>
              if (((a =? 224) && between 160 b 191) || (between 225 a 236 && continuation b) ||
                  ((a =? 237) && between 128 b 159) || (between 238 a 239 && continuation b)) && continuation c
              then Some 3%nat else
              match rest with
              | d :: _ =>
                  if (((a =? 240) && between 144 b 191) || (between 241 a 243 && continuation b) ||
                      ((a =? 244) && between 128 b 143)) && continuation c && continuation d
                  then Some 4%nat else None
              | [] => None
              end
          | [] => None
          end
      | [] => None
      end
  end.

(** The bytes shrink, so their number is enough fuel. *)
Fixpoint valid_up_to (fuel : nat) (bytes : list Z) : bool :=
  match bytes, fuel with
  | [], _ => true
  | _, O => false
  | _, S fuel =>
      match sequence_length bytes with
      | Some n => valid_up_to fuel (drop n bytes)
      | None => false
      end
  end.

Definition from_utf8 (bytes : list Z) : bool := valid_up_to (length bytes) bytes.
End Utf8.

(** Decimal text and its parsing, for a type of integers. *)
Module Integer.
Inductive IntType : Set := U8 | I8 | U16 | I16 | U32 | I32 | U64 | I64.

Definition signed (t : IntType) : bool := match t with I8 | I16 | I32 | I64 => true | _ => false end.
Definition bits (t : IntType) : Z := match t with U8 | I8 => 8 | U16 | I16 => 16 | U32 | I32 => 32 | U64 | I64 => 64 end.
Definition min (t : IntType) : Z := if signed t then - 2 ^ (bits t - 1) else 0.
Definition max (t : IntType) : Z := if signed t then 2 ^ (bits t - 1) - 1 else 2 ^ bits t - 1.
Definition fits (t : IntType) (n : Z) : bool := (min t <=? n) && (n <=? max t).

Definition to_string (n : Z) : string := NilZero.string_of_int (Z.to_int n).

(** [str::parse]: an optional sign and digits. *)
Definition sign_and_digits (t : IntType) (s : string) : option Z :=
  match s with
  | String.String "+" s => option_map Z.of_uint (NilZero.uint_of_string s)
  | String.String "-" s => if signed t then option_map (λ d, - Z.of_uint d) (NilZero.uint_of_string s) else None
  | s => option_map Z.of_uint (NilZero.uint_of_string s)
  end.
Definition parse (t : IntType) (s : string) : option Z :=
  n ← sign_and_digits t s; if fits t n then Some n else None.
End Integer.

(** Lower-case hexadecimal. *)
Module Hex.
Definition digit (n : Z) : Ascii.ascii := Ascii.ascii_of_nat (Z.to_nat (if n <? 10 then 48 + n else 87 + n)).

(** [format!("{n:0digitsx}")] of a number with no more digits. *)
Fixpoint pad (digits : nat) (n : Z) (rest : string) : string :=
  match digits with
  | O => rest
  | S digits => pad digits (n / 16) (String.String (digit (n `mod` 16)) rest)
  end.
Definition format (digits : nat) (n : Z) : string := pad digits n "".

Definition value (c : Ascii.ascii) : option Z :=
  let n := Z.of_nat (Ascii.nat_of_ascii c) in
  if (48 <=? n) && (n <=? 57) then Some (n - 48)
  else if (97 <=? n) && (n <=? 102) then Some (n - 87) else None.

(** [from_str_radix] on digits that were checked. *)
Fixpoint from_str_radix (s : string) (acc : Z) : option Z :=
  match s with
  | String.EmptyString => Some acc
  | String.String c s => d ← value c; from_str_radix s (16 * acc + d)
  end.
End Hex.

(** [str::from_utf8] on valid bytes. *)
Definition string_of (bytes : list Z) : string :=
  String.string_of_list_ascii ((λ b, Ascii.ascii_of_nat (Z.to_nat b)) <$> bytes).

(** ** Decimal *)

(** Canonical digits. *)
Lemma to_int_shape n : match Z.to_int n with
  | Decimal.Pos d => d ≠ Nil ∧ Z.of_uint d = n
  | Decimal.Neg d => d ≠ Nil ∧ - Z.of_uint d = n ∧ n < 0
  end.
Proof.
  pose proof (DecimalZ.of_to n) as Ho. pose proof (DecimalZ.to_of (Z.to_int n)) as Hn. rewrite Ho in Hn.
  destruct (Z.to_int n) as [d|d] eqn:E; cbn [Z.of_int Decimal.norm] in *.
  - injection Hn as Hd. split; [|done]. rewrite Hd. unfold Decimal.unorm. by destruct (Decimal.nzhead d).
  - destruct (Decimal.nzhead d) eqn:Ez; [done|..]; injection Hn as ->; (split; [done|]; split; [done|]);
      destruct n; try done; cbn in E; done.
Qed.

Lemma plain_digits t d : d ≠ Nil → Integer.sign_and_digits t (NilZero.string_of_uint d) = Some (Z.of_uint d).
Proof.
  intros Hd. pose proof (f_equal (option_map Z.of_uint) (NilZero.usu d Hd)) as E. cbn [option_map] in E.
  rewrite <-E. by destruct d.
Qed.

Lemma parse_to_string t n : Integer.fits t n = true → Integer.parse t (Integer.to_string n) = Some n.
Proof.
  intros Hf. unfold Integer.parse, Integer.to_string. pose proof (to_int_shape n) as Hn.
  destruct (Z.to_int n) as [d|d]; cbn [NilZero.string_of_int].
  - destruct Hn as [Hd Hn]. rewrite plain_digits by done. cbn [mbind option_bind]. by rewrite Hn, Hf.
  - destruct Hn as (Hd & Hn & Hneg). cbn [Integer.sign_and_digits].
    assert (Integer.signed t = true) as ->.
    { unfold Integer.fits, Integer.min in Hf. destruct (Integer.signed t); [done|]. apply andb_true_iff in Hf as [Hf%Z.leb_le _]. lia. }
    rewrite NilZero.usu by done. cbn [option_map mbind option_bind]. by rewrite Hn, Hf.
Qed.

(** ** Hexadecimal *)

Lemma hex_value_digit n : 0 ≤ n < 16 → Hex.value (Hex.digit n) = Some n.
Proof.
  intros Hn. unfold Hex.value, Hex.digit.
  assert (n = 0 ∨ n = 1 ∨ n = 2 ∨ n = 3 ∨ n = 4 ∨ n = 5 ∨ n = 6 ∨ n = 7 ∨ n = 8 ∨ n = 9 ∨ n = 10 ∨ n = 11 ∨ n = 12 ∨ n = 13 ∨ n = 14 ∨ n = 15) by lia.
  destruct_or!; subst n; reflexivity.
Qed.

Lemma pad_radix digits n rest acc : 0 ≤ n < 16 ^ Z.of_nat digits →
  Hex.from_str_radix (Hex.pad digits n rest) acc = Hex.from_str_radix rest (16 ^ Z.of_nat digits * acc + n).
Proof.
  revert n rest acc. induction digits as [|digits IH]; intros n rest acc Hn; cbn [Hex.pad].
  { f_equal. change (16 ^ Z.of_nat 0) with 1 in *. lia. }
  rewrite Nat2Z.inj_succ, Z.pow_succ_r in * by lia. pose proof (Z.div_mod n 16 ltac:(lia)) as Hdm.
  pose proof (Z.mod_pos_bound n 16 ltac:(lia)) as Hm. rewrite IH.
  - cbn [Hex.from_str_radix]. rewrite hex_value_digit by done. cbn [mbind option_bind]. f_equal. lia.
  - split; [apply Z.div_pos; lia|]. apply Z.div_lt_upper_bound; lia.
Qed.

Lemma length_pad digits n rest : String.length (Hex.pad digits n rest) = (digits + String.length rest)%nat.
Proof. revert n rest. induction digits as [|digits IH]; intros n rest; cbn [Hex.pad]; [done|]. rewrite IH. cbn. lia. Qed.

(** ** Strings and their bytes *)

Lemma length_bytes_of s : Z.of_nat (length (bytes_of s)) = len s.
Proof. unfold bytes_of, len. rewrite length_fmap. f_equal. induction s; cbn; [done|by f_equal]. Qed.

Lemma bytes_of_u8 s : Forall u8 (bytes_of s).
Proof.
  unfold bytes_of. apply Forall_fmap, Forall_true. intros c. unfold u8. cbn. pose proof (Ascii.nat_ascii_bounded c). lia.
Qed.

Lemma string_of_bytes s : string_of (bytes_of s) = s.
Proof.
  unfold string_of, bytes_of. rewrite <-list_fmap_compose.
  rewrite (list_fmap_ext _ id), list_fmap_id; [apply String.string_of_list_ascii_of_string|].
  intros _ c _. cbn. by rewrite Nat2Z.id, Ascii.ascii_nat_embedding.
Qed.

Lemma bytes_of_string bytes : Forall u8 bytes → bytes_of (string_of bytes) = bytes.
Proof.
  intros Hb. unfold string_of, bytes_of. rewrite String.list_ascii_of_string_of_list_ascii, <-list_fmap_compose.
  induction Hb as [|b bytes [H1 H2] _ IH]; cbn; [done|]. rewrite IH. f_equal. rewrite Ascii.nat_ascii_embedding; lia.
Qed.
