(* ===== verification/Float32.v ===== *)
(** * binary32 by its bit pattern, and widening

    Single-precision floats like those of [Float]: the pattern, the value it stands for, the
    IEEE operations that decoding of tensors uses, and the conversion [f64::from], which is
    exact. [to_spec32] and [of_spec32] carry patterns over to [SpecFloat]. *)
From Stdlib Require Import QArith SpecFloat.
From S2P Require Import Prelude Float FloatArith FloatInt.
#[local] Open Scope Z_scope.

Record f32 : Set := f32_from_bits { f32_bits : Z }.

#[export] Instance f32_eq_dec : EqDecision f32.
Proof. solve_decision. Defined.

Definition f32_ok (v : f32) : Prop := 0 ≤ f32_bits v < 2 ^ 32.

(** The fields of the pattern. *)
Definition f32_sign (v : f32) : bool := Z.testbit (f32_bits v) 31.
Definition f32_exponent (v : f32) : Z := (f32_bits v / 2 ^ 23) `mod` 2 ^ 8.
Definition f32_fraction (v : f32) : Z := f32_bits v `mod` 2 ^ 23.

(** [f32::is_finite]. *)
Definition f32_finite (v : f32) : bool := negb (f32_exponent v =? 255).

Definition f32_significand (v : f32) : Z := if f32_exponent v =? 0 then f32_fraction v else 2 ^ 23 + f32_fraction v.
Definition f32_power (v : f32) : Z := if f32_exponent v =? 0 then -149 else f32_exponent v - 150.

(** The value of a finite pattern. *)
Definition f32_Q (v : f32) : Q := scaleQ (if f32_sign v then - f32_significand v else f32_significand v) (f32_power v).

Definition to_spec32 (v : f32) : spec_float :=
  if f32_exponent v =? 255 then
    if f32_fraction v =? 0 then S754_infinity (f32_sign v) else S754_nan
  else match f32_significand v with
       | Zpos m => S754_finite (f32_sign v) m (f32_power v)
       | _ => S754_zero (f32_sign v)
       end.

(** NaN results are canonical: Rust does not specify their bits. *)
Definition of_spec32 (x : spec_float) : f32 :=
  f32_from_bits (match x with
  | S754_zero s => Z.b2z s * 2 ^ 31
  | S754_infinity s => Z.b2z s * 2 ^ 31 + 255 * 2 ^ 23
  | S754_nan => 255 * 2 ^ 23 + 2 ^ 22
  | S754_finite s m e =>
      Z.b2z s * 2 ^ 31 + (if 2 ^ 23 <=? Zpos m then (e + 150) * 2 ^ 23 + (Zpos m - 2 ^ 23) else Zpos m)
  end `mod` 2 ^ 32).

Definition f32_mul (x y : f32) : f32 := of_spec32 (SFmul 24 128 (to_spec32 x) (to_spec32 y)).
Definition f32_eq (x y : f32) : bool := SFeqb (to_spec32 x) (to_spec32 y).
Definition f32_zero : f32 := f32_from_bits 0.

(** [as f32] on integers. *)
Definition f32_of_Z (n : Z) : f32 := of_spec32 (binary_normalize 24 128 n 0 false).

(** [f64::from]: the exponents of single precision are normal in double precision. *)
Definition f64_of_f32 (x : f32) : f64 :=
  of_spec (match to_spec32 x with S754_finite s m e => binary_round 53 1024 s m e | y => y end).

(** ** Fields *)

Lemma f32_fields_range v : 0 ≤ f32_exponent v < 256 ∧ 0 ≤ f32_fraction v < 2 ^ 23.
Proof. split; apply Z.mod_pos_bound; done. Qed.

Lemma f32_fields_of s e f : 0 ≤ e < 256 → 0 ≤ f < 2 ^ 23 →
  let x := f32_from_bits (Z.b2z s * 2 ^ 31 + (e * 2 ^ 23 + f)) in
  f32_sign x = s ∧ f32_exponent x = e ∧ f32_fraction x = f ∧ f32_ok x.
Proof.
  intros He Hf x. unfold x, f32_ok, f32_sign, f32_exponent, f32_fraction. cbn [f32_bits].
  change (2 ^ 23) with 8388608 in *. change (2 ^ 31) with 2147483648. change (2 ^ 8) with 256. change (2 ^ 32) with 4294967296.
  rewrite Z.testbit_eqb by lia. change (2 ^ 31) with 2147483648. split_and!.
  - destruct s; cbn [Z.b2z]; [apply Z.eqb_eq|apply Z.eqb_neq]; dlia.
  - destruct s; cbn [Z.b2z]; dlia.
  - destruct s; cbn [Z.b2z]; dlia.
  - destruct s; cbn [Z.b2z]; lia.
  - destruct s; cbn [Z.b2z]; lia.
Qed.

Lemma f32_fields v : f32_ok v → f32_bits v = Z.b2z (f32_sign v) * 2 ^ 31 + (f32_exponent v * 2 ^ 23 + f32_fraction v).
Proof.
  destruct v as [b]. unfold f32_ok, f32_sign, f32_exponent, f32_fraction. cbn [f32_bits]. intros [H1 H2]. rewrite Z.testbit_eqb by lia.
  change (2 ^ 23) with 8388608 in *. change (2 ^ 31) with 2147483648 in *. change (2 ^ 8) with 256. change (2 ^ 32) with 4294967296 in *.
  destruct (Z.eqb_spec ((b / 2147483648) `mod` 2) 1); cbn [Z.b2z]; dlia.
Qed.

Lemma f32_significand_range v : 0 ≤ f32_significand v < 2 ^ 24.
Proof.
  destruct (f32_fields_range v) as [_ Hf]. unfold f32_significand. change (2 ^ 24) with (2 * 2 ^ 23). case_match; lia.
Qed.

(** ** Widening *)

(** The pattern of a value [m * 2 ^ e] with few bits and a moderate exponent. *)
Lemma round_small s m e : Zpos m < 2 ^ 53 → -149 ≤ e ≤ 127 →
  let b := nbits (Zpos m) in
  binary_round 53 1024 s m e = S754_finite s (Z.to_pos (Zpos m * 2 ^ (53 - b))) (e + b - 53).
Proof.
  intros Hm He b. assert (0 < Zpos m < 2 ^ 53) as Hm' by lia. pose proof (nbits_small _ Hm') as Hb. fold b in Hb.
  assert (fexp64 (b + e) = e + b - 53) as Ef by (unfold fexp, emin; lia).
  pose proof (round_exact s m e (Zpos m * 2 ^ (53 - b))) as Hr. cbn zeta in Hr. fold b in Hr. rewrite Ef in Hr. apply Hr.
  - apply Z.mul_pos_pos; [lia|apply Z.pow_pos_nonneg; lia].
  - lia.
  - rewrite (Z.max_l (e - _)), (Z.max_r (_ - e)) by lia. rewrite Z.mul_1_r. do 2 f_equal. lia.
Qed.

Lemma f64_Q_of_spec s m e : held (Zpos m) e → is_finite (of_spec (S754_finite s m e)) = true ∧
  f64_Q (of_spec (S754_finite s m e)) = scaleQ (if s then Zneg m else Zpos m) e.
Proof.
  intros Hh. pose proof (to_spec_finite _ _ _ _ (spec_roundtrip s m e Hh)) as (Hf & Hs & Hm & He & _).
  split; [done|]. unfold f64_Q. rewrite Hs, Hm, He. by destruct s.
Qed.

(** Widening is exact, and keeps infinities and NaN apart. *)
Lemma f64_of_f32_exact x : f64_ok (f64_of_f32 x) ∧ is_finite (f64_of_f32 x) = f32_finite x ∧
  (f32_finite x = true → (f64_Q (f64_of_f32 x) == f32_Q x)%Q).
Proof.
  split; [apply of_spec_ok|]. unfold f64_of_f32, to_spec32, f32_finite, f32_Q.
  destruct (f32_fields_range x) as [He Hf]. pose proof (f32_significand_range x) as Hs.
  destruct (Z.eqb_spec (f32_exponent x) 255) as [E|E].
  { split; [|done]. destruct (f32_fraction x =? 0); [by destruct (f32_sign x)|done]. }
  assert (-149 ≤ f32_power x ≤ 127) as Hp by (unfold f32_power; case_match; lia).
  destruct (f32_significand x) as [|m|m]; [| |lia].
  - split; [by destruct (f32_sign x)|]. intros _. transitivity 0%Q; [by destruct (f32_sign x)|]. destruct (f32_sign x); unfold scaleQ, Qeq; cbn [Qnum Z.opp]; lia.
  - assert (0 < Zpos m < 2 ^ 53) as Hm by (change (2 ^ 53) with (2 ^ 24 * 2 ^ 29); lia).
    rewrite round_small by lia. pose proof (nbits_small _ Hm) as Hb. pose proof (int_mantissa _ Hm) as Hk.
    set (b := nbits (Zpos m)) in *. set (k := Z.to_pos _).
    assert (Zpos k = Zpos m * 2 ^ (53 - b)) as Ek by (unfold k; rewrite Z2Pos.id by lia; done).
    destruct (f64_Q_of_spec (f32_sign x) k (f32_power x + b - 53)) as [-> ->]; [left; rewrite Ek; lia|]. split; [done|]. intros _.
    transitivity (scaleQ ((if f32_sign x then - Zpos m else Zpos m) * 2 ^ (53 - b)) (f32_power x + b - 53)).
    + apply eq_subrelation; [apply _|]. f_equal. destruct (f32_sign x); lia.
    + rewrite scaleQ_shift by lia. by replace (f32_power x + b - 53 + (53 - b)) with (f32_power x) by lia.
Qed.
