(* ===== verification/GgufCodecs.v ===== *)
(** * codecs.rs of gguf: from stored blocks to single precision

    The types of stored tensors, the errors of the crate, binary16 and the decoders of
    scalar and quantized data. [decode_f32] checks its sizes, cuts the bytes into blocks and
    decodes each on its own. *)
From Stdlib Require Import QArith SpecFloat.
From S2P Require Import Prelude Float FloatArith FloatInt Bytes Float32.
#[local] Open Scope Z_scope.

(** ** Types and errors *)

Module DataType.
Inductive GgufDataType : Set :=
  | F32 | F16 | Q4_0 | Q4_1 | Q5_0 | Q5_1 | Q8_0 | Q8_1 | Q2_K | Q3_K | Q4_K | Q5_K | Q6_K | Q8_K
  | Iq2Xxs | Iq2Xs | Iq3Xxs | Iq1S | Iq4Nl | Iq3S | Iq2S | Iq4Xs | I8 | I16 | I32 | I64 | F64 | Iq1M | Bf16
  | String | Bool | Array | U8 | U16 | U32 | U64.

#[global] Instance GgufDataType_eq_dec : EqDecision GgufDataType.
Proof. solve_decision. Defined.

(** The discriminants, [as u32]. *)
Definition as_u32 (t : GgufDataType) : Z :=
  match t with
  | F32 => 0 | F16 => 1 | Q4_0 => 2 | Q4_1 => 3 | Q5_0 => 6 | Q5_1 => 7 | Q8_0 => 8 | Q8_1 => 9 | Q2_K => 10 | Q3_K => 11
  | Q4_K => 12 | Q5_K => 13 | Q6_K => 14 | Q8_K => 15 | Iq2Xxs => 16 | Iq2Xs => 17 | Iq3Xxs => 18 | Iq1S => 19 | Iq4Nl => 20
  | Iq3S => 21 | Iq2S => 22 | Iq4Xs => 23 | I8 => 24 | I16 => 25 | I32 => 26 | I64 => 27 | F64 => 28 | Iq1M => 29 | Bf16 => 30
  | String => 256 | Bool => 257 | Array => 258 | U8 => 259 | U16 => 260 | U32 => 261 | U64 => 262
  end.

Definition from_u32 (v : Z) : option GgufDataType :=
  match v with
  | 0 => Some F32 | 1 => Some F16 | 2 => Some Q4_0 | 3 => Some Q4_1 | 6 => Some Q5_0 | 7 => Some Q5_1 | 8 => Some Q8_0
  | 9 => Some Q8_1 | 10 => Some Q2_K | 11 => Some Q3_K | 12 => Some Q4_K | 13 => Some Q5_K | 14 => Some Q6_K | 15 => Some Q8_K
  | 16 => Some Iq2Xxs | 17 => Some Iq2Xs | 18 => Some Iq3Xxs | 19 => Some Iq1S | 20 => Some Iq4Nl | 21 => Some Iq3S
  | 22 => Some Iq2S | 23 => Some Iq4Xs | 24 => Some I8 | 25 => Some I16 | 26 => Some I32 | 27 => Some I64 | 28 => Some F64
  | 29 => Some Iq1M | 30 => Some Bf16
  | _ => None
  end.

Definition from_metadata_u32 (v : Z) : option GgufDataType :=
  match v with
  | 0 => Some U8 | 1 => Some I8 | 2 => Some U16 | 3 => Some I16 | 4 => Some U32 | 5 => Some I32 | 6 => Some F32 | 7 => Some Bool
  | 8 => Some String | 9 => Some Array | 10 => Some U64 | 11 => Some I64 | 12 => Some F64
  | _ => None
  end.

Definition element_size (t : GgufDataType) : Z :=
  match t with
  | F32 | I32 | U32 => 4
  | F16 | I16 | U16 | Bf16 => 2
  | I8 | U8 => 1
  | I64 | U64 | F64 => 8
  | _ => 0
  end.

Definition is_quantized (t : GgufDataType) : bool :=
  match t with
  | Q4_0 | Q4_1 | Q5_0 | Q5_1 | Q8_0 | Q8_1 | Q2_K | Q3_K | Q4_K | Q5_K | Q6_K | Q8_K
  | Iq2Xxs | Iq2Xs | Iq3Xxs | Iq1S | Iq4Nl | Iq3S | Iq2S | Iq4Xs | Iq1M | F16 | Bf16 => true
  | _ => false
  end.
End DataType.

Abbreviation GgufDataType := DataType.GgufDataType.

(** The causes of I/O errors are left out, and so are allocation failures. *)
Inductive GgufError : Set :=
  | InvalidMagic (magic : Z) | UnsupportedVersion (version : Z) | UnsupportedEndianness
  | Truncated (offset needed available : Z)
  | InvalidMetadata (offset : Z) (reason : string) | InvalidTensorInfo (offset : Z) (reason : string)
  | InvalidAlignment | UnalignedTensor (name : string) (offset alignment : Z)
  | InvalidTensorRange (name : string) | TensorNotFound (name : string)
  | UnsupportedDataType (data_type : GgufDataType)
  | InvalidBlockElements (data_type : GgufDataType) (elements block_elements : Z)
  | SizeOverflow | InvalidDataLength (expected actual : Z).

(** ** Decoding *)

Module Codec.
Import DataType.

Definition f16_to_f32 (bits : Z) : f32 :=
  let sign := Z.shiftl (Z.land bits 0x8000) 16 in
  let exponent := Z.land (Z.shiftr bits 10) 0x1f in
  let mantissa := Z.land bits 0x03ff in
  let magnitude :=
    if exponent =? 0 then f32_bits (f32_mul (f32_of_Z mantissa) (f32_from_bits 0x33800000))
    else if exponent =? 31 then 0x7f800000 + Z.shiftl mantissa 13
    else Z.shiftl (exponent + 112) 23 + Z.shiftl mantissa 13 in
  f32_from_bits (sign + magnitude).

(** The complete chunks of [as_chunks]. *)
Definition as_chunks (n : nat) (data : list Z) : list (list Z) := reshape (replicate (length data / n) n) data.

(** [as i8] on a byte. *)
Definition as_i8 (b : Z) : Z := if b <? 128 then b else b - 256.

(** An element of a block; [None] is out of range. *)
Definition at_ (block : list Z) (i : Z) : option Z := block !! Z.to_nat i.

Definition scale_at (block : list Z) (i : Z) : option f32 :=
  a ← at_ block i; b ← at_ block (i + 1); Some (f16_to_f32 (le_value [a; b])).

Definition q4_0_block (block : list Z) : option (list f32) :=
  scale ← scale_at block 0;
  let quants shift := (λ byte, f32_mul (f32_of_Z (Z.land (Z.shiftr byte shift) 15 - 8)) scale) <$> drop 2 block in
  Some (concat (quants <$> [0; 4])).

Definition q8_0_block (block : list Z) : option (list f32) :=
  scale ← scale_at block 0;
  Some ((λ q, f32_mul (f32_of_Z (as_i8 q)) scale) <$> drop 2 block).

(** The six bits of an element, from the low and the high part of the block. *)
Definition q6_quant (block : list Z) (index : Z) : option Z :=
  let half := index / 128 in
  let quarter := (index `mod` 128) / 32 in
  let lane := index `mod` 32 in
  ql ← at_ block (half * 64 + (quarter `mod` 2) * 32 + lane);
  qh ← at_ block (128 + half * 32 + lane);
  let low := Z.land (Z.shiftr ql (4 * (quarter / 2))) 15 in
  let high := Z.land (Z.shiftr qh (2 * quarter)) 3 in
  Some (low + 16 * high - 32).

Definition q6_value (block : list Z) (scale : f32) (index : Z) : option f32 :=
  quant ← q6_quant block index;
  subscale ← at_ block (192 + index / 16);
  Some (f32_mul (f32_mul scale (f32_of_Z (as_i8 subscale))) (f32_of_Z quant)).

Definition q6_k_block (block : list Z) : option (list f32) :=
  scale ← scale_at block 208;
  mapM (q6_value block scale) (seqZ 0 256).

(** A block is one element of a scalar type. *)
Definition decode_block (data_type : GgufDataType) (block : list Z) : option (list f32) :=
  match data_type with
  | F32 => Some [f32_from_bits (le_value block)]
  | F16 => Some [f16_to_f32 (le_value block)]
  | Q4_0 => q4_0_block block
  | Q8_0 => q8_0_block block
  | Q6_K => q6_k_block block
  | _ => None
  end.

(** The elements and the bytes of a block. *)
Definition geometry (data_type : GgufDataType) : option (Z * Z) :=
  match data_type with
  | F32 => Some (1, 4) | F16 => Some (1, 2) | Q4_0 => Some (32, 18) | Q8_0 => Some (32, 34) | Q6_K => Some (256, 210)
  | _ => None
  end.

(** Panics, [Err None], are out-of-range accesses and the branch that is said unreachable. *)
Definition decode_f32 (data_type : GgufDataType) (data : list Z) (elements : Z) : Result (option GgufError) (list f32) :=
  '(block_elements, block_bytes) ← ok_or (Some (UnsupportedDataType data_type)) (geometry data_type);
  if negb (elements `mod` block_elements =? 0) then Err (Some (InvalidBlockElements data_type elements block_elements)) else
  expected ← ok_or (Some SizeOverflow) (checked_mul (elements / block_elements) block_bytes);
  if negb (Z.of_nat (length data) =? expected) then Err (Some (InvalidDataLength expected (Z.of_nat (length data)))) else
  values ← ok_or None (mapM (decode_block data_type) (as_chunks (Z.to_nat block_bytes) data));
  Ok (concat values).
End Codec.

(** ** binary16 *)

Definition f16_sign (bits : Z) : bool := Z.testbit bits 15.
Definition f16_exponent (bits : Z) : Z := (bits / 2 ^ 10) `mod` 2 ^ 5.
Definition f16_fraction (bits : Z) : Z := bits `mod` 2 ^ 10.
Definition f16_significand (bits : Z) : Z := if f16_exponent bits =? 0 then f16_fraction bits else 2 ^ 10 + f16_fraction bits.
Definition f16_power (bits : Z) : Z := if f16_exponent bits =? 0 then -24 else f16_exponent bits - 25.

(** The value of a finite pattern. *)
Definition f16_Q (bits : Z) : Q := scaleQ (if f16_sign bits then - f16_significand bits else f16_significand bits) (f16_power bits).

(** A subnormal mantissa, scaled by the multiplication. *)
Definition scaled (m : Z) : f32 := f32_mul (f32_of_Z m) (f32_from_bits 0x33800000).

Definition scaled_exactly (m : Z) : bool :=
  let x := scaled m in
  (0 <=? f32_bits x) && (f32_bits x <? 2 ^ 31) && f32_finite x && Qeq_bool (scaleQ (f32_significand x) (f32_power x)) (scaleQ m (-24)).

Lemma subnormals_scaled : forallb scaled_exactly (seqZ 0 1024) = true.
Proof. vm_compute. reflexivity. Qed.

Lemma scaled_ok m : 0 ≤ m < 1024 → 0 ≤ f32_bits (scaled m) < 2 ^ 31 ∧ f32_finite (scaled m) = true ∧
  (scaleQ (f32_significand (scaled m)) (f32_power (scaled m)) == scaleQ m (-24))%Q.
Proof.
  intros Hm. pose proof (proj1 (forallb_forall _ _) subnormals_scaled m) as H.
  specialize (H ltac:(apply list_elem_of_In, elem_of_seqZ; lia)). unfold scaled_exactly in H.
  apply andb_true_iff in H as [[[H1%Z.leb_le H2%Z.ltb_lt]%andb_true_iff H3]%andb_true_iff H4%Qeq_bool_iff]. done.
Qed.

(** The fields that [f16_to_f32] takes out. *)
Lemma f16_fields bits : 0 ≤ bits < 2 ^ 16 →
  Z.shiftl (Z.land bits 0x8000) 16 = Z.b2z (f16_sign bits) * 2 ^ 31 ∧
  Z.land (Z.shiftr bits 10) 0x1f = f16_exponent bits ∧ Z.land bits 0x03ff = f16_fraction bits.
Proof.
  intros Hb. split_and!.
  - assert (Z.land bits 0x8000 = Z.b2z (f16_sign bits) * 2 ^ 15) as ->.
    { apply Z.bits_inj'. intros i Hi. rewrite Z.land_spec. change 0x8000 with (2 ^ 15). rewrite Z.pow2_bits_eqb by lia. unfold f16_sign.
      destruct (Z.eqb_spec 15 i) as [<-|Hne].
      - rewrite andb_true_r. destruct (Z.testbit bits 15); cbn [Z.b2z]; [by rewrite Z.mul_1_l, Z.pow2_bits_true by lia|by rewrite Z.mul_0_l, Z.testbit_0_l].
      - rewrite andb_false_r. destruct (Z.testbit bits 15); cbn [Z.b2z]; [rewrite Z.mul_1_l, Z.pow2_bits_false by lia; done|by rewrite Z.mul_0_l, Z.testbit_0_l]. }
    rewrite Z.shiftl_mul_pow2 by lia. lia.
  - change 0x1f with (Z.ones 5). by rewrite Z.land_ones, Z.shiftr_div_pow2 by lia.
  - change 0x03ff with (Z.ones 10). by rewrite Z.land_ones by lia.
Qed.

Lemma scaleQ_sign (s : bool) m p n q : (scaleQ m p == scaleQ n q)%Q →
  (scaleQ (if s then - m else m) p == scaleQ (if s then - n else n) q)%Q.
Proof. destruct s; [|done]. unfold scaleQ, Qeq. cbn [Qnum Qden]. lia. Qed.

(** What widening must do: the sign is kept, infinities and NaN keep their fraction in its
    upper bits, and every other value is the same. *)
Definition widened (bits : Z) (r : f32) : Prop :=
  f32_ok r ∧ f32_sign r = f16_sign bits ∧
  if f16_exponent bits =? 31 then f32_exponent r = 255 ∧ f32_fraction r = f16_fraction bits * 2 ^ 13
  else f32_finite r = true ∧ (f32_Q r == f16_Q bits)%Q.

(** Widening is exact. A binary16 pattern becomes a binary32 pattern with the same sign
    and the same value; infinities and NaN become infinities and NaN, with the fraction of a
    NaN in the upper bits. *)
Lemma f16_exact bits : 0 ≤ bits < 2 ^ 16 → widened bits (Codec.f16_to_f32 bits).
Proof.
  intros Hb. destruct (f16_fields bits Hb) as (Es & Ee & Ef). unfold Codec.f16_to_f32. rewrite Es, Ee, Ef.
  assert (0 ≤ f16_exponent bits < 32 ∧ 0 ≤ f16_fraction bits < 1024) as [He Hf] by (split; apply Z.mod_pos_bound; done).
  set (e := f16_exponent bits) in *. set (f := f16_fraction bits) in *.
  assert (∀ e' f', 0 ≤ e' < 256 → 0 ≤ f' < 2 ^ 23 → (e = 31 → e' = 255 ∧ f' = f * 2 ^ 13) →
    (e ≠ 31 → e' ≠ 255 ∧ (scaleQ (if e' =? 0 then f' else 2 ^ 23 + f') (if e' =? 0 then -149 else e' - 150) ==
      scaleQ (f16_significand bits) (f16_power bits))%Q) →
    widened bits (f32_from_bits (Z.b2z (f16_sign bits) * 2 ^ 31 + (e' * 2 ^ 23 + f')))) as Hw.
  { intros e' f' He' Hf' H31 Hne. destruct (f32_fields_of (f16_sign bits) e' f' He' Hf') as (Hs & Hx & Hfr & Hok).
    unfold widened. fold e f. split; [done|]. split; [done|]. destruct (Z.eqb_spec e 31) as [E|E]; [by rewrite Hx, Hfr; apply H31|].
    destruct (Hne E) as [Hn HQ]. unfold f32_finite. rewrite Hx. split; [by apply negb_true_iff, Z.eqb_neq|].
    unfold f32_Q, f16_Q, f32_significand, f32_power. rewrite Hs, Hx, Hfr. by apply scaleQ_sign. }
  change 0x7f800000 with (255 * 2 ^ 23). rewrite !Z.shiftl_mul_pow2 by lia.
  destruct (Z.eqb_spec e 0) as [E0|E0]; [|destruct (Z.eqb_spec e 31) as [E31|E31]].
  - destruct (scaled_ok f Hf) as (Hm & Hfin & HQ). set (x := scaled f) in *. change (f32_mul (f32_of_Z f) (f32_from_bits 0x33800000)) with x.
    assert (f32_ok x) as Hx by (unfold f32_ok; lia). pose proof (f32_fields x Hx) as Eb. destruct (f32_fields_range x) as [Hxe Hxf].
    assert (f32_sign x = false) as Esx by (destruct (f32_sign x); [cbn [Z.b2z] in Eb; lia|done]). rewrite Esx in Eb. cbn [Z.b2z] in Eb.
    rewrite Eb, Z.mul_0_l, Z.add_0_l. apply Hw; [done|done|lia|]. intros _.
    unfold f32_finite in Hfin. apply negb_true_iff, Z.eqb_neq in Hfin. split; [done|].
    unfold f16_significand, f16_power. fold e f. rewrite (proj2 (Z.eqb_eq _ _) E0). exact HQ.
  - apply (Hw 255 (f * 2 ^ 13)); lia.
  - apply (Hw (e + 112) (f * 2 ^ 13)); [lia|lia|lia|]. intros _. split; [lia|].
    unfold f16_significand, f16_power. fold e f. rewrite (proj2 (Z.eqb_neq _ _) E0), (proj2 (Z.eqb_neq (e + 112) 0)) by lia.
    replace (2 ^ 23 + f * 2 ^ 13) with ((2 ^ 10 + f) * 2 ^ 13) by lia. rewrite scaleQ_shift by lia. by replace (e + 112 - 150 + 13) with (e - 25) by lia.
Qed.

(** ** Blocks *)

Import Codec.

(** Every block of the right size is decoded, to the right number of elements. *)
Lemma at_some block i : 0 ≤ i < Z.of_nat (length block) → ∃ b, at_ block i = Some b ∧ b ∈ block.
Proof.
  intros Hi. destruct (lookup_lt_is_Some_2 block (Z.to_nat i)) as [b Hb]; [lia|]. exists b. split; [done|]. by eapply list_elem_of_lookup_2.
Qed.

Lemma scale_some block i : 0 ≤ i → i + 1 < Z.of_nat (length block) → ∃ scale, scale_at block i = Some scale.
Proof.
  intros H0 Hi. destruct (at_some block i) as (a & Ha & _); [lia|]. destruct (at_some block (i + 1)) as (b & Hb & _); [lia|].
  eexists. unfold scale_at. by rewrite Ha, Hb.
Qed.

Lemma q6_some block scale index : length block = 210%nat → 0 ≤ index < 256 → ∃ v, q6_value block scale index = Some v.
Proof.
  intros Hl Hi. unfold q6_value, q6_quant. cbn zeta.
  destruct (at_some block (index / 128 * 64 + (index `mod` 128 / 32) `mod` 2 * 32 + index `mod` 32)) as (ql & Hql & _); [rewrite Hl; dlia|].
  destruct (at_some block (128 + index / 128 * 32 + index `mod` 32)) as (qh & Hqh & _); [rewrite Hl; dlia|].
  destruct (at_some block (192 + index / 16)) as (s & Hs & _); [rewrite Hl; dlia|].
  rewrite Hql, Hqh, Hs. by eexists.
Qed.

Lemma mapM_total {A B} (f : A → option B) l : Forall (λ a, ∃ b, f a = Some b) l → ∃ k, mapM f l = Some k ∧ length k = length l.
Proof.
  induction 1 as [|a l (b & Hb) _ (k & Hk & Hl)]; [by exists []|]. exists (b :: k). cbn. rewrite Hb. cbn. rewrite Hk. cbn. by rewrite Hl.
Qed.

Lemma decode_block_total t block n b : geometry t = Some (n, b) → Z.of_nat (length block) = b →
  ∃ vs, decode_block t block = Some vs ∧ Z.of_nat (length vs) = n.
Proof.
  intros Hg Hl. destruct t; try done; injection Hg as <- <-; cbn [decode_block].
  1,2: by eexists.
  - destruct (scale_some block 0) as [scale Hs]; [lia..|]. unfold q4_0_block. rewrite Hs. eexists. split; [done|].
    cbn [fmap list_fmap concat]. rewrite !length_app, !length_fmap, length_drop. cbn. lia.
  - destruct (scale_some block 0) as [scale Hs]; [lia..|]. unfold q8_0_block. rewrite Hs. eexists. split; [done|].
    rewrite length_fmap, length_drop. lia.
  - destruct (scale_some block 208) as [scale Hs]; [lia..|]. unfold q6_k_block. rewrite Hs. cbn [mbind option_bind].
    destruct (mapM_total (q6_value block scale) (seqZ 0 256)) as (k & Hk & Hlen).
    + apply Forall_forall. intros i Hi%elem_of_seqZ. apply q6_some; lia.
    + exists k. rewrite Hk, Hlen, length_seqZ. done.
Qed.

(** The elements of a block. *)
Definition elements_of (t : GgufDataType) (block : list Z) : list f32 := default [] (decode_block t block).

Lemma decode_block_elements t block n b : geometry t = Some (n, b) → Z.of_nat (length block) = b →
  decode_block t block = Some (elements_of t block) ∧ Z.of_nat (length (elements_of t block)) = n.
Proof. intros Hg Hl. unfold elements_of. by destruct (decode_block_total _ _ _ _ Hg Hl) as (vs & -> & Hn). Qed.

Lemma geometry_pos t n b : geometry t = Some (n, b) → 0 < n ≤ 256 ∧ 0 < b ≤ 210.
Proof. destruct t; try done; intros [= <- <-]; lia. Qed.

(** *** Chunks *)

Lemma as_chunks_nil n : as_chunks n [] = [].
Proof. unfold as_chunks. cbn [length]. by destruct n. Qed.

Lemma as_chunks_cons n c data : (0 < n)%nat → length c = n → as_chunks n (c ++ data) = c :: as_chunks n data.
Proof.
  intros Hn Hc. unfold as_chunks. rewrite length_app, Hc. replace (n + length data)%nat with (length data + 1 * n)%nat by lia.
  rewrite Nat.div_add, Nat.add_1_r by lia. cbn [replicate reshape]. by rewrite take_app_length', drop_app_length'.
Qed.

(** Data of whole blocks is its chunks. *)
Lemma as_chunks_concat n k data : (0 < n)%nat → length data = (k * n)%nat →
  ∃ cs, as_chunks n data = cs ∧ length cs = k ∧ concat cs = data ∧ Forall (λ c, length c = n) cs.
Proof.
  intros Hn. revert data. induction k as [|k IH]; intros data Hl.
  { destruct data; [|done]. exists []. by rewrite as_chunks_nil. }
  destruct (IH (drop n data)) as (cs & Hcs & Hk & Hd & HF); [rewrite length_drop; lia|].
  exists (take n data :: cs). rewrite <-(take_drop n data) at 1. rewrite as_chunks_cons by (done || (rewrite length_take; lia)).
  rewrite Hcs. cbn [length concat]. rewrite Hd, take_drop, Hk. split_and!; [done..|]. constructor; [rewrite length_take; lia|done].
Qed.

Lemma as_chunks_app n d1 d2 : (0 < n)%nat → (length d1 `mod` n = 0)%nat → as_chunks n (d1 ++ d2) = as_chunks n d1 ++ as_chunks n d2.
Proof.
  intros Hn Hm. destruct (as_chunks_concat n (length d1 / n) d1 Hn) as (cs & Hcs & _ & Hd & HF).
  { pose proof (Nat.div_mod_eq (length d1) n). lia. }
  rewrite Hcs. clear Hcs Hm. rewrite <-Hd. clear Hd. induction HF as [|c cs Hc _ IH]; [done|]. cbn [concat app]. by rewrite <-app_assoc, as_chunks_cons, IH.
Qed.

(** ** Decoding *)

(** The elements of whole blocks. *)
Definition decoded (t : GgufDataType) (data : list Z) : list f32 :=
  match geometry t with Some (_, b) => concat (elements_of t <$> as_chunks (Z.to_nat b) data) | None => [] end.

Lemma decode_blocks t n b cs : geometry t = Some (n, b) → Forall (λ c, length c = Z.to_nat b) cs →
  mapM (decode_block t) cs = Some (elements_of t <$> cs) ∧ Z.of_nat (length (concat (elements_of t <$> cs))) = Z.of_nat (length cs) * n.
Proof.
  intros Hg. destruct (geometry_pos _ _ _ Hg) as [_ Hb]. induction 1 as [|c cs Hc _ [IHm IHl]]; [by split|].
  destruct (decode_block_elements t c n b Hg ltac:(lia)) as [Hd Hn]. split.
  - cbn [mapM]. rewrite Hd. cbn [mbind option_bind]. by rewrite IHm.
  - cbn [fmap list_fmap concat length]. rewrite length_app, Nat2Z.inj_add, IHl, Hn. lia.
Qed.

(** Decoding succeeds exactly on whole blocks, for the whole tensor, and never panics. *)
Lemma decode_f32_ok t data elements vs : 0 ≤ elements →
  Codec.decode_f32 t data elements = Ok vs ↔
  ∃ n b k, geometry t = Some (n, b) ∧ elements = k * n ∧ Z.of_nat (length data) = k * b ∧ k * b < W64 ∧ 0 ≤ k ∧ vs = decoded t data.
Proof.
  intros He. unfold Codec.decode_f32, decoded. destruct (geometry t) as [[n b]|] eqn:Hg; cbn [ok_or]; [|by split; [|intros (? & ? & ? & ? & _)]].
  rewrite Ok_bind. destruct (geometry_pos _ _ _ Hg) as [Hn Hb]. pose proof (Z.div_mod elements n ltac:(lia)) as Hdm.
  split.
  - destruct (Z.eqb_spec (elements `mod` n) 0) as [Hm|]; cbn [negb]; [|done]. intros (expected & [-> Ho]%ok_or_ok%checked_mul_Some & H)%bind_ok.
    destruct (Z.eqb_spec (Z.of_nat (length data)) (elements / n * b)) as [Hl|]; cbn [negb] in H; [|done].
    exists n, b, (elements / n). destruct (as_chunks_concat (Z.to_nat b) (Z.to_nat (elements / n)) data) as (cs & Hcs & _ & _ & HF); [lia|nia|].
    rewrite Hcs in *. rewrite (proj1 (decode_blocks _ _ _ _ Hg HF)) in H. cbn [ok_or] in H. rewrite Ok_bind in H. injection H as <-.
    split_and!; [done|lia|done|lia|apply Z.div_pos; lia|done].
  - intros (n' & b' & k & [= <- <-] & -> & Hl & Ho & Hk & ->). rewrite Z.mod_mul, Z.div_mul, Z.eqb_refl by lia. cbn [negb].
    rewrite (proj2 (checked_mul_Some k b (k * b))) by done. cbn [ok_or]. rewrite Ok_bind, Hl, Z.eqb_refl. cbn [negb].
    destruct (as_chunks_concat (Z.to_nat b) (Z.to_nat k) data) as (cs & Hcs & _ & _ & HF); [lia|nia|]. rewrite Hcs.
    by rewrite (proj1 (decode_blocks _ _ _ _ Hg HF)).
Qed.

Lemma decode_f32_safe t data elements : 0 ≤ elements → Codec.decode_f32 t data elements ≠ Err None.
Proof.
  intros He E. unfold Codec.decode_f32 in E. destruct (geometry t) as [[n b]|] eqn:Hg; cbn [ok_or] in E; [|done]. rewrite Ok_bind in E.
  destruct (geometry_pos _ _ _ Hg) as [Hn Hb]. pose proof (Z.div_mod elements n ltac:(lia)) as Hdm.
  destruct (Z.eqb_spec (elements `mod` n) 0) as [Hm|]; cbn [negb] in E; [|done].
  apply bind_err in E as [E|(expected & [-> Ho]%ok_or_ok%checked_mul_Some & E)]; [by destruct (checked_mul _ _)|].
  destruct (Z.eqb_spec (Z.of_nat (length data)) (elements / n * b)) as [Hl|]; cbn [negb] in E; [|done].
  destruct (as_chunks_concat (Z.to_nat b) (Z.to_nat (elements / n)) data) as (cs & Hcs & _ & _ & HF); [lia|pose proof (Z.div_pos elements n); nia|].
  by rewrite Hcs, (proj1 (decode_blocks _ _ _ _ Hg HF)) in E.
Qed.

Lemma length_decoded t data n b k : geometry t = Some (n, b) → Z.of_nat (length data) = k * b → 0 ≤ k → Z.of_nat (length (decoded t data)) = k * n.
Proof.
  intros Hg Hl Hk. unfold decoded. rewrite Hg. destruct (geometry_pos _ _ _ Hg) as [_ Hb].
  destruct (as_chunks_concat (Z.to_nat b) (Z.to_nat k) data) as (cs & Hcs & Hlen & _ & HF); [lia|nia|]. rewrite Hcs.
  by rewrite (proj2 (decode_blocks _ _ _ _ Hg HF)), Hlen, Z2Nat.id.
Qed.

(** A stored tensor can be decoded piece by piece. *)
Lemma decoded_app t d1 d2 n b : geometry t = Some (n, b) → Z.of_nat (length d1) `mod` b = 0 → decoded t (d1 ++ d2) = decoded t d1 ++ decoded t d2.
Proof.
  intros Hg Hm. unfold decoded. rewrite Hg. destruct (geometry_pos _ _ _ Hg) as [_ Hb].
  rewrite as_chunks_app, fmap_app, concat_app; [done|lia|]. apply Nat2Z.inj. rewrite Nat2Z.inj_mod, Z2Nat.id by lia. done.
Qed.

Lemma decoded_nil t : decoded t [] = [].
Proof. unfold decoded. destruct (geometry t) as [[n b]|]; [|done]. by rewrite as_chunks_nil. Qed.

(** ** The layout of Q6_K *)

(** The reference loop of GGML: two halves, four quarters, 32 lanes; the low nibbles of a
    lane serve two quarters, its high bits all four. *)
Definition at0 (block : list Z) (i : Z) : Z := default 0 (block !! Z.to_nat i).

Definition ggml_quant (block : list Z) (half quarter lane : Z) : Z :=
  let ql i := at0 block (64 * half + i) in
  let qh := at0 block (128 + 32 * half + lane) in
  match quarter with
  | 0 => Z.lor (Z.land (ql lane) 15) (Z.shiftl (Z.land qh 3) 4)
  | 1 => Z.lor (Z.land (ql (lane + 32)) 15) (Z.shiftl (Z.land (Z.shiftr qh 2) 3) 4)
  | 2 => Z.lor (Z.shiftr (ql lane) 4) (Z.shiftl (Z.land (Z.shiftr qh 4) 3) 4)
  | _ => Z.lor (Z.shiftr (ql (lane + 32)) 4) (Z.shiftl (Z.land (Z.shiftr qh 6) 3) 4)
  end - 32.

Definition ggml_value (block : list Z) (p : Z * Z * Z) : f32 :=
  let '(half, quarter, lane) := p in
  let d := f16_to_f32 (le_value [at0 block 208; at0 block 209]) in
  let scale := at0 block (192 + 8 * half + lane / 16 + 2 * quarter) in
  f32_mul (f32_mul d (f32_of_Z (as_i8 scale))) (f32_of_Z (ggml_quant block half quarter lane)).

Definition ggml_order : list (Z * Z * Z) :=
  half ← seqZ 0 2; quarter ← seqZ 0 4; lane ← seqZ 0 32; [(half, quarter, lane)].

Definition ggml_q6_k (block : list Z) : list f32 := ggml_value block <$> ggml_order.

Lemma ggml_order_indices : (λ p : Z * Z * Z, 128 * p.1.1 + 32 * p.1.2 + p.2) <$> ggml_order = seqZ 0 256.
Proof. reflexivity. Qed.

Lemma ggml_order_range : Forall (λ p : Z * Z * Z, 0 ≤ p.1.1 < 2 ∧ 0 ≤ p.1.2 < 4 ∧ 0 ≤ p.2 < 32) ggml_order.
Proof.
  apply Forall_forall. intros [[h j] l]. unfold ggml_order. rewrite list_elem_of_bind. intros (h' & Hj & Hh%elem_of_seqZ).
  apply list_elem_of_bind in Hj as (j' & Hl & Hj%elem_of_seqZ). apply list_elem_of_bind in Hl as (l' & E & Hl%elem_of_seqZ).
  apply list_elem_of_singleton in E as [= -> -> ->]. cbn [fst snd]. lia.
Qed.

Lemma nibbles a b : 0 ≤ a < 16 → 0 ≤ b → Z.lor a (Z.shiftl b 4) = a + 16 * b.
Proof.
  intros Ha Hb. rewrite Z.shiftl_mul_pow2 by lia. rewrite <-Z.add_nocarry_lor; [lia|]. by apply land_low_high.
Qed.

Lemma land_range a k : 0 ≤ k → 0 ≤ Z.land a (Z.ones k) < 2 ^ k.
Proof. intros Hk. rewrite Z.land_ones by done. apply Z.mod_pos_bound. by apply Z.pow_pos_nonneg. Qed.

Lemma at0_some block i : 0 ≤ i < Z.of_nat (length block) → at_ block i = Some (at0 block i).
Proof. intros Hi. destruct (at_some block i Hi) as (b & Hb & _). unfold at0. unfold at_ in *. by rewrite Hb. Qed.

Lemma at0_u8 block i : Forall u8 block → u8 (at0 block i).
Proof.
  intros Hb. unfold at0. destruct (block !! Z.to_nat i) as [b|] eqn:E; [|done]. by apply (Forall_lookup_1 _ _ _ _ Hb E).
Qed.

Lemma high_nibble a : u8 a → Z.land (Z.shiftr a 4) 15 = Z.shiftr a 4 ∧ 0 ≤ Z.shiftr a 4 < 16.
Proof.
  intros [H1 H2]. change 15 with (Z.ones 4). rewrite Z.land_ones by lia. rewrite !Z.shiftr_div_pow2 by lia. change (2 ^ 4) with 16.
  assert (0 ≤ a / 16 < 16) by dlia. by rewrite Z.mod_small.
Qed.

Lemma q6_quant_ggml block h j l : length block = 210%nat → Forall u8 block → 0 ≤ h < 2 → 0 ≤ j < 4 → 0 ≤ l < 32 →
  q6_quant block (128 * h + 32 * j + l) = Some (ggml_quant block h j l).
Proof.
  intros Hl Hu Hh Hj Hll. unfold q6_quant. cbn zeta.
  replace ((128 * h + 32 * j + l) / 128) with h by dlia. replace ((128 * h + 32 * j + l) `mod` 128 / 32) with j by dlia.
  replace ((128 * h + 32 * j + l) `mod` 32) with l by dlia.
  rewrite !at0_some by (rewrite Hl; dlia). cbn [mbind option_bind]. f_equal. unfold ggml_quant.
  pose proof (at0_u8 block (128 + 32 * h + l) Hu) as Hqh. pose proof (at0_u8 block (64 * h + l) Hu) as Hq0. pose proof (at0_u8 block (64 * h + (l + 32)) Hu) as Hq1.
  pose proof (λ a, land_range a 4 ltac:(lia)) as H15. pose proof (λ a, land_range a 2 ltac:(lia)) as H3.
  change (Z.ones 4) with 15 in H15. change (Z.ones 2) with 3 in H3. change (2 ^ 2) with 4 in H3. change (2 ^ 4) with 16 in H15.
  assert (j = 0 ∨ j = 1 ∨ j = 2 ∨ j = 3) as Hc by lia. replace (128 + h * 32 + l) with (128 + 32 * h + l) by lia.
  destruct Hc as [->|[->|[->| ->]]].
  - change (0 `mod` 2 * 32) with 0. change (4 * (0 / 2)) with 0. change (2 * 0) with 0. rewrite !Z.shiftr_0_r.
    replace (h * 64 + 0 + l) with (64 * h + l) by lia. by rewrite nibbles by apply H15 || apply H3.
  - change (1 `mod` 2 * 32) with 32. change (4 * (1 / 2)) with 0. change (2 * 1) with 2. rewrite Z.shiftr_0_r.
    replace (h * 64 + 32 + l) with (64 * h + (l + 32)) by lia. by rewrite nibbles by apply H15 || apply H3.
  - change (2 `mod` 2 * 32) with 0. change (4 * (2 / 2)) with 4. change (2 * 2) with 4.
    replace (h * 64 + 0 + l) with (64 * h + l) by lia. destruct (high_nibble _ Hq0) as [-> ?]. by rewrite nibbles by done || apply H3.
  - change (3 `mod` 2 * 32) with 32. change (4 * (3 / 2)) with 4. change (2 * 3) with 6.
    replace (h * 64 + 32 + l) with (64 * h + (l + 32)) by lia. destruct (high_nibble _ Hq1) as [-> ?]. by rewrite nibbles by done || apply H3.
Qed.

Lemma q6_block_ggml block : length block = 210%nat → Forall u8 block → decode_block DataType.Q6_K block = Some (ggml_q6_k block).
Proof.
  intros Hl Hu. cbn [decode_block]. unfold q6_k_block, scale_at. rewrite !at0_some by (rewrite Hl; lia). cbn [mbind option_bind].
  apply mapM_Some. rewrite <-ggml_order_indices. unfold ggml_q6_k. rewrite Forall2_fmap. apply Forall_Forall2_diag.
  eapply Forall_impl; [exact ggml_order_range|]. intros [[h j] l] (Hh & Hj & Hll). cbn [fst snd] in *.
  unfold q6_value, ggml_value. rewrite q6_quant_ggml by done. cbn [mbind option_bind].
  replace (192 + (128 * h + 32 * j + l) / 16) with (192 + 8 * h + l / 16 + 2 * j) by dlia. by rewrite at0_some by (rewrite Hl; dlia).
Qed.

(** ** What a block means *)

(** Scalars are one element; Q4_0 holds the low nibbles and then the high ones, offset by
    eight, and Q8_0 signed bytes, both times the scale in front; Q6_K is the reference. *)
Definition reference_block (t : GgufDataType) (block : list Z) : list f32 :=
  let d := f16_to_f32 (le_value (take 2 block)) in
  match t with
  | DataType.F32 => [f32_from_bits (le_value block)]
  | DataType.F16 => [f16_to_f32 (le_value block)]
  | DataType.Q4_0 => ((λ b, f32_mul (f32_of_Z (b `mod` 16 - 8)) d) <$> drop 2 block) ++ ((λ b, f32_mul (f32_of_Z (b / 16 - 8)) d) <$> drop 2 block)
  | DataType.Q8_0 => (λ b, f32_mul (f32_of_Z ((b + 128) `mod` 256 - 128)) d) <$> drop 2 block
  | DataType.Q6_K => ggml_q6_k block
  | _ => []
  end.

Lemma scale_front block : (2 ≤ length block)%nat → scale_at block 0 = Some (f16_to_f32 (le_value (take 2 block))).
Proof. destruct block as [|a [|b block]]; cbn; try lia. done. Qed.

Lemma reference_ok t block n b : geometry t = Some (n, b) → Z.of_nat (length block) = b → Forall u8 block → elements_of t block = reference_block t block.
Proof.
  intros Hg Hl Hu. assert (Forall u8 (drop 2 block)) as Hd by (by apply Forall_drop). unfold elements_of, reference_block.
  destruct t; try done; injection Hg as <- <-; try done; cbn [decode_block].
  - unfold q4_0_block. rewrite scale_front by lia. cbn [mbind option_bind fmap list_fmap concat default]. rewrite app_nil_r. unfold id.
    f_equal; apply list_fmap_ext; intros i x Hx; pose proof (Forall_lookup_1 _ _ _ _ Hd Hx) as Hx8; do 3 f_equal.
    + rewrite Z.shiftr_0_r. change 15 with (Z.ones 4). by rewrite Z.land_ones by lia.
    + destruct (high_nibble _ Hx8) as [-> _]. by rewrite Z.shiftr_div_pow2 by lia.
  - unfold q8_0_block. rewrite scale_front by lia. cbn [mbind option_bind default]. unfold id. apply list_fmap_ext. intros i x Hx.
    destruct (Forall_lookup_1 _ _ _ _ Hd Hx) as [H1 H2]. do 2 f_equal. unfold as_i8. destruct (Z.ltb_spec x 128); dlia.
  - pose proof (q6_block_ggml block ltac:(lia) Hu) as E. cbn [decode_block] in E. by rewrite E.
Qed.

Lemma fixed_chunks {A} (b : nat) (cs1 cs2 : list (list A)) : (0 < b)%nat → Forall (λ c, length c = b) cs1 → Forall (λ c, length c = b) cs2 →
  concat cs1 = concat cs2 → cs1 = cs2.
Proof.
  intros Hb H1. revert cs2. induction H1 as [|c cs1 Hc _ IH]; intros cs2 H2 E; destruct H2 as [|c2 cs2 Hc2 H2]; cbn [concat] in E; [done| | |].
  - apply (f_equal length) in E. rewrite length_app in E. cbn in E. lia.
  - apply (f_equal length) in E. rewrite length_app in E. cbn in E. lia.
  - apply app_inj_1 in E as [-> E]; [|by rewrite Hc, Hc2]. f_equal. by apply IH.
Qed.

Lemma blocks_length {A} (b : Z) (blocks : list (list A)) : Forall (λ c, Z.of_nat (length c) = b) blocks →
  Z.of_nat (length (concat blocks)) = Z.of_nat (length blocks) * b.
Proof. induction 1 as [|c cs Hc _ IH]; [done|]. cbn [concat length]. rewrite length_app. lia. Qed.

(** The elements of whole blocks are those of the reference, whatever splits the bytes. *)
Lemma decoded_blocks t n b blocks : geometry t = Some (n, b) → Forall (λ c, Z.of_nat (length c) = b) blocks → Forall u8 (concat blocks) →
  decoded t (concat blocks) = concat (reference_block t <$> blocks).
Proof.
  intros Hg HF Hu. destruct (geometry_pos _ _ _ Hg) as [_ Hb]. pose proof (blocks_length b blocks HF) as Hlen. unfold decoded. rewrite Hg.
  destruct (as_chunks_concat (Z.to_nat b) (length blocks) (concat blocks)) as (cs & Hcs & _ & Hd & HFc); [lia|nia|]. rewrite Hcs. clear Hcs.
  apply (fixed_chunks (Z.to_nat b)) in Hd as ->; [|lia|done|eapply Forall_impl; [exact HF|]; intros c Hc; cbn in Hc; lia].
  f_equal. clear -Hg HF Hu. apply Forall_fmap_ext_1. induction HF as [|c cs Hc _ IH]; [done|]. apply Forall_app in Hu as [H1 H2].
  constructor; [by eapply reference_ok|by apply IH].
Qed.

Lemma whole_blocks (b k : Z) (data : list Z) : 0 < b → 0 ≤ k → Z.of_nat (length data) = k * b →
  ∃ blocks, concat blocks = data ∧ Forall (λ c, Z.of_nat (length c) = b) blocks ∧ Z.of_nat (length blocks) = k.
Proof.
  intros Hb Hk Hl. destruct (as_chunks_concat (Z.to_nat b) (Z.to_nat k) data) as (cs & _ & Hlen & Hd & HF); [lia|nia|].
  exists cs. split_and!; [done| |lia]. eapply Forall_impl; [exact HF|]. intros c Hc. cbn in Hc. lia.
Qed.

(** [C15] Decoding is the stored format. Whatever the bytes, [decode_f32] does not panic; it
    succeeds exactly when the bytes are whole blocks that hold the requested number of
    elements, and then gives the elements of each block in order: for Q6_K those of the
    reference loops of GGML, although the code computes each from its index alone. The half
    precision numbers in them are widened exactly, with the sign of zero and the bits of a NaN. *)
Theorem decode_f32_reference t data elements : 0 ≤ elements → Forall u8 data →
  Codec.decode_f32 t data elements ≠ Err None ∧
  (∀ vs, Codec.decode_f32 t data elements = Ok vs ↔
    ∃ n b blocks, geometry t = Some (n, b) ∧ concat blocks = data ∧ Forall (λ c, Z.of_nat (length c) = b) blocks ∧
      elements = Z.of_nat (length blocks) * n ∧ Z.of_nat (length data) < W64 ∧ vs = concat (reference_block t <$> blocks)) ∧
  ∀ bits, 0 ≤ bits < 2 ^ 16 → widened bits (Codec.f16_to_f32 bits).
Proof.
  intros He Hu. split_and!; [by apply decode_f32_safe| |by apply f16_exact]. intros vs. rewrite decode_f32_ok by done. split.
  - intros (n & b & k & Hg & -> & Hl & Ho & Hk & ->). destruct (geometry_pos _ _ _ Hg) as [_ Hb].
    destruct (whole_blocks b k data) as (cs & <- & HF & Hlen); [lia..|]. exists n, b, cs.
    split_and!; [done|done|done|by rewrite Hlen|lia|by eapply decoded_blocks].
  - intros (n & b & cs & Hg & <- & HF & -> & Hlt & ->). pose proof (blocks_length b cs HF) as Hlen. exists n, b, (Z.of_nat (length cs)).
    split_and!; [done|done|done|lia|lia|]. symmetry. by eapply decoded_blocks.
Qed.

(** A Q4_0 block: the scale one half, and all the bytes [0x9A]. *)
Definition sample_q4_0 : list Z := [0; 56] ++ replicate 16 154.

Lemma decode_f32_reference_witness : ∃ vs, Codec.decode_f32 DataType.Q4_0 sample_q4_0 32 = Ok vs ∧ Forall (λ v, v = f32_of_Z 1 ∨ v = f32_from_bits 0x3F000000) vs.
Proof.
  assert (Forall u8 sample_q4_0) as Hu by (unfold sample_q4_0, u8; repeat (constructor; [lia|]); constructor).
  exists (reference_block DataType.Q4_0 sample_q4_0). split.
  - apply (proj1 (proj2 (decode_f32_reference DataType.Q4_0 sample_q4_0 32 ltac:(lia) Hu))). exists 32, 18, [sample_q4_0].
    split_and!; try done. constructor; [done|constructor].
  - apply (bool_decide_unpack _). vm_compute. exact I.
Defined.
