(* ===== verification/Gguf.v ===== *)
(** * gguf.rs and view.rs of gguf: the reader of model files

    A file is its bytes, an offset a position in them. The reader walks the header, the
    metadata and the tensor descriptors, and checks that every tensor whose layout it knows
    lies inside the file. [gguf_format] says which files it opens. A view decodes a tensor,
    whole or by rows.

    The error of an inner decoder is its message; [Err None] is a panic: a sum that
    overflows or an index out of range. *)
From S2P Require Import Prelude Float Float32 Bytes Text GgufCodecs.
#[local] Set Warnings "-register-all".
#[local] Open Scope string_scope.
#[local] Open Scope list_scope.
#[local] Open Scope Z_scope.

(** ** Data *)

Definition GGUF_MAGIC : Z := 0x46554747.
Definition GGUF_SUPPORTED_VERSION : Z := 3.

Inductive GgufMetadataValue : Set :=
  | GU8 (n : Z) | GI8 (n : Z) | GU16 (n : Z) | GI16 (n : Z) | GU32 (n : Z) | GI32 (n : Z) | GF32 (v : f32) | GBool (b : bool)
  | GString (s : string) | GU64 (n : Z) | GI64 (n : Z) | GF64 (v : f64) | GArray (kind : GgufDataType) (values : list GgufMetadataValue).

Record GgufHeader : Set := mkGgufHeader { magic : Z; header_version : Z; tensor_count : Z; metadata_kv_count : Z }.

Record GgufTensorInfo : Set := mkGgufInfo { info_name : string; n_dims : Z; dims : list Z; data_type : GgufDataType; info_offset : Z }.

(** The map is a [HashMap], of which only look-up and the set of entries are observed. *)
Record GgufReader : Set := mkGgufReader {
  mmap : list Z; gguf_header : GgufHeader; gguf_metadata : gmap string GgufMetadataValue; tensor_infos : list GgufTensorInfo;
  tensor_data_offset : Z;
}.

(** ** Fields *)

Module Parse.
Import DataType.

Definition file_len (bytes : list Z) : Z := Z.of_nat (length bytes).

(** [bytes.get(first..last)]. *)
Definition get (bytes : list Z) (first last : Z) : option (list Z) :=
  if (first <=? last) && (last <=? file_len bytes) then Some (take (Z.to_nat (last - first)) (drop (Z.to_nat first) bytes)) else None.

(** The test [offset + n > bytes.len()] and then the slice [bytes[offset..offset + n]], with
    the offset behind it. *)
Definition field (bytes : list Z) (offset n : Z) (message : string) : Result (option string) (list Z * Z) :=
  last ← ok_or None (checked_add offset n);
  if file_len bytes <? last then Err (Some message) else
  data ← ok_or None (get bytes offset last);
  Ok (data, last).

(** The test [offset >= bytes.len()] and then [bytes[offset]]. *)
Definition byte (bytes : list Z) (offset : Z) (message : string) : Result (option string) (Z * Z) :=
  if file_len bytes <=? offset then Err (Some message) else
  b ← ok_or None (bytes !! Z.to_nat offset);
  last ← ok_or None (checked_add offset 1);
  Ok (b, last).

(** The two's complement value of [bits] bits. *)
Definition signed (bits n : Z) : Z := if n <? 2 ^ (bits - 1) then n else n - 2 ^ bits.

Definition decode_header (bytes : list Z) : option GgufHeader :=
  magic ← get bytes 0 4; version ← get bytes 4 8; tensors ← get bytes 8 16; metadata ← get bytes 16 24;
  Some (mkGgufHeader (le_value magic) (le_value version) (le_value tensors) (le_value metadata)).

Definition decode_string (bytes : list Z) (offset : Z) : Result (option string) (string * Z) :=
  '(size, str_start) ← field bytes offset 8 "offset fuera de rango leyendo string len";
  last ← ok_or (Some "string range overflow") (checked_add str_start (le_value size));
  data ← ok_or (Some "string outside file") (get bytes str_start last);
  if negb (Utf8.from_utf8 data) then Err (Some "invalid UTF-8") else
  Ok (string_of data, last).

(** An array holds no array, so that two levels are enough fuel. *)
Fixpoint decode_metadata_value (fuel : nat) (bytes : list Z) (offset type_id : Z) : Result (option string) (GgufMetadataValue * Z) :=
  match fuel with
  | O => Err None
  | S fuel =>
      dt ← ok_or (Some ("tipo desconocido: " +:+ Integer.to_string type_id)) (from_metadata_u32 type_id);
      match dt with
      | U8 => '(b, next) ← byte bytes offset "offset fuera de rango U8"; Ok (GU8 b, next)
      | I8 => '(b, next) ← byte bytes offset "offset fuera de rango I8"; Ok (GI8 (signed 8 b), next)
      | U16 => '(d, next) ← field bytes offset 2 "offset fuera de rango U16"; Ok (GU16 (le_value d), next)
      | I16 => '(d, next) ← field bytes offset 2 "offset fuera de rango I16"; Ok (GI16 (signed 16 (le_value d)), next)
      | U32 => '(d, next) ← field bytes offset 4 "offset fuera de rango U32"; Ok (GU32 (le_value d), next)
      | I32 => '(d, next) ← field bytes offset 4 "offset fuera de rango I32"; Ok (GI32 (signed 32 (le_value d)), next)
      | F32 => '(d, next) ← field bytes offset 4 "offset fuera de rango F32"; Ok (GF32 (f32_from_bits (le_value d)), next)
      | Bool =>
          '(b, next) ← byte bytes offset "offset fuera de rango Bool";
          if (b =? 0) || (b =? 1) then Ok (GBool (b =? 1), next) else Err (Some "invalid boolean value")
      | String => '(s, next) ← decode_string bytes offset; Ok (GString s, next)
      | U64 => '(d, next) ← field bytes offset 8 "offset fuera de rango U64"; Ok (GU64 (le_value d), next)
      | I64 => '(d, next) ← field bytes offset 8 "offset fuera de rango I64"; Ok (GI64 (signed 64 (le_value d)), next)
      | F64 => '(d, next) ← field bytes offset 8 "offset fuera de rango F64"; Ok (GF64 (from_bits (le_value d)), next)
      | Array =>
          '(d, next) ← field bytes offset 12 "offset fuera de rango Array header";
          let elem_type := le_value (take 4 d) in
          let count := le_value (drop 4 d) in
          if elem_type =? 9 then Err (Some "nested arrays unsupported") else
          '(values, next) ← for_each (λ _ '(values, offset), '(v, next) ← decode_metadata_value fuel bytes offset elem_type; Ok (values ++ [v], next))
            (seqZ 0 count) ([], next);
          elem_dt ← ok_or (Some ("tipo array desconocido: " +:+ Integer.to_string elem_type)) (from_metadata_u32 elem_type);
          Ok (GArray elem_dt values, next)
      | _ => Err (Some ("tipo de metadato no soportado: " +:+ Integer.to_string type_id))
      end
  end.

Definition decode_metadata_kv (bytes : list Z) (offset : Z) : Result (option string) (string * GgufMetadataValue * Z) :=
  '(key, offset) ← decode_string bytes offset;
  '(d, offset) ← field bytes offset 4 "offset fuera de rango leyendo value type";
  '(value, offset) ← decode_metadata_value 2 bytes offset (le_value d);
  Ok (key, value, offset).

Definition decode_dim (bytes : list Z) (_ : Z) (state : list Z * Z) : Result (option string) (list Z * Z) :=
  let '(dims, offset) := state in
  '(d, offset) ← field bytes offset 8 "offset fuera de rango leyendo dim";
  Ok (dims ++ [le_value d], offset).

(** [try_fold] with [checked_mul]. *)
Definition checked_product (l : list Z) : option Z := foldl (λ n d, n ← n; checked_mul n d) (Some 1) l.

Definition decode_tensor_info (bytes : list Z) (offset : Z) : Result (option string) (GgufTensorInfo * Z) :=
  '(name, offset) ← decode_string bytes offset;
  '(d, offset) ← field bytes offset 4 "offset fuera de rango leyendo n_dims";
  let n_dims := le_value d in
  if negb ((1 <=? n_dims) && (n_dims <=? 4)) then Err (Some "tensor rank must be 1..=4") else
  '(dims, offset) ← for_each (decode_dim bytes) (seqZ 0 n_dims) ([], offset);
  if bool_decide (0 ∈ dims) || negb (bool_decide (is_Some (checked_product dims))) then Err (Some "invalid tensor dimensions") else
  '(d, offset) ← field bytes offset 4 "offset fuera de rango leyendo data_type";
  data_type ← ok_or (Some ("tipo tensor desconocido: " +:+ Integer.to_string (le_value d))) (from_u32 (le_value d));
  '(d, offset) ← field bytes offset 8 "offset fuera de rango leyendo tensor offset";
  Ok (mkGgufInfo name n_dims dims data_type (le_value d), offset).
End Parse.

(** ** The reader *)

Module Gguf.
Import DataType Parse.

(** [u32::swap_bytes]. *)
Definition swap_bytes (v : Z) : Z := le_value (reverse (le_bytes 4 v)).

Definition supported_layout (dtype : GgufDataType) : bool :=
  (0 <? element_size dtype) || match dtype with Q4_0 | Q8_0 | Q6_K => true | _ => false end.

Definition encoded_tensor_len (info : GgufTensorInfo) : option Z :=
  match dims info with
  | [] => None
  | first :: _ =>
      if negb (Z.of_nat (length (dims info)) =? n_dims info) || bool_decide (0 ∈ dims info) then None else
      elements ← checked_product (dims info);
      match data_type info with
      | Q6_K => if negb (first `mod` 256 =? 0) then None else checked_mul (elements / 256) 210
      | Q4_0 => if negb (first `mod` 32 =? 0) then None else checked_mul (elements / 32) 18
      | Q8_0 => if negb (first `mod` 32 =? 0) then None else checked_mul (elements / 32) 34
      | dtype => if 0 <? element_size dtype then checked_mul elements (element_size dtype) else None
      end
  end.

Definition tensor_data (self : GgufReader) (info : GgufTensorInfo) : option (list Z) :=
  data_start ← checked_add (tensor_data_offset self) (info_offset info);
  size ← encoded_tensor_len info;
  data_end ← checked_add data_start size;
  get (mmap self) data_start data_end.

Definition read_metadata (bytes : list Z) (_ : Z) (state : gmap string GgufMetadataValue * Z)
    : Result (option GgufError) (gmap string GgufMetadataValue * Z) :=
  let '(metadata, offset) := state in
  '(key, value, new_offset) ← map_err (fmap (InvalidMetadata offset)) (decode_metadata_kv bytes offset);
  match metadata !! key with
  | None => Ok (<[key := value]> metadata, new_offset)
  | Some _ => Err (Some (InvalidMetadata offset ("duplicate metadata key: " +:+ key)))
  end.

Definition read_info (bytes : list Z) (_ : Z) (state : list GgufTensorInfo * gset string * Z)
    : Result (option GgufError) (list GgufTensorInfo * gset string * Z) :=
  let '(infos, names, offset) := state in
  '(info, new_offset) ← map_err (fmap (InvalidTensorInfo offset)) (decode_tensor_info bytes offset);
  if bool_decide (info_name info ∈ names) then Err (Some (InvalidTensorInfo offset ("duplicate tensor name: " +:+ info_name info))) else
  Ok (infos ++ [info], {[info_name info]} ∪ names, new_offset).

Definition alignment_of (metadata : gmap string GgufMetadataValue) : Result (option GgufError) Z :=
  match metadata !! "general.alignment" with
  | None => Ok 32
  | Some (GU32 n) => if negb (n =? 0) && (n `mod` 8 =? 0) then Ok n else Err (Some InvalidAlignment)
  | _ => Err (Some InvalidAlignment)
  end.

Definition check_tensor (parser : GgufReader) (alignment : Z) (info : GgufTensorInfo) (_ : unit) : Result (option GgufError) unit :=
  if negb (info_offset info `mod` alignment =? 0) then Err (Some (UnalignedTensor (info_name info) (info_offset info) alignment)) else
  if supported_layout (data_type info) && bool_decide (tensor_data parser info = None) then Err (Some (InvalidTensorRange (info_name info))) else
  Ok tt.

(** [open] on the bytes of the mapped file. *)
Definition open (bytes : list Z) : Result (option GgufError) GgufReader :=
  if file_len bytes <? 24 then Err (Some (Truncated 0 24 (file_len bytes))) else
  header ← ok_or None (decode_header bytes);
  if (magic header =? GGUF_MAGIC) && (swap_bytes (header_version header) =? 3) then Err (Some UnsupportedEndianness) else
  if negb (magic header =? GGUF_MAGIC) then Err (Some (InvalidMagic (magic header))) else
  if negb ((2 <=? header_version header) && (header_version header <=? GGUF_SUPPORTED_VERSION))
  then Err (Some (UnsupportedVersion (header_version header))) else
  '(metadata, offset) ← for_each (read_metadata bytes) (seqZ 0 (metadata_kv_count header)) (∅, 24);
  '(infos, _, offset) ← for_each (read_info bytes) (seqZ 0 (tensor_count header)) ([], ∅, offset);
  alignment ← alignment_of metadata;
  data_offset ← ok_or (Some SizeOverflow) (n ← checked_add offset (alignment - 1); Some (n / alignment * alignment));
  let parser := mkGgufReader bytes header metadata infos data_offset in
  _ ← for_each (check_tensor parser alignment) infos tt;
  Ok parser.

Definition find_tensor (self : GgufReader) (name : string) : option GgufTensorInfo :=
  snd <$> list_find (λ t, info_name t = name) (tensor_infos self).

Definition get_metadata (self : GgufReader) (key : string) : option GgufMetadataValue := gguf_metadata self !! key.

Definition architecture (self : GgufReader) : option string :=
  match gguf_metadata self !! "general.architecture" with Some (GString s) => Some s | _ => None end.
End Gguf.

(** ** Views *)

Record GgufTensorView : Set := mkView { view_info : GgufTensorInfo; view_data : list Z }.

Module View.
Import Parse Gguf.

Definition tensor_view (self : GgufReader) (name : string) : Result (option GgufError) GgufTensorView :=
  info ← ok_or (Some (TensorNotFound name)) (find_tensor self name);
  data ← ok_or (Some (if supported_layout (data_type info) then InvalidTensorRange name else UnsupportedDataType (data_type info)))
    (tensor_data self info);
  Ok (mkView info data).

Definition decode_f32 (self : GgufTensorView) : Result (option GgufError) (list f32) :=
  elements ← ok_or (Some SizeOverflow) (checked_product (dims (view_info self)));
  Codec.decode_f32 (data_type (view_info self)) (view_data self) elements.

Definition decode_row_f32 (self : GgufTensorView) (row : Z) : Result (option GgufError) (list f32) :=
  let invalid := Some (InvalidTensorRange (info_name (view_info self))) in
  match dims (view_info self) with
  | [] => Err invalid
  | columns :: outer =>
      rows ← ok_or (Some SizeOverflow) (checked_product outer);
      if (columns =? 0) || (rows <=? row) || negb (file_len (view_data self) `mod` rows =? 0) then Err invalid else
      let stride := file_len (view_data self) / rows in
      start ← ok_or (Some SizeOverflow) (checked_mul row stride);
      last ← ok_or None (checked_add start stride);
      data ← ok_or None (get (view_data self) start last);
      Codec.decode_f32 (data_type (view_info self)) data columns
  end.

Definition read_tensor_f32 (self : GgufReader) (name : string) : Result (option GgufError) (list f32) :=
  view ← tensor_view self name; decode_f32 view.
End View.

(** ** Positions in a file *)

(** The file has the chunk at the offset. *)
Definition holds (bytes : list Z) (offset : Z) (chunk : list Z) : Prop :=
  ∃ pre post, bytes = pre ++ chunk ++ post ∧ Z.of_nat (length pre) = offset.

Lemma holds_range bytes o c : holds bytes o c → 0 ≤ o ∧ o + Z.of_nat (length c) ≤ Parse.file_len bytes.
Proof. intros (pre & post & -> & <-). unfold Parse.file_len. rewrite !length_app. lia. Qed.

Lemma holds_nil bytes o : 0 ≤ o ≤ Parse.file_len bytes → holds bytes o [].
Proof.
  unfold Parse.file_len. intros Ho. exists (take (Z.to_nat o) bytes), (drop (Z.to_nat o) bytes). rewrite app_nil_l, take_drop. split; [done|].
  rewrite length_take. lia.
Qed.

Lemma holds_app bytes o a b : holds bytes o (a ++ b) ↔ holds bytes o a ∧ holds bytes (o + Z.of_nat (length a)) b.
Proof.
  split.
  - intros (pre & post & -> & <-). split.
    + exists pre, (b ++ post). by rewrite !app_assoc.
    + exists (pre ++ a), post. rewrite length_app, !app_assoc. split; [done|lia].
  - intros [(pre & post & -> & <-) (pre' & post' & E & Hl)]. exists pre, post'. split; [|done].
    assert (pre ++ a = pre') as <-.
    { rewrite app_assoc in E. apply app_inj_1 in E as [-> _]; [done|]. rewrite length_app. lia. }
    rewrite E. by rewrite !app_assoc.
Qed.

Lemma holds_inj bytes o a b : holds bytes o a → holds bytes o b → length a = length b → a = b.
Proof.
  intros (pre & post & -> & <-) (pre' & post' & E & Hl) Hab. apply app_inj_1 in E as [_ E]; [|lia]. by apply app_inj_1 in E as [-> _].
Qed.

Lemma get_ok bytes a b d : 0 ≤ a → Parse.get bytes a b = Some d ↔ holds bytes a d ∧ b = a + Z.of_nat (length d).
Proof.
  intros Ha. unfold Parse.get, Parse.file_len. destruct (Z.leb_spec a b), (Z.leb_spec b (Z.of_nat (length bytes))); cbn [andb].
  - split.
    + intros [= <-]. rewrite length_take, length_drop. split; [|lia]. exists (take (Z.to_nat a) bytes), (drop (Z.to_nat b) bytes).
      rewrite length_take. split; [|lia]. replace (Z.to_nat b) with (Z.to_nat a + Z.to_nat (b - a))%nat by lia.
      by rewrite <-drop_drop, take_drop, take_drop.
    + intros [(pre & post & -> & <-) ->]. rewrite drop_app_length' by lia. rewrite take_app_length' by lia. done.
  - split; [done|]. intros [Hh ->]. apply holds_range in Hh as [_ Hh]. unfold Parse.file_len in Hh. lia.
  - split; [done|]. intros [_ ->]. lia.
  - split; [done|]. intros [_ ->]. lia.
Qed.

Section positions.
Context (bytes : list Z) (Hu : Forall u8 bytes) (Hlen : Parse.file_len bytes < 2 ^ 63).

Lemma field_ok o n message d e : 0 ≤ o → 0 ≤ n →
  Parse.field bytes o n message = Ok (d, e) ↔ holds bytes o d ∧ Z.of_nat (length d) = n ∧ e = o + n.
Proof.
  intros Ho Hn. unfold Parse.field. rewrite bind_ok. split.
  - intros (l & [-> Hl]%ok_or_ok%checked_add_Some & H). destruct (Z.ltb_spec (Parse.file_len bytes) (o + n)); [done|].
    apply bind_ok in H as (d' & H1%ok_or_ok & [= -> <-]). apply get_ok in H1 as [Hd E]; [|done]. split_and!; [done|lia|done].
  - intros (Hd & <- & ->). pose proof (holds_range _ _ _ Hd) as [_ Hr]. exists (o + Z.of_nat (length d)). split.
    { apply ok_or_ok, checked_add_Some. split; [done|]. change W64 with (2 * 2 ^ 63). lia. }
    destruct (Z.ltb_spec (Parse.file_len bytes) (o + Z.of_nat (length d))); [lia|].
    rewrite (proj2 (get_ok bytes o (o + Z.of_nat (length d)) d Ho)) by done. done.
Qed.

Lemma holds_u8 o c : holds bytes o c → Forall u8 c.
Proof. intros (pre & post & E & _). rewrite E in Hu. by apply Forall_app in Hu as [_ [? _]%Forall_app]. Qed.

(** A number of [k] bytes. *)
Lemma field_le_ok o n k message d e : 0 ≤ o → n = Z.of_nat k →
  Parse.field bytes o n message = Ok (d, e) ↔ ∃ v, d = le_bytes k v ∧ 0 ≤ v < 256 ^ Z.of_nat k ∧ holds bytes o d ∧ e = o + n.
Proof.
  intros Ho ->. rewrite field_ok by lia. split.
  - intros (Hd & Hl & ->). pose proof (holds_u8 _ _ Hd) as Hd8. exists (le_value d).
    rewrite le_bytes_value by (done || lia). pose proof (le_value_bounds d Hd8) as Hv. rewrite Hl in Hv. done.
  - intros (v & -> & Hv & Hd & ->). rewrite length_le_bytes. done.
Qed.

Lemma byte_ok o message b e : 0 ≤ o → Parse.byte bytes o message = Ok (b, e) ↔ u8 b ∧ holds bytes o (le_bytes 1 b) ∧ e = o + 1.
Proof.
  intros Ho. unfold Parse.byte, Parse.file_len. destruct (Z.leb_spec (Z.of_nat (length bytes)) o) as [Hge|Hlt].
  { split; [done|]. intros (_ & Hh & _). apply holds_range in Hh as [_ Hh]. rewrite length_le_bytes in Hh. unfold Parse.file_len in Hh. lia. }
  rewrite bind_ok. split.
  - intros (b' & Hb%ok_or_ok & H). apply bind_ok in H as (l & [-> _]%ok_or_ok%checked_add_Some & [= <- <-]).
    pose proof (Forall_lookup_1 _ _ _ _ Hu Hb) as Hb8. split; [done|]. split; [|done]. cbn [le_bytes]. rewrite Z.mod_small by exact Hb8.
    exists (take (Z.to_nat o) bytes), (drop (S (Z.to_nat o)) bytes). split; [symmetry; exact (take_drop_middle _ _ _ Hb)|rewrite length_take; lia].
  - intros ([H1 H2] & (pre & post & E & Hl) & ->). cbn [le_bytes] in E. rewrite Z.mod_small in E by done. exists b. split.
    + apply ok_or_ok. rewrite E. cbn [app]. by apply list_lookup_middle; lia.
    + unfold Parse.file_len in Hlen. apply bind_ok. exists (o + 1). split; [|done]. apply ok_or_ok, checked_add_Some. split; [done|].
      change W64 with (2 * 2 ^ 63). lia.
Qed.

(** *** Panics *)

Lemma bind_safe {E A B} (m : Result (option E) A) (f : A → Result (option E) B) : m ≠ Err None → (∀ a, m = Ok a → f a ≠ Err None) → (m ≫= f) ≠ Err None.
Proof. destruct m as [a|[e|]]; cbn; [eauto|done..]. Qed.

Lemma field_safe o n message : 0 ≤ o ≤ Parse.file_len bytes → 0 ≤ n ≤ 2 ^ 32 → Parse.field bytes o n message ≠ Err None.
Proof.
  intros Ho Hn. unfold Parse.field. unfold checked_add. change W64 with (2 * 2 ^ 63). rewrite (proj2 (Z.ltb_lt _ _)) by lia. cbn [ok_or]. rewrite Ok_bind.
  destruct (Z.ltb_spec (Parse.file_len bytes) (o + n)); [done|]. unfold Parse.get. rewrite !(proj2 (Z.leb_le _ _)) by lia. done.
Qed.

Lemma byte_safe o message : 0 ≤ o → Parse.byte bytes o message ≠ Err None.
Proof.
  intros Ho. unfold Parse.byte. destruct (Z.leb_spec (Parse.file_len bytes) o) as [|Hlt]; [done|].
  unfold Parse.file_len in Hlt, Hlen. destruct (lookup_lt_is_Some_2 bytes (Z.to_nat o)) as [b ->]; [lia|]. cbn [ok_or]. rewrite Ok_bind.
  unfold checked_add. change W64 with (2 * 2 ^ 63). by rewrite (proj2 (Z.ltb_lt _ _)) by lia.
Qed.
End positions.

(** ** The format *)

Definition string_bytes (s : string) : list Z := le_bytes 8 (len s) ++ bytes_of s.

(** The type of a metadata value, as stored. *)
Definition metadata_code (t : GgufDataType) : Z :=
  match t with
  | DataType.U8 => 0 | DataType.I8 => 1 | DataType.U16 => 2 | DataType.I16 => 3 | DataType.U32 => 4 | DataType.I32 => 5 | DataType.F32 => 6
  | DataType.Bool => 7 | DataType.String => 8 | DataType.Array => 9 | DataType.U64 => 10 | DataType.I64 => 11 | DataType.F64 => 12 | _ => -1
  end.

Definition value_type (v : GgufMetadataValue) : Z :=
  match v with
  | GU8 _ => 0 | GI8 _ => 1 | GU16 _ => 2 | GI16 _ => 3 | GU32 _ => 4 | GI32 _ => 5 | GF32 _ => 6 | GBool _ => 7 | GString _ => 8
  | GArray _ _ => 9 | GU64 _ => 10 | GI64 _ => 11 | GF64 _ => 12
  end.

Definition scalar_bytes (v : GgufMetadataValue) : list Z :=
  match v with
  | GU8 n => le_bytes 1 n | GI8 n => le_bytes 1 (n `mod` 2 ^ 8) | GU16 n => le_bytes 2 n | GI16 n => le_bytes 2 (n `mod` 2 ^ 16)
  | GU32 n => le_bytes 4 n | GI32 n => le_bytes 4 (n `mod` 2 ^ 32) | GF32 x => le_bytes 4 (f32_bits x) | GBool b => le_bytes 1 (Z.b2z b)
  | GString s => string_bytes s | GU64 n => le_bytes 8 n | GI64 n => le_bytes 8 (n `mod` 2 ^ 64) | GF64 x => le_bytes 8 (to_bits x)
  | GArray _ _ => []
  end.

Definition signed_ok (bits n : Z) : Prop := - 2 ^ (bits - 1) ≤ n < 2 ^ (bits - 1).

Definition scalar_ok (v : GgufMetadataValue) : Prop :=
  match v with
  | GU8 n => 0 ≤ n < 2 ^ 8 | GI8 n => signed_ok 8 n | GU16 n => 0 ≤ n < 2 ^ 16 | GI16 n => signed_ok 16 n | GU32 n => 0 ≤ n < 2 ^ 32
  | GI32 n => signed_ok 32 n | GF32 x => f32_ok x | GBool _ => True | GString s => Utf8.from_utf8 (bytes_of s) = true
  | GU64 n => 0 ≤ n < 2 ^ 64 | GI64 n => signed_ok 64 n | GF64 x => f64_ok x | GArray _ _ => False
  end.

Definition value_bytes (v : GgufMetadataValue) : list Z :=
  match v with
  | GArray kind values => le_bytes 4 (metadata_code kind) ++ le_bytes 8 (Z.of_nat (length values)) ++ concat (scalar_bytes <$> values)
  | v => scalar_bytes v
  end.

(** Arrays hold scalars of one type. *)
Definition gguf_value_ok (v : GgufMetadataValue) : Prop :=
  match v with
  | GArray kind values => DataType.from_metadata_u32 (metadata_code kind) = Some kind ∧ kind ≠ DataType.Array ∧
      Forall (λ v, scalar_ok v ∧ value_type v = metadata_code kind) values
  | v => scalar_ok v
  end.

Definition metadata_entry_bytes (p : string * GgufMetadataValue) : list Z := string_bytes p.1 ++ le_bytes 4 (value_type p.2) ++ value_bytes p.2.
Definition metadata_entry_ok (p : string * GgufMetadataValue) : Prop := Utf8.from_utf8 (bytes_of p.1) = true ∧ gguf_value_ok p.2.

Definition info_bytes (i : GgufTensorInfo) : list Z :=
  string_bytes (info_name i) ++ le_bytes 4 (n_dims i) ++ concat (le_bytes 8 <$> dims i) ++ le_bytes 4 (DataType.as_u32 (data_type i)) ++
  le_bytes 8 (info_offset i).

(** One to four positive dimensions whose product is a [u64]. *)
Definition info_ok (i : GgufTensorInfo) : Prop :=
  Utf8.from_utf8 (bytes_of (info_name i)) = true ∧ n_dims i = Z.of_nat (length (dims i)) ∧ 1 ≤ n_dims i ≤ 4 ∧
  Forall (λ d, 0 < d) (dims i) ∧ foldr Z.mul 1 (dims i) < W64 ∧ DataType.as_u32 (data_type i) < 256 ∧ 0 ≤ info_offset i < W64.

(** ** Reading strings and values *)

Lemma metadata_type_code e t : DataType.from_metadata_u32 e = Some t ↔ metadata_code t = e ∧ 0 ≤ e ≤ 12.
Proof.
  split.
  - intros H. assert (0 ≤ e ≤ 12) as He.
    { destruct (decide (0 ≤ e ≤ 12)); [done|]. unfold DataType.from_metadata_u32 in H. repeat (case_match; try done; try lia). }
    split; [|done]. assert (e = 0 ∨ e = 1 ∨ e = 2 ∨ e = 3 ∨ e = 4 ∨ e = 5 ∨ e = 6 ∨ e = 7 ∨ e = 8 ∨ e = 9 ∨ e = 10 ∨ e = 11 ∨ e = 12) as Hc by lia.
    destruct_or! Hc; subst e; by injection H as <-.
  - intros [<- He]. destruct t; cbn in He |- *; done || lia.
Qed.

Lemma value_type_range v : 0 ≤ value_type v ≤ 12.
Proof. destruct v; cbn; lia. Qed.

Lemma signed_unsigned bits n : 0 < bits → 0 ≤ n < 2 ^ bits → signed_ok bits (Parse.signed bits n) ∧ Parse.signed bits n `mod` 2 ^ bits = n.
Proof.
  intros Hb Hn. unfold signed_ok, Parse.signed. assert (2 ^ bits = 2 * 2 ^ (bits - 1)) as E.
  { rewrite <-Z.pow_succ_r by lia. f_equal. lia. }
  destruct (Z.ltb_spec n (2 ^ (bits - 1))); [rewrite Z.mod_small by done; lia|].
  split; [lia|]. rewrite <-(Z.mod_unique_pos (n - 2 ^ bits) (2 ^ bits) (-1) n); lia.
Qed.

Lemma unsigned_signed bits n : 0 < bits → signed_ok bits n → Parse.signed bits (n `mod` 2 ^ bits) = n ∧ 0 ≤ n `mod` 2 ^ bits < 2 ^ bits.
Proof.
  intros Hb [H1 H2]. assert (2 ^ bits = 2 * 2 ^ (bits - 1)) as E.
  { rewrite <-Z.pow_succ_r by lia. f_equal. lia. }
  split; [|apply Z.mod_pos_bound; apply Z.pow_pos_nonneg; lia]. unfold Parse.signed.
  destruct (Z.lt_ge_cases n 0).
  - rewrite <-(Z.mod_unique_pos n (2 ^ bits) (-1) (n + 2 ^ bits)) by lia. destruct (Z.ltb_spec (n + 2 ^ bits) (2 ^ (bits - 1))); lia.
  - rewrite Z.mod_small by lia. destruct (Z.ltb_spec n (2 ^ (bits - 1))); lia.
Qed.

Section values.
Context (bytes : list Z) (Hu : Forall u8 bytes) (Hlen : Parse.file_len bytes < 2 ^ 63).

(** A decoder that accepts exactly what a printer writes, and says where it ends. *)
Definition reads {E A} (parse : Z → Result E (A * Z)) (print : A → list Z) (P : A → Prop) : Prop :=
  ∀ o a e, 0 ≤ o → parse o = Ok (a, e) ↔ P a ∧ holds bytes o (print a) ∧ e = o + Z.of_nat (length (print a)).

Lemma reads_range {E A} (parse : Z → Result E (A * Z)) print P o a e : reads parse print P → 0 ≤ o → parse o = Ok (a, e) → o ≤ e ≤ Parse.file_len bytes.
Proof. intros H Ho (_ & Hh & ->)%H; [|done]. apply holds_range in Hh. lia. Qed.

Lemma decode_string_reads : reads (Parse.decode_string bytes) string_bytes (λ s, Utf8.from_utf8 (bytes_of s) = true).
Proof.
  intros o s e Ho. unfold Parse.decode_string, string_bytes. rewrite bind_ok, holds_app, length_app, length_le_bytes, Nat2Z.inj_add, length_bytes_of. split.
  - intros ([d o'] & (n & -> & Hn & Hd & ->)%(field_le_ok _ Hu Hlen _ _ 8%nat) & H); [|done..]. rewrite le_value_bytes in H by done.
    apply bind_ok in H as (l & [-> Hl]%ok_or_ok%checked_add_Some & H). apply bind_ok in H as (data & Hg%ok_or_ok & H).
    apply get_ok in Hg as [Hdata El]; [|lia]. destruct (Utf8.from_utf8 data) eqn:Hutf; cbn [negb] in H; [|done]. injection H as <- <-.
    pose proof (bytes_of_string data (holds_u8 _ Hu _ _ Hdata)) as Hs. rewrite Hs. split; [done|].
    assert (len (string_of data) = n) as -> by (rewrite <-length_bytes_of, Hs; lia). split; [done|lia].
  - intros (Hutf & [Hn Hs] & ->). pose proof (holds_range _ _ _ Hs) as [_ Hr]. rewrite length_bytes_of in Hr.
    assert (0 ≤ len s < 256 ^ Z.of_nat 8) as Hl by (change (256 ^ Z.of_nat 8) with (2 * 2 ^ 63); pose proof (length_bytes_of s); lia).
    exists (le_bytes 8 (len s), o + 8). split; [apply (field_le_ok _ Hu Hlen _ _ 8%nat); [done|done|by exists (len s)]|]. rewrite le_value_bytes by done.
    rewrite (proj2 (checked_add_Some (o + 8) (len s) (o + 8 + len s))) by (split; [done|change W64 with (2 * 2 ^ 63); lia]). cbn [ok_or]. rewrite Ok_bind.
    rewrite (proj2 (get_ok bytes (o + 8) (o + 8 + len s) (bytes_of s) ltac:(lia))) by (rewrite length_bytes_of; done). cbn [ok_or]. rewrite Ok_bind, Hutf. cbn [negb].
    rewrite string_of_bytes. do 2 f_equal. lia.
Qed.

(** A number and what is made of it. *)
Lemma number_reads {A} n k message (build : Z → A) o a e : 0 ≤ o → n = Z.of_nat k →
  ('(d, next) ← Parse.field bytes o n message; Ok (build (le_value d), next)) = Ok (a, e) ↔
  ∃ v, a = build v ∧ 0 ≤ v < 256 ^ Z.of_nat k ∧ holds bytes o (le_bytes k v) ∧ e = o + n.
Proof.
  intros Ho Hn. rewrite bind_ok. split.
  - intros ([d e'] & (v & -> & Hv & Hd & ->)%(field_le_ok _ Hu Hlen _ _ k) & [= <- <-]); [|done..]. exists v. by rewrite le_value_bytes.
  - intros (v & -> & Hv & Hd & ->). exists (le_bytes k v, o + n). split; [apply (field_le_ok _ Hu Hlen _ _ k); [done..|by exists v]|]. by rewrite le_value_bytes.
Qed.

Lemma byte_reads {A} message (build : Z → A) o a e : 0 ≤ o →
  ('(b, next) ← Parse.byte bytes o message; Ok (build b, next)) = Ok (a, e) ↔
  ∃ v, a = build v ∧ 0 ≤ v < 256 ∧ holds bytes o (le_bytes 1 v) ∧ e = o + 1.
Proof.
  intros Ho. rewrite bind_ok. split.
  - intros ([b e'] & (Hb & Hd & ->)%(byte_ok _ Hu Hlen) & [= <- <-]); [|done]. by exists b.
  - intros (v & -> & Hv & Hd & ->). exists (v, o + 1). split; [by apply (byte_ok _ Hu Hlen)|done].
Qed.
End values.

Section decoders.
Context (bytes : list Z) (Hu : Forall u8 bytes) (Hlen : Parse.file_len bytes < 2 ^ 63).

(** A scalar that is made of one number. *)
Lemma reads_number (m : Result (option string) (GgufMetadataValue * Z)) k (build : Z → GgufMetadataValue) t o a e :
  (m = Ok (a, e) ↔ ∃ v, a = build v ∧ 0 ≤ v < 256 ^ Z.of_nat k ∧ holds bytes o (le_bytes k v) ∧ e = o + Z.of_nat k) →
  (∀ v, 0 ≤ v < 256 ^ Z.of_nat k → (scalar_ok (build v) ∧ value_type (build v) = t) ∧ scalar_bytes (build v) = le_bytes k v) →
  (scalar_ok a ∧ value_type a = t → ∃ v, a = build v ∧ 0 ≤ v < 256 ^ Z.of_nat k) →
  m = Ok (a, e) ↔ (scalar_ok a ∧ value_type a = t) ∧ holds bytes o (scalar_bytes a) ∧ e = o + Z.of_nat (length (scalar_bytes a)).
Proof.
  intros -> Hp Hb. split.
  - intros (v & -> & Hv & Hh & ->). destruct (Hp v Hv) as [HP ->]. by rewrite length_le_bytes.
  - intros (HP & Hh & ->). destruct (Hb HP) as (v & -> & Hv). destruct (Hp v Hv) as [_ E]. rewrite E in *. exists v. by rewrite length_le_bytes.
Qed.

(** The cases of numbers, by their width and constructor. *)
Ltac number_case k build :=
  apply (reads_number _ k build); [first [by apply (byte_reads _ Hu Hlen _ build) | by apply (number_reads _ Hu Hlen (Z.of_nat k) k _ build)]| |].

Ltac unsigned_case k build := number_case k build; [done|];
  match goal with |- _ ∧ value_type ?a = _ → _ => intros [Hok Htype]; destruct a; try done; by eexists end.

Ltac signed_case k bits build := number_case k (λ n, build (Parse.signed bits n));
  [intros v Hv; destruct (signed_unsigned bits v) as [? E]; [done..|]; cbn [scalar_bytes]; by rewrite E
  | match goal with |- _ ∧ value_type ?a = _ → _ => intros [Hok Htype]; destruct a; try done end;
    match goal with H : scalar_ok (?f ?n) |- _ => destruct (unsigned_signed bits n) as [E ?]; [done..|]; exists (n `mod` 2 ^ bits); by rewrite E end].

Lemma decode_scalar_reads fuel t : 0 ≤ t ≤ 12 → t ≠ 9 →
  reads bytes (λ o, Parse.decode_metadata_value (S fuel) bytes o t) scalar_bytes (λ v, scalar_ok v ∧ value_type v = t).
Proof.
  intros Ht Hne o a e Ho.
  assert (t = 0 ∨ t = 1 ∨ t = 2 ∨ t = 3 ∨ t = 4 ∨ t = 5 ∨ t = 6 ∨ t = 7 ∨ t = 8 ∨ t = 10 ∨ t = 11 ∨ t = 12) as Hc by lia.
  destruct_or! Hc; subst t; cbn [Parse.decode_metadata_value DataType.from_metadata_u32 ok_or]; rewrite Ok_bind.
  - unsigned_case 1%nat GU8.
  - signed_case 1%nat 8 GI8.
  - unsigned_case 2%nat GU16.
  - signed_case 2%nat 16 GI16.
  - unsigned_case 4%nat GU32.
  - signed_case 4%nat 32 GI32.
  - number_case 4%nat (λ n, GF32 (f32_from_bits n)); [done|]. intros [Hok Htype]. destruct a; try done. destruct v. by eexists.
  - rewrite bind_ok. split.
    + intros ([b e'] & (Hb & Hd & ->)%(byte_ok _ Hu Hlen) & H); [|done]. destruct (Z.eqb_spec b 0) as [->|]; [|destruct (Z.eqb_spec b 1) as [->|]; [|done]];
        injection H as <- <-; cbn; done.
    + intros ([Hok Htype] & Hh & ->). destruct a; try done. exists (Z.b2z b, o + 1). split; [apply (byte_ok _ Hu Hlen); [done|]; split; [by destruct b|done]|]. by destruct b.
  - rewrite bind_ok. split.
    + intros ([s e'] & (Hs & Hh & ->)%(decode_string_reads _ Hu Hlen) & [= <- <-]); done.
    + intros ([Hok Htype] & Hh & ->). destruct a; try done. exists (s, o + Z.of_nat (length (string_bytes s))). split; [by apply (decode_string_reads _ Hu Hlen)|done].
  - unsigned_case 8%nat GU64.
  - signed_case 8%nat 64 GI64.
  - number_case 8%nat (λ n, GF64 (from_bits n)); [done|]. intros [Hok Htype]. destruct a; try done. destruct v. by eexists.
Qed.

(** A loop of a decoder reads a list. *)
Lemma reads_many {A} (parse : Z → Result (option string) (A * Z)) print P l acc o vs e : reads bytes parse print P → 0 ≤ o ≤ Parse.file_len bytes →
  for_each (λ (_ : Z) '(acc, o), '(v, next) ← parse o; Ok (acc ++ [v], next)) l (acc, o) = Ok (vs, e) ↔
  ∃ new, vs = acc ++ new ∧ length new = length l ∧ Forall P new ∧ holds bytes o (concat (print <$> new)) ∧
    e = o + Z.of_nat (length (concat (print <$> new))).
Proof.
  intros Hr. revert acc o. induction l as [|i l IH]; intros acc o Ho; cbn [for_each].
  { split.
    - intros [= <- <-]. exists []. rewrite app_nil_r. split_and!; [done..|by apply holds_nil|cbn; lia].
    - intros (new & -> & Hl & _ & _ & ->). destruct new; [|done]. rewrite app_nil_r. cbn. by rewrite Z.add_0_r. }
  rewrite bind_ok. split.
  - intros ([acc' o'] & ([v next] & Hp & [= <- <-])%bind_ok & H). pose proof (reads_range _ _ _ _ o _ _ Hr ltac:(lia) Hp) as Hn.
    apply Hr in Hp as (HP & Hh & ->); [|lia]. apply IH in H as (new & -> & Hl & HF & Hc & ->); [|lia].
    exists (v :: new). rewrite <-app_assoc. cbn [fmap list_fmap concat length]. rewrite length_app, holds_app. split_and!; [done|by rewrite Hl|by constructor|done|done|lia].
  - intros (new & -> & Hl & HF & Hh & ->). destruct new as [|v new]; [done|]. inversion_clear HF as [|? ? Hv HF']. cbn [fmap list_fmap concat] in *.
    apply holds_app in Hh as [H1 H2]. pose proof (holds_range _ _ _ H2) as Hrange. exists (acc ++ [v], o + Z.of_nat (length (print v))). split.
    + apply bind_ok. exists (v, o + Z.of_nat (length (print v))). split; [apply Hr; [lia|done]|done].
    + apply IH; [lia|]. exists new. rewrite <-app_assoc, length_app. split_and!; [done|by injection Hl|done|done|lia].
Qed.

Lemma from_code_some kind : DataType.from_metadata_u32 (metadata_code kind) = Some kind ↔ 0 ≤ metadata_code kind ≤ 12.
Proof. rewrite metadata_type_code. by intuition. Qed.

Lemma decode_array_reads fuel :
  reads bytes (λ o, Parse.decode_metadata_value (S (S fuel)) bytes o 9) value_bytes (λ v, gguf_value_ok v ∧ value_type v = 9).
Proof.
  intros o a e Ho. cbn [Parse.decode_metadata_value DataType.from_metadata_u32 ok_or]. rewrite Ok_bind, bind_ok. split.
  - intros ([d o'] & (Hd & Hl & ->)%field_ok & H); [|done..]. pose proof (holds_u8 _ Hu _ _ Hd) as Hd8. pose proof (holds_range _ _ _ Hd) as Hrd.
    rewrite <-(take_drop 4 d) in Hd, Hd8. apply Forall_app in Hd8 as [H4 H8]. set (et := le_value (take 4 d)) in *. set (count := le_value (drop 4 d)) in *.
    assert (length (take 4 d) = 4%nat ∧ length (drop 4 d) = 8%nat) as [L4 L8] by (rewrite length_take, length_drop; lia).
    destruct (Z.eqb_spec et 9) as [|Hne]; [done|]. apply bind_ok in H as ([values next] & Hf & H). cbn [mret] in H.
    apply bind_ok in H as (kind & [Hk He]%ok_or_ok%metadata_type_code & [= <- <-]).
    pose proof (le_value_bounds _ H8) as Hc8. fold count in Hc8.
    apply (reads_many (λ o, Parse.decode_metadata_value (S fuel) bytes o et) scalar_bytes _ _ _ _ _ _ (decode_scalar_reads fuel et He Hne)) in Hf as (new & -> & Hn & HF & Hh & ->); [|lia].
    rewrite length_seqZ in Hn. cbn [app value_bytes gguf_value_ok value_type]. rewrite Hk. split; [split; [|done]; split|].
    + by apply metadata_type_code.
    + split; [intros ->; by apply Hne|done].
    + replace (Z.of_nat (length new)) with count by lia. rewrite !holds_app, !length_app, !length_le_bytes.
      rewrite (le_bytes_value 4 _ H4 L4 : le_bytes 4 et = _), (le_bytes_value 8 _ H8 L8 : le_bytes 8 count = _).
      apply holds_app in Hd as [Hd4 Hdd]. rewrite L4 in *. split_and!; [done|done| |lia]. rewrite L8 || idtac. by replace (o + Z.of_nat 4 + Z.of_nat 8) with (o + 12) by lia.
  - intros ([Hok Ht] & Hh & ->). destruct a as [| | | | | | | | | | | |kind values]; try done. destruct Hok as (Hk & Hka & HF). cbn [value_bytes] in *.
    rewrite from_code_some in Hk. pose proof (holds_range _ _ _ Hh) as [_ Hr]. rewrite !length_app, !length_le_bytes in Hr |- *.
    rewrite app_assoc, holds_app in Hh. destruct Hh as [Hd Hv]. rewrite length_app, !length_le_bytes in Hv.
    set (et := metadata_code kind) in *. assert (et ≠ 9) as Hne by (intros E; apply Hka; destruct kind; by cbn in E).
    exists (le_bytes 4 et ++ le_bytes 8 (Z.of_nat (length values)), o + 12). split; [apply field_ok; [done..|]; by rewrite length_app, !length_le_bytes|].
    rewrite take_app_length', drop_app_length' by done. rewrite !le_value_bytes; [| |lia].
    2: { split; [lia|]. change (256 ^ Z.of_nat 8) with (2 * 2 ^ 63). assert (length values ≤ length (concat (scalar_bytes <$> values)))%nat as Hvl; [|lia].
      clear -HF. induction HF as [|v values [Hv _] _ IH]; [done|]. cbn [fmap list_fmap concat length]. rewrite length_app.
      assert (1 ≤ length (scalar_bytes v))%nat; [|lia]. destruct v; try done; cbn [scalar_bytes]; unfold string_bytes; rewrite ?length_app, ?length_le_bytes; lia. }
    rewrite (proj2 (Z.eqb_neq _ _) Hne). apply bind_ok. exists (values, o + Z.of_nat (4 + (8 + length (concat (scalar_bytes <$> values))))). split.
    + apply (reads_many (λ o, Parse.decode_metadata_value (S fuel) bytes o et) scalar_bytes _ _ _ _ _ _ (decode_scalar_reads fuel et Hk Hne)); [lia|].
      exists values. rewrite length_seqZ. split_and!; [done|lia|done| |lia]. by replace (o + 12) with (o + Z.of_nat (4 + 8)) by lia.
    + by rewrite (proj2 (metadata_type_code et kind)) by done.
Qed.
End decoders.

(** ** Entries and descriptors *)

Lemma for_each_ext {E I St : Type} (f g : I → St → Result E St) l s : (∀ i s, f i s = g i s) → for_each f l s = for_each g l s.
Proof. intros H. revert s. induction l as [|i l IH]; intros s; cbn; [done|]. rewrite H. destruct (g i s); cbn; [apply IH|done]. Qed.

(** The product of positive numbers, if it fits. *)
Lemma checked_product_from l a p : 0 < a < W64 → Forall (λ d, 0 < d) l →
  foldl (λ n d, n ← n; checked_mul n d) (Some a) l = Some p ↔ p = a * foldr Z.mul 1 l ∧ a * foldr Z.mul 1 l < W64.
Proof.
  assert (∀ l, foldl (λ n d, n ← n; checked_mul n d) None l = None) as Hnone by (intros l'; by induction l').
  intros Ha HF. revert a Ha. induction HF as [|d l Hd HF IH]; intros a Ha; cbn [foldl foldr].
  { rewrite Z.mul_1_r. split; [intros [= <-]; lia|by intros [-> _]]. }
  assert (0 < foldr Z.mul 1 l) as Hp by (clear -HF; induction HF; cbn; lia).
  cbn [mbind option_bind]. unfold checked_mul at 2. destruct (Z.ltb_spec (a * d) W64).
  - rewrite IH by (split; [apply Z.mul_pos_pos; lia|done]). by rewrite Z.mul_assoc.
  - rewrite Hnone. split; [done|]. intros [_ Hlt]. nia.
Qed.

Lemma checked_product_ok l p : Forall (λ d, 0 < d) l → Parse.checked_product l = Some p ↔ p = foldr Z.mul 1 l ∧ foldr Z.mul 1 l < W64.
Proof. intros HF. unfold Parse.checked_product. rewrite checked_product_from by done. by rewrite Z.mul_1_l. Qed.

Lemma as_u32_from n t : 0 ≤ n → DataType.from_u32 n = Some t ↔ DataType.as_u32 t = n ∧ n < 256.
Proof.
  intros Hn. split.
  - intros H. assert (n ≤ 30) as He.
    { destruct (decide (n ≤ 30)); [done|]. unfold DataType.from_u32 in H. repeat (case_match; try done; try lia). }
    split; [|lia]. clear Hn. unfold DataType.from_u32 in H. repeat (case_match; try done; try lia); by injection H as <-.
  - intros [<- Hlt]. destruct t; cbn in Hlt; done || lia.
Qed.

Section entries.
Context (bytes : list Z) (Hu : Forall u8 bytes) (Hlen : Parse.file_len bytes < 2 ^ 63).

Lemma decode_value_reads t :
  reads bytes (λ o, Parse.decode_metadata_value 2 bytes o t) value_bytes (λ v, gguf_value_ok v ∧ value_type v = t).
Proof.
  destruct (decide (0 ≤ t ≤ 12)) as [Ht|Ht].
  - destruct (decide (t = 9)) as [->|Hne]; [by apply decode_array_reads|]. intros o v e Ho.
    rewrite (decode_scalar_reads bytes Hu Hlen 1 t Ht Hne o v e Ho). destruct v; try done. cbn. intuition lia.
  - intros o v e Ho. cbn [Parse.decode_metadata_value]. destruct (DataType.from_metadata_u32 t) as [k|] eqn:Ek.
    { apply metadata_type_code in Ek. lia. }
    split; [done|]. intros ([_ <-] & _). pose proof (value_type_range v). lia.
Qed.

Lemma decode_kv_reads : reads bytes (Parse.decode_metadata_kv bytes) metadata_entry_bytes metadata_entry_ok.
Proof.
  intros o [key v] e Ho. unfold Parse.decode_metadata_kv, metadata_entry_bytes, metadata_entry_ok. cbn [fst snd]. rewrite bind_ok, !holds_app, !length_app, !length_le_bytes. split.
  - intros ([s o1] & Hs & H). pose proof (reads_range _ _ _ _ o _ _ (decode_string_reads _ Hu Hlen) Ho Hs) as H1.
    apply (decode_string_reads _ Hu Hlen) in Hs as (Hutf & Hh1 & ->); [|done].
    apply bind_ok in H as ([d o2] & (n & -> & Hn & Hh2 & ->)%(field_le_ok _ Hu Hlen _ _ 4%nat) & H); [|lia|done]. rewrite le_value_bytes in H by done.
    apply bind_ok in H as ([v' o3] & Hv & [= <- <- <-]). apply (decode_value_reads n) in Hv as ([Hok <-] & Hh3 & ->); [|lia]. split_and!; [done..|lia].
  - intros ([Hutf Hok] & (Hh1 & Hh2 & Hh3) & ->). pose proof (holds_range _ _ _ Hh2) as [H2 _]. pose proof (value_type_range v) as Ht.
    exists (key, o + Z.of_nat (length (string_bytes key))). split; [by apply (decode_string_reads _ Hu Hlen)|]. apply bind_ok.
    exists (le_bytes 4 (value_type v), o + Z.of_nat (length (string_bytes key)) + 4). split; [apply (field_le_ok _ Hu Hlen _ _ 4%nat); [done..|]; exists (value_type v); split_and!; [done|lia|lia|done|done]|].
    rewrite le_value_bytes by lia. apply bind_ok. exists (v, o + Z.of_nat (length (string_bytes key)) + 4 + Z.of_nat (length (value_bytes v))). split.
    + apply (decode_value_reads (value_type v)); [lia|done].
    + do 2 f_equal. lia.
Qed.

Lemma decode_dims_reads n acc o ds e : 0 ≤ o ≤ Parse.file_len bytes →
  for_each (Parse.decode_dim bytes) (seqZ 0 n) (acc, o) = Ok (ds, e) ↔
  ∃ new, ds = acc ++ new ∧ Z.of_nat (length new) = Z.max 0 n ∧ Forall (λ d, 0 ≤ d < W64) new ∧ holds bytes o (concat (le_bytes 8 <$> new)) ∧ e = o + Z.of_nat (length (concat (le_bytes 8 <$> new))).
Proof.
  intros Ho. rewrite (for_each_ext _ (λ (_ : Z) '(acc, o), '(v, next) ← ('(d, next) ← Parse.field bytes o 8 "offset fuera de rango leyendo dim"; Ok (le_value d, next)); Ok (acc ++ [v], next))).
  2: { intros i [acc' o']. unfold Parse.decode_dim. by destruct (Parse.field bytes o' 8 _) as [[d e']|]. }
  rewrite (reads_many bytes _ (le_bytes 8) (λ d, 0 ≤ d < W64)); [|intros o' a' e' Ho'|done].
  - rewrite length_seqZ. split; intros (new & -> & Hl & H); exists new; (split; [done|split; [lia|done]]).
  - rewrite (number_reads _ Hu Hlen 8 8%nat _ (λ n, n)) by done. rewrite length_le_bytes. split; [by intros (v & -> & Hv & Hh & ->)|]. intros (Hv & Hh & ->). by exists a'.
Qed.
End entries.

Lemma ok_pair {E A B} (a a' : A) (b b' : B) : Ok (E := E) (a, b) = Ok (a', b') → a = a' ∧ b = b'.
Proof. by intros [= -> ->]. Qed.

Section descriptors.
Context (bytes : list Z) (Hu : Forall u8 bytes) (Hlen : Parse.file_len bytes < 2 ^ 63).

Lemma dims_tests ds : Forall (λ d, 0 ≤ d < W64) ds →
  bool_decide (0 ∈ ds) || negb (bool_decide (is_Some (Parse.checked_product ds))) = false ↔ Forall (λ d, 0 < d) ds ∧ foldr Z.mul 1 ds < W64.
Proof.
  intros Hd. rewrite orb_false_iff, bool_decide_eq_false, negb_false_iff, bool_decide_eq_true. split.
  - intros [H0 [p Hp]]. assert (Forall (λ d, 0 < d) ds) as Hpos.
    { rewrite Forall_forall in Hd |- *. intros d Hin. destruct (Hd d Hin). assert (d ≠ 0) by (by intros ->). lia. }
    split; [done|]. by apply checked_product_ok in Hp as [_ ?].
  - intros [Hpos Hp]. split; [|eexists; by apply checked_product_ok]. intros Hin. rewrite Forall_forall in Hpos. specialize (Hpos 0 Hin). lia.
Qed.

Lemma decode_info_reads : reads bytes (Parse.decode_tensor_info bytes) info_bytes info_ok.
Proof.
  intros o i e Ho. unfold Parse.decode_tensor_info, info_bytes, info_ok. rewrite bind_ok, !holds_app, !length_app, !length_le_bytes. split.
  - intros ([s o1] & Hs & H). pose proof (reads_range _ _ _ _ o _ _ (decode_string_reads _ Hu Hlen) Ho Hs) as H1.
    apply (decode_string_reads _ Hu Hlen) in Hs as (Hutf & Hh1 & ->); [|done].
    apply bind_ok in H as ([d o2] & (n & -> & Hn & Hh2 & ->)%(field_le_ok _ Hu Hlen _ _ 4%nat) & H); [|lia|done]. rewrite le_value_bytes in H by done.
    match type of H with (if ?b then _ else _) = _ => destruct b eqn:Hrank; [done|] end. apply negb_false_iff, andb_true_iff in Hrank as [Hr1%Z.leb_le Hr2%Z.leb_le].
    pose proof (holds_range _ _ _ Hh2) as Hr. rewrite length_le_bytes in Hr.
    apply bind_ok in H as ([ds o3] & (new & -> & Hl & Hd & Hh3 & ->)%(decode_dims_reads _ Hu Hlen) & H); [|lia]. cbn [app] in H. pose proof (holds_range _ _ _ Hh3) as Hr3.
    match type of H with (if ?b then _ else _) = _ => destruct b eqn:Ht; [done|] end. apply dims_tests in Ht as [Hpos Hprod]; [|done].
    apply bind_ok in H as ([d o4] & (t & -> & Htt & Hh4 & ->)%(field_le_ok _ Hu Hlen _ _ 4%nat) & H); [|lia|done]. rewrite le_value_bytes in H by done.
    apply bind_ok in H as (dt & Hdt%ok_or_ok & H). apply as_u32_from in Hdt as [<- Hdt]; [|lia].
    apply bind_ok in H as ([d o5] & (f & -> & Hf & Hh5 & ->)%(field_le_ok _ Hu Hlen _ _ 8%nat) & H); [|lia|done]. rewrite le_value_bytes in H by done. apply ok_pair in H as [<- <-].
    cbn [info_name n_dims dims data_type info_offset]. change (256 ^ Z.of_nat 8) with W64 in Hf. split_and!; try done; try lia.
  - intros ((Hutf & Hnd & Hr & Hpos & Hprod & Hdt & Hoff) & (Hh1 & Hh2 & Hh3 & Hh4 & Hh5) & ->). destruct i as [s n ds t f]. cbn [info_name n_dims dims data_type info_offset] in *.
    pose proof (holds_range _ _ _ Hh2) as [H2 Hr2]. pose proof (holds_range _ _ _ Hh4) as [H4 Hr4]. pose proof (holds_range _ _ _ Hh5) as [H5 _]. rewrite length_le_bytes in Hr2, Hr4.
    eexists (s, _). split; [by apply (decode_string_reads _ Hu Hlen)|]. apply bind_ok.
    eexists (le_bytes 4 n, _). split; [apply (field_le_ok _ Hu Hlen _ _ 4%nat); [lia|done|]; exists n; split_and!; [done|lia|lia|done|done]|]. rewrite le_value_bytes by lia.
    rewrite (proj2 (Z.leb_le 1 n)), (proj2 (Z.leb_le n 4)) by lia. cbn [andb negb]. apply bind_ok.
    assert (Forall (λ d, 0 ≤ d < W64) ds) as Hd.
    { clear -Hpos Hprod. induction Hpos as [|d ds Hd HF IH]; [done|]. cbn [foldr] in Hprod.
      assert (0 < foldr Z.mul 1 ds) by (clear -HF; induction HF; cbn; lia). constructor; [nia|apply IH; nia]. }
    eexists (ds, _). split; [apply (decode_dims_reads _ Hu Hlen); [lia|]; exists ds; split_and!; [done|lia|done|done|done]|].
    rewrite (proj2 (dims_tests ds Hd)) by done. apply bind_ok.
    assert (0 ≤ DataType.as_u32 t) as Ht0 by (by destruct t).
    eexists (le_bytes 4 (DataType.as_u32 t), _). split; [apply (field_le_ok _ Hu Hlen _ _ 4%nat); [lia|done|]; eexists; split_and!; [done|lia|lia|done|done]|]. rewrite le_value_bytes by lia.
    rewrite (proj2 (as_u32_from (DataType.as_u32 t) t Ht0)) by done. cbn [ok_or]. rewrite Ok_bind. apply bind_ok.
    eexists (le_bytes 8 f, _). split; [apply (field_le_ok _ Hu Hlen _ _ 8%nat); [lia|done|]; exists f; split_and!; [done|lia|exact (proj2 Hoff)|done|done]|]. rewrite le_value_bytes by exact Hoff.
    do 2 f_equal. lia.
Qed.

(** The loops that reject a key that is used already. *)
Lemma read_metadata_ok l es0 o m e : 0 ≤ o ≤ Parse.file_len bytes → NoDup es0.*1 →
  for_each (Gguf.read_metadata bytes) l (list_to_map (reverse es0), o) = Ok (m, e) ↔
  ∃ es, m = list_to_map (reverse (es0 ++ es)) ∧ length es = length l ∧ NoDup (es0 ++ es).*1 ∧ Forall metadata_entry_ok es ∧
    holds bytes o (concat (metadata_entry_bytes <$> es)) ∧ e = o + Z.of_nat (length (concat (metadata_entry_bytes <$> es))).
Proof.
  revert es0 o. induction l as [|i l IH]; intros es0 o Ho Hnd; cbn [for_each].
  { split.
    - intros [= <- <-]. exists []. rewrite app_nil_r. split_and!; [done..|by apply holds_nil|cbn; lia].
    - intros (es & -> & Hl & _ & _ & _ & ->). destruct es; [|done]. rewrite app_nil_r. cbn. by rewrite Z.add_0_r. }
  assert (∀ k v, (list_to_map (reverse es0) : gmap string GgufMetadataValue) !! k = None → <[k:=v]> (list_to_map (reverse es0)) = (list_to_map (reverse (es0 ++ [(k, v)])) : gmap string GgufMetadataValue)) as Hins.
  { intros k v _. by rewrite reverse_app. }
  assert (∀ k, (list_to_map (reverse es0) : gmap string GgufMetadataValue) !! k = None ↔ k ∉ es0.*1) as Hnone.
  { intros k. by rewrite <-not_elem_of_list_to_map, fmap_reverse, elem_of_reverse. }
  rewrite bind_ok. split.
  - intros ([m' o'] & Hs & H). unfold Gguf.read_metadata in Hs. apply bind_ok in Hs as ([[k v] e1] & Hk%map_err_ok & Hs).
    pose proof (reads_range _ _ _ _ o _ _ (decode_kv_reads _ Hu Hlen) ltac:(lia) Hk) as Hr. apply (decode_kv_reads _ Hu Hlen) in Hk as (Hok & Hh & ->); [|lia].
    destruct (list_to_map (reverse es0) !! k) eqn:Ek; [done|]. apply ok_pair in Hs as [<- <-]. rewrite (Hins k v Ek) in H.
    apply IH in H as (es & -> & Hl & Hnd' & HF & Hc & ->); [|lia|].
    2: { rewrite fmap_app. apply NoDup_app. split_and!; [done| |apply NoDup_singleton]. intros x Hx ->%list_elem_of_singleton. by apply Hnone in Ek. }
    exists ((k, v) :: es). rewrite <-app_assoc in *. cbn [fmap list_fmap concat length]. rewrite length_app, holds_app. split_and!; [done|by rewrite Hl|done|by constructor|done|done|lia].
  - intros (es & -> & Hl & Hnd' & HF & Hh & ->). destruct es as [|[k v] es]; [done|]. inversion_clear HF as [|? ? Hv HF']. cbn [fmap list_fmap concat] in *.
    apply holds_app in Hh as [H1 H2]. pose proof (holds_range _ _ _ H2) as Hrange.
    assert (k ∉ es0.*1) as Hk. { rewrite fmap_app in Hnd'. apply NoDup_app in Hnd' as (_ & Hd & _). intros Hin. apply (Hd k Hin). left. }
    exists (list_to_map (reverse (es0 ++ [(k, v)])), o + Z.of_nat (length (metadata_entry_bytes (k, v)))). split.
    + unfold Gguf.read_metadata. rewrite (proj2 (map_err_ok _ _ (k, v, o + Z.of_nat (length (metadata_entry_bytes (k, v)))))) by (apply (decode_kv_reads _ Hu Hlen); [lia|done]).
      rewrite Ok_bind, (proj2 (Hnone k)) by done. by rewrite Hins by by apply Hnone.
    + apply IH; [lia| |].
      { rewrite fmap_app. apply NoDup_app. split_and!; [done| |apply NoDup_singleton]. by intros x Hx ->%list_elem_of_singleton. }
      exists es. rewrite <-app_assoc, length_app. split_and!; [done|by injection Hl|done|done|done|lia].
Qed.
End descriptors.

(** ** Tensors *)

(** The elements and bytes of a block, for the layouts that the reader knows. *)
Definition layout_of (t : GgufDataType) : option (Z * Z) :=
  match t with
  | DataType.Q6_K => Some (256, 210) | DataType.Q4_0 => Some (32, 18) | DataType.Q8_0 => Some (32, 34)
  | t => if 0 <? DataType.element_size t then Some (1, DataType.element_size t) else None
  end.

(** The bytes of a tensor, whose rows must be whole blocks. *)
Definition tensor_len (i : GgufTensorInfo) : option Z :=
  '(n, b) ← layout_of (data_type i);
  if default 0 (head (dims i)) `mod` n =? 0 then Some (foldr Z.mul 1 (dims i) / n * b) else None.

Lemma supported_layout_ok t : Gguf.supported_layout t = true ↔ is_Some (layout_of t).
Proof. by destruct t; cbn; split; try done; try (by eexists); intros [? ?]. Qed.

Lemma info_dims_pos i : info_ok i → dims i ≠ [] ∧ 0 < foldr Z.mul 1 (dims i) < W64.
Proof.
  intros (_ & Hn & Hr & Hpos & Hp & _). split; [intros E; rewrite E in Hn; cbn in Hn; lia|]. split; [|done].
  clear -Hpos. induction Hpos; cbn; lia.
Qed.

Lemma encoded_len_ok i n : info_ok i → Gguf.encoded_tensor_len i = Some n ↔ tensor_len i = Some n ∧ n < W64.
Proof.
  intros Hi. pose proof (info_dims_pos i Hi) as [Hne Hp]. destruct Hi as (_ & Hn & Hr & Hpos & Hprod & _). unfold Gguf.encoded_tensor_len, tensor_len.
  destruct (dims i) as [|d ds] eqn:Ed; [done|]. rewrite <-Ed in *. rewrite Hn, Z.eqb_refl. cbn [negb orb].
  rewrite bool_decide_false by (intros Hin; rewrite Forall_forall in Hpos; specialize (Hpos 0 Hin); lia).
  rewrite (proj2 (checked_product_ok (dims i) (foldr Z.mul 1 (dims i)) Hpos)) by done. cbn [mbind option_bind]. set (p := foldr Z.mul 1 (dims i)) in *. rewrite Ed. cbn [head default].
  assert (∀ a b : Z, checked_mul a b = Some n ↔ Some (a * b) = Some n ∧ n < W64) as Hmul.
  { intros a b. rewrite checked_mul_Some. split; [by intros [-> ?]|by intros [[= <-] ?]]. }
  destruct (data_type i); cbn; rewrite ?Z.mod_1_r, ?Z.div_1_r; cbn;
    first [by rewrite <-Hmul | destruct (_ =? 0); cbn; first [by rewrite <-Hmul | intuition congruence] | intuition congruence].
Qed.

Lemma tensor_data_ok r i d : Parse.file_len (mmap r) < 2 ^ 63 → 0 ≤ tensor_data_offset r → info_ok i →
  Gguf.tensor_data r i = Some d ↔ tensor_len i = Some (Z.of_nat (length d)) ∧ holds (mmap r) (tensor_data_offset r + info_offset i) d.
Proof.
  intros Hlen Hoff Hi. assert (0 ≤ info_offset i) as Hio by (destruct Hi as (_ & _ & _ & _ & _ & _ & [? _]); done). unfold Gguf.tensor_data. split.
  - intros H. apply bind_Some in H as (s & [-> Hs]%checked_add_Some & H). apply bind_Some in H as (n & Hn & H). apply bind_Some in H as (e & [-> He]%checked_add_Some & H).
    apply encoded_len_ok in Hn as [Hn _]; [|done]. apply get_ok in H as [H E]; [|lia]. replace (Z.of_nat (length d)) with n by lia. done.
  - intros [Hn Hh]. pose proof (holds_range _ _ _ Hh) as [_ Hr]. apply bind_Some. exists (tensor_data_offset r + info_offset i). split.
    { apply checked_add_Some. split; [done|]. change W64 with (2 * 2 ^ 63). lia. }
    apply bind_Some. exists (Z.of_nat (length d)). split; [apply encoded_len_ok; [done|]; split; [done|]; change W64 with (2 * 2 ^ 63); lia|].
    apply bind_Some. exists (tensor_data_offset r + info_offset i + Z.of_nat (length d)). split.
    { apply checked_add_Some. split; [done|]. change W64 with (2 * 2 ^ 63). lia. }
    apply get_ok; [lia|done].
Qed.

(** ** The loops of the reader *)

Section loops.
Context (bytes : list Z) (Hu : Forall u8 bytes) (Hlen : Parse.file_len bytes < 2 ^ 63).

Lemma read_infos_ok l infos0 names o infos e : 0 ≤ o ≤ Parse.file_len bytes → (∀ x, x ∈ names ↔ x ∈ info_name <$> infos0) → NoDup (info_name <$> infos0) →
  (∃ names', for_each (Gguf.read_info bytes) l (infos0, names, o) = Ok (infos, names', e)) ↔
  ∃ new, infos = infos0 ++ new ∧ length new = length l ∧ NoDup (info_name <$> infos0 ++ new) ∧ Forall info_ok new ∧
    holds bytes o (concat (info_bytes <$> new)) ∧ e = o + Z.of_nat (length (concat (info_bytes <$> new))).
Proof.
  revert infos0 names o. induction l as [|x l IH]; intros infos0 names o Ho Hnames Hnd; cbn [for_each].
  { split.
    - intros (names' & [= <- <- <-]). exists []. rewrite app_nil_r. split_and!; [done..|by apply holds_nil|cbn; lia].
    - intros (new & -> & Hl & _ & _ & _ & ->). destruct new; [|done]. exists names. rewrite app_nil_r. cbn. by rewrite Z.add_0_r. }
  assert (∀ i, info_name i ∉ names → NoDup (info_name <$> infos0 ++ [i]) ∧ ∀ y, y ∈ {[info_name i]} ∪ names ↔ y ∈ info_name <$> infos0 ++ [i]) as Hnext.
  { intros i Hi. rewrite fmap_app. split.
    - apply NoDup_app. split_and!; [done| |apply NoDup_singleton]. intros y Hy ->%list_elem_of_singleton. by apply Hnames in Hy.
    - intros y. change (info_name <$> [i]) with [info_name i]. rewrite elem_of_union, elem_of_singleton, elem_of_app, Hnames, list_elem_of_singleton. tauto. }
  split.
  - intros (names' & H). apply bind_ok in H as ([[infos1 names1] o1] & Hs & H). unfold Gguf.read_info in Hs. apply bind_ok in Hs as ([i e1] & Hi%map_err_ok & Hs).
    pose proof (reads_range _ _ _ _ o _ _ (decode_info_reads _ Hu Hlen) ltac:(lia) Hi) as Hr. apply (decode_info_reads _ Hu Hlen) in Hi as (Hok & Hh & ->); [|lia].
    case_bool_decide as Hin; [done|]. apply ok_pair in Hs as [[= <- <-] <-]. destruct (Hnext i Hin) as [Hnd1 Hn1].
    destruct (proj1 (IH (infos0 ++ [i]) _ (o + Z.of_nat (length (info_bytes i))) ltac:(lia) Hn1 Hnd1) (ex_intro _ names' H)) as (new & -> & Hl & Hnd' & HF & Hc & ->).
    exists (i :: new). rewrite <-app_assoc in *. cbn [fmap list_fmap concat length]. rewrite length_app, holds_app. split_and!; [done|by rewrite Hl|done|by constructor|done|done|lia].
  - intros (new & -> & Hl & Hnd' & HF & Hh & ->). destruct new as [|i new]; [done|]. inversion_clear HF as [|? ? Hv HF']. cbn [fmap list_fmap concat] in *.
    apply holds_app in Hh as [H1 H2]. pose proof (holds_range _ _ _ H2) as Hrange.
    assert (info_name i ∉ names) as Hk. { rewrite Hnames. rewrite fmap_app in Hnd'. apply NoDup_app in Hnd' as (_ & Hd & _). intros Hin. apply (Hd _ Hin). left. }
    destruct (Hnext i Hk) as [Hnd1 Hn1]. assert (Gguf.read_info bytes x (infos0, names, o) = Ok (infos0 ++ [i], {[info_name i]} ∪ names, o + Z.of_nat (length (info_bytes i)))) as ->.
    { unfold Gguf.read_info. rewrite (proj2 (map_err_ok _ _ (i, o + Z.of_nat (length (info_bytes i))))) by (apply (decode_info_reads _ Hu Hlen); [lia|done]).
      by rewrite Ok_bind, bool_decide_false. }
    rewrite Ok_bind. apply (IH (infos0 ++ [i]) _ (o + Z.of_nat (length (info_bytes i))) ltac:(lia) Hn1 Hnd1). exists new. rewrite <-app_assoc, length_app.
    split_and!; [done|by injection Hl|done|done|done|lia].
Qed.

Lemma check_tensors_ok r al infos : for_each (Gguf.check_tensor r al) infos tt = Ok tt ↔
  Forall (λ i, info_offset i `mod` al = 0 ∧ (Gguf.supported_layout (data_type i) = true → Gguf.tensor_data r i ≠ None)) infos.
Proof.
  induction infos as [|i infos IH]; cbn [for_each]; [by rewrite Forall_nil|]. rewrite Forall_cons, bind_ok. split.
  - intros ([] & Hc & H%IH). split; [|done]. unfold Gguf.check_tensor in Hc. destruct (Z.eqb_spec (info_offset i `mod` al) 0); cbn [negb] in Hc; [|done]. split; [done|].
    intros Hs. rewrite Hs in Hc. cbn [andb] in Hc. by case_bool_decide.
  - intros [[Ha Hd] H]. exists tt. split; [|by apply IH]. unfold Gguf.check_tensor. rewrite Ha. cbn [Z.eqb negb].
    destruct (Gguf.supported_layout (data_type i)); cbn [andb]; [|done]. by rewrite bool_decide_false by by apply Hd.
Qed.
End loops.
