(* ===== verification/GgufFormat.v ===== *)
(** * The format of model files

    What the reader of [Gguf] accepts. [gguf_laid_out] describes a file by its parts; the
    reader opens exactly the files that are laid out so, never panics, and every tensor whose
    layout it knows can be viewed and, for the types that have a decoder, decoded, whole or
    row by row. *)
From S2P Require Import Prelude Float Float32 Bytes Text GgufCodecs Gguf.
#[local] Open Scope string_scope.
#[local] Open Scope list_scope.
#[local] Open Scope Z_scope.

(** ** No panics *)

Lemma for_each_invariant_safe {E I St : Type} (P : St → Prop) (body : I → St → Result (option E) St) l s : P s →
  (∀ i s, P s → body i s ≠ Err None ∧ ∀ s', body i s = Ok s' → P s') → for_each body l s ≠ Err None.
Proof.
  intros Hs Hb. revert s Hs. induction l as [|i l IH]; intros s Hs; cbn [for_each]; [done|].
  destruct (Hb i s Hs) as [H1 H2]. apply bind_safe; [done|]. intros s' Hs'. apply IH. by apply H2.
Qed.

Lemma ok_or_safe {E A} (e : E) (o : option A) : ok_or (Some e) o ≠ Err None.
Proof. by destruct o. Qed.

Lemma map_err_safe {E F A} (f : E → F) (m : Result (option E) A) : m ≠ Err None → map_err (fmap f) m ≠ Err None.
Proof. destruct m as [|[e|]]; cbn; done. Qed.

Section safety.
Context (bytes : list Z) (Hu : Forall u8 bytes) (Hlen : Parse.file_len bytes < 2 ^ 63).

Lemma decode_string_safe o : 0 ≤ o ≤ Parse.file_len bytes → Parse.decode_string bytes o ≠ Err None.
Proof.
  intros Ho. apply bind_safe; [by apply field_safe|]. intros [d e] _. apply bind_safe; [apply ok_or_safe|]. intros last _.
  apply bind_safe; [apply ok_or_safe|]. intros data _. by destruct (Utf8.from_utf8 data).
Qed.

(** A decoder that is followed by others keeps its end inside the file. *)
Lemma field_end o n message d e : 0 ≤ o → 0 ≤ n → Parse.field bytes o n message = Ok (d, e) → 0 ≤ e ≤ Parse.file_len bytes.
Proof. intros Ho Hn (Hh & Hl & ->)%(field_ok bytes Hlen); [|done..]. apply holds_range in Hh. lia. Qed.

Lemma loop_safe {A} (parse : Z → Result (option string) (A * Z)) print P (l : list Z) acc o : reads bytes parse print P →
  (∀ o, 0 ≤ o ≤ Parse.file_len bytes → parse o ≠ Err None) → 0 ≤ o ≤ Parse.file_len bytes →
  for_each (λ (_ : Z) '(acc, o), '(v, next) ← parse o; Ok (acc ++ [v], next)) l (acc, o) ≠ Err None.
Proof.
  intros Hr Hs Ho. apply (for_each_invariant_safe (λ s, 0 ≤ s.2 ≤ Parse.file_len bytes)); [done|]. intros i [acc' o'] Ho'. cbn [snd] in Ho'. split.
  - apply bind_safe; [by apply Hs|]. by intros [v e] _.
  - intros [acc1 o1] ([v e] & Hp & [= <- <-])%bind_ok. pose proof (reads_range _ _ _ _ o' _ _ Hr ltac:(lia) Hp). cbn. lia.
Qed.

Lemma decode_value_safe t o : 0 ≤ o ≤ Parse.file_len bytes → Parse.decode_metadata_value 2 bytes o t ≠ Err None.
Proof.
  assert (∀ fuel t o, 0 ≤ o ≤ Parse.file_len bytes → t ≠ 9 → Parse.decode_metadata_value (S fuel) bytes o t ≠ Err None) as Hscalar.
  { clear t o. intros fuel t o Ho Hne. cbn [Parse.decode_metadata_value]. apply bind_safe; [apply ok_or_safe|].
    intros dt Hdt%ok_or_ok%metadata_type_code. destruct dt; try done;
      first [by destruct Hdt as [Hdt _]; cbn in Hdt
        | (apply bind_safe; [first [by apply field_safe | by apply byte_safe; lia | by apply decode_string_safe]|intros [d e] _; first [done | by destruct (_ || _)]])]. }
  intros Ho. destruct (decide (t = 9)) as [->|Hne]; [|by apply Hscalar]. cbn [Parse.decode_metadata_value DataType.from_metadata_u32 ok_or]. rewrite Ok_bind.
  apply bind_safe; [by apply field_safe|]. intros [d e] Hd. apply field_end in Hd; [|lia..]. destruct (Z.eqb_spec (le_value (take 4 d)) 9) as [|Hne]; [done|].
  apply bind_safe; [|intros [values next] _; apply bind_safe; [apply ok_or_safe|done]].
  destruct (decide (0 ≤ le_value (take 4 d) ≤ 12)) as [Ht|Ht].
  - eapply (loop_safe (λ o, Parse.decode_metadata_value 1 bytes o (le_value (take 4 d)))); [by apply decode_scalar_reads| |done].
    intros o' Ho'. by apply Hscalar.
  - destruct (seqZ 0 (le_value (drop 4 d))) as [|i l]; [done|]. cbn [for_each Parse.decode_metadata_value].
    destruct (DataType.from_metadata_u32 (le_value (take 4 d))) as [dt|] eqn:E; [|done]. apply metadata_type_code in E. lia.
Qed.

Lemma decode_kv_safe o : 0 ≤ o ≤ Parse.file_len bytes → Parse.decode_metadata_kv bytes o ≠ Err None.
Proof.
  intros Ho. apply bind_safe; [by apply decode_string_safe|]. intros [s e] Hs.
  pose proof (reads_range _ _ _ _ o _ _ (decode_string_reads _ Hu Hlen) ltac:(lia) Hs) as He.
  apply bind_safe; [apply field_safe; [done|lia|lia]|]. intros [d e'] Hd. apply field_end in Hd; [|lia..].
  apply bind_safe; [by apply decode_value_safe|]. by intros [v e''] _.
Qed.

Lemma decode_info_safe o : 0 ≤ o ≤ Parse.file_len bytes → Parse.decode_tensor_info bytes o ≠ Err None.
Proof.
  intros Ho. apply bind_safe; [by apply decode_string_safe|]. intros [s e] Hs.
  pose proof (reads_range _ _ _ _ o _ _ (decode_string_reads _ Hu Hlen) ltac:(lia) Hs) as He.
  apply bind_safe; [apply field_safe; [done|lia|lia]|]. intros [d e1] Hd. apply field_end in Hd; [|lia..]. cbn zeta. destruct (negb _); [done|].
  apply bind_safe.
  { apply (for_each_invariant_safe (λ s, 0 ≤ s.2 ≤ Parse.file_len bytes)); [done|]. intros i [ds o'] Ho'. cbn [snd] in Ho'. split.
    - apply bind_safe; [apply field_safe; [done|lia|lia]|]. by intros [d' e'] _.
    - intros [ds' o1] ([d' e'] & Hf & [= <- <-])%bind_ok. apply field_end in Hf; [done|lia..]. }
  intros [ds e2] He2. apply (decode_dims_reads _ Hu Hlen) in He2 as (new & _ & _ & _ & Hh & ->); [|lia]. apply holds_range in Hh. destruct (_ || _); [done|].
  apply bind_safe; [apply field_safe; [done|lia|lia]|]. intros [d3 e3] Hd3. apply field_end in Hd3; [|lia..]. apply bind_safe; [apply ok_or_safe|]. intros dt _.
  apply bind_safe; [apply field_safe; [done|lia|lia]|]. by intros [d4 e4] _.
Qed.

Lemma open_safe : Gguf.open bytes ≠ Err None.
Proof.
  unfold Gguf.open. destruct (Z.ltb_spec (Parse.file_len bytes) 24) as [|Hl]; [done|].
  assert (∃ h, Parse.decode_header bytes = Some h) as [h Hh].
  { unfold Parse.decode_header, Parse.get. rewrite !(proj2 (Z.leb_le _ (Parse.file_len bytes))) by lia. by eexists. }
  rewrite Hh. cbn [ok_or]. rewrite Ok_bind. destruct (_ && _); [done|]. destruct (negb _); [done|]. destruct (negb _); [done|].
  apply bind_safe.
  { apply (for_each_invariant_safe (λ s, 0 ≤ s.2 ≤ Parse.file_len bytes)); [cbn; lia|]. intros i [m o] Ho. cbn [snd] in Ho. unfold Gguf.read_metadata. split.
    - apply bind_safe; [by apply map_err_safe, decode_kv_safe|]. intros [[k v] e] _. by destruct (m !! k).
    - intros [m' o'] ([[k v] e] & Hk%map_err_ok & H)%bind_ok. pose proof (reads_range _ _ _ _ o _ _ (decode_kv_reads _ Hu Hlen) ltac:(lia) Hk).
      destruct (m !! k); [done|]. injection H as _ <-. cbn. lia. }
  intros [m o] Hm. apply (read_metadata_ok _ Hu Hlen _ [] 24) in Hm as (es & _ & _ & _ & _ & Hm & ->); [|lia|apply NoDup_nil_2]. apply holds_range in Hm.
  apply bind_safe.
  { apply (for_each_invariant_safe (λ s, 0 ≤ s.2 ≤ Parse.file_len bytes)); [cbn; lia|]. intros i [[infos names] o] Ho. cbn [snd] in Ho. unfold Gguf.read_info. split.
    - apply bind_safe; [by apply map_err_safe, decode_info_safe|]. intros [info e] _. by case_bool_decide.
    - intros [[infos' names'] o'] ([info e] & Hk%map_err_ok & H)%bind_ok. pose proof (reads_range _ _ _ _ o _ _ (decode_info_reads _ Hu Hlen) ltac:(lia) Hk).
      case_bool_decide; [done|]. injection H as _ _ <-. cbn. lia. }
  intros [[infos names] o] _. apply bind_safe.
  { unfold Gguf.alignment_of. destruct (m !! _) as [[]|]; try done. by destruct (_ && _). }
  intros al _. apply bind_safe; [apply ok_or_safe|]. intros off _. apply bind_safe; [|done].
  apply (for_each_invariant_safe (λ _, True)); [done|]. intros info [] _. split; [|done]. unfold Gguf.check_tensor. destruct (negb _); [done|]. by destruct (_ && _).
Qed.
End safety.

(** ** The parts of a file *)

Definition gguf_header_bytes (h : GgufHeader) : list Z :=
  le_bytes 4 (magic h) ++ le_bytes 4 (header_version h) ++ le_bytes 8 (tensor_count h) ++ le_bytes 8 (metadata_kv_count h).

Definition entries_bytes (es : list (string * GgufMetadataValue)) : list Z := concat (metadata_entry_bytes <$> es).
Definition infos_bytes (infos : list GgufTensorInfo) : list Z := concat (info_bytes <$> infos).

(** The first position behind the descriptors. *)
Definition descriptors_end (es : list (string * GgufMetadataValue)) (infos : list GgufTensorInfo) : Z :=
  24 + Z.of_nat (length (entries_bytes es)) + Z.of_nat (length (infos_bytes infos)).

(** A file of the format, with the metadata in the order of the file. Keys and names are
    unique, the data starts at the first aligned position, the offsets are aligned, and each
    tensor of a known layout lies in the file, its rows in whole blocks. *)
Record gguf_laid_out (bytes : list Z) (es : list (string * GgufMetadataValue)) (r : GgufReader) : Prop := mk_gguf_laid_out {
  gguf_file : ∃ payload, bytes = gguf_header_bytes (gguf_header r) ++ entries_bytes es ++ infos_bytes (tensor_infos r) ++ payload;
  gguf_mmap : mmap r = bytes;
  gguf_version : magic (gguf_header r) = GGUF_MAGIC ∧ 2 ≤ header_version (gguf_header r) ≤ 3;
  gguf_counts : metadata_kv_count (gguf_header r) = Z.of_nat (length es) ∧ tensor_count (gguf_header r) = Z.of_nat (length (tensor_infos r));
  gguf_entries : Forall metadata_entry_ok es ∧ NoDup es.*1 ∧ gguf_metadata r = list_to_map es;
  gguf_infos : Forall info_ok (tensor_infos r) ∧ NoDup (info_name <$> tensor_infos r);
  gguf_data : ∃ al, Gguf.alignment_of (gguf_metadata r) = Ok al ∧
    tensor_data_offset r = (descriptors_end es (tensor_infos r) + al - 1) / al * al ∧ Forall (λ i, info_offset i `mod` al = 0) (tensor_infos r);
  gguf_tensors : Forall (λ i, is_Some (layout_of (data_type i)) →
    ∃ n, tensor_len i = Some n ∧ tensor_data_offset r + info_offset i + n ≤ Parse.file_len bytes) (tensor_infos r);
}.

Lemma tensor_len_nonneg i n : info_ok i → tensor_len i = Some n → 0 ≤ n.
Proof.
  intros [_ Hp]%info_dims_pos. unfold tensor_len. intros ([a b] & Hl & H)%bind_Some. case_match; [|done]. injection H as <-.
  assert (0 < a ∧ 0 ≤ b) as [Ha Hb] by (destruct (data_type i); cbn in Hl; try done; injection Hl as <- <-; lia).
  apply Z.mul_nonneg_nonneg; [apply Z.div_pos; lia|done].
Qed.

Section format.
Context (bytes : list Z) (Hu : Forall u8 bytes) (Hlen : Parse.file_len bytes < 2 ^ 63).

Lemma decode_header_ok h : Parse.decode_header bytes = Some h ↔
  holds bytes 0 (gguf_header_bytes h) ∧ 0 ≤ magic h < 2 ^ 32 ∧ 0 ≤ header_version h < 2 ^ 32 ∧ 0 ≤ tensor_count h < W64 ∧ 0 ≤ metadata_kv_count h < W64.
Proof.
  assert (∀ a k d, 0 ≤ a → Parse.get bytes a (a + Z.of_nat k) = Some d ↔ ∃ v, d = le_bytes k v ∧ v = le_value d ∧ 0 ≤ v < 256 ^ Z.of_nat k ∧ holds bytes a (le_bytes k v)) as Hget.
  { intros a k d Ha. rewrite get_ok by done. split.
    - intros [Hd Hl]. assert (length d = k) as Hk by lia. pose proof (holds_u8 _ Hu _ _ Hd) as Hd8. exists (le_value d).
      rewrite le_bytes_value by done. rewrite <-Hk. pose proof (le_value_bounds d Hd8). done.
    - intros (v & -> & _ & _ & Hd). by rewrite length_le_bytes. }
  unfold Parse.decode_header, gguf_header_bytes. rewrite !holds_app, !length_le_bytes. split.
  - intros H. apply bind_Some in H as (m & (v1 & _ & -> & Hv1 & H1)%(Hget 0 4%nat) & H); [|lia].
    apply bind_Some in H as (ve & (v2 & _ & -> & Hv2 & H2)%(Hget 4 4%nat) & H); [|lia].
    apply bind_Some in H as (tc & (v3 & _ & -> & Hv3 & H3)%(Hget 8 8%nat) & H); [|lia].
    apply bind_Some in H as (kc & (v4 & _ & -> & Hv4 & H4)%(Hget 16 8%nat) & [= <-]); [|lia]. cbn [magic header_version tensor_count metadata_kv_count]. done.
  - intros ((H1 & H2 & H3 & H4) & Hv1 & Hv2 & Hv3 & Hv4). destruct h as [m ve tc kc]. cbn [magic header_version tensor_count metadata_kv_count] in *.
    apply bind_Some. exists (le_bytes 4 m). split; [apply (Hget 0 4%nat); [lia|]; exists m; by rewrite le_value_bytes|].
    apply bind_Some. exists (le_bytes 4 ve). split; [apply (Hget 4 4%nat); [lia|]; exists ve; by rewrite le_value_bytes|].
    apply bind_Some. exists (le_bytes 8 tc). split; [apply (Hget 8 8%nat); [lia|]; exists tc; by rewrite le_value_bytes|].
    apply bind_Some. exists (le_bytes 8 kc). split; [apply (Hget 16 8%nat); [lia|]; exists kc; by rewrite le_value_bytes|]. by rewrite !le_value_bytes.
Qed.

Lemma alignment_range es al : Forall metadata_entry_ok es → Gguf.alignment_of (list_to_map es) = Ok al → 0 < al < 2 ^ 32.
Proof.
  intros HF. unfold Gguf.alignment_of. destruct (list_to_map es !! "general.alignment") as [v|] eqn:E; [|intros [= <-]; lia].
  apply elem_of_list_to_map_2 in E. rewrite Forall_forall in HF. destruct (HF _ E) as [_ Hv]. cbn [snd] in Hv. destruct v; try done. cbn in Hv.
  destruct (Z.eqb_spec n 0); cbn [negb andb]; [done|]. destruct (_ =? 0); [|done]. intros [= <-]. lia.
Qed.

Lemma header_end h es infos : holds bytes 0 (gguf_header_bytes h) → holds bytes 24 (entries_bytes es) →
  holds bytes (24 + Z.of_nat (length (entries_bytes es))) (infos_bytes infos) →
  ∃ payload, bytes = gguf_header_bytes h ++ entries_bytes es ++ infos_bytes infos ++ payload.
Proof.
  intros H1 H2 H3. assert (holds bytes 0 (gguf_header_bytes h ++ entries_bytes es ++ infos_bytes infos)) as (pre & post & E & Hp).
  { apply holds_app. split; [done|]. apply holds_app. unfold gguf_header_bytes at 1 2. by rewrite !length_app, !length_le_bytes. }
  destruct pre; [|done]. exists post. by rewrite E, <-!app_assoc.
Qed.

Lemma tensor_present r i : mmap r = bytes → 0 ≤ tensor_data_offset r → info_ok i →
  (Gguf.supported_layout (data_type i) = true → Gguf.tensor_data r i ≠ None) ↔
  (is_Some (layout_of (data_type i)) → ∃ n, tensor_len i = Some n ∧ tensor_data_offset r + info_offset i + n ≤ Parse.file_len bytes).
Proof.
  intros Hm Hoff Hi. rewrite supported_layout_ok. split; intros H Hs; specialize (H Hs).
  - destruct (Gguf.tensor_data r i) as [d|] eqn:E; [|done]. apply tensor_data_ok in E as [Hn Hh]; [|by rewrite Hm|done|done].
    rewrite Hm in Hh. apply holds_range in Hh as [_ Hr]. by eexists.
  - destruct H as (n & Hn & Hr). pose proof (tensor_len_nonneg i n Hi Hn) as Hn0.
    assert (0 ≤ info_offset i) as Hio by (destruct Hi as (_ & _ & _ & _ & _ & _ & [? _]); done).
    set (o := tensor_data_offset r + info_offset i) in *. set (d := take (Z.to_nat n) (drop (Z.to_nat o) bytes)).
    assert (Gguf.tensor_data r i = Some d) as ->; [|done].
    assert (Z.of_nat (length d) = n) as Hd by (unfold d, Parse.file_len in *; rewrite length_take, length_drop; lia).
    apply tensor_data_ok; [by rewrite Hm|done|done|]. rewrite Hd, Hm. split; [done|]. fold o.
    assert (Parse.get bytes o (o + n) = Some d) as Hg.
    { unfold Parse.get. rewrite !(proj2 (Z.leb_le _ _)) by lia. by replace (o + n - o) with n by lia. }
    by apply get_ok in Hg as [? _]; [|lia].
Qed.
End format.

Section opening.
Context (bytes : list Z) (Hu : Forall u8 bytes) (Hlen : Parse.file_len bytes < 2 ^ 63).

Lemma round_up_ok n al data_offset : 0 ≤ n ≤ Parse.file_len bytes → 0 < al < 2 ^ 32 →
  ok_or (Some SizeOverflow) (n ← checked_add n (al - 1); Some (n / al * al)) = Ok data_offset ↔ data_offset = (n + al - 1) / al * al.
Proof.
  intros Hn Hal. replace (n + al - 1) with (n + (al - 1)) by lia. unfold checked_add. change W64 with (2 * 2 ^ 63). rewrite (proj2 (Z.ltb_lt _ _)) by lia. cbn.
  split; [by intros [= ->]|by intros ->].
Qed.

Lemma open_gguf_laid_out r : Gguf.open bytes = Ok r → ∃ es, gguf_laid_out bytes es r.
Proof.
  unfold Gguf.open. destruct (Z.ltb_spec (Parse.file_len bytes) 24) as [|Hl]; [done|]. intros H.
  apply bind_ok in H as (h & [Hh Hranges]%ok_or_ok%(decode_header_ok _ Hu) & H). destruct (_ && _); [done|].
  destruct (Z.eqb_spec (magic h) GGUF_MAGIC) as [Hmagic|]; cbn [negb] in H; [|done].
  destruct (Z.leb_spec 2 (header_version h)) as [Hv1|], (Z.leb_spec (header_version h) GGUF_SUPPORTED_VERSION) as [Hv2|]; cbn [andb negb] in H; try done.
  apply bind_ok in H as ([m o1] & Hm & H). apply (read_metadata_ok _ Hu Hlen _ [] 24) in Hm as (es & -> & Hes & Hnd & HF & Hh1 & ->); [|lia|apply NoDup_nil_2].
  cbn [app] in *. pose proof (holds_range _ _ _ Hh1) as Hr1. fold (entries_bytes es) in *.
  apply bind_ok in H as ([[infos names] o2] & Hi & H). assert (∃ names', for_each (Gguf.read_info bytes) (seqZ 0 (tensor_count h)) ([], ∅, 24 + Z.of_nat (length (entries_bytes es))) = Ok (infos, names', o2)) as Hex by by eexists.
  apply (read_infos_ok _ Hu Hlen) in Hex as (infos' & -> & Hil & Hnd' & HF' & Hh2 & ->); [|lia|by intros x; rewrite elem_of_empty, elem_of_nil|apply NoDup_nil_2].
  cbn [app] in *. pose proof (holds_range _ _ _ Hh2) as Hr2. fold (infos_bytes infos') in *. clear Hi.
  assert (list_to_map (reverse es) = (list_to_map es : gmap string GgufMetadataValue)) as Emap.
  { apply list_to_map_proper; [|apply reverse_Permutation]. by rewrite fmap_reverse, reverse_Permutation. }
  rewrite Emap in H. apply bind_ok in H as (al & Hal & H). pose proof (alignment_range es al HF Hal) as Har.
  apply bind_ok in H as (off & Ho & H). apply round_up_ok in Ho as ->; [|lia|done]. apply bind_ok in H as ([] & Hc%check_tensors_ok & [= <-]).
  rewrite length_seqZ in Hes, Hil. exists es. split; cbn [gguf_header tensor_infos mmap gguf_metadata tensor_data_offset].
  - by apply header_end.
  - done.
  - by unfold GGUF_SUPPORTED_VERSION in *.
  - destruct Hranges as (_ & _ & ? & ?). lia.
  - done.
  - done.
  - exists al. split; [done|]. split; [done|]. eapply Forall_impl; [exact Hc|]. by intros i [? _].
  - apply Forall_forall. intros i Hin. rewrite Forall_forall in HF', Hc. destruct (Hc i Hin) as [_ Ht].
    refine (proj1 (tensor_present bytes Hlen (mkGgufReader bytes h (list_to_map es) infos' _) i eq_refl _ (HF' i Hin)) Ht).
    cbn [tensor_data_offset]. apply Z.mul_nonneg_nonneg; [apply Z.div_pos; lia|lia].
Qed.

Lemma laid_out_open es r : gguf_laid_out bytes es r → Gguf.open bytes = Ok r.
Proof.
  intros [(payload & Hfile) Hmm [Hmagic Hv] [Hkc Htc] (HF & Hnd & Hmap) [HF' Hnd'] (al & Hal & Hoff & Hali) Htens].
  destruct r as [mm h m infos off]. cbn [gguf_header tensor_infos mmap gguf_metadata tensor_data_offset] in *. subst mm m.
  assert (holds bytes 0 (gguf_header_bytes h ++ entries_bytes es ++ infos_bytes infos)) as Hall.
  { exists [], payload. split; [|done]. by rewrite Hfile, <-!app_assoc. }
  apply holds_app in Hall as [Hh [Hh1 Hh2]%holds_app].
  assert (Z.of_nat (length (gguf_header_bytes h)) = 24) as E24 by (unfold gguf_header_bytes; by rewrite !length_app, !length_le_bytes).
  rewrite E24 in *. cbn [Z.add] in *. pose proof (holds_range _ _ _ Hh1) as Hr1. pose proof (holds_range _ _ _ Hh2) as Hr2.
  unfold Gguf.open. rewrite (proj2 (Z.ltb_ge _ _)) by lia.
  assert (∀ l : list Z, Z.of_nat (length l) ≤ Parse.file_len bytes → Z.of_nat (length l) < W64) as Hw by (intros l; change W64 with (2 * 2 ^ 63); lia).
  assert (length es ≤ length (entries_bytes es))%nat as Hle.
  { clear. induction es as [|e es IH]; [done|]. unfold entries_bytes, metadata_entry_bytes, string_bytes in *. cbn [fmap list_fmap concat length]. rewrite !length_app, length_le_bytes. lia. }
  assert (length infos ≤ length (infos_bytes infos))%nat as Hli.
  { clear. induction infos as [|i infos IH]; [done|]. unfold infos_bytes, info_bytes, string_bytes in *. cbn [fmap list_fmap concat length]. rewrite !length_app, length_le_bytes. lia. }
  rewrite (proj2 (decode_header_ok _ Hu h)).
  2: { split; [done|]. rewrite Hmagic, Hkc, Htc. change W64 with (2 * 2 ^ 63). unfold GGUF_MAGIC. lia. }
  cbn [ok_or]. rewrite Ok_bind, Hmagic. assert ((Gguf.swap_bytes (header_version h) =? 3) = false) as ->.
  { assert (header_version h = 2 ∨ header_version h = 3) as [-> | ->] by lia; reflexivity. }
  cbn [andb negb Z.eqb]. rewrite Z.eqb_refl. cbn [andb negb]. unfold GGUF_SUPPORTED_VERSION. rewrite !(proj2 (Z.leb_le _ _)) by lia. cbn [andb negb].
  assert (list_to_map (reverse es) = (list_to_map es : gmap string GgufMetadataValue)) as Emap.
  { apply list_to_map_proper; [|apply reverse_Permutation]. by rewrite fmap_reverse, reverse_Permutation. }
  assert (for_each (Gguf.read_metadata bytes) (seqZ 0 (metadata_kv_count h)) (∅, 24) = Ok (list_to_map es, 24 + Z.of_nat (length (entries_bytes es)))) as ->.
  { apply (read_metadata_ok _ Hu Hlen _ [] 24); [lia|apply NoDup_nil_2|]. exists es. rewrite length_seqZ, Hkc. split_and!; [exact (eq_sym Emap)|lia|done|done|done|done]. }
  rewrite Ok_bind. destruct (proj2 (read_infos_ok _ Hu Hlen (seqZ 0 (tensor_count h)) [] ∅ (24 + Z.of_nat (length (entries_bytes es))) infos
    (24 + Z.of_nat (length (entries_bytes es)) + Z.of_nat (length (infos_bytes infos))) ltac:(lia) ltac:(intros x; by rewrite elem_of_empty, elem_of_nil) ltac:(apply NoDup_nil_2))) as (names & ->).
  { exists infos. rewrite length_seqZ, Htc. split_and!; [done|lia|done|done|done|done]. }
  rewrite Ok_bind, Hal, Ok_bind. pose proof (alignment_range es al HF Hal) as Har. fold (descriptors_end es infos). rewrite (proj2 (round_up_ok (descriptors_end es infos) al off ltac:(unfold descriptors_end; lia) Har)) by done.
  rewrite Ok_bind, (proj2 (check_tensors_ok _ al infos)); [done|]. apply Forall_forall. intros i Hin. rewrite Forall_forall in HF', Hali, Htens. split; [by apply Hali|].
  apply (tensor_present bytes Hlen _ i); [done| |by apply HF'|by apply Htens]. cbn [tensor_data_offset]. rewrite Hoff. unfold descriptors_end.
  apply Z.mul_nonneg_nonneg; [apply Z.div_pos; lia|lia].
Qed.
End opening.

(** ** Views of an open file *)

Lemma geometry_layout t p : Codec.geometry t = Some p → layout_of t = Some p.
Proof. by destruct t. Qed.

Lemma find_tensor_unique r i : NoDup (info_name <$> tensor_infos r) → i ∈ tensor_infos r → Gguf.find_tensor r (info_name i) = Some i.
Proof.
  intros Hnd [k Hk]%list_elem_of_lookup_1. unfold Gguf.find_tensor.
  assert (list_find (λ t, info_name t = info_name i) (tensor_infos r) = Some (k, i)) as ->; [|done].
  apply list_find_Some. split_and!; [done|done|]. intros j y Hj Hlt E.
  assert (j = k) as ->; [|lia]. eapply NoDup_lookup; [exact Hnd|by rewrite list_lookup_fmap, Hj|rewrite list_lookup_fmap, Hk; cbn; by rewrite E].
Qed.

Section views.
Context (bytes : list Z) (r : GgufReader) (Hu : Forall u8 bytes) (Hlen : Parse.file_len bytes < 2 ^ 63) (Hopen : Gguf.open bytes = Ok r).

(** The bytes of a tensor in the file. *)
Definition stored_at (i : GgufTensorInfo) (d : list Z) : Prop :=
  tensor_len i = Some (Z.of_nat (length d)) ∧ holds (mmap r) (tensor_data_offset r + info_offset i) d.

Lemma opened : mmap r = bytes ∧ 0 ≤ tensor_data_offset r ∧ Forall info_ok (tensor_infos r) ∧ NoDup (info_name <$> tensor_infos r).
Proof.
  destruct (open_gguf_laid_out bytes Hu Hlen r Hopen) as (es & [_ Hm _ _ (HF & _ & Hmap) [Hi Hnd] (al & Hal & Hoff & _) _]). rewrite Hmap in Hal.
  pose proof (alignment_range es al HF Hal). split_and!; [done| |done|done]. rewrite Hoff. unfold descriptors_end.
  apply Z.mul_nonneg_nonneg; [apply Z.div_pos; lia|lia].
Qed.

Lemma stored_data i d : i ∈ tensor_infos r → Gguf.tensor_data r i = Some d ↔ stored_at i d.
Proof.
  destruct opened as (Hm & Ho & Hi & _). rewrite Forall_forall in Hi. intros Hin. apply tensor_data_ok; [by rewrite Hm|done|by apply Hi].
Qed.

Lemma known_stored i : i ∈ tensor_infos r → is_Some (layout_of (data_type i)) → ∃ d, stored_at i d.
Proof.
  intros Hin Hs. destruct (open_gguf_laid_out bytes Hu Hlen r Hopen) as (es & [_ Hm _ _ _ [Hi _] _ Ht]). destruct opened as (_ & Ho & _ & _).
  rewrite Forall_forall in Ht, Hi. apply supported_layout_ok in Hs as Hsup.
  assert (Gguf.tensor_data r i ≠ None) as Hd by (apply (tensor_present bytes Hlen r i Hm Ho (Hi i Hin)); [exact (Ht i Hin)|done]).
  destruct (Gguf.tensor_data r i) as [d|] eqn:E; [|done]. exists d. by apply stored_data.
Qed.

Lemma stored_u8 i d : stored_at i d → Forall u8 d.
Proof. destruct opened as (Hm & _). intros [_ Hh]. rewrite Hm in Hh. by eapply holds_u8. Qed.

(** The rows of a tensor in blocks. *)
Lemma stored_rows i d n b : i ∈ tensor_infos r → stored_at i d → Codec.geometry (data_type i) = Some (n, b) →
  ∃ columns outer k, dims i = columns :: outer ∧ 0 < columns ∧ columns = k * n ∧ 0 < k ∧ 0 < foldr Z.mul 1 outer ∧ Forall (λ x, 0 < x) outer ∧
    columns * foldr Z.mul 1 outer < W64 ∧ Z.of_nat (length d) = foldr Z.mul 1 outer * (k * b) ∧ Z.of_nat (length d) < 2 ^ 63.
Proof.
  intros Hin [Hl Hh] Hg. destruct opened as (Hm & Ho & Hi & _). rewrite Forall_forall in Hi. pose proof (Hi i Hin) as Hok. rewrite Hm in Hh.
  apply holds_range in Hh. pose proof (info_dims_pos i Hok) as [Hne Hp]. destruct Hok as (_ & _ & _ & Hpos & Hprod & _).
  destruct (dims i) as [|columns outer] eqn:Ed; [done|]. unfold tensor_len in Hl. rewrite (geometry_layout _ _ Hg), Ed in Hl. cbn [mbind option_bind head default foldr] in *. unfold id in Hl.
  destruct (Z.eqb_spec (columns `mod` n) 0) as [Hmod|]; [|done]. injection Hl as Hl. inversion_clear Hpos as [|? ? Hc Hout].
  destruct (geometry_pos _ _ _ Hg) as [Hn Hb]. pose proof (Z.div_mod columns n ltac:(lia)) as Hdm. rewrite Hmod, Z.add_0_r in Hdm.
  assert (0 < foldr Z.mul 1 outer) as Hpo by (clear -Hout; induction Hout; cbn; lia).
  exists columns, outer, (columns / n). assert (0 < columns / n) by nia. split_and!; try done; try lia.
  rewrite <-Hl, Hdm at 1. replace (n * (columns / n) * foldr Z.mul 1 outer) with (columns / n * foldr Z.mul 1 outer * n) by lia. rewrite Z.div_mul by lia. lia.
Qed.

Lemma view_ok i d : i ∈ tensor_infos r → stored_at i d → View.tensor_view r (info_name i) = Ok (mkView i d).
Proof.
  intros Hin Hd. destruct opened as (_ & _ & _ & Hnd). unfold View.tensor_view. rewrite find_tensor_unique by done. cbn [ok_or]. rewrite Ok_bind.
  by rewrite (proj2 (stored_data i d Hin) Hd).
Qed.

Lemma decode_view i d n b : i ∈ tensor_infos r → stored_at i d → Codec.geometry (data_type i) = Some (n, b) →
  View.decode_f32 (mkView i d) = Ok (decoded (data_type i) d) ∧ Z.of_nat (length (decoded (data_type i) d)) = foldr Z.mul 1 (dims i).
Proof.
  intros Hin Hd Hg. destruct (stored_rows i d n b Hin Hd Hg) as (columns & outer & k & Ed & Hc & -> & Hk & Hp & Hpos & Hw & Hl & Hlt).
  destruct (geometry_pos _ _ _ Hg) as [Hn Hb]. rewrite Ed. cbn [foldr]. set (rows := foldr Z.mul 1 outer) in *. split.
  - unfold View.decode_f32. cbn [view_info view_data]. rewrite Ed.
    rewrite (proj2 (checked_product_ok (k * n :: outer) (k * n * rows) ltac:(by constructor))) by done. cbn [ok_or]. rewrite Ok_bind.
    apply decode_f32_ok; [lia|]. exists n, b, (rows * k). split_and!; [done|lia|lia|change W64 with (2 * 2 ^ 63); lia|lia|done].
  - rewrite (length_decoded _ _ _ _ (rows * k) Hg); lia.
Qed.

(** A row is its part of the decoded tensor. *)
Lemma decode_row i d n b row : i ∈ tensor_infos r → stored_at i d → Codec.geometry (data_type i) = Some (n, b) →
  0 ≤ row < foldr Z.mul 1 (tail (dims i)) →
  View.decode_row_f32 (mkView i d) row = Ok (take (Z.to_nat (default 0 (head (dims i)))) (drop (Z.to_nat (row * default 0 (head (dims i)))) (decoded (data_type i) d))).
Proof.
  intros Hin Hd Hg Hrow. destruct (stored_rows i d n b Hin Hd Hg) as (columns & outer & k & Ed & Hc & Hck & Hk & Hp & Hpos & Hw & Hl & Hlt).
  destruct (geometry_pos _ _ _ Hg) as [Hn Hb]. rewrite Ed in *. cbn [head tail default] in *. unfold id. unfold View.decode_row_f32. cbn [view_info view_data]. rewrite Ed.
  set (rows := foldr Z.mul 1 outer) in *. rewrite (proj2 (checked_product_ok outer rows Hpos)) by (split; [done|fold rows; nia]). cbn [ok_or]. rewrite Ok_bind.
  set (stride := k * b) in *. assert (0 < stride) as Hst by (unfold stride; nia).
  assert (row * stride + stride ≤ rows * stride) as Hend by nia.
  assert (Parse.file_len d = stride * rows) as Hfl by (unfold Parse.file_len; lia).
  rewrite Hfl, Z.mod_mul, Z.div_mul, (proj2 (Z.eqb_neq columns 0)), (proj2 (Z.leb_gt rows row)) by lia. cbn [orb negb Z.eqb]. cbv zeta.
  rewrite (proj2 (checked_mul_Some row stride (row * stride))) by (split; [done|change W64 with (2 * 2 ^ 63); lia]). cbn [ok_or]. rewrite Ok_bind.
  rewrite (proj2 (checked_add_Some (row * stride) stride (row * stride + stride))) by (split; [done|change W64 with (2 * 2 ^ 63); lia]). cbn [ok_or]. rewrite Ok_bind.
  set (pre := take (Z.to_nat (row * stride)) d). set (mid := take (Z.to_nat stride) (drop (Z.to_nat (row * stride)) d)).
  set (post := drop (Z.to_nat stride) (drop (Z.to_nat (row * stride)) d)).
  assert (d = pre ++ mid ++ post) as Hsplit by (unfold pre, mid, post; by rewrite take_drop, take_drop).
  assert (Z.of_nat (length pre) = row * stride ∧ Z.of_nat (length mid) = stride) as [Lp Lm].
  { unfold pre, mid. rewrite !length_take, length_drop. nia. }
  rewrite (proj2 (get_ok d (row * stride) (row * stride + stride) mid ltac:(nia))).
  2: { split; [|lia]. by exists pre, post. }
  cbn [ok_or]. rewrite Ok_bind. rewrite (proj2 (decode_f32_ok (data_type i) mid columns (decoded (data_type i) mid) ltac:(lia))).
  2: { exists n, b, k. split_and!; [done|lia|lia|fold stride; change W64 with (2 * 2 ^ 63); nia|lia|done]. }
  f_equal. rewrite Hsplit. rewrite !(decoded_app _ _ _ n b Hg); [| rewrite Lm; unfold stride; by apply Z.mod_mul; lia | rewrite Lp; unfold stride; rewrite Z.mul_assoc; apply Z.mod_mul; lia].
  pose proof (length_decoded (data_type i) pre n b (row * k) Hg ltac:(lia) ltac:(lia)) as Dp. pose proof (length_decoded (data_type i) mid n b k Hg ltac:(lia) ltac:(lia)) as Dm.
  rewrite drop_app_length' by lia. by rewrite take_app_length' by lia.
Qed.
(** The other answers of the reader. *)
Lemma view_unknown i : i ∈ tensor_infos r → layout_of (data_type i) = None →
  View.tensor_view r (info_name i) = Err (Some (UnsupportedDataType (data_type i))).
Proof.
  intros Hin Hn. destruct opened as (_ & _ & _ & Hnd). unfold View.tensor_view. rewrite find_tensor_unique by done. cbn [ok_or]. rewrite Ok_bind.
  destruct (Gguf.tensor_data r i) as [d|] eqn:E.
  - apply (stored_data i d Hin) in E as [E _]. unfold tensor_len in E. by rewrite Hn in E.
  - destruct (Gguf.supported_layout (data_type i)) eqn:Hs; [|done]. apply supported_layout_ok in Hs as [p Hp]. congruence.
Qed.

Lemma decode_undecodable i d : i ∈ tensor_infos r → Codec.geometry (data_type i) = None →
  View.decode_f32 (mkView i d) = Err (Some (UnsupportedDataType (data_type i))).
Proof.
  intros Hin Hg. destruct opened as (_ & _ & Hi & _). rewrite Forall_forall in Hi. pose proof (Hi i Hin) as (_ & _ & _ & Hpos & Hp & _).
  unfold View.decode_f32. cbn [view_info view_data]. rewrite (proj2 (checked_product_ok (dims i) _ Hpos)) by done. cbn [ok_or]. rewrite Ok_bind.
  unfold Codec.decode_f32. by rewrite Hg.
Qed.

Lemma absent_tensor name : name ∉ info_name <$> tensor_infos r → View.read_tensor_f32 r name = Err (Some (TensorNotFound name)).
Proof.
  intros Hn. unfold View.read_tensor_f32, View.tensor_view, Gguf.find_tensor.
  assert (list_find (λ t, info_name t = name) (tensor_infos r) = None) as ->; [|done].
  apply list_find_None, Forall_forall. intros t Ht E. apply Hn. rewrite <-E. by apply list_elem_of_fmap_2.
Qed.

Lemma dims_rows i : i ∈ tensor_infos r → ∃ c outer, dims i = c :: outer ∧ 0 < c ∧ Forall (λ x, 0 < x) outer ∧ 0 < foldr Z.mul 1 outer < W64.
Proof.
  intros Hin. destruct opened as (_ & _ & Hi & _). rewrite Forall_forall in Hi. pose proof (Hi i Hin) as Hok. destruct (info_dims_pos i Hok) as [Hne _].
  destruct Hok as (_ & _ & _ & Hpos & Hp & _). destruct (dims i) as [|c outer]; [done|]. inversion_clear Hpos as [|? ? Hc Ho]. exists c, outer.
  cbn [foldr] in Hp. assert (0 < foldr Z.mul 1 outer) by (clear -Ho; induction Ho; cbn; lia). split_and!; try done. nia.
Qed.

Lemma row_outside i d row : i ∈ tensor_infos r → foldr Z.mul 1 (tail (dims i)) ≤ row →
  View.decode_row_f32 (mkView i d) row = Err (Some (InvalidTensorRange (info_name i))).
Proof.
  intros Hin Hr. destruct (dims_rows i Hin) as (c & outer & Ed & Hc & Hpos & Hp). unfold View.decode_row_f32. cbn [view_info view_data]. rewrite Ed in *. cbn [tail] in Hr.
  rewrite (proj2 (checked_product_ok outer _ Hpos)) by (split; [done|apply Hp]). cbn [ok_or]. rewrite Ok_bind.
  by rewrite (proj2 (Z.leb_le _ _) Hr), orb_true_r.
Qed.

Lemma stored_reference i d n b : i ∈ tensor_infos r → stored_at i d → Codec.geometry (data_type i) = Some (n, b) →
  ∃ blocks, concat blocks = d ∧ Forall (λ c, Z.of_nat (length c) = b) blocks ∧ decoded (data_type i) d = concat (reference_block (data_type i) <$> blocks).
Proof.
  intros Hin Hd Hg. destruct (stored_rows i d n b Hin Hd Hg) as (c & outer & k & _ & _ & _ & Hk & Hp & _ & _ & Hl & _). destruct (geometry_pos _ _ _ Hg) as [_ Hb].
  destruct (whole_blocks b (foldr Z.mul 1 outer * k) d) as (blocks & <- & HF & _); [lia|nia|lia|]. exists blocks. split_and!; [done|done|].
  eapply decoded_blocks; [done|done|]. by apply (stored_u8 i).
Qed.
End views.

(** Rows of the same length, one after the other. *)
Lemma slices {A} (l : list A) c n : length l = (n * c)%nat → concat ((λ k, take c (drop (k * c) l)) <$> seq 0 n) = l.
Proof.
  intros Hl. assert (∀ m, (m ≤ n)%nat → concat ((λ k, take c (drop (k * c) l)) <$> seq 0 m) = take (m * c) l) as H.
  { induction m as [|m IH]; intros Hm; [done|]. rewrite seq_S, fmap_app, concat_app, IH by lia. cbn [fmap list_fmap concat Nat.add].
    rewrite app_nil_r, take_take_drop. f_equal. lia. }
  rewrite H by done. by rewrite <-Hl, firstn_all.
Qed.

(** ** What the reader accepts *)

(** [C14] The format. On any file below [2^63] bytes [open] never panics, and it opens exactly
    the files that are laid out as model files: header, metadata, descriptors and data in
    their places, unique keys and names, positive dimensions, aligned offsets, and every
    tensor of a known layout inside the file. The reader it gives is then the one described. *)
Theorem gguf_format bytes : Forall u8 bytes → Parse.file_len bytes < 2 ^ 63 →
  Gguf.open bytes ≠ Err None ∧ ∀ r, Gguf.open bytes = Ok r ↔ ∃ es, gguf_laid_out bytes es r.
Proof.
  intros Hu Hlen. split; [by apply open_safe|]. intros r. split; [by apply open_gguf_laid_out|]. intros [es H]. by eapply laid_out_open.
Qed.

(** [C17] Every tensor of an open file can be read by name. If its layout is known the view is
    its bytes in the file; if it has a decoder its elements are those of the stored blocks,
    as many as the dimensions say. The other types are rejected as unsupported, and so is a
    name that is not in the file. *)
Theorem tensor_decodes bytes r i : Forall u8 bytes → Parse.file_len bytes < 2 ^ 63 → Gguf.open bytes = Ok r → i ∈ tensor_infos r →
  (layout_of (data_type i) = None → View.tensor_view r (info_name i) = Err (Some (UnsupportedDataType (data_type i)))) ∧
  (∀ p, layout_of (data_type i) = Some p → ∃ d, stored_at r i d ∧ View.tensor_view r (info_name i) = Ok (mkView i d) ∧
    match Codec.geometry (data_type i) with
    | None => View.read_tensor_f32 r (info_name i) = Err (Some (UnsupportedDataType (data_type i)))
    | Some (n, b) => ∃ blocks vs, concat blocks = d ∧ Forall (λ c, Z.of_nat (length c) = b) blocks ∧
        vs = concat (reference_block (data_type i) <$> blocks) ∧ Z.of_nat (length vs) = foldr Z.mul 1 (dims i) ∧
        View.read_tensor_f32 r (info_name i) = Ok vs
    end) ∧
  ∀ name, name ∉ info_name <$> tensor_infos r → View.read_tensor_f32 r name = Err (Some (TensorNotFound name)).
Proof.
  intros Hu Hlen Hopen Hin. split_and!.
  - intros Hn. by apply (view_unknown bytes).
  - intros p Hp. destruct (known_stored bytes r Hu Hlen Hopen i Hin) as [d Hd]; [by eexists|]. pose proof (view_ok bytes r Hu Hlen Hopen i d Hin Hd) as Hv.
    exists d. split_and!; [done|done|]. unfold View.read_tensor_f32. rewrite Hv, Ok_bind. destruct (Codec.geometry (data_type i)) as [[n b]|] eqn:Hg.
    + destruct (decode_view bytes r Hu Hlen Hopen i d n b Hin Hd Hg) as [-> Hl].
      destruct (stored_reference bytes r Hu Hlen Hopen i d n b Hin Hd Hg) as (blocks & Hc & HF & E).
      exists blocks, (decoded (data_type i) d). done.
    + by apply (decode_undecodable bytes r Hu Hlen Hopen).
  - intros name Hname. by apply absent_tensor.
Qed.

(** [C16] Row by row is the whole. For a tensor that has a decoder, decoding each row gives
    the rows of the decoded tensor, one after the other, each as long as the first dimension;
    a row past the last is rejected, whatever its number. *)
Theorem rows_decode bytes r i n b : Forall u8 bytes → Parse.file_len bytes < 2 ^ 63 → Gguf.open bytes = Ok r → i ∈ tensor_infos r →
  Codec.geometry (data_type i) = Some (n, b) → ∃ view rows, View.tensor_view r (info_name i) = Ok view ∧
    (λ row, View.decode_row_f32 view (Z.of_nat row)) <$> seq 0 (length rows) = Ok <$> rows ∧
    Forall (λ vs, Some (Z.of_nat (length vs)) = head (dims i)) rows ∧ Z.of_nat (length rows) = foldr Z.mul 1 (tail (dims i)) ∧
    View.decode_f32 view = Ok (concat rows) ∧
    ∀ row, Z.of_nat (length rows) ≤ row → View.decode_row_f32 view row = Err (Some (InvalidTensorRange (info_name i))).
Proof.
  intros Hu Hlen Hopen Hin Hg. destruct (known_stored bytes r Hu Hlen Hopen i Hin) as [d Hd]; [exists (n, b); by apply geometry_layout|].
  destruct (decode_view bytes r Hu Hlen Hopen i d n b Hin Hd Hg) as [Hw Hl]. destruct (dims_rows bytes r Hu Hlen Hopen i Hin) as (c & outer & Ed & Hc & _ & Hpos).
  pose proof (λ row, decode_row bytes r Hu Hlen Hopen i d n b row Hin Hd Hg) as Hrow. rewrite Ed in *. cbn [head tail foldr default] in *. unfold id in *.
  set (k := Z.to_nat (foldr Z.mul 1 outer)). set (vs := decoded (data_type i) d) in *.
  assert (length vs = (k * Z.to_nat c)%nat) as Hvs by (unfold k; lia).
  exists (mkView i d), ((λ j, take (Z.to_nat c) (drop (j * Z.to_nat c) vs)) <$> seq 0 k). rewrite length_fmap, length_seq. split_and!.
  - by apply (view_ok bytes).
  - rewrite <-list_fmap_compose. apply list_fmap_ext. intros j x [-> Hj]%lookup_seq. cbn [compose]. rewrite Hrow by (unfold k in Hj; lia).
    do 3 f_equal. lia.
  - apply Forall_fmap, Forall_forall. intros j [_ Hj]%elem_of_seq. cbn. f_equal. rewrite length_take, length_drop. nia.
  - unfold k. lia.
  - by rewrite slices.
  - intros row Hr. eapply row_outside; [done..|]. rewrite Ed. cbn [tail]. unfold k in Hr. lia.
Qed.

(** ** A small file *)

(** An alignment of eight, and a tensor of two rows of two [f32]. *)
Definition sample_info : GgufTensorInfo := mkGgufInfo "w" 2 [2; 2] DataType.F32 0.
Definition sample_entries : list (string * GgufMetadataValue) := [("general.alignment", GU32 8)].
Definition sample_header : GgufHeader := mkGgufHeader GGUF_MAGIC 3 1 1.
Definition sample_gguf : list Z :=
  gguf_header_bytes sample_header ++ entries_bytes sample_entries ++ infos_bytes [sample_info] ++
  replicate 6 0 ++ concat (le_bytes 4 <$> [0x3F800000; 0x40000000; 0x40400000; 0x40800000]).
Definition sample_gguf_reader : GgufReader := mkGgufReader sample_gguf sample_header {[ "general.alignment" := GU32 8 ]} [sample_info] 104.

Lemma sample_u8 : Forall u8 sample_gguf.
Proof. apply (bool_decide_unpack _). vm_compute. exact I. Qed.

Lemma sample_gguf_opens : Gguf.open sample_gguf = Ok sample_gguf_reader.
Proof. vm_compute. reflexivity. Qed.

Lemma gguf_format_witness : ∃ r es, Gguf.open sample_gguf = Ok r ∧ gguf_laid_out sample_gguf es r.
Proof.
  exists sample_gguf_reader. destruct (proj1 (proj2 (gguf_format sample_gguf sample_u8 eq_refl) sample_gguf_reader) sample_gguf_opens) as [es Hes].
  exists es. split; [exact sample_gguf_opens|exact Hes].
Defined.

Lemma tensor_decodes_witness : ∃ vs, View.read_tensor_f32 sample_gguf_reader "w" = Ok vs ∧ Z.of_nat (length vs) = 4.
Proof.
  destruct (proj1 (proj2 (tensor_decodes sample_gguf sample_gguf_reader sample_info sample_u8 eq_refl sample_gguf_opens ltac:(left))) (1, 4) eq_refl)
    as (d & _ & _ & blocks & vs & _ & _ & _ & Hl & Hr). exists vs. split; [exact Hr|exact Hl].
Defined.

Lemma rows_decode_witness : ∃ view a b, View.decode_row_f32 view 0 = Ok a ∧ View.decode_row_f32 view 1 = Ok b ∧ View.decode_f32 view = Ok (a ++ b).
Proof.
  destruct (rows_decode sample_gguf sample_gguf_reader sample_info 1 4 sample_u8 eq_refl sample_gguf_opens ltac:(left) eq_refl)
    as (view & rows & _ & Hrows & _ & Hn & Hall & _). destruct rows as [|a [|b [|c rows]]]; try (exfalso; cbn in Hn; lia).
  injection Hrows as Ha Hb. exists view, a, b. split_and!; [exact Ha|exact Hb|]. cbn [concat] in Hall. rewrite app_nil_r in Hall. exact Hall.
Defined.
