(* ===== verification/WeightLimits.v ===== *)
(** * limits.rs, types.rs, error.rs of model-weights: budgets of the weight container

    The errors of the container, its catalog records, and the inclusive limits under which
    it is read, written and converted. *)
From S2P Require Import Prelude Encoding Exact Certified Stream GgufCodecs.

(** ** Errors *)

Inductive IoOperation : Set := Open | IoRead | Seek | CreateTemporary | IoWrite | Flush | Publish | Cleanup.
Inductive UnsupportedKind : Set := Version | Endian | Basis | Flags | SourceDtypeKind | GgufVersion.
Inductive FormatKind : Set :=
  | Magic | HeaderLength | Reserved | FileLength | SectionLayout | TensorShape | DuplicateTensor
  | BlockCoverage | BlockHeader | ArithmeticOverflow.
Inductive IntegrityScope : Set := HeaderScope | CatalogScope | BlockScope (id : Z).
Inductive Resource : Set :=
  | MaxFileBytes | MaxMetadataBytes | MaxMetadataEntries | MaxMetadataArrayElements | MaxNameBytes
  | MaxStringBytes | MaxTensors | MaxBlocks | MaxIndexBytes | MaxBlockTerms | MaxBlockBytes | MaxWeightBits
  | MaxWeightDepth | MaxTotalTerms | MaxSynthesisStepsPerWeight | MaxSynthesisStepsTotal | MaxOutputBytes
  | MaxResidentBytes | MaxCacheBytes.
Inductive IndexKind : Set := TensorIndex | BlockIndex.
Inductive WriterOperation : Set := BeginTensor | WriteBlock | EndTensor | Finish.
Inductive WriterState : Set := Ready | TensorOpen | Aborted.
Inductive MetadataReason : Set :=
  | InvalidJson | DuplicateKey | UnknownField | MissingField | InvalidType | InvalidValue | InvalidUtf8
  | UnsupportedProfile | NestedArray.

(** SHA-256 bytes. *)
Definition Digest : Set := list Z.

Record WeightLocation : Set := mkLocation { location_tensor : Z; location_name : string; flat_index : Z }.

(** Paths and the errors of the platform are left out; the tensor and the block of [Format]
    are always absent in this crate. *)
Inductive Error : Set :=
  | Io (operation : IoOperation)
  | Unsupported (kind : UnsupportedKind) (value : Z)
  | Format (kind : FormatKind) (offset : option Z)
  | Integrity (scope : IntegrityScope) (expected actual : Digest)
  | Limit (resource : Resource) (limit : Z) (required : option Z) (location : option WeightLocation)
  | Index (kind : IndexKind) (index count : Z)
  | State (operation : WriterOperation) (state : WriterState)
  | DestinationExists
  | SourceDestinationConflict
  | Metadata (key : option string) (reason : MetadataReason)
  | NonFiniteWeight (location : WeightLocation) (decoded_f32_bits : Z)
  | Synthesis (location : WeightLocation) (source : ExactError)
  | Stream (block : Z) (source : StreamError)
  | Gguf (tensor : option string) (source : GgufError).

#[export] Instance WriterState_eq_dec : EqDecision WriterState.
Proof. solve_decision. Defined.

(** ** Records *)

Inductive SourceDtype : Set := F32 | F16 | Q4_0 | Q8_0 | Q6K.

#[export] Instance SourceDtype_eq_dec : EqDecision SourceDtype.
Proof. solve_decision. Defined.

Module Types.
(** [u32::from] and [try_from]. *)
Definition from (value : SourceDtype) : Z :=
  match value with F32 => 0 | F16 => 1 | Q4_0 => 2 | Q8_0 => 8 | Q6K => 14 end.
Definition try_from (value : Z) : Result Error SourceDtype :=
  if value =? 0 then Ok F32 else if value =? 1 then Ok F16 else if value =? 2 then Ok Q4_0 else
  if value =? 8 then Ok Q8_0 else if value =? 14 then Ok Q6K else Err (Unsupported SourceDtypeKind value).
End Types.

Record TensorInfo : Set := mkTensor {
  tensor_id : Z; name : string; ggml_dimensions : list Z; source_dtype : SourceDtype;
  element_count : Z; first_block : Z; block_count : Z;
}.
Record BlockInfo : Set := mkBlock {
  block_id : Z; block_tensor : Z; first_element : Z; term_count : Z; data_offset : Z;
  data_bytes : Z; useful_bits : Z; digest : Digest;
}.
Record DecodedBlock : Set := mkDecoded { decoded_id : Z; decoded_tensor : Z; decoded_first : Z; terms : list Bml }.
Record FileSummary : Set := mkSummary {
  version : Z; basis : Z; file_bytes : Z; metadata_bytes : Z; tensors_bytes : Z; blocks_bytes : Z;
  payload_bytes : Z; summary_tensors : Z; summary_blocks : Z; source_sha256 : Digest; catalog_sha256 : Digest;
}.
Record VerificationReport : Set := mkVerification {
  blocks_checked : Z; terms_checked : Z; bytes_checked : Z; all_payload_blocks_checked : bool;
}.

Definition HEADER_BYTES : Z := 256.
Definition BLOCK_RECORD_BYTES : Z := 80.
(** [b"BMLGGUF\0"]. *)
Definition MAGIC : list Z := [66; 77; 76; 71; 71; 85; 70; 0].

(** ** Limits *)

Record ReadLimits : Set := mkReadLimits {
  max_file_bytes : Z; max_metadata_bytes : Z; max_metadata_entries : Z; max_metadata_array_elements : Z;
  max_name_bytes : Z; max_string_bytes : Z; max_tensors : Z; max_blocks : Z; max_index_bytes : Z;
  max_block_terms : Z; max_block_bytes : Z; max_weight_bits : Z; max_weight_depth : Z; max_total_terms : Z;
}.

Definition ReadLimits_default : ReadLimits :=
  mkReadLimits (64 * 2 ^ 30) (64 * 2 ^ 20) 65536 4194304 4096 (2 ^ 20) 65536 1048576 (128 * 2 ^ 20)
    65536 (8 * 2 ^ 20) 1048576 4096 4294967296.

Record ConversionLimits : Set := mkConversionLimits {
  conversion_weight_bits : Z; conversion_weight_depth : Z; max_synthesis_steps_per_weight : Z;
  max_synthesis_steps_total : Z; conversion_block_terms : Z; conversion_block_bytes : Z;
  max_output_bytes : Z; max_resident_bytes : Z; max_cache_bytes : Z;
}.

Definition ConversionLimits_default : ConversionLimits :=
  mkConversionLimits 1048576 4096 4096 1000000 65536 (8 * 2 ^ 20) (64 * 2 ^ 30) (256 * 2 ^ 20) 0.

#[export] Instance ConversionLimits_eq_dec : EqDecision ConversionLimits.
Proof. solve_decision. Defined.

Record WriteOptions : Set := mkWriteOptions { limits : ReadLimits; conversion : ConversionLimits }.
Record ConversionOptions : Set := mkConversionOptions { write : WriteOptions; synthesis : ExactSynthesisOptions }.

Module Limits.
Definition check_limit (resource : Resource) (limit : Z) (required : option Z) : Result Error unit :=
  match required with
  | Some n => if n <=? limit then Ok tt else Err (Limit resource limit required None)
  | None => Err (Limit resource limit required None)
  end.

(** [for (resource, limit) in ... { check_limit(resource, limit, Some(required))?; }]. *)
Definition check_each (required : Z) (l : list (Resource * Z)) : Result Error unit :=
  for_each (λ p _, check_limit p.1 p.2 (Some required)) l tt.

Definition validate (self : ReadLimits) : Result Error unit :=
  _ ← check_limit MaxFileBytes (max_file_bytes self) (Some HEADER_BYTES);
  _ ← check_limit MaxBlockBytes (max_block_bytes self) (Some 25);
  _ ← check_each 1
    [(MaxMetadataBytes, max_metadata_bytes self); (MaxMetadataEntries, max_metadata_entries self);
     (MaxMetadataArrayElements, max_metadata_array_elements self); (MaxNameBytes, max_name_bytes self);
     (MaxStringBytes, max_string_bytes self); (MaxTensors, max_tensors self); (MaxBlocks, max_blocks self);
     (MaxIndexBytes, max_index_bytes self); (MaxBlockTerms, max_block_terms self);
     (MaxWeightBits, max_weight_bits self); (MaxWeightDepth, max_weight_depth self);
     (MaxTotalTerms, max_total_terms self)];
  for_each (λ bytes _, check_limit MaxFileBytes (max_file_bytes self) (Some bytes))
    [max_metadata_bytes self; max_index_bytes self; max_block_bytes self] tt.

Definition validate_conversion (self : ConversionLimits) : Result Error unit :=
  _ ← check_each 1
    [(MaxWeightBits, conversion_weight_bits self); (MaxWeightDepth, conversion_weight_depth self);
     (MaxSynthesisStepsPerWeight, max_synthesis_steps_per_weight self);
     (MaxSynthesisStepsTotal, max_synthesis_steps_total self); (MaxBlockTerms, conversion_block_terms self);
     (MaxResidentBytes, max_resident_bytes self)];
  _ ← check_limit MaxBlockBytes (conversion_block_bytes self) (Some 25);
  _ ← check_limit MaxOutputBytes (max_output_bytes self) (Some HEADER_BYTES);
  _ ← check_limit MaxOutputBytes (max_output_bytes self) (Some (conversion_block_bytes self));
  check_limit MaxResidentBytes (max_resident_bytes self) (Some (max_cache_bytes self)).

Definition validate_write (self : WriteOptions) : Result Error unit :=
  _ ← validate (limits self); validate_conversion (conversion self).

Definition validate_options (self : ConversionOptions) : Result Error unit :=
  _ ← validate_write (write self);
  _ ← check_limit MaxWeightBits (Certified.max_bits (synthesis self)) (Some 1);
  check_limit MaxSynthesisStepsPerWeight (max_steps (synthesis self)) (Some 1).

Definition effective_synthesis (self : ConversionOptions) : Result Error ExactSynthesisOptions :=
  _ ← validate_options self;
  let options := synthesis self in
  let bits := Z.min (Z.min (Certified.max_bits options) (max_weight_bits (limits (write self))))
    (conversion_weight_bits (conversion (write self))) in
  let steps := Z.min (max_steps options) (max_synthesis_steps_per_weight (conversion (write self))) in
  Ok (mkExactSynthesisOptions (rational options) bits steps (max_total_bits options) (max_recursion options)).
End Limits.

Import Limits.

Lemma bind_unit {E A} (m : Result E unit) (k : unit → Result E A) r : (m ≫= k) = Ok r ↔ m = Ok tt ∧ k tt = Ok r.
Proof. rewrite bind_ok. split; [intros ([] & ? & ?); done|intros [? ?]; by exists tt]. Qed.

Lemma limit_ok resource limit n u : check_limit resource limit (Some n) = Ok u ↔ n ≤ limit.
Proof. destruct u. unfold check_limit. by destruct (Z.leb_spec n limit); split; intros; try done; lia. Qed.

Lemma check_limit_none resource limit required u : check_limit resource limit required = Ok u →
  ∃ n, required = Some n ∧ n ≤ limit.
Proof. destruct required as [n|]; [|done]. intros Hn%limit_ok. by exists n. Qed.

Lemma check_each_ok required l u : check_each required l = Ok u ↔ Forall (λ p, required ≤ p.2) l.
Proof.
  destruct u. unfold check_each. induction l as [|p l IH]; cbn [for_each]; [by split|].
  by rewrite bind_unit, limit_ok, IH, Forall_cons.
Qed.

(** Accepted limits. *)
Record read_limits_ok (l : ReadLimits) : Prop := {
  file_limit : HEADER_BYTES ≤ max_file_bytes l;
  block_limit : 25 ≤ max_block_bytes l ≤ max_file_bytes l;
  metadata_limit : 1 ≤ max_metadata_bytes l ≤ max_file_bytes l;
  index_limit : 1 ≤ max_index_bytes l ≤ max_file_bytes l;
  count_limits : 1 ≤ max_metadata_entries l ∧ 1 ≤ max_metadata_array_elements l ∧ 1 ≤ max_name_bytes l ∧
    1 ≤ max_string_bytes l ∧ 1 ≤ max_tensors l ∧ 1 ≤ max_blocks l ∧ 1 ≤ max_block_terms l ∧
    1 ≤ max_weight_bits l ∧ 1 ≤ max_weight_depth l ∧ 1 ≤ max_total_terms l;
}.

Lemma validate_ok l u : validate l = Ok u ↔ read_limits_ok l.
Proof.
  destruct u. unfold validate. cbn [for_each]. rewrite !bind_unit, check_each_ok, !limit_ok, !Forall_cons. cbn [fst snd].
  split; [intros; destruct_and!; split; lia|]. intros [? ? ? ? ?]. destruct_and!; repeat split; try done; lia.
Qed.

Record conversion_limits_ok (l : ConversionLimits) : Prop := {
  synthesis_limits : 1 ≤ conversion_weight_bits l ∧ 1 ≤ conversion_weight_depth l ∧
    1 ≤ max_synthesis_steps_per_weight l ∧ 1 ≤ max_synthesis_steps_total l ∧ 1 ≤ conversion_block_terms l;
  conversion_block_limit : 25 ≤ conversion_block_bytes l ≤ max_output_bytes l;
  output_limit : HEADER_BYTES ≤ max_output_bytes l;
  resident_limit : 1 ≤ max_resident_bytes l ∧ max_cache_bytes l ≤ max_resident_bytes l;
}.

Lemma validate_conversion_ok l u : validate_conversion l = Ok u ↔ conversion_limits_ok l.
Proof.
  destruct u. unfold validate_conversion. rewrite !bind_unit, check_each_ok, !limit_ok, !Forall_cons. cbn [fst snd].
  split; [intros; destruct_and!; split; lia|]. intros [? ? ? ?]. destruct_and!; repeat split; try done; lia.
Qed.

Lemma validate_write_ok o u : validate_write o = Ok u ↔ read_limits_ok (limits o) ∧ conversion_limits_ok (conversion o).
Proof. destruct u. unfold validate_write. by rewrite bind_unit, validate_ok, validate_conversion_ok. Qed.

Lemma effective_synthesis_ok o s : effective_synthesis o = Ok s →
  Certified.max_bits s ≤ max_weight_bits (limits (write o)) ∧ Certified.max_bits s ≤ conversion_weight_bits (conversion (write o)) ∧
  1 ≤ Certified.max_bits s ≤ Certified.max_bits (synthesis o) ∧ 1 ≤ max_steps s ≤ max_steps (synthesis o) ∧
  rational s = rational (synthesis o) ∧ max_total_bits s = max_total_bits (synthesis o) ∧
  max_recursion s = max_recursion (synthesis o).
Proof.
  unfold effective_synthesis, validate_options. rewrite !bind_unit. intros [[Hw [Hb Hs]] Ho].
  apply validate_write_ok in Hw as [Hr Hc]. apply limit_ok in Hb, Hs. destruct Hr as [_ _ _ _ Hr], Hc as [Hc _ _ _].
  injection Ho as <-. cbn [Certified.max_bits max_steps rational max_total_bits max_recursion]. repeat split; lia.
Qed.

Lemma try_from_from d : Types.try_from (Types.from d) = Ok d.
Proof. by destruct d. Qed.

Lemma try_from_ok n d : Types.try_from n = Ok d → n = Types.from d.
Proof.
  unfold Types.try_from.
  repeat match goal with |- (if n =? ?k then _ else _) = _ → _ => destruct (Z.eqb_spec n k) as [->|]; [by intros [= <-]|] end. done.
Qed.
