(* ===== verification/WeightMetadata.v ===== *)
(** * metadata.rs, metadata_encode.rs of model-weights: typed metadata

    Metadata travels as JSON with numbers as canonical strings and floats as bits. The text
    itself is the business of a library, the class [JsonText]: its parser is a tree that can
    be cut short where the text is wrong, because the limits are enforced while it is read. *)
From Stdlib Require Import Decimal DecimalString DecimalZ.
From S2P Require Import Prelude Encoding Exact Certified Text Bytes Stream WeightLimits.
#[local] Set Warnings "-register-all".
#[local] Open Scope string_scope.
#[local] Open Scope Z_scope.

(** What the parser of the library reads: broken where the text is wrong, and a list that is
    not closed where the text breaks before the next element. Numbers are those that it
    hands over as [u64], as [i64] and as [f64]. *)
Inductive Json : Set :=
  | JNull | JBool (b : bool) | JU64 (n : Z) | JI64 (n : Z) | JF64 | JString (s : string)
  | JArray (l : list Json) (closed : bool)
  | JObject (l : list (string * Json)) (closed : bool)
  | JBroken.

(** The library: the pieces that printing writes; a parsed text and whether nothing follows
    it. *)
Class JsonText : Type := {
  json_chunks : Json → list (list Z);
  json_parse : list Z → Json * bool;
}.

(** A decoded [serde_json::Value]. *)
Inductive Value : Set :=
  | VBool (b : bool) | VNumber (n : Z) | VString (s : string)
  | VArray (l : list Value) | VObject (l : list (string * Value)).

(** ** Metadata *)

Record ToolIdentity : Set := mkTool { tool_name : string; tool_version : string; tool_revision : string }.

Inductive MetadataArray : Set :=
  | AU8 (l : list Z) | AI8 (l : list Z) | AU16 (l : list Z) | AI16 (l : list Z) | AU32 (l : list Z) | AI32 (l : list Z)
  | AU64 (l : list Z) | AI64 (l : list Z) | ABool (l : list bool) | AString (l : list string)
  | AF32Bits (l : list Z) | AF64Bits (l : list Z).

Inductive MetadataValue : Set :=
  | MU8 (n : Z) | MI8 (n : Z) | MU16 (n : Z) | MI16 (n : Z) | MU32 (n : Z) | MI32 (n : Z)
  | MU64 (n : Z) | MI64 (n : Z) | MBool (b : bool) | MString (s : string)
  | MF32Bits (n : Z) | MF64Bits (n : Z) | MArray (a : MetadataArray).

Record GgufMetadataEntry : Set := mkEntry { entry_key : string; entry_value : MetadataValue }.

Record ModelMetadata : Set := mkMetadata {
  schema : Z; profile : string; source_gguf_version : Z; converter : ToolIdentity; codec : ToolIdentity;
  metadata_limits : ConversionLimits; gguf : list GgufMetadataEntry;
}.

(** ** Decoding *)

Module Decode.
Definition bad {A} (reason : MetadataReason) : Result Error A := Err (Metadata None reason).

Section visit.
Context (limits : ReadLimits).

(** The budget of one more element, before it is parsed; [index] counts the entries of the
    list of metadata and is absent elsewhere. *)
Definition element (index : option Z) (elements : Z) : Result Error Z :=
  match index with
  | Some index => _ ← Limits.check_limit MaxMetadataEntries (max_metadata_entries limits) (checked_add index 1); Ok elements
  | None =>
      _ ← Limits.check_limit MaxMetadataArrayElements (max_metadata_array_elements limits) (checked_add elements 1);
      Ok (elements + 1)
  end.

(** [visit_seq] and [visit_map], over the visitor of the parts. *)
Section parts.
Context (visit_element : Json → Z → Result Error (Value * Z)) (entries closed : bool).

Fixpoint visit_seq (l : list Json) (index elements : Z) : Result Error (list Value * Z) :=
  match l with
  | [] => if closed then Ok ([], elements) else bad InvalidJson
  | x :: l =>
      elements ← element (if entries then Some index else None) elements;
      '(value, elements) ← visit_element x elements;
      '(values, elements) ← visit_seq l (index + 1) elements;
      Ok (value :: values, elements)
  end.
End parts.

Section fields.
Context (visit_field : string → Json → Z → Result Error (Value * Z)) (closed : bool).

Fixpoint visit_map (l : list (string * Json)) (keys : list string) (elements : Z) : Result Error (list (string * Value) * Z) :=
  match l with
  | [] => if closed then Ok ([], elements) else bad InvalidJson
  | (key, x) :: l =>
      _ ← Limits.check_limit MaxNameBytes (max_name_bytes limits) (Some (len key));
      if bool_decide (key ∈ keys) then bad DuplicateKey else
      '(value, elements) ← visit_field key x elements;
      '(values, elements) ← visit_map l (key :: keys) elements;
      Ok ((key, value) :: values, elements)
  end.
End fields.

(** The visitor at a depth; [elements] counts array elements over the whole text. *)
Fixpoint visit (depth : Z) (entries : bool) (v : Json) (elements : Z) {struct v} : Result Error (Value * Z) :=
  match v with
  | JBool b => Ok (VBool b, elements)
  | JU64 n => Ok (VNumber n, elements)
  | JI64 _ | JF64 => bad InvalidType
  | JString s =>
      _ ← Limits.check_limit MaxStringBytes (max_string_bytes limits) (Some (len s));
      Ok (VString s, elements)
  | JArray l closed =>
      if 8 <? depth then bad InvalidValue else
      '(values, elements) ← visit_seq (λ x, visit (depth + 1) false x) entries closed l 0 elements;
      Ok (VArray values, elements)
  | JObject l closed =>
      if 8 <? depth then bad InvalidValue else
      '(values, elements) ←
        visit_map (λ key x, visit (depth + 1) ((depth =? 1) && bool_decide (key = "gguf")) x) closed l [] elements;
      Ok (VObject values, elements)
  | JNull | JBroken => bad InvalidJson
  end.
End visit.

Definition object (value : Value) : Result Error (list (string * Value)) :=
  match value with VObject v => Ok v | _ => bad InvalidType end.
Definition string (value : Value) : Result Error string :=
  match value with VString s => Ok s | _ => bad InvalidType end.
Definition number (value : Value) : Result Error Z :=
  match value with VNumber n => Ok n | _ => bad InvalidType end.
Definition array (value : Value) : Result Error (list Value) :=
  match value with VArray v => Ok v | _ => bad InvalidType end.
Definition boolean (value : Value) : Result Error bool :=
  match value with VBool b => Ok b | _ => bad InvalidType end.

(** [Map::remove]: the keys differ. *)
Fixpoint take (m : list (String.string * Value)) (key : String.string) : Result Error (Value * list (String.string * Value)) :=
  match m with
  | [] => Err (Metadata (Some key) MissingField)
  | (k, v) :: m =>
      if bool_decide (k = key) then Ok (v, m)
      else '(value, m) ← take m key; Ok (value, (k, v) :: m)
  end.
Definition done (m : list (String.string * Value)) : Result Error unit :=
  match m with [] => Ok tt | _ => bad UnknownField end.

Definition integer (t : Integer.IntType) (value : Value) : Result Error Z :=
  text ← string value;
  match Integer.parse t text with
  | None => bad InvalidValue
  | Some n => if bool_decide (Integer.to_string n = text) then Ok n else bad InvalidValue
  end.

Definition hex (digits : nat) (value : Value) : Result Error Z :=
  text ← string value;
  if negb (bool_decide (String.length text = digits)) then bad InvalidValue else
  match Hex.from_str_radix text 0 with Some n => Ok n | None => bad InvalidValue end.

Definition scalar (kind : Z) (value : Value) : Result Error MetadataValue :=
  if kind =? 0 then MU8 <$> integer Integer.U8 value else
  if kind =? 1 then MI8 <$> integer Integer.I8 value else
  if kind =? 2 then MU16 <$> integer Integer.U16 value else
  if kind =? 3 then MI16 <$> integer Integer.I16 value else
  if kind =? 4 then MU32 <$> integer Integer.U32 value else
  if kind =? 5 then MI32 <$> integer Integer.I32 value else
  if kind =? 6 then MF32Bits <$> hex 8 value else
  if kind =? 7 then MBool <$> boolean value else
  if kind =? 8 then MString <$> string value else
  if kind =? 10 then MU64 <$> integer Integer.U64 value else
  if kind =? 11 then MI64 <$> integer Integer.I64 value else
  if kind =? 12 then MF64Bits <$> hex 16 value else
  bad InvalidType.

(** The macro [vector!]: scalars of one variant. *)
Fixpoint vector {A} (variant : MetadataValue → option A) (kind : Z) (values : list Value) : Result Error (list A) :=
  match values with
  | [] => Ok []
  | value :: values =>
      s ← scalar kind value;
      match variant s with
      | Some a => l ← vector variant kind values; Ok (a :: l)
      | None => bad InvalidType
      end
  end.

Definition typed_array (kind : Z) (values : list Value) : Result Error MetadataArray :=
  if kind =? 0 then AU8 <$> vector (λ v, match v with MU8 n => Some n | _ => None end) kind values else
  if kind =? 1 then AI8 <$> vector (λ v, match v with MI8 n => Some n | _ => None end) kind values else
  if kind =? 2 then AU16 <$> vector (λ v, match v with MU16 n => Some n | _ => None end) kind values else
  if kind =? 3 then AI16 <$> vector (λ v, match v with MI16 n => Some n | _ => None end) kind values else
  if kind =? 4 then AU32 <$> vector (λ v, match v with MU32 n => Some n | _ => None end) kind values else
  if kind =? 5 then AI32 <$> vector (λ v, match v with MI32 n => Some n | _ => None end) kind values else
  if kind =? 6 then AF32Bits <$> vector (λ v, match v with MF32Bits n => Some n | _ => None end) kind values else
  if kind =? 7 then ABool <$> vector (λ v, match v with MBool b => Some b | _ => None end) kind values else
  if kind =? 8 then AString <$> vector (λ v, match v with MString s => Some s | _ => None end) kind values else
  if kind =? 10 then AU64 <$> vector (λ v, match v with MU64 n => Some n | _ => None end) kind values else
  if kind =? 11 then AI64 <$> vector (λ v, match v with MI64 n => Some n | _ => None end) kind values else
  if kind =? 12 then AF64Bits <$> vector (λ v, match v with MF64Bits n => Some n | _ => None end) kind values else
  if kind =? 9 then bad NestedArray else bad InvalidType.

Definition typed (kind : Z) (value : Value) : Result Error MetadataValue :=
  if negb (kind =? 9) then scalar kind value else
  obj ← object value;
  '(kind, obj) ← take obj "element_type"; kind ← number kind;
  '(values, obj) ← take obj "values"; values ← array values;
  _ ← done obj;
  MArray <$> typed_array kind values.

Definition tool (value : Value) : Result Error ToolIdentity :=
  m ← object value;
  '(name, m) ← take m "name"; name ← string name;
  '(version, m) ← take m "version"; version ← string version;
  '(revision, m) ← take m "revision"; revision ← string revision;
  _ ← done m;
  if bool_decide (name = "") || bool_decide (version = "") || bool_decide (revision = "")
  then bad InvalidValue else Ok (mkTool name version revision).

Definition take_integer (m : list (String.string * Value)) (key : String.string) : Result Error (Z * list (String.string * Value)) :=
  '(value, m) ← take m key; n ← integer Integer.U64 value; Ok (n, m).

Definition conversion_limits (value : Value) : Result Error ConversionLimits :=
  m ← object value;
  '(a, m) ← take_integer m "max_weight_bits";
  '(b, m) ← take_integer m "max_weight_depth";
  '(c, m) ← take_integer m "max_synthesis_steps_per_weight";
  '(d, m) ← take_integer m "max_synthesis_steps_total";
  '(e, m) ← take_integer m "max_block_terms";
  '(f, m) ← take_integer m "max_block_bytes";
  '(g, m) ← take_integer m "max_output_bytes";
  '(h, m) ← take_integer m "max_resident_bytes";
  '(i, m) ← take_integer m "max_cache_bytes";
  _ ← done m;
  let out := mkConversionLimits a b c d e f g h i in
  _ ← Limits.validate_conversion out;
  Ok out.

(** The loop over the entries; [last] is the key before. *)
Definition string_lt (a b : String.string) : bool :=
  match String.compare a b with Lt => true | _ => false end.

Definition contains_nul (s : String.string) : bool := bool_decide (0 ∈ bytes_of s).

Fixpoint entries (limits : ReadLimits) (last : option String.string) (l : list Value) : Result Error (list GgufMetadataEntry) :=
  match l with
  | [] => Ok []
  | entry :: l =>
      entry ← object entry;
      '(key, entry) ← take entry "key"; key ← string key;
      _ ← Limits.check_limit MaxNameBytes (max_name_bytes limits) (Some (len key));
      if bool_decide (key = "") || contains_nul key then bad InvalidValue else
      if match last with Some p => negb (string_lt p key) | None => false end then bad DuplicateKey else
      '(kind, entry) ← take entry "type"; kind ← number kind;
      '(value, entry) ← take entry "value"; value ← typed kind value;
      _ ← done entry;
      l ← entries limits (Some key) l;
      Ok (mkEntry key value :: l)
  end.

Definition from_value (limits : ReadLimits) (value : Value) : Result Error ModelMetadata :=
  m ← object value;
  '(schema, m) ← take m "schema"; schema ← number schema;
  '(profile, m) ← take m "profile"; profile ← string profile;
  '(version, m) ← take m "source_gguf_version"; version ← number version;
  if negb (schema =? 1) || negb (bool_decide (profile = "bml-exact-decoded-f32-v1")) then bad UnsupportedProfile else
  if negb ((version =? 2) || (version =? 3)) then Err (Unsupported GgufVersion version) else
  '(converter, m) ← take m "converter"; converter ← tool converter;
  '(codec, m) ← take m "codec"; codec ← tool codec;
  '(conversion, m) ← take m "limits"; conversion ← conversion_limits conversion;
  '(gguf, m) ← take m "gguf"; gguf ← array gguf;
  gguf ← entries limits None gguf;
  _ ← done m;
  Ok (mkMetadata 1 profile version converter codec conversion gguf).

Definition decode `{JsonText} (bytes : list Z) (limits : ReadLimits) : Result Error ModelMetadata :=
  if negb (Utf8.from_utf8 bytes) then bad InvalidUtf8 else
  let '(text, ended) := json_parse bytes in
  '(value, _) ← visit limits 1 false text 0;
  if negb ended then bad InvalidJson else
  from_value limits value.
End Decode.

(** ** Encoding *)

Module Encode.
(** A map whose fields are written in order. *)
Definition fields (l : list (string * Json)) : Json := JObject l true.
Definition sequence {A} (convert : A → Json) (l : list A) : Json := JArray (convert <$> l) true.
Definition decimal (n : Z) : Json := JString (Integer.to_string n).

Definition tool (self : ToolIdentity) : Json :=
  fields [("name", JString (tool_name self)); ("version", JString (tool_version self)); ("revision", JString (tool_revision self))].

Definition limits (self : ConversionLimits) : Json :=
  fields [("max_weight_bits", decimal (conversion_weight_bits self)); ("max_weight_depth", decimal (conversion_weight_depth self));
    ("max_synthesis_steps_per_weight", decimal (max_synthesis_steps_per_weight self));
    ("max_synthesis_steps_total", decimal (max_synthesis_steps_total self));
    ("max_block_terms", decimal (conversion_block_terms self)); ("max_block_bytes", decimal (conversion_block_bytes self));
    ("max_output_bytes", decimal (max_output_bytes self)); ("max_resident_bytes", decimal (max_resident_bytes self));
    ("max_cache_bytes", decimal (max_cache_bytes self))].

Definition code (value : MetadataValue) : Z :=
  match value with
  | MU8 _ => 0 | MI8 _ => 1 | MU16 _ => 2 | MI16 _ => 3 | MU32 _ => 4 | MI32 _ => 5 | MF32Bits _ => 6 | MBool _ => 7
  | MString _ => 8 | MArray _ => 9 | MU64 _ => 10 | MI64 _ => 11 | MF64Bits _ => 12
  end.

Definition array_code (a : MetadataArray) : Z :=
  match a with
  | AU8 _ => 0 | AI8 _ => 1 | AU16 _ => 2 | AI16 _ => 3 | AU32 _ => 4 | AI32 _ => 5 | AF32Bits _ => 6 | ABool _ => 7
  | AString _ => 8 | AU64 _ => 10 | AI64 _ => 11 | AF64Bits _ => 12
  end.

Definition array_values (a : MetadataArray) : Json :=
  match a with
  | AU8 l | AI8 l | AU16 l | AI16 l | AU32 l | AI32 l | AU64 l | AI64 l => sequence decimal l
  | AF32Bits l => sequence (λ x, JString (Hex.format 8 x)) l
  | AF64Bits l => sequence (λ x, JString (Hex.format 16 x)) l
  | ABool l => sequence JBool l
  | AString l => sequence JString l
  end.

Definition array (a : MetadataArray) : Json :=
  fields [("element_type", JU64 (array_code a)); ("values", array_values a)].

Definition value (v : MetadataValue) : Json :=
  match v with
  | MU8 n | MI8 n | MU16 n | MI16 n | MU32 n | MI32 n | MU64 n | MI64 n => decimal n
  | MF32Bits n => JString (Hex.format 8 n)
  | MF64Bits n => JString (Hex.format 16 n)
  | MBool b => JBool b
  | MString s => JString s
  | MArray a => array a
  end.

Definition entry (e : GgufMetadataEntry) : Json :=
  fields [("key", JString (entry_key e)); ("type", JU64 (code (entry_value e))); ("value", value (entry_value e))].

Definition wire (self : ModelMetadata) : Json :=
  fields [("schema", JU64 (schema self)); ("profile", JString (profile self));
    ("source_gguf_version", JU64 (source_gguf_version self)); ("converter", tool (converter self));
    ("codec", tool (codec self)); ("limits", limits (metadata_limits self)); ("gguf", sequence entry (gguf self))].

(** [Bounded::write] of one piece. *)
Definition bounded_write (cap : Z) (piece out : list Z) : Result Error (list Z) :=
  _ ← Limits.check_limit MaxMetadataBytes cap (checked_add (Z.of_nat (length out)) (Z.of_nat (length piece)));
  Ok (out ++ piece)%list.

Definition encode `{JsonText} (metadata : ModelMetadata) (limits : ReadLimits) (cap : Z) : Result Error (list Z) :=
  bytes ← for_each (bounded_write (Z.min cap (max_metadata_bytes limits))) (json_chunks (wire metadata)) [];
  _ ← Decode.decode bytes limits;
  Ok bytes.
End Encode.

(** ** Integers as text *)

Import Decode Encode.

Lemma integer_decimal t n : Integer.fits t n = true → integer t (VString (Integer.to_string n)) = Ok n.
Proof. intros Hf. unfold integer. cbn [string mbind Result_bind]. by rewrite parse_to_string, bool_decide_true by done. Qed.

(** ** Hexadecimal *)

Lemma hex_format digits n : 0 ≤ n < 16 ^ Z.of_nat digits → hex digits (VString (Hex.format digits n)) = Ok n.
Proof.
  intros Hn. unfold hex, Hex.format. cbn [string mbind Result_bind]. rewrite length_pad. cbn [String.length].
  rewrite bool_decide_true by lia. cbn [negb]. rewrite pad_radix by done. cbn [Hex.from_str_radix]. by rewrite Z.mul_0_r.
Qed.

(** ** What the visitor accepts *)

Section induction.
Context (P : Json → Prop) (Hnull : P JNull) (Hbool : ∀ b, P (JBool b)) (Hu : ∀ n, P (JU64 n)) (Hi : ∀ n, P (JI64 n)) (Hf : P JF64)
  (Hs : ∀ s, P (JString s)) (Ha : ∀ l c, Forall P l → P (JArray l c)) (Ho : ∀ l c, Forall (P ∘ snd) l → P (JObject l c)) (Hb : P JBroken).

Fixpoint Json_rect' (j : Json) : P j :=
  match j with
  | JNull => Hnull | JBool b => Hbool b | JU64 n => Hu n | JI64 n => Hi n | JF64 => Hf | JString s => Hs s
  | JArray l c =>
      Ha l c ((fix all (l : list Json) : Forall P l :=
        match l with [] => Forall_nil_2 P | x :: l => Forall_cons_2 P x l (Json_rect' x) (all l) end) l)
  | JObject l c =>
      Ho l c ((fix all (l : list (String.string * Json)) : Forall (P ∘ snd) l :=
        match l with [] => Forall_nil_2 _ | p :: l => Forall_cons_2 (P ∘ snd) p l (Json_rect' (snd p)) (all l) end) l)
  | JBroken => Hb
  end.
End induction.

(** The value of a text without errors. *)
Fixpoint value_of (j : Json) : Value :=
  match j with
  | JBool b => VBool b
  | JU64 n => VNumber n
  | JString s => VString s
  | JArray l _ => VArray (value_of <$> l)
  | JObject l _ => VObject ((λ p, (p.1, value_of p.2)) <$> l)
  | JNull | JI64 _ | JF64 | JBroken => VBool false
  end.

(** The sizes that the visitor checks. *)
Inductive bounded (limits : ReadLimits) : Value → Prop :=
  | bounded_bool b : bounded limits (VBool b)
  | bounded_number n : bounded limits (VNumber n)
  | bounded_string s : len s ≤ max_string_bytes limits → bounded limits (VString s)
  | bounded_array l : Forall (bounded limits) l → bounded limits (VArray l)
  | bounded_object l : Forall (λ p, len p.1 ≤ max_name_bytes limits ∧ bounded limits p.2) l → bounded limits (VObject l).

Definition visited (limits : ReadLimits) (j : Json) (v : Value) : Prop := v = value_of j ∧ bounded limits v.

Lemma visit_seq_ok limits f entries closed l index elements vs n :
  Forall (λ x, ∀ el v el', f x el = Ok (v, el') → visited limits x v) l →
  visit_seq limits f entries closed l index elements = Ok (vs, n) → vs = value_of <$> l ∧ Forall (bounded limits) vs.
Proof.
  intros Hl. revert index elements vs n. induction Hl as [|x l Hx _ IH]; intros index elements vs n Hv; cbn [visit_seq] in Hv.
  { by destruct closed; [injection Hv as <- <-|]. }
  apply bind_ok in Hv as (el & _ & Hv). apply bind_ok in Hv as ([v el1] & E1 & Hv). apply bind_ok in Hv as ([vs1 el2] & E2 & Hv).
  injection Hv as <- <-. apply Hx in E1 as [-> Hb]. apply IH in E2 as [-> Hbs]. split; [done|]. by apply Forall_cons.
Qed.

Lemma visit_map_ok limits f closed l keys elements vs n :
  Forall (λ p, ∀ k el v el', f k p.2 el = Ok (v, el') → visited limits p.2 v) l →
  visit_map limits f closed l keys elements = Ok (vs, n) → vs = (λ p, (p.1, value_of p.2)) <$> l ∧
    Forall (λ p, len p.1 ≤ max_name_bytes limits ∧ bounded limits p.2) vs.
Proof.
  intros Hl. revert keys elements vs n. induction Hl as [|[k x] l Hx _ IH]; intros keys elements vs n Hv; cbn [visit_map] in Hv.
  { by destruct closed; [injection Hv as <- <-|]. }
  apply bind_ok in Hv as (u & Hk%limit_ok & Hv). case_bool_decide; [done|].
  apply bind_ok in Hv as ([v el1] & E1 & Hv). apply bind_ok in Hv as ([vs1 el2] & E2 & Hv).
  injection Hv as <- <-. apply Hx in E1 as [-> Hb]. apply IH in E2 as [-> Hbs]. split; [done|]. by apply Forall_cons.
Qed.

Lemma visit_ok limits j : ∀ depth entries elements v n, visit limits depth entries j elements = Ok (v, n) → visited limits j v.
Proof.
  induction j as [|b|m|m| |s|l c IH|l c IH|] using Json_rect'; intros depth entries elements v n Hv; cbn [visit value_of] in *; try done;
    try (by injection Hv as <- <-; split; [|constructor]).
  - apply bind_ok in Hv as (u & Hs%limit_ok & Hv). injection Hv as <- <-. by split; [|constructor].
  - destruct (8 <? depth); [done|]. apply bind_ok in Hv as ([vs el] & E & Hv). injection Hv as <- <-.
    apply visit_seq_ok in E as [-> Hb]; [by split; [|constructor]|].
    eapply Forall_impl; [exact IH|]. intros x Hx el1 v1 el2 Hv1. by eapply Hx.
  - destruct (8 <? depth); [done|]. apply bind_ok in Hv as ([vs el] & E & Hv). injection Hv as <- <-.
    apply visit_map_ok in E as [-> Hb]; [by split; [|constructor]|].
    eapply Forall_impl; [exact IH|]. intros x Hx k el1 v1 el2 Hv1. by eapply Hx.
Qed.

(** ** Typed values *)

Definition array_ok (P : String.string → Prop) (a : MetadataArray) : Prop :=
  match a with
  | AU8 l => Forall (λ n, Integer.fits Integer.U8 n = true) l | AI8 l => Forall (λ n, Integer.fits Integer.I8 n = true) l
  | AU16 l => Forall (λ n, Integer.fits Integer.U16 n = true) l | AI16 l => Forall (λ n, Integer.fits Integer.I16 n = true) l
  | AU32 l => Forall (λ n, Integer.fits Integer.U32 n = true) l | AI32 l => Forall (λ n, Integer.fits Integer.I32 n = true) l
  | AU64 l => Forall (λ n, Integer.fits Integer.U64 n = true) l | AI64 l => Forall (λ n, Integer.fits Integer.I64 n = true) l
  | AF32Bits l => Forall (λ n, 0 ≤ n < 16 ^ Z.of_nat 8) l | AF64Bits l => Forall (λ n, 0 ≤ n < 16 ^ Z.of_nat 16) l
  | ABool _ => True
  | AString l => Forall P l
  end.

(** The values of the types of the code, with a condition on strings. *)
Definition value_ok (P : String.string → Prop) (v : MetadataValue) : Prop :=
  match v with
  | MU8 n => Integer.fits Integer.U8 n = true | MI8 n => Integer.fits Integer.I8 n = true
  | MU16 n => Integer.fits Integer.U16 n = true | MI16 n => Integer.fits Integer.I16 n = true
  | MU32 n => Integer.fits Integer.U32 n = true | MI32 n => Integer.fits Integer.I32 n = true
  | MU64 n => Integer.fits Integer.U64 n = true | MI64 n => Integer.fits Integer.I64 n = true
  | MF32Bits n => 0 ≤ n < 16 ^ Z.of_nat 8 | MF64Bits n => 0 ≤ n < 16 ^ Z.of_nat 16
  | MBool _ => True
  | MString s => P s
  | MArray a => array_ok P a
  end.

Lemma scalar_value Q v : value_ok Q v → (∀ a, v ≠ MArray a) → scalar (code v) (value_of (value v)) = Ok v.
Proof.
  intros Hv Hna. destruct v; cbn [value_ok code value value_of decimal] in *; unfold scalar; cbn [Z.eqb Pos.eqb];
    rewrite ?integer_decimal, ?hex_format by done; try done. by destruct (Hna a).
Qed.

Lemma vector_values {A} Q (variant : MetadataValue → option A) (build : A → MetadataValue) kind l (P : A → Prop) :
  (∀ a, P a → value_ok Q (build a) ∧ code (build a) = kind ∧ (∀ b, build a ≠ MArray b) ∧ variant (build a) = Some a) →
  Forall P l → vector variant kind (value_of ∘ value ∘ build <$> l) = Ok l.
Proof.
  intros Hb. induction 1 as [|a l Ha _ IH]; [done|]. cbn [fmap list_fmap vector compose].
  destruct (Hb a Ha) as (Hv & <- & Hna & Hvar). rewrite (scalar_value Q) by done. cbn [mbind Result_bind]. rewrite Hvar.
  change (list_fmap _ _ (value_of ∘ value ∘ build) l) with (value_of ∘ value ∘ build <$> l). by rewrite IH.
Qed.

Ltac vector_of Q build P := rewrite (vector_values Q _ build _ _ P); [done|by intros ? ?|done].

Lemma typed_array_values Q a : array_ok Q a →
  typed_array (array_code a) (match value_of (array_values a) with VArray l => l | _ => [] end) = Ok a.
Proof.
  intros Ha. destruct a as [l|l|l|l|l|l|l|l|l|l|l|l]; cbn [array_ok array_code array_values sequence value_of] in *; unfold typed_array; cbn [Z.eqb Pos.eqb];
    rewrite <-list_fmap_compose.
  - vector_of Q MU8 (λ n, Integer.fits Integer.U8 n = true).
  - vector_of Q MI8 (λ n, Integer.fits Integer.I8 n = true).
  - vector_of Q MU16 (λ n, Integer.fits Integer.U16 n = true).
  - vector_of Q MI16 (λ n, Integer.fits Integer.I16 n = true).
  - vector_of Q MU32 (λ n, Integer.fits Integer.U32 n = true).
  - vector_of Q MI32 (λ n, Integer.fits Integer.I32 n = true).
  - vector_of Q MU64 (λ n, Integer.fits Integer.U64 n = true).
  - vector_of Q MI64 (λ n, Integer.fits Integer.I64 n = true).
  - rewrite (vector_values Q _ MBool _ _ (λ _, True)); [done|by intros ? ?|by apply Forall_true].
  - vector_of Q MString Q.
  - vector_of Q MF32Bits (λ n, 0 ≤ n < 16 ^ Z.of_nat 8).
  - vector_of Q MF64Bits (λ n, 0 ≤ n < 16 ^ Z.of_nat 16).
Qed.

(** The fields are taken in the order in which they are written. *)
Lemma take_head k v m : take ((k, v) :: m) k = Ok (v, m).
Proof. cbn [take]. by rewrite bool_decide_true. Qed.

Lemma Ok_bind' {E A B} (f : A → Result E B) a : (Ok a ≫= f) = f a.
Proof. done. Qed.

Ltac taken := cbn [object value_of fmap list_fmap fields fst snd number string Decode.array boolean done]; rewrite ?Ok_bind', ?take_head, ?Ok_bind'.

Lemma typed_value Q v : value_ok Q v → typed (code v) (value_of (value v)) = Ok v.
Proof.
  intros Hv. destruct (decide (code v = 9)) as [H9|H9].
  - destruct v as [| | | | | | | | | | | |a]; try done. pose proof (typed_array_values Q a Hv) as Ha. unfold typed. cbn [code value Z.eqb Pos.eqb negb].
    destruct (array_values a) as [| | | | | |l c| |] eqn:E; try (by destruct a). cbn [value_of] in Ha. unfold Encode.array. rewrite E.
    repeat taken. by rewrite Ha.
  - unfold typed. rewrite (proj2 (Z.eqb_neq _ _)) by done. cbn [negb]. apply (scalar_value Q); [done|]. intros a ->. done.
Qed.

Lemma tool_value t t' : Decode.tool (value_of (Encode.tool t)) = Ok t' → t' = t.
Proof. unfold Decode.tool, Encode.tool. repeat taken. destruct (_ || _ || _); [done|]. intros [= <-]. by destruct t. Qed.

(** Sizes of the code's types. *)
Definition conversion_u64 (l : ConversionLimits) : Prop :=
  Forall (λ n, Integer.fits Integer.U64 n = true)
    [conversion_weight_bits l; conversion_weight_depth l; max_synthesis_steps_per_weight l; max_synthesis_steps_total l;
     conversion_block_terms l; conversion_block_bytes l; max_output_bytes l; max_resident_bytes l; max_cache_bytes l].

Lemma take_integer_head k n m : Integer.fits Integer.U64 n = true → take_integer ((k, VString (Integer.to_string n)) :: m) k = Ok (n, m).
Proof. intros Hn. unfold take_integer. rewrite take_head. cbn [mbind Result_bind]. by rewrite integer_decimal. Qed.

Lemma conversion_limits_value l : conversion_u64 l →
  conversion_limits (value_of (Encode.limits l)) = (_ ← Limits.validate_conversion l; Ok l).
Proof.
  intros Hl. unfold conversion_u64 in Hl. rewrite !Forall_cons in Hl. destruct_and!. unfold conversion_limits, Encode.limits, decimal.
  cbn [object value_of fmap list_fmap fields fst snd]. rewrite Ok_bind'.
  do 9 (rewrite take_integer_head by done; rewrite Ok_bind'). cbn [done]. rewrite Ok_bind'. by destruct l.
Qed.

(** Metadata that the types of the code allow. *)
Record metadata_ok (m : ModelMetadata) : Prop := {
  ok_conversion : conversion_u64 (metadata_limits m);
  ok_values : Forall (λ e, Utf8.from_utf8 (bytes_of (entry_key e)) = true ∧ value_ok (λ s, Utf8.from_utf8 (bytes_of s) = true) (entry_value e)) (gguf m);
  ok_numbers : Integer.fits Integer.U64 (schema m) = true ∧ Integer.fits Integer.U64 (source_gguf_version m) = true;
  ok_strings : Forall (λ s, Utf8.from_utf8 (bytes_of s) = true)
    [profile m; tool_name (converter m); tool_version (converter m); tool_revision (converter m);
     tool_name (codec m); tool_version (codec m); tool_revision (codec m)];
}.

Lemma entries_value Q limits last l r : Forall (λ e, value_ok Q (entry_value e)) l →
  entries limits last (value_of ∘ entry <$> l) = Ok r → r = l.
Proof.
  intros Hl. revert last r. induction Hl as [|e l He _ IH]; intros last r Hr; cbn [fmap list_fmap entries compose] in Hr; [by injection Hr as <-|].
  revert Hr. unfold entry at 1. repeat taken. intros Hr. apply bind_unit in Hr as [_ Hr].
  destruct (_ || _); [done|]. destruct (match last with Some p => _ | None => _ end); [done|].
  revert Hr. repeat taken. rewrite (typed_value Q) by done. repeat taken. intros Hr. apply bind_ok in Hr as (l' & El & Hr).
  injection Hr as <-. apply IH in El as ->. by destruct e.
Qed.

(** Decoding what was encoded gives it back, when it is accepted. *)
Lemma from_value_wire limits m m' : metadata_ok m → from_value limits (value_of (wire m)) = Ok m' → m' = m.
Proof.
  intros [Hc Hv _ _]. unfold from_value, wire. repeat taken.
  destruct (negb (schema m =? 1) || _) eqn:Es; [done|]. apply orb_false_iff in Es as [Es%negb_false_iff%Z.eqb_eq _].
  destruct (negb _); [done|]. repeat taken. intros Hr. apply bind_ok in Hr as (conv & Ec%tool_value & Hr).
  revert Hr. repeat taken. intros Hr. apply bind_ok in Hr as (cod & Ed%tool_value & Hr). revert Hr. repeat taken.
  rewrite conversion_limits_value by done. intros Hr. apply bind_ok in Hr as (lim & Hlim & Hr). apply bind_unit in Hlim as [_ [= <-]].
  revert Hr. unfold sequence. repeat taken. change (list_fmap _ _ ?f ?l) with (f <$> l). rewrite <-list_fmap_compose.
  intros Hr. apply bind_ok in Hr as (l & El & Hr). eapply entries_value in El as ->; [|by eapply Forall_impl; [exact Hv|intros e [_ He]]].
  revert Hr. repeat taken. intros [= <-]. rewrite Ec, Ed. destruct m. cbn in *. by subst.
Qed.

(** ** The library of text *)

(** Trees that printing covers, of at most [depth] nested arrays and objects. *)
Inductive printable : nat → Json → Prop :=
  | print_bool depth b : printable depth (JBool b)
  | print_u64 depth n : Integer.fits Integer.U64 n = true → printable depth (JU64 n)
  | print_string depth s : Utf8.from_utf8 (bytes_of s) = true → printable depth (JString s)
  | print_array depth l : Forall (printable depth) l → printable (S depth) (JArray l true)
  | print_object depth l : Forall (λ p, Utf8.from_utf8 (bytes_of p.1) = true ∧ printable depth p.2) l →
      printable (S depth) (JObject l true).

(** The parser of the JSON library gives up at 128 nested arrays and objects. *)
Definition JSON_MAX_DEPTH : nat := 127.

(** Printed text is UTF-8 and is parsed back. *)
Class JsonTextLaws `{JsonText} : Prop := {
  print_parse j : printable JSON_MAX_DEPTH j → json_parse (concat (json_chunks j)) = (j, true);
  print_bytes j : printable JSON_MAX_DEPTH j → Forall u8 (concat (json_chunks j)) ∧ Utf8.from_utf8 (concat (json_chunks j)) = true;
}.

(** ASCII text is UTF-8. *)
Lemma from_utf8_ascii bytes : Forall (λ b, 0 ≤ b ≤ 127) bytes → Utf8.from_utf8 bytes = true.
Proof.
  intros Hb. unfold Utf8.from_utf8. induction Hb as [|b bytes Hb _ IH]; [done|]. cbn [length Utf8.valid_up_to Utf8.sequence_length].
  unfold Utf8.between. rewrite !(proj2 (Z.leb_le _ _)) by lia. done.
Qed.

Definition ascii_string (s : String.string) : Prop := Forall (λ b, 0 ≤ b ≤ 127) (bytes_of s).

Lemma ascii_cons c s : (Ascii.nat_of_ascii c ≤ 127)%nat → ascii_string s → ascii_string (String.String c s).
Proof. intros Hc Hs. unfold ascii_string, bytes_of in *. cbn. apply Forall_cons. split; [lia|done]. Qed.

Lemma ascii_digits d : ascii_string (NilEmpty.string_of_uint d).
Proof. induction d; cbn [NilEmpty.string_of_uint]; [apply Forall_nil_2|..]; (apply ascii_cons; [by apply Nat.leb_le|done]). Qed.

Lemma ascii_uint d : ascii_string (NilZero.string_of_uint d).
Proof.
  assert (NilZero.string_of_uint d = "0" ∨ NilZero.string_of_uint d = NilEmpty.string_of_uint d) as [-> | ->].
  { destruct d; [by left|by right..]. }
  - apply ascii_cons; [by apply Nat.leb_le|apply Forall_nil_2].
  - apply ascii_digits.
Qed.

Lemma ascii_decimal n : ascii_string (Integer.to_string n).
Proof.
  unfold Integer.to_string. destruct (Z.to_int n) as [d|d]; cbn [NilZero.string_of_int]; [apply ascii_uint|].
  apply ascii_cons; [by apply Nat.leb_le|apply ascii_uint].
Qed.

Lemma ascii_hex digits n rest : ascii_string rest → ascii_string (Hex.pad digits n rest).
Proof.
  revert n rest. induction digits as [|digits IH]; intros n rest Hr; cbn [Hex.pad]; [done|]. apply IH, ascii_cons; [|done].
  unfold Hex.digit. pose proof (Z.mod_pos_bound n 16 ltac:(lia)). destruct (Z.ltb_spec (n `mod` 16) 10);
    rewrite Ascii.nat_ascii_embedding; lia.
Qed.

Lemma printable_ascii d s : ascii_string s → printable d (JString s).
Proof. intros Hs. constructor. by apply from_utf8_ascii. Qed.

Lemma printable_fields d l : Forall (λ p, ascii_string p.1 ∧ printable d p.2) l → printable (S d) (fields l).
Proof. intros Hl. constructor. eapply Forall_impl; [exact Hl|]. intros p [Hp Hj]. split; [by apply from_utf8_ascii|done]. Qed.

Lemma printable_sequence {A} d (convert : A → Json) (P : A → Prop) l :
  (∀ a, P a → printable d (convert a)) → Forall P l → printable (S d) (sequence convert l).
Proof. intros Hc Hl. constructor. apply Forall_fmap. eapply Forall_impl; [exact Hl|exact Hc]. Qed.

Lemma printable_decimal d n : printable d (decimal n).
Proof. apply printable_ascii, ascii_decimal. Qed.

Lemma printable_hex d digits n : printable d (JString (Hex.format digits n)).
Proof. apply printable_ascii, ascii_hex, Forall_nil_2. Qed.

Abbreviation utf8 := (λ s : String.string, Utf8.from_utf8 (bytes_of s) = true).

Lemma printable_string d s : utf8 s → printable d (JString s).
Proof. by constructor. Qed.

Lemma printable_value d v : value_ok utf8 v → printable (S (S d)) (value v).
Proof.
  assert (∀ a, array_ok utf8 a → printable (S d) (array_values a)) as Harr.
  { intros a Ha. destruct a as [l|l|l|l|l|l|l|l|l|l|l|l]; cbn [array_values array_ok] in *;
      try (eapply printable_sequence; [intros x _; apply printable_decimal || apply printable_hex|exact Ha]).
    - apply (printable_sequence _ _ (λ _, True)); [constructor|by apply Forall_true].
    - eapply printable_sequence; [|exact Ha]. intros x Hx. by apply printable_string. }
  intros Hv. destruct v; cbn [value value_ok] in *; try first [apply printable_decimal | apply printable_hex | by constructor].
  apply printable_fields. apply Forall_cons. split; [split; [by repeat constructor|constructor; by destruct a]|].
  apply Forall_cons. split; [split; [by repeat constructor|by apply Harr]|constructor].
Qed.

Ltac printable_field := apply Forall_cons; split; [split; [by repeat constructor|]|].

Lemma printable_tool d t : utf8 (tool_name t) → utf8 (tool_version t) → utf8 (tool_revision t) → printable (S d) (Encode.tool t).
Proof. intros. apply printable_fields. repeat (printable_field; [by apply printable_string|]). constructor. Qed.

Lemma printable_wire m : metadata_ok m → printable JSON_MAX_DEPTH (wire m).
Proof.
  change JSON_MAX_DEPTH with (5 + 122)%nat. generalize 122%nat as d. intros d. cbn [Nat.add].
  intros [_ Hv [Hs Hg] Ht]. rewrite !Forall_cons in Ht. destruct_and!. apply printable_fields.
  printable_field; [by constructor|]. printable_field; [by apply printable_string|]. printable_field; [by constructor|].
  do 2 (printable_field; [by apply printable_tool|]). printable_field.
  { apply printable_fields. repeat (printable_field; [apply printable_decimal|]). constructor. }
  printable_field; [|constructor]. eapply printable_sequence; [|exact Hv]. intros e [Hk He]. apply printable_fields.
  printable_field; [by apply printable_string|]. printable_field; [constructor; by destruct (entry_value e)|].
  printable_field; [by apply printable_value|constructor].
Qed.

(** ** What decoding accepts *)

Lemma integer_ok t v n : integer t v = Ok n → Integer.fits t n = true.
Proof.
  unfold integer. intros (text & _ & Hp)%bind_ok. destruct (Integer.parse t text) as [m|] eqn:E; [|done].
  case_bool_decide; [|done]. injection Hp as <-. unfold Integer.parse in E. destruct (Integer.sign_and_digits t text); [|done].
  cbn in E. destruct (Integer.fits t z) eqn:Ef; [|done]. by injection E as <-.
Qed.

Lemma hex_value_range c d : Hex.value c = Some d → 0 ≤ d < 16.
Proof.
  unfold Hex.value. set (n := Z.of_nat _). destruct ((48 <=? n) && (n <=? 57)) eqn:E.
  - apply andb_true_iff in E as [E1%Z.leb_le E2%Z.leb_le]. intros [= <-]. lia.
  - destruct ((97 <=? n) && (n <=? 102)) eqn:E'; [|done]. apply andb_true_iff in E' as [E1%Z.leb_le E2%Z.leb_le]. intros [= <-]. lia.
Qed.

Lemma radix_range s acc n : 0 ≤ acc → Hex.from_str_radix s acc = Some n → 0 ≤ n < (acc + 1) * 16 ^ Z.of_nat (String.length s).
Proof.
  revert acc. induction s as [|c s IH]; intros acc Ha Hr; cbn [Hex.from_str_radix String.length] in *.
  { injection Hr as <-. change (16 ^ Z.of_nat 0) with 1. lia. }
  destruct (Hex.value c) as [d|] eqn:E; [|done]. apply hex_value_range in E. cbn [mbind option_bind] in Hr.
  apply IH in Hr; [|lia]. rewrite Nat2Z.inj_succ, Z.pow_succ_r by lia. nia.
Qed.

Lemma hex_ok digits v n : hex digits v = Ok n → 0 ≤ n < 16 ^ Z.of_nat digits.
Proof.
  unfold hex. intros (text & _ & Hr)%bind_ok. case_bool_decide as Hl; cbn [negb] in Hr; [|done].
  destruct (Hex.from_str_radix text 0) as [m|] eqn:E; [|done]. injection Hr as <-. apply radix_range in E; [|done]. rewrite Hl in E. lia.
Qed.

Section accepts.
Context (limits : ReadLimits).
Definition short (s : String.string) : Prop := len s ≤ max_string_bytes limits.

Lemma string_ok v s : bounded limits v → string v = Ok s → short s.
Proof. destruct 1; intros Hs; try done. by injection Hs as <-. Qed.

Lemma fmap_ok {E A B} (f : A → B) (m : Result E A) b : f <$> m = Ok b → ∃ a, m = Ok a ∧ b = f a.
Proof. destruct m as [a|]; [|done]. intros [= <-]. by exists a. Qed.

Lemma scalar_ok kind v s : bounded limits v → scalar kind v = Ok s → value_ok short s ∧ code s = kind ∧ (∀ a, s ≠ MArray a).
Proof.
  intros Hb. unfold scalar.
  repeat match goal with |- (if kind =? ?k then _ else _) = _ → _ =>
    destruct (Z.eqb_spec kind k) as [->|?]; [intros (x & Hx & ->)%fmap_ok; split; [|done]; cbn [value_ok];
      first [by apply integer_ok in Hx | by apply hex_ok in Hx | by apply string_ok in Hx | done]|] end. done.
Qed.

Lemma vector_ok {A} (variant : MetadataValue → option A) (P : A → Prop) kind l r :
  (∀ s a, value_ok short s → variant s = Some a → P a) → Forall (bounded limits) l → vector variant kind l = Ok r → Forall P r.
Proof.
  intros HP Hl. revert r. induction Hl as [|v l Hv _ IH]; intros r Hr; cbn [vector] in Hr; [by injection Hr as <-|].
  apply bind_ok in Hr as (s & Es & Hr). apply scalar_ok in Es as (Hs & _); [|done].
  destruct (variant s) as [a|] eqn:Ea; [|done]. apply bind_ok in Hr as (r' & Er & Hr). injection Hr as <-.
  apply Forall_cons. split; [by eapply HP|by apply IH].
Qed.

Lemma typed_array_ok kind l a : Forall (bounded limits) l → typed_array kind l = Ok a → array_ok short a.
Proof.
  intros Hl. unfold typed_array.
  repeat match goal with |- (if kind =? ?k then _ <$> _ else _) = _ → _ =>
    destruct (Z.eqb_spec kind k) as [->|?]; [intros (x & Hx & ->)%fmap_ok; cbn [array_ok]; try done;
      (eapply vector_ok; [|exact Hl|exact Hx]); intros s b Hs Hb; destruct s; try done; by injection Hb as <-|] end.
  by destruct (kind =? 9).
Qed.

Lemma take_ok m key v m' : Forall (λ p, len p.1 ≤ max_name_bytes limits ∧ bounded limits p.2) m → take m key = Ok (v, m') →
  bounded limits v ∧ Forall (λ p, len p.1 ≤ max_name_bytes limits ∧ bounded limits p.2) m'.
Proof.
  intros Hm. revert m'. induction Hm as [|[k x] m Hx Hm IH]; intros m' Ht; cbn [take] in Ht; [done|].
  case_bool_decide; [injection Ht as <- <-; by destruct Hx|]. apply bind_ok in Ht as ([v1 m1] & E & Ht). injection Ht as <- <-.
  apply IH in E as [Hv Hm1]. split; [done|]. by apply Forall_cons.
Qed.

Lemma object_ok v m : bounded limits v → object v = Ok m → Forall (λ p, len p.1 ≤ max_name_bytes limits ∧ bounded limits p.2) m.
Proof. destruct 1; intros Hs; try done. by injection Hs as <-. Qed.

Lemma array_value_ok v l : bounded limits v → Decode.array v = Ok l → Forall (bounded limits) l.
Proof. destruct 1; intros Hs; try done. by injection Hs as <-. Qed.

Lemma typed_ok kind v r : bounded limits v → typed kind v = Ok r → value_ok short r ∧ code r = kind.
Proof.
  intros Hb Hr. unfold typed in Hr. destruct (Z.eqb_spec kind 9) as [->|Hk]; cbn [negb] in Hr.
  - apply bind_ok in Hr as (obj & Eo & Hr). apply object_ok in Eo as Ho; [|done].
    apply bind_ok in Hr as ([k m1] & [_ Hm1]%take_ok & Hr); [|done]. apply bind_ok in Hr as (k' & _ & Hr).
    apply bind_ok in Hr as ([vs m2] & [Hvs _]%take_ok & Hr); [|done]. apply bind_ok in Hr as (l & El & Hr).
    apply bind_ok in Hr as (u & _ & Hr). apply fmap_ok in Hr as (a & Ha & ->). split; [|done].
    cbn [value_ok]. eapply typed_array_ok; [|exact Ha]. by eapply array_value_ok.
  - apply scalar_ok in Hr as (? & ? & _); done.
Qed.

(** Entries in the order of their keys. *)
Fixpoint ordered (last : option String.string) (l : list GgufMetadataEntry) : Prop :=
  match l with
  | [] => True
  | e :: l => match last with Some p => string_lt p (entry_key e) = true | None => True end ∧ ordered (Some (entry_key e)) l
  end.

Definition entry_ok (e : GgufMetadataEntry) : Prop :=
  entry_key e ≠ "" ∧ contains_nul (entry_key e) = false ∧ len (entry_key e) ≤ max_name_bytes limits ∧ value_ok short (entry_value e).

Lemma entries_ok last l r : Forall (bounded limits) l → entries limits last l = Ok r → ordered last r ∧ Forall entry_ok r ∧ length r = length l.
Proof.
  intros Hl. revert last r. induction Hl as [|v l Hv _ IH]; intros last r Hr; cbn [entries] in Hr; [by injection Hr as <-|].
  apply bind_ok in Hr as (obj & Eo & Hr). apply object_ok in Eo as Ho; [|done].
  apply bind_ok in Hr as ([k m1] & [Hk Hm1]%take_ok & Hr); [|done]. apply bind_ok in Hr as (key & Ek & Hr).
  apply bind_ok in Hr as (u & Hlen%limit_ok & Hr).
  destruct (bool_decide (key = "") || contains_nul key) eqn:Ebad; [done|]. apply orb_false_iff in Ebad as [Hne%bool_decide_eq_false Hnul].
  destruct (match last with Some p => negb (string_lt p key) | None => false end) eqn:Elast; [done|].
  apply bind_ok in Hr as ([t m2] & [_ Hm2]%take_ok & Hr); [|done]. apply bind_ok in Hr as (kind & _ & Hr).
  apply bind_ok in Hr as ([x m3] & [Hx _]%take_ok & Hr); [|done]. apply bind_ok in Hr as (value & Hval & Hr).
  apply typed_ok in Hval as [Hval _]; [|done]. apply bind_ok in Hr as (u' & _ & Hr). apply bind_ok in Hr as (r' & Er & Hr).
  injection Hr as <-. apply IH in Er as (Hord & Hall & Hlen'). split; [|split; [by apply Forall_cons|cbn; lia]].
  split; [|done]. destruct last as [p|]; [|done]. by apply negb_false_iff in Elast.
Qed.
End accepts.

Definition tool_ok (t : ToolIdentity) : Prop := tool_name t ≠ "" ∧ tool_version t ≠ "" ∧ tool_revision t ≠ "".

Lemma tool_nonempty v t : Decode.tool v = Ok t → tool_ok t.
Proof.
  unfold Decode.tool. intros (m & _ & Ht)%bind_ok.
  apply bind_ok in Ht as ([? m1] & _ & Ht). apply bind_ok in Ht as (name & _ & Ht).
  apply bind_ok in Ht as ([? m2] & _ & Ht). apply bind_ok in Ht as (version & _ & Ht).
  apply bind_ok in Ht as ([? m3] & _ & Ht). apply bind_ok in Ht as (revision & _ & Ht). apply bind_ok in Ht as (u & _ & Ht).
  destruct (_ || _ || _) eqn:E; [done|]. injection Ht as <-.
  apply orb_false_iff in E as [[E1%bool_decide_eq_false E2%bool_decide_eq_false]%orb_false_iff E3%bool_decide_eq_false]. done.
Qed.

(** Metadata that a reader may see. *)
Record decoded_ok (limits : ReadLimits) (m : ModelMetadata) : Prop := {
  decoded_profile : schema m = 1 ∧ profile m = "bml-exact-decoded-f32-v1" ∧ (source_gguf_version m = 2 ∨ source_gguf_version m = 3);
  decoded_tools : tool_ok (converter m) ∧ tool_ok (codec m);
  decoded_limits : conversion_limits_ok (metadata_limits m) ∧ conversion_u64 (metadata_limits m);
  decoded_order : ordered None (gguf m);
  decoded_entries : Forall (entry_ok limits) (gguf m);
}.

Lemma take_integer_u64 m key n m' : take_integer m key = Ok (n, m') → Integer.fits Integer.U64 n = true.
Proof. unfold take_integer. intros ([v m1] & _ & Hn)%bind_ok. apply bind_ok in Hn as (k & Hk%integer_ok & [= <- <-]). done. Qed.

Lemma conversion_limits_accepts v l : conversion_limits v = Ok l → conversion_limits_ok l ∧ conversion_u64 l.
Proof.
  unfold conversion_limits. intros (m0 & _ & Hl)%bind_ok.
  do 9 (apply bind_ok in Hl as ([? ?] & ?%take_integer_u64 & Hl)).
  apply bind_ok in Hl as (u & _ & Hl). apply bind_ok in Hl as (u' & Hv%validate_conversion_ok & Hl). injection Hl as <-.
  split; [done|]. by repeat constructor.
Qed.

Lemma from_value_ok limits v m : bounded limits v → from_value limits v = Ok m → decoded_ok limits m.
Proof.
  intros Hb Hm. unfold from_value in Hm. apply bind_ok in Hm as (m0 & E0 & Hm). apply (object_ok limits) in E0 as H0; [|done].
  apply bind_ok in Hm as ([? m1] & [_ H1]%(take_ok limits) & Hm); [|done]. apply bind_ok in Hm as (sc & _ & Hm).
  apply bind_ok in Hm as ([? m2] & [_ H2]%(take_ok limits) & Hm); [|done]. apply bind_ok in Hm as (prof & _ & Hm).
  apply bind_ok in Hm as ([? m3] & [_ H3]%(take_ok limits) & Hm); [|done]. apply bind_ok in Hm as (ver & _ & Hm).
  destruct (negb (sc =? 1) || _) eqn:Es; [done|]. apply orb_false_iff in Es as [_ Ep%negb_false_iff%bool_decide_eq_true].
  destruct (negb _) eqn:Ev; [done|]. apply negb_false_iff, orb_true_iff in Ev.
  apply bind_ok in Hm as ([? m4] & [_ H4]%(take_ok limits) & Hm); [|done]. apply bind_ok in Hm as (conv & Hconv%tool_nonempty & Hm).
  apply bind_ok in Hm as ([? m5] & [_ H5]%(take_ok limits) & Hm); [|done]. apply bind_ok in Hm as (cod & Hcod%tool_nonempty & Hm).
  apply bind_ok in Hm as ([? m6] & [_ H6]%(take_ok limits) & Hm); [|done]. apply bind_ok in Hm as (lim & Hlim%conversion_limits_accepts & Hm).
  apply bind_ok in Hm as ([? m7] & [H7 _]%(take_ok limits) & Hm); [|done]. apply bind_ok in Hm as (l & El & Hm).
  apply bind_ok in Hm as (es & Ees & Hm). apply bind_ok in Hm as (u & _ & Hm). injection Hm as <-.
  apply (entries_ok limits) in Ees as (Hord & Hall & _); [|by eapply (array_value_ok limits)]. split; cbn; try done.
  split; [done|]. split; [done|]. destruct Ev as [->%Z.eqb_eq| ->%Z.eqb_eq]; auto.
Qed.

Lemma decode_ok `{JsonText} bytes limits m : decode bytes limits = Ok m → decoded_ok limits m ∧
  ∃ v n, visit limits 1 false (json_parse bytes).1 0 = Ok (v, n) ∧ from_value limits v = Ok m ∧ (json_parse bytes).2 = true.
Proof.
  unfold decode. destruct (negb (Utf8.from_utf8 bytes)); [done|]. destruct (json_parse bytes) as [text ended]. cbn [fst snd].
  intros ([v n] & Ev & Hm)%bind_ok. destruct ended; cbn [negb] in Hm; [|done]. split; [|by exists v, n].
  apply visit_ok in Ev as [_ Hb]. by eapply from_value_ok.
Qed.

Lemma bounded_writes cap pieces out bytes : for_each (bounded_write cap) pieces out = Ok bytes →
  bytes = (out ++ concat pieces)%list ∧ (Z.of_nat (length out) ≤ cap → Z.of_nat (length bytes) ≤ cap).
Proof.
  revert out. induction pieces as [|p pieces IH]; intros out Hb; cbn [for_each concat] in *; [injection Hb as <-; by rewrite app_nil_r|].
  apply bind_ok in Hb as (out1 & E & Hb). unfold bounded_write in E.
  apply bind_unit in E as [(n & [-> _]%checked_add_Some & Hn)%check_limit_none [= <-]]. apply IH in Hb as [-> Hlen].
  split; [by rewrite <-app_assoc|]. intros _. apply Hlen. rewrite length_app. lia.
Qed.

Lemma encode_written `{JsonText} m limits cap bytes : 0 ≤ cap → 0 ≤ max_metadata_bytes limits → encode m limits cap = Ok bytes →
  bytes = concat (json_chunks (wire m)) ∧ Z.of_nat (length bytes) ≤ cap ∧ Z.of_nat (length bytes) ≤ max_metadata_bytes limits ∧
  is_ok (decode bytes limits) = true.
Proof.
  intros Hc Hl. unfold encode. intros (b & Hb & He)%bind_ok. apply bind_ok in He as (m' & Hd & [= <-]).
  apply bounded_writes in Hb as [-> Hlen]. cbn [app length] in *. specialize (Hlen ltac:(lia)).
  split; [done|]. rewrite Hd. split; [lia|]. split; [lia|done].
Qed.

Lemma encode_decode `{JsonTextLaws} m limits cap bytes : metadata_ok m → 0 ≤ cap → 0 ≤ max_metadata_bytes limits →
  encode m limits cap = Ok bytes → decode bytes limits = Ok m.
Proof.
  intros Hm Hc Hl He. apply encode_written in He as (-> & _ & _ & Hd); [|done..].
  destruct (decode (concat (json_chunks (wire m))) limits) as [m'|] eqn:E; [|done]. f_equal.
  apply decode_ok in E as (_ & v & n & Hv & Hf & _). rewrite print_parse in Hv by (by apply printable_wire). cbn [fst] in Hv.
  apply visit_ok in Hv as [-> _]. by apply from_value_wire in Hf.
Qed.

(** ** Theorems *)

(** [C12] Metadata survives its file. Whenever the encoder accepts metadata within its limits,
    the bytes are UTF-8, fit the budget, and decode under the same limits to the same
    metadata: every integer, float pattern, string and array, in the same order. *)
Theorem metadata_roundtrip `{JsonTextLaws} m limits cap bytes : metadata_ok m → 0 ≤ cap → 0 ≤ max_metadata_bytes limits →
  encode m limits cap = Ok bytes →
  decode bytes limits = Ok m ∧ Z.of_nat (length bytes) ≤ Z.min cap (max_metadata_bytes limits) ∧
  Forall u8 bytes ∧ Utf8.from_utf8 bytes = true.
Proof.
  intros Hm Hc Hl He. split; [by apply (encode_decode m limits cap)|]. apply encode_written in He as (-> & H1 & H2 & _); [|done..].
  split; [lia|]. by apply print_bytes, printable_wire.
Qed.

(** [C20] Whatever the text, decoded metadata is well typed: the profile and version are known,
    the recorded limits are valid, integers and float patterns are in the range of their
    types, strings and keys are within the limits, and keys are distinct and in order. *)
Theorem metadata_accepts `{JsonText} bytes limits m : decode bytes limits = Ok m → decoded_ok limits m.
Proof. intros Hd. by apply decode_ok in Hd as [? _]. Qed.

(** A library of text that prints the encoding of a tree in binary digits. *)
Module Binary.
Fixpoint to_tree (j : Json) : gen_tree (Z + String.string) :=
  match j with
  | JNull => GenNode 0 []
  | JBool b => GenNode 1 [GenLeaf (inl (Z.b2z b))]
  | JU64 n => GenNode 2 [GenLeaf (inl n)]
  | JI64 n => GenNode 3 [GenLeaf (inl n)]
  | JF64 => GenNode 4 []
  | JString s => GenNode 5 [GenLeaf (inr s)]
  | JArray l closed => GenNode (if closed then 6 else 7) (to_tree <$> l)
  | JObject l closed => GenNode (if closed then 8 else 9) ((λ p, GenNode 0 [GenLeaf (inr p.1); to_tree p.2]) <$> l)
  | JBroken => GenNode 10 []
  end.

Fixpoint of_tree (t : gen_tree (Z + String.string)) : Json :=
  match t with
  | GenNode 0 [] => JNull
  | GenNode 1 [GenLeaf (inl b)] => JBool (b =? 1)
  | GenNode 2 [GenLeaf (inl n)] => JU64 n
  | GenNode 3 [GenLeaf (inl n)] => JI64 n
  | GenNode 4 [] => JF64
  | GenNode 5 [GenLeaf (inr s)] => JString s
  | GenNode 6 l => JArray (of_tree <$> l) true
  | GenNode 7 l => JArray (of_tree <$> l) false
  | GenNode 8 l => JObject ((λ t, match t with GenNode _ [GenLeaf (inr k); t] => (k, of_tree t) | _ => ("", JBroken) end) <$> l) true
  | GenNode 9 l => JObject ((λ t, match t with GenNode _ [GenLeaf (inr k); t] => (k, of_tree t) | _ => ("", JBroken) end) <$> l) false
  | _ => JBroken
  end.

Fixpoint digits (p : positive) : list Z :=
  match p with xH => [] | xO p => 48 :: digits p | xI p => 49 :: digits p end.
Fixpoint number (bytes : list Z) : positive :=
  match bytes with [] => xH | b :: bytes => if b =? 48 then xO (number bytes) else xI (number bytes) end.

Definition print (j : Json) : list Z := digits (countable.encode (to_tree j)).
Definition parse (bytes : list Z) : Json * bool :=
  match countable.decode (number bytes) with Some t => (of_tree t, true) | None => (JBroken, false) end.
End Binary.

#[local] Instance binary_text : JsonText := {| json_chunks j := [Binary.print j]; json_parse := Binary.parse |}.

Lemma of_to_tree j : Binary.of_tree (Binary.to_tree j) = j.
Proof.
  assert (∀ l, Forall (λ x, Binary.of_tree (Binary.to_tree x) = x) l → Binary.of_tree <$> (Binary.to_tree <$> l) = l) as Hl.
  { intros l. induction 1 as [|x l Hx _ IH]; [done|]. cbn. by rewrite Hx, IH. }
  assert (∀ l : list (String.string * Json), Forall ((λ x, Binary.of_tree (Binary.to_tree x) = x) ∘ snd) l →
    (λ t, match t with GenNode _ [GenLeaf (inr k); t] => (k, Binary.of_tree t) | _ => ("", JBroken) end) <$>
      ((λ p, GenNode 0 [GenLeaf (inr p.1); Binary.to_tree p.2]) <$> l) = l) as Ho.
  { intros l. induction 1 as [|[k x] l Hx _ IH]; [done|]. cbn. cbn in Hx. by rewrite Hx, IH. }
  induction j as [|b|n|n| |s|l c IH|l c IH|] using Json_rect'; try done; [by destruct b| |];
    destruct c; cbn [Binary.to_tree Binary.of_tree]; f_equal; auto.
Qed.

Lemma number_digits p : Binary.number (Binary.digits p) = p.
Proof. induction p as [p IH|p IH|]; cbn; by rewrite ?IH. Qed.

Lemma digits_ascii p : Forall (λ b, 0 ≤ b ≤ 127) (Binary.digits p).
Proof. induction p; cbn; [by constructor..|constructor]. Qed.

#[local] Instance binary_text_laws : JsonTextLaws.
Proof.
  split; intros j _; cbn; rewrite app_nil_r.
  - unfold Binary.parse, Binary.print. by rewrite number_digits, decode_encode, of_to_tree.
  - pose proof (digits_ascii (countable.encode (Binary.to_tree j))) as Ha. split; [|by apply from_utf8_ascii].
    eapply Forall_impl; [exact Ha|]. intros b Hb. cbn in Hb. unfold u8. lia.
Qed.

Definition sample_tool : ToolIdentity := mkTool "bml" "1" "a".
Definition sample_metadata : ModelMetadata :=
  mkMetadata 1 "bml-exact-decoded-f32-v1" 3 sample_tool sample_tool ConversionLimits_default
    [mkEntry "alpha" (MI8 (-3)); mkEntry "beta" (MArray (AF32Bits [1; 255])); mkEntry "gamma" (MString "x")].

Lemma sample_metadata_ok : metadata_ok sample_metadata.
Proof. split; [by repeat constructor| |done|by repeat constructor]. repeat (constructor; [split; [done|cbn; repeat constructor; done]|]). constructor. Qed.

Lemma metadata_roundtrip_witness :
  ∃ bytes, encode sample_metadata ReadLimits_default 100000 = Ok bytes ∧ decode bytes ReadLimits_default = Ok sample_metadata.
Proof.
  destruct (encode sample_metadata ReadLimits_default 100000) as [bytes|] eqn:E; [|by vm_compute in E].
  exists bytes. split; [done|].
  apply (metadata_roundtrip sample_metadata ReadLimits_default 100000 bytes sample_metadata_ok); [done..|exact E].
Defined.

Lemma metadata_accepts_witness : decode (Binary.print (wire sample_metadata)) ReadLimits_default = Ok sample_metadata ∧
  decoded_ok ReadLimits_default sample_metadata.
Proof.
  assert (decode (Binary.print (wire sample_metadata)) ReadLimits_default = Ok sample_metadata) as E by (vm_compute; reflexivity).
  split; [exact E|]. exact (metadata_accepts _ _ _ E).
Defined.
