(* ===== verification/WeightFormat.v ===== *)
(** * The bytes of a weight file

    The cursor with which reader.rs of model-weights takes a file apart, the records that
    writer.rs puts it together from, and the lemmas that relate them: what the cursor takes
    is what was written, and nothing else. *)
From S2P Require Import Prelude Encoding Text Bytes WeightLimits WeightMetadata.
#[local] Open Scope Z_scope.

(** SHA-256 is a library. *)
Class Sha256 : Type := sha256 : list Z → Digest.

(** Digests have 32 bytes. *)
Class Sha256Laws `{Sha256} : Prop := sha256_bytes bytes : length (sha256 bytes) = 32%nat ∧ Forall u8 (sha256 bytes).

(** ** Reading *)

Module Cursor.
Definition format {A} (kind : FormatKind) : Result Error A := Err (Format kind None).
Definition add (a b : Z) : Result Error Z := ok_or (Format ArithmeticOverflow None) (checked_add a b).
Definition mul (a b : Z) : Result Error Z := ok_or (Format ArithmeticOverflow None) (checked_mul a b).

(** The argument is the bytes that the cursor has not taken; so is the result's second part. *)
Definition take (n : Z) (bytes : list Z) : Result Error (list Z * list Z) :=
  if Z.of_nat (length bytes) <? n then format SectionLayout
  else Ok (list.take (Z.to_nat n) bytes, list.drop (Z.to_nat n) bytes).
Definition u32 (bytes : list Z) : Result Error (Z * list Z) := '(field, bytes) ← take 4 bytes; Ok (le_value field, bytes).
Definition u64 (bytes : list Z) : Result Error (Z * list Z) := '(field, bytes) ← take 8 bytes; Ok (le_value field, bytes).
Definition digest (bytes : list Z) : Result Error (Digest * list Z) := take 32 bytes.
Definition done (bytes : list Z) : Result Error unit := match bytes with [] => Ok tt | _ => format SectionLayout end.
End Cursor.

(** ** Writing *)

Module Layout.
Import Cursor.

Definition tensor_record (t : TensorInfo) : list Z :=
  le_bytes 4 (len (name t)) ++ le_bytes 4 (Z.of_nat (length (ggml_dimensions t))) ++ le_bytes 4 (Types.from (source_dtype t)) ++
  le_bytes 4 0 ++ le_bytes 8 (element_count t) ++ le_bytes 8 (first_block t) ++ le_bytes 8 (block_count t) ++
  concat (le_bytes 8 <$> ggml_dimensions t) ++ bytes_of (name t).

(** The record of a block whose offset counts from the start of the file. *)
Definition block_record (b : BlockInfo) : list Z :=
  le_bytes 8 (block_tensor b) ++ le_bytes 8 (first_element b) ++ le_bytes 8 (term_count b) ++ le_bytes 8 (data_offset b) ++
  le_bytes 8 (data_bytes b) ++ le_bytes 8 (useful_bits b) ++ WeightLimits.digest b.

(** The header up to its own digest. *)
Definition header_fields (s : FileSummary) (metadata_offset tensors_offset blocks_offset payload_offset : Z) : list Z :=
  MAGIC ++ le_bytes 2 (version s) ++ le_bytes 1 1 ++ le_bytes 1 (basis s) ++ le_bytes 4 256 ++ le_bytes 8 0 ++
  le_bytes 8 (file_bytes s) ++ le_bytes 8 (summary_tensors s) ++ le_bytes 8 (summary_blocks s) ++
  le_bytes 8 metadata_offset ++ le_bytes 8 (metadata_bytes s) ++ le_bytes 8 tensors_offset ++ le_bytes 8 (tensors_bytes s) ++
  le_bytes 8 blocks_offset ++ le_bytes 8 (blocks_bytes s) ++ le_bytes 8 payload_offset ++ le_bytes 8 (payload_bytes s) ++
  source_sha256 s ++ catalog_sha256 s.

(** The digest is of the header with zeros in its place. *)
Definition header `{Sha256} (s : FileSummary) : Result Error (list Z) :=
  tensors_offset ← add 256 (metadata_bytes s);
  blocks_offset ← add tensors_offset (tensors_bytes s);
  payload_offset ← add blocks_offset (blocks_bytes s);
  let fields := header_fields s 256 tensors_offset blocks_offset payload_offset in
  Ok (fields ++ sha256 (fields ++ replicate 80 0) ++ replicate 48 0).
End Layout.

(** ** Fields *)

Lemma cursor_take_ok n bytes x rest : 0 ≤ n → Cursor.take n bytes = Ok (x, rest) ↔ bytes = x ++ rest ∧ Z.of_nat (length x) = n.
Proof.
  intros Hn. unfold Cursor.take. split.
  - destruct (Z.ltb_spec (Z.of_nat (length bytes)) n); [done|]. intros [= <- <-]. rewrite take_drop, length_take. split; [done|lia].
  - intros [-> Hx]. rewrite length_app. destruct (Z.ltb_spec (Z.of_nat (length x + length rest)) n); [lia|].
    by rewrite take_app_length', drop_app_length' by lia.
Qed.

Lemma cursor_take x rest : Cursor.take (Z.of_nat (length x)) (x ++ rest) = Ok (x, rest).
Proof. apply cursor_take_ok; [lia|done]. Qed.

(** A field of [n] bytes. *)
Lemma cursor_field n bytes v rest : Forall u8 bytes →
  (∃ x, Cursor.take (Z.of_nat n) bytes = Ok (x, rest) ∧ le_value x = v) ↔
  bytes = le_bytes n v ++ rest ∧ 0 ≤ v < 256 ^ Z.of_nat n.
Proof.
  intros Hb. split.
  - intros (x & [-> Hx]%cursor_take_ok & <-); [|lia]. apply Forall_app in Hb as [Hx8 _].
    rewrite le_bytes_value by (done || lia). split; [done|]. rewrite <-Hx. by apply le_value_bounds.
  - intros [-> Hv]. exists (le_bytes n v). rewrite le_value_bytes by done. split; [|done].
    apply cursor_take_ok; [lia|]. by rewrite length_le_bytes.
Qed.

Lemma cursor_u64_ok bytes v rest : Forall u8 bytes → Cursor.u64 bytes = Ok (v, rest) ↔ bytes = le_bytes 8 v ++ rest ∧ 0 ≤ v < W64.
Proof.
  intros Hb. change W64 with (256 ^ Z.of_nat 8). rewrite <-cursor_field by done. unfold Cursor.u64. rewrite bind_ok.
  split; [intros ([x r] & Hx & [= <- <-]); by exists x|intros (x & Hx & <-); by exists (x, rest)].
Qed.

Lemma cursor_u32_ok bytes v rest : Forall u8 bytes → Cursor.u32 bytes = Ok (v, rest) ↔ bytes = le_bytes 4 v ++ rest ∧ 0 ≤ v < 2 ^ 32.
Proof.
  intros Hb. change (2 ^ 32) with (256 ^ Z.of_nat 4). rewrite <-cursor_field by done. unfold Cursor.u32. rewrite bind_ok.
  split; [intros ([x r] & Hx & [= <- <-]); by exists x|intros (x & Hx & <-); by exists (x, rest)].
Qed.

Lemma cursor_take_le n k v rest : Z.of_nat k = n → Cursor.take n (le_bytes k v ++ rest) = Ok (le_bytes k v, rest).
Proof. intros <-. apply cursor_take_ok; [lia|]. by rewrite length_le_bytes. Qed.

Lemma cursor_u64 v rest : 0 ≤ v < W64 → Cursor.u64 (le_bytes 8 v ++ rest) = Ok (v, rest).
Proof. intros Hv. unfold Cursor.u64. rewrite cursor_take_le by done. rewrite Ok_bind. by rewrite le_value_bytes. Qed.

Lemma cursor_u32 v rest : 0 ≤ v < 2 ^ 32 → Cursor.u32 (le_bytes 4 v ++ rest) = Ok (v, rest).
Proof. intros Hv. unfold Cursor.u32. rewrite cursor_take_le by done. rewrite Ok_bind. by rewrite le_value_bytes. Qed.

Lemma cursor_digest d rest : length d = 32%nat → Cursor.digest (d ++ rest) = Ok (d, rest).
Proof. intros Hd. apply cursor_take_ok; [lia|]. split; [done|lia]. Qed.

Lemma cursor_digest_ok bytes d rest : Cursor.digest bytes = Ok (d, rest) ↔ bytes = d ++ rest ∧ length d = 32%nat.
Proof. unfold Cursor.digest. rewrite cursor_take_ok by lia. split; intros [-> ?]; (split; [done|lia]). Qed.

Lemma cursor_done bytes u : Cursor.done bytes = Ok u ↔ bytes = [].
Proof. destruct u, bytes; by split. Qed.

Lemma add_ok a b c : Cursor.add a b = Ok c ↔ c = a + b ∧ a + b < W64.
Proof. unfold Cursor.add. by rewrite ok_or_ok, checked_add_Some. Qed.

Lemma mul_ok a b c : Cursor.mul a b = Ok c ↔ c = a * b ∧ a * b < W64.
Proof. unfold Cursor.mul. by rewrite ok_or_ok, checked_mul_Some. Qed.

Lemma add_fits a b : a + b < W64 → Cursor.add a b = Ok (a + b).
Proof. intros. by apply add_ok. Qed.

Lemma mul_fits a b : a * b < W64 → Cursor.mul a b = Ok (a * b).
Proof. intros. by apply mul_ok. Qed.

Lemma limit_fits resource limit n : n ≤ limit → Limits.check_limit resource limit (Some n) = Ok tt.
Proof. by rewrite limit_ok. Qed.

(** Inverts one step of a reader whose cursor holds bytes ([Hc]). *)
Tactic Notation "take_u64" ident(v) ident(Hv) "from" hyp(H) hyp(Hc) :=
  let c := fresh "c" in
  apply bind_ok in H as ([v c] & [-> Hv]%cursor_u64_ok & H); [apply Forall_app in Hc as [_ Hc]|exact Hc].
Tactic Notation "take_u32" ident(v) ident(Hv) "from" hyp(H) hyp(Hc) :=
  let c := fresh "c" in
  apply bind_ok in H as ([v c] & [-> Hv]%cursor_u32_ok & H); [apply Forall_app in Hc as [_ Hc]|exact Hc].
Tactic Notation "take_digest" ident(d) ident(Hd) "from" hyp(H) hyp(Hc) :=
  let c := fresh "c" in
  apply bind_ok in H as ([d c] & [-> Hd]%cursor_digest_ok & H); apply Forall_app in Hc as [_ Hc].

(** Runs such steps forwards. *)
Ltac put_fields := repeat first
  [ rewrite cursor_u64 by lia; rewrite Ok_bind | rewrite cursor_u32 by lia; rewrite Ok_bind
  | rewrite cursor_digest by done; rewrite Ok_bind | rewrite cursor_take_le by done; rewrite Ok_bind ].
