(* ===== verification/WeightReader.v ===== *)
(** * reader.rs of model-weights: opening and reading a weight file

    The contents of the file are an argument, as they are when the code reads them: each read
    sees the file as it is then. [open_format] is the format of the container: the reader
    opens exactly the files that are laid out this way. [read_block_spec] says what reading a
    block gives. *)
From S2P Require Import Prelude Terms Encoding Exact Certified Text Bytes Stream WeightLimits WeightMetadata WeightFormat.
#[local] Open Scope Z_scope.

Definition hash `{Sha256} (bytes : list Z) (expected : Digest) (scope : IntegrityScope) : Result Error unit :=
  let actual := sha256 bytes in
  if bool_decide (expected = actual) then Ok tt else Err (Integrity scope expected actual).

Record WeightReader : Set := mkReader {
  reader_limits : ReadLimits; summary : FileSummary; metadata : ModelMetadata;
  tensors : list TensorInfo; blocks : list BlockInfo;
}.

Module Reader.
Import Cursor.

(** ** The header *)

(** What [open] takes from the header: the summary and the offsets of the sections. *)
Record Fields : Set := mkFields {
  fields_summary : FileSummary; metadata_offset : Z; tensors_offset : Z; blocks_offset : Z; payload_offset : Z;
}.

Definition supported (kind : UnsupportedKind) (value wanted : Z) : Result Error unit :=
  if value =? wanted then Ok tt else Err (Unsupported kind value).

Definition read_header `{Sha256} (limits : ReadLimits) (header : list Z) (length : Z) : Result Error Fields :=
  '(magic, c) ← take 8 header;
  if negb (bool_decide (magic = MAGIC)) then format Magic else
  '(version, c) ← take 2 c; let version := le_value version in
  '(endian, c) ← take 1 c; let endian := le_value endian in
  '(basis, c) ← take 1 c; let basis := le_value basis in
  _ ← supported Version version 1; _ ← supported Endian endian 1; _ ← supported Basis basis 2;
  '(header_bytes, c) ← u32 c;
  if negb (header_bytes =? 256) then format HeaderLength else
  '(flags, c) ← u64 c;
  _ ← supported Flags flags 0;
  '(file_bytes, c) ← u64 c;
  if negb (file_bytes =? length) then format FileLength else
  '(tensor_count, c) ← u64 c;
  '(block_count, c) ← u64 c;
  _ ← Limits.check_limit MaxTensors (max_tensors limits) (Some tensor_count);
  _ ← Limits.check_limit MaxBlocks (max_blocks limits) (Some block_count);
  if (tensor_count =? 0) || (block_count =? 0) then format BlockCoverage else
  '(metadata_offset, c) ← u64 c; '(metadata_bytes, c) ← u64 c;
  '(tensors_offset, c) ← u64 c; '(tensors_bytes, c) ← u64 c;
  '(blocks_offset, c) ← u64 c; '(blocks_bytes, c) ← u64 c;
  '(payload_offset, c) ← u64 c; '(payload_bytes, c) ← u64 c;
  '(source_sha256, c) ← digest c; '(catalog_sha256, c) ← digest c; '(header_sha256, c) ← digest c;
  '(reserved, _) ← take 48 c;
  if existsb (λ b, negb (b =? 0)) reserved then format Reserved else
  _ ← hash (list.take 176 header ++ replicate 32 0 ++ list.drop 208 header) header_sha256 HeaderScope;
  _ ← Limits.check_limit MaxMetadataBytes (max_metadata_bytes limits) (Some metadata_bytes);
  index ← add tensors_bytes blocks_bytes;
  _ ← Limits.check_limit MaxIndexBytes (max_index_bytes limits) (Some index);
  Ok (mkFields
    (mkSummary version basis file_bytes metadata_bytes tensors_bytes blocks_bytes payload_bytes
      tensor_count block_count source_sha256 catalog_sha256)
    metadata_offset tensors_offset blocks_offset payload_offset).

(** A condition that returns early; [orelse] evaluates its next test only if it has to. *)
Definition orelse (a : bool) (b : Result Error bool) : Result Error bool := if a then Ok true else b.

Definition check_layout (f : Fields) : Result Error unit :=
  let s := fields_summary f in
  bad ← orelse (negb (metadata_offset f =? HEADER_BYTES))
    (n ← add (metadata_offset f) (metadata_bytes s); orelse (negb (tensors_offset f =? n))
    (n ← add (tensors_offset f) (tensors_bytes s); orelse (negb (blocks_offset f =? n))
    (n ← mul (summary_blocks s) BLOCK_RECORD_BYTES; orelse (negb (blocks_bytes s =? n))
    (n ← add (blocks_offset f) (blocks_bytes s); orelse (negb (payload_offset f =? n))
    (n ← add (payload_offset f) (payload_bytes s); orelse (negb (file_bytes s =? n))
    (n ← mul (summary_tensors s) 49; Ok (tensors_bytes s <? n)))))));
  if bad : bool then format SectionLayout else Ok tt.

(** ** The catalog *)

Record TensorState : Set := mkTensorState {
  cursor : list Z; read_tensors : list TensorInfo; names : list string; next_block : Z; total_terms : Z;
}.

Definition read_dimension (_ : Z) (state : list Z * Z * list Z) : Result Error (list Z * Z * list Z) :=
  let '(c, product, dimensions) := state in
  '(dim, c) ← u64 c;
  if dim =? 0 then format TensorShape else
  product ← mul product dim;
  Ok (c, product, dimensions ++ [dim]).

Definition contains_nul (s : string) : bool := Decode.contains_nul s.

Definition read_tensor (limits : ReadLimits) (tensor_blocks : Z) (id : Z) (s : TensorState) : Result Error TensorState :=
  '(name_bytes, t) ← u32 (cursor s);
  '(rank, t) ← u32 t;
  '(dtype, t) ← u32 t; source_dtype ← Types.try_from dtype;
  '(reserved, t) ← u32 t;
  if negb (reserved =? 0) then format Reserved else
  '(element_count, t) ← u64 t;
  '(first_block, t) ← u64 t;
  '(count, t) ← u64 t;
  _ ← Limits.check_limit MaxNameBytes (max_name_bytes limits) (Some name_bytes);
  if negb ((1 <=? rank) && (rank <=? 4)) || (name_bytes =? 0) then format TensorShape else
  '(t, product, dimensions) ← for_each read_dimension (seqZ 0 rank) (t, 1, []);
  if negb (product =? element_count) then format TensorShape else
  '(name, t) ← take name_bytes t;
  if negb (Utf8.from_utf8 name) then format TensorShape else
  let name := string_of name in
  if contains_nul name || bool_decide (name ∈ names s) then format DuplicateTensor else
  if (count =? 0) || negb (first_block =? next_block s) then format BlockCoverage else
  next_block ← add (next_block s) count;
  if tensor_blocks <? next_block then format BlockCoverage else
  total_terms ← add (total_terms s) element_count;
  _ ← Limits.check_limit MaxTotalTerms (max_total_terms limits) (Some total_terms);
  Ok (mkTensorState t
    (read_tensors s ++ [mkTensor id name dimensions source_dtype element_count first_block count])
    (name :: names s) next_block total_terms).

Record BlockState : Set := mkBlockState { block_cursor : list Z; read_blocks : list BlockInfo; next_offset : Z; next_element : Z }.

(** [useful_bits / 8] rounded up. *)
Definition byte_length (useful_bits : Z) : Result Error Z :=
  add (useful_bits / 8) (if negb (useful_bits `mod` 8 =? 0) then 1 else 0).

Definition read_block_record (limits : ReadLimits) (metadata : ModelMetadata) (file_bytes : Z) (tensor : TensorInfo)
    (_ : Z) (s : BlockState) : Result Error BlockState :=
  let id := Z.of_nat (length (read_blocks s)) in
  '(tensor_id', b) ← u64 (block_cursor s);
  '(first, b) ← u64 b;
  '(term_count, b) ← u64 b;
  '(offset, b) ← u64 b;
  '(data_bytes, b) ← u64 b;
  '(useful_bits, b) ← u64 b;
  '(digest, b) ← digest b;
  _ ← Limits.check_limit MaxBlockTerms (Z.min (max_block_terms limits) (conversion_block_terms (metadata_limits metadata))) (Some term_count);
  _ ← Limits.check_limit MaxBlockBytes (Z.min (max_block_bytes limits) (conversion_block_bytes (metadata_limits metadata))) (Some data_bytes);
  expected_bytes ← (n ← byte_length useful_bits; add 24 n);
  if negb (tensor_id' =? tensor_id tensor) || negb (first =? next_element s) || (term_count =? 0) ||
     (useful_bits <? term_count) || negb (offset =? next_offset s) || negb (data_bytes =? expected_bytes)
  then format BlockCoverage else
  first_element ← add (next_element s) term_count;
  data_offset ← add (next_offset s) data_bytes;
  if (element_count tensor <? first_element) || (file_bytes <? data_offset) then format BlockCoverage else
  Ok (mkBlockState b (read_blocks s ++ [mkBlock id tensor_id' first term_count offset data_bytes useful_bits digest])
    data_offset first_element).

Definition read_tensor_blocks (limits : ReadLimits) (metadata : ModelMetadata) (file_bytes : Z) (tensor : TensorInfo)
    (s : BlockState) : Result Error BlockState :=
  s ← for_each (read_block_record limits metadata file_bytes tensor) (seqZ 0 (block_count tensor))
        (mkBlockState (block_cursor s) (read_blocks s) (next_offset s) 0);
  if negb (next_element s =? element_count tensor) then format BlockCoverage else Ok s.

Definition slice (l : list Z) (first last : Z) : list Z := list.take (Z.to_nat (last - first)) (list.drop (Z.to_nat first) l).

(** The contents are at least as long as the layout says, so [read_exact] does not fail. *)
Definition read_exact (file : list Z) (offset bytes : Z) : Result Error (list Z) :=
  if Z.of_nat (length file) <? offset + bytes then Err (Io IoRead) else Ok (slice file offset (offset + bytes)).

(** The catalog of an open file: its metadata, tensors and blocks. *)
Definition read_catalog `{JsonText} (limits : ReadLimits) (s : FileSummary) (payload_offset : Z) (catalog : list Z)
    : Result Error (ModelMetadata * list TensorInfo * list BlockInfo) :=
  tensor_end ← add (metadata_bytes s) (tensors_bytes s);
  metadata ← Decode.decode (slice catalog 0 (metadata_bytes s)) limits;
  _ ← Limits.check_limit MaxOutputBytes (max_output_bytes (metadata_limits metadata)) (Some (file_bytes s));
  t ← for_each (read_tensor limits (summary_blocks s)) (seqZ 0 (summary_tensors s))
        (mkTensorState (slice catalog (metadata_bytes s) tensor_end) [] [] 0 0);
  _ ← done (cursor t);
  if negb (next_block t =? summary_blocks s) then format BlockCoverage else
  b ← for_each (read_tensor_blocks limits metadata (file_bytes s)) (read_tensors t)
        (mkBlockState (list.drop (Z.to_nat tensor_end) catalog) [] payload_offset 0);
  _ ← done (block_cursor b);
  if negb (next_offset b =? file_bytes s) then format BlockCoverage else
  Ok (metadata, read_tensors t, read_blocks b).

Definition open `{Sha256} `{JsonText} (file : list Z) (limits : ReadLimits) : Result Error WeightReader :=
  _ ← Limits.validate limits;
  let length := Z.of_nat (length file) in
  _ ← Limits.check_limit MaxFileBytes (max_file_bytes limits) (Some length);
  if length <? HEADER_BYTES then format HeaderLength else
  header ← read_exact file 0 256;
  f ← read_header limits header length;
  _ ← check_layout f;
  let s := fields_summary f in
  catalog ← read_exact file HEADER_BYTES (payload_offset f - HEADER_BYTES);
  _ ← hash catalog (catalog_sha256 s) CatalogScope;
  '(metadata, tensors, blocks) ← read_catalog limits s (payload_offset f) catalog;
  Ok (mkReader limits s metadata tensors blocks).

(** ** Access *)

Definition tensor (self : WeightReader) (id : Z) : Result Error TensorInfo :=
  ok_or (Index TensorIndex id (summary_tensors (summary self))) (tensors self !! Z.to_nat id).
Definition find_tensor (self : WeightReader) (name : string) : option TensorInfo :=
  list_find (λ t, WeightLimits.name t = name) (tensors self) ≫= λ p, Some p.2.
Definition block_info (self : WeightReader) (id : Z) : Result Error BlockInfo :=
  ok_or (Index BlockIndex id (summary_blocks (summary self))) (blocks self !! Z.to_nat id).

(** Errors; [None] is a panic. *)
Definition checked {A} (m : Result Error A) : Result (option Error) A := map_err Some m.

(** A bit of the walk that bounds the trees, over the slots that are open, the bits of the
    tree and the complete trees. *)
Definition step_tree (max_bits : Z) (one : bool) (state : Z * Z * Z) : Result (option Error) (Z * Z * Z) :=
  let '(pending, tree_bits, terms) := state in
  let tree_bits := tree_bits + 1 in
  _ ← checked (Limits.check_limit MaxWeightBits max_bits (Some tree_bits));
  pending ← (if one then checked (add pending 1) else ok_or None (checked_sub pending 1));
  Ok (if pending =? 0 then (1, 0, terms + 1) else (pending, tree_bits, terms)).

Definition walk_bit (bytes : list Z) (max_bits : Z) (i : Z) (state : Z * Z * Z) : Result (option Error) (Z * Z * Z) :=
  byte ← ok_or None (bytes !! Z.to_nat (24 + i / 8));
  step_tree max_bits (negb (Z.land byte (Z.shiftl 1 (7 - i `mod` 8)) =? 0)) state.

(** [b"BMLS\x01\x02\0\0"]. *)
Definition block_magic : list Z := [66; 77; 76; 83; 1; 2; 0; 0].

(** Whether the header of the block is the one that the catalog promises; true if not. *)
Definition block_header (bytes : list Z) (info : BlockInfo) : Result Error bool :=
  '(magic, c) ← take 8 bytes; orelse (negb (bool_decide (magic = block_magic)))
  ('(count, c) ← u64 c; orelse (negb (count =? term_count info))
  ('(bits, _) ← u64 c; Ok (negb (bits =? useful_bits info)))).

Definition read_block `{Sha256} (self : WeightReader) (file : list Z) (id : Z) : Result (option Error) DecodedBlock :=
  info ← checked (block_info self id);
  if negb (Z.of_nat (length file) =? file_bytes (summary self)) then checked (format FileLength) else
  bytes ← checked (read_exact file (data_offset info) (data_bytes info));
  _ ← checked (hash bytes (WeightLimits.digest info) (BlockScope id));
  bad ← checked (block_header bytes info);
  if bad : bool then checked (format BlockHeader) else
  let max_bits := Z.min (max_weight_bits (reader_limits self)) (conversion_weight_bits (metadata_limits (metadata self))) in
  '(_, tree_bits, terms) ← for_each (walk_bit bytes max_bits) (seqZ 0 (useful_bits info)) (1, 0, 0);
  if negb (tree_bits =? 0) || negb (terms =? term_count info) then checked (Err (WeightLimits.Stream id StreamLength)) else
  terms ← checked (map_err (WeightLimits.Stream id)
    (Stream.decode_stream bytes
      (mkStreamLimits (useful_bits info) (term_count info)
        (Z.min (max_weight_depth (reader_limits self)) (conversion_weight_depth (metadata_limits (metadata self)))))));
  Ok (mkDecoded id (block_tensor info) (WeightLimits.first_element info) terms).

Definition verify_block `{Sha256} (self : WeightReader) (file : list Z) (index : Z) (report : VerificationReport)
    : Result (option Error) VerificationReport :=
  block ← read_block self file index;
  terms_checked ← checked (add (terms_checked report) (Z.of_nat (length (terms block))));
  info ← ok_or None (blocks self !! Z.to_nat index);
  bytes_checked ← checked (add (bytes_checked report) (data_bytes info));
  Ok (mkVerification (blocks_checked report + 1) terms_checked bytes_checked false).

Definition verify_all `{Sha256} (self : WeightReader) (file : list Z) : Result (option Error) VerificationReport :=
  report ← for_each (verify_block self file) (seqZ 0 (summary_blocks (summary self))) (mkVerification 0 0 0 false);
  Ok (mkVerification (blocks_checked report) (terms_checked report) (bytes_checked report) true).
End Reader.

(** ** What the catalog says *)

(** Pieces that follow each other. *)
Fixpoint chain {A} (start size : A → Z) (first : Z) (l : list A) (last : Z) : Prop :=
  match l with
  | [] => last = first
  | x :: l => start x = first ∧ chain start size (first + size x) l last
  end.

Definition sum {A} (f : A → Z) (l : list A) : Z := foldr (λ x n, f x + n) 0 l.
Definition product (l : list Z) : Z := foldr Z.mul 1 l.

Lemma sum_app {A} (f : A → Z) a b : sum f (a ++ b) = sum f a + sum f b.
Proof. induction a as [|x a IH]; cbn [sum foldr app]; [done|]. fold (sum f (a ++ b)) (sum f a). lia. Qed.

Lemma sum_snoc {A} (f : A → Z) a x : sum f (a ++ [x]) = sum f a + f x.
Proof. rewrite sum_app. cbn. lia. Qed.

Lemma sum_nonneg {A} (f : A → Z) l : Forall (λ x, 0 ≤ f x) l → 0 ≤ sum f l.
Proof. induction 1 as [|x l Hx _ IH]; cbn [sum foldr]; [done|]. fold (sum f l). lia. Qed.

Lemma chain_app {A} (start size : A → Z) a b first last :
  chain start size first (a ++ b) last ↔ chain start size first a (first + sum size a) ∧ chain start size (first + sum size a) b last.
Proof.
  revert first. induction a as [|x a IH]; intros first; cbn [chain app sum foldr].
  - rewrite Z.add_0_r. by split; [|intros [_ ?]].
  - rewrite IH. fold (sum size a). rewrite Z.add_assoc. tauto.
Qed.

Lemma chain_last {A} (start size : A → Z) l first last : chain start size first l last → last = first + sum size l.
Proof.
  revert first. induction l as [|x l IH]; intros first; cbn [chain sum foldr]; [lia|]. fold (sum size l).
  intros [_ H%IH]. lia.
Qed.

Lemma chain_snoc {A} (start size : A → Z) l x first :
  chain start size first (l ++ [x]) (first + sum size (l ++ [x])) ↔
  chain start size first l (first + sum size l) ∧ start x = first + sum size l.
Proof. rewrite chain_app, sum_snoc. cbn [chain]. split; [tauto|intros [? ?]; split_and!; [done..|lia]]. Qed.

(** A piece of the chain lies inside it. *)
Lemma chain_lookup {A} (start size : A → Z) l first last i x : Forall (λ x, 0 ≤ size x) l →
  chain start size first l last → l !! i = Some x → first ≤ start x ∧ start x + size x ≤ last.
Proof.
  intros Hs. revert first i. induction Hs as [|y l Hy Hs IH]; intros first i; [done|]. cbn [chain]. intros [<- Hc].
  destruct i as [|i]; cbn [lookup].
  - intros [= ->]. apply chain_last in Hc. pose proof (sum_nonneg size l Hs). lia.
  - intros Hi. destruct (IH _ _ Hc Hi). lia.
Qed.

Lemma seqZ_snoc n : seqZ 0 (Z.of_nat (S n)) = seqZ 0 (Z.of_nat n) ++ [Z.of_nat n].
Proof. replace (Z.of_nat (S n)) with (Z.of_nat n + 1) by lia. rewrite seqZ_app by lia. reflexivity. Qed.

Lemma product_pos l : Forall (λ d, 0 < d) l → 0 < product l.
Proof. induction 1 as [|d l Hd _ IH]; cbn; [done|]. fold (product l). nia. Qed.

(** ** Tensor records *)

Section tensors.
Context (limits : ReadLimits).

Record tensor_entry (t : TensorInfo) : Prop := mk_tensor_entry {
  entry_name : name t ≠ "" ∧ len (name t) ≤ max_name_bytes limits ∧ len (name t) < 2 ^ 32;
  entry_text : Utf8.from_utf8 (bytes_of (name t)) = true ∧ Reader.contains_nul (name t) = false;
  entry_rank : 1 ≤ Z.of_nat (length (ggml_dimensions t)) ≤ 4;
  entry_shape : Forall (λ d, 0 < d) (ggml_dimensions t) ∧ element_count t = product (ggml_dimensions t) ∧ element_count t < W64;
  entry_blocks : 0 < block_count t;
}.

Lemma read_dimension_ok i c p ds c' p' ds' : Forall u8 c → 0 < p →
  Reader.read_dimension i (c, p, ds) = Ok (c', p', ds') ↔
  ∃ d, c = le_bytes 8 d ++ c' ∧ 0 < d ∧ p' = p * d ∧ p * d < W64 ∧ ds' = ds ++ [d].
Proof.
  intros Hc Hp. unfold Reader.read_dimension. split.
  - intros ([d c1] & [-> Hd]%cursor_u64_ok & H)%bind_ok; [|done]. destruct (Z.eqb_spec d 0); [done|].
    apply bind_ok in H as (q & [-> Hq]%mul_ok & [= <- <- <-]). exists d. split_and!; (done || lia).
  - intros (d & -> & Hd & -> & Hq & ->). rewrite cursor_u64 by nia. rewrite Ok_bind. destruct (Z.eqb_spec d 0); [lia|].
    by rewrite mul_fits.
Qed.

Lemma read_dimensions_ok l c p ds c' p' ds' : Forall u8 c → 0 < p < W64 →
  for_each Reader.read_dimension l (c, p, ds) = Ok (c', p', ds') ↔
  ∃ dims, length dims = length l ∧ c = concat (le_bytes 8 <$> dims) ++ c' ∧ Forall (λ d, 0 < d) dims ∧
    p' = p * product dims ∧ p' < W64 ∧ ds' = ds ++ dims.
Proof.
  revert c p ds. induction l as [|i l IH]; intros c p ds Hc Hp; cbn [for_each].
  { split; [intros [= <- <- <-]; exists []; cbn; rewrite app_nil_r; split_and!; (done || lia)|].
    intros (dims & Hl & Hd). destruct dims; [|done]. cbn in Hd. destruct Hd as (-> & _ & -> & _ & ->).
    by rewrite app_nil_r, Z.mul_1_r. }
  rewrite bind_ok. split.
  - intros ([[c1 p1] ds1] & (d & -> & Hd & -> & Hq & ->)%read_dimension_ok & H); [|done|lia].
    apply Forall_app in Hc as [_ Hc]. apply IH in H as (dims & Hl & -> & Hpos & -> & Hlt & ->); [|done|nia].
    exists (d :: dims). cbn. rewrite <-!app_assoc. fold (product dims). split_and!; [lia|done|by constructor|lia|done..].
  - intros (dims & Hl & -> & Hpos & -> & Hlt & ->). destruct dims as [|d dims]; [done|].
    apply Forall_cons in Hpos as [Hd Hpos]. pose proof (product_pos dims Hpos). cbn [product foldr] in *. fold (product dims) in *.
    assert (p * d < W64) by nia. cbn [fmap list_fmap concat] in *. rewrite <-app_assoc in *.
    exists (concat (le_bytes 8 <$> dims) ++ c', p * d, ds ++ [d]).
    split; [apply read_dimension_ok; [done|lia|]; by exists d|].
    apply Forall_app in Hc as [_ Hc]. apply IH; [done|nia|]. exists dims. rewrite <-app_assoc. split_and!; [by injection Hl|done..|lia|lia|done].
Qed.

(** The state after some tensors. *)
Definition tensor_state (c : list Z) (ts : list TensorInfo) : Reader.TensorState :=
  Reader.mkTensorState c ts (reverse (name <$> ts)) (sum block_count ts) (sum element_count ts).

(** A tensor that may follow others. *)
Definition next_tensor (nb : Z) (ts : list TensorInfo) (t : TensorInfo) : Prop :=
  tensor_entry t ∧ tensor_id t = Z.of_nat (length ts) ∧ (name t ∉ name <$> ts) ∧ first_block t = sum block_count ts ∧
  sum block_count ts + block_count t ≤ nb ∧
  sum element_count ts + element_count t ≤ max_total_terms limits ∧ sum element_count ts + element_count t < W64.

Lemma len_zero s : len s = 0 ↔ s = ""%string.
Proof. unfold len. destruct s; cbn; split; intros; try done; lia. Qed.

Lemma len_nonneg s : 0 ≤ len s.
Proof. unfold len. lia. Qed.

Lemma dtype_range d : 0 ≤ Types.from d < 2 ^ 32.
Proof. by destruct d. Qed.

Lemma name_used s (ts : list TensorInfo) : bool_decide (s ∈ reverse (name <$> ts)) = bool_decide (s ∈ name <$> ts).
Proof. apply bool_decide_ext, elem_of_reverse. Qed.

Lemma tensor_state_snoc rest ts t :
  tensor_state rest (ts ++ [t]) = Reader.mkTensorState rest (ts ++ [t]) (name t :: reverse (name <$> ts))
    (sum block_count ts + block_count t) (sum element_count ts + element_count t).
Proof. unfold tensor_state. by rewrite !sum_snoc, fmap_app, reverse_app. Qed.

Lemma dims_bytes dims : Forall u8 (concat (le_bytes 8 <$> dims)).
Proof. apply Forall_concat, Forall_fmap, Forall_true. intros; apply le_bytes_ok. Qed.

Lemma read_dimensions_fits dims l rest : length dims = length l → Forall (λ d, 0 < d) dims → product dims < W64 → Forall u8 rest →
  for_each Reader.read_dimension l (concat (le_bytes 8 <$> dims) ++ rest, 1, []) = Ok (rest, product dims, dims).
Proof.
  intros Hl Hd Hp Hr. apply read_dimensions_ok; [apply Forall_app; split; [apply dims_bytes|done]|lia|].
  exists dims. split_and!; (done || lia).
Qed.

Lemma read_tensor_fits nb ts t rest : nb < W64 → 0 ≤ sum block_count ts → next_tensor nb ts t →
  Forall u8 rest →
  Reader.read_tensor limits nb (Z.of_nat (length ts)) (tensor_state (Layout.tensor_record t ++ rest) ts) = Ok (tensor_state rest (ts ++ [t])).
Proof.
  intros Hnb Hsum ([(Hn1 & Hn2 & Hn3) [Hu Hnul] Hr (Hd & He & Hw) Hb] & Hid & Hnew & Hf & Hnb2 & Htot & Htw) Hrest.
  pose proof (product_pos _ Hd) as Hpp. pose proof (len_nonneg (name t)). pose proof (dtype_range (source_dtype t)).
  assert (len (name t) ≠ 0) as Hl1 by (by rewrite len_zero).
  unfold Reader.read_tensor, tensor_state, Layout.tensor_record. cbn [Reader.cursor Reader.names Reader.next_block Reader.total_terms Reader.read_tensors].
  rewrite <-!app_assoc. put_fields. rewrite try_from_from, Ok_bind.
  put_fields. cbn [Z.eqb negb]. put_fields.
  rewrite limit_fits, Ok_bind by lia.
  rewrite !(proj2 (Z.leb_le _ _)) by lia. rewrite (proj2 (Z.eqb_neq (len _) _)) by done. cbn [negb andb orb].
  rewrite read_dimensions_fits; cycle 1; [rewrite length_seqZ; lia|done|lia|apply Forall_app; split; [apply bytes_of_u8|done]|].
  rewrite <-He.
  rewrite Ok_bind, Z.eqb_refl, <-length_bytes_of, cursor_take, Ok_bind, string_of_bytes, Hu, Hnul, name_used. cbn [negb orb].
  rewrite bool_decide_eq_false_2 by done. rewrite (proj2 (Z.eqb_neq (block_count t) _)), Hf, Z.eqb_refl by lia. cbn [negb orb].
  rewrite (add_fits (sum block_count ts)), Ok_bind by lia. rewrite (proj2 (Z.ltb_ge _ _)) by lia. rewrite add_fits, Ok_bind, limit_fits, Ok_bind by lia.
  fold (tensor_state rest (ts ++ [t])). rewrite tensor_state_snoc, <-Hid, <-Hf. by destruct t.
Qed.

Lemma read_tensor_ok nb ts c s' : Forall u8 c →
  Reader.read_tensor limits nb (Z.of_nat (length ts)) (tensor_state c ts) = Ok s' →
  ∃ t rest, c = Layout.tensor_record t ++ rest ∧ next_tensor nb ts t ∧ s' = tensor_state rest (ts ++ [t]).
Proof.
  intros Hc H. unfold Reader.read_tensor, tensor_state in H. cbn [Reader.cursor Reader.names Reader.next_block Reader.total_terms Reader.read_tensors] in H.
  take_u32 nl Hnl from H Hc.
  take_u32 rank Hrank from H Hc.
  take_u32 dt Hdt from H Hc.
  apply bind_ok in H as (d & ->%try_from_ok & H).
  take_u32 res Hres from H Hc.
  destruct (Z.eqb_spec res 0) as [->|]; [|done]. cbn [negb] in H.
  take_u64 ec Hec from H Hc.
  take_u64 fb Hfb from H Hc.
  take_u64 bc Hbc from H Hc.
  apply bind_unit in H as [Hlim%limit_ok H]. destruct (negb _ || _) eqn:Eb; [done|].
  apply orb_false_iff in Eb as [[Er1%Z.leb_le Er2%Z.leb_le]%negb_false_iff%andb_true_iff Enl%Z.eqb_neq].
  apply bind_ok in H as ([[c8 p] dims] & (ds & Hlen & -> & Hpos & -> & Hplt & ->)%read_dimensions_ok & H); [|done|lia].
  apply Forall_app in Hc as [_ Hc]. rewrite length_seqZ in Hlen. rewrite Z.mul_1_l in *.
  destruct (Z.eqb_spec (product ds) ec) as [<-|]; [|done]. cbn [negb app] in H.
  apply bind_ok in H as ([nm c9] & [-> Hnm]%cursor_take_ok & H); [|lia]. apply Forall_app in Hc as [Hnm8 Hc].
  destruct (Utf8.from_utf8 nm) eqn:Eu; [|done]. cbn [negb] in H. rewrite name_used in H.
  destruct (_ || _) eqn:En; [done|]. apply orb_false_iff in En as [En Ed%bool_decide_eq_false].
  destruct (_ || _) eqn:Ebc in H; [done|]. apply orb_false_iff in Ebc as [Ebc%Z.eqb_neq Ef%negb_false_iff%Z.eqb_eq].
  apply bind_ok in H as (nx & [-> Hnx]%add_ok & H). destruct (Z.ltb_spec nb (sum block_count ts + bc)); [done|].
  apply bind_ok in H as (tot & [-> Htot]%add_ok & H). apply bind_unit in H as [Hmax%limit_ok [= <-]].
  set (t := mkTensor (Z.of_nat (length ts)) (string_of nm) ds d (product ds) fb bc).
  exists t, c9. unfold next_tensor. rewrite tensor_state_snoc.
  pose proof (length_bytes_of (string_of nm)) as Hlen'. rewrite bytes_of_string in Hlen' by done.
  split. { unfold Layout.tensor_record. cbn [name ggml_dimensions source_dtype element_count first_block block_count t].
    rewrite bytes_of_string, <-!app_assoc by done. replace (len (string_of nm)) with nl by lia. replace (Z.of_nat (length ds)) with rank by lia. done. }
  split; [|done]. cbn [tensor_id name first_block block_count element_count t]. split_and!; try done.
  split; cbn [name ggml_dimensions element_count block_count t]; rewrite ?bytes_of_string by done; split_and?; try done; try lia.
  intros Hs%len_zero. lia.
Qed.

(** A catalog of tensors. *)
Record tensors_ok (nb : Z) (ts : list TensorInfo) : Prop := mk_tensors_ok {
  tensor_ids : tensor_id <$> ts = seqZ 0 (Z.of_nat (length ts));
  tensor_entries : Forall tensor_entry ts;
  tensor_names : NoDup (name <$> ts);
  tensor_ranges : chain first_block block_count 0 ts (sum block_count ts);
  tensor_blocks : sum block_count ts ≤ nb;
  tensor_terms : sum element_count ts ≤ max_total_terms limits ∧ sum element_count ts < W64;
}.

Lemma block_counts ts : Forall tensor_entry ts → 0 ≤ sum block_count ts.
Proof. intros H. apply sum_nonneg. eapply Forall_impl; [exact H|]. intros t [_ _ _ _ ?]. lia. Qed.

Lemma element_counts ts : Forall tensor_entry ts → 0 ≤ sum element_count ts.
Proof.
  intros H. apply sum_nonneg. eapply Forall_impl; [exact H|]. intros t [_ _ _ (Hd & -> & _) _]. pose proof (product_pos _ Hd). lia.
Qed.

Lemma tensors_ok_nil nb : 0 ≤ nb → 0 ≤ max_total_terms limits → tensors_ok nb [].
Proof. intros. split; cbn; try done. constructor. Qed.

Lemma tensors_ok_snoc nb ts t : tensors_ok nb (ts ++ [t]) ↔ tensors_ok nb ts ∧ next_tensor nb ts t.
Proof.
  assert (∀ x : Z, seqZ 0 (Z.of_nat (length (ts ++ [t]))) = seqZ 0 (Z.of_nat (length ts)) ++ [Z.of_nat (length ts)]) as Hs.
  { intros _. rewrite length_app. cbn [length]. rewrite Nat.add_1_r. apply seqZ_snoc. }
  specialize (Hs 0). unfold next_tensor. split.
  - intros [H1 H2 H3 H4 H5 H6]. rewrite Hs, fmap_app in H1. apply app_inj_2 in H1 as [H1 [= H1']]; [|done].
    apply Forall_app in H2 as [H2 [Ht _]%Forall_cons]. rewrite fmap_app in H3. apply NoDup_app in H3 as (H3 & H3' & _).
    apply (chain_snoc first_block block_count ts t 0) in H4 as [H4 H4']. rewrite sum_snoc in H5, H6.
    pose proof (block_counts ts H2). pose proof (entry_blocks _ Ht). destruct (entry_shape _ Ht) as (Hd & He & _). pose proof (product_pos _ Hd).
    split; [split; (done || lia)|]. split_and!; try (done || lia). intros Hin. apply (H3' _ Hin). by left.
  - intros [[H1 H2 H3 H4 H5 H6] (Ht & Hi & Hn & Hf & Hb & Ht1 & Ht2)]. split; rewrite ?sum_snoc.
    + by rewrite Hs, fmap_app, H1, <-Hi.
    + apply Forall_app. split; [done|by constructor].
    + rewrite fmap_app. apply NoDup_app. split; [done|]. split; [intros x Hx ->%list_elem_of_singleton; done|apply NoDup_singleton].
    + rewrite <-sum_snoc. apply (chain_snoc first_block block_count ts t 0). split; [done|lia].
    + done.
    + done.
Qed.

(** The loop over the tensors reads exactly the records of such catalogs. *)
Lemma read_tensors_ok nb n c s' : nb < W64 → 0 ≤ nb → 0 ≤ max_total_terms limits → Forall u8 c →
  for_each (Reader.read_tensor limits nb) (seqZ 0 (Z.of_nat n)) (tensor_state c []) = Ok s' ↔
  ∃ ts rest, length ts = n ∧ c = concat (Layout.tensor_record <$> ts) ++ rest ∧ tensors_ok nb ts ∧ s' = tensor_state rest ts.
Proof.
  intros Hnb Hnb0 Hmax Hc. revert s'. induction n as [|n IH]; intros s'.
  { split; [intros [= <-]; exists [], c; split_and!; (done || by apply tensors_ok_nil)|].
    intros (ts & rest & Hl & -> & _ & ->). by apply nil_length_inv in Hl as ->. }
  rewrite seqZ_snoc, for_each_app, bind_ok. cbn [for_each]. setoid_rewrite bind_ok. split.
  - intros (s & (ts & rest & <- & -> & Hts & ->)%IH & s1 & Hs & [= <-]). apply Forall_app in Hc as [_ Hc].
    apply read_tensor_ok in Hs as (t & rest' & -> & Hn & ->); [|done]. exists (ts ++ [t]), rest'.
    rewrite length_app, fmap_app, concat_app, <-app_assoc, tensors_ok_snoc. cbn. rewrite app_nil_r. split_and!; (done || lia).
  - intros (ts & rest & Hl & -> & Hts & ->). destruct ts as [|t ts _] using rev_ind; [done|].
    rewrite length_app in Hl. cbn in Hl. apply tensors_ok_snoc in Hts as [Hts Hn].
    rewrite fmap_app, concat_app, <-app_assoc in *. cbn [fmap list_fmap concat] in *. rewrite app_nil_r in *.
    exists (tensor_state (Layout.tensor_record t ++ rest) ts). split; [apply IH; exists ts, (Layout.tensor_record t ++ rest); split_and!; (done || lia)|].
    apply Forall_app in Hc as [_ [_ Hc]%Forall_app]. exists (tensor_state rest (ts ++ [t])). split; [|done].
    replace n with (length ts) by lia. apply read_tensor_fits; try done. by apply block_counts, (tensor_entries nb).
Qed.
End tensors.

(** ** Block records *)

Section blocks.
Context (limits : ReadLimits) (metadata : ModelMetadata) (file_bytes : Z).

Definition block_bytes (useful_bits : Z) : Z := 24 + (useful_bits + 7) / 8.

Record block_entry (b : BlockInfo) : Prop := mk_block_entry {
  entry_terms : 0 < term_count b ≤ useful_bits b ∧ useful_bits b < W64;
  entry_size : data_bytes b = block_bytes (useful_bits b);
  entry_limits : term_count b ≤ Z.min (max_block_terms limits) (conversion_block_terms (metadata_limits metadata)) ∧
    data_bytes b ≤ Z.min (max_block_bytes limits) (conversion_block_bytes (metadata_limits metadata));
  entry_digest : length (WeightLimits.digest b) = 32%nat;
}.

Lemma byte_length_ok useful_bits n : 0 ≤ useful_bits < W64 →
  (m ← Reader.byte_length useful_bits; Cursor.add 24 m) = Ok n ↔ n = block_bytes useful_bits.
Proof.
  intros Hu. unfold Reader.byte_length, block_bytes.
  assert (useful_bits / 8 + (if negb (useful_bits `mod` 8 =? 0) then 1 else 0) = (useful_bits + 7) / 8) as E.
  { destruct (Z.eqb_spec (useful_bits `mod` 8) 0); cbn [negb]; dlia. }
  assert (0 ≤ (useful_bits + 7) / 8 < 4611686018427387904) by (split; [apply Z.div_pos; lia|apply Z.div_lt_upper_bound; lia]).
  rewrite add_fits, Ok_bind, add_ok, E by (rewrite E; lia). split; [by intros []|]. intros ->. split; [done|]. lia.
Qed.

Definition block_state (c : list Z) (all : list BlockInfo) (first : Z) (bs : list BlockInfo) : Reader.BlockState :=
  Reader.mkBlockState c (all ++ bs) (first + sum data_bytes bs) (sum term_count bs).

(** A block that may follow others of a tensor. *)
Definition next_block (t : TensorInfo) (all : list BlockInfo) (first : Z) (bs : list BlockInfo) (b : BlockInfo) : Prop :=
  block_entry b ∧ block_id b = Z.of_nat (length (all ++ bs)) ∧ block_tensor b = tensor_id t ∧
  first_element b = sum term_count bs ∧ sum term_count bs + term_count b ≤ element_count t ∧
  data_offset b = first + sum data_bytes bs ∧ first + sum data_bytes bs + data_bytes b ≤ file_bytes.

Lemma read_block_record_fits t all first bs b rest i : file_bytes < W64 → element_count t < W64 → 0 ≤ first →
  0 ≤ tensor_id t < W64 → 0 ≤ sum term_count bs → 0 ≤ sum data_bytes bs → next_block t all first bs b →
  Reader.read_block_record limits metadata file_bytes t i (block_state (Layout.block_record b ++ rest) all first bs) =
    Ok (block_state rest all first (bs ++ [b])).
Proof.
  intros Hfb Hec Hf Hid Hterms Hdata ([[[Ht1 Ht2] Hu] Hs [Hl1 Hl2] Hd] & Hb1 & Hb2 & Hb3 & Hb4 & Hb5 & Hb6).
  assert (0 ≤ data_bytes b) by (rewrite Hs; unfold block_bytes; dlia).
  unfold Reader.read_block_record, block_state, Layout.block_record.
  cbn [Reader.block_cursor Reader.read_blocks Reader.next_offset Reader.next_element].
  rewrite <-!app_assoc. put_fields.
  rewrite limit_fits, Ok_bind, limit_fits, Ok_bind by done.
  rewrite (proj2 (byte_length_ok (useful_bits b) _ ltac:(lia)) eq_refl), Ok_bind. rewrite Hb2, Hb3, Hb5, <-Hs, !Z.eqb_refl. cbn [negb orb].
  rewrite (proj2 (Z.eqb_neq (term_count b) 0)), (proj2 (Z.ltb_ge (useful_bits b) (term_count b))) by lia. cbn [negb orb].
  rewrite (add_fits (sum term_count bs)), Ok_bind, add_fits, Ok_bind by lia. rewrite !(proj2 (Z.ltb_ge _ _)) by lia. cbn [orb].
  rewrite !sum_snoc, app_assoc, Z.add_assoc, <-Hb1, <-Hb2, <-Hb3, <-Hb5. by destruct b.
Qed.

Lemma read_block_record_ok t all first bs c i s' : Forall u8 c →
  Reader.read_block_record limits metadata file_bytes t i (block_state c all first bs) = Ok s' →
  ∃ b rest, c = Layout.block_record b ++ rest ∧ next_block t all first bs b ∧ s' = block_state rest all first (bs ++ [b]).
Proof.
  intros Hc H. unfold Reader.read_block_record, block_state in H.
  cbn [Reader.block_cursor Reader.read_blocks Reader.next_offset Reader.next_element] in H.
  take_u64 tid Htid from H Hc.
  take_u64 fe Hfe from H Hc.
  take_u64 tc Htc from H Hc.
  take_u64 off Hoff from H Hc.
  take_u64 db Hdb from H Hc.
  take_u64 ub Hub from H Hc.
  apply bind_ok in H as ([dg rest] & [-> Hdg]%cursor_digest_ok & H).
  apply bind_unit in H as [Hl1%limit_ok H]. apply bind_unit in H as [Hl2%limit_ok H].
  apply bind_ok in H as (n & ->%byte_length_ok & H); [|done].
  destruct (_ || _) eqn:Eb in H; [done|]. rewrite !orb_false_iff, !negb_false_iff, !Z.eqb_eq, Z.eqb_neq, Z.ltb_ge in Eb.
  destruct Eb as [[[[[-> ->] Htc0] Hle] ->] ->].
  apply bind_ok in H as (fe' & [-> Hfe']%add_ok & H). apply bind_ok in H as (off' & [-> Hoff']%add_ok & H).
  destruct (_ || _) eqn:Eb in H; [done|]. apply orb_false_iff in Eb as [Eb1%Z.ltb_ge Eb2%Z.ltb_ge]. injection H as <-.
  set (b := mkBlock (Z.of_nat (length (all ++ bs))) (tensor_id t) (sum term_count bs) tc (first + sum data_bytes bs) (block_bytes ub) ub dg).
  exists b, rest. split; [by unfold Layout.block_record; rewrite <-!app_assoc|].
  split; [|unfold block_state; rewrite !sum_snoc, app_assoc, Z.add_assoc; done].
  unfold next_block. cbn [block_id block_tensor first_element term_count data_offset data_bytes b]. split_and!; try done.
  split; cbn [term_count useful_bits data_bytes WeightLimits.digest b]; split_and?; try done; lia.
Qed.

(** The blocks of a tensor, the first of which has the given number and offset. *)
Record run (t : TensorInfo) (id first : Z) (bs : list BlockInfo) : Prop := mk_run {
  run_ids : block_id <$> bs = seqZ id (Z.of_nat (length bs));
  run_entries : Forall block_entry bs;
  run_tensor : Forall (λ b, block_tensor b = tensor_id t) bs;
  run_elements : chain first_element term_count 0 bs (sum term_count bs);
  run_offsets : chain data_offset data_bytes first bs (first + sum data_bytes bs);
  run_terms : sum term_count bs ≤ element_count t;
  run_bytes : first + sum data_bytes bs ≤ file_bytes;
}.

Lemma data_bytes_pos b : block_entry b → 24 < data_bytes b.
Proof. intros [[[? ?] ?] -> _ _]. unfold block_bytes. dlia. Qed.

Lemma run_sums bs : Forall block_entry bs → 0 ≤ sum term_count bs ∧ 0 ≤ sum data_bytes bs.
Proof.
  intros H. split; apply sum_nonneg; (eapply Forall_impl; [exact H|]); intros b Hb; [destruct Hb; lia|].
  pose proof (data_bytes_pos b Hb). lia.
Qed.

Lemma run_nil t id first : 0 ≤ element_count t → first ≤ file_bytes → run t id first [].
Proof. intros. split; cbn; try done; try constructor; lia. Qed.

Lemma seqZ_length_snoc {A} id (l : list A) x : seqZ id (Z.of_nat (length (l ++ [x]))) = seqZ id (Z.of_nat (length l)) ++ [id + Z.of_nat (length l)].
Proof. rewrite length_app. cbn [length]. replace (Z.of_nat (length l + 1)) with (Z.of_nat (length l) + 1) by lia. by rewrite seqZ_app by lia. Qed.

Lemma run_snoc t all first bs b :
  run t (Z.of_nat (length all)) first (bs ++ [b]) ↔ run t (Z.of_nat (length all)) first bs ∧ next_block t all first bs b.
Proof.
  unfold next_block. rewrite length_app, Nat2Z.inj_add. split.
  - intros [H1 H2 H3 H4 H5 H6 H7]. rewrite seqZ_length_snoc, fmap_app in H1. apply app_inj_2 in H1 as [H1 [= H1']]; [|done].
    apply Forall_app in H2 as [H2 [Hb _]%Forall_cons]. apply Forall_app in H3 as [H3 [Hb' _]%Forall_cons].
    apply (chain_snoc first_element term_count bs b 0) in H4 as [H4 H4'].
    apply (chain_snoc data_offset data_bytes bs b first) in H5 as [H5 H5'].
    rewrite sum_snoc in *. pose proof (data_bytes_pos b Hb). destruct (run_sums bs H2). destruct (entry_terms _ Hb).
    split; [split; (done || lia)|]. split_and!; (done || lia).
  - intros [[H1 H2 H3 H4 H5 H6 H7] (Hb & Hi & Ht & Hf & Hle & Ho & Hfb)]. split.
    + by rewrite seqZ_length_snoc, fmap_app, H1, <-Hi.
    + apply Forall_app. split; [done|by constructor].
    + apply Forall_app. split; [done|by constructor].
    + apply (chain_snoc first_element term_count bs b 0). split; [done|lia].
    + apply chain_snoc. done.
    + by rewrite sum_snoc.
    + rewrite sum_snoc. lia.
Qed.

Lemma read_run_ok t all first n c s' : file_bytes < W64 → 0 ≤ element_count t < W64 → 0 ≤ first ≤ file_bytes → 0 ≤ tensor_id t < W64 →
  Forall u8 c →
  for_each (Reader.read_block_record limits metadata file_bytes t) (seqZ 0 (Z.of_nat n)) (block_state c all first []) = Ok s' ↔
  ∃ bs rest, length bs = n ∧ c = concat (Layout.block_record <$> bs) ++ rest ∧ run t (Z.of_nat (length all)) first bs ∧
    s' = block_state rest all first bs.
Proof.
  intros Hfb Hec Hf Hid Hc. revert s'. induction n as [|n IH]; intros s'.
  { split; [intros [= <-]; exists [], c; split_and!; (done || by apply run_nil; lia)|].
    intros (bs & rest & Hl & -> & _ & ->). by apply nil_length_inv in Hl as ->. }
  rewrite seqZ_snoc, for_each_app, bind_ok. cbn [for_each]. setoid_rewrite bind_ok. split.
  - intros (s & (bs & rest & <- & -> & Hbs & ->)%IH & s1 & Hs & [= <-]). apply Forall_app in Hc as [_ Hc].
    apply read_block_record_ok in Hs as (b & rest' & -> & Hn & ->); [|done]. exists (bs ++ [b]), rest'.
    rewrite length_app, fmap_app, concat_app, <-app_assoc, run_snoc. cbn. rewrite app_nil_r. split_and!; (done || lia).
  - intros (bs & rest & Hl & -> & Hbs & ->). destruct bs as [|b bs _] using rev_ind; [done|].
    rewrite length_app in Hl. cbn in Hl. apply run_snoc in Hbs as [Hbs Hn]. pose proof (run_sums bs (run_entries _ _ _ _ Hbs)) as [H1 H2].
    rewrite fmap_app, concat_app, <-app_assoc in *. cbn [fmap list_fmap concat] in *. rewrite app_nil_r in *.
    exists (block_state (Layout.block_record b ++ rest) all first bs).
    split; [apply IH; exists bs, (Layout.block_record b ++ rest); split_and!; (done || lia)|].
    exists (block_state rest all first (bs ++ [b])). split; [|done]. by apply read_block_record_fits; try lia.
Qed.

(** The blocks of a catalog: those of each tensor, in order, give all of its elements. *)
Inductive blocks_ok (first : Z) : list TensorInfo → list BlockInfo → Prop :=
  | blocks_ok_nil : first ≤ file_bytes → blocks_ok first [] []
  | blocks_ok_snoc ts t all bs :
      blocks_ok first ts all → run t (Z.of_nat (length all)) (first + sum data_bytes all) bs →
      Z.of_nat (length bs) = block_count t → sum term_count bs = element_count t →
      blocks_ok first (ts ++ [t]) (all ++ bs).

Lemma blocks_ok_inv first ts t all : blocks_ok first (ts ++ [t]) all → ∃ old bs, all = old ++ bs ∧ blocks_ok first ts old ∧
  run t (Z.of_nat (length old)) (first + sum data_bytes old) bs ∧ Z.of_nat (length bs) = block_count t ∧
  sum term_count bs = element_count t.
Proof. inversion 1 as [Hts Hall|ts' t' old bs ? ? ? ? Hts Hall]; [by destruct ts|]. apply app_inj_2 in Hts as [-> [= ->]]; [|done]. by exists old, bs. Qed.

Lemma blocks_ok_bytes first ts bs : blocks_ok first ts bs → first + sum data_bytes bs ≤ file_bytes ∧ 0 ≤ sum data_bytes bs.
Proof.
  induction 1 as [H|ts t all bs _ [_ IH] Hr _ _]; [cbn; lia|]. destruct Hr as [_ He _ _ _ _ H]. rewrite sum_app.
  pose proof (run_sums bs He). lia.
Qed.

Lemma blocks_ok_ids first ts bs : blocks_ok first ts bs → block_id <$> bs = seqZ 0 (Z.of_nat (length bs)).
Proof.
  induction 1 as [|ts t all bs _ IH [Hi _ _ _ _ _ _] _ _]; [done|].
  rewrite fmap_app, IH, Hi, length_app, Nat2Z.inj_add, seqZ_app by lia. done.
Qed.

Lemma blocks_ok_entries first ts bs : blocks_ok first ts bs → Forall block_entry bs.
Proof. induction 1 as [|ts t all bs _ IH [_ He _ _ _ _ _] _ _]; [constructor|]. by apply Forall_app. Qed.

Lemma blocks_ok_offsets first ts bs : blocks_ok first ts bs → chain data_offset data_bytes first bs (first + sum data_bytes bs).
Proof.
  induction 1 as [|ts t all bs _ IH [_ _ _ _ Ho _ _] _ _]; [cbn; lia|]. rewrite sum_app. apply chain_app. split; [done|].
  by rewrite Z.add_assoc.
Qed.

Lemma blocks_ok_count first ts bs : blocks_ok first ts bs → Z.of_nat (length bs) = sum block_count ts.
Proof. induction 1 as [|ts t all bs _ IH _ Hl _]; [done|]. rewrite length_app, sum_snoc. lia. Qed.

(** The state after the blocks of some tensors. *)
Definition tensor_blocks_state (c : list Z) (first : Z) (ts : list TensorInfo) (bs : list BlockInfo) : Reader.BlockState :=
  Reader.mkBlockState c bs (first + sum data_bytes bs) (match last ts with Some t => element_count t | None => 0 end).

Lemma read_tensor_blocks_ok first ts t bs c s' : file_bytes < W64 → 0 ≤ first → 0 ≤ element_count t < W64 → 0 ≤ tensor_id t < W64 →
  0 ≤ block_count t → Forall u8 c → blocks_ok first ts bs →
  Reader.read_tensor_blocks limits metadata file_bytes t (tensor_blocks_state c first ts bs) = Ok s' ↔
  ∃ new rest, c = concat (Layout.block_record <$> new) ++ rest ∧ s' = tensor_blocks_state rest first (ts ++ [t]) (bs ++ new) ∧
    run t (Z.of_nat (length bs)) (first + sum data_bytes bs) new ∧ Z.of_nat (length new) = block_count t ∧
    sum term_count new = element_count t.
Proof.
  intros Hfb Hf He Hid Hb Hc Hbs. pose proof (blocks_ok_bytes _ _ _ Hbs) as [Hsum Hsum0]. unfold Reader.read_tensor_blocks, tensor_blocks_state.
  cbn [Reader.block_cursor Reader.read_blocks Reader.next_offset]. rewrite last_snoc.
  replace (Reader.mkBlockState c bs (first + sum data_bytes bs) 0) with (block_state c bs (first + sum data_bytes bs) [])
    by (unfold block_state; cbn; by rewrite app_nil_r, Z.add_0_r).
  replace (block_count t) with (Z.of_nat (Z.to_nat (block_count t))) at 1 by lia. rewrite bind_ok. setoid_rewrite read_run_ok; [|done|done|lia|done|done].
  split.
  - intros (s & (new & rest & Hl & -> & Hr & ->) & H). unfold block_state in H. cbn [Reader.next_element] in H.
    destruct (Z.eqb_spec (sum term_count new) (element_count t)); [|done]. injection H as <-. exists new, rest.
    rewrite sum_app, Z.add_assoc. split_and!; try done; [congruence|lia].
  - intros (new & rest & -> & -> & Hr & Hl & Hs). exists (block_state rest bs (first + sum data_bytes bs) new).
    split; [exists new, rest; split_and!; (done || lia)|]. unfold block_state. cbn [Reader.next_element].
    rewrite Hs, Z.eqb_refl. cbn [negb]. by rewrite sum_app, Z.add_assoc.
Qed.

Lemma read_blocks_ok first ts c s' : file_bytes < W64 → 0 ≤ first ≤ file_bytes → Forall u8 c →
  Forall (λ t, 0 ≤ element_count t < W64 ∧ 0 ≤ tensor_id t < W64 ∧ 0 ≤ block_count t) ts →
  for_each (Reader.read_tensor_blocks limits metadata file_bytes) ts (Reader.mkBlockState c [] first 0) = Ok s' ↔
  ∃ bs rest, c = concat (Layout.block_record <$> bs) ++ rest ∧ blocks_ok first ts bs ∧ s' = tensor_blocks_state rest first ts bs.
Proof.
  intros Hfb Hf Hc Hts. revert s'. induction ts as [|t ts IH] using rev_ind; intros s'.
  { unfold tensor_blocks_state. cbn [for_each last]. split.
    - intros [= <-]. exists [], c. cbn. rewrite Z.add_0_r. split_and!; (done || constructor; lia).
    - intros (bs & rest & -> & Hbs & ->). inversion Hbs as [|ts' ? ? ? ? ? ? ? Hts']; [|by destruct ts']. cbn. by rewrite Z.add_0_r. }
  apply Forall_app in Hts as [Hts [(Ht1 & Ht2 & Ht3) _]%Forall_cons]. specialize (IH Hts).
  rewrite for_each_app, bind_ok. cbn [for_each]. setoid_rewrite bind_ok. split.
  - intros (s & (bs & rest & -> & Hbs & ->)%IH & s1 & Hs & [= <-]). apply Forall_app in Hc as [_ Hc].
    apply read_tensor_blocks_ok in Hs as (new & rest' & -> & -> & Hr & Hl & He); try done; [|lia].
    exists (bs ++ new), rest'. rewrite fmap_app, concat_app, <-app_assoc. split_and!; [done|by constructor|done].
  - intros (bs & rest & -> & Hbs & ->). apply blocks_ok_inv in Hbs as (old & new & -> & Hold & Hr & Hl & He).
    rewrite fmap_app, concat_app, <-app_assoc in *.
    exists (tensor_blocks_state (concat (Layout.block_record <$> new) ++ rest) first ts old). split; [apply IH; by exists old, (concat (Layout.block_record <$> new) ++ rest)|].
    exists (tensor_blocks_state rest first (ts ++ [t]) (old ++ new)). split; [|done]. apply Forall_app in Hc as [_ Hc].
    apply read_tensor_blocks_ok; try done; [lia|]. by exists new, rest.
Qed.
End blocks.

(** ** The header *)

Section header.
Context `{Sha256Laws} (limits : ReadLimits).

Definition fields_bytes (f : Reader.Fields) : list Z :=
  Layout.header_fields (Reader.fields_summary f) (Reader.metadata_offset f) (Reader.tensors_offset f) (Reader.blocks_offset f) (Reader.payload_offset f).

(** The header of some fields. *)
Definition header_bytes (f : Reader.Fields) : list Z :=
  fields_bytes f ++ sha256 (fields_bytes f ++ replicate 80 0) ++ replicate 48 0.

(** What the header itself is checked for. *)
Record header_ok (length_ : Z) (f : Reader.Fields) (s : FileSummary) : Prop := mk_header_ok {
  header_version : version s = 1 ∧ basis s = 2;
  header_length : file_bytes s = length_;
  header_tensors : 0 < summary_tensors s ≤ max_tensors limits;
  header_blocks : 0 < summary_blocks s ≤ max_blocks limits;
  header_digests : length (source_sha256 s) = 32%nat ∧ length (catalog_sha256 s) = 32%nat;
  header_metadata : metadata_bytes s ≤ max_metadata_bytes limits;
  header_index : tensors_bytes s + blocks_bytes s ≤ max_index_bytes limits ∧ tensors_bytes s + blocks_bytes s < W64;
  header_fits : Forall u64 [file_bytes s; summary_tensors s; summary_blocks s; metadata_bytes s; tensors_bytes s; blocks_bytes s; payload_bytes s;
    Reader.metadata_offset f; Reader.tensors_offset f; Reader.blocks_offset f; Reader.payload_offset f];
}.

Lemma hash_ok bytes expected scope u : hash bytes expected scope = Ok u ↔ expected = sha256 bytes.
Proof. destruct u. unfold hash. by case_bool_decide; split. Qed.

Lemma zero_bytes l : existsb (λ b, negb (b =? 0)) l = false ↔ l = replicate (length l) 0.
Proof.
  induction l as [|b l IH]; cbn; [done|]. rewrite orb_false_iff, negb_false_iff, Z.eqb_eq, IH.
  split; [intros [-> <-]; done|by intros [= -> <-]].
Qed.

Lemma length_fields f : length (source_sha256 (Reader.fields_summary f)) = 32%nat → length (catalog_sha256 (Reader.fields_summary f)) = 32%nat →
  length (fields_bytes f) = 176%nat.
Proof. intros H1 H2. unfold fields_bytes, Layout.header_fields. rewrite !length_app, !length_le_bytes, H1, H2. done. Qed.

(** The hashed bytes: the header with zeros in place of the digest. *)
Lemma hashed_bytes f d : length (fields_bytes f) = 176%nat → length d = 32%nat →
  list.take 176 (fields_bytes f ++ d ++ replicate 48 0) ++ replicate 32 0 ++ list.drop 208 (fields_bytes f ++ d ++ replicate 48 0) =
  fields_bytes f ++ replicate 80 0.
Proof.
  intros Hf Hd. rewrite take_app_length' by done.
  rewrite (app_assoc (fields_bytes f) d), drop_app_length' by (rewrite length_app; lia).
  by rewrite <-replicate_add.
Qed.

Lemma read_header_fits length_ f : header_ok length_ f (Reader.fields_summary f) →
  Reader.read_header limits (header_bytes f) length_ = Ok f.
Proof.
  intros [[Hv Hb] Hl Ht Hbl [Hs Hc] Hm [Hi Hiw] Hfit]. pose proof (length_fields f Hs Hc) as H176.
  destruct (sha256_bytes (fields_bytes f ++ replicate 80 0)) as [Hd _]. repeat (apply Forall_cons in Hfit as [? Hfit]). unfold u64 in *.
  remember (header_bytes f) as h eqn:E. set (d := sha256 (fields_bytes f ++ replicate 80 0)) in *.
  assert (hash (list.take 176 h ++ replicate 32 0 ++ list.drop 208 h) d HeaderScope = Ok tt) as Hh.
  { apply hash_ok. rewrite E. unfold header_bytes. by rewrite hashed_bytes. }
  unfold Reader.read_header. rewrite E at 1. unfold header_bytes. fold d. clearbody d. unfold fields_bytes, Layout.header_fields. rewrite <-!app_assoc.
  rewrite (proj2 (cursor_take_ok 8 _ MAGIC _ ltac:(lia))) by done. rewrite Ok_bind, bool_decide_eq_true_2 by done. cbn [negb].
  put_fields. rewrite Hv, Hb, !le_value_bytes by done. unfold Reader.supported. rewrite !Z.eqb_refl, !Ok_bind.
  put_fields. rewrite ?Z.eqb_refl. cbn [negb]. put_fields. rewrite ?Z.eqb_refl, ?Ok_bind. put_fields. rewrite Hl, Z.eqb_refl. cbn [negb]. put_fields.
  rewrite (limit_fits MaxTensors), Ok_bind, (limit_fits MaxBlocks), Ok_bind by lia. rewrite !(proj2 (Z.eqb_neq _ _)) by lia. cbn [orb]. put_fields.
  rewrite (proj2 (cursor_take_ok 48 _ (replicate 48 0) [] ltac:(lia))) by done. rewrite Ok_bind.
  rewrite (proj2 (zero_bytes (replicate 48 0))) by done. rewrite Hh, Ok_bind, (limit_fits MaxMetadataBytes), Ok_bind, add_fits, Ok_bind, limit_fits, Ok_bind by done.
  rewrite <-Hv, <-Hb, <-Hl. by destruct f as [[] ? ? ? ?].
Qed.

Lemma supported_ok kind value wanted u : Reader.supported kind value wanted = Ok u ↔ value = wanted.
Proof. destruct u. unfold Reader.supported. by destruct (Z.eqb_spec value wanted); split. Qed.

(** A field that [take] and [from_le_bytes] read. *)
Lemma cursor_small n k bytes x rest : Z.of_nat k = n → Forall u8 bytes → Cursor.take n bytes = Ok (x, rest) →
  bytes = le_bytes k (le_value x) ++ rest.
Proof. intros <- Hb Hx. apply (cursor_field k bytes (le_value x) rest Hb). by exists x. Qed.

Lemma read_header_ok length_ h f : length h = 256%nat → Forall u8 h → Reader.read_header limits h length_ = Ok f →
  h = header_bytes f ∧ header_ok length_ f (Reader.fields_summary f).
Proof.
  intros Hlen Hc0 R. pose proof Hc0 as Hc. unfold Reader.read_header in R.
  remember h as h0 eqn:Eh in R at 1 2. apply bind_ok in R as ([m c] & [-> Hm]%cursor_take_ok & R); [|lia]. apply Forall_app in Hc as [_ Hc].
  case_bool_decide as EM; cbn [negb] in R; [|done].
  apply bind_ok in R as ([v cv] & Ev & R). apply (cursor_small 2 2) in Ev as ->; [|done..]. apply Forall_app in Hc as [_ Hc].
  apply bind_ok in R as ([e ce] & Ee & R). apply (cursor_small 1 1) in Ee as ->; [|done..]. apply Forall_app in Hc as [_ Hc].
  apply bind_ok in R as ([b cb] & Eb & R). apply (cursor_small 1 1) in Eb as ->; [|done..]. apply Forall_app in Hc as [_ Hc].
  apply bind_unit in R as [Hv%supported_ok R]. apply bind_unit in R as [He%supported_ok R]. apply bind_unit in R as [Hb%supported_ok R].
  take_u32 hb Hhb from R Hc. destruct (Z.eqb_spec hb 256) as [->|]; cbn [negb] in R; [|done].
  take_u64 fl Hfl from R Hc. apply bind_unit in R as [->%supported_ok R].
  take_u64 fb Hfb from R Hc. destruct (Z.eqb_spec fb length_) as [->|]; cbn [negb] in R; [|done].
  take_u64 tc Htc from R Hc. take_u64 bc Hbc from R Hc.
  apply bind_unit in R as [Ht%limit_ok R]. apply bind_unit in R as [Hbl%limit_ok R].
  destruct (_ || _) eqn:E0 in R; [done|]. apply orb_false_iff in E0 as [Et%Z.eqb_neq Ebn%Z.eqb_neq].
  take_u64 mo Hmo from R Hc. take_u64 mb Hmb from R Hc. take_u64 tof Hto from R Hc. take_u64 tb Htb from R Hc.
  take_u64 bo Hbo from R Hc. take_u64 bb Hbb from R Hc. take_u64 po Hpo from R Hc. take_u64 pb Hpb from R Hc.
  take_digest s1 Hs1 from R Hc. take_digest s2 Hs2 from R Hc. take_digest s3 Hs3 from R Hc.
  apply bind_ok in R as ([res c'] & [-> Hres]%cursor_take_ok & R); [|lia].
  destruct (existsb _ res) eqn:Ez; [done|]. apply zero_bytes in Ez. replace (length res) with 48%nat in Ez by lia.
  apply bind_unit in R as [Hh%hash_ok R]. apply bind_unit in R as [Hmx%limit_ok R].
  apply bind_ok in R as (ix & [-> Hix]%add_ok & R). apply bind_unit in R as [Hi%limit_ok [= <-]].
  set (f := Reader.mkFields _ mo tof bo po). rewrite Hv, He, Hb, EM in *.
  assert (c' = []) as ->. { apply nil_length_inv. rewrite !length_app, !length_le_bytes in Hlen. change (length MAGIC) with 8%nat in Hlen. lia. }
  split; [|split; cbn; try done; try lia; rewrite !Forall_cons; by split_and!; try apply Forall_nil_2].
  assert (h0 = fields_bytes f ++ s3 ++ replicate 48 0) as E.
  { rewrite Eh, Ez. unfold fields_bytes, Layout.header_fields. cbn [f Reader.fields_summary Reader.metadata_offset Reader.tensors_offset Reader.blocks_offset Reader.payload_offset version basis
      file_bytes summary_tensors summary_blocks metadata_bytes tensors_bytes blocks_bytes payload_bytes source_sha256 catalog_sha256].
    by rewrite <-!app_assoc, app_nil_r, Hv, Hb. }
  rewrite <-Eh, E. unfold header_bytes. rewrite E, hashed_bytes in Hh by (done || by apply length_fields). by rewrite Hh.
Qed.
End header.

(** ** Sections *)

Lemma slice_app a b c first last : Z.of_nat (length a) = first → first + Z.of_nat (length b) = last → Reader.slice (a ++ b ++ c) first last = b.
Proof. intros <- <-. unfold Reader.slice. by rewrite drop_app_length', take_app_length' by lia. Qed.

Lemma slice_split l first last : 0 ≤ first ≤ last → last ≤ Z.of_nat (length l) →
  l = list.take (Z.to_nat first) l ++ Reader.slice l first last ++ list.drop (Z.to_nat last) l ∧
  Z.of_nat (length (Reader.slice l first last)) = last - first.
Proof.
  intros Hf Hl. unfold Reader.slice. split; [|rewrite length_take, length_drop; lia].
  replace (Z.to_nat last) with (Z.to_nat first + Z.to_nat (last - first))%nat by lia. by rewrite <-drop_drop, !take_drop.
Qed.

Lemma slice_bytes l first last : Forall u8 l → Forall u8 (Reader.slice l first last).
Proof. intros. by apply Forall_take, Forall_drop. Qed.

Lemma read_exact_ok file offset n bytes : Reader.read_exact file offset n = Ok bytes ↔
  bytes = Reader.slice file offset (offset + n) ∧ offset + n ≤ Z.of_nat (length file).
Proof. unfold Reader.read_exact. destruct (Z.ltb_spec (Z.of_nat (length file)) (offset + n)); split; [done|lia|by intros [= <-]|by intros [-> _]]. Qed.

Lemma orelse_ok a b : Reader.orelse a b = Ok false ↔ a = false ∧ b = Ok false.
Proof. destruct a; cbn; split; intros; destruct_and?; (done || by split). Qed.

Lemma unequal_ok a b : negb (a =? b) = false ↔ a = b.
Proof. by rewrite negb_false_iff, Z.eqb_eq. Qed.

(** The sections follow each other and fill the file. *)
Definition layout_ok (f : Reader.Fields) (s : FileSummary) : Prop :=
  Reader.metadata_offset f = 256 ∧ Reader.tensors_offset f = 256 + metadata_bytes s ∧
  Reader.blocks_offset f = 256 + metadata_bytes s + tensors_bytes s ∧ blocks_bytes s = summary_blocks s * 80 ∧
  Reader.payload_offset f = 256 + metadata_bytes s + tensors_bytes s + blocks_bytes s ∧
  file_bytes s = 256 + metadata_bytes s + tensors_bytes s + blocks_bytes s + payload_bytes s ∧
  summary_tensors s * 49 ≤ tensors_bytes s.

Lemma check_layout_ok f : let s := Reader.fields_summary f in
  Forall u64 [file_bytes s; metadata_bytes s; tensors_bytes s; blocks_bytes s; payload_bytes s] →
  Reader.check_layout f = Ok tt ↔ layout_ok f s.
Proof.
  intros s Hu. rewrite !Forall_cons in Hu. destruct Hu as (U1 & U2 & U3 & U4 & U5 & _). unfold u64 in *. unfold Reader.check_layout. fold s. split.
  - intros ([] & E & Hx)%bind_ok; [done|]. clear Hx. revert E. change HEADER_BYTES with 256. change BLOCK_RECORD_BYTES with 80.
    intros [H1%unequal_ok E]%orelse_ok. apply bind_ok in E as (n1 & [-> _]%add_ok & [H2%unequal_ok E]%orelse_ok).
    apply bind_ok in E as (n2 & [-> _]%add_ok & [H3%unequal_ok E]%orelse_ok).
    apply bind_ok in E as (n3 & [-> _]%mul_ok & [H4%unequal_ok E]%orelse_ok).
    apply bind_ok in E as (n4 & [-> _]%add_ok & [H5%unequal_ok E]%orelse_ok).
    apply bind_ok in E as (n5 & [-> _]%add_ok & [H6%unequal_ok E]%orelse_ok).
    apply bind_ok in E as (n6 & [-> _]%mul_ok & [= E%Z.ltb_ge]). unfold layout_ok. lia.
  - intros (H1 & H2 & H3 & H4 & H5 & H6 & H7). change HEADER_BYTES with 256. change BLOCK_RECORD_BYTES with 80.
    rewrite H1, Z.eqb_refl. cbn [negb Reader.orelse]. rewrite (add_fits 256), Ok_bind, H2, Z.eqb_refl by lia. cbn [negb Reader.orelse].
    rewrite (add_fits (256 + metadata_bytes s)), Ok_bind, H3, Z.eqb_refl by lia. cbn [negb Reader.orelse].
    rewrite (mul_fits (summary_blocks s)), Ok_bind, H4, Z.eqb_refl by lia. cbn [negb Reader.orelse]. rewrite <-H4.
    rewrite (add_fits (256 + metadata_bytes s + tensors_bytes s)), Ok_bind, H5, Z.eqb_refl by lia. cbn [negb Reader.orelse].
    rewrite (add_fits _ (payload_bytes s)), Ok_bind, H6, Z.eqb_refl by lia. cbn [negb Reader.orelse].
    rewrite mul_fits, Ok_bind, (proj2 (Z.ltb_ge _ _)) by lia. done.
Qed.

(** ** The format *)

Definition tensors_section (ts : list TensorInfo) : list Z := concat (Layout.tensor_record <$> ts).
Definition blocks_section (bs : list BlockInfo) : list Z := concat (Layout.block_record <$> bs).

(** A file with the given metadata and payload. *)
Record laid_out `{Sha256} `{JsonText} (limits : ReadLimits) (file text payload : list Z) (r : WeightReader) : Prop := mk_laid_out {
  laid_limits : read_limits_ok limits ∧ reader_limits r = limits;
  laid_file : ∃ h, Layout.header (summary r) = Ok h ∧
    file = h ++ (text ++ tensors_section (tensors r) ++ blocks_section (blocks r)) ++ payload;
  laid_metadata : Decode.decode text limits = Ok (metadata r);
  laid_summary : summary r = mkSummary 1 2 (Z.of_nat (length file)) (Z.of_nat (length text)) (Z.of_nat (length (tensors_section (tensors r))))
    (Z.of_nat (length (blocks_section (blocks r)))) (Z.of_nat (length payload)) (Z.of_nat (length (tensors r))) (Z.of_nat (length (blocks r)))
    (source_sha256 (summary r)) (sha256 (text ++ tensors_section (tensors r) ++ blocks_section (blocks r)));
  laid_source : length (source_sha256 (summary r)) = 32%nat;
  laid_sizes : Z.of_nat (length file) ≤ Z.min (max_file_bytes limits) (max_output_bytes (metadata_limits (metadata r))) ∧
    Z.of_nat (length text) ≤ max_metadata_bytes limits ∧
    Z.of_nat (length (tensors_section (tensors r))) + Z.of_nat (length (blocks_section (blocks r))) ≤ max_index_bytes limits;
  laid_counts : 0 < Z.of_nat (length (tensors r)) ≤ max_tensors limits ∧ Z.of_nat (length (blocks r)) ≤ max_blocks limits;
  laid_tensors : tensors_ok limits (Z.of_nat (length (blocks r))) (tensors r);
  laid_blocks : blocks_ok limits (metadata r) (Z.of_nat (length file)) (Z.of_nat (length file) - Z.of_nat (length payload)) (tensors r) (blocks r) ∧
    sum data_bytes (blocks r) = Z.of_nat (length payload);
}.

Lemma length_fields_8 l : Z.of_nat (length (concat (le_bytes 8 <$> l))) = 8 * Z.of_nat (length l).
Proof. induction l as [|n l IH]; [done|]. cbn [fmap list_fmap concat]. rewrite length_app, length_le_bytes. cbn [length]. lia. Qed.

Lemma length_tensor_record t : Z.of_nat (length (Layout.tensor_record t)) = 40 + (8 * Z.of_nat (length (ggml_dimensions t)) + len (name t)).
Proof.
  unfold Layout.tensor_record. rewrite !length_app, !length_le_bytes. pose proof (length_fields_8 (ggml_dimensions t)).
  pose proof (length_bytes_of (name t)). lia.
Qed.

Lemma tensors_section_long limits ts : Forall (tensor_entry limits) ts → 49 * Z.of_nat (length ts) ≤ Z.of_nat (length (tensors_section ts)).
Proof.
  unfold tensors_section. induction 1 as [|t ts [(Hn & _) _ Hr _ _] _ IH]; [done|]. cbn [fmap list_fmap concat length]. rewrite length_app, Nat2Z.inj_add, length_tensor_record.
  pose proof (len_nonneg (name t)). pose proof (len_zero (name t)). destruct (decide (len (name t) = 0)); [tauto|]. lia.
Qed.

Lemma length_blocks_section limits metadata bs : Forall (block_entry limits metadata) bs →
  Z.of_nat (length (blocks_section bs)) = 80 * Z.of_nat (length bs).
Proof.
  unfold blocks_section. induction 1 as [|b bs [_ _ _ Hd] _ IH]; [done|]. cbn [fmap list_fmap concat length].
  unfold Layout.block_record at 1. rewrite !length_app, !length_le_bytes, Hd. lia.
Qed.

Lemma tensors_ok_bounds limits nb ts : tensors_ok limits nb ts → Z.of_nat (length ts) ≤ W64 →
  Forall (λ t, 0 ≤ element_count t < W64 ∧ 0 ≤ tensor_id t < W64 ∧ 0 ≤ block_count t) ts.
Proof.
  intros [Hi He _ _ _ _] Hl. apply Forall_lookup_2. intros i t Ht. assert ((tensor_id <$> ts) !! i = Some (tensor_id t)) as Hid by (by rewrite list_lookup_fmap, Ht).
  rewrite Hi in Hid. apply lookup_seqZ in Hid as [-> Hlt]. eapply Forall_lookup_1 in He; [|done].
  destruct He as [_ _ _ (Hd & E & ?) ?]. pose proof (product_pos _ Hd). lia.
Qed.

Lemma tensors_have_blocks limits nb ts : tensors_ok limits nb ts → 0 < Z.of_nat (length ts) → 0 < sum block_count ts.
Proof.
  intros [_ He _ _ _ _] Hl. destruct ts as [|t ts]; [cbn in Hl; lia|]. apply Forall_cons in He as [[_ _ _ _ Hbc] He].
  pose proof (block_counts limits ts He). cbn [sum foldr]. fold (sum block_count ts). lia.
Qed.

(** The catalog between header and payload. *)
Section catalog.
Context {Text : JsonText} (limits : ReadLimits) (s : FileSummary) (catalog : list Z).
Context (Hlimits : read_limits_ok limits) (Hu : Forall u8 catalog) (Hfile : file_bytes s < W64).
Context (Hsizes : 0 ≤ metadata_bytes s ∧ 0 ≤ tensors_bytes s ∧ 0 ≤ blocks_bytes s ∧ 0 ≤ payload_bytes s).
Context (Hcounts : 0 ≤ summary_tensors s ≤ tensors_bytes s ∧ 0 ≤ summary_blocks s ≤ blocks_bytes s).
Context (Hlength : Z.of_nat (length catalog) = metadata_bytes s + tensors_bytes s + blocks_bytes s).
Context (Hlayout : file_bytes s = 256 + metadata_bytes s + tensors_bytes s + blocks_bytes s + payload_bytes s).

Definition payload_start : Z := 256 + metadata_bytes s + tensors_bytes s + blocks_bytes s.

(** What the sections of the catalog say. *)
Record catalog_ok (md : ModelMetadata) (ts : list TensorInfo) (bs : list BlockInfo) (text : list Z) : Prop := mk_catalog_ok {
  catalog_sections : catalog = text ++ tensors_section ts ++ blocks_section bs;
  catalog_lengths : Z.of_nat (length text) = metadata_bytes s ∧ Z.of_nat (length (tensors_section ts)) = tensors_bytes s;
  catalog_text : Decode.decode text limits = Ok md;
  catalog_output : file_bytes s ≤ max_output_bytes (metadata_limits md);
  catalog_tensors : tensors_ok limits (summary_blocks s) ts ∧ Z.of_nat (length ts) = summary_tensors s ∧ sum block_count ts = summary_blocks s;
  catalog_blocks : blocks_ok limits md (file_bytes s) payload_start ts bs ∧ payload_start + sum data_bytes bs = file_bytes s;
}.

Lemma read_catalog_inv md ts bs : Reader.read_catalog limits s payload_start catalog = Ok (md, ts, bs) → ∃ text, catalog_ok md ts bs text.
Proof.
  intros R. unfold Reader.read_catalog in R. apply bind_ok in R as (te & [-> _]%add_ok & R). apply bind_ok in R as (m & Hmd & R).
  apply bind_unit in R as [Hout%limit_ok R].
  destruct (slice_split catalog (metadata_bytes s) (metadata_bytes s + tensors_bytes s)) as [Ecat Htl]; [lia..|].
  set (text := list.take (Z.to_nat (metadata_bytes s)) catalog) in *.
  set (tsec := Reader.slice catalog (metadata_bytes s) (metadata_bytes s + tensors_bytes s)) in *.
  set (bsec := list.drop (Z.to_nat (metadata_bytes s + tensors_bytes s)) catalog) in *.
  assert (Reader.slice catalog 0 (metadata_bytes s) = text) as Et by (unfold Reader.slice, text; by rewrite Z.sub_0_r). rewrite Et in Hmd.
  assert (Forall u8 tsec ∧ Forall u8 bsec) as [Hut Hub] by (split; [by apply slice_bytes|by apply Forall_drop]).
  apply bind_ok in R as (t & Ht & R). replace (summary_tensors s) with (Z.of_nat (Z.to_nat (summary_tensors s))) in Ht by lia.
  change (Reader.mkTensorState tsec [] [] 0 0) with (tensor_state tsec []) in Ht. destruct Hlimits as [_ _ _ _ L5].
  apply read_tensors_ok in Ht as (ts' & rest & Hn & Ets & Hts & ->); [|lia..|done].
  apply bind_unit in R as [Hrest%cursor_done R]. cbn in Hrest. subst rest. cbn [Reader.next_block tensor_state] in R.
  destruct (Z.eqb_spec (sum block_count ts') (summary_blocks s)) as [Hsb|]; cbn [negb] in R; [|done].
  apply bind_ok in R as (b & Hb' & R). cbn [tensor_state Reader.read_tensors] in Hb'. unfold payload_start in *.
  apply read_blocks_ok in Hb' as (bs' & rest & Ebs & Hbs & ->); [|lia|lia|done|eapply tensors_ok_bounds; [done|lia]].
  apply bind_unit in R as [Hrest%cursor_done R]. cbn in Hrest. subst rest.
  cbn [tensor_blocks_state Reader.next_offset Reader.read_blocks Reader.read_tensors tensor_state] in R.
  destruct (Z.eqb_spec (256 + metadata_bytes s + tensors_bytes s + blocks_bytes s + sum data_bytes bs') (file_bytes s)) as [Hsum|]; cbn [negb] in R; [|done].
  injection R as <- <- <-. rewrite app_nil_r in Ets, Ebs. fold (tensors_section ts') in Ets. fold (blocks_section bs') in Ebs.
  exists text. split; rewrite <-?Ets, <-?Ebs; unfold payload_start; try done; split_and?; try done; [unfold text; rewrite length_take|..]; lia.
Qed.

Lemma read_catalog_fits md ts bs text : catalog_ok md ts bs text → Reader.read_catalog limits s payload_start catalog = Ok (md, ts, bs).
Proof.
  intros [Ecat [L1 L2] Hmd Hout (Ht & Hn & Hcount) [Hb Hp]]. set (tsec := tensors_section ts) in *. set (bsec := blocks_section bs) in *.
  assert (Forall u8 tsec ∧ Forall u8 bsec) as [Hut Hub] by (rewrite Ecat, !Forall_app in Hu; tauto).
  unfold Reader.read_catalog. rewrite add_fits, Ok_bind by lia. rewrite Ecat.
  rewrite (slice_app [] text (tsec ++ bsec) 0), Hmd, Ok_bind by (cbn; lia). rewrite limit_fits, Ok_bind by lia.
  rewrite (slice_app text tsec bsec), <-Hn by lia. change (Reader.mkTensorState tsec [] [] 0 0) with (tensor_state tsec []).
  destruct Hlimits as [_ _ _ _ (_ & _ & _ & _ & _ & _ & _ & _ & _ & Hmt)].
  rewrite (proj2 (read_tensors_ok limits (summary_blocks s) (length ts) tsec (tensor_state [] ts) ltac:(lia) ltac:(lia) ltac:(lia) Hut)), Ok_bind;
    [|by exists ts, []; rewrite app_nil_r].
  cbn [tensor_state Reader.cursor Reader.next_block Reader.read_tensors Cursor.done]. rewrite Ok_bind, Hcount, Z.eqb_refl. cbn [negb].
  replace (list.drop (Z.to_nat (metadata_bytes s + tensors_bytes s)) (text ++ tsec ++ bsec)) with bsec
    by (rewrite app_assoc, drop_app_length'; [done|rewrite length_app; lia]).
  rewrite (proj2 (read_blocks_ok limits md (file_bytes s) payload_start ts bsec (tensor_blocks_state [] payload_start ts bs) ltac:(lia)
    ltac:(unfold payload_start; lia) Hub (tensors_ok_bounds _ _ _ Ht ltac:(lia)))), Ok_bind; [|by exists bs, []; rewrite app_nil_r].
  cbn [tensor_blocks_state Reader.block_cursor Reader.next_offset Reader.read_blocks Cursor.done]. rewrite Ok_bind, Hp, Z.eqb_refl. done.
Qed.
End catalog.

Section format.
Context {Hash : Sha256} {Hash_laws : Sha256Laws} {Text : JsonText} (limits : ReadLimits) (file : list Z) (r : WeightReader).

(** The fields of a header that the sections follow. *)
Lemma layout_header f : layout_ok f (Reader.fields_summary f) → version (Reader.fields_summary f) = 1 → file_bytes (Reader.fields_summary f) < W64 →
  Forall u64 [metadata_bytes (Reader.fields_summary f); tensors_bytes (Reader.fields_summary f); blocks_bytes (Reader.fields_summary f);
    payload_bytes (Reader.fields_summary f)] →
  Layout.header (Reader.fields_summary f) = Ok (header_bytes f).
Proof.
  destruct f as [s mo to bo po]. cbn. intros (H1 & H2 & H3 & H4 & H5 & H6 & H7) Hv Hw Hu. cbn in *. subst mo to bo po.
  rewrite !Forall_cons in Hu. unfold u64 in Hu. unfold Layout.header. rewrite add_fits, Ok_bind by lia. rewrite add_fits, Ok_bind by lia. by rewrite add_fits, Ok_bind by lia.
Qed.

Lemma open_laid_out : Forall u8 file → max_file_bytes limits < W64 → Reader.open file limits = Ok r →
  ∃ text payload, laid_out limits file text payload r.
Proof.
  intros Hu Hmax R. unfold Reader.open in R. apply bind_unit in R as [Hl%validate_ok R]. apply bind_unit in R as [Hlen%limit_ok R].
  destruct (Z.ltb_spec (Z.of_nat (length file)) HEADER_BYTES) as [|H256]; [done|]. change HEADER_BYTES with 256 in *.
  apply bind_ok in R as (h & [-> _]%read_exact_ok & R). apply bind_ok in R as (f & Hf & R). change (0 + 256) with 256 in *.
  destruct (slice_split file 0 256) as [_ Hslice]; [lia..|].
  apply read_header_ok in Hf as [Eh [[Hv Hb] Hfl Htc Hbc [Hs1 Hs2] Hmb [Hix _] Hfit]]; [|lia|by apply slice_bytes].
  rewrite !Forall_cons in Hfit. destruct Hfit as (U1 & U2 & U3 & U4 & U5 & U6 & U7 & _).
  apply bind_unit in R as [Hlay R]. apply check_layout_ok in Hlay as Hlay'; [|by repeat (apply Forall_cons; split; [done|])].
  pose proof Hlay' as (E1 & E2 & E3 & E4 & E5 & E6 & E7). set (s := Reader.fields_summary f) in *. unfold u64 in *.
  apply bind_ok in R as (cat & [-> Hpo]%read_exact_ok & R). change HEADER_BYTES with 256 in *.
  replace (256 + (Reader.payload_offset f - 256)) with (Reader.payload_offset f) in * by lia. rewrite E5 in *.
  destruct (slice_split file 256 (payload_start s)) as [Esp Hspl]; [unfold payload_start; lia..|]. fold (payload_start s) in *.
  set (cat := Reader.slice file 256 (payload_start s)) in *. set (payload := list.drop (Z.to_nat (payload_start s)) file) in *.
  apply bind_unit in R as [Hcat%hash_ok R]. apply bind_ok in R as ([[md ts] bs] & Hc & [= <-]).
  apply read_catalog_inv in Hc as (text & [Ecat [L1 L2] Hmd Hout (Hts & Hn & Hsb) [Hbs Hsum]]); [|done|by apply slice_bytes|unfold payload_start in *; lia..].
  assert (Z.of_nat (length payload) = payload_bytes s) as L7 by (unfold payload; rewrite length_drop; unfold payload_start in *; lia).
  assert (Z.of_nat (length (blocks_section bs)) = blocks_bytes s) as L8.
  { apply (f_equal length) in Ecat. rewrite !length_app in Ecat. unfold payload_start in *. lia. }
  pose proof (blocks_ok_count _ _ _ _ _ _ Hbs) as Hcount. exists text, payload. rewrite Ecat in Hcat.
  split; cbn [summary reader_limits metadata tensors blocks]; try done.
  - exists (header_bytes f). split; [apply layout_header; [done|done|apply U1|by repeat (apply Forall_cons; split; [done|])]|].
    rewrite <-Eh, <-Ecat. unfold Reader.slice. by rewrite drop_0.
  - rewrite <-Hcat. clearbody s. destruct s. cbn in *. f_equal; lia.
  - lia.
  - lia.
  - by rewrite Hcount, Hsb.
  - replace (Z.of_nat (length file) - Z.of_nat (length payload)) with (payload_start s) by (unfold payload_start in *; lia).
    rewrite <-Hfl. split; [done|]. unfold payload_start in *. lia.
Qed.

(** The header that the sections determine. *)
Definition fields_of (s : FileSummary) : Reader.Fields :=
  Reader.mkFields s 256 (256 + metadata_bytes s) (256 + metadata_bytes s + tensors_bytes s)
    (256 + metadata_bytes s + tensors_bytes s + blocks_bytes s).

Lemma header_fields_of s h : Layout.header s = Ok h → version s = 1 → basis s = 2 → h = header_bytes (fields_of s).
Proof.
  unfold Layout.header. intros (a & [-> _]%add_ok & R)%bind_ok. apply bind_ok in R as (b & [-> _]%add_ok & R).
  by apply bind_ok in R as (c & [-> _]%add_ok & [= <-]).
Qed.

Lemma length_header_bytes f : length (source_sha256 (Reader.fields_summary f)) = 32%nat → length (catalog_sha256 (Reader.fields_summary f)) = 32%nat →
  length (header_bytes f) = 256%nat.
Proof.
  intros H1 H2. unfold header_bytes. rewrite !length_app, length_fields, length_replicate by done.
  destruct (sha256_bytes (fields_bytes f ++ replicate 80 0)) as [-> _]. done.
Qed.

Lemma laid_out_opens text payload : Forall u8 file → max_file_bytes limits < W64 → laid_out limits file text payload r →
  Reader.open file limits = Ok r.
Proof.
  intros Hu Hmax [[Hl Hrl] (h & Eh & Ef) Hmd Hs Hsrc (Hsz1 & Hsz2 & Hsz3) [Hc1 Hc2] Ht [Hb Hp]].
  apply header_fields_of in Eh as ->; [|by rewrite Hs..]. set (s := summary r) in *.
  set (cat := text ++ tensors_section (tensors r) ++ blocks_section (blocks r)) in *. pose proof (sha256_bytes cat) as [Hcat _].
  assert (length (catalog_sha256 s) = 32%nat) as Hcs by (by rewrite Hs).
  pose proof (length_header_bytes (fields_of s) Hsrc Hcs) as H256.
  assert (Z.of_nat (length cat) = Z.of_nat (length text) + Z.of_nat (length (tensors_section (tensors r))) + Z.of_nat (length (blocks_section (blocks r)))) as Lcat
    by (unfold cat; rewrite !length_app; lia).
  assert (Z.of_nat (length file) = 256 + Z.of_nat (length cat) + Z.of_nat (length payload)) as Hlen by (rewrite Ef at 1; rewrite !length_app; lia).
  assert (version s = 1 ∧ basis s = 2 ∧ file_bytes s = Z.of_nat (length file) ∧ metadata_bytes s = Z.of_nat (length text) ∧
    tensors_bytes s = Z.of_nat (length (tensors_section (tensors r))) ∧ blocks_bytes s = Z.of_nat (length (blocks_section (blocks r))) ∧
    payload_bytes s = Z.of_nat (length payload) ∧ summary_tensors s = Z.of_nat (length (tensors r)) ∧
    summary_blocks s = Z.of_nat (length (blocks r)) ∧ catalog_sha256 s = sha256 cat) as (F1 & F2 & F3 & F4 & F5 & F6 & F7 & F8 & F9 & F10) by (by rewrite Hs).
  clear Hs. pose proof (length_blocks_section _ _ _ (blocks_ok_entries _ _ _ _ _ _ Hb)) as L80.
  pose proof (tensors_section_long _ _ (tensor_entries _ _ _ Ht)) as L49. pose proof (blocks_ok_count _ _ _ _ _ _ Hb) as Hcount.
  pose proof (tensors_have_blocks _ _ _ Ht ltac:(lia)) as Hpos.
  unfold Reader.open. rewrite (proj2 (validate_ok limits tt) Hl), Ok_bind, (limit_fits MaxFileBytes), Ok_bind by lia.
  change HEADER_BYTES with 256. rewrite (proj2 (Z.ltb_ge _ _)) by lia.
  rewrite (proj2 (read_exact_ok file 0 256 (header_bytes (fields_of s)))), Ok_bind; cycle 1.
  { split; [|lia]. rewrite Ef at 1. symmetry. apply (slice_app []); [done|by rewrite H256]. }
  rewrite (read_header_fits limits (Z.of_nat (length file)) (fields_of s)), Ok_bind; cycle 1.
  { cbn [fields_of Reader.fields_summary]. split; cbn [fields_of Reader.metadata_offset Reader.tensors_offset Reader.blocks_offset Reader.payload_offset]; try done; try lia.
    rewrite !Forall_cons. unfold u64. split_and!; try lia. apply Forall_nil_2. }
  rewrite (proj2 (check_layout_ok (fields_of s) ltac:(cbn [fields_of Reader.fields_summary]; rewrite !Forall_cons; unfold u64; split_and!; try lia; apply Forall_nil_2))), Ok_bind; cycle 1.
  { unfold layout_ok. cbn [fields_of Reader.fields_summary Reader.metadata_offset Reader.tensors_offset Reader.blocks_offset Reader.payload_offset]. lia. }
  cbn [fields_of Reader.payload_offset Reader.fields_summary]. fold (payload_start s).
  rewrite (proj2 (read_exact_ok file 256 _ cat)), Ok_bind by (unfold payload_start; split; [rewrite Ef at 1; symmetry; apply slice_app; lia|lia]).
  rewrite (proj2 (hash_ok _ _ _ tt) F10), Ok_bind. rewrite Ef, !Forall_app in Hu. destruct Hu as (_ & Hucat & _).
  rewrite (read_catalog_fits limits s cat Hl Hucat ltac:(lia) ltac:(lia) ltac:(lia) ltac:(lia) ltac:(lia) (metadata r) (tensors r) (blocks r) text), Ok_bind;
    [rewrite <-Hrl; by destruct r|]. split; try done; try lia; [rewrite F9; split_and!; (done || lia)|]. unfold payload_start. rewrite F3.
  replace (256 + _ + _ + _) with (Z.of_nat (length file) - Z.of_nat (length payload)) by lia. split; [done|lia].
Qed.
End format.

(** ** Blocks *)

Section walk.
Context (max : Z) (Hmax : max < W64).

(** After a complete tree. *)
Definition closed (state : Z * Z * Z) (t : ClosedTerm) : Z * Z * Z :=
  let '(pending, tree_bits, terms) := state in
  if pending =? 1 then (1, 0, terms + 1) else (pending - 1, tree_bits + tree_len t, terms).

Lemma step_tree_one pending tree_bits n : 1 ≤ pending ≤ tree_bits + 1 → tree_bits + 3 ≤ max →
  Reader.step_tree max true (pending, tree_bits, n) = Ok (pending + 1, tree_bits + 1, n).
Proof.
  intros Hp Hm. unfold Reader.step_tree, Reader.checked. rewrite limit_fits by lia. cbn [map_err]. rewrite Ok_bind, add_fits by lia.
  cbn [map_err]. rewrite Ok_bind, (proj2 (Z.eqb_neq _ _)) by lia. done.
Qed.

Lemma step_tree_zero pending tree_bits n : 1 ≤ pending → tree_bits + 1 ≤ max →
  Reader.step_tree max false (pending, tree_bits, n) = Ok (closed (pending, tree_bits, n) One).
Proof.
  intros Hp Hm. unfold Reader.step_tree, Reader.checked, closed. rewrite limit_fits by lia. cbn [map_err]. rewrite Ok_bind.
  rewrite (proj2 (checked_sub_Some _ _ (pending - 1))) by lia. cbn [ok_or]. rewrite Ok_bind.
  destruct (Z.eqb_spec (pending - 1) 0), (Z.eqb_spec pending 1); done || lia.
Qed.

(** A tree within the limit is walked to its end. *)
Lemma walk_tree t rest pending tree_bits n : 1 ≤ pending ≤ tree_bits + 1 → tree_bits + tree_len t ≤ max →
  for_each (Reader.step_tree max) (Terms.tree_bits t ++ rest) (pending, tree_bits, n) =
  for_each (Reader.step_tree max) rest (closed (pending, tree_bits, n) t).
Proof.
  revert rest pending tree_bits n. induction t as [|l IHl r IHr]; intros rest pending tree_bits n Hp Hm.
  { cbn [Terms.tree_bits app for_each]. rewrite step_tree_zero by (cbn [tree_len] in Hm; lia). done. }
  cbn [tree_len] in Hm. pose proof (tree_len_pos l). pose proof (tree_len_pos r).
  cbn [Terms.tree_bits app for_each]. rewrite step_tree_one by lia. rewrite Ok_bind, <-app_assoc, IHl by lia.
  cbn [closed]. rewrite (proj2 (Z.eqb_neq _ _)) by lia. rewrite IHr by lia. f_equal. cbn [closed tree_len].
  replace (pending + 1 - 1) with pending by lia. destruct (pending =? 1); [done|]. do 2 f_equal; lia.
Qed.

Lemma step_tree_inv (one : bool) pending tree_bits n s : 1 ≤ pending → Reader.step_tree max one (pending, tree_bits, n) = Ok s →
  tree_bits + 1 ≤ max ∧ s = (if one then (pending + 1, tree_bits + 1, n) else closed (pending, tree_bits, n) One).
Proof.
  intros Hp Hs. unfold Reader.step_tree, Reader.checked in Hs. apply bind_unit in Hs as [Hl%map_err_ok%limit_ok Hs].
  split; [done|]. apply bind_ok in Hs as (p & Hpp & [= <-]). destruct one.
  - apply map_err_ok, add_ok in Hpp as [-> _]. by rewrite (proj2 (Z.eqb_neq _ _)) by lia.
  - apply ok_or_ok, checked_sub_Some in Hpp as [-> _]. cbn [closed tree_len].
    destruct (Z.eqb_spec (pending - 1) 0), (Z.eqb_spec pending 1); done || lia.
Qed.

(** A tree that was walked was within the limit. *)
Lemma walk_tree_inv t rest pending tree_bits n s : 1 ≤ pending →
  for_each (Reader.step_tree max) (Terms.tree_bits t ++ rest) (pending, tree_bits, n) = Ok s →
  tree_bits + tree_len t ≤ max ∧ for_each (Reader.step_tree max) rest (closed (pending, tree_bits, n) t) = Ok s.
Proof.
  revert rest pending tree_bits n s. induction t as [|l IHl r IHr]; intros rest pending tree_bits n s Hp;
    cbn [Terms.tree_bits app for_each]; intros (s1 & Hs1 & Hs)%bind_ok; apply step_tree_inv in Hs1 as [Hm ->]; try done.
  rewrite <-app_assoc in Hs. apply IHl in Hs as [Hl Hs]; [|lia]. cbn [closed] in Hs. rewrite (proj2 (Z.eqb_neq _ _)) in Hs by lia.
  apply IHr in Hs as [Hr Hs]; [|lia]. cbn [tree_len closed] in *. split; [lia|]. rewrite <-Hs. f_equal.
  replace (pending + 1 - 1) with pending by lia. destruct (pending =? 1); [done|]. do 2 f_equal; lia.
Qed.

Lemma walk_forest ts n : for_each (Reader.step_tree max) (forest_bits ts) (1, 0, n) = Ok (1, 0, n + Z.of_nat (length ts)) ↔
  Forall (λ t, tree_len t ≤ max) ts.
Proof.
  revert n. induction ts as [|t ts IH]; intros n; [cbn; rewrite Z.add_0_r; done|]. rewrite forest_bits_cons, Forall_cons, <-(IH (n + 1)).
  cbn [length]. replace (n + Z.of_nat (S (length ts))) with (n + 1 + Z.of_nat (length ts)) by lia. split.
  - intros [Hl Hs]%walk_tree_inv; [split; [lia|done]|lia].
  - intros [Hl Hs]. by rewrite walk_tree by lia.
Qed.

(** A walk over any bits does not panic. *)
Lemma walk_safe bs pending tree_bits n : 1 ≤ pending → for_each (Reader.step_tree max) bs (pending, tree_bits, n) ≠ Err None.
Proof.
  revert pending tree_bits n. induction bs as [|b bs IH]; intros pending tree_bits n Hp; [done|]. cbn [for_each].
  intros [Hs|([[p t] m] & Es & Hs)]%bind_err; [|apply step_tree_inv in Es as [_ Es]; [revert Hs; apply IH|done]].
  - revert Hs. unfold Reader.step_tree, Reader.checked. destruct (Limits.check_limit _ _ _); cbn [map_err]; [|done]. rewrite Ok_bind.
    destruct b; [by destruct (Cursor.add pending 1)|]. by rewrite (proj2 (checked_sub_Some pending 1 (pending - 1))) by lia.
  - destruct b; [injection Es; lia|]. cbn [closed] in Es. destruct (Z.eqb_spec pending 1); injection Es; lia.
Qed.

(** Without bits of a tree, a walk is between trees. *)
Lemma walk_between bs p n : for_each (Reader.step_tree max) bs (1, 0, 0) = Ok (p, 0, n) → p = 1.
Proof.
  intros Hw. pose (I := λ s : Z * Z * Z, let '(p, b, _) := s in 1 ≤ p ∧ 0 ≤ b ∧ (b = 0 → p = 1)).
  enough (I (p, 0, n)) as (_ & _ & Hp) by auto. apply (for_each_inv (λ _, I) _ _ _ _ Hw); [done|].
  intros _ one [[p1 b1] n1] s1 _ (H1 & H2 & H3) Hs. apply step_tree_inv in Hs as [_ ->]; [|done].
  destruct one; [cbn; lia|]. cbn [closed tree_len]. destruct (Z.eqb_spec p1 1); cbn; [done|lia].
Qed.
End walk.

(** The bits that the walk looks at are those of the stream. *)
Lemma walk_bits bytes max l s : (∀ i, i ∈ l → 0 ≤ 24 + i / 8 < Z.of_nat (length bytes)) →
  for_each (Reader.walk_bit bytes max) l s = for_each (Reader.step_tree max) (Stream.stream_bit bytes <$> l) s.
Proof.
  revert s. induction l as [|i l IH]; intros s Hl; [done|]. cbn [for_each fmap list_fmap].
  assert (Reader.walk_bit bytes max i s = Reader.step_tree max (Stream.stream_bit bytes i) s) as ->.
  { unfold Reader.walk_bit, Stream.stream_bit. destruct (lookup_lt_is_Some_Z bytes (24 + i / 8)) as [b ->]; [apply Hl; by left|]. done. }
  destruct (Reader.step_tree _ _ s); [|done]. rewrite !Ok_bind. apply IH. intros j Hj. apply Hl. by right.
Qed.

(** The limits are machine words. *)
Definition limits_u64 (l : ReadLimits) : Prop := Forall u64
  [max_file_bytes l; max_metadata_bytes l; max_metadata_entries l; max_metadata_array_elements l; max_name_bytes l;
   max_string_bytes l; max_tensors l; max_blocks l; max_index_bytes l; max_block_terms l; max_block_bytes l;
   max_weight_bits l; max_weight_depth l; max_total_terms l].

Definition weight_bits (r : WeightReader) : Z := Z.min (max_weight_bits (reader_limits r)) (conversion_weight_bits (metadata_limits (metadata r))).
Definition weight_depth (r : WeightReader) : Z := Z.min (max_weight_depth (reader_limits r)) (conversion_weight_depth (metadata_limits (metadata r))).

Definition block_data (file : list Z) (info : BlockInfo) : list Z :=
  Reader.slice file (data_offset info) (data_offset info + data_bytes info).

(** The terms that a block of the file holds. *)
Record stored `{Sha256} (r : WeightReader) (file : list Z) (info : BlockInfo) (ts : list ClosedTerm) : Prop := mk_stored {
  stored_digest : WeightLimits.digest info = sha256 (block_data file info);
  stored_frame : Framed ts (block_data file info);
  stored_counts : Z.of_nat (length ts) = term_count info ∧ forest_len ts = useful_bits info ∧ useful_bits info + 7 < W64;
  stored_terms : Forall (λ t, tree_len t ≤ weight_bits r ∧ tree_depth t ≤ weight_depth r) ts;
}.

(** What is known of a block of an open file. *)
Record known_block (r : WeightReader) (info : BlockInfo) : Prop := mk_known_block {
  known_terms : 0 < term_count info ≤ useful_bits info ∧ useful_bits info < W64;
  known_size : data_bytes info = block_bytes (useful_bits info);
  known_place : 0 ≤ data_offset info ∧ data_offset info + data_bytes info ≤ file_bytes (summary r);
  known_file : file_bytes (summary r) < W64;
  known_bits : usize (weight_bits r) ∧ usize (weight_depth r);
}.

Lemma laid_out_block `{Sha256} `{JsonText} limits file text payload r i info : limits_u64 limits → laid_out limits file text payload r →
  blocks r !! i = Some info → known_block r info ∧ block_id info = Z.of_nat i.
Proof.
  intros Hu [[Hl Hrl] (h & _ & Ef) Hmd%decode_ok Hs _ (Hsz & _) _ _ [Hb _]] Hi. pose proof (blocks_ok_entries _ _ _ _ _ _ Hb) as He.
  pose proof (blocks_ok_bytes _ _ _ _ _ _ Hb) as [Hle _].
  assert (Forall (λ b, 0 ≤ data_bytes b) (blocks r)) as Hdb.
  { eapply Forall_impl; [exact He|]. intros b Hbe. pose proof (data_bytes_pos _ _ b Hbe). lia. }
  pose proof (chain_lookup _ _ _ _ _ _ _ Hdb (blocks_ok_offsets _ _ _ _ _ _ Hb) Hi) as [Hfirst Hlast].
  pose proof (blocks_ok_ids _ _ _ _ _ _ Hb) as Hids. eapply Forall_lookup_1 in He as [Ht Hsize _ _]; [|exact Hi].
  assert (Z.of_nat (length payload) ≤ Z.of_nat (length file)) as Hp by (rewrite Ef, !length_app; lia).
  assert (file_bytes (summary r) = Z.of_nat (length file)) as Efb by (by rewrite Hs).
  unfold limits_u64 in Hu. rewrite !Forall_cons in Hu. unfold u64 in Hu. destruct Hmd as [[_ _ [[Hc _ _ _] _] _ _] _].
  destruct Hl as [_ _ _ _ Hl]. split.
  - split; [done..|lia|lia|]. unfold weight_bits, weight_depth, usize. rewrite Hrl. lia.
  - apply (f_equal (λ l, l !! i)) in Hids. rewrite list_lookup_fmap, Hi in Hids. symmetry in Hids. apply lookup_seqZ in Hids as [-> _]. lia.
Qed.

(** The tests of a block's own header. *)
Lemma block_header_ok bytes info : Forall u8 bytes → Reader.block_header bytes info = Ok false →
  ∃ rest, bytes = Reader.block_magic ++ le_bytes 8 (term_count info) ++ le_bytes 8 (useful_bits info) ++ rest ∧ u64 (term_count info) ∧ u64 (useful_bits info).
Proof.
  intros Hc R. unfold Reader.block_header in R. apply bind_ok in R as ([m c] & [-> Hm]%cursor_take_ok & R); [|lia]. apply Forall_app in Hc as [_ Hc].
  apply orelse_ok in R as [Em%negb_false_iff%bool_decide_eq_true R]. take_u64 tc Htc from R Hc. apply orelse_ok in R as [Et%unequal_ok R].
  take_u64 ub Hub from R Hc. injection R as Eu%unequal_ok. subst. eexists. split; [reflexivity|done].
Qed.

Lemma block_header_fits info rest : u64 (term_count info) → u64 (useful_bits info) →
  Reader.block_header (Reader.block_magic ++ le_bytes 8 (term_count info) ++ le_bytes 8 (useful_bits info) ++ rest) info = Ok false.
Proof.
  intros Ht Hu. unfold Reader.block_header. rewrite (proj2 (cursor_take_ok 8 _ Reader.block_magic _ ltac:(lia))) by done.
  rewrite Ok_bind, bool_decide_eq_true_2 by done. cbn [negb Reader.orelse]. rewrite cursor_u64, Ok_bind, Z.eqb_refl by done.
  cbn [negb Reader.orelse]. by rewrite cursor_u64, Ok_bind, Z.eqb_refl by done.
Qed.

(** The header of a frame is the one the reader asks for. *)
Lemma frame_block_header ts bytes info : Framed ts bytes → Forall u8 bytes → Reader.block_header bytes info = Ok false ↔
  Z.of_nat (length ts) = term_count info ∧ forest_len ts = useful_bits info.
Proof.
  intros (Hw & p & -> & Hp) Hu. unfold frame_header. change Stream.magic with Reader.block_magic in *. rewrite <-!app_assoc. pose proof (forest_len_count ts). split.
  - intros (rest & E & Ht & Hub)%block_header_ok; [|unfold frame_header in Hu; by rewrite <-!app_assoc in Hu].
    apply app_inj_1 in E as [_ E]; [|done]. apply app_inj_1 in E as [E1 E]; [|by rewrite !length_le_bytes].
    apply app_inj_1 in E as [E2 _]; [|by rewrite !length_le_bytes]. apply (f_equal le_value) in E1, E2.
    change W64 with (256 ^ Z.of_nat 8) in *. rewrite !le_value_bytes in E1, E2 by (done || lia). done.
  - intros [Ht Hb]. rewrite Ht, Hb. apply block_header_fits; unfold u64; lia.
Qed.

(** ** Reading *)

Section read.
Context {Hash : Sha256} (r : WeightReader) (file : list Z) (info : BlockInfo).
Context (Hk : known_block r info) (Hu : Forall u8 file) (Hlen : Z.of_nat (length file) = file_bytes (summary r)).

Definition block_limits : StreamLimits := mkStreamLimits (useful_bits info) (term_count info) (weight_depth r).

Lemma block_limits_ok : stream_limits_ok block_limits.
Proof. destruct Hk as [[? ?] _ _ _ [_ ?]]. unfold stream_limits_ok, usize in *. cbn. split_and!; (done || lia). Qed.

Lemma block_data_ok : Forall u8 (block_data file info) ∧ Z.of_nat (length (block_data file info)) = 24 + (useful_bits info + 7) / 8 ∧
  usize (Z.of_nat (length (block_data file info))).
Proof.
  destruct Hk as [[? ?] Hs [? ?] ? _]. unfold block_bytes in Hs. split; [by apply slice_bytes|].
  assert (0 ≤ data_bytes info) by (rewrite Hs; dlia).
  destruct (slice_split file (data_offset info) (data_offset info + data_bytes info)) as [_ E]; [lia..|].
  fold (block_data file info) in E. unfold usize. lia.
Qed.

Definition walk : Result (option Error) (Z * Z * Z) :=
  for_each (Reader.walk_bit (block_data file info) (weight_bits r)) (seqZ 0 (useful_bits info)) (1, 0, 0).

Lemma walk_steps : walk = for_each (Reader.step_tree (weight_bits r)) (payload_bits (Stream.stream_bit (block_data file info)) (useful_bits info)) (1, 0, 0).
Proof.
  apply walk_bits. intros i [j Hj]%list_elem_of_lookup. apply lookup_seqZ in Hj as [-> Hj]. destruct block_data_ok as (_ & -> & _). split; [dlia|].
  assert ((0 + Z.of_nat j) / 8 < (useful_bits info + 7) / 8) by dlia. lia.
Qed.

(** The part after the digest and the header are right. *)
Lemma decode_stored vs : Reader.block_header (block_data file info) info = Ok false →
  (walk = Ok (1, 0, term_count info) ∧ Stream.decode_stream (block_data file info) block_limits = Ok vs) ↔
  ∃ ts, Framed ts (block_data file info) ∧ Z.of_nat (length ts) = term_count info ∧ forest_len ts = useful_bits info ∧ useful_bits info + 7 < W64 ∧
    Forall (λ t, tree_len t ≤ weight_bits r ∧ tree_depth t ≤ weight_depth r) ts ∧ Forall2 Represents vs ts.
Proof.
  intros Hh. destruct block_data_ok as (Hb & Hl & Hus). destruct (known_bits _ _ Hk) as [[_ Hwb] _].
  pose proof (decode_stream_lemma (block_data file info) block_limits block_limits_ok Hb Hus) as Hd. rewrite walk_steps.
  assert (∀ ts, Framed ts (block_data file info) → Z.of_nat (length ts) = term_count info ∧ forest_len ts = useful_bits info ∧
    payload_bits (Stream.stream_bit (block_data file info)) (useful_bits info) = forest_bits ts) as Hfr.
  { intros ts HF. destruct (proj1 (frame_block_header ts _ info HF Hb) Hh) as [E1 E2]. split; [done|]. split; [done|].
    rewrite <-E2. symmetry. by apply packed_payload, Framed_iff. }
  split.
  - intros [Hw Hv]. rewrite Hv in Hd. destruct Hd as (ts & HF & (_ & _ & H7 & Hdep) & HR). destruct (Hfr ts HF) as (E1 & E2 & Ebits).
    exists ts. rewrite Ebits, <-E1 in Hw. apply (walk_forest _ Hwb ts 0) in Hw. cbn [block_limits stream_max_depth] in Hdep.
    split_and!; try done; [lia|]. apply Forall_and. done.
  - intros (ts & HF & E1 & E2 & H7 & [Hw Hdep]%Forall_and & HR). destruct (Hfr ts HF) as (_ & _ & Ebits). split.
    { rewrite Ebits, <-E1. by apply (walk_forest _ Hwb ts 0). }
    destruct (Stream.decode_stream _ _) as [us|e].
    + destruct Hd as (us' & HF' & _ & HR'). rewrite (Framed_inj _ _ _ Hb HF' HF) in HR'. f_equal. by eapply Represents_all_inj.
    + destruct (Hd ts HF) as [_ Hn]. exfalso. apply Hn. unfold accepted. cbn. split_and!; (done || lia).
Qed.

(** The terms of a block have encodings. *)
Lemma stored_terms_exist ts : stored r file info ts → ∃ vs, Forall2 Represents vs ts.
Proof.
  intros [_ HF (E1 & E2 & H7) [_ Hd]%Forall_and]. destruct block_data_ok as (Hb & _ & Hus).
  pose proof (decode_stream_lemma _ block_limits block_limits_ok Hb Hus) as H. destruct (Stream.decode_stream _ _) as [vs|e].
  - destruct H as (us & HF' & _ & HR). rewrite (Framed_inj _ _ _ Hb HF' HF) in HR. by exists vs.
  - destruct (H ts HF) as [_ Hn]. exfalso. apply Hn. unfold accepted. cbn. split_and!; (done || lia).
Qed.

Lemma read_block_data : Reader.checked (Reader.read_exact file (data_offset info) (data_bytes info)) = Ok (block_data file info).
Proof.
  destruct Hk as [_ _ [? ?] _ _]. unfold Reader.checked. apply map_err_ok, read_exact_ok. split; [done|lia].
Qed.

(** Walks end in an error or between trees or inside one. *)
Lemma read_block_ok id b : blocks r !! Z.to_nat id = Some info →
  Reader.read_block r file id = Ok b ↔ ∃ ts, stored r file info ts ∧ decoded_id b = id ∧ decoded_tensor b = block_tensor info ∧
    decoded_first b = WeightLimits.first_element info ∧ Forall2 Represents (terms b) ts.
Proof.
  intros Hi. unfold Reader.read_block, Reader.block_info. rewrite Hi. cbn [ok_or Reader.checked map_err]. rewrite Ok_bind, Hlen, Z.eqb_refl. cbn [negb].
  rewrite read_block_data, Ok_bind. fold (weight_bits r) (weight_depth r) walk block_limits. split.
  - intros R. apply bind_unit in R as [Hh%map_err_ok%hash_ok R]. apply bind_ok in R as (bad & Hbad%map_err_ok & R). destruct bad; [done|].
    apply bind_ok in R as ([[p t] n] & Hw & R). destruct (_ || _) eqn:E in R; [done|].
    apply orb_false_iff in E as [->%unequal_ok ->%unequal_ok]. apply bind_ok in R as (vs & Hv%map_err_ok%map_err_ok & [= <-]).
    assert (p = 1) as -> by (eapply walk_between; by rewrite <-walk_steps).
    destruct (proj1 (decode_stored vs Hbad) (conj Hw Hv)) as (ts & HF & E1 & E2 & H7 & Hts & HR).
    exists ts. split; [by split|]. done.
  - intros (ts & [Hh HF (E1 & E2 & H7) Hts] & Eid & Et & Ef & HR). unfold Reader.checked. rewrite (proj2 (hash_ok _ _ _ tt) Hh). cbn [map_err]. rewrite Ok_bind.
    destruct block_data_ok as (Hb & _ & _).
    assert (Reader.block_header (block_data file info) info = Ok false) as Hbad by (by apply (frame_block_header ts)). rewrite Hbad. cbn [map_err]. rewrite Ok_bind.
    destruct (proj2 (decode_stored (terms b) Hbad)) as [Hw Hv]; [by exists ts|]. rewrite Hw, Ok_bind, Z.eqb_refl, Z.eqb_refl. cbn [negb orb].
    rewrite Hv. cbn [map_err]. rewrite Ok_bind. destruct b. cbn in *. by subst.
Qed.
End read.

Lemma checked_safe {A B} (m : Result Error A) (k : A → Result (option Error) B) : (∀ a, m = Ok a → k a ≠ Err None) → (Reader.checked m ≫= k) ≠ Err None.
Proof. intros Hk. unfold Reader.checked. destruct m; cbn [map_err]; [rewrite Ok_bind; auto|done]. Qed.

Lemma read_block_safe `{Sha256} r file id : (∀ info, blocks r !! Z.to_nat id = Some info → known_block r info) → Forall u8 file →
  Reader.read_block r file id ≠ Err None.
Proof.
  intros Hk Hu. unfold Reader.read_block, Reader.block_info. destruct (blocks r !! Z.to_nat id) as [info|]; [|done]. specialize (Hk info eq_refl).
  cbn [ok_or Reader.checked map_err]. rewrite Ok_bind. destruct (Z.eqb_spec (Z.of_nat (length file)) (file_bytes (summary r))) as [Hlen|]; cbn [negb]; [|done].
  rewrite (read_block_data r file info Hk Hlen), Ok_bind. fold (weight_bits r) (weight_depth r) (walk r file info).
  apply checked_safe. intros _ _. apply checked_safe. intros [] _; [done|].
  destruct (walk r file info) as [[[p t] n]|e] eqn:Ew; cycle 1.
  { rewrite (walk_steps r file info Hk Hu Hlen) in Ew. cbn. intros [= ->]. revert Ew. by apply walk_safe. }
  rewrite Ok_bind. destruct (_ || _); [done|]. by apply checked_safe.
Qed.

Lemma blocks_ok_terms limits metadata fb first ts bs : blocks_ok limits metadata fb first ts bs → sum term_count bs = sum element_count ts.
Proof. induction 1 as [|ts t all bs _ IH _ _ He]; [done|]. rewrite sum_app, sum_snoc. lia. Qed.

Lemma sum_take {A} (f : A → Z) l k x : l !! k = Some x → sum f (list.take (S k) l) = sum f (list.take k l) + f x.
Proof. intros Hx. by rewrite (take_S_r l k x Hx), sum_snoc. Qed.

Lemma sum_take_le {A} (f : A → Z) l k : Forall (λ x, 0 ≤ f x) l → sum f (list.take k l) ≤ sum f l.
Proof.
  intros Hl. rewrite <-(take_drop k l) at 2. rewrite sum_app. pose proof (sum_nonneg f (list.drop k l) (Forall_drop _ _ _ Hl)). lia.
Qed.

(** ** Open files *)

Section opened.
Context {Hash : Sha256} {Hash_laws : Sha256Laws} {Text : JsonText} (limits : ReadLimits) (Hlimits : limits_u64 limits).

Lemma open_iff file r : Forall u8 file → Reader.open file limits = Ok r ↔ ∃ text payload, laid_out limits file text payload r.
Proof.
  intros Hu. assert (max_file_bytes limits < W64) as Hm.
  { unfold limits_u64 in Hlimits. rewrite !Forall_cons in Hlimits. unfold u64 in Hlimits. lia. }
  split; [by apply open_laid_out|]. intros (text & payload & Hl). by apply (laid_out_opens limits file r text payload).
Qed.

(** [None] would be a panic. *)
Definition reads (r : WeightReader) (file : list Z) (id : Z) (b : DecodedBlock) : Prop :=
  Z.of_nat (length file) = file_bytes (summary r) ∧ ∃ info ts, blocks r !! Z.to_nat id = Some info ∧ stored r file info ts ∧
    decoded_id b = id ∧ decoded_tensor b = block_tensor info ∧ decoded_first b = WeightLimits.first_element info ∧
    Forall2 Represents (terms b) ts.

Lemma read_block_iff original r file id b : Forall u8 original → Forall u8 file → Reader.open original limits = Ok r →
  Reader.read_block r file id = Ok b ↔ reads r file id b.
Proof.
  intros Ho Hu (text & payload & Hl)%open_iff; [|done]. unfold reads. split.
  - intros R. destruct (blocks r !! Z.to_nat id) as [info|] eqn:Hi; cycle 1.
    { unfold Reader.read_block, Reader.block_info in R. by rewrite Hi in R. }
    destruct (laid_out_block _ _ _ _ _ _ _ Hlimits Hl Hi) as [Hk _].
    assert (Z.of_nat (length file) = file_bytes (summary r)) as Hlen.
    { unfold Reader.read_block, Reader.block_info in R. rewrite Hi in R. cbn [ok_or Reader.checked map_err] in R. rewrite Ok_bind in R.
      destruct (Z.eqb_spec (Z.of_nat (length file)) (file_bytes (summary r))); done. }
    split; [done|]. exists info. destruct (proj1 (read_block_ok r file info Hk Hu Hlen id b Hi) R) as (ts & HR). by exists ts.
  - intros (Hlen & info & ts & Hi & R). destruct (laid_out_block _ _ _ _ _ _ _ Hlimits Hl Hi) as [Hk _].
    apply (read_block_ok r file info Hk Hu Hlen id b Hi). by exists ts.
Qed.

(** The file holds every block that its catalog lists. *)
Definition holds_all (r : WeightReader) (file : list Z) : Prop :=
  Z.of_nat (length file) = file_bytes (summary r) ∧ ∀ i info, blocks r !! i = Some info → ∃ ts, stored r file info ts.

Definition full_report (r : WeightReader) : VerificationReport :=
  mkVerification (summary_blocks (summary r)) (sum term_count (blocks r)) (payload_bytes (summary r)) true.

Lemma sum_step {A} (f : A → Z) l k x : Forall (λ x, 0 ≤ f x) l → l !! k = Some x → sum f (list.take k l) + f x ≤ sum f l.
Proof. intros Hl Hx. rewrite <-(sum_take f l k x Hx). by apply sum_take_le. Qed.

Lemma verify_block_ok original r file k report : Forall u8 original → Forall u8 file → Reader.open original limits = Ok r →
  Z.of_nat (length file) = file_bytes (summary r) → (k < length (blocks r))%nat →
  let part n := mkVerification (Z.of_nat n) (sum term_count (list.take n (blocks r))) (sum data_bytes (list.take n (blocks r))) false in
  Reader.verify_block r file (Z.of_nat k) (part k) = Ok report ↔
  (∃ info ts, blocks r !! k = Some info ∧ stored r file info ts) ∧ report = part (S k).
Proof.
  intros Ho Hu Hopen Hlen Hk part. pose proof Hopen as (text & payload & Hl)%open_iff; [|done].
  destruct (lookup_lt_is_Some_2 _ _ Hk) as [info Hi]. destruct (laid_out_block _ _ _ _ _ _ _ Hlimits Hl Hi) as [Hkn _].
  destruct Hl as [_ (h & _ & Ef) _ Hs _ (Hsz & _) _ Ht [Hb Hp]]. pose proof (blocks_ok_entries _ _ _ _ _ _ Hb) as He.
  assert (Forall (λ b, 0 ≤ term_count b) (blocks r) ∧ Forall (λ b, 0 ≤ data_bytes b) (blocks r)) as [Hn1 Hn2].
  { split; (eapply Forall_impl; [exact He|]); intros b Hbe; [destruct Hbe; lia|]. pose proof (data_bytes_pos _ _ b Hbe). lia. }
  pose proof (sum_step _ _ _ _ Hn1 Hi) as S1. pose proof (sum_step _ _ _ _ Hn2 Hi) as S2. rewrite (blocks_ok_terms _ _ _ _ _ _ Hb) in S1.
  destruct Ht as [_ _ _ _ _ [_ Hterms]]. pose proof (known_file _ _ Hkn) as Hw.
  assert (sum data_bytes (blocks r) < W64) as Hdw by (rewrite Hp; rewrite <-Hlen in Hw; rewrite Hs in Hlen; cbn in Hlen; rewrite Ef, !length_app in Hlen; lia).
  unfold part. clear part. rewrite !(sum_take _ _ _ _ Hi). unfold Reader.verify_block. cbn [terms_checked bytes_checked blocks_checked]. split.
  - intros R. apply bind_ok in R as (b & Hb'%(read_block_iff original) & R); [|done..]. destruct Hb' as (_ & info' & ts & Hi' & Hst & _ & _ & _ & HR).
    rewrite Nat2Z.id, Hi in Hi'. injection Hi' as <-. apply Forall2_length in HR. destruct (stored_counts _ _ _ _ Hst) as (Hc & _).
    apply bind_ok in R as (t & [-> _]%map_err_ok%add_ok & R). rewrite Nat2Z.id, Hi in R. cbn [ok_or] in R. rewrite Ok_bind in R.
    apply bind_ok in R as (n & [-> _]%map_err_ok%add_ok & [= <-]). split; [by exists info, ts|]. f_equal; lia.
  - intros [(info' & ts & Hi' & Hst) ->]. rewrite Hi in Hi'. injection Hi' as <-.
    destruct (stored_terms_exist r file info Hkn Hu Hlen ts Hst) as (vs & HR). apply Forall2_length in HR as Hlv. destruct (stored_counts _ _ _ _ Hst) as (Hc & _).
    rewrite (proj2 (read_block_iff original r file (Z.of_nat k) (mkDecoded (Z.of_nat k) (block_tensor info) (WeightLimits.first_element info) vs) Ho Hu Hopen)), Ok_bind; cycle 1.
    { split; [done|]. exists info, ts. by rewrite Nat2Z.id. }
    cbn [terms]. unfold Reader.checked. rewrite add_fits by lia. cbn [map_err]. rewrite Ok_bind, Nat2Z.id, Hi. cbn [ok_or]. rewrite Ok_bind, add_fits by lia.
    cbn [map_err]. rewrite Ok_bind. do 2 f_equal; lia.
Qed.

Lemma verify_some original r file n report : Forall u8 original → Forall u8 file → Reader.open original limits = Ok r →
  Z.of_nat (length file) = file_bytes (summary r) → (n ≤ length (blocks r))%nat →
  for_each (Reader.verify_block r file) (seqZ 0 (Z.of_nat n)) (mkVerification 0 0 0 false) = Ok report ↔
  (∀ i, (i < n)%nat → ∃ info ts, blocks r !! i = Some info ∧ stored r file info ts) ∧
  report = mkVerification (Z.of_nat n) (sum term_count (list.take n (blocks r))) (sum data_bytes (list.take n (blocks r))) false.
Proof.
  intros Ho Hu Hopen Hlen. revert report. induction n as [|n IH]; intros report Hn.
  { cbn. split; [intros [= <-]; split; [lia|done]|by intros [_ ->]]. }
  rewrite seqZ_snoc, for_each_app, bind_ok. cbn [for_each]. setoid_rewrite bind_ok. setoid_rewrite IH; [|lia]. split.
  - intros (s & [Hall ->] & s1 & Hs & [= <-]). apply (verify_block_ok original) in Hs as [Hs ->]; [|done..]. split; [|done].
    intros i Hi. destruct (decide (i = n)) as [->|]; [done|]. apply Hall. lia.
  - intros [Hall ->]. eexists. split; [split; [intros i Hi; apply Hall; lia|done]|]. eexists. split; [|done].
    apply (verify_block_ok original); [done..|]. split; [apply Hall; lia|done].
Qed.

Lemma opened_blocks original r : Forall u8 original → Reader.open original limits = Ok r →
  0 < summary_blocks (summary r) ∧ summary_blocks (summary r) = Z.of_nat (length (blocks r)) ∧
  sum data_bytes (blocks r) = payload_bytes (summary r).
Proof.
  intros Ho (text & payload & [_ _ _ Hs _ _ [Hc _] Ht [Hb Hp]])%open_iff; [|done].
  assert (summary_blocks (summary r) = Z.of_nat (length (blocks r))) as E by (by rewrite Hs).
  split; [|split; [done|by rewrite Hs]]. rewrite E, (blocks_ok_count _ _ _ _ _ _ Hb).
  by eapply tensors_have_blocks; [|lia].
Qed.

Lemma verify_all_iff original r file report : Forall u8 original → Forall u8 file → Reader.open original limits = Ok r →
  Reader.verify_all r file = Ok report ↔ holds_all r file ∧ report = full_report r.
Proof.
  intros Ho Hu Hopen. destruct (opened_blocks _ _ Ho Hopen) as (Hpos & Hn & Hsum). unfold Reader.verify_all, full_report.
  assert (Z.of_nat (length file) = file_bytes (summary r) → Reader.verify_all r file = Ok report ↔ holds_all r file ∧ report = full_report r) as Hmain.
  { intros Hlen. unfold Reader.verify_all, full_report. rewrite Hn, bind_ok. setoid_rewrite (verify_some original r file _ _ Ho Hu Hopen Hlen (le_n _)).
    rewrite !firstn_all, Hsum. split.
    - intros (rep & [Hall ->] & [= <-]). split; [|done]. split; [done|]. intros i info Hi. destruct (Hall i) as (info' & ts & Hi' & Hst).
      + by eapply lookup_lt_Some.
      + rewrite Hi in Hi'. injection Hi' as <-. by exists ts.
    - intros [[_ Hall] ->]. eexists. split; [split; [|done]|done]. intros i Hi. destruct (lookup_lt_is_Some_2 _ _ Hi) as [info Hinfo].
      destruct (Hall i info Hinfo) as [ts Hst]. by exists info, ts. }
  split; [|intros [[Hlen Hall] Hrep]; by apply Hmain].
  intros R. apply Hmain; [|done]. apply bind_ok in R as (rep & R & _). rewrite seqZ_cons in R by lia. cbn [for_each] in R.
  apply bind_ok in R as (rep1 & R & _). apply bind_ok in R as (b & Hb & _). by apply (read_block_iff original) in Hb as [Hlen _].
Qed.

Lemma for_each_safe {E I S} (body : I → S → Result E S) e l s : (∀ i s, body i s ≠ Err e) → for_each body l s ≠ Err e.
Proof.
  intros Hb. revert s. induction l as [|i l IH]; intros s; [done|]. cbn [for_each]. intros [H|(s' & _ & H)]%bind_err; [by apply Hb in H|by apply IH in H].
Qed.

Lemma read_block_no_panic original r file id : Forall u8 original → Forall u8 file → Reader.open original limits = Ok r →
  Reader.read_block r file id ≠ Err None.
Proof.
  intros Ho Hu (text & payload & Hl)%open_iff; [|done]. apply read_block_safe; [|done]. intros info Hi. by apply (laid_out_block _ _ _ _ _ _ _ Hlimits Hl Hi).
Qed.

Lemma verify_all_no_panic original r file : Forall u8 original → Forall u8 file → Reader.open original limits = Ok r →
  Reader.verify_all r file ≠ Err None.
Proof.
  intros Ho Hu Hopen [R|(rep & _ & R)]%bind_err; [|done]. revert R. apply for_each_safe. intros id s.
  unfold Reader.verify_block. intros [R|(b & Hb & R)]%bind_err; [by apply (read_block_no_panic original) in R|].
  revert R. apply checked_safe. intros t _. apply (read_block_iff original) in Hb as (_ & info & ts & -> & _); [|done..]. cbn [ok_or]. rewrite Ok_bind.
  by apply checked_safe.
Qed.
End opened.

(** ** Theorems *)

(** [C11] The reader opens exactly the files of the format. A file opens if and only if it is a
    header, metadata that decodes, tensor and block records and a payload, one after the
    other, with the sizes, offsets and digests that the header states; tensors have distinct
    names and shapes that multiply to their element counts; the blocks of each tensor follow
    each other and give all its elements; the payload is tiled by the blocks; and everything
    is within the limits. What the reader then knows is what the file says. *)
Theorem open_format {Hash : Sha256} {Hash_laws : Sha256Laws} {Text : JsonText} limits file r : limits_u64 limits → Forall u8 file →
  Reader.open file limits = Ok r ↔ ∃ text payload, laid_out limits file text payload r.
Proof. intros Hl Hu. by apply open_iff. Qed.

(** [C10] Whatever the file has become since it was opened, reading a block never panics, and it
    succeeds exactly when the file has its length and the block is there: bytes with the
    digest of the catalog that frame as many terms and bits as the catalog says, each within
    the limits on bits and depth. What is read represents those terms. *)
Theorem read_block_spec {Hash : Sha256} {Hash_laws : Sha256Laws} {Text : JsonText} limits original r file id :
  limits_u64 limits → Forall u8 original → Forall u8 file → Reader.open original limits = Ok r →
  Reader.read_block r file id ≠ Err None ∧ ∀ b, Reader.read_block r file id = Ok b ↔ reads r file id b.
Proof. intros Hl Ho Hu Hopen. split; [by apply (read_block_no_panic limits Hl original)|]. intros b. by apply (read_block_iff limits Hl original). Qed.

(** [C13] Verification is complete: it reports success exactly when the file holds every block
    of the catalog, and then counts all blocks, terms and payload bytes. It never panics. *)
Theorem verify_all_spec {Hash : Sha256} {Hash_laws : Sha256Laws} {Text : JsonText} limits original r file :
  limits_u64 limits → Forall u8 original → Forall u8 file → Reader.open original limits = Ok r →
  Reader.verify_all r file ≠ Err None ∧
  ∀ report, Reader.verify_all r file = Ok report ↔ holds_all r file ∧ report = full_report r.
Proof. intros Hl Ho Hu Hopen. split; [by apply (verify_all_no_panic limits Hl original)|]. intros report. by apply (verify_all_iff limits Hl original). Qed.

(** ** A small file *)

(** A library that sums the bytes. *)
#[local] Instance toy_sha256 : Sha256 := λ bytes, replicate 31 0 ++ [foldr Z.add 0 bytes `mod` 256].
#[local] Instance toy_sha256_laws : Sha256Laws.
Proof.
  intros bytes. unfold sha256, toy_sha256. split; [done|]. apply Forall_app. split; [by apply Forall_replicate|].
  constructor; [|constructor]. apply Z.mod_pos_bound. lia.
Qed.
#[local] Existing Instance binary_text.

Definition sample_text : list Z := Binary.print (Encode.wire sample_metadata).
Definition sample_tensor : TensorInfo := mkTensor 0 "w" [2] F32 2 0 1.
Definition sample_offset : Z := 256 + Z.of_nat (length sample_text) + 49 + 80.
Definition sample_block : BlockInfo := mkBlock 0 0 0 2 sample_offset 25 4 (sha256 two_stream).
Definition sample_catalog : list Z := sample_text ++ Layout.tensor_record sample_tensor ++ Layout.block_record sample_block.
Definition sample_summary : FileSummary :=
  mkSummary 1 2 (sample_offset + 25) (Z.of_nat (length sample_text)) 49 80 25 1 1 (replicate 32 7) (sha256 sample_catalog).
Definition sample_file : list Z :=
  match Layout.header sample_summary with Ok h => h ++ sample_catalog ++ two_stream | Err _ => [] end.
Definition sample_reader : WeightReader := mkReader ReadLimits_default sample_summary sample_metadata [sample_tensor] [sample_block].

Lemma sample_opens : Reader.open sample_file ReadLimits_default = Ok sample_reader.
Proof. vm_compute. reflexivity. Qed.

Lemma sample_bytes : Forall u8 sample_file.
Proof.
  assert (forallb (λ b, (0 <=? b) && (b <? 256)) sample_file = true) as E by (vm_compute; reflexivity).
  apply Forall_forall. intros b Hb%list_elem_of_In. rewrite List.forallb_forall in E. specialize (E b Hb). unfold u8. lia.
Qed.

Lemma default_u64 : limits_u64 ReadLimits_default.
Proof. repeat (constructor; [split; [done|reflexivity]|]). constructor. Qed.

Lemma open_format_witness : ∃ text payload, laid_out ReadLimits_default sample_file text payload sample_reader.
Proof. apply (open_format ReadLimits_default sample_file sample_reader default_u64 sample_bytes). exact sample_opens. Defined.

Lemma read_block_spec_witness : Reader.read_block sample_reader sample_file 0 = Ok (mkDecoded 0 0 0 [two; Encoding.one]) ∧
  reads sample_reader sample_file 0 (mkDecoded 0 0 0 [two; Encoding.one]).
Proof.
  assert (Reader.read_block sample_reader sample_file 0 = Ok (mkDecoded 0 0 0 [two; Encoding.one])) as E by (vm_compute; reflexivity).
  pose proof (read_block_spec ReadLimits_default sample_file sample_reader) as H. split; [exact E|].
  apply (H sample_file 0); [exact default_u64|exact sample_bytes|exact sample_bytes|exact sample_opens|exact E].
Defined.

Lemma verify_all_spec_witness : Reader.verify_all sample_reader sample_file = Ok (mkVerification 1 2 25 true) ∧ holds_all sample_reader sample_file.
Proof.
  assert (Reader.verify_all sample_reader sample_file = Ok (mkVerification 1 2 25 true)) as E by (vm_compute; reflexivity).
  split; [exact E|].
  destruct (verify_all_spec ReadLimits_default sample_file sample_reader sample_file default_u64 sample_bytes sample_bytes sample_opens) as [_ H].
  exact (proj1 (proj1 (H (mkVerification 1 2 25 true)) E)).
Defined.
