(* ===== verification/WeightWriter.v ===== *)
(** * writer.rs and memory.rs of model-weights: the transactional writer

    A writer collects certified weights block by block; finishing assembles the file, has a
    reader verify it, and publishes it under a name that nothing had. [writer_verified] says
    that the verification always succeeds, and that the reader gives the weights back. *)
From S2P Require Import Prelude Terms Encoding Exact Certified Text Bytes Stream WeightLimits WeightMetadata WeightFormat WeightReader.
#[local] Open Scope Z_scope.

(** The size of an [ExactStep] in memory. *)
Class StepSize : Type := step_size : Z.

Record WeightWriter : Set := mkWriter {
  catalog_metadata : list Z; source : Digest; options : WriteOptions;
  writer_tensors : list TensorInfo; writer_blocks : list BlockInfo; state : WriterState;
  written : Z; written_terms : Z; tensor_bytes : Z; written_payload : Z; replay_steps : Z;
  external : Z; spool : list Z;
}.

Record WriteReport : Set := mkWriteReport {
  report_summary : FileSummary; output_sha256 : Digest; terms_written : Z; peak_temporary_bytes : Z;
}.

(** ** Checks *)

Module Writer.
Import Cursor Reader.

(** [MemoryBudget::check]; the peak is left out. *)
Definition check_memory (external writer cap : Z) : Result Error unit :=
  Limits.check_limit MaxResidentBytes cap (checked_add external writer).

Definition require (self : WeightWriter) (operation : WriterOperation) (s : WriterState) : Result Error unit :=
  if bool_decide (state self = s) then Ok tt else Err (State operation (state self)).

Definition set_state (self : WeightWriter) (s : WriterState) : WeightWriter :=
  mkWriter (catalog_metadata self) (source self) (options self) (writer_tensors self) (writer_blocks self) s
    (written self) (written_terms self) (tensor_bytes self) (written_payload self) (replay_steps self) (external self) (spool self).

(** A failed operation leaves the writer aborted. *)
Definition poison {A} (self : WeightWriter) (result : Result (option Error) (A * WeightWriter)) : Result (option Error) A * WeightWriter :=
  match result with
  | Ok (a, self) => (Ok a, self)
  | Err e => (Err e, set_state self Aborted)
  end.

Definition blocks_len (self : WeightWriter) : Z := Z.of_nat (length (writer_blocks self)).

Definition check_size (self : WeightWriter) (tensor_bytes blocks payload : Z) : Result Error Z :=
  records ← mul blocks BLOCK_RECORD_BYTES; index ← add tensor_bytes records;
  _ ← Limits.check_limit MaxIndexBytes (max_index_bytes (limits (options self))) (Some index);
  bytes ← add HEADER_BYTES (Z.of_nat (length (catalog_metadata self))); bytes ← add bytes index; bytes ← add bytes payload;
  _ ← Limits.check_limit MaxOutputBytes
        (Z.min (max_output_bytes (conversion (options self))) (max_file_bytes (limits (options self)))) (Some bytes);
  Ok bytes.

Definition resident (self : WeightWriter) (index block proof : Z) : Result Error unit :=
  catalog ← add (Z.of_nat (length (catalog_metadata self))) index;
  a ← mul catalog 8; b ← mul block 8; ab ← add a b; c ← add proof 65536; required ← add ab c;
  check_memory (external self) required (max_resident_bytes (conversion (options self))).

(** ** Creation *)

(** [sort_by] on keys, which is stable. *)
Fixpoint insert_entry (e : GgufMetadataEntry) (l : list GgufMetadataEntry) : list GgufMetadataEntry :=
  match l with
  | [] => [e]
  | d :: l' => if Decode.string_lt (entry_key d) (entry_key e) then d :: insert_entry e l' else e :: l
  end.
Definition sort_entries (l : list GgufMetadataEntry) : list GgufMetadataEntry := foldr insert_entry [] l.

Definition prepare (m : ModelMetadata) (options : WriteOptions) : ModelMetadata :=
  mkMetadata (schema m) (profile m) (source_gguf_version m) (converter m) (codec m) (conversion options) (sort_entries (gguf m)).

(** [exists_already] says whether the destination does. *)
Definition create_accounted `{JsonText} (exists_already : bool) (m : ModelMetadata) (source_sha256 : Digest)
    (options : WriteOptions) (external : Z) : Result Error WeightWriter :=
  _ ← Limits.validate_write options;
  if exists_already then Err DestinationExists else
  let resident := max_resident_bytes (conversion options) in
  _ ← check_memory external 0 resident;
  let cap := (resident - external) / 8 in
  metadata ← Encode.encode (prepare m options) (limits options) cap;
  n ← mul (Z.of_nat (length metadata)) 8; n ← add n 65536;
  _ ← check_memory external n resident;
  Ok (mkWriter metadata source_sha256 options [] [] Ready 0 0 0 0 0 external []).

Definition create `{JsonText} exists_already m source_sha256 options : Result Error WeightWriter :=
  create_accounted exists_already m source_sha256 options 0.

(** ** Tensors *)

Definition begin (self : WeightWriter) (name : string) (dims : list Z) (dtype : SourceDtype) : Result Error (Z * WeightWriter) :=
  _ ← require self BeginTensor Ready;
  n ← add (Z.of_nat (length (writer_tensors self))) 1;
  _ ← Limits.check_limit MaxTensors (max_tensors (limits (options self))) (Some n);
  _ ← Limits.check_limit MaxNameBytes (max_name_bytes (limits (options self))) (Some (len name));
  if bool_decide (name = ""%string) || contains_nul name || bool_decide (name ∈ (WeightLimits.name <$> writer_tensors self))
  then format DuplicateTensor else
  if negb ((1 <=? Z.of_nat (length dims)) && (Z.of_nat (length dims) <=? 4)) || existsb (λ d, d =? 0) dims
  then format TensorShape else
  elements ← for_each (λ dim n, mul n dim) dims 1;
  total ← add (written_terms self) elements;
  _ ← Limits.check_limit MaxTotalTerms (max_total_terms (limits (options self))) (Some total);
  _ ← (if len name <? 2 ^ 32 then Ok tt else format ArithmeticOverflow);
  shape ← mul (Z.of_nat (length dims)) 8; n ← add shape (len name); n ← add 40 n;
  tensor_bytes ← add (tensor_bytes self) n;
  _ ← check_size self tensor_bytes (blocks_len self) (written_payload self);
  records ← mul (blocks_len self) 80; index ← add tensor_bytes records;
  _ ← resident self index 0 0;
  let id := Z.of_nat (length (writer_tensors self)) in
  Ok (id, mkWriter (catalog_metadata self) (source self) (options self)
    (writer_tensors self ++ [mkTensor id name dims dtype elements (blocks_len self) 0]) (writer_blocks self) TensorOpen
    0 (written_terms self) tensor_bytes (written_payload self) (replay_steps self) (external self) (spool self)).

Definition begin_tensor (self : WeightWriter) name dims dtype : Result (option Error) Z * WeightWriter :=
  poison self (checked (begin self name dims dtype)).

(** ** Blocks *)

Definition locate {A} (location : WeightLocation) (m : Result Error A) : Result Error A :=
  match m with
  | Err (Limit resource limit required _) => Err (Limit resource limit required (Some location))
  | m => m
  end.

Section block.
Context `{StepSize} (self : WeightWriter) (tensor : TensorInfo) (synth : ExactSynthesisOptions) (next_blocks block_bytes : Z).

(** One weight of the loop, over the replayed steps and the position. *)
Definition check_weight (weight : CertifiedBml) (s : Z * Z) : Result Error (Z * Z) :=
  let '(steps, i) := s in
  flat ← add (written self) i;
  let location := mkLocation (tensor_id tensor) (name tensor) flat in
  _ ← locate location (Limits.check_limit MaxWeightBits (Certified.max_bits synth) (Some (bit_len (term weight))));
  let step_count := Z.of_nat (length (Certified.steps (derivation weight))) in
  _ ← locate location (Limits.check_limit MaxSynthesisStepsPerWeight (max_steps synth) (Some step_count));
  steps ← add steps step_count;
  _ ← locate location (Limits.check_limit MaxSynthesisStepsTotal (max_synthesis_steps_total (conversion (options self))) (Some steps));
  n ← add (input_max_bits (rational synth) / 2) 256; n ← add step_size n; n ← mul step_count n;
  proof ← add (max_total_bits synth / 8) n;
  records ← mul next_blocks 80; index ← add (tensor_bytes self) records;
  _ ← resident self index block_bytes proof;
  _ ← map_err (Synthesis location) (Certified.verify (derivation weight) (term weight) (target weight) synth);
  Ok (steps, i + 1).
End block.

Definition depth_limit (o : WriteOptions) : Z := Z.min (max_weight_depth (limits o)) (conversion_weight_depth (conversion o)).

Definition block `{Sha256} `{StepSize} (self : WeightWriter) (weights : list CertifiedBml) : Result (option Error) (Z * WeightWriter) :=
  _ ← checked (require self WriteBlock TensorOpen);
  tensor ← ok_or None (last (writer_tensors self));
  if bool_decide (weights = []) then checked (format BlockCoverage) else
  let count := Z.of_nat (length weights) in
  let o := options self in
  _ ← checked (Limits.check_limit MaxBlockTerms (Z.min (max_block_terms (limits o)) (conversion_block_terms (conversion o))) (Some count));
  n ← checked (add (written self) count);
  if element_count tensor <? n then checked (format BlockCoverage) else
  next_blocks ← checked (add (blocks_len self) 1);
  _ ← checked (Limits.check_limit MaxBlocks (max_blocks (limits o)) (Some next_blocks));
  bits ← checked (for_each (λ w n, add n (bit_len (term w))) weights 0);
  block_bytes ← checked (n ← byte_length bits; add 24 n);
  _ ← checked (Limits.check_limit MaxBlockBytes (Z.min (max_block_bytes (limits o)) (conversion_block_bytes (conversion o))) (Some block_bytes));
  next_payload ← checked (add (written_payload self) block_bytes);
  _ ← checked (check_size self (tensor_bytes self) next_blocks next_payload);
  synth ← checked (Limits.effective_synthesis (mkConversionOptions o ExactSynthesisOptions_default));
  '(steps, _) ← checked (for_each (check_weight self tensor synth next_blocks block_bytes) weights (replay_steps self, 0));
  let id := blocks_len self in
  bytes ← checked (map_err (WeightLimits.Stream id)
    (Stream.encode_stream (term <$> weights) (mkStreamLimits bits count (depth_limit o))));
  let b := mkBlock id (tensor_id tensor) (written self) count (written_payload self) (Z.of_nat (length bytes)) bits (sha256 bytes) in
  let open := mkTensor (tensor_id tensor) (name tensor) (ggml_dimensions tensor) (source_dtype tensor) (element_count tensor)
    (WeightLimits.first_block tensor) (block_count tensor + 1) in
  Ok (id, mkWriter (catalog_metadata self) (source self) o (removelast (writer_tensors self) ++ [open]) (writer_blocks self ++ [b]) TensorOpen
    (written self + count) (written_terms self) (tensor_bytes self) next_payload steps (external self) (spool self ++ bytes)).

Definition write_block `{Sha256} `{StepSize} (self : WeightWriter) weights : Result (option Error) Z * WeightWriter :=
  poison self (block self weights).

Definition close (self : WeightWriter) : Result (option Error) (unit * WeightWriter) :=
  _ ← checked (require self EndTensor TensorOpen);
  tensor ← ok_or None (last (writer_tensors self));
  if negb (written self =? element_count tensor) then checked (format BlockCoverage) else
  total ← checked (add (written_terms self) (written self));
  Ok (tt, mkWriter (catalog_metadata self) (source self) (options self) (writer_tensors self) (writer_blocks self) Ready
    (written self) total (tensor_bytes self) (written_payload self) (replay_steps self) (external self) (spool self)).

Definition end_tensor (self : WeightWriter) : Result (option Error) unit * WeightWriter := poison self (close self).

(** ** The file *)

(** A block whose offset counts from the start of the file, not of the payload. *)
Definition shift (first : Z) (b : BlockInfo) : BlockInfo :=
  mkBlock (block_id b) (block_tensor b) (first_element b) (term_count b) (first + data_offset b) (data_bytes b) (useful_bits b)
    (WeightLimits.digest b).

Definition write_record (payload_offset : Z) (b : BlockInfo) (out : list Z) : Result Error (list Z) :=
  _ ← add payload_offset (data_offset b);
  Ok (out ++ Layout.block_record (shift payload_offset b)).

(** The header, the catalog and the payload. *)
Definition assemble `{Sha256} (self : WeightWriter) : Result Error (list Z * FileSummary) :=
  _ ← require self Finish Ready;
  if bool_decide (writer_tensors self = []) then format BlockCoverage else
  file_bytes ← check_size self (tensor_bytes self) (blocks_len self) (written_payload self);
  _ ← add file_bytes (written_payload self);
  block_bytes ← mul (blocks_len self) 80;
  index ← add (tensor_bytes self) block_bytes;
  _ ← resident self index (foldr Z.max 0 (data_bytes <$> writer_blocks self)) 0;
  let payload_offset := file_bytes - written_payload self in
  records ← for_each (write_record payload_offset) (writer_blocks self) [];
  let catalog := catalog_metadata self ++ concat (Layout.tensor_record <$> writer_tensors self) ++ records in
  let s := mkSummary 1 2 file_bytes (Z.of_nat (length (catalog_metadata self))) (tensor_bytes self) block_bytes
    (written_payload self) (Z.of_nat (length (writer_tensors self))) (blocks_len self) (source self) (sha256 catalog) in
  if negb (Z.of_nat (length (spool self)) =? written_payload self) then format FileLength else
  h ← Layout.header s;
  Ok (h ++ catalog ++ spool self, s).

(** The file that is published, under a name that nothing has, once a reader has verified it;
    [exists_already] says whether the name is taken. *)
Definition finish `{Sha256} `{JsonText} (exists_already : bool) (self : WeightWriter) : Result (option Error) (list Z * WriteReport) :=
  '(file, s) ← checked (assemble self);
  reader ← checked (Reader.open file (limits (options self)));
  _ ← Reader.verify_all reader file;
  if exists_already then checked (Err DestinationExists) else
  Ok (file, mkWriteReport s (sha256 file) (written_terms self) (file_bytes s + written_payload self)).

Definition abort (self : WeightWriter) : WeightWriter := set_state self Aborted.
End Writer.

(** ** Blocks *)

Definition options_u64 (o : WriteOptions) : Prop := limits_u64 (limits o) ∧ conversion_u64 (conversion o).

(** What the reader will accept of a term. *)
Definition within (o : WriteOptions) (t : ClosedTerm) : Prop :=
  tree_len t ≤ Z.min (max_weight_bits (limits o)) (conversion_weight_bits (conversion o)) ∧
  tree_depth t ≤ Z.min (max_weight_depth (limits o)) (conversion_weight_depth (conversion o)).

(** The bytes of a block hold certified weights. *)
Record holds `{Sha256} (o : WriteOptions) (b : BlockInfo) (bytes : list Z) (weights : list CertifiedBml) : Prop := mk_holds {
  holds_certified : Forall certified weights;
  holds_digest : WeightLimits.digest b = sha256 bytes;
  holds_length : data_bytes b = Z.of_nat (length bytes);
  holds_terms : ∃ ts, Forall2 Represents (term <$> weights) ts ∧ Framed ts bytes ∧ Z.of_nat (length ts) = term_count b ∧
    forest_len ts = useful_bits b ∧ useful_bits b + 7 < W64 ∧ Forall (within o) ts;
}.

Definition with_count (t : TensorInfo) (count : Z) : TensorInfo :=
  mkTensor (tensor_id t) (name t) (ggml_dimensions t) (source_dtype t) (element_count t) (WeightLimits.first_block t) count.

Lemma conversion_fits o : options_u64 o → Forall u64 [conversion_weight_bits (conversion o); conversion_weight_depth (conversion o);
  conversion_block_bytes (conversion o); conversion_block_terms (conversion o)].
Proof.
  intros [_ H]. unfold conversion_u64 in H. rewrite !Forall_cons in H. unfold Integer.fits in H. cbn in H.
  rewrite !Forall_cons. unfold u64. split_and!; try lia. apply Forall_nil_2.
Qed.

Lemma effective_options o s : Limits.effective_synthesis (mkConversionOptions o ExactSynthesisOptions_default) = Ok s →
  options_ok s ∧ Certified.max_bits s ≤ Z.min (max_weight_bits (limits o)) (conversion_weight_bits (conversion o)) ∧
  read_limits_ok (limits o) ∧ conversion_limits_ok (conversion o).
Proof.
  intros E. pose proof E as (H1 & H2 & H3 & H4 & H5 & H6 & H7)%effective_synthesis_ok. cbn [write WeightLimits.synthesis] in *.
  unfold Limits.effective_synthesis, Limits.validate_options in E. rewrite !bind_unit in E. destruct E as [[Hw _] _].
  apply validate_write_ok in Hw. split; [|split; [lia|done]].
  destruct options_default_ok as (D1 & [_ D2] & [_ D3] & D4 & D5). unfold options_ok, usize. rewrite H5, H6, H7. split_and!; (done || lia).
Qed.

Section blocks.
Context {Hash : Sha256} {Hash_laws : Sha256Laws} {Size : StepSize}.
Implicit Types (self : WeightWriter).

Lemma locate_ok {A} location (m : Result Error A) a : Writer.locate location m = Ok a ↔ m = Ok a.
Proof. destruct m as [|[]]; cbn; done. Qed.

Lemma check_weight_ok self t synth next bytes w s s' : options_ok synth → Writer.check_weight self t synth next bytes w s = Ok s' →
  certified w ∧ bit_len (term w) ≤ Certified.max_bits synth.
Proof.
  intros Ho. destruct s as [steps i]. unfold Writer.check_weight. intros R. apply bind_ok in R as (flat & _ & R).
  apply bind_unit in R as [Hb%locate_ok%limit_ok R]. apply bind_unit in R as [_ R]. apply bind_ok in R as (steps' & _ & R).
  apply bind_unit in R as [_ R]. do 6 (apply bind_ok in R as (? & _ & R)). apply bind_unit in R as [_ R].
  apply bind_ok in R as (c & Hv%map_err_ok & _). pose proof (verify_lemma synth (derivation w) (term w) (target w) Ho) as Hc. rewrite Hv in Hc.
  destruct Hc as [-> Hc]. by destruct w.
Qed.

Lemma check_weights_ok self t synth next bytes weights s s' : options_ok synth →
  for_each (Writer.check_weight self t synth next bytes) weights s = Ok s' →
  Forall (λ w, certified w ∧ bit_len (term w) ≤ Certified.max_bits synth) weights.
Proof.
  intros Ho. revert s. induction weights as [|w weights IH]; intros s R; [constructor|]. cbn [for_each] in R.
  apply bind_ok in R as (s1 & Hw & R). constructor; [by eapply check_weight_ok|by eapply IH].
Qed.

Lemma certified_terms weights : Forall certified weights → ∃ ts, Forall2 Represents (term <$> weights) ts.
Proof.
  induction 1 as [|w weights (ss & vs & t & _ & _ & _ & Ht) _ [ts IH]]; [by exists []|]. exists (t :: ts). by constructor.
Qed.

Lemma bits_sum (weights : list CertifiedBml) ts n bits : Forall2 Represents (term <$> weights) ts →
  for_each (λ w n, Cursor.add n (bit_len (term w))) weights n = Ok bits → bits = n + forest_len ts ∧ (bits = n ∨ bits < W64).
Proof.
  revert ts n. induction weights as [|w weights IH]; intros ts n HR R; inversion HR as [|? t ? ts' Hr HR']; subst.
  { injection R as ->. unfold forest_len. cbn. lia. }
  cbn [for_each] in R. apply bind_ok in R as (m & [-> Hm]%add_ok & R). destruct (IH _ _ HR' R) as [-> Hb].
  rewrite forest_len_cons, (Represents_bit_len Hr) in *. pose proof (forest_len_count ts'). lia.
Qed.

(** The writer after a block. *)
Definition add_block self (t : TensorInfo) (b : BlockInfo) (bytes : list Z) (steps : Z) : WeightWriter :=
  mkWriter (catalog_metadata self) (source self) (options self)
    (removelast (writer_tensors self) ++ [with_count t (block_count t + 1)]) (writer_blocks self ++ [b]) TensorOpen
    (written self + term_count b) (written_terms self) (tensor_bytes self) (written_payload self + data_bytes b) steps (external self)
    (spool self ++ bytes).

Lemma require_ok self operation s u : Writer.require self operation s = Ok u ↔ state self = s.
Proof. destruct u. unfold Writer.require. by case_bool_decide; split. Qed.

(** The stream of the terms within the limits of the block. *)
Lemma block_stream o weights ts bits bytes s : options_u64 o → read_limits_ok (limits o) → conversion_limits_ok (conversion o) →
  Certified.max_bits s ≤ Z.min (max_weight_bits (limits o)) (conversion_weight_bits (conversion o)) →
  Forall (λ w, certified w ∧ bit_len (term w) ≤ Certified.max_bits s) weights → Forall2 Represents (term <$> weights) ts →
  forest_len ts = bits → bits < W64 → Z.of_nat (length weights) < W64 →
  Stream.encode_stream (term <$> weights) (mkStreamLimits bits (Z.of_nat (length weights)) (Writer.depth_limit o)) = Ok bytes →
  Framed ts bytes ∧ bits + 7 < W64 ∧ Forall (within o) ts.
Proof.
  intros [Hlu Hcu] [_ _ _ _ Hr] [Hc _ _ _] Hs Hw HR Hbits Hb64 Hlen64 He. unfold limits_u64 in Hlu. rewrite !Forall_cons in Hlu. unfold u64 in Hlu.
  pose proof (forest_len_count ts) as Hfl. apply Forall2_length in HR as Hlen. rewrite length_fmap in Hlen.
  assert (stream_limits_ok (mkStreamLimits bits (Z.of_nat (length weights)) (Writer.depth_limit o))) as Hso.
  { unfold stream_limits_ok, usize, Writer.depth_limit. cbn. split_and!; lia. }
  pose proof (encode_stream_lemma _ ts _ Hso HR) as Hes. rewrite He in Hes. destruct Hes as [HF (_ & _ & H7 & Hd)]. split; [done|]. split; [lia|].
  cbn [stream_max_depth] in Hd. apply Forall_lookup_2. intros i t Ht. split; [|by eapply Forall_lookup_1 in Hd; [|done]].
  destruct (Forall2_lookup_r _ _ _ _ _ HR Ht) as (v & Hv & Hrt). rewrite list_lookup_fmap in Hv.
  destruct (weights !! i) as [w|] eqn:Ew; [|done]. injection Hv as <-. eapply Forall_lookup_1 in Hw as [_ Hw]; [|exact Ew].
  rewrite (Represents_bit_len Hrt) in Hw. lia.
Qed.

Lemma block_inv self weights id self' : options_u64 (options self) → 0 ≤ written self → Writer.block self weights = Ok (id, self') →
  ∃ t b bytes steps, state self = TensorOpen ∧ last (writer_tensors self) = Some t ∧ id = Writer.blocks_len self ∧
    block_id b = Writer.blocks_len self ∧ block_tensor b = tensor_id t ∧ WeightLimits.first_element b = written self ∧
    data_offset b = written_payload self ∧ written self + term_count b ≤ element_count t ∧
    Writer.blocks_len self + 1 ≤ max_blocks (limits (options self)) ∧
    (∀ md, metadata_limits md = conversion (options self) → block_entry (limits (options self)) md b) ∧
    holds (options self) b bytes weights ∧ self' = add_block self t b bytes steps.
Proof.
  intros Hu Hw0 R. unfold Writer.block, Reader.checked in R. apply bind_unit in R as [Hst%map_err_ok%require_ok R].
  apply bind_ok in R as (t & Ht%ok_or_ok & R). case_bool_decide as Hne; [done|].
  apply bind_unit in R as [Hcount%map_err_ok%limit_ok R]. apply bind_ok in R as (n & [-> Hn]%map_err_ok%add_ok & R).
  destruct (Z.ltb_spec (element_count t) (written self + Z.of_nat (length weights))) as [|Hle]; [done|].
  apply bind_ok in R as (nb & [-> _]%map_err_ok%add_ok & R). apply bind_unit in R as [Hmb%map_err_ok%limit_ok R].
  apply bind_ok in R as (bits & Hbits%map_err_ok & R). apply bind_ok in R as (bb & Hbb%map_err_ok & R).
  apply bind_unit in R as [Hmbb%map_err_ok%limit_ok R]. apply bind_ok in R as (np & [-> _]%map_err_ok%add_ok & R).
  apply bind_ok in R as (sz & _ & R). apply bind_ok in R as (synth & (Ho & Hsb & Hrl & Hcl)%map_err_ok%effective_options & R).
  apply bind_ok in R as ([steps k] & Hws%map_err_ok & R). apply check_weights_ok in Hws; [|done].
  apply bind_ok in R as (bytes & He%map_err_ok%map_err_ok & [= <- <-]).
  destruct (certified_terms weights) as [ts HR]; [eapply Forall_impl; [exact Hws|]; by intros w [? _]|].
  destruct (bits_sum _ _ _ _ HR Hbits) as [-> Hb64]. rewrite Z.add_0_l in *.
  pose proof (forest_len_count ts) as Hfl. apply Forall2_length in HR as Hlen. rewrite length_fmap in Hlen.
  assert (length weights ≠ 0%nat) as Hlen0 by (by destruct weights). assert (0 ≤ forest_len ts < W64) as Hf64 by lia.
  apply byte_length_ok in Hbb as ->; [|done].
  destruct (block_stream _ _ ts _ bytes synth Hu Hrl Hcl Hsb Hws HR eq_refl ltac:(lia) ltac:(lia) He) as (HF & H7 & Hin).
  pose proof (Framed_length _ _ HF) as Hbytes.
  exists t, (mkBlock (Writer.blocks_len self) (tensor_id t) (written self) (Z.of_nat (length weights)) (written_payload self) (Z.of_nat (length bytes)) (forest_len ts) (sha256 bytes)), bytes, steps.
  cbn [block_id block_tensor WeightLimits.first_element data_offset term_count]. split_and!; try done.
  - intros md Hmd. destruct (sha256_bytes bytes) as [H32 _]. split; cbn; rewrite ?Hmd; try done; unfold block_bytes in *; try lia.
  - split; cbn; try done; [eapply Forall_impl; [exact Hws|]; by intros w [? _]|]. exists ts. split_and!; (done || lia).
  - unfold add_block. cbn. do 2 f_equal. unfold block_bytes. lia.
Qed.
End blocks.

(** ** The state of a writer *)

Section weaken.
Context (l : ReadLimits) (md : ModelMetadata) (n m : Z) (Hnm : n ≤ m).

Lemma run_weaken t id first bs : run l md n t id first bs → run l md m t id first bs.
Proof. intros [H1 H2 H3 H4 H5 H6 H7]. split; (done || lia). Qed.

Lemma blocks_ok_weaken first ts bs : blocks_ok l md n first ts bs → blocks_ok l md m first ts bs.
Proof. induction 1; [constructor; lia|]. constructor; try done. by apply run_weaken. Qed.

Lemma tensors_ok_weaken ts : tensors_ok l n ts → tensors_ok l m ts.
Proof. intros [H1 H2 H3 H4 H5 H6]. split; (done || lia). Qed.
End weaken.

Lemma tensors_ok_tight l n ts : tensors_ok l n ts → tensors_ok l (sum block_count ts) ts.
Proof. intros [H1 H2 H3 H4 H5 H6]. by split. Qed.

(** What was asked for: the shapes of the tensors. *)
Definition shape (t : TensorInfo) : string * list Z * SourceDtype := (name t, ggml_dimensions t, source_dtype t).

Section invariant.
Context {Hash : Sha256} {Text : JsonText} (md : ModelMetadata) (o : WriteOptions) (origin : Digest).
Implicit Types (self : WeightWriter).

(** The parts of the state that every operation keeps, with the shapes and weights written. *)
Record base_ok self (shapes : list (string * list Z * SourceDtype)) (log : list (list CertifiedBml)) : Prop := mk_base_ok {
  base_same : options self = o ∧ source self = origin;
  base_options : options_u64 (options self) ∧ read_limits_ok (limits (options self));
  base_source : length (source self) = 32%nat ∧ Forall u8 (source self);
  base_metadata : Decode.decode (catalog_metadata self) (limits (options self)) = Ok md ∧
    metadata_limits md = conversion (options self) ∧ Forall u8 (catalog_metadata self) ∧
    Z.of_nat (length (catalog_metadata self)) ≤ max_metadata_bytes (limits (options self));
  base_counts : Z.of_nat (length (writer_tensors self)) ≤ max_tensors (limits (options self)) ∧
    Z.of_nat (length (writer_blocks self)) ≤ max_blocks (limits (options self));
  base_shapes : shape <$> writer_tensors self = shapes;
  base_sizes : tensor_bytes self = Z.of_nat (length (tensors_section (writer_tensors self))) ∧
    written_payload self = sum data_bytes (writer_blocks self);
  base_log : ∃ chunks, spool self = concat chunks ∧ Forall3 (holds (options self)) (writer_blocks self) chunks log;
}.

(** Between tensors. *)
Record ready_ok self : Prop := mk_ready_ok {
  ready_state : state self = Ready;
  ready_tensors : tensors_ok (limits (options self)) (Z.of_nat (length (writer_blocks self))) (writer_tensors self);
  ready_blocks : blocks_ok (limits (options self)) md (written_payload self) 0 (writer_tensors self) (writer_blocks self);
  ready_terms : written_terms self = sum element_count (writer_tensors self);
}.

(** Inside a tensor, which follows finished ones. *)
Record open_ok self (finished : list TensorInfo) (t : TensorInfo) (old cur : list BlockInfo) : Prop := mk_open_ok {
  open_state : state self = TensorOpen;
  open_catalog : writer_tensors self = finished ++ [t] ∧ writer_blocks self = old ++ cur;
  open_finished : tensors_ok (limits (options self)) (Z.of_nat (length old)) finished;
  open_old : blocks_ok (limits (options self)) md (written_payload self) 0 finished old;
  open_run : run (limits (options self)) md (written_payload self) t (Z.of_nat (length old)) (sum data_bytes old) cur;
  open_counts : block_count t = Z.of_nat (length cur) ∧ written self = sum term_count cur ∧ written_terms self = sum element_count finished;
  open_entry : tensor_entry (limits (options self)) (with_count t 1);
  open_next : tensor_id t = Z.of_nat (length finished) ∧ (name t ∉ name <$> finished) ∧
    WeightLimits.first_block t = Z.of_nat (length old) ∧
    sum element_count finished + element_count t ≤ max_total_terms (limits (options self)) ∧
    sum element_count finished + element_count t < W64;
}.

Definition writer_ok self shapes log : Prop :=
  base_ok self shapes log ∧ (ready_ok self ∨ ∃ finished t old cur, open_ok self finished t old cur).

(** ** Operations keep it *)

Lemma mul_product dims n m : for_each (λ dim n, Cursor.mul n dim) dims n = Ok m → m = n * product dims ∧ (dims = [] ∨ m < W64).
Proof.
  revert n. induction dims as [|d dims IH]; intros n R; cbn [for_each] in R; [injection R as ->; cbn; split; [lia|by left]|].
  apply bind_ok in R as (k & [-> Hk]%mul_ok & R). apply IH in R as [-> Hm]. cbn [product foldr]. fold (product dims). split; [lia|]. right.
  destruct Hm as [->|Hm]; [cbn; lia|lia].
Qed.

Lemma nonzero_dims dims : existsb (λ d, d =? 0) dims = false → Forall (λ d, 0 ≤ d) dims → Forall (λ d, 0 < d) dims.
Proof.
  intros He. induction 1 as [|d dims Hd _ IH]; [constructor|]. cbn in He. apply orb_false_iff in He as [?%Z.eqb_neq He]. constructor; [lia|auto].
Qed.

Lemma tensors_section_app a b : tensors_section (a ++ b) = tensors_section a ++ tensors_section b.
Proof. unfold tensors_section. by rewrite fmap_app, concat_app. Qed.

Lemma length_tensors_section_snoc ts t : Z.of_nat (length (tensors_section (ts ++ [t]))) =
  Z.of_nat (length (tensors_section ts)) + (40 + (8 * Z.of_nat (length (ggml_dimensions t)) + len (name t))).
Proof.
  rewrite tensors_section_app, length_app, Nat2Z.inj_add, <-length_tensor_record. unfold tensors_section at 2. cbn. by rewrite app_nil_r.
Qed.

Lemma begin_ok self name dims dtype id self' shapes log : base_ok self shapes log → ready_ok self →
  Utf8.from_utf8 (bytes_of name) = true → Forall (λ d, 0 ≤ d) dims → Writer.begin self name dims dtype = Ok (id, self') →
  ∃ t, base_ok self' (shapes ++ [(name, dims, dtype)]) log ∧ open_ok self' (writer_tensors self) t (writer_blocks self) [].
Proof.
  intros [Bsame Bo Bs Bm [Bt Bb] Bsh [Bz Bp] Bl] [_ Rt Rb Rw] Hutf Hdims R. unfold Writer.begin in R.
  apply bind_unit in R as [_ R]. apply bind_ok in R as (n & [-> _]%add_ok & R). apply bind_unit in R as [Hmt%limit_ok R].
  apply bind_unit in R as [Hmn%limit_ok R]. destruct (_ || _) eqn:E in R; [done|].
  apply orb_false_iff in E as [[E1%bool_decide_eq_false E2]%orb_false_iff E3%bool_decide_eq_false].
  destruct (_ || _) eqn:E in R; [done|]. apply orb_false_iff in E as [[E4%Z.leb_le E5%Z.leb_le]%negb_false_iff%andb_true_iff E6].
  apply bind_ok in R as (elements & [-> Hew]%mul_product & R). rewrite Z.mul_1_l in *.
  assert (dims ≠ []) as Hdne by (intros ->; cbn in E4; lia). destruct Hew as [|Hew]; [done|].
  pose proof (nonzero_dims dims E6 Hdims) as Hpos.
  apply bind_ok in R as (total & [-> Htw]%add_ok & R). apply bind_unit in R as [Htot%limit_ok R].
  apply bind_unit in R as [Hn32 R]. destruct (Z.ltb_spec (len name) (2 ^ 32)) as [Hlen|]; [|done]. clear Hn32.
  apply bind_ok in R as (sh & [-> _]%mul_ok & R). apply bind_ok in R as (n1 & [-> _]%add_ok & R). apply bind_ok in R as (n2 & [-> _]%add_ok & R).
  apply bind_ok in R as (tb & [-> _]%add_ok & R). do 3 (apply bind_ok in R as (? & _ & R)). apply bind_unit in R as [_ [= <- <-]].
  pose proof (blocks_ok_count _ _ _ _ _ _ Rb) as Hcount. set (t := mkTensor _ name dims dtype (product dims) _ 0). exists t. split.
  - split; cbn [options source catalog_metadata writer_tensors writer_blocks tensor_bytes written_payload spool]; try done.
    + rewrite length_app. cbn [length]. lia.
    + by rewrite fmap_app, Bsh.
    + rewrite length_tensors_section_snoc. cbn [ggml_dimensions WeightLimits.name t]. split; [lia|done].
  - split; cbn [options writer_tensors writer_blocks written_payload written written_terms state]; try done.
    + by rewrite app_nil_r.
    + apply run_nil; [cbn; pose proof (product_pos _ Hpos); lia|rewrite Bp; lia].
    + cbn [tensor_id WeightLimits.name WeightLimits.first_block element_count t]. unfold Writer.blocks_len. rewrite <-Rw. split_and!; (done || lia).
Qed.

Lemma close_ok self self' shapes log finished t old cur : base_ok self shapes log → open_ok self finished t old cur →
  Writer.close self = Ok (tt, self') → base_ok self' shapes log ∧ ready_ok self'.
Proof.
  intros [Bsame Bo Bs Bm [Bt Bb] Bsh [Bz Bp] Bl] [_ [Oc1 Oc2] Of Oo Or (On1 & On2 & On3) Oe (Ox1 & Ox2 & Ox3 & Ox4 & Ox5)] R. unfold Writer.close, Reader.checked in R.
  apply bind_unit in R as [_ R]. apply bind_ok in R as (t' & Ht%ok_or_ok & R). rewrite Oc1, last_snoc in Ht. injection Ht as <-.
  destruct (Z.eqb_spec (written self) (element_count t)) as [Hw|]; cbn [negb] in R; [|done].
  apply bind_ok in R as (total & [-> _]%map_err_ok%add_ok & [= <-]). split; [split; done|].
  pose proof (blocks_ok_count _ _ _ _ _ _ Oo) as Hcount. destruct Oe as [N1 N2 N3 (N4 & N5 & N6) N7].
  cbn [with_count name ggml_dimensions element_count block_count] in *. pose proof (product_pos _ N4) as Hpp.
  assert (0 < block_count t) as Hbc by (rewrite On1; destruct cur; cbn [length sum foldr] in *; lia).
  split; cbn [options writer_tensors writer_blocks written_payload written written_terms state]; try done.
  - rewrite Oc1, Oc2, length_app. apply tensors_ok_snoc. split; [eapply tensors_ok_weaken; [|exact Of]; lia|].
    unfold next_tensor. split_and!; try done; lia.
  - rewrite Oc1, Oc2. constructor; [done|done|lia|lia].
  - rewrite Oc1, sum_snoc. lia.
Qed.

Lemma run_with_count l fb t n id first bs : run l md fb t id first bs → run l md fb (with_count t n) id first bs.
Proof. intros [H1 H2 H3 H4 H5 H6 H7]. by split. Qed.

Lemma tensor_record_with_count t n : length (Layout.tensor_record (with_count t n)) = length (Layout.tensor_record t).
Proof. apply Nat2Z.inj. by rewrite !length_tensor_record. Qed.

Lemma write_block_ok {Hash_laws : Sha256Laws} {Size : StepSize} self self' id shapes log finished t old cur weights : base_ok self shapes log →
  open_ok self finished t old cur → Writer.block self weights = Ok (id, self') →
  ∃ b, base_ok self' shapes (log ++ [weights]) ∧ open_ok self' finished (with_count t (block_count t + 1)) old (cur ++ [b]).
Proof.
  intros [Bsame [Bo Bo'] Bs (Bm & Bm' & Bm2) [Bt Bb] Bsh [Bz Bp] (chunks & Bl1 & Bl2)] [_ [Oc1 Oc2] Of Oo Or (On1 & On2 & On3) Oe Ox] R.
  pose proof (run_sums _ _ _ (run_entries _ _ _ _ _ _ _ Or)) as [Hs1 Hs2].
  apply block_inv in R as (t' & b & bytes & steps & _ & Ht & -> & Hb1 & Hb2 & Hb3 & Hb4 & Hb5 & Hb6 & Hb7 & Hb8 & ->); [|done|lia].
  rewrite Oc1, last_snoc in Ht. injection Ht as <-. specialize (Hb7 md Bm'). pose proof (data_bytes_pos _ _ _ Hb7) as Hdp. exists b. unfold Writer.blocks_len in *.
  assert (removelast (writer_tensors self) = finished) as Hrl by (rewrite Oc1; by rewrite removelast_last).
  split.
  - split; cbn [add_block options source catalog_metadata writer_tensors writer_blocks tensor_bytes written_payload spool]; try done.
    + rewrite Hrl, !length_app. rewrite Oc1, length_app in Bt. cbn [length] in *. lia.
    + rewrite Hrl, fmap_app, <-Bsh, Oc1, fmap_app. done.
    + rewrite Hrl, sum_snoc, <-Bp, Bz, Oc1, !length_tensors_section_snoc. done.
    + exists (chunks ++ [bytes]). rewrite concat_app, Bl1. cbn. rewrite app_nil_r. split; [done|]. apply Forall3_app; [done|]. constructor; [done|constructor].
  - split; cbn [add_block options writer_tensors writer_blocks written_payload written written_terms state]; try done.
    + by rewrite Hrl, Oc2, app_assoc.
    + eapply blocks_ok_weaken; [|exact Oo]. lia.
    + apply run_with_count. apply (run_snoc _ _ _ t old). split; [eapply run_weaken; [|exact Or]; lia|].
      unfold next_block. rewrite <-Oc2. rewrite Oc2, sum_app in Bp. split_and!; (done || lia).
    + cbn [with_count block_count]. rewrite length_app, sum_snoc. cbn [length]. split_and!; lia.
Qed.
End invariant.

(** ** Creation *)

Lemma insert_entry_perm e l : Writer.insert_entry e l ≡ₚ e :: l.
Proof. induction l as [|d l IH]; cbn; [done|]. destruct (Decode.string_lt _ _); [|done]. rewrite IH. apply perm_swap. Qed.

Lemma sort_entries_perm l : Writer.sort_entries l ≡ₚ l.
Proof. induction l as [|e l IH]; [done|]. cbn. by rewrite insert_entry_perm, IH. Qed.

Lemma prepare_ok m o : metadata_ok m → options_u64 o → metadata_ok (Writer.prepare m o).
Proof.
  intros [H1 H2 H3 H4] [_ Ho]. split; cbn [Writer.prepare metadata_limits gguf schema source_gguf_version profile converter codec]; try done.
  by rewrite sort_entries_perm.
Qed.

Section creation.
Context {Hash : Sha256} {Text : JsonText} {Text_laws : JsonTextLaws}.

Lemma create_ok exists_already m source_sha256 o external self : metadata_ok m → options_u64 o → 0 ≤ external →
  length source_sha256 = 32%nat → Forall u8 source_sha256 →
  Writer.create_accounted exists_already m source_sha256 o external = Ok self →
  base_ok (Writer.prepare m o) o source_sha256 self [] [] ∧ ready_ok (Writer.prepare m o) self.
Proof.
  intros Hm Ho Hex Hs Hs8 R. unfold Writer.create_accounted in R. apply bind_unit in R as [[Hrl Hcl]%validate_write_ok R].
  destruct exists_already; [done|]. apply bind_unit in R as [Hmem R]. unfold Writer.check_memory in Hmem.
  apply check_limit_none in Hmem as (n & [-> _]%checked_add_Some & Hmem). apply bind_ok in R as (text & He & R).
  pose proof (prepare_ok m o Hm Ho) as Hp. pose proof Hrl as [L1 L2 L3 L4 L5].
  assert (0 ≤ (max_resident_bytes (conversion o) - external) / 8) as Hcap by (apply Z.div_pos; lia).
  pose proof (encode_decode _ (limits o) _ _ Hp Hcap ltac:(lia) He) as Hd. apply encode_written in He as (-> & _ & Hlen & _); [|done|lia].
  apply bind_ok in R as (k & _ & R). apply bind_ok in R as (k' & _ & R). apply bind_unit in R as [_ [= <-]].
  destruct (print_bytes _ (printable_wire _ Hp)) as [H8 _]. split.
  - split; cbn; try done; try lia. exists []. split; [done|constructor].
  - split; cbn; try done; [apply tensors_ok_nil; lia|constructor; lia].
Qed.
End creation.

(** ** The finished file *)

Section shift.
Context (d : Z).

Lemma sum_shift (f : BlockInfo → Z) bs : (∀ b, f (Writer.shift d b) = f b) → sum f (Writer.shift d <$> bs) = sum f bs.
Proof. intros Hf. induction bs as [|b bs IH]; [done|]. cbn [fmap list_fmap sum foldr]. rewrite Hf. fold (sum f bs). by f_equal. Qed.

Lemma chain_shift (start size : BlockInfo → Z) k first bs last : (∀ b, start (Writer.shift d b) = k + start b) → (∀ b, size (Writer.shift d b) = size b) →
  chain start size first bs last → chain start size (k + first) (Writer.shift d <$> bs) (k + last).
Proof.
  intros H1 H2. revert first. induction bs as [|b bs IH]; intros first; cbn [chain fmap list_fmap]; [by intros ->|].
  rewrite H1, H2. intros [-> Hc]. split; [done|]. rewrite <-Z.add_assoc. by apply IH.
Qed.

Lemma run_shift l md fb t id first bs : run l md fb t id first bs → run l md (d + fb) t id (d + first) (Writer.shift d <$> bs).
Proof.
  intros [H1 H2 H3 H4 H5 H6 H7]. split.
  - by rewrite <-list_fmap_compose, length_fmap.
  - apply Forall_fmap. eapply Forall_impl; [exact H2|]. intros b [E1 E2 E3 E4]. by split.
  - apply Forall_fmap. exact H3.
  - rewrite sum_shift by done. apply (chain_shift _ _ 0 0 bs (sum term_count bs)); done.
  - rewrite sum_shift by done. rewrite <-Z.add_assoc. by apply chain_shift.
  - by rewrite sum_shift.
  - rewrite sum_shift by done. lia.
Qed.

Lemma blocks_ok_shift l md fb first ts bs : blocks_ok l md fb first ts bs → blocks_ok l md (d + fb) (d + first) ts (Writer.shift d <$> bs).
Proof.
  induction 1 as [|ts t all bs _ IH Hr Hl Hs]; [constructor; lia|]. rewrite fmap_app. constructor; [done| | |].
  - rewrite length_fmap, sum_shift by done. rewrite <-Z.add_assoc. by apply run_shift.
  - by rewrite length_fmap.
  - by rewrite sum_shift.
Qed.
End shift.

Lemma write_records_ok first bs out records : for_each (Writer.write_record first) bs out = Ok records →
  records = out ++ blocks_section (Writer.shift first <$> bs).
Proof.
  unfold blocks_section. revert out. induction bs as [|b bs IH]; intros out R; cbn [for_each] in R; [injection R as <-; by rewrite app_nil_r|].
  apply bind_ok in R as (o & R1 & R). apply bind_ok in R1 as (n & _ & [= <-]). apply IH in R as ->. cbn. by rewrite <-app_assoc.
Qed.

Lemma chain_start {A} (start size : A → Z) first l last i x : chain start size first l last → l !! i = Some x →
  start x = first + sum size (list.take i l).
Proof.
  revert first i. induction l as [|y l IH]; intros first i; [done|]. cbn [chain]. intros [<- Hc]. destruct i as [|i]; cbn.
  - intros [= ->]. lia.
  - intros Hi. fold (sum size (list.take i l)). rewrite (IH _ _ Hc Hi). lia.
Qed.

Section finished.
Context {Hash : Sha256} {Hash_laws : Sha256Laws} {Text : JsonText} (md : ModelMetadata) (o : WriteOptions) (origin : Digest).

Lemma chunks_length opts bs chunks log i : Forall3 (holds opts) bs chunks log →
  Z.of_nat (length (concat (list.take i chunks))) = sum data_bytes (list.take i bs).
Proof.
  intros Hl. revert i. induction Hl as [|b c w bs chunks log Hb _ IH]; intros i; [by destruct i|]. destruct i as [|i]; [done|].
  cbn [list.take concat sum foldr]. fold (sum data_bytes (list.take i bs)). rewrite length_app, Nat2Z.inj_add, IH, (holds_length _ _ _ _ Hb). done.
Qed.

Lemma chunk_data opts prefix bs chunks log i b c : Forall3 (holds opts) bs chunks log → chain data_offset data_bytes 0 bs (sum data_bytes bs) →
  bs !! i = Some b → chunks !! i = Some c → data_bytes b = Z.of_nat (length c) →
  block_data (prefix ++ concat chunks) (Writer.shift (Z.of_nat (length prefix)) b) = c.
Proof.
  intros Hl Hc Hb Hi Hlen. unfold block_data. cbn [Writer.shift data_offset data_bytes].
  pose proof (chain_start _ _ _ _ _ _ _ Hc Hb) as Hs. rewrite <-(chunks_length opts bs chunks log i Hl) in Hs.
  rewrite <-(take_drop_middle chunks i c Hi) at 1. rewrite concat_app, app_assoc. cbn [concat].
  apply slice_app; [rewrite length_app; lia|lia].
Qed.

(** The bytes of the file are bytes. *)
Lemma tensors_section_u8 ts : Forall u8 (tensors_section ts).
Proof.
  unfold tensors_section. apply Forall_concat, Forall_fmap, Forall_true. intros t. unfold compose, Layout.tensor_record.
  rewrite !Forall_app. split_and!; try apply le_bytes_ok; [apply dims_bytes|apply bytes_of_u8].
Qed.

Lemma blocks_section_u8 bs : Forall (λ b, Forall u8 (WeightLimits.digest b)) bs → Forall u8 (blocks_section bs).
Proof.
  intros Hd. unfold blocks_section. apply Forall_concat, Forall_fmap. eapply Forall_impl; [exact Hd|]. intros b Hb. unfold compose, Layout.block_record.
  rewrite !Forall_app. split_and!; try apply le_bytes_ok. exact Hb.
Qed.

Lemma header_bytes_u8 f : Forall u8 (source_sha256 (Reader.fields_summary f)) → Forall u8 (catalog_sha256 (Reader.fields_summary f)) → Forall u8 (header_bytes f).
Proof.
  intros H1 H2. unfold header_bytes, fields_bytes, Layout.header_fields. rewrite !Forall_app. split_and!; try apply le_bytes_ok; try done.
  - by repeat constructor.
  - apply sha256_bytes.
  - by apply Forall_replicate.
Qed.

Lemma log_u8 opts bs chunks log : Forall3 (holds opts) bs chunks log → Forall u8 (concat chunks) ∧ Forall (λ b, Forall u8 (WeightLimits.digest b)) bs.
Proof.
  induction 1 as [|b c w bs chunks log [_ Hd _ (ts & _ & HF & _)] _ [IH1 IH2]]; [by repeat constructor|]. split.
  - cbn. apply Forall_app. split; [by eapply Framed_bytes|done].
  - constructor; [rewrite Hd; apply sha256_bytes|done].
Qed.

Definition reader_of (self : WeightWriter) (s : FileSummary) : WeightReader :=
  mkReader (limits (options self)) s md (writer_tensors self)
    (Writer.shift (file_bytes s - written_payload self) <$> writer_blocks self).

Lemma assemble_laid_out self shapes log file s : base_ok md o origin self shapes log → ready_ok md self → Writer.assemble self = Ok (file, s) →
  laid_out (limits (options self)) file (catalog_metadata self) (spool self) (reader_of self s) ∧ Forall u8 file ∧
  (∃ prefix, file = prefix ++ spool self ∧ Z.of_nat (length prefix) = file_bytes s - written_payload self).
Proof.
  intros [Bsame [Bo Bo'] [Bs Bs8] (Bm & Bm' & Bm8 & Bm2) [Bt Bb] Bsh [Bz Bp] (chunks & Bl1 & Bl2)] [_ Rt Rb Rw] R. unfold Writer.assemble in R.
  apply bind_unit in R as [_ R]. case_bool_decide as Hne; [done|]. apply bind_ok in R as (fb & Hcs & R).
  unfold Writer.check_size in Hcs. apply bind_ok in Hcs as (x1 & [-> _]%mul_ok & Hcs). apply bind_ok in Hcs as (x2 & [-> _]%add_ok & Hcs).
  apply bind_unit in Hcs as [Hix%limit_ok Hcs]. do 3 (apply bind_ok in Hcs as (? & [-> _]%add_ok & Hcs)).
  apply bind_unit in Hcs as [Hout%limit_ok [= <-]]. apply bind_ok in R as (pk & _ & R). apply bind_ok in R as (bb & [-> _]%mul_ok & R).
  apply bind_ok in R as (ix & _ & R). apply bind_unit in R as [_ R]. apply bind_ok in R as (records & ->%write_records_ok & R).
  change (0 + 0) with 0 in R. cbn [app] in R. change BLOCK_RECORD_BYTES with 80 in *. change HEADER_BYTES with 256 in *. unfold Writer.blocks_len in *.
  set (fb := 256 + _ + _ + written_payload self) in *. set (first := fb - written_payload self) in *.
  destruct (Z.eqb_spec (Z.of_nat (length (spool self))) (written_payload self)) as [Hsp|]; cbn [negb] in R; [|done].
  apply bind_ok in R as (h & Hh & R). fold (tensors_section (writer_tensors self)) in Hh, R.
  pose proof (blocks_ok_shift first _ _ _ _ _ _ Rb) as Hblocks. pose proof (blocks_ok_entries _ _ _ _ _ _ Hblocks) as Hentries.
  pose proof (length_blocks_section _ _ _ Hentries) as Hbl. rewrite length_fmap in Hbl.
  set (bs := Writer.shift first <$> writer_blocks self) in *. set (catalog := catalog_metadata self ++ _ ++ blocks_section bs) in *.
  destruct (sha256_bytes catalog) as [Hd32 Hd8].
  injection R as Ef Es. pose proof (header_fields_of _ _ Hh eq_refl eq_refl) as Eh. rewrite Es in Hh, Eh.
  assert (length h = 256%nat) as H256 by (rewrite Eh; apply length_header_bytes; rewrite <-Es; done).
  assert (Z.of_nat (length catalog) = Z.of_nat (length (catalog_metadata self)) + (tensor_bytes self + Z.of_nat (length (writer_blocks self)) * 80)) as Lcat
    by (unfold catalog; rewrite !length_app; lia).
  assert (Z.of_nat (length file) = fb) as Lfile by (rewrite <-Ef, !length_app; unfold fb; lia).
  assert (file_bytes s = fb) as Efb by (by rewrite <-Es). split; [|split].
  - split; cbn [reader_of summary reader_limits tensors blocks metadata]; rewrite ?Efb; fold first; fold bs; try done.
    + exists h. split; [done|]. by rewrite <-Ef.
    + rewrite <-Es. cbn [source_sha256]. f_equal; try done; try lia. unfold bs. by rewrite length_fmap.
    + by rewrite <-Es.
    + rewrite Bm'. lia.
    + unfold bs. rewrite length_fmap. destruct (writer_tensors self); [done|]. cbn [length] in *. lia.
    + unfold bs. by rewrite length_fmap.
    + rewrite Lfile, Hsp. split; [|unfold bs; by rewrite sum_shift]. 
      replace fb with (first + written_payload self) at 1 by (unfold first; lia). fold first. by replace first with (first + 0) at 2 by lia.
  - destruct (log_u8 _ _ _ _ Bl2) as [Hsp8 Hdig8]. rewrite <-Ef, Eh. rewrite Forall_app. split; [apply header_bytes_u8; rewrite <-Es; done|].
    unfold catalog. rewrite !Forall_app. split_and!; [done|apply tensors_section_u8|apply blocks_section_u8, Forall_fmap; exact Hdig8|by rewrite Bl1].
  - exists (h ++ catalog). rewrite <-Ef, <-app_assoc, length_app, Efb. split; [done|]. unfold fb. lia.
Qed.
End finished.

(** ** Sequences of calls *)

Inductive Call : Set :=
  | BeginCall (name : string) (dims : list Z) (dtype : SourceDtype)
  | WriteCall (weights : list CertifiedBml)
  | EndCall.

(** Names are UTF-8 and dimensions are [u64]. *)
Definition call_ok (c : Call) : Prop :=
  match c with BeginCall name dims _ => Utf8.from_utf8 (bytes_of name) = true ∧ Forall u64 dims | _ => True end.

Section calls.
Context {Hash : Sha256} {Size : StepSize}.

Definition perform (self : WeightWriter) (c : Call) : Result (option Error) Z * WeightWriter :=
  match c with
  | BeginCall name dims dtype => Writer.begin_tensor self name dims dtype
  | WriteCall weights => Writer.write_block self weights
  | EndCall => let '(r, w) := Writer.end_tensor self in ((λ _, 0) <$> r, w)
  end.

(** Calls of which none fails. *)
Fixpoint run_calls (self : WeightWriter) (calls : list Call) : option WeightWriter :=
  match calls with
  | [] => Some self
  | c :: calls => match perform self c with (Ok _, w) => run_calls w calls | (Err _, _) => None end
  end.

Definition shapes_of (calls : list Call) : list (string * list Z * SourceDtype) :=
  omap (λ c, match c with BeginCall name dims dtype => Some (name, dims, dtype) | _ => None end) calls.
Definition weights_of (calls : list Call) : list (list CertifiedBml) :=
  omap (λ c, match c with WriteCall weights => Some weights | _ => None end) calls.

Lemma poison_ok {A} self (m : Result (option Error) (A * WeightWriter)) a w : Writer.poison self m = (Ok a, w) → m = Ok (a, w).
Proof. destruct m as [[b v]|]; cbn; [by intros [= -> ->]|done]. Qed.

Lemma begin_state self name dims dtype id self' : Writer.begin self name dims dtype = Ok (id, self') → state self = Ready.
Proof. unfold Writer.begin. by intros [H%require_ok _]%bind_unit. Qed.

Context {Hash_laws : Sha256Laws} {Text : JsonText} (md : ModelMetadata) (o : WriteOptions) (origin : Digest).

Lemma perform_keeps self c r self' shapes log : writer_ok md o origin self shapes log → call_ok c → perform self c = (Ok r, self') →
  writer_ok md o origin self' (shapes ++ shapes_of [c]) (log ++ weights_of [c]).
Proof.
  intros [Hb Hs] Hc. destruct c as [name dims dtype|weights|]; cbn [perform shapes_of weights_of omap list_omap]; rewrite ?app_nil_r.
  - intros E%poison_ok%map_err_ok. pose proof (begin_state _ _ _ _ _ _ E) as Hst. destruct Hs as [Hr|(f & t & old & cur & Ho)]; [|by rewrite (open_state _ _ _ _ _ _ Ho) in Hst].
    destruct Hc as [Hu Hd]. destruct (begin_ok _ _ _ _ _ _ _ _ _ _ _ Hb Hr Hu ltac:(eapply Forall_impl; [exact Hd|]; by intros d [? _]) E) as (t & Hb' & Ho). split; [done|]. right. by exists (writer_tensors self), t, (writer_blocks self), [].
  - intros E%poison_ok. destruct Hs as [Hr|(f & t & old & cur & Ho)].
    { unfold Writer.block in E. apply bind_unit in E as [E%map_err_ok%require_ok _]. by rewrite (ready_state _ _ Hr) in E. }
    destruct (write_block_ok _ _ _ _ _ _ _ _ _ _ _ _ _ Hb Ho E) as (b & Hb' & Ho'). split; [done|]. right. by exists f, (with_count t (block_count t + 1)), old, (cur ++ [b]).
  - unfold Writer.end_tensor. destruct (Writer.poison self (Writer.close self)) as [[[]|] w] eqn:E; cbn; [|done]. intros [= <- <-]. apply poison_ok in E.
    destruct Hs as [Hr|(f & t & old & cur & Ho)].
    { unfold Writer.close in E. apply bind_unit in E as [E%map_err_ok%require_ok _]. by rewrite (ready_state _ _ Hr) in E. }
    destruct (close_ok _ _ _ _ _ _ _ _ _ _ _ Hb Ho E) as [Hb' Hr]. split; [done|]. by left.
Qed.

Lemma run_calls_keeps self calls w shapes log : writer_ok md o origin self shapes log → Forall call_ok calls → run_calls self calls = Some w →
  writer_ok md o origin w (shapes ++ shapes_of calls) (log ++ weights_of calls).
Proof.
  intros Hw Hc. revert self shapes log Hw. induction Hc as [|c calls Hc _ IH]; intros self shapes log Hw R; cbn [run_calls] in R.
  { injection R as <-. cbn. by rewrite !app_nil_r. }
  destruct (perform self c) as [[r|] self'] eqn:E; [|done]. pose proof (perform_keeps _ _ _ _ _ _ Hw Hc E) as Hw'. apply (IH _ _ _ Hw') in R.
  rewrite <-!app_assoc in R. unfold shapes_of, weights_of in *. by rewrite <-!omap_app in R.
Qed.
End calls.

(** ** Finishing *)

Section finishing.
Context {Hash : Sha256} {Hash_laws : Sha256Laws} {Text : JsonText} (md : ModelMetadata) (o : WriteOptions) (origin : Digest).

Lemma chunk_stored self shapes log file s i b weights : base_ok md o origin self shapes log → ready_ok md self →
  Writer.assemble self = Ok (file, s) → writer_blocks self !! i = Some b → log !! i = Some weights →
  ∃ ts, stored (reader_of md self s) file (Writer.shift (file_bytes s - written_payload self) b) ts ∧ Forall2 Represents (term <$> weights) ts ∧ Forall certified weights.
Proof.
  intros Hb Hr Ha Hbi Hlog. destruct (assemble_laid_out _ _ _ _ _ _ _ _ Hb Hr Ha) as (_ & _ & prefix & -> & Hprefix).
  destruct (base_log _ _ _ _ _ _ Hb) as (chunks & Hsp & Hl). destruct (base_metadata _ _ _ _ _ _ Hb) as (_ & Hmd & _).
  pose proof (blocks_ok_offsets _ _ _ _ _ _ (ready_blocks _ _ Hr)) as Hchain. rewrite Z.add_0_l in Hchain.
  destruct (Forall3_lookup_l _ _ _ _ _ _ Hl Hbi) as (c & w & Hc & Hw & Hh). rewrite Hlog in Hw. injection Hw as <-.
  pose proof (chunk_data _ prefix _ _ _ _ _ _ Hl Hchain Hbi Hc (holds_length _ _ _ _ Hh)) as Hdata.
  rewrite <-Hsp, Hprefix in Hdata. destruct Hh as [Hcert Hd _ (ts & HR & HF & H1 & H2 & H3 & H4)]. exists ts. split; [|done].
  split; cbn [Writer.shift WeightLimits.digest term_count useful_bits]; rewrite ?Hdata; try done.
  eapply Forall_impl; [exact H4|]. intros t Ht. unfold weight_bits, weight_depth. cbn [reader_of reader_limits metadata]. rewrite Hmd. exact Ht.
Qed.

Lemma finish_ok self shapes log file s : base_ok md o origin self shapes log → ready_ok md self → Writer.assemble self = Ok (file, s) →
  Reader.open file (limits o) = Ok (reader_of md self s) ∧
  Writer.finish false self = Ok (file, mkWriteReport s (sha256 file) (written_terms self) (file_bytes s + written_payload self)) ∧
  (∀ i weights, log !! i = Some weights → Forall certified weights ∧
    ∃ b, Reader.read_block (reader_of md self s) file (Z.of_nat i) = Ok b ∧ terms b = term <$> weights).
Proof.
  intros Hb Hr Ha. destruct (assemble_laid_out _ _ _ _ _ _ _ _ Hb Hr Ha) as (Hlaid & Hu8 & _).
  destruct (base_same _ _ _ _ _ _ Hb) as [Ho _]. destruct (base_options _ _ _ _ _ _ Hb) as [[Hlu _] _]. rewrite Ho in *.
  assert (Reader.open file (limits o) = Ok (reader_of md self s)) as Hopen by (apply (open_iff _ Hlu); [done|by eexists _, _]).
  destruct (base_log _ _ _ _ _ _ Hb) as (chunks & _ & Hl). pose proof (Forall3_length_lr _ _ _ _ Hl) as Hlen.
  assert (Z.of_nat (length file) = file_bytes (summary (reader_of md self s))) as Hflen by (by rewrite (laid_summary _ _ _ _ _ Hlaid)).
  split; [done|]. split.
  - unfold Writer.finish. rewrite Ha, Ho. unfold Reader.checked. cbn [map_err]. rewrite Ok_bind, Hopen. cbn [map_err]. rewrite Ok_bind.
    rewrite (proj2 (verify_all_iff _ Hlu file _ file (full_report (reader_of md self s)) Hu8 Hu8 Hopen)); [done|]. split; [|done]. split; [done|].
    intros i info Hi. cbn [reader_of blocks] in Hi. rewrite list_lookup_fmap in Hi. destruct (writer_blocks self !! i) as [b|] eqn:Hbi; [|done].
    injection Hi as <-. destruct (lookup_lt_is_Some_2 log i) as [weights Hw]; [rewrite <-Hlen; by eapply lookup_lt_Some|].
    destruct (chunk_stored _ _ _ _ _ _ _ _ Hb Hr Ha Hbi Hw) as (ts & Hst & _). by exists ts.
  - intros i weights Hw. destruct (lookup_lt_is_Some_2 (writer_blocks self) i) as [b Hbi]; [rewrite Hlen; by eapply lookup_lt_Some|].
    destruct (chunk_stored _ _ _ _ _ _ _ _ Hb Hr Ha Hbi Hw) as (ts & Hst & HR & Hc). split; [done|].
    set (info := Writer.shift (file_bytes s - written_payload self) b) in *.
    exists (mkDecoded (Z.of_nat i) (block_tensor info) (WeightLimits.first_element info) (term <$> weights)). split; [|done].
    apply (read_block_iff _ Hlu file); [done..|]. split; [done|]. exists info, ts. split; [|done].
    cbn [reader_of blocks]. by rewrite Nat2Z.id, list_lookup_fmap, Hbi.
Qed.
End finishing.

(** ** Failures *)

Section failures.
Context {Hash : Sha256} {Size : StepSize} {Text : JsonText}.

(** A failed call leaves the writer aborted, and an aborted writer refuses everything. *)
Definition refuses (w : WeightWriter) : Prop :=
  (∀ name dims dtype, Writer.begin_tensor w name dims dtype = (Err (Some (State BeginTensor Aborted)), w)) ∧
  (∀ weights, Writer.write_block w weights = (Err (Some (State WriteBlock Aborted)), w)) ∧
  Writer.end_tensor w = (Err (Some (State EndTensor Aborted)), w) ∧
  ∀ exists_already, Writer.finish exists_already w = Err (Some (State Finish Aborted)).

Lemma set_state_aborted w : state w = Aborted → Writer.set_state w Aborted = w.
Proof. by destruct w; cbn; intros ->. Qed.

Lemma require_aborted w operation s : state w = Aborted → s ≠ Aborted → Writer.require w operation s = Err (State operation Aborted).
Proof. intros Hs Hne. unfold Writer.require. rewrite Hs. by rewrite bool_decide_eq_false_2 by congruence. Qed.

Lemma aborted_refuses w : state w = Aborted → refuses w.
Proof.
  intros Hs. pose proof (set_state_aborted w Hs) as E. unfold refuses, Writer.begin_tensor, Writer.write_block, Writer.end_tensor, Writer.finish,
    Writer.begin, Writer.block, Writer.close, Writer.assemble. split_and!; intros; rewrite require_aborted by done; cbn; by rewrite ?E.
Qed.

Lemma poison_err {A} self (m : Result (option Error) (A * WeightWriter)) e w : Writer.poison self m = (Err e, w) → m = Err e ∧ state w = Aborted.
Proof. destruct m as [[b v]|]; cbn; [done|by intros [= -> <-]]. Qed.

Lemma perform_err self c e w : perform self c = (Err e, w) → state w = Aborted.
Proof.
  destruct c as [name dims dtype|weights|]; cbn [perform]; [by intros [_ ?]%poison_err..|].
  destruct (Writer.end_tensor self) as [[u|e'] w'] eqn:E; cbn; [done|]. intros [= -> ->]. by apply poison_err in E as [_ ?].
Qed.

(** No call of a well-formed writer panics. *)
Lemma perform_safe md o origin self shapes log c w : writer_ok md o origin self shapes log → perform self c ≠ (Err None, w).
Proof.
  intros [_ Hs]. assert (state self = TensorOpen → ∃ t, last (writer_tensors self) = Some t) as Hlast.
  { intros Ho. destruct Hs as [Hr|(f & t & old & cur & [_ [E _] _ _ _ _ _ _])]; [by rewrite (ready_state _ _ Hr) in Ho|]. exists t. by rewrite E, last_snoc. }
  destruct c as [name dims dtype|weights|]; cbn [perform].
  - intros [E _]%poison_err. by destruct (Writer.begin self name dims dtype).
  - intros [E _]%poison_err. revert E. unfold Writer.block. apply checked_safe. intros u [t ->]%require_ok%Hlast. cbn [ok_or]. rewrite Ok_bind.
    case_bool_decide; [done|]. repeat first [apply checked_safe; intros ? ? | match goal with |- (if ?b then _ else _) ≠ _ => destruct b; [done|] end | match goal with |- (let '(_, _) := ?p in _) ≠ _ => destruct p end]. done.
  - unfold Writer.end_tensor. destruct (Writer.poison self (Writer.close self)) as [[u|e] w'] eqn:E; cbn; [done|]. intros [= -> ->]. apply poison_err in E as [E _].
    revert E. unfold Writer.close. apply checked_safe. intros u [t ->]%require_ok%Hlast. cbn [ok_or]. rewrite Ok_bind.
    destruct (negb _); [done|]. by apply checked_safe.
Qed.
End failures.

(** ** Theorems *)

(** [C9] The writer's file is right, and it always passes the check before it is published.
    Whatever tensors and blocks were written without an error, if the file can be put together
    within the limits then [finish] publishes it: the reader opens it, every block verifies,
    and it gives back the metadata, the names, shapes and types of the tensors, and each block
    of weights, term for term. Each of these weights is certified. *)
Theorem writer_verified {Hash : Sha256} {Hash_laws : Sha256Laws} {Size : StepSize} {Text : JsonText} {Text_laws : JsonTextLaws}
    exists_already m origin o self calls w file s :
  metadata_ok m → options_u64 o → length origin = 32%nat → Forall u8 origin → Forall call_ok calls →
  Writer.create exists_already m origin o = Ok self → run_calls self calls = Some w → Writer.assemble w = Ok (file, s) →
  (∃ report, Writer.finish false w = Ok (file, report) ∧ report_summary report = s) ∧ source_sha256 s = origin ∧
  ∃ r, Reader.open file (limits o) = Ok r ∧ summary r = s ∧ metadata r = Writer.prepare m o ∧ shape <$> tensors r = shapes_of calls ∧
    ∀ i weights, weights_of calls !! i = Some weights → Forall certified weights ∧
      ∃ b, Reader.read_block r file (Z.of_nat i) = Ok b ∧ terms b = term <$> weights.
Proof.
  intros Hm Ho Hs Hs8 Hc Hcr Hrun Ha. destruct (create_ok _ _ _ _ 0 _ Hm Ho ltac:(lia) Hs Hs8 Hcr) as [Hb Hr].
  destruct (run_calls_keeps _ _ _ _ _ _ _ _ (conj Hb (or_introl Hr)) Hc Hrun) as [Hb' Hs']. cbn [app] in *.
  assert (state w = Ready) as Hready by (unfold Writer.assemble in Ha; by apply bind_unit in Ha as [?%require_ok _]).
  destruct Hs' as [Hr'|(f & t & old & cur & Hopen)]; [|by rewrite (open_state _ _ _ _ _ _ Hopen) in Hready].
  destruct (finish_ok _ _ _ _ _ _ _ _ Hb' Hr' Ha) as (Hop & Hf & Hreads). split; [by eexists|].
  destruct (base_same _ _ _ _ _ _ Hb') as [Eo Esrc]. split.
  - unfold Writer.assemble in Ha. repeat first [apply bind_ok in Ha as (? & _ & Ha) | match type of Ha with (if ?b then _ else _) = _ => destruct b; [done|] end]. by injection Ha as _ <-.
  - exists (reader_of (Writer.prepare m o) w s). split; [done|]. split; [done|]. split; [done|]. split; [|exact Hreads].
    exact (base_shapes _ _ _ _ _ _ Hb').
Qed.

(** [C19] A writer that failed writes nothing more. From any state that calls without an error
    can reach, a call does not panic, and when it fails the writer is aborted: every further
    call and [finish] are refused with that state, and change nothing. *)
Theorem writer_poisoned {Hash : Sha256} {Hash_laws : Sha256Laws} {Size : StepSize} {Text : JsonText} {Text_laws : JsonTextLaws}
    exists_already m origin o self calls w c e w' :
  metadata_ok m → options_u64 o → length origin = 32%nat → Forall u8 origin → Forall call_ok calls →
  Writer.create exists_already m origin o = Ok self → run_calls self calls = Some w → perform w c = (Err e, w') →
  e ≠ None ∧ state w' = Aborted ∧ refuses w'.
Proof.
  intros Hm Ho Hs Hs8 Hc Hcr Hrun Hp. destruct (create_ok _ _ _ _ 0 _ Hm Ho ltac:(lia) Hs Hs8 Hcr) as [Hb Hr].
  pose proof (run_calls_keeps _ _ _ _ _ _ _ _ (conj Hb (or_introl Hr)) Hc Hrun) as Hw. pose proof (perform_err _ _ _ _ Hp) as Ha.
  split; [|split; [done|by apply aborted_refuses]]. intros ->. by apply (perform_safe _ _ _ _ _ _ _ _ Hw) in Hp.
Qed.

(** ** A small model *)

#[local] Existing Instances toy_sha256 toy_sha256_laws binary_text binary_text_laws.
#[local] Instance step_bytes : StepSize := 64.

Definition sample_options : WriteOptions := mkWriteOptions ReadLimits_default ConversionLimits_default.
Definition weight_one : CertifiedBml := mkCertifiedBml Encoding.one (Exact.from_i64 1) (mkExactDerivation [StepOne] 0).
Definition weight_two : CertifiedBml := mkCertifiedBml (mkBml [4]) (Exact.from_i64 2) (mkExactDerivation [StepOne; Exp2 0] 1).
Definition sample_calls : list Call :=
  [BeginCall "w" [3] F32; WriteCall [weight_two; weight_one]; WriteCall [weight_one]; EndCall; BeginCall "v" [1] F16; WriteCall [weight_two]; EndCall].
Definition sample_origin : Digest := replicate 32 7.

Lemma sample_options_u64 : options_u64 sample_options.
Proof. split; [apply default_u64|]. by repeat (constructor; [done|]). Qed.

Lemma sample_calls_ok : Forall call_ok sample_calls.
Proof.
  unfold sample_calls, call_ok. rewrite !Forall_cons. unfold u64. split_and!; try done; apply Forall_nil_2.
Qed.

Lemma sample_origin_ok : length sample_origin = 32%nat ∧ Forall u8 sample_origin.
Proof. split; [done|]. by apply Forall_replicate. Qed.

Lemma writer_verified_witness : ∃ self w file s,
  Writer.create false sample_metadata sample_origin sample_options = Ok self ∧ run_calls self sample_calls = Some w ∧
  Writer.assemble w = Ok (file, s) ∧ ∃ report, Writer.finish false w = Ok (file, report) ∧ report_summary report = s.
Proof.
  destruct (Writer.create false sample_metadata sample_origin sample_options) as [self|e] eqn:E1; [|vm_compute in E1; discriminate].
  destruct (run_calls self sample_calls) as [w|] eqn:E2; [|vm_compute in E1; injection E1 as <-; vm_compute in E2; discriminate].
  destruct (Writer.assemble w) as [[file s]|e] eqn:E3;
    [|vm_compute in E1; injection E1 as <-; vm_compute in E2; injection E2 as <-; vm_compute in E3; discriminate].
  exists self, w, file, s. split; [reflexivity|]. split; [exact E2|]. split; [exact E3|].
  destruct sample_origin_ok as [H32 H8].
  exact (proj1 (writer_verified false sample_metadata sample_origin sample_options self sample_calls w file s
    sample_metadata_ok sample_options_u64 H32 H8 sample_calls_ok E1 E2 E3)).
Defined.

(** A block that is longer than its tensor. *)
Lemma writer_poisoned_witness : ∃ self w e w',
  Writer.create false sample_metadata sample_origin sample_options = Ok self ∧ run_calls self [BeginCall "w" [1] F32] = Some w ∧
  perform w (WriteCall [weight_one; weight_one]) = (Err e, w') ∧ e ≠ None ∧ state w' = Aborted ∧ refuses w'.
Proof.
  destruct (Writer.create false sample_metadata sample_origin sample_options) as [self|e] eqn:E1; [|vm_compute in E1; discriminate].
  destruct (run_calls self [BeginCall "w" [1] F32]) as [w|] eqn:E2; [|vm_compute in E1; injection E1 as <-; vm_compute in E2; discriminate].
  destruct (perform w (WriteCall [weight_one; weight_one])) as [[a|e] w'] eqn:E3;
    [vm_compute in E1; injection E1 as <-; vm_compute in E2; injection E2 as <-; vm_compute in E3; discriminate|].
  exists self, w, e, w'. split; [reflexivity|]. split; [exact E2|]. split; [exact E3|]. destruct sample_origin_ok as [H32 H8].
  refine (writer_poisoned false sample_metadata sample_origin sample_options self [BeginCall "w" [1] F32] w _ e w'
    sample_metadata_ok sample_options_u64 H32 H8 _ E1 E2 E3).
  constructor; [|constructor]. split; [reflexivity|]. constructor; [split; [discriminate|reflexivity]|constructor].
Defined.
