(* ===== verification/GgufPreflight.v ===== *)
(** * gguf_preflight.rs of model-weights: bounds before a model file is mapped

    A scan walks the metadata and the descriptors of a model file without building them, and
    checks every length and count against the limits of the conversion. [preflight_bounds]
    says what it accepts of the files that the reader of [Gguf] opens, and the estimate of
    memory it gives.

    A file is its bytes; [Err None] is a panic, a difference below zero. *)
From S2P Require Import Prelude Bytes Text GgufCodecs Gguf GgufFormat WeightLimits WeightReader.
#[local] Open Scope string_scope.
#[local] Open Scope list_scope.
#[local] Open Scope Z_scope.

Record Scan : Set := mkScan { scan_file : list Z; scan_at : Z; scan_limits : ReadLimits; leaves : Z; arrays : Z }.

Module Preflight.
Import Parse.

Definition format : option Error := Some (Format ArithmeticOverflow None).

Definition moved (self : Scan) (n : Z) : Scan := mkScan (scan_file self) n (scan_limits self) (leaves self) (arrays self).

(** [read::<N>]. *)
Definition read (self : Scan) (n : Z) : Result (option Error) (list Z * Scan) :=
  data ← ok_or (Some (Io IoRead)) (get (scan_file self) (scan_at self) (scan_at self + n));
  last ← ok_or format (checked_add (scan_at self) n);
  Ok (data, moved self last).

Definition u32 (self : Scan) : Result (option Error) (Z * Scan) := '(d, self) ← read self 4; Ok (le_value d, self).
Definition u64 (self : Scan) : Result (option Error) (Z * Scan) := '(d, self) ← read self 8; Ok (le_value d, self).

Definition skip (self : Scan) (n : Z) : Result (option Error) Scan :=
  last ← ok_or format (checked_add (scan_at self) n);
  if file_len (scan_file self) <? last then Err (Some (Format FileLength (Some (scan_at self)))) else
  Ok (moved self last).

Definition limit (resource : Resource) (cap n : Z) : Result (option Error) unit := Reader.checked (Limits.check_limit resource cap (Some n)).

Definition string (self : Scan) (name : bool) : Result (option Error) Scan :=
  '(n, self) ← u64 self;
  _ ← (if name then limit MaxNameBytes (max_name_bytes (scan_limits self)) n else limit MaxStringBytes (max_string_bytes (scan_limits self)) n);
  if name && (n =? 0) then Err (Some (Metadata None InvalidValue)) else
  skip self n.

Definition metadata_bytes (self : Scan) : Result (option Error) unit :=
  n ← ok_or None (checked_sub (scan_at self) 24);
  limit MaxMetadataBytes (max_metadata_bytes (scan_limits self)) n.

Definition leaf (self : Scan) (kind : Z) : Result (option Error) Scan :=
  n ← ok_or format (checked_add (leaves self) 1);
  let self := mkScan (scan_file self) (scan_at self) (scan_limits self) n (arrays self) in
  match kind with
  | 0 | 1 | 7 => skip self 1
  | 2 | 3 => skip self 2
  | 4 | 5 | 6 => skip self 4
  | 8 => string self false
  | 10 | 11 | 12 => skip self 8
  | _ => Err (Some (Metadata None InvalidType))
  end.

(** An array holds no array, so that two levels are enough fuel. *)
Fixpoint value (fuel : nat) (self : Scan) (kind : Z) : Result (option Error) Scan :=
  match fuel with
  | O => Err None
  | S fuel =>
      if kind =? 9 then
        '(element, self) ← u32 self;
        '(count, self) ← u64 self;
        if element =? 9 then Err (Some (Metadata None NestedArray)) else
        n ← ok_or format (checked_add (arrays self) count);
        let self := mkScan (scan_file self) (scan_at self) (scan_limits self) (leaves self) n in
        _ ← limit MaxMetadataArrayElements (max_metadata_array_elements (scan_limits self)) n;
        for_each (λ _ self, self ← value fuel self element; _ ← metadata_bytes self; Ok self) (seqZ 0 count) self
      else leaf self kind
  end.

Definition entry (_ : Z) (self : Scan) : Result (option Error) Scan :=
  self ← string self true;
  '(kind, self) ← u32 self;
  self ← value 2 self kind;
  _ ← metadata_bytes self;
  Ok self.

Definition dim (_ : Z) (state : Z * Scan) : Result (option Error) (Z * Scan) :=
  let '(elements, self) := state in
  '(d, self) ← u64 self;
  if d =? 0 then Err format else
  elements ← ok_or format (checked_mul elements d);
  Ok (elements, self).

Definition descriptor (tensor_start : Z) (_ : Z) (state : Z * Scan) : Result (option Error) (Z * Scan) :=
  let '(total, self) := state in
  self ← string self true;
  '(rank, self) ← u32 self;
  if negb ((1 <=? rank) && (rank <=? 4)) then offset ← ok_or None (checked_sub (scan_at self) 4); Err (Some (Format TensorShape (Some offset))) else
  '(elements, self) ← for_each dim (seqZ 0 rank) (1, self);
  total ← ok_or format (checked_add total elements);
  _ ← limit MaxTotalTerms (max_total_terms (scan_limits self)) total;
  self ← skip self 12;
  n ← ok_or None (checked_sub (scan_at self) tensor_start);
  _ ← limit MaxIndexBytes (max_index_bytes (scan_limits self)) n;
  Ok (total, self).

(** The estimate of the memory that the reader's data will own. *)
Definition accounted (metadata_bytes descriptor_bytes leaves metadata tensors : Z) : option Z :=
  n ← checked_add metadata_bytes descriptor_bytes; n ← checked_mul n 8;
  k ← checked_add leaves metadata; k ← checked_add k tensors; k ← checked_mul k 256;
  checked_add k n.

(** [inspect] on the bytes of the file. *)
Definition inspect (bytes : list Z) (options : ConversionOptions) : Result (option Error) Z :=
  let limits := limits (write options) in
  _ ← limit MaxFileBytes (max_file_bytes limits) (file_len bytes);
  '(magic, self) ← read (mkScan bytes 0 limits 0 0) 4;
  if negb (bool_decide (magic = [71; 71; 85; 70])) then Err (Some (Gguf None (InvalidMagic 0))) else
  '(version, self) ← u32 self;
  if negb ((version =? 2) || (version =? 3)) then Err (Some (Unsupported GgufVersion version)) else
  '(tensors, self) ← u64 self;
  '(metadata, self) ← u64 self;
  _ ← limit MaxTensors (max_tensors limits) tensors;
  _ ← limit MaxMetadataEntries (max_metadata_entries limits) metadata;
  self ← for_each entry (seqZ 0 metadata) self;
  metadata_bytes ← ok_or None (checked_sub (scan_at self) 24);
  let tensor_start := scan_at self in
  '(_, self) ← for_each (descriptor tensor_start) (seqZ 0 tensors) (0, self);
  descriptor_bytes ← ok_or None (checked_sub (scan_at self) tensor_start);
  n ← ok_or format (accounted metadata_bytes descriptor_bytes (leaves self) metadata tensors);
  _ ← limit MaxResidentBytes (max_resident_bytes (conversion (write options))) n;
  Ok n.
End Preflight.

(** ** Results that do not panic *)

(** [ends_in m Q]: [m] does not panic, and what it gives satisfies [Q]. *)
Definition ends_in {E A} (m : Result (option E) A) (Q : A → Prop) : Prop := match m with Ok a => Q a | Err e => e ≠ None end.

Section ends.
Context {E : Type}.

Lemma ends_bind {A B} (m : Result (option E) A) (f : A → Result (option E) B) P Q :
  ends_in m P → (∀ a, P a → ends_in (f a) Q) → ends_in (m ≫= f) Q.
Proof. destruct m as [a|e]; cbn; [|done]. intros Ha Hf. by apply Hf. Qed.

Lemma ends_some {A} (e : E) (o : option A) Q : (∀ a, o = Some a → Q a) → ends_in (ok_or (Some e) o) Q.
Proof. destruct o; cbn; [|done]. intros H. by apply H. Qed.

Lemma ends_checked {A} (m : Result E A) Q : (∀ a, m = Ok a → Q a) → ends_in (map_err Some m) Q.
Proof. destruct m; cbn; [|done]. intros H. by apply H. Qed.

Lemma ends_err {A} (e : E) (Q : A → Prop) : ends_in (Err (Some e)) Q.
Proof. done. Qed.

Lemma ends_ok {A} (m : Result (option E) A) Q : ends_in m Q → m ≠ Err None ∧ ∀ a, m = Ok a → Q a.
Proof. destruct m; cbn; [|by intros; split; [congruence|]]. intros HQ. split; [done|]. by intros a' [= ->]. Qed.

Lemma ends_weaken {A} (m : Result (option E) A) (P Q : A → Prop) : ends_in m P → (∀ a, P a → Q a) → ends_in m Q.
Proof. destruct m; cbn; auto. Qed.

Lemma ends_loop {I St} (P : St → Prop) (body : I → St → Result (option E) St) l s :
  P s → (∀ i s, P s → ends_in (body i s) P) → ends_in (for_each body l s) P.
Proof.
  intros Hs Hb. revert s Hs. induction l as [|i l IH]; intros s Hs; cbn [for_each]; [done|]. eapply ends_bind; [by apply Hb|exact IH].
Qed.
End ends.

(** ** The scan does not panic *)

(** A later position of the same scan. *)
Definition after (s s' : Scan) : Prop := scan_file s' = scan_file s ∧ scan_at s ≤ scan_at s'.

Lemma after_refl s : after s s.
Proof. by split. Qed.

Lemma after_trans s1 s2 s3 : after s1 s2 → after s2 s3 → after s1 s3.
Proof. intros [E1 H1] [E2 H2]. split; [congruence|lia]. Qed.

Lemma after_moved s n : 0 ≤ n → after s (Preflight.moved s (scan_at s + n)).
Proof. split; [done|cbn; lia]. Qed.

Lemma limit_ends resource cap n (Q : unit → Prop) : (∀ u, Q u) → ends_in (Preflight.limit resource cap n) Q.
Proof. intros HQ. apply ends_checked. intros a _. apply HQ. Qed.

Lemma skip_ends s n : 0 ≤ n → ends_in (Preflight.skip s n) (after s).
Proof.
  intros Hn. eapply (ends_bind _ _ (λ e, e = scan_at s + n)); [apply ends_some; by intros a [-> _]%checked_add_Some|]. intros e ->.
  destruct (_ <? _); [done|]. by apply after_moved.
Qed.

Lemma read_ends s n : 0 ≤ n → Forall u8 (scan_file s) → ends_in (Preflight.read s n) (λ p, 0 ≤ le_value p.1 ∧ p.2 = Preflight.moved s (scan_at s + n)).
Proof.
  intros Hn Hu. eapply (ends_bind _ _ (Forall u8)).
  { apply ends_some. intros d. unfold Parse.get. destruct (_ && _); [|done]. intros [= <-]. by apply Forall_take, Forall_drop. }
  intros d Hd. eapply (ends_bind _ _ (λ e, e = scan_at s + n)); [apply ends_some; by intros a [-> _]%checked_add_Some|]. intros e ->.
  split; [by apply le_value_bounds|done].
Qed.

Lemma u32_ends s : Forall u8 (scan_file s) → ends_in (Preflight.u32 s) (λ p, 0 ≤ p.1 ∧ p.2 = Preflight.moved s (scan_at s + 4)).
Proof. intros Hu. eapply ends_bind; [by apply read_ends|]. by intros [d s'] H. Qed.

Lemma u64_ends s : Forall u8 (scan_file s) → ends_in (Preflight.u64 s) (λ p, 0 ≤ p.1 ∧ p.2 = Preflight.moved s (scan_at s + 8)).
Proof. intros Hu. eapply ends_bind; [by apply read_ends|]. by intros [d s'] H. Qed.

Lemma string_ends s name : Forall u8 (scan_file s) → ends_in (Preflight.string s name) (after s).
Proof.
  intros Hu. eapply ends_bind; [by apply u64_ends|]. intros [n s'] [Hn E]. cbn [fst snd] in *. subst s'.
  eapply (ends_bind _ _ (λ _, True)); [by destruct name; apply limit_ends|]. intros _ _. destruct (_ && _); [done|].
  eapply ends_weaken; [by apply skip_ends|]. intros s2. by apply after_trans, after_moved.
Qed.

Lemma metadata_bytes_ends s (Q : unit → Prop) : 24 ≤ scan_at s → (∀ u, Q u) → ends_in (Preflight.metadata_bytes s) Q.
Proof.
  intros Hs HQ. unfold Preflight.metadata_bytes. rewrite (proj2 (checked_sub_Some _ _ (scan_at s - 24))) by done.
  cbn [ok_or]. rewrite Ok_bind. by apply limit_ends.
Qed.

Lemma leaf_ends s kind : Forall u8 (scan_file s) → ends_in (Preflight.leaf s kind) (after s).
Proof.
  intros Hu. eapply (ends_bind _ _ (λ _, True)); [by apply ends_some|]. intros n _. cbn zeta.
  set (s1 := mkScan _ _ _ _ _). assert (∀ k, 0 ≤ k → ends_in (Preflight.skip s1 k) (after s)) as Hskip by exact (skip_ends s1).
  pose proof (string_ends s1 false Hu) as Hstring. repeat case_match; first [exact Hstring | by apply Hskip | done].
Qed.

Lemma value_ends s kind : Forall u8 (scan_file s) → 24 ≤ scan_at s → ends_in (Preflight.value 2 s kind) (after s).
Proof.
  intros Hu Hs. cbn [Preflight.value]. destruct (kind =? 9); [|by apply leaf_ends].
  eapply ends_bind; [by apply u32_ends|]. intros [element s1] [_ E]. cbn [fst snd] in E. subst s1.
  eapply ends_bind; [by apply u64_ends|]. intros [count s2] [_ E]. cbn [fst snd] in E. subst s2. destruct (Z.eqb_spec element 9) as [|Hne]; [done|].
  eapply (ends_bind _ _ (λ _, True)); [by apply ends_some|]. intros n _. cbn zeta. eapply (ends_bind _ _ (λ _, True)); [by apply limit_ends|]. intros _ _.
  apply (ends_loop (after s)); [split; [done|cbn; lia]|]. intros _ s3 Ha.
  eapply ends_bind; [apply leaf_ends; by rewrite (proj1 Ha)|]. intros s4 Ha4. pose proof (after_trans _ _ _ Ha Ha4) as [E4 H4].
  eapply (ends_bind _ _ (λ _, True)); [by apply metadata_bytes_ends; [lia|]|]. by intros _ _.
Qed.

Lemma entry_ends i s : Forall u8 (scan_file s) → 24 ≤ scan_at s → ends_in (Preflight.entry i s) (after s).
Proof.
  intros Hu Hs. eapply ends_bind; [by apply string_ends|]. intros s1 [E1 H1].
  eapply ends_bind; [apply u32_ends; by rewrite E1|]. intros [kind s2] [_ E]. cbn [fst snd] in E. subst s2.
  eapply ends_bind; [apply value_ends; [by cbn; rewrite E1|cbn; lia]|]. intros s3 [E3 H3]. cbn in E3, H3.
  eapply (ends_bind _ _ (λ _, True)); [by apply metadata_bytes_ends; [lia|]|]. intros _ _. split; [congruence|lia].
Qed.

Lemma descriptor_ends start i total s : Forall u8 (scan_file s) → 24 ≤ start ≤ scan_at s → ends_in (Preflight.descriptor start i (total, s)) (λ p, after s p.2).
Proof.
  intros Hu Hs. eapply ends_bind; [by apply string_ends|]. intros s1 [E1 H1].
  eapply ends_bind; [apply u32_ends; by rewrite E1|]. intros [rank s2] [_ E]. cbn [fst snd] in E. subst s2.
  destruct (negb _). { unfold checked_sub. cbn [Preflight.moved scan_at]. by rewrite (proj2 (Z.leb_le _ _)) by lia. }
  eapply (ends_bind _ _ (λ p, after s p.2)).
  { apply (ends_loop (λ p, after s p.2)); [split; [cbn; congruence|cbn; lia]|]. intros i0 [elements s3] Ha. cbn [snd] in Ha.
    eapply ends_bind; [apply u64_ends; by rewrite (proj1 Ha)|]. intros [d s4] [_ E]. cbn [fst snd] in E. subst s4. destruct (d =? 0); [done|].
    eapply (ends_bind _ _ (λ _, True)); [by apply ends_some|]. intros e _. by apply (after_trans s s3), after_moved. }
  intros [elements s3] Ha. cbn [snd] in Ha. eapply (ends_bind _ _ (λ _, True)); [by apply ends_some|]. intros t _.
  eapply (ends_bind _ _ (λ _, True)); [by apply limit_ends|]. intros _ _. eapply ends_bind; [by apply skip_ends|]. intros s4 H4.
  pose proof (after_trans _ _ _ Ha H4) as [E5 H5]. rewrite (proj2 (checked_sub_Some _ _ (scan_at s4 - start))) by (split; [done|lia]). cbn [ok_or]. rewrite Ok_bind.
  eapply (ends_bind _ _ (λ _, True)); [by apply limit_ends|]. by intros _ _.
Qed.

Lemma inspect_ends bytes o : Forall u8 bytes → ends_in (Preflight.inspect bytes o) (λ _, True).
Proof.
  intros Hu. eapply (ends_bind _ _ (λ _, True)); [by apply limit_ends|]. intros _ _. cbv zeta.
  eapply ends_bind; [by apply read_ends|]. intros [magic s1] [_ E]. cbn [snd] in E. subst s1. destruct (negb _); [done|].
  eapply ends_bind; [by apply u32_ends|]. intros [version s2] [_ E]. cbn [fst snd] in E. subst s2. destruct (negb _); [done|].
  eapply ends_bind; [by apply u64_ends|]. intros [tensors s3] [_ E]. cbn [fst snd] in E. subst s3.
  eapply ends_bind; [by apply u64_ends|]. intros [metadata s4] [_ E]. cbn [fst snd] in E. subst s4. cbn.
  do 2 (eapply (ends_bind _ _ (λ _, True)); [by apply limit_ends|]; intros _ _).
  eapply (ends_bind _ _ (λ s, scan_file s = bytes ∧ 24 ≤ scan_at s)).
  { apply (ends_loop (λ s, scan_file s = bytes ∧ 24 ≤ scan_at s)); [done|]. intros i s [E Hs].
    eapply ends_weaken; [apply entry_ends; [by rewrite E|done]|]. intros s' [E' H']. split; [congruence|lia]. }
  intros s [E Hs]. rewrite (proj2 (checked_sub_Some _ _ (scan_at s - 24))) by done. cbn [ok_or]. rewrite Ok_bind.
  eapply (ends_bind _ _ (λ p, after s p.2)).
  { apply (ends_loop (λ p, after s p.2)); [apply after_refl|]. intros i [total s'] Ha. cbn [snd] in Ha. destruct Ha as [E' H'].
    eapply ends_weaken; [apply descriptor_ends; [by rewrite E', E|lia]|]. intros p. by apply after_trans. }
  intros [total s'] [_ H']. cbn [snd] in H'. rewrite (proj2 (checked_sub_Some _ _ (scan_at s' - scan_at s))) by done. cbn [ok_or]. rewrite Ok_bind.
  eapply (ends_bind _ _ (λ _, True)); [by apply ends_some|]. intros n _. eapply (ends_bind _ _ (λ _, True)); [by apply limit_ends|]. by intros _ _.
Qed.

(** ** The scan of a model file *)

(** [m] gives [a] and nothing else, exactly if [P]. *)
Definition gives {E A} (m : Result E A) (P : Prop) (a : A) : Prop := ∀ x, m = Ok x ↔ P ∧ x = a.

Section gives.
Context {E : Type}.

Lemma gives_sure {A} (m : Result E A) a : m = Ok a → gives m True a.
Proof. intros -> x. split; [by intros [= ->]|by intros [_ ->]]. Qed.

Lemma gives_bind {A B} (m : Result E A) (f : A → Result E B) P a Q b : gives m P a → gives (f a) Q b → gives (m ≫= f) (P ∧ Q) b.
Proof.
  intros Hm Hf x. rewrite bind_ok. split.
  - intros (a' & [HP ->]%Hm & [HQ ->]%Hf). done.
  - intros [[HP HQ] ->]. exists a. split; [by apply Hm|by apply Hf].
Qed.

Lemma gives_after {A B} (m : Result E A) (f : A → Result E B) a Q b : m = Ok a → gives (f a) Q b → gives (m ≫= f) Q b.
Proof. by intros ->. Qed.

Lemma gives_iff {A} (m : Result E A) P Q a : gives m P a → (P ↔ Q) → gives m Q a.
Proof. intros Hm HPQ x. by rewrite (Hm x), HPQ. Qed.

(** A loop over items, with the state behind each prefix. *)
Lemma gives_loop {X I St} (body : I → St → Result E St) (st : list X → St) (P : list X → X → Prop) (l : list I) xs : length l = length xs →
  (∀ i pre x post, xs = pre ++ x :: post → gives (body i (st pre)) (P pre x) (st (pre ++ [x]))) →
  gives (for_each body l (st [])) (∀ pre x post, xs = pre ++ x :: post → P pre x) (st xs).
Proof.
  intros Hl Hb. assert (∀ done rest l, xs = done ++ rest → length l = length rest →
    gives (for_each body l (st done)) (∀ pre x post, rest = pre ++ x :: post → P (done ++ pre) x) (st xs)) as H; [|by apply (H [] xs)].
  clear l Hl. intros dn rest l Hxs. revert dn Hxs l. induction rest as [|x rest IH]; intros dn Hxs l Hl; destruct l as [|i l]; try done; cbn [for_each].
  - rewrite app_nil_r in Hxs. subst dn. eapply gives_iff; [by apply gives_sure|]. split; [|done]. intros _ pre x post E'. by destruct pre.
  - eapply gives_iff; [eapply gives_bind; [by eapply Hb|apply (IH (dn ++ [x]))]|].
    + by rewrite <-app_assoc.
    + by injection Hl.
    + split.
      * intros [HP HQ] [|y pre] z post [= <- E']; [by rewrite app_nil_r|]. specialize (HQ pre z post E'). by rewrite <-app_assoc in HQ.
      * intros H. split; [by specialize (H [] x rest eq_refl); rewrite app_nil_r in H|]. intros pre z post ->. rewrite <-app_assoc. by apply (H (x :: pre) z post).
Qed.
End gives.

Lemma limit_gives resource cap n : gives (Preflight.limit resource cap n) (n ≤ cap) tt.
Proof.
  intros []. unfold Preflight.limit, Reader.checked, Limits.check_limit. destruct (Z.leb_spec n cap); cbn; split; try done. intros [? _]. lia.
Qed.

(** What a value adds to the counters, and the strings in it. *)
Definition value_leaves (v : GgufMetadataValue) : Z := match v with GArray _ vs => Z.of_nat (length vs) | _ => 1 end.
Definition value_elements (v : GgufMetadataValue) : Z := match v with GArray _ vs => Z.of_nat (length vs) | _ => 0 end.
Definition scalar_strings (v : GgufMetadataValue) : list string := match v with GString s => [s] | _ => [] end.
Definition value_strings (v : GgufMetadataValue) : list string := match v with GArray _ vs => vs ≫= scalar_strings | v => scalar_strings v end.

Section scan.
Context (bytes : list Z) (Hu : Forall u8 bytes) (Hlen : Parse.file_len bytes < 2 ^ 63).
Context (l : ReadLimits) (Hl : limits_u64 l).

Lemma number_gives k n s v : scan_file s = bytes → n = Z.of_nat k → 0 ≤ v < 256 ^ n → holds bytes (scan_at s) (le_bytes k v) →
  Preflight.read s n = Ok (le_bytes k v, Preflight.moved s (scan_at s + n)).
Proof.
  intros Ef -> Hv Hh. pose proof (holds_range _ _ _ Hh) as Hr. rewrite length_le_bytes in Hr. unfold Preflight.read. rewrite Ef.
  rewrite (proj2 (get_ok bytes _ _ (le_bytes k v) (proj1 Hr))) by (by rewrite length_le_bytes). cbn [ok_or]. rewrite Ok_bind.
  by rewrite (proj2 (checked_add_Some _ _ (scan_at s + Z.of_nat k))) by (split; [done|change W64 with (2 * 2 ^ 63); lia]).
Qed.

Lemma u32_gives s v : scan_file s = bytes → 0 ≤ v < 2 ^ 32 → holds bytes (scan_at s) (le_bytes 4 v) → Preflight.u32 s = Ok (v, Preflight.moved s (scan_at s + 4)).
Proof. intros Ef Hv Hh. unfold Preflight.u32. rewrite (number_gives 4 4 s v) by done. by rewrite Ok_bind, le_value_bytes. Qed.

Lemma u64_gives s v : scan_file s = bytes → 0 ≤ v < 2 ^ 64 → holds bytes (scan_at s) (le_bytes 8 v) → Preflight.u64 s = Ok (v, Preflight.moved s (scan_at s + 8)).
Proof. intros Ef Hv Hh. unfold Preflight.u64. rewrite (number_gives 8 8 s v) by done. by rewrite Ok_bind, le_value_bytes. Qed.

Lemma skip_gives s n : scan_file s = bytes → 0 ≤ scan_at s → 0 ≤ n → scan_at s + n ≤ Parse.file_len bytes → Preflight.skip s n = Ok (Preflight.moved s (scan_at s + n)).
Proof.
  intros Ef Ha Hn Hr. unfold Preflight.skip. rewrite (proj2 (checked_add_Some _ _ (scan_at s + n))) by (split; [done|change W64 with (2 * 2 ^ 63); lia]).
  cbn [ok_or]. rewrite Ok_bind, Ef. by rewrite (proj2 (Z.ltb_ge _ _)) by done.
Qed.

Lemma string_gives s str (name : bool) : scan_file s = bytes → scan_limits s = l → holds bytes (scan_at s) (string_bytes str) →
  gives (Preflight.string s name) (if name then 1 ≤ len str ≤ max_name_bytes l else len str ≤ max_string_bytes l)
    (Preflight.moved s (scan_at s + Z.of_nat (length (string_bytes str)))).
Proof.
  intros Ef El Hh. pose proof (holds_range _ _ _ Hh) as Hr. unfold string_bytes in *. rewrite length_app, length_le_bytes in *. apply holds_app in Hh as [Hh _].
  pose proof (length_bytes_of str) as Elen. unfold Preflight.string.
  rewrite (u64_gives s (len str)); [|done|unfold len in *; lia|done]. rewrite Ok_bind. cbn [Preflight.moved scan_limits]. rewrite El.
  eapply gives_iff; [eapply (gives_bind _ _ (len str ≤ if name then max_name_bytes l else max_string_bytes l) tt (if name then 1 ≤ len str else True))|].
  - destruct name; apply limit_gives.
  - assert (0 ≤ len str) as H0 by (unfold len; lia). rewrite (skip_gives _ (len str)) by (cbn; done || lia). cbn [Preflight.moved scan_at scan_file scan_limits leaves arrays].
    replace (scan_at s + 8 + len str) with (scan_at s + Z.of_nat (8 + length (bytes_of str))) by lia. destruct name; cbn [andb]; [|by apply gives_sure].
    destruct (Z.eqb_spec (len str) 0) as [E|E]; [intros x; split; [done|lia]|]. eapply gives_iff; [by apply gives_sure|lia].
  - destruct name; lia.
Qed.

(** What a scalar moves. *)
Lemma leaf_gives s v : scan_file s = bytes → scan_limits s = l → scalar_ok v → holds bytes (scan_at s) (scalar_bytes v) → leaves s ≤ scan_at s →
  gives (Preflight.leaf s (value_type v)) (Forall (λ str, len str ≤ max_string_bytes l) (scalar_strings v))
    (mkScan bytes (scan_at s + Z.of_nat (length (scalar_bytes v))) l (leaves s + 1) (arrays s)).
Proof.
  intros Ef El Hv Hh Hs. pose proof (holds_range _ _ _ Hh) as Hr. unfold Preflight.leaf.
  destruct s as [file at_ limits lv ar]. cbn [scan_file scan_at scan_limits leaves arrays] in *. subst file limits.
  rewrite (proj2 (checked_add_Some lv 1 (lv + 1))) by (split; [done|change W64 with (2 * 2 ^ 63); lia]). cbn [ok_or]. rewrite Ok_bind. cbv zeta.
  destruct v; try done; cbn [value_type scalar_strings scalar_bytes] in *;
    first [rewrite length_le_bytes in *; rewrite skip_gives by (cbn; done || lia); eapply gives_iff; [by apply gives_sure|by rewrite Forall_nil]
          | eapply gives_iff; [by apply (string_gives (mkScan bytes at_ l (lv + 1) ar) _ false)|by rewrite Forall_singleton]].
Qed.

Lemma scalar_bytes_pos v : scalar_ok v → 1 ≤ Z.of_nat (length (scalar_bytes v)).
Proof. destruct v; try done; intros _; cbn [scalar_bytes]; unfold string_bytes; rewrite ?length_app, length_le_bytes; lia. Qed.

Lemma scalars_length vs : Forall scalar_ok vs → Z.of_nat (length vs) ≤ Z.of_nat (length (concat (scalar_bytes <$> vs))).
Proof. induction 1 as [|v vs Hv _ IH]; [done|]. apply scalar_bytes_pos in Hv. cbn [fmap list_fmap concat length]. rewrite length_app. lia. Qed.

Lemma value_type_scalar v : scalar_ok v → value_type v ≠ 9.
Proof. by destruct v. Qed.

(** The elements of an array, which is at [start]. *)
Lemma elements_gives s e vs start lv ar (idx : list Z) : length idx = length vs → Forall (λ v, scalar_ok v ∧ value_type v = e) vs →
  s = mkScan bytes start l lv ar → 24 ≤ start → lv ≤ start → holds bytes start (concat (scalar_bytes <$> vs)) →
  gives (for_each (λ (_ : Z) s, s ← Preflight.leaf s e; _ ← Preflight.metadata_bytes s; Ok s) idx s)
    (Forall (λ str, len str ≤ max_string_bytes l) (vs ≫= scalar_strings) ∧
     (vs = [] ∨ start + Z.of_nat (length (concat (scalar_bytes <$> vs))) - 24 ≤ max_metadata_bytes l))
    (mkScan bytes (start + Z.of_nat (length (concat (scalar_bytes <$> vs)))) l (lv + Z.of_nat (length vs)) ar).
Proof.
  intros Hidx HF -> Hst Hlv Hh. revert start lv idx Hidx Hst Hlv Hh. induction HF as [|v vs [Hv Ht] HF IH]; intros start lv idx Hidx Hst Hlv Hh; destruct idx as [|i idx]; try done.
  { cbn. rewrite !Z.add_0_r. eapply gives_iff; [by apply gives_sure|]. split; [intros _; split; [constructor|by left]|done]. }
  cbn [for_each fmap list_fmap concat] in *. rewrite length_app. apply holds_app in Hh as [H1 H2]. pose proof (scalar_bytes_pos v Hv) as Hp. pose proof (holds_range _ _ _ H2) as Hr2.
  pose proof (leaf_gives (mkScan bytes start l lv ar) v eq_refl eq_refl Hv H1 Hlv) as Hleaf. rewrite Ht in Hleaf. cbn [scan_at leaves arrays] in Hleaf.
  eapply gives_iff; [eapply gives_bind; [eapply gives_bind; [|eapply (gives_bind _ _ _ tt)]|]|].
  - exact Hleaf.
  - unfold Preflight.metadata_bytes. cbn [scan_at scan_limits]. rewrite (proj2 (checked_sub_Some _ _ (start + Z.of_nat (length (scalar_bytes v)) - 24))) by (split; [done|lia]).
    cbn [ok_or]. rewrite Ok_bind. apply limit_gives.
  - by apply gives_sure.
  - eapply gives_iff; [|reflexivity].
    replace (lv + Z.of_nat (length (v :: vs))) with (lv + 1 + Z.of_nat (length vs)) by (cbn [length]; lia).
    replace (start + Z.of_nat (length (scalar_bytes v) + length (concat (scalar_bytes <$> vs)))) with (start + Z.of_nat (length (scalar_bytes v)) + Z.of_nat (length (concat (scalar_bytes <$> vs)))) by lia.
    apply IH; [by injection Hidx|lia|lia|done].
  - cbn [mbind list_bind]. rewrite Forall_app. destruct vs as [|v2 vs2].
    + cbn. rewrite Nat.add_0_r. split; [intros ((? & ? & _) & ? & _); split; [by split|by right]|].
      intros [[? ?] [?|?]]; [done|]. split_and!; try done. by left.
    + split; [intros ((? & ? & _) & ? & [?|?]); [done|]; split; [by split|right; lia]|].
      intros [[? ?] [?|?]]; [done|]. split_and!; try done; [|right; lia]. lia.
Qed.

Lemma value_gives s v : scan_file s = bytes → scan_limits s = l → gguf_value_ok v → holds bytes (scan_at s) (value_bytes v) → leaves s ≤ scan_at s → 24 ≤ scan_at s → 0 ≤ arrays s →
  gives (Preflight.value 2 s (value_type v))
    (Forall (λ str, len str ≤ max_string_bytes l) (value_strings v) ∧ (value_elements v = 0 ∨ scan_at s + Z.of_nat (length (value_bytes v)) - 24 ≤ max_metadata_bytes l) ∧
     match v with GArray _ _ => arrays s + value_elements v ≤ max_metadata_array_elements l | _ => True end)
    (mkScan bytes (scan_at s + Z.of_nat (length (value_bytes v))) l (leaves s + value_leaves v) (arrays s + value_elements v)).
Proof.
  intros Ef El Hv Hh Hs H24 Har.
  destruct (decide (value_type v = 9)) as [E9|Hne].
  2: { assert (value_bytes v = scalar_bytes v ∧ value_leaves v = 1 ∧ value_elements v = 0 ∧ value_strings v = scalar_strings v ∧ scalar_ok v) as (Eb & Elv & Ee & Es & Hsc) by (by destruct v).
       rewrite Eb, Elv, Ee, Es in *. rewrite Z.add_0_r. cbn [Preflight.value]. rewrite (proj2 (Z.eqb_neq _ 9)) by done.
       eapply gives_iff; [by apply leaf_gives|]. destruct v; try done; intuition. }
  destruct v as [| | | | | | | | | | | |kind vs]; try done. destruct Hv as (Hcode & Hk & HF). clear E9. cbn [value_type value_bytes value_leaves value_elements value_strings] in *.
  rewrite !holds_app, !length_le_bytes in Hh. destruct Hh as (H1 & H2 & H3). pose proof (holds_range _ _ _ H3) as Hr. pose proof (scalars_length vs ltac:(eapply Forall_impl; [exact HF|]; by intros ? [? _])) as Hvs.
  assert (0 ≤ metadata_code kind < 2 ^ 32 ∧ metadata_code kind ≠ 9) as [Hc H9].
  { destruct kind; try done; cbn; lia. }
  cbn [Preflight.value Z.eqb Pos.eqb]. destruct s as [file at_ limits lv ar]. cbn [scan_file scan_at scan_limits leaves arrays] in *. subst file limits.
  eapply gives_after; [by apply (u32_gives _ (metadata_code kind))|]. cbn [Preflight.moved scan_file scan_at scan_limits leaves arrays].
  eapply gives_after; [apply (u64_gives _ (Z.of_nat (length vs))); cbn; [done|change W64 with (2 * 2 ^ 63); lia|done]|]. cbn [Preflight.moved scan_file scan_at scan_limits leaves arrays].
  rewrite (proj2 (Z.eqb_neq _ 9)) by done.
  assert (Z.of_nat (length (le_bytes 4 (metadata_code kind) ++ le_bytes 8 (Z.of_nat (length vs)) ++ concat (scalar_bytes <$> vs))) =
    12 + Z.of_nat (length (concat (scalar_bytes <$> vs)))) as Elen by (rewrite !length_app, !length_le_bytes; lia). rewrite Elen. clear Elen.
  assert (max_metadata_array_elements l < W64) as Hmax by (unfold limits_u64 in Hl; rewrite !Forall_cons in Hl; unfold u64 in Hl; lia).
  destruct (checked_add ar (Z.of_nat (length vs))) as [n|] eqn:E; cycle 1.
  { intros x. split; [done|]. intros [(_ & _ & Hle) _]. unfold checked_add in E. case_match eqn:Hlt; [done|]. apply Z.ltb_ge in Hlt. lia. }
  apply checked_add_Some in E as [-> _]. cbn [ok_or]. rewrite Ok_bind. cbv zeta. cbn [Preflight.moved scan_file scan_at scan_limits leaves arrays].
  eapply gives_iff; [eapply gives_bind; [apply limit_gives|]|].
  - replace (at_ + (12 + Z.of_nat (length (concat (scalar_bytes <$> vs))))) with (at_ + 4 + 8 + Z.of_nat (length (concat (scalar_bytes <$> vs)))) by lia.
    eapply (elements_gives _ (metadata_code kind)); [by rewrite length_seqZ, Nat2Z.id|done|done|lia|lia|].
    by replace (at_ + 4 + 8) with (at_ + Z.of_nat 4 + Z.of_nat 8) by lia.
  - destruct vs as [|v vs]; [cbn; intuition lia|]. cbn [length]. split; [intros (? & ? & [?|?]); [done|]; split_and!; [done|right; lia|done]|].
    intros (? & [?|?] & ?); [lia|]. split_and!; [done|done|right; lia].
Qed.
End scan.

(** ** What the scan accepts *)

Definition entry_leaves (p : string * GgufMetadataValue) : Z := value_leaves p.2.
Definition entry_elements (p : string * GgufMetadataValue) : Z := value_elements p.2.
Definition elements_of_info (i : GgufTensorInfo) : Z := product (dims i).

(** A model file within the limits: its size, the numbers and names of its entries and
    tensors, its strings, the elements of its arrays and tensors, and its two sections. *)
Record preflight_ok (l : ReadLimits) (bytes : list Z) (es : list (string * GgufMetadataValue)) (infos : list GgufTensorInfo) : Prop := mk_preflight_ok {
  pf_file : Parse.file_len bytes ≤ max_file_bytes l;
  pf_counts : Z.of_nat (length infos) ≤ max_tensors l ∧ Z.of_nat (length es) ≤ max_metadata_entries l;
  pf_names : Forall (λ s, 1 ≤ len s ≤ max_name_bytes l) (es.*1 ++ (info_name <$> infos));
  pf_strings : Forall (λ s, len s ≤ max_string_bytes l) (es ≫= λ p, value_strings p.2);
  pf_arrays : sum entry_elements es ≤ max_metadata_array_elements l;
  pf_terms : sum elements_of_info infos ≤ max_total_terms l;
  pf_sections : Z.of_nat (length (entries_bytes es)) ≤ max_metadata_bytes l ∧ Z.of_nat (length (infos_bytes infos)) ≤ max_index_bytes l;
}.

(** Eight times the two sections, and a structure for each value, entry and tensor. *)
Definition working_set (es : list (string * GgufMetadataValue)) (infos : list GgufTensorInfo) : Z :=
  8 * (Z.of_nat (length (entries_bytes es)) + Z.of_nat (length (infos_bytes infos))) +
  256 * (sum entry_leaves es + Z.of_nat (length es) + Z.of_nat (length infos)).

Section sections.
Context (bytes : list Z) (Hu : Forall u8 bytes) (Hlen : Parse.file_len bytes < 2 ^ 63).
Context (l : ReadLimits) (Hl : limits_u64 l).

Definition behind_entries (pre : list (string * GgufMetadataValue)) : Scan :=
  mkScan bytes (24 + Z.of_nat (length (entries_bytes pre))) l (sum entry_leaves pre) (sum entry_elements pre).

Lemma entries_bytes_snoc pre e : entries_bytes (pre ++ [e]) = entries_bytes pre ++ metadata_entry_bytes e.
Proof. unfold entries_bytes. rewrite fmap_app, concat_app. cbn. by rewrite app_nil_r. Qed.

Lemma infos_bytes_snoc pre i : infos_bytes (pre ++ [i]) = infos_bytes pre ++ info_bytes i.
Proof. unfold infos_bytes. rewrite fmap_app, concat_app. cbn. by rewrite app_nil_r. Qed.

Lemma value_leaves_length v : gguf_value_ok v → 0 ≤ value_elements v ≤ value_leaves v ∧ value_leaves v ≤ Z.of_nat (length (value_bytes v)).
Proof.
  intros Hv. destruct v; try (pose proof (scalar_bytes_pos _ Hv); cbn in *; lia). destruct Hv as (_ & _ & HF).
  pose proof (scalars_length values ltac:(eapply Forall_impl; [exact HF|]; by intros ? [? _])). cbn [value_elements value_leaves value_bytes]. rewrite !length_app, !length_le_bytes. lia.
Qed.

Lemma leaves_length es : Forall metadata_entry_ok es → 0 ≤ sum entry_elements es ≤ sum entry_leaves es ∧ sum entry_leaves es ≤ Z.of_nat (length (entries_bytes es)).
Proof.
  unfold entries_bytes. induction 1 as [|[k v] es [_ Hv] _ IH]; [done|]. apply value_leaves_length in Hv. unfold sum in *.
  cbn [foldr fmap list_fmap concat]. unfold metadata_entry_bytes at 1. rewrite !length_app. change (entry_leaves (k, v)) with (value_leaves v). change (entry_elements (k, v)) with (value_elements v). cbn [snd] in *. lia.
Qed.

(** What the scan checks of an entry, behind others. *)
Definition entry_fits (pre : list (string * GgufMetadataValue)) (p : string * GgufMetadataValue) : Prop :=
  1 ≤ len p.1 ≤ max_name_bytes l ∧ Forall (λ s, len s ≤ max_string_bytes l) (value_strings p.2) ∧
  match p.2 with GArray _ _ => sum entry_elements (pre ++ [p]) ≤ max_metadata_array_elements l | _ => True end ∧
  Z.of_nat (length (entries_bytes (pre ++ [p]))) ≤ max_metadata_bytes l.

Lemma entry_gives i pre p post : Forall metadata_entry_ok (pre ++ p :: post) → holds bytes 24 (entries_bytes (pre ++ p :: post)) →
  gives (Preflight.entry i (behind_entries pre))
    (entry_fits pre p) (behind_entries (pre ++ [p])).
Proof.
  intros HF Hh. replace (pre ++ p :: post) with ((pre ++ [p]) ++ post) in * by (by rewrite <-app_assoc). apply Forall_app in HF as [HF _].
  unfold entries_bytes in Hh. rewrite fmap_app, concat_app in Hh. apply holds_app in Hh as [Hh _]. fold (entries_bytes (pre ++ [p])) in Hh.
  pose proof (holds_range _ _ _ Hh) as Hr. pose proof (leaves_length (pre ++ [p]) HF) as [_ Hlv]. unfold behind_entries, entry_fits. rewrite entries_bytes_snoc, !sum_snoc in *.
  apply Forall_app in HF as [HFpre [[Hk Hv] _]%Forall_cons]. pose proof (leaves_length pre HFpre) as [Hel Hlv0]. destruct p as [k v]. cbn [fst snd] in *.
  unfold metadata_entry_bytes in *. cbn [fst snd] in *. rewrite !holds_app, !length_app, !length_le_bytes in *. destruct Hh as (_ & H1 & H2 & H3).
  set (n := Z.of_nat (length (entries_bytes pre))) in *. set (sb := length (string_bytes k)) in *.
  pose proof (value_type_range v) as Ht. unfold Preflight.entry.
  eapply gives_iff; [eapply gives_bind; [by apply (string_gives bytes Hlen l _ k true)|]|].
  - cbn [Preflight.moved scan_file scan_at scan_limits leaves arrays].
    eapply gives_after; [apply (u32_gives bytes Hlen _ (value_type v)); [done|lia|done]|]. cbn [Preflight.moved scan_file scan_at scan_limits leaves arrays]. fold sb.
    eapply gives_bind; [apply (value_gives bytes Hlen l Hl _ v); cbn; try done; lia|]. cbn [Preflight.moved scan_file scan_at scan_limits leaves arrays].
    eapply (gives_bind _ _ _ tt).
    + unfold Preflight.metadata_bytes. cbn [scan_at scan_limits]. rewrite (proj2 (checked_sub_Some _ _ (24 + n + Z.of_nat sb + 4 + Z.of_nat (length (value_bytes v)) - 24))) by (split; [done|lia]).
      cbn [ok_or]. rewrite Ok_bind. apply limit_gives.
    + apply gives_sure. unfold entry_leaves, entry_elements. cbn [snd]. do 2 f_equal. lia.
  - pose proof (value_leaves_length v Hv) as [? _]. change (entry_elements (k, v)) with (value_elements v). cbn [Preflight.moved scan_file scan_at scan_limits leaves arrays].
    assert (∀ a, match v with GArray _ _ => a ≤ max_metadata_array_elements l | _ => True end ↔ (value_type v = 9 → a ≤ max_metadata_array_elements l)) as Hm.
    { intros a. destruct v; cbn; split; try done; intros Hx; try done; by apply Hx. }
    rewrite !Hm. clear Hm. split.
    + intros (HA & (HF & _ & HM) & HL & _). split_and!; try done; lia.
    + intros (HA & HF & HM & HL). split_and!; try done; lia.
Qed.

Lemma entries_gives es (idx : list Z) : length idx = length es → Forall metadata_entry_ok es → holds bytes 24 (entries_bytes es) →
  gives (for_each Preflight.entry idx (behind_entries []))
    (Forall (λ s, 1 ≤ len s ≤ max_name_bytes l) es.*1 ∧ Forall (λ s, len s ≤ max_string_bytes l) (es ≫= λ p, value_strings p.2) ∧
     sum entry_elements es ≤ max_metadata_array_elements l ∧ Z.of_nat (length (entries_bytes es)) ≤ max_metadata_bytes l)
    (behind_entries es).
Proof.
  intros Hidx HF Hh. eapply gives_iff; [apply (gives_loop _ behind_entries entry_fits idx es Hidx); intros i pre p post ->; by apply entry_gives with post|].
  assert (∀ pre p post, es = pre ++ p :: post → sum entry_elements (pre ++ [p]) ≤ sum entry_elements es ∧
    Z.of_nat (length (entries_bytes (pre ++ [p]))) ≤ Z.of_nat (length (entries_bytes es))) as Hmono.
  { intros pre p post ->. replace (pre ++ p :: post) with ((pre ++ [p]) ++ post) in * by (by rewrite <-app_assoc). rewrite (sum_app _ (pre ++ [p]) post). unfold entries_bytes.
    rewrite (fmap_app _ (pre ++ [p]) post), concat_app, length_app. apply Forall_app in HF as [_ HF]. pose proof (leaves_length post HF) as [? _]. lia. }
  assert (0 ≤ max_metadata_array_elements l ∧ 0 ≤ max_metadata_bytes l) as [Hm1 Hm2] by (unfold limits_u64 in Hl; rewrite !Forall_cons in Hl; unfold u64 in Hl; lia).
  split.
  - intros H. assert (∀ p, p ∈ es → 1 ≤ len p.1 ≤ max_name_bytes l ∧ Forall (λ s, len s ≤ max_string_bytes l) (value_strings p.2)) as Hp.
    { intros p (pre & post & ->)%list_elem_of_split. by destruct (H pre p post eq_refl) as (? & ? & _). }
    split_and!.
    + apply Forall_fmap, Forall_forall. intros p Hin. by apply Hp.
    + apply Forall_forall. intros s (p & Hs & Hin)%list_elem_of_bind. destruct (Hp p Hin) as [_ HFs]. rewrite Forall_forall in HFs. by apply HFs.
    + clear -H HF Hm1. induction es as [|p es IH] using rev_ind; [done|]. destruct (H es p [] eq_refl) as (_ & _ & Hle & _). apply Forall_app in HF as [HF _].
      rewrite sum_snoc in *. assert (sum entry_elements es ≤ max_metadata_array_elements l) as Hes.
      { apply IH; [done|]. intros pre p' post ->. apply (H pre p' (post ++ [p])). by rewrite <-app_assoc. }
      destruct p as [k v]. change (entry_elements (k, v)) with (value_elements v) in *. cbn [snd] in Hle. destruct v; cbn [value_elements] in *; (done || lia).
    + destruct es as [|p es] using rev_ind; [done|]. by destruct (H es p [] eq_refl) as (_ & _ & _ & ?).
  - intros (H1 & H2 & H3 & H4) pre p post Ees. destruct (Hmono pre p post Ees). assert (p ∈ es) as Hin by (rewrite Ees; apply elem_of_app; right; left).
    apply Forall_fmap in H1. rewrite Forall_forall in H1. rewrite Forall_forall in H2. split; [by apply H1|]. split_and!; [| |lia].
    + apply Forall_forall. intros s Hs. apply H2. apply list_elem_of_bind. by exists p.
    + destruct p.2; (done || lia).
Qed.

Lemma dims_gives ds (idx : list Z) e s : length idx = length ds → scan_file s = bytes → Forall (λ d, 0 < d) ds → 0 < e → e * product ds < W64 →
  holds bytes (scan_at s) (concat (le_bytes 8 <$> ds)) →
  for_each Preflight.dim idx (e, s) = Ok (e * product ds, Preflight.moved s (scan_at s + Z.of_nat (length (concat (le_bytes 8 <$> ds))))).
Proof.
  intros Hidx Ef HF He Hp Hh. revert e s idx Hidx Ef He Hp Hh. induction HF as [|d ds Hd HF IH]; intros e s idx Hidx Ef He Hp Hh; destruct idx as [|i idx]; try done.
  { cbn [for_each]. do 2 f_equal; [cbn; lia|]. destruct s. unfold Preflight.moved. cbn. by rewrite Z.add_0_r. }
  cbn [for_each fmap list_fmap concat product foldr] in *. fold (product ds) in *. apply holds_app in Hh as [H1 H2].
  assert (0 < product ds) as Hpp by (clear -HF; induction HF; cbn; [done|fold (product l); nia]). rewrite length_app, length_le_bytes in *.
  assert (Preflight.dim i (e, s) = Ok (e * d, Preflight.moved s (scan_at s + 8))) as ->.
  { unfold Preflight.dim. rewrite (u64_gives bytes Hlen s d); [|done|change (2 ^ 64) with W64; nia|done]. rewrite Ok_bind, (proj2 (Z.eqb_neq d 0)) by lia.
    by rewrite (proj2 (checked_mul_Some e d (e * d))) by (split; [done|nia]). }
  rewrite Ok_bind.
  rewrite IH; [|by injection Hidx|done|nia|nia|done]. do 2 f_equal; [lia|]. unfold Preflight.moved. cbn. f_equal. lia.
Qed.

Definition behind_infos (s : Scan) (pre : list GgufTensorInfo) : Z * Scan :=
  (sum elements_of_info pre, Preflight.moved s (scan_at s + Z.of_nat (length (infos_bytes pre)))).

Definition info_fits (pre : list GgufTensorInfo) (i : GgufTensorInfo) : Prop :=
  1 ≤ len (info_name i) ≤ max_name_bytes l ∧ sum elements_of_info (pre ++ [i]) ≤ max_total_terms l ∧
  Z.of_nat (length (infos_bytes (pre ++ [i]))) ≤ max_index_bytes l.

Lemma infos_nonneg infos : Forall info_ok infos → 0 ≤ sum elements_of_info infos.
Proof. intros HF. apply sum_nonneg. eapply Forall_impl; [exact HF|]. intros i [_ Hi]%info_dims_pos. unfold elements_of_info, product. lia. Qed.

Lemma descriptor_gives s idx pre i post : scan_file s = bytes → scan_limits s = l → 24 ≤ scan_at s → Forall info_ok (pre ++ i :: post) →
  holds bytes (scan_at s) (infos_bytes (pre ++ i :: post)) →
  gives (Preflight.descriptor (scan_at s) idx (behind_infos s pre)) (info_fits pre i) (behind_infos s (pre ++ [i])).
Proof.
  intros Ef El H24 HF Hh. replace (pre ++ i :: post) with ((pre ++ [i]) ++ post) in * by (by rewrite <-app_assoc). apply Forall_app in HF as [HF _].
  unfold infos_bytes in Hh. rewrite fmap_app, concat_app in Hh. apply holds_app in Hh as [Hh _]. fold (infos_bytes (pre ++ [i])) in Hh.
  pose proof (holds_range _ _ _ Hh) as Hr. unfold behind_infos, info_fits. rewrite infos_bytes_snoc, !sum_snoc in *.
  apply Forall_app in HF as [HFpre [Hi _]%Forall_cons]. pose proof (infos_nonneg pre HFpre) as Hs0. pose proof (info_dims_pos i Hi) as [_ Hprod].
  destruct Hi as (Hname & Hnd & Hrank & Hpos & Hlt & Hty & Hoff). unfold info_bytes in *. rewrite !holds_app, !length_app, !length_le_bytes in *. destruct Hh as (_ & H1 & H2 & H3 & _).
  set (n := length (infos_bytes pre)) in *. set (sb := length (string_bytes (info_name i))) in *. set (db := length (concat (le_bytes 8 <$> dims i))) in *.
  change (elements_of_info i) with (product (dims i)) in *. assert (0 < product (dims i) < W64) as Hpd by done. unfold Preflight.descriptor.
  assert (max_total_terms l < W64) as Hmax by (unfold limits_u64 in Hl; rewrite !Forall_cons in Hl; unfold u64 in Hl; lia).
  eapply gives_iff; [eapply gives_bind; [apply (string_gives bytes Hlen l _ (info_name i) true); [done|done|exact H1]|]|].
  - cbn [Preflight.moved scan_file scan_at scan_limits leaves arrays]. fold sb.
    eapply gives_after; [apply (u32_gives bytes Hlen _ (n_dims i)); [done|lia|exact H2]|]. cbn [Preflight.moved scan_file scan_at scan_limits leaves arrays].
    rewrite (proj2 (Z.leb_le 1 _)), (proj2 (Z.leb_le _ 4)) by lia. cbn [andb negb].
    eapply gives_after; [apply (dims_gives (dims i)); [by rewrite length_seqZ, Hnd, Nat2Z.id|done|done|lia|lia|exact H3]|].
    cbn [Preflight.moved scan_file scan_at scan_limits leaves arrays]. rewrite Z.mul_1_l. fold db.
    eapply (gives_iff _ (sum elements_of_info pre + product (dims i) ≤ max_total_terms l ∧ Z.of_nat (n + (sb + (4 + (db + (4 + 8))))) ≤ max_index_bytes l)); [|reflexivity].
    destruct (checked_add (sum elements_of_info pre) (product (dims i))) as [t|] eqn:Et; cycle 1.
    { intros x. split; [done|]. intros [[Hle _] _]. unfold checked_add in Et. case_match eqn:Hc; [done|]. apply Z.ltb_ge in Hc. lia. }
    apply checked_add_Some in Et as [-> _]. cbn [ok_or]. rewrite Ok_bind, El. eapply gives_bind; [apply limit_gives|].
    eapply gives_after; [apply (skip_gives bytes Hlen); cbn [Preflight.moved scan_file scan_at]; done || lia|]. cbn [Preflight.moved scan_file scan_at scan_limits leaves arrays].
    set (end_ := scan_at s + Z.of_nat n + Z.of_nat sb + 4 + Z.of_nat db + 12) in *.
    replace (Z.of_nat (n + (sb + (4 + (db + (4 + 8)))))) with (end_ - scan_at s) by (unfold end_; lia).
    rewrite (proj2 (checked_sub_Some end_ (scan_at s) (end_ - scan_at s))) by (split; [done|unfold end_; lia]). cbn [ok_or]. rewrite Ok_bind.
    eapply gives_iff; [eapply gives_bind; [rewrite ?El; apply limit_gives|apply gives_sure]|by rewrite (right_id True and)].
    unfold Preflight.moved. cbn. do 3 f_equal. unfold end_. lia.
  - done.
Qed.

Lemma infos_gives s infos (idx : list Z) : scan_file s = bytes → scan_limits s = l → 24 ≤ scan_at s → length idx = length infos → Forall info_ok infos →
  holds bytes (scan_at s) (infos_bytes infos) →
  gives (for_each (Preflight.descriptor (scan_at s)) idx (0, s))
    (Forall (λ s, 1 ≤ len s ≤ max_name_bytes l) (info_name <$> infos) ∧ sum elements_of_info infos ≤ max_total_terms l ∧
     Z.of_nat (length (infos_bytes infos)) ≤ max_index_bytes l)
    (behind_infos s infos).
Proof.
  intros Ef El H24 Hidx HF Hh. assert ((0, s) = behind_infos s []) as -> by (unfold behind_infos, Preflight.moved; destruct s; cbn; by rewrite Z.add_0_r).
  eapply gives_iff; [apply (gives_loop _ (behind_infos s) info_fits idx infos Hidx); intros i pre p post ->; by apply descriptor_gives with post|].
  assert (∀ pre p post, infos = pre ++ p :: post → sum elements_of_info (pre ++ [p]) ≤ sum elements_of_info infos ∧
    Z.of_nat (length (infos_bytes (pre ++ [p]))) ≤ Z.of_nat (length (infos_bytes infos))) as Hmono.
  { intros pre p post ->. replace (pre ++ p :: post) with ((pre ++ [p]) ++ post) in * by (by rewrite <-app_assoc). rewrite (sum_app _ (pre ++ [p]) post). unfold infos_bytes.
    rewrite (fmap_app _ (pre ++ [p]) post), concat_app, length_app. apply Forall_app in HF as [_ HF]. pose proof (infos_nonneg post HF). lia. }
  assert (0 ≤ max_total_terms l ∧ 0 ≤ max_index_bytes l) as [Hm1 Hm2] by (unfold limits_u64 in Hl; rewrite !Forall_cons in Hl; unfold u64 in Hl; lia).
  split.
  - intros H. split.
    + apply Forall_fmap, Forall_forall. intros p (pre & post & E)%list_elem_of_split. by destruct (H pre p post E) as (? & _).
    + destruct infos as [|p infos] using rev_ind; [done|]. by destruct (H infos p [] eq_refl) as (_ & ? & ?).
  - intros (H1 & H2 & H3) pre p post E. destruct (Hmono pre p post E). apply Forall_fmap in H1. rewrite Forall_forall in H1.
    split; [apply H1; rewrite E; apply elem_of_app; right; left|lia].
Qed.
End sections.

(** ** The theorem *)

Section preflight.
Context (bytes : list Z) (Hu : Forall u8 bytes) (Hlen : Parse.file_len bytes < 2 ^ 63).
Context (o : ConversionOptions) (Hl : limits_u64 (limits (write o))) (Hres : u64 (max_resident_bytes (conversion (write o)))).

Lemma accounted_gives m d lv k t : 0 ≤ m → 0 ≤ d → 0 ≤ lv → 0 ≤ k → 0 ≤ t →
  gives (n ← ok_or Preflight.format (Preflight.accounted m d lv k t); _ ← Preflight.limit MaxResidentBytes (max_resident_bytes (conversion (write o))) n; Ok n)
    (8 * (m + d) + 256 * (lv + k + t) ≤ max_resident_bytes (conversion (write o))) (8 * (m + d) + 256 * (lv + k + t)).
Proof.
  intros Hm Hd Hlv Hk Ht. destruct Hres as [_ Hr]. set (n := 8 * (m + d) + 256 * (lv + k + t)).
  destruct (decide (n < W64)) as [Hn|Hn].
  - assert (Preflight.accounted m d lv k t = Some n) as ->.
    { unfold Preflight.accounted. rewrite (proj2 (checked_add_Some m d (m + d))) by lia. cbn [mbind option_bind].
      rewrite (proj2 (checked_mul_Some (m + d) 8 ((m + d) * 8))) by lia. cbn [mbind option_bind].
      rewrite (proj2 (checked_add_Some lv k (lv + k))) by lia. cbn [mbind option_bind]. rewrite (proj2 (checked_add_Some (lv + k) t (lv + k + t))) by lia. cbn [mbind option_bind].
      rewrite (proj2 (checked_mul_Some (lv + k + t) 256 ((lv + k + t) * 256))) by lia. cbn [mbind option_bind]. apply checked_add_Some. lia. }
    cbn [ok_or]. rewrite Ok_bind. eapply gives_iff; [eapply gives_bind; [apply limit_gives|by apply gives_sure]|by rewrite (right_id True and)].
  - intros x. split; [|intros [? _]; lia]. intros R. apply bind_ok in R as (y & Hy%ok_or_ok & R). exfalso. unfold Preflight.accounted in Hy.
    repeat (apply bind_Some in Hy as (? & [-> ?]%checked_add_Some & Hy) || apply bind_Some in Hy as (? & [-> ?]%checked_mul_Some & Hy)).
    apply checked_add_Some in Hy as [-> ?]. lia.
Qed.

Lemma inspect_gives es r : gguf_laid_out bytes es r →
  gives (Preflight.inspect bytes o) (preflight_ok (limits (write o)) bytes es (tensor_infos r) ∧ working_set es (tensor_infos r) ≤ max_resident_bytes (conversion (write o)))
    (working_set es (tensor_infos r)).
Proof.
  intros [(payload & Hfile) _ [Hmagic Hv] [Hkc Htc] (HF & _) [HF' _] _ _]. set (l := limits (write o)) in *. set (infos := tensor_infos r) in *. set (h := gguf_header r) in *.
  assert (holds bytes 0 (gguf_header_bytes h ++ entries_bytes es ++ infos_bytes infos)) as Hall by (exists [], payload; split; [by rewrite Hfile, <-!app_assoc|done]).
  unfold gguf_header_bytes in Hall. rewrite !holds_app, !length_app, !length_le_bytes in Hall. destruct Hall as ((H1 & H2 & H3 & H4) & H5 & H6).
  pose proof (holds_range _ _ _ H6) as Hr. pose proof (leaves_length es HF) as [He0 Hlv]. rewrite Hmagic in H1. unfold Preflight.inspect. cbv zeta. fold l.
  eapply gives_iff; [eapply gives_bind; [apply limit_gives|]|].
  - eapply gives_after; [apply (number_gives bytes Hlen 4 4 _ GGUF_MAGIC); [done|done|done|exact H1]|]. cbn beta iota. rewrite bool_decide_true by done. cbn [negb Preflight.moved scan_at scan_file scan_limits leaves arrays].
    eapply gives_after; [apply (u32_gives bytes Hlen _ (Gguf.header_version h)); [done|lia|exact H2]|]. cbn [Preflight.moved scan_at scan_file scan_limits leaves arrays].
    assert (((Gguf.header_version h =? 2) || (Gguf.header_version h =? 3)) = true) as -> by (destruct (Z.eqb_spec (Gguf.header_version h) 2), (Z.eqb_spec (Gguf.header_version h) 3); cbn; done || lia). cbn [negb].
    assert (length es ≤ length (entries_bytes es))%nat as Hle.
    { clear. induction es as [|e es IH]; [done|]. unfold entries_bytes, metadata_entry_bytes, string_bytes in *. cbn [fmap list_fmap concat length]. rewrite !length_app, length_le_bytes. lia. }
    assert (length infos ≤ length (infos_bytes infos))%nat as Hli.
    { clear. generalize infos. intros js. induction js as [|i js IH]; [done|]. unfold infos_bytes, info_bytes, string_bytes in *. cbn [fmap list_fmap concat length]. rewrite !length_app, length_le_bytes. lia. }
    eapply gives_after; [apply (u64_gives bytes Hlen _ (tensor_count h)); [done|lia|exact H3]|]. cbn [Preflight.moved scan_at scan_file scan_limits leaves arrays].
    eapply gives_after; [apply (u64_gives bytes Hlen _ (metadata_kv_count h)); [done|lia|exact H4]|]. cbn [Preflight.moved scan_at scan_file scan_limits leaves arrays].
    rewrite Hkc, Htc. eapply gives_bind; [apply limit_gives|]. eapply gives_bind; [apply limit_gives|].
    eapply gives_bind; [apply (entries_gives bytes Hlen l Hl es); [by rewrite length_seqZ, Nat2Z.id|done|exact H5]|].
    rewrite (proj2 (checked_sub_Some _ _ (Z.of_nat (length (entries_bytes es))))) by (cbn [behind_infos behind_entries Preflight.moved scan_at]; lia). cbn [ok_or]. rewrite Ok_bind.
    eapply gives_bind; [apply (infos_gives bytes Hlen l Hl (behind_entries bytes l es) infos); [done|done|cbn [behind_entries scan_at]; lia|by rewrite length_seqZ, Nat2Z.id|done|exact H6]|].
    cbn [behind_infos]. rewrite (proj2 (checked_sub_Some _ _ (Z.of_nat (length (infos_bytes infos))))) by (cbn [behind_infos behind_entries Preflight.moved scan_at]; lia). cbn [ok_or]. rewrite Ok_bind.
    cbn [Preflight.moved behind_entries leaves]. unfold working_set. apply accounted_gives; lia.
  - cbn [Preflight.moved behind_entries scan_at leaves]. unfold working_set. split.
    + intros (? & ? & ? & (? & ? & ? & ?) & (? & ? & ?) & ?). split; [|done]. split; try done. by apply Forall_app.
    + intros [[? [? ?] [? ?]%Forall_app ? ? ? [? ?]] ?]. done.
Qed.
End preflight.

(** [C18] The bounds of a conversion. The scan never panics, whatever the file. A file that the
    reader opens passes it exactly if its size, its metadata and its descriptors are within
    the limits: every count, name and string, the elements of all arrays and of all tensors,
    and both sections; the estimate it gives is then the size of the working set. *)
Theorem preflight_bounds bytes o : Forall u8 bytes → Parse.file_len bytes < 2 ^ 63 → limits_u64 (limits (write o)) →
  u64 (max_resident_bytes (conversion (write o))) →
  Preflight.inspect bytes o ≠ Err None ∧
  ∀ r, Gguf.open bytes = Ok r → ∃ es, gguf_laid_out bytes es r ∧
    ∀ n, Preflight.inspect bytes o = Ok n ↔ (preflight_ok (limits (write o)) bytes es (tensor_infos r) ∧
      working_set es (tensor_infos r) ≤ max_resident_bytes (conversion (write o))) ∧ n = working_set es (tensor_infos r).
Proof.
  intros Hu Hlen Hl Hres. split; [apply (ends_ok _ _ (inspect_ends bytes o Hu))|]. intros r Hopen.
  destruct (open_gguf_laid_out bytes Hu Hlen r Hopen) as [es Hes]. exists es. split; [done|]. by apply inspect_gives.
Qed.

Definition preflight_options : ConversionOptions := mkConversionOptions (mkWriteOptions ReadLimits_default ConversionLimits_default) Certified.ExactSynthesisOptions_default.

(** The sample file needs a structure for its tensor, its entry and its value. *)
Lemma preflight_bounds_witness : ∃ es r, gguf_laid_out sample_gguf es r ∧ Preflight.inspect sample_gguf preflight_options = Ok 1360 ∧ working_set es (tensor_infos r) = 1360.
Proof.
  destruct (proj2 (preflight_bounds sample_gguf preflight_options sample_u8 eq_refl default_u64 ltac:(split; done)) sample_gguf_reader sample_gguf_opens) as (es & Hes & Hn).
  exists es, sample_gguf_reader. split; [exact Hes|]. assert (Preflight.inspect sample_gguf preflight_options = Ok 1360) as E by (vm_compute; reflexivity).
  split; [exact E|]. symmetry. exact (proj2 (proj1 (Hn 1360) E)).
Defined.
