(* ===== verification/WeightConvert.v ===== *)
(** * convert.rs of model-weights: from a model file to a weight file

    Every tensor of a model file is decoded chunk by chunk; every weight is synthesized as a
    certified term, or taken from a cache, and handed to the writer in bounded blocks.
    [conversion_exact] composes the reader of model files, the decoders, the synthesizer and
    the writer: the published file gives, for each weight, a term whose real value is the
    decoded number.

    The files are their bytes. The measured times, the peak of the memory and the paths are
    left out. *)
From Stdlib Require Import QArith Reals Qreals.
From S2P Require Import Prelude Terms Encoding RealSemantics Float Float32 Exact ExactInput Certified CertifiedReal Text Bytes GgufCodecs Gguf GgufFormat.
From S2P Require Import WeightLimits WeightMetadata WeightFormat WeightReader WeightWriter GgufPreflight.
#[local] Set Warnings "-register-all".
#[local] Open Scope string_scope.
#[local] Open Scope list_scope.
#[local] Open Scope Z_scope.

(** The size of a [CertifiedBml] in memory, and the order in which a [HashMap] gives its
    entries. *)
Class CertificateSize : Type := certificate_size : Z.
Class MapOrder : Type := map_order : gmap string GgufMetadataValue → list (string * GgufMetadataValue).
Class MapOrderLaws `{MapOrder} : Prop := map_order_entries : ∀ m, map_order m ≡ₚ map_to_list m.

(** What is known of the destination before the conversion. *)
Inductive Probe : Set := Present | Absent | Unreadable.

Record ConversionReport : Set := mkConversionReport {
  report_write : WriteReport; report_source_sha256 : Digest; source_bytes : Z; weights_synthesized : Z; weights_reused : Z;
  report_synthesis_steps : Z; report_tree_bytes : Z; report_tree_bits : Z; report_peak_cache_bytes : Z;
}.

(** The variables of the conversion that outlive a tensor. *)
Record Conversion : Set := mkConversion {
  writer : WeightWriter; cache : gmap Z (CertifiedBml * Z); cache_bytes : Z; peak_cache_bytes : Z;
  synthesized : Z; reused : Z; synthesis_steps : Z; tree_bits : Z; tree_bytes : Z;
}.

(** The variables of one tensor. *)
Record Pending : Set := mkPending { pending : list CertifiedBml; pending_bits : Z; pending_memory : Z; pending_flat : Z }.

Module FromGguf.
Import Cursor DataType.

Definition div_ceil (a b : Z) : Z := (a + b - 1) / b.

Definition metadata_error : Error := Metadata None InvalidType.

(** The elements of an array, all of one variant. *)
Definition values {A} (f : GgufMetadataValue → option A) (l : list GgufMetadataValue) : Result Error (list A) :=
  ok_or metadata_error (mapM f l).

Definition metadata_array (kind : GgufDataType) (l : list GgufMetadataValue) : Result Error MetadataArray :=
  match kind with
  | U8 => AU8 <$> values (λ v, match v with GU8 n => Some n | _ => None end) l
  | I8 => AI8 <$> values (λ v, match v with GI8 n => Some n | _ => None end) l
  | U16 => AU16 <$> values (λ v, match v with GU16 n => Some n | _ => None end) l
  | I16 => AI16 <$> values (λ v, match v with GI16 n => Some n | _ => None end) l
  | U32 => AU32 <$> values (λ v, match v with GU32 n => Some n | _ => None end) l
  | I32 => AI32 <$> values (λ v, match v with GI32 n => Some n | _ => None end) l
  | U64 => AU64 <$> values (λ v, match v with GU64 n => Some n | _ => None end) l
  | I64 => AI64 <$> values (λ v, match v with GI64 n => Some n | _ => None end) l
  | F32 => AF32Bits <$> values (λ v, match v with GF32 x => Some (f32_bits x) | _ => None end) l
  | F64 => AF64Bits <$> values (λ v, match v with GF64 x => Some (to_bits x) | _ => None end) l
  | Bool => ABool <$> values (λ v, match v with GBool b => Some b | _ => None end) l
  | String => AString <$> values (λ v, match v with GString s => Some s | _ => None end) l
  | Array => Err (Metadata None NestedArray)
  | _ => Err metadata_error
  end.

Definition metadata_value (v : GgufMetadataValue) : Result Error MetadataValue :=
  match v with
  | GU8 x => Ok (MU8 x) | GI8 x => Ok (MI8 x) | GU16 x => Ok (MU16 x) | GI16 x => Ok (MI16 x) | GU32 x => Ok (MU32 x) | GI32 x => Ok (MI32 x)
  | GU64 x => Ok (MU64 x) | GI64 x => Ok (MI64 x) | GF32 x => Ok (MF32Bits (f32_bits x)) | GF64 x => Ok (MF64Bits (to_bits x))
  | GBool x => Ok (MBool x) | GString x => Ok (MString x)
  | GArray kind l => MArray <$> metadata_array kind l
  end.

Definition identity (name revision : string) : ToolIdentity := mkTool name "1.0.0" revision.

(** [check_external_memory]: the new account is kept even if it is over the limit. *)
Definition check_external_memory (self : WeightWriter) (bytes : Z) : Result Error unit * WeightWriter :=
  let self := mkWriter (catalog_metadata self) (WeightWriter.source self) (options self) (writer_tensors self) (writer_blocks self) (state self)
    (written self) (written_terms self) (tensor_bytes self) (written_payload self) (replay_steps self) bytes (spool self) in
  (records ← mul (Writer.blocks_len self) 80; index ← add (tensor_bytes self) records; Writer.resident self index 0 0, self).

Definition certificate_bytes `{StepSize} `{CertificateSize} (value : CertifiedBml) : Result Error Z :=
  let rational := Z.of_nat (length (numerator (target value))) + Z.of_nat (length (denominator (target value))) in
  steps ← mul (Z.of_nat (length (Certified.steps (derivation value)))) step_size;
  a ← add (div_ceil (bit_len (term value)) 64 * 8) steps;
  words ← mul rational 8;
  b ← add words certificate_size;
  add a b.

Fixpoint chunks_from (fuel n : nat) (l : list Z) : list (list Z) :=
  match fuel, l with
  | S fuel, _ :: _ => list.take n l :: chunks_from fuel n (drop n l)
  | _, _ => []
  end.

(** The chunks of a slice, of [n] bytes but for the last. *)
Definition chunks (n : nat) (l : list Z) : list (list Z) := chunks_from (length l) n l.

(** A call on the writer, of which an error ends the conversion. *)
Definition ran {A} (m : Result (option Error) A * WeightWriter) : Result (option Error) (A * WeightWriter) :=
  match m with (Ok a, w) => Ok (a, w) | (Err e, _) => Err e end.

(** The bytes and the elements of a block, and the bytes that are decoded at once. *)
Definition decode_geometry (dtype : SourceDtype) : Z * Z * Z :=
  match dtype with
  | WeightLimits.F32 => (4, 1, 1024) | WeightLimits.F16 => (2, 1, 512)
  | WeightLimits.Q4_0 => (18, 32, 18) | WeightLimits.Q8_0 => (34, 32, 34) | WeightLimits.Q6K => (210, 256, 210)
  end.

Section tensors.
Context `{Sha256} `{StepSize} `{CertificateSize}.
(** The variables of the conversion that stay the same. *)
Context (options : ConversionOptions) (base_memory : Z) (synthesis : ExactSynthesisOptions) (synthesis_memory : Z).

Definition conversion_limits : ConversionLimits := conversion (write options).
Definition max_terms : Z := Z.min (max_block_terms (limits (write options))) (conversion_block_terms conversion_limits).
Definition max_bytes : Z := Z.min (max_block_bytes (limits (write options))) (conversion_block_bytes conversion_limits).

Definition set_writer (s : Conversion) (w : WeightWriter) : Conversion :=
  mkConversion w (cache s) (cache_bytes s) (peak_cache_bytes s) (synthesized s) (reused s) (synthesis_steps s) (tree_bits s) (tree_bytes s).

(** [check_external_memory] whose error ends the conversion, with the location. *)
Definition reserve (location : WeightLocation) (s : Conversion) (bytes : Z) : Result (option Error) Conversion :=
  let '(result, w) := check_external_memory (writer s) bytes in
  _ ← Reader.checked (Writer.locate location result);
  Ok (set_writer s w).

(** A zero of either sign has the key of zero. *)
Definition key (value : f32) : Z := if f32_eq value f32_zero then 0 else f32_bits value.

(** The entry is added if the cache and the memory allow it. *)
Definition remember (k : Z) (certified : CertifiedBml) (working : Z) (s : Conversion) : Result (option Error) Conversion :=
  bytes ← Reader.checked (certificate_bytes certified);
  charge ← Reader.checked (add bytes 64);
  next_cache ← Reader.checked (add (cache_bytes s) charge);
  if max_cache_bytes conversion_limits <? next_cache then Ok s else
  bytes ← Reader.checked (add working charge);
  let '(result, w) := check_external_memory (writer s) bytes in
  Ok (if is_ok result
      then mkConversion w (<[k := (certified, charge)]> (cache s)) next_cache (Z.max (peak_cache_bytes s) next_cache)
        (synthesized s) (reused s) (synthesis_steps s) (tree_bits s) (tree_bytes s)
      else set_writer s w).

(** A weight that is not in the cache. *)
Definition synthesize (location : WeightLocation) (value : f32) (working : Z) (s : Conversion) : Result (option Error) (CertifiedBml * Conversion) :=
  remaining ← Reader.checked (ok_or (Format ArithmeticOverflow None) (checked_sub (max_synthesis_steps_total conversion_limits) (synthesis_steps s)));
  _ ← Reader.checked (Writer.locate location (Limits.check_limit MaxSynthesisStepsTotal remaining (Some 1)));
  let bounded := mkExactSynthesisOptions (rational synthesis) (Certified.max_bits synthesis) (Z.min (max_steps synthesis) remaining)
    (max_total_bits synthesis) (max_recursion synthesis) in
  certified ← Reader.checked (map_err (Synthesis location) (Certified.from_f64_exact_with_options (f64_of_f32 value) bounded));
  steps ← Reader.checked (add (synthesis_steps s) (Z.of_nat (length (Certified.steps (derivation certified)))));
  let previous_cache := cache_bytes s in
  s ← remember (key value) certified working
        (mkConversion (writer s) (cache s) (cache_bytes s) (peak_cache_bytes s) (synthesized s + 1) (reused s) steps (tree_bits s) (tree_bytes s));
  n ← Reader.checked (add working (cache_bytes s - previous_cache));
  s ← reserve location s n;
  Ok (certified, s).

(** The certified term of a weight. *)
Definition certify (location : WeightLocation) (value : f32) (working : Z) (s : Conversion) : Result (option Error) (CertifiedBml * Conversion) :=
  match cache s !! key value with
  | Some (certified, _) =>
      Ok (certified, mkConversion (writer s) (cache s) (cache_bytes s) (peak_cache_bytes s) (synthesized s) (reused s + 1) (synthesis_steps s)
        (tree_bits s) (tree_bytes s))
  | None => synthesize location value working s
  end.

Definition write_pending (s : Conversion) (weights : list CertifiedBml) : Result (option Error) Conversion :=
  '(_, w) ← ran (Writer.write_block (writer s) weights); Ok (set_writer s w).

Definition write_out (s : Conversion) (p : Pending) : Result (option Error) (Conversion * Pending) :=
  s ← write_pending s (pending p); Ok (s, mkPending [] 0 0 (pending_flat p)).

(** Whether the block must be written before the next term. *)
Definition full (p : Pending) (next_bits : Z) : Result Error bool :=
  if bool_decide (pending p = []) then Ok false else
  if max_terms <=? Z.of_nat (length (pending p)) then Ok true else
  n ← add 24 (div_ceil next_bits 8); Ok (max_bytes <? n).

(** One decoded value. *)
Definition convert_value (index : Z) (name : string) (value : f32) (state : Conversion * Pending) : Result (option Error) (Conversion * Pending) :=
  let '(s, p) := state in
  let location := mkLocation index name (pending_flat p) in
  if negb (f32_finite value) then Err (Some (NonFiniteWeight location (f32_bits value))) else
  working ← Reader.checked (a ← add base_memory (cache_bytes s); b ← add synthesis_memory 65536; b ← add (pending_memory p) b; add a b);
  s ← reserve location s working;
  '(certified, s) ← certify location value working s;
  let bits := bit_len (term certified) in
  needed ← Reader.checked (add 24 (div_ceil bits 8));
  _ ← Reader.checked (Writer.locate location (Limits.check_limit MaxBlockBytes max_bytes (Some needed)));
  next_bits ← Reader.checked (add (pending_bits p) bits);
  flush ← Reader.checked (full p next_bits);
  '(s, p) ← (if flush : bool then write_out s p else Ok (s, p));
  p_bits ← Reader.checked (add (pending_bits p) bits);
  p_memory ← Reader.checked (n ← certificate_bytes certified; add (pending_memory p) n);
  retained ← Reader.checked (a ← add base_memory (cache_bytes s); m ← mul p_memory 2; b ← add synthesis_memory 65536; b ← add m b; add a b);
  s ← reserve location s retained;
  t_bits ← Reader.checked (add (tree_bits s) bits);
  t_bytes ← Reader.checked (add (tree_bytes s) (div_ceil bits 64 * 8));
  Ok (mkConversion (writer s) (cache s) (cache_bytes s) (peak_cache_bytes s) (synthesized s) (reused s) (synthesis_steps s) t_bits t_bytes,
      mkPending (pending p ++ [certified]) p_bits p_memory (pending_flat p + 1)).

Definition convert_chunk (index : Z) (t : GgufTensorInfo) (dtype : SourceDtype) (bytes : list Z) (state : Conversion * Pending)
    : Result (option Error) (Conversion * Pending) :=
  let '(encoded, per_block, _) := decode_geometry dtype in
  let elements := Z.of_nat (length bytes) / encoded * per_block in
  decoded ← map_err (fmap (Gguf (Some (info_name t)))) (Codec.decode_f32 (data_type t) bytes elements);
  for_each (convert_value index (info_name t)) decoded state.

Definition convert_tensor (reader : GgufReader) (item : Z * GgufTensorInfo) (s : Conversion) : Result (option Error) Conversion :=
  let '(index, t) := item in
  dtype ← Reader.checked (Types.try_from (as_u32 (data_type t)));
  view ← map_err (fmap (Gguf (Some (info_name t)))) (View.tensor_view reader (info_name t));
  let '(_, _, decode_chunk) := decode_geometry dtype in
  '(_, w) ← ran (Writer.begin_tensor (writer s) (info_name t) (dims t) dtype);
  '(s, p) ← for_each (convert_chunk index t dtype) (chunks (Z.to_nat decode_chunk) (view_data view)) (set_writer s w, mkPending [] 0 0 0);
  s ← (if bool_decide (pending p = []) then Ok s else write_pending s (pending p));
  '(_, w) ← ran (Writer.end_tensor (writer s));
  Ok (set_writer s w).
End tensors.

Section conversion.
Context `{Sha256} `{JsonText} `{StepSize} `{CertificateSize} `{MapOrder}.

Definition convert_metadata (reader : GgufReader) (options : ConversionOptions) : Result Error ModelMetadata :=
  entries ← for_each (λ '(key, v) entries, value ← metadata_value v; Ok (entries ++ [mkEntry key value])) (map_order (gguf_metadata reader)) [];
  Ok (mkMetadata 1 "bml-exact-decoded-f32-v1" (Gguf.header_version (gguf_header reader))
    (identity "bml-model-weights" "exact-rational-synthesis-v1") (identity "bml-gguf" "f32-f16-q4_0-q8_0-q6_k-v1")
    (conversion (write options)) entries).

(** The memory that a synthesis may need. *)
Definition scratch (synthesis : ExactSynthesisOptions) : Result Error Z :=
  n ← add (input_max_bits (rational synthesis) / 2) 256; n ← add step_size n; n ← mul (max_steps synthesis) n;
  add (max_total_bits synthesis / 8) n.

(** [from_gguf] on the bytes of the source. [same] says that both paths are one file; the
    destination is probed before the conversion, when the writer is created and when the file
    is published. *)
Definition from_gguf (bytes : list Z) (same : bool) (destination : Probe) (at_creation at_publication : bool) (options : ConversionOptions)
    : Result (option Error) (list Z * ConversionReport) :=
  _ ← Reader.checked (Limits.validate_options options);
  if same then Err (Some SourceDestinationConflict) else
  match destination with
  | Present => Err (Some DestinationExists)
  | Unreadable => Err (Some (Io Open))
  | Absent =>
      base_memory ← Preflight.inspect bytes options;
      reader ← map_err (fmap (Gguf None)) (Gguf.open bytes);
      let source_sha256 := sha256 bytes in
      metadata ← Reader.checked (convert_metadata reader options);
      w ← Reader.checked (Writer.create_accounted at_creation metadata source_sha256 (write options) base_memory);
      synthesis ← Reader.checked (Limits.effective_synthesis options);
      synthesis_memory ← Reader.checked (scratch synthesis);
      s ← for_each (convert_tensor options base_memory synthesis synthesis_memory reader) (imap (λ i t, (Z.of_nat i, t)) (tensor_infos reader))
            (mkConversion w ∅ 0 0 0 0 0 0 0);
      let '(result, w) := check_external_memory (writer s) 0 in
      _ ← Reader.checked result;
      '(file, report) ← Writer.finish at_publication w;
      Ok (file, mkConversionReport report source_sha256 (Parse.file_len bytes) (synthesized s) (reused s) (synthesis_steps s) (tree_bytes s) (tree_bits s)
        (peak_cache_bytes s))
  end.
End conversion.
End FromGguf.

(** ** Metadata *)

(** The UTF-8 strings. *)
Definition utf8 (s : string) : Prop := Utf8.from_utf8 (bytes_of s) = true.

Lemma values_ok {A} (f : GgufMetadataValue → option A) (P : A → Prop) l vs : FromGguf.values f l = Ok vs → Forall Gguf.scalar_ok l →
  (∀ v a, Gguf.scalar_ok v → f v = Some a → P a) → Forall P vs.
Proof.
  intros H%ok_or_ok%mapM_Some HF HP. induction H as [|v a l vs Hva _ IH]; [constructor|]. inversion_clear HF as [|? ? Hv HF'].
  constructor; [by eapply HP|by apply IH].
Qed.

Lemma fits_range t n : Integer.min t ≤ n ≤ Integer.max t → Integer.fits t n = true.
Proof. intros Hn. unfold Integer.fits. by rewrite !(proj2 (Z.leb_le _ _)) by lia. Qed.

Lemma metadata_array_ok kind l a : Forall Gguf.scalar_ok l → FromGguf.metadata_array kind l = Ok a → array_ok utf8 a.
Proof.
  intros HF H. destruct kind; cbn [FromGguf.metadata_array] in H; try done;
    (destruct (FromGguf.values _ _) as [vs|] eqn:E; [|done]); injection H as <-; cbn [array_ok]; try done;
    (eapply values_ok; [exact E|done|]); intros [] x Hs [= <-]; cbn in Hs |- *; try done; try (apply fits_range; cbn; unfold signed_ok in Hs; lia).
Qed.

Lemma metadata_value_ok v mv : gguf_value_ok v → FromGguf.metadata_value v = Ok mv → value_ok utf8 mv.
Proof.
  intros Hv H. destruct v; cbn in H; try (injection H as <-; cbn in Hv |- *; first [done | by apply fits_range; cbn; unfold signed_ok in Hv; lia]).
  destruct (FromGguf.metadata_array _ _) as [a|] eqn:E; [|done]. injection H as <-. destruct Hv as (_ & _ & HF).
  eapply metadata_array_ok; [|exact E]. eapply Forall_impl; [exact HF|]. by intros ? [? _].
Qed.

(** ** Weights *)

(** A certified term for the value of a float. *)
Definition stands_for (w : CertifiedBml) (v : f32) : Prop := certified w ∧ f32_finite v = true ∧ (rat_Q (target w) == f32_Q v)%Q.

Lemma f32_zero_value v : f32_eq v f32_zero = true → (f32_Q v == 0)%Q.
Proof.
  unfold f32_eq, f32_Q. change (to_spec32 f32_zero) with (SpecFloat.S754_zero false). unfold to_spec32.
  destruct (f32_exponent v =? 255); [by destruct (f32_fraction v =? 0), (f32_sign v)|]. pose proof (f32_significand_range v).
  destruct (f32_significand v) as [|m|m]; [| |lia].
  - intros _. destruct (f32_sign v); unfold scaleQ, Qeq; cbn [Qnum Z.opp]; lia.
  - by destruct (f32_sign v).
Qed.

(** Floats of one key have one value. *)
Lemma key_value v w : FromGguf.key v = FromGguf.key w → (f32_Q v == f32_Q w)%Q.
Proof.
  assert (∀ u, f32_eq u f32_zero = false → f32_bits u ≠ 0) as Hnz by (intros [b] Hu E; cbn in E; by subst).
  unfold FromGguf.key. destruct (f32_eq v f32_zero) eqn:Ev, (f32_eq w f32_zero) eqn:Ew; intros E.
  - by rewrite (f32_zero_value v Ev), (f32_zero_value w Ew).
  - by destruct (Hnz w Ew).
  - by destruct (Hnz v Ev).
  - destruct v, w. cbn in E. by subst.
Qed.

(** Every entry of the cache stands for the floats of its key. *)
Definition cache_ok (s : Conversion) : Prop :=
  ∀ k c n, cache s !! k = Some (c, n) → ∃ v, FromGguf.key v = k ∧ stands_for c v.

Lemma cached s v c n : cache_ok s → cache s !! FromGguf.key v = Some (c, n) → f32_finite v = true → stands_for c v.
Proof.
  intros Hs Hc Hv. destruct (Hs _ _ _ Hc) as (u & Hk & Hcert & _ & HQ). split_and!; [done|done|]. rewrite HQ. by apply key_value.
Qed.

(** ** The writer of a conversion *)

Section memory.
Context {Hash : Sha256} {Text : JsonText} (md : ModelMetadata) (o : WriteOptions) (origin : Digest).

Lemma external_keeps w n shapes log : writer_ok md o origin w shapes log → writer_ok md o origin (FromGguf.check_external_memory w n).2 shapes log.
Proof.
  intros [[B1 B2 B3 B4 B5 B6 B7 B8] [[R1 R2 R3 R4]|(f & t & old & cur & [O1 O2 O3 O4 O5 O6 O7 O8])]]; cbn; (split; [by split|]).
  - left. by split.
  - right. exists f, t, old, cur. by split.
Qed.

Lemma reserve_ends location s n shapes log : writer_ok md o origin (writer s) shapes log →
  ends_in (FromGguf.reserve location s n) (λ s', writer_ok md o origin (writer s') shapes log ∧ s' = FromGguf.set_writer s (writer s')).
Proof.
  intros Hw. unfold FromGguf.reserve. pose proof (external_keeps (writer s) n shapes log Hw) as Hk. destruct (FromGguf.check_external_memory _ _) as [result w].
  eapply (ends_bind _ _ (λ _, True)); [by apply ends_checked|]. by intros _ _.
Qed.
End memory.

(** ** One weight *)

(** Synthesis from a float gives its exact value. *)
Lemma from_f64_exact_lemma options value : options_ok options → f64_ok value →
  match Certified.from_f64_exact_with_options value options with
  | Ok c => certified c ∧ is_finite value = true ∧ (rat_Q (target c) == f64_Q value)%Q
  | Err _ => True
  end.
Proof.
  intros Ho Hv. unfold Certified.from_f64_exact_with_options.
  pose proof (from_f64_sound (rational options) (proj1 Ho) value Hv) as Hd.
  destruct (Exact.from_f64 value (rational options)) as [r|e]; cbn [Certified.from_input map_err mbind Result_bind]; [|done].
  destruct Hd as (Hfin & Hr & HQ). pose proof (from_rational_exact_lemma options Ho r Hr) as Hc.
  destruct (Certified.from_rational_exact r options) as [c|e]; [|done]. destruct Hc as [Hc ->]. by split.
Qed.

Section weights.
Context {Hash : Sha256} {Hash_laws : Sha256Laws} {Text : JsonText} {Size : StepSize} {Csize : CertificateSize}.
Context (md : ModelMetadata) (o : WriteOptions) (origin : Digest).
Context (opts : ConversionOptions) (base_memory : Z) (synth : ExactSynthesisOptions) (scratch : Z) (Hsynth : options_ok synth).
Context (shapes : list (string * list Z * SourceDtype)).

(** The writer is well formed, and so is the cache; the counters are those of the report. *)
Definition ready_to_write (n bits : Z) (log : list (list CertifiedBml)) (s : Conversion) : Prop :=
  writer_ok md o origin (writer s) shapes log ∧ cache_ok s ∧ synthesized s + reused s = n ∧ tree_bits s = bits.

Lemma reserve_keeps location s n bits bytes log : ready_to_write n bits log s → ends_in (FromGguf.reserve location s bytes) (ready_to_write n bits log).
Proof.
  intros (Hw & Hc & Hn). eapply ends_weaken; [by apply reserve_ends|]. intros s' [Hw' ->]. done.
Qed.

Lemma remember_ends v c working s n bits log : ready_to_write n bits log s → stands_for c v →
  ends_in (FromGguf.remember opts (FromGguf.key v) c working s) (ready_to_write n bits log).
Proof.
  intros (Hw & Hc & Hn) Hv. unfold FromGguf.remember. do 3 (eapply (ends_bind _ _ (λ _, True)); [by apply ends_checked|]; intros ? _).
  destruct (_ <? _); [done|]. eapply (ends_bind _ _ (λ _, True)); [by apply ends_checked|]. intros bytes _.
  pose proof (external_keeps md o origin (writer s) bytes shapes log Hw) as Hk. destruct (FromGguf.check_external_memory _ _) as [result w]. cbn [snd] in Hk.
  destruct (is_ok result); [|by split]. split; [done|]. split; [|done]. intros k c' n'. cbn [cache].
  destruct (decide (k = FromGguf.key v)) as [->|Hne].
  - rewrite lookup_insert_eq. intros [= <- <-]. by exists v.
  - rewrite lookup_insert_ne by done. apply Hc.
Qed.

Lemma synthesize_ends location v working s n bits log : ready_to_write n bits log s → f32_finite v = true →
  ends_in (FromGguf.synthesize opts synth location v working s) (λ p, stands_for p.1 v ∧ ready_to_write (n + 1) bits log p.2).
Proof.
  intros (Hw & Hc & Hn & Hbits) Hfin. unfold FromGguf.synthesize.
  eapply (ends_bind _ _ (λ m, 0 ≤ m)); [apply ends_checked; by intros m [-> ?]%ok_or_ok%checked_sub_Some; lia|]. intros remaining Hrem.
  eapply (ends_bind _ _ (λ _, True)); [by apply ends_checked|]. intros _ _. cbv zeta. set (bounded := mkExactSynthesisOptions _ _ _ _ _).
  assert (options_ok bounded) as Hb.
  { destruct Hsynth as (H1 & H2 & H3 & H4 & H5). unfold options_ok, usize in *. cbn. split_and!; try done; try lia. }
  destruct (f64_of_f32_exact v) as (Hv64 & Hf64 & HQ).
  eapply (ends_bind _ _ (λ c, stands_for c v)).
  { apply ends_checked. intros c Hs%map_err_ok. pose proof (from_f64_exact_lemma bounded (f64_of_f32 v) Hb Hv64) as H. rewrite Hs in H. destruct H as (Hcert & _ & HQc).
    split_and!; [done|done|]. rewrite HQc. by apply HQ. }
  intros c Hcv. eapply (ends_bind _ _ (λ _, True)); [by apply ends_checked|]. intros steps _.
  eapply ends_bind; [apply (remember_ends v c working _ (n + 1) bits log); [split_and!; cbn; done || lia|done]|]. intros s' Hs'. eapply (ends_bind _ _ (λ _, True)); [by apply ends_checked|]. intros m _.
  eapply ends_bind; [by apply reserve_keeps|]. intros s'' Hs''. by split.
Qed.

Lemma certify_ends location v working s n bits log : ready_to_write n bits log s → f32_finite v = true →
  ends_in (FromGguf.certify opts synth location v working s) (λ p, stands_for p.1 v ∧ ready_to_write (n + 1) bits log p.2).
Proof.
  intros (Hw & Hc & Hn & Hbits) Hfin. unfold FromGguf.certify. destruct (cache s !! FromGguf.key v) as [[c m]|] eqn:E.
  - split; [by eapply cached|split_and!; cbn; done || lia].
  - by apply synthesize_ends.
Qed.

Lemma write_ends s weights n bits log : ready_to_write n bits log s → ends_in (FromGguf.write_pending s weights) (ready_to_write n bits (log ++ [weights])).
Proof.
  intros (Hw & Hc & Hn). unfold FromGguf.write_pending. eapply (ends_bind _ _ (λ p, writer_ok md o origin p.2 shapes (log ++ [weights]))).
  - pose proof (perform_keeps md o origin (writer s) (WriteCall weights)) as Hk. pose proof (λ w, perform_safe md o origin (writer s) shapes log (WriteCall weights) w Hw) as Hsafe.
    cbn [perform] in *. destruct (Writer.write_block (writer s) weights) as [[id|e] w]; cbn.
    + specialize (Hk id w shapes log Hw I eq_refl). cbn in Hk. by rewrite app_nil_r in Hk.
    + intros ->. by apply (Hsafe w).
  - intros [id w] Hk. by split.
Qed.

(** The weights that were written and those that wait stand for the values so far. *)
Definition converted (values : list f32) (st : Conversion * Pending) : Prop :=
  ∃ log, ready_to_write (Z.of_nat (length values)) (sum (bit_len ∘ term) (concat log ++ pending st.2)) log st.1 ∧
    Forall2 stands_for (concat log ++ pending st.2) values.

Lemma full_pending bits p flush : FromGguf.full opts p bits = Ok flush → flush = true → pending p ≠ [].
Proof. unfold FromGguf.full. case_bool_decide; [by intros [= <-]|done]. Qed.

Lemma flush_ends (flush : bool) s p n log values : ready_to_write n (sum (bit_len ∘ term) (concat log ++ pending p)) log s → Forall2 stands_for (concat log ++ pending p) values →
  ends_in (if flush then FromGguf.write_out s p else Ok (s, p))
    (λ st, ∃ log, ready_to_write n (sum (bit_len ∘ term) (concat log ++ pending st.2)) log st.1 ∧ Forall2 stands_for (concat log ++ pending st.2) values).
Proof.
  intros Hs HF. destruct flush; [|by exists log]. eapply ends_bind; [by apply write_ends|]. intros s' Hs'. exists (log ++ [pending p]).
  cbn [pending snd fst]. rewrite concat_app, app_nil_r. cbn [concat]. by rewrite app_nil_r.
Qed.

Lemma convert_value_ends index name v values st : converted values st →
  ends_in (FromGguf.convert_value opts base_memory synth scratch index name v st) (converted (values ++ [v])).
Proof.
  destruct st as [s p]. intros (log & Hs & HF). cbn [fst snd] in *. unfold FromGguf.convert_value. destruct (f32_finite v) eqn:Hfin; cbn [negb]; [|done].
  eapply (ends_bind _ _ (λ _, True)); [by apply ends_checked|]. intros working _. eapply ends_bind; [by apply reserve_keeps|]. intros s1 Hs1.
  eapply ends_bind; [by apply certify_ends|]. intros [c s2] [Hcv Hs2]. cbn [fst snd] in *. cbv zeta.
  do 4 (eapply (ends_bind _ _ (λ _, True)); [by apply ends_checked|]; intros ? _). eapply ends_bind; [by eapply flush_ends|].
  intros [s3 p3] (log3 & Hs3 & HF3). cbn [fst snd] in *. do 3 (eapply (ends_bind _ _ (λ _, True)); [by apply ends_checked|]; intros ? _).
  eapply ends_bind; [by apply reserve_keeps|]. intros s4 Hs4.
  eapply (ends_bind _ _ (λ m, m = tree_bits s4 + bit_len (term c))); [apply ends_checked; by intros m [-> _]%add_ok|]. intros t_bits ->.
  eapply (ends_bind _ _ (λ _, True)); [by apply ends_checked|]. intros t_bytes _.
  exists log3. cbn [fst snd pending]. rewrite app_assoc, sum_snoc, length_app, Nat2Z.inj_add. destruct Hs4 as (Hw4 & Hc4 & Hn4 & Hb4).
  split; [|apply Forall2_app; [done|]; by constructor]. split_and!; cbn [writer synthesized reused tree_bits length compose]; done || lia.
Qed.
End weights.

(** ** One tensor *)

Lemma chunks_concat n l : (0 < n)%nat → concat (FromGguf.chunks n l) = l.
Proof.
  intros Hn. unfold FromGguf.chunks. assert (∀ fuel, (length l ≤ fuel)%nat → concat (FromGguf.chunks_from fuel n l) = l) as H; [|by apply H].
  intros fuel. revert l. induction fuel as [|fuel IH]; intros l Hl; [by destruct l; cbn in Hl; [|lia]|]. destruct l as [|x l]; [done|].
  cbn [FromGguf.chunks_from concat]. rewrite IH; [by rewrite take_drop|]. rewrite length_drop. cbn [length] in *. lia.
Qed.

(** A loop whose postcondition counts the items that are done. *)
Lemma ends_items {E I St} (P : list I → St → Prop) (body : I → St → Result (option E) St) l s : P [] s →
  (∀ pre i post s, l = pre ++ i :: post → P pre s → ends_in (body i s) (P (pre ++ [i]))) → ends_in (for_each body l s) (P l).
Proof.
  intros Hs Hb. assert (∀ rest pre s, l = pre ++ rest → P pre s → ends_in (for_each body rest s) (P l)) as H; [|by apply (H l [])].
  clear s Hs. induction rest as [|i rest IH]; intros pre s El Hs; cbn [for_each]; [by rewrite app_nil_r in El; subst|].
  eapply ends_bind; [by eapply Hb|]. intros s' Hs'. apply (IH (pre ++ [i])); [by rewrite <-app_assoc|done].
Qed.

(** The types that can be converted are the ones that have a decoder. *)
Lemma dtype_geometry t dtype : Types.try_from (DataType.as_u32 t) = Ok dtype → Types.from dtype = DataType.as_u32 t ∧
  ∃ n b chunk, FromGguf.decode_geometry dtype = (b, n, chunk) ∧ Codec.geometry t = Some (n, b) ∧ 0 < chunk.
Proof. destruct t; cbn; intros [= <-]; (split; [done|]); by do 3 eexists. Qed.

Lemma decoded_concat t n b cs : Codec.geometry t = Some (n, b) → Forall (λ c, Z.of_nat (length c) `mod` b = 0) cs →
  concat (decoded t <$> cs) = decoded t (concat cs).
Proof.
  intros Hg. induction 1 as [|c cs Hc _ IH]; [cbn; by rewrite decoded_nil|]. cbn [fmap list_fmap concat]. by rewrite (decoded_app _ _ _ n b Hg Hc), <-IH.
Qed.

Section tensors.
Context {Hash : Sha256} {Hash_laws : Sha256Laws} {Text : JsonText} {Size : StepSize} {Csize : CertificateSize}.
Context (md : ModelMetadata) (o : WriteOptions) (origin : Digest).
Context (opts : ConversionOptions) (base_memory : Z) (synth : ExactSynthesisOptions) (scratch : Z) (Hsynth : options_ok synth).
Context (bytes : list Z) (r : GgufReader) (Hu : Forall u8 bytes) (Hlen : Parse.file_len bytes < 2 ^ 63) (Hopen : Gguf.open bytes = Ok r).

Lemma call_ends shapes n bits log s c {A} (m : Result (option Error) A * WeightWriter) : ready_to_write md o origin shapes n bits log s → call_ok c →
  (∀ w e, m = (Err e, w) → perform (writer s) c = (Err e, w)) → (∀ w a, m = (Ok a, w) → ∃ n, perform (writer s) c = (Ok n, w)) →
  ends_in (FromGguf.ran m) (λ p, ready_to_write md o origin (shapes ++ shapes_of [c]) n bits (log ++ weights_of [c]) (FromGguf.set_writer s p.2)).
Proof.
  intros (Hw & Hc & Hn) Hcall Herr Hok. destruct m as [[a|e] w]; cbn.
  - destruct (Hok w a eq_refl) as [id Hid]. split; [|done]. by eapply perform_keeps.
  - intros ->. by apply (perform_safe md o origin (writer s) shapes log c w Hw), Herr.
Qed.

Lemma chunk_ends shapes index t dtype n b chunk cs values st : FromGguf.decode_geometry dtype = (b, n, chunk) → Codec.geometry (data_type t) = Some (n, b) →
  converted md o origin shapes values st →
  ends_in (for_each (FromGguf.convert_chunk opts base_memory synth scratch index t dtype) cs st)
    (λ st', converted md o origin shapes (values ++ concat (decoded (data_type t) <$> cs)) st' ∧ Forall (λ c, Z.of_nat (length c) `mod` b = 0) cs).
Proof.
  intros Hdg Hg Hst. destruct (geometry_pos _ _ _ Hg) as [Hn Hb].
  apply (ends_items (λ cs st, converted md o origin shapes (values ++ concat (decoded (data_type t) <$> cs)) st ∧ Forall (λ c, Z.of_nat (length c) `mod` b = 0) cs));
    [cbn; by rewrite app_nil_r|].
  intros pre c post s _ [Hs HF]. unfold FromGguf.convert_chunk. rewrite Hdg.
  eapply (ends_bind _ _ (λ vs, vs = decoded (data_type t) c ∧ Z.of_nat (length c) `mod` b = 0)).
  { assert (0 ≤ Z.of_nat (length c) / b * n) as H0 by (apply Z.mul_nonneg_nonneg; [apply Z.div_pos; lia|lia]).
    pose proof (decode_f32_safe (data_type t) c _ H0) as Hsafe. destruct (Codec.decode_f32 _ _ _) as [vs|[e|]] eqn:E; cbn; [|done|done].
    apply decode_f32_ok in E as (n' & b' & k & Hg' & _ & Hl & _ & _ & ->); [|done]. rewrite Hg in Hg'. injection Hg' as <- <-.
    split; [done|]. rewrite Hl. apply Z.mod_mul. lia. }
  intros vs [-> Hc]. eapply ends_weaken.
  - apply (ends_items (λ vs, converted md o origin shapes ((values ++ concat (decoded (data_type t) <$> pre)) ++ vs))); [by rewrite app_nil_r|].
    intros vpre v vpost s' _ Hs'. rewrite app_assoc. by apply convert_value_ends.
  - intros s' Hs'. rewrite fmap_app, concat_app. cbn [fmap list_fmap concat]. rewrite app_nil_r, app_assoc. split; [done|]. apply Forall_app. split; [done|by constructor].
Qed.

(** The shape that the writer gets for a tensor. *)
Definition shape_for (t : GgufTensorInfo) (s : string * list Z * SourceDtype) : Prop :=
  s.1 = (info_name t, dims t) ∧ Types.from s.2 = DataType.as_u32 (data_type t).

(** The tensors so far are in the writer. *)
Definition tensors_converted (ts : list GgufTensorInfo) (s : Conversion) : Prop :=
  ∃ shapes log values, ready_to_write md o origin shapes (Z.of_nat (length (concat values))) (sum (bit_len ∘ term) (concat log)) log s ∧ Forall2 shape_for ts shapes ∧
    Forall2 (λ t vs, View.read_tensor_f32 r (info_name t) = Ok vs) ts values ∧ Forall2 stands_for (concat log) (concat values).

Lemma tensor_call_ok t dtype : t ∈ tensor_infos r → call_ok (BeginCall (info_name t) (dims t) dtype).
Proof.
  intros Hin. destruct (opened bytes r Hu Hlen Hopen) as (_ & _ & Hi & _). rewrite Forall_forall in Hi. destruct (Hi t Hin) as (Hname & _ & _ & Hpos & Hp & _).
  split; [done|]. clear -Hpos Hp. induction Hpos as [|d ds Hd HF IH]; [constructor|]. cbn [foldr] in Hp. assert (0 < foldr Z.mul 1 ds) by (clear -HF; induction HF; cbn; lia).
  constructor; [unfold u64; nia|apply IH; nia].
Qed.

Lemma tensor_ends ts index t s : t ∈ tensor_infos r → tensors_converted ts s →
  ends_in (FromGguf.convert_tensor opts base_memory synth scratch r (index, t) s) (tensors_converted (ts ++ [t])).
Proof.
  intros Hin (shapes & log & values & Hs & Hsh & Hvs & HF). unfold FromGguf.convert_tensor.
  eapply (ends_bind _ _ (λ dtype, Types.try_from (DataType.as_u32 (data_type t)) = Ok dtype)); [by apply ends_checked|]. intros dtype Hd.
  apply dtype_geometry in Hd as (Hfrom & n & b & chunk & Hdg & Hg & Hchunk).
  destruct (known_stored bytes r Hu Hlen Hopen t Hin) as [d Hst]; [exists (n, b); by apply geometry_layout|].
  pose proof (view_ok bytes r Hu Hlen Hopen t d Hin Hst) as Hview. destruct (decode_view bytes r Hu Hlen Hopen t d n b Hin Hst Hg) as [Hdec _].
  rewrite Hview. cbn [map_err]. rewrite Ok_bind, Hdg. cbn [view_data].
  eapply ends_bind; [apply (call_ends shapes _ _ log s (BeginCall (info_name t) (dims t) dtype) _ Hs (tensor_call_ok t dtype Hin)); cbn; eauto|].
  intros [id w] Hw. cbn [snd shapes_of weights_of omap list_omap] in Hw. rewrite app_nil_r in Hw.
  eapply ends_bind; [eapply (chunk_ends _ index t dtype n b chunk _ (concat values)); [done|done|]|].
  { exists log. cbn [fst snd pending]. by rewrite app_nil_r. }
  intros [s1 p1] [(log1 & Hs1 & HF1) Hmod]. cbn [fst snd] in *.
  rewrite (decoded_concat _ n b _ Hg Hmod), chunks_concat in HF1, Hs1 by lia.
  eapply (ends_bind _ _ (λ s2, ∃ log2, ready_to_write md o origin (shapes ++ [(info_name t, dims t, dtype)])
    (Z.of_nat (length (concat values ++ decoded (data_type t) d))) (sum (bit_len ∘ term) (concat log2)) log2 s2 ∧ concat log2 = concat log1 ++ pending p1)).
  { case_bool_decide as Hp; [exists log1; rewrite Hp, app_nil_r in Hs1 |- *; done|]. eapply ends_weaken; [by apply write_ends|]. intros s2 Hs2.
    exists (log1 ++ [pending p1]). rewrite concat_app. cbn [concat]. by rewrite app_nil_r. }
  intros s2 (log2 & Hs2 & Elog). eapply ends_bind; [apply (call_ends _ _ _ log2 s2 EndCall _ Hs2 I)|].
  - intros w2 e E. cbn [perform]. by rewrite E.
  - intros w2 a E. cbn [perform]. rewrite E. by eexists.
  - intros [u w2] Hw2. cbn [snd shapes_of weights_of omap list_omap] in Hw2. rewrite !app_nil_r in Hw2.
    exists (shapes ++ [(info_name t, dims t, dtype)]), log2, (values ++ [decoded (data_type t) d]). rewrite concat_app. cbn [concat]. rewrite app_nil_r. split; [done|]. split_and!.
    + apply Forall2_app; [done|]. constructor; [|constructor]. by split.
    + apply Forall2_app; [done|]. constructor; [|constructor]. unfold View.read_tensor_f32. by rewrite Hview, Ok_bind.
    + by rewrite Elog.
Qed.
End tensors.

(** ** The conversion *)

Section conversion.
Context {Hash : Sha256} {Hash_laws : Sha256Laws} {Text : JsonText} {Text_laws : JsonTextLaws} {Size : StepSize} {Csize : CertificateSize}.
Context {Order : MapOrder} {Order_laws : MapOrderLaws}.

(** The entries of the source, in some order. *)
Lemma convert_entries l0 l es : for_each (λ '(key, v) entries, value ← FromGguf.metadata_value v; Ok (entries ++ [mkEntry key value])) l l0 = Ok es →
  ∃ new, es = l0 ++ new ∧ Forall2 (λ p e, entry_key e = p.1 ∧ FromGguf.metadata_value p.2 = Ok (entry_value e)) l new.
Proof.
  revert l0. induction l as [|[k v] l IH]; intros l0 R; cbn [for_each] in R; [injection R as <-; exists []; by rewrite app_nil_r|].
  apply bind_ok in R as (l1 & (mv & Hv & [= <-])%bind_ok & R). apply IH in R as (new & -> & HF). exists (mkEntry k mv :: new).
  rewrite <-app_assoc. split; [done|]. by constructor.
Qed.

Definition same_metadata (m : gmap string GgufMetadataValue) (es : list GgufMetadataEntry) : Prop :=
  ∀ e, e ∈ es ↔ ∃ v, m !! entry_key e = Some v ∧ FromGguf.metadata_value v = Ok (entry_value e).

Lemma convert_metadata_ok r opts m es : FromGguf.convert_metadata r opts = Ok m → gguf_metadata r = list_to_map es → Forall metadata_entry_ok es →
  options_u64 (write opts) → 0 ≤ Gguf.header_version (gguf_header r) ≤ 3 →
  metadata_ok m ∧ metadata_limits m = conversion (write opts) ∧ same_metadata (gguf_metadata r) (gguf m).
Proof.
  intros R Emap HF [_ Hu] Hv. unfold FromGguf.convert_metadata in R. apply bind_ok in R as (entries & (new & -> & H2)%convert_entries & [= <-]). cbn [app] in *.
  assert (∀ k v, (k, v) ∈ map_order (gguf_metadata r) ↔ gguf_metadata r !! k = Some v) as Hin by (intros k v; by rewrite map_order_entries, elem_of_map_to_list).
  split; [|split; [done|]].
  - split; cbn [metadata_limits gguf schema source_gguf_version profile converter codec]; [done| | |].
    + apply Forall_forall. intros e [i He]%list_elem_of_lookup_1. destruct (Forall2_lookup_r _ _ _ _ _ H2 He) as ([k v] & Hp & Ek & Ev). cbn [fst snd] in *.
      apply list_elem_of_lookup_2, Hin in Hp. rewrite Emap in Hp. apply elem_of_list_to_map_2 in Hp. rewrite Forall_forall in HF. destruct (HF _ Hp) as [Hk Hvv].
      rewrite Ek. split; [done|]. by eapply metadata_value_ok.
    + split; [done|]. apply fits_range. cbn. lia.
    + repeat constructor.
  - intros e. cbn [gguf]. split.
    + intros [i He]%list_elem_of_lookup_1. destruct (Forall2_lookup_r _ _ _ _ _ H2 He) as ([k v] & Hp & Ek & Ev). apply list_elem_of_lookup_2, Hin in Hp. exists v. by rewrite Ek.
    + intros (v & Hk & Ev). apply Hin, list_elem_of_lookup_1 in Hk as [i Hi]. destruct (Forall2_lookup_l _ _ _ _ _ H2 Hi) as ([k' mv] & He & Ek & Ev'). cbn in *. subst k'.
      apply list_elem_of_lookup_2 in He. rewrite Ev in Ev'. injection Ev' as <-. by destruct e.
Qed.

(** [finish] publishes exactly what could be put together, unless the name was taken. *)
Lemma finish_ends md o origin w shapes log taken : writer_ok md o origin w shapes log → ends_in (Writer.finish taken w) (λ p,
  ∃ q, Reader.open p.1 (limits o) = Ok q ∧ metadata q = md ∧ source_sha256 (summary q) = origin ∧ shape <$> tensors q = shapes ∧ length (blocks q) = length log ∧
    ∀ i weights, log !! i = Some weights → ∃ b, Reader.read_block q p.1 (Z.of_nat i) = Ok b ∧ terms b = term <$> weights).
Proof.
  intros [Hb Hs]. destruct (Writer.assemble w) as [[file s]|e] eqn:Ha; [|unfold Writer.finish; by rewrite Ha].
  assert (state w = Ready) as Hready by (unfold Writer.assemble in Ha; by apply bind_unit in Ha as [?%require_ok _]).
  destruct Hs as [Hr|(f & t & old & cur & Hopen)]; [|by rewrite (open_state _ _ _ _ _ _ Hopen) in Hready].
  destruct (finish_ok _ _ _ _ _ _ _ _ Hb Hr Ha) as (Hop & Hf & Hreads). destruct (base_same _ _ _ _ _ _ Hb) as [Eo Esrc].
  assert (source_sha256 s = origin) as Hsrc.
  { unfold Writer.assemble in Ha. repeat first [apply bind_ok in Ha as (? & _ & Ha) | match type of Ha with (if ?b then _ else _) = _ => destruct b; [done|] end]. by injection Ha as _ <-. }
  assert (Writer.finish taken w = if taken then Err (Some DestinationExists) else Writer.finish false w) as ->.
  { destruct taken; [|done]. revert Hf. unfold Writer.finish, Reader.checked. rewrite Ha. cbn [map_err]. rewrite !Ok_bind, Eo, Hop. cbn [map_err]. rewrite !Ok_bind.
    by destruct (Reader.verify_all _ _). }
  destruct taken; [done|]. rewrite Hf. exists (reader_of md w s). destruct (base_log _ _ _ _ _ _ Hb) as (chunks & _ & Hl). split_and!; try done.
  - exact (base_shapes _ _ _ _ _ _ Hb).
  - cbn [reader_of blocks]. rewrite length_fmap. by apply Forall3_length_lr in Hl.
  - intros i weights Hi. by apply Hreads.
Qed.
End conversion.

(** A tensor of the weight file for one of the model file. *)
Definition same_tensor (i : GgufTensorInfo) (t : TensorInfo) : Prop :=
  name t = info_name i ∧ ggml_dimensions t = dims i ∧ Types.from (source_dtype t) = DataType.as_u32 (data_type i).

(** A term whose real value is a finite float. *)
Definition exact_term (term : Bml) (v : f32) : Prop := f32_finite v = true ∧ RealSemantics.Value term (Q2R (f32_Q v)).

Lemma blocks_read {Hash : Sha256} q file (log : list (list CertifiedBml)) : (∀ i weights, log !! i = Some weights → ∃ b, Reader.read_block q file (Z.of_nat i) = Ok b ∧ terms b = term <$> weights) →
  ∃ blocks, (λ id, Reader.read_block q file (Z.of_nat id)) <$> seq 0 (length log) = Ok <$> blocks ∧ concat (terms <$> blocks) = term <$> concat log.
Proof.
  intros Hr. assert (∀ k, (k ≤ length log)%nat → ∃ blocks, (λ id, Reader.read_block q file (Z.of_nat id)) <$> seq 0 k = Ok <$> blocks ∧
    concat (terms <$> blocks) = term <$> concat (list.take k log)) as H.
  { induction k as [|k IH]; intros Hk; [by exists []|]. destruct (IH ltac:(lia)) as (blocks & Hb & Ht). destruct (lookup_lt_is_Some_2 log k) as [weights Hw]; [lia|].
    destruct (Hr k weights Hw) as (b & Hread & Hterms). exists (blocks ++ [b]). rewrite seq_S, !fmap_app, Hb. cbn [fmap list_fmap Nat.add]. rewrite Hread. split; [done|].
    rewrite (take_S_r _ _ _ Hw), !concat_app, Ht, fmap_app. cbn [concat]. by rewrite !app_nil_r, Hterms. }
  destruct (H (length log)) as (blocks & Hb & Ht); [done|]. exists blocks. split; [done|]. by rewrite firstn_all in Ht.
Qed.

Lemma working_set_nonneg bytes : Forall u8 bytes → Parse.file_len bytes < 2 ^ 63 → ∀ opts, options_u64 (write opts) → ∀ es r base, gguf_laid_out bytes es r →
  Preflight.inspect bytes opts = Ok base → 0 ≤ base.
Proof.
  intros Hu Hlen opts [Hl Hc] es r base Hes Hb. assert (u64 (max_resident_bytes (conversion (write opts)))) as Hres.
  { unfold conversion_u64 in Hc. rewrite !Forall_cons in Hc. unfold Integer.fits in Hc. cbn in Hc. unfold u64. lia. }
  apply (inspect_gives bytes Hlen opts Hl Hres es r Hes) in Hb as [_ ->]. destruct (gguf_entries _ _ _ Hes) as (HF & _). pose proof (leaves_length es HF). unfold working_set. lia.
Qed.

Lemma imap_tensors (l : list GgufTensorInfo) : (imap (λ i t, (Z.of_nat i, t)) l).*2 = l.
Proof. rewrite fmap_imap. cbn. apply list_eq. intros i. rewrite list_lookup_imap. by destruct (l !! i). Qed.

(** [C3] A conversion is exact, end to end. It never panics. When it succeeds, the source is
    a model file and the published file opens: it records the hash of the source, each of its
    metadata entries, and its tensors with their names, shapes and types. Its blocks, read one
    after the other, give one term per weight of the decoded tensors, in their order, and the
    real value of each term is exactly the decoded number. The report counts the weights and
    the bits of their terms. *)
Theorem conversion_exact {Hash : Sha256} {Hash_laws : Sha256Laws} {Text : JsonText} {Text_laws : JsonTextLaws} {Size : StepSize} {Csize : CertificateSize}
    {Order : MapOrder} {Order_laws : MapOrderLaws} bytes same destination at_creation at_publication opts :
  Forall u8 bytes → Parse.file_len bytes < 2 ^ 63 → options_u64 (write opts) → options_ok (synthesis opts) →
  FromGguf.from_gguf bytes same destination at_creation at_publication opts ≠ Err None ∧
  ∀ file report, FromGguf.from_gguf bytes same destination at_creation at_publication opts = Ok (file, report) →
    ∃ r q values blocks, Gguf.open bytes = Ok r ∧ Reader.open file (limits (write opts)) = Ok q ∧
      source_sha256 (summary q) = sha256 bytes ∧ same_metadata (gguf_metadata r) (gguf (metadata q)) ∧
      Forall2 same_tensor (tensor_infos r) (tensors q) ∧
      Forall2 (λ i vs, View.read_tensor_f32 r (info_name i) = Ok vs) (tensor_infos r) values ∧
      (λ id, Reader.read_block q file (Z.of_nat id)) <$> seq 0 (length (WeightReader.blocks q)) = Ok <$> blocks ∧
      Forall2 exact_term (concat (terms <$> blocks)) (concat values) ∧
      weights_synthesized report + weights_reused report = Z.of_nat (length (concat values)) ∧
      report_tree_bits report = sum bit_len (concat (terms <$> blocks)).
Proof.
  intros Hu Hlen Ho Hsyn. set (Q := λ p : list Z * ConversionReport, ∃ r q values blocks, Gguf.open bytes = Ok r ∧ Reader.open p.1 (limits (write opts)) = Ok q ∧
      source_sha256 (summary q) = sha256 bytes ∧ same_metadata (gguf_metadata r) (gguf (metadata q)) ∧
      Forall2 same_tensor (tensor_infos r) (tensors q) ∧
      Forall2 (λ i vs, View.read_tensor_f32 r (info_name i) = Ok vs) (tensor_infos r) values ∧
      (λ id, Reader.read_block q p.1 (Z.of_nat id)) <$> seq 0 (length (WeightReader.blocks q)) = Ok <$> blocks ∧
      Forall2 exact_term (concat (terms <$> blocks)) (concat values) ∧
      weights_synthesized p.2 + weights_reused p.2 = Z.of_nat (length (concat values)) ∧
      report_tree_bits p.2 = sum bit_len (concat (terms <$> blocks))).
  assert (ends_in (FromGguf.from_gguf bytes same destination at_creation at_publication opts) Q) as H.
  2: { apply ends_ok in H as [H1 H2]. split; [done|]. intros file report E. exact (H2 _ E). }
  unfold FromGguf.from_gguf. eapply (ends_bind _ _ (λ _, True)); [by apply ends_checked|]. intros _ _. destruct same; [done|]. destruct destination; [done| |done].
  eapply (ends_bind _ _ (λ n, Preflight.inspect bytes opts = Ok n)).
  { pose proof (inspect_ends bytes opts Hu) as Hends. by destruct (Preflight.inspect bytes opts) as [n|]. }
  intros base Hbase.
  eapply (ends_bind _ _ (λ r, Gguf.open bytes = Ok r)).
  { pose proof (open_safe bytes Hu Hlen) as Hsafe. destruct (Gguf.open bytes) as [r|[e|]]; cbn; done. }
  intros r Hopen. destruct (open_gguf_laid_out bytes Hu Hlen r Hopen) as (es & Hes). apply (working_set_nonneg bytes Hu Hlen opts Ho es r base Hes) in Hbase.
  destruct Hes as [_ _ [_ Hv] _ (HF & _ & Emap) _ _ _]. cbv zeta.
  eapply (ends_bind _ _ (λ m, metadata_ok m ∧ same_metadata (gguf_metadata r) (gguf m))).
  { apply ends_checked. intros m Hm. destruct (convert_metadata_ok r opts m es Hm Emap HF Ho ltac:(lia)) as (? & _ & ?). done. }
  intros m [Hm Hsame]. set (md := Writer.prepare m (write opts)).
  eapply (ends_bind _ _ (λ w, writer_ok md (write opts) (sha256 bytes) w [] [])).
  { apply ends_checked. intros w Hw. apply create_ok in Hw as [Hb Hr]; [|done|done|done|apply sha256_bytes..]. split; [done|by left]. }
  intros w Hw. eapply (ends_bind _ _ options_ok).
  { apply ends_checked. intros s (H1 & H2 & H3 & H4 & H5 & H6 & H7)%effective_synthesis_ok. destruct Hsyn as (S1 & [_ S2] & [_ S3] & S4 & S5).
    unfold options_ok, usize in *. rewrite H5, H6, H7. split_and!; done || lia. }
  intros synth Hsynth. eapply (ends_bind _ _ (λ _, True)); [by apply ends_checked|]. intros scratch _.
  eapply (ends_bind _ _ (tensors_converted md (write opts) (sha256 bytes) r (tensor_infos r))).
  { eapply ends_weaken; [apply (ends_items (λ items, tensors_converted md (write opts) (sha256 bytes) r items.*2))|intros s; by rewrite imap_tensors].
    - exists [], [], []. split; [|by repeat constructor]. by split_and!.
    - intros pre [i t] post s Ei Hs. rewrite fmap_app. apply (tensor_ends md (write opts) (sha256 bytes) opts base synth scratch Hsynth bytes r Hu Hlen Hopen); [|done].
      rewrite <-(imap_tensors (tensor_infos r)), Ei, fmap_app. apply elem_of_app. right. left. }
  intros s (shapes & log & values & (Hws & _ & Hn & Hbits) & Hsh & Hvs & HF2).
  pose proof (external_keeps _ _ _ _ 0 _ _ Hws) as Hk. destruct (FromGguf.check_external_memory (writer s) 0) as [result w']. cbn [snd] in Hk.
  eapply (ends_bind _ _ (λ _, True)); [by apply ends_checked|]. intros _ _. eapply ends_bind; [exact (finish_ends md (write opts) (sha256 bytes) w' shapes log at_publication Hk)|].
  intros [file rep] (q & Hq & Emd & Esrc & Eshape & Eblocks & Hread). cbn [fst] in *. destruct (blocks_read q file log Hread) as (blocks & Hb & Ht).
  exists r, q, values, blocks. rewrite Eblocks. split_and!; try done.
  - intros e. rewrite Emd. cbn [md Writer.prepare gguf]. rewrite sort_entries_perm. apply Hsame.
  - rewrite <-Eshape in Hsh. apply (Forall2_fmap_r shape) in Hsh. eapply Forall2_impl; [exact Hsh|]. intros i t [E1 E2]. cbn in E1, E2. injection E1 as E3 E4. by split_and!.
  - rewrite Ht. apply Forall2_fmap_l. eapply Forall2_impl; [exact HF2|]. intros c v (Hc & Hfin & HQ). split; [done|].
    rewrite <-(rat_R_eq _ _ HQ). by apply certified_value.
  - cbn. rewrite Hbits, Ht. unfold sum. by rewrite foldr_fmap.
Qed.

(** ** A small conversion *)

#[local] Existing Instances toy_sha256 toy_sha256_laws binary_text binary_text_laws.
#[local] Instance sample_step_size : StepSize := 64.
#[local] Instance sample_certificate_size : CertificateSize := 200.
#[local] Instance sorted_order : MapOrder := map_to_list.

#[local] Instance sorted_order_laws : MapOrderLaws.
Proof. by intros m. Qed.

(** The sample model file has the weights 1, 2, 3 and 4. *)
Lemma sample_converts : match FromGguf.from_gguf sample_gguf false Absent false false preflight_options with
  | Ok (_, report) => weights_synthesized report = 4 ∧ weights_reused report = 0 | Err _ => False end.
Proof. vm_compute. by split. Qed.

Lemma conversion_exact_witness : ∃ file report q blocks, FromGguf.from_gguf sample_gguf false Absent false false preflight_options = Ok (file, report) ∧
  Reader.open file (limits (write preflight_options)) = Ok q ∧ Forall2 same_tensor [sample_info] (tensors q) ∧
  (λ id, Reader.read_block q file (Z.of_nat id)) <$> seq 0 (length (WeightReader.blocks q)) = Ok <$> blocks.
Proof.
  destruct (FromGguf.from_gguf sample_gguf false Absent false false preflight_options) as [[file report]|e] eqn:E; [|exfalso; pose proof sample_converts as H; rewrite E in H; exact H].
  destruct (proj2 (conversion_exact sample_gguf false Absent false false preflight_options sample_u8 eq_refl sample_options_u64 options_default_ok) file report E)
    as (r & q & values & blocks & Hopen & Hq & _ & _ & Ht & _ & Hb & _).
  rewrite sample_gguf_opens in Hopen. injection Hopen as <-. exists file, report, q, blocks. split; [reflexivity|]. split; [exact Hq|]. split; [exact Ht|exact Hb].
Defined.
